(* ===== verification/_CoqProject ===== *)
-Q . S2P
Prelude.v
Text.v
AsonModel.v
AsonCodec.v
AsonScalarFacts.v
AsonFacts.v
AsonSound.v
Graph.v
Wire.v
Capability.v
Frame.v
Handshake.v
Request.v
RequestFacts.v
RequestCodec.v
RequestEnvelope.v
Response.v
ResponseFacts.v
WireProps.v
RequestProps.v
Budget.v
Dag.v
Governor.v
Paths.v
Store.v
Runtime.v
Capture.v
Reducer.v
ReducerFacts.v
ReducerBlocks.v
Syntax.v
Parser.v
ParserFacts.v
ShellState.v
Expand.v
Glob.v
EngineProps.v
StoreProps.v
ReducerProps.v
ShellProps.v
Workspace.v
Manifest.v
Disk.v
Mutation.v
Transaction.v
JournalState.v
RollbackFacts.v
Durable.v
ApplyFacts.v
Committing.v
PrepareFacts.v
Publishing.v
Atomicity.v
Rows.v
Permits.v
NativeTree.v
Projection.v
ProjectionFacts.v
Patch.v
AnswerFacts.v
PatchFacts.v
PatchReports.v
PlatformProps.v
Authorization.v
WorkspaceRead.v
Semantic.v
ServiceFacts.v
Queries.v
SnapshotManifest.v
Snapshot.v
Reference.v
Streams.v
Process.v
Exec.v
Batch.v
OpsProps.v
AuthProps.v
ServiceProps.v
RetainedProps.v
ExecProps.v
