(* ===== verification/Prelude.v ===== *)
(** * ash: a verification of the shell service's core

    [ash] runs the operations that an agent asks for (commands, reads, searches,
    patches) inside a workspace.  A client sends framed ASON documents; a server
    negotiates a session, decodes requests, charges them to budgets, runs the nodes
    of a batch in dependency order, keeps their output in a store, shortens it, and
    replies.  A human-facing shell in the same repository parses and expands command
    lines.  This library models the parts of that path that decide what happens, as
    executable functions translated from the Rust source, and proves what each part
    promises to the next.

    ** Files and the source they model

    - this file: fallible computations ([result] with stdpp's bind notation), machine
      integers, adjacent pairs, duplicates and sums.  [Text]: strings of code points with
      their UTF-8 bytes, big-endian integers, decimals.
    - [AsonModel], [AsonCodec] and the facts [AsonScalarFacts], [AsonFacts], [AsonSound]:
      crates/ash-protocol/src/ason (data model, printer, parser with its limits and
      error positions).  Properties: [WireProps].
    - [Wire] and [Capability] (operation.rs, capability.rs), [Frame] (frame.rs),
      [Handshake] (handshake.rs): the session's first exchange and the framing.
      Properties: [WireProps].
    - [Graph], [Request], [RequestCodec], [RequestEnvelope], [RequestFacts]: request.rs,
      every operation's argument schema, its validation, and the batch with its
      topological walk.  [Response] and [ResponseFacts]: response.rs.  Properties:
      [RequestProps].
    - [Budget], [Dag], [Governor], [Runtime]: crates/ash-engine/src.  Properties:
      [EngineProps].
    - [Paths], [Store], [Capture]: crates/ash-store/src.  Properties: [StoreProps].
    - [Reducer], [ReducerFacts], [ReducerBlocks]: crates/ash-ops/src/reducer.rs.
      Properties: [ReducerProps].
    - [Syntax], [Parser], [ParserFacts] (syntax.rs, diagnostic.rs, parser.rs),
      [ShellState] (state.rs), [Expand] (expand.rs), [Glob] (glob.rs):
      crates/ash-shell/src.  Properties: [ShellProps].
    - [Workspace], [Manifest], [Disk], [Mutation], [Transaction]:
      crates/ash-platform/src (workspace.rs, mutation.rs, transaction.rs).  [Disk] is the
      file system the code calls; [Transaction] the code, one system call at a time.
      The proofs follow a transaction's life: [JournalState] (what a journal on disk
      means), [RollbackFacts], [Durable], [ApplyFacts], [Committing], [PrepareFacts],
      [Publishing] and [Atomicity] (one transaction, and histories of them).
      Properties: [PlatformProps].
    - [NativeTree] (the system's files as others leave them) and [WorkspaceRead]:
      workspace.rs, the resolution of paths, reads and walks; identity.rs.
    - [Projection] and [ProjectionFacts] (error.rs, projection.rs), [Patch] (patch.rs,
      filesystem.rs, mutation.rs): crates/ash-ops/src, over the parts above.  [Rows]
      (the rows of any transaction) and [AnswerFacts] show that an answer can be built
      and fits; [PatchFacts] and [PatchReports] follow an operation from its request to
      the disk.  Properties: [OpsProps].
    - [Permits] and [Authorization]: authorization.rs, the policy, the challenges, the
      authority's tables and its tokens.  Properties: [AuthProps].
    - [Semantic] and [ServiceFacts] (semantic.rs), [Queries] (read.rs, list.rs,
      search.rs): the services, serial and parallel, and the operations over them.
      Properties: [ServiceProps].
    - [SnapshotManifest] and [Snapshot]: snapshot.rs.  [Reference]: reference.rs, what is
      asked of a retained result.  Properties: [RetainedProps].
    - [Process] (process.rs: descriptions, validation and launch of a process, and the
      validation and starting order of graphs of connected processes), [Streams]
      and [Exec] (exec.rs: the reading and the projection of a process's streams, the
      operation), [Batch] (batch.rs and lib.rs: batches, and the dispatch of every request
      to the operations above).  Properties: [ExecProps].

    A definition keeps the name of the item it translates, with the type first when
    the item is a method whose name is common ([Request_new], [job_insert]).

    ** How state and effects appear

    A [Result] is [result E A]; the parser of the shell adds running out of fuel.  A
    mutated field is a record passed and returned.  What several tasks share is a
    step relation: [Budget] interleaves the loads and compare-exchanges of
    reservations, [Dag] lets running jobs finish in any order, [Governor] polls
    acquisitions against an interface of semaphores, [Runtime] interleaves the
    atomic steps of a session's handles, [Capture] the calls on one store and its
    captures.  The invariants hold in every state those steps reach.  A file
    transaction is a computation [io] over a disk and an environment that may refuse
    any system call, cut a call short, or kill the process in it; its specifications
    are weakest preconditions with a clause for dying.  An operation is a computation
    [op] over its program's shared objects and the disk; before each of its turns the
    other tasks act on both, as the function [su_others] of its surroundings has it.  What
    an operation's answer says is a statement about the states at which it was called and
    returned: [Queries.since] relates two states of a run (an alias of the store keeps its
    bytes, and goes only when the others release it; the deadline stays), [retained] tells
    what the store has under a reference at a state, [read_under] what was read under one
    between two states, [found] what a service found between them, and
    [WorkspaceRead.answered] what the system answered between them.

    What the code calls and does not define is a parameter: the byte streams of
    [Frame] and the semaphores of [Governor] are type classes with their laws, the
    BLAKE3 digest is a function, the outcome of a file operation is an argument, the
    file system of [Glob] is a record of functions, BLAKE3, same-file and atomicwrites
    are the class [Libraries] with its laws, the regex crate is [RegexEngine] (with
    [RegexLaws] where the places of matches matter), an unstable sort is [UnstableSort].
    Two assumptions about the runtime are built in: a job of the worker pool runs
    between two turns of the others, and what a walk or a read of the native files sees
    is the answer of the surroundings at that turn ([su_tree]).  What the operating system
    answers about processes is [ProcessHost]: a process is the chunks its parent reads, its
    end and the answers to its signals.  A node of a batch runs its operation over what the
    world shows to its program ([Children]), which nothing constrains.

    ** What the properties show

    - [WireProps]: printing and parsing are inverse on well-formed documents, the
      parser returns only such documents, the canonical texts are the printed ones;
      frames are read the same however the transport cuts them, and a negotiated session
      is within both sides' limits.
    - [RequestProps]: requests and arguments are decoded exactly when they encode
      something the constructor accepts; validation accepts exactly the acyclic
      batches, and patches and filesystem programs that touch nothing twice.  The
      constructor of responses accepts exactly those whose parts agree, and a response's
      document determines it.
    - [EngineProps]: scheduling is independent of the order of completion, budgets
      are never exceeded, a session's table is exact and a closed session is quiet.
    - [StoreProps]: quotas and tables agree, retained bytes are read back, aliases
      are never reused, captures are faithful, path identifiers resolve.
    - [ReducerProps]: the shortened output determines the text, is never longer, the
      hashed search is the exact one, and errors keep their context.
    - [ShellProps]: every source is parsed or refused in place, words become the
      fields their quotes allow, and patterns name exactly the paths that match.
    - [PlatformProps]: transactions, crashes and recoveries are a serial history of
      whole transactions; reports are true; an undisturbed transaction succeeds exactly
      when its request is admitted; paths are confined; manifests are read back.  They
      suppose that the digest tells the contents that occur apart, that nobody else
      writes to the workspace while a transaction holds its locks, and that the
      removal of a published journal is not cut short
      ([PlatformProps.cut_short_cleanup_undoes_commit] is what happens otherwise).
    - [OpsProps]: what a patch or a filesystem program answers is true of the disk,
      whatever the others do between its turns, as long as they leave a disk that stands
      for a workspace; a patched file is its edits; answers always fit what was reserved
      for them; the search for the largest presentation ends with it.
    - [AuthProps]: a token is accepted at most once, for the request it was issued for
      and before it expires; requests beyond the policy never run.
    - [ServiceProps]: over a provider that stands still, as the workspace does while nobody
      changes its files, the parallel services answer what the serial ones do, and a search
      and a listing are exactly what their specification says; reads and walks go only
      through canonical places below the root; what the three operations answer is what
      the services found, and their references are those of the evidence.
    - [RetainedProps]: snapshots and their changes are true, and manifests are read back
      exactly; an answer about a retained result is true of the retained bytes, and a
      materialization is true of the disk.
    - [ExecProps]: the answer to a command tells the end of the process that was asked for
      and shows or retains all that its streams brought; the answer to a batch has a row for
      each node that ran, exactly when it should, about that node's own answer; graphs of
      processes are accepted exactly when their pipes are whole and nobody waits for itself.

    ** Fuel

    Loops that are not structural take fuel: the length of the input plus one for the
    parsers, the number of nodes for the topological walk, the number of lines for
    the block search.  A theorem says each time that it is enough ([parse_total],
    [ason_decode_encode] with [ason_decode_sound], [kahn_total_and_exact],
    [collapse_blocks_expand], [compile_loop_fuel], [hash_loop_fuel], [slice_loop_fuel],
    [spawn_loop_spec]).  The nesting of substitutions and of ASON documents is bounded by
    the source's own limits.

    ** Not modelled

    The launch of graphs of connected processes (process.rs; their validation and order
    are modelled).  The shell's resolver, execution and terminal; update manifests,
    archives and installation; the command line; benchmarks and fuzz targets.  Most of
    these are operating-system I/O or third-party cryptography.  Of file transactions: permission
    bits, what power loss leaves of unsynced writes, the temporary directories of
    atomicwrites, Windows.
    The target is a 64-bit Unix one.  [Display] texts are modelled where another part
    reads them. *)

From Stdlib Require Export ZArith Lia.
From Stdlib Require Sorted.
From stdpp Require Export base decidable list countable gmap strings numbers option.

Declare Scope ash_scope.
Delimit Scope ash_scope with ash.
#[global] Open Scope Z_scope.

(** ** Fallible computations

    Rust's [Result<A, E>]; the error type comes first so that [result E] is a
    monad for stdpp's [x ← m; k] notation, which plays the role of [?]. *)

Inductive result (E A : Type) : Type :=
| Ok (a : A)
| Err (e : E).
Arguments Ok {E A} a.
Arguments Err {E A} e.

#[export] Instance result_eq_dec E A `{EqDecision E, EqDecision A} :
  EqDecision (result E A).
Proof. solve_decision. Defined.

#[export] Instance result_ret E : MRet (result E) := fun A a => Ok a.
#[export] Instance result_bind E : MBind (result E) := fun A B f m =>
  match m with Ok a => f a | Err e => Err e end.
#[export] Instance result_fmap E : FMap (result E) := fun A B f m =>
  match m with Ok a => Ok (f a) | Err e => Err e end.

(** [Result::map_err], [Option::ok_or] and [Result::ok]. *)
Definition map_err {E F A} (f : E -> F) (m : result E A) : result F A :=
  match m with Ok a => Ok a | Err e => Err (f e) end.

Definition ok_or {E A} (o : option A) (e : E) : result E A :=
  match o with Some a => Ok a | None => Err e end.

Definition to_option {E A} (m : result E A) : option A :=
  match m with Ok a => Some a | Err _ => None end.

Definition is_ok {E A} (m : result E A) : bool :=
  match m with Ok _ => true | Err _ => false end.

Lemma bind_ok {E A B} (m : result E A) (f : A -> result E B) b :
  m ≫= f = Ok b <-> exists a, m = Ok a /\ f a = Ok b.
Proof. destruct m; cbn; split; naive_solver. Qed.

Lemma bind_err {E A B} (m : result E A) (f : A -> result E B) e :
  m ≫= f = Err e <-> m = Err e \/ exists a, m = Ok a /\ f a = Err e.
Proof. destruct m; cbn; split; naive_solver. Qed.

Lemma ok_or_err {E A} (o : option A) (e e' : E) : ok_or o e = Err e' <-> o = None /\ e = e'.
Proof. destruct o; cbn; naive_solver. Qed.

Lemma fmap_ok {E A B} (m : result E A) (f : A -> B) b :
  f <$> m = Ok b <-> exists a, m = Ok a /\ b = f a.
Proof. destruct m; cbn; split; naive_solver. Qed.

Lemma map_err_ok {E F A} (f : E -> F) (m : result E A) a :
  map_err f m = Ok a <-> m = Ok a.
Proof. destruct m; cbn; split; naive_solver. Qed.

Lemma ok_or_ok {E A} (o : option A) (e : E) a : ok_or o e = Ok a <-> o = Some a.
Proof. destruct o; cbn; naive_solver. Qed.

(** Inversion of a computation that returned [Ok]. *)
Ltac inv_ok_step :=
  match goal with
  | H : @Ok _ _ _ = @Ok _ _ _ |- _ => injection H as H
  | H : @Err _ _ _ = @Ok _ _ _ |- _ => discriminate H
  | H : mret _ = @Ok _ _ _ |- _ => injection H as H
  | H : _ ≫= _ = @Ok _ _ _ |- _ => apply bind_ok in H as (? & ? & H)
  | H : _ <$> _ = @Ok _ _ _ |- _ => apply fmap_ok in H as (? & ? & ?)
  | H : map_err _ _ = @Ok _ _ _ |- _ => apply map_err_ok in H
  | H : ok_or _ _ = @Ok _ _ _ |- _ => apply ok_or_ok in H
  | H : (if ?b then @Err _ _ _ else _) = @Ok _ _ _ |- _ =>
      let E := fresh "Hc" in destruct b eqn:E; [discriminate H|]
  | H : (if ?b then _ else @Err _ _ _) = @Ok _ _ _ |- _ =>
      let E := fresh "Hc" in destruct b eqn:E; [|discriminate H]
  end.
Ltac inv_ok := repeat inv_ok_step.

(** ** [collect::<Result<Vec<_>, _>>()] *)

Section mapM_result.
Context {E A B : Type}.
Implicit Types (f : A -> result E B) (l : list A) (k : list B).

Lemma mapM_ok f l k : mapM f l = Ok k <-> Forall2 (fun x y => f x = Ok y) l k.
Proof.
  split.
  - revert k. induction l as [|x l IH]; intros k H; cbn in H.
    + injection H as <-. constructor.
    + inv_ok. subst. constructor; auto.
  - induction 1 as [|x y l k Hxy _ IH]; cbn; [done|].
    rewrite Hxy. cbn. rewrite IH. done.
Qed.

Lemma mapM_fmap_ok f (g : B -> A) k :
  Forall (fun y => f (g y) = Ok y) k -> mapM f (g <$> k) = Ok k.
Proof.
  intros H. apply mapM_ok. induction H; cbn; constructor; auto.
Qed.

Lemma mapM_ok_fmap_inv f (g : B -> A) l k :
  (forall x y, f x = Ok y -> x = g y) -> mapM f l = Ok k -> l = g <$> k.
Proof.
  intros Hg H%mapM_ok. induction H as [|x y l k Hxy _ IH]; [done|].
  cbn. f_equal; auto.
Qed.

Lemma mapM_ok_length f l k : mapM f l = Ok k -> length k = length l.
Proof. intros H%mapM_ok. symmetry. by eapply Forall2_length. Qed.

Lemma mapM_total f l :
  (forall x, x ∈ l -> exists y, f x = Ok y) -> exists k, mapM f l = Ok k.
Proof.
  induction l as [|x l IH]; intros H; [by eexists|].
  destruct (H x) as [y Hy]; [left|].
  destruct IH as [k Hk]; [intros z Hz; apply H; by right|].
  exists (y :: k). cbn. rewrite Hy. cbn. rewrite Hk. done.
Qed.
End mapM_result.

(** ** Machine integers

    A [u8], [u16], [u32], [u64], [usize] or [i64] is a [Z]; the target is a
    64-bit one, so [usize] has the range of [u64]. *)

Abbreviation u8_max := 255 (only parsing).
Abbreviation u16_max := 65535 (only parsing).
Abbreviation u32_max := 4294967295 (only parsing).
Abbreviation u64_max := 18446744073709551615 (only parsing).
Abbreviation usize_max := 18446744073709551615 (only parsing).

Definition u16_ok (n : Z) : bool := (0 <=? n) && (n <=? u16_max).
Definition u32_ok (n : Z) : bool := (0 <=? n) && (n <=? u32_max).
Definition u64_ok (n : Z) : bool := (0 <=? n) && (n <=? u64_max).
Definition i64_ok (n : Z) : bool :=
  (-9223372036854775808 <=? n) && (n <=? 9223372036854775807).

Definition saturating_add (max a b : Z) : Z := Z.min (a + b) max.
Definition saturating_mul (max a b : Z) : Z := Z.min (a * b) max.
Definition saturating_sub (a b : Z) : Z := Z.max (a - b) 0.
Definition checked_add (max a b : Z) : option Z :=
  if a + b <=? max then Some (a + b) else None.

Lemma checked_add_Some max a b c :
  checked_add max a b = Some c <-> c = a + b /\ a + b <= max.
Proof. unfold checked_add. destruct (Z.leb_spec (a + b) max); naive_solver lia. Qed.

Definition checked_mul (max a b : Z) : option Z :=
  if a * b <=? max then Some (a * b) else None.
Definition checked_sub (a b : Z) : option Z := if b <=? a then Some (a - b) else None.

Lemma checked_sub_Some a b c : checked_sub a b = Some c <-> c = a - b /\ b <= a.
Proof. unfold checked_sub. destruct (Z.leb_spec b a); naive_solver lia. Qed.

(** [len x] is a [Vec]'s or slice's [.len()]. *)
Definition len {A} (l : list A) : Z := Z.of_nat (length l).

Lemma len_nonneg {A} (l : list A) : 0 <= len l.
Proof. unfold len. lia. Qed.
Lemma len_nil {A} : len (@nil A) = 0.
Proof. done. Qed.
Lemma len_cons {A} (x : A) l : len (x :: l) = 1 + len l.
Proof. unfold len. cbn. lia. Qed.
Lemma len_app {A} (l k : list A) : len (l ++ k) = len l + len k.
Proof. unfold len. rewrite length_app. lia. Qed.
Lemma len_fmap {A B} (f : A -> B) l : len (f <$> l) = len l.
Proof. unfold len. by rewrite length_fmap. Qed.

Create HintDb ash_len.
#[export] Hint Rewrite @len_nil @len_cons @len_app @len_fmap : ash_len.
#[export] Hint Resolve len_nonneg : core.

(** Induction on the length of a list. *)
Lemma list_length_ind {A} (P : list A -> Prop) :
  (forall l, (forall k, (length k < length l)%nat -> P k) -> P l) -> forall l, P l.
Proof.
  intros H l. remember (length l) as n eqn:E. revert l E.
  induction n as [n IH] using lt_wf_ind. intros l ->. apply H. intros k Hk. by eapply IH.
Qed.

(** ** Adjacent pairs and duplicates *)

(** [xs.windows(2).all(|pair| r(pair[0], pair[1]))] *)
Fixpoint windows2_all {A} (r : A -> A -> bool) (l : list A) : bool :=
  match l with
  | x :: (y :: _) as t => r x y && windows2_all r t
  | _ => true
  end.

(** The element a loop [if !set.insert(x) { return .. }] over [l] stops at: the
    first one already in the growing [HashSet]. *)
Fixpoint first_duplicate_from `{Countable K} (seen : gset K) (l : list K) : option K :=
  match l with
  | [] => None
  | x :: l =>
      if bool_decide (x ∈ seen) then Some x
      else first_duplicate_from ({[x]} ∪ seen) l
  end.
Definition first_duplicate `{Countable K} (l : list K) : option K :=
  first_duplicate_from ∅ l.

Section duplicates.
Context `{Countable K}.
Implicit Types (l : list K) (seen : gset K).

Lemma first_duplicate_from_None seen l :
  first_duplicate_from seen l = None <->
  NoDup l /\ forall x, x ∈ l -> x ∉ seen.
Proof.
  revert seen. induction l as [|x l IH]; intros seen; cbn.
  - split; [|done]. intros _. split; [constructor|]. intros x Hx. by apply elem_of_nil in Hx.
  - case_bool_decide as Hx; [|rewrite IH, list.NoDup_cons]; set_solver.
Qed.

Lemma first_duplicate_None l : first_duplicate l = None <-> NoDup l.
Proof. unfold first_duplicate. rewrite first_duplicate_from_None. set_solver. Qed.
End duplicates.

Section windows2.
Context {A : Type} (r : A -> A -> bool).

Lemma windows2_all_cons2 x y l :
  windows2_all r (x :: y :: l) = r x y && windows2_all r (y :: l).
Proof. done. Qed.

(** For a transitive test, adjacent pairs in order means all pairs in order. *)
Lemma windows2_all_Forall x l :
  (forall a b c, r a b = true -> r b c = true -> r a c = true) ->
  windows2_all r (x :: l) = true -> Forall (fun y => r x y = true) l.
Proof.
  intros Ht. revert x. induction l as [|y l IH]; intros x; [constructor|].
  rewrite windows2_all_cons2. intros [Hxy Hl]%andb_true_iff.
  constructor; [done|]. eapply Forall_impl; [|exact (IH _ Hl)]. cbn. eauto.
Qed.

Lemma windows2_all_NoDup l :
  (forall a b c, r a b = true -> r b c = true -> r a c = true) ->
  (forall a, r a a = false) -> windows2_all r l = true -> NoDup l.
Proof.
  intros Ht Hi. induction l as [|x l IH]; intros Hl; [constructor|].
  constructor.
  - intros Hin. apply windows2_all_Forall in Hl; [|done].
    rewrite Forall_forall in Hl. specialize (Hl x ltac:(by apply list_elem_of_In)).
    by rewrite Hi in Hl.
  - apply IH. destruct l; [done|]. by apply andb_true_iff in Hl as [_ ?].
Qed.

Lemma windows2_all_Sorted (R : A -> A -> Prop) l :
  (forall x y, r x y = true <-> R x y) -> windows2_all r l = true <-> Sorted.Sorted R l.
Proof.
  intros Hr.
  induction l as [|x [|y l] IH]; [split; [constructor|done]|split; [by repeat constructor|done]|].
  rewrite windows2_all_cons2, andb_true_iff, IH, Hr. split.
  - intros [Hxy Hl]. by constructor; [|constructor].
  - inversion 1 as [|? ? Hl Hxy]; subst. by inversion Hxy.
Qed.
End windows2.

(** ** Sums *)

Definition zsum {A} (f : A -> Z) (l : list A) : Z := foldr (fun x s => f x + s) 0 l.

#[global] Arguments zsum : simpl never.

Lemma zsum_nil {A} (f : A -> Z) : zsum f [] = 0.
Proof. done. Qed.
Lemma zsum_cons {A} (f : A -> Z) x l : zsum f (x :: l) = f x + zsum f l.
Proof. done. Qed.
Lemma zsum_app {A} (f : A -> Z) l k : zsum f (l ++ k) = zsum f l + zsum f k.
Proof.
  induction l as [|x l IH]; [done|]. rewrite <- app_comm_cons, !zsum_cons, IH. lia.
Qed.
Lemma zsum_Permutation {A} (f : A -> Z) l k : Permutation l k -> zsum f l = zsum f k.
Proof. induction 1; rewrite ?zsum_cons in *; lia. Qed.
Lemma zsum_nonneg {A} (f : A -> Z) l : (forall x, 0 <= f x) -> 0 <= zsum f l.
Proof.
  intros H. induction l as [|x l IH]; [done|]. rewrite zsum_cons. specialize (H x). lia.
Qed.
Lemma zsum_const {A} (l : list A) : zsum (fun _ => 1) l = len l.
Proof. induction l as [|x l IH]; [done|]. rewrite zsum_cons, len_cons. lia. Qed.

Lemma zsum_insert {A} (f : A -> Z) l i x y :
  l !! i = Some x -> zsum f (<[i := y]> l) = zsum f l - f x + f y.
Proof.
  intros Hi. rewrite insert_take_drop by by eapply lookup_lt_Some.
  rewrite <- (take_drop_middle l i x Hi) at 3. rewrite !zsum_app, !zsum_cons. lia.
Qed.

(** A closed decidable goal, by evaluation. *)
Ltac decide_closed := refine (proj1 (bool_decide_eq_true _) _); vm_compute; reflexivity.
