(* ===== verification/Text.v ===== *)
(** * Text: Rust's [char], [str] and number formatting

    A [char] is its Unicode scalar value and a [str] the list of its chars; the
    UTF-8 bytes of a [str] are computed, so that byte lengths, byte offsets and
    [bytes()] are those of the running program. *)

From Stdlib Require DecimalN DecimalFacts HexadecimalN HexadecimalFacts.
From Stdlib Require Import DecimalFacts DecimalPos DecimalN.
From S2P Require Import Prelude.

Abbreviation char := Z (only parsing).
Abbreviation str := (list Z) (only parsing).
Abbreviation bytes := (list Z) (only parsing).

(** A literal of the source, by its ASCII text. *)
Definition lit (s : string) : str :=
  (fun a => Z.of_N (Ascii.N_of_ascii a)) <$> String.list_ascii_of_string s.

(** [L "text"] is the literal, already evaluated. *)
Notation "'L' s" :=
  (ltac:(let x := eval vm_compute in (lit s%string) in exact x))
  (at level 0, s at level 0, only parsing).

(** ** Characters *)

(** [char::from_u32]: the scalar values are the code points that are not
    surrogates. *)
Definition valid_char (c : char) : bool :=
  (0 <=? c) && (c <=? 1114111) && negb ((55296 <=? c) && (c <=? 57343)).

Definition char_from_u32 (n : Z) : option char :=
  if valid_char n then Some n else None.

Definition is_ascii_digit (c : char) : bool := (48 <=? c) && (c <=? 57).
Definition is_ascii_lower (c : char) : bool := (97 <=? c) && (c <=? 122).
Definition is_ascii_upper (c : char) : bool := (65 <=? c) && (c <=? 90).
Definition is_ascii_alphabetic (c : char) : bool :=
  is_ascii_lower c || is_ascii_upper c.
Definition is_ascii_alphanumeric (c : char) : bool :=
  is_ascii_alphabetic c || is_ascii_digit c.
Definition is_ascii_hexdigit (c : char) : bool :=
  is_ascii_digit c || ((97 <=? c) && (c <=? 102)) || ((65 <=? c) && (c <=? 70)).

(** [char::is_control]: general category Cc. *)
Definition is_control (c : char) : bool :=
  ((0 <=? c) && (c <=? 31)) || ((127 <=? c) && (c <=? 159)).

(** ** UTF-8 *)

Definition len_utf8 (c : char) : Z :=
  if c <? 128 then 1 else if c <? 2048 then 2 else if c <? 65536 then 3 else 4.

Definition encode_utf8 (c : char) : bytes :=
  if c <? 128 then [c]
  else if c <? 2048 then [192 + c / 64; 128 + c mod 64]
  else if c <? 65536 then [224 + c / 4096; 128 + c / 64 mod 64; 128 + c mod 64]
  else [240 + c / 262144; 128 + c / 4096 mod 64; 128 + c / 64 mod 64; 128 + c mod 64].

(** [str::as_bytes] and [str::len]. *)
Definition str_bytes (s : str) : bytes := s ≫= encode_utf8.
Definition str_len (s : str) : Z := len (str_bytes s).
Definition valid_str (s : str) : bool := forallb valid_char s.

Lemma str_bytes_app s t : str_bytes (s ++ t) = str_bytes s ++ str_bytes t.
Proof. apply bind_app. Qed.
Lemma str_bytes_cons c s : str_bytes (c :: s) = encode_utf8 c ++ str_bytes s.
Proof. done. Qed.

Lemma len_encode_utf8 c : len (encode_utf8 c) = len_utf8 c.
Proof. unfold encode_utf8, len_utf8. repeat case_match; done. Qed.

Lemma str_len_nil : str_len [] = 0.
Proof. done. Qed.
Lemma str_len_cons c s : str_len (c :: s) = len_utf8 c + str_len s.
Proof. unfold str_len. by rewrite str_bytes_cons, len_app, len_encode_utf8. Qed.
Lemma str_len_app s t : str_len (s ++ t) = str_len s + str_len t.
Proof. unfold str_len. by rewrite str_bytes_app, len_app. Qed.
Lemma str_len_nonneg s : 0 <= str_len s.
Proof. apply len_nonneg. Qed.
Lemma len_utf8_bounds c : 1 <= len_utf8 c <= 4.
Proof. unfold len_utf8. repeat case_match; lia. Qed.
Lemma len_utf8_ascii c : c < 128 -> len_utf8 c = 1.
Proof. intros. unfold len_utf8. destruct (Z.ltb_spec c 128); lia. Qed.
Lemma str_len_zero s : str_len s = 0 <-> s = [].
Proof.
  destruct s as [|c s]; [done|]. rewrite str_len_cons.
  pose proof (len_utf8_bounds c). pose proof (str_len_nonneg s).
  split; [lia|done].
Qed.

#[export] Hint Rewrite str_len_nil str_len_cons str_len_app : ash_len.
#[export] Hint Resolve str_len_nonneg : core.

(** A predicate of ASCII bytes holds of all bytes iff it holds of all chars. *)
Lemma forallb_str_bytes (P : Z -> bool) s :
  (forall b, P b = true -> b < 128) -> forallb P (str_bytes s) = forallb P s.
Proof.
  intros HP. induction s as [|c s IH]; [done|].
  rewrite str_bytes_cons, forallb_app, IH. cbn. f_equal.
  unfold encode_utf8. destruct (Z.ltb_spec c 128); cbn; [by rewrite andb_true_r|].
  assert (P c = false) as ->.
  { destruct (P c) eqn:E; [apply HP in E; lia|done]. }
  assert (0 <= c / 64 /\ 0 <= c / 4096 /\ 0 <= c / 262144) by
    (repeat split; apply Z.div_pos; lia).
  repeat case_match; cbn; apply andb_false_iff; left;
    apply not_true_iff_false; intros E%HP; lia.
Qed.

Lemma encode_utf8_ascii c d : c < 128 -> In c (encode_utf8 d) -> d = c.
Proof.
  intros Hc. unfold encode_utf8. destruct (Z.ltb_spec d 128); [by intros [->|[]]|].
  assert (0 <= d / 64 /\ 0 <= d / 4096 /\ 0 <= d / 262144) by
    (repeat split; apply Z.div_pos; lia).
  pose proof (Z.mod_pos_bound d 64 ltac:(lia)). pose proof (Z.mod_pos_bound (d / 64) 64 ltac:(lia)).
  pose proof (Z.mod_pos_bound (d / 4096) 64 ltac:(lia)).
  repeat case_match; cbn; lia.
Qed.

(** An ASCII byte of the encoding is a char of the string. *)
Lemma In_str_bytes c s : c < 128 -> In c (str_bytes s) <-> In c s.
Proof.
  intros Hc. induction s as [|d s IH]; [done|].
  rewrite str_bytes_cons, in_app_iff, IH. cbn. split.
  - intros [?%encode_utf8_ascii|?]; auto.
  - intros [->|?]; [left|by right]. unfold encode_utf8.
    destruct (Z.ltb_spec c 128); [by left|lia].
Qed.

Lemma str_len_ascii s : forallb (fun c => c <? 128) s = true -> str_len s = len s.
Proof.
  induction s as [|c s IH]; [done|].
  cbn. intros [Hc Hs]%andb_true_iff. apply Z.ltb_lt in Hc.
  by rewrite str_len_cons, len_cons, len_utf8_ascii, IH.
Qed.

Lemma str_len_ge_len s : len s <= str_len s.
Proof.
  induction s as [|c s IH]; [done|].
  rewrite str_len_cons, len_cons. pose proof (len_utf8_bounds c). lia.
Qed.

(** ** Searching and splitting *)

Fixpoint contains (c : char) (s : str) : bool :=
  match s with [] => false | d :: s => (d =? c) || contains c s end.

Definition starts_with (c : char) (s : str) : bool :=
  match s with d :: _ => d =? c | [] => false end.

Fixpoint ends_with (c : char) (s : str) : bool :=
  match s with [] => false | [d] => d =? c | _ :: s => ends_with c s end.

Definition strip_prefix (c : char) (s : str) : option str :=
  match s with d :: s => if d =? c then Some s else None | [] => None end.

(** [&s[..s.len() - 1]] where [s] ends with an ASCII char. *)
Fixpoint drop_last (s : str) : str :=
  match s with [] => [] | [_] => [] | c :: s => c :: drop_last s end.

Definition strip_suffix (c : char) (s : str) : option str :=
  if ends_with c s then Some (drop_last s) else None.

(** [str::split_once]: around the first occurrence; also [find] followed by the
    two slices around the offset it returned. *)
Fixpoint split_once (c : char) (s : str) : option (str * str) :=
  match s with
  | [] => None
  | d :: s =>
      if d =? c then Some ([], s)
      else '(a, b) ← split_once c s; Some (d :: a, b)
  end.

(** [rfind] followed by the two slices around the offset it returned. *)
Fixpoint rsplit_once (c : char) (s : str) : option (str * str) :=
  match s with
  | [] => None
  | d :: s =>
      match rsplit_once c s with
      | Some (a, b) => Some (d :: a, b)
      | None => if d =? c then Some ([], s) else None
      end
  end.

(** [str::split] by a char: never empty. *)
Fixpoint split (c : char) (s : str) : list str :=
  match s with
  | [] => [[]]
  | d :: s =>
      match split c s with
      | [] => [[d]]
      | w :: ws => if d =? c then [] :: w :: ws else (d :: w) :: ws
      end
  end.

Lemma contains_app c s t : contains c (s ++ t) = contains c s || contains c t.
Proof. induction s; cbn; [done|]. by rewrite IHs, orb_assoc. Qed.

Lemma contains_false c s : contains c s = false <-> ~ In c s.
Proof.
  induction s as [|d s IH]; cbn; [tauto|]. rewrite orb_false_iff, IH, Z.eqb_neq. tauto.
Qed.

Lemma contains_forallb (P : Z -> bool) c s :
  P c = false -> forallb P s = true -> contains c s = false.
Proof.
  intros Hc. induction s as [|d s IH]; cbn; [done|].
  intros [Hd Hs]%andb_true_iff. rewrite IH by done.
  destruct (Z.eqb_spec d c); [congruence|done].
Qed.

Lemma ends_with_snoc c s d : ends_with c (s ++ [d]) = (d =? c).
Proof.
  induction s as [|x s IH]; [done|]. rewrite <- app_comm_cons.
  cbn. destruct (s ++ [d]) eqn:E; [by destruct s|done].
Qed.

Lemma ends_with_inv c s : ends_with c s = true -> exists t, s = t ++ [c].
Proof.
  destruct s as [|d s _] using rev_ind; [done|].
  rewrite ends_with_snoc. intros ->%Z.eqb_eq. by exists s.
Qed.

Lemma drop_last_snoc s d : drop_last (s ++ [d]) = s.
Proof.
  induction s as [|x s IH]; [done|]. rewrite <- app_comm_cons.
  cbn. destruct (s ++ [d]) eqn:E; [by destruct s|]. by rewrite IH.
Qed.

Lemma strip_suffix_snoc c s : strip_suffix c (s ++ [c]) = Some s.
Proof. unfold strip_suffix. by rewrite ends_with_snoc, Z.eqb_refl, drop_last_snoc. Qed.

Lemma strip_suffix_Some c s t : strip_suffix c s = Some t <-> s = t ++ [c].
Proof.
  split; [|intros ->; apply strip_suffix_snoc].
  unfold strip_suffix. destruct (ends_with c s) eqn:E; [|done].
  apply ends_with_inv in E as [u ->]. rewrite drop_last_snoc. by intros [= ->].
Qed.

Lemma split_once_app c s t : contains c s = false -> split_once c (s ++ c :: t) = Some (s, t).
Proof.
  induction s as [|d s IH]; cbn; [by rewrite Z.eqb_refl|].
  intros [Hd Hs]%orb_false_iff. by rewrite Hd, IH.
Qed.

Lemma split_once_Some c s a b :
  split_once c s = Some (a, b) <-> s = a ++ c :: b /\ contains c a = false.
Proof.
  split; [|intros [-> ?]; by apply split_once_app].
  revert a. induction s as [|d s IH]; intros a; cbn; [done|].
  destruct (Z.eqb_spec d c) as [->|Hd]; [naive_solver|].
  destruct (split_once c s) as [[a' b']|]; [|done].
  intros [= <- <-]. destruct (IH a' eq_refl) as [-> Ha]. split; [done|].
  cbn. rewrite Ha. by destruct (Z.eqb_spec d c).
Qed.

Lemma split_once_None c s : split_once c s = None <-> contains c s = false.
Proof.
  induction s as [|d s IH]; cbn; [done|].
  destruct (Z.eqb_spec d c) as [->|Hd]; [done|]. cbn. rewrite <- IH.
  destruct (split_once c s) as [[a b]|]; naive_solver.
Qed.

Lemma rsplit_once_None c s : rsplit_once c s = None <-> contains c s = false.
Proof.
  induction s as [|d s IH]; cbn; [done|].
  destruct (rsplit_once c s) as [[a b]|].
  - split; [done|]. rewrite orb_false_iff. naive_solver.
  - destruct (Z.eqb_spec d c); cbn; naive_solver.
Qed.

Lemma rsplit_once_app c s t : contains c t = false -> rsplit_once c (s ++ c :: t) = Some (s, t).
Proof.
  intros Ht. induction s as [|d s IH]; cbn; [|by rewrite IH].
  apply rsplit_once_None in Ht. by rewrite Ht, Z.eqb_refl.
Qed.

Lemma split_nonempty c s : split c s <> [].
Proof. destruct s; cbn; [done|]. by destruct (split c s); [|case_match]. Qed.

Lemma split_no_sep c s : contains c s = false -> split c s = [s].
Proof.
  induction s as [|d s IH]; cbn; [done|].
  intros [Hd Hs]%orb_false_iff. by rewrite IH, Hd.
Qed.

Lemma split_app_sep c s t : contains c s = false -> split c (s ++ c :: t) = s :: split c t.
Proof.
  induction s as [|d s IH]; cbn.
  - intros _. rewrite Z.eqb_refl. destruct (split c t) eqn:E; [|done].
    by apply split_nonempty in E.
  - intros [Hd Hs]%orb_false_iff. by rewrite IH, Hd.
Qed.

(** [join c ws] is what [split c] undoes. *)
Fixpoint join (c : char) (ws : list str) : str :=
  match ws with
  | [] => []
  | [w] => w
  | w :: ws => w ++ c :: join c ws
  end.

Lemma join_cons c w ws : ws <> [] -> join c (w :: ws) = w ++ c :: join c ws.
Proof. by destruct ws. Qed.

Lemma split_join c ws :
  ws <> [] -> Forall (fun w => contains c w = false) ws -> split c (join c ws) = ws.
Proof.
  intros Hne H. induction H as [|w ws Hw Hws IH]; [done|].
  destruct ws as [|w' ws]; [by apply split_no_sep|].
  rewrite join_cons, split_app_sep by done. f_equal. by apply IH.
Qed.

Lemma join_split c s : join c (split c s) = s.
Proof.
  induction s as [|d s IH]; [done|]. cbn.
  destruct (split c s) as [|w ws] eqn:E; [by apply split_nonempty in E|].
  destruct (Z.eqb_spec d c) as [->|Hd].
  - by rewrite join_cons, IH.
  - rewrite <- IH. by destruct ws.
Qed.

Lemma split_no_contains c s : Forall (fun w => contains c w = false) (split c s).
Proof.
  induction s as [|d s IH]; cbn; [by repeat constructor|].
  destruct (split c s) as [|w ws] eqn:Es; [by apply split_nonempty in Es|].
  apply list.Forall_cons in IH as [Hw Hws].
  destruct (d =? c) eqn:E; repeat (constructor; try done). cbn. by rewrite E.
Qed.

(** ** Decimal *)

Fixpoint uint_chars (d : Decimal.uint) : str :=
  match d with
  | Decimal.Nil => []
  | Decimal.D0 d => 48 :: uint_chars d | Decimal.D1 d => 49 :: uint_chars d
  | Decimal.D2 d => 50 :: uint_chars d | Decimal.D3 d => 51 :: uint_chars d
  | Decimal.D4 d => 52 :: uint_chars d | Decimal.D5 d => 53 :: uint_chars d
  | Decimal.D6 d => 54 :: uint_chars d | Decimal.D7 d => 55 :: uint_chars d
  | Decimal.D8 d => 56 :: uint_chars d | Decimal.D9 d => 57 :: uint_chars d
  end.

Definition digit_of (c : char) : option (Decimal.uint -> Decimal.uint) :=
  if c =? 48 then Some Decimal.D0 else if c =? 49 then Some Decimal.D1
  else if c =? 50 then Some Decimal.D2 else if c =? 51 then Some Decimal.D3
  else if c =? 52 then Some Decimal.D4 else if c =? 53 then Some Decimal.D5
  else if c =? 54 then Some Decimal.D6 else if c =? 55 then Some Decimal.D7
  else if c =? 56 then Some Decimal.D8 else if c =? 57 then Some Decimal.D9
  else None.

Fixpoint chars_uint (s : str) : option Decimal.uint :=
  match s with
  | [] => Some Decimal.Nil
  | c :: s => f ← digit_of c; d ← chars_uint s; Some (f d)
  end.

(** [to_string] of an integer. *)
Definition to_string (n : Z) : str :=
  if n <? 0 then 45 :: uint_chars (N.to_uint (Z.to_N (- n)))
  else uint_chars (N.to_uint (Z.to_N n)).

(** [str::parse] for the unsigned type whose greatest value is [max]: an optional
    ['+'], at least one digit, no overflow. *)
Definition parse_unsigned (max : Z) (s : str) : option Z :=
  let digits := match s with c :: t => if c =? 43 then t else s | [] => s end in
  match digits with
  | [] => None
  | _ =>
      d ← chars_uint digits;
      let n := Z.of_N (N.of_uint d) in
      if n <=? max then Some n else None
  end.

(** The digits the schema decoders accept: no sign, no leading zero. *)
Definition canonical_decimal (s : str) : bool :=
  negb (bool_decide (s = [])) && forallb is_ascii_digit s
  && negb ((1 <? len s) && starts_with 48 s).

Lemma chars_uint_chars d : chars_uint (uint_chars d) = Some d.
Proof. induction d; cbn; rewrite ?IHd; done. Qed.

Lemma uint_chars_digits d : forallb is_ascii_digit (uint_chars d) = true.
Proof. induction d; cbn; done. Qed.

Lemma digit_of_chars c f : digit_of c = Some f -> forall d, uint_chars (f d) = c :: uint_chars d.
Proof.
  unfold digit_of.
  repeat match goal with |- context [?x =? ?y] => destruct (Z.eqb_spec x y) as [->|?] end;
    intros [= <-]; done.
Qed.

Lemma uint_chars_uint s d : chars_uint s = Some d -> uint_chars d = s.
Proof.
  revert d. induction s as [|c s IH]; cbn; intros d H; [by injection H as <-|].
  destruct (digit_of c) as [f|] eqn:Hf; cbn in H; [|done].
  destruct (chars_uint s) as [e|]; cbn in H; [|done]. injection H as <-.
  rewrite (digit_of_chars _ _ Hf). f_equal. by apply IH.
Qed.

Lemma digit_of_is_digit c : is_ascii_digit c = true -> is_Some (digit_of c).
Proof.
  unfold is_ascii_digit, digit_of. intros [H1%Z.leb_le H2%Z.leb_le]%andb_true_iff.
  repeat match goal with |- context [?x =? ?y] => destruct (Z.eqb_spec x y) end;
    first [by eexists | lia].
Qed.

Lemma chars_uint_digits s : forallb is_ascii_digit s = true -> is_Some (chars_uint s).
Proof.
  induction s as [|c s IH]; cbn; [by eexists|].
  intros [Hc Hs]%andb_true_iff. destruct (digit_of_is_digit c Hc) as [f ->].
  destruct (IH Hs) as [d ->]. by eexists.
Qed.

(** A digit string is canonical exactly when the digits it denotes are those of
    a normal form. *)
Lemma canonical_unorm d :
  canonical_decimal (uint_chars d) = true <-> Decimal.unorm d = d.
Proof.
  unfold canonical_decimal. rewrite uint_chars_digits.
  destruct d as [|d|d|d|d|d|d|d|d|d|d]; cbn; rewrite ?andb_false_r, ?andb_true_r, ?len_cons; try done.
  destruct (Z.ltb_spec 1 (1 + len (uint_chars d))) as [Hl|Hl]; cbn.
  - split; [done|]. intros H%(f_equal Decimal.nb_digits). exfalso.
    assert (d <> Decimal.Nil) by (intros ->; cbn in Hl; rewrite len_nil in Hl; lia).
    pose proof (DecimalFacts.nb_digits_nzhead d) as Hz.
    revert H. unfold Decimal.unorm. cbn.
    destruct (Decimal.nzhead d); cbn in *; destruct d; cbn in *; try done; lia.
  - destruct d; [done|exfalso; cbn in Hl; rewrite len_cons in Hl;
      match type of Hl with context [len ?x] => pose proof (len_nonneg x) end; lia..].
Qed.

Lemma to_uint_unorm n : Decimal.unorm (N.to_uint n) = N.to_uint n.
Proof.
  rewrite <- DecimalN.Unsigned.to_of. by rewrite DecimalN.Unsigned.of_to.
Qed.

Lemma to_string_canonical n : 0 <= n -> canonical_decimal (to_string n) = true.
Proof.
  intros Hn. unfold to_string. destruct (Z.ltb_spec n 0); [lia|].
  apply canonical_unorm, to_uint_unorm.
Qed.

Lemma canonical_digits s : canonical_decimal s = true -> forallb is_ascii_digit s = true.
Proof. unfold canonical_decimal. by intros [[_ ?]%andb_true_iff _]%andb_true_iff. Qed.

Lemma canonical_nonempty s : canonical_decimal s = true -> s <> [].
Proof.
  unfold canonical_decimal. intros [[H _]%andb_true_iff _]%andb_true_iff.
  by apply negb_true_iff, bool_decide_eq_false in H.
Qed.

Lemma to_string_digits n : 0 <= n -> forallb is_ascii_digit (to_string n) = true.
Proof. intros. by apply canonical_digits, to_string_canonical. Qed.

(** On digits, [parse] is the numeric value, bounded. *)
Lemma parse_unsigned_digits max s d :
  chars_uint s = Some d -> s <> [] ->
  parse_unsigned max s =
    if Z.of_N (N.of_uint d) <=? max then Some (Z.of_N (N.of_uint d)) else None.
Proof.
  intros Hd Hne. destruct s as [|c s]; [done|]. unfold parse_unsigned.
  destruct (Z.eqb_spec c 43) as [->|]; [done|]. by rewrite Hd.
Qed.

Lemma parse_to_string max n :
  0 <= n <= max -> parse_unsigned max (to_string n) = Some n.
Proof.
  intros [Hn Hm]. pose proof (canonical_nonempty _ (to_string_canonical n Hn)) as Hne.
  revert Hne. unfold to_string. destruct (Z.ltb_spec n 0); [lia|]. intros Hne.
  erewrite parse_unsigned_digits; [|apply chars_uint_chars|done].
  rewrite DecimalN.Unsigned.of_to, Z2N.id by done.
  destruct (Z.leb_spec n max); [done|lia].
Qed.

Lemma parse_unsigned_range max s n : parse_unsigned max s = Some n -> 0 <= n <= max.
Proof.
  unfold parse_unsigned. set (t := match s with [] => s | _ => _ end).
  destruct t as [|c t]; [done|].
  destruct (chars_uint (c :: t)) as [d|]; cbn -[N.of_uint]; [|done].
  destruct (Z.leb_spec (Z.of_N (N.of_uint d)) max); [|done]. intros [= <-]. lia.
Qed.

Lemma to_string_parse max s n :
  canonical_decimal s = true -> parse_unsigned max s = Some n -> to_string n = s.
Proof.
  intros Hs Hp. pose proof (parse_unsigned_range _ _ _ Hp).
  destruct (chars_uint_digits s (canonical_digits s Hs)) as [d Hd].
  rewrite (parse_unsigned_digits max s d Hd (canonical_nonempty s Hs)) in Hp.
  destruct (Z.leb_spec (Z.of_N (N.of_uint d)) max); [|done]. injection Hp as <-.
  apply uint_chars_uint in Hd as <-. apply canonical_unorm in Hs.
  unfold to_string. destruct (Z.ltb_spec (Z.of_N (N.of_uint d)) 0); [lia|].
  by rewrite N2Z.id, DecimalN.Unsigned.to_of, Hs.
Qed.

Lemma to_string_inj m n : 0 <= m -> 0 <= n -> to_string m = to_string n -> m = n.
Proof.
  intros Hm Hn H.
  pose proof (parse_to_string (m + n) m ltac:(lia)) as P1.
  pose proof (parse_to_string (m + n) n ltac:(lia)) as P2.
  rewrite H in P1. congruence.
Qed.

(** ** Hexadecimal *)

Definition hex_digit (n : Z) : char := if n <? 10 then 48 + n else 87 + n.

(** The [{:x}] format of a [u32]: at most eight digits, no leading zero. *)
Fixpoint hex_lower_aux (fuel : nat) (n : Z) (acc : str) : str :=
  match fuel with
  | O => acc
  | S fuel =>
      let acc := hex_digit (n mod 16) :: acc in
      if n / 16 =? 0 then acc else hex_lower_aux fuel (n / 16) acc
  end.
Definition hex_lower (n : Z) : str := hex_lower_aux 8 n [].

(** [char::to_digit(16)]. *)
Definition hex_value (c : char) : option Z :=
  if is_ascii_digit c then Some (c - 48)
  else if (97 <=? c) && (c <=? 102) then Some (c - 87)
  else if (65 <=? c) && (c <=? 70) then Some (c - 55)
  else None.

(** [u32::from_str_radix(s, 16)] on a string with no sign. *)
Fixpoint from_hex_aux (acc : Z) (s : str) : option Z :=
  match s with
  | [] => Some acc
  | c :: s =>
      d ← hex_value c;
      let acc := 16 * acc + d in
      if acc <=? u32_max then from_hex_aux acc s else None
  end.
Definition from_hex (s : str) : option Z :=
  match s with [] => None | _ => from_hex_aux 0 s end.

(** ** Validation of UTF-8 *)

Definition is_cont (b : Z) : bool := (128 <=? b) && (b <=? 191).

(** [std::str::from_utf8]; the error is [Utf8Error::valid_up_to], the offset of
    the first sequence that is not the encoding of a scalar value. *)
Fixpoint from_utf8_at (off : Z) (b : bytes) : result Z str :=
  match b with
  | [] => Ok []
  | b0 :: r0 =>
      if (0 <=? b0) && (b0 <? 128) then
        s ← from_utf8_at (off + 1) r0; Ok (b0 :: s)
      else if (194 <=? b0) && (b0 <=? 223) then
        match r0 with
        | b1 :: r1 =>
            if is_cont b1 then
              s ← from_utf8_at (off + 2) r1; Ok ((b0 - 192) * 64 + (b1 - 128) :: s)
            else Err off
        | _ => Err off
        end
      else if (224 <=? b0) && (b0 <=? 239) then
        match r0 with
        | b1 :: b2 :: r2 =>
            let lo := if b0 =? 224 then 160 else 128 in
            let hi := if b0 =? 237 then 159 else 191 in
            if (lo <=? b1) && (b1 <=? hi) && is_cont b2 then
              s ← from_utf8_at (off + 3) r2;
              Ok ((b0 - 224) * 4096 + (b1 - 128) * 64 + (b2 - 128) :: s)
            else Err off
        | _ => Err off
        end
      else if (240 <=? b0) && (b0 <=? 244) then
        match r0 with
        | b1 :: b2 :: b3 :: r3 =>
            let lo := if b0 =? 240 then 144 else 128 in
            let hi := if b0 =? 244 then 143 else 191 in
            if (lo <=? b1) && (b1 <=? hi) && is_cont b2 && is_cont b3 then
              s ← from_utf8_at (off + 4) r3;
              Ok ((b0 - 240) * 262144 + (b1 - 128) * 4096 + (b2 - 128) * 64 + (b3 - 128) :: s)
            else Err off
        | _ => Err off
        end
      else Err off
  end.
Definition from_utf8 (b : bytes) : result Z str := from_utf8_at 0 b.

(** Turns boolean comparisons into arithmetic facts and calls [lia]. *)
Ltac zbool :=
  repeat match goal with
  | H : negb _ = true |- _ => apply negb_true_iff in H
  | H : negb _ = false |- _ => apply negb_false_iff in H
  | H : _ && _ = true |- _ => apply andb_true_iff in H as [? ?]
  | H : _ || _ = false |- _ => apply orb_false_iff in H as [? ?]
  | H : (_ <=? _) = true |- _ => apply Z.leb_le in H
  | H : (_ <=? _) = false |- _ => apply Z.leb_gt in H
  | H : (_ <? _) = true |- _ => apply Z.ltb_lt in H
  | H : (_ <? _) = false |- _ => apply Z.ltb_ge in H
  | H : (_ =? _) = true |- _ => apply Z.eqb_eq in H
  | H : (_ =? _) = false |- _ => apply Z.eqb_neq in H
  end.

Lemma valid_char_iff c :
  valid_char c = true <-> 0 <= c <= 1114111 /\ ~ (55296 <= c <= 57343).
Proof. unfold valid_char. lia. Qed.

(** Splits the digits of a code point in base 64. *)
Lemma base64_step c : c = c / 64 * 64 + c mod 64 /\ 0 <= c mod 64 < 64.
Proof. pose proof (Z.div_mod c 64). pose proof (Z.mod_pos_bound c 64). lia. Qed.

Lemma from_utf8_at_encode off c s :
  valid_char c = true ->
  from_utf8_at off (encode_utf8 c ++ s) =
    (t ← from_utf8_at (off + len_utf8 c) s; Ok (c :: t)).
Proof.
  intros [Hc Hs]%valid_char_iff. unfold encode_utf8, len_utf8.
  pose proof (base64_step c) as [E1 B1].
  pose proof (base64_step (c / 64)) as [E2 B2].
  pose proof (base64_step (c / 4096)) as [E3 B3].
  rewrite Z.div_div in E2 by lia. change (64 * 64) with 4096 in E2.
  rewrite Z.div_div in E3 by lia. change (4096 * 64) with 262144 in E3.
  destruct (Z.ltb_spec c 128).
  { cbn. by destruct (Z.leb_spec 0 c), (Z.ltb_spec c 128); try lia. }
  destruct (Z.ltb_spec c 2048); [|destruct (Z.ltb_spec c 65536)];
    cbn -[Z.div Z.modulo Z.mul Z.add]; unfold is_cont;
    repeat (case_match; try (exfalso; lia));
    match goal with |- context [Ok (?x :: _)] => replace x with c by lia end; done.
Qed.

Lemma from_utf8_at_str_bytes off s :
  valid_str s = true -> from_utf8_at off (str_bytes s) = Ok s.
Proof.
  revert off. induction s as [|c s IH]; intros off; [done|]. cbn -[encode_utf8 from_utf8_at].
  intros [Hc Hs]%andb_true_iff. fold (str_bytes s).
  rewrite from_utf8_at_encode by done. by rewrite IH.
Qed.

Lemma from_utf8_str_bytes s : valid_str s = true -> from_utf8 (str_bytes s) = Ok s.
Proof. apply from_utf8_at_str_bytes. Qed.

(** What one accepted sequence denotes encodes back to it. *)
Lemma encode_utf8_2 b0 b1 :
  194 <= b0 <= 223 -> 128 <= b1 <= 191 ->
  let c := (b0 - 192) * 64 + (b1 - 128) in
  valid_char c = true /\ encode_utf8 c = [b0; b1].
Proof.
  intros H0 H1 c. rewrite valid_char_iff. split; [lia|]. unfold encode_utf8.
  destruct (Z.ltb_spec c 128); [lia|]. destruct (Z.ltb_spec c 2048); [|lia].
  pose proof (base64_step c) as [E B]. repeat f_equal; lia.
Qed.

Lemma encode_utf8_3 b0 b1 b2 :
  224 <= b0 <= 239 -> (if b0 =? 224 then 160 else 128) <= b1 ->
  b1 <= (if b0 =? 237 then 159 else 191) -> 128 <= b2 <= 191 ->
  let c := (b0 - 224) * 4096 + (b1 - 128) * 64 + (b2 - 128) in
  valid_char c = true /\ encode_utf8 c = [b0; b1; b2].
Proof.
  intros H0 Hl Hh H2 c. rewrite valid_char_iff.
  assert (2048 <= c < 65536 /\ ~ (55296 <= c <= 57343)) as [Hc Hs]
    by (destruct (Z.eqb_spec b0 224), (Z.eqb_spec b0 237); lia).
  split; [lia|]. unfold encode_utf8.
  destruct (Z.ltb_spec c 128); [lia|]. destruct (Z.ltb_spec c 2048); [lia|].
  destruct (Z.ltb_spec c 65536); [|lia].
  pose proof (base64_step c) as [E1 B1]. pose proof (base64_step (c / 64)) as [E2 B2].
  rewrite Z.div_div in E2 by lia. change (64 * 64) with 4096 in E2.
  assert (128 <= b1 <= 191) by (repeat case_match; lia). repeat f_equal; lia.
Qed.

Lemma encode_utf8_4 b0 b1 b2 b3 :
  240 <= b0 <= 244 -> (if b0 =? 240 then 144 else 128) <= b1 ->
  b1 <= (if b0 =? 244 then 143 else 191) -> 128 <= b2 <= 191 -> 128 <= b3 <= 191 ->
  let c := (b0 - 240) * 262144 + (b1 - 128) * 4096 + (b2 - 128) * 64 + (b3 - 128) in
  valid_char c = true /\ encode_utf8 c = [b0; b1; b2; b3].
Proof.
  intros H0 Hl Hh H2 H3 c. rewrite valid_char_iff.
  assert (65536 <= c <= 1114111) as Hc
    by (destruct (Z.eqb_spec b0 240), (Z.eqb_spec b0 244); lia).
  split; [lia|]. unfold encode_utf8.
  destruct (Z.ltb_spec c 128); [lia|]. destruct (Z.ltb_spec c 2048); [lia|].
  destruct (Z.ltb_spec c 65536); [lia|].
  pose proof (base64_step c) as [E1 B1]. pose proof (base64_step (c / 64)) as [E2 B2].
  pose proof (base64_step (c / 4096)) as [E3 B3].
  rewrite Z.div_div in E2 by lia. change (64 * 64) with 4096 in E2.
  rewrite Z.div_div in E3 by lia. change (4096 * 64) with 262144 in E3.
  assert (128 <= b1 <= 191) by (repeat case_match; lia). repeat f_equal; lia.
Qed.

(** [from_utf8] accepts exactly the encodings of strings of scalar values. *)
Lemma from_utf8_at_Ok off b s :
  from_utf8_at off b = Ok s -> valid_str s = true /\ str_bytes s = b.
Proof.
  revert off s. induction b as [b IH] using list_length_ind. intros off s H.
  destruct b as [|b0 r0]; cbn -[Z.mul Z.add] in H; [by injection H as <-|].
  unfold is_cont in H.
  repeat (case_match; try discriminate H); try discriminate H; zbool; subst;
    apply bind_ok in H as (t & Ht & [= <-]); apply IH in Ht as [Hv Hb]; unfold valid_str in *;
    cbn -[Z.mul Z.add encode_utf8 valid_char] in *; try lia;
    rewrite Hv, <- ?Hb, ?str_bytes_cons, andb_true_r.
  { split; [by apply valid_char_iff; lia|]. f_equal. unfold encode_utf8.
    by destruct (Z.ltb_spec b0 128); [|lia]. }
  all: match goal with
    | |- valid_char ((?x - 192) * _ + (?y - _)) = _ /\ _ =>
        destruct (encode_utf8_2 x y) as [? Hc]
    | |- valid_char ((?x - 224) * _ + (?y - _) * _ + (?z - _)) = _ /\ _ =>
        destruct (encode_utf8_3 x y z) as [? Hc]
    | |- valid_char ((?x - 240) * _ + (?y - _) * _ + (?z - _) * _ + (?w - _)) = _ /\ _ =>
        destruct (encode_utf8_4 x y z w) as [? Hc]
    end; [repeat case_match; lia..|]; split; [done|]; by rewrite Hc.
Qed.

Lemma from_utf8_Ok b s : from_utf8 b = Ok s -> valid_str s = true /\ str_bytes s = b.
Proof. apply from_utf8_at_Ok. Qed.

Lemma str_bytes_inj s t :
  valid_str s = true -> valid_str t = true -> str_bytes s = str_bytes t -> s = t.
Proof.
  intros Hs%from_utf8_str_bytes Ht%from_utf8_str_bytes H. rewrite H in Hs. congruence.
Qed.

Lemma valid_str_app s t : valid_str (s ++ t) = valid_str s && valid_str t.
Proof. apply forallb_app. Qed.

Lemma valid_str_ascii s :
  forallb (fun c => (0 <=? c) && (c <? 128)) s = true -> valid_str s = true.
Proof.
  induction s as [|c s IH]; cbn; [done|]. intros [Hc Hs]%andb_true_iff.
  unfold valid_str. cbn. apply andb_true_iff.
  split; [unfold valid_char; lia|by apply IH].
Qed.

#[global] Arguments from_hex : simpl never.
#[global] Arguments hex_lower : simpl never.
#[global] Arguments to_string : simpl never.
#[global] Arguments parse_unsigned : simpl never.
#[global] Arguments encode_utf8 : simpl never.
#[global] Arguments len_utf8 : simpl never.
#[global] Arguments str_len : simpl never.
#[global] Arguments valid_char : simpl never.
#[global] Arguments is_control : simpl never.
#[global] Arguments lit : simpl nomatch.

(** ** Big-endian integers and slices of byte arrays

    [u32::to_be_bytes], [u64::from_be_bytes] and [bytes[from..to]], used by the
    frame prefix and by the signing form of an approval challenge. *)

Definition byte_ok (b : Z) : bool := (0 <=? b) && (b <=? u8_max).

(** [to_be_bytes] and [from_be_bytes] of a [k]-byte integer. *)
Fixpoint to_be_bytes (k : nat) (n : Z) : bytes :=
  match k with O => [] | S k => to_be_bytes k (n / 256) ++ [n mod 256] end.
Definition from_be_bytes (b : bytes) : Z := fold_left (fun acc byte => acc * 256 + byte) b 0.

(** [bytes[from..to]] *)
Definition slice (b : bytes) (from to : nat) : bytes := take (to - from) (drop from b).

(** ** Big-endian integers *)

Lemma length_to_be_bytes k n : length (to_be_bytes k n) = k.
Proof. revert n. induction k as [|k IH]; intros n; [done|]. cbn. rewrite length_app, IH. cbn. lia. Qed.

Lemma to_be_bytes_ok k n : forallb byte_ok (to_be_bytes k n) = true.
Proof.
  revert n. induction k as [|k IH]; intros n; [done|]. cbn [to_be_bytes].
  rewrite forallb_app, IH. cbn. unfold byte_ok.
  pose proof (Z.mod_pos_bound n 256 ltac:(lia)). lia.
Qed.

Lemma from_be_bytes_snoc b x : from_be_bytes (b ++ [x]) = from_be_bytes b * 256 + x.
Proof. unfold from_be_bytes. by rewrite fold_left_app. Qed.

Lemma from_to_be_bytes k n : 0 <= n < 256 ^ Z.of_nat k -> from_be_bytes (to_be_bytes k n) = n.
Proof.
  revert n. induction k as [|k IH]; intros n Hn; [cbn in *; unfold from_be_bytes; cbn; lia|].
  cbn [to_be_bytes]. rewrite from_be_bytes_snoc.
  rewrite Nat2Z.inj_succ, Z.pow_succ_r in Hn by lia.
  rewrite IH by (split; [apply Z.div_pos|apply Z.div_lt_upper_bound]; lia).
  pose proof (Z.div_mod n 256). lia.
Qed.

Lemma from_be_bytes_bounds b :
  forallb byte_ok b = true -> 0 <= from_be_bytes b < 256 ^ len b.
Proof.
  induction b as [|x b IH] using rev_ind; [intros _; split; reflexivity|].
  rewrite forallb_app, from_be_bytes_snoc, len_app. change (len [x]) with 1. intros Hb.
  cbn in Hb. unfold byte_ok in Hb. zbool. specialize (IH ltac:(done)).
  rewrite Z.pow_add_r by (apply len_nonneg || lia). lia.
Qed.

Lemma to_from_be_bytes b :
  forallb byte_ok b = true -> to_be_bytes (length b) (from_be_bytes b) = b.
Proof.
  induction b as [|x b IH] using rev_ind; [done|].
  rewrite forallb_app, from_be_bytes_snoc, length_app, Nat.add_comm. cbn. intros Hb.
  unfold byte_ok in Hb. zbool.
  rewrite Z.div_add_l, Z.div_small, Z.add_0_r, Z.add_comm, Z.mod_add, Z.mod_small by lia.
  f_equal. auto.
Qed.

(** ** Slices *)

Lemma slice_skip l1 l2 from to :
  (length l1 <= from)%nat -> slice (l1 ++ l2) from to = slice l2 (from - length l1) (to - length l1).
Proof. intros Hf. unfold slice. rewrite drop_app_ge by done. f_equal. lia. Qed.

Lemma slice_head l1 l2 to : length l1 = to -> slice (l1 ++ l2) 0 to = l1.
Proof. intros <-. unfold slice. rewrite drop_0, Nat.sub_0_r. by rewrite take_app_length. Qed.

Lemma slice_all l to : length l = to -> slice l 0 to = l.
Proof. intros <-. unfold slice. rewrite drop_0, Nat.sub_0_r. by apply take_ge. Qed.

Lemma slice_cat b i j k : (i <= j <= k)%nat -> slice b i j ++ slice b j k = slice b i k.
Proof.
  intros H. unfold slice. replace (k - i)%nat with ((j - i) + (k - j))%nat by lia.
  rewrite <- (take_take_drop (drop i b) (j - i) (k - j)), drop_drop.
  by replace (i + (j - i))%nat with j by lia.
Qed.

Lemma length_slice b i j : (i <= j)%nat -> (j <= length b)%nat -> length (slice b i j) = (j - i)%nat.
Proof. intros. unfold slice. rewrite length_take, length_drop. lia. Qed.

Lemma slice_bytes b i j : forallb byte_ok b = true -> forallb byte_ok (slice b i j) = true.
Proof.
  intros Hb. apply forallb_forall, Forall_forall. unfold slice.
  apply Forall_take, Forall_drop, Forall_forall. by apply forallb_forall.
Qed.

Lemma u64_be b : length b = 8%nat -> forallb byte_ok b = true ->
  u64_ok (from_be_bytes b) = true /\ to_be_bytes 8 (from_be_bytes b) = b.
Proof.
  intros Hl Hb. pose proof (to_from_be_bytes b Hb) as Ht. rewrite Hl in Ht. split; [|done].
  apply from_be_bytes_bounds in Hb. unfold len in Hb. rewrite Hl in Hb.
  change (256 ^ Z.of_nat 8) with 18446744073709551616 in Hb. unfold u64_ok. lia.
Qed.

(** ** The length of a printed number

    [to_string] prints one character per decimal digit; [decimal_digits] of
    [reducer.rs] counts them by division. *)

(** A digit at the end of a number. *)
Fixpoint usnoc (d : Decimal.uint) (f : Decimal.uint -> Decimal.uint) : Decimal.uint :=
  match d with
  | Decimal.Nil => f Decimal.Nil
  | Decimal.D0 d => Decimal.D0 (usnoc d f) | Decimal.D1 d => Decimal.D1 (usnoc d f)
  | Decimal.D2 d => Decimal.D2 (usnoc d f) | Decimal.D3 d => Decimal.D3 (usnoc d f)
  | Decimal.D4 d => Decimal.D4 (usnoc d f) | Decimal.D5 d => Decimal.D5 (usnoc d f)
  | Decimal.D6 d => Decimal.D6 (usnoc d f) | Decimal.D7 d => Decimal.D7 (usnoc d f)
  | Decimal.D8 d => Decimal.D8 (usnoc d f) | Decimal.D9 d => Decimal.D9 (usnoc d f)
  end.

Lemma digit_of_cases c f :
  digit_of c = Some f ->
  48 <= c <= 57
  /\ (forall d, DecimalPos.Unsigned.of_lu (f d)
        = (Z.to_N (c - 48) + 10 * DecimalPos.Unsigned.of_lu d)%N)
  /\ forall x, Decimal.revapp (f Decimal.Nil) x = f x.
Proof.
  unfold digit_of. intros H.
  repeat match type of H with
  | (if ?c =? ?k then _ else _) = _ =>
      destruct (Z.eqb_spec c k); [subst c; injection H as <-; split; [lia|]; split; [|done];
        intros d; cbn; lia|]
  end.
  discriminate H.
Qed.

Lemma revapp_usnoc d c f x : digit_of c = Some f -> Decimal.revapp (usnoc d f) x = f (Decimal.revapp d x).
Proof.
  intros Hf. destruct (digit_of_cases c f Hf) as (_ & _ & Hr). revert x.
  induction d; intros x; cbn; try done; apply Hr.
Qed.

Lemma of_uint_usnoc d c f :
  digit_of c = Some f -> Z.of_N (N.of_uint (usnoc d f)) = 10 * Z.of_N (N.of_uint d) + (c - 48).
Proof.
  intros Hf. destruct (digit_of_cases c f Hf) as (Hc & Hlu & _).
  change (N.of_uint) with Pos.of_uint. rewrite !DecimalPos.Unsigned.of_uint_alt. unfold Decimal.rev.
  rewrite (revapp_usnoc d c f _ Hf), Hlu. lia.
Qed.

Lemma chars_uint_snoc s c d f :
  chars_uint s = Some d -> digit_of c = Some f -> chars_uint (s ++ [c]) = Some (usnoc d f).
Proof.
  intros Hs Hf. revert d Hs. induction s as [|a s IH]; intros d Hs; simpl in *.
  - injection Hs as <-. rewrite Hf. done.
  - destruct (digit_of a) as [g|] eqn:Hg; [|done]. simpl in *.
    destruct (chars_uint s) as [d'|]; [|done]. simpl in *. injection Hs as <-.
    rewrite (IH d' eq_refl). simpl. f_equal. clear -Hg. unfold digit_of in Hg.
    repeat match type of Hg with
    | (if ?c then _ else _) = _ => destruct c; [by injection Hg as <-|]
    end. discriminate Hg.
Qed.

(** The last digit of a number of at least two. *)
Lemma to_string_snoc n : 10 <= n -> to_string n = to_string (n / 10) ++ [48 + n mod 10].
Proof.
  intros Hn. pose proof (Z.mod_pos_bound n 10 ltac:(lia)) as Hm.
  assert (1 <= n / 10) as Hq by (Z.to_euclidean_division_equations; lia).
  pose proof (to_string_canonical (n / 10) ltac:(lia)) as Hcan.
  assert (is_ascii_digit (48 + n mod 10) = true) as Hdig.
  { unfold is_ascii_digit. apply andb_true_iff. rewrite !Z.leb_le. lia. }
  destruct (digit_of_is_digit _ Hdig) as [f Hf].
  destruct (chars_uint_digits _ (canonical_digits _ Hcan)) as [d Hd].
  assert (Z.of_N (N.of_uint d) = n / 10) as Hval.
  { pose proof (parse_to_string (n / 10) (n / 10) ltac:(lia)) as Hp.
    rewrite (parse_unsigned_digits _ _ d Hd (canonical_nonempty _ Hcan)) in Hp.
    by destruct (_ <=? _) in Hp; simplify_eq. }
  apply (to_string_parse n).
  - unfold canonical_decimal. rewrite !andb_true_iff. split_and!.
    + apply negb_true_iff, bool_decide_eq_false_2. by destruct (to_string (n / 10)).
    + rewrite forallb_app, (canonical_digits _ Hcan). simpl. by rewrite Hdig.
    + apply negb_true_iff. destruct (to_string (n / 10)) as [|c s] eqn:Hs; [by unfold canonical_decimal in Hcan|].
      simpl. destruct (Z.eqb_spec c 48) as [->|]; [|apply andb_false_r].
      exfalso. unfold canonical_decimal in Hcan. rewrite !andb_true_iff in Hcan.
      destruct Hcan as [_ Hz]. simpl in Hz. rewrite andb_true_r in Hz.
      apply negb_true_iff, Z.ltb_ge in Hz. rewrite len_cons in Hz. pose proof (len_nonneg s).
      assert (s = []) as -> by (destruct s; [done|rewrite len_cons in *; pose proof (len_nonneg s); lia]).
      pose proof (parse_to_string (n / 10) (n / 10) ltac:(lia)) as Hp. rewrite Hs in Hp.
      rewrite (parse_unsigned_digits _ _ (Decimal.D0 Decimal.Nil)) in Hp by done.
      change (Z.of_N (N.of_uint (Decimal.D0 Decimal.Nil))) with 0 in Hp.
      destruct (0 <=? n / 10); [|done]. injection Hp as Hp. lia.
  - pose proof (chars_uint_snoc _ _ _ _ Hd Hf) as Hd'.
    rewrite (parse_unsigned_digits n _ _ Hd' ltac:(by destruct (to_string (n / 10)))).
    rewrite (of_uint_usnoc _ _ _ Hf), Hval.
    replace (10 * (n / 10) + (48 + n mod 10 - 48)) with n by (Z.to_euclidean_division_equations; lia).
    by rewrite Z.leb_refl.
Qed.

Lemma to_string_digit n : 0 <= n < 10 -> to_string n = [48 + n].
Proof.
  intros Hn. rewrite <- (Z2Nat.id n) by lia. assert (Z.to_nat n < 10)%nat as Hm by lia. revert Hm.
  generalize (Z.to_nat n). intros m Hm. clear n Hn. do 10 (destruct m as [|m]; [done|]). lia.
Qed.

(** ** Cutting a text at a byte position

    [str::is_char_boundary], the loops that look for the nearest one, and slices. *)

Fixpoint is_char_boundary (s : str) (index : Z) : bool :=
  (index =? 0) || match s with c :: s => (len_utf8 c <=? index) && is_char_boundary s (index - len_utf8 c) | [] => false end.

Fixpoint floor_loop (s : str) (index : nat) : nat :=
  match index with
  | O => O
  | S below => if is_char_boundary s (Z.of_nat index) then index else floor_loop s below
  end.
Definition floor_char_boundary (s : str) (index : Z) : Z := Z.of_nat (floor_loop s (Z.to_nat (Z.min index (str_len s)))).

(** [ahead] is what is left of the text behind the index. *)
Fixpoint ceil_loop (s : str) (index : Z) (ahead : nat) : Z :=
  match ahead with
  | O => index
  | S ahead => if is_char_boundary s index then index else ceil_loop s (index + 1) ahead
  end.
Definition ceil_char_boundary (s : str) (index : Z) : Z :=
  let index := Z.min index (str_len s) in
  ceil_loop s index (Z.to_nat (str_len s - index)).

(** [&s[..n]] and [&s[n..]] at a boundary. *)
Fixpoint str_take (n : Z) (s : str) : str :=
  match s with c :: s => if len_utf8 c <=? n then c :: str_take (n - len_utf8 c) s else [] | [] => [] end.
Fixpoint str_drop (n : Z) (s : str) : str :=
  match s with c :: rest => if n <=? 0 then s else str_drop (n - len_utf8 c) rest | [] => [] end.
Definition str_slice (first last : Z) (s : str) : str := str_take (last - first) (str_drop first s).

Lemma is_char_boundary_iff s : forall index,
  is_char_boundary s index = true <-> exists before after, s = before ++ after /\ str_len before = index.
Proof.
  induction s as [|c s IH]; intros index; cbn [is_char_boundary]; rewrite orb_true_iff, Z.eqb_eq.
  - split; [intros [->|H]; [|done]|intros (before & after & H & <-)].
    + exists [], []. split; [done|apply str_len_nil].
    + left. symmetry in H. apply app_nil in H as [-> _]. apply str_len_nil.
  - rewrite andb_true_iff, IH, Z.leb_le. split.
    + intros [->|[Hc (before & after & -> & Hl)]]; [exists [], (c :: s); split; [done|apply str_len_nil]|].
      exists (c :: before), after. rewrite str_len_cons. split; [done|lia].
    + intros ([|d before] & after & H & <-); [left; apply str_len_nil|right]. injection H as <- ->.
      rewrite str_len_cons. pose proof (str_len_nonneg before). split; [lia|]. exists before, after. split; [done|lia].
Qed.

Lemma str_cut before after : str_take (str_len before) (before ++ after) = before
  /\ str_drop (str_len before) (before ++ after) = after.
Proof.
  induction before as [|c before [IH1 IH2]]; cbn [app].
  - rewrite str_len_nil. split; [destruct after as [|d after]|by destruct after]; [done|]. cbn [str_take].
    pose proof (len_utf8_bounds d). destruct (Z.leb_spec (len_utf8 d) 0); [lia|done].
  - rewrite str_len_cons. pose proof (str_len_nonneg before). pose proof (len_utf8_bounds c). cbn [str_take str_drop].
    destruct (Z.leb_spec (len_utf8 c) (len_utf8 c + str_len before)); [|lia].
    destruct (Z.leb_spec (len_utf8 c + str_len before) 0); [lia|].
    replace (len_utf8 c + str_len before - len_utf8 c) with (str_len before) by lia. by rewrite IH1, IH2.
Qed.

Lemma boundary_cut s n : is_char_boundary s n = true -> s = str_take n s ++ str_drop n s /\ str_len (str_take n s) = n.
Proof.
  intros (before & after & -> & <-)%is_char_boundary_iff. destruct (str_cut before after) as [E1 E2]. by rewrite E1, E2.
Qed.

Lemma boundary_0 s : is_char_boundary s 0 = true.
Proof. apply is_char_boundary_iff. exists [], s. split; [done|apply str_len_nil]. Qed.
Lemma boundary_len s : is_char_boundary s (str_len s) = true.
Proof. apply is_char_boundary_iff. exists s, []. by rewrite app_nil_r. Qed.

(** The largest boundary up to the index, and the least from it on. *)
Lemma floor_char_boundary_spec s index : 0 <= index ->
  let n := floor_char_boundary s index in
  is_char_boundary s n = true /\ 0 <= n <= index /\ forall m, is_char_boundary s m = true -> m <= index -> m <= n.
Proof.
  intros Hi. cbv zeta. unfold floor_char_boundary. set (top := Z.min index (str_len s)).
  assert (forall k, is_char_boundary s (Z.of_nat (floor_loop s k)) = true /\ (floor_loop s k <= k)%nat
    /\ forall m, is_char_boundary s m = true -> m <= Z.of_nat k -> m <= Z.of_nat (floor_loop s k)) as H.
  { induction k as [|k IH]; [split_and!; [apply boundary_0|done|done]|]. cbn [floor_loop].
    destruct (is_char_boundary s (Z.of_nat (S k))) eqn:E; [by split_and!|]. destruct IH as (H1 & H2 & H3).
    split_and!; [done|lia|]. intros m Hm Hk. destruct (decide (m = Z.of_nat (S k))) as [->|]; [congruence|]. apply H3; [done|lia]. }
  pose proof (str_len_nonneg s). assert (0 <= top <= index) by (unfold top; lia).
  destruct (H (Z.to_nat top)) as (Hb & Hle & Hmost). split_and!; [done|lia|lia|].
  intros m Hm Hmi. apply Hmost; [done|]. apply is_char_boundary_iff in Hm as (before & after & -> & <-).
  unfold top. rewrite str_len_app in *. pose proof (str_len_nonneg after). lia.
Qed.

Lemma ceil_char_boundary_spec s index : 0 <= index ->
  let n := ceil_char_boundary s index in
  is_char_boundary s n = true /\ Z.min index (str_len s) <= n <= str_len s
  /\ forall m, is_char_boundary s m = true -> index <= m -> n <= m.
Proof.
  intros Hi. cbv zeta. unfold ceil_char_boundary. cbv zeta. pose proof (str_len_nonneg s) as Hl.
  assert (forall ahead n, 0 <= n <= str_len s -> ahead = Z.to_nat (str_len s - n) -> let r := ceil_loop s n ahead in
    is_char_boundary s r = true /\ n <= r <= str_len s /\ forall m, is_char_boundary s m = true -> n <= m -> r <= m) as H.
  { induction ahead as [|ahead IH]; intros n Hn Hleft; cbv zeta; cbn [ceil_loop].
    - assert (n = str_len s) as -> by lia. split_and!; [apply boundary_len|lia|lia|done].
    - destruct (is_char_boundary s n) eqn:E; [split_and!; [done|lia|lia|done]|].
      destruct (IH (n + 1)) as (H1 & H2 & H3); [lia|lia|]. split_and!; [done|lia|lia|]. intros m Hm Hle.
      destruct (decide (m = n)) as [->|]; [congruence|]. apply H3; [done|lia]. }
  destruct (H _ (Z.min index (str_len s)) ltac:(lia) eq_refl) as (H1 & H2 & H3). split_and!; [done|lia|lia|].
  intros m Hm Hmi. apply H3; [done|]. apply is_char_boundary_iff in Hm as (before & after & -> & <-).
  rewrite str_len_app in *. pose proof (str_len_nonneg after). lia.
Qed.

(** A boundary is never far below. *)
Lemma boundary_near s : forall index, 0 <= index <= str_len s ->
  exists m, is_char_boundary s m = true /\ m <= index < m + 4.
Proof.
  induction s as [|c s IH]; intros index Hi.
  - rewrite str_len_nil in Hi. exists 0. split; [apply boundary_0|lia].
  - rewrite str_len_cons in Hi. pose proof (len_utf8_bounds c). destruct (Z.lt_ge_cases index (len_utf8 c)) as [Hlt|Hge].
    + exists 0. split; [apply boundary_0|lia].
    + destruct (IH (index - len_utf8 c)) as (m & Hm & Hr); [lia|]. exists (len_utf8 c + m). split; [|lia].
      cbn [is_char_boundary]. rewrite (proj2 (Z.leb_le (len_utf8 c) (len_utf8 c + m))).
      * replace (len_utf8 c + m - len_utf8 c) with m by lia. rewrite Hm. apply orb_true_r.
      * apply is_char_boundary_iff in Hm as (before & after & _ & <-). pose proof (str_len_nonneg before). lia.
Qed.
