(* ===== verification/AsonModel.v ===== *)
(** * AsonModel: the ASON data model

    The types and constructors of [ason/model.rs] and the errors of
    [ason/error.rs].  A private field is an ordinary field here; what the
    constructors check is stated by the [*_ok] predicates, which
    [AsonFacts.v] proves of every decoded document. *)

From S2P Require Import Prelude Text.

(** A [Key] is the text [Key::new] accepted. *)
Abbreviation Key := (list Z) (only parsing).

Inductive Atom : Type :=
| Null
| Reference (id : Z)
| AText (value : str).

Inductive Cell : Type :=
| CAtom (a : Atom)
| CVector (values : list Atom).

Record Rec : Type := mkRec { rec_columns : list Key; rec_values : list Cell }.
Record Table : Type := mkTable { table_columns : list Key; table_rows : list (list Cell) }.

Inductive Value : Type :=
| Scalar (a : Atom)
| Vector (values : list Atom)
| VRecord (r : Rec)
| VTable (t : Table).

Record Field : Type := mkField { field_key : Key; field_value : Value }.
Record Document : Type := mkDocument { fields : list Field }.

Inductive BuildError : Type :=
| BE_EmptyDocument
| BE_InvalidKey (key : str)
| BE_DuplicateField (key : str)
| BE_EmptyColumns
| BE_DuplicateColumn (key : str)
| BE_Width (expected actual : Z).

#[export] Instance Atom_eq_dec : EqDecision Atom.
Proof. solve_decision. Defined.
#[export] Instance Cell_eq_dec : EqDecision Cell.
Proof. solve_decision. Defined.
#[export] Instance Rec_eq_dec : EqDecision Rec.
Proof. solve_decision. Defined.
#[export] Instance Table_eq_dec : EqDecision Table.
Proof. solve_decision. Defined.
#[export] Instance Value_eq_dec : EqDecision Value.
Proof. solve_decision. Defined.
#[export] Instance Field_eq_dec : EqDecision Field.
Proof. solve_decision. Defined.
#[export] Instance Document_eq_dec : EqDecision Document.
Proof. solve_decision. Defined.
#[export] Instance BuildError_eq_dec : EqDecision BuildError.
Proof. solve_decision. Defined.

(** ** Constructors *)

Definition is_valid_key (value : str) : bool :=
  match str_bytes value with
  | [] => false
  | first :: bytes =>
      if negb (is_ascii_alphabetic first || (first =? 95)) then false
      else forallb (fun byte => is_ascii_alphanumeric byte
                                || (byte =? 95) || (byte =? 46) || (byte =? 45)) bytes
  end.

Definition Key_new (value : str) : result BuildError Key :=
  if negb (is_valid_key value) then Err (BE_InvalidKey value) else Ok value.

Definition validate_columns (columns : list Key) : result BuildError unit :=
  if bool_decide (columns = []) then Err BE_EmptyColumns
  else match first_duplicate columns with
       | Some column => Err (BE_DuplicateColumn column)
       | None => Ok tt
       end.

Definition Record_new (columns : list Key) (values : list Cell) : result BuildError Rec :=
  _ ← validate_columns columns;
  if negb (len columns =? len values) then Err (BE_Width (len columns) (len values))
  else Ok (mkRec columns values).

(** The [for row in &rows] loop of [Table::new]. *)
Fixpoint check_widths (width : Z) (rows : list (list Cell)) : result BuildError unit :=
  match rows with
  | [] => Ok tt
  | row :: rows =>
      if negb (len row =? width) then Err (BE_Width width (len row))
      else check_widths width rows
  end.

Definition Table_new (columns : list Key) (rows : list (list Cell)) : result BuildError Table :=
  _ ← validate_columns columns;
  _ ← check_widths (len columns) rows;
  Ok (mkTable columns rows).

Definition Document_new (fs : list Field) : result BuildError Document :=
  if bool_decide (fs = []) then Err BE_EmptyDocument
  else match first_duplicate (field_key <$> fs) with
       | Some key => Err (BE_DuplicateField key)
       | None => Ok (mkDocument fs)
       end.

Definition Document_get (d : Document) (key : str) : option Value :=
  field_value <$> List.find (fun f => bool_decide (field_key f = key)) (fields d).

(** ** Errors of the decoder *)

Inductive LimitKind : Type :=
| Bytes | Lines | Fields | KeyBytes | Columns | Rows | VectorItems | ScalarBytes | Values.

Inductive DecodeError : Type :=
| DE_Limit (kind : LimitKind) (max line : Z)
| DE_MissingFinalLf
| DE_CarriageReturn (offset : Z)
| DE_EmptyDocument
| DE_BlankLine (line : Z)
| DE_Syntax (line column : Z) (message : string)
| DE_InvalidKey (line : Z) (key : str)
| DE_DuplicateField (line : Z) (key : str)
| DE_DuplicateColumn (line : Z) (key : str)
| DE_EmptyColumns (line : Z)
| DE_InvalidRowCount (line : Z)
| DE_MissingRows (line declared available : Z)
| DE_RowWidth (line expected actual : Z)
| DE_InvalidReference (line column : Z)
| DE_InvalidEscape (line column : Z) (message : string).

#[export] Instance LimitKind_eq_dec : EqDecision LimitKind.
Proof. solve_decision. Defined.
#[export] Instance DecodeError_eq_dec : EqDecision DecodeError.
Proof. solve_decision. Defined.

(** ** What the types and constructors guarantee

    [u64] ranges, [String]s of scalar values, and the checks of the
    constructors above, as one decidable predicate per type. *)

Definition key_ok (k : Key) : bool := is_valid_key k.

Definition atom_ok (a : Atom) : bool :=
  match a with Null => true | Reference id => u64_ok id | AText s => valid_str s end.

Definition cell_ok (c : Cell) : bool :=
  match c with CAtom a => atom_ok a | CVector l => forallb atom_ok l end.

Definition columns_ok (columns : list Key) : bool :=
  negb (bool_decide (columns = [])) && forallb key_ok columns && bool_decide (NoDup columns).

Definition value_ok (v : Value) : bool :=
  match v with
  | Scalar a => atom_ok a
  | Vector l => forallb atom_ok l
  | VRecord r =>
      columns_ok (rec_columns r) && (len (rec_columns r) =? len (rec_values r))
      && forallb cell_ok (rec_values r)
  | VTable t =>
      columns_ok (table_columns t)
      && forallb (fun row => (len row =? len (table_columns t)) && forallb cell_ok row)
           (table_rows t)
  end.

Definition document_ok (d : Document) : bool :=
  negb (bool_decide (fields d = []))
  && bool_decide (NoDup (field_key <$> fields d))
  && forallb (fun f => key_ok (field_key f) && value_ok (field_value f)) (fields d).

(** ** The constructors establish them *)

Lemma key_ok_cases k :
  is_valid_key k = true ->
  exists c s, k = c :: s /\ (is_ascii_alphabetic c || (c =? 95)) = true
    /\ forallb (fun byte => is_ascii_alphanumeric byte
                            || (byte =? 95) || (byte =? 46) || (byte =? 45)) s = true.
Proof.
  unfold is_valid_key. destruct k as [|c s]; [done|]. rewrite str_bytes_cons.
  unfold encode_utf8. destruct (Z.ltb_spec c 128) as [Hc|Hc]; cbn.
  - case_match eqn:E; [done|]. intros Hs. exists c, s. split_and!; [done| |].
    + by apply negb_false_iff in E.
    + rewrite forallb_str_bytes in Hs; [done|].
      unfold is_ascii_alphanumeric, is_ascii_alphabetic, is_ascii_lower, is_ascii_upper,
        is_ascii_digit. lia.
  - assert (0 <= c / 64 /\ 0 <= c / 4096 /\ 0 <= c / 262144) by
      (repeat split; apply Z.div_pos; lia).
    unfold is_ascii_alphabetic, is_ascii_lower, is_ascii_upper.
    intros Hk. exfalso. revert Hk.
    destruct (c <? 2048); [|destruct (c <? 65536)]; cbn;
      match goal with |- context [if ?b then _ else _] => destruct b eqn:E end;
      try done; intros _; lia.
Qed.

Lemma Key_new_ok s k : Key_new s = Ok k <-> k = s /\ is_valid_key s = true.
Proof. unfold Key_new. destruct (is_valid_key s); cbn; split; naive_solver. Qed.

Lemma validate_columns_ok columns :
  validate_columns columns = Ok tt <-> columns <> [] /\ NoDup columns.
Proof.
  unfold validate_columns. rewrite <- first_duplicate_None.
  case_bool_decide; [naive_solver|]. destruct (first_duplicate columns); naive_solver.
Qed.

Lemma check_widths_ok width rows :
  check_widths width rows = Ok tt <-> Forall (fun row => len row = width) rows.
Proof.
  induction rows as [|row rows IH]; cbn; [by split; [constructor|]|].
  rewrite list.Forall_cons, <- IH. destruct (Z.eqb_spec (len row) width); naive_solver.
Qed.

Lemma Record_new_ok columns values r :
  Record_new columns values = Ok r <->
  r = mkRec columns values /\ columns <> [] /\ NoDup columns /\ len columns = len values.
Proof.
  unfold Record_new. rewrite bind_ok.
  split.
  - intros ([] & Hv%validate_columns_ok & H).
    destruct (Z.eqb_spec (len columns) (len values)); naive_solver.
  - intros (-> & ? & ? & ?). exists tt. split; [by apply validate_columns_ok|].
    by destruct (Z.eqb_spec (len columns) (len values)).
Qed.

Lemma Table_new_ok columns rows t :
  Table_new columns rows = Ok t <->
  t = mkTable columns rows /\ columns <> [] /\ NoDup columns
    /\ Forall (fun row => len row = len columns) rows.
Proof.
  unfold Table_new. split.
  - intros H. inv_ok. destruct x, x0. subst.
    apply validate_columns_ok in H0. apply check_widths_ok in H1. naive_solver.
  - intros (-> & ? & ? & Hw). apply check_widths_ok in Hw.
    assert (validate_columns columns = Ok tt) as -> by (by apply validate_columns_ok).
    cbn. by rewrite Hw.
Qed.

Lemma Document_new_ok fs d :
  Document_new fs = Ok d <-> d = mkDocument fs /\ fs <> [] /\ NoDup (field_key <$> fs).
Proof.
  unfold Document_new. rewrite <- first_duplicate_None.
  case_bool_decide; [naive_solver|].
  destruct (first_duplicate (field_key <$> fs)); naive_solver.
Qed.
