(* ===== verification/AsonCodec.v ===== *)
(** * AsonCodec: the canonical encoder and the decoder of ASON

    [ason/encode.rs], [ason/scalar.rs] and [ason/parse.rs].  The encoder's
    functions return the text they push on the output.  The decoder is a state
    and error monad: the state is [Parser::values], the number of scalars read
    so far.  Where a callee advances an iterator it shares with its caller (the
    chars of an escape, the lines of a table), it returns how many items it
    consumed and the caller's loop skips them, so that every loop is structural
    on its iterator. *)

From S2P Require Import Prelude Text AsonModel.

(** ** encode.rs *)

(** [ason::scalar::is_bare_byte] *)
Definition is_bare_byte (byte : Z) : bool :=
  is_ascii_alphanumeric byte
  || (byte =? 95) || (byte =? 46) || (byte =? 47) || (byte =? 64) || (byte =? 43)
  || (byte =? 45) || (byte =? 35) || (byte =? 63) || (byte =? 124) || (byte =? 62).

Definition is_reference_syntax (value : str) : bool :=
  match strip_prefix 64 value with
  | Some digits => negb (bool_decide (digits = [])) && forallb is_ascii_digit (str_bytes digits)
  | None => false
  end.

Definition is_bare_text (value : str) : bool :=
  negb (bool_decide (value = [])) && forallb is_bare_byte (str_bytes value)
  && negb (is_reference_syntax value).

(** The body of the loop of [write_quoted]. *)
Definition write_escaped (character : char) : str :=
  if character =? 92 then L "\\"
  else if character =? 34 then [92; 34]
  else if character =? 10 then L "\n"
  else if character =? 13 then L "\r"
  else if character =? 9 then L "\t"
  else if is_control character then L "\u{" ++ hex_lower character ++ L "}"
  else [character].

Definition write_quoted (value : str) : str := 34 :: (value ≫= write_escaped) ++ [34].

Definition write_atom (atom : Atom) : str :=
  match atom with
  | Null => L "~"
  | Reference id => L "@" ++ to_string id
  | AText value => if is_bare_text value then value else write_quoted value
  end.

Definition write_vector (values : list Atom) : str :=
  91 :: join 44 (write_atom <$> values) ++ [93].

Definition write_cell (cell : Cell) : str :=
  match cell with CAtom atom => write_atom atom | CVector values => write_vector values end.

Definition write_row (row : list Cell) : str := join 44 (write_cell <$> row) ++ [10].

Definition write_columns (columns : list Key) : str := 123 :: join 44 columns ++ [125].

Definition write_field (field : Field) : str :=
  field_key field ++
  match field_value field with
  | Scalar atom => L ":" ++ write_atom atom ++ [10]
  | Vector values => L ":" ++ write_vector values ++ [10]
  | VRecord record =>
      write_columns (rec_columns record) ++ L ":" ++ [10] ++ write_row (rec_values record)
  | VTable table =>
      L "[" ++ to_string (len (table_rows table)) ++ L "]"
      ++ write_columns (table_columns table) ++ L ":" ++ [10]
      ++ (table_rows table ≫= write_row)
  end.

Definition encode (document : Document) : str := fields document ≫= write_field.

(** ** parse.rs: limits and the parser monad *)

Record Limits : Type := mkLimits {
  max_bytes : Z;
  max_lines : Z;
  max_fields : Z;
  max_key_bytes : Z;
  max_columns : Z;
  max_rows : Z;
  max_vector_items : Z;
  max_scalar_bytes : Z;
  max_values : Z;
}.

Definition Limits_default : Limits :=
  mkLimits (8 * 1024 * 1024) 262144 256 128 128 100000 4096 (1024 * 1024) 1000000.

Definition parser (A : Type) : Type := Z -> result DecodeError (A * Z).
#[export] Instance parser_ret : MRet parser := fun A a values => Ok (a, values).
#[export] Instance parser_bind : MBind parser := fun A B f m values =>
  '(a, values) ← m values; f a values.
Definition lift {A} (m : result DecodeError A) : parser A := fun values =>
  a ← m; Ok (a, values).

Definition enforce (actual max : Z) (kind : LimitKind) (line : Z) : result DecodeError unit :=
  if max <? actual then Err (DE_Limit kind max line) else Ok tt.

(** ** scalar.rs *)

Definition enforce_bytes (actual max line : Z) : result DecodeError unit :=
  if max <? actual then Err (DE_Limit ScalarBytes max line) else Ok tt.

Definition empty_scalar_message : string :=
  "empty scalar must be written as " +:+ String (Ascii.ascii_of_N 34) (String (Ascii.ascii_of_N 34) EmptyString).

(** The loop of [parse_unicode_escape]: the digits up to the closing brace and
    the number of chars consumed. *)
Fixpoint escape_digits (line column : Z) (chars : str) (digits : str) (consumed : nat)
    : result DecodeError (str * nat) :=
  match chars with
  | [] => Err (DE_InvalidEscape line column "unterminated unicode escape")
  | character :: chars =>
      if character =? 125 then Ok (digits, S consumed)
      else if negb (is_ascii_hexdigit character) || (len digits =? 6) then
        Err (DE_InvalidEscape line column
               "unicode escape requires one to six hexadecimal digits")
      else escape_digits line column chars (digits ++ [character]) (S consumed)
  end.

Definition parse_unicode_escape (chars : str) (line column : Z)
    : result DecodeError (char * nat) :=
  match chars with
  | 123 :: chars =>
      '(digits, consumed) ← escape_digits line column chars [] 1;
      if bool_decide (digits = []) then
        Err (DE_InvalidEscape line column "unicode escape cannot be empty")
      else
        value ← ok_or (from_hex digits) (DE_InvalidEscape line column "invalid unicode scalar");
        c ← ok_or (char_from_u32 value) (DE_InvalidEscape line column "invalid unicode scalar");
        Ok (c, consumed)
  | _ => Err (DE_InvalidEscape line column "unicode escape must start with '{'")
  end.

(** The match on the char after a backslash, at [escape_offset]; [chars] is what
    follows it.  Returns the char to push and how many of [chars] were used. *)
Definition escape_char (escape : char) (chars : str) (line column current_column escape_offset : Z)
    : result DecodeError (char * nat) :=
  if escape =? 92 then Ok (92, O)
  else if escape =? 34 then Ok (34, O)
  else if escape =? 110 then Ok (10, O)
  else if escape =? 114 then Ok (13, O)
  else if escape =? 116 then Ok (9, O)
  else if escape =? 117 then parse_unicode_escape chars line (column + escape_offset + 2)
  else Err (DE_InvalidEscape line current_column "unknown escape").

(** The [while let] loop of [quoted]: [chars] is the rest of [source[1..]] at
    byte [offset], of which the first [skip] chars have been consumed. *)
Fixpoint quoted_loop (source_len line column max_bytes : Z)
    (chars : str) (offset : Z) (skip : nat) (output : str) : result DecodeError str :=
  match chars with
  | [] => Err (DE_Syntax line column "unterminated quoted string")
  | character :: chars =>
      let next := offset + len_utf8 character in
      match skip with
      | S skip => quoted_loop source_len line column max_bytes chars next skip output
      | O =>
          let current_column := column + offset + 1 in
          if character =? 34 then
            if negb (offset + len_utf8 character + 1 =? source_len) then
              Err (DE_Syntax line current_column "characters follow the closing quote")
            else Ok output
          else if character =? 92 then
            match chars with
            | [] => Err (DE_InvalidEscape line current_column "incomplete escape")
            | escape :: rest =>
                '(c, used) ← escape_char escape rest line column current_column next;
                let output := output ++ [c] in
                _ ← enforce_bytes (str_len output) max_bytes line;
                quoted_loop source_len line column max_bytes chars next (S used) output
            end
          else if is_control character then
            Err (DE_Syntax line current_column "control character must be escaped")
          else
            let output := output ++ [character] in
            _ ← enforce_bytes (str_len output) max_bytes line;
            quoted_loop source_len line column max_bytes chars next O output
      end
  end.

Definition quoted (source : str) (line column max_bytes : Z) : result DecodeError str :=
  quoted_loop (str_len source) line column max_bytes (tail source) 0 O [].

Definition bare (source : str) (line column max_bytes : Z) : result DecodeError Atom :=
  _ ← enforce_bytes (str_len source) max_bytes line;
  if negb (forallb is_bare_byte (str_bytes source)) then
    Err (DE_Syntax line column "invalid bare scalar character")
  else Ok (AText source).

(** The condition of the [if let] chain on ['@'] is that of
    [is_reference_syntax]. *)
Definition scalar_decode (source : str) (line column max_bytes : Z) : result DecodeError Atom :=
  if bool_decide (source = []) then
    Err (DE_Syntax line column empty_scalar_message)
  else if bool_decide (source = L "~") then Ok Null
  else if is_reference_syntax source then
    let digits := tail source in
    if (1 <? str_len digits) && starts_with 48 digits then Err (DE_InvalidReference line column)
    else id ← ok_or (parse_unsigned u64_max digits) (DE_InvalidReference line column);
         Ok (Reference id)
  else if starts_with 34 source then AText <$> quoted source line column max_bytes
  else bare source line column max_bytes.

(** ** parse.rs *)

Inductive ItemLimit : Type := LimitRow (expected : Z) | LimitVector (max : Z).

Definition push_item (items : list (Z * str)) (item : Z * str) (limit : ItemLimit) (line : Z)
    : result DecodeError (list (Z * str)) :=
  let next := len items + 1 in
  match limit with
  | LimitRow expected =>
      if expected <? next then Err (DE_RowWidth line expected next) else Ok (items ++ [item])
  | LimitVector max =>
      if max <? next then Err (DE_Limit VectorItems max line) else Ok (items ++ [item])
  end.

(** The scanner's flags. *)
Record scan_state : Type := mkScan { sc_quoted : bool; sc_escaped : bool; sc_depth : Z }.
Definition scan_start : scan_state := mkScan false false 0.

(** The loop of [split_items] at byte [offset]; [cur] is [source[start..offset]]. *)
Fixpoint split_loop (allow_vector : bool) (line : Z) (limit : ItemLimit)
    (chars : str) (offset start : Z) (cur : str) (st : scan_state) (items : list (Z * str))
    : result DecodeError (list (Z * str)) :=
  match chars with
  | [] =>
      if sc_quoted st then Err (DE_Syntax line offset "unterminated quoted string")
      else if negb (sc_depth st =? 0) then Err (DE_Syntax line offset "unterminated vector")
      else push_item items (start + 1, cur) limit line
  | character :: chars =>
      let next := offset + len_utf8 character in
      let continue st :=
        split_loop allow_vector line limit chars next start (cur ++ [character]) st items in
      if sc_quoted st then
        continue (if sc_escaped st then mkScan true false (sc_depth st)
                  else if character =? 92 then mkScan true true (sc_depth st)
                  else if character =? 34 then mkScan false (sc_escaped st) (sc_depth st)
                  else st)
      else if character =? 34 then continue (mkScan true (sc_escaped st) (sc_depth st))
      else if character =? 91 then
        if allow_vector && (sc_depth st =? 0) then continue (mkScan false (sc_escaped st) 1)
        else Err (DE_Syntax line (offset + 1) "nested vectors are not allowed")
      else if character =? 93 then
        if allow_vector && (sc_depth st =? 1) then continue (mkScan false (sc_escaped st) 0)
        else Err (DE_Syntax line (offset + 1) "unmatched vector bracket")
      else if (character =? 44) && (sc_depth st =? 0) then
        items ← push_item items (start + 1, cur) limit line;
        split_loop allow_vector line limit chars next (offset + 1) [] st items
      else continue st
  end.

Definition split_items (source : str) (allow_vector : bool) (line : Z) (limit : ItemLimit)
    : result DecodeError (list (Z * str)) :=
  split_loop allow_vector line limit source 0 0 [] scan_start [].

Definition parse_row_count (source : str) (line : Z) : result DecodeError Z :=
  if bool_decide (source = []) || negb (forallb is_ascii_digit (str_bytes source))
     || ((1 <? str_len source) && starts_with 48 source)
  then Err (DE_InvalidRowCount line)
  else ok_or (parse_unsigned usize_max source) (DE_InvalidRowCount line).

Record Header : Type := mkHeader {
  header_key : Key; header_columns : list Key; header_rows : option Z }.

Section Parser.
Variable limits : Limits.

(** The methods of [Parser] that do not touch [values]. *)
Definition parse_key (source : str) (line : Z) : result DecodeError Key :=
  _ ← enforce (str_len source) (max_key_bytes limits) KeyBytes line;
  map_err (fun _ => DE_InvalidKey line source) (Key_new source).

Fixpoint columns_loop (line : Z) (values : list str) (seen : gset str) (columns : list Key)
    : result DecodeError (list Key) :=
  match values with
  | [] => Ok columns
  | value :: values =>
      _ ← enforce (len columns + 1) (max_columns limits) Columns line;
      key ← parse_key value line;
      if bool_decide (key ∈ seen) then Err (DE_DuplicateColumn line key)
      else columns_loop line values ({[key]} ∪ seen) (columns ++ [key])
  end.

Definition parse_columns (source : str) (line : Z) : result DecodeError (list Key) :=
  if bool_decide (source = []) then Err (DE_EmptyColumns line)
  else columns_loop line (split 44 source) ∅ [].

(** [Parser::header]; [head.find('{')] and [prefix.rfind('[')] with the slices
    around them are [split_once] and [rsplit_once]. *)
Definition parse_header (head : str) (line : Z) : result DecodeError Header :=
  if negb (ends_with 125 head) then
    Err (DE_Syntax line 1 "record or table header must end with '}'")
  else
    '(prefix, after) ← ok_or (split_once 123 head)
      (DE_Syntax line 1 "record or table header is missing an opening brace");
    let column_source := drop_last after in
    '(key_source, rows) ←
      (if ends_with 93 prefix then
         '(before, bracketed) ← ok_or (rsplit_once 91 prefix)
           (DE_Syntax line 1 "table header is missing an opening bracket");
         count ← parse_row_count (drop_last bracketed) line;
         Ok (before, Some count)
       else if contains 91 prefix || contains 93 prefix then
         Err (DE_Syntax line 1 "malformed table row count")
       else Ok (prefix, None));
    key ← parse_key key_source line;
    columns ← parse_columns column_source line;
    Ok (mkHeader key columns rows).

Definition bump_value (line : Z) : parser unit := fun values =>
  _ ← enforce (values + 1) (max_values limits) Values line;
  Ok (tt, values + 1).

Definition parse_atom (source : str) (line column : Z) : parser Atom :=
  _ ← bump_value line;
  lift (scalar_decode source line column (max_scalar_bytes limits)).

Definition parse_vector (source : str) (line column : Z) : parser (list Atom) :=
  if negb (starts_with 91 source) || negb (ends_with 93 source) then
    lift (Err (DE_Syntax line column "vector must be enclosed by '[' and ']'"))
  else
    let inner := drop_last (tail source) in
    if bool_decide (inner = []) then mret []
    else
      raw ← lift (split_items inner false line (LimitVector (max_vector_items limits)));
      mapM (fun '(offset, value) => parse_atom value line (column + offset)) raw.

Definition parse_cell (source : str) (line column : Z) : parser Cell :=
  if starts_with 91 source then values ← parse_vector source line column; mret (CVector values)
  else atom ← parse_atom source line column; mret (CAtom atom).

Definition parse_row (source : str) (width line : Z) : parser (list Cell) :=
  raw ← lift (split_items source true line (LimitRow width));
  if negb (len raw =? width) then lift (Err (DE_RowWidth line width (len raw)))
  else mapM (fun '(column, value) => parse_cell value line column) raw.

(** The [for consumed in 0..row_count] loop of [document]. *)
Fixpoint rows_loop (row_count width line : Z) (lines : list (Z * str)) (consumed : Z)
    : parser (list (list Cell)) :=
  if consumed <? row_count then
    match lines with
    | [] => lift (Err (DE_MissingRows line row_count consumed))
    | (row_index, row) :: lines =>
        let row_number := row_index + 1 in
        if bool_decide (row = []) then lift (Err (DE_BlankLine row_number))
        else
          r ← parse_row row width row_number;
          rest ← rows_loop row_count width line lines (consumed + 1);
          mret (r :: rest)
    end
  else mret [].

(** The value a header announces, read from the lines that follow it, and how
    many of them it took. *)
Definition parse_headed (head payload : str) (line : Z) (lines : list (Z * str))
    : parser (Key * Value * nat) :=
  if negb (bool_decide (payload = [])) then
    lift (Err (DE_Syntax line (str_len head + 2)
                 "record and table headers cannot contain an inline value"))
  else
    header ← lift (parse_header head line);
    let row_count := match header_rows header with Some n => n | None => 1 end in
    _ ← lift (enforce row_count (max_rows limits) Rows line);
    rows ← rows_loop row_count (len (header_columns header)) line lines 0;
    value ←
      (match header_rows header with
       | Some _ =>
           t ← lift (map_err (fun _ => DE_Syntax line 1 "invalid table model")
                       (Table_new (header_columns header) rows));
           mret (VTable t)
       | None =>
           values ← lift (ok_or (list.last rows) (DE_MissingRows line 1 0));
           r ← lift (map_err (fun _ => DE_Syntax line 1 "invalid record model")
                       (Record_new (header_columns header) values));
           mret (VRecord r)
       end : parser Value);
    mret (header_key header, value, length rows).

Definition parse_inline (head payload : str) (line : Z) : parser (Key * Value * nat) :=
  key ← lift (parse_key head line);
  value ←
    (if starts_with 91 payload then
       v ← parse_vector payload line (str_len head + 2); mret (Vector v)
     else a ← parse_atom payload line (str_len head + 2); mret (Scalar a));
  mret (key, value, O).

(** One turn of the [while let] loop of [document]. *)
Definition parse_field (nfields line_index : Z) (line : str) (lines : list (Z * str))
    : parser (Key * Value * nat) :=
  let line_number := line_index + 1 in
  if bool_decide (line = []) then lift (Err (DE_BlankLine line_number))
  else
    _ ← lift (enforce (nfields + 1) (max_fields limits) Fields line_number);
    '(head, payload) ← lift (ok_or (split_once 58 line)
      (DE_Syntax line_number (str_len line + 1) "top-level field is missing ':'"));
    if contains 123 head || contains 91 head
    then parse_headed head payload line_number lines
    else parse_inline head payload line_number.

(** The loop itself; the first [skip] lines were consumed by the last field. *)
Fixpoint fields_loop (lines : list (Z * str)) (skip : nat)
    (fs : list Field) (field_names : gset str) : parser (list Field) :=
  match lines with
  | [] => mret fs
  | (line_index, line) :: lines =>
      match skip with
      | S skip => fields_loop lines skip fs field_names
      | O =>
          '(key, value, used) ← parse_field (len fs) line_index line lines;
          if bool_decide (key ∈ field_names) then
            lift (Err (DE_DuplicateField (line_index + 1) key))
          else fields_loop lines used (fs ++ [mkField key value]) ({[key]} ∪ field_names)
      end
  end.

Definition enumerate {A} (l : list A) : list (Z * A) := imap (fun i a => (Z.of_nat i, a)) l.

Definition parse_document (input : str) : result DecodeError Document :=
  _ ← enforce (str_len input) (max_bytes limits) Bytes 1;
  match list_find (fun byte => byte = 13) (str_bytes input) with
  | Some (offset, _) => Err (DE_CarriageReturn (Z.of_nat offset))
  | None =>
      body ← ok_or (strip_suffix 10 input) DE_MissingFinalLf;
      if bool_decide (body = []) then Err DE_EmptyDocument
      else
        let line_count := len (filter (fun byte => byte = 10) (str_bytes input)) in
        _ ← enforce line_count (max_lines limits) Lines 1;
        '(fs, _) ← fields_loop (enumerate (split 10 body)) O [] ∅ 0;
        map_err (fun _ => DE_EmptyDocument) (Document_new fs)
  end.
End Parser.

(** ** mod.rs *)

Definition decode_with_limits (input : str) (limits : Limits) : result DecodeError Document :=
  parse_document limits input.

Definition decode (input : str) : result DecodeError Document :=
  decode_with_limits input Limits_default.

Definition canonicalize (input : str) (limits : Limits) : result DecodeError str :=
  encode <$> decode_with_limits input limits.

Definition is_canonical (input : str) (limits : Limits) : result DecodeError bool :=
  (fun canonical => bool_decide (canonical = input)) <$> canonicalize input limits.
