(* ===== verification/AsonScalarFacts.v ===== *)
(** * AsonScalarFacts: scalars survive encoding and decoding

    [scalar_decode] inverts [write_atom], and what it accepts is never shorter
    than what [write_atom] prints for it. *)

From S2P Require Import Prelude Text AsonModel AsonCodec.

(** The scalar ceiling, per atom. *)
Definition atom_within (max : Z) (a : Atom) : bool :=
  match a with AText s => str_len s <=? max | _ => true end.

(** ** Facts about the character classes *)

Ltac unfold_classes :=
  unfold is_bare_byte, is_ascii_alphanumeric, is_ascii_alphabetic, is_ascii_lower,
    is_ascii_upper, is_ascii_hexdigit, is_ascii_digit, is_control in *.

Lemma bare_byte_ascii b : is_bare_byte b = true -> b < 128.
Proof. unfold_classes. lia. Qed.
Lemma digit_ascii b : is_ascii_digit b = true -> b < 128.
Proof. unfold_classes. lia. Qed.

Lemma forallb_weaken {A} (P Q : A -> bool) l :
  (forall x, P x = true -> Q x = true) -> forallb P l = true -> forallb Q l = true.
Proof.
  intros H. induction l as [|x l IH]; cbn; [done|].
  intros [Hx Hl]%andb_true_iff. by rewrite (H x), IH.
Qed.

Lemma digits_str_len s : forallb is_ascii_digit s = true -> str_len s = len s.
Proof.
  intros H. apply str_len_ascii. eapply forallb_weaken; [|done].
  intros x. unfold_classes. lia.
Qed.

Lemma digits_str_bytes s : forallb is_ascii_digit (str_bytes s) = forallb is_ascii_digit s.
Proof. apply forallb_str_bytes, digit_ascii. Qed.

Lemma to_string_nonempty n : to_string n <> [].
Proof.
  destruct (Z.ltb_spec n 0) as [Hn|Hn].
  - unfold to_string. by destruct (Z.ltb_spec n 0); [|lia].
  - by apply canonical_nonempty, to_string_canonical.
Qed.

(** ** Escapes *)

Lemma quoted_loop_skip sl line col mb chars off n out :
  quoted_loop sl line col mb chars off n out =
  quoted_loop sl line col mb (drop n chars) (off + str_len (take n chars)) 0 out.
Proof.
  revert off n. induction chars as [|c chars IH]; intros off n.
  - by destruct n.
  - destruct n as [|n]; [by rewrite drop_0, take_0, str_len_nil, Z.add_0_r|].
    cbn [drop take]. rewrite str_len_cons. cbn [quoted_loop]. rewrite IH. f_equal. lia.
Qed.

Lemma escape_digits_app line col ds rest acc n :
  forallb is_ascii_hexdigit ds = true -> len acc + len ds <= 6 ->
  escape_digits line col (ds ++ 125 :: rest) acc n = Ok (acc ++ ds, S (n + length ds)).
Proof.
  revert acc n. induction ds as [|d ds IH]; intros acc n Hd Hl; cbn.
  - by rewrite app_nil_r, Nat.add_0_r.
  - cbn in Hd. apply andb_true_iff in Hd as [Hd Hds]. rewrite len_cons in Hl.
    pose proof (len_nonneg ds).
    destruct (Z.eqb_spec d 125) as [->|_]; [done|]. rewrite Hd.
    destruct (Z.eqb_spec (len acc) 6); [lia|]. cbn.
    rewrite IH; [|done|rewrite len_app, len_cons, len_nil; lia].
    rewrite <- app_assoc. by rewrite Nat.add_succ_comm.
Qed.

(** The hexadecimal form of each control character, checked one by one. *)
Definition control_chars : list Z := (Z.of_nat <$> seq 0 32) ++ (Z.of_nat <$> seq 127 33).

Lemma control_chars_spec c : is_control c = true -> c ∈ control_chars.
Proof.
  unfold is_control, control_chars. intros H.
  rewrite elem_of_app, !list_elem_of_fmap.
  assert (0 <= c <= 31 \/ 127 <= c <= 159) as [?|?] by lia; [left|right];
    exists (Z.to_nat c); (split; [lia|apply elem_of_seq; lia]).
Qed.

Lemma hex_lower_control c :
  is_control c = true ->
  forallb is_ascii_hexdigit (hex_lower c) = true /\ hex_lower c <> []
  /\ len (hex_lower c) <= 2 /\ from_hex (hex_lower c) = Some c /\ valid_char c = true.
Proof.
  intros H%control_chars_spec.
  assert (Forall (fun c =>
    (forallb is_ascii_hexdigit (hex_lower c) && negb (bool_decide (hex_lower c = []))
     && (len (hex_lower c) <=? 2) && bool_decide (from_hex (hex_lower c) = Some c)
     && valid_char c) = true) control_chars) as HF
    by (apply Forall_forall; apply forallb_forall; vm_compute; done).
  rewrite Forall_forall in HF. apply list_elem_of_In, HF in H. zbool.
  repeat match goal with
    | H : bool_decide _ = true |- _ => apply bool_decide_eq_true in H
    | H : bool_decide _ = false |- _ => apply bool_decide_eq_false in H
    end. done.
Qed.

Lemma parse_unicode_escape_control c rest line col :
  is_control c = true ->
  parse_unicode_escape (123 :: hex_lower c ++ 125 :: rest) line col
  = Ok (c, (2 + length (hex_lower c))%nat).
Proof.
  intros (Hh & Hne & Hl & Hf & Hv)%hex_lower_control. cbn [parse_unicode_escape].
  rewrite escape_digits_app by (rewrite ?len_nil; done || lia). cbn.
  case_bool_decide; [done|]. rewrite Hf. cbn. unfold char_from_u32. by rewrite Hv.
Qed.

Lemma enforce_bytes_ok actual max line :
  actual <= max -> enforce_bytes actual max line = Ok tt.
Proof. intros ?%Z.ltb_ge. unfold enforce_bytes. by case_match. Qed.

(** One backslash escape that denotes [c] and uses [u] chars of what follows. *)
Lemma quoted_loop_backslash sl line col mb e chars off out c u :
  (forall l k cc o, escape_char e chars l k cc o = Ok (c, u)) ->
  str_len (out ++ [c]) <= mb ->
  quoted_loop sl line col mb (92 :: e :: chars) off 0 out =
  quoted_loop sl line col mb (drop u chars)
    (off + str_len (92 :: e :: take u chars)) 0 (out ++ [c]).
Proof.
  intros He Hmb. cbn [quoted_loop]. cbn. rewrite He. cbn.
  rewrite enforce_bytes_ok by done. cbn. rewrite quoted_loop_skip, !str_len_cons.
  f_equal. lia.
Qed.

Lemma take_drop_app {A} (l k : list A) n :
  length l = n -> take n (l ++ k) = l /\ drop n (l ++ k) = k.
Proof. intros <-. by rewrite take_app_length, drop_app_length. Qed.

(** One escaped char is read back as the char. *)
Lemma quoted_loop_escaped sl line col mb c rest off out :
  valid_char c = true -> str_len (out ++ [c]) <= mb ->
  quoted_loop sl line col mb (write_escaped c ++ rest) off 0 out =
  quoted_loop sl line col mb rest (off + str_len (write_escaped c)) 0 (out ++ [c]).
Proof.
  intros Hv Hmb. unfold write_escaped.
  repeat match goal with |- context [if c =? ?k then _ else _] =>
    destruct (Z.eqb_spec c k) as [->|?];
    [by apply (quoted_loop_backslash _ _ _ _ _ rest _ _ _ 0)|] end.
  destruct (is_control c) eqn:Hc.
  - pose proof (parse_unicode_escape_control c rest) as Hp.
    set (ds := 123 :: hex_lower c ++ [125]).
    replace (L "\u{" ++ hex_lower c ++ L "}") with (92 :: 117 :: ds) by done.
    destruct (take_drop_app ds rest (2 + length (hex_lower c))) as [Ht Hd];
      [unfold ds; cbn; rewrite length_app; cbn; lia|].
    cbn [app]. erewrite quoted_loop_backslash; [by rewrite Ht, Hd| |done].
    intros. unfold escape_char. cbn. unfold ds. cbn. rewrite <- app_assoc. by apply Hp.
  - cbn. rewrite Hc. repeat match goal with |- context [c =? ?k] =>
      destruct (Z.eqb_spec c k); [done|] end.
    rewrite enforce_bytes_ok by done. cbn. by rewrite str_len_cons, str_len_nil, Z.add_0_r.
Qed.

Lemma quoted_loop_text sl line col mb s rest off out :
  valid_str s = true -> str_len (out ++ s) <= mb ->
  quoted_loop sl line col mb ((s ≫= write_escaped) ++ rest) off 0 out =
  quoted_loop sl line col mb rest (off + str_len (s ≫= write_escaped)) 0 (out ++ s).
Proof.
  revert off out. induction s as [|c s IH]; intros off out Hv Hmb.
  - cbn. by rewrite str_len_nil, Z.add_0_r, app_nil_r.
  - cbn in Hv. apply andb_true_iff in Hv as [Hc Hs].
    cbn [mbind list_bind]. fold (mbind (M:=list) write_escaped s).
    replace (out ++ c :: s) with ((out ++ [c]) ++ s) in * by (by rewrite <- app_assoc).
    rewrite <- app_assoc, quoted_loop_escaped, IH, str_len_app; try done.
    + f_equal. lia.
    + rewrite str_len_app in Hmb. pose proof (str_len_nonneg s). lia.
Qed.

Lemma quoted_write_quoted s line col mb :
  valid_str s = true -> str_len s <= mb -> quoted (write_quoted s) line col mb = Ok s.
Proof.
  intros Hv Hmb. unfold quoted, write_quoted. cbn [tail].
  rewrite quoted_loop_text by done. cbn [quoted_loop]. cbn.
  rewrite str_len_cons, str_len_app, str_len_cons, str_len_nil.
  change (len_utf8 34) with 1.
  destruct (Z.eqb_spec (0 + str_len (s ≫= write_escaped) + 1 + 1)
    (1 + (str_len (s ≫= write_escaped) + (1 + 0)))); [done|lia].
Qed.

(** ** Scalars *)

Lemma to_string_reference id : 0 <= id -> is_reference_syntax (64 :: to_string id) = true.
Proof.
  intros Hid. unfold is_reference_syntax. cbn.
  rewrite digits_str_bytes, to_string_digits by done.
  case_bool_decide as E; [by apply to_string_nonempty in E|done].
Qed.

Theorem scalar_decode_write_atom a line col mb :
  atom_ok a = true -> atom_within mb a = true ->
  scalar_decode (write_atom a) line col mb = Ok a.
Proof.
  destruct a as [|id|s]; cbn [atom_ok atom_within write_atom]; intros Hok Hmb; [done| |].
  - unfold u64_ok in Hok. zbool. unfold scalar_decode. cbn [app].
    rewrite to_string_reference by done. cbn [tail].
    pose proof (to_string_canonical id ltac:(done)) as Hcan.
    rewrite digits_str_len by (by apply canonical_digits). unfold canonical_decimal in Hcan.
    zbool. match goal with H : _ && _ = false |- _ => rewrite H end.
    rewrite parse_to_string by lia. done.
  - zbool. destruct (is_bare_text s) eqn:Hb.
    + unfold is_bare_text in Hb. zbool.
      match goal with H : forallb _ _ = true, H' : bool_decide _ = false |- _ =>
        rename H into Hbare; rename H' into Hne end.
      unfold scalar_decode, bare. rewrite Hne, enforce_bytes_ok, Hbare by done.
      match goal with H : is_reference_syntax s = false |- _ => rewrite H end.
      rewrite forallb_str_bytes in Hbare by apply bare_byte_ascii.
      case_bool_decide; [by subst|]. case_bool_decide; [by subst|].
      destruct s as [|c s]; [done|]. cbn in *. zbool.
      destruct (Z.eqb_spec c 34) as [->|]; done.
    + unfold scalar_decode. do 2 (case_bool_decide; [done|]).
      change (is_reference_syntax (write_quoted s)) with false.
      change (starts_with 34 (write_quoted s)) with true.
      by rewrite quoted_write_quoted.
Qed.

(** ** What the decoder accepts

    The canonical form of an accepted scalar is never longer than its source. *)

Lemma escape_digits_inv line col chars acc n ds used :
  escape_digits line col chars acc n = Ok (ds, used) ->
  exists new rest, chars = new ++ 125 :: rest /\ ds = acc ++ new
    /\ used = S (n + length new) /\ forallb is_ascii_hexdigit new = true.
Proof.
  revert acc n. induction chars as [|c chars IH]; intros acc n H; cbn in H; [done|].
  destruct (Z.eqb_spec c 125) as [->|].
  - injection H as <- <-. exists [], chars. rewrite app_nil_r, Nat.add_0_r. done.
  - destruct (negb _ || _) eqn:E; [done|]. zbool.
    apply IH in H as (new & rest & -> & -> & -> & Hn).
    exists (c :: new), rest. rewrite <- app_assoc. cbn. split_and!; [done..|lia|].
    apply andb_true_iff. auto.
Qed.

Lemma hexdigits_str_len s : forallb is_ascii_hexdigit s = true -> str_len s = len s.
Proof.
  intros H. apply str_len_ascii. eapply forallb_weaken; [|done].
  intros x. unfold_classes. lia.
Qed.

Lemma write_escaped_len c digits :
  from_hex digits = Some c -> valid_char c = true ->
  str_len (write_escaped c) <= 4 + len digits.
Proof.
  intros Hd Hv. destruct digits as [|d0 digits]; [done|].
  unfold write_escaped. rewrite len_cons. pose proof (len_nonneg digits).
  repeat match goal with |- context [if c =? ?k then _ else _] =>
    destruct (c =? k); [rewrite !str_len_cons, str_len_nil, !len_utf8_ascii by lia; lia|] end.
  destruct (is_control c) eqn:Hc.
  - pose proof (hex_lower_control c Hc) as (Hh & _ & Hl & _ & _).
    rewrite !str_len_app, (hexdigits_str_len _ Hh). cbn.
    rewrite !str_len_cons, str_len_nil, !len_utf8_ascii by lia.
    destruct digits as [|d1 digits]; [|rewrite len_cons in *; pose proof (len_nonneg digits); cbn; lia].
    assert (len (hex_lower c) <= 1); [|cbn; lia].
    unfold from_hex in Hd. cbn in Hd. destruct (hex_value d0) as [v|] eqn:Hv0; [|done].
    cbn in Hd. case_match; [|done]. injection Hd as <-.
    unfold hex_value in Hv0. unfold_classes.
    assert (0 <= v < 16) as Hr by (repeat case_match; simplify_eq; lia). clear -Hr.
    assert (forallb (fun v => len (hex_lower v) <=? 1) (Z.of_nat <$> seq 0 16) = true) as HF
      by (vm_compute; done).
    rewrite forallb_forall in HF. apply Z.leb_le. change (0 + v) with v. apply HF.
    apply list_elem_of_In, list_elem_of_fmap. exists (Z.to_nat v).
    split; [lia|apply elem_of_seq; lia].
  - rewrite str_len_cons, str_len_nil. pose proof (len_utf8_bounds c). lia.
Qed.

Lemma escape_char_inv e chars line col cc off c used :
  valid_char e = true -> escape_char e chars line col cc off = Ok (c, used) ->
  valid_char c = true /\ (used <= length chars)%nat
  /\ str_len (write_escaped c) <= 2 + str_len (take used chars).
Proof.
  intros He. unfold escape_char.
  repeat match goal with |- context [if e =? ?k then Ok _ else _] =>
    destruct (e =? k); [intros [= <- <-]; cbn; split_and!; [done|lia|done]|] end.
  destruct (e =? 117); [|done].
  unfold parse_unicode_escape. destruct chars as [|c0 chars]; [done|].
  destruct (Z.eqb_spec c0 123) as [->|Hn]; [|repeat (case_match; try done)].
  intros H. inv_ok. destruct x as [digits n]. case_bool_decide; [done|]. inv_ok.
  match goal with H : escape_digits _ _ _ _ _ = _ |- _ =>
    apply escape_digits_inv in H as (new & rest & -> & Hds & Hused & Hhex) end.
  cbn in Hds. subst.
  match goal with H : char_from_u32 ?v = Some ?c |- _ =>
    unfold char_from_u32 in H; destruct (valid_char v) eqn:Hv; [|done]; injection H as -> end.
  split_and!; [done|cbn; rewrite length_app; cbn; lia|].
  pose proof (write_escaped_len c new ltac:(done) Hv) as Hlen.
  replace (123 :: new ++ 125 :: rest) with ((123 :: new ++ [125]) ++ rest)
    by (cbn; by rewrite <- app_assoc).
  destruct (take_drop_app (123 :: new ++ [125]) rest (S (1 + length new))) as [-> _];
    [cbn; rewrite length_app; cbn; lia|].
  rewrite str_len_cons, str_len_app, str_len_cons, str_len_nil, (hexdigits_str_len new) by done.
  rewrite !len_utf8_ascii by lia. lia.
Qed.

Lemma valid_str_drop n s : valid_str s = true -> valid_str (drop n s) = true.
Proof.
  rewrite <- (take_drop n s) at 1. rewrite valid_str_app.
  by intros [_ ?]%andb_true_iff.
Qed.

Lemma enforce_bytes_inv actual max line u :
  enforce_bytes actual max line = Ok u -> actual <= max.
Proof. unfold enforce_bytes. destruct (Z.ltb_spec max actual); [done|lia]. Qed.

(** What [quoted] returns: the pushed text, valid, within the ceiling (checked
    after every push) and no longer than its source once escaped. *)
Lemma quoted_loop_inv sl line col mb chars off n out s :
  valid_str chars = true ->
  quoted_loop sl line col mb chars off n out = Ok s ->
  exists t, s = out ++ t /\ valid_str t = true /\ (t = [] \/ str_len s <= mb)
    /\ str_len (t ≫= write_escaped) + 1 <= str_len (drop n chars).
Proof.
  revert off n out. induction chars as [|c chars IH]; intros off n out Hv H; [done|].
  cbn in Hv. apply andb_true_iff in Hv as [Hc Hv]. cbn in H.
  destruct n as [|n]; [|by eapply IH in H].
  assert (forall c' used off',
    (_ ← enforce_bytes (str_len (out ++ [c'])) mb line;
     quoted_loop sl line col mb chars off' used (out ++ [c'])) = Ok s ->
    valid_char c' = true ->
    str_len (write_escaped c') + str_len (drop used chars) <= str_len (c :: chars) ->
    exists t, s = out ++ t /\ valid_str t = true /\ (t = [] \/ str_len s <= mb)
      /\ str_len (t ≫= write_escaped) + 1 <= str_len (c :: chars)) as Hpush.
  { intros c' used off' H' Hc' Hlen. inv_ok.
    match goal with H : enforce_bytes _ _ _ = _ |- _ => apply enforce_bytes_inv in H as He end.
    apply IH in H' as (t & -> & Ht & Hmb & Hl); [|done].
    exists (c' :: t). rewrite <- app_assoc. split_and!; [done|cbn; by rewrite Hc'| |].
    - right. destruct Hmb as [->|Hmb]; [by rewrite app_nil_r in *|].
      by rewrite <- app_assoc in Hmb.
    - cbn [mbind list_bind]. fold (mbind (M:=list) write_escaped t).
      rewrite str_len_app. lia. }
  destruct (Z.eqb_spec c 34) as [->|H34].
  { case_match; [done|]. injection H as <-. exists []. rewrite app_nil_r.
    split_and!; [done..|by left|]. cbn. rewrite str_len_cons.
    pose proof (str_len_nonneg chars). pose proof (len_utf8_bounds 34).
    rewrite str_len_nil. lia. }
  destruct (Z.eqb_spec c 92) as [->|H92].
  - destruct chars as [|e rest]; [done|].
    apply bind_ok in H as ([c' used] & He & H).
    assert (valid_char e = true) as Hve by (cbn in Hv; by apply andb_true_iff in Hv as [? _]).
    apply escape_char_inv in He as (Hc' & Hu & Hl); [|done].
    eapply Hpush; [exact H|done|]. rewrite str_len_cons. cbn [drop].
    pose proof (str_len_app (take used rest) (drop used rest)) as Hs.
    rewrite take_drop in Hs. rewrite str_len_cons.
    pose proof (len_utf8_bounds 92). pose proof (len_utf8_bounds e). lia.
  - destruct (is_control c) eqn:Hctl; [done|]. eapply Hpush; [exact H|done|].
    rewrite drop_0, str_len_cons. unfold write_escaped. rewrite Hctl.
    apply Z.eqb_neq in H34, H92. rewrite H34, H92.
    unfold_classes.
    destruct (Z.eqb_spec c 10); [lia|]. destruct (Z.eqb_spec c 13); [lia|].
    destruct (Z.eqb_spec c 9); [lia|]. rewrite str_len_cons, str_len_nil. lia.
Qed.

Lemma write_escaped_pos c : 1 <= str_len (write_escaped c).
Proof.
  unfold write_escaped.
  repeat match goal with |- context [if ?b then _ else _] => destruct b end;
    cbn [app]; rewrite ?str_len_cons;
    repeat match goal with |- context [len_utf8 ?c] =>
      pose proof (len_utf8_bounds c); generalize dependent (len_utf8 c); intros end;
    match goal with |- context [str_len ?s] => pose proof (str_len_nonneg s); lia end.
Qed.

Lemma write_text_len s : str_len (write_atom (AText s)) <= str_len (s ≫= write_escaped) + 2.
Proof.
  cbn [write_atom]. destruct (is_bare_text s) eqn:Hb.
  - unfold is_bare_text in Hb. zbool.
    match goal with H : forallb is_bare_byte _ = true |- _ => rename H into Hs end.
    rewrite forallb_str_bytes in Hs by apply bare_byte_ascii.
    assert (str_len s <= str_len (s ≫= write_escaped)); [|lia].
    clear -Hs. induction s as [|c s IH]; [done|].
    cbn in Hs. apply andb_true_iff in Hs as [Hc Hs].
    cbn [mbind list_bind]. fold (mbind (M:=list) write_escaped s).
    rewrite str_len_cons, str_len_app, len_utf8_ascii by (by apply bare_byte_ascii).
    pose proof (write_escaped_pos c). specialize (IH Hs). lia.
  - unfold write_quoted. rewrite str_len_cons, str_len_app, str_len_cons, str_len_nil.
    rewrite !len_utf8_ascii by lia. lia.
Qed.

(** What a successful [scalar_decode] says of its result. *)
Theorem scalar_decode_inv source line col mb a :
  valid_str source = true -> 0 <= mb -> scalar_decode source line col mb = Ok a ->
  atom_ok a = true /\ atom_within mb a = true /\ str_len (write_atom a) <= str_len source.
Proof.
  intros Hv Hmb. unfold scalar_decode.
  case_bool_decide; [done|]. case_bool_decide; [intros [= <-]; by subst|].
  destruct (is_reference_syntax source) eqn:Href.
  - intros H'. inv_ok. subst. destruct source as [|c digits]; [done|]. cbn [tail] in *.
    unfold is_reference_syntax in Href. cbn in Href.
    destruct (Z.eqb_spec c 64) as [->|]; [|done]. zbool.
    match goal with H : parse_unsigned _ _ = Some ?n |- _ =>
      pose proof (parse_unsigned_range _ _ _ H); rename H into Hp end.
    match goal with H : forallb _ _ = true |- _ =>
      rewrite digits_str_bytes in H; rename H into Hd end.
    match goal with H : _ && starts_with _ _ = false |- _ =>
      rewrite (digits_str_len digits Hd) in H; rename H into Hz end.
    split_and!; [cbn; unfold u64_ok; lia|done|].
    cbn [write_atom app]. erewrite to_string_parse; [reflexivity| |exact Hp].
    unfold canonical_decimal. rewrite Hd, Hz.
    match goal with H : bool_decide (digits = []) = false |- _ => by rewrite H end.
  - destruct (starts_with 34 source) eqn:Hq.
    + intros H'. inv_ok. subst. destruct source as [|c chars]; [done|].
      cbn in Hq. apply Z.eqb_eq in Hq as ->. cbn in Hv.
      match goal with H : quoted _ _ _ _ = _ |- _ =>
        unfold quoted in H; cbn [tail] in H;
        apply quoted_loop_inv in H as (t & -> & Ht & Hl & Hlen); [|done] end.
      cbn [app] in *. rewrite drop_0 in Hlen. split_and!; [done| |].
      * cbn. apply Z.leb_le. destruct Hl as [->|]; [by rewrite str_len_nil|done].
      * rewrite str_len_cons, len_utf8_ascii by lia. pose proof (write_text_len t). lia.
    + unfold bare. intros H'. inv_ok. subst.
      match goal with H : enforce_bytes _ _ _ = _ |- _ => apply enforce_bytes_inv in H end.
      match goal with H : negb _ = false |- _ => apply negb_false_iff in H; rename H into Hb end.
      split_and!; [done|cbn; lia|]. cbn [write_atom]. unfold is_bare_text.
      rewrite Href, Hb. by rewrite bool_decide_eq_false_2.
Qed.

(** ** Items, vectors, cells and rows

    [split_items] undoes the comma-separated output of the encoder, so vectors,
    cells and rows survive encoding and decoding; conversely what is accepted is
    well formed and no longer once encoded. *)

(** ** Values of cells *)

Definition cell_values (c : Cell) : Z :=
  match c with CAtom _ => 1 | CVector l => len l end.
Lemma cell_values_nonneg c : 0 <= cell_values c.
Proof. destruct c; cbn; [lia|apply len_nonneg]. Qed.

(** ** The parser monad *)

Section parser_monad.
Context {A B : Type} (f : A -> parser B) (count : B -> Z) (max : Z).

Lemma parser_mapM_ok l k v :
  (forall y, 0 <= count y) ->
  Forall2 (fun x y => forall v, v + count y <= max -> f x v = Ok (y, v + count y)) l k ->
  v + zsum count k <= max -> mapM f l v = Ok (k, v + zsum count k).
Proof.
  intros Hc H. revert v. induction H as [|x y l k Hxy _ IH]; intros v Hv.
  - cbn. unfold mret, parser_ret. by rewrite zsum_nil, Z.add_0_r.
  - rewrite zsum_cons in *. pose proof (zsum_nonneg count k Hc).
    cbn. unfold mbind, parser_bind, mret, parser_ret. rewrite Hxy by lia. cbn.
    fold (mapM (M:=parser) f l). unfold mbind, parser_bind, mret, parser_ret in IH.
    cbn in IH. rewrite IH by lia. cbn. by rewrite Z.add_assoc.
Qed.

Lemma parser_mapM_inv (R : A -> B -> Prop) l k v v' :
  (forall x y v v', x ∈ l -> f x v = Ok (y, v') ->
    R x y /\ v' = v + count y /\ (v <= max -> v' <= max)) ->
  mapM f l v = Ok (k, v') ->
  Forall2 R l k /\ v' = v + zsum count k /\ (v <= max -> v' <= max).
Proof.
  revert k v v'. induction l as [|x l IH]; intros k v v' Hf H.
  - cbn in H. injection H as <- <-. split_and!; [constructor|rewrite zsum_nil; lia|done].
  - cbn in H. unfold mbind at 1, parser_bind in H. inv_ok.
    match goal with H : f x v = Ok ?p |- _ => destruct p as [y v1]; apply Hf in H as (? & -> & ?); [|left] end.
    unfold mbind at 1, parser_bind in H. inv_ok.
    match goal with H : mapM f l _ = Ok ?p |- _ =>
      destruct p as [k1 v2]; apply IH in H as (? & -> & ?); [|intros; apply Hf; [by right|done]] end.
    injection H as <- <-. rewrite zsum_cons.
    split_and!; [by constructor|lia|auto].
Qed.
End parser_monad.

(** ** Scanning over one item *)

Definition unquoted (depth : Z) : scan_state := mkScan false false depth.
Definition inquotes (depth : Z) : scan_state := mkScan true false depth.

(** Reading [w] in state [st] reaches [st'] without ending an item. *)
Definition passes (allow : bool) (st : scan_state) (w : str) (st' : scan_state) : Prop :=
  forall line limit rest off start cur items,
    split_loop allow line limit (w ++ rest) off start cur st items =
    split_loop allow line limit rest (off + str_len w) start (cur ++ w) st' items.

Lemma passes_nil allow st : passes allow st [] st.
Proof. intros line limit rest off start cur items. by rewrite str_len_nil, Z.add_0_r, app_nil_r. Qed.

Lemma passes_app allow st st1 st2 w w' :
  passes allow st w st1 -> passes allow st1 w' st2 -> passes allow st (w ++ w') st2.
Proof.
  intros H1 H2 line limit rest off start cur items.
  by rewrite <- !app_assoc, H1, H2, str_len_app, <- app_assoc, Z.add_assoc.
Qed.

Lemma passes_char allow st st' c :
  (forall line limit rest off start cur items,
    split_loop allow line limit (c :: rest) off start cur st items =
    split_loop allow line limit rest (off + len_utf8 c) start (cur ++ [c]) st' items) ->
  passes allow st [c] st'.
Proof.
  intros H line limit rest off start cur items.
  cbn [app]. by rewrite H, str_len_cons, str_len_nil, Z.add_0_r.
Qed.

Definition plain_char (c : Z) : bool :=
  negb (c =? 34) && negb (c =? 91) && negb (c =? 93) && negb (c =? 44).

Lemma passes_plain allow d w :
  forallb plain_char w = true -> passes allow (unquoted d) w (unquoted d).
Proof.
  induction w as [|c w IH]; cbn; [intros _; apply passes_nil|].
  intros [Hc Hw]%andb_true_iff. apply (passes_app _ _ (unquoted d) _ [c]); [|auto].
  apply passes_char. intros. unfold plain_char in Hc. zbool. cbn.
  repeat match goal with H : c <> ?k |- _ => apply Z.eqb_neq in H; rewrite H; clear H end.
  done.
Qed.

Lemma passes_open allow d : passes allow (unquoted d) [34] (inquotes d).
Proof. by apply passes_char. Qed.
Lemma passes_close allow d : passes allow (inquotes d) [34] (unquoted d).
Proof. by apply passes_char. Qed.

Lemma passes_inquotes allow d c :
  c <> 34 -> c <> 92 -> passes allow (inquotes d) [c] (inquotes d).
Proof.
  intros H34%Z.eqb_neq H92%Z.eqb_neq. apply passes_char. intros. cbn. by rewrite H92, H34.
Qed.

Lemma passes_inquotes_all allow d w :
  Forall (fun c => c <> 34 /\ c <> 92) w -> passes allow (inquotes d) w (inquotes d).
Proof.
  induction 1 as [|c w [H34 H92] _ IH]; [apply passes_nil|].
  apply (passes_app _ _ (inquotes d) _ [c]); [by apply passes_inquotes|done].
Qed.

Lemma passes_backslash allow d c : passes allow (inquotes d) [92; c] (inquotes d).
Proof.
  apply (passes_app _ _ (mkScan true true d) _ [92]); by apply passes_char.
Qed.

Lemma passes_escaped allow d c : passes allow (inquotes d) (write_escaped c) (inquotes d).
Proof.
  unfold write_escaped.
  repeat match goal with |- context [if c =? ?k then _ else _] =>
    destruct (Z.eqb_spec c k); [apply passes_backslash|] end.
  destruct (is_control c) eqn:Hc; [|by apply passes_inquotes].
  apply (passes_app _ _ (inquotes d) _ [92; 117] (123 :: hex_lower c ++ [125]));
    [apply passes_backslash|]. apply passes_inquotes_all.
  constructor; [done|]. apply Forall_app. split; [|by constructor].
  apply hex_lower_control in Hc as (Hh & _). apply Forall_forall. intros x Hx.
  rewrite forallb_forall in Hh. specialize (Hh x Hx). unfold_classes. lia.
Qed.

Lemma passes_quoted allow d s : passes allow (unquoted d) (write_quoted s) (unquoted d).
Proof.
  unfold write_quoted. apply (passes_app _ _ (inquotes d) _ [34]); [apply passes_open|].
  apply (passes_app _ _ (inquotes d)); [|apply passes_close].
  induction s as [|c s IH]; [apply passes_nil|].
  apply (passes_app _ _ (inquotes d)); [apply passes_escaped|exact IH].
Qed.

Lemma bare_plain s : forallb is_bare_byte s = true -> forallb plain_char s = true.
Proof. apply forallb_weaken. intros c. unfold plain_char. unfold_classes. lia. Qed.

Lemma passes_atom allow d a : atom_ok a = true -> passes allow (unquoted d) (write_atom a) (unquoted d).
Proof.
  destruct a as [|id|s]; cbn [write_atom atom_ok]; intros Hok.
  - by apply passes_plain.
  - apply passes_plain, bare_plain. cbn. unfold u64_ok in Hok. zbool.
    eapply forallb_weaken; [|by apply to_string_digits]. intros c. unfold_classes. lia.
  - destruct (is_bare_text s) eqn:Hb; [|apply passes_quoted].
    unfold is_bare_text in Hb. zbool. apply passes_plain, bare_plain.
    erewrite <- forallb_str_bytes; [done|apply bare_byte_ascii].
Qed.

Lemma passes_comma allow : passes allow (unquoted 1) [44] (unquoted 1).
Proof. by apply passes_char. Qed.

Lemma passes_join allow ws :
  Forall (fun w => passes allow (unquoted 1) w (unquoted 1)) ws ->
  passes allow (unquoted 1) (join 44 ws) (unquoted 1).
Proof.
  induction 1 as [|w ws Hw _ IH]; [apply passes_nil|].
  destruct ws as [|w' ws]; [done|]. rewrite join_cons by done.
  apply (passes_app _ _ (unquoted 1)); [done|].
  by apply (passes_app _ _ (unquoted 1) _ [44]); [apply passes_comma|].
Qed.

Lemma passes_vector l :
  forallb atom_ok l = true -> passes true (unquoted 0) (write_vector l) (unquoted 0).
Proof.
  intros Hok. unfold write_vector.
  apply (passes_app _ _ (unquoted 1) _ [91]); [by apply passes_char|].
  apply (passes_app _ _ (unquoted 1)); [|by apply passes_char].
  apply passes_join, Forall_fmap, Forall_forall. intros a Ha. apply passes_atom.
  rewrite forallb_forall in Hok. by apply Hok.
Qed.

Lemma passes_cell c : cell_ok c = true -> passes true (unquoted 0) (write_cell c) (unquoted 0).
Proof. destruct c; cbn; [apply passes_atom|apply passes_vector]. Qed.

(** ** split_items *)

Definition limit_bound (limit : ItemLimit) : Z :=
  match limit with LimitRow n => n | LimitVector n => n end.

Lemma push_item_ok items item limit line :
  len items + 1 <= limit_bound limit -> push_item items item limit line = Ok (items ++ [item]).
Proof.
  intros H. destruct limit as [n|n]; cbn in *; destruct (Z.ltb_spec n (len items + 1)); done || lia.
Qed.

Lemma push_item_inv items item limit line items' :
  push_item items item limit line = Ok items' ->
  items' = items ++ [item] /\ len items + 1 <= limit_bound limit.
Proof.
  destruct limit as [n|n]; cbn; destruct (Z.ltb_spec n (len items + 1)); try done;
    intros [= <-]; split; (done || lia).
Qed.

Lemma split_loop_join allow line limit ws off start items :
  ws <> [] -> Forall (fun w => passes allow (unquoted 0) w (unquoted 0)) ws ->
  len items + len ws <= limit_bound limit ->
  exists raw, split_loop allow line limit (join 44 ws) off start [] (unquoted 0) items
    = Ok (items ++ raw) /\ raw.*2 = ws.
Proof.
  intros Hne H. revert off start items Hne.
  induction H as [|w ws Hw Hws IH]; intros off start items Hne Hlen; [done|].
  rewrite len_cons in Hlen. pose proof (len_nonneg ws). destruct ws as [|w' ws].
  - cbn [join]. specialize (Hw line limit [] off start [] items).
    rewrite app_nil_r in Hw. rewrite Hw. cbn.
    rewrite push_item_ok by lia. by exists [(start + 1, w)].
  - rewrite join_cons, Hw by done. cbn -[join]. rewrite push_item_ok by lia. cbn -[join].
    destruct (IH (off + str_len w + len_utf8 44) (off + str_len w + 1)
      (items ++ [(start + 1, w)])) as (raw & -> & Hraw); [done|rewrite len_app, len_cons, len_nil; lia|].
    exists ((start + 1, w) :: raw). rewrite <- app_assoc. cbn. by rewrite Hraw.
Qed.

Lemma split_items_join allow line limit ws :
  ws <> [] -> Forall (fun w => passes allow (unquoted 0) w (unquoted 0)) ws ->
  len ws <= limit_bound limit ->
  exists raw, split_items (join 44 ws) allow line limit = Ok raw /\ raw.*2 = ws.
Proof. intros. by apply (split_loop_join allow line limit ws 0 0 []). Qed.

(** Conversely the pieces are those of the source, and within the ceiling. *)
Lemma split_loop_inv allow line limit chars off start cur st items raw :
  split_loop allow line limit chars off start cur st items = Ok raw ->
  exists raw', raw = items ++ raw' /\ raw' <> [] /\ join 44 raw'.*2 = cur ++ chars
    /\ len raw <= limit_bound limit.
Proof.
  revert off start cur st items. induction chars as [|c chars IH]; intros off start cur st items H.
  - cbn in H. repeat (case_match; [done|]).
    apply push_item_inv in H as [-> Hl]. exists [(start + 1, cur)].
    rewrite len_app, app_nil_r, len_cons, len_nil. split_and!; [done..|lia].
  - assert (forall st', split_loop allow line limit chars (off + len_utf8 c) start (cur ++ [c]) st' items
      = Ok raw -> exists raw', raw = items ++ raw' /\ raw' <> []
        /\ join 44 raw'.*2 = cur ++ c :: chars /\ len raw <= limit_bound limit) as Hgo.
    { intros st' H'. apply IH in H' as (raw' & -> & Hne & Hj & Hl).
      rewrite <- app_assoc in Hj. by exists raw'. }
    cbn in H. destruct (sc_quoted st); [by eapply Hgo|].
    destruct (c =? 34); [by eapply Hgo|].
    destruct (c =? 91); [destruct (allow && _); [by eapply Hgo|done]|].
    destruct (c =? 93); [destruct (allow && _); [by eapply Hgo|done]|].
    destruct (Z.eqb_spec c 44) as [->|]; cbn in H; [|by eapply Hgo].
    destruct (sc_depth st =? 0); [|by eapply Hgo].
    inv_ok. match goal with H : push_item _ _ _ _ = _ |- _ => apply push_item_inv in H as [-> _] end.
    apply IH in H as (raw' & -> & Hne & Hj & Hl). exists ((start + 1, cur) :: raw').
    rewrite <- app_assoc. cbn [fmap list_fmap].
    rewrite join_cons by (by destruct raw'). cbn in Hj. rewrite <- app_assoc in Hl.
    cbn. split_and!; [done..| |done]. f_equal. f_equal. exact Hj.
Qed.

Lemma split_items_inv source allow line limit raw :
  split_items source allow line limit = Ok raw ->
  raw <> [] /\ join 44 raw.*2 = source /\ len raw <= limit_bound limit.
Proof. by intros (raw' & -> & ? & ? & ?)%split_loop_inv. Qed.

Lemma join_valid c ws :
  valid_str (join c ws) = true -> Forall (fun w => valid_str w = true) ws.
Proof.
  induction ws as [|w ws IH]; intros H; [constructor|].
  destruct ws as [|w' ws]; [by repeat constructor|].
  rewrite join_cons, valid_str_app in H by done. apply andb_true_iff in H as [Hw H].
  constructor; [done|]. apply IH. cbn in H. by apply andb_true_iff in H as [_ ?].
Qed.

Lemma join_len_mono c ws ws' :
  Forall2 (fun w w' => str_len w <= str_len w') ws ws' -> str_len (join c ws) <= str_len (join c ws').
Proof.
  induction 1 as [|w w' ws ws' Hw H IH]; [done|].
  destruct H as [|v v' ws ws' Hv H]; [done|].
  rewrite (join_cons c w), (join_cons c w'), !str_len_app, !str_len_cons by done. lia.
Qed.

(** ** Atoms, vectors, cells and rows *)

Section Items.
Variable limits : Limits.

Definition vector_within (l : list Atom) : bool :=
  ((len l =? 0) || (len l <=? max_vector_items limits))
  && forallb (atom_within (max_scalar_bytes limits)) l.
Definition cell_within (c : Cell) : bool :=
  match c with CAtom a => atom_within (max_scalar_bytes limits) a | CVector l => vector_within l end.

Lemma enforce_ok actual max kind line :
  actual <= max -> enforce actual max kind line = Ok tt.
Proof. intros ?%Z.ltb_ge. unfold enforce. by case_match. Qed.
Lemma enforce_inv actual max kind line u :
  enforce actual max kind line = Ok u -> actual <= max.
Proof. unfold enforce. destruct (Z.ltb_spec max actual); [done|lia]. Qed.

Lemma parse_atom_ok a line col v :
  atom_ok a = true -> atom_within (max_scalar_bytes limits) a = true ->
  v + 1 <= max_values limits ->
  parse_atom limits (write_atom a) line col v = Ok (a, v + 1).
Proof.
  intros Hok Hw Hv. unfold parse_atom, mbind, parser_bind, bump_value.
  rewrite enforce_ok by done. cbn. unfold lift.
  by rewrite scalar_decode_write_atom.
Qed.

Lemma parse_atom_inv source line col v a v' :
  valid_str source = true -> 0 <= max_scalar_bytes limits ->
  parse_atom limits source line col v = Ok (a, v') ->
  (atom_ok a = true /\ atom_within (max_scalar_bytes limits) a = true
   /\ str_len (write_atom a) <= str_len source)
  /\ v' = v + 1 /\ (v <= max_values limits -> v' <= max_values limits).
Proof.
  intros Hs Hm H. unfold parse_atom, mbind, parser_bind, bump_value, lift in H. inv_ok.
  match goal with H : enforce _ _ _ _ = _ |- _ => apply enforce_inv in H end.
  repeat match goal with H : Ok _ = Ok _ |- _ => injection H as H; subst end.
  destruct x as [u v1]. inv_ok. subst. simplify_eq/=.
  match goal with H : scalar_decode _ _ _ _ = _ |- _ => apply scalar_decode_inv in H; [|done..] end.
  split_and!; naive_solver lia.
Qed.

(** The pieces of a split, parsed one by one. *)
Lemma raw_Forall2 {B} (g : B -> str) (P : Z * str -> B -> Prop) raw l :
  raw.*2 = g <$> l -> (forall off y, y ∈ l -> P (off, g y) y) -> Forall2 P raw l.
Proof.
  revert l. induction raw as [|[off w] raw IH]; intros [|y l] E HP; try done.
  cbn in E. injection E as -> E. constructor; [apply HP; left|].
  apply IH; [done|]. intros. apply HP. by right.
Qed.

Lemma write_atom_nonempty a : write_atom a <> [].
Proof.
  destruct a as [|id|s]; [done..|]. cbn. destruct (is_bare_text s) eqn:H; [|done].
  intros ->. done.
Qed.

Lemma join_nonempty c w ws : w <> [] -> join c (w :: ws) <> [].
Proof. intros Hw. destruct ws; [done|]. rewrite join_cons by done. by destruct w. Qed.

Lemma write_vector_shape l :
  starts_with 91 (write_vector l) = true /\ ends_with 93 (write_vector l) = true
  /\ drop_last (tail (write_vector l)) = join 44 (write_atom <$> l).
Proof.
  unfold write_vector. split_and!; [done| |].
  - rewrite app_comm_cons, ends_with_snoc. done.
  - cbn [tail]. apply drop_last_snoc.
Qed.

Lemma parse_vector_ok l line col v :
  forallb atom_ok l = true -> vector_within l = true ->
  v + len l <= max_values limits ->
  parse_vector limits (write_vector l) line col v = Ok (l, v + len l).
Proof.
  intros Hok Hw Hv. destruct (write_vector_shape l) as (Hs & He & Hd).
  unfold parse_vector. rewrite Hs, He, Hd. cbn [negb orb].
  unfold vector_within in Hw. apply andb_true_iff in Hw as [Hl Hw].
  destruct l as [|a l]; [by rewrite len_nil, Z.add_0_r|].
  rewrite bool_decide_eq_false_2 by (apply join_nonempty, write_atom_nonempty).
  rewrite forallb_forall in Hok, Hw.
  destruct (split_items_join false line (LimitVector (max_vector_items limits))
    (write_atom <$> a :: l)) as (raw & Hraw & Hws); [done| |cbn [limit_bound]; rewrite len_fmap, len_cons in *; pose proof (len_nonneg l); lia|].
  { apply Forall_fmap, Forall_forall. intros x Hx. by apply passes_atom, Hok. }
  unfold mbind, parser_bind, lift. rewrite Hraw. cbn -[mapM].
  rewrite <- (zsum_const (a :: l)). apply (parser_mapM_ok _ (fun _ => 1) (max_values limits));
    [lia| |by rewrite zsum_const].
  eapply raw_Forall2; [exact Hws|]. intros off y Hy%list_elem_of_In v' Hv'.
  by apply parse_atom_ok; [apply Hok|apply Hw|].
Qed.

Lemma parse_cell_ok c line col v :
  cell_ok c = true -> cell_within c = true ->
  v + cell_values c <= max_values limits ->
  parse_cell limits (write_cell c) line col v = Ok (c, v + cell_values c).
Proof.
  intros Hok Hw Hv. unfold parse_cell. destruct c as [a|l]; cbn [write_cell].
  - assert (starts_with 91 (write_atom a) = false) as ->.
    { destruct a as [|id|s]; [done..|]. cbn. destruct (is_bare_text s) eqn:Hb; [|done].
      unfold is_bare_text in Hb. zbool. destruct s as [|c s]; [done|].
      match goal with H : forallb is_bare_byte _ = true |- _ =>
        rewrite forallb_str_bytes in H by apply bare_byte_ascii; cbn in H end.
      zbool. cbn. destruct (Z.eqb_spec c 91) as [->|]; done. }
    unfold mbind, parser_bind. by rewrite parse_atom_ok.
  - destruct (write_vector_shape l) as (-> & _). unfold mbind, parser_bind.
    by rewrite parse_vector_ok.
Qed.

Lemma parse_row_ok row line v :
  row <> [] -> forallb cell_ok row = true -> forallb cell_within row = true ->
  v + zsum cell_values row <= max_values limits ->
  parse_row limits (join 44 (write_cell <$> row)) (len row) line v
    = Ok (row, v + zsum cell_values row).
Proof.
  intros Hne Hok Hw Hv. rewrite forallb_forall in Hok, Hw.
  destruct (split_items_join true line (LimitRow (len row)) (write_cell <$> row))
    as (raw & Hraw & Hws); [by destruct row| |by cbn [limit_bound]; rewrite len_fmap|].
  { apply Forall_fmap, Forall_forall. intros x Hx. by apply passes_cell, Hok. }
  unfold parse_row, mbind, parser_bind, lift. rewrite Hraw. cbn -[mapM].
  assert (len raw = len row) as ->
    by (rewrite <- (len_fmap snd raw), Hws; apply len_fmap).
  rewrite Z.eqb_refl. cbn [negb].
  apply (parser_mapM_ok _ cell_values (max_values limits)); [apply cell_values_nonneg| |done].
  eapply raw_Forall2; [exact Hws|]. intros off y Hy%list_elem_of_In v' Hv'.
  by apply parse_cell_ok; [apply Hok|apply Hw|].
Qed.

(** *** The converse *)

Lemma vector_inner source :
  starts_with 91 source = true -> ends_with 93 source = true ->
  source = 91 :: drop_last (tail source) ++ [93].
Proof.
  destruct source as [|c source]; [done|]. cbn [starts_with tail].
  intros ->%Z.eqb_eq (t & Ht)%ends_with_inv. destruct t as [|c t]; [done|].
  injection Ht as <- ->. by rewrite drop_last_snoc.
Qed.

Lemma Forall2_raw_inv {B} (R : Z * str -> B -> Prop) (g : B -> str) (P : B -> Prop) raw l :
  Forall2 R raw l ->
  (forall x y, R x y -> P y /\ str_len (g y) <= str_len x.2) ->
  Forall P l /\ Forall2 (fun w w' => str_len w <= str_len w') (g <$> l) raw.*2
  /\ len l = len raw.
Proof.
  intros H HR. induction H as [|x y raw l Hy H IH]; [by split_and!; constructor|].
  destruct (HR _ _ Hy) as [HP Hlen]. destruct IH as (HPs & Hls & Hn).
  cbn. split_and!; [by constructor..|]. rewrite !len_cons. lia.
Qed.

Lemma split_items_valid source allow line limit raw :
  valid_str source = true -> split_items source allow line limit = Ok raw ->
  forall x, x ∈ raw -> valid_str x.2 = true.
Proof.
  intros Hv (_ & <- & _)%split_items_inv x Hx.
  apply join_valid, Forall_forall with (x := x.2) in Hv; [done|].
  apply list_elem_of_In, list_elem_of_fmap. eauto.
Qed.

Hypothesis Hmax : 0 <= max_scalar_bytes limits.

Definition parsed_atom (x : Z * str) (a : Atom) : Prop :=
  (atom_ok a = true /\ atom_within (max_scalar_bytes limits) a = true)
  /\ str_len (write_atom a) <= str_len x.2.

Lemma Forall_and_forallb {A} (P Q : A -> bool) l :
  Forall (fun x => P x = true /\ Q x = true) l ->
  forallb P l = true /\ forallb Q l = true.
Proof. induction 1 as [|x l [HP HQ] _ IH]; [done|]. cbn. rewrite HP, HQ. done. Qed.

Lemma parse_vector_inv source line col v l v' :
  valid_str source = true ->
  parse_vector limits source line col v = Ok (l, v') ->
  ((forallb atom_ok l = true /\ vector_within l = true)
   /\ str_len (write_vector l) <= str_len source)
  /\ v' = v + len l /\ (v <= max_values limits -> v' <= max_values limits).
Proof.
  intros Hv H. unfold parse_vector in H.
  destruct (starts_with 91 source) eqn:Hs; [|done].
  destruct (ends_with 93 source) eqn:He; [|done]. cbn [negb orb] in H.
  pose proof (vector_inner source Hs He) as Hsrc.
  set (inner := drop_last (tail source)) in *.
  assert (valid_str inner = true) as Hvi.
  { rewrite Hsrc in Hv. change (91 :: inner ++ [93]) with ([91] ++ inner ++ [93]) in Hv.
    rewrite !valid_str_app in Hv. by apply andb_true_iff in Hv as [_ [? _]%andb_true_iff]. }
  rewrite Hsrc. unfold vector_within, write_vector.
  rewrite !str_len_cons, !str_len_app.
  case_bool_decide as Hin.
  { injection H as <- <-. rewrite Hin, len_nil. split_and!; done || lia. }
  unfold mbind, parser_bind, lift in H. inv_ok. destruct x as [raw v1]. inv_ok. simplify_eq/=.
  match goal with H : split_items _ _ _ _ = _ |- _ =>
    pose proof (split_items_valid _ _ _ _ _ Hvi H) as Hraw;
    apply split_items_inv in H as (_ & Hj & Hb) end.
  apply (parser_mapM_inv _ (fun _ => 1) (max_values limits) parsed_atom) in H as (HF & -> & Hm).
  2: { intros [off w] a u u' Hx Ha. apply Hraw in Hx.
    apply parse_atom_inv in Ha; [|done..]. unfold parsed_atom. naive_solver. }
  apply (Forall2_raw_inv _ write_atom
    (fun a => atom_ok a = true /\ atom_within (max_scalar_bytes limits) a = true)) in HF
    as (HP & Hlen & Hn); [|done].
  apply Forall_and_forallb in HP as [-> ->]. rewrite zsum_const in *.
  apply (join_len_mono 44) in Hlen. rewrite Hj in Hlen. cbn [limit_bound] in Hb.
  split_and!; [done|rewrite andb_true_r; lia|lia|lia|auto].
Qed.

Lemma parse_cell_inv source line col v c v' :
  valid_str source = true ->
  parse_cell limits source line col v = Ok (c, v') ->
  ((cell_ok c = true /\ cell_within c = true) /\ str_len (write_cell c) <= str_len source)
  /\ v' = v + cell_values c /\ (v <= max_values limits -> v' <= max_values limits).
Proof.
  intros Hv H. unfold parse_cell in H.
  destruct (starts_with 91 source); unfold mbind, parser_bind, mret, parser_ret in H;
    inv_ok; destruct x as [y v1]; simplify_eq/=.
  - match goal with H : parse_vector _ _ _ _ _ = _ |- _ =>
      by apply parse_vector_inv in H end.
  - match goal with H : parse_atom _ _ _ _ _ = _ |- _ =>
      apply parse_atom_inv in H; [|done..]; naive_solver end.
Qed.

Definition parsed_cell (x : Z * str) (c : Cell) : Prop :=
  (cell_ok c = true /\ cell_within c = true) /\ str_len (write_cell c) <= str_len x.2.

Lemma parse_row_inv source width line v row v' :
  valid_str source = true ->
  parse_row limits source width line v = Ok (row, v') ->
  ((forallb cell_ok row = true /\ forallb cell_within row = true)
   /\ len row = width /\ str_len (write_row row) <= str_len source + 1)
  /\ v' = v + zsum cell_values row /\ (v <= max_values limits -> v' <= max_values limits).
Proof.
  intros Hv H. unfold parse_row, mbind, parser_bind, lift in H. inv_ok.
  destruct x as [raw v1]. inv_ok. simplify_eq/=.
  match goal with H : split_items _ _ _ _ = _ |- _ =>
    pose proof (split_items_valid _ _ _ _ _ Hv H) as Hraw;
    apply split_items_inv in H as (_ & Hj & Hb) end.
  destruct (Z.eqb_spec (len raw) width) as [Hw|]; [|done]. cbn -[mapM] in H.
  apply (parser_mapM_inv _ cell_values (max_values limits) parsed_cell) in H as (HF & -> & Hm).
  2: { intros [off w] c u u' Hx Hc. apply Hraw in Hx. by apply parse_cell_inv in Hc. }
  apply (Forall2_raw_inv _ write_cell
    (fun c => cell_ok c = true /\ cell_within c = true)) in HF as (HP & Hlen & Hn); [|done].
  apply Forall_and_forallb in HP as [-> ->].
  apply (join_len_mono 44) in Hlen. rewrite Hj in Hlen.
  unfold write_row. rewrite str_len_app, str_len_cons, str_len_nil, len_utf8_ascii by lia.
  split_and!; [done..|lia|lia|done|auto].
Qed.
End Items.
