(* ===== verification/AsonFacts.v ===== *)
(** * AsonFacts: documents

    The decoder inverts the encoder on every document the model can build that
    is within the limits; every decoded document is one of those; decoding is
    idempotent through the canonical form. *)

From S2P Require Import Prelude Text AsonModel AsonCodec AsonScalarFacts.

(** ** Measures and ceilings of a document *)

Definition value_values (v : Value) : Z :=
  match v with
  | Scalar _ => 1
  | Vector l => len l
  | VRecord r => zsum cell_values (rec_values r)
  | VTable t => zsum (zsum cell_values) (table_rows t)
  end.

(** The lines a field is printed on. *)
Definition field_lines (f : Field) : list str :=
  match field_value f with
  | Scalar a => [field_key f ++ 58 :: write_atom a]
  | Vector l => [field_key f ++ 58 :: write_vector l]
  | VRecord r =>
      [field_key f ++ write_columns (rec_columns r) ++ [58];
       join 44 (write_cell <$> rec_values r)]
  | VTable t =>
      ((field_key f ++ 91 :: to_string (len (table_rows t)) ++ [93])
        ++ write_columns (table_columns t) ++ [58])
      :: ((fun row => join 44 (write_cell <$> row)) <$> table_rows t)
  end.

Definition unlines (ls : list str) : str := ls ≫= fun l => l ++ [10].

Section Limits.
Variable limits : Limits.

Definition columns_within (columns : list Key) : bool :=
  (len columns <=? max_columns limits)
  && forallb (fun k => str_len k <=? max_key_bytes limits) columns.

Definition value_within (v : Value) : bool :=
  match v with
  | Scalar a => atom_within (max_scalar_bytes limits) a
  | Vector l => vector_within limits l
  | VRecord r =>
      (1 <=? max_rows limits) && columns_within (rec_columns r)
      && forallb (cell_within limits) (rec_values r)
  | VTable t =>
      (len (table_rows t) <=? Z.min usize_max (max_rows limits))
      && columns_within (table_columns t)
      && forallb (forallb (cell_within limits)) (table_rows t)
  end.

Definition field_within (f : Field) : bool :=
  (str_len (field_key f) <=? max_key_bytes limits) && value_within (field_value f).

(** The document fits every ceiling of the parser. *)
Definition document_within (d : Document) : bool :=
  (str_len (encode d) <=? max_bytes limits)
  && (len (fields d ≫= field_lines) <=? max_lines limits)
  && (len (fields d) <=? max_fields limits)
  && (zsum (fun f => value_values (field_value f)) (fields d) <=? max_values limits)
  && forallb field_within (fields d).
End Limits.

(** ** Keys *)

Definition key_char (c : Z) : bool :=
  is_ascii_alphanumeric c || (c =? 95) || (c =? 46) || (c =? 45).

Lemma key_ok_chars k : key_ok k = true -> k <> [] /\ forallb key_char k = true.
Proof.
  intros (c & s & -> & Hc & Hs)%key_ok_cases. split; [done|]. cbn.
  apply andb_true_iff. split; [|exact Hs].
  unfold key_char. unfold_classes. lia.
Qed.

Lemma key_contains c k : key_ok k = true -> key_char c = false -> contains c k = false.
Proof. intros [_ Hk]%key_ok_chars Hc. by eapply contains_forallb. Qed.

Lemma ends_with_contains c s : contains c s = false -> ends_with c s = false.
Proof.
  intros Hc. destruct (ends_with c s) eqn:E; [|done].
  apply ends_with_inv in E as [t ->]. rewrite contains_app in Hc.
  cbn in Hc. by rewrite Z.eqb_refl, orb_true_r in Hc.
Qed.

Lemma digits_contains c n : 0 <= n -> is_ascii_digit c = false -> contains c (to_string n) = false.
Proof. intros Hn Hc. eapply contains_forallb; [done|]. by apply to_string_digits. Qed.

(** ** Lines hold neither LF nor CR *)

Definition line_char (c : Z) : bool := negb (c =? 10) && negb (c =? 13).

Lemma forallb_join (P : Z -> bool) c ws :
  P c = true -> Forall (fun w => forallb P w = true) ws -> forallb P (join c ws) = true.
Proof.
  intros Hc. induction 1 as [|w ws Hw Hws IH]; [done|].
  destruct ws as [|w' ws]; [done|]. rewrite join_cons, forallb_app by done.
  apply andb_true_iff. split; [done|]. cbn [forallb]. by rewrite Hc.
Qed.

Lemma write_escaped_line c : forallb line_char (write_escaped c) = true.
Proof.
  unfold write_escaped.
  repeat match goal with |- context [if c =? ?k then _ else _] =>
    destruct (Z.eqb_spec c k); [done|] end.
  destruct (is_control c) eqn:Hc.
  - apply hex_lower_control in Hc as (Hh & _). rewrite !forallb_app. cbn.
    apply andb_true_iff. split; [|done]. eapply forallb_weaken; [|exact Hh].
    intros x. unfold line_char. unfold_classes. lia.
  - cbn. unfold line_char. apply andb_true_iff. lia.
Qed.

Lemma write_atom_line a : atom_ok a = true -> forallb line_char (write_atom a) = true.
Proof.
  destruct a as [|id|s]; cbn [atom_ok write_atom]; intros Hok; [done| |].
  - unfold u64_ok in Hok. zbool. cbn. eapply forallb_weaken; [|by apply to_string_digits].
    intros x. unfold line_char. unfold_classes. lia.
  - destruct (is_bare_text s) eqn:Hb.
    + unfold is_bare_text in Hb. zbool.
      match goal with H : forallb is_bare_byte _ = true |- _ =>
        rewrite forallb_str_bytes in H by apply bare_byte_ascii;
        eapply forallb_weaken; [|exact H] end.
      intros x. unfold line_char. unfold_classes. lia.
    + unfold write_quoted. cbn. rewrite forallb_app. cbn. rewrite andb_true_r.
      clear. induction s as [|c s IH]; [done|]. cbn [mbind list_bind].
      by rewrite forallb_app, write_escaped_line.
Qed.

Lemma write_cell_line c : cell_ok c = true -> forallb line_char (write_cell c) = true.
Proof.
  destruct c as [a|l]; cbn [cell_ok write_cell]; [apply write_atom_line|].
  intros Hl. unfold write_vector. cbn. rewrite forallb_app. cbn. rewrite andb_true_r.
  apply forallb_join; [done|]. apply Forall_fmap, Forall_forall. intros a Ha.
  rewrite forallb_forall in Hl. by apply write_atom_line, Hl.
Qed.

Lemma write_row_line row :
  forallb cell_ok row = true -> forallb line_char (join 44 (write_cell <$> row)) = true.
Proof.
  intros Hok. apply forallb_join; [done|]. apply Forall_fmap, Forall_forall. intros c Hc.
  rewrite forallb_forall in Hok. by apply write_cell_line, Hok.
Qed.

Lemma key_line k : key_ok k = true -> forallb line_char k = true.
Proof.
  intros [_ Hk]%key_ok_chars. eapply forallb_weaken; [|exact Hk].
  intros c. unfold key_char, line_char. unfold_classes. lia.
Qed.

Lemma write_columns_line columns :
  columns_ok columns = true -> forallb line_char (write_columns columns) = true.
Proof.
  unfold columns_ok. intros Hc. zbool. unfold write_columns. cbn.
  rewrite forallb_app. cbn. rewrite andb_true_r. apply forallb_join; [done|].
  apply Forall_forall. intros k Hk. apply key_line.
  match goal with H : forallb key_ok _ = true |- _ => rewrite forallb_forall in H; by apply H end.
Qed.

(** ** The encoder as lines *)

Definition field_ok (f : Field) : bool := key_ok (field_key f) && value_ok (field_value f).

(** Right-nested appends. *)
Ltac list_norm :=
  repeat first [rewrite app_nil_r | rewrite <- app_assoc | rewrite <- app_comm_cons
               | progress cbn [app]].

Lemma write_rows_lines rows :
  rows ≫= write_row = unlines ((fun row => join 44 (write_cell <$> row)) <$> rows).
Proof. induction rows as [|row rows IH]; [done|]. cbn in *. by rewrite IH. Qed.

Lemma write_field_lines f : write_field f = unlines (field_lines f).
Proof.
  unfold write_field, field_lines. destruct (field_value f) as [a|l|r|t].
  - cbn. by list_norm.
  - unfold write_vector. cbn. by list_norm.
  - unfold unlines. cbn. unfold write_row, write_columns. by list_norm.
  - rewrite write_rows_lines. unfold unlines, write_columns. cbn. by list_norm.
Qed.

Lemma unlines_app ls ls' : unlines (ls ++ ls') = unlines ls ++ unlines ls'.
Proof. apply bind_app. Qed.

Lemma encode_lines d : encode d = unlines (fields d ≫= field_lines).
Proof.
  unfold encode. induction (fields d) as [|f fs IH]; [done|].
  cbn. by rewrite unlines_app, write_field_lines, IH.
Qed.

Lemma unlines_join ls : ls <> [] -> unlines ls = join 10 ls ++ [10].
Proof.
  induction ls as [|l ls IH]; [done|]. intros _.
  destruct ls as [|l' ls]; [apply app_nil_r|].
  rewrite join_cons, <- app_assoc by done. cbn [app]. rewrite <- IH by done.
  cbn. by rewrite <- app_assoc.
Qed.

Lemma write_cell_nonempty c : write_cell c <> [].
Proof. destruct c; [apply write_atom_nonempty|done]. Qed.

Definition line_ok (l : str) : Prop := l <> [] /\ forallb line_char l = true.

Lemma row_line_ok (columns : list Key) row :
  columns <> [] -> len row = len columns -> forallb cell_ok row = true ->
  row <> [] /\ line_ok (join 44 (write_cell <$> row)).
Proof.
  intros Hc Hn Hok. destruct row as [|c row].
  - destruct columns; [done|]. rewrite len_nil, len_cons in Hn.
    pose proof (len_nonneg columns). lia.
  - split; [done|]. split; [apply join_nonempty, write_cell_nonempty|by apply write_row_line].
Qed.

Lemma columns_ok_nonempty columns : columns_ok columns = true -> columns <> [].
Proof.
  unfold columns_ok. intros H. zbool.
  by match goal with H : bool_decide (columns = []) = false |- _ =>
    apply bool_decide_eq_false in H end.
Qed.

Lemma field_lines_ok f : field_ok f = true -> Forall line_ok (field_lines f).
Proof.
  unfold field_ok, field_lines. intros [Hk Hv]%andb_true_iff.
  pose proof (key_line _ Hk) as Hkl. apply key_ok_chars in Hk as [Hne _].
  assert (forall s, forallb line_char s = true -> line_ok (field_key f ++ s)) as Hhead.
  { intros s Hs. split; [by destruct (field_key f)|]. by rewrite forallb_app, Hkl. }
  destruct (field_value f) as [a|l|r|t]; cbn [value_ok] in Hv.
  - constructor; [|done]. apply Hhead. by apply (write_atom_line a).
  - constructor; [|done]. apply Hhead. by apply (write_cell_line (CVector l)).
  - zbool. pose proof (columns_ok_nonempty _ ltac:(eassumption)).
    constructor; [apply Hhead; rewrite forallb_app, write_columns_line by done; done|].
    constructor; [|done]. by eapply row_line_ok.
  - zbool. pose proof (columns_ok_nonempty _ ltac:(eassumption)) as Hcne.
    rewrite <- app_assoc. constructor.
    + apply Hhead. rewrite !forallb_app, write_columns_line by done. cbn.
      rewrite forallb_app. cbn. rewrite !andb_true_r.
      eapply forallb_weaken; [|by apply to_string_digits].
      intros x. unfold line_char. unfold_classes. lia.
    + apply Forall_fmap, Forall_forall. intros row Hrow.
      match goal with H : forallb _ (table_rows t) = true |- _ =>
        rewrite forallb_forall in H; specialize (H row Hrow) end.
      zbool. by eapply row_line_ok.
Qed.

(** ** Headers *)

Section Headers.
Variable limits : Limits.

Lemma parse_key_ok k line :
  key_ok k = true -> str_len k <= max_key_bytes limits -> parse_key limits k line = Ok k.
Proof.
  intros Hk Hl. unfold parse_key. rewrite enforce_ok by done. cbn.
  assert (Key_new k = Ok k) as -> by (by apply Key_new_ok). done.
Qed.

Lemma columns_loop_ok line values seen columns :
  Forall (fun k => key_ok k = true /\ str_len k <= max_key_bytes limits) values ->
  NoDup values -> (forall k, k ∈ values -> k ∉ seen) ->
  len columns + len values <= max_columns limits ->
  columns_loop limits line values seen columns = Ok (columns ++ values).
Proof.
  intros HF. revert seen columns. induction HF as [|k values [Hk Hl] _ IH];
    intros seen columns Hnd Hseen Hn; cbn; [by rewrite app_nil_r|].
  rewrite len_cons in Hn. pose proof (len_nonneg values).
  rewrite enforce_ok by lia. cbn. rewrite parse_key_ok by done. cbn.
  apply list.NoDup_cons in Hnd as [Hnk Hnd].
  rewrite bool_decide_eq_false_2 by (apply Hseen; left).
  rewrite IH; [by rewrite <- app_assoc|done| |rewrite len_app, len_cons, len_nil; lia].
  intros k' Hk'. specialize (Hseen k' ltac:(by right)). set_solver.
Qed.

Lemma parse_columns_ok columns line :
  columns_ok columns = true -> columns_within limits columns = true ->
  parse_columns limits (join 44 columns) line = Ok columns.
Proof.
  intros Hok Hw. pose proof (columns_ok_nonempty _ Hok) as Hne.
  unfold columns_ok, columns_within in *. zbool.
  match goal with H : forallb key_ok columns = true |- _ =>
    pose proof H as Hk; rewrite forallb_forall in Hk end.
  match goal with H : forallb (fun k => str_len k <=? _) columns = true |- _ =>
    rewrite forallb_forall in H; rename H into Hl end.
  match goal with H : bool_decide (NoDup columns) = true |- _ =>
    apply bool_decide_eq_true in H end.
  unfold parse_columns. rewrite bool_decide_eq_false_2.
  2: { destruct columns as [|k columns]; [done|]. apply join_nonempty.
    apply key_ok_chars, Hk. by left. }
  rewrite split_join; [|done|].
  2: { apply Forall_forall. intros k Hin. by apply key_contains; [apply Hk|]. }
  apply (columns_loop_ok _ _ ∅ []); [|done|set_solver|rewrite len_nil; lia].
  apply Forall_forall. intros k Hin. split; [by apply Hk|]. apply Z.leb_le. by apply Hl.
Qed.

Lemma parse_row_count_ok n line :
  0 <= n <= usize_max -> parse_row_count (to_string n) line = Ok n.
Proof.
  intros Hn. unfold parse_row_count.
  pose proof (to_string_canonical n ltac:(lia)) as Hc. unfold canonical_decimal in Hc. zbool.
  rewrite digits_str_bytes, digits_str_len by done.
  repeat match goal with H : _ = false |- _ => rewrite H
    | H : forallb _ _ = true |- _ => rewrite H end.
  cbn. by rewrite parse_to_string.
Qed.

Lemma write_columns_split columns :
  write_columns columns = 123 :: join 44 columns ++ [125].
Proof. done. Qed.

Lemma parse_header_ok k columns rows line :
  key_ok k = true -> str_len k <= max_key_bytes limits ->
  columns_ok columns = true -> columns_within limits columns = true ->
  match rows with Some n => 0 <= n <= usize_max | None => True end ->
  parse_header limits
    ((k ++ match rows with Some n => 91 :: to_string n ++ [93] | None => [] end)
     ++ write_columns columns) line
  = Ok (mkHeader k columns rows).
Proof.
  intros Hk Hkl Hc Hcw Hr. unfold parse_header, write_columns.
  set (prefix := k ++ _).
  assert (contains 123 prefix = false) as Hp.
  { unfold prefix. rewrite contains_app, key_contains by done. destruct rows; [|done].
    cbn. rewrite contains_app, digits_contains by (done || lia). done. }
  rewrite (app_comm_cons _ [125]), app_assoc, ends_with_snoc. cbn [Z.eqb negb].
  change (125 =? 125) with true. cbn [negb].
  rewrite <- app_assoc, <- app_comm_cons, split_once_app by done. cbn [ok_or].
  cbn -[parse_columns parse_key ends_with rsplit_once contains drop_last].
  rewrite drop_last_snoc. destruct rows as [n|]; unfold prefix.
  - rewrite app_comm_cons, app_assoc, ends_with_snoc.
    change (93 =? 93) with true. cbn iota. rewrite <- app_assoc, <- app_comm_cons.
    rewrite rsplit_once_app by (by rewrite contains_app, digits_contains by (done || lia)).
    cbn -[parse_columns parse_key drop_last]. rewrite drop_last_snoc, parse_row_count_ok by done.
    cbn -[parse_columns parse_key]. rewrite parse_key_ok, parse_columns_ok by done. done.
  - rewrite app_nil_r, ends_with_contains by (by apply key_contains).
    rewrite !key_contains by done. cbn -[parse_columns parse_key].
    rewrite parse_key_ok by done. cbn -[parse_columns]. by rewrite parse_columns_ok.
Qed.
End Headers.

(** ** Decoding what the encoder printed *)

(** Unfolds the parser monad. *)
Ltac run_parser :=
  cbv beta iota delta [mbind result_bind mret result_ret parser_bind parser_ret lift ok_or].

Definition row_text (row : list Cell) : str := join 44 (write_cell <$> row).

Lemma columns_ok_NoDup columns : columns_ok columns = true -> NoDup columns.
Proof.
  unfold columns_ok. intros H. zbool.
  by match goal with H : bool_decide (NoDup _) = true |- _ => apply bool_decide_eq_true in H end.
Qed.

Lemma Record_new_self r :
  value_ok (VRecord r) = true -> Record_new (rec_columns r) (rec_values r) = Ok r.
Proof.
  cbn [value_ok]. intros H. zbool. apply Record_new_ok. split_and!;
    [by destruct r|by apply columns_ok_nonempty|by apply columns_ok_NoDup|done].
Qed.

Lemma Table_new_self t :
  value_ok (VTable t) = true -> Table_new (table_columns t) (table_rows t) = Ok t.
Proof.
  cbn [value_ok]. intros H. zbool. apply Table_new_ok. split_and!;
    [by destruct t|by apply columns_ok_nonempty|by apply columns_ok_NoDup|].
  match goal with H : forallb _ (table_rows t) = true |- _ => rewrite forallb_forall in H;
    apply Forall_forall; intros row Hrow; specialize (H row Hrow) end.
  zbool. done.
Qed.

Lemma columns_contains c columns :
  columns_ok columns = true -> key_char c = false -> c <> 44 ->
  contains c (join 44 columns) = false.
Proof.
  intros Hok Hc H44. unfold columns_ok in Hok. zbool.
  match goal with H : forallb key_ok columns = true |- _ => rewrite forallb_forall in H;
    rename H into Hk end.
  apply contains_forallb with (P := fun x => key_char x || (x =? 44)).
  { rewrite Hc. by apply Z.eqb_neq. }
  apply forallb_join; [done|]. apply Forall_forall. intros k Hin.
  eapply forallb_weaken; [|apply key_ok_chars, Hk, Hin]. by intros x ->.
Qed.

Section Decode.
Variable limits : Limits.

Definition row_good (width : Z) (row : list Cell) : Prop :=
  row <> [] /\ len row = width /\ forallb cell_ok row = true
  /\ forallb (cell_within limits) row = true.

Lemma rows_loop_ok rows rest row_count width line : forall lines consumed v,
  lines.*2 = (row_text <$> rows) ++ rest -> Forall (row_good width) rows ->
  consumed + len rows = row_count ->
  v + zsum (zsum cell_values) rows <= max_values limits ->
  rows_loop limits row_count width line lines consumed v
    = Ok (rows, v + zsum (zsum cell_values) rows).
Proof.
  induction rows as [|row rows IH]; intros lines consumed v Hl HF Hn Hv.
  - rewrite len_nil in Hn. destruct lines as [|[i l] lines]; cbn [rows_loop];
      destruct (Z.ltb_spec consumed row_count); try lia; unfold mret, parser_ret;
      by rewrite zsum_nil, Z.add_0_r.
  - apply list.Forall_cons in HF as [(Hne & Hw & Hok & Hwi) HF].
    rewrite len_cons in Hn. rewrite zsum_cons in Hv. pose proof (len_nonneg rows).
    assert (0 <= zsum (zsum cell_values) rows).
    { apply zsum_nonneg. intros r. apply zsum_nonneg, cell_values_nonneg. }
    destruct lines as [|[i l] lines]; [done|]. cbn in Hl. injection Hl as -> Hl.
    cbn [rows_loop]. destruct (Z.ltb_spec consumed row_count); [|lia].
    rewrite bool_decide_eq_false_2.
    2: { destruct row as [|c row]; [done|]. apply join_nonempty, write_cell_nonempty. }
    unfold mbind, parser_bind. subst width. unfold row_text.
    rewrite parse_row_ok by (done || lia). cbn.
    rewrite (IH lines _ _ Hl HF) by lia. cbn. unfold mret, parser_ret.
    by rewrite zsum_cons, Z.add_assoc.
Qed.

Lemma row_good_of columns row :
  columns_ok columns = true -> len row = len columns -> forallb cell_ok row = true ->
  forallb (cell_within limits) row = true -> row_good (len columns) row.
Proof.
  intros Hc Hn Hok Hw. split_and!; try done.
  by eapply row_line_ok; [apply columns_ok_nonempty|..].
Qed.

Lemma parse_headed_rows k columns rows n line lines rest v :
  key_ok k = true -> str_len k <= max_key_bytes limits ->
  columns_ok columns = true -> columns_within limits columns = true ->
  (match n with Some n => n = len rows /\ n <= usize_max | None => len rows = 1 end) ->
  len rows <= max_rows limits ->
  lines.*2 = (row_text <$> rows) ++ rest ->
  Forall (row_good (len columns)) rows ->
  v + zsum (zsum cell_values) rows <= max_values limits ->
  parse_headed limits
    ((k ++ match n with Some n => 91 :: to_string n ++ [93] | None => [] end)
     ++ write_columns columns) [] line lines v
  = value ← (match n with
     | Some _ => t ← map_err (fun _ => DE_Syntax line 1 "invalid table model")
                       (Table_new columns rows); Ok (VTable t)
     | None => values ← ok_or (list.last rows) (DE_MissingRows line 1 0);
         r ← map_err (fun _ => DE_Syntax line 1 "invalid record model")
               (Record_new columns values); Ok (VRecord r)
     end);
    Ok (k, value, length rows, v + zsum (zsum cell_values) rows).
Proof.
  intros Hk Hkl Hc Hcw Hn Hr Hl HF Hv. unfold parse_headed.
  rewrite bool_decide_eq_true_2 by done. cbn [negb].
  run_parser.
  rewrite parse_header_ok; [|done..|destruct n; [|done]; pose proof (len_nonneg rows); lia].
  run_parser. cbn [header_rows header_columns header_key].
  assert (match n with Some n => n | None => 1 end = len rows) as -> by (destruct n; lia).
  rewrite enforce_ok by done. run_parser.
  rewrite (rows_loop_ok rows rest) by (done || lia). run_parser.
  destruct n as [n|]; cbn.
  - destruct (Table_new columns rows); done.
  - destruct (list.last rows); [|done]. cbn. destruct (Record_new columns _); done.
Qed.

Lemma parse_field_ok f nfields i l lines rest v :
  field_ok f = true -> field_within limits f = true ->
  l :: lines.*2 = field_lines f ++ rest -> nfields + 1 <= max_fields limits ->
  v + value_values (field_value f) <= max_values limits ->
  parse_field limits nfields i l lines v
    = Ok (field_key f, field_value f, Nat.pred (length (field_lines f)),
          v + value_values (field_value f)).
Proof.
  intros Hok Hw Hl Hn Hv. unfold parse_field.
  pose proof (field_lines_ok _ Hok) as Hlines.
  rewrite bool_decide_eq_false_2.
  2: { destruct (field_lines f) eqn:E; [by unfold field_lines in E; destruct (field_value f)|].
    injection Hl as -> _. by apply list.Forall_cons in Hlines as [[? _] _]. }
  unfold field_ok, field_within in *. zbool.
  match goal with H : key_ok _ = true |- _ => rename H into Hk end.
  match goal with H : value_ok _ = true |- _ => rename H into Hvo end.
  match goal with H : value_within _ _ = true |- _ => rename H into Hvw end.
  run_parser. rewrite enforce_ok by done. run_parser.
  unfold field_lines in *. destruct (field_value f) as [a|vs|r|t]; cbn [value_ok value_within] in *;
    injection Hl as -> Hl.
  - rewrite split_once_app by by apply key_contains.
    run_parser. rewrite !key_contains by done. cbn [orb].
    unfold parse_inline. run_parser. rewrite parse_key_ok by done.
    run_parser.
    pose proof (parse_cell_ok limits (CAtom a) (i + 1) (str_len (field_key f) + 2) v Hvo Hvw Hv) as Hp.
    unfold parse_cell in Hp. cbn [write_cell] in Hp.
    destruct (starts_with 91 (write_atom a)); unfold mbind, parser_bind in Hp; cbn in Hp.
    { by destruct (parse_vector _ _ _ _ _) as [[? ?]|]. }
    destruct (parse_atom _ _ _ _ _) as [[? ?]|]; [|done]. cbn in Hp.
    injection Hp as -> ->. done.
  - rewrite split_once_app by by apply key_contains.
    run_parser. rewrite !key_contains by done. cbn [orb].
    unfold parse_inline. run_parser. rewrite parse_key_ok by done.
    run_parser. destruct (write_vector_shape vs) as (-> & _).
    by rewrite parse_vector_ok.
  - pose proof (Record_new_self _ Hvo) as Hnew. zbool. change (123 :: (join 44 (rec_columns r) ++ [125]) ++ [58])
      with (write_columns (rec_columns r) ++ [58]).
    rewrite (app_assoc (field_key f)), split_once_app.
    2: { rewrite contains_app, key_contains by done. unfold write_columns. cbn.
      by rewrite contains_app, columns_contains by done. }
    run_parser. rewrite contains_app. cbn [write_columns contains].
    rewrite Z.eqb_refl, orb_true_r. cbn [orb].
    pose proof (parse_headed_rows (field_key f) (rec_columns r) [rec_values r] None (i + 1)
      lines rest v) as Hp. rewrite zsum_cons, zsum_nil, Z.add_0_r, app_nil_r in Hp.
    rewrite Hp; try done; [|constructor; [|done]; by apply row_good_of].
    cbn. by rewrite Hnew.
  - pose proof (Table_new_self _ Hvo) as Hnew. zbool.
    change (123 :: (join 44 (table_columns t) ++ [125]) ++ [58])
      with (write_columns (table_columns t) ++ [58]).
    rewrite app_assoc, split_once_app.
    2: { rewrite !contains_app, key_contains by done. unfold write_columns. cbn.
      rewrite !contains_app, columns_contains, digits_contains
        by (done || apply len_nonneg). done. }
    run_parser. rewrite !contains_app. cbn [write_columns contains].
    rewrite Z.eqb_refl, !orb_true_r. cbn [orb].
    rewrite (parse_headed_rows (field_key f) (table_columns t) (table_rows t)
      (Some (len (table_rows t))) (i + 1) lines rest v); try done; try lia.
    + cbn. by rewrite Hnew, length_fmap.
    + apply Forall_forall. intros row Hrow.
      repeat match goal with H : forallb _ (table_rows t) = true |- _ =>
        rewrite forallb_forall in H; specialize (H row Hrow) end.
      zbool. by apply row_good_of.
Qed.
End Decode.

Lemma fields_loop_skip limits k : forall lines fs names v,
  fields_loop limits lines k fs names v = fields_loop limits (drop k lines) O fs names v.
Proof.
  induction k as [|k IH]; intros lines fs names v; [by rewrite drop_0|].
  destruct lines as [|[i l] lines]; [done|]. cbn [fields_loop drop]. apply IH.
Qed.

Lemma field_lines_nonempty f : field_lines f <> [].
Proof. unfold field_lines. by destruct (field_value f). Qed.

Lemma value_values_nonneg v : 0 <= value_values v.
Proof.
  destruct v as [a|l|r|t]; cbn; [lia|apply len_nonneg| |];
    repeat (apply zsum_nonneg; intros ?); apply cell_values_nonneg.
Qed.

Lemma filter_none {A} (P : A -> Prop) `{forall x, Decision (P x)} l :
  (forall x, In x l -> ~ P x) -> filter P l = [].
Proof.
  induction l as [|x l IH]; intros HP; [done|].
  rewrite list.filter_cons_False by (apply HP; by left). apply IH. intros y ?. apply HP. by right.
Qed.

Lemma enumerate_snd {A} (l : list A) : (enumerate l).*2 = l.
Proof.
  apply list_eq. intros i. unfold enumerate. rewrite list_lookup_fmap, list_lookup_imap.
  by destruct (l !! i).
Qed.

Section DecodeDocument.
Variable limits : Limits.

Lemma fields_loop_ok fs : forall lines acc names v,
  lines.*2 = fs ≫= field_lines ->
  Forall (fun f => field_ok f = true /\ field_within limits f = true) fs ->
  NoDup (field_key <$> fs) -> (forall f, f ∈ fs -> field_key f ∉ names) ->
  len acc + len fs <= max_fields limits ->
  v + zsum (fun f => value_values (field_value f)) fs <= max_values limits ->
  fields_loop limits lines O acc names v
    = Ok (acc ++ fs, v + zsum (fun f => value_values (field_value f)) fs).
Proof.
  induction fs as [|f fs IH]; intros lines acc names v Hl HF Hnd Hnames Hn Hv.
  - destruct lines; [|done]. rewrite zsum_nil, Z.add_0_r, app_nil_r. done.
  - cbn in Hl. destruct lines as [|[i l] lines].
    { exfalso. destruct (field_lines f) eqn:E; [by apply field_lines_nonempty in E|done]. }
    apply list.Forall_cons in HF as [[Hok Hw] HF].
    rewrite len_cons in Hn. rewrite zsum_cons in Hv |- *. pose proof (len_nonneg fs).
    assert (0 <= zsum (fun f => value_values (field_value f)) fs)
      by (apply zsum_nonneg; intros; apply value_values_nonneg).
    cbn [fields_loop]. run_parser.
    erewrite parse_field_ok; [|done|done|exact Hl|lia|lia]. run_parser.
    cbn in Hnd. apply list.NoDup_cons in Hnd as [Hnk Hnd].
    rewrite bool_decide_eq_false_2 by (apply Hnames; left).
    rewrite fields_loop_skip, (IH _ _ _ _).
    + rewrite <- app_assoc, Z.add_assoc. by destruct f.
    + rewrite fmap_drop.
      destruct (field_lines f) as [|l1 ls] eqn:E; [by apply field_lines_nonempty in E|].
      injection Hl as _ Hl. cbn. unfold fmap in *. rewrite Hl.
      by rewrite drop_app_length.
    + done.
    + done.
    + intros f' Hf'. apply not_elem_of_union. split; [|by apply Hnames; right].
      apply not_elem_of_singleton. intros E. apply Hnk. rewrite <- E.
      by apply list_elem_of_fmap_2.
    + rewrite len_app, len_cons, len_nil. lia.
    + lia.
Qed.

Lemma count_lf_unlines ls :
  Forall (fun l => contains 10 l = false) ls ->
  len (filter (fun byte => byte = 10) (str_bytes (unlines ls))) = len ls.
Proof.
  induction 1 as [|l ls Hl _ IH]; [done|]. unfold unlines in *. cbn.
  rewrite !str_bytes_app, !list.filter_app, !len_app, IH, len_cons.
  assert (filter (fun byte => byte = 10) (str_bytes l) = []) as ->.
  { apply filter_none. intros x Hx ->. rewrite In_str_bytes in Hx by done.
    by apply contains_false in Hl. }
  assert (filter (fun byte => byte = 10) (str_bytes [10]) = [10]) as -> by done.
  rewrite !len_cons, !len_nil. lia.
Qed.

Lemma line_ok_no_lf ls : Forall line_ok ls -> Forall (fun l => contains 10 l = false) ls.
Proof.
  intros H. eapply list.Forall_impl; [exact H|]. intros l [_ Hl].
  by apply contains_forallb with (P := line_char).
Qed.

Lemma unlines_no_cr ls : Forall line_ok ls -> ~ In 13 (unlines ls).
Proof.
  induction 1 as [|l ls [_ Hl] _ IH]; [by intros []|]. unfold unlines in *. cbn.
  rewrite !in_app_iff. rewrite forallb_forall in Hl. intros [[H|H]|H]; [by apply Hl in H| |done].
  by destruct H.
Qed.

(** The decoder inverts the encoder. *)
Lemma decode_encode d :
  document_ok d = true -> document_within limits d = true ->
  decode_with_limits (encode d) limits = Ok d.
Proof.
  unfold document_ok, document_within. intros Hok Hw. zbool.
  match goal with H : bool_decide (NoDup _) = true |- _ => apply bool_decide_eq_true in H end.
  match goal with H : bool_decide (fields d = []) = false |- _ =>
    apply bool_decide_eq_false in H; rename H into Hne end.
  repeat match goal with H : forallb _ (fields d) = true |- _ => rewrite forallb_forall in H end.
  assert (Forall (fun f => field_ok f = true /\ field_within limits f = true) (fields d)) as HF.
  { apply Forall_forall. intros f Hf. split; auto. unfold field_ok. auto. }
  set (ls := fields d ≫= field_lines) in *.
  assert (Forall line_ok ls) as Hls.
  { apply Forall_bind. eapply list.Forall_impl; [exact HF|]. intros f [Hf _].
    by apply field_lines_ok. }
  assert (ls <> []) as Hlne.
  { unfold ls. destruct (fields d) as [|f fs]; [done|]. cbn.
    destruct (field_lines f) eqn:E; [by apply field_lines_nonempty in E|done]. }
  unfold decode_with_limits, parse_document. rewrite encode_lines. fold ls.
  match goal with H : str_len (encode d) <= _ |- _ => rewrite encode_lines in H; fold ls in H end.
  rewrite (enforce_ok (str_len (unlines ls))) by done. cbn [mbind result_bind].
  assert (list_find (fun byte => byte = 13) (str_bytes (unlines ls)) = None) as ->.
  { apply list_find_None, Forall_forall. intros x Hx ->. rewrite In_str_bytes in Hx by done.
    by eapply unlines_no_cr. }
  rewrite count_lf_unlines by by apply line_ok_no_lf.
  rewrite unlines_join by done. rewrite strip_suffix_snoc. cbn [ok_or mbind result_bind].
  rewrite bool_decide_eq_false_2.
  2: { destruct ls as [|l ls']; [done|]. apply join_nonempty. by inversion Hls as [|? ? []]. }
  rewrite enforce_ok by done. cbn [mbind result_bind].
  rewrite split_join by (done || by apply line_ok_no_lf).
  rewrite fields_loop_ok with (fs := fields d); try done.
  - cbn. destruct d as [fs]. cbn in *.
    assert (Document_new fs = Ok (mkDocument fs)) as -> by (by apply Document_new_ok). done.
  - apply enumerate_snd.
Qed.
End DecodeDocument.
