(* ===== verification/AsonSound.v ===== *)
(** * AsonSound: what the decoder accepts

    Every document the decoder returns is well formed, within the limits it was
    given, and prints no longer than the text it was read from. *)

From S2P Require Import Prelude Text AsonModel AsonCodec AsonScalarFacts AsonFacts.

(** ** Lengths of printed lines *)

Definition unlen (ls : list str) : Z := zsum (fun l => str_len l + 1) ls.

Lemma unlen_unlines ls : str_len (unlines ls) = unlen ls.
Proof.
  induction ls as [|l ls IH]; [done|]. unfold unlines, unlen in *. cbn.
  rewrite !str_len_app, IH, str_len_cons, str_len_nil, len_utf8_ascii by done.
  rewrite zsum_cons. lia.
Qed.

Lemma unlen_app ls ls' : unlen (ls ++ ls') = unlen ls + unlen ls'.
Proof. apply zsum_app. Qed.
Lemma unlen_cons l ls : unlen (l :: ls) = str_len l + 1 + unlen ls.
Proof. unfold unlen. by rewrite zsum_cons. Qed.

Lemma unlen_join ls : ls <> [] -> str_len (join 10 ls) + 1 = unlen ls.
Proof.
  intros Hne. rewrite <- unlen_unlines, unlines_join, str_len_app, str_len_cons, str_len_nil,
    len_utf8_ascii by done. lia.
Qed.

(** ** Headers *)

Lemma rsplit_once_Some c s a b : rsplit_once c s = Some (a, b) -> s = a ++ c :: b.
Proof.
  revert a b. induction s as [|d s IH]; intros a b; cbn; [done|].
  destruct (rsplit_once c s) as [[a' b']|].
  - intros [= <- <-]. by rewrite (IH a' b').
  - destruct (Z.eqb_spec d c) as [->|]; [|done]. by intros [= <- <-].
Qed.

Lemma ends_with_app c s t : t <> [] -> ends_with c (s ++ t) = ends_with c t.
Proof.
  intros Ht. destruct (exists_last Ht) as (t' & d & ->). by rewrite app_assoc, !ends_with_snoc.
Qed.

Lemma ends_with_drop_last c s : ends_with c s = true -> s = drop_last s ++ [c].
Proof. intros [t ->]%ends_with_inv. by rewrite drop_last_snoc. Qed.

(** A text that ends with [d], after its last (or first) [c]. *)
Lemma ends_with_after c d s t :
  c <> d -> ends_with d (s ++ c :: t) = true -> t = drop_last t ++ [d].
Proof.
  intros Hcd. destruct t as [|x t].
  - rewrite ends_with_snoc. intros ->%Z.eqb_eq. done.
  - change (c :: x :: t) with ([c] ++ x :: t). rewrite !ends_with_app by done.
    apply ends_with_drop_last.
Qed.

Section Headers.
Variable limits : Limits.

Lemma parse_key_inv source line k :
  parse_key limits source line = Ok k ->
  k = source /\ key_ok k = true /\ str_len k <= max_key_bytes limits.
Proof.
  unfold parse_key. intros H. inv_ok.
  match goal with H : enforce _ _ _ _ = _ |- _ => apply enforce_inv in H end.
  match goal with H : Key_new _ = _ |- _ => apply Key_new_ok in H as [-> ?] end. done.
Qed.

Lemma columns_loop_inv line values seen columns cols :
  columns_loop limits line values seen columns = Ok cols ->
  cols = columns ++ values
  /\ Forall (fun k => key_ok k = true /\ str_len k <= max_key_bytes limits) values
  /\ NoDup values /\ (forall k, k ∈ values -> k ∉ seen)
  /\ (values <> [] -> len cols <= max_columns limits).
Proof.
  revert seen columns. induction values as [|v values IH]; intros seen columns H; cbn in H.
  - injection H as <-. rewrite app_nil_r. split_and!; constructor || set_solver || done.
  - inv_ok. subst.
    match goal with H : parse_key _ _ _ = _ |- _ => apply parse_key_inv in H as (-> & Hk & Hl) end.
    match goal with H : enforce _ _ _ _ = _ |- _ => apply enforce_inv in H end.
    apply bool_decide_eq_false in Hc. apply IH in H as (-> & HF & Hnd & Hs & Hn).
    rewrite <- app_assoc. split_and!; [done|by constructor| |set_solver|].
    + apply list.NoDup_cons. split; [|done]. intros Hin. apply Hs in Hin. set_solver.
    + intros _. rewrite <- app_assoc in Hn.
      destruct values; [cbn [app]; rewrite len_app, len_cons, len_nil; lia|by apply Hn].
Qed.

Lemma parse_columns_inv source line columns :
  parse_columns limits source line = Ok columns ->
  source = join 44 columns /\ columns_ok columns = true
  /\ columns_within limits columns = true.
Proof.
  unfold parse_columns. intros H. inv_ok.
  apply columns_loop_inv in H as (-> & HF & Hnd & _ & Hn). cbn [app] in *.
  rewrite join_split. split; [done|].
  specialize (Hn (split_nonempty _ _)).
  unfold columns_ok, columns_within.
  rewrite bool_decide_eq_false_2 by apply split_nonempty.
  rewrite bool_decide_eq_true_2 by done. rewrite Forall_forall in HF.
  split; repeat (apply andb_true_iff; split); try done; try (by apply Z.leb_le);
    apply forallb_forall; intros k Hk; apply HF in Hk as [? ?]; [done|by apply Z.leb_le].
Qed.

Lemma parse_row_count_inv source line n :
  parse_row_count source line = Ok n -> source = to_string n /\ 0 <= n <= usize_max.
Proof.
  unfold parse_row_count. intros H. inv_ok.
  split; [|by eapply parse_unsigned_range].
  symmetry. eapply to_string_parse; [|done].
  apply orb_false_iff in Hc as [[Hne Hd]%orb_false_iff H0].
  apply negb_false_iff in Hd. unfold canonical_decimal.
  rewrite digits_str_bytes, digits_str_len in * by done.
  rewrite Hne, Hd, H0. done.
Qed.

Definition header_text (h : Header) : str :=
  (header_key h ++ match header_rows h with
                   | Some n => 91 :: to_string n ++ [93] | None => [] end)
  ++ write_columns (header_columns h).

Lemma parse_header_inv head line h :
  parse_header limits head line = Ok h ->
  head = header_text h
  /\ key_ok (header_key h) = true /\ str_len (header_key h) <= max_key_bytes limits
  /\ columns_ok (header_columns h) = true /\ columns_within limits (header_columns h) = true
  /\ match header_rows h with Some n => 0 <= n <= usize_max | None => True end.
Proof.
  unfold parse_header. intros H. inv_ok. apply negb_false_iff in Hc.
  destruct x as [prefix after]. inv_ok. destruct x as [key_source rows]. inv_ok. subst h.
  repeat match goal with
  | H : parse_key _ _ _ = _ |- _ => apply parse_key_inv in H as (-> & Hk & Hl)
  | H : parse_columns _ _ _ = _ |- _ => apply parse_columns_inv in H as (Hj & Hco & Hcw)
  | H : split_once _ _ = _ |- _ => apply split_once_Some in H as [-> _]
  end.
  unfold header_text. cbn [header_key header_rows header_columns].
  apply ends_with_after in Hc; [|done]. rewrite Hj in Hc. rewrite Hc.
  destruct (ends_with 93 prefix) eqn:He; inv_ok.
  - destruct x as [before bracketed]. inv_ok. simplify_eq.
    match goal with H : rsplit_once _ _ = _ |- _ => apply rsplit_once_Some in H as -> end.
    match goal with H : parse_row_count _ _ = _ |- _ =>
      apply parse_row_count_inv in H as [Hrc ?] end.
    apply ends_with_after in He; [|done]. rewrite Hrc in He. rewrite He.
    split_and!; try (done || lia).
  - simplify_eq. split_and!; try done. unfold write_columns. by list_norm.
Qed.
End Headers.

(** ** Rows and fields *)

Section Rows.
Variable limits : Limits.
Hypothesis Hmax : 0 <= max_scalar_bytes limits.

Definition valid_lines (lines : list (Z * str)) : Prop :=
  Forall (fun l => valid_str l = true) lines.*2.

Lemma valid_lines_drop k lines : valid_lines lines -> valid_lines (drop k lines).
Proof. unfold valid_lines. rewrite fmap_drop. apply Forall_drop. Qed.

Definition row_read (width : Z) (row : list Cell) : Prop :=
  len row = width /\ forallb cell_ok row = true /\ forallb (cell_within limits) row = true.

Lemma rows_loop_inv row_count width line lines consumed v rows v' :
  valid_lines lines -> consumed <= row_count ->
  rows_loop limits row_count width line lines consumed v = Ok (rows, v') ->
  Forall (row_read width) rows /\ consumed + len rows = row_count
  /\ (length rows <= length lines)%nat
  /\ unlen (row_text <$> rows) <= unlen (take (length rows) lines.*2)
  /\ v' = v + zsum (zsum cell_values) rows
  /\ (v <= max_values limits -> v' <= max_values limits).
Proof.
  revert consumed v rows v'. induction lines as [|[i l] lines IH];
    intros consumed v rows v' Hv Hc H; cbn [rows_loop] in H;
    destruct (Z.ltb_spec consumed row_count); try done;
    try (unfold mret, parser_ret in H; simplify_eq; rewrite len_nil, zsum_nil;
         cbn; split_and!; [constructor|lia..]).
  destruct (bool_decide (l = [])); [done|]. unfold mbind, parser_bind in H.
  unfold valid_lines in Hv. cbn in Hv. apply list.Forall_cons in Hv as [Hl Hv].
  inv_ok. destruct x as [row v1]. inv_ok. destruct x as [rest v2]. unfold mret, parser_ret in H.
  simplify_eq. match goal with H : parse_row _ _ _ _ _ = _ |- _ =>
    apply parse_row_inv in H as (((? & ?) & ? & Hlen) & -> & Hm); [|done..] end.
  match goal with H : rows_loop _ _ _ _ _ _ _ = _ |- _ =>
    apply IH in H as (HF & Hn & Hle & Hu & -> & Hm'); [|done|lia] end.
  rewrite len_cons, zsum_cons. cbn. rewrite !unlen_cons.
  unfold write_row, row_text in *. rewrite str_len_app, str_len_cons, str_len_nil, len_utf8_ascii
    in Hlen by done.
  split_and!; [by constructor|lia|lia|lia|lia|auto].
Qed.

Lemma rows_read_table width rows :
  Forall (row_read width) rows ->
  forallb (fun row => (len row =? width) && forallb cell_ok row) rows = true
  /\ forallb (forallb (cell_within limits)) rows = true.
Proof.
  rewrite Forall_forall. intros H. rewrite !forallb_forall.
  split; intros row Hrow; apply H in Hrow as (<- & ? & ?); [|done].
  by rewrite Z.eqb_refl.
Qed.

(** What one field consumed: [used] of [lines] after its own. *)
Definition field_read (line : str) (lines : list (Z * str)) (v : Z)
    (f : Field) (used : nat) (v' : Z) : Prop :=
  field_ok f = true /\ field_within limits f = true
  /\ length (field_lines f) = S used /\ (used <= length lines)%nat
  /\ unlen (field_lines f) <= str_len line + 1 + unlen (take used lines.*2)
  /\ v' = v + value_values (field_value f)
  /\ (v <= max_values limits -> v' <= max_values limits).

Lemma parse_headed_inv head payload line lines v k val used v' :
  valid_lines lines ->
  parse_headed limits head payload line lines v = Ok (k, val, used, v') ->
  payload = [] /\ field_read (head ++ [58]) lines v (mkField k val) used v'.
Proof.
  intros Hvl H. unfold parse_headed in H.
  destruct (bool_decide_reflect (payload = [])) as [->|]; [|done]. cbn [negb] in H.
  split; [done|]. unfold mbind, parser_bind, lift, mret, parser_ret in H. inv_ok.
  destruct x as [h v1]. inv_ok. simplify_eq.
  match goal with H : parse_header _ _ _ = _ |- _ =>
    apply parse_header_inv in H as (-> & Hk & Hkl & Hc & Hcw & Hn) end.
  match goal with H : enforce _ _ _ _ = _ |- _ => apply enforce_inv in H as Hr end.
  inv_ok. destruct x as [rows v3]. inv_ok.
  match goal with H : rows_loop _ _ _ _ _ _ _ = _ |- _ =>
    apply rows_loop_inv in H as (HF & Hl & Hle & Hu & -> & Hm);
      [|done|destruct (header_rows h); lia] end.
  destruct x as [val' v4]. cbn in H. simplify_eq.
  unfold header_text in *. destruct (header_rows h) as [n|]; cbn in *;
    unfold parser_bind in *; inv_ok; simplify_eq.
  - match goal with H : Table_new _ _ = _ |- _ => apply Table_new_ok in H as (-> & _) end.
    apply rows_read_table in HF as [Hok Hw].
    unfold field_read, field_ok, field_within, field_lines. cbn [field_key field_value].
    cbn [value_ok value_within value_values table_columns table_rows length].
    rewrite Hk, Hc, Hcw, Hok, Hw, length_fmap, unlen_cons.
    rewrite <- app_assoc, (app_assoc _ _ [58]). fold row_text.
    rewrite !str_len_app, Z.add_0_l in *. split_and!; try done; lia.
  - destruct rows as [|row [|row2 rows2]]; [done| |rewrite !len_cons in Hl; pose proof (len_nonneg rows2); lia].
    cbn [list.last] in *. simplify_eq. inv_ok. simplify_eq/=.
    match goal with H : Record_new _ _ = _ |- _ => apply Record_new_ok in H as (-> & _) end.
    apply rows_read_table in HF as [Hok Hw]. cbn [forallb] in Hok, Hw. zbool.
    unfold field_read, field_ok, field_within, field_lines. cbn [field_key field_value].
    cbn [value_ok value_within value_values rec_columns rec_values length].
    rewrite Hk, Hc, Hcw, zsum_cons, zsum_nil, app_nil_r, app_assoc in *.
    fold (row_text x0). rewrite !unlen_cons in *.
    split_and!; try done; try lia; cbn [andb]; repeat (apply andb_true_iff; split);
      lia || done.
Qed.

Lemma parse_inline_inv head payload line lines v k val used v' :
  valid_str payload = true ->
  parse_inline limits head payload line v = Ok (k, val, used, v') ->
  field_read (head ++ 58 :: payload) lines v (mkField k val) used v'.
Proof.
  intros Hp H. unfold parse_inline, mbind, parser_bind, lift, mret, parser_ret in H.
  inv_ok. destruct x as [k' v1]. inv_ok. simplify_eq.
  match goal with H : parse_key _ _ _ = _ |- _ => apply parse_key_inv in H as (-> & Hk & Hl) end.
  destruct x as [val' v2]. inv_ok. simplify_eq/=.
  assert (exists c, parse_cell limits payload line (str_len k + 2) v1 = Ok (c, v')
    /\ val = match c with CAtom a => Scalar a | CVector l => Vector l end) as (c & Hc & ->).
  { unfold parse_cell. destruct (starts_with 91 payload); unfold mbind, parser_bind, mret, parser_ret;
      inv_ok; destruct x as [y v2]; simplify_eq;
      match goal with H : _ = Ok (y, _) |- _ => rewrite H end; by eexists. }
  apply parse_cell_inv in Hc as (((Hok & Hw) & Hlen) & -> & Hm); [|done..].
  unfold field_read, field_ok, field_within, field_lines. cbn [field_key field_value].
  rewrite Hk. destruct c; cbn in *; rewrite !unlen_cons, !str_len_app, !str_len_cons, take_0;
    split_and!; try done; try lia; apply andb_true_iff; split; lia || done.
Qed.

Lemma parse_field_inv nfields i line lines v k val used v' :
  valid_str line = true -> valid_lines lines ->
  parse_field limits nfields i line lines v = Ok (k, val, used, v') ->
  nfields + 1 <= max_fields limits /\ field_read line lines v (mkField k val) used v'.
Proof.
  intros Hvl Hvls H. unfold parse_field in H. destruct (bool_decide (line = [])); [done|].
  unfold mbind, parser_bind, lift in H. inv_ok. destruct x as [[] v1]. inv_ok. simplify_eq.
  match goal with H : enforce _ _ _ _ = _ |- _ => apply enforce_inv in H end.
  split; [done|]. destruct x1 as [head payload].
  match goal with H : split_once _ _ = _ |- _ => apply split_once_Some in H as [-> _] end.
  destruct (contains 123 head || contains 91 head).
  - by apply parse_headed_inv in H as [-> H].
  - eapply parse_inline_inv; [|done]. rewrite valid_str_app in Hvl.
    apply andb_true_iff in Hvl as [_ Hvl]. cbn in Hvl. by apply andb_true_iff in Hvl as [_ ?].
Qed.

Lemma fields_loop_inv : forall lines acc names v fs v',
  valid_lines lines ->
  fields_loop limits lines O acc names v = Ok (fs, v') ->
  exists new, fs = acc ++ new
    /\ Forall (fun f => field_ok f = true /\ field_within limits f = true) new
    /\ NoDup (field_key <$> new) /\ (forall f, f ∈ new -> field_key f ∉ names)
    /\ (new <> [] -> len fs <= max_fields limits)
    /\ len (new ≫= field_lines) = len lines
    /\ unlen (new ≫= field_lines) <= unlen lines.*2
    /\ v' = v + zsum (fun f => value_values (field_value f)) new
    /\ (v <= max_values limits -> v' <= max_values limits).
Proof.
  induction lines as [lines IH] using list_length_ind; intros acc names v fs v' Hvl H.
  destruct lines as [|[i line] lines].
  { cbn in H. unfold mret, parser_ret in H. simplify_eq. exists [].
    rewrite app_nil_r. cbn.
    split_and!; try done; [constructor|intros f Hf; by apply not_elem_of_nil in Hf|
      rewrite zsum_nil; lia]. }
  cbn [fields_loop] in H. unfold mbind, parser_bind in H. inv_ok.
  destruct x as [[[k val] used] v1].
  unfold valid_lines in Hvl. cbn in Hvl. apply list.Forall_cons in Hvl as [Hline Hlines].
  match goal with H : parse_field _ _ _ _ _ _ = _ |- _ =>
    apply parse_field_inv in H as (Hn & Hok & Hw & Hlen & Hused & Hu & -> & Hm); [|done..] end.
  cbn [field_value] in *.
  case_bool_decide as Hin; [done|]. rewrite fields_loop_skip in H.
  apply IH in H as (new & -> & HF & Hnd & Hnames & Hnf & Hll & Hul & -> & Hm');
    [|rewrite length_drop; cbn; lia|by apply valid_lines_drop].
  exists (mkField k val :: new). rewrite <- app_assoc. cbn [app].
  split_and!.
  - done.
  - by constructor.
  - cbn. apply list.NoDup_cons. split; [|done]. intros (f & E & Hf)%list_elem_of_fmap.
    apply Hnames in Hf. rewrite <- E in Hf. set_solver.
  - intros f [->|Hf]%elem_of_cons; [done|]. apply Hnames in Hf. set_solver.
  - intros _. destruct new; [rewrite len_app, len_cons, len_nil; lia|].
    rewrite <- app_assoc in Hnf. by apply Hnf.
  - cbn. rewrite len_app, Hll, len_cons. unfold len in *. rewrite length_drop, Hlen. lia.
  - cbn. rewrite unlen_app, unlen_cons. rewrite fmap_drop in Hul.
    rewrite <- (take_drop used lines.*2), unlen_app at 1. lia.
  - rewrite zsum_cons. cbn [field_value]. lia.
  - auto.
Qed.
End Rows.

(** ** Documents *)

(** What [decode_with_limits] returns. *)
Lemma decode_inv limits input d :
  0 <= max_scalar_bytes limits -> 0 <= max_values limits -> valid_str input = true ->
  decode_with_limits input limits = Ok d ->
  document_ok d = true /\ document_within limits d = true
  /\ str_len (encode d) <= str_len input.
Proof.
  intros Hmax Hmv Hv H. unfold decode_with_limits, parse_document in H. inv_ok.
  repeat match goal with H : enforce _ _ _ _ = _ |- _ => apply enforce_inv in H end.
  destruct (list_find _ _) as [[? ?]|]; [done|]. inv_ok.
  repeat match goal with H : enforce _ _ _ _ = _ |- _ => apply enforce_inv in H end.
  destruct x2 as [fs v'].
  match goal with H : strip_suffix _ _ = _ |- _ => apply strip_suffix_Some in H as -> end.
  inv_ok. match goal with H : Document_new _ = _ |- _ =>
    apply Document_new_ok in H as (-> & Hne & Hnd) end.
  rewrite valid_str_app in Hv. apply andb_true_iff in Hv as [Hv _].
  match goal with H : fields_loop _ _ _ _ _ _ = _ |- _ => apply fields_loop_inv in H
    as (new & -> & HF & _ & _ & Hn & Hll & Hul & -> & Hm) end; [|done|].
  2: { unfold valid_lines. rewrite enumerate_snd. rewrite <- (join_split 10 x0) in Hv.
    by apply join_valid in Hv. }
  cbn [app] in *. rewrite enumerate_snd in Hul. unfold document_ok, document_within.
  cbn [fields]. rewrite encode_lines, unlen_unlines. cbn [fields].
  assert (x0 ++ [10] = unlines (split 10 x0)) as Hx.
  { by rewrite unlines_join, join_split by apply split_nonempty. }
  rewrite Hx in *. rewrite count_lf_unlines in * by apply split_no_contains.
  rewrite unlen_unlines in *. rewrite <- (len_fmap snd), enumerate_snd in Hll.
  specialize (Hn Hne). specialize (Hm Hmv).
  rewrite bool_decide_eq_false_2, bool_decide_eq_true_2 by done.
  assert (forallb field_ok new = true /\ forallb (field_within limits) new = true) as [Hok ->]
    by by apply Forall_and_forallb.
  split_and!; [exact Hok| |done].
  repeat (apply andb_true_iff; split); lia.
Qed.

(** ** The canonical form *)

Section Canonical.
Variable limits : Limits.
Hypothesis Hmax : 0 <= max_scalar_bytes limits.
Hypothesis Hmv : 0 <= max_values limits.

(** What the decoder returns is what it reads back from its printed form. *)
Lemma decode_canonical input d :
  valid_str input = true -> decode_with_limits input limits = Ok d ->
  decode_with_limits (encode d) limits = Ok d.
Proof. intros Hv (? & ? & _)%decode_inv; [|done..]. by apply decode_encode. Qed.

Lemma canonicalize_Ok input c :
  canonicalize input limits = Ok c <->
  exists d, decode_with_limits input limits = Ok d /\ c = encode d.
Proof. unfold canonicalize. destruct (decode_with_limits input limits); naive_solver. Qed.

Lemma is_canonical_true input :
  is_canonical input limits = Ok true <->
  exists d, decode_with_limits input limits = Ok d /\ encode d = input.
Proof.
  unfold is_canonical, canonicalize. destruct (decode_with_limits input limits) as [d|e]; cbn;
    [|naive_solver].
  split; [intros [= H%bool_decide_eq_true]; eauto|].
  intros (d' & [= <-] & ->). by rewrite bool_decide_eq_true_2.
Qed.
End Canonical.

Lemma encode_inj limits d d' :
  document_ok d = true -> document_within limits d = true ->
  document_ok d' = true -> document_within limits d' = true ->
  encode d = encode d' -> d = d'.
Proof. intros Hd Hw Hd' Hw' E. apply (decode_encode limits) in Hd, Hd'; congruence. Qed.

(** ** The printed form is a valid string *)

Lemma valid_str_join c ws :
  valid_char c = true -> Forall (fun w => valid_str w = true) ws -> valid_str (join c ws) = true.
Proof. apply forallb_join. Qed.

Lemma hex_lower_valid c : is_control c = true -> valid_str (hex_lower c) = true.
Proof.
  intros (Hh & _)%hex_lower_control. apply valid_str_ascii. eapply forallb_weaken; [|exact Hh].
  intros x. unfold_classes. lia.
Qed.

Lemma write_escaped_valid c : valid_char c = true -> valid_str (write_escaped c) = true.
Proof.
  intros Hc. unfold write_escaped.
  repeat match goal with |- context [if c =? ?k then _ else _] =>
    destruct (Z.eqb_spec c k); [done|] end.
  destruct (is_control c) eqn:Hctl.
  - rewrite !valid_str_app, hex_lower_valid by done. done.
  - unfold valid_str. cbn. by rewrite Hc.
Qed.

Lemma to_string_valid n : 0 <= n -> valid_str (to_string n) = true.
Proof.
  intros Hn. apply valid_str_ascii. eapply forallb_weaken; [|by apply to_string_digits].
  intros c. unfold_classes. lia.
Qed.

Lemma write_atom_valid a : atom_ok a = true -> valid_str (write_atom a) = true.
Proof.
  destruct a as [|id|s]; cbn [atom_ok write_atom]; intros Hok; [done| |].
  - unfold u64_ok in Hok. zbool. rewrite valid_str_app, to_string_valid by done. done.
  - destruct (is_bare_text s); [done|]. unfold write_quoted. cbn [valid_str forallb].
    change (valid_str ((s ≫= write_escaped) ++ [34]) = true). rewrite valid_str_app.
    apply andb_true_iff. split; [|done].
    induction s as [|c s IH]; [done|]. unfold valid_str in Hok. cbn in Hok.
    apply andb_true_iff in Hok as [Hc Hs]. cbn [mbind list_bind].
    rewrite valid_str_app, write_escaped_valid by done. by apply IH.
Qed.

Lemma write_atoms_valid l : forallb atom_ok l = true -> valid_str (join 44 (write_atom <$> l)) = true.
Proof.
  intros Hl. apply valid_str_join; [done|]. apply Forall_fmap, Forall_forall. intros a Ha.
  rewrite forallb_forall in Hl. by apply write_atom_valid, Hl.
Qed.

Lemma write_vector_valid l : forallb atom_ok l = true -> valid_str (write_vector l) = true.
Proof.
  intros Hl. unfold write_vector. change (valid_str ([91] ++ join 44 (write_atom <$> l) ++ [93]) = true).
  by rewrite !valid_str_app, write_atoms_valid.
Qed.

Lemma write_cell_valid c : cell_ok c = true -> valid_str (write_cell c) = true.
Proof. destruct c; [apply write_atom_valid|apply write_vector_valid]. Qed.

Lemma row_text_valid row : forallb cell_ok row = true -> valid_str (row_text row) = true.
Proof.
  intros Hr. apply valid_str_join; [done|]. apply Forall_fmap, Forall_forall. intros c Hc.
  rewrite forallb_forall in Hr. by apply write_cell_valid, Hr.
Qed.

Lemma key_valid k : key_ok k = true -> valid_str k = true.
Proof.
  intros [_ Hk]%key_ok_chars. apply valid_str_ascii. eapply forallb_weaken; [|exact Hk].
  intros c. unfold key_char. unfold_classes. lia.
Qed.

Lemma write_columns_valid cs : columns_ok cs = true -> valid_str (write_columns cs) = true.
Proof.
  unfold columns_ok. intros Hc. zbool. unfold write_columns.
  change (valid_str ([123] ++ join 44 cs ++ [125]) = true). rewrite !valid_str_app.
  repeat (apply andb_true_iff; split); try done. apply valid_str_join; [done|].
  apply Forall_forall. intros k Hk. apply key_valid.
  match goal with H : forallb key_ok _ = true |- _ => rewrite forallb_forall in H; by apply H end.
Qed.

Lemma field_lines_valid f : field_ok f = true -> Forall (fun l => valid_str l = true) (field_lines f).
Proof.
  unfold field_ok, field_lines. intros [Hk Hv]%andb_true_iff. apply key_valid in Hk.
  destruct (field_value f) as [a|l|r|t]; cbn [value_ok] in Hv; zbool.
  - constructor; [|constructor]. change (58 :: write_atom a) with ([58] ++ write_atom a).
    by rewrite !valid_str_app, Hk, write_atom_valid.
  - constructor; [|constructor]. change (58 :: write_vector l) with ([58] ++ write_vector l).
    by rewrite !valid_str_app, Hk, write_vector_valid.
  - constructor; [|constructor; [|constructor]].
    + by rewrite !valid_str_app, Hk, write_columns_valid.
    + by apply row_text_valid.
  - constructor.
    + change (91 :: to_string (len (table_rows t)) ++ [93])
        with ([91] ++ to_string (len (table_rows t)) ++ [93]).
      rewrite !valid_str_app, Hk, write_columns_valid, to_string_valid
        by (done || apply len_nonneg). done.
    + apply Forall_fmap, Forall_forall. intros row Hrow.
      match goal with H : forallb _ (table_rows t) = true |- _ => rewrite forallb_forall in H;
        apply H, andb_true_iff in Hrow as [_ ?] end. by apply row_text_valid.
Qed.

Lemma encode_valid d : document_ok d = true -> valid_str (encode d) = true.
Proof.
  unfold document_ok. intros Hok. zbool. rewrite encode_lines. unfold unlines.
  match goal with H : forallb _ (fields d) = true |- _ => rewrite forallb_forall in H;
    rename H into Hf end.
  apply forallb_forall. intros x (l & Hl & Hx)%in_flat_map.
  apply in_flat_map in Hl as (f & Hin & Hl).
  pose proof (field_lines_valid f (Hf f Hin)) as Hv. rewrite Forall_forall in Hv.
  apply Hv in Hl. assert (valid_str (l ++ [10]) = true) as Hs by by rewrite valid_str_app, Hl.
  unfold valid_str in Hs. rewrite forallb_forall in Hs. by apply Hs.
Qed.
