(* ===== verification/Graph.v ===== *)
(** * Graph: dependency graphs in stable node order

    [BatchArgs::validate] (request.rs) and [validate] (dag.rs) run the same
    topological count: the in-degrees and reverse edges of a graph of node
    indices, a queue of the nodes without unmet dependencies, and a counter of
    the nodes taken from it.  The count is defined once here, with the theorem
    that it reaches the number of nodes exactly when the graph has no cycle. *)

From S2P Require Import Prelude.
From stdpp Require Import sets relations list_numbers.

Lemma list_filter_iff_in {A} (P Q : A -> Prop) `{forall x, Decision (P x)}
    `{forall x, Decision (Q x)} (l : list A) :
  (forall x, x ∈ l -> P x <-> Q x) -> filter P l = filter Q l.
Proof.
  induction l as [|x l IH]; intros Hl; [done|].
  pose proof (Hl x ltac:(by left)) as Hx.
  assert (filter P l = filter Q l) as E by (apply IH; intros; apply Hl; by right).
  destruct (decide (P x)).
  - rewrite !list.filter_cons_True by naive_solver. by f_equal.
  - rewrite !list.filter_cons_False by naive_solver. done.
Qed.

(** ** The algorithm *)

(** [for dependency in &node.dependencies { dependents[dependency].push(index) }] *)
Definition add_edges (index : nat) (dependencies : list nat) (dependents : list (list nat))
    : list (list nat) :=
  foldl (fun ds d => alter (fun l => l ++ [index]) d ds) dependents dependencies.

(** The loop over the nodes from position [index] on. *)
Fixpoint build_dependents (index : nat) (deps : list (list nat)) (dependents : list (list nat))
    : list (list nat) :=
  match deps with
  | [] => dependents
  | d :: deps => build_dependents (S index) deps (add_edges index d dependents)
  end.

Definition dependents_of (deps : list (list nat)) : list (list nat) :=
  build_dependents 0 deps (replicate (length deps) []).

Definition incoming_of (deps : list (list nat)) : list nat := length <$> deps.

(** The positions whose count is zero, in order. *)
Definition zero_positions (incoming : list nat) : list nat :=
  filter (fun i => incoming !! i = Some O) (seq 0 (length incoming)).

(** One turn of the loop over [&dependents[index]].  The subtraction never
    underflows ([release_positive]). *)
Definition release (st : list nat * list nat) (dependent : nat) : list nat * list nat :=
  let '(incoming, ready) := st in
  let incoming := alter pred dependent incoming in
  if bool_decide (incoming !! dependent = Some O)
  then (incoming, ready ++ [dependent]) else (incoming, ready).

(** The [while let Some(index) = ready.pop_front()] loop; it takes at most one
    turn per node ([kahn_enough]). *)
Fixpoint kahn (fuel : nat) (dependents : list (list nat)) (ready incoming : list nat)
    (visited : nat) : option nat :=
  match ready with
  | [] => Some visited
  | index :: ready =>
      match fuel with
      | O => None
      | S fuel =>
          let '(incoming, ready) :=
            foldl release (incoming, ready) (default [] (dependents !! index)) in
          kahn fuel dependents ready incoming (S visited)
      end
  end.

(** The number of nodes the loop visits. *)
Definition visited_count (deps : list (list nat)) : option nat :=
  kahn (length deps) (dependents_of deps) (zero_positions (incoming_of deps))
    (incoming_of deps) 0.

Definition all_visited (deps : list (list nat)) : bool :=
  bool_decide (visited_count deps = Some (length deps)).

(** ** Graphs *)

Section Graph.
Variable deps : list (list nat).

(** Node [i] depends on node [j]. *)
Definition depends (i j : nat) : Prop := exists d, deps !! i = Some d /\ j ∈ d.

(** Dependencies are positions, without repetition. *)
Definition graph_ok : Prop :=
  Forall (fun d => NoDup d /\ Forall (fun j => (j < length deps)%nat) d) deps.

Definition acyclic : Prop := forall i, ~ tc depends i i.

Hypothesis Hok : graph_ok.

Lemma graph_ok_lookup i d :
  deps !! i = Some d -> NoDup d /\ forall j, j ∈ d -> (j < length deps)%nat.
Proof.
  intros Hd. unfold graph_ok in Hok. rewrite list.Forall_lookup in Hok.
  destruct (Hok i d Hd) as [Hnd HF]. split; [done|]. by apply list.Forall_forall.
Qed.

Lemma depends_lt i j : depends i j -> (i < length deps)%nat /\ (j < length deps)%nat.
Proof.
  intros (d & Hd & Hj). split; [by eapply lookup_lt_Some|].
  by apply (graph_ok_lookup i d Hd).
Qed.

(** *** Reverse edges *)

Lemma add_edges_lookup index d ds j :
  NoDup d ->
  add_edges index d ds !! j = (fun l => if decide (j ∈ d) then l ++ [index] else l) <$> ds !! j.
Proof.
  intros Hnd. unfold add_edges. revert ds. induction Hnd as [|x d Hx Hnd IH]; intros ds; cbn.
  - destruct (ds !! j); [|done]. cbn. by rewrite decide_False by set_solver.
  - rewrite IH. destruct (decide (x = j)) as [->|Hne].
    + rewrite list_lookup_alter_eq. destruct (ds !! j); [|done]. cbn.
      by rewrite decide_False, decide_True by set_solver.
    + rewrite list_lookup_alter_ne by done. destruct (ds !! j); [|done]. cbn. f_equal.
      by apply decide_ext; set_solver.
Qed.

(** The positions in [index ..] of the nodes that depend on [j]. *)
Fixpoint dependents_from (index : nat) (ds : list (list nat)) (j : nat) : list nat :=
  match ds with
  | [] => []
  | d :: ds => (if decide (j ∈ d) then [index] else []) ++ dependents_from (S index) ds j
  end.

Lemma build_dependents_lookup index ds acc j :
  Forall NoDup ds ->
  build_dependents index ds acc !! j
    = (fun l => l ++ dependents_from index ds j) <$> acc !! j.
Proof.
  intros HF. revert index acc. induction HF as [|d ds Hd _ IH]; intros index acc; cbn.
  - destruct (acc !! j); [|done]. cbn. by rewrite app_nil_r.
  - rewrite IH, add_edges_lookup by done. destruct (acc !! j); [|done]. cbn. f_equal.
    destruct (decide (j ∈ d)); [by rewrite <- app_assoc|done].
Qed.

Lemma dependents_from_spec index ds j i :
  i ∈ dependents_from index ds j <->
  exists k d, i = (index + k)%nat /\ ds !! k = Some d /\ j ∈ d.
Proof.
  revert index. induction ds as [|d ds IH]; intros index; cbn.
  - split; [intros H; by apply not_elem_of_nil in H|]. intros (k & d & _ & Hk & _).
    by rewrite lookup_nil in Hk.
  - rewrite elem_of_app, IH. split.
    + intros [Hi|(k & d' & -> & ? & ?)].
      * destruct (decide (j ∈ d)); [|by apply not_elem_of_nil in Hi].
        apply list_elem_of_singleton in Hi as ->. exists O, d. split; [lia|done].
      * exists (S k), d'. split; [lia|done].
    + intros ([|k] & d' & -> & Hk & Hj); cbn in Hk.
      * injection Hk as ->. left. rewrite decide_True by done. apply list_elem_of_singleton. lia.
      * right. exists k, d'. split; [lia|done].
Qed.

Lemma dependents_from_NoDup index ds j : NoDup (dependents_from index ds j).
Proof.
  revert index. induction ds as [|d ds IH]; intros index; cbn; [constructor|].
  destruct (decide (j ∈ d)); [|apply IH]. cbn. apply list.NoDup_cons. split; [|apply IH].
  intros (k & ? & ? & _)%dependents_from_spec. lia.
Qed.

Lemma dependents_of_spec j :
  (j < length deps)%nat ->
  exists l, dependents_of deps !! j = Some l /\ NoDup l /\ forall i, i ∈ l <-> depends i j.
Proof.
  intros Hj. exists (dependents_from 0 deps j). unfold dependents_of.
  rewrite build_dependents_lookup.
  2: { unfold graph_ok in Hok. eapply list.Forall_impl; [exact Hok|]. by intros ? [? _]. }
  rewrite lookup_replicate_2 by done. split_and!; [done|apply dependents_from_NoDup|].
  intros i. rewrite dependents_from_spec. unfold depends. naive_solver.
Qed.

(** *** Releasing the dependents of one node *)

Lemma release_all_spec ds : forall incoming ready incoming' ready',
  NoDup ds -> foldl release (incoming, ready) ds = (incoming', ready') ->
  (forall i, incoming' !! i = (if decide (i ∈ ds) then pred else id) <$> incoming !! i)
  /\ ready' = ready ++ filter (fun x => pred <$> incoming !! x = Some O) ds.
Proof.
  induction ds as [|x ds IH]; intros incoming ready incoming' ready' Hnd H; cbn in H.
  - injection H as <- <-. split; [|by rewrite app_nil_r]. intros i.
    rewrite decide_False by set_solver. by destruct (incoming !! i).
  - apply list.NoDup_cons in Hnd as [Hx Hnd].
    assert (alter pred x incoming !! x = pred <$> incoming !! x) as Ex
      by apply list_lookup_alter_eq.
    rewrite Ex in H.
    destruct (bool_decide (pred <$> incoming !! x = Some O)) eqn:Hz;
      apply IH in H as [Hi Hr]; try done; (split; [intros i; rewrite Hi|]).
    1, 3: destruct (decide (x = i)) as [->|Hne];
      [rewrite (decide_False (P := i ∈ ds)), decide_True, list_lookup_alter_eq by set_solver;
       by destruct (incoming !! i)
      |rewrite list_lookup_alter_ne by done; f_equal; by apply decide_ext; set_solver].
    + rewrite Hr, <- app_assoc. f_equal.
      apply bool_decide_eq_true in Hz. rewrite list.filter_cons_True by done. cbn. f_equal.
      apply list_filter_iff_in. intros y Hy. rewrite list_lookup_alter_ne by set_solver. done.
    + rewrite Hr. f_equal. apply bool_decide_eq_false in Hz.
      rewrite list.filter_cons_False by done.
      apply list_filter_iff_in. intros y Hy. rewrite list_lookup_alter_ne by set_solver. done.
Qed.

(** *** Counting unmet dependencies *)

Definition unmet (done d : list nat) : nat := length (filter (fun j => j ∉ done) d).

Lemma unmet_zero done d : unmet done d = O <-> forall j, j ∈ d -> j ∈ done.
Proof.
  unfold unmet. induction d as [|j d IH]; [set_solver|].
  destruct (decide (j ∈ done)) as [Hj|Hj].
  - rewrite list.filter_cons_False by naive_solver. set_solver.
  - rewrite list.filter_cons_True by done. cbn. split; [done|]. set_solver.
Qed.

Lemma unmet_snoc done x d :
  NoDup d -> x ∉ done ->
  unmet (done ++ [x]) d = (if decide (x ∈ d) then pred else id) (unmet done d)
  /\ (x ∈ d -> unmet done d <> O).
Proof.
  intros Hnd Hx. split; [|intros Hin E; rewrite unmet_zero in E; auto].
  unfold unmet. induction Hnd as [|j d Hj Hnd IH]; [by case_decide|].
  destruct (decide (j = x)) as [->|Hne].
  - rewrite list.filter_cons_False by set_solver.
    rewrite list.filter_cons_True by done. rewrite decide_True by set_solver.
    rewrite decide_False in IH by done. cbn. exact IH.
  - destruct (decide (j ∈ done)).
    + rewrite !list.filter_cons_False by set_solver. rewrite IH.
      by repeat case_decide; set_solver.
    + rewrite !list.filter_cons_True by set_solver. cbn. rewrite IH.
      destruct (decide (x ∈ d)) as [Hxd|Hxd];
        [rewrite decide_True by set_solver|by rewrite decide_False by set_solver].
      assert (x ∈ filter (fun j => j ∉ done) d) by (apply list_elem_of_filter; set_solver).
      destruct (filter (fun j => j ∉ done) d); set_solver.
Qed.

(** *** The invariant of the loop: [done] are the nodes popped so far. *)

Record kahn_inv (done ready incoming : list nat) : Prop := {
  ki_nodup : NoDup (done ++ ready);
  ki_range : forall i, i ∈ done ++ ready -> (i < length deps)%nat;
  ki_incoming : forall i, incoming !! i = unmet done <$> deps !! i;
  ki_queued : forall i d, deps !! i = Some d ->
    i ∈ done ++ ready <-> forall j, j ∈ d -> j ∈ done;
  ki_topo : forall k i j, done !! k = Some i -> depends i j -> j ∈ take k done;
}.

Lemma kahn_inv_init : kahn_inv [] (zero_positions (incoming_of deps)) (incoming_of deps).
Proof.
  assert (forall i, incoming_of deps !! i = unmet [] <$> deps !! i) as Hinc.
  { intros i. unfold incoming_of. rewrite list_lookup_fmap. destruct (deps !! i) as [d|]; [|done].
    cbn. f_equal. unfold unmet. induction d as [|j d IH]; [done|].
    rewrite list.filter_cons_True by set_solver. cbn. by f_equal. }
  split.
  - cbn. apply list.NoDup_filter, NoDup_seq.
  - intros i (_ & Hi)%list_elem_of_filter. apply elem_of_seq in Hi.
    unfold incoming_of in Hi. rewrite length_fmap in Hi. lia.
  - exact Hinc.
  - intros i d Hd. cbn [app]. unfold zero_positions. rewrite list_elem_of_filter, Hinc, Hd. cbn.
    rewrite <- (unmet_zero [] d). split; [intros [[= H] _]; done|intros ->].
    split; [done|]. apply elem_of_seq. unfold incoming_of. rewrite length_fmap.
    apply lookup_lt_Some in Hd. lia.
  - intros k i j Hk. by rewrite lookup_nil in Hk.
Qed.

(** A count is positive whenever a dependent of a popped node is released. *)
Lemma release_positive done x ready incoming i :
  kahn_inv done (x :: ready) incoming -> depends i x ->
  exists c, incoming !! i = Some (S c).
Proof.
  intros [Hnd _ Hinc _ _] (d & Hd & Hx). rewrite Hinc, Hd. cbn.
  apply list.NoDup_app in Hnd as (_ & Hdisj & _).
  destruct (unmet done d) eqn:E; [|eauto]. exfalso. rewrite unmet_zero in E.
  apply (Hdisj x); [auto|left].
Qed.

(** The step for any list [l] of the dependents of [x]. *)
Lemma kahn_inv_release done x l ready incoming incoming' ready' :
  kahn_inv done (x :: ready) incoming -> NoDup l -> (forall i, i ∈ l <-> depends i x) ->
  foldl release (incoming, ready) l = (incoming', ready') ->
  kahn_inv (done ++ [x]) ready' incoming'.
Proof.
  intros [Hnd Hrange Hinc Hq Htopo] Hlnd Hlspec H. apply release_all_spec in H as [Hi ->]; [|done].
  assert (x ∉ done) as Hxd.
  { apply list.NoDup_app in Hnd as (_ & Hdisj & _). intros Hx. by apply (Hdisj x Hx); left. }
  assert (forall i, incoming' !! i = unmet (done ++ [x]) <$> deps !! i) as Hinc'.
  { intros i. rewrite Hi, Hinc. destruct (deps !! i) as [d|] eqn:Hd; [|done]. cbn. f_equal.
    rewrite (proj1 (unmet_snoc done x d ltac:(by apply (graph_ok_lookup i)) Hxd)).
    destruct (decide (i ∈ l)) as [Hil|Hil], (decide (x ∈ d)) as [Hx|Hx]; try done;
      rewrite Hlspec in Hil; exfalso.
    - destruct Hil as (d' & Hd' & Hx'). by simplify_eq.
    - apply Hil. by exists d. }
  assert (forall i, i ∈ filter (fun y => pred <$> incoming !! y = Some O) l <->
    exists d, deps !! i = Some d /\ x ∈ d /\ forall j, j ∈ d -> j ∈ done ++ [x]) as Hnew.
  { intros i. rewrite list_elem_of_filter, Hlspec. split.
    - intros (Hz & d & Hd & Hx). exists d. split_and!; try done. apply unmet_zero.
      rewrite Hinc, Hd in Hz. cbn in Hz. injection Hz as Hz.
      rewrite (proj1 (unmet_snoc done x d ltac:(by apply (graph_ok_lookup i)) Hxd)).
      by rewrite decide_True.
    - intros (d & Hd & Hx & Hall). split; [|by exists d]. rewrite Hinc, Hd. cbn. f_equal.
      apply unmet_zero in Hall.
      rewrite (proj1 (unmet_snoc done x d ltac:(by apply (graph_ok_lookup i)) Hxd)) in Hall.
      by rewrite decide_True in Hall. }
  split.
  - rewrite <- app_assoc. cbn [app]. rewrite app_comm_cons, app_assoc.
    apply list.NoDup_app. split_and!; [done| |by apply list.NoDup_filter].
    intros i Hqi (d & Hd & Hx & _)%Hnew. apply Hxd. by apply (Hq i d Hd).
  - intros i. rewrite <- app_assoc. cbn [app]. rewrite app_comm_cons, app_assoc, elem_of_app.
    intros [Hqi|(d & Hd & _)%Hnew]; [auto|]. by eapply lookup_lt_Some.
  - exact Hinc'.
  - intros i d Hd. rewrite <- app_assoc. cbn [app].
    rewrite app_comm_cons, app_assoc, elem_of_app, Hnew. specialize (Hq i d Hd). split.
    + intros [Hqi|(d' & Hd' & _ & Hall)]; [|by simplify_eq].
      intros j Hj. apply elem_of_app. left. by apply Hq.
    + intros Hall. destruct (decide (x ∈ d)) as [Hx|Hx]; [right; by exists d|].
      left. apply Hq. intros j Hj. apply Hall in Hj as Hjd. apply elem_of_app in Hjd as [?|Hjx]; [done|].
      apply list_elem_of_singleton in Hjx as ->. by apply Hx in Hj.
  - intros k i j Hk Hij. destruct (decide (k < length done)%nat).
    + rewrite lookup_app_l in Hk by done. rewrite take_app_le by lia. by eapply Htopo.
    + apply lookup_app_Some in Hk as [Hk|[Hge Hk]]; [apply lookup_lt_Some in Hk; lia|].
      rewrite take_app_ge by done. apply elem_of_app. left.
      apply list_lookup_singleton_Some in Hk as [_ <-].
      destruct Hij as (d & Hd & Hj). apply (Hq x d Hd); [apply elem_of_app; right; left|done].
Qed.

Lemma kahn_inv_step done x ready incoming incoming' ready' :
  kahn_inv done (x :: ready) incoming ->
  foldl release (incoming, ready) (default [] (dependents_of deps !! x)) = (incoming', ready') ->
  kahn_inv (done ++ [x]) ready' incoming'.
Proof.
  intros Hinv. destruct (dependents_of_spec x) as (l & Hl & Hlnd & Hlspec); [apply Hinv; set_solver|].
  rewrite Hl. by apply kahn_inv_release.
Qed.

(** *** The loop ends, and what its count says *)

Lemma nodup_range_length (l : list nat) n :
  NoDup l -> (forall i, i ∈ l -> (i < n)%nat) -> (length l <= n)%nat.
Proof.
  intros Hnd Hl. assert (length l <= length (seq 0 n))%nat; [|by rewrite length_seq in *].
  apply submseteq_length, NoDup_submseteq; [done|].
  intros i Hi. apply elem_of_seq. specialize (Hl i Hi). lia.
Qed.

Lemma nodup_range_full (l : list nat) n :
  NoDup l -> (forall i, i ∈ l -> (i < n)%nat) -> length l = n -> forall i, (i < n)%nat -> i ∈ l.
Proof.
  intros Hnd Hl Hn i Hi. destruct (decide (i ∈ l)) as [|Hni]; [done|].
  assert (length (i :: l) <= n)%nat; [|cbn in *; lia].
  apply nodup_range_length; [by apply list.NoDup_cons|].
  intros j [->|Hj]%elem_of_cons; auto.
Qed.

Lemma kahn_enough fuel done ready incoming :
  kahn_inv done ready incoming -> (length deps <= length done + fuel)%nat ->
  exists final incoming',
    kahn fuel (dependents_of deps) ready incoming (length done) = Some (length final)
    /\ kahn_inv final [] incoming'.
Proof.
  revert done ready incoming. induction fuel as [|fuel IH]; intros done ready incoming Hinv Hf;
    (destruct ready as [|x ready]; [by exists done, incoming|]).
  - exfalso. destruct Hinv as [Hnd Hr _ _ _]. apply nodup_range_length in Hr; [|done].
    rewrite length_app in Hr. cbn in Hr. lia.
  - cbn [kahn]. destruct (foldl release _ _) as [incoming' ready'] eqn:E.
    apply kahn_inv_step with (1 := Hinv) in E.
    destruct (IH _ _ _ E) as (final & inc & Hk & Hfin); [rewrite length_app; cbn; lia|].
    rewrite length_app in Hk. cbn in Hk. rewrite Nat.add_1_r in Hk. by exists final, inc.
Qed.

Lemma visited_count_spec :
  exists final incoming, visited_count deps = Some (length final) /\ kahn_inv final [] incoming.
Proof. apply (kahn_enough (length deps) []); [apply kahn_inv_init|cbn; lia]. Qed.

(** All nodes are visited exactly when the graph has no cycle. *)
Lemma kahn_final_acyclic final incoming : kahn_inv final [] incoming -> length final = length deps <-> acyclic.
Proof.
  intros [Hnd Hr _ Hq Ht]. rewrite app_nil_r in *. split.
  - intros Hn i Hi.
    assert (forall i j, tc depends i j -> forall k, final !! k = Some i ->
      exists m, (m < k)%nat /\ final !! m = Some j) as Hpos.
    { clear i Hi. intros i j Hij. induction Hij as [i j Hij|i j l Hij _ IH]; intros k Hk.
      - pose proof (Ht k i j Hk Hij) as Hj. apply list_elem_of_lookup in Hj as (m & Hm).
        apply lookup_take_Some in Hm as [Hm ?]. by exists m.
      - pose proof (Ht k i j Hk Hij) as Hj. apply list_elem_of_lookup in Hj as (m & Hm).
        apply lookup_take_Some in Hm as [Hm ?]. destruct (IH m Hm) as (m' & ? & ?).
        exists m'. split; [lia|done]. }
    assert (i < length deps)%nat as Hlt.
    { inversion Hi as [? ? Hd|? ? ? Hd _]; by apply depends_lt in Hd as [? _]. }
    pose proof (nodup_range_full final _ Hnd Hr Hn i Hlt) as Hin.
    apply list_elem_of_lookup in Hin as (k & Hk).
    destruct (Hpos i i Hi k Hk) as (m & Hm & Hm'). pose proof (NoDup_lookup _ _ _ _ Hnd Hk Hm').
    lia.
  - intros Hac. apply Nat.le_antisymm; [by apply nodup_range_length|].
    assert (forall i, (i < length deps)%nat -> i ∈ final) as Hall.
    { intros i Hi. assert (relations.sn depends i) as Hsn.
      { apply tc_finite_sn; [exact Hac|]. exists (seq 0 (length deps)).
        intros j Hj. apply elem_of_seq. split; [lia|].
        clear -Hj Hok. induction Hj as [i j Hij|]; [by apply depends_lt in Hij as [_ ?]|done]. }
      revert Hi. induction Hsn as [i _ IH]. intros Hi.
      destruct (lookup_lt_is_Some_2 deps i Hi) as [d Hd]. apply (Hq i d Hd).
      intros j Hj. apply IH; [by exists d|]. by apply (graph_ok_lookup i d Hd). }
    assert (length (seq 0 (length deps)) <= length final)%nat as Hle;
      [|by rewrite length_seq in Hle].
    apply submseteq_length, NoDup_submseteq; [apply NoDup_seq|].
    intros i Hi%elem_of_seq. apply Hall. lia.
Qed.

Lemma all_visited_acyclic : all_visited deps = true <-> acyclic.
Proof.
  unfold all_visited. rewrite bool_decide_eq_true. destruct visited_count_spec as (final & incoming & -> & Hinv).
  rewrite <- (kahn_final_acyclic _ _ Hinv). split; [by intros [= ->]|by intros ->].
Qed.
End Graph.
