(* ===== verification/Wire.v ===== *)
(** * Wire: typed readers and writers of ASON values

    [handshake.rs], [request.rs] and [capability.rs] each carry the same private
    helpers, which differ only in the error type they report.  The helpers are
    defined once over the interface [SchemaErrors]; each file's error type is an
    instance.  The facts say that a reader accepts exactly what the writer of
    the same name prints, which is what the round trips of the messages rest
    on. *)

From S2P Require Import Prelude Text AsonModel AsonCodec AsonScalarFacts.

(** The errors a message schema reports through the shared readers. *)
Class SchemaErrors (E : Type) : Type := {
  se_fields : E;
  se_columns : E;
  se_expected_scalar : string -> E;
  se_expected_record : string -> E;
  se_invalid_unsigned : string -> E;
  se_unexpected_value : string -> E;
  se_integer_range : string -> E;
}.

Section Readers.
Context {E : Type} `{SchemaErrors E}.

(** Same length, and equal position by position: [len() == len()] with
    [iter().zip(expected).all(..)]. *)
Definition same_names (names expected : list str) : bool :=
  (len names =? len expected)
  && forallb (fun '(name, e) => bool_decide (name = e)) (zip names expected).

Definition expect_fields (document : Document) (expected : list str) : result E unit :=
  if same_names (field_key <$> fields document) expected then Ok tt else Err se_fields.

Definition expect_columns (record : Rec) (expected : list str) : result E unit :=
  if same_names (rec_columns record) expected then Ok tt else Err se_columns.

Definition expect_table_columns (table : Table) (expected : list str) : result E unit :=
  if same_names (table_columns table) expected then Ok tt else Err se_columns.

Definition unsigned_atom (atom : Atom) (field : string) : result E Z :=
  match atom with
  | AText value =>
      if bool_decide (value = []) || negb (forallb is_ascii_digit (str_bytes value))
         || ((1 <? str_len value) && starts_with 48 value)
      then Err (se_invalid_unsigned field)
      else ok_or (parse_unsigned u64_max value) (se_invalid_unsigned field)
  | _ => Err (se_invalid_unsigned field)
  end.

Definition unsigned (value : option Value) (field : string) : result E Z :=
  match value with
  | Some (Scalar atom) => unsigned_atom atom field
  | _ => Err (se_expected_scalar field)
  end.

Definition unsigned_cell (cell : Cell) (field : string) : result E Z :=
  match cell with
  | CAtom atom => unsigned_atom atom field
  | CVector _ => Err (se_expected_scalar field)
  end.

Definition expect_unsigned (value : option Value) (field : string) (expected : Z)
    : result E unit :=
  n ← unsigned value field;
  if n =? expected then Ok tt else Err (se_unexpected_value field).

Definition expect_unsigned_cell (value : Cell) (field : string) (expected : Z)
    : result E unit :=
  n ← unsigned_cell value field;
  if n =? expected then Ok tt else Err (se_unexpected_value field).

Definition text (value : option Value) (field : string) : result E str :=
  match value with
  | Some (Scalar (AText value)) => Ok value
  | _ => Err (se_expected_scalar field)
  end.

Definition text_cell (cell : Cell) (field : string) : result E str :=
  match cell with
  | CAtom (AText value) => Ok value
  | _ => Err (se_expected_scalar field)
  end.

Definition record (value : option Value) (field : string) : result E Rec :=
  match value with
  | Some (VRecord record) => Ok record
  | _ => Err (se_expected_record field)
  end.

Definition narrow_u16 (value : Z) (field : string) : result E Z :=
  if value <=? u16_max then Ok value else Err (se_integer_range field).

Definition narrow_u32 (value : Z) (field : string) : result E Z :=
  if value <=? u32_max then Ok value else Err (se_integer_range field).
End Readers.

(** [&values[i]].  The constructors of records and tables give a row as many
    cells as there are columns, and the callers check the columns first, so the
    index is in range ([cell_at_in_range]); Rust would panic outside. *)
Definition cell_at (values : list Cell) (i : nat) : Cell := nth i values (CAtom Null).

(** ** Writers *)

Definition keys (values : list str) : result BuildError (list Key) := mapM Key_new values.

Definition scalar_field (key value : str) : result BuildError Field :=
  k ← Key_new key; Ok (mkField k (Scalar (AText value))).

Definition unsigned_value (value : Z) : Cell := CAtom (AText (to_string value)).
Definition text_value (value : str) : Cell := CAtom (AText value).

(** ** Facts *)

Lemma same_names_eq names expected : same_names names expected = true <-> names = expected.
Proof.
  unfold same_names. rewrite andb_true_iff, Z.eqb_eq. unfold len. split.
  - intros [Hl%Nat2Z.inj Hz]. revert expected Hl Hz.
    induction names as [|n names IH]; intros [|e expected] Hl Hz; try done.
    cbn in Hl, Hz. apply andb_true_iff in Hz as [->%bool_decide_eq_true Hz].
    f_equal. apply IH; [lia|done].
  - intros ->. split; [done|]. induction expected as [|e expected IH]; [done|].
    cbn. rewrite bool_decide_eq_true_2 by done. apply IH.
Qed.

Lemma keys_ok values : forallb is_valid_key values = true -> keys values = Ok values.
Proof.
  intros Hv. unfold keys. apply mapM_ok.
  induction values as [|v values IH]; [constructor|].
  cbn in Hv. apply andb_true_iff in Hv as [Hv Hvs].
  constructor; [by apply Key_new_ok|auto].
Qed.

Lemma cell_at_in_range (r : Rec) i :
  value_ok (VRecord r) = true -> (i < length (rec_columns r))%nat ->
  rec_values r !! i = Some (cell_at (rec_values r) i).
Proof.
  cbn [value_ok]. intros Hok Hi. zbool.
  match goal with H : len _ = len _ |- _ => unfold len in H end.
  destruct (nth_lookup_or_length (rec_values r) i (CAtom Null)); [done|lia].
Qed.

(** A document whose keys are [ks] is determined by what [get] says of each. *)
Lemma Document_get_all d ks vs :
  field_key <$> fields d = ks -> NoDup ks ->
  Forall2 (fun k v => Document_get d k = Some v) ks vs ->
  d = mkDocument (zip_with mkField ks vs).
Proof.
  destruct d as [fs]. unfold Document_get. cbn [fields]. intros <- Hnd H. f_equal.
  revert vs Hnd H. induction fs as [|[k v] fs IH]; intros vs Hnd H.
  - by inversion H.
  - cbn in Hnd, H. inversion H as [|? v' ? vs' Hv Hvs]; subst. cbn in Hv.
    rewrite bool_decide_eq_true_2 in Hv by done. injection Hv as <-. cbn. f_equal.
    apply list.NoDup_cons in Hnd as [Hk Hnd]. apply IH; [done|].
    clear -Hk Hvs. induction Hvs as [|k' v' ks vs Hv Hvs IH]; constructor.
    + cbn in Hv. case_bool_decide as E; [|done]. cbn in E. subst.
      exfalso. apply Hk. left.
    + apply IH. intros Hin. apply Hk. by right.
Qed.

Section ReaderFacts.
Context {E : Type} `{SchemaErrors E}.

Lemma expect_fields_ok document expected u :
  expect_fields document expected = Ok u <-> field_key <$> fields document = expected.
Proof.
  unfold expect_fields. rewrite <- same_names_eq. destruct u.
  destruct (same_names _ _); done.
Qed.

Lemma expect_columns_ok r expected u :
  expect_columns r expected = Ok u <-> rec_columns r = expected.
Proof.
  unfold expect_columns. rewrite <- same_names_eq. destruct u. destruct (same_names _ _); done.
Qed.

Lemma expect_table_columns_ok t expected u :
  expect_table_columns t expected = Ok u <-> table_columns t = expected.
Proof.
  unfold expect_table_columns. rewrite <- same_names_eq. destruct u.
  destruct (same_names _ _); done.
Qed.

(** Canonical decimals: exactly what [to_string] prints of a [u64]. *)
Lemma unsigned_atom_ok atom field n :
  unsigned_atom atom field = Ok n <-> atom = AText (to_string n) /\ 0 <= n <= u64_max.
Proof.
  unfold unsigned_atom. split.
  - destruct atom as [| |s]; try done. intros Hd. inv_ok.
    pose proof (parse_unsigned_range _ _ _ Hd). split; [|done]. f_equal. symmetry.
    eapply to_string_parse; [|done].
    apply orb_false_iff in Hc as [[Hne Hdig]%orb_false_iff Hz].
    apply negb_false_iff in Hdig. unfold canonical_decimal.
    rewrite digits_str_bytes, digits_str_len in * by done. by rewrite Hne, Hdig, Hz.
  - intros [-> Hn]. pose proof (to_string_canonical n ltac:(lia)) as Hc.
    unfold canonical_decimal in Hc. zbool.
    rewrite digits_str_bytes, digits_str_len by done.
    repeat match goal with H : _ = false |- _ => rewrite H
      | H : forallb _ _ = true |- _ => rewrite H end.
    cbn. by rewrite parse_to_string.
Qed.

Lemma unsigned_cell_ok cell field n :
  unsigned_cell cell field = Ok n <-> cell = unsigned_value n /\ 0 <= n <= u64_max.
Proof.
  unfold unsigned_cell, unsigned_value. destruct cell as [a|l].
  - rewrite unsigned_atom_ok. naive_solver.
  - naive_solver.
Qed.

Lemma unsigned_ok value field n :
  unsigned value field = Ok n <->
  value = Some (Scalar (AText (to_string n))) /\ 0 <= n <= u64_max.
Proof.
  unfold unsigned. destruct value as [[a| | |]|]; try (split; [done|naive_solver]).
  rewrite unsigned_atom_ok. naive_solver.
Qed.

Lemma expect_unsigned_ok value field n u :
  expect_unsigned value field n = Ok u <->
  value = Some (Scalar (AText (to_string n))) /\ 0 <= n <= u64_max.
Proof.
  destruct u. unfold expect_unsigned. rewrite bind_ok, <- (unsigned_ok _ field). split.
  - intros (m & ? & Hm). destruct (Z.eqb_spec m n); [by subst|done].
  - intros Hn. exists n. by rewrite Z.eqb_refl.
Qed.

Lemma expect_unsigned_cell_ok cell field n u :
  expect_unsigned_cell cell field n = Ok u <-> cell = unsigned_value n /\ 0 <= n <= u64_max.
Proof.
  destruct u. unfold expect_unsigned_cell. rewrite bind_ok, <- (unsigned_cell_ok _ field). split.
  - intros (m & ? & Hm). destruct (Z.eqb_spec m n); [by subst|done].
  - intros Hn. exists n. by rewrite Z.eqb_refl.
Qed.

Lemma text_ok value field s : text value field = Ok s <-> value = Some (Scalar (AText s)).
Proof. unfold text. destruct value as [[[]| | |]|]; naive_solver. Qed.

Lemma text_cell_ok cell field s : text_cell cell field = Ok s <-> cell = text_value s.
Proof. unfold text_cell, text_value. destruct cell as [[]|]; naive_solver. Qed.

Lemma record_ok value field r : record value field = Ok r <-> value = Some (VRecord r).
Proof. unfold record. destruct value as [[]|]; naive_solver. Qed.

Lemma narrow_u16_ok n field m : narrow_u16 n field = Ok m <-> n = m /\ n <= u16_max.
Proof. unfold narrow_u16. destruct (Z.leb_spec n u16_max); naive_solver lia. Qed.

Lemma narrow_u32_ok n field m : narrow_u32 n field = Ok m <-> n = m /\ n <= u32_max.
Proof. unfold narrow_u32. destruct (Z.leb_spec n u32_max); naive_solver lia. Qed.
End ReaderFacts.

Lemma scalar_field_ok key value :
  is_valid_key key = true -> scalar_field key value = Ok (mkField key (Scalar (AText value))).
Proof.
  intros Hk. unfold scalar_field. assert (Key_new key = Ok key) as -> by by apply Key_new_ok.
  done.
Qed.

(** Records and documents over a fixed schema. *)
Lemma Record_new_schema columns values :
  validate_columns columns = Ok tt -> length columns = length values ->
  Record_new columns values = Ok (mkRec columns values).
Proof.
  intros Hc Hl. unfold Record_new. rewrite Hc. cbn. unfold len. by rewrite Hl, Z.eqb_refl.
Qed.

Lemma Document_new_schema fs :
  fs <> [] -> NoDup (field_key <$> fs) -> Document_new fs = Ok (mkDocument fs).
Proof. intros. by apply Document_new_ok. Qed.

(** Reads off everything a successful sequence of readers says. *)
Ltac inv_readers :=
  repeat first
    [ progress inv_ok
    | match goal with
      | H : expect_fields _ _ = Ok _ |- _ => apply expect_fields_ok in H
      | H : expect_columns _ _ = Ok _ |- _ => apply expect_columns_ok in H
      | H : expect_table_columns _ _ = Ok _ |- _ => apply expect_table_columns_ok in H
      | H : unsigned_atom _ _ = Ok _ |- _ => apply unsigned_atom_ok in H as [? ?]
      | H : unsigned_cell _ _ = Ok _ |- _ => apply unsigned_cell_ok in H as [? ?]
      | H : unsigned _ _ = Ok _ |- _ => apply unsigned_ok in H as [? ?]
      | H : expect_unsigned _ _ _ = Ok _ |- _ => apply expect_unsigned_ok in H as [? ?]
      | H : expect_unsigned_cell _ _ _ = Ok _ |- _ => apply expect_unsigned_cell_ok in H as [? ?]
      | H : text _ _ = Ok _ |- _ => apply text_ok in H
      | H : text_cell _ _ = Ok _ |- _ => apply text_cell_ok in H
      | H : record _ _ = Ok _ |- _ => apply record_ok in H
      | H : narrow_u16 _ _ = Ok _ |- _ => apply narrow_u16_ok in H as [? ?]
      | H : narrow_u32 _ _ = Ok _ |- _ => apply narrow_u32_ok in H as [? ?]
      | u : unit |- _ => destruct u
      end ].

(** [d = D], for a document [D] over a fixed schema, from [d]'s keys and what
    [get] says of each of them. *)
Ltac document_from_gets Hkeys :=
  match goal with |- ?d = ?D =>
    transitivity (mkDocument (zip_with mkField (field_key <$> fields D) (field_value <$> fields D)));
    [ apply (Document_get_all d); [exact Hkeys|decide_closed|
        repeat (apply List.Forall2_cons; [eassumption|]); apply List.Forall2_nil]
    | reflexivity ]
  end.

(** ** Values of well-formed documents *)

Lemma Document_get_ok d k v :
  document_ok d = true -> Document_get d k = Some v -> value_ok v = true.
Proof.
  unfold document_ok, Document_get. intros Hok Hg. zbool.
  destruct (List.find _ (fields d)) as [f|] eqn:Hf; [|done]. injection Hg as <-.
  apply find_some in Hf as [Hf _].
  match goal with H : forallb _ (fields d) = true |- _ => rewrite forallb_forall in H;
    apply H, andb_true_iff in Hf as [_ ?] end. done.
Qed.

Lemma value_ok_record_length r :
  value_ok (VRecord r) = true -> length (rec_values r) = length (rec_columns r).
Proof. cbn [value_ok]. intros H. zbool. unfold len in *. lia. Qed.

(** A record over a fixed schema is determined by its cells. *)
Lemma record_from_cells r columns cells :
  rec_columns r = columns -> length (rec_values r) = length cells ->
  Forall2 (fun i c => cell_at (rec_values r) i = c) (seq 0 (length cells)) cells ->
  r = mkRec columns cells.
Proof.
  destruct r as [cs vs]. cbn. intros -> Hl H. f_equal.
  apply (nth_ext vs cells (CAtom Null) (CAtom Null) Hl). intros i Hi. unfold cell_at in H.
  rewrite Hl in Hi. destruct (lookup_lt_is_Some_2 cells i Hi) as [c Hc].
  assert (seq 0 (length cells) !! i = Some i) as Hs by (by apply lookup_seq_lt).
  rewrite (Forall2_lookup_lr _ _ _ i _ _ H Hs Hc).
  symmetry. by apply nth_lookup_Some.
Qed.

(** [r = mkRec columns cells] from the hypotheses on columns and cells. *)
Ltac record_from_cells_tac Hcols Hlen :=
  apply (record_from_cells _ _ _ Hcols);
    [rewrite Hlen, Hcols; reflexivity|];
  cbn [length seq]; repeat (apply List.Forall2_cons; [eassumption|]); apply List.Forall2_nil.

(** Runs a sequence of readers on a document built by the writers; the side
    conditions are the integer ranges. *)
Ltac solve_reader :=
  lazymatch goal with
  | |- expect_fields _ _ = Ok _ => apply expect_fields_ok; reflexivity
  | |- expect_columns _ _ = Ok _ => apply expect_columns_ok; reflexivity
  | |- expect_table_columns _ _ = Ok _ => apply expect_table_columns_ok; reflexivity
  | |- unsigned_atom _ _ = Ok _ => apply unsigned_atom_ok; split; [reflexivity|lia]
  | |- unsigned_cell _ _ = Ok _ => apply unsigned_cell_ok; split; [reflexivity|lia]
  | |- unsigned _ _ = Ok _ => apply unsigned_ok; split; [reflexivity|lia]
  | |- expect_unsigned _ _ _ = Ok _ => apply expect_unsigned_ok; split; [reflexivity|vm_compute; split; discriminate]
  | |- expect_unsigned_cell _ _ _ = Ok _ =>
      apply expect_unsigned_cell_ok; split;
        [reflexivity|vm_compute; split; discriminate]
  | |- text _ _ = Ok _ => apply text_ok; reflexivity
  | |- text_cell _ _ = Ok _ => apply text_cell_ok; reflexivity
  | |- record _ _ = Ok _ => apply record_ok; reflexivity
  | |- narrow_u16 _ _ = Ok _ => apply narrow_u16_ok; split; [reflexivity|lia]
  | |- narrow_u32 _ _ = Ok _ => apply narrow_u32_ok; split; [reflexivity|lia]
  | |- _ ≫= _ = Ok _ => apply bind_ok; first [exists tt|eexists]; split; [solve_reader|cbv beta; solve_reader]
  | |- _ => idtac
  end.
Ltac run_readers :=
  repeat lazymatch goal with
  | |- _ ≫= _ = Ok _ =>
      apply bind_ok; first [exists tt|eexists]; split; [solve_reader|cbv beta]
  end.
