(* ===== verification/Capability.v ===== *)
(** * Capability: operations, capability bits and approval values

    [operation.rs] and [capability.rs]: the single-byte operation identifiers,
    the masks the handshake negotiates, the approval challenge with its document
    and its fixed-size signing form, and the hexadecimal permit. *)

From S2P Require Import Prelude Text AsonModel AsonCodec AsonScalarFacts Wire.

(** ** operation.rs *)

Inductive Operation : Type :=
| OpExec | OpRead | OpList | OpSearch | OpPatch | OpFs | OpBatch
| RefBytes | RefLines | RefSearch | RefRelease | RefProject | RefMaterialize
| OpSnapshot | OpCancel.

#[export] Instance Operation_eq_dec : EqDecision Operation.
Proof. solve_decision. Defined.

Definition operation_id (o : Operation) : Z :=
  match o with
  | OpExec => 120 | OpRead => 114 | OpList => 108 | OpSearch => 103 | OpPatch => 112
  | OpFs => 102 | OpBatch => 98 | RefBytes => 47 | RefLines => 35 | RefSearch => 63
  | RefRelease => 45 | RefProject => 124 | RefMaterialize => 62 | OpSnapshot => 115
  | OpCancel => 107
  end.

Definition operation_from_id (id : Z) : option Operation :=
  if id =? 120 then Some OpExec
  else if id =? 114 then Some OpRead
  else if id =? 108 then Some OpList
  else if id =? 103 then Some OpSearch
  else if id =? 112 then Some OpPatch
  else if id =? 102 then Some OpFs
  else if id =? 98 then Some OpBatch
  else if id =? 47 then Some RefBytes
  else if id =? 35 then Some RefLines
  else if id =? 63 then Some RefSearch
  else if id =? 45 then Some RefRelease
  else if id =? 124 then Some RefProject
  else if id =? 62 then Some RefMaterialize
  else if id =? 115 then Some OpSnapshot
  else if id =? 107 then Some OpCancel
  else None.

Definition operation_mask (o : Operation) : Z :=
  match o with
  | OpExec => Z.shiftl 1 0
  | OpRead => Z.shiftl 1 1
  | OpList => Z.shiftl 1 2
  | OpSearch => Z.shiftl 1 3
  | OpPatch => Z.shiftl 1 4
  | OpFs => Z.shiftl 1 5
  | OpBatch => Z.shiftl 1 6
  | RefBytes | RefLines | RefSearch | RefRelease | RefProject | RefMaterialize => Z.shiftl 1 7
  | OpSnapshot => Z.shiftl 1 8
  | OpCancel => Z.shiftl 1 9
  end.

Definition is_reference_formula (o : Operation) : bool :=
  match o with
  | RefBytes | RefLines | RefSearch | RefRelease | RefProject | RefMaterialize => true
  | _ => false
  end.

Definition ALL_OPERATION_MASK : Z := Z.shiftl 1 10 - 1.

(** ** capability.rs *)

Inductive Capability : Type := WorkspaceRead | WorkspaceWrite | HostProcess | RetainedResult.

#[export] Instance Capability_eq_dec : EqDecision Capability.
Proof. solve_decision. Defined.

Definition capability_mask (c : Capability) : Z :=
  match c with
  | WorkspaceRead => Z.shiftl 1 0
  | WorkspaceWrite => Z.shiftl 1 1
  | HostProcess => Z.shiftl 1 2
  | RetainedResult => Z.shiftl 1 3
  end.

Definition ALL_CAPABILITY_MASK : Z := Z.shiftl 1 4 - 1.

(** [mask & !all] on [u64] *)
Definition mask_extra (mask all : Z) : Z := Z.ldiff mask all.

Inductive ApprovalValueError : Type :=
| AE_Fields
| AE_Version
| AE_Unsigned (field : string)
| AE_Capability
| AE_Digest
| AE_Token.

#[export] Instance ApprovalValueError_eq_dec : EqDecision ApprovalValueError.
Proof. solve_decision. Defined.

Definition CHALLENGE_FIELDS : list str :=
  [L "v"; L "s"; L "c"; L "e"; L "b"; L "p"; L "h"; L "n"].
Definition APPROVAL_CHALLENGE_VERSION : Z := 1.
Definition APPROVAL_SIGNING_BYTES : Z := 105.
Definition APPROVAL_TOKEN_BYTES : nat := 16 + 32.

Record ApprovalChallenge : Type := mkChallenge {
  ch_session_id : Z;
  ch_capabilities : Z;
  ch_expires_at_millis : Z;
  ch_session_binding : bytes;
  ch_policy_digest : bytes;
  ch_action_digest : bytes;
  ch_nonce : bytes;
}.

Definition zeros (n : nat) : bytes := replicate n 0.

Definition challenge_validate (c : ApprovalChallenge) : result ApprovalValueError unit :=
  if ch_session_id c =? 0 then Err (AE_Unsigned "s")
  else if (ch_capabilities c =? 0)
          || negb (mask_extra (ch_capabilities c) ALL_CAPABILITY_MASK =? 0)
  then Err AE_Capability
  else if ch_expires_at_millis c =? 0 then Err (AE_Unsigned "e")
  else if bool_decide (ch_session_binding c = zeros 16)
          || bool_decide (ch_policy_digest c = zeros 16)
          || bool_decide (ch_action_digest c = zeros 32)
          || bool_decide (ch_nonce c = zeros 16)
  then Err AE_Digest
  else Ok tt.

Definition challenge_new (session_id capabilities expires : Z)
    (binding policy action nonce : bytes) : result ApprovalValueError ApprovalChallenge :=
  let challenge := mkChallenge session_id capabilities expires binding policy action nonce in
  _ ← challenge_validate challenge;
  Ok challenge.

(** *** Hexadecimal *)

Definition hex_digit (n : Z) : char := if n <? 10 then 48 + n else 87 + n.

Definition encode_hex (b : bytes) : str :=
  b ≫= fun byte => [hex_digit (Z.shiftr byte 4); hex_digit (Z.land byte 15)].

Definition hex_nibble (byte : Z) : result ApprovalValueError Z :=
  if (48 <=? byte) && (byte <=? 57) then Ok (byte - 48)
  else if (97 <=? byte) && (byte <=? 102) then Ok (byte - 97 + 10)
  else Err AE_Token.

(** The loop over [chunks_exact(2)]. *)
Fixpoint decode_hex_loop (b : bytes) : result ApprovalValueError bytes :=
  match b with
  | h :: l :: b =>
      high ← hex_nibble h;
      low ← hex_nibble l;
      byte ← ok_or (checked_add u8_max (high * 16) low) AE_Token;
      rest ← decode_hex_loop b;
      Ok (byte :: rest)
  | _ => Ok []
  end.

Definition decode_hex_array (n : nat) (value : str) : result ApprovalValueError bytes :=
  if negb (str_len value =? Z.of_nat n * 2) then Err AE_Token
  else decode_hex_loop (str_bytes value).

(** *** The challenge document *)

Definition challenge_scalar (document : Document) (key : str) : result ApprovalValueError str :=
  match Document_get document key with
  | Some (Scalar (AText value)) => Ok value
  | _ => Err AE_Fields
  end.

(** [str::parse::<u64>] followed by the comparison with the canonical text; the
    field name in the error is that of the caller. *)
Definition canonical_u64 (document : Document) (key : str) (name : string)
    : result ApprovalValueError Z :=
  text ← challenge_scalar document key;
  value ← ok_or (parse_unsigned u64_max text) (AE_Unsigned name);
  if bool_decide (to_string value = text) then Ok value else Err (AE_Unsigned name).

Definition challenge_decode (document : Document)
    : result ApprovalValueError ApprovalChallenge :=
  if negb (same_names (field_key <$> fields document) CHALLENGE_FIELDS) then Err AE_Fields
  else
    version ← canonical_u64 document (L "v") "v";
    if negb (version =? APPROVAL_CHALLENGE_VERSION) then Err AE_Version
    else
      s ← canonical_u64 document (L "s") "s";
      c ← canonical_u64 document (L "c") "c";
      e ← canonical_u64 document (L "e") "e";
      b ← challenge_scalar document (L "b") ≫= decode_hex_array 16;
      p ← challenge_scalar document (L "p") ≫= decode_hex_array 16;
      h ← challenge_scalar document (L "h") ≫= decode_hex_array 32;
      n ← challenge_scalar document (L "n") ≫= decode_hex_array 16;
      challenge_new s c e b p h n.

Definition challenge_encode (c : ApprovalChallenge) : result BuildError Document :=
  v ← scalar_field (L "v") (to_string APPROVAL_CHALLENGE_VERSION);
  s ← scalar_field (L "s") (to_string (ch_session_id c));
  cap ← scalar_field (L "c") (to_string (ch_capabilities c));
  e ← scalar_field (L "e") (to_string (ch_expires_at_millis c));
  b ← scalar_field (L "b") (encode_hex (ch_session_binding c));
  p ← scalar_field (L "p") (encode_hex (ch_policy_digest c));
  h ← scalar_field (L "h") (encode_hex (ch_action_digest c));
  n ← scalar_field (L "n") (encode_hex (ch_nonce c));
  Document_new [v; s; cap; e; b; p; h; n].

(** *** The signing form *)

Definition signing_bytes (c : ApprovalChallenge) : bytes :=
  [APPROVAL_CHALLENGE_VERSION]
  ++ to_be_bytes 8 (ch_session_id c)
  ++ to_be_bytes 8 (ch_capabilities c)
  ++ to_be_bytes 8 (ch_expires_at_millis c)
  ++ ch_session_binding c ++ ch_policy_digest c ++ ch_action_digest c ++ ch_nonce c.

(** Every [try_into] of a slice has the right length, so its error branch is
    never taken. *)
Definition from_signing_bytes (b : bytes) : result ApprovalValueError ApprovalChallenge :=
  if negb (nth 0 b 0 =? APPROVAL_CHALLENGE_VERSION) then Err AE_Version
  else challenge_new (from_be_bytes (slice b 1 9)) (from_be_bytes (slice b 9 17))
         (from_be_bytes (slice b 17 25)) (slice b 25 41) (slice b 41 57) (slice b 57 89)
         (slice b 89 105).

(** *** The permit *)

(** [ApprovalToken] is its 48 bytes. *)
Definition token_parse (value : str) : result ApprovalValueError bytes :=
  decode_hex_array APPROVAL_TOKEN_BYTES value.
Definition token_encode (token : bytes) : str := encode_hex token.

(** ** Facts *)

Lemma operation_from_id_id o : operation_from_id (operation_id o) = Some o.
Proof. by destruct o. Qed.

Lemma operation_from_id_Some id o : operation_from_id id = Some o -> operation_id o = id.
Proof.
  unfold operation_from_id.
  repeat match goal with |- context [if id =? ?k then _ else _] =>
    destruct (Z.eqb_spec id k); [by intros [= <-]|] end.
  done.
Qed.

Lemma operation_id_ascii o : 33 <= operation_id o < 127.
Proof. destruct o; cbn; lia. Qed.

(** *** Hexadecimal *)

Lemma hex_digit_ascii n : 0 <= n < 16 -> 0 <= hex_digit n < 128.
Proof. unfold hex_digit. destruct (Z.ltb_spec n 10); lia. Qed.

Lemma hex_nibble_digit n : 0 <= n < 16 -> hex_nibble (hex_digit n) = Ok n.
Proof.
  intros Hn. unfold hex_nibble, hex_digit. destruct (Z.ltb_spec n 10).
  - destruct (Z.leb_spec 48 (48 + n)), (Z.leb_spec (48 + n) 57); try lia. cbn. f_equal. lia.
  - destruct (Z.leb_spec 48 (87 + n)), (Z.leb_spec (87 + n) 57); try lia. cbn.
    destruct (Z.leb_spec 97 (87 + n)), (Z.leb_spec (87 + n) 102); try lia. cbn. f_equal. lia.
Qed.

Lemma hex_nibble_inv c n : hex_nibble c = Ok n -> 0 <= n < 16 /\ c = hex_digit n.
Proof.
  unfold hex_nibble, hex_digit.
  destruct ((48 <=? c) && (c <=? 57)) eqn:E1; [|destruct ((97 <=? c) && (c <=? 102)) eqn:E2];
    intros [= <-]; zbool.
  - destruct (Z.ltb_spec (c - 48) 10); lia.
  - destruct (Z.ltb_spec (c - 97 + 10) 10); lia.
Qed.

Lemma byte_nibbles b : byte_ok b = true ->
  0 <= Z.shiftr b 4 < 16 /\ 0 <= Z.land b 15 < 16 /\ Z.shiftr b 4 * 16 + Z.land b 15 = b.
Proof.
  unfold byte_ok. intros Hb. zbool. rewrite Z.shiftr_div_pow2 by lia.
  change 15 with (Z.ones 4). rewrite Z.land_ones by lia. change (2 ^ 4) with 16.
  pose proof (Z.div_mod b 16). pose proof (Z.mod_pos_bound b 16).
  split_and!; lia.
Qed.

Lemma nibbles_byte h l : 0 <= h < 16 -> 0 <= l < 16 ->
  byte_ok (h * 16 + l) = true
  /\ Z.shiftr (h * 16 + l) 4 = h /\ Z.land (h * 16 + l) 15 = l.
Proof.
  intros Hh Hl. unfold byte_ok. rewrite Z.shiftr_div_pow2 by lia.
  change 15 with (Z.ones 4). rewrite Z.land_ones by lia. change (2 ^ 4) with 16.
  split_and!; [lia| |].
  - rewrite Z.div_add_l, Z.div_small by lia. lia.
  - rewrite Z.add_comm, Z.mod_add, Z.mod_small by lia. done.
Qed.

Lemma encode_hex_cons b l :
  encode_hex (b :: l) = hex_digit (Z.shiftr b 4) :: hex_digit (Z.land b 15) :: encode_hex l.
Proof. done. Qed.

Lemma encode_hex_ascii l :
  forallb byte_ok l = true -> forallb (fun c => (0 <=? c) && (c <? 128)) (encode_hex l) = true.
Proof.
  induction l as [|b l IH]; [done|]. cbn [forallb].
  intros [Hb Hl]%andb_true_iff. rewrite encode_hex_cons. cbn [forallb]. rewrite IH by done.
  apply byte_nibbles in Hb as (H1%hex_digit_ascii & H2%hex_digit_ascii & _). lia.
Qed.

Lemma ascii_str_bytes s :
  forallb (fun c => (0 <=? c) && (c <? 128)) s = true -> str_bytes s = s.
Proof.
  induction s as [|c s IH]; [done|]. cbn [forallb]. intros [Hc Hs]%andb_true_iff.
  rewrite str_bytes_cons, IH by done. unfold encode_utf8.
  by apply andb_true_iff in Hc as [_ ->].
Qed.

Lemma decode_hex_loop_encode l :
  forallb byte_ok l = true -> decode_hex_loop (encode_hex l) = Ok l.
Proof.
  induction l as [|b l IH]; [done|]. cbn [forallb]. intros [Hb Hl]%andb_true_iff.
  rewrite encode_hex_cons. cbn [decode_hex_loop].
  pose proof (byte_nibbles b Hb) as (H1 & H2 & H3). unfold byte_ok in Hb. zbool.
  rewrite !hex_nibble_digit by done. cbn [mbind result_bind].
  unfold checked_add. rewrite H3. destruct (Z.leb_spec b u8_max); [|lia].
  cbn [ok_or mbind result_bind]. rewrite IH by done. done.
Qed.

Lemma len_encode_hex l : len (encode_hex l) = len l * 2.
Proof. induction l as [|b l IH]; [done|]. rewrite encode_hex_cons, !len_cons, IH. lia. Qed.

Lemma decode_hex_array_encode n l :
  length l = n -> forallb byte_ok l = true -> decode_hex_array n (encode_hex l) = Ok l.
Proof.
  intros Hn Hl. unfold decode_hex_array, str_len.
  rewrite ascii_str_bytes, len_encode_hex by by apply encode_hex_ascii.
  unfold len. rewrite Hn, Z.eqb_refl. by apply decode_hex_loop_encode.
Qed.

(** The bytes of a text that are all ASCII are the text. *)
Lemma str_bytes_ascii_inv s b :
  str_bytes s = b -> forallb (fun c => (0 <=? c) && (c <? 128)) b = true -> s = b.
Proof.
  intros <- Hb. rewrite forallb_str_bytes in Hb; [|intros x; lia].
  symmetry. by apply ascii_str_bytes.
Qed.

Lemma decode_hex_loop_inv b l :
  Nat.Even (length b) -> decode_hex_loop b = Ok l ->
  b = encode_hex l /\ forallb byte_ok l = true.
Proof.
  revert l. induction b as [b IH] using list_length_ind. intros l He H.
  destruct b as [|h [|x b]].
  - cbn in H. by injection H as <-.
  - by apply Nat.even_spec in He.
  - cbn in H. inv_ok.
    repeat match goal with H : hex_nibble _ = Ok _ |- _ => apply hex_nibble_inv in H as [? ->] end.
    match goal with H : checked_add _ _ _ = Some _ |- _ => apply checked_add_Some in H as [-> ?] end.
    match goal with H : decode_hex_loop b = Ok _ |- _ => apply IH in H as [-> ?] end;
      [|cbn; lia|apply Nat.even_spec in He; by apply Nat.even_spec].
    subst l. rewrite encode_hex_cons. cbn [forallb].
    match goal with H : 0 <= ?h < 16, H' : 0 <= ?l < 16 |- context [?h * 16 + ?l] =>
      destruct (nibbles_byte h l H H') as (-> & -> & ->) end.
    done.
Qed.

Lemma decode_hex_array_inv n s l :
  decode_hex_array n s = Ok l -> s = encode_hex l /\ length l = n /\ forallb byte_ok l = true.
Proof.
  unfold decode_hex_array. intros H. inv_ok. apply negb_false_iff, Z.eqb_eq in Hc.
  assert (Nat.Even (length (str_bytes s))) as He.
  { exists n. unfold str_len, len in Hc. lia. }
  apply decode_hex_loop_inv in H as [Hs Hb]; [|done].
  assert (s = encode_hex l) as ->.
  { apply str_bytes_ascii_inv; [done|]. by apply encode_hex_ascii. }
  unfold str_len in Hc. rewrite Hs, len_encode_hex in Hc. unfold len in Hc.
  split_and!; [done|lia|done].
Qed.

(** *** Challenges *)

(** What the types of the fields guarantee: [u64]s and byte arrays. *)
Definition array_ok (n : nat) (b : bytes) : bool := bool_decide (length b = n) && forallb byte_ok b.
Definition challenge_ok (c : ApprovalChallenge) : bool :=
  u64_ok (ch_session_id c) && u64_ok (ch_capabilities c) && u64_ok (ch_expires_at_millis c)
  && array_ok 16 (ch_session_binding c) && array_ok 16 (ch_policy_digest c)
  && array_ok 32 (ch_action_digest c) && array_ok 16 (ch_nonce c).

Lemma array_ok_eq n b : array_ok n b = true <-> length b = n /\ forallb byte_ok b = true.
Proof. unfold array_ok. by rewrite andb_true_iff, bool_decide_eq_true. Qed.

Definition challenge_document (c : ApprovalChallenge) : Document :=
  mkDocument
    [mkField (L "v") (Scalar (AText (to_string 1)));
     mkField (L "s") (Scalar (AText (to_string (ch_session_id c))));
     mkField (L "c") (Scalar (AText (to_string (ch_capabilities c))));
     mkField (L "e") (Scalar (AText (to_string (ch_expires_at_millis c))));
     mkField (L "b") (Scalar (AText (encode_hex (ch_session_binding c))));
     mkField (L "p") (Scalar (AText (encode_hex (ch_policy_digest c))));
     mkField (L "h") (Scalar (AText (encode_hex (ch_action_digest c))));
     mkField (L "n") (Scalar (AText (encode_hex (ch_nonce c))))].

Lemma challenge_encode_eq c : challenge_encode c = Ok (challenge_document c).
Proof.
  unfold challenge_encode. rewrite !scalar_field_ok by done. cbn [mbind result_bind].
  rewrite Document_new_schema; [done|done|]. cbn [fmap list_fmap field_key].
  decide_closed.
Qed.

Lemma challenge_new_ok s c e b p h n ch :
  challenge_new s c e b p h n = Ok ch <->
  ch = mkChallenge s c e b p h n /\ challenge_validate ch = Ok tt.
Proof.
  unfold challenge_new. rewrite bind_ok. split.
  - intros ([] & Hv & [= <-]). done.
  - intros [-> Hv]. by exists tt.
Qed.

Lemma challenge_scalar_ok d key s :
  challenge_scalar d key = Ok s <-> Document_get d key = Some (Scalar (AText s)).
Proof. unfold challenge_scalar. destruct (Document_get d key) as [[[]| | |]|]; naive_solver. Qed.

Lemma canonical_u64_ok d key name n :
  canonical_u64 d key name = Ok n <->
  Document_get d key = Some (Scalar (AText (to_string n))) /\ u64_ok n = true.
Proof.
  unfold canonical_u64, u64_ok. split.
  - intros H. inv_ok. subst. apply bool_decide_eq_true in Hc as <-.
    match goal with H : challenge_scalar _ _ = _ |- _ => apply challenge_scalar_ok in H end.
    split; [done|].
    match goal with H : parse_unsigned _ _ = _ |- _ => apply parse_unsigned_range in H end. lia.
  - intros [Hd Hn]. assert (challenge_scalar d key = Ok (to_string n)) as -> by
      by apply challenge_scalar_ok.
    zbool. cbn. rewrite parse_to_string by done. cbn. by rewrite bool_decide_eq_true_2.
Qed.

(** Reading a challenge and printing it are inverse. *)
Lemma challenge_decode_ok d c :
  challenge_decode d = Ok c <->
  d = challenge_document c /\ challenge_ok c = true /\ challenge_validate c = Ok tt.
Proof.
  unfold challenge_decode. split.
  - intros H. inv_ok. apply negb_false_iff, same_names_eq in Hc.
    repeat match goal with
    | H : canonical_u64 _ _ _ = Ok _ |- _ => apply canonical_u64_ok in H as [? ?]
    | H : challenge_scalar _ _ = Ok _ |- _ => apply challenge_scalar_ok in H
    | H : decode_hex_array _ _ = Ok _ |- _ => apply decode_hex_array_inv in H as (? & ? & ?)
    end.
    apply negb_false_iff, Z.eqb_eq in Hc0. apply challenge_new_ok in H as [-> Hv].
    split_and!; [|unfold challenge_ok; cbn; subst; by rewrite !andb_true_iff, !array_ok_eq|done].
    subst. document_from_gets Hc.
  - intros (-> & Hok & Hv). unfold challenge_ok in Hok.
    rewrite !andb_true_iff, !array_ok_eq in Hok. destruct_and!.
    assert (forall key name n, u64_ok n = true ->
      Document_get (challenge_document c) key = Some (Scalar (AText (to_string n))) ->
      canonical_u64 (challenge_document c) key name = Ok n) as Hu.
    { intros. by apply canonical_u64_ok. }
    assert (forall key n b, length b = n -> forallb byte_ok b = true ->
      Document_get (challenge_document c) key = Some (Scalar (AText (encode_hex b))) ->
      challenge_scalar (challenge_document c) key ≫= decode_hex_array n = Ok b) as Hb.
    { intros key n b Hn Hb Hg. apply challenge_scalar_ok in Hg as ->. cbn.
      by apply decode_hex_array_encode. }
    rewrite (Hu (L "v") _ 1), (Hu (L "s") _ (ch_session_id c)), (Hu (L "c") _ (ch_capabilities c)),
      (Hu (L "e") _ (ch_expires_at_millis c)) by done.
    cbn [mbind result_bind].
    rewrite (Hb (L "b") _ (ch_session_binding c)), (Hb (L "p") _ (ch_policy_digest c)),
      (Hb (L "h") _ (ch_action_digest c)), (Hb (L "n") _ (ch_nonce c)) by done.
    cbn [mbind result_bind]. apply challenge_new_ok. by destruct c.
Qed.

(** *** The signing form is a bijection onto the valid 105-byte strings *)

(** A field of the signing form, by skipping the ones before it. *)
Ltac signing_slice :=
  unfold signing_bytes;
  repeat (rewrite slice_skip by (rewrite ?length_to_be_bytes; cbn [length]; lia));
  rewrite ?length_to_be_bytes; cbn [length];
  repeat match goal with H : length _ = _ |- _ => rewrite H end; cbn [Nat.sub];
  first [apply slice_head | apply slice_all]; rewrite ?length_to_be_bytes; done.

Lemma from_signing_bytes_ok b c :
  length b = 105%nat -> forallb byte_ok b = true ->
  from_signing_bytes b = Ok c <->
  signing_bytes c = b /\ challenge_ok c = true /\ challenge_validate c = Ok tt.
Proof.
  intros Hl Hb. unfold from_signing_bytes. split.
  - intros H. inv_ok. apply negb_false_iff, Z.eqb_eq in Hc.
    apply challenge_new_ok in H as [-> Hv].
    assert (forall i, (i + 8 <= 105)%nat ->
      u64_ok (from_be_bytes (slice b i (i + 8))) = true
      /\ to_be_bytes 8 (from_be_bytes (slice b i (i + 8))) = slice b i (i + 8)) as Hu.
    { intros i Hi. apply u64_be; [rewrite length_slice; lia|by apply slice_bytes]. }
    destruct (Hu 1%nat ltac:(lia)) as [Hu1 Hs1], (Hu 9%nat ltac:(lia)) as [Hu2 Hs2],
      (Hu 17%nat ltac:(lia)) as [Hu3 Hs3]. cbn [Nat.add] in *.
    split_and!; [|unfold challenge_ok; cbn -[slice from_be_bytes]|done].
    + unfold signing_bytes. cbn [ch_session_id ch_capabilities ch_expires_at_millis
        ch_session_binding ch_policy_digest ch_action_digest ch_nonce].
      rewrite Hs1, Hs2, Hs3, !slice_cat by lia.
      destruct b as [|x b]; [done|]. cbn in Hc. subst x. cbn in Hl.
      unfold slice. cbn [drop Nat.sub].
      by rewrite drop_0, take_ge by lia.
    + rewrite Hu1, Hu2, Hu3. cbn [andb]. rewrite !andb_true_iff, !array_ok_eq.
      split_and!; (apply slice_bytes; done) || (rewrite length_slice; lia).
  - intros (<- & Hok & Hv). unfold challenge_ok, u64_ok in Hok.
    rewrite !andb_true_iff, !array_ok_eq in Hok. destruct_and!. zbool.
    assert (nth 0 (signing_bytes c) 0 =? APPROVAL_CHALLENGE_VERSION = true) as -> by done.
    cbn [negb].
    assert (slice (signing_bytes c) 1 9 = to_be_bytes 8 (ch_session_id c)) as -> by signing_slice.
    assert (slice (signing_bytes c) 9 17 = to_be_bytes 8 (ch_capabilities c)) as ->
      by signing_slice.
    assert (slice (signing_bytes c) 17 25 = to_be_bytes 8 (ch_expires_at_millis c)) as ->
      by signing_slice.
    assert (slice (signing_bytes c) 25 41 = ch_session_binding c) as -> by signing_slice.
    assert (slice (signing_bytes c) 41 57 = ch_policy_digest c) as -> by signing_slice.
    assert (slice (signing_bytes c) 57 89 = ch_action_digest c) as -> by signing_slice.
    assert (slice (signing_bytes c) 89 105 = ch_nonce c) as -> by signing_slice.
    rewrite !from_to_be_bytes by (change (256 ^ Z.of_nat 8) with 18446744073709551616; lia).
    apply challenge_new_ok. by destruct c.
Qed.

Lemma signing_bytes_shape c :
  challenge_ok c = true -> length (signing_bytes c) = 105%nat
  /\ forallb byte_ok (signing_bytes c) = true.
Proof.
  unfold challenge_ok. rewrite !andb_true_iff, !array_ok_eq. intros H. destruct_and!.
  unfold signing_bytes. rewrite !length_app, !forallb_app, !length_to_be_bytes, !to_be_bytes_ok.
  split; [cbn [length]; lia|].
  repeat match goal with H : forallb byte_ok _ = true |- _ => rewrite H; clear H end. done.
Qed.
