(* ===== verification/Frame.v ===== *)
(** * Frame: length-prefixed frames

    [frame.rs].  The byte streams are the caller's ([tokio::io::AsyncRead] and
    [AsyncWrite]): two interfaces give their one operation each, and two more
    state what the traits document of a well-behaved stream.  The codec is
    written against the operations; its theorems hold of every stream that
    satisfies the laws, however it cuts its bytes into chunks. *)

From S2P Require Import Prelude Text AsonModel AsonCodec AsonScalarFacts AsonFacts AsonSound.

Definition HARD_MAX_FRAME_BYTES : Z := 8 * 1024 * 1024.
Definition DEFAULT_MAX_FRAME_BYTES : Z := 1024 * 1024.

Inductive FrameError (IoError : Type) : Type :=
| FE_InvalidLimit (requested hard_max : Z)
| FE_ZeroLength
| FE_PayloadTooLarge (declared max : Z)
| FE_TruncatedPrefix (received : Z)
| FE_TruncatedPayload (expected received : Z)
| FE_Io (e : IoError).
Arguments FE_InvalidLimit {IoError}.
Arguments FE_ZeroLength {IoError}.
Arguments FE_PayloadTooLarge {IoError}.
Arguments FE_TruncatedPrefix {IoError}.
Arguments FE_TruncatedPayload {IoError}.
Arguments FE_Io {IoError}.

Inductive ProtocolReadError (IoError : Type) : Type :=
| PE_Frame (e : FrameError IoError)
| PE_InvalidUtf8 (valid_up_to : Z)
| PE_Ason (e : DecodeError)
| PE_NonCanonical.
Arguments PE_Frame {IoError}.
Arguments PE_InvalidUtf8 {IoError}.
Arguments PE_Ason {IoError}.
Arguments PE_NonCanonical {IoError}.

Record FrameCodec : Type := mkCodec { max_payload : Z }.

Definition FrameCodec_default : FrameCodec := mkCodec DEFAULT_MAX_FRAME_BYTES.

Definition FrameCodec_new {IoError} (max_payload : Z) : result (FrameError IoError) FrameCodec :=
  if (max_payload =? 0) || (HARD_MAX_FRAME_BYTES <? max_payload)
  then Err (FE_InvalidLimit max_payload HARD_MAX_FRAME_BYTES)
  else Ok (mkCodec max_payload).

(** ** Streams *)

(** [AsyncReadExt::read] into a buffer of [n] bytes: the bytes read and the
    stream after the call. *)
Class AsyncRead (R IoError : Type) : Type :=
  poll_read : R -> nat -> result IoError bytes * R.

(** [AsyncWriteExt::write_all]. *)
Class AsyncWrite (W IoError : Type) : Type :=
  write_all : W -> bytes -> result IoError unit * W.

(** What a read loop ended with: a full buffer, or EOF after some bytes. *)
Inductive Fill : Type := Filled (buffer : bytes) | Eof (received : Z).

Section Reader.
Context {R IoError : Type} `{AsyncRead R IoError}.

(** The loops [while filled < buffer.len()] of [read_frame].  Every turn but the
    last reads a byte, so [want] turns are enough ([fill_fuel]). *)
Fixpoint fill (fuel want : nat) (buffer : bytes) (reader : R) : result IoError Fill * R :=
  if bool_decide (length buffer < want)%nat then
    match fuel with
    | O => (Ok (Eof (len buffer)), reader)
    | S fuel =>
        match poll_read reader (want - length buffer) with
        | (Err e, reader) => (Err e, reader)
        | (Ok [], reader) => (Ok (Eof (len buffer)), reader)
        | (Ok chunk, reader) => fill fuel want (buffer ++ chunk) reader
        end
    end
  else (Ok (Filled buffer), reader).

Definition read_frame (codec : FrameCodec) (reader : R)
    : result (FrameError IoError) (option bytes) * R :=
  match fill 4 4 [] reader with
  | (Err e, reader) => (Err (FE_Io e), reader)
  | (Ok (Eof received), reader) =>
      (if received =? 0 then Ok None else Err (FE_TruncatedPrefix received), reader)
  | (Ok (Filled prefix), reader) =>
      let length := from_be_bytes prefix in
      if length =? 0 then (Err FE_ZeroLength, reader)
      else if max_payload codec <? length
      then (Err (FE_PayloadTooLarge length (max_payload codec)), reader)
      else
        match fill (Z.to_nat length) (Z.to_nat length) [] reader with
        | (Err e, reader) => (Err (FE_Io e), reader)
        | (Ok (Eof received), reader) => (Err (FE_TruncatedPayload length received), reader)
        | (Ok (Filled payload), reader) => (Ok (Some payload), reader)
        end
  end.

Definition read_document (codec : FrameCodec) (reader : R) (limits : Limits)
    : result (ProtocolReadError IoError) (option Document) * R :=
  match read_frame codec reader with
  | (Err e, reader) => (Err (PE_Frame e), reader)
  | (Ok None, reader) => (Ok None, reader)
  | (Ok (Some payload), reader) =>
      (text ← map_err PE_InvalidUtf8 (from_utf8 payload);
       document ← map_err PE_Ason (decode_with_limits text limits);
       if negb (bool_decide (str_bytes (encode document) = payload)) then Err PE_NonCanonical
       else Ok (Some document), reader)
  end.
End Reader.

Section Writer.
Context {W IoError : Type} `{AsyncWrite W IoError}.

Definition write_frame (codec : FrameCodec) (writer : W) (payload : bytes)
    : result (FrameError IoError) unit * W :=
  if bool_decide (payload = []) then (Err FE_ZeroLength, writer)
  else if max_payload codec <? len payload
  then (Err (FE_PayloadTooLarge (len payload) (max_payload codec)), writer)
  else if u32_max <? len payload
  then (Err (FE_PayloadTooLarge (len payload) (max_payload codec)), writer)
  else
    match write_all writer (to_be_bytes 4 (len payload)) with
    | (Err e, writer) => (Err (FE_Io e), writer)
    | (Ok _, writer) =>
        match write_all writer payload with
        | (Err e, writer) => (Err (FE_Io e), writer)
        | (Ok _, writer) => (Ok tt, writer)
        end
    end.

Definition write_document (codec : FrameCodec) (writer : W) (document : Document)
    : result (FrameError IoError) unit * W :=
  write_frame codec writer (str_bytes (encode document)).
End Writer.

(** ** The laws of a well-behaved stream

    [pending r] is what the stream still has to deliver.  A read into a
    non-empty buffer delivers a prefix of it that fits the buffer, and nothing
    only at the end; [written w] is what has reached the other side. *)
Class ReadLaws (R IoError : Type) `{AsyncRead R IoError} : Type := {
  pending : R -> bytes;
  poll_read_spec : forall r n, (0 < n)%nat ->
    exists chunk r', poll_read r n = (Ok chunk, r')
      /\ pending r = chunk ++ pending r' /\ (length chunk <= n)%nat
      /\ (chunk = [] -> pending r = []);
}.

Class WriteLaws (W IoError : Type) `{AsyncWrite W IoError} : Type := {
  written : W -> bytes;
  write_all_spec : forall w b, exists w', write_all w b = (Ok tt, w')
      /\ written w' = written w ++ b;
}.

(** *** A stream that delivers given chunks, and a buffer *)

Fixpoint chunks_read (cs : list bytes) (n : nat) : bytes * list bytes :=
  match cs with
  | [] => ([], [])
  | [] :: cs => chunks_read cs n
  | c :: cs => (take n c, match drop n c with [] => cs | rest => rest :: cs end)
  end.

Definition Chunks : Type := list bytes.
#[export] Instance Chunks_read : AsyncRead Chunks unit := fun cs n =>
  let '(chunk, cs) := chunks_read cs n in (Ok chunk, cs).

#[export] Program Instance Chunks_laws : ReadLaws Chunks unit := {
  pending cs := mjoin cs
}.
Next Obligation.
  intros cs n Hn. unfold poll_read, Chunks_read. induction cs as [|[|x c] cs IH].
  - exists [], []. split_and!; [done..|cbn; lia|done].
  - destruct IH as (chunk & r' & E & Hp). exists chunk, r'. split; [exact E|exact Hp].
  - cbn [chunks_read]. eexists _, _. split; [done|]. split_and!.
    + cbn [mjoin list_join]. transitivity ((take n (x :: c) ++ drop n (x :: c)) ++ mjoin cs).
      { by rewrite take_drop. }
      rewrite <- app_assoc. f_equal. destruct (drop n (x :: c)); done.
    + rewrite length_take. lia.
    + destruct n; [lia|done].
Qed.

Definition Buffer : Type := bytes.
#[export] Instance Buffer_write : AsyncWrite Buffer unit := fun w b => (Ok tt, w ++ b).
#[export] Program Instance Buffer_laws : WriteLaws Buffer unit := {
  written w := w
}.
Next Obligation. intros w b. by eexists. Qed.

(** ** What reading and writing frames do

    [read_frame] implements a function of the bytes the stream delivers, so the
    way a transport cuts them cannot change what is read; written frames are
    read back in order; the document reader accepts canonical bytes only. *)

(** ** The specification *)

(** What reading one frame from [input] gives, and the bytes left. *)
Definition spec_read_frame {IoError} (max : Z) (input : bytes)
    : result (FrameError IoError) (option bytes) * bytes :=
  if bool_decide (input = []) then (Ok None, [])
  else if len input <? 4 then (Err (FE_TruncatedPrefix (len input)), [])
  else
    let declared := from_be_bytes (take 4 input) in
    let rest := drop 4 input in
    if declared =? 0 then (Err FE_ZeroLength, rest)
    else if max <? declared then (Err (FE_PayloadTooLarge declared max), rest)
    else if (length rest <? Z.to_nat declared)%nat
    then (Err (FE_TruncatedPayload declared (len rest)), [])
    else (Ok (Some (take (Z.to_nat declared) rest)), drop (Z.to_nat declared) rest).

(** The wire form of a payload. *)
Definition frame (payload : bytes) : bytes := to_be_bytes 4 (len payload) ++ payload.

Section Reads.
Context {R IoError : Type} `{ReadLaws R IoError}.

(** The read loop fills its buffer or stops at the end of the stream; [want]
    turns are enough. *)
Lemma fill_spec fuel want buffer r :
  (length buffer <= want <= length buffer + fuel)%nat ->
  exists r', fill fuel want buffer r =
    (Ok (if (length (pending r) <? want - length buffer)%nat
         then Eof (len buffer + len (pending r))
         else Filled (buffer ++ take (want - length buffer) (pending r))), r')
    /\ pending r' = drop (want - length buffer) (pending r).
Proof.
  revert buffer r. induction fuel as [|fuel IH]; intros buffer r Hw;
    cbn [fill]; case_bool_decide as Hlt; try lia.
  1, 3: replace (want - length buffer)%nat with 0%nat by lia; eexists;
    rewrite take_0, drop_0, app_nil_r; done.
  destruct (poll_read_spec r (want - length buffer) ltac:(lia))
    as (chunk & r' & -> & Hp & Hn & Hend).
  destruct chunk as [|x chunk].
  - specialize (Hend eq_refl). exists r'. cbn in Hp. rewrite <- Hp, Hend.
    destruct (Nat.ltb_spec (length (@nil Z)) (want - length buffer)) as [|Hge];
      [|cbn in Hge; lia].
    rewrite drop_nil, len_nil, Z.add_0_r. done.
  - destruct (IH (buffer ++ x :: chunk) r') as (r'' & -> & Hr'');
      [rewrite length_app; cbn in *; lia|].
    exists r''. rewrite Hp, !length_app, Hr''.
    set (c := x :: chunk) in *. split.
    + f_equal. f_equal.
      destruct (Nat.ltb_spec (length (pending r')) (want - (length buffer + length c)));
        destruct (Nat.ltb_spec (length c + length (pending r')) (want - length buffer)); try lia.
      * f_equal. rewrite !len_app. lia.
      * f_equal. rewrite <- app_assoc. f_equal.
        rewrite take_app_ge by lia. f_equal. f_equal. lia.
    + rewrite drop_app_ge, length_app by lia. f_equal. lia.
Qed.

Lemma fill_all want r :
  exists r', fill want want [] r =
    (Ok (if (length (pending r) <? want)%nat then Eof (len (pending r))
         else Filled (take want (pending r))), r')
    /\ pending r' = drop want (pending r).
Proof.
  destruct (fill_spec want want [] r ltac:(cbn; lia)) as (r' & E & Hr').
  exists r'. rewrite E, Hr'. cbn [length app]. rewrite Nat.sub_0_r, len_nil, Z.add_0_l. done.
Qed.

(** Refinement: the result and the remaining stream are those of the
    specification on the bytes the stream delivers. *)
Lemma read_frame_spec codec r :
  exists r', read_frame codec r
      = ((spec_read_frame (max_payload codec) (pending r)).1, r')
    /\ pending r' = (spec_read_frame (IoError := IoError) (max_payload codec) (pending r)).2.
Proof.
  unfold read_frame, spec_read_frame.
  destruct (fill_all 4 r) as (r1 & -> & Hr1).
  destruct (bool_decide_reflect (pending r = [])) as [He|Hne].
  { rewrite He in *. exists r1. done. }
  assert (0 < len (pending r)).
  { destruct (pending r); [done|]. rewrite len_cons. pose proof (len_nonneg l). lia. }
  destruct (Nat.ltb_spec (length (pending r)) 4), (Z.ltb_spec (len (pending r)) 4);
    try (unfold len in *; lia).
  { exists r1. destruct (Z.eqb_spec (len (pending r)) 0); [lia|]. split; [done|].
    rewrite Hr1. by apply drop_ge; lia. }
  destruct (from_be_bytes (take 4 (pending r)) =? 0); [by exists r1|].
  destruct (max_payload codec <? from_be_bytes (take 4 (pending r))); [by exists r1|].
  destruct (fill_all (Z.to_nat (from_be_bytes (take 4 (pending r)))) r1) as (r2 & -> & Hr2).
  rewrite Hr1 in *.
  destruct (Nat.ltb_spec (length (drop 4 (pending r)))
    (Z.to_nat (from_be_bytes (take 4 (pending r))))); exists r2; [|done].
  split; [done|]. rewrite Hr2. apply drop_ge. lia.
Qed.

(** A frame at the head of the stream is read whole, and nothing more. *)
Lemma spec_read_frame_frame max payload rest :
  payload <> [] -> len payload <= max -> len payload <= u32_max ->
  spec_read_frame (IoError := IoError) max (frame payload ++ rest) = (Ok (Some payload), rest).
Proof.
  intros Hne Hm Hu. unfold spec_read_frame, frame.
  assert (0 < len payload).
  { destruct payload as [|x p]; [done|]. rewrite len_cons. pose proof (len_nonneg p). lia. }
  rewrite <- app_assoc.
  set (n := len payload) in *.
  assert (length (to_be_bytes 4 n) = 4%nat) as Hl by apply length_to_be_bytes.
  rewrite bool_decide_eq_false_2 by (destruct (to_be_bytes 4 n); done).
  destruct (Z.ltb_spec (len (to_be_bytes 4 n ++ payload ++ rest)) 4) as [Hlt|_].
  { rewrite len_app in Hlt. unfold len at 1 in Hlt. rewrite Hl in Hlt.
    pose proof (len_nonneg (payload ++ rest)). lia. }
  rewrite take_app_length', drop_app_length' by done.
  rewrite from_to_be_bytes by (change (256 ^ Z.of_nat 4) with 4294967296; lia).
  destruct (Z.eqb_spec n 0); [lia|]. destruct (Z.ltb_spec max n); [lia|].
  unfold n, len. rewrite Nat2Z.id.
  destruct (Nat.ltb_spec (length (payload ++ rest)) (length payload)) as [Hlt|_].
  { rewrite length_app in Hlt. lia. }
  by rewrite take_app_length, drop_app_length.
Qed.
End Reads.

Section Writes.
Context {W IoError : Type} `{WriteLaws W IoError}.

(** What a successful write puts on the stream, and when it succeeds. *)
Lemma write_frame_spec codec w payload :
  exists res w', write_frame codec w payload = (res, w')
    /\ (res = Ok tt <-> payload <> [] /\ len payload <= max_payload codec
                        /\ len payload <= u32_max)
    /\ written w' = written w ++ (if is_ok res then frame payload else []).
Proof.
  unfold write_frame.
  case_bool_decide as He;
    [eexists _, w; split_and!; [reflexivity|naive_solver|cbn; by rewrite app_nil_r]|].
  destruct (Z.ltb_spec (max_payload codec) (len payload));
    [eexists _, w; split_and!; [reflexivity|split; [done|lia]|cbn; by rewrite app_nil_r]|].
  destruct (Z.ltb_spec u32_max (len payload));
    [eexists _, w; split_and!; [reflexivity|split; [done|lia]|cbn; by rewrite app_nil_r]|].
  destruct (write_all_spec w (to_be_bytes 4 (len payload))) as (w1 & -> & Hw1).
  destruct (write_all_spec w1 payload) as (w2 & -> & Hw2).
  eexists _, w2. split_and!; [reflexivity|split; [intros _; split_and!; done || lia|done]|].
  rewrite Hw2, Hw1. cbn [is_ok]. unfold frame. by rewrite app_assoc.
Qed.
End Writes.

(** ** Documents over frames *)

Lemma spec_read_frame_inv {IoError} max input payload rest :
  forallb byte_ok input = true ->
  spec_read_frame (IoError := IoError) max input = (Ok (Some payload), rest) ->
  input = frame payload ++ rest /\ payload <> [] /\ len payload <= max.
Proof.
  intros Hb H. unfold spec_read_frame in H.
  destruct (bool_decide (input = [])); [done|].
  destruct (Z.ltb_spec (len input) 4) as [|Hl]; [done|]. cbv zeta in H.
  assert (length (take 4 input) = 4%nat) as Hlen by (rewrite length_take; unfold len in Hl; lia).
  assert (forallb byte_ok (take 4 input) = true) as Hb4 by by apply (slice_bytes input 0 4).
  pose proof (from_be_bytes_bounds _ Hb4) as Hn.
  set (n := from_be_bytes (take 4 input)) in *.
  destruct (Z.eqb_spec n 0); [done|]. destruct (Z.ltb_spec max n); [done|].
  destruct (Nat.ltb_spec (length (drop 4 input)) (Z.to_nat n)); [done|].
  injection H as <- <-.
  assert (len (take (Z.to_nat n) (drop 4 input)) = n) as Hp.
  { unfold len. rewrite length_take. lia. }
  split_and!.
  - unfold frame. rewrite Hp. unfold n. rewrite <- Hlen at 1.
    rewrite to_from_be_bytes by done. rewrite <- app_assoc, take_drop. by rewrite take_drop.
  - intros E. rewrite E, len_nil in Hp. lia.
  - lia.
Qed.

Section Documents.
Context {R IoError : Type} `{ReadLaws R IoError}.
Variables (codec : FrameCodec) (limits : Limits).
Hypothesis Hcodec : max_payload codec <= u32_max.
Hypothesis Hscalar : 0 <= max_scalar_bytes limits.
Hypothesis Hvalues : 0 <= max_values limits.

(** The document reader accepts exactly the frames of canonical documents. *)
Lemma read_document_spec r d :
  forallb byte_ok (pending r) = true ->
  (exists r', read_document codec r limits = (Ok (Some d), r')) <->
  (exists rest, pending r = frame (str_bytes (encode d)) ++ rest)
  /\ document_ok d = true /\ document_within limits d = true
  /\ str_len (encode d) <= max_payload codec.
Proof.
  intros Hb. unfold read_document.
  destruct (read_frame_spec codec r) as (r' & -> & Hr').
  destruct (spec_read_frame (max_payload codec) (pending r)) as [res rest] eqn:Hs.
  cbn [fst snd] in *. split.
  - intros (r1 & Hd). destruct res as [[payload|]|e]; try done.
    apply spec_read_frame_inv in Hs as (Hp & Hne & Hlen); [|done].
    injection Hd as Hd _. inv_ok. simplify_eq.
    apply negb_false_iff, bool_decide_eq_true in Hc. subst payload.
    match goal with H : from_utf8 _ = _ |- _ => apply from_utf8_Ok in H as [Hv Ht] end.
    match goal with H : decode_with_limits _ _ = _ |- _ =>
      apply decode_inv in H as (? & ? & ?); [|done..] end.
    split_and!; [by eexists|done..].
  - intros ((rest' & Hp) & Hok & Hw & Hlen).
    assert (str_bytes (encode d) <> []) as Hne.
    { intros E. pose proof (decode_encode limits d Hok Hw) as Hd.
      assert (encode d = []) as E' by (apply str_len_zero; unfold str_len; by rewrite E).
      rewrite E' in Hd. unfold decode_with_limits, parse_document in Hd. inv_ok. done. }
    rewrite Hp, spec_read_frame_frame in Hs by (done || unfold str_len in *; lia).
    injection Hs as <- <-. exists r'.
    rewrite from_utf8_str_bytes by by apply encode_valid. cbn [map_err mbind result_bind].
    rewrite decode_encode by done. cbn [map_err mbind result_bind].
    by rewrite bool_decide_eq_true_2.
Qed.
End Documents.
