(* ===== verification/Handshake.v ===== *)
(** * Handshake: the typed session handshake

    [handshake.rs]: the request a client opens a session with, the response the
    server negotiates, their documents and their validation. *)

From S2P Require Import Prelude Text AsonModel AsonCodec AsonScalarFacts AsonFacts AsonSound.
From S2P Require Import Wire Capability Frame.

(** lib.rs *)
Definition ASH_PROTOCOL_MAJOR : Z := 1.
Definition ASH_PROTOCOL_MINOR : Z := 0.
Definition ASON_FORMAT_MAJOR : Z := 1.
Definition ASON_FORMAT_MINOR : Z := 0.

Definition MAX_WORKSPACE_BYTES : Z := 4096.
Definition MAX_NONCE_BYTES : Z := 128.
Definition MAX_PLATFORM_BYTES : Z := 64.
Definition MIN_SESSION_FRAME_BYTES : Z := 256.

Definition REQUEST_COLUMNS : list str :=
  [L "ap"; L "al"; L "ah"; L "zp"; L "zl"; L "zh"; L "frm"; L "out"; L "ops"; L "cap";
   L "root"; L "n"].
Definition RESPONSE_COLUMNS : list str :=
  [L "ap"; L "av"; L "zp"; L "zv"; L "frm"; L "out"; L "ops"; L "cap"; L "os"; L "arch";
   L "sid"; L "n"].

Inductive SchemaError : Type :=
| SE_Fields
| SE_ExpectedScalar (field : string)
| SE_ExpectedRecord (field : string)
| SE_Columns
| SE_InvalidUnsigned (field : string)
| SE_UnexpectedValue (field : string)
| SE_IntegerRange (field : string)
| SE_InvalidRange
| SE_InvalidLimit (field : string)
| SE_InvalidText (field : string)
| SE_UnsupportedVersion (protocol : string)
| SE_InvalidServerConfiguration.

#[export] Instance SchemaError_eq_dec : EqDecision SchemaError.
Proof. solve_decision. Defined.

#[export] Instance SchemaError_errors : SchemaErrors SchemaError := {
  se_fields := SE_Fields;
  se_columns := SE_Columns;
  se_expected_scalar := SE_ExpectedScalar;
  se_expected_record := SE_ExpectedRecord;
  se_invalid_unsigned := SE_InvalidUnsigned;
  se_unexpected_value := SE_UnexpectedValue;
  se_integer_range := SE_IntegerRange;
}.

Record HandshakePreferences : Type := mkPreferences {
  ash_minor_low : Z;
  ash_minor_high : Z;
  ason_minor_low : Z;
  ason_minor_high : Z;
  max_frame_bytes : Z;
  pref_output_bytes : Z;
  pref_operation_mask : Z;
  pref_capability_mask : Z;
}.

Definition HandshakePreferences_default : HandshakePreferences :=
  mkPreferences ASH_PROTOCOL_MINOR ASH_PROTOCOL_MINOR ASON_FORMAT_MINOR ASON_FORMAT_MINOR
    DEFAULT_MAX_FRAME_BYTES (64 * 1024) 0 0.

(** ** Requests *)

Record HandshakeRequest : Type := mkHandshakeRequest {
  hr_request_id : Z;
  hr_ash_major : Z;
  hr_ason_major : Z;
  hr_preferences : HandshakePreferences;
  hr_workspace : str;
  hr_nonce : str;
}.

Definition HandshakeRequest_validate (r : HandshakeRequest) : result SchemaError unit :=
  let p := hr_preferences r in
  if (ash_minor_high p <? ash_minor_low p) || (ason_minor_high p <? ason_minor_low p)
  then Err SE_InvalidRange
  else if (max_frame_bytes p <? MIN_SESSION_FRAME_BYTES)
          || (HARD_MAX_FRAME_BYTES <? max_frame_bytes p)
  then Err (SE_InvalidLimit "frm")
  else if pref_output_bytes p =? 0 then Err (SE_InvalidLimit "out")
  else if bool_decide (hr_workspace r = []) || (MAX_WORKSPACE_BYTES <? str_len (hr_workspace r))
  then Err (SE_InvalidText "root")
  else if bool_decide (hr_nonce r = []) || (MAX_NONCE_BYTES <? str_len (hr_nonce r))
  then Err (SE_InvalidText "n")
  else Ok tt.

Definition HandshakeRequest_new (request_id : Z) (workspace nonce : str)
    (preferences : HandshakePreferences) : result SchemaError HandshakeRequest :=
  let request := mkHandshakeRequest request_id ASH_PROTOCOL_MAJOR ASON_FORMAT_MAJOR
    preferences workspace nonce in
  _ ← HandshakeRequest_validate request;
  Ok request.

Definition HandshakeRequest_decode (document : Document) : result SchemaError HandshakeRequest :=
  _ ← expect_fields document [L "t"; L "i"; L "a"];
  _ ← expect_unsigned (Document_get document (L "t")) "t" 0;
  request_id ← unsigned (Document_get document (L "i")) "i";
  arguments ← record (Document_get document (L "a")) "a";
  _ ← expect_columns arguments REQUEST_COLUMNS;
  let values := rec_values arguments in
  ap ← (n ← unsigned_cell (cell_at values 0) "ap"; narrow_u16 n "ap");
  al ← (n ← unsigned_cell (cell_at values 1) "al"; narrow_u16 n "al");
  ah ← (n ← unsigned_cell (cell_at values 2) "ah"; narrow_u16 n "ah");
  zl ← (n ← unsigned_cell (cell_at values 4) "zl"; narrow_u16 n "zl");
  zh ← (n ← unsigned_cell (cell_at values 5) "zh"; narrow_u16 n "zh");
  frm ← (n ← unsigned_cell (cell_at values 6) "frm"; narrow_u32 n "frm");
  out ← (n ← unsigned_cell (cell_at values 7) "out"; narrow_u32 n "out");
  ops ← unsigned_cell (cell_at values 8) "ops";
  cap ← unsigned_cell (cell_at values 9) "cap";
  zp ← (n ← unsigned_cell (cell_at values 3) "zp"; narrow_u16 n "zp");
  root ← text_cell (cell_at values 10) "root";
  nonce ← text_cell (cell_at values 11) "n";
  let request := mkHandshakeRequest request_id ap zp
    (mkPreferences al ah zl zh frm out ops cap) root nonce in
  _ ← HandshakeRequest_validate request;
  Ok request.

Definition HandshakeRequest_encode (r : HandshakeRequest) : result BuildError Document :=
  let p := hr_preferences r in
  let values :=
    [unsigned_value (hr_ash_major r);
     unsigned_value (ash_minor_low p);
     unsigned_value (ash_minor_high p);
     unsigned_value (hr_ason_major r);
     unsigned_value (ason_minor_low p);
     unsigned_value (ason_minor_high p);
     unsigned_value (max_frame_bytes p);
     unsigned_value (pref_output_bytes p);
     unsigned_value (pref_operation_mask p);
     unsigned_value (pref_capability_mask p);
     text_value (hr_workspace r);
     text_value (hr_nonce r)] in
  t ← scalar_field (L "t") (L "0");
  i ← scalar_field (L "i") (to_string (hr_request_id r));
  a ← Key_new (L "a");
  columns ← keys REQUEST_COLUMNS;
  arguments ← Record_new columns values;
  Document_new [t; i; mkField a (VRecord arguments)].

(** ** Responses *)

Record HandshakeResponse : Type := mkHandshakeResponse {
  hs_request_id : Z;
  hs_ash_minor : Z;
  hs_ason_minor : Z;
  hs_frame_bytes : Z;
  hs_output_bytes : Z;
  hs_operation_mask : Z;
  hs_capability_mask : Z;
  hs_os : str;
  hs_arch : str;
  hs_session_id : Z;
  hs_nonce : str;
}.

Definition valid_platform_name (value : str) : bool :=
  negb (bool_decide (value = [])) && (str_len value <=? MAX_PLATFORM_BYTES).

Definition HandshakeResponse_validate (r : HandshakeResponse) : result SchemaError unit :=
  if negb (hs_ash_minor r =? ASH_PROTOCOL_MINOR) then Err (SE_UnsupportedVersion "ash")
  else if negb (hs_ason_minor r =? ASON_FORMAT_MINOR) then Err (SE_UnsupportedVersion "ason")
  else if (hs_frame_bytes r <? MIN_SESSION_FRAME_BYTES)
          || (HARD_MAX_FRAME_BYTES <? hs_frame_bytes r)
  then Err (SE_InvalidLimit "frm")
  else if hs_output_bytes r =? 0 then Err (SE_InvalidLimit "out")
  else if negb (mask_extra (hs_operation_mask r) ALL_OPERATION_MASK =? 0)
  then Err (SE_UnexpectedValue "ops")
  else if negb (mask_extra (hs_capability_mask r) ALL_CAPABILITY_MASK =? 0)
  then Err (SE_UnexpectedValue "cap")
  else if negb (valid_platform_name (hs_os r)) then Err (SE_InvalidText "os")
  else if negb (valid_platform_name (hs_arch r)) then Err (SE_InvalidText "arch")
  else if hs_session_id r =? 0 then Err (SE_UnexpectedValue "sid")
  else if bool_decide (hs_nonce r = []) || (MAX_NONCE_BYTES <? str_len (hs_nonce r))
  then Err (SE_InvalidText "n")
  else Ok tt.

Definition HandshakeResponse_decode (document : Document)
    : result SchemaError HandshakeResponse :=
  _ ← expect_fields document [L "t"; L "i"; L "s"; L "d"];
  _ ← expect_unsigned (Document_get document (L "t")) "t" 0;
  _ ← expect_unsigned (Document_get document (L "s")) "s" 0;
  request_id ← unsigned (Document_get document (L "i")) "i";
  data ← record (Document_get document (L "d")) "d";
  _ ← expect_columns data RESPONSE_COLUMNS;
  let values := rec_values data in
  _ ← expect_unsigned_cell (cell_at values 0) "ap" ASH_PROTOCOL_MAJOR;
  _ ← expect_unsigned_cell (cell_at values 2) "zp" ASON_FORMAT_MAJOR;
  av ← (n ← unsigned_cell (cell_at values 1) "av"; narrow_u16 n "av");
  zv ← (n ← unsigned_cell (cell_at values 3) "zv"; narrow_u16 n "zv");
  frm ← (n ← unsigned_cell (cell_at values 4) "frm"; narrow_u32 n "frm");
  out ← (n ← unsigned_cell (cell_at values 5) "out"; narrow_u32 n "out");
  ops ← unsigned_cell (cell_at values 6) "ops";
  cap ← unsigned_cell (cell_at values 7) "cap";
  os ← text_cell (cell_at values 8) "os";
  arch ← text_cell (cell_at values 9) "arch";
  sid ← unsigned_cell (cell_at values 10) "sid";
  nonce ← text_cell (cell_at values 11) "n";
  let response := mkHandshakeResponse request_id av zv frm out ops cap os arch sid nonce in
  _ ← HandshakeResponse_validate response;
  Ok response.

Definition HandshakeResponse_encode (r : HandshakeResponse) : result BuildError Document :=
  let values :=
    [unsigned_value ASH_PROTOCOL_MAJOR;
     unsigned_value (hs_ash_minor r);
     unsigned_value ASON_FORMAT_MAJOR;
     unsigned_value (hs_ason_minor r);
     unsigned_value (hs_frame_bytes r);
     unsigned_value (hs_output_bytes r);
     unsigned_value (hs_operation_mask r);
     unsigned_value (hs_capability_mask r);
     text_value (hs_os r);
     text_value (hs_arch r);
     unsigned_value (hs_session_id r);
     text_value (hs_nonce r)] in
  t ← scalar_field (L "t") (L "0");
  i ← scalar_field (L "i") (to_string (hs_request_id r));
  s ← scalar_field (L "s") (L "0");
  d ← Key_new (L "d");
  columns ← keys RESPONSE_COLUMNS;
  data ← Record_new columns values;
  Document_new [t; i; s; mkField d (VRecord data)].

(** ** Negotiation *)

Record ServerHandshake : Type := mkServerHandshake {
  sh_max_frame_bytes : Z;
  sh_max_output_bytes : Z;
  sh_operation_mask : Z;
  sh_capability_mask : Z;
  sh_os : str;
  sh_arch : str;
}.

Definition range_contains (low high x : Z) : bool := (low <=? x) && (x <=? high).

Definition negotiate (s : ServerHandshake) (r : HandshakeRequest) (session_id : Z)
    : result SchemaError HandshakeResponse :=
  let p := hr_preferences r in
  if negb (hr_ash_major r =? ASH_PROTOCOL_MAJOR)
     || negb (range_contains (ash_minor_low p) (ash_minor_high p) ASH_PROTOCOL_MINOR)
  then Err (SE_UnsupportedVersion "ash")
  else if negb (hr_ason_major r =? ASON_FORMAT_MAJOR)
          || negb (range_contains (ason_minor_low p) (ason_minor_high p) ASON_FORMAT_MINOR)
  then Err (SE_UnsupportedVersion "ason")
  else if (sh_max_frame_bytes s <? MIN_SESSION_FRAME_BYTES)
          || (HARD_MAX_FRAME_BYTES <? sh_max_frame_bytes s)
          || (sh_max_output_bytes s =? 0)
  then Err SE_InvalidServerConfiguration
  else if negb (valid_platform_name (sh_os s)) || negb (valid_platform_name (sh_arch s))
          || (session_id =? 0)
  then Err SE_InvalidServerConfiguration
  else
    let frame_bytes := Z.min (max_frame_bytes p) (sh_max_frame_bytes s) in
    Ok (mkHandshakeResponse (hr_request_id r) ASH_PROTOCOL_MINOR ASON_FORMAT_MINOR
          frame_bytes
          (Z.min (Z.min (pref_output_bytes p) (sh_max_output_bytes s)) frame_bytes)
          (Z.land (Z.land (pref_operation_mask p) (sh_operation_mask s)) ALL_OPERATION_MASK)
          (Z.land (Z.land (pref_capability_mask p) (sh_capability_mask s)) ALL_CAPABILITY_MASK)
          (sh_os s) (sh_arch s) session_id (hr_nonce r)).

(** ** What the handshake guarantees

    The handshake documents are in bijection with the valid typed values, and a
    negotiated response satisfies both sides' limits. *)

(** What the integer types of the fields guarantee. *)
Definition preferences_ok (p : HandshakePreferences) : bool :=
  u16_ok (ash_minor_low p) && u16_ok (ash_minor_high p) && u16_ok (ason_minor_low p)
  && u16_ok (ason_minor_high p) && u32_ok (max_frame_bytes p) && u32_ok (pref_output_bytes p)
  && u64_ok (pref_operation_mask p) && u64_ok (pref_capability_mask p).
Definition handshake_request_ok (r : HandshakeRequest) : bool :=
  u64_ok (hr_request_id r) && u16_ok (hr_ash_major r) && u16_ok (hr_ason_major r)
  && preferences_ok (hr_preferences r).
Definition handshake_response_ok (r : HandshakeResponse) : bool :=
  u64_ok (hs_request_id r) && u16_ok (hs_ash_minor r) && u16_ok (hs_ason_minor r)
  && u32_ok (hs_frame_bytes r) && u32_ok (hs_output_bytes r) && u64_ok (hs_operation_mask r)
  && u64_ok (hs_capability_mask r) && u64_ok (hs_session_id r).
Definition server_ok (s : ServerHandshake) : bool :=
  u32_ok (sh_max_frame_bytes s) && u32_ok (sh_max_output_bytes s)
  && u64_ok (sh_operation_mask s) && u64_ok (sh_capability_mask s).

(** ** Requests *)

Definition handshake_request_document (r : HandshakeRequest) : Document :=
  let p := hr_preferences r in
  mkDocument
    [mkField (L "t") (Scalar (AText (to_string 0)));
     mkField (L "i") (Scalar (AText (to_string (hr_request_id r))));
     mkField (L "a") (VRecord (mkRec REQUEST_COLUMNS
       [unsigned_value (hr_ash_major r); unsigned_value (ash_minor_low p);
        unsigned_value (ash_minor_high p); unsigned_value (hr_ason_major r);
        unsigned_value (ason_minor_low p); unsigned_value (ason_minor_high p);
        unsigned_value (max_frame_bytes p); unsigned_value (pref_output_bytes p);
        unsigned_value (pref_operation_mask p); unsigned_value (pref_capability_mask p);
        text_value (hr_workspace r); text_value (hr_nonce r)]))].

Lemma Key_new_literal k : is_valid_key k = true -> Key_new k = Ok k.
Proof. intros. by apply Key_new_ok. Qed.

Lemma HandshakeRequest_encode_eq r :
  HandshakeRequest_encode r = Ok (handshake_request_document r).
Proof.
  unfold HandshakeRequest_encode.
  rewrite !scalar_field_ok, Key_new_literal, keys_ok by done. cbn [mbind result_bind].
  rewrite Record_new_schema by done. cbn [mbind result_bind].
  apply Document_new_schema; [done|]. cbn [fmap list_fmap field_key]. decide_closed.
Qed.

Lemma HandshakeRequest_decode_ok d r :
  document_ok d = true ->
  HandshakeRequest_decode d = Ok r <->
  d = handshake_request_document r /\ handshake_request_ok r = true
  /\ HandshakeRequest_validate r = Ok tt.
Proof.
  intros Hd. unfold HandshakeRequest_decode. split.
  - intros H. inv_readers. subst.
    match goal with H : Document_get d _ = Some (VRecord _) |- _ =>
      pose proof (value_ok_record_length _ (Document_get_ok _ _ _ Hd H)) as Hlen end.
    match goal with H : rec_columns ?r = REQUEST_COLUMNS |- _ =>
      eassert (r = mkRec REQUEST_COLUMNS [_; _; _; _; _; _; _; _; _; _; _; _]) as Hr
        by record_from_cells_tac H Hlen; rewrite Hr in * end.
    split_and!; [by document_from_gets H0| |done].
    unfold handshake_request_ok, preferences_ok, u16_ok, u32_ok, u64_ok. cbn. lia.
  - intros (-> & Hok & Hv).
    unfold handshake_request_ok, preferences_ok, u16_ok, u32_ok, u64_ok in Hok. zbool.
    destruct r as [? ? ? [] ? ?]. run_readers; [exact Hv|done].
Qed.

(** ** Responses *)

Definition handshake_response_document (r : HandshakeResponse) : Document :=
  mkDocument
    [mkField (L "t") (Scalar (AText (to_string 0)));
     mkField (L "i") (Scalar (AText (to_string (hs_request_id r))));
     mkField (L "s") (Scalar (AText (to_string 0)));
     mkField (L "d") (VRecord (mkRec RESPONSE_COLUMNS
       [unsigned_value ASH_PROTOCOL_MAJOR; unsigned_value (hs_ash_minor r);
        unsigned_value ASON_FORMAT_MAJOR; unsigned_value (hs_ason_minor r);
        unsigned_value (hs_frame_bytes r); unsigned_value (hs_output_bytes r);
        unsigned_value (hs_operation_mask r); unsigned_value (hs_capability_mask r);
        text_value (hs_os r); text_value (hs_arch r); unsigned_value (hs_session_id r);
        text_value (hs_nonce r)]))].

Lemma HandshakeResponse_encode_eq r :
  HandshakeResponse_encode r = Ok (handshake_response_document r).
Proof.
  unfold HandshakeResponse_encode.
  rewrite !scalar_field_ok, Key_new_literal, keys_ok by done. cbn [mbind result_bind].
  rewrite Record_new_schema by done. cbn [mbind result_bind].
  apply Document_new_schema; [done|]. cbn [fmap list_fmap field_key]. decide_closed.
Qed.

Lemma HandshakeResponse_decode_ok d r :
  document_ok d = true ->
  HandshakeResponse_decode d = Ok r <->
  d = handshake_response_document r /\ handshake_response_ok r = true
  /\ HandshakeResponse_validate r = Ok tt.
Proof.
  intros Hd. unfold HandshakeResponse_decode. split.
  - intros H. inv_readers. subst.
    match goal with H : Document_get d _ = Some (VRecord _) |- _ =>
      pose proof (value_ok_record_length _ (Document_get_ok _ _ _ Hd H)) as Hlen end.
    match goal with H : rec_columns ?r = RESPONSE_COLUMNS |- _ =>
      eassert (r = mkRec RESPONSE_COLUMNS [_; _; _; _; _; _; _; _; _; _; _; _]) as Hr
        by record_from_cells_tac H Hlen; rewrite Hr in * end.
    split_and!; [by document_from_gets H0| |done].
    unfold handshake_response_ok, u16_ok, u32_ok, u64_ok. cbn. lia.
  - intros (-> & Hok & Hv).
    unfold handshake_response_ok, u16_ok, u32_ok, u64_ok in Hok. zbool.
    destruct r. run_readers; [exact Hv|done].
Qed.

(** ** Negotiation *)

Lemma land_ldiff a b c : Z.ldiff (Z.land (Z.land a b) c) c = 0.
Proof.
  apply Z.bits_inj_0. intros n. rewrite Z.ldiff_spec, Z.land_spec.
  destruct (Z.testbit c n); [by rewrite andb_false_r|by rewrite !andb_false_r].
Qed.

Lemma land_le a b : 0 <= a -> Z.land a b <= a.
Proof.
  intros Ha. assert (a - Z.land a b = Z.ldiff a (Z.land a b)) as E.
  { apply Z.sub_nocarry_ldiff. apply Z.bits_inj_0. intros n.
    rewrite Z.ldiff_spec, Z.land_spec. by destruct (Z.testbit a n), (Z.testbit b n). }
  assert (0 <= Z.ldiff a (Z.land a b)) by (apply Z.ldiff_nonneg; lia). lia.
Qed.

Lemma land_u64 a b : u64_ok a = true -> u64_ok (Z.land a b) = true.
Proof.
  unfold u64_ok. intros H. zbool.
  assert (0 <= Z.land a b) by (apply Z.land_nonneg; lia).
  pose proof (land_le a b ltac:(lia)). lia.
Qed.

(** A negotiated session is one the client's decoder accepts. *)
Lemma negotiate_valid s r session_id resp :
  handshake_request_ok r = true -> server_ok s = true -> u64_ok session_id = true ->
  HandshakeRequest_validate r = Ok tt -> negotiate s r session_id = Ok resp ->
  handshake_response_ok resp = true /\ HandshakeResponse_validate resp = Ok tt.
Proof.
  intros Hr Hs Hid Hv Hn.
  unfold HandshakeRequest_validate, negotiate in *. cbv zeta in *. inv_ok. subst resp.
  unfold handshake_request_ok, preferences_ok, server_ok in *. zbool.
  unfold handshake_response_ok, HandshakeResponse_validate, mask_extra. cbn -[Z.land].
  rewrite !land_ldiff. cbn [Z.eqb negb].
  rewrite !(land_u64 (Z.land _ _)) by by apply land_u64.
  unfold range_contains in *. zbool.
  repeat match goal with H : ?b = _ |- context [?b] => rewrite H end.
  unfold u32_ok, u64_ok, MIN_SESSION_FRAME_BYTES, HARD_MAX_FRAME_BYTES in *. zbool.
  split.
  - repeat (apply andb_true_iff; split); try done; try lia.
  - repeat match goal with |- (if ?b then _ else _) = _ =>
      let E := fresh in destruct b eqn:E; [exfalso; zbool; lia|] end. done.
Qed.

(** ** The server's printed response is the one the client decodes *)

Lemma response_document_ok r :
  handshake_response_ok r = true -> valid_str (hs_os r) = true -> valid_str (hs_arch r) = true ->
  valid_str (hs_nonce r) = true -> document_ok (handshake_response_document r) = true.
Proof.
  unfold handshake_response_ok, u16_ok, u32_ok, u64_ok. intros Hok Hos Ha Hn. zbool.
  unfold document_ok, handshake_response_document.
  cbn [fields forallb field_key field_value value_ok rec_columns rec_values cell_ok atom_ok
       unsigned_value text_value].
  rewrite !to_string_valid, Hos, Ha, Hn by (done || lia). by vm_compute.
Qed.
