(* ===== verification/Request.v ===== *)
(** * Request: typed operation requests

    [request.rs]: budgets, the arguments of the ten operation families with
    their validation, their ASON form, and the request envelope.  [Arguments]
    and [BatchNode] are mutually recursive as in the source.  A one-field
    struct ([FsArgs], [BatchArgs], [CancelArgs], [ApprovalToken]) is its field. *)

From S2P Require Import Prelude Text AsonModel AsonCodec AsonScalarFacts Graph Wire Capability.

Definition ENVELOPE_FIELDS : list str := [L "t"; L "i"; L "o"; L "a"; L "u"].
Definition PERMITTED_ENVELOPE_FIELDS : list str := [L "t"; L "i"; L "o"; L "a"; L "u"; L "v"].
Definition BUDGET_COLUMNS : list str := [L "tok"; L "rec"; L "ms"].
Definition EXEC_COLUMNS : list str := [L "x"; L "v"; L "c"; L "e"; L "in"; L "f"].
Definition READ_COLUMNS : list str := [L "p"; L "m"; L "o"; L "n"].
Definition LIST_COLUMNS : list str := [L "p"; L "d"; L "f"].
Definition SEARCH_COLUMNS : list str := [L "q"; L "p"; L "f"].
Definition PATCH_COLUMNS : list str := [L "p"; L "h"; L "i"; L "o"; L "n"; L "v"; L "f"].
Definition FS_COLUMNS : list str := [L "i"; L "k"; L "p"; L "q"; L "h"; L "v"].
Definition SNAPSHOT_COLUMNS : list str := [L "p"; L "d"; L "m"; L "r"; L "f"].
Definition CANCEL_COLUMNS : list str := [L "i"].
Definition BATCH_COLUMNS : list str := [L "i"; L "d"; L "o"; L "a"].

Definition MAX_REQUEST_TOKENS : Z := 1048576.
Definition MAX_REQUEST_RECORDS : Z := 1000000.
Definition MAX_REQUEST_MILLIS : Z := 86400000.
Definition MAX_ARGUMENT_ITEMS : Z := 1024.
Definition MAX_BATCH_NODES : Z := 256.
Definition MAX_BATCH_EDGES : Z := 4096.
Definition MAX_FS_ACTIONS : Z := 256.
Definition MAX_TEXT_BYTES : Z := 1024 * 1024.

Definition EXEC_CLEAR_ENVIRONMENT : Z := Z.shiftl 1 0.
Definition LIST_INCLUDE_HIDDEN : Z := Z.shiftl 1 0.
Definition LIST_FILES_ONLY : Z := Z.shiftl 1 1.
Definition LIST_DIRECTORIES_ONLY : Z := Z.shiftl 1 2.
Definition SEARCH_REGEX : Z := Z.shiftl 1 0.
Definition SEARCH_CASE_INSENSITIVE : Z := Z.shiftl 1 1.
Definition SEARCH_INCLUDE_HIDDEN : Z := Z.shiftl 1 2.
Definition REF_REGEX : Z := Z.shiftl 1 0.
Definition REF_CASE_INSENSITIVE : Z := Z.shiftl 1 1.
Definition SNAPSHOT_INCLUDE_HIDDEN : Z := Z.shiftl 1 0.
Definition EXEC_FLAGS : Z := EXEC_CLEAR_ENVIRONMENT.
Definition LIST_FLAGS : Z :=
  Z.lor (Z.lor LIST_INCLUDE_HIDDEN LIST_FILES_ONLY) LIST_DIRECTORIES_ONLY.
Definition SEARCH_FLAGS : Z :=
  Z.lor (Z.lor SEARCH_REGEX SEARCH_CASE_INSENSITIVE) SEARCH_INCLUDE_HIDDEN.
Definition REF_SEARCH_FLAGS : Z := Z.lor REF_REGEX REF_CASE_INSENSITIVE.
Definition PATCH_FLAGS : Z := 0.
Definition SNAPSHOT_FLAGS : Z := SNAPSHOT_INCLUDE_HIDDEN.
Definition MAX_REF_BYTES : Z := 128 * 1024 * 1024.
Definition MAX_REF_LINES : Z := 1000000.
Definition MAX_PATCH_INLINE_BYTES : Z := 8 * 1024 * 1024.

Inductive RequestError : Type :=
| RE_Fields
| RE_ExpectedScalar (field : string)
| RE_ExpectedRecord (field : string)
| RE_ExpectedTable (field : string)
| RE_ExpectedVector (field : string)
| RE_Columns
| RE_InvalidUnsigned (field : string)
| RE_IntegerRange (field : string)
| RE_UnexpectedValue (field : string)
| RE_InvalidLimit (field : string)
| RE_InvalidText (field : string)
| RE_UnsupportedOperation.

#[export] Instance RequestError_eq_dec : EqDecision RequestError.
Proof. solve_decision. Defined.

#[export] Instance RequestError_errors : SchemaErrors RequestError := {
  se_fields := RE_Fields;
  se_columns := RE_Columns;
  se_expected_scalar := RE_ExpectedScalar;
  se_expected_record := RE_ExpectedRecord;
  se_invalid_unsigned := RE_InvalidUnsigned;
  se_unexpected_value := RE_UnexpectedValue;
  se_integer_range := RE_IntegerRange;
}.

(** ** Cell readers and writers of this file *)

Definition optional_reference_cell (cell : Cell) (field : string) : result RequestError (option Z) :=
  match cell with
  | CAtom Null => Ok None
  | CAtom (Reference reference) =>
      if negb (reference =? 0) then Ok (Some reference) else Err (RE_InvalidUnsigned field)
  | _ => Err (RE_InvalidUnsigned field)
  end.

Definition optional_text_cell (cell : Cell) (field : string) : result RequestError (option str) :=
  match cell with
  | CAtom Null => Ok None
  | CAtom (AText value) => Ok (Some value)
  | _ => Err (RE_ExpectedScalar field)
  end.

Definition text_vector (cell : Cell) (field : string) : result RequestError (list str) :=
  match cell with
  | CVector values =>
      mapM (fun value => match value with
                         | AText value => Ok value
                         | _ => Err (RE_InvalidText field) end) values
  | _ => Err (RE_ExpectedVector field)
  end.

Definition atom_vector (cell : Cell) (field : string) : result RequestError (list Atom) :=
  match cell with CVector values => Ok values | _ => Err (RE_ExpectedVector field) end.

Definition unsigned_vector (cell : Cell) (field : string) : result RequestError (list Z) :=
  match cell with
  | CVector values => mapM (fun value => unsigned_atom value field) values
  | _ => Err (RE_ExpectedVector field)
  end.

Definition null_value : Cell := CAtom Null.
Definition text_vector_value (values : list str) : Cell := CVector (AText <$> values).

(** ** Validators *)

Definition validate_bounded_text (value : str) (field : string) (max : Z)
    : result RequestError unit :=
  if (max <? str_len value) || contains 0 value then Err (RE_InvalidText field) else Ok tt.

Definition validate_text (value : str) (field : string) (max : Z) : result RequestError unit :=
  if bool_decide (value = []) then Err (RE_InvalidText field)
  else validate_bounded_text value field max.

(** The [for value in values] loop. *)
Fixpoint validate_each (values : list str) (field : string) (max : Z) : result RequestError unit :=
  match values with
  | [] => Ok tt
  | value :: values =>
      _ ← validate_bounded_text value field max;
      validate_each values field max
  end.

Definition validate_text_items (values : list str) (field : string)
    (max_items max_item_bytes : Z) : result RequestError unit :=
  if max_items <? len values then Err (RE_InvalidLimit field)
  else validate_each values field max_item_bytes.

Definition validate_paths (paths : list str) : result RequestError unit :=
  if bool_decide (paths = []) || (256 <? len paths) then Err (RE_InvalidLimit "p")
  else
    _ ← validate_text_items paths "p" 256 4096;
    if existsb (fun p => bool_decide (p = [])) paths then Err (RE_InvalidText "p") else Ok tt.

Definition valid_digest (digest : str) : bool :=
  (str_len digest =? 64)
  && forallb (fun byte => is_ascii_digit byte || ((97 <=? byte) && (byte <=? 102)))
       (str_bytes digest).

Definition validate_flags (flags allowed : Z) : result RequestError unit :=
  if mask_extra flags allowed =? 0 then Ok tt else Err (RE_UnexpectedValue "f").

Definition valid_environment_name (name : str) : bool :=
  match str_bytes name with
  | [] => false
  | first :: rest =>
      (is_ascii_alphabetic first || (first =? 95))
      && forallb (fun byte => is_ascii_alphanumeric byte || (byte =? 95)) rest
  end.

(** The loop over the entries; [names] is the [HashSet] so far. *)
Fixpoint environment_loop (entries : list str) (names : gset str) : result RequestError unit :=
  match entries with
  | [] => Ok tt
  | entry :: entries =>
      name ← match strip_prefix 45 entry with
             | Some name => Ok name
             | None => ok_or (fst <$> split_once 61 entry) (RE_InvalidText "e")
             end;
      if negb (valid_environment_name name) || bool_decide (name ∈ names)
      then Err (RE_InvalidText "e")
      else environment_loop entries ({[name]} ∪ names)
  end.

Definition validate_environment (environment : list str) : result RequestError unit :=
  _ ← validate_text_items environment "e" 256 (32 * 1024);
  environment_loop environment ∅.

(** [a < b] on byte slices. *)
Fixpoint bytes_lt (a b : bytes) : bool :=
  match a, b with
  | _, [] => false
  | [], _ :: _ => true
  | x :: a, y :: b => (x <? y) || ((x =? y) && bytes_lt a b)
  end.

Definition paths_sorted (paths : list str) : bool :=
  windows2_all (fun a b => bytes_lt (str_bytes a) (str_bytes b)) paths.

(** ** Budget *)

Record Budget : Type := mkBudget { b_tokens : Z; b_records : Z; b_millis : Z }.

Definition Budget_validate (b : Budget) : result RequestError unit :=
  if (b_tokens b =? 0) || (MAX_REQUEST_TOKENS <? b_tokens b) then Err (RE_InvalidLimit "tok")
  else if (b_records b =? 0) || (MAX_REQUEST_RECORDS <? b_records b)
  then Err (RE_InvalidLimit "rec")
  else if (b_millis b =? 0) || (MAX_REQUEST_MILLIS <? b_millis b) then Err (RE_InvalidLimit "ms")
  else Ok tt.

Definition Budget_new (tokens records millis : Z) : result RequestError Budget :=
  let budget := mkBudget tokens records millis in
  _ ← Budget_validate budget;
  Ok budget.

(** ** Exec *)

Inductive InputSource : Type := InNone | InInline (value : str) | InReference (id : Z).

Record ExecArgs : Type := mkExec {
  ex_executable : str;
  ex_argv : list str;
  ex_cwd : str;
  ex_environment : list str;
  ex_stdin : InputSource;
  ex_flags : Z;
}.

Definition InputSource_decode (cell : Cell) : result RequestError InputSource :=
  match cell with
  | CAtom Null => Ok InNone
  | CAtom (AText value) => Ok (InInline value)
  | CAtom (Reference id) => Ok (InReference id)
  | CVector _ => Err (RE_ExpectedScalar "in")
  end.

Definition InputSource_encode (s : InputSource) : Cell :=
  match s with
  | InNone => CAtom Null
  | InInline value => text_value value
  | InReference id => CAtom (Reference id)
  end.

Definition ExecArgs_validate (a : ExecArgs) : result RequestError unit :=
  _ ← validate_text (ex_executable a) "x" 4096;
  _ ← validate_text (ex_cwd a) "c" 4096;
  _ ← validate_text_items (ex_argv a) "v" MAX_ARGUMENT_ITEMS MAX_TEXT_BYTES;
  _ ← validate_environment (ex_environment a);
  _ ← match ex_stdin a with
      | InInline value => validate_bounded_text value "in" MAX_TEXT_BYTES
      | InReference id => if id =? 0 then Err (RE_InvalidUnsigned "in") else Ok tt
      | InNone => Ok tt
      end;
  validate_flags (ex_flags a) EXEC_FLAGS.

(** [T::new]: build, validate, return. *)
Definition validated {A} (validate : A -> result RequestError unit) (a : A)
    : result RequestError A := _ ← validate a; Ok a.

Definition ExecArgs_decode (r : Rec) : result RequestError ExecArgs :=
  _ ← expect_columns r EXEC_COLUMNS;
  let values := rec_values r in
  x ← text_cell (cell_at values 0) "x";
  v ← text_vector (cell_at values 1) "v";
  c ← text_cell (cell_at values 2) "c";
  e ← text_vector (cell_at values 3) "e";
  i ← InputSource_decode (cell_at values 4);
  f ← (n ← unsigned_cell (cell_at values 5) "f"; narrow_u32 n "f");
  validated ExecArgs_validate (mkExec x v c e i f).

(** [Ok(Value::Record(Record::new(keys(columns)?, values)?))] *)
Definition record_value (columns : list str) (values : list Cell) : result BuildError Value :=
  ks ← keys columns;
  r ← Record_new ks values;
  Ok (VRecord r).

Definition ExecArgs_encode (a : ExecArgs) : result BuildError Value :=
  record_value EXEC_COLUMNS
    [text_value (ex_executable a); text_vector_value (ex_argv a); text_value (ex_cwd a);
     text_vector_value (ex_environment a); InputSource_encode (ex_stdin a);
     unsigned_value (ex_flags a)].

(** ** Read *)

Inductive ReadMode : Type := ReadBytes | ReadLines.

Record ReadArgs : Type := mkRead {
  rd_paths : list str; rd_mode : ReadMode; rd_offset : Z; rd_length : Z }.

Definition ReadArgs_validate (a : ReadArgs) : result RequestError unit :=
  _ ← validate_paths (rd_paths a);
  if rd_length a =? 0 then Err (RE_InvalidLimit "n")
  else if match rd_mode a with ReadLines => rd_offset a =? 0 | ReadBytes => false end
  then Err (RE_InvalidLimit "o")
  else Ok tt.

Definition ReadArgs_decode (r : Rec) : result RequestError ReadArgs :=
  _ ← expect_columns r READ_COLUMNS;
  let values := rec_values r in
  m ← unsigned_cell (cell_at values 1) "m";
  mode ← (if m =? 0 then Ok ReadBytes else if m =? 1 then Ok ReadLines
          else Err (RE_UnexpectedValue "m"));
  p ← text_vector (cell_at values 0) "p";
  o ← unsigned_cell (cell_at values 2) "o";
  n ← unsigned_cell (cell_at values 3) "n";
  validated ReadArgs_validate (mkRead p mode o n).

Definition ReadArgs_encode (a : ReadArgs) : result BuildError Value :=
  record_value READ_COLUMNS
    [text_vector_value (rd_paths a);
     unsigned_value (match rd_mode a with ReadBytes => 0 | ReadLines => 1 end);
     unsigned_value (rd_offset a); unsigned_value (rd_length a)].

(** ** List *)

Record ListArgs : Type := mkList { ls_paths : list str; ls_depth : Z; ls_flags : Z }.

Definition ListArgs_validate (a : ListArgs) : result RequestError unit :=
  _ ← validate_paths (ls_paths a);
  if 64 <? ls_depth a then Err (RE_InvalidLimit "d")
  else
    _ ← validate_flags (ls_flags a) LIST_FLAGS;
    if negb (Z.land (ls_flags a) LIST_FILES_ONLY =? 0)
       && negb (Z.land (ls_flags a) LIST_DIRECTORIES_ONLY =? 0)
    then Err (RE_UnexpectedValue "f")
    else Ok tt.

Definition ListArgs_decode (r : Rec) : result RequestError ListArgs :=
  _ ← expect_columns r LIST_COLUMNS;
  let values := rec_values r in
  p ← text_vector (cell_at values 0) "p";
  d ← (n ← unsigned_cell (cell_at values 1) "d"; narrow_u16 n "d");
  f ← (n ← unsigned_cell (cell_at values 2) "f"; narrow_u32 n "f");
  validated ListArgs_validate (mkList p d f).

Definition ListArgs_encode (a : ListArgs) : result BuildError Value :=
  record_value LIST_COLUMNS
    [text_vector_value (ls_paths a); unsigned_value (ls_depth a); unsigned_value (ls_flags a)].

(** ** Search *)

Record SearchArgs : Type := mkSearch { se_query : str; se_paths : list str; se_flags : Z }.

Definition SearchArgs_validate (a : SearchArgs) : result RequestError unit :=
  _ ← validate_text (se_query a) "q" MAX_TEXT_BYTES;
  _ ← validate_paths (se_paths a);
  validate_flags (se_flags a) SEARCH_FLAGS.

Definition SearchArgs_decode (r : Rec) : result RequestError SearchArgs :=
  _ ← expect_columns r SEARCH_COLUMNS;
  let values := rec_values r in
  q ← text_cell (cell_at values 0) "q";
  p ← text_vector (cell_at values 1) "p";
  f ← (n ← unsigned_cell (cell_at values 2) "f"; narrow_u32 n "f");
  validated SearchArgs_validate (mkSearch q p f).

Definition SearchArgs_encode (a : SearchArgs) : result BuildError Value :=
  record_value SEARCH_COLUMNS
    [text_value (se_query a); text_vector_value (se_paths a); unsigned_value (se_flags a)].

(** ** Patch *)

Inductive PatchContent : Type := PInline (value : str) | PReference (reference : Z).

Record PatchEdit : Type := mkEdit {
  ed_file_index : Z; ed_offset : Z; ed_delete_length : Z; ed_replacement : PatchContent }.

Record PatchArgs : Type := mkPatch {
  pt_paths : list str;
  pt_expected_digests : list str;
  pt_edits : list PatchEdit;
  pt_flags : Z;
}.

Definition PatchContent_decode (atom : Atom) : result RequestError PatchContent :=
  match atom with
  | AText value => Ok (PInline value)
  | Reference reference =>
      if negb (reference =? 0) then Ok (PReference reference) else Err (RE_InvalidText "v")
  | Null => Err (RE_InvalidText "v")
  end.

Definition PatchContent_encode (c : PatchContent) : Atom :=
  match c with PInline value => AText value | PReference reference => Reference reference end.

Definition PatchContent_validate (c : PatchContent) : result RequestError unit :=
  match c with
  | PInline value => validate_bounded_text value "v" MAX_TEXT_BYTES
  | PReference reference => if reference =? 0 then Err (RE_InvalidUnsigned "v") else Ok tt
  end.

Definition PatchEdit_new (file_index offset delete_length : Z) (replacement : PatchContent)
    : result RequestError PatchEdit :=
  _ ← PatchContent_validate replacement;
  _ ← ok_or (checked_add u64_max offset delete_length) (RE_IntegerRange "n");
  Ok (mkEdit file_index offset delete_length replacement).

(** The order test against the previous edit. *)
Definition edit_out_of_order (previous edit : PatchEdit) : bool :=
  (ed_file_index edit <? ed_file_index previous)
  || ((ed_file_index edit =? ed_file_index previous)
      && ((ed_offset edit <=? ed_offset previous)
          || (ed_offset edit
              <? saturating_add u64_max (ed_offset previous) (ed_delete_length previous)))).

(** The loop over the edits; returns [seen] and [inline_bytes]. *)
Fixpoint edits_loop (edits : list PatchEdit) (seen : list bool) (inline_bytes : Z)
    (previous : option PatchEdit) : result RequestError (list bool * Z) :=
  match edits with
  | [] => Ok (seen, inline_bytes)
  | edit :: edits =>
      _ ← PatchContent_validate (ed_replacement edit);
      let file_index := Z.to_nat (ed_file_index edit) in
      _ ← ok_or (seen !! file_index) (RE_UnexpectedValue "i");
      let seen := <[file_index := true]> seen in
      _ ← ok_or (checked_add u64_max (ed_offset edit) (ed_delete_length edit))
            (RE_IntegerRange "n");
      inline_bytes ← match ed_replacement edit with
                     | PInline value =>
                         ok_or (checked_add usize_max inline_bytes (str_len value))
                           (RE_InvalidLimit "v")
                     | PReference _ => Ok inline_bytes
                     end;
      if match previous with Some previous => edit_out_of_order previous edit | None => false end
      then Err (RE_UnexpectedValue "o")
      else edits_loop edits seen inline_bytes (Some edit)
  end.

Definition PatchArgs_validate (a : PatchArgs) : result RequestError unit :=
  _ ← validate_paths (pt_paths a);
  if negb (paths_sorted (pt_paths a)) then Err (RE_UnexpectedValue "p")
  else if negb (len (pt_expected_digests a) =? len (pt_paths a))
          || existsb (fun digest => negb (valid_digest digest)) (pt_expected_digests a)
  then Err (RE_InvalidText "h")
  else if bool_decide (pt_edits a = []) || (MAX_ARGUMENT_ITEMS <? len (pt_edits a))
  then Err (RE_InvalidLimit "i")
  else
    '(seen, inline_bytes) ← edits_loop (pt_edits a) (replicate (length (pt_paths a)) false) 0 None;
    if existsb negb seen then Err (RE_InvalidLimit "i")
    else if MAX_PATCH_INLINE_BYTES <? inline_bytes then Err (RE_InvalidLimit "v")
    else validate_flags (pt_flags a) PATCH_FLAGS.

(** The iterator of zips. *)
Definition zip4 {A B C D} (a : list A) (b : list B) (c : list C) (d : list D)
    : list (A * B * C * D) := zip (zip (zip a b) c) d.

Definition PatchArgs_decode (r : Rec) : result RequestError PatchArgs :=
  _ ← expect_columns r PATCH_COLUMNS;
  let values := rec_values r in
  paths ← text_vector (cell_at values 0) "p";
  expected_digests ← text_vector (cell_at values 1) "h";
  file_indices ← unsigned_vector (cell_at values 2) "i";
  offsets ← unsigned_vector (cell_at values 3) "o";
  delete_lengths ← unsigned_vector (cell_at values 4) "n";
  replacements ← atom_vector (cell_at values 5) "v";
  let edit_count := len file_indices in
  if negb (len offsets =? edit_count) || negb (len delete_lengths =? edit_count)
     || negb (len replacements =? edit_count)
  then Err (RE_InvalidLimit "i")
  else
    edits ← mapM (fun '(file_index, offset, delete_length, replacement) =>
                    i ← narrow_u16 file_index "i";
                    c ← PatchContent_decode replacement;
                    PatchEdit_new i offset delete_length c)
              (zip4 file_indices offsets delete_lengths replacements);
    f ← (n ← unsigned_cell (cell_at values 6) "f"; narrow_u32 n "f");
    validated PatchArgs_validate (mkPatch paths expected_digests edits f).

Definition PatchArgs_encode (a : PatchArgs) : result BuildError Value :=
  record_value PATCH_COLUMNS
    [text_vector_value (pt_paths a);
     text_vector_value (pt_expected_digests a);
     CVector ((fun edit => AText (to_string (ed_file_index edit))) <$> pt_edits a);
     CVector ((fun edit => AText (to_string (ed_offset edit))) <$> pt_edits a);
     CVector ((fun edit => AText (to_string (ed_delete_length edit))) <$> pt_edits a);
     CVector ((fun edit => PatchContent_encode (ed_replacement edit)) <$> pt_edits a);
     unsigned_value (pt_flags a)].

(** ** Fs *)

Inductive FsActionKind : Type := FsCreate | FsCopy | FsMove | FsRemove.

Record FsAction : Type := mkAction {
  fs_id : Z;
  fs_kind : FsActionKind;
  fs_path : str;
  fs_destination : option str;
  fs_expected_digest : option str;
  fs_content : option PatchContent;
}.

(** [self.kind as u8] *)
Definition FsActionKind_code (k : FsActionKind) : Z :=
  match k with FsCreate => 0 | FsCopy => 1 | FsMove => 2 | FsRemove => 3 end.

Definition FsActionKind_decode (value : Z) : result RequestError FsActionKind :=
  if value =? 0 then Ok FsCreate
  else if value =? 1 then Ok FsCopy
  else if value =? 2 then Ok FsMove
  else if value =? 3 then Ok FsRemove
  else Err (RE_UnexpectedValue "k").

Definition is_some {A} (o : option A) : bool := match o with Some _ => true | None => false end.

Definition FsAction_validate (a : FsAction) : result RequestError unit :=
  if fs_id a =? 0 then Err (RE_InvalidUnsigned "i")
  else
    _ ← validate_text (fs_path a) "p" 4096;
    _ ← match fs_destination a with
        | Some destination =>
            _ ← validate_text destination "q" 4096;
            if bool_decide (destination = fs_path a) then Err (RE_UnexpectedValue "q") else Ok tt
        | None => Ok tt
        end;
    _ ← match fs_expected_digest a with
        | Some digest => if negb (valid_digest digest) then Err (RE_InvalidText "h") else Ok tt
        | None => Ok tt
        end;
    _ ← match fs_content a with
        | Some content => PatchContent_validate content
        | None => Ok tt
        end;
    let destination := is_some (fs_destination a) in
    let digest := is_some (fs_expected_digest a) in
    let content := is_some (fs_content a) in
    let shape_is_valid :=
      match fs_kind a with
      | FsCreate => negb destination && negb digest && content
      | FsCopy | FsMove => destination && digest && negb content
      | FsRemove => negb destination && digest && negb content
      end in
    if shape_is_valid then Ok tt else Err (RE_UnexpectedValue "k").

Definition FsAction_decode (row : list Cell) : result RequestError FsAction :=
  content ← match cell_at row 5 with
            | CAtom Null => Ok None
            | CAtom value => Some <$> PatchContent_decode value
            | CVector _ => Err (RE_ExpectedScalar "v")
            end;
  i ← unsigned_cell (cell_at row 0) "i";
  k ← unsigned_cell (cell_at row 1) "k" ≫= FsActionKind_decode;
  p ← text_cell (cell_at row 2) "p";
  q ← optional_text_cell (cell_at row 3) "q";
  h ← optional_text_cell (cell_at row 4) "h";
  validated FsAction_validate (mkAction i k p q h content).

Definition FsAction_encode (a : FsAction) : list Cell :=
  [unsigned_value (fs_id a);
   unsigned_value (FsActionKind_code (fs_kind a));
   text_value (fs_path a);
   match fs_destination a with Some d => text_value d | None => CAtom Null end;
   match fs_expected_digest a with Some d => text_value d | None => CAtom Null end;
   match fs_content a with Some c => CAtom (PatchContent_encode c) | None => CAtom Null end].

(** The loop over the actions; [paths] is the [HashSet] so far. *)
Fixpoint actions_loop (actions : list FsAction) (paths : gset str) (inline_bytes : Z)
    : result RequestError Z :=
  match actions with
  | [] => Ok inline_bytes
  | action :: actions =>
      _ ← FsAction_validate action;
      if bool_decide (fs_path action ∈ paths) then Err (RE_UnexpectedValue "p")
      else
        let paths := {[fs_path action]} ∪ paths in
        paths ← match fs_destination action with
                | Some destination =>
                    if bool_decide (destination ∈ paths) then Err (RE_UnexpectedValue "p")
                    else Ok ({[destination]} ∪ paths)
                | None => Ok paths
                end;
        inline_bytes ← match fs_content action with
                       | Some (PInline content) =>
                           ok_or (checked_add usize_max inline_bytes (str_len content))
                             (RE_InvalidLimit "v")
                       | _ => Ok inline_bytes
                       end;
        actions_loop actions paths inline_bytes
  end.

Definition FsArgs_validate (actions : list FsAction) : result RequestError unit :=
  if bool_decide (actions = []) || (MAX_FS_ACTIONS <? len actions)
  then Err (RE_InvalidLimit "a")
  else if negb (windows2_all (fun a b => fs_id a <? fs_id b) actions)
  then Err (RE_UnexpectedValue "i")
  else
    inline_bytes ← actions_loop actions ∅ 0;
    if MAX_PATCH_INLINE_BYTES <? inline_bytes then Err (RE_InvalidLimit "v") else Ok tt.

Definition FsArgs_decode (t : Table) : result RequestError (list FsAction) :=
  _ ← expect_table_columns t FS_COLUMNS;
  actions ← mapM FsAction_decode (table_rows t);
  validated FsArgs_validate actions.

(** [Ok(Value::Table(Table::new(keys(columns)?, rows)?))] *)
Definition table_value (columns : list str) (rows : list (list Cell)) : result BuildError Value :=
  ks ← keys columns;
  t ← Table_new ks rows;
  Ok (VTable t).

Definition FsArgs_encode (actions : list FsAction) : result BuildError Value :=
  table_value FS_COLUMNS (FsAction_encode <$> actions).

(** ** Snapshot *)

Inductive SnapshotMode : Type := SnapCapture | SnapDelta.

Record SnapshotArgs : Type := mkSnapshot {
  sn_paths : list str;
  sn_depth : Z;
  sn_mode : SnapshotMode;
  sn_baseline : option Z;
  sn_flags : Z;
}.

Definition SnapshotArgs_validate (a : SnapshotArgs) : result RequestError unit :=
  _ ← validate_paths (sn_paths a);
  if negb (paths_sorted (sn_paths a)) then Err (RE_UnexpectedValue "p")
  else if 64 <? sn_depth a then Err (RE_InvalidLimit "d")
  else
    _ ← match sn_mode a, sn_baseline a with
        | SnapCapture, None => Ok tt
        | SnapDelta, Some baseline =>
            if 1 <=? baseline then Ok tt else Err (RE_UnexpectedValue "r")
        | SnapCapture, Some _ | SnapDelta, None => Err (RE_UnexpectedValue "r")
        end;
    validate_flags (sn_flags a) SNAPSHOT_FLAGS.

Definition SnapshotArgs_decode (r : Rec) : result RequestError SnapshotArgs :=
  _ ← expect_columns r SNAPSHOT_COLUMNS;
  let values := rec_values r in
  m ← unsigned_cell (cell_at values 2) "m";
  mode ← (if m =? 0 then Ok SnapCapture else if m =? 1 then Ok SnapDelta
          else Err (RE_UnexpectedValue "m"));
  p ← text_vector (cell_at values 0) "p";
  d ← (n ← unsigned_cell (cell_at values 1) "d"; narrow_u16 n "d");
  b ← optional_reference_cell (cell_at values 3) "r";
  f ← (n ← unsigned_cell (cell_at values 4) "f"; narrow_u32 n "f");
  validated SnapshotArgs_validate (mkSnapshot p d mode b f).

Definition SnapshotArgs_encode (a : SnapshotArgs) : result BuildError Value :=
  record_value SNAPSHOT_COLUMNS
    [text_vector_value (sn_paths a);
     unsigned_value (sn_depth a);
     unsigned_value (match sn_mode a with SnapCapture => 0 | SnapDelta => 1 end);
     match sn_baseline a with Some reference => CAtom (Reference reference) | None => null_value end;
     unsigned_value (sn_flags a)].

(** ** Cancel *)

Definition CancelArgs_validate (target_id : Z) : result RequestError unit :=
  if target_id =? 0 then Err (RE_InvalidUnsigned "i") else Ok tt.

Definition CancelArgs_decode (r : Rec) : result RequestError Z :=
  _ ← expect_columns r CANCEL_COLUMNS;
  i ← unsigned_cell (cell_at (rec_values r) 0) "i";
  validated CancelArgs_validate i.

Definition CancelArgs_encode (target_id : Z) : result BuildError Value :=
  record_value CANCEL_COLUMNS [unsigned_value target_id].

(** ** Retained-result formulas *)

Inductive RefFormula : Type :=
| FBytes (offset length : Z)
| FLines (offset length : Z)
| FSearch (offset length : Z) (query : str) (flags : Z)
| FRelease
| FProject (table : str) (offset length : Z) (columns : list str)
| FMaterialize (path : str).

Record RefArgs : Type := mkRef { ref_reference : Z; ref_formula : RefFormula }.

Definition RefArgs_operation (a : RefArgs) : Operation :=
  match ref_formula a with
  | FBytes _ _ => RefBytes
  | FLines _ _ => RefLines
  | FSearch _ _ _ _ => RefSearch
  | FRelease => RefRelease
  | FProject _ _ _ _ => RefProject
  | FMaterialize _ => RefMaterialize
  end.

(** The loop over the projected columns; [unique] is the [HashSet] so far. *)
Fixpoint project_columns_loop (columns : list str) (unique : gset str) : result RequestError unit :=
  match columns with
  | [] => Ok tt
  | column :: columns =>
      _ ← validate_text column "c" 128;
      if negb (is_ok (Key_new column)) || bool_decide (column ∈ unique)
      then Err (RE_InvalidText "c")
      else project_columns_loop columns ({[column]} ∪ unique)
  end.

Definition RefArgs_validate (a : RefArgs) : result RequestError unit :=
  if ref_reference a =? 0 then Err (RE_InvalidUnsigned "r")
  else
    match ref_formula a with
    | FBytes _ length =>
        if (length =? 0) || (MAX_REF_BYTES <? length) then Err (RE_InvalidLimit "n") else Ok tt
    | FLines offset length =>
        if offset =? 0 then Err (RE_InvalidLimit "o")
        else if (length =? 0) || (MAX_REF_LINES <? length) then Err (RE_InvalidLimit "n")
        else Ok tt
    | FSearch _ length query flags =>
        if (length =? 0) || (MAX_REF_BYTES <? length) then Err (RE_InvalidLimit "n")
        else
          _ ← validate_text query "q" MAX_TEXT_BYTES;
          validate_flags flags REF_SEARCH_FLAGS
    | FRelease => Ok tt
    | FProject table _ length columns =>
        if (length =? 0) || (MAX_REF_LINES <? length) then Err (RE_InvalidLimit "n")
        else
          _ ← validate_text table "t" 128;
          if negb (is_ok (Key_new table)) || bool_decide (columns = []) || (128 <? len columns)
          then Err (RE_InvalidText "c")
          else project_columns_loop columns ∅
    | FMaterialize path => validate_text path "p" 4096
    end.

Definition expect_formula_width (values : list Atom) (expected : Z) : result RequestError unit :=
  if len values =? expected then Ok tt else Err (RE_UnexpectedValue "a").

Definition reference_formula_atom (value : Atom) : result RequestError Z :=
  match value with
  | Reference reference =>
      if negb (reference =? 0) then Ok reference else Err (RE_InvalidUnsigned "r")
  | _ => Err (RE_InvalidUnsigned "r")
  end.

Definition text_formula_atom (value : Atom) (field : string) : result RequestError str :=
  match value with AText value => Ok value | _ => Err (RE_InvalidText field) end.

(** [&values[i]], after the width has been checked. *)
Definition atom_at (values : list Atom) (i : nat) : Atom := nth i values Null.

Definition RefArgs_decode (operation : Operation) (values : list Atom)
    : result RequestError RefArgs :=
  first ← ok_or (head values) (RE_UnexpectedValue "a");
  reference ← reference_formula_atom first;
  formula ←
    match operation with
    | RefBytes =>
        _ ← expect_formula_width values 3;
        o ← unsigned_atom (atom_at values 1) "o";
        n ← unsigned_atom (atom_at values 2) "n";
        Ok (FBytes o n)
    | RefLines =>
        _ ← expect_formula_width values 3;
        o ← unsigned_atom (atom_at values 1) "o";
        n ← unsigned_atom (atom_at values 2) "n";
        Ok (FLines o n)
    | RefSearch =>
        _ ← expect_formula_width values 5;
        o ← unsigned_atom (atom_at values 1) "o";
        n ← unsigned_atom (atom_at values 2) "n";
        q ← text_formula_atom (atom_at values 3) "q";
        f ← (n ← unsigned_atom (atom_at values 4) "f"; narrow_u32 n "f");
        Ok (FSearch o n q f)
    | RefRelease =>
        _ ← expect_formula_width values 1;
        Ok FRelease
    | RefProject =>
        if len values <? 5 then Err (RE_UnexpectedValue "a")
        else
          t ← text_formula_atom (atom_at values 1) "t";
          o ← unsigned_atom (atom_at values 2) "o";
          n ← unsigned_atom (atom_at values 3) "n";
          columns ← mapM (fun value => text_formula_atom value "c") (drop 4 values);
          Ok (FProject t o n columns)
    | RefMaterialize =>
        _ ← expect_formula_width values 2;
        p ← text_formula_atom (atom_at values 1) "p";
        Ok (FMaterialize p)
    | _ => Err RE_UnsupportedOperation
    end;
  validated RefArgs_validate (mkRef reference formula).

Definition RefArgs_encode (a : RefArgs) : result BuildError Value :=
  Ok (Vector (Reference (ref_reference a) ::
    match ref_formula a with
    | FBytes offset length | FLines offset length =>
        [AText (to_string offset); AText (to_string length)]
    | FSearch offset length query flags =>
        [AText (to_string offset); AText (to_string length); AText query;
         AText (to_string flags)]
    | FRelease => []
    | FProject table offset length columns =>
        [AText table; AText (to_string offset); AText (to_string length)]
        ++ (AText <$> columns)
    | FMaterialize path => [AText path]
    end)).

(** ** Arguments and batches *)

Inductive Arguments : Type :=
| AExec (a : ExecArgs)
| ARead (a : ReadArgs)
| AList (a : ListArgs)
| ASearch (a : SearchArgs)
| APatch (a : PatchArgs)
| AFs (actions : list FsAction)
| ABatch (nodes : list BatchNode)
| ASnapshot (a : SnapshotArgs)
| ARef (a : RefArgs)
| ACancel (target_id : Z)
with BatchNode : Type :=
| mkNode (id : Z) (dependencies : list Z) (arguments : Arguments).

Definition node_id (n : BatchNode) : Z := let '(mkNode id _ _) := n in id.
Definition node_dependencies (n : BatchNode) : list Z := let '(mkNode _ d _) := n in d.
Definition node_arguments (n : BatchNode) : Arguments := let '(mkNode _ _ a) := n in a.

Definition Arguments_operation (a : Arguments) : Operation :=
  match a with
  | AExec _ => OpExec
  | ARead _ => OpRead
  | AList _ => OpList
  | ASearch _ => OpSearch
  | APatch _ => OpPatch
  | AFs _ => OpFs
  | ABatch _ => OpBatch
  | ASnapshot _ => OpSnapshot
  | ARef a => RefArgs_operation a
  | ACancel _ => OpCancel
  end.

Fixpoint required_capabilities (a : Arguments) : Z :=
  match a with
  | AExec _ => capability_mask HostProcess
  | ARead _ | AList _ | ASearch _ | ASnapshot _ => capability_mask WorkspaceRead
  | APatch _ | AFs _ => capability_mask WorkspaceWrite
  | ABatch nodes =>
      fold_left (fun mask node =>
        match node with mkNode _ _ arguments => Z.lor mask (required_capabilities arguments) end)
        nodes 0
  | ARef a =>
      Z.lor (capability_mask RetainedResult)
        (match ref_formula a with
         | FMaterialize _ => capability_mask WorkspaceWrite
         | _ => 0
         end)
  | ACancel _ => 0
  end.

Definition is_batch_or_cancel (o : Operation) : bool :=
  match o with OpBatch | OpCancel => true | _ => false end.

(** *** Validation *)

Definition dependencies_ok (id : Z) (dependencies : list Z) : bool :=
  negb ((MAX_BATCH_EDGES <? len dependencies)
        || negb (windows2_all Z.ltb dependencies)
        || existsb (fun dependency => (dependency =? 0) || (dependency =? id)) dependencies).

(** [positions]: node ids to indices, the last one winning. *)
Definition positions_of (nodes : list BatchNode) : gmap Z nat :=
  foldl (fun m '(index, node) => <[node_id node := index]> m) ∅ (imap pair nodes).

(** [positions.get(dependency)] for each dependency of a node. *)
Definition dependency_indices (positions : gmap Z nat) (dependencies : list Z)
    : result RequestError (list nat) :=
  mapM (fun dependency => ok_or (positions !! dependency) (RE_UnexpectedValue "d")) dependencies.

Section Batch.
Variable node_validate : BatchNode -> result RequestError unit.

(** The loop of [BatchArgs::validate] over the nodes.  It returns the dependency
    indices of every node, of which [incoming] and [dependents] are made. *)
Fixpoint batch_loop (positions : gmap Z nat) (nodes : list BatchNode) (edge_count : Z)
    : result RequestError (list (list nat)) :=
  match nodes with
  | [] => Ok []
  | node :: nodes =>
      _ ← node_validate node;
      edge_count ← ok_or (checked_add usize_max edge_count (len (node_dependencies node)))
                     (RE_InvalidLimit "d");
      if MAX_BATCH_EDGES <? edge_count then Err (RE_InvalidLimit "d")
      else
        indices ← dependency_indices positions (node_dependencies node);
        rest ← batch_loop positions nodes edge_count;
        Ok (indices :: rest)
  end.

Definition BatchArgs_validate_with (nodes : list BatchNode) : result RequestError unit :=
  if bool_decide (length nodes = O) || (MAX_BATCH_NODES <? len nodes)
  then Err (RE_InvalidLimit "a")
  else if negb (windows2_all Z.ltb (node_id <$> nodes)) then Err (RE_UnexpectedValue "i")
  else
    indices ← batch_loop (positions_of nodes) nodes 0;
    if all_visited indices then Ok tt else Err (RE_UnexpectedValue "d").
End Batch.

Definition BatchNode_validate_with (arguments_validate : Arguments -> result RequestError unit)
    (node : BatchNode) : result RequestError unit :=
  match node with
  | mkNode id dependencies arguments =>
      if id =? 0 then Err (RE_InvalidUnsigned "i")
      else if negb (dependencies_ok id dependencies) then Err (RE_UnexpectedValue "d")
      else if is_batch_or_cancel (Arguments_operation arguments) then Err RE_UnsupportedOperation
      else arguments_validate arguments
  end.

Fixpoint Arguments_validate (a : Arguments) : result RequestError unit :=
  match a with
  | AExec a => ExecArgs_validate a
  | ARead a => ReadArgs_validate a
  | AList a => ListArgs_validate a
  | ASearch a => SearchArgs_validate a
  | APatch a => PatchArgs_validate a
  | AFs actions => FsArgs_validate actions
  | ABatch nodes => BatchArgs_validate_with (BatchNode_validate_with Arguments_validate) nodes
  | ASnapshot a => SnapshotArgs_validate a
  | ARef a => RefArgs_validate a
  | ACancel target_id => CancelArgs_validate target_id
  end.

Definition BatchNode_validate : BatchNode -> result RequestError unit :=
  BatchNode_validate_with Arguments_validate.
Definition BatchArgs_validate : list BatchNode -> result RequestError unit :=
  BatchArgs_validate_with BatchNode_validate.

(** *** Encoding *)

Definition BatchNode_encode_with (arguments_encode : Arguments -> result BuildError Value)
    (node : BatchNode) : result BuildError (list Cell) :=
  match node with
  | mkNode id dependencies arguments =>
      a ← Key_new (L "a");
      value ← arguments_encode arguments;
      document ← Document_new [mkField a value];
      Ok [unsigned_value id;
          CVector ((fun dependency => AText (to_string dependency)) <$> dependencies);
          text_value [operation_id (Arguments_operation arguments)];
          text_value (encode document)]
  end.

Fixpoint Arguments_encode (a : Arguments) : result BuildError Value :=
  match a with
  | AExec a => ExecArgs_encode a
  | ARead a => ReadArgs_encode a
  | AList a => ListArgs_encode a
  | ASearch a => SearchArgs_encode a
  | APatch a => PatchArgs_encode a
  | AFs actions => FsArgs_encode actions
  | ABatch nodes =>
      rows ← mapM (BatchNode_encode_with Arguments_encode) nodes;
      table_value BATCH_COLUMNS rows
  | ASnapshot a => SnapshotArgs_encode a
  | ARef a => RefArgs_encode a
  | ACancel target_id => CancelArgs_encode target_id
  end.

Definition BatchNode_encode : BatchNode -> result BuildError (list Cell) :=
  BatchNode_encode_with Arguments_encode.

(** *** Decoding

    [Arguments::decode], [BatchArgs::decode] and [BatchNode::decode] call each
    other on a document parsed from a cell, so the recursion is not structural.
    Each is defined over the next; [BatchNode::decode] refuses a nested batch
    before it decodes the arguments, so one level ties the knot, and
    [Arguments_decode_eq] is the recursive equation of the source. *)

(** The first byte of a one-byte text, as an operation. *)
Definition operation_of_text (operation_text : str) : option Operation :=
  match str_bytes operation_text with [b] => operation_from_id b | _ => None end.

Section Decode.
Variable arguments_decode : Operation -> Value -> result RequestError Arguments.

Definition BatchNode_decode_with (row : list Cell) : result RequestError BatchNode :=
  id ← unsigned_cell (cell_at row 0) "i";
  dependencies ← unsigned_vector (cell_at row 1) "d";
  operation_text ← text_cell (cell_at row 2) "o";
  operation ← ok_or (operation_of_text operation_text) RE_UnsupportedOperation;
  if is_batch_or_cancel operation then Err RE_UnsupportedOperation
  else
    payload ← text_cell (cell_at row 3) "a";
    _ ← validate_bounded_text payload "a" MAX_TEXT_BYTES;
    document ← map_err (fun _ => RE_InvalidText "a") (decode payload);
    if negb (bool_decide (encode document = payload)) then Err (RE_InvalidText "a")
    else
      _ ← expect_fields document [L "a"];
      value ← ok_or (Document_get document (L "a")) (RE_InvalidText "a");
      arguments ← arguments_decode operation value;
      validated BatchNode_validate (mkNode id dependencies arguments).

Definition BatchArgs_decode_with (t : Table) : result RequestError (list BatchNode) :=
  _ ← expect_table_columns t BATCH_COLUMNS;
  nodes ← mapM BatchNode_decode_with (table_rows t);
  validated BatchArgs_validate nodes.
End Decode.

Definition Arguments_decode_record (operation : Operation) (r : Rec)
    : result RequestError Arguments :=
  match operation with
  | OpExec => AExec <$> ExecArgs_decode r
  | OpRead => ARead <$> ReadArgs_decode r
  | OpList => AList <$> ListArgs_decode r
  | OpSearch => ASearch <$> SearchArgs_decode r
  | OpPatch => APatch <$> PatchArgs_decode r
  | OpSnapshot => ASnapshot <$> SnapshotArgs_decode r
  | OpCancel => ACancel <$> CancelArgs_decode r
  | _ => Err RE_UnsupportedOperation
  end.

Definition Arguments_decode_with (batch_decode : Table -> result RequestError (list BatchNode))
    (operation : Operation) (value : Value) : result RequestError Arguments :=
  if is_reference_formula operation then
    match value with
    | Vector values => ARef <$> RefArgs_decode operation values
    | _ => Err (RE_ExpectedVector "a")
    end
  else
    match operation with
    | OpFs =>
        match value with
        | VTable table => AFs <$> FsArgs_decode table
        | _ => Err (RE_ExpectedTable "a")
        end
    | OpBatch =>
        match value with
        | VTable table => ABatch <$> batch_decode table
        | _ => Err (RE_ExpectedTable "a")
        end
    | _ =>
        match value with
        | VRecord r => Arguments_decode_record operation r
        | _ => Err (RE_ExpectedRecord "a")
        end
    end.

Definition Arguments_decode : Operation -> Value -> result RequestError Arguments :=
  Arguments_decode_with
    (BatchArgs_decode_with (Arguments_decode_with (fun _ => Err RE_UnsupportedOperation))).

(** ** The envelope *)

Record Request : Type := mkRequest {
  rq_id : Z;
  rq_arguments : Arguments;
  rq_budget : Budget;
  rq_permit : option bytes;
}.

Definition Request_operation (r : Request) : Operation := Arguments_operation (rq_arguments r).

Definition Request_new (id : Z) (arguments : Arguments) (budget : Budget)
    : result RequestError Request :=
  if id =? 0 then Err (RE_InvalidUnsigned "i")
  else if match arguments with ACancel target_id => target_id =? id | _ => false end
  then Err (RE_UnexpectedValue "i")
  else
    _ ← Arguments_validate arguments;
    _ ← match arguments with
        | ABatch nodes =>
            n ← (if len nodes <=? u32_max then Ok (len nodes) else Err (RE_InvalidLimit "a"));
            if (b_tokens budget <? n) || (b_records budget <? n)
            then Err (RE_InvalidLimit "u") else Ok tt
        | AFs actions =>
            n ← (if len actions <=? u32_max then Ok (len actions) else Err (RE_InvalidLimit "a"));
            if (b_tokens budget <? n) || (b_records budget <? n)
            then Err (RE_InvalidLimit "u") else Ok tt
        | _ => Ok tt
        end;
    _ ← Budget_validate budget;
    Ok (mkRequest id arguments budget None).

Definition with_permit (r : Request) (permit : bytes) : Request :=
  mkRequest (rq_id r) (rq_arguments r) (rq_budget r) (Some permit).

Definition Request_decode (document : Document) : result RequestError Request :=
  has_permit ← (if is_ok (E := RequestError) (expect_fields document ENVELOPE_FIELDS)
                then Ok false
                else _ ← expect_fields document PERMITTED_ENVELOPE_FIELDS; Ok true);
  _ ← expect_unsigned (Document_get document (L "t")) "t" 1;
  id ← unsigned (Document_get document (L "i")) "i";
  operation_text ← text (Document_get document (L "o")) "o";
  operation ← ok_or (operation_of_text operation_text) RE_UnsupportedOperation;
  value ← ok_or (Document_get document (L "a")) RE_Fields;
  arguments ← Arguments_decode operation value;
  budget_record ← record (Document_get document (L "u")) "u";
  _ ← expect_columns budget_record BUDGET_COLUMNS;
  let budget_values := rec_values budget_record in
  tok ← (n ← unsigned_cell (cell_at budget_values 0) "tok"; narrow_u32 n "tok");
  rec ← (n ← unsigned_cell (cell_at budget_values 1) "rec"; narrow_u32 n "rec");
  ms ← unsigned_cell (cell_at budget_values 2) "ms";
  budget ← Budget_new tok rec ms;
  request ← Request_new id arguments budget;
  if (has_permit : bool) then
    v ← text (Document_get document (L "v")) "v";
    permit ← map_err (fun _ => RE_InvalidText "v") (token_parse v);
    Ok (with_permit request permit)
  else Ok request.

Definition id_hint (document : Document) : option Z :=
  match to_option (unsigned (E := RequestError) (Document_get document (L "i")) "i") with
  | Some id => if id =? 0 then None else Some id
  | None => None
  end.

Definition Request_encode (r : Request) : result BuildError Document :=
  t ← scalar_field (L "t") (L "1");
  i ← scalar_field (L "i") (to_string (rq_id r));
  o ← scalar_field (L "o") [operation_id (Request_operation r)];
  a ← Key_new (L "a");
  value ← Arguments_encode (rq_arguments r);
  u ← Key_new (L "u");
  budget ← record_value BUDGET_COLUMNS
    [unsigned_value (b_tokens (rq_budget r)); unsigned_value (b_records (rq_budget r));
     unsigned_value (b_millis (rq_budget r))];
  permit ← match rq_permit r with
           | Some permit => v ← scalar_field (L "v") (token_encode permit); Ok [v]
           | None => Ok []
           end;
  Document_new ([t; i; o; mkField a value; mkField u budget] ++ permit).

(** The action-only document an approval is bound to. *)
Definition authorization_target (r : Request) : result BuildError Document :=
  v ← scalar_field (L "v") (L "1");
  o ← scalar_field (L "o") [operation_id (Request_operation r)];
  a ← Key_new (L "a");
  value ← Arguments_encode (rq_arguments r);
  c ← scalar_field (L "c") (to_string (required_capabilities (rq_arguments r)));
  Document_new [v; o; mkField a value; c].
