(* ===== verification/RequestFacts.v ===== *)
(** * RequestFacts: the argument schemas

    For every operation family, decoding accepts exactly the ASON values that
    encoding produces of valid arguments, and gives those arguments back. *)

From S2P Require Import Prelude Text AsonModel AsonCodec AsonScalarFacts AsonFacts AsonSound.
From S2P Require Import Graph Wire Capability Request.

(** ** Readers of this file *)

Lemma text_vector_ok cell field l :
  text_vector cell field = Ok l <-> cell = text_vector_value l.
Proof.
  unfold text_vector, text_vector_value. destruct cell as [a|values]; [done|].
  rewrite mapM_ok. split.
  - intros H. f_equal. induction H as [|x y l k Hxy _ IH]; [done|]. cbn.
    destruct x; try done. injection Hxy as ->. by f_equal.
  - intros [= ->]. induction l as [|s l IH]; [constructor|]. by constructor.
Qed.

Lemma unsigned_vector_ok cell field l :
  unsigned_vector cell field = Ok l <->
  cell = CVector ((fun n => AText (to_string n)) <$> l) /\ forallb u64_ok l = true.
Proof.
  unfold unsigned_vector. destruct cell as [a|values]; [naive_solver|].
  rewrite mapM_ok. split.
  - intros H. induction H as [|x y l k Hxy _ IH]; [done|].
    apply unsigned_atom_ok in Hxy as [-> Hy]. destruct IH as [[= ->] Hk]. cbn.
    rewrite Hk, andb_true_r. split; [done|]. unfold u64_ok. lia.
  - intros [[= ->] Hl]. induction l as [|n l IH]; [constructor|].
    cbn in Hl. unfold u64_ok in Hl at 1. apply andb_true_iff in Hl as [Hn Hl].
    constructor; [|by apply IH]. apply unsigned_atom_ok. split; [done|lia].
Qed.

Lemma atom_vector_ok cell field l : atom_vector cell field = Ok l <-> cell = CVector l.
Proof. unfold atom_vector. destruct cell; naive_solver. Qed.

Lemma optional_text_cell_ok cell field o :
  optional_text_cell cell field = Ok o <->
  cell = match o with Some s => text_value s | None => CAtom Null end.
Proof. unfold optional_text_cell, text_value. destruct cell as [[]|], o; naive_solver. Qed.

Lemma optional_reference_cell_ok cell field o :
  optional_reference_cell cell field = Ok o <->
  cell = match o with Some n => CAtom (Reference n) | None => CAtom Null end
  /\ match o with Some n => n <> 0 | None => True end.
Proof.
  unfold optional_reference_cell. destruct cell as [[|n|]|], o as [m|]; try naive_solver.
  - destruct (Z.eqb_spec n 0); naive_solver.
  - destruct (Z.eqb_spec n 0); naive_solver.
Qed.

Lemma text_formula_atom_ok value field s :
  text_formula_atom value field = Ok s <-> value = AText s.
Proof. unfold text_formula_atom. destruct value; naive_solver. Qed.

Lemma reference_formula_atom_ok value n :
  reference_formula_atom value = Ok n <-> value = Reference n /\ n <> 0.
Proof.
  unfold reference_formula_atom. destruct value as [|m|]; try naive_solver.
  destruct (Z.eqb_spec m 0); naive_solver.
Qed.

Lemma InputSource_decode_ok cell s : InputSource_decode cell = Ok s <-> cell = InputSource_encode s.
Proof. destruct cell as [[]|], s; cbn; unfold text_value; naive_solver. Qed.

Lemma PatchContent_decode_ok atom c :
  PatchContent_decode atom = Ok c <->
  atom = PatchContent_encode c /\ match c with PReference n => n <> 0 | _ => True end.
Proof.
  destruct atom as [|n|s], c as [s'|m]; cbn; try naive_solver;
    destruct (Z.eqb_spec n 0); naive_solver.
Qed.

Lemma validated_ok {A} (validate : A -> result RequestError unit) a b :
  validated validate a = Ok b <-> b = a /\ validate a = Ok tt.
Proof.
  unfold validated. rewrite bind_ok. split; [intros ([] & ? & [= <-]); done|].
  intros [-> ?]. by exists tt.
Qed.

Ltac inv_request :=
  repeat first
    [ progress inv_readers
    | match goal with
      | H : text_vector _ _ = Ok _ |- _ => apply text_vector_ok in H
      | H : unsigned_vector _ _ = Ok _ |- _ => apply unsigned_vector_ok in H as [? ?]
      | H : atom_vector _ _ = Ok _ |- _ => apply atom_vector_ok in H
      | H : optional_text_cell _ _ = Ok _ |- _ => apply optional_text_cell_ok in H
      | H : optional_reference_cell _ _ = Ok _ |- _ =>
          apply optional_reference_cell_ok in H as [? ?]
      | H : text_formula_atom _ _ = Ok _ |- _ => apply text_formula_atom_ok in H
      | H : reference_formula_atom _ = Ok _ |- _ => apply reference_formula_atom_ok in H as [? ?]
      | H : InputSource_decode _ = Ok _ |- _ => apply InputSource_decode_ok in H
      | H : PatchContent_decode _ = Ok _ |- _ => apply PatchContent_decode_ok in H as [? ?]
      | H : validated _ _ = Ok _ |- _ => apply validated_ok in H as [? ?]
      end ].

Ltac solve_request :=
  lazymatch goal with
  | |- text_vector _ _ = Ok _ => apply text_vector_ok; reflexivity
  | |- unsigned_vector _ _ = Ok _ => apply unsigned_vector_ok; split; [reflexivity|done]
  | |- atom_vector _ _ = Ok _ => apply atom_vector_ok; reflexivity
  | |- optional_text_cell _ _ = Ok _ => apply optional_text_cell_ok; reflexivity
  | |- InputSource_decode _ = Ok _ => apply InputSource_decode_ok; reflexivity
  | |- optional_reference_cell _ _ = Ok _ =>
      apply optional_reference_cell_ok; split; [reflexivity|done]
  | |- (if _ then _ else _) = Ok _ => reflexivity
  | |- validated _ _ = Ok _ => apply validated_ok; split; [reflexivity|done]
  | |- _ => solve_reader
  end.
Ltac run_request :=
  repeat lazymatch goal with
  | |- _ ≫= _ = Ok _ =>
      apply bind_ok; first [exists tt|eexists]; split; [solve_request|cbv beta]
  end;
  try solve_request.

Lemma record_value_eq columns values :
  validate_columns columns = Ok tt -> forallb is_valid_key columns = true ->
  length columns = length values ->
  record_value columns values = Ok (VRecord (mkRec columns values)).
Proof.
  intros Hc Hk Hl. unfold record_value. rewrite keys_ok by done. cbn [mbind result_bind].
  by rewrite Record_new_schema.
Qed.

Lemma record_value_inv columns values r :
  validate_columns columns = Ok tt -> forallb is_valid_key columns = true ->
  length columns = length values ->
  record_value columns values = Ok (VRecord r) <-> r = mkRec columns values.
Proof. intros. rewrite record_value_eq by done. naive_solver. Qed.

Lemma cell_at_ok r i : value_ok (VRecord r) = true -> cell_ok (cell_at (rec_values r) i) = true.
Proof.
  cbn [value_ok]. intros H. zbool. unfold cell_at.
  destruct (nth_in_or_default i (rec_values r) (CAtom Null)) as [Hin| ->]; [|done].
  match goal with H : forallb cell_ok _ = true |- _ => rewrite forallb_forall in H; by apply H end.
Qed.

(** ** Exec, read, list, search *)

Definition ExecArgs_ok (a : ExecArgs) : bool := u32_ok (ex_flags a).
Definition ReadArgs_ok (a : ReadArgs) : bool := u64_ok (rd_offset a) && u64_ok (rd_length a).
Definition ListArgs_ok (a : ListArgs) : bool := u16_ok (ls_depth a) && u32_ok (ls_flags a).
Definition SearchArgs_ok (a : SearchArgs) : bool := u32_ok (se_flags a).

Ltac record_shape columns :=
  match goal with
  | Hv : value_ok (VRecord ?r) = true, H : rec_columns ?r = columns |- _ =>
      pose proof (value_ok_record_length _ Hv) as Hlen; pose proof H as Hcols
  end.

Lemma ExecArgs_decode_ok r a :
  value_ok (VRecord r) = true ->
  ExecArgs_decode r = Ok a <->
  ExecArgs_encode a = Ok (VRecord r) /\ ExecArgs_ok a = true /\ ExecArgs_validate a = Ok tt.
Proof.
  intros Hv. unfold ExecArgs_encode. rewrite record_value_inv by done.
  unfold ExecArgs_decode, ExecArgs_ok, u32_ok. split.
  - intros H. inv_request. subst a. record_shape EXEC_COLUMNS. subst.
    split_and!; [by record_from_cells_tac Hcols Hlen|cbn; lia|done].
  - intros (-> & Hok & Hva). zbool. destruct a. run_request.
Qed.

Lemma ReadArgs_decode_ok r a :
  value_ok (VRecord r) = true ->
  ReadArgs_decode r = Ok a <->
  ReadArgs_encode a = Ok (VRecord r) /\ ReadArgs_ok a = true /\ ReadArgs_validate a = Ok tt.
Proof.
  intros Hv. unfold ReadArgs_encode. rewrite record_value_inv by done.
  unfold ReadArgs_decode, ReadArgs_ok, u64_ok. split.
  - intros H. inv_request.
    match goal with H : (if ?m =? 0 then _ else _) = Ok ?mode |- _ =>
      assert (m = match mode with ReadBytes => 0 | ReadLines => 1 end) as Hm
        by (destruct (Z.eqb_spec m 0), (Z.eqb_spec m 1); naive_solver); clear H end.
    subst. record_shape READ_COLUMNS.
    split_and!; [by record_from_cells_tac Hcols Hlen|cbn; lia|done].
  - intros (-> & Hok & Hva). zbool. destruct a as [p mode o n].
    cbn [rd_paths rd_mode rd_offset rd_length] in *. destruct mode; run_request.
Qed.

Lemma ListArgs_decode_ok r a :
  value_ok (VRecord r) = true ->
  ListArgs_decode r = Ok a <->
  ListArgs_encode a = Ok (VRecord r) /\ ListArgs_ok a = true /\ ListArgs_validate a = Ok tt.
Proof.
  intros Hv. unfold ListArgs_encode. rewrite record_value_inv by done.
  unfold ListArgs_decode, ListArgs_ok, u16_ok, u32_ok. split.
  - intros H. inv_request. subst a. record_shape LIST_COLUMNS. subst.
    split_and!; [by record_from_cells_tac Hcols Hlen|cbn; lia|done].
  - intros (-> & Hok & Hva). zbool. destruct a. run_request.
Qed.

Lemma SearchArgs_decode_ok r a :
  value_ok (VRecord r) = true ->
  SearchArgs_decode r = Ok a <->
  SearchArgs_encode a = Ok (VRecord r) /\ SearchArgs_ok a = true /\ SearchArgs_validate a = Ok tt.
Proof.
  intros Hv. unfold SearchArgs_encode. rewrite record_value_inv by done.
  unfold SearchArgs_decode, SearchArgs_ok, u32_ok. split.
  - intros H. inv_request. subst a. record_shape SEARCH_COLUMNS. subst.
    split_and!; [by record_from_cells_tac Hcols Hlen|cbn; lia|done].
  - intros (-> & Hok & Hva). zbool. destruct a. run_request.
Qed.

(** ** Snapshot and cancel *)

Definition SnapshotArgs_ok (a : SnapshotArgs) : bool :=
  u16_ok (sn_depth a) && u32_ok (sn_flags a)
  && match sn_baseline a with Some n => u64_ok n | None => true end.

Lemma snapshot_baseline_nonzero a :
  SnapshotArgs_validate a = Ok tt -> match sn_baseline a with Some n => n <> 0 | None => True end.
Proof.
  unfold SnapshotArgs_validate. intros H. inv_ok. destruct (sn_baseline a); [|done].
  destruct (sn_mode a); [done|]. destruct (Z.leb_spec 1 z); [lia|done].
Qed.

Lemma SnapshotArgs_decode_ok r a :
  value_ok (VRecord r) = true ->
  SnapshotArgs_decode r = Ok a <->
  SnapshotArgs_encode a = Ok (VRecord r) /\ SnapshotArgs_ok a = true
  /\ SnapshotArgs_validate a = Ok tt.
Proof.
  intros Hv. unfold SnapshotArgs_encode. rewrite record_value_inv by done.
  unfold SnapshotArgs_decode, SnapshotArgs_ok, u16_ok, u32_ok. split.
  - intros H. inv_request.
    match goal with H : (if ?m =? 0 then _ else _) = Ok ?mode |- _ =>
      assert (m = match mode with SnapCapture => 0 | SnapDelta => 1 end) as Hm
        by (destruct (Z.eqb_spec m 0), (Z.eqb_spec m 1); naive_solver); clear H end.
    subst. record_shape SNAPSHOT_COLUMNS.
    match goal with H : cell_at (rec_values r) 3 = _ |- _ =>
      pose proof (cell_at_ok r 3 Hv) as Hcell; rewrite H in Hcell end.
    split_and!; [by record_from_cells_tac Hcols Hlen| |done]. cbn.
    match goal with |- context [match ?o with Some _ => _ | None => true end] =>
      assert (match o with Some n => u64_ok n | None => true end = true) as ->
        by (destruct o; [exact Hcell|done]) end.
    lia.
  - intros (-> & Hok & Hva). zbool. pose proof (snapshot_baseline_nonzero a Hva) as Hb.
    destruct a as [p d mode b f].
    cbn [sn_paths sn_depth sn_mode sn_baseline sn_flags] in *. destruct mode; run_request.
Qed.

Lemma CancelArgs_decode_ok r n :
  value_ok (VRecord r) = true ->
  CancelArgs_decode r = Ok n <->
  CancelArgs_encode n = Ok (VRecord r) /\ u64_ok n = true /\ CancelArgs_validate n = Ok tt.
Proof.
  intros Hv. unfold CancelArgs_encode. rewrite record_value_inv by done.
  unfold CancelArgs_decode, u64_ok. split.
  - intros H. inv_request. subst n. record_shape CANCEL_COLUMNS. subst.
    split_and!; [by record_from_cells_tac Hcols Hlen|cbn; lia|done].
  - intros (-> & Hok & Hva). zbool. run_request.
Qed.

(** ** Patch *)

Definition PatchContent_ok (c : PatchContent) : bool :=
  match c with PInline _ => true | PReference n => u64_ok n end.
Definition PatchEdit_ok (e : PatchEdit) : bool :=
  u16_ok (ed_file_index e) && u64_ok (ed_offset e) && u64_ok (ed_delete_length e)
  && PatchContent_ok (ed_replacement e).
Definition PatchArgs_ok (a : PatchArgs) : bool :=
  forallb PatchEdit_ok (pt_edits a) && u32_ok (pt_flags a).

(** What [PatchEdit::new] checks of one edit. *)
Definition edit_valid (e : PatchEdit) : Prop :=
  PatchContent_validate (ed_replacement e) = Ok tt
  /\ ed_offset e + ed_delete_length e <= u64_max.

Lemma PatchEdit_new_ok i o n c e :
  PatchEdit_new i o n c = Ok e <-> e = mkEdit i o n c /\ edit_valid e.
Proof.
  unfold PatchEdit_new, edit_valid. rewrite bind_ok. split.
  - intros ([] & Hv & H). inv_ok. subst.
    match goal with H : checked_add _ _ _ = Some _ |- _ => apply checked_add_Some in H as [_ ?] end.
    done.
  - intros (-> & Hv & Hn). exists tt. split; [done|]. cbn in Hn. unfold checked_add.
    destruct (Z.leb_spec (o + n) u64_max); [done|lia].
Qed.

Lemma edits_loop_valid edits seen inline previous res :
  edits_loop edits seen inline previous = Ok res -> Forall edit_valid edits.
Proof.
  revert seen inline previous. induction edits as [|e edits IH]; intros seen inline previous H;
    [constructor|]. cbn in H. inv_ok.
  match goal with H : checked_add u64_max _ _ = Some _ |- _ => apply checked_add_Some in H as [_ ?] end.
  constructor; [|by eapply IH]. match goal with u : unit |- _ => destruct u end. done.
Qed.

Lemma PatchArgs_validate_edits a :
  PatchArgs_validate a = Ok tt -> Forall edit_valid (pt_edits a).
Proof.
  unfold PatchArgs_validate. intros H. inv_ok.
  match goal with H : edits_loop _ _ _ _ = Ok _ |- _ => by apply edits_loop_valid in H end.
Qed.

Definition decode_edit : Z * Z * Z * Atom -> result RequestError PatchEdit :=
  fun '(file_index, offset, delete_length, replacement) =>
    i ← narrow_u16 file_index "i";
    c ← PatchContent_decode replacement;
    PatchEdit_new i offset delete_length c.

Lemma decode_edits_inv ix os ns cs edits :
  length os = length ix -> length ns = length ix -> length cs = length ix ->
  mapM decode_edit (zip4 ix os ns cs) = Ok edits ->
  ix = ed_file_index <$> edits /\ os = ed_offset <$> edits /\ ns = ed_delete_length <$> edits
  /\ cs = (fun e => PatchContent_encode (ed_replacement e)) <$> edits
  /\ Forall (fun e => ed_file_index e <= u16_max) edits.
Proof.
  revert os ns cs edits. induction ix as [|i ix IH]; intros [|o os] [|n ns] [|c cs] edits;
    try done; intros Ho Hn Hc H.
  - cbn in H. injection H as <-. done.
  - cbn in Ho, Hn, Hc. cbn -[decode_edit] in H. inv_ok. subst.
    match goal with H : mapM decode_edit _ = Ok _ |- _ => apply IH in H as (-> & -> & -> & -> & ?);
      [|lia..] end.
    unfold decode_edit in *. inv_request.
    match goal with H : PatchEdit_new _ _ _ _ = Ok _ |- _ => apply PatchEdit_new_ok in H as [-> ?] end.
    subst. cbn. split_and!; try done. by constructor.
Qed.

Lemma decode_edits_fmap edits :
  Forall edit_valid edits -> forallb PatchEdit_ok edits = true ->
  mapM decode_edit (zip4 (ed_file_index <$> edits) (ed_offset <$> edits)
    (ed_delete_length <$> edits) ((fun e => PatchContent_encode (ed_replacement e)) <$> edits))
  = Ok edits.
Proof.
  induction 1 as [|[i o n c] edits Hv _ IH]; [done|]. cbn [forallb]. intros Hok. zbool.
  match goal with H : PatchEdit_ok _ = true |- _ => unfold PatchEdit_ok, u16_ok in H; cbn in H end.
  zbool. apply mapM_ok. constructor; [|by apply mapM_ok, IH].
  unfold decode_edit. apply bind_ok. exists i. split; [by apply narrow_u16_ok|].
  apply bind_ok. exists c. split.
  - apply PatchContent_decode_ok. split; [done|]. destruct Hv as [Hv _].
    destruct c as [|m]; [done|]. cbn in Hv. by destruct (Z.eqb_spec m 0).
  - by apply PatchEdit_new_ok.
Qed.

Lemma forallb_fmap {A B} (f : A -> B) (P : B -> bool) l :
  forallb P (f <$> l) = forallb (fun x => P (f x)) l.
Proof. induction l as [|x l IH]; [done|]. cbn. by rewrite IH. Qed.

Lemma forallb_andb {A} (P Q : A -> bool) l :
  forallb (fun x => P x && Q x) l = forallb P l && forallb Q l.
Proof. induction l as [|x l IH]; [done|]. cbn. rewrite IH. destruct (P x), (Q x), (forallb P l); done. Qed.

Lemma unsigned_vector_fmap {A} (g : A -> Z) (l : list A) field :
  forallb (fun x => u64_ok (g x)) l = true ->
  unsigned_vector (CVector ((fun x => AText (to_string (g x))) <$> l)) field = Ok (g <$> l).
Proof.
  intros Hl. apply unsigned_vector_ok. rewrite forallb_fmap.
  split; [by rewrite <- list_fmap_compose|done].
Qed.

Lemma PatchArgs_decode_ok r a :
  value_ok (VRecord r) = true ->
  PatchArgs_decode r = Ok a <->
  PatchArgs_encode a = Ok (VRecord r) /\ PatchArgs_ok a = true /\ PatchArgs_validate a = Ok tt.
Proof.
  intros Hv. unfold PatchArgs_encode. rewrite record_value_inv by done.
  unfold PatchArgs_decode. fold decode_edit. split.
  - intros H. inv_request.
    match goal with H : mapM _ (zip4 _ _ _ _) = Ok _ |- _ => change (mapM decode_edit) with
      (mapM decode_edit) in H; apply decode_edits_inv in H as (-> & -> & -> & -> & Hi) end;
      [|unfold len in *; zbool; lia..].
    subst a. record_shape PATCH_COLUMNS. subst.
    pose proof (cell_at_ok r 5 Hv) as Hcell.
    match goal with H : cell_at (rec_values r) 5 = _ |- _ => rewrite H in Hcell end.
    split_and!; [| |done].
    + rewrite <- !list_fmap_compose in *. by record_from_cells_tac Hcols Hlen.
    + rewrite !forallb_fmap in *. cbn [cell_ok] in Hcell. rewrite forallb_fmap in Hcell.
      unfold PatchArgs_ok, u32_ok. cbn [pt_edits pt_flags]. apply andb_true_iff. split; [|lia].
      apply forallb_forall. intros e He.
      repeat match goal with H : forallb _ _ = true |- _ => rewrite forallb_forall in H;
        specialize (H e He) end.
      rewrite Forall_forall in Hi. specialize (Hi e He).
      unfold PatchEdit_ok, u16_ok, u64_ok, PatchContent_ok in *.
      destruct (ed_replacement e); cbn in *; unfold u64_ok in *; lia.
  - intros (-> & Hok & Hva). pose proof (PatchArgs_validate_edits a Hva) as He.
    unfold PatchArgs_ok, u32_ok in Hok. zbool. destruct a as [p h es f].
    cbn [pt_paths pt_expected_digests pt_edits pt_flags] in *.
    match goal with H : forallb PatchEdit_ok es = true |- _ =>
      pose proof (decode_edits_fmap es He H) as Hdec; rename H into Hes end.
    unfold PatchEdit_ok in Hes. rewrite !forallb_andb in Hes. zbool.
    assert (forallb (fun e => u64_ok (ed_file_index e)) es = true).
    { match goal with H : forallb (fun e => u16_ok _) es = true |- _ =>
        eapply forallb_weaken; [|exact H] end. intros e. unfold u16_ok, u64_ok. lia. }
    apply bind_ok. exists tt. split; [solve_request|]. cbv zeta.
    do 2 (apply bind_ok; eexists; split; [solve_request|cbv beta]).
    cbn [rec_values cell_at nth].
    rewrite !unsigned_vector_fmap by done.
    cbn [mbind result_bind atom_vector].
    rewrite !len_fmap, !Z.eqb_refl. cbn [negb orb]. rewrite Hdec. cbn [mbind result_bind]. run_request.
Qed.

(** ** Fs *)

Lemma cells_from_at row cells :
  length row = length cells ->
  Forall2 (fun i c => cell_at row i = c) (seq 0 (length cells)) cells -> row = cells.
Proof.
  intros Hl H. pose proof (record_from_cells (mkRec [] row) [] cells eq_refl Hl H) as E.
  by injection E.
Qed.

Ltac cells_from_at_tac Hlen :=
  apply cells_from_at; [rewrite Hlen; reflexivity|];
  cbn [length seq]; repeat (apply List.Forall2_cons; [eassumption|]); apply List.Forall2_nil.

Lemma row_cell_ok row i : forallb cell_ok row = true -> cell_ok (cell_at row i) = true.
Proof.
  intros H. unfold cell_at.
  destruct (nth_in_or_default i row (CAtom Null)) as [Hin| ->]; [|done].
  rewrite forallb_forall in H. by apply H.
Qed.

Lemma FsActionKind_decode_ok n k : FsActionKind_decode n = Ok k <-> n = FsActionKind_code k.
Proof.
  unfold FsActionKind_decode.
  destruct (Z.eqb_spec n 0), (Z.eqb_spec n 1), (Z.eqb_spec n 2), (Z.eqb_spec n 3), k; cbn;
    naive_solver lia.
Qed.

Definition FsAction_ok (a : FsAction) : bool :=
  u64_ok (fs_id a) && match fs_content a with Some c => PatchContent_ok c | None => true end.

Lemma PatchContent_cell_ok c : cell_ok (CAtom (PatchContent_encode c)) = true -> PatchContent_ok c = true.
Proof. by destruct c. Qed.

Lemma PatchContent_validate_nonzero c :
  PatchContent_validate c = Ok tt -> match c with PReference n => n <> 0 | _ => True end.
Proof. destruct c as [|n]; cbn; [done|]. by destruct (Z.eqb_spec n 0). Qed.

Lemma FsAction_decode_ok row a :
  length row = 6%nat -> forallb cell_ok row = true ->
  FsAction_decode row = Ok a <->
  row = FsAction_encode a /\ FsAction_ok a = true /\ FsAction_validate a = Ok tt.
Proof.
  intros Hlen Hrow. unfold FsAction_decode. split.
  - intros H. inv_ok.
    assert (cell_at row 5 = match x with Some c => CAtom (PatchContent_encode c) | None => CAtom Null end) as Hcont.
    { match goal with H : match cell_at row 5 with _ => _ end = Ok _ |- _ => revert H end. clear.
      destruct (cell_at row 5) as [a|l]; [|done].
      destruct a; [by intros [= <-]|..];
        intros (c & Hc & ->)%fmap_ok; by apply PatchContent_decode_ok in Hc as [-> _]. }
    pose proof (row_cell_ok row 5 Hrow) as Hc. rewrite Hcont in Hc.
    inv_request.
    match goal with H : FsActionKind_decode _ = Ok _ |- _ => apply FsActionKind_decode_ok in H end.
    subst. split_and!; [by cells_from_at_tac Hlen| |done].
    unfold FsAction_ok, u64_ok. cbn. apply andb_true_iff. split; [lia|].
    destruct x; [by apply PatchContent_cell_ok|done].
  - intros (-> & Hok & Hv). unfold FsAction_ok, u64_ok in Hok. zbool.
    destruct a as [i k p q h c]. unfold FsAction_encode. cbn [fs_id fs_kind fs_path fs_destination
      fs_expected_digest fs_content] in *.
    apply bind_ok. exists c. split.
    { destruct c as [c|]; [|done]. cbn [cell_at nth].
      assert (match c with PReference n => n <> 0 | _ => True end).
      { apply PatchContent_validate_nonzero. unfold FsAction_validate in Hv.
        cbn [fs_content fs_id] in Hv. inv_ok.
        repeat match goal with u : unit |- _ => destruct u end. done. }
      assert (PatchContent_decode (PatchContent_encode c) = Ok c) as E
        by by apply PatchContent_decode_ok.
      destruct c; [done|]. cbn [PatchContent_encode] in *. by rewrite E. }
    apply bind_ok. exists i. split; [solve_request|].
    apply bind_ok. exists k. split; [by destruct k|]. run_request.
Qed.

(** A column of row decoders over a table. *)
Lemma rows_decode_ok {A} (dec : list Cell -> result RequestError A) (enc : A -> list Cell)
    (P : A -> Prop) rows l :
  (forall row a, row ∈ rows -> dec row = Ok a <-> row = enc a /\ P a) ->
  mapM dec rows = Ok l <-> rows = enc <$> l /\ Forall P l.
Proof.
  intros Hdec. rewrite mapM_ok. split.
  - intros H. induction H as [|row a rows l Ha _ IH]; [done|].
    apply Hdec in Ha as [-> HP]; [|left].
    destruct IH as [-> HF]; [intros; apply Hdec; by right|]. split; [done|by constructor].
  - intros [-> HF]. induction HF as [|a l Ha _ IH]; [constructor|].
    constructor; [apply Hdec; [left|done]|]. apply IH. intros. apply Hdec. by right.
Qed.

Lemma table_value_inv columns rows t :
  validate_columns columns = Ok tt -> forallb is_valid_key columns = true ->
  Forall (fun row => len row = len columns) rows ->
  table_value columns rows = Ok (VTable t) <-> t = mkTable columns rows.
Proof.
  intros Hc Hk Hr. unfold table_value, Table_new. rewrite keys_ok by done. cbn [mbind result_bind].
  rewrite Hc. cbn [mbind result_bind]. apply check_widths_ok in Hr. rewrite Hr. cbn. naive_solver.
Qed.

Lemma actions_loop_valid actions paths inline res :
  actions_loop actions paths inline = Ok res ->
  Forall (fun a => FsAction_validate a = Ok tt) actions.
Proof.
  revert paths inline. induction actions as [|a actions IH]; intros paths inline H; [constructor|].
  cbn -[FsAction_validate] in H. inv_ok. match goal with u : unit |- _ => destruct u end.
  constructor; [done|by eapply IH].
Qed.

Lemma FsArgs_validate_actions actions :
  FsArgs_validate actions = Ok tt -> Forall (fun a => FsAction_validate a = Ok tt) actions.
Proof.
  unfold FsArgs_validate. intros H. inv_ok.
  match goal with H : actions_loop _ _ _ = Ok _ |- _ => by apply actions_loop_valid in H end.
Qed.

Lemma value_ok_table_rows t row :
  value_ok (VTable t) = true -> row ∈ table_rows t ->
  length row = length (table_columns t) /\ forallb cell_ok row = true.
Proof.
  cbn [value_ok]. intros H Hrow%list_elem_of_In. zbool.
  match goal with H : forallb _ (table_rows t) = true |- _ => rewrite forallb_forall in H;
    specialize (H row Hrow) end.
  zbool. unfold len in *. split; [lia|done].
Qed.

Definition FsArgs_ok (actions : list FsAction) : bool := forallb FsAction_ok actions.

Lemma FsArgs_decode_ok t actions :
  value_ok (VTable t) = true ->
  FsArgs_decode t = Ok actions <->
  FsArgs_encode actions = Ok (VTable t) /\ FsArgs_ok actions = true
  /\ FsArgs_validate actions = Ok tt.
Proof.
  intros Hv. unfold FsArgs_encode. rewrite table_value_inv; [|done|done|].
  2: { apply Forall_fmap, Forall_forall. by intros a _. }
  unfold FsArgs_decode.
  split.
  - intros H. inv_request. subst.
    match goal with H : table_columns t = _ |- _ => rename H into Hcols end.
    match goal with H : mapM _ _ = Ok _ |- _ => apply rows_decode_ok with (enc := FsAction_encode)
      (P := fun a => FsAction_ok a = true /\ FsAction_validate a = Ok tt) in H as [Hrows HF] end.
    2: { intros row a Hrow. apply (value_ok_table_rows t) in Hrow as [Hl Hc]; [|done].
      apply FsAction_decode_ok; [by rewrite Hl, Hcols|done]. }
    split_and!; [by destruct t; cbn in *; subst| |done].
    apply forallb_forall. intros a Ha. rewrite Forall_forall in HF. by apply HF.
  - intros (-> & Hok & Hva). pose proof (FsArgs_validate_actions _ Hva) as HF.
    apply bind_ok. exists tt. split; [solve_request|]. apply bind_ok. exists actions.
    split; [|by apply validated_ok]. cbn [table_rows].
    apply rows_decode_ok with (enc := FsAction_encode)
      (P := fun a => FsAction_ok a = true /\ FsAction_validate a = Ok tt).
    + intros row a Hrow. apply (value_ok_table_rows _ _ Hv) in Hrow as [Hl Hc].
      by apply FsAction_decode_ok.
    + split; [done|]. rewrite Forall_forall in *. intros a Ha. split; [|by apply HF].
      unfold FsArgs_ok in Hok. rewrite forallb_forall in Hok. by apply Hok.
Qed.

(** * what validated mutations guarantee

    A validated patch edits every file it names and no byte twice; a validated
    filesystem program never names a path twice. *)

(** ** Patches *)

(** [e] comes before [f] and does not reach into it. *)
Definition edit_before (e f : PatchEdit) : Prop :=
  ed_file_index e < ed_file_index f
  \/ (ed_file_index e = ed_file_index f /\ ed_offset e < ed_offset f
      /\ ed_offset e + ed_delete_length e <= ed_offset f).

Lemma edit_before_trans e f g : edit_before e f -> edit_before f g -> edit_before e g.
Proof. unfold edit_before. lia. Qed.

Lemma edit_in_order e f :
  ed_offset e + ed_delete_length e <= u64_max ->
  edit_out_of_order e f = false -> edit_before e f.
Proof.
  unfold edit_out_of_order, edit_before, saturating_add. intros Hu H. zbool.
  destruct (Z.eqb_spec (ed_file_index f) (ed_file_index e)); cbn in *; zbool; lia.
Qed.

Definition inline_size (c : PatchContent) : Z :=
  match c with PInline value => str_len value | PReference _ => 0 end.

(** Every edit sets its file's entry of [seen]. *)
Definition mark (seen : list bool) (e : PatchEdit) : list bool :=
  <[Z.to_nat (ed_file_index e) := true]> seen.

Lemma edits_loop_inv edits : forall seen inline previous seen' inline',
  edits_loop edits seen inline previous = Ok (seen', inline') ->
  seen' = foldl mark seen edits
  /\ inline' = inline + zsum (fun e => inline_size (ed_replacement e)) edits
  /\ Forall (fun e => (Z.to_nat (ed_file_index e) < length seen)%nat) edits
  /\ match previous with
     | Some p => ed_offset p + ed_delete_length p <= u64_max ->
                 Sorted.LocallySorted edit_before (p :: edits)
     | None => Sorted.LocallySorted edit_before edits
     end.
Proof.
  induction edits as [|e edits IH]; intros seen inline previous seen' inline' H; cbn in H.
  - injection H as <- <-. rewrite zsum_nil. split_and!; [done|lia|constructor|].
    destruct previous; [intros _|]; constructor.
  - inv_ok. rename select (seen !! _ = _) into Hseen.
    rename select (checked_add u64_max _ _ = _) into Hadd. apply checked_add_Some in Hadd as [_ Hadd].
    apply IH in H as (-> & -> & HF & Hs). specialize (Hs Hadd).
    split_and!; [done| | |].
    + rewrite zsum_cons. destruct (ed_replacement e); cbn [inline_size]; inv_ok.
      * rename select (checked_add _ _ _ = _) into Hi. apply checked_add_Some in Hi as [-> _]. lia.
      * subst. lia.
    + constructor; [by apply lookup_lt_Some in Hseen|].
      unfold mark in HF. rewrite length_insert in HF. exact HF.
    + destruct previous as [p|]; [|exact Hs]. intros Hp. constructor; [exact Hs|].
      by apply edit_in_order.
Qed.

Lemma length_marks edits : forall seen, length (foldl mark seen edits) = length seen.
Proof.
  induction edits as [|e edits IH]; intros seen; [done|]. cbn. rewrite IH. apply length_insert.
Qed.

Lemma marks_lookup edits : forall seen k,
  Forall (fun e => (Z.to_nat (ed_file_index e) < length seen)%nat) edits ->
  foldl mark seen edits !! k = Some true ->
  seen !! k = Some true \/ exists e, e ∈ edits /\ Z.to_nat (ed_file_index e) = k.
Proof.
  induction edits as [|e edits IH]; intros seen k HF Hk; [by left|].
  apply list.Forall_cons in HF as [He HF]. cbn [foldl] in Hk. apply IH in Hk.
  - destruct Hk as [Hk|(f & Hf & <-)]; [|right; exists f; split; [by right|done]].
    unfold mark in Hk. destruct (decide (Z.to_nat (ed_file_index e) = k)) as [<-|Hne].
    + right. exists e. split; [left|done].
    + left. by rewrite list_lookup_insert_ne in Hk.
  - unfold mark. by rewrite length_insert.
Qed.

Lemma PatchArgs_validate_safe a :
  PatchArgs_validate a = Ok tt ->
  Sorted.StronglySorted edit_before (pt_edits a)
  /\ Forall (fun e => (Z.to_nat (ed_file_index e) < length (pt_paths a))%nat) (pt_edits a)
  /\ (forall k, (k < length (pt_paths a))%nat ->
        exists e, e ∈ pt_edits a /\ Z.to_nat (ed_file_index e) = k)
  /\ zsum (fun e => inline_size (ed_replacement e)) (pt_edits a) <= MAX_PATCH_INLINE_BYTES.
Proof.
  unfold PatchArgs_validate. intros H. inv_ok. destruct x0 as [seen inline]. inv_ok. zbool.
  rename select (edits_loop _ _ _ _ = _) into Hl.
  apply edits_loop_inv in Hl as (-> & -> & HF & Hs). rewrite length_replicate in HF.
  split_and!; [| done | |lia].
  - apply Sorted.Sorted_StronglySorted; [intros e f g; apply edit_before_trans|].
    by apply Sorted.Sorted_LocallySorted_iff.
  - intros k Hk.
    destruct (foldl mark (replicate (length (pt_paths a)) false) (pt_edits a) !! k) as [[]|] eqn:Hb.
    + apply marks_lookup in Hb as [Hb|Hb]; [|done|by rewrite length_replicate].
      by apply lookup_replicate in Hb as [? _].
    + exfalso. rename select (existsb negb _ = false) into He.
      assert (existsb negb (foldl mark (replicate (length (pt_paths a)) false) (pt_edits a)) = true)
        as Ht; [|by rewrite He in Ht].
      apply existsb_exists. exists false. split; [|done].
      apply list_elem_of_In. by eapply list_elem_of_lookup_2.
    + apply lookup_ge_None in Hb. rewrite length_marks, length_replicate in Hb. lia.
Qed.

(** Two edits of one file, in the order of the list, do not overlap. *)
Lemma StronglySorted_lookup {A} (R : A -> A -> Prop) l i j x y :
  Sorted.StronglySorted R l -> (i < j)%nat -> l !! i = Some x -> l !! j = Some y -> R x y.
Proof.
  intros Hs. revert i j. induction Hs as [|z l Hs IH HF]; intros i j Hij Hi Hj; [done|].
  destruct j as [|j]; [lia|]. destruct i as [|i].
  - injection Hi as ->. rewrite list.Forall_lookup in HF. by apply (HF j).
  - by apply (IH i j); [lia|..].
Qed.

(** ** Filesystem programs *)

(** The paths an action names. *)
Definition action_paths (a : FsAction) : list str :=
  fs_path a :: match fs_destination a with Some d => [d] | None => [] end.

Definition action_inline (a : FsAction) : Z :=
  match fs_content a with Some c => inline_size c | None => 0 end.

Lemma actions_loop_inv actions : forall paths inline total,
  actions_loop actions paths inline = Ok total ->
  NoDup (actions ≫= action_paths)
  /\ (forall p, p ∈ actions ≫= action_paths -> p ∉ paths)
  /\ total = inline + zsum action_inline actions.
Proof.
  induction actions as [|a actions IH]; intros paths inline total H.
  - cbn in H. injection H as <-. rewrite zsum_nil. cbn.
    split_and!; [constructor|by intros p ?%elem_of_nil|lia].
  - cbn -[FsAction_validate] in H. inv_ok.
    rename select (bool_decide (fs_path a ∈ paths) = false) into Hp.
    apply bool_decide_eq_false in Hp. apply IH in H as (Hnd & Hdisj & ->).
    rewrite bind_cons, zsum_cons.
    assert (NoDup (action_paths a) /\ (forall p, p ∈ action_paths a -> p ∉ paths)
            /\ x0 = list_to_set (action_paths a) ∪ paths) as (Hna & Hda & ->).
    { unfold action_paths. destruct (fs_destination a) as [d|]; inv_ok.
      - rename select (bool_decide (d ∈ _) = false) into Hd. apply bool_decide_eq_false in Hd.
        subst. split_and!; [|set_solver|set_solver].
        apply list.NoDup_cons. split; [set_solver|apply NoDup_singleton].
      - subst. split_and!; [apply NoDup_singleton|set_solver|set_solver]. }
    split_and!.
    + apply list.NoDup_app. split_and!; [done| |done]. intros p Hp1 Hp2.
      apply (Hdisj p Hp2). apply elem_of_union_l. by apply elem_of_list_to_set.
    + intros p [Hp1|Hp1]%elem_of_app; [by apply Hda|]. intros Hin.
      apply (Hdisj p Hp1). by apply elem_of_union_r.
    + unfold action_inline at 2. destruct (fs_content a) as [[v|n]|]; cbn [inline_size]; inv_ok;
        [rename select (checked_add _ _ _ = _) into Hi; apply checked_add_Some in Hi as [-> _]|..];
        subst; lia.
Qed.

Lemma FsArgs_validate_safe actions :
  FsArgs_validate actions = Ok tt ->
  1 <= len actions <= MAX_FS_ACTIONS
  /\ Sorted.Sorted Z.lt (fs_id <$> actions)
  /\ Forall (fun a => FsAction_validate a = Ok tt) actions
  /\ NoDup (actions ≫= action_paths)
  /\ zsum action_inline actions <= MAX_PATCH_INLINE_BYTES.
Proof.
  intros H. pose proof (FsArgs_validate_actions _ H) as HF. unfold FsArgs_validate in H.
  inv_ok. zbool. rename select (actions_loop _ _ _ = _) into Hl.
  apply actions_loop_inv in Hl as (Hnd & _ & ->).
  rename select (bool_decide _ = false) into Hne. apply bool_decide_eq_false in Hne.
  rename select (windows2_all _ _ = true) into Hw.
  split_and!; [|done| |done|done|lia].
  - destruct actions as [|a actions]; [done|]. rewrite len_cons. pose proof (len_nonneg actions). lia.
  - apply (windows2_all_Sorted _ (fun a b => fs_id a < fs_id b)) in Hw; [|intros; apply Z.ltb_lt].
    clear -Hw. induction Hw as [|a l Hw IH Hh]; [constructor|]. cbn. constructor; [done|].
    by destruct Hh; constructor.
Qed.
