(* ===== verification/RequestCodec.v ===== *)
(** * RequestCodec: formulas, batches and the request envelope

    The round trips of the remaining argument shapes, of the mutually recursive
    arguments, and of whole request documents. *)

From S2P Require Import Prelude Text AsonModel AsonCodec AsonScalarFacts AsonFacts AsonSound.
From S2P Require Import Graph Wire Capability Request RequestFacts.

(** ** Retained-result formulas *)

Definition RefArgs_ok (a : RefArgs) : bool :=
  u64_ok (ref_reference a)
  && match ref_formula a with
     | FBytes o n | FLines o n => u64_ok o && u64_ok n
     | FSearch o n _ f => u64_ok o && u64_ok n && u32_ok f
     | FProject _ o n _ => u64_ok o && u64_ok n
     | FRelease | FMaterialize _ => true
     end.

Lemma expect_formula_width_ok values n u :
  expect_formula_width values n = Ok u <-> len values = n.
Proof. unfold expect_formula_width. destruct u, (Z.eqb_spec (len values) n); naive_solver. Qed.

Lemma text_columns_ok values field l :
  mapM (fun value => text_formula_atom value field) values = Ok l <-> values = AText <$> l.
Proof.
  rewrite mapM_ok. split.
  - intros H. induction H as [|x y l k Hxy _ IH]; [done|].
    apply text_formula_atom_ok in Hxy as ->. cbn. by f_equal.
  - intros ->. induction l as [|s l IH]; [constructor|].
    constructor; [by apply text_formula_atom_ok|done].
Qed.

(** Drops the shapes a length hypothesis excludes. *)
Ltac solve_width :=
  rewrite ?len_cons, ?len_nil in *;
  repeat match goal with H : context [len ?l] |- _ =>
    is_var l; lazymatch goal with _ : 0 <= len l |- _ => fail | _ => pose proof (len_nonneg l) end end;
  try lia.

Lemma RefArgs_decode_ok op values a :
  forallb atom_ok values = true ->
  RefArgs_decode op values = Ok a <->
  RefArgs_operation a = op /\ RefArgs_encode a = Ok (Vector values) /\ RefArgs_ok a = true
  /\ RefArgs_validate a = Ok tt.
Proof.
  intros Hvs. unfold RefArgs_decode. split.
  - intros H. inv_request. destruct values as [|first values]; [done|]. cbn [head] in *. simplify_eq.
    cbn [forallb atom_ok] in Hvs. apply andb_true_iff in Hvs as [Href Hvs].
    unfold RefArgs_operation, RefArgs_encode, RefArgs_ok. cbn [ref_reference ref_formula].
    rewrite Href.
    destruct op; try discriminate; inv_request; simplify_eq.
    all: try match goal with H : expect_formula_width _ _ = Ok _ |- _ =>
      apply expect_formula_width_ok in H; rewrite len_cons in H end.
    all: pose proof (len_nonneg values); zbool; rewrite ?len_cons in *.
    1, 2: destruct values as [|? [|? [|? values]]]; solve_width.
    3: destruct values as [|? [|? [|? [|? [|? values]]]]]; solve_width.
    4: destruct values as [|? values]; solve_width.
    5: destruct values as [|? [|? [|? values]]]; solve_width.
    6: destruct values as [|? [|? values]]; solve_width.
    5: match goal with H : mapM _ _ = Ok _ |- _ => apply text_columns_ok in H;
      cbn in H; rewrite drop_0 in H end.
    all: cbn [atom_at nth drop] in *; subst; unfold u64_ok, u32_ok.
    all: split_and!; try done; try lia.
  - intros (<- & Henc & Hok & Hva). unfold RefArgs_encode in Henc. injection Henc as <-.
    unfold RefArgs_ok, u64_ok, u32_ok in Hok. zbool.
    assert (ref_reference a <> 0) by (unfold RefArgs_validate in Hva; inv_ok; zbool; done).
    apply bind_ok. eexists. split; [reflexivity|].
    apply bind_ok. eexists. split; [by apply reference_formula_atom_ok|].
    destruct a as [n f]. cbn [ref_reference ref_formula RefArgs_operation] in *.
    apply bind_ok. exists f. split; [|by apply validated_ok].
    destruct f as [o m|o m|o m q f| |t o m columns|p]; cbn [RefArgs_operation ref_formula] in *;
      zbool; try (run_request; reflexivity).
    assert (columns <> []) as Hcol.
    { intros ->. unfold RefArgs_validate in Hva. cbn [ref_formula] in Hva.
      rewrite (bool_decide_eq_true_2 (@nil str = [])), orb_true_r in Hva by done. by inv_ok. }
    rewrite !len_cons. destruct (Z.ltb_spec (1 + (1 + (1 + (1 + len (AText <$> columns))))) 5).
    { destruct columns as [|c columns]; [done|]. cbn [fmap list_fmap] in *. rewrite len_cons in *.
      pose proof (len_nonneg (AText <$> columns)). lia. }
    run_request; [reflexivity|by apply text_columns_ok; cbn; rewrite drop_0|reflexivity].
Qed.

(** ** Batch nodes *)

Lemma operation_of_text_id o : operation_of_text [operation_id o] = Some o.
Proof. by destruct o. Qed.

Lemma operation_of_text_Some t o : operation_of_text t = Some o -> t = [operation_id o].
Proof.
  unfold operation_of_text. destruct (str_bytes t) as [|b [|b' l]] eqn:Hb; try done.
  intros Ho%operation_from_id_Some. pose proof (operation_id_ascii o). subst b.
  destruct t as [|c t]; [done|].
  assert (In (operation_id o) (str_bytes (c :: t))) as Hin by (rewrite Hb; by left).
  pose proof (str_len_cons c t) as Hl. unfold str_len in Hl at 1. rewrite Hb in Hl.
  rewrite len_cons, len_nil in Hl. pose proof (len_utf8_bounds c). pose proof (str_len_nonneg t).
  assert (t = []) as -> by (apply str_len_zero; lia).
  apply In_str_bytes in Hin as [->|[]]; [done|lia].
Qed.

(** The document a batch node carries its arguments in. *)
Definition payload_document (a : Arguments) : result BuildError Document :=
  key ← Key_new (L "a");
  value ← Arguments_encode a;
  Document_new [mkField key value].

(** The payload text is one that [BatchNode::decode] is prepared to parse: within
    its own bound and within the default ASON limits. *)
Definition payload_fits (a : Arguments) : bool :=
  match payload_document a with
  | Ok d => is_ok (validate_bounded_text (encode d) "a" MAX_TEXT_BYTES)
            && document_ok d && document_within Limits_default d
  | Err _ => false
  end.

(** The integers of the arguments are of the widths their fields have. *)
Fixpoint Arguments_ok (a : Arguments) : bool :=
  match a with
  | AExec a => ExecArgs_ok a
  | ARead a => ReadArgs_ok a
  | AList a => ListArgs_ok a
  | ASearch a => SearchArgs_ok a
  | APatch a => PatchArgs_ok a
  | AFs actions => FsArgs_ok actions
  | ABatch nodes =>
      forallb (fun node => match node with
        | mkNode id dependencies arguments =>
            u64_ok id && forallb u64_ok dependencies && payload_fits arguments
            && Arguments_ok arguments
        end) nodes
  | ASnapshot a => SnapshotArgs_ok a
  | ARef a => RefArgs_ok a
  | ACancel target_id => u64_ok target_id
  end.

Definition BatchNode_ok (node : BatchNode) : bool :=
  u64_ok (node_id node) && forallb u64_ok (node_dependencies node)
  && payload_fits (node_arguments node) && Arguments_ok (node_arguments node).

Lemma Arguments_ok_batch nodes : Arguments_ok (ABatch nodes) = forallb BatchNode_ok nodes.
Proof. cbn. induction nodes as [|[id d a] nodes IH]; [done|]. cbn. by rewrite IH. Qed.

Lemma payload_document_eq a d :
  payload_document a = Ok d <->
  exists v, Arguments_encode a = Ok v /\ d = mkDocument [mkField (L "a") v].
Proof.
  unfold payload_document. rewrite (proj2 (Key_new_ok (L "a") (L "a"))) by done.
  cbn [mbind result_bind]. rewrite bind_ok.
  assert (forall v, Document_new [mkField (L "a") v] = Ok (mkDocument [mkField (L "a") v])) as E
    by (intros v; apply Document_new_schema; [done|decide_closed]).
  split; intros (v & Hv & H); exists v; rewrite E in *; naive_solver.
Qed.

Lemma BatchNode_encode_eq id d a row :
  BatchNode_encode (mkNode id d a) = Ok row <->
  exists document, payload_document a = Ok document /\
    row = [unsigned_value id; CVector ((fun n => AText (to_string n)) <$> d);
           text_value [operation_id (Arguments_operation a)]; text_value (encode document)].
Proof.
  unfold BatchNode_encode, BatchNode_encode_with, payload_document.
  destruct (Key_new (L "a")); cbn [mbind result_bind]; [|naive_solver].
  destruct (Arguments_encode a); cbn [mbind result_bind]; [|naive_solver].
  destruct (Document_new _); cbn [mbind result_bind]; naive_solver.
Qed.

(** What a decoder of arguments promises: it accepts exactly the encodings of
    valid arguments of its operation, and gives the arguments back. *)
Class ArgumentsCodec (decode : Operation -> Value -> result RequestError Arguments)
    (accepts : Operation -> bool) : Prop :=
  arguments_codec : forall op v a, accepts op = true -> value_ok v = true ->
    decode op v = Ok a <->
    Arguments_operation a = op /\ Arguments_encode a = Ok v /\ Arguments_ok a = true
    /\ Arguments_validate a = Ok tt.

Lemma Limits_default_decode s d :
  valid_str s = true -> decode s = Ok d -> document_ok d = true /\ document_within Limits_default d = true.
Proof. intros Hs H. apply decode_inv in H as (? & ? & _); done. Qed.

Lemma BatchNode_validate_ok id d a :
  BatchNode_validate (mkNode id d a) = Ok tt <->
  id <> 0 /\ dependencies_ok id d = true
  /\ is_batch_or_cancel (Arguments_operation a) = false /\ Arguments_validate a = Ok tt.
Proof.
  unfold BatchNode_validate. cbn [BatchNode_validate_with].
  destruct (Z.eqb_spec id 0), (dependencies_ok id d),
    (is_batch_or_cancel (Arguments_operation a)); cbn; naive_solver.
Qed.

Section Nodes.
Context (arguments_decode : Operation -> Value -> result RequestError Arguments).
Context `{Hcodec : !ArgumentsCodec arguments_decode (fun op => negb (is_batch_or_cancel op))}.

Lemma BatchNode_decode_inv row n :
  length row = 4%nat -> forallb cell_ok row = true ->
  BatchNode_decode_with arguments_decode row = Ok n ->
  BatchNode_encode n = Ok row /\ BatchNode_ok n = true /\ BatchNode_validate n = Ok tt.
Proof.
  intros Hlen Hrow H. unfold BatchNode_decode_with in H. inv_request.
  rename select (cell_at row 3 = _) into Hpay.
  rename select (decode _ = Ok _) into Hdec.
  rename select (field_key <$> _ = _) into Hkeys.
  rename select (Document_get _ _ = Some _) into Hget.
  rename select (arguments_decode _ _ = Ok _) into Hargs.
  rename select (operation_of_text _ = _) into Hop.
  rename select (is_batch_or_cancel _ = _) into Hbc.
  rename select (negb (bool_decide _) = false) into Henc.
  pose proof (row_cell_ok row 3 Hrow) as Hc. rewrite Hpay in Hc.
  apply Limits_default_decode in Hdec as [Hdok Hwithin]; [|done].
  zbool. apply bool_decide_eq_true in Henc. subst.
  assert (x5 = mkDocument [mkField (L "a") x7]) as -> by document_from_gets Hkeys.
  apply Hcodec in Hargs as (<- & Hx & Hok & Hva);
    [|by rewrite Hbc|by eapply Document_get_ok].
  assert (payload_document x8 = Ok (mkDocument [mkField (L "a") x7])) as Hdoc
    by (apply payload_document_eq; by exists x7).
  apply operation_of_text_Some in Hop as ->. split_and!; [| |done].
  - apply BatchNode_encode_eq. eexists. split; [exact Hdoc|].
    by cells_from_at_tac Hlen.
  - unfold BatchNode_ok, payload_fits. cbn [node_id node_dependencies node_arguments].
    rewrite Hdoc, Hdok, Hwithin, Hok. rename select (validate_bounded_text _ _ _ = _) into Ht.
    rewrite Ht. repeat (apply andb_true_iff; split); try done; lia.
Qed.

Lemma BatchNode_decode_encode row n :
  BatchNode_encode n = Ok row -> BatchNode_ok n = true -> BatchNode_validate n = Ok tt ->
  BatchNode_decode_with arguments_decode row = Ok n.
Proof.
  destruct n as [id d a]. unfold BatchNode_ok, payload_fits.
  cbn [node_id node_dependencies node_arguments]. intros (doc & Hdoc & ->)%BatchNode_encode_eq.
  rewrite Hdoc. intros Hok Hva. unfold u64_ok in Hok at 1. zbool.
  pose proof Hva as (_ & _ & Hbc & Hav)%BatchNode_validate_ok.
  rename select (is_ok _ = true) into Ht. destruct (validate_bounded_text _ _ _) as [[]|] eqn:Htext;
    [clear Ht|done].
  rename select (document_ok _ = true) into Hdok.
  rename select (document_within _ _ = true) into Hwithin.
  apply payload_document_eq in Hdoc as (v & Hv & ->).
  assert (decode (encode (mkDocument [mkField (L "a") v]))
          = Ok (mkDocument [mkField (L "a") v])) as Hdec by by apply decode_encode.
  assert (arguments_decode (Arguments_operation a) v = Ok a) as Hargs.
  { apply Hcodec; [by rewrite Hbc| |done].
    apply (Document_get_ok _ (L "a") v Hdok). reflexivity. }
  unfold BatchNode_decode_with. cbn [cell_at nth]. run_request.
  { by rewrite operation_of_text_id. }
  rewrite Hbc. cbn [text_cell text_value mbind result_bind].
  rewrite Htext. cbn [mbind result_bind]. rewrite Hdec. cbn [map_err mbind result_bind].
  rewrite bool_decide_eq_true_2 by done. cbn [negb].
  apply bind_ok. exists tt. split; [by apply expect_fields_ok|].
  apply bind_ok. exists v. split; [done|]. rewrite Hargs. by apply validated_ok.
Qed.
End Nodes.

(** ** Batches *)

Lemma Forall2_impl_elem {A B} (P Q : A -> B -> Prop) l k :
  Forall2 P l k -> (forall x y, x ∈ l -> P x y -> Q x y) -> Forall2 Q l k.
Proof.
  induction 1 as [|x y l k Hxy _ IH]; intros HPQ; constructor.
  - apply HPQ; [left|done].
  - apply IH. intros. apply HPQ; [by right|done].
Qed.

Lemma batch_loop_valid validate positions nodes count res :
  batch_loop validate positions nodes count = Ok res ->
  Forall (fun n => validate n = Ok tt) nodes.
Proof.
  revert count res. induction nodes as [|n nodes IH]; intros count res H; [constructor|].
  cbn in H. inv_ok. match goal with u : unit |- _ => destruct u end.
  constructor; [done|by eapply IH].
Qed.

Lemma BatchArgs_validate_nodes nodes :
  BatchArgs_validate nodes = Ok tt -> Forall (fun n => BatchNode_validate n = Ok tt) nodes.
Proof.
  unfold BatchArgs_validate, BatchArgs_validate_with. intros H. inv_ok.
  match goal with H : batch_loop _ _ _ _ = Ok _ |- _ => by apply batch_loop_valid in H end.
Qed.

Lemma BatchNode_encode_width n row : BatchNode_encode n = Ok row -> len row = 4.
Proof. destruct n. intros (d & _ & ->)%BatchNode_encode_eq. done. Qed.

Lemma encode_nodes_widths nodes rows :
  mapM BatchNode_encode nodes = Ok rows -> Forall (fun row => len row = len BATCH_COLUMNS) rows.
Proof.
  intros H%mapM_ok. induction H as [|n row nodes rows Hn _ IH]; [constructor|].
  constructor; [by apply BatchNode_encode_width in Hn|done].
Qed.

Lemma Arguments_encode_batch nodes t :
  Arguments_encode (ABatch nodes) = Ok (VTable t) <->
  table_columns t = BATCH_COLUMNS /\ mapM BatchNode_encode nodes = Ok (table_rows t).
Proof.
  cbn [Arguments_encode]. fold BatchNode_encode. rewrite bind_ok. split.
  - intros (rows & Hrows & H). pose proof (encode_nodes_widths _ _ Hrows).
    rewrite table_value_inv in H by done. by subst.
  - intros [Hc Hrows]. exists (table_rows t). split; [done|].
    pose proof (encode_nodes_widths _ _ Hrows).
    rewrite table_value_inv by done. by destruct t; cbn in *; subst.
Qed.

Section Batches.
Context (arguments_decode : Operation -> Value -> result RequestError Arguments).
Context `{Hcodec : !ArgumentsCodec arguments_decode (fun op => negb (is_batch_or_cancel op))}.

Lemma BatchArgs_decode_ok t nodes :
  value_ok (VTable t) = true ->
  BatchArgs_decode_with arguments_decode t = Ok nodes <->
  Arguments_encode (ABatch nodes) = Ok (VTable t) /\ forallb BatchNode_ok nodes = true
  /\ BatchArgs_validate nodes = Ok tt.
Proof.
  intros Hv. rewrite Arguments_encode_batch. unfold BatchArgs_decode_with. split.
  - intros H. inv_request. subst x0. rename select (table_columns t = _) into Hcols.
    rename select (mapM _ _ = Ok _) into Hrows. apply mapM_ok in Hrows.
    assert (Forall2 (fun row n => BatchNode_encode n = Ok row /\ BatchNode_ok n = true)
              (table_rows t) nodes) as HF.
    { eapply Forall2_impl_elem; [exact Hrows|]. intros row n Hrow Hn.
      apply (value_ok_table_rows t) in Hrow as [Hl Hc]; [|done]. rewrite Hcols in Hl.
      by apply BatchNode_decode_inv in Hn as (? & ? & _). }
    split_and!; [done| | |done].
    + apply mapM_ok, list.Forall2_flip.
      by eapply Forall2_impl_elem; [exact HF|intros ?? _ [? _]].
    + apply forallb_forall. intros n Hn%list_elem_of_In.
      apply list_elem_of_lookup in Hn as [i Hi].
      by destruct (Forall2_lookup_r _ _ _ _ _ HF Hi) as (row & _ & _ & ?).
  - intros ([Hcols Hrows] & Hok & Hva). pose proof (BatchArgs_validate_nodes _ Hva) as HF.
    apply bind_ok. exists tt. split; [by apply expect_table_columns_ok|].
    apply bind_ok. exists nodes. split; [|by apply validated_ok].
    apply mapM_ok in Hrows. apply mapM_ok. clear Hva. revert Hok HF.
    induction Hrows as [|n row nodes rows Hn _ IH]; [constructor|].
    cbn [forallb]. intros Hok HF. zbool. apply list.Forall_cons in HF as [? ?].
    constructor; [by apply BatchNode_decode_encode|by apply IH].
Qed.
End Batches.

(** ** The arguments *)

Lemma Arguments_encode_value a v :
  Arguments_encode a = Ok v ->
  match Arguments_operation a with
  | OpFs | OpBatch => exists t, v = VTable t
  | op => if is_reference_formula op then exists l, v = Vector l else exists r, v = VRecord r
  end.
Proof.
  assert (forall cols cells v, record_value cols cells = Ok v -> exists r, v = VRecord r) as Hr.
  { unfold record_value. intros * H. inv_ok. naive_solver. }
  assert (forall cols rows v, table_value cols rows = Ok v -> exists t, v = VTable t) as Ht.
  { unfold table_value. intros * H. inv_ok. naive_solver. }
  destruct a as [| | | | | | | |a|]; cbn [Arguments_encode Arguments_operation]; try apply Hr.
  - apply Ht.
  - intros H. inv_ok. by eapply Ht.
  - unfold RefArgs_encode, RefArgs_operation. intros [= <-]. destruct (ref_formula a); naive_solver.
Qed.

Section Knot.
Context (batch_decode : Table -> result RequestError (list BatchNode)).

Lemma Arguments_decode_plain op v a :
  op <> OpBatch -> value_ok v = true ->
  Arguments_decode_with batch_decode op v = Ok a <->
  Arguments_operation a = op /\ Arguments_encode a = Ok v /\ Arguments_ok a = true
  /\ Arguments_validate a = Ok tt.
Proof.
  intros Hop Hv. unfold Arguments_decode_with. split.
  - destruct op; try done; cbn [is_reference_formula Arguments_decode_record];
      destruct v as [|l|r|t]; try done; intros (b & Hb & ->)%fmap_ok;
      (apply ExecArgs_decode_ok in Hb || apply ReadArgs_decode_ok in Hb
       || apply ListArgs_decode_ok in Hb || apply SearchArgs_decode_ok in Hb
       || apply PatchArgs_decode_ok in Hb || apply SnapshotArgs_decode_ok in Hb
       || apply FsArgs_decode_ok in Hb || apply RefArgs_decode_ok in Hb
       || apply CancelArgs_decode_ok in Hb); naive_solver.
  - intros (<- & Henc & Hok & Hva). pose proof (Arguments_encode_value _ _ Henc) as Hshape.
    destruct a as [a|a|a|a|a|l|l|a|a|n]; cbn [Arguments_operation] in *; try done;
      cbn [is_reference_formula] in *; try (destruct Hshape as [r ->]);
      cbn [Arguments_decode_record].
    1-7, 9: apply fmap_ok; eexists; split; [|reflexivity].
    1: by apply ExecArgs_decode_ok.
    1: by apply ReadArgs_decode_ok.
    1: by apply ListArgs_decode_ok.
    1: by apply SearchArgs_decode_ok.
    1: by apply PatchArgs_decode_ok.
    1: by apply FsArgs_decode_ok.
    1: by apply SnapshotArgs_decode_ok.
    1: by apply CancelArgs_decode_ok.
    assert (is_reference_formula (RefArgs_operation a) = true
            /\ exists values, v = Vector values) as [Href [values ->]].
    { unfold RefArgs_operation in *. destruct (ref_formula a); naive_solver. }
    rewrite Href. apply fmap_ok. exists a. split; [|done].
    by apply RefArgs_decode_ok.
Qed.

#[export] Instance Arguments_decode_plain_codec :
  ArgumentsCodec (Arguments_decode_with batch_decode) (fun op => negb (is_batch_or_cancel op)).
Proof. intros op v a Hop Hv. apply Arguments_decode_plain; [by destruct op|done]. Qed.
End Knot.

#[export] Instance Arguments_decode_codec : ArgumentsCodec Arguments_decode (fun _ => true).
Proof.
  intros op v a _ Hv. unfold Arguments_decode.
  destruct (decide (op = OpBatch)) as [->|Hop]; [|by apply Arguments_decode_plain].
  unfold Arguments_decode_with at 1. cbn [is_reference_formula]. split.
  - destruct v as [| | |t]; try done. intros (nodes & Hn & ->)%fmap_ok.
    apply BatchArgs_decode_ok in Hn as (? & ? & ?); [|apply _|done].
    by rewrite Arguments_ok_batch.
  - intros (Hop & Henc & Hok & Hva). pose proof (Arguments_encode_value _ _ Henc) as Hshape.
    destruct a as [| | | | | |nodes| |a|]; try done;
      [|unfold Arguments_operation, RefArgs_operation in Hop; by destruct (ref_formula a)].
    destruct Hshape as [t ->]. apply fmap_ok. exists nodes. split; [|done].
    rewrite Arguments_ok_batch in Hok. apply BatchArgs_decode_ok; [apply _|done|done].
Qed.
