(* ===== verification/RequestEnvelope.v ===== *)
(** * RequestEnvelope: whole requests

    The decoder's recursive equation, the round trips of request documents in
    both directions, what a validated batch guarantees of its dependency graph,
    and what an approval is bound to. *)

From S2P Require Import Prelude Text AsonModel AsonCodec AsonScalarFacts AsonFacts AsonSound.
From S2P Require Import Graph Wire Capability Request RequestFacts RequestCodec.

(** ** The recursive equation of the decoder *)

Lemma mapM_ext {E A B} (f g : A -> result E B) l : (forall x, f x = g x) -> mapM f l = mapM g l.
Proof. intros H. induction l as [|x l IH]; [done|]. cbn. by rewrite H, IH. Qed.

Lemma bind_ext {E A B} (m : result E A) (f g : A -> result E B) :
  (forall a, m = Ok a -> f a = g a) -> m ≫= f = m ≫= g.
Proof. destruct m; cbn; auto. Qed.

Lemma BatchNode_decode_ext f g row :
  (forall op v, is_batch_or_cancel op = false -> f op v = g op v) ->
  BatchNode_decode_with f row = BatchNode_decode_with g row.
Proof.
  intros Hfg. unfold BatchNode_decode_with.
  do 4 (apply bind_ext; intros ? _). destruct (is_batch_or_cancel _) eqn:Hop; [done|].
  do 3 (apply bind_ext; intros ? _). destruct (negb _); [done|].
  do 2 (apply bind_ext; intros ? _). by rewrite Hfg.
Qed.

(** [Arguments::decode] as the source has it: a batch decodes the arguments of
    its nodes with [Arguments::decode] itself. *)
Lemma Arguments_decode_eq op v :
  Arguments_decode op v = Arguments_decode_with (BatchArgs_decode_with Arguments_decode) op v.
Proof.
  unfold Arguments_decode at 1, Arguments_decode_with at 1 3.
  destruct (is_reference_formula op); [done|].
  destruct (decide (op = OpBatch)) as [->|Hop]; [|destruct op; reflexivity || congruence].
  destruct v as [| | |t]; try reflexivity.
  assert (forall m n : result RequestError (list BatchNode), m = n -> ABatch <$> m = ABatch <$> n)
    as Hf by by intros ? ? ->.
  apply Hf. unfold BatchArgs_decode_with. apply bind_ext. intros _ _. f_equal.
  apply mapM_ext. intros row. apply BatchNode_decode_ext. intros op' v' Hop.
  unfold Arguments_decode, Arguments_decode_with. by destruct op'.
Qed.

(** ** Request documents *)

Definition request_document (r : Request) (v : Value) : Document :=
  mkDocument
    ([mkField (L "t") (Scalar (AText (to_string 1)));
      mkField (L "i") (Scalar (AText (to_string (rq_id r))));
      mkField (L "o") (Scalar (AText [operation_id (Request_operation r)]));
      mkField (L "a") v;
      mkField (L "u") (VRecord (mkRec BUDGET_COLUMNS
        [unsigned_value (b_tokens (rq_budget r)); unsigned_value (b_records (rq_budget r));
         unsigned_value (b_millis (rq_budget r))]))]
     ++ match rq_permit r with
        | Some permit => [mkField (L "v") (Scalar (AText (token_encode permit)))]
        | None => []
        end).

Lemma Key_new_valid k : is_valid_key k = true -> Key_new k = Ok k.
Proof. intros. by apply Key_new_ok. Qed.

Lemma Request_encode_eq r :
  Request_encode r = (v ← Arguments_encode (rq_arguments r); Ok (request_document r v)).
Proof.
  unfold Request_encode. rewrite !scalar_field_ok, !Key_new_valid, record_value_eq by done.
  cbn [mbind result_bind]. apply bind_ext. intros v _. unfold request_document.
  destruct (rq_permit r); rewrite ?scalar_field_ok by done; cbn [mbind result_bind];
    (apply Document_new_schema; [done|]; cbn [fmap list_fmap field_key app]; decide_closed).
Qed.

Lemma Request_encode_ok r d :
  Request_encode r = Ok d <->
  exists v, Arguments_encode (rq_arguments r) = Ok v /\ d = request_document r v.
Proof. rewrite Request_encode_eq, bind_ok. naive_solver. Qed.

(** The widths of the fields of a request, and the shape of a permit. *)
Definition Budget_ok (b : Budget) : bool :=
  u32_ok (b_tokens b) && u32_ok (b_records b) && u64_ok (b_millis b).

Definition permit_ok (permit : option bytes) : bool :=
  match permit with
  | Some p => bool_decide (length p = APPROVAL_TOKEN_BYTES) && forallb byte_ok p
  | None => true
  end.

Definition Request_ok (r : Request) : bool :=
  u64_ok (rq_id r) && Arguments_ok (rq_arguments r) && Budget_ok (rq_budget r)
  && permit_ok (rq_permit r).

(** [Request::new] accepts the parts of the request. *)
Definition Request_valid (r : Request) : Prop :=
  Request_new (rq_id r) (rq_arguments r) (rq_budget r)
  = Ok (mkRequest (rq_id r) (rq_arguments r) (rq_budget r) None).

Lemma Request_new_ok id a b r :
  Request_new id a b = Ok r -> r = mkRequest id a b None /\ Request_valid r
  /\ id <> 0 /\ Arguments_validate a = Ok tt /\ Budget_validate b = Ok tt.
Proof.
  intros H. assert (r = mkRequest id a b None) as ->.
  { unfold Request_new in H. inv_ok. done. }
  unfold Request_valid. cbn [rq_id rq_arguments rq_budget]. split_and!; try done;
    unfold Request_new in H; inv_ok; repeat match goal with u : unit |- _ => destruct u end; [|done..].
  by destruct (Z.eqb_spec id 0).
Qed.

Lemma Budget_new_ok t n m b :
  Budget_new t n m = Ok b <-> b = mkBudget t n m /\ Budget_validate b = Ok tt.
Proof. unfold Budget_new. rewrite bind_ok. split; [intros ([] & ? & [= <-])|intros [-> ?]; exists tt]; done. Qed.

Lemma permit_decode_ok s p :
  map_err (fun _ => RE_InvalidText "v") (token_parse s) = Ok p <->
  s = token_encode p /\ permit_ok (Some p) = true.
Proof.
  rewrite map_err_ok. unfold token_parse, token_encode, permit_ok.
  rewrite andb_true_iff, bool_decide_eq_true. split.
  - intros (? & ? & ?)%decode_hex_array_inv. done.
  - intros (-> & ? & ?). by apply decode_hex_array_encode.
Qed.

Lemma Request_decode_inv d r :
  document_ok d = true -> Request_decode d = Ok r ->
  Request_encode r = Ok d /\ Request_ok r = true /\ Request_valid r.
Proof.
  intros Hd H. unfold Request_decode in H. inv_readers.
  rename select (Document_get d [116] = _) into Gt. rename select (Document_get d [105] = _) into Gi.
  rename select (Document_get d [111] = _) into Go. rename select (Document_get d [97] = _) into Ga.
  rename select (Document_get d [117] = _) into Gu.
  rename select (operation_of_text _ = _) into Hop. apply operation_of_text_Some in Hop.
  rename select (Arguments_decode _ _ = _) into Hargs.
  apply arguments_codec in Hargs as (Hao & Henc & Hok & _); [|done|by eapply Document_get_ok].
  rename select (Budget_new _ _ _ = _) into Hb. apply Budget_new_ok in Hb as [Hb _].
  rename select (Request_new _ _ _ = _) into Hnew. apply Request_new_ok in Hnew as (Hr & Hvalid & _).
  pose proof (value_ok_record_length _ (Document_get_ok _ _ _ Hd Gu)) as Hlen.
  rename select (rec_columns _ = _) into Hcols.
  eassert (_ = mkRec BUDGET_COLUMNS [_; _; _]) as Hrec by record_from_cells_tac Hcols Hlen.
  rewrite Hrec in Gu. subst.
  rename select (_ = Ok x) into Hkeys.
  assert (forall r', r' = mkRequest x1 x5 (mkBudget x8 x9 x10) (rq_permit r') ->
            permit_ok (rq_permit r') = true ->
            d = request_document r' x4 ->
            Request_encode r' = Ok d /\ Request_ok r' = true /\ Request_valid r') as Hdone.
  { intros r' -> Hp Hdoc. split_and!; [| |exact Hvalid].
    - apply Request_encode_ok. by exists x4.
    - unfold Request_ok, Budget_ok, u32_ok, u64_ok. cbn [rq_id rq_arguments rq_budget rq_permit
        b_tokens b_records b_millis] in *. rewrite Hok, Hp. lia. }
  destruct x.
  - assert (field_key <$> fields d = PERMITTED_ENVELOPE_FIELDS) as Hk.
    { destruct (is_ok _); [done|]. by inv_readers. }
    apply bind_ok in H as (v & Gv%text_ok & (p & [-> Hp]%permit_decode_ok & H)%bind_ok).
    injection H as <-. apply Hdone; [done..|]. unfold request_document, with_permit.
    cbn [rq_permit app]. by document_from_gets Hk.
  - assert (field_key <$> fields d = ENVELOPE_FIELDS) as Hk.
    { destruct (expect_fields d ENVELOPE_FIELDS) as [[]|] eqn:He; [by apply expect_fields_ok in He|].
      cbn [is_ok] in Hkeys. by inv_readers. }
    injection H as <-. apply Hdone; [done..|]. unfold request_document.
    cbn [rq_permit app]. by document_from_gets Hk.
Qed.

Lemma Request_decode_encode r d :
  document_ok d = true -> Request_encode r = Ok d -> Request_ok r = true -> Request_valid r ->
  Request_decode d = Ok r.
Proof.
  intros Hd (v & Hv & ->)%Request_encode_ok Hok Hvalid.
  assert (value_ok v = true) as Hvok by by apply (Document_get_ok _ (L "a") v Hd).
  unfold Request_ok, Budget_ok, u32_ok, u64_ok in Hok. zbool.
  pose proof Hvalid as (_ & _ & _ & Hva & Hb)%Request_new_ok.
  assert (Arguments_decode (Request_operation r) v = Ok (rq_arguments r)) as Hargs
    by by apply arguments_codec.
  assert (Budget_new (b_tokens (rq_budget r)) (b_records (rq_budget r)) (b_millis (rq_budget r))
          = Ok (rq_budget r)) as Hbudget by (apply Budget_new_ok; by destruct (rq_budget r)).
  unfold Request_decode. apply bind_ok. exists (is_some (rq_permit r)). split.
  { unfold request_document, expect_fields. by destruct (rq_permit r). }
  unfold request_document.
  run_readers; [by rewrite operation_of_text_id|reflexivity|exact Hargs|exact Hbudget|exact Hvalid|].
  destruct r as [id a b [p|]]; [|done]. cbn [is_some rq_permit] in *.
  apply bind_ok. exists (token_encode p). split; [by apply text_ok|].
  apply bind_ok. exists p. split; [by apply permit_decode_ok|done].
Qed.

(** Decoding accepts exactly the documents that encode a valid request. *)
Lemma Request_decode_ok d r :
  document_ok d = true ->
  Request_decode d = Ok r <->
  Request_encode r = Ok d /\ Request_ok r = true /\ Request_valid r.
Proof.
  intros Hd. split; [by apply Request_decode_inv|].
  intros (? & ? & ?). by apply Request_decode_encode.
Qed.

(** ** Approvals and capabilities *)

Definition authorization_document (a : Arguments) (v : Value) : Document :=
  mkDocument
    [mkField (L "v") (Scalar (AText (L "1")));
     mkField (L "o") (Scalar (AText [operation_id (Arguments_operation a)]));
     mkField (L "a") v;
     mkField (L "c") (Scalar (AText (to_string (required_capabilities a))))].

Lemma authorization_target_eq r :
  authorization_target r
  = (v ← Arguments_encode (rq_arguments r); Ok (authorization_document (rq_arguments r) v)).
Proof.
  unfold authorization_target. rewrite !scalar_field_ok, !Key_new_valid by done.
  cbn [mbind result_bind]. apply bind_ext. intros v _.
  apply Document_new_schema; [done|]. cbn [fmap list_fmap field_key]. decide_closed.
Qed.

(** The document an approval is bound to determines the arguments. *)
Lemma authorization_target_binds r r' d :
  document_ok d = true ->
  Arguments_ok (rq_arguments r) = true -> Arguments_validate (rq_arguments r) = Ok tt ->
  Arguments_ok (rq_arguments r') = true -> Arguments_validate (rq_arguments r') = Ok tt ->
  authorization_target r = Ok d -> authorization_target r' = Ok d ->
  rq_arguments r = rq_arguments r'.
Proof.
  rewrite !authorization_target_eq. intros Hd Hok Hva Hok' Hva' H H'. inv_ok.
  rename select (Arguments_encode (rq_arguments r) = _) into Hv.
  rename select (Arguments_encode (rq_arguments r') = _) into Hv'.
  subst d. unfold authorization_document in H'. injection H' as Hop <- _.
  assert (value_ok x = true) as Hx by by apply (Document_get_ok _ (L "a") _ Hd).
  assert (Arguments_operation (rq_arguments r') = Arguments_operation (rq_arguments r)) as Ho.
  { pose proof (operation_from_id_id (Arguments_operation (rq_arguments r'))) as E.
    rewrite Hop, operation_from_id_id in E. by injection E. }
  assert (forall a, Arguments_operation a = Arguments_operation (rq_arguments r) ->
    Arguments_encode a = Ok x -> Arguments_ok a = true -> Arguments_validate a = Ok tt ->
    Arguments_decode (Arguments_operation (rq_arguments r)) x = Ok a) as Hdec
    by (intros; by apply arguments_codec).
  pose proof (Hdec _ eq_refl Hv Hok Hva) as E1. pose proof (Hdec _ Ho Hv' Hok' Hva') as E2.
  rewrite E1 in E2. by injection E2.
Qed.

Lemma land_lor_absorb_l a b : Z.land (Z.lor a b) a = a.
Proof. apply Z.bits_inj'. intros n _. rewrite Z.land_spec, Z.lor_spec. by destruct (Z.testbit a n), (Z.testbit b n). Qed.

Lemma land_cover a b c : Z.land a c = c -> Z.land (Z.lor a b) c = c.
Proof. intros H. rewrite Z.land_lor_distr_l, H. apply Z.bits_inj'. intros n _. rewrite Z.lor_spec, Z.land_spec. by destruct (Z.testbit c n), (Z.testbit b n). Qed.

Definition add_capabilities (mask : Z) (node : BatchNode) : Z :=
  match node with mkNode _ _ arguments => Z.lor mask (required_capabilities arguments) end.

Lemma add_capabilities_keep nodes : forall mask c,
  Z.land mask c = c -> Z.land (fold_left add_capabilities nodes mask) c = c.
Proof.
  induction nodes as [|[id d a] nodes IH]; intros mask c H; [done|].
  cbn. apply IH. by apply land_cover.
Qed.

(** A batch requires every capability a node of it requires. *)
Lemma required_capabilities_batch nodes n :
  n ∈ nodes ->
  Z.land (required_capabilities (ABatch nodes)) (required_capabilities (node_arguments n))
  = required_capabilities (node_arguments n).
Proof.
  change (required_capabilities (ABatch nodes)) with (fold_left add_capabilities nodes 0).
  generalize 0. induction nodes as [|m nodes IH]; intros mask Hn; [by apply elem_of_nil in Hn|].
  apply elem_of_cons in Hn as [<-|Hn]; [|by apply IH].
  cbn [fold_left]. destruct n as [id d a]. cbn [add_capabilities node_arguments].
  apply add_capabilities_keep. rewrite Z.lor_comm. apply land_lor_absorb_l.
Qed.

(** * the dependency graph of a batch

    [BatchArgs::validate] accepts exactly the batches within their bounds whose
    nodes are valid, whose dependencies name nodes of the batch, and in which no
    node depends, through any number of others, on itself. *)

(** Node [x] names node [y] as a dependency. *)
Definition node_depends (nodes : list BatchNode) (x y : Z) : Prop :=
  exists n, n ∈ nodes /\ node_id n = x /\ y ∈ node_dependencies n.

(** ** Positions *)

Lemma positions_of_snoc nodes n :
  positions_of (nodes ++ [n]) = <[node_id n := length nodes]> (positions_of nodes).
Proof.
  unfold positions_of. rewrite imap_app, foldl_app. cbn. by rewrite Nat.add_0_r.
Qed.

Lemma positions_of_lookup nodes x i :
  NoDup (node_id <$> nodes) ->
  positions_of nodes !! x = Some i <-> (node_id <$> nodes) !! i = Some x.
Proof.
  induction nodes as [|n nodes IH] using rev_ind; intros Hnd; [cbn; by rewrite !lookup_empty|].
  rewrite fmap_app in Hnd |- *. apply list.NoDup_app in Hnd as (Hnd & Hdisj & _).
  rewrite positions_of_snoc. cbn [fmap list_fmap].
  destruct (decide (node_id n = x)) as [<-|Hne].
  - rewrite lookup_insert_eq. split.
    + intros [= <-]. rewrite lookup_app_r by (by rewrite length_fmap).
      by rewrite length_fmap, Nat.sub_diag.
    + intros [Hi|[Hge Hi]]%lookup_app_Some.
      * exfalso. apply (Hdisj (node_id n)); [by eapply list_elem_of_lookup_2|left].
      * apply list_lookup_singleton_Some in Hi as [Hi _]. rewrite length_fmap in *. f_equal. lia.
  - rewrite lookup_insert_ne by done. rewrite IH by done. split.
    + intros Hi. by apply lookup_app_l_Some.
    + intros [Hi|[Hge Hi]]%lookup_app_Some; [done|].
      by apply list_lookup_singleton_Some in Hi as [_ ?].
Qed.

(** ** The loop over the nodes *)

Definition edge_count (nodes : list BatchNode) : Z := zsum (fun n => len (node_dependencies n)) nodes.

Lemma edge_count_nonneg nodes : 0 <= edge_count nodes.
Proof. apply zsum_nonneg. intros. apply len_nonneg. Qed.

Lemma batch_loop_ok validate positions nodes count indices :
  0 <= count ->
  batch_loop validate positions nodes count = Ok indices <->
  Forall (fun n => validate n = Ok tt) nodes
  /\ (nodes = [] \/ count + edge_count nodes <= MAX_BATCH_EDGES)
  /\ Forall2 (fun n ds => dependency_indices positions (node_dependencies n) = Ok ds) nodes indices.
Proof.
  unfold edge_count. revert count indices.
  induction nodes as [|n nodes IH]; intros count indices Hc; cbn [batch_loop].
  - split; [intros [= <-]; naive_solver|]. intros (_ & _ & H). by inversion H.
  - pose proof (len_nonneg (node_dependencies n)). rewrite zsum_cons.
    pose proof (edge_count_nonneg nodes). unfold edge_count in *. split.
    + intros Hl. inv_ok. match goal with u : unit |- _ => destruct u end.
      rename select (checked_add _ _ _ = _) into Hadd. apply checked_add_Some in Hadd as [-> _].
      zbool. rename select (batch_loop _ _ _ _ = _) into Hrest.
      apply IH in Hrest as (Hv & He & Hi); [|lia]. subst indices.
      split_and!; [by constructor| |by constructor]. right.
      destruct He as [->|He]; [rewrite zsum_nil|]; lia.
    + intros (Hv & [?|He] & Hi); [done|]. inversion Hi as [|? ds ? rest Hd Hrest]; subst.
      apply list.Forall_cons in Hv as [Hv Hvs]. unfold MAX_BATCH_EDGES in *.
      apply bind_ok. exists tt. split; [done|].
      apply bind_ok. exists (count + len (node_dependencies n)). split.
      { apply ok_or_ok, checked_add_Some. split; [done|]. lia. }
      destruct (Z.ltb_spec 4096 (count + len (node_dependencies n))); [lia|].
      apply bind_ok. exists ds. split; [done|]. apply bind_ok. exists rest. split; [|done].
      apply IH; [lia|]. split_and!; [done| |done]. right. lia.
Qed.

(** ** Index graph and id graph *)

Section Indices.
Context (nodes : list BatchNode) (indices : list (list nat)).
Hypothesis Hnd : NoDup (node_id <$> nodes).
Hypothesis Hvalid : Forall (fun n => BatchNode_validate n = Ok tt) nodes.
Hypothesis Hind :
  Forall2 (fun n ds => dependency_indices (positions_of nodes) (node_dependencies n) = Ok ds)
    nodes indices.

Local Notation ids := (node_id <$> nodes).

Lemma index_of_dependency i n :
  nodes !! i = Some n ->
  exists ds, indices !! i = Some ds
    /\ Forall2 (fun y j => ids !! j = Some y) (node_dependencies n) ds.
Proof.
  intros Hi. destruct (Forall2_lookup_l _ _ _ _ _ Hind Hi) as (ds & Hds & Hd).
  exists ds. split; [done|]. unfold dependency_indices in Hd. apply mapM_ok in Hd.
  eapply Forall2_impl_elem; [exact Hd|]. intros y j _ Hy%ok_or_ok.
  by apply positions_of_lookup in Hy.
Qed.

Lemma dependencies_NoDup n : n ∈ nodes -> NoDup (node_dependencies n).
Proof.
  intros Hn. rewrite list.Forall_forall in Hvalid. specialize (Hvalid n Hn).
  destruct n as [id d a]. apply BatchNode_validate_ok in Hvalid as (_ & Hd & _).
  unfold dependencies_ok in Hd. zbool. cbn [node_dependencies].
  eapply windows2_all_NoDup; [| |eassumption]; intros; lia.
Qed.

Lemma indices_graph_ok : graph_ok indices.
Proof.
  apply list.Forall_lookup. intros i ds Hi.
  destruct (Forall2_lookup_r _ _ _ _ _ Hind Hi) as (n & Hn & _).
  destruct (index_of_dependency i n Hn) as (ds' & Hi' & HF). simplify_eq.
  pose proof (dependencies_NoDup n ltac:(by eapply list_elem_of_lookup_2)) as Hdn.
  split.
  - clear -HF Hdn. induction HF as [|y j l k Hy HF IH]; [constructor|].
    apply list.NoDup_cons in Hdn as [Hyl Hdn]. apply list.NoDup_cons. split; [|by apply IH].
    intros Hj. apply Hyl. apply list_elem_of_lookup in Hj as [m Hm].
    destruct (Forall2_lookup_r _ _ _ _ _ HF Hm) as (y' & Hy' & Hjy).
    simplify_eq. by eapply list_elem_of_lookup_2.
  - apply list.Forall_lookup. intros m j Hj.
    destruct (Forall2_lookup_r _ _ _ _ _ HF Hj) as (y & _ & Hy).
    apply lookup_lt_Some in Hy. rewrite length_fmap in Hy.
    by rewrite <- (Forall2_length Hind).
Qed.

(** Edges of one graph are edges of the other. *)
Lemma depends_ids i j x y :
  ids !! i = Some x -> ids !! j = Some y -> depends indices i j <-> node_depends nodes x y.
Proof.
  intros Hx Hy. split.
  - intros (ds & Hi & Hj). apply list_lookup_fmap_Some in Hx as (n & -> & Hn).
    destruct (index_of_dependency i n Hn) as (ds' & Hi' & HF). simplify_eq.
    apply list_elem_of_lookup in Hj as [m Hm].
    destruct (Forall2_lookup_r _ _ _ _ _ HF Hm) as (y' & Hy' & Hjy). simplify_eq.
    exists n. split_and!; [by eapply list_elem_of_lookup_2|done|by eapply list_elem_of_lookup_2].
  - intros (n & Hn & Hid & Hdep). apply list_elem_of_lookup in Hn as [i' Hi'].
    assert (i' = i) as ->.
    { eapply NoDup_lookup; [exact Hnd| |exact Hx]. by rewrite list_lookup_fmap, Hi', <- Hid. }
    destruct (index_of_dependency i n Hi') as (ds & Hi & HF).
    apply list_elem_of_lookup in Hdep as [m Hm].
    destruct (Forall2_lookup_l _ _ _ _ _ HF Hm) as (j' & Hj' & Hjy).
    assert (j' = j) as -> by (by eapply NoDup_lookup).
    exists ds. split; [done|by eapply list_elem_of_lookup_2].
Qed.

Lemma id_at i : (i < length indices)%nat -> exists x, ids !! i = Some x.
Proof.
  intros Hi. apply lookup_lt_is_Some_2. rewrite length_fmap.
  by rewrite (Forall2_length Hind).
Qed.

Lemma dependency_position x y :
  node_depends nodes x y -> exists i j, ids !! i = Some x /\ ids !! j = Some y.
Proof.
  intros (n & [i Hi]%list_elem_of_lookup & <- & [m Hm]%list_elem_of_lookup).
  destruct (index_of_dependency i n Hi) as (ds & _ & HF).
  destruct (Forall2_lookup_l _ _ _ _ _ HF Hm) as (j & _ & Hj).
  exists i, j. split; [|done]. by rewrite list_lookup_fmap, Hi.
Qed.

Lemma tc_depends_ids i j x y :
  ids !! i = Some x -> ids !! j = Some y ->
  tc (depends indices) i j <-> tc (node_depends nodes) x y.
Proof.
  intros Hx Hy. split.
  - intros Hij. revert x Hx. induction Hij as [i j Hij|i j k Hij Hjk IH]; intros x Hx.
    + apply tc_once. by apply (depends_ids i j).
    + pose proof (depends_lt _ indices_graph_ok _ _ Hij) as [_ [z Hz]%id_at].
      eapply tc_l; [by apply (depends_ids i j)|by apply IH].
  - intros Hxy. revert i Hx. induction Hxy as [x y Hxy|x y z Hxy Hyz IH]; intros i Hx.
    + apply tc_once. by eapply depends_ids.
    + destruct (dependency_position x y Hxy) as (_ & k & _ & Hk).
      eapply tc_l; [by eapply depends_ids|by apply IH].
Qed.

Lemma acyclic_ids : acyclic indices <-> forall x, ~ tc (node_depends nodes) x x.
Proof.
  split.
  - intros Hac x Hx. assert (exists i, ids !! i = Some x) as [i Hi].
    { inversion Hx as [? ? Hd|? ? ? Hd _]; subst;
        apply dependency_position in Hd as (i & _ & Hi & _); by exists i. }
    apply (Hac i). by apply (tc_depends_ids i i x x).
  - intros Hac i Hi. assert (exists x, ids !! i = Some x) as [x Hx].
    { apply id_at. inversion Hi as [? ? Hd|? ? ? Hd _]; subst;
        by apply (depends_lt _ indices_graph_ok) in Hd as [? _]. }
    apply (Hac x). by apply (tc_depends_ids i i x x).
Qed.
End Indices.

(** ** The validator *)

Record batch_ok (nodes : list BatchNode) : Prop := mkBatchOk {
  bo_size : 1 <= len nodes <= MAX_BATCH_NODES;
  bo_ids : Sorted.Sorted Z.lt (node_id <$> nodes);
  bo_nodes : Forall (fun n => BatchNode_validate n = Ok tt) nodes;
  bo_edges : edge_count nodes <= MAX_BATCH_EDGES;
  bo_closed : forall x y, node_depends nodes x y -> y ∈ node_id <$> nodes;
  bo_acyclic : forall x, ~ tc (node_depends nodes) x x;
}.

Lemma ids_sorted nodes :
  windows2_all Z.ltb (node_id <$> nodes) = true <-> Sorted.Sorted Z.lt (node_id <$> nodes).
Proof. apply windows2_all_Sorted. intros. apply Z.ltb_lt. Qed.

Lemma ids_NoDup nodes : Sorted.Sorted Z.lt (node_id <$> nodes) -> NoDup (node_id <$> nodes).
Proof. rewrite <- ids_sorted. apply windows2_all_NoDup; intros; lia. Qed.

(** Every dependency of a closed batch has a position. *)
Lemma closed_indices nodes :
  NoDup (node_id <$> nodes) ->
  (forall x y, node_depends nodes x y -> y ∈ node_id <$> nodes) ->
  exists indices, Forall2
    (fun n ds => dependency_indices (positions_of nodes) (node_dependencies n) = Ok ds) nodes indices.
Proof.
  intros Hnd Hc.
  destruct (mapM_total (fun n => dependency_indices (positions_of nodes) (node_dependencies n)) nodes)
    as [k Hk]; [|exists k; by apply mapM_ok].
  intros n Hn. apply mapM_total. intros y Hy.
  assert (y ∈ node_id <$> nodes) as [i Hi]%list_elem_of_lookup by (by apply (Hc (node_id n)); exists n).
  exists i. apply ok_or_ok. by apply positions_of_lookup.
Qed.

Lemma BatchArgs_validate_ok nodes : BatchArgs_validate nodes = Ok tt <-> batch_ok nodes.
Proof.
  unfold BatchArgs_validate, BatchArgs_validate_with. split.
  - intros H. inv_ok. zbool. rename select (batch_loop _ _ _ _ = _) into Hl.
    apply batch_loop_ok in Hl as (Hv & He & Hi); [|lia].
    rename select (windows2_all _ _ = true) into Hs. apply ids_sorted in Hs.
    pose proof (ids_NoDup _ Hs) as Hnd.
    rename select (bool_decide _ = false) into Hne. apply bool_decide_eq_false in Hne.
    rename select (all_visited _ = true) into Hall.
    apply all_visited_acyclic in Hall; [|by apply indices_graph_ok with nodes].
    constructor; try done.
    + unfold len. unfold len in *. lia.
    + destruct He as [->|He]; [done|lia].
    + intros a b Hab. destruct (dependency_position nodes _ Hnd Hi a b Hab) as (_ & j & _ & Hj).
      by eapply list_elem_of_lookup_2.
    + by apply (acyclic_ids nodes _ Hnd Hv Hi).
  - intros [[Hs1 Hs2] Hids Hv He Hc Hac]. pose proof (ids_NoDup _ Hids) as Hnd.
    destruct (closed_indices nodes Hnd Hc) as [indices Hi].
    assert (bool_decide (length nodes = O) = false) as ->
      by (apply bool_decide_eq_false; unfold len in *; lia).
    destruct (Z.ltb_spec MAX_BATCH_NODES (len nodes)); [lia|]. cbn [orb].
    rewrite (proj2 (ids_sorted nodes)) by done. cbn [negb].
    apply bind_ok. exists indices. split; [apply batch_loop_ok; [lia|]; auto|].
    assert (all_visited indices = true) as ->; [|done].
    apply all_visited_acyclic; [by apply indices_graph_ok with nodes|].
    by apply (acyclic_ids nodes _ Hnd Hv Hi).
Qed.
