(* ===== verification/Response.v ===== *)
(** * Response: typed final results

    [response.rs]: what an operation answers, the checks of [FinalResponse::new], and
    the document it is sent as.  The writers that [response.rs] shares by name and
    body with the request's ([keys], [scalar_field], [unsigned_cell], [text_cell])
    are those of [Wire] and [Request]. *)

From S2P Require Import Prelude Text AsonModel AsonCodec Wire Capability Request.

Definition RESULT_TRUNCATED : Z := Z.shiftl 1 0.
Definition RESULT_REDUCED : Z := Z.shiftl 1 1.
Definition RESULT_NORMALIZED_TEXT : Z := Z.shiftl 1 2.
Definition RESULT_RETAINED : Z := Z.shiftl 1 3.
Definition RESULT_PARTIAL : Z := Z.shiftl 1 4.
Definition RESULT_REDACTED : Z := Z.shiftl 1 5.
Definition ALL_RESULT_FLAGS : Z := Z.shiftl 1 6 - 1.

Definition PATH_COLUMNS : list str := [L "i"; L "v"].
Definition EXEC_COLUMNS : list str := [L "k"; L "c"; L "ms"; L "o"; L "e"; L "ro"; L "re"].
Definition READ_COLUMNS : list str := [L "p"; L "o"; L "n"; L "h"; L "t"; L "r"].
Definition LIST_COLUMNS : list str := [L "p"; L "k"; L "z"].
Definition SEARCH_COLUMNS : list str := [L "p"; L "l"; L "c"; L "t"].
Definition PATCH_COLUMNS : list str := [L "p"; L "s"; L "h"].
Definition FS_COLUMNS : list str := [L "i"; L "k"; L "p"; L "q"; L "s"; L "h"].
Definition SNAPSHOT_COLUMNS : list str := [L "p"; L "c"; L "k"; L "z"; L "h"].
Definition BATCH_COLUMNS : list str := [L "i"; L "o"; L "s"; L "c"; L "r"].
Definition REF_SLICE_COLUMNS : list str := [L "o"; L "n"; L "p"; L "h"; L "t"; L "b"].
Definition REF_SEARCH_COLUMNS : list str := [L "o"; L "l"; L "c"; L "t"].
Definition REF_RELEASE_COLUMNS : list str := [L "r"; L "z"].
Definition REF_MATERIALIZE_COLUMNS : list str := [L "p"; L "s"; L "z"; L "h"].
Definition CANCEL_COLUMNS : list str := [L "i"; L "z"].
Definition ERROR_COLUMNS : list str := [L "c"; L "q"; L "p"; L "x"; L "a"].

(** ** Discriminants *)

Inductive Status : Type :=
| Success | InvalidRequest | Unsupported | Denied | SNotFound | SFailed | STimedOut | SCancelled | SConflict
| BudgetExceeded | SInternal.

#[export] Instance Status_eq_dec : EqDecision Status.
Proof. solve_decision. Defined.

Definition Status_code (s : Status) : Z :=
  match s with
  | Success => 0 | InvalidRequest => 1 | Unsupported => 2 | Denied => 3 | SNotFound => 4 | SFailed => 5
  | STimedOut => 6 | SCancelled => 7 | SConflict => 8 | BudgetExceeded => 9 | SInternal => 10
  end.

Inductive RetryClass : Type := Never | CorrectRequest | RetrySame | RetryApproval.

Definition RetryClass_code (r : RetryClass) : Z :=
  match r with Never => 0 | CorrectRequest => 1 | RetrySame => 2 | RetryApproval => 3 end.

Inductive ErrorStage : Type :=
| StDecode | StValidate | StResolve | StAuthorize | StExecute | StReduce | StRetain | StEncode.

Definition ErrorStage_code (s : ErrorStage) : Z :=
  match s with
  | StDecode => 0 | StValidate => 1 | StResolve => 2 | StAuthorize => 3 | StExecute => 4 | StReduce => 5
  | StRetain => 6 | StEncode => 7
  end.

Inductive ErrorCode : Type :=
| InvalidArgument | UnsupportedOperation | DuplicateRequest | WorkspaceEscape | PathNotFound | WrongFileType
| CapabilityDenied | PermitRequired | PermitInvalid | SpawnFailed | ProcessFailed | ProcessTimedOut
| ProcessCancelled | CFilesystem | ContentConflict | CRecoveryRequired | OutputBudget | StorageBudget
| ConcurrencyBudget | UnknownReference | ReferenceBusy | BatchFailed | CInternal.

#[export] Instance ErrorCode_eq_dec : EqDecision ErrorCode.
Proof. solve_decision. Defined.

Definition ErrorCode_code (c : ErrorCode) : Z :=
  match c with
  | InvalidArgument => 100 | UnsupportedOperation => 101 | DuplicateRequest => 102
  | WorkspaceEscape => 200 | PathNotFound => 201 | WrongFileType => 202
  | CapabilityDenied => 300 | PermitRequired => 301 | PermitInvalid => 302
  | SpawnFailed => 400 | ProcessFailed => 401 | ProcessTimedOut => 402 | ProcessCancelled => 403
  | CFilesystem => 500 | ContentConflict => 501 | CRecoveryRequired => 502
  | OutputBudget => 600 | StorageBudget => 601 | ConcurrencyBudget => 602
  | UnknownReference => 700 | ReferenceBusy => 701 | BatchFailed => 800 | CInternal => 900
  end.

Inductive CancellationState : Type := NotActive | CaSignaled.
Definition CancellationState_code (s : CancellationState) : Z := match s with NotActive => 0 | CaSignaled => 1 end.

Inductive TerminationKind : Type := TkExited | TkSignaled | TkTimedOut | TkCancelled | TkKilled.
Definition TerminationKind_code (k : TerminationKind) : Z :=
  match k with TkExited => 0 | TkSignaled => 1 | TkTimedOut => 2 | TkCancelled => 3 | TkKilled => 4 end.

Inductive FileKind : Type := KFile | KDirectory | KSymlink | KOther.
Definition FileKind_code (k : FileKind) : Z :=
  match k with KFile => 0 | KDirectory => 1 | KSymlink => 2 | KOther => 3 end.

Inductive PatchState : Type := PCommitted | PConflict | PRolledBack | PRecoveryRequired | PSkipped.
#[export] Instance PatchState_eq_dec : EqDecision PatchState.
Proof. solve_decision. Defined.
Definition PatchState_code (s : PatchState) : Z :=
  match s with PCommitted => 0 | PConflict => 1 | PRolledBack => 2 | PRecoveryRequired => 3 | PSkipped => 4 end.

Inductive FsState : Type := FCommitted | FConflict | FRolledBack | FRecoveryRequired | FSkipped.
#[export] Instance FsState_eq_dec : EqDecision FsState.
Proof. solve_decision. Defined.
Definition FsState_code (s : FsState) : Z :=
  match s with FCommitted => 0 | FConflict => 1 | FRolledBack => 2 | FRecoveryRequired => 3 | FSkipped => 4 end.

Inductive BatchNodeState : Type := BSucceeded | BFailed | BSkipped | BCancelled.
#[export] Instance BatchNodeState_eq_dec : EqDecision BatchNodeState.
Proof. solve_decision. Defined.
Definition BatchNodeState_code (s : BatchNodeState) : Z :=
  match s with BSucceeded => 0 | BFailed => 1 | BSkipped => 2 | BCancelled => 3 end.

Inductive SnapshotChange : Type := ChPresent | ChAdded | ChModified | ChRemoved.
Definition SnapshotChange_code (c : SnapshotChange) : Z :=
  match c with ChPresent => 0 | ChAdded => 1 | ChModified => 2 | ChRemoved => 3 end.

Inductive ResponseError : Type :=
| RsInvalidRequestId | RsStatusErrorMismatch | RsMissingData | RsInvalidFlags | RsInvalidReference | RsInvalidPaths
| RsInvalidData | RsRetainedFlagMismatch | RsMissingRetainedReference.

(** ** Data *)

Record ErrorRecord : Type := mkErrorRecord {
  er_code : ErrorCode; er_retry : RetryClass; er_stage : ErrorStage;
  er_evidence : option Z; er_argument : option Z }.

Record PathMapping : Type := mkMapping { pm_id : Z; pm_value : str }.

Record StreamResult : Type := mkStream { sr_projection : option str; sr_reference : option Z }.

Record ProcessResult : Type := mkProcess {
  pr_termination : TerminationKind; pr_code : option Z; pr_elapsed_millis : Z;
  pr_stdout : StreamResult; pr_stderr : StreamResult }.

Record ReadResult : Type := mkReadResult {
  rr_path : Z; rr_offset : Z; rr_length : Z; rr_digest : str; rr_text : option str; rr_reference : option Z }.

Record ListEntry : Type := mkListEntry { le_path : Z; le_kind : FileKind; le_size : Z }.

Record SearchMatch : Type := mkSearchMatch { sm_path : Z; sm_line : Z; sm_column : Z; sm_text : str }.

Record PatchResult : Type := mkPatchResult { pa_path : Z; pa_state : PatchState; pa_digest : option str }.

Record FsResult : Type := mkFsResult {
  fr_id : Z; fr_kind : FsActionKind; fr_path : Z; fr_destination : option Z;
  fr_state : FsState; fr_digest : option str }.

Record BatchNodeResult : Type := mkBatchResult {
  br_id : Z; br_operation : Operation; br_state : BatchNodeState;
  br_status : option Status; br_reference : option Z }.

Record SnapshotResult : Type := mkSnapshotResult {
  sn_path : Z; sn_change : SnapshotChange; sn_kind : FileKind; sn_size : Z; sn_digest : option str }.

Record ReferenceSlice : Type := mkSlice {
  rs_offset : Z; rs_length : Z; rs_projected_bytes : Z; rs_digest : str;
  rs_text : option str; rs_hex : option str }.

Record ReferenceMatch : Type := mkRefMatch { rm_offset : Z; rm_line : Z; rm_column : Z; rm_text : str }.

Record MaterializedReference : Type := mkMaterialized {
  mr_path : Z; mr_state : FsState; mr_size : Z; mr_digest : option str }.

(** [ReleasedReference] is its field. *)
Inductive ReferenceResult : Type :=
| RSlice (result : ReferenceSlice)
| RSearch (matches : list ReferenceMatch)
| RReleased (reference : Z)
| RProjection (table : Table)
| RMaterialized (result : MaterializedReference).

Record CancelResult : Type := mkCancelResult { cr_target_id : Z; cr_state : CancellationState }.

Inductive ResultData : Type :=
| DExec (result : ProcessResult)
| DRead (results : list ReadResult)
| DList (entries : list ListEntry)
| DSearch (matches : list SearchMatch)
| DPatch (results : list PatchResult)
| DFs (results : list FsResult)
| DBatch (results : list BatchNodeResult)
| DSnapshot (results : list SnapshotResult)
| DReference (result : ReferenceResult)
| DCancel (result : CancelResult).

Record FinalResponse : Type := mkResponse {
  fp_request_id : Z;
  fp_status : Status;
  fp_paths : list PathMapping;
  fp_data : option ResultData;
  fp_error : option ErrorRecord;
  fp_flags : Z;
  fp_reference : option Z;
}.

(** ** Validation *)

Definition validate_reference (reference : option Z) : result ResponseError unit :=
  if bool_decide (reference = Some 0) then Err RsInvalidReference else Ok tt.

(** [is_none_or(valid_digest)] *)
Definition optional_digest_ok (digest : option str) : bool :=
  match digest with Some digest => valid_digest digest | None => true end.

(** The [HashSet] of a loop of inserts. *)
Definition all_new {K} `{Countable K} (l : list K) : bool := negb (is_some (first_duplicate l)).

Definition ids_ascending {A} (id : A -> Z) (l : list A) : bool := windows2_all (fun a b => id a <? id b) l.

Definition validate_paths (paths : list PathMapping) : result ResponseError unit :=
  if ids_ascending pm_id paths
     && forallb (fun p => negb (pm_id p =? 0) && negb (bool_decide (pm_value p = []))
                          && (str_len (pm_value p) <=? 4096) && negb (contains 0 (pm_value p))) paths
     && all_new (pm_id <$> paths) && all_new (pm_value <$> paths)
  then Ok tt else Err RsInvalidPaths.

Definition invalid_if (b : bool) : result ResponseError unit := if b then Err RsInvalidData else Ok tt.

(** [for result in results]. *)
Fixpoint each {A} (check : A -> result ResponseError unit) (l : list A) : result ResponseError unit :=
  match l with
  | [] => Ok tt
  | x :: l => _ ← check x; each check l
  end.

(** A digit or a lower-case letter up to [f]. *)
Definition lower_hex (byte : Z) : bool := is_ascii_digit byte || ((97 <=? byte) && (byte <=? 102)).

Definition ReferenceSlice_validate (s : ReferenceSlice) : result ResponseError unit :=
  let text_matches := match rs_text s with Some text => str_len text =? rs_projected_bytes s | None => false end in
  let hex_matches :=
    match rs_hex s with
    | Some hex =>
        (rs_projected_bytes s * 2 <=? usize_max) && (rs_projected_bytes s * 2 =? str_len hex)
        && forallb lower_hex (str_bytes hex)
    | None => false
    end in
  invalid_if ((rs_length s <? rs_projected_bytes s) || negb (valid_digest (rs_digest s))
              || eqb text_matches hex_matches).

Definition MaterializedReference_validate (m : MaterializedReference) : result ResponseError unit :=
  let identity_valid :=
    if bool_decide (mr_state m = FSkipped) then negb (is_some (mr_digest m))
    else match mr_digest m with Some digest => valid_digest digest | None => false end in
  invalid_if ((mr_path m =? 0) || negb identity_valid).

Definition ReferenceResult_validate (r : ReferenceResult) : result ResponseError unit :=
  match r with
  | RSlice result => ReferenceSlice_validate result
  | RSearch matches => invalid_if (existsb (fun m => (rm_line m =? 0) || (rm_column m =? 0)) matches)
  | RReleased reference => invalid_if (reference =? 0)
  | RProjection _ => Ok tt
  | RMaterialized result => MaterializedReference_validate result
  end.

Definition ReadResult_validate (r : ReadResult) : result ResponseError unit :=
  _ ← validate_reference (rr_reference r);
  invalid_if ((rr_path r =? 0) || negb (str_len (rr_digest r) =? 64)
              || negb (forallb lower_hex (str_bytes (rr_digest r)))
              || (negb (is_some (rr_text r)) && negb (is_some (rr_reference r)))).

Definition PatchResult_validate (r : PatchResult) : result ResponseError unit :=
  let valid_state_digest :=
    match pa_state r with
    | PCommitted | PConflict | PRolledBack => is_some (pa_digest r)
    | PRecoveryRequired => true
    | PSkipped => negb (is_some (pa_digest r))
    end in
  invalid_if ((pa_path r =? 0) || negb (optional_digest_ok (pa_digest r)) || negb valid_state_digest).

Definition FsResult_validate (r : FsResult) : result ResponseError unit :=
  _ ← invalid_if ((fr_id r =? 0) || (fr_path r =? 0));
  let destination_valid :=
    match fr_kind r with
    | FsCreate | FsRemove => negb (is_some (fr_destination r))
    | FsCopy | FsMove =>
        match fr_destination r with Some path => negb (path =? 0) && negb (path =? fr_path r) | None => false end
    end in
  let state_valid :=
    match fr_state r with
    | FCommitted | FConflict | FRolledBack => is_some (fr_digest r)
    | FRecoveryRequired => true
    | FSkipped => negb (is_some (fr_digest r))
    end in
  invalid_if (negb destination_valid || negb (optional_digest_ok (fr_digest r)) || negb state_valid).

Definition BatchNodeResult_validate (r : BatchNodeResult) : result ResponseError unit :=
  _ ← validate_reference (br_reference r);
  _ ← invalid_if ((br_id r =? 0) || is_batch_or_cancel (br_operation r));
  invalid_if (negb
    match br_state r with
    | BSucceeded => bool_decide (br_status r = Some Success) && is_some (br_reference r)
    | BFailed =>
        match br_status r with
        | Some status => negb (bool_decide (status = Success) || bool_decide (status = SCancelled))
        | None => false
        end && is_some (br_reference r)
    | BSkipped => negb (is_some (br_status r)) && negb (is_some (br_reference r))
    | BCancelled => bool_decide (br_status r = Some SCancelled) && is_some (br_reference r)
    end).

(** The loop inserts each path after it has checked that it is not zero. *)
Definition SnapshotResult_validate (r : SnapshotResult) : bool :=
  let identity_valid :=
    match sn_kind r with
    | KFile => is_some (sn_digest r)
    | KSymlink => is_some (sn_digest r) && (sn_size r =? 0)
    | KDirectory | KOther => negb (is_some (sn_digest r)) && (sn_size r =? 0)
    end in
  negb (sn_path r =? 0) && optional_digest_ok (sn_digest r) && identity_valid.

Definition ResultData_validate (d : ResultData) : result ResponseError unit :=
  match d with
  | DExec r =>
      _ ← validate_reference (sr_reference (pr_stdout r));
      _ ← validate_reference (sr_reference (pr_stderr r));
      invalid_if (match pr_termination r with TkExited | TkSignaled => true | _ => false end
                  && negb (is_some (pr_code r)))
  | DRead results => each ReadResult_validate results
  | DList entries => invalid_if (existsb (fun e => le_path e =? 0) entries)
  | DSearch matches =>
      invalid_if (existsb (fun m => (sm_path m =? 0) || (sm_line m =? 0) || (sm_column m =? 0)) matches)
  | DPatch results =>
      _ ← invalid_if (bool_decide (length results = O) || negb (all_new (pa_path <$> results)));
      each PatchResult_validate results
  | DFs results =>
      _ ← invalid_if (bool_decide (length results = O) || negb (ids_ascending fr_id results));
      each FsResult_validate results
  | DBatch results =>
      _ ← invalid_if (bool_decide (length results = O) || negb (ids_ascending br_id results));
      each BatchNodeResult_validate results
  | DSnapshot results =>
      invalid_if (negb (forallb SnapshotResult_validate results && all_new (sn_path <$> results)))
  | DReference result => ReferenceResult_validate result
  | DCancel result => invalid_if (cr_target_id result =? 0)
  end.

Definition has_reference (d : ResultData) : bool :=
  match d with
  | DExec r => is_some (sr_reference (pr_stdout r)) || is_some (sr_reference (pr_stderr r))
  | DRead results => existsb (fun r => is_some (rr_reference r)) results
  | DBatch results => existsb (fun r => is_some (br_reference r)) results
  | _ => false
  end.

(** The checks of the data against the status. *)
Definition check_status (status : Status) (d : ResultData) : result ResponseError unit :=
  match d with
  | DPatch results =>
      _ ← invalid_if (bool_decide (status = Success)
                      && existsb (fun r => negb (bool_decide (pa_state r = PCommitted))) results);
      invalid_if (bool_decide (status = SConflict)
                  && negb (existsb (fun r => bool_decide (pa_state r = PConflict)) results))
  | DBatch results =>
      invalid_if (bool_decide (status = Success)
                  && existsb (fun r => negb (bool_decide (br_state r = BSucceeded))) results)
  | DFs results =>
      _ ← invalid_if (bool_decide (status = Success)
                      && existsb (fun r => negb (bool_decide (fr_state r = FCommitted))) results);
      invalid_if (bool_decide (status = SConflict)
                  && negb (existsb (fun r => bool_decide (fr_state r = FConflict)) results))
  | _ => Ok tt
  end.

(** Which data come with a reference. *)
Definition check_reference (d : ResultData) (reference : option Z) : result ResponseError unit :=
  match d with
  | DReference (RSlice _ | RSearch _ | RProjection _ | RMaterialized _) | DSnapshot _ =>
      invalid_if (negb (is_some reference))
  | DReference (RReleased _) => invalid_if (is_some reference)
  | _ => Ok tt
  end.

Definition check_materialized (status : Status) (d : ResultData) : result ResponseError unit :=
  match d with
  | DReference (RMaterialized result) =>
      _ ← invalid_if (bool_decide (status = Success) && negb (bool_decide (mr_state result = FCommitted)));
      invalid_if (bool_decide (status = SConflict) && negb (bool_decide (mr_state result = FConflict)))
  | _ => Ok tt
  end.

Definition FinalResponse_new (request_id : Z) (status : Status) (paths : list PathMapping)
    (data : option ResultData) (error : option ErrorRecord) (flags : Z) (reference : option Z)
    : result ResponseError FinalResponse :=
  if request_id =? 0 then Err RsInvalidRequestId
  else if negb (eqb (bool_decide (status = Success)) (negb (is_some error))) then Err RsStatusErrorMismatch
  else if bool_decide (status = Success) && negb (is_some data) then Err RsMissingData
  else if negb (mask_extra flags ALL_RESULT_FLAGS =? 0) then Err RsInvalidFlags
  else
    _ ← validate_paths paths;
    _ ← match data with
        | Some data =>
            _ ← ResultData_validate data;
            _ ← check_status status data;
            _ ← check_reference data reference;
            check_materialized status data
        | None => Ok tt
        end;
    _ ← validate_reference reference;
    _ ← match error with
        | Some error => _ ← validate_reference (er_evidence error); validate_reference (er_argument error)
        | None => Ok tt
        end;
    let data_reference := match data with Some data => has_reference data | None => false end in
    let has_retained :=
      is_some reference || data_reference
      || match error with Some error => is_some (er_evidence error) || is_some (er_argument error) | None => false end in
    if negb (eqb (negb (Z.land flags RESULT_RETAINED =? 0)) has_retained) then Err RsRetainedFlagMismatch
    else if negb (Z.land flags RESULT_TRUNCATED =? 0) && negb (is_some reference) && negb data_reference
    then Err RsMissingRetainedReference
    else Ok (mkResponse request_id status paths data error flags reference).

Definition FinalResponse_success (request_id : Z) (paths : list PathMapping) (data : ResultData) (flags : Z)
    (reference : option Z) : result ResponseError FinalResponse :=
  FinalResponse_new request_id Success paths (Some data) None flags reference.

Definition FinalResponse_failure (request_id : Z) (status : Status) (error : ErrorRecord) (paths : list PathMapping)
    (data : option ResultData) (flags : Z) (reference : option Z) : result ResponseError FinalResponse :=
  FinalResponse_new request_id status paths data (Some error) flags reference.

(** ** The document *)

Definition null_cell : Cell := CAtom Null.
Definition map_or_null {A} (f : A -> Cell) (value : option A) : Cell :=
  match value with Some value => f value | None => null_cell end.
Definition optional_signed (value : option Z) : Cell := map_or_null unsigned_value value.
Definition optional_text (value : option str) : Cell := map_or_null text_value value.
Definition optional_reference (value : option Z) : Atom :=
  match value with Some id => Reference id | None => Null end.
Definition optional_reference_cell (value : option Z) : Cell := CAtom (optional_reference value).

Definition PathMapping_cells (p : PathMapping) : list Cell :=
  [unsigned_value (pm_id p); text_value (pm_value p)].

Definition encode_paths (paths : list PathMapping) : result BuildError Value :=
  table_value PATH_COLUMNS (PathMapping_cells <$> paths).

Definition ErrorRecord_cells (e : ErrorRecord) : list Cell :=
  [unsigned_value (ErrorCode_code (er_code e)); unsigned_value (RetryClass_code (er_retry e));
   unsigned_value (ErrorStage_code (er_stage e)); optional_reference_cell (er_evidence e);
   optional_reference_cell (er_argument e)].

Definition encode_error (e : ErrorRecord) : result BuildError Value :=
  record_value ERROR_COLUMNS (ErrorRecord_cells e).

Definition ReadResult_cells (r : ReadResult) : list Cell :=
  [unsigned_value (rr_path r); unsigned_value (rr_offset r); unsigned_value (rr_length r);
   text_value (rr_digest r); optional_text (rr_text r);
   optional_reference_cell (rr_reference r)].

Definition encode_read (results : list ReadResult) : result BuildError Value :=
  table_value READ_COLUMNS (ReadResult_cells <$> results).

Definition ListEntry_cells (e : ListEntry) : list Cell :=
  [unsigned_value (le_path e); unsigned_value (FileKind_code (le_kind e));
   unsigned_value (le_size e)].

Definition encode_list (entries : list ListEntry) : result BuildError Value :=
  table_value LIST_COLUMNS (ListEntry_cells <$> entries).

Definition SearchMatch_cells (m : SearchMatch) : list Cell :=
  [unsigned_value (sm_path m); unsigned_value (sm_line m); unsigned_value (sm_column m);
   text_value (sm_text m)].

Definition encode_search (matches : list SearchMatch) : result BuildError Value :=
  table_value SEARCH_COLUMNS (SearchMatch_cells <$> matches).

Definition PatchResult_cells (r : PatchResult) : list Cell :=
  [unsigned_value (pa_path r); unsigned_value (PatchState_code (pa_state r));
   optional_text (pa_digest r)].

Definition encode_patch (results : list PatchResult) : result BuildError Value :=
  table_value PATCH_COLUMNS (PatchResult_cells <$> results).

Definition FsResult_cells (r : FsResult) : list Cell :=
  [unsigned_value (fr_id r); unsigned_value (FsActionKind_code (fr_kind r));
   unsigned_value (fr_path r); map_or_null unsigned_value (fr_destination r);
   unsigned_value (FsState_code (fr_state r)); optional_text (fr_digest r)].

Definition encode_fs (results : list FsResult) : result BuildError Value :=
  table_value FS_COLUMNS (FsResult_cells <$> results).

Definition BatchNodeResult_cells (r : BatchNodeResult) : list Cell :=
  [unsigned_value (br_id r); text_value [operation_id (br_operation r)];
   unsigned_value (BatchNodeState_code (br_state r));
   map_or_null (fun s => unsigned_value (Status_code s)) (br_status r);
   optional_reference_cell (br_reference r)].

Definition encode_batch (results : list BatchNodeResult) : result BuildError Value :=
  table_value BATCH_COLUMNS (BatchNodeResult_cells <$> results).

Definition SnapshotResult_cells (r : SnapshotResult) : list Cell :=
  [unsigned_value (sn_path r); unsigned_value (SnapshotChange_code (sn_change r));
   unsigned_value (FileKind_code (sn_kind r)); unsigned_value (sn_size r);
   optional_text (sn_digest r)].

Definition encode_snapshot (results : list SnapshotResult) : result BuildError Value :=
  table_value SNAPSHOT_COLUMNS (SnapshotResult_cells <$> results).

Definition ReferenceMatch_cells (m : ReferenceMatch) : list Cell :=
  [unsigned_value (rm_offset m); unsigned_value (rm_line m); unsigned_value (rm_column m);
   text_value (rm_text m)].

Definition encode_reference_search (matches : list ReferenceMatch) : result BuildError Value :=
  table_value REF_SEARCH_COLUMNS (ReferenceMatch_cells <$> matches).

Definition ProcessResult_cells (r : ProcessResult) : list Cell :=
  [unsigned_value (TerminationKind_code (pr_termination r)); optional_signed (pr_code r);
   unsigned_value (pr_elapsed_millis r); optional_text (sr_projection (pr_stdout r));
   optional_text (sr_projection (pr_stderr r)); optional_reference_cell (sr_reference (pr_stdout r));
   optional_reference_cell (sr_reference (pr_stderr r))].

Definition ProcessResult_encode (r : ProcessResult) : result BuildError Value :=
  record_value EXEC_COLUMNS (ProcessResult_cells r).

Definition ReferenceSlice_cells (s : ReferenceSlice) : list Cell :=
  [unsigned_value (rs_offset s); unsigned_value (rs_length s); unsigned_value (rs_projected_bytes s);
   text_value (rs_digest s); optional_text (rs_text s); optional_text (rs_hex s)].

Definition ReferenceSlice_encode (s : ReferenceSlice) : result BuildError Value :=
  record_value REF_SLICE_COLUMNS (ReferenceSlice_cells s).

Definition ReleasedReference_encode (reference : Z) : result BuildError Value :=
  record_value REF_RELEASE_COLUMNS [CAtom (Reference reference); unsigned_value 1].

Definition MaterializedReference_cells (m : MaterializedReference) : list Cell :=
  [unsigned_value (mr_path m); unsigned_value (FsState_code (mr_state m)); unsigned_value (mr_size m);
   optional_text (mr_digest m)].

Definition MaterializedReference_encode (m : MaterializedReference) : result BuildError Value :=
  record_value REF_MATERIALIZE_COLUMNS (MaterializedReference_cells m).

Definition CancelResult_cells (r : CancelResult) : list Cell :=
  [unsigned_value (cr_target_id r); unsigned_value (CancellationState_code (cr_state r))].

Definition CancelResult_encode (r : CancelResult) : result BuildError Value :=
  record_value CANCEL_COLUMNS (CancelResult_cells r).

Definition ReferenceResult_encode (r : ReferenceResult) : result BuildError Value :=
  match r with
  | RSlice result => ReferenceSlice_encode result
  | RSearch matches => encode_reference_search matches
  | RReleased reference => ReleasedReference_encode reference
  | RProjection table => Ok (VTable table)
  | RMaterialized result => MaterializedReference_encode result
  end.

Definition ResultData_encode (d : ResultData) : result BuildError Value :=
  match d with
  | DExec result => ProcessResult_encode result
  | DRead results => encode_read results
  | DList entries => encode_list entries
  | DSearch matches => encode_search matches
  | DPatch results => encode_patch results
  | DFs results => encode_fs results
  | DBatch results => encode_batch results
  | DSnapshot results => encode_snapshot results
  | DReference result => ReferenceResult_encode result
  | DCancel result => CancelResult_encode result
  end.

Definition FinalResponse_encode (r : FinalResponse) : result BuildError Document :=
  t ← scalar_field (L "t") (L "3");
  i ← scalar_field (L "i") (to_string (fp_request_id r));
  s ← scalar_field (L "s") (to_string (Status_code (fp_status r)));
  paths ← (if bool_decide (length (fp_paths r) = O) then Ok []
           else key ← Key_new (L "p"); value ← encode_paths (fp_paths r); Ok [mkField key value]);
  data ← match fp_data r with
         | Some data => key ← Key_new (L "d"); value ← ResultData_encode data; Ok [mkField key value]
         | None => Ok []
         end;
  error ← match fp_error r with
          | Some e => key ← Key_new (L "e"); value ← encode_error e; Ok [mkField key value]
          | None => Ok []
          end;
  z ← scalar_field (L "z") (to_string (fp_flags r));
  key ← Key_new (L "r");
  Document_new ([t; i; s] ++ paths ++ data ++ error
                ++ [z; mkField key (Scalar (optional_reference (fp_reference r)))]).
