(* ===== verification/ResponseFacts.v ===== *)
(** * ResponseFacts: what a response's document says

    The writers are injective on values of the right widths, and a document of
    theirs is one that the printer accepts. *)

From S2P Require Import Prelude Text AsonModel AsonCodec AsonScalarFacts AsonFacts Wire.
From S2P Require Import Capability Request RequestFacts Response.

(** ** Decimals of any sign *)

Lemma to_string_negative n : n < 0 -> to_string n = 45 :: to_string (- n).
Proof. intros Hn. unfold to_string. rewrite (proj2 (Z.ltb_lt n 0) Hn), (proj2 (Z.ltb_ge (- n) 0)) by lia. done. Qed.

Lemma to_string_signed_inj m n : to_string m = to_string n -> m = n.
Proof.
  intros H. assert (forall k, 0 <= k -> head (to_string k) <> Some 45) as Hd.
  { intros k Hk E. pose proof (to_string_digits k Hk) as Hdig. destruct (to_string k); [done|]. injection E as ->. done. }
  destruct (Z.lt_ge_cases m 0) as [Hm|Hm], (Z.lt_ge_cases n 0) as [Hn|Hn].
  - rewrite (to_string_negative m), (to_string_negative n) in H by done. injection H as H. apply to_string_inj in H; lia.
  - destruct (Hd n Hn). by rewrite <- H, to_string_negative.
  - destruct (Hd m Hm). by rewrite H, to_string_negative.
  - by apply to_string_inj.
Qed.

Lemma to_string_signed_valid n : valid_str (to_string n) = true.
Proof.
  assert (forall k, 0 <= k -> valid_str (to_string k) = true) as Hk.
  { intros k Hk. apply valid_str_ascii, forallb_forall. intros c Hc.
    pose proof (to_string_digits k Hk) as H. rewrite forallb_forall in H. specialize (H c Hc).
    unfold is_ascii_digit in H. zbool. apply andb_true_iff. lia. }
  destruct (Z.lt_ge_cases n 0) as [Hn|Hn]; [|by apply Hk]. rewrite to_string_negative by done.
  change (45 :: to_string (- n)) with ([45] ++ to_string (- n)). rewrite valid_str_app. apply Hk. lia.
Qed.

(** ** Injective writers *)

#[export] Instance unsigned_value_inj : Inj (=) (=) unsigned_value.
Proof. intros m n H. apply to_string_signed_inj. by injection H. Qed.
#[export] Instance text_value_inj : Inj (=) (=) text_value.
Proof. intros s t H. by injection H. Qed.

(** The writer of a present value never writes null. *)
Lemma map_or_null_inj {A} (f : A -> Cell) :
  Inj (=) (=) f -> (forall a, f a <> null_cell) -> Inj (=) (=) (map_or_null f).
Proof.
  intros Hf Hn [a|] [b|] H; cbn in H; try done; [by apply (inj f) in H as ->|by destruct (Hn a)|by destruct (Hn b)].
Qed.

#[export] Instance optional_signed_inj : Inj (=) (=) optional_signed.
Proof. by apply map_or_null_inj; [apply _|]. Qed.
#[export] Instance optional_text_inj : Inj (=) (=) optional_text.
Proof. by apply map_or_null_inj; [apply _|]. Qed.
#[export] Instance optional_reference_inj : Inj (=) (=) optional_reference.
Proof. intros [a|] [b|] H; by simplify_eq/=. Qed.
#[export] Instance optional_reference_cell_inj : Inj (=) (=) Response.optional_reference_cell.
Proof. intros a b H. injection H as H. by apply (inj optional_reference). Qed.

Ltac inj_codes := intros a b H; destruct a, b; first [reflexivity|discriminate H].
#[export] Instance Status_code_inj : Inj (=) (=) Status_code. Proof. inj_codes. Qed.
#[export] Instance RetryClass_code_inj : Inj (=) (=) RetryClass_code. Proof. inj_codes. Qed.
#[export] Instance ErrorStage_code_inj : Inj (=) (=) ErrorStage_code. Proof. inj_codes. Qed.
#[export] Instance ErrorCode_code_inj : Inj (=) (=) ErrorCode_code. Proof. inj_codes. Qed.
#[export] Instance CancellationState_code_inj : Inj (=) (=) CancellationState_code. Proof. inj_codes. Qed.
#[export] Instance TerminationKind_code_inj : Inj (=) (=) TerminationKind_code. Proof. inj_codes. Qed.
#[export] Instance FileKind_code_inj : Inj (=) (=) FileKind_code. Proof. inj_codes. Qed.
#[export] Instance PatchState_code_inj : Inj (=) (=) PatchState_code. Proof. inj_codes. Qed.
#[export] Instance FsState_code_inj : Inj (=) (=) FsState_code. Proof. inj_codes. Qed.
#[export] Instance FsActionKind_code_inj : Inj (=) (=) FsActionKind_code. Proof. inj_codes. Qed.
#[export] Instance BatchNodeState_code_inj : Inj (=) (=) BatchNodeState_code. Proof. inj_codes. Qed.
#[export] Instance SnapshotChange_code_inj : Inj (=) (=) SnapshotChange_code. Proof. inj_codes. Qed.

#[export] Instance status_cell_inj : Inj (=) (=) (map_or_null (fun s => unsigned_value (Status_code s))).
Proof. apply map_or_null_inj; [|done]. intros a b H. by apply (inj unsigned_value), (inj Status_code) in H. Qed.
#[export] Instance destination_cell_inj : Inj (=) (=) (map_or_null unsigned_value).
Proof. apply optional_signed_inj. Qed.
Lemma operation_letter_inj a b : [operation_id a] = [operation_id b] -> a = b.
Proof. destruct a, b; intros H; first [reflexivity|discriminate H]. Qed.

Lemma cons_inv {A} (x y : A) l k : x :: l = y :: k -> x = y /\ l = k.
Proof. by intros [= -> ->]. Qed.

(** Reads the equal cells off a list, then what is in them. *)
Ltac inj_cells f :=
  intros a b H; unfold f in H;
  repeat match type of H with _ :: _ = _ :: _ => apply cons_inv in H as [? H] end;
  repeat match goal with
    | E : ?f _ = ?f _ |- _ => apply (inj f) in E
    | E : [operation_id _] = [operation_id _] |- _ => apply operation_letter_inj in E
    end;
  destruct a, b; simpl in *; subst; reflexivity.

#[export] Instance PathMapping_cells_inj : Inj (=) (=) PathMapping_cells. Proof. inj_cells PathMapping_cells. Qed.
#[export] Instance ErrorRecord_cells_inj : Inj (=) (=) ErrorRecord_cells. Proof. inj_cells ErrorRecord_cells. Qed.
#[export] Instance ReadResult_cells_inj : Inj (=) (=) ReadResult_cells. Proof. inj_cells ReadResult_cells. Qed.
#[export] Instance ListEntry_cells_inj : Inj (=) (=) ListEntry_cells. Proof. inj_cells ListEntry_cells. Qed.
#[export] Instance SearchMatch_cells_inj : Inj (=) (=) SearchMatch_cells. Proof. inj_cells SearchMatch_cells. Qed.
#[export] Instance PatchResult_cells_inj : Inj (=) (=) PatchResult_cells. Proof. inj_cells PatchResult_cells. Qed.
#[export] Instance FsResult_cells_inj : Inj (=) (=) FsResult_cells. Proof. inj_cells FsResult_cells. Qed.
#[export] Instance BatchNodeResult_cells_inj : Inj (=) (=) BatchNodeResult_cells. Proof. inj_cells BatchNodeResult_cells. Qed.
#[export] Instance SnapshotResult_cells_inj : Inj (=) (=) SnapshotResult_cells. Proof. inj_cells SnapshotResult_cells. Qed.
#[export] Instance ReferenceMatch_cells_inj : Inj (=) (=) ReferenceMatch_cells. Proof. inj_cells ReferenceMatch_cells. Qed.
#[export] Instance ReferenceSlice_cells_inj : Inj (=) (=) ReferenceSlice_cells. Proof. inj_cells ReferenceSlice_cells. Qed.
#[export] Instance MaterializedReference_cells_inj : Inj (=) (=) MaterializedReference_cells. Proof. inj_cells MaterializedReference_cells. Qed.
#[export] Instance CancelResult_cells_inj : Inj (=) (=) CancelResult_cells. Proof. inj_cells CancelResult_cells. Qed.
#[export] Instance ProcessResult_cells_inj : Inj (=) (=) ProcessResult_cells.
Proof.
  intros a b H. unfold ProcessResult_cells in H.
  repeat match type of H with _ :: _ = _ :: _ => apply cons_inv in H as [? H] end.
  repeat match goal with E : ?f _ = ?f _ |- _ => apply (inj f) in E end.
  destruct a as [? ? ? [] []], b as [? ? ? [] []]. simpl in *. by subst.
Qed.

(** ** The value of the data *)

Definition is_projection (d : ResultData) : bool :=
  match d with DReference (RProjection _) => true | _ => false end.

Definition rows {A} (columns : list str) (cells : A -> list Cell) (l : list A) : Value :=
  VTable (mkTable columns (cells <$> l)).

Definition ResultData_value (d : ResultData) : Value :=
  match d with
  | DExec r => VRecord (mkRec EXEC_COLUMNS (ProcessResult_cells r))
  | DRead l => rows READ_COLUMNS ReadResult_cells l
  | DList l => rows LIST_COLUMNS ListEntry_cells l
  | DSearch l => rows SEARCH_COLUMNS SearchMatch_cells l
  | DPatch l => rows PATCH_COLUMNS PatchResult_cells l
  | DFs l => rows FS_COLUMNS FsResult_cells l
  | DBatch l => rows BATCH_COLUMNS BatchNodeResult_cells l
  | DSnapshot l => rows SNAPSHOT_COLUMNS SnapshotResult_cells l
  | DReference (RSlice s) => VRecord (mkRec REF_SLICE_COLUMNS (ReferenceSlice_cells s))
  | DReference (RSearch l) => rows REF_SEARCH_COLUMNS ReferenceMatch_cells l
  | DReference (RReleased n) => VRecord (mkRec REF_RELEASE_COLUMNS [CAtom (Reference n); unsigned_value 1])
  | DReference (RProjection t) => VTable t
  | DReference (RMaterialized m) => VRecord (mkRec REF_MATERIALIZE_COLUMNS (MaterializedReference_cells m))
  | DCancel r => VRecord (mkRec CANCEL_COLUMNS (CancelResult_cells r))
  end.

Lemma table_value_rows {A} columns (cells : A -> list Cell) l :
  validate_columns columns = Ok tt -> forallb is_valid_key columns = true ->
  (forall a, length (cells a) = length columns) ->
  table_value columns (cells <$> l) = Ok (rows columns cells l).
Proof.
  intros Hc Hk Hl. apply table_value_inv; try done. apply list.Forall_forall.
  intros row (a & -> & _)%list_elem_of_fmap. unfold len. by rewrite Hl.
Qed.

Lemma ResultData_encode_eq d : ResultData_encode d = Ok (ResultData_value d).
Proof.
  destruct d as [| | | | | | | |[]|]; cbn [ResultData_encode ReferenceResult_encode ResultData_value];
    first [by apply table_value_rows|by apply record_value_eq|done].
Qed.

Lemma rows_inj {A} columns (cells : A -> list Cell) l k :
  Inj (=) (=) cells -> rows columns cells l = rows columns cells k -> l = k.
Proof. intros Hc H. injection H as H. by apply (inj (fmap cells)). Qed.

Lemma ResultData_value_inj d d' :
  is_projection d = is_projection d' -> ResultData_value d = ResultData_value d' -> d = d'.
Proof.
  intros Hp H. assert (forall columns columns' (v v' : list Cell), VRecord (mkRec columns v) = VRecord (mkRec columns' v') ->
    columns = columns' /\ v = v') as Hr by by intros ? ? ? ? [= -> ->].
  destruct d as [r|l|l|l|l|l|l|l|[s|l|n|t|m]|c], d' as [r'|l'|l'|l'|l'|l'|l'|l'|[s'|l'|n'|t'|m']|c'];
    cbn [is_projection] in Hp; try discriminate Hp; cbn [ResultData_value] in H;
    first
      [ discriminate H
      | apply rows_inj in H; [by subst|apply _]
      | apply Hr in H as [_ H]; first
          [ by apply (inj _) in H as ->
          | by injection H as -> ]
      | by injection H as -> ].
Qed.

(** ** The document *)

Definition response_document (r : FinalResponse) : Document :=
  mkDocument
    ([mkField (L "t") (Scalar (AText (L "3")));
      mkField (L "i") (Scalar (AText (to_string (fp_request_id r))));
      mkField (L "s") (Scalar (AText (to_string (Status_code (fp_status r)))))]
     ++ (if bool_decide (length (fp_paths r) = O) then []
         else [mkField (L "p") (rows PATH_COLUMNS PathMapping_cells (fp_paths r))])
     ++ (match fp_data r with Some d => [mkField (L "d") (ResultData_value d)] | None => [] end)
     ++ (match fp_error r with
         | Some e => [mkField (L "e") (VRecord (mkRec ERROR_COLUMNS (ErrorRecord_cells e)))]
         | None => []
         end)
     ++ [mkField (L "z") (Scalar (AText (to_string (fp_flags r))));
         mkField (L "r") (Scalar (optional_reference (fp_reference r)))]).

Lemma FinalResponse_encode_eq r : FinalResponse_encode r = Ok (response_document r).
Proof.
  unfold FinalResponse_encode. rewrite !scalar_field_ok by done. cbn [mbind result_bind].
  unfold encode_paths, encode_error.
  rewrite (table_value_rows PATH_COLUMNS PathMapping_cells) by done.
  unfold response_document.
  destruct (bool_decide _), (fp_data r) as [d|], (fp_error r) as [e|]; cbn [mbind result_bind Key_new];
    rewrite ?ResultData_encode_eq, ?record_value_eq by done; cbn [mbind result_bind];
    (apply Document_new_schema; [done|]; cbn [fmap list_fmap field_key app]; decide_closed).
Qed.

Definition projects (r : FinalResponse) : bool :=
  match fp_data r with Some d => is_projection d | None => false end.

Lemma optional_field_inj {A} (k : Key) (f : A -> Value) (o o' : option A) rest rest' :
  (forall field, head rest = Some field -> field_key field <> k) ->
  (forall field, head rest' = Some field -> field_key field <> k) ->
  match o with Some a => [mkField k (f a)] | None => [] end ++ rest
  = match o' with Some a => [mkField k (f a)] | None => [] end ++ rest' ->
  f <$> o = f <$> o' /\ rest = rest'.
Proof.
  intros Hr Hr' H. destruct o as [a|], o' as [a'|]; cbn in *.
  - by injection H as -> ->.
  - destruct rest'; [done|]. injection H as <- _. by destruct (Hr' _ eq_refl).
  - destruct rest; [done|]. injection H as -> _. by destruct (Hr _ eq_refl).
  - done.
Qed.

Lemma response_document_inj r r' :
  projects r = projects r' -> response_document r = response_document r' -> r = r'.
Proof.
  destruct r as [i s ps d e z n], r' as [i' s' ps' d' e' z' n']. unfold projects, response_document. simpl.
  intros Hp H. injection H as Hi Hs H. apply to_string_signed_inj in Hi as ->.
  apply to_string_signed_inj, (inj Status_code) in Hs as ->.
  set (paths := fun ps : list PathMapping => if bool_decide (length ps = O) then None else Some ps) in *.
  assert (forall ps, (if bool_decide (length ps = O) then [] else [mkField (L "p") (rows PATH_COLUMNS PathMapping_cells ps)])
    = match paths ps with Some ps => [mkField (L "p") (rows PATH_COLUMNS PathMapping_cells ps)] | None => [] end) as Hpaths
    by (intros [|? ?]; reflexivity).
  rewrite !Hpaths in H.
  apply optional_field_inj in H as [Hps H]; [|by destruct d, e; intros f [= <-]|by destruct d', e'; intros f [= <-]].
  apply optional_field_inj in H as [Hd H]; [|by destruct e; intros f [= <-]|by destruct e'; intros f [= <-]].
  apply (optional_field_inj (L "e") (fun e => VRecord (mkRec ERROR_COLUMNS (ErrorRecord_cells e)))) in H as [He H];
    [|by intros f [= <-]|by intros f [= <-]].
  injection H as Hz Hn. apply to_string_signed_inj in Hz as ->. apply (inj optional_reference) in Hn as ->.
  assert (ps = ps') as ->.
  { unfold paths in Hps. destruct ps as [|p ps], ps' as [|p' ps']; cbn -[rows] in Hps; try discriminate; [done|].
    apply (inj Some), rows_inj in Hps; [done|apply _]. }
  assert (d = d') as ->.
  { destruct d as [d|], d' as [d'|]; cbn in Hd; try discriminate; [|done]. apply (inj Some) in Hd. f_equal.
    by apply ResultData_value_inj. }
  assert (e = e') as ->; [|done].
  destruct e as [e|], e' as [e'|]; cbn in He; try discriminate; [|done]. apply (inj Some) in He.
  apply (f_equal (fun v => match v with VRecord r => rec_values r | _ => [] end)) in He.
  f_equal. by apply (inj ErrorRecord_cells).
Qed.

(** ** Typed responses *)

(** The retained references that the data carry. *)
Definition data_references (d : ResultData) : list Z :=
  match d with
  | DExec r => option_list (sr_reference (pr_stdout r)) ++ option_list (sr_reference (pr_stderr r))
  | DRead l => l ≫= fun r => option_list (rr_reference r)
  | DBatch l => l ≫= fun r => option_list (br_reference r)
  | _ => []
  end.

Definition data_texts (d : ResultData) : list str :=
  match d with
  | DExec r => option_list (sr_projection (pr_stdout r)) ++ option_list (sr_projection (pr_stderr r))
  | DRead l => l ≫= fun r => rr_digest r :: option_list (rr_text r)
  | DSearch l => l ≫= fun m => [sm_text m]
  | DPatch l => l ≫= fun r => option_list (pa_digest r)
  | DFs l => l ≫= fun r => option_list (fr_digest r)
  | DSnapshot l => l ≫= fun r => option_list (sn_digest r)
  | DReference (RSlice s) => rs_digest s :: option_list (rs_text s) ++ option_list (rs_hex s)
  | DReference (RSearch l) => l ≫= fun m => [rm_text m]
  | DReference (RMaterialized m) => option_list (mr_digest m)
  | _ => []
  end.

Definition data_typed (d : ResultData) : Prop :=
  Forall (fun s => valid_str s = true) (data_texts d) /\ Forall (fun n => u64_ok n = true) (data_references d)
  /\ match d with
     | DReference (RProjection t) => value_ok (VTable t) = true
     | DReference (RReleased n) => u64_ok n = true
     | _ => True
     end.

Definition error_references (e : ErrorRecord) : list Z := option_list (er_evidence e) ++ option_list (er_argument e).

(** Every reference of a response. *)
Definition references (r : FinalResponse) : list Z :=
  option_list (fp_reference r)
  ++ match fp_data r with Some d => data_references d | None => [] end
  ++ match fp_error r with Some e => error_references e | None => [] end.

(** The strings are Rust strings and the references are [u64]s. *)
Definition response_typed (r : FinalResponse) : Prop :=
  Forall (fun p => valid_str (pm_value p) = true) (fp_paths r)
  /\ (forall d, fp_data r = Some d -> data_typed d) /\ Forall (fun n => u64_ok n = true) (references r).

Lemma unsigned_cell_ok' n : cell_ok (unsigned_value n) = true.
Proof. apply to_string_signed_valid. Qed.

Lemma optional_signed_ok o : cell_ok (optional_signed o) = true.
Proof. destruct o; [apply unsigned_cell_ok'|done]. Qed.

Lemma map_unsigned_ok o : cell_ok (map_or_null unsigned_value o) = true.
Proof. apply optional_signed_ok. Qed.

Lemma map_status_ok o : cell_ok (map_or_null (fun s => unsigned_value (Status_code s)) o) = true.
Proof. destruct o; [apply unsigned_cell_ok'|done]. Qed.

Lemma optional_text_ok o : Forall (fun s => valid_str s = true) (option_list o) -> cell_ok (optional_text o) = true.
Proof. destruct o; [|done]. cbn. by intros [? _]%list.Forall_cons. Qed.

Lemma optional_reference_ok o :
  Forall (fun n => u64_ok n = true) (option_list o) -> cell_ok (Response.optional_reference_cell o) = true.
Proof. destruct o; [|done]. cbn. by intros [? _]%list.Forall_cons. Qed.

Lemma text_value_ok s : valid_str s = true -> cell_ok (text_value s) = true.
Proof. done. Qed.

Lemma operation_text_ok o : cell_ok (text_value [operation_id o]) = true.
Proof. by destruct o. Qed.

Create HintDb response.
#[export] Hint Resolve unsigned_cell_ok' optional_signed_ok map_unsigned_ok map_status_ok optional_text_ok
  optional_reference_ok operation_text_ok text_value_ok : response.

Lemma cells_ok_cons c l : cell_ok c = true -> forallb cell_ok l = true -> forallb cell_ok (c :: l) = true.
Proof. intros H1 H2. cbn. by rewrite H1, H2. Qed.

Lemma rows_ok {A} columns (cells : A -> list Cell) l :
  columns_ok columns = true -> (forall a, length (cells a) = length columns) ->
  (forall a, a ∈ l -> forallb cell_ok (cells a) = true) -> value_ok (rows columns cells l) = true.
Proof.
  intros Hc Hl Hok. cbn [value_ok rows table_columns table_rows]. rewrite Hc. apply forallb_forall.
  intros row Hrow. apply list_elem_of_In, list_elem_of_fmap in Hrow as (a & -> & Ha).
  rewrite Hok by done. unfold len. by rewrite Hl, Z.eqb_refl.
Qed.

Lemma record_ok' columns cells :
  columns_ok columns = true -> length columns = length cells -> forallb cell_ok cells = true ->
  value_ok (VRecord (mkRec columns cells)) = true.
Proof. intros Hc Hl Hok. cbn. rewrite Hc, Hok. unfold len. by rewrite Hl, Z.eqb_refl. Qed.

(** What holds of every piece of a list holds of the pieces of each element. *)
Lemma Forall_pieces {A B} (P : B -> Prop) (f : A -> list B) l : Forall P (l ≫= f) -> forall a, a ∈ l -> Forall P (f a).
Proof.
  intros H a Ha. apply list.Forall_forall. intros b Hb. apply (proj1 (list.Forall_forall _ _) H).
  apply list_elem_of_bind. by exists a.
Qed.

Ltac cells_tac := repeat (apply cells_ok_cons); try reflexivity; eauto with response.

Lemma ResultData_value_ok d : data_typed d -> value_ok (ResultData_value d) = true.
Proof.
  intros (Ht & Hr & Hp).
  destruct d as [r|l|l|l|l|l|l|l|[s|l|n|t|m]|c]; cbn [ResultData_value data_texts data_references] in *; try exact Hp;
    first
      [ apply rows_ok; [vm_compute; reflexivity|done|]; intros a Ha;
        try pose proof (Forall_pieces _ _ _ Ht a Ha) as Hta; try pose proof (Forall_pieces _ _ _ Hr a Ha) as Hra;
        clear Ht Hr; cbn beta in *
      | apply record_ok'; [vm_compute; reflexivity|done|] ].
  all: repeat match goal with
    | H : Forall _ (_ :: _) |- _ => apply list.Forall_cons in H as [? ?]
    | H : Forall _ (_ ++ _) |- _ => apply Forall_app in H as [? ?]
    end; by cells_tac.
Qed.

Lemma final_response_document_ok r : response_typed r -> document_ok (response_document r) = true.
Proof.
  intros (Hps & Hd & Hr). unfold references in Hr. apply Forall_app in Hr as [Href Hr]. apply Forall_app in Hr as [_ Herr].
  assert (forall s, atom_ok (AText (to_string s)) = true) as Hn by (intros; apply to_string_signed_valid).
  assert (value_ok (rows PATH_COLUMNS PathMapping_cells (fp_paths r)) = true) as Hpaths.
  { apply rows_ok; [vm_compute; reflexivity|done|]. intros p Hp.
    pose proof (proj1 (list.Forall_forall _ _) Hps p Hp) as Hv. cbn beta in Hv. by cells_tac. }
  assert (forall e, fp_error r = Some e -> value_ok (VRecord (mkRec ERROR_COLUMNS (ErrorRecord_cells e))) = true) as He.
  { intros e E. rewrite E in Herr. apply Forall_app in Herr as [? ?]. apply record_ok'; [vm_compute; reflexivity|done|].
    by cells_tac. }
  assert (atom_ok (optional_reference (fp_reference r)) = true) as Ho.
  { destruct (fp_reference r); [|done]. by apply list.Forall_cons in Href as [? _]. }
  assert (forall d, fp_data r = Some d -> value_ok (ResultData_value d) = true) as Hdv
    by (intros d E; by apply ResultData_value_ok, Hd).
  unfold document_ok, response_document. cbn [fields].
  rewrite bool_decide_eq_false_2 by done. rewrite bool_decide_eq_true_2.
  - cbn [negb andb]. rewrite !forallb_app. cbn [forallb field_key field_value value_ok]. rewrite !Hn, Ho.
    destruct (bool_decide _), (fp_data r) as [d|], (fp_error r) as [e|]; cbn [forallb field_key field_value];
      rewrite ?Hpaths, ?(Hdv _ eq_refl), ?(He _ eq_refl); done.
  - destruct (bool_decide _), (fp_data r) as [d|], (fp_error r) as [e|]; cbn [fmap list_fmap field_key app]; decide_closed.
Qed.

(** ** What the constructor accepts *)

Lemma validate_reference_ok o : validate_reference o = Ok tt <-> Forall (fun n => n <> 0) (option_list o).
Proof.
  unfold validate_reference. case_bool_decide as E; [subst|].
  - split; [done|]. cbn. by intros [H _]%list.Forall_cons.
  - split; [|done]. intros _. destruct o; cbn; [|done]. constructor; [|done]. congruence.
Qed.

Lemma invalid_if_ok b : invalid_if b = Ok tt <-> b = false.
Proof. by destruct b. Qed.

Lemma each_ok {A} (check : A -> result ResponseError unit) l :
  each check l = Ok tt <-> Forall (fun a => check a = Ok tt) l.
Proof.
  induction l as [|a l IH]; [done|]. cbn [each]. rewrite bind_ok, list.Forall_cons, <- IH.
  split; [by intros ([] & ? & ?)|]. intros [? ?]. by exists tt.
Qed.

Lemma all_new_ok {K} `{Countable K} (l : list K) : all_new l = true <-> NoDup l.
Proof.
  unfold all_new. rewrite <- first_duplicate_None. destruct (first_duplicate l); [split; [done|by intros [=]]|done].
Qed.

Lemma seq_ok (m k : result ResponseError unit) : (_ ← m; k) = Ok tt <-> m = Ok tt /\ k = Ok tt.
Proof. rewrite bind_ok. split; [by intros ([] & ? & ?)|]. intros [? ?]. by exists tt. Qed.

(** The references of valid data are not zero. *)
Lemma data_references_nonzero d : ResultData_validate d = Ok tt -> Forall (fun n => n <> 0) (data_references d).
Proof.
  intros H. destruct d as [r|l|l|l|l|l|l|l|x|c]; cbn [ResultData_validate data_references] in *; try by constructor.
  - rewrite !seq_ok, !validate_reference_ok in H. destruct H as (H1 & H2 & _). by apply Forall_app.
  - apply each_ok in H. apply list.Forall_bind, (list.Forall_impl _ _ _ H). intros r Hr. cbn beta in *.
    unfold ReadResult_validate in Hr. rewrite seq_ok, validate_reference_ok in Hr. apply Hr.
  - rewrite seq_ok, each_ok in H. destruct H as [_ H]. apply list.Forall_bind, (list.Forall_impl _ _ _ H).
    intros r Hr. cbn beta in *. unfold BatchNodeResult_validate in Hr. rewrite !seq_ok, validate_reference_ok in Hr. apply Hr.
Qed.

Lemma has_reference_spec d : has_reference d = negb (bool_decide (data_references d = [])).
Proof.
  assert (forall {A} (f : A -> option Z) l,
    existsb (fun a => is_some (f a)) l = negb (bool_decide ((l ≫= fun a => option_list (f a)) = []))) as He.
  { intros A f l. induction l as [|a l IH]; [done|]. cbn [existsb mbind list_bind].
    rewrite IH. by destruct (f a). }
  destruct d as [r|l|l|l|l|l|l|l|x|c]; cbn [has_reference data_references]; try done; try apply He.
  destruct (pr_stdout r) as [? []], (pr_stderr r) as [? []]; done.
Qed.

(** ** Valid data, declaratively *)

Definition some_digest (digest : option str) : Prop := exists h, digest = Some h /\ valid_digest h = true.

(** A finished change has a digest, a skipped one has none. *)
Definition patch_digest (state : PatchState) (digest : option str) : Prop :=
  match state with
  | PCommitted | PConflict | PRolledBack => some_digest digest
  | PRecoveryRequired => digest = None \/ some_digest digest
  | PSkipped => digest = None
  end.

Definition fs_digest (state : FsState) (digest : option str) : Prop :=
  match state with
  | FCommitted | FConflict | FRolledBack => some_digest digest
  | FRecoveryRequired => digest = None \/ some_digest digest
  | FSkipped => digest = None
  end.

Definition fs_destination_ok (r : FsResult) : Prop :=
  match fr_kind r with
  | FsCreate | FsRemove => fr_destination r = None
  | FsCopy | FsMove => exists path, fr_destination r = Some path /\ path <> 0 /\ path <> fr_path r
  end.

(** The state of a node says what its status and its reference are. *)
Definition node_ok (r : BatchNodeResult) : Prop :=
  match br_state r with
  | BSucceeded => br_status r = Some Success /\ br_reference r <> None
  | BFailed => (exists s, br_status r = Some s /\ s <> Success /\ s <> SCancelled) /\ br_reference r <> None
  | BSkipped => br_status r = None /\ br_reference r = None
  | BCancelled => br_status r = Some SCancelled /\ br_reference r <> None
  end.

Definition snapshot_identity (r : SnapshotResult) : Prop :=
  match sn_kind r with
  | KFile => some_digest (sn_digest r)
  | KSymlink => some_digest (sn_digest r) /\ sn_size r = 0
  | KDirectory | KOther => sn_digest r = None /\ sn_size r = 0
  end.

Definition data_valid (d : ResultData) : Prop :=
  match d with
  | DExec r => pr_termination r = TkExited \/ pr_termination r = TkSignaled -> pr_code r <> None
  | DRead l => Forall (fun r => rr_path r <> 0 /\ valid_digest (rr_digest r) = true
                                /\ (rr_text r <> None \/ rr_reference r <> None)) l
  | DList l => Forall (fun e => le_path e <> 0) l
  | DSearch l => Forall (fun m => sm_path m <> 0 /\ sm_line m <> 0 /\ sm_column m <> 0) l
  | DPatch l => l <> [] /\ NoDup (pa_path <$> l)
                /\ Forall (fun r => pa_path r <> 0 /\ patch_digest (pa_state r) (pa_digest r)) l
  | DFs l => l <> [] /\ Sorted.Sorted (fun a b => fr_id a < fr_id b) l
             /\ Forall (fun r => fr_id r <> 0 /\ fr_path r <> 0 /\ fs_destination_ok r
                                 /\ fs_digest (fr_state r) (fr_digest r)) l
  | DBatch l => l <> [] /\ Sorted.Sorted (fun a b => br_id a < br_id b) l
                /\ Forall (fun r => br_id r <> 0 /\ is_batch_or_cancel (br_operation r) = false /\ node_ok r) l
  | DSnapshot l => NoDup (sn_path <$> l) /\ Forall (fun r => sn_path r <> 0 /\ snapshot_identity r) l
  | DReference (RSearch l) => Forall (fun m => rm_line m <> 0 /\ rm_column m <> 0) l
  | DReference (RReleased n) => n <> 0
  | DReference (RMaterialized m) => mr_path m <> 0
      /\ (if bool_decide (mr_state m = FSkipped) then mr_digest m = None else some_digest (mr_digest m))
  | DReference (RSlice s) => ReferenceSlice_validate s = Ok tt
  | DReference (RProjection _) => True
  | DCancel r => cr_target_id r <> 0
  end.

Lemma is_some_true {A} (o : option A) : is_some o = true <-> o <> None.
Proof. by destruct o. Qed.
Lemma is_some_false {A} (o : option A) : is_some o = false <-> o = None.
Proof. by destruct o. Qed.

Lemma existsb_false {A} (f : A -> bool) l : existsb f l = false <-> Forall (fun a => f a = false) l.
Proof. induction l as [|a l IH]; [done|]. cbn. by rewrite orb_false_iff, list.Forall_cons, IH. Qed.

Lemma Forall_iff' {A} (P Q : A -> Prop) l : (forall a, P a <-> Q a) -> Forall P l <-> Forall Q l.
Proof. intros H. split; intros Hl; eapply list.Forall_impl; [exact Hl| |exact Hl|]; intros a; apply H. Qed.

Lemma forallb_Forall {A} (f : A -> bool) l : forallb f l = true <-> Forall (fun a => f a = true) l.
Proof. induction l as [|a l IH]; [done|]. cbn. by rewrite andb_true_iff, list.Forall_cons, IH. Qed.

Lemma ids_ascending_ok {A} (id : A -> Z) l : ids_ascending id l = true <-> Sorted.Sorted (fun a b => id a < id b) l.
Proof. apply windows2_all_Sorted. intros x y. apply Z.ltb_lt. Qed.

Lemma nonempty_ok {A} (l : list A) : bool_decide (length l = O) = false <-> l <> [].
Proof. rewrite bool_decide_eq_false. by destruct l. Qed.

Lemma optional_digest_cases digest :
  optional_digest_ok digest = true <-> digest = None \/ some_digest digest.
Proof. unfold some_digest. destruct digest as [h|]; cbn; split; naive_solver. Qed.

Lemma PatchResult_validate_ok r :
  PatchResult_validate r = Ok tt <-> pa_path r <> 0 /\ patch_digest (pa_state r) (pa_digest r).
Proof.
  unfold PatchResult_validate. rewrite invalid_if_ok, !orb_false_iff, !negb_false_iff, Z.eqb_neq, optional_digest_cases.
  unfold patch_digest, some_digest. destruct (pa_state r), (pa_digest r) as [h|]; cbn; naive_solver.
Qed.

Lemma FsResult_validate_ok r :
  FsResult_validate r = Ok tt
  <-> fr_id r <> 0 /\ fr_path r <> 0 /\ fs_destination_ok r /\ fs_digest (fr_state r) (fr_digest r).
Proof.
  unfold FsResult_validate. rewrite seq_ok, !invalid_if_ok, !orb_false_iff, !negb_false_iff, !Z.eqb_neq, optional_digest_cases.
  assert (match fr_kind r with
    | FsCreate | FsRemove => negb (is_some (fr_destination r))
    | FsCopy | FsMove =>
        match fr_destination r with Some path => negb (path =? 0) && negb (path =? fr_path r) | None => false end
    end = true <-> fs_destination_ok r) as ->.
  { unfold fs_destination_ok. destruct (fr_kind r), (fr_destination r) as [path|]; cbn;
      rewrite ?andb_true_iff, ?negb_true_iff, ?Z.eqb_neq; naive_solver. }
  unfold fs_digest, some_digest. destruct (fr_state r), (fr_digest r) as [h|]; cbn; naive_solver.
Qed.

Lemma BatchNodeResult_validate_ok r :
  BatchNodeResult_validate r = Ok tt
  <-> Forall (fun n => n <> 0) (option_list (br_reference r))
      /\ br_id r <> 0 /\ is_batch_or_cancel (br_operation r) = false /\ node_ok r.
Proof.
  unfold BatchNodeResult_validate. rewrite !seq_ok, validate_reference_ok, !invalid_if_ok, orb_false_iff, Z.eqb_neq, negb_false_iff.
  assert (forall P Q R S S' : Prop, (S <-> S') -> (P /\ (Q /\ R) /\ S <-> P /\ Q /\ R /\ S')) as Hand by tauto. apply Hand.
  unfold node_ok. destruct (br_state r); rewrite andb_true_iff, ?bool_decide_eq_true, ?is_some_true, ?negb_true_iff, ?is_some_false; try done.
  destruct (br_status r) as [s|]; [|naive_solver]. rewrite negb_true_iff, orb_false_iff, !bool_decide_eq_false. naive_solver.
Qed.

Lemma SnapshotResult_validate_ok r : SnapshotResult_validate r = true <-> sn_path r <> 0 /\ snapshot_identity r.
Proof.
  unfold SnapshotResult_validate. rewrite !andb_true_iff, negb_true_iff, Z.eqb_neq, optional_digest_cases.
  unfold snapshot_identity, some_digest. destruct (sn_kind r), (sn_digest r) as [h|]; cbn;
    rewrite ?Z.eqb_eq; naive_solver.
Qed.

Lemma ReadResult_validate_ok r :
  ReadResult_validate r = Ok tt
  <-> Forall (fun n => n <> 0) (option_list (rr_reference r))
      /\ rr_path r <> 0 /\ valid_digest (rr_digest r) = true /\ (rr_text r <> None \/ rr_reference r <> None).
Proof.
  unfold ReadResult_validate, valid_digest, lower_hex.
  rewrite seq_ok, validate_reference_ok, invalid_if_ok, !orb_false_iff, !negb_false_iff, andb_false_iff, !negb_false_iff,
    andb_true_iff, Z.eqb_neq, !is_some_true. tauto.
Qed.

Lemma Forall_and' {A} (P Q : A -> Prop) l : Forall (fun a => P a /\ Q a) l <-> Forall P l /\ Forall Q l.
Proof. apply list.Forall_and. Qed.

Lemma Forall_bind' {A B} (P : B -> Prop) (f : A -> list B) l : Forall (fun a => Forall P (f a)) l <-> Forall P (l ≫= f).
Proof. by rewrite list.Forall_bind. Qed.

Lemma ReferenceResult_validate_ok x :
  ReferenceResult_validate x = Ok tt <-> data_valid (DReference x).
Proof.
  destruct x as [s|l|n|t|m]; cbn [ReferenceResult_validate data_valid]; try done.
  - rewrite invalid_if_ok, existsb_false. apply Forall_iff'. intros m. by rewrite orb_false_iff, !Z.eqb_neq.
  - by rewrite invalid_if_ok, Z.eqb_neq.
  - unfold MaterializedReference_validate, some_digest.
    rewrite invalid_if_ok, orb_false_iff, Z.eqb_neq, negb_false_iff.
    case_bool_decide; [by rewrite negb_true_iff, is_some_false|].
    destruct (mr_digest m) as [h|]; naive_solver.
Qed.

(** Validation is exactly the declarative reading, with references that are not zero. *)
Lemma ResultData_validate_ok d :
  ResultData_validate d = Ok tt <-> data_valid d /\ Forall (fun n => n <> 0) (data_references d).
Proof.
  destruct d as [r|l|l|l|l|l|l|l|x|c]; cbn [ResultData_validate data_references].
  - rewrite !seq_ok, !validate_reference_ok, invalid_if_ok, andb_false_iff, negb_false_iff, is_some_true, Forall_app.
    cbn [data_valid]. destruct (pr_termination r); naive_solver.
  - rewrite each_ok, (Forall_iff' _ _ l ReadResult_validate_ok), Forall_and', (Forall_bind' _ (fun r => option_list (rr_reference r))). cbn [data_valid]. tauto.
  - rewrite invalid_if_ok, existsb_false, list.Forall_nil. cbn [data_valid].
    rewrite (Forall_iff' (fun e => (le_path e =? 0) = false) (fun e => le_path e <> 0)); [tauto|]. intros. by rewrite Z.eqb_neq.
  - rewrite invalid_if_ok, existsb_false, list.Forall_nil. cbn [data_valid].
    rewrite (Forall_iff' _ (fun m => sm_path m <> 0 /\ sm_line m <> 0 /\ sm_column m <> 0)); [tauto|].
    intros. rewrite !orb_false_iff, !Z.eqb_neq. tauto.
  - rewrite seq_ok, invalid_if_ok, orb_false_iff, nonempty_ok, negb_false_iff, all_new_ok, each_ok, list.Forall_nil.
    rewrite (Forall_iff' _ _ l PatchResult_validate_ok). cbn [data_valid]. tauto.
  - rewrite seq_ok, invalid_if_ok, orb_false_iff, nonempty_ok, negb_false_iff, ids_ascending_ok, each_ok, list.Forall_nil.
    rewrite (Forall_iff' _ _ l FsResult_validate_ok). cbn [data_valid]. tauto.
  - rewrite seq_ok, invalid_if_ok, orb_false_iff, nonempty_ok, negb_false_iff, ids_ascending_ok, each_ok.
    rewrite (Forall_iff' _ _ l BatchNodeResult_validate_ok), Forall_and', (Forall_bind' _ (fun r => option_list (br_reference r))). cbn [data_valid]. tauto.
  - rewrite invalid_if_ok, negb_false_iff, andb_true_iff, all_new_ok, forallb_Forall, list.Forall_nil. cbn [data_valid].
    rewrite (Forall_iff' _ _ l SnapshotResult_validate_ok). tauto.
  - rewrite ReferenceResult_validate_ok, list.Forall_nil. tauto.
  - rewrite invalid_if_ok, Z.eqb_neq, list.Forall_nil. cbn [data_valid]. tauto.
Qed.

(** ** Valid responses *)

(** The states of the parts agree with the status of the whole. *)
Definition status_agrees (status : Status) (d : ResultData) : Prop :=
  match d with
  | DPatch l => (status = Success -> Forall (fun r => pa_state r = PCommitted) l)
                /\ (status = SConflict -> Exists (fun r => pa_state r = PConflict) l)
  | DFs l => (status = Success -> Forall (fun r => fr_state r = FCommitted) l)
             /\ (status = SConflict -> Exists (fun r => fr_state r = FConflict) l)
  | DBatch l => status = Success -> Forall (fun r => br_state r = BSucceeded) l
  | DReference (RMaterialized m) => (status = Success -> mr_state m = FCommitted)
                                    /\ (status = SConflict -> mr_state m = FConflict)
  | _ => True
  end.

(** Retained results come with their reference, a release without one. *)
Definition reference_agrees (d : ResultData) (reference : option Z) : Prop :=
  match d with
  | DReference (RReleased _) => reference = None
  | DReference _ | DSnapshot _ => reference <> None
  | _ => True
  end.

Definition paths_valid (paths : list PathMapping) : Prop :=
  Sorted.Sorted (fun a b => pm_id a < pm_id b) paths /\ NoDup (pm_value <$> paths)
  /\ Forall (fun p => pm_id p <> 0 /\ pm_value p <> [] /\ str_len (pm_value p) <= 4096
                      /\ contains 0 (pm_value p) = false) paths.

Definition response_valid (r : FinalResponse) : Prop :=
  fp_request_id r <> 0
  /\ (fp_status r = Success <-> fp_error r = None)
  /\ (fp_status r = Success -> fp_data r <> None)
  /\ mask_extra (fp_flags r) ALL_RESULT_FLAGS = 0
  /\ paths_valid (fp_paths r)
  /\ (forall d, fp_data r = Some d ->
        data_valid d /\ status_agrees (fp_status r) d /\ reference_agrees d (fp_reference r))
  /\ Forall (fun n => n <> 0) (references r)
  /\ (Z.land (fp_flags r) RESULT_RETAINED <> 0 <-> references r <> [])
  /\ (Z.land (fp_flags r) RESULT_TRUNCATED <> 0 ->
        fp_reference r <> None \/ exists d, fp_data r = Some d /\ data_references d <> []).

Lemma existsb_not_all {A} (f : A -> bool) (P : A -> Prop) l :
  (forall a, f a = false <-> P a) -> existsb f l = false <-> Forall P l.
Proof. intros H. rewrite existsb_false. by apply Forall_iff'. Qed.

Lemma existsb_Exists {A} (f : A -> bool) (P : A -> Prop) l :
  (forall a, f a = true <-> P a) -> existsb f l = true <-> Exists P l.
Proof.
  intros H. induction l as [|a l IH]; cbn; [by rewrite Exists_nil|]. by rewrite orb_true_iff, Exists_cons, IH, H.
Qed.

Lemma guard_ok (P : Prop) `{Decision P} b : invalid_if (bool_decide P && b) = Ok tt <-> (P -> b = false).
Proof. rewrite invalid_if_ok. case_bool_decide; destruct b; naive_solver. Qed.

Lemma guard_not_ok (P : Prop) `{Decision P} b : invalid_if (bool_decide P && negb b) = Ok tt <-> (P -> b = true).
Proof. rewrite guard_ok. by setoid_rewrite negb_false_iff. Qed.

Lemma checks_ok status d reference :
  (check_status status d = Ok tt /\ check_reference d reference = Ok tt /\ check_materialized status d = Ok tt)
  <-> status_agrees status d /\ reference_agrees d reference.
Proof.
  assert (forall {A} (s : A -> FsState) l, (existsb (fun r => negb (bool_decide (s r = FCommitted))) l = false
    <-> Forall (fun r => s r = FCommitted) l)) as Hfs
    by (intros; apply existsb_not_all; intros; by rewrite negb_false_iff, bool_decide_eq_true).
  destruct d as [r|l|l|l|l|l|l|l|[s|l|n|t|m]|c];
    cbn [check_status check_reference check_materialized status_agrees reference_agrees];
    rewrite ?seq_ok, ?guard_not_ok, ?guard_ok, ?invalid_if_ok, ?negb_false_iff, ?is_some_true, ?is_some_false; try tauto.
  - rewrite (existsb_not_all _ (fun r => pa_state r = PCommitted)), (existsb_Exists _ (fun r => pa_state r = PConflict));
      [tauto|intros; by rewrite bool_decide_eq_true|intros; by rewrite negb_false_iff, bool_decide_eq_true].
  - rewrite (existsb_not_all _ (fun r => fr_state r = FCommitted)), (existsb_Exists _ (fun r => fr_state r = FConflict));
      [tauto|intros; by rewrite bool_decide_eq_true|intros; by rewrite negb_false_iff, bool_decide_eq_true].
  - rewrite (existsb_not_all _ (fun r => br_state r = BSucceeded)); [tauto|].
    intros; by rewrite negb_false_iff, bool_decide_eq_true.
  - rewrite !bool_decide_eq_true. tauto.
Qed.

Lemma response_paths_ok paths : Response.validate_paths paths = Ok tt <-> paths_valid paths.
Proof.
  unfold Response.validate_paths, paths_valid.
  assert (ids_ascending pm_id paths = true -> all_new (pm_id <$> paths) = true) as Hn.
  { intros H. apply all_new_ok. apply windows2_all_NoDup with (r := Z.ltb);
      [intros a b c; rewrite !Z.ltb_lt; lia|intros; apply Z.ltb_irrefl|]. unfold ids_ascending in H.
    revert H. induction paths as [|p [|q paths] IH]; [done|done|]. cbn [fmap list_fmap].
    rewrite !windows2_all_cons2, !andb_true_iff. intros [? ?]. split; [done|]. by apply IH. }
  rewrite <- ids_ascending_ok, <- all_new_ok.
  assert (forall p, negb (pm_id p =? 0) && negb (bool_decide (pm_value p = []))
      && (str_len (pm_value p) <=? 4096) && negb (contains 0 (pm_value p)) = true
    <-> pm_id p <> 0 /\ pm_value p <> [] /\ str_len (pm_value p) <= 4096 /\ contains 0 (pm_value p) = false) as Hp.
  { intros p. rewrite !andb_true_iff, !negb_true_iff, Z.eqb_neq, bool_decide_eq_false, Z.leb_le. tauto. }
  rewrite <- (Forall_iff' _ _ paths Hp), <- forallb_Forall.
  destruct (ids_ascending pm_id paths); cbn [andb]; [|naive_solver]. rewrite (Hn eq_refl), andb_true_r.
  rewrite <- andb_true_iff. destruct (forallb _ paths), (all_new (pm_value <$> paths)); naive_solver.
Qed.

Lemma nonempty_list {A} (l : list A) : negb (bool_decide (l = [])) = true <-> l <> [].
Proof. by rewrite negb_true_iff, bool_decide_eq_false. Qed.

Lemma has_retained_spec reference data error :
  is_some reference || match data with Some d => has_reference d | None => false end
  || match error with Some e => is_some (er_evidence e) || is_some (er_argument e) | None => false end
  = negb (bool_decide (option_list reference
      ++ match data with Some d => data_references d | None => [] end
      ++ match error with Some e => error_references e | None => [] end = [])).
Proof.
  assert (match data with Some d => has_reference d | None => false end
    = negb (bool_decide (match data with Some d => data_references d | None => [] end = []))) as ->
    by (destruct data; [apply has_reference_spec|done]).
  unfold error_references.
  destruct reference, (match data with Some d => data_references d | None => [] end), error as [[? ? ? [] []]|]; done.
Qed.

Lemma if_err {A} (b : bool) (e : ResponseError) (m : result ResponseError A) a :
  (if b then Err e else m) = Ok a <-> b = false /\ m = Ok a.
Proof. destruct b; naive_solver. Qed.

Lemma data_checks_ok status data reference :
  match data with
  | Some data => _ ← ResultData_validate data; _ ← check_status status data; _ ← check_reference data reference;
      check_materialized status data
  | None => Ok tt
  end = Ok tt
  <-> (forall d, data = Some d -> data_valid d /\ status_agrees status d /\ reference_agrees d reference)
      /\ Forall (fun n => n <> 0) match data with Some d => data_references d | None => [] end.
Proof.
  destruct data as [d|]; [|split; [intros _; split; [done|constructor]|done]].
  rewrite seq_ok, (seq_ok (check_status _ _)), (seq_ok (check_reference _ _)), checks_ok, ResultData_validate_ok. naive_solver.
Qed.

Lemma error_checks_ok error :
  match error with
  | Some error => _ ← validate_reference (er_evidence error); validate_reference (er_argument error)
  | None => Ok tt
  end = Ok tt <-> Forall (fun n => n <> 0) match error with Some e => error_references e | None => [] end.
Proof.
  destruct error as [e|]; [|split; [constructor|done]]. unfold error_references.
  by rewrite seq_ok, !validate_reference_ok, Forall_app.
Qed.

Lemma FinalResponse_new_ok request_id status paths data error flags reference r :
  FinalResponse_new request_id status paths data error flags reference = Ok r
  <-> r = mkResponse request_id status paths data error flags reference /\ response_valid r.
Proof.
  set (r0 := mkResponse request_id status paths data error flags reference).
  assert (forall (m : result ResponseError unit) (k : result ResponseError FinalResponse) a,
    (_ ← m; k) = Ok a <-> m = Ok tt /\ k = Ok a) as Hseq.
  { intros m k a. rewrite bind_ok. split; [by intros ([] & ? & ?)|]. intros [? ?]. by exists tt. }
  unfold FinalResponse_new. rewrite !if_err, !Hseq, !if_err.
  rewrite has_retained_spec, response_paths_ok, validate_reference_ok.
  rewrite data_checks_ok, error_checks_ok.
  rewrite !negb_false_iff, !Z.eqb_eq, !Z.eqb_neq, !eqb_true_iff.
  assert (bool_decide (status = Success) = negb (is_some error) <-> (status = Success <-> error = None)) as ->.
  { case_bool_decide; destruct error; cbn; naive_solver. }
  assert (bool_decide (status = Success) && negb (is_some data) = false <-> (status = Success -> data <> None)) as ->.
  { rewrite andb_false_iff, bool_decide_eq_false, negb_false_iff, is_some_true. destruct (decide (status = Success)); naive_solver. }
  assert (forall l : list Z, negb (Z.land flags RESULT_RETAINED =? 0) = negb (bool_decide (l = []))
    <-> (Z.land flags RESULT_RETAINED <> 0 <-> l <> [])) as Hret.
  { intros l. case_bool_decide; destruct (Z.eqb_spec (Z.land flags RESULT_RETAINED) 0); cbn; naive_solver. }
  rewrite Hret.
  assert (negb (Z.land flags RESULT_TRUNCATED =? 0) && negb (is_some reference)
      && negb match data with Some d => has_reference d | None => false end = false
    <-> (Z.land flags RESULT_TRUNCATED <> 0 -> reference <> None \/ exists d, data = Some d /\ data_references d <> [])) as ->.
  { rewrite !andb_false_iff, !negb_false_iff, Z.eqb_eq, is_some_true.
    assert (match data with Some d => has_reference d | None => false end = true
      <-> exists d, data = Some d /\ data_references d <> []) as ->
      by (destruct data as [d|]; [rewrite has_reference_spec, nonempty_list; naive_solver|naive_solver]).
    destruct (Z.eq_dec (Z.land flags RESULT_TRUNCATED) 0); tauto. }
  split.
  - intros (Hid & Hse & Hsd & Hfl & Hps & [Hd Hdr] & Hr & He & Hret' & Htr & [= <-]). split; [done|].
    unfold response_valid, references. cbn. rewrite !Forall_app. by do 8 (split; [done|]).
  - intros [-> H]. unfold response_valid, references in H. cbn in H. rewrite !Forall_app in H. naive_solver.
Qed.
