(* ===== verification/WireProps.v ===== *)
(** * WireProps: what the documents and the wire promise

    The round trip of the printer and the parser, what the parser guarantees of
    any input, and the canonical form; then the frames and the handshake. *)

From S2P Require Import Prelude Text AsonModel AsonCodec AsonScalarFacts AsonFacts AsonSound.
From S2P Require Import Wire Capability Frame Handshake.

(** A document with a scalar, a vector, a record and a table. *)
Definition sample_document : Document :=
  mkDocument
    [mkField (L "t") (Scalar (AText (L "1")));
     mkField (L "q") (Scalar (AText (L "a b, \c")));
     mkField (L "v") (Vector [Null; Reference 7; AText (L "@x")]);
     mkField (L "r") (VRecord (mkRec [L "id"; L "n"] [CAtom (AText (L "x")); CVector [AText []]]));
     mkField (L "f") (VTable (mkTable [L "a"] [[CAtom Null]; [CAtom (Reference 0)]]))].

(** C20: Printing a document and parsing it back gives the document: for every
    well-formed document that fits the parser's limits, [decode_with_limits] of
    [encode] is that document. *)
Theorem ason_decode_encode (limits : Limits) (d : Document)
    (Hok : document_ok d = true) (Hwithin : document_within limits d = true) :
  decode_with_limits (encode d) limits = Ok d.
Proof. by apply decode_encode. Qed.

Lemma ason_decode_encode_witness :
  document_ok sample_document = true
  /\ decode_with_limits (encode sample_document) Limits_default = Ok sample_document.
Proof.
  split; [vm_compute; reflexivity|].
  apply (ason_decode_encode Limits_default sample_document); vm_compute; reflexivity.
Defined.

(** What the parser accepts: a document it returns is well formed (keys are
    valid and distinct, rows have the width of their header, texts are valid),
    fits every ceiling it was given, and prints to a text no longer than the
    input was. *)
Theorem ason_decode_sound (limits : Limits) (input : str) (d : Document)
    (Hscalar : 0 <= max_scalar_bytes limits) (Hvalues : 0 <= max_values limits)
    (Hinput : valid_str input = true) (Hd : decode_with_limits input limits = Ok d) :
  document_ok d = true /\ document_within limits d = true
  /\ str_len (encode d) <= str_len input.
Proof. by apply decode_inv. Qed.

Lemma ason_decode_sound_witness :
  document_ok sample_document = true /\ document_within Limits_default sample_document = true
  /\ str_len (encode sample_document) <= str_len (encode sample_document).
Proof.
  apply (ason_decode_sound Limits_default (encode sample_document) sample_document);
    vm_compute; first [reflexivity | discriminate].
Defined.

(** Canonicalizing is idempotent and yields canonical text: its result is a
    fixed point of [canonicalize], [is_canonical] accepts it, and it is no longer
    than the input. *)
Theorem ason_canonicalize_canonical (limits : Limits) (input c : str)
    (Hscalar : 0 <= max_scalar_bytes limits) (Hvalues : 0 <= max_values limits)
    (Hinput : valid_str input = true) (Hc : canonicalize input limits = Ok c) :
  is_canonical c limits = Ok true /\ canonicalize c limits = Ok c
  /\ str_len c <= str_len input.
Proof.
  apply canonicalize_Ok in Hc as (d & Hd & ->).
  pose proof (decode_inv _ _ _ Hscalar Hvalues Hinput Hd) as (Hok & Hw & Hlen).
  pose proof (decode_encode limits d Hok Hw) as E.
  split_and!; [apply is_canonical_true|apply canonicalize_Ok|done]; by exists d.
Qed.

Lemma ason_canonicalize_canonical_witness :
  is_canonical (L "a:b" ++ [10]) Limits_default = Ok true
  /\ canonicalize (L "a:b" ++ [10]) Limits_default = Ok (L "a:b" ++ [10])
  /\ str_len (L "a:b" ++ [10]) <= str_len (L "a:" ++ [34; 98; 34; 10]).
Proof.
  apply (ason_canonicalize_canonical Limits_default (L "a:" ++ [34; 98; 34; 10]) (L "a:b" ++ [10]));
    vm_compute; first [reflexivity | discriminate].
Defined.

(** C21: The canonical texts are exactly the printed forms of the well-formed
    documents within the limits. *)
Theorem ason_canonical_texts (limits : Limits) (input : str)
    (Hscalar : 0 <= max_scalar_bytes limits) (Hvalues : 0 <= max_values limits)
    (Hinput : valid_str input = true) :
  is_canonical input limits = Ok true <->
  exists d, document_ok d = true /\ document_within limits d = true /\ encode d = input.
Proof.
  rewrite is_canonical_true. split.
  - intros (d & Hd & <-). exists d. by apply decode_inv in Hd as (? & ? & _).
  - intros (d & Hok & Hw & <-). exists d. split; [by apply decode_encode|done].
Qed.

Lemma ason_canonical_texts_witness :
  is_canonical (encode sample_document) Limits_default = Ok true.
Proof.
  apply (ason_canonical_texts Limits_default (encode sample_document));
    [vm_compute; discriminate..|vm_compute; reflexivity|].
  exists sample_document. split_and!; vm_compute; reflexivity.
Defined.

(** Printing is injective: two well-formed documents within the limits that
    print to the same text are the same document. *)
Theorem ason_encode_injective (limits : Limits) (d d' : Document)
    (Hd : document_ok d = true) (Hw : document_within limits d = true)
    (Hd' : document_ok d' = true) (Hw' : document_within limits d' = true)
    (He : encode d = encode d') : d = d'.
Proof. by apply (encode_inj limits). Qed.

Lemma ason_encode_injective_witness :
  sample_document = mkDocument (fields sample_document).
Proof.
  apply (ason_encode_injective Limits_default); vm_compute; reflexivity.
Defined.

(** * frames, approvals and the handshake

    What the framing layer, the approval challenges and the handshake promise. *)

(** ** Frames *)

Definition hello : Document := mkDocument [mkField (L "t") (Scalar (AText (L "hi")))].

(** The bytes of [b], in the chunks of at most [n] bytes. *)
Fixpoint chunked (fuel n : nat) (b : bytes) : Chunks :=
  match fuel, b with
  | O, _ | _, [] => []
  | S fuel, _ => take n b :: chunked fuel n (drop n b)
  end.

(** C22: Reading a frame is independent of how the transport cuts its bytes:
    whatever chunks a stream delivers, [read_frame] returns what the frame
    grammar says of the bytes themselves (end of stream, truncated prefix, zero
    length, too large, truncated payload, or the payload), and leaves the stream
    just after what it consumed. *)
Theorem read_frame_refines {R IoError : Type} `{ReadLaws R IoError}
    (codec : FrameCodec) (r : R) :
  exists r', read_frame codec r = ((spec_read_frame (max_payload codec) (pending r)).1, r')
    /\ pending r' = (spec_read_frame (IoError := IoError) (max_payload codec) (pending r)).2.
Proof. apply read_frame_spec. Qed.

Lemma read_frame_refines_witness :
  exists r', read_frame FrameCodec_default (chunked 100 3 (frame [1; 2; 3] ++ [9]))
      = (Ok (Some [1; 2; 3]), r')
    /\ pending r' = [9].
Proof.
  exact (read_frame_refines FrameCodec_default (chunked 100 3 (frame [1; 2; 3] ++ [9]))).
Defined.

(** A written document is read back: after [write_document] succeeds on any
    sink, a stream that delivers what was written followed by anything else, in
    any chunks, gives the same document and then the rest. *)
Theorem write_read_document {R RE W WE : Type} `{ReadLaws R RE} `{WriteLaws W WE}
    (codec : FrameCodec) (limits : Limits) (d : Document) (w w' : W) (r : R) (rest : bytes)
    (Hok : document_ok d = true) (Hwithin : document_within limits d = true)
    (Hwrite : write_document codec w d = (Ok tt, w'))
    (Hread : pending r = drop (length (written w)) (written w') ++ rest) :
  exists r', read_document (IoError := RE) codec r limits = (Ok (Some d), r') /\ pending r' = rest.
Proof.
  unfold write_document in Hwrite.
  destruct (write_frame_spec codec w (str_bytes (encode d))) as (res & w1 & E & Hres & Hw).
  rewrite Hwrite in E. injection E as <- <-.
  destruct (proj1 Hres eq_refl) as (Hne & Hmax & Hu32). cbn [is_ok] in Hw.
  rewrite Hw, drop_app_length in Hread.
  destruct (read_frame_spec codec r) as (r' & E & Hr').
  rewrite Hread, spec_read_frame_frame in E, Hr' by done. cbn [fst snd] in *.
  exists r'. split; [|done]. unfold read_document. rewrite E.
  rewrite from_utf8_str_bytes by by apply encode_valid. cbn [map_err mbind result_bind].
  rewrite decode_encode by done. cbn [map_err mbind result_bind].
  by rewrite bool_decide_eq_true_2.
Qed.

Lemma write_read_document_witness :
  exists r', read_document (IoError := unit) FrameCodec_default
      (chunked 100 2 (frame (str_bytes (encode hello)) ++ [7])) Limits_default
    = (Ok (Some hello), r') /\ pending r' = [7].
Proof.
  apply (write_read_document (W := Buffer) (WE := unit) FrameCodec_default Limits_default hello
    [5] ([5] ++ frame (str_bytes (encode hello)))
    (chunked 100 2 (frame (str_bytes (encode hello)) ++ [7])) [7]); vm_compute; reflexivity.
Defined.

(** The document reader accepts canonical frames only: it returns a document
    exactly when the stream starts with the frame of that document's canonical
    text, the document is well formed and within the limits, and the text is
    within the codec's bound. *)
Theorem read_document_canonical {R IoError : Type} `{ReadLaws R IoError}
    (codec : FrameCodec) (limits : Limits) (r : R) (d : Document)
    (Hcodec : max_payload codec <= u32_max)
    (Hscalar : 0 <= max_scalar_bytes limits) (Hvalues : 0 <= max_values limits)
    (Hbytes : forallb byte_ok (pending r) = true) :
  (exists r', read_document codec r limits = (Ok (Some d), r')) <->
  (exists rest, pending r = frame (str_bytes (encode d)) ++ rest)
  /\ document_ok d = true /\ document_within limits d = true
  /\ str_len (encode d) <= max_payload codec.
Proof. by apply read_document_spec. Qed.

Lemma read_document_canonical_witness :
  exists r', read_document FrameCodec_default (chunked 100 2 (frame (str_bytes (encode hello))))
    Limits_default = (Ok (Some hello), r').
Proof.
  apply (read_document_canonical FrameCodec_default Limits_default
    (chunked 100 2 (frame (str_bytes (encode hello)))) hello);
    [vm_compute; discriminate..|vm_compute; reflexivity|].
  split_and!; [exists []|..]; vm_compute; first [reflexivity | discriminate].
Defined.

(** ** Approvals *)

Definition sample_challenge : ApprovalChallenge :=
  mkChallenge 3 1 1000 (replicate 16 1) (replicate 16 2) (replicate 32 3) (replicate 16 4).

(** Challenge documents: [ApprovalChallenge::decode] accepts exactly the
    documents [encode] produces of valid challenges, and gives the challenge back. *)
Theorem challenge_document_roundtrip (d : Document) (c : ApprovalChallenge) :
  challenge_decode d = Ok c <->
  challenge_encode c = Ok d /\ challenge_ok c = true /\ challenge_validate c = Ok tt.
Proof.
  rewrite challenge_encode_eq, challenge_decode_ok. split.
  - by intros (-> & ? & ?).
  - by intros ([= <-] & ? & ?).
Qed.

(** Signing forms: [from_signing_bytes] accepts exactly the 105-byte strings
    that are the [signing_bytes] of a valid challenge, and gives it back; so two
    valid challenges with the same signing form are equal. *)
Theorem signing_bytes_roundtrip (b : bytes) (c : ApprovalChallenge)
    (Hlength : length b = 105%nat) (Hbytes : forallb byte_ok b = true) :
  from_signing_bytes b = Ok c <->
  signing_bytes c = b /\ challenge_ok c = true /\ challenge_validate c = Ok tt.
Proof. by apply from_signing_bytes_ok. Qed.

Lemma signing_bytes_roundtrip_witness :
  from_signing_bytes (signing_bytes sample_challenge) = Ok sample_challenge.
Proof.
  apply (signing_bytes_roundtrip (signing_bytes sample_challenge) sample_challenge);
    vm_compute; first [reflexivity | repeat split].
Defined.

(** Approval tokens: the parser accepts exactly the lower-case hexadecimal
    of 48 bytes, and gives those bytes back. *)
Theorem token_roundtrip (s : str) (t : bytes) :
  token_parse s = Ok t <->
  s = token_encode t /\ length t = APPROVAL_TOKEN_BYTES /\ forallb byte_ok t = true.
Proof.
  unfold token_parse, token_encode. split; [apply decode_hex_array_inv|].
  intros (-> & ? & ?). by apply decode_hex_array_encode.
Qed.

(** ** Handshake *)

(** Handshake requests: [HandshakeRequest::decode] accepts exactly the
    documents [encode] produces of valid requests whose integers have the widths
    of their fields, and gives the request back. *)
Theorem handshake_request_roundtrip (d : Document) (r : HandshakeRequest)
    (Hd : document_ok d = true) :
  HandshakeRequest_decode d = Ok r <->
  HandshakeRequest_encode r = Ok d /\ handshake_request_ok r = true
  /\ HandshakeRequest_validate r = Ok tt.
Proof.
  rewrite HandshakeRequest_encode_eq, HandshakeRequest_decode_ok by done.
  split; [by intros (-> & ? & ?)|by intros ([= <-] & ? & ?)].
Qed.

Definition sample_handshake : HandshakeRequest :=
  mkHandshakeRequest 1 ASH_PROTOCOL_MAJOR ASON_FORMAT_MAJOR
    (mkPreferences ASH_PROTOCOL_MINOR ASH_PROTOCOL_MINOR ASON_FORMAT_MINOR ASON_FORMAT_MINOR
       4096 2048 3 7)
    (L "w") (L "n").

Lemma handshake_request_roundtrip_witness :
  document_ok (handshake_request_document sample_handshake) = true
  /\ HandshakeRequest_decode (handshake_request_document sample_handshake) = Ok sample_handshake.
Proof.
  split; [vm_compute; reflexivity|].
  apply (handshake_request_roundtrip _ sample_handshake); [vm_compute; reflexivity|].
  split_and!; vm_compute; reflexivity.
Defined.

(** Handshake responses: the same of [HandshakeResponse]. *)
Theorem handshake_response_roundtrip (d : Document) (r : HandshakeResponse)
    (Hd : document_ok d = true) :
  HandshakeResponse_decode d = Ok r <->
  HandshakeResponse_encode r = Ok d /\ handshake_response_ok r = true
  /\ HandshakeResponse_validate r = Ok tt.
Proof.
  rewrite HandshakeResponse_encode_eq, HandshakeResponse_decode_ok by done.
  split; [by intros (-> & ? & ?)|by intros ([= <-] & ? & ?)].
Qed.

Definition sample_server : ServerHandshake :=
  mkServerHandshake 8192 1024 5 3 (L "linux") (L "x86_64").

Definition sample_response : HandshakeResponse :=
  mkHandshakeResponse 1 ASH_PROTOCOL_MINOR ASON_FORMAT_MINOR 4096 1024 1 3 (L "linux")
    (L "x86_64") 9 (L "n").

Lemma handshake_response_roundtrip_witness :
  document_ok (handshake_response_document sample_response) = true
  /\ HandshakeResponse_decode (handshake_response_document sample_response) = Ok sample_response.
Proof.
  split; [vm_compute; reflexivity|].
  apply (handshake_response_roundtrip _ sample_response); [vm_compute; reflexivity|].
  split_and!; vm_compute; reflexivity.
Defined.

(** A negotiated session is within what both sides asked for: the response
    echoes the request's identifier and nonce, its frame and output bounds are
    within the client's and the server's, its masks are within both sides' masks,
    and it passes the validation the client applies to it. *)
Theorem negotiate_within_both (s : ServerHandshake) (r : HandshakeRequest) (session_id : Z)
    (resp : HandshakeResponse)
    (Hr : handshake_request_ok r = true) (Hs : server_ok s = true)
    (Hid : u64_ok session_id = true)
    (Hvalid : HandshakeRequest_validate r = Ok tt)
    (Hresp : negotiate s r session_id = Ok resp) :
  let p := hr_preferences r in
  HandshakeResponse_validate resp = Ok tt /\ handshake_response_ok resp = true
  /\ hs_request_id resp = hr_request_id r /\ hs_nonce resp = hr_nonce r
  /\ hs_session_id resp = session_id
  /\ hs_frame_bytes resp <= max_frame_bytes p /\ hs_frame_bytes resp <= sh_max_frame_bytes s
  /\ hs_output_bytes resp <= pref_output_bytes p
  /\ hs_output_bytes resp <= sh_max_output_bytes s
  /\ hs_output_bytes resp <= hs_frame_bytes resp
  /\ Z.ldiff (hs_operation_mask resp) (pref_operation_mask p) = 0
  /\ Z.ldiff (hs_operation_mask resp) (sh_operation_mask s) = 0
  /\ Z.ldiff (hs_capability_mask resp) (pref_capability_mask p) = 0
  /\ Z.ldiff (hs_capability_mask resp) (sh_capability_mask s) = 0.
Proof.
  cbv zeta. destruct (negotiate_valid _ _ _ _ Hr Hs Hid Hvalid Hresp) as [Hok Hv].
  split_and!; try done; unfold negotiate in Hresp; cbv zeta in Hresp; inv_ok; subst resp;
    cbn [hs_request_id hs_nonce hs_session_id hs_frame_bytes hs_output_bytes hs_operation_mask
         hs_capability_mask]; try done; try lia;
    apply Z.bits_inj_0; intros n; rewrite Z.ldiff_spec, !Z.land_spec;
    by repeat match goal with |- context [Z.testbit ?a n] => destruct (Z.testbit a n) end.
Qed.

Lemma negotiate_within_both_witness :
  HandshakeResponse_validate sample_response = Ok tt.
Proof.
  apply (negotiate_within_both sample_server sample_handshake 9 sample_response);
    vm_compute; reflexivity.
Defined.
