(* ===== verification/RequestProps.v ===== *)
(** * RequestProps: what requests and responses promise

    The request decoder accepts exactly the printed forms of valid requests; a
    validated batch is an acyclic program over its own nodes; validated mutations
    do not overlap; an approval is bound to one action.  The response constructor accepts
    exactly the responses whose parts agree, and a response's document is faithful. *)

From S2P Require Import Prelude Text AsonModel AsonCodec AsonScalarFacts AsonFacts AsonSound.
From S2P Require Import Graph Wire Capability Request RequestFacts RequestCodec RequestEnvelope.
From S2P Require Import Response ResponseFacts.

(** ** Sample requests *)

Definition sample_read : Arguments := ARead (mkRead [L "a.txt"] ReadBytes 0 10).
Definition sample_exec : Arguments :=
  AExec (mkExec (L "ls") [L "-l"] (L "/") [L "A=1"] (InReference 4) 1).
Definition sample_batch : Arguments :=
  ABatch [mkNode 1 [] sample_read; mkNode 2 [1] sample_exec; mkNode 5 [1; 2] sample_read].
Definition sample_budget : Budget := mkBudget 100 100 1000.
Definition sample_request : Request :=
  mkRequest 7 sample_batch sample_budget (Some (replicate 48 11)).

(** The value a result holds. *)
Definition unwrap_or {E A} (m : result E A) (default : A) : A :=
  match m with Ok a => a | Err _ => default end.

Definition sample_request_document : Document :=
  unwrap_or (Request_encode sample_request) (mkDocument []).

(** ** Codecs *)

(** C23: Arguments: for every operation, [Arguments::decode] accepts exactly the
    ASON values [encode] produces of valid arguments of that operation, whose
    integers have the widths of their fields and whose nested payloads fit their
    bounds, and gives the arguments back. *)
Theorem arguments_roundtrip (op : Operation) (v : Value) (a : Arguments)
    (Hv : value_ok v = true) :
  Arguments_decode op v = Ok a <->
  Arguments_operation a = op /\ Arguments_encode a = Ok v /\ Arguments_ok a = true
  /\ Arguments_validate a = Ok tt.
Proof. by apply arguments_codec. Qed.

Lemma arguments_roundtrip_witness :
  Arguments_decode OpBatch (unwrap_or (Arguments_encode sample_batch) (Scalar Null))
  = Ok sample_batch.
Proof.
  apply (arguments_roundtrip OpBatch (unwrap_or (Arguments_encode sample_batch) (Scalar Null))
    sample_batch); [vm_compute; reflexivity|].
  split_and!; vm_compute; reflexivity.
Defined.

(** The decoder's recursion: a batch decodes the arguments of its nodes with
    the same [Arguments::decode] that decodes the batch. *)
Theorem arguments_decode_recursive (op : Operation) (v : Value) :
  Arguments_decode op v = Arguments_decode_with (BatchArgs_decode_with Arguments_decode) op v.
Proof. apply Arguments_decode_eq. Qed.

(** C24: Requests: [Request::decode] accepts exactly the documents [encode]
    produces of requests that [Request::new] accepts, with or without a permit,
    whose integers are of the widths their fields have and whose batch nodes, when there
    are any, have payloads that fit the node decoder ([payload_fits]: a text within its
    bound, a document within the default limits), and gives the request back.  The
    condition on the payloads is needed: [Request::new] also accepts batches whose nodes
    do not fit, and their encodings are refused. *)
Theorem request_roundtrip (d : Document) (r : Request) (Hd : document_ok d = true) :
  Request_decode d = Ok r <->
  Request_encode r = Ok d /\ Request_ok r = true /\ Request_valid r.
Proof. by apply Request_decode_ok. Qed.

Lemma request_roundtrip_witness :
  document_ok sample_request_document = true
  /\ Request_decode sample_request_document = Ok sample_request.
Proof.
  split; [vm_compute; reflexivity|].
  apply (request_roundtrip sample_request_document sample_request); [vm_compute; reflexivity|].
  split_and!; vm_compute; reflexivity.
Defined.

(** A request that was decoded satisfies every bound [Request::new] enforces:
    a nonzero identifier, valid arguments, a valid budget, and, for a batch or a
    filesystem program, room in the budget for one token and one record per node;
    a cancellation never targets itself. *)
Theorem request_decode_valid (d : Document) (r : Request)
    (Hd : document_ok d = true) (Hr : Request_decode d = Ok r) :
  rq_id r <> 0 /\ Arguments_validate (rq_arguments r) = Ok tt
  /\ 1 <= b_tokens (rq_budget r) <= MAX_REQUEST_TOKENS
  /\ 1 <= b_records (rq_budget r) <= MAX_REQUEST_RECORDS
  /\ 1 <= b_millis (rq_budget r) <= MAX_REQUEST_MILLIS
  /\ match rq_arguments r with
     | ABatch nodes => len nodes <= b_tokens (rq_budget r) /\ len nodes <= b_records (rq_budget r)
     | AFs actions => len actions <= b_tokens (rq_budget r)
                      /\ len actions <= b_records (rq_budget r)
     | ACancel target_id => target_id <> rq_id r
     | _ => True
     end.
Proof.
  apply Request_decode_ok in Hr as (_ & Hok & Hvalid); [|done].
  pose proof (Request_new_ok _ _ _ _ Hvalid) as (_ & _ & Hid & Hva & Hb).
  unfold Request_ok, Budget_ok, u32_ok, u64_ok in Hok. zbool.
  unfold Budget_validate in Hb. inv_ok. zbool. unfold Request_valid, Request_new in Hvalid. inv_ok.
  split_and!; try done; try lia.
  destruct (rq_arguments r) as [| | | | |actions|nodes| | |n]; try done; inv_ok; zbool.
  - inv_ok. subst. zbool. lia.
  - inv_ok. subst. zbool. lia.
  - done.
Qed.

Lemma request_decode_valid_witness : rq_id sample_request <> 0.
Proof.
  apply (request_decode_valid sample_request_document sample_request); vm_compute; reflexivity.
Defined.

(** ** Batches *)

(** C25: [BatchArgs::validate] accepts exactly the acyclic programs: between 1 and
    256 valid nodes with strictly increasing identifiers, at most 4096 edges,
    every dependency the identifier of a node of the batch, and no node that
    depends, directly or through others, on itself. *)
Theorem batch_validate_acyclic (nodes : list BatchNode) :
  BatchArgs_validate nodes = Ok tt <-> batch_ok nodes.
Proof. apply BatchArgs_validate_ok. Qed.

(** The topological walk shared by the request validator and the scheduler:
    on any graph whose edges are distinct positions, the loop ends within one turn
    per node (the fuel is never exhausted), and it visits every node exactly when
    the graph has no cycle. *)
Theorem kahn_total_and_exact (deps : list (list nat)) (Hok : graph_ok deps) :
  (exists n, visited_count deps = Some n /\ (n <= length deps)%nat)
  /\ (all_visited deps = true <-> acyclic deps).
Proof.
  split; [|by apply all_visited_acyclic].
  destruct (visited_count_spec deps Hok) as (final & inc & E & [Hnd Hr _ _ _]).
  exists (length final). split; [done|]. rewrite app_nil_r in *. by apply nodup_range_length.
Qed.

Lemma kahn_total_and_exact_witness :
  (exists n, visited_count [[]; [0%nat]; [0%nat; 1%nat]] = Some n /\ (n <= 3)%nat)
  /\ (all_visited [[]; [0%nat]; [0%nat; 1%nat]] = true <-> acyclic [[]; [0%nat]; [0%nat; 1%nat]]).
Proof.
  apply (kahn_total_and_exact [[]; [0%nat]; [0%nat; 1%nat]]).
  unfold graph_ok. decide_closed.
Defined.

(** ** Mutations *)

(** A validated patch touches no byte twice and no file for nothing: of two
    edits of the same file the earlier one ends before the later one starts, every
    edit names one of the paths, every path has an edit, and the inline text is
    within 8 MiB. *)
Theorem patch_edits_disjoint (a : PatchArgs) (Ha : PatchArgs_validate a = Ok tt) :
  (forall i j e f, (i < j)%nat -> pt_edits a !! i = Some e -> pt_edits a !! j = Some f ->
     ed_file_index e = ed_file_index f -> ed_offset e + ed_delete_length e <= ed_offset f)
  /\ Forall (fun e => (Z.to_nat (ed_file_index e) < length (pt_paths a))%nat) (pt_edits a)
  /\ (forall k, (k < length (pt_paths a))%nat ->
        exists e, e ∈ pt_edits a /\ Z.to_nat (ed_file_index e) = k)
  /\ zsum (fun e => inline_size (ed_replacement e)) (pt_edits a) <= MAX_PATCH_INLINE_BYTES.
Proof.
  apply PatchArgs_validate_safe in Ha as (Hs & HF & Hc & Hi). split_and!; try done.
  intros i j e f Hij He Hf Hsame.
  pose proof (StronglySorted_lookup _ _ _ _ _ _ Hs Hij He Hf) as Hb.
  unfold edit_before in Hb. lia.
Qed.

Definition sample_digest : str := replicate 64 48.
Definition sample_patch : PatchArgs :=
  mkPatch [L "a"; L "b"] [sample_digest; sample_digest]
    [mkEdit 0 0 4 (PInline (L "x")); mkEdit 0 4 0 (PReference 3); mkEdit 1 2 1 (PInline [])] 0.

Lemma patch_edits_disjoint_witness :
  PatchArgs_validate sample_patch = Ok tt
  /\ (forall k, (k < 2)%nat -> exists e, e ∈ pt_edits sample_patch /\ Z.to_nat (ed_file_index e) = k).
Proof.
  split; [vm_compute; reflexivity|].
  apply (patch_edits_disjoint sample_patch); vm_compute; reflexivity.
Defined.

(** A validated filesystem program never names a path twice: sources and
    destinations of all its actions are pairwise distinct texts; its
    identifiers increase, each action has the operands of its kind, and the inline
    content is within 8 MiB. *)
Theorem fs_paths_distinct (actions : list FsAction) (Ha : FsArgs_validate actions = Ok tt) :
  NoDup (actions ≫= action_paths)
  /\ Sorted.Sorted Z.lt (fs_id <$> actions)
  /\ Forall (fun a => FsAction_validate a = Ok tt) actions
  /\ 1 <= len actions <= MAX_FS_ACTIONS
  /\ zsum action_inline actions <= MAX_PATCH_INLINE_BYTES.
Proof. apply FsArgs_validate_safe in Ha as (? & ? & ? & ? & ?). done. Qed.

Lemma fs_paths_distinct_witness :
  NoDup ([mkAction 1 FsCreate (L "a") None None (Some (PInline (L "x")));
          mkAction 4 FsMove (L "b") (Some (L "c")) (Some sample_digest) None] ≫= action_paths).
Proof. apply fs_paths_distinct. vm_compute. reflexivity. Defined.

(** ** Approvals and capabilities *)

(** An approval is bound to one action: two requests with valid arguments and
    the same authorization target have the same arguments (whatever their
    identifiers, budgets and permits), so an approval of one action cannot be used
    for another. *)
Theorem authorization_binds_action (r r' : Request) (d : Document)
    (Hd : document_ok d = true)
    (Hok : Arguments_ok (rq_arguments r) = true)
    (Hva : Arguments_validate (rq_arguments r) = Ok tt)
    (Hok' : Arguments_ok (rq_arguments r') = true)
    (Hva' : Arguments_validate (rq_arguments r') = Ok tt)
    (Ht : authorization_target r = Ok d) (Ht' : authorization_target r' = Ok d) :
  rq_arguments r = rq_arguments r'.
Proof. by apply (authorization_target_binds r r' d). Qed.

Lemma authorization_binds_action_witness :
  rq_arguments sample_request = rq_arguments (mkRequest 8 sample_batch (mkBudget 3 3 1) None).
Proof.
  apply (authorization_binds_action sample_request (mkRequest 8 sample_batch (mkBudget 3 3 1) None)
    (unwrap_or (authorization_target sample_request) (mkDocument []))); vm_compute; reflexivity.
Defined.

(** A batch needs every capability any of its nodes needs. *)
Theorem batch_capabilities_cover (nodes : list BatchNode) (n : BatchNode) (Hn : n ∈ nodes) :
  Z.land (required_capabilities (ABatch nodes)) (required_capabilities (node_arguments n))
  = required_capabilities (node_arguments n).
Proof. by apply required_capabilities_batch. Qed.

Lemma batch_capabilities_cover_witness :
  Z.land (required_capabilities sample_batch) (required_capabilities sample_exec)
  = required_capabilities sample_exec.
Proof.
  apply (batch_capabilities_cover _ (mkNode 2 [1] sample_exec)).
  right. left.
Defined.

(** * what a response promises

    The constructor accepts exactly the responses whose parts agree, and the
    document of a response says everything that is in it. *)

(** [FinalResponse::new] accepts exactly the valid responses: the status, the error
    and the data agree, the parts of the data are in states the status allows, paths
    are distinct and ascending, no reference is zero, and the retained flag is set
    exactly when some reference is carried. *)
Theorem response_new_exact request_id status paths data error flags reference r :
  FinalResponse_new request_id status paths data error flags reference = Ok r
  <-> r = mkResponse request_id status paths data error flags reference /\ response_valid r.
Proof. apply FinalResponse_new_ok. Qed.

(** C37: The document of a response is always built; it is well formed, so it is read back
    from its printed form; and it determines the response among those that carry a
    projection of a table, whose columns the client chose, and among those that carry none
    (a response with a projection is not compared with one without). *)
Theorem response_document_faithful r (Ht : response_typed r) :
  exists d, FinalResponse_encode r = Ok d /\ document_ok d = true
  /\ (forall limits, document_within limits d = true -> decode_with_limits (encode d) limits = Ok d)
  /\ (forall r', projects r' = projects r -> FinalResponse_encode r' = Ok d -> r' = r).
Proof.
  exists (response_document r). pose proof (final_response_document_ok r Ht) as Hok.
  split; [apply FinalResponse_encode_eq|]. split; [done|]. split; [intros limits Hw; by apply decode_encode|].
  intros r' Hp. rewrite FinalResponse_encode_eq. intros H. apply response_document_inj; [done|congruence].
Qed.

(** A conflict: one file of a patch had changed. *)
Definition sample_response : FinalResponse :=
  mkResponse 7 SConflict [mkMapping 1 (L "src/a.rs"); mkMapping 2 (L "src/b.rs")]
    (Some (DPatch [mkPatchResult 1 PConflict (Some (replicate 64 97)); mkPatchResult 2 PSkipped None]))
    (Some (mkErrorRecord ContentConflict CorrectRequest StExecute (Some 9) None)) RESULT_RETAINED None.

Example sample_response_accepted :
  FinalResponse_failure 7 SConflict (mkErrorRecord ContentConflict CorrectRequest StExecute (Some 9) None)
    (fp_paths sample_response) (fp_data sample_response) RESULT_RETAINED None = Ok sample_response.
Proof. vm_compute. reflexivity. Qed.

Example response_document_faithful_witness :
  exists d, FinalResponse_encode sample_response = Ok d /\ document_ok d = true
  /\ decode_with_limits (encode d) Limits_default = Ok d
  /\ (forall r', projects r' = false -> FinalResponse_encode r' = Ok d -> r' = sample_response).
Proof.
  assert (response_typed sample_response) as Ht.
  { split; [|split].
    - repeat constructor.
    - intros d [= <-]. split; [|split]; [repeat constructor|constructor|exact I].
    - repeat constructor. }
  destruct (response_document_faithful sample_response Ht) as (d & He & Hok & Hd & Hi).
  exists d. split; [exact He|]. split; [exact Hok|]. split; [|exact Hi]. apply Hd.
  vm_compute in He. injection He as <-. vm_compute. reflexivity.
Defined.
