(* ===== verification/Budget.v ===== *)
(** * Budget: concurrent counters of one program

    [budget.rs].  The counters are atomics shared by the threads of a program; a
    reservation is a compare-exchange loop.  A thread is a machine whose steps are
    the atomic operations of the loop, and a program run is any interleaving of
    the steps of its threads, spurious failures of the weak exchange included. *)

From S2P Require Import Prelude Text Request.

(** ** The reservation loop *)

(** Where a thread is in [reserve_atomic_u64]: before the load, at the head of the
    loop with its [current], or returned. *)
Inductive ReserveState : Type :=
| RLoad
| RLoop (current : Z)
| RDone (res : result Z unit).

Record Reserve : Type := mkReserve { rv_amount : Z; rv_state : ReserveState }.

(** The body of the loop up to the exchange: the value to store, or the error.
    [max] is the largest value of the counter's type. *)
Definition reserve_request (max amount limit current : Z) : result Z Z :=
  requested ← ok_or (checked_add max current amount) max;
  if limit <? requested then Err requested else Ok requested.

(** One atomic operation of the loop on the counter.  [weak] is whether the
    exchange fails although the values agree. *)
Definition reserve_step (max amount limit : Z) (weak : bool) (st : ReserveState) (counter : Z)
    : ReserveState * Z :=
  match st with
  | RLoad => (RLoop counter, counter)
  | RLoop current =>
      match reserve_request max amount limit current with
      | Err requested => (RDone (Err requested), counter)
      | Ok requested =>
          if (current =? counter) && negb weak then (RDone (Ok tt), requested)
          else (RLoop counter, counter)
      end
  | RDone res => (RDone res, counter)
  end.

(** A thread that runs alone. *)
Fixpoint reserve_run (fuel : nat) (max amount limit : Z) (st : ReserveState) (counter : Z)
    : ReserveState * Z :=
  match fuel with
  | O => (st, counter)
  | S fuel =>
      let '(st, counter) := reserve_step max amount limit false st counter in
      reserve_run fuel max amount limit st counter
  end.

(** The threads of a program and their counter. *)
Record Pool : Type := mkPool { pl_counter : Z; pl_threads : list Reserve }.

(** Thread [i] performs its next atomic operation. *)
Definition pool_step (max limit : Z) (i : nat) (weak : bool) (p : Pool) : Pool :=
  match pl_threads p !! i with
  | Some t =>
      let '(st, counter) :=
        reserve_step max (rv_amount t) limit weak (rv_state t) (pl_counter p) in
      mkPool counter (<[i := mkReserve (rv_amount t) st]> (pl_threads p))
  | None => p
  end.

(** A schedule names the thread of each step and whether its exchange is weak. *)
Definition pool_run (max limit : Z) (schedule : list (nat * bool)) (p : Pool) : Pool :=
  foldl (fun p s => pool_step max limit s.1 s.2 p) p schedule.

Definition pool_start (amounts : list Z) : Pool :=
  mkPool 0 ((fun a => mkReserve a RLoad) <$> amounts).

(** ** The tracker *)

Inductive BudgetError : Type :=
| BE_InvalidOutputLimit
| BE_Output (requested : Z)
| BE_Records (requested : Z)
| BE_Deadline.

#[export] Instance BudgetError_eq_dec : EqDecision BudgetError.
Proof. solve_decision. Defined.

Record BudgetTracker : Type := mkTracker {
  bt_tokens : Z;
  bt_output_limit : Z;
  bt_record_limit : Z;
  bt_deadline : Z;
  bt_output_used : Z;
  bt_records_used : Z;
}.

Definition BudgetTracker_new_with_deadline (request : Budget) (output_limit deadline : Z)
    : result BudgetError BudgetTracker :=
  if output_limit =? 0 then Err BE_InvalidOutputLimit
  else Ok (mkTracker (b_tokens request) output_limit (b_records request) deadline 0 0).

(** [now] is [Instant::now()], in milliseconds. *)
Definition BudgetTracker_new (request : Budget) (output_limit now : Z)
    : result BudgetError BudgetTracker :=
  BudgetTracker_new_with_deadline request output_limit (now + b_millis request).

(** A reservation by a thread no other one interferes with; [reserve_alone] shows
    that three atomic operations are enough. *)
Definition reserve_atomic (max : Z) (counter amount limit : Z) : option (result Z unit * Z) :=
  match reserve_run 3 max amount limit RLoad counter with
  | (RDone res, counter) => Some (res, counter)
  | _ => None
  end.

Definition reserve_output (bt : BudgetTracker) (bytes : Z)
    : option (result BudgetError unit * BudgetTracker) :=
  match reserve_atomic u64_max (bt_output_used bt) bytes (bt_output_limit bt) with
  | Some (res, used) =>
      Some (map_err BE_Output res,
            mkTracker (bt_tokens bt) (bt_output_limit bt) (bt_record_limit bt) (bt_deadline bt)
              used (bt_records_used bt))
  | None => None
  end.

Definition reserve_records (bt : BudgetTracker) (records : Z)
    : option (result BudgetError unit * BudgetTracker) :=
  match reserve_atomic u32_max (bt_records_used bt) records (bt_record_limit bt) with
  | Some (res, used) =>
      Some (map_err BE_Records res,
            mkTracker (bt_tokens bt) (bt_output_limit bt) (bt_record_limit bt) (bt_deadline bt)
              (bt_output_used bt) used)
  | None => None
  end.

Definition check_deadline (bt : BudgetTracker) (now : Z) : result BudgetError unit :=
  if bt_deadline bt <=? now then Err BE_Deadline else Ok tt.

Record BudgetRemaining : Type := mkRemaining {
  br_tokens : Z; br_output_bytes : Z; br_records : Z; br_deadline : Z }.

Definition remaining (bt : BudgetTracker) : BudgetRemaining :=
  mkRemaining (bt_tokens bt)
    (saturating_sub (bt_output_limit bt) (bt_output_used bt))
    (saturating_sub (bt_record_limit bt) (bt_records_used bt))
    (bt_deadline bt).

(** ** Facts *)

Lemma reserve_request_ok max amount limit current r :
  reserve_request max amount limit current = Ok r <->
  r = current + amount /\ current + amount <= max /\ current + amount <= limit.
Proof.
  unfold reserve_request. rewrite bind_ok. split.
  - intros (n & Hn & H). inv_ok. apply checked_add_Some in Hn as [-> ?]. zbool. lia.
  - intros (-> & ? & ?). exists (current + amount).
    split; [by apply ok_or_ok, checked_add_Some|].
    by destruct (Z.ltb_spec limit (current + amount)); [lia|].
Qed.

Lemma reserve_request_err max amount limit current r :
  limit <= max -> reserve_request max amount limit current = Err r ->
  limit < current + amount /\ r = Z.min (current + amount) max.
Proof.
  unfold reserve_request, checked_add. intros Hl.
  destruct (Z.leb_spec (current + amount) max); cbn [ok_or mbind result_bind].
  - destruct (Z.ltb_spec limit (current + amount)); [|done]. intros [= <-]. lia.
  - intros [= <-]. lia.
Qed.

(** What a thread has taken from the budget. *)
Definition granted (t : Reserve) : Z :=
  match rv_state t with RDone (Ok _) => rv_amount t | _ => 0 end.

Section Pool.
Context (max limit : Z).
Hypothesis Hlimit : 0 <= limit <= max.

(** What a thread knows: a value it loaded is not larger than the counter, and a
    refusal was for want of room. *)
Definition thread_ok (counter : Z) (t : Reserve) : Prop :=
  0 <= rv_amount t /\
  match rv_state t with
  | RLoop current => current <= counter
  | RDone (Err _) => limit < counter + rv_amount t
  | _ => True
  end.

Definition pool_inv (p : Pool) : Prop :=
  pl_counter p = zsum granted (pl_threads p) /\ 0 <= pl_counter p <= limit
  /\ Forall (thread_ok (pl_counter p)) (pl_threads p).

Lemma thread_ok_mono c c' t : c <= c' -> thread_ok c t -> thread_ok c' t.
Proof. unfold thread_ok. destruct (rv_state t) as [| |[]]; lia. Qed.

Lemma reserve_step_inv weak st counter amount st' counter' :
  0 <= amount -> 0 <= counter <= limit -> thread_ok counter (mkReserve amount st) ->
  reserve_step max amount limit weak st counter = (st', counter') ->
  counter <= counter' <= limit
  /\ counter' - counter = granted (mkReserve amount st') - granted (mkReserve amount st)
  /\ thread_ok counter' (mkReserve amount st').
Proof.
  intros Ha Hc [_ Ht] H. cbn [rv_state rv_amount] in Ht. unfold granted, thread_ok.
  cbn [rv_state rv_amount]. destruct st as [|current|res]; cbn [reserve_step] in H.
  - injection H as <- <-. lia.
  - destruct (reserve_request max amount limit current) as [r|e] eqn:Hr.
    + apply reserve_request_ok in Hr as (-> & _ & Hr).
      destruct ((current =? counter) && negb weak) eqn:Hx; injection H as <- <-; [|lia].
      zbool. lia.
    + apply reserve_request_err in Hr as [Hr _]; [|lia]. injection H as <- <-. lia.
  - injection H as <- <-. destruct res; lia.
Qed.

Lemma pool_step_inv i weak p : pool_inv p -> pool_inv (pool_step max limit i weak p).
Proof.
  intros (Hsum & Hc & HF). unfold pool_step.
  destruct (pl_threads p !! i) as [[amount st]|] eqn:Hi; [|done]. cbn [rv_amount rv_state].
  pose proof (proj1 (list.Forall_lookup _ _) HF i _ Hi) as Ht.
  destruct (reserve_step _ _ _ _ _ _) as [st' counter'] eqn:E.
  pose proof Ht as [Ha _]. apply reserve_step_inv in E as (Hc' & Hd & Ht'); [|done..].
  unfold pool_inv. cbn [pl_counter pl_threads]. split_and!; [|lia|lia|].
  - rewrite (zsum_insert _ _ _ _ _ Hi). lia.
  - apply Forall_insert; [|done]. eapply list.Forall_impl; [exact HF|].
    intros t. apply thread_ok_mono. lia.
Qed.

Lemma pool_run_inv schedule p : pool_inv p -> pool_inv (pool_run max limit schedule p).
Proof.
  revert p. induction schedule as [|[i w] schedule IH]; intros p Hp; [done|].
  cbn. by apply IH, pool_step_inv.
Qed.

Lemma pool_start_inv amounts :
  forallb (fun a => 0 <=? a) amounts = true -> pool_inv (pool_start amounts).
Proof.
  intros Ha. unfold pool_inv, pool_start. cbn [pl_counter pl_threads]. split_and!; [|lia|lia|].
  - induction amounts as [|a amounts IH]; [done|]. cbn in Ha. zbool. cbn [fmap list_fmap].
    rewrite zsum_cons, <- IH by done. done.
  - apply Forall_fmap, list.Forall_forall. intros a Hin%list_elem_of_In.
    rewrite forallb_forall in Ha. specialize (Ha a Hin). zbool. by split.
Qed.

End Pool.

(** ** A thread alone finishes in three atomic operations *)

Lemma reserve_fresh max amount limit counter :
  reserve_step max amount limit false (RLoop counter) counter
  = match reserve_request max amount limit counter with
    | Ok requested => (RDone (Ok tt), requested)
    | Err requested => (RDone (Err requested), counter)
    end.
Proof. cbn. rewrite Z.eqb_refl. by destruct (reserve_request _ _ _ _). Qed.

Lemma reserve_run_done max amount limit st counter :
  exists res counter', reserve_run 3 max amount limit st counter = (RDone res, counter').
Proof.
  assert (forall n res counter, reserve_run n max amount limit (RDone res) counter = (RDone res, counter))
    as Hdone by (induction n; intros; [done|apply IHn]).
  assert (forall n, exists res counter',
    reserve_run (S n) max amount limit (RLoop counter) counter = (RDone res, counter')) as Hfresh.
  { intros n. cbn [reserve_run]. rewrite reserve_fresh.
    destruct (reserve_request _ _ _ _); eexists _, _; apply Hdone. }
  destruct st as [|current|res].
  - apply (Hfresh 1%nat).
  - cbn [reserve_run reserve_step].
    destruct (reserve_request _ _ _ _); [|eexists _, _; apply (Hdone 2%nat)].
    destruct (_ && _); [eexists _, _; apply (Hdone 2%nat)|apply (Hfresh 1%nat)].
  - eexists _, _. apply (Hdone 3%nat).
Qed.

(** A reservation without interference. *)
Lemma reserve_alone max amount limit counter :
  reserve_atomic max counter amount limit
  = Some match reserve_request max amount limit counter with
         | Ok requested => (Ok tt, requested)
         | Err requested => (Err requested, counter)
         end.
Proof.
  unfold reserve_atomic. cbn [reserve_run reserve_step]. rewrite Z.eqb_refl. cbn [andb negb].
  by destruct (reserve_request _ _ _ _).
Qed.
