(* ===== verification/Dag.v ===== *)
(** * Dag: the dependency scheduler

    [dag.rs].  Jobs run as futures; which running future completes next is the
    environment's choice, a function [choose] from the number of the turn, so a
    theorem for every [choose] is a theorem for every interleaving.  What a job
    does is a function [run] of the job, the caller's closure. *)

From S2P Require Import Prelude Text Graph.

Record DagNode (J : Type) : Type := mkDagNode { dn_dependencies : list nat; dn_job : J }.
Arguments mkDagNode {J}.
Arguments dn_dependencies {J}.
Arguments dn_job {J}.

Record DagCompletion (R : Type) : Type := mkCompletion { dc_value : R; dc_succeeded : bool }.
Arguments mkCompletion {R}.
Arguments dc_value {R}.
Arguments dc_succeeded {R}.

Inductive DagOutcome (R : Type) : Type := Completed (value : R) | Skipped.
Arguments Completed {R}.
Arguments Skipped {R}.

Inductive DagError (E : Type) : Type := InvalidGraph | Task (e : E).
Arguments InvalidGraph {E}.
Arguments Task {E}.

Section Dag.
Context {J R E : Type}.

(** ** Validation *)

(** The loop over the nodes from position [index] on; the counts and the reverse
    edges it collects are those of [Graph]. *)
Fixpoint validate_loop (total index : nat) (nodes : list (DagNode J)) : result (DagError E) unit :=
  match nodes with
  | [] => Ok tt
  | node :: nodes =>
      if negb (windows2_all Nat.ltb (dn_dependencies node))
         || existsb (fun d => (total <=? d)%nat || (d =? index)%nat) (dn_dependencies node)
      then Err InvalidGraph
      else validate_loop total (S index) nodes
  end.

Definition validate (nodes : list (DagNode J)) : result (DagError E) unit :=
  if bool_decide (length nodes = O) then Err InvalidGraph
  else
    _ ← validate_loop (length nodes) 0 nodes;
    if all_visited (dn_dependencies <$> nodes) then Ok tt else Err InvalidGraph.

(** ** Execution *)

(** The local variables of [execute_dag]. *)
Record DagState : Type := mkDagState {
  remaining : list nat;
  jobs : list (option J);
  outcomes : list (option (DagOutcome R));
  errors : list (option E);
  failed_dependency : list bool;
  running : list (nat * J);
  settled : nat;
}.

Variable run : J -> result E (DagCompletion R).

(** [jobs[index].take().ok_or(InvalidGraph)?] and [running.push(..)]. *)
Definition start_job (st : DagState) (index : nat) : result (DagError E) DagState :=
  match jobs st !! index with
  | Some (Some job) =>
      Ok (mkDagState (remaining st) (<[index := None]> (jobs st)) (outcomes st) (errors st)
            (failed_dependency st) (running st ++ [(index, job)]) (settled st))
  | _ => Err InvalidGraph
  end.

Fixpoint start_jobs (indexes : list nat) (st : DagState) : result (DagError E) DagState :=
  match indexes with
  | [] => Ok st
  | index :: indexes => st ← start_job st index; start_jobs indexes st
  end.

(** The body of the loop over the dependents of a settled node, and the queue of
    nodes settled by it. *)
Definition release_dependent (succeeded : bool) (st : DagState) (terminal : list (nat * bool))
    (dependent : nat) : result (DagError E) (DagState * list (nat * bool)) :=
  match remaining st !! dependent with
  | Some (S count) =>
      let failed := default false (failed_dependency st !! dependent) || negb succeeded in
      let st := mkDagState (<[dependent := count]> (remaining st)) (jobs st) (outcomes st)
                  (errors st) (<[dependent := failed]> (failed_dependency st)) (running st)
                  (settled st) in
      if negb (count =? 0)%nat then Ok (st, terminal)
      else if failed then
        Ok (mkDagState (remaining st) (jobs st) (<[dependent := Some Skipped]> (outcomes st))
              (errors st) (failed_dependency st) (running st) (S (settled st)),
            terminal ++ [(dependent, false)])
      else
        st ← start_job st dependent;
        Ok (st, terminal)
  | _ => Err InvalidGraph
  end.

Fixpoint release_dependents (succeeded : bool) (dependents : list nat) (st : DagState)
    (terminal : list (nat * bool)) : result (DagError E) (DagState * list (nat * bool)) :=
  match dependents with
  | [] => Ok (st, terminal)
  | dependent :: dependents =>
      '(st, terminal) ← release_dependent succeeded st terminal dependent;
      release_dependents succeeded dependents st terminal
  end.

(** The [while let Some(..) = terminal.pop_front()] loop; a node enters the queue
    once, so one turn per node is enough. *)
Fixpoint terminal_loop (fuel : nat) (dependents : list (list nat)) (st : DagState)
    (terminal : list (nat * bool)) : option (result (DagError E) DagState) :=
  match terminal with
  | [] => Some (Ok st)
  | (completed, succeeded) :: terminal =>
      match fuel with
      | O => None
      | S fuel =>
          match release_dependents succeeded (default [] (dependents !! completed)) st terminal with
          | Ok (st, terminal) => terminal_loop fuel dependents st terminal
          | Err e => Some (Err e)
          end
      end
  end.

(** One completion: the result of job [index] is recorded and propagated. *)
Definition settle (dependents : list (list nat)) (st : DagState) (index : nat)
    (res : result E (DagCompletion R)) : option (result (DagError E) DagState) :=
  let '(outcomes', errors', succeeded) :=
    match res with
    | Ok completion => (<[index := Some (Completed (dc_value completion))]> (outcomes st),
                        errors st, dc_succeeded completion)
    | Err error => (outcomes st, <[index := Some error]> (errors st), false)
    end in
  terminal_loop (length (jobs st)) dependents
    (mkDagState (remaining st) (jobs st) outcomes' errors' (failed_dependency st) (running st)
       (S (settled st)))
    [(index, succeeded)].

(** [running.next()]: the environment picks one of the running futures. *)
Definition next_running (choice : nat) (st : DagState) : option (nat * J * DagState) :=
  let k := (choice mod length (running st))%nat in
  match running st !! k with
  | Some (index, job) =>
      Some (index, job,
            mkDagState (remaining st) (jobs st) (outcomes st) (errors st) (failed_dependency st)
              (delete k (running st)) (settled st))
  | None => None
  end.

(** The [while settled < jobs.len()] loop. *)
Fixpoint dag_loop (fuel : nat) (choose : nat -> nat) (turn : nat) (dependents : list (list nat))
    (st : DagState) : option (result (DagError E) DagState) :=
  if (settled st <? length (jobs st))%nat then
    match fuel with
    | O => None
    | S fuel =>
        match next_running (choose turn) st with
        | None => Some (Err InvalidGraph)
        | Some (index, job, st) =>
            match settle dependents st index (run job) with
            | Some (Ok st) => dag_loop fuel choose (S turn) dependents st
            | other => other
            end
        end
    end
  else Some (Ok st).

(** [errors.into_iter().flatten().next()] and the collected outcomes. *)
Definition dag_result (st : DagState) : result (DagError E) (list (DagOutcome R)) :=
  match omap id (errors st) with
  | error :: _ => Err (Task error)
  | [] => mapM (fun outcome => ok_or outcome InvalidGraph) (outcomes st)
  end.

Definition initial_state (nodes : list (DagNode J)) : DagState :=
  mkDagState (incoming_of (dn_dependencies <$> nodes)) ((fun n => Some (dn_job n)) <$> nodes)
    (replicate (length nodes) None) (replicate (length nodes) None)
    (replicate (length nodes) false) [] 0.

(** Every turn of the loop settles a node, so as many turns as nodes are enough. *)
Definition execute_dag (choose : nat -> nat) (nodes : list (DagNode J))
    : option (result (DagError E) (list (DagOutcome R))) :=
  match validate nodes with
  | Err e => Some (Err e)
  | Ok _ =>
      match start_jobs (zero_positions (remaining (initial_state nodes))) (initial_state nodes) with
      | Err e => Some (Err e)
      | Ok st =>
          match dag_loop (length nodes) choose 0 (dependents_of (dn_dependencies <$> nodes)) st with
          | None => None
          | Some (Err e) => Some (Err e)
          | Some (Ok st) => Some (dag_result st)
          end
      end
  end.

(** ** The dependency oracle *)

(** Whether node [i] completes successfully, following the dependencies [fuel]
    levels down. *)
Fixpoint succeeds (fuel : nat) (nodes : list (DagNode J)) (i : nat) : bool :=
  match fuel, nodes !! i with
  | S fuel, Some node =>
      forallb (succeeds fuel nodes) (dn_dependencies node)
      && match run (dn_job node) with Ok c => dc_succeeded c | Err _ => false end
  | _, _ => false
  end.

(** What the scheduler promises of one node: it runs when all its dependencies
    succeed, and is skipped otherwise. *)
Definition node_result (success : nat -> bool) (node : DagNode J) : result E (DagOutcome R) :=
  if forallb success (dn_dependencies node)
  then (fun c => Completed (dc_value c)) <$> run (dn_job node)
  else Ok Skipped.

(** The error of the first node that has one, or every outcome in order. *)
Definition dag_spec (nodes : list (DagNode J)) : result (DagError E) (list (DagOutcome R)) :=
  map_err Task (mapM (node_result (succeeds (length nodes) nodes)) nodes).
End Dag.

(** ** The scheduler implements the dependency oracle

    Whatever order the running jobs complete in, the scheduler settles every node
    and returns what the dependency oracle says. *)

Section Facts.
Context {J R E : Type} (run : J -> result E (DagCompletion R)).
Context (nodes : list (DagNode J)).

Local Notation deps := (dn_dependencies <$> nodes).
Local Notation state := (@DagState J R E).

Hypothesis Hgraph : graph_ok deps.
Hypothesis Hacyclic : acyclic deps.

(** Any function that satisfies the oracle's equation. *)
Context (S : nat -> bool).
Hypothesis HS : forall i node, nodes !! i = Some node ->
  S i = forallb S (dn_dependencies node)
        && match run (dn_job node) with Ok c => dc_succeeded c | Err _ => false end.

(** ** The invariant

    [M i j]: the settling of [j] has been propagated to its dependent [i]. *)

Definition count_unmet (M : nat -> nat -> bool) (i : nat) (d : list nat) : nat :=
  length (filter (fun j => M i j = false) d).

Definition some_failed (M : nat -> nat -> bool) (i : nat) (d : list nat) : bool :=
  existsb (fun j => M i j && negb (S j)) d.

Definition final_outcome (node : DagNode J) : option (DagOutcome R) :=
  if forallb S (dn_dependencies node)
  then (fun c => Completed (dc_value c)) <$> to_option (run (dn_job node))
  else Some Skipped.

Definition final_error (node : DagNode J) : option E :=
  if forallb S (dn_dependencies node)
  then match run (dn_job node) with Err e => Some e | Ok _ => None end
  else None.

Definition busy (done : list nat) (st : state) : list nat := done ++ (running st).*1.

Record dag_inv (M : nat -> nat -> bool) (done : list nat) (st : state) : Prop := {
  di_nodup : NoDup (busy done st);
  di_remaining : forall i, remaining st !! i = count_unmet M i <$> deps !! i;
  di_failed : forall i, failed_dependency st !! i = some_failed M i <$> deps !! i;
  di_busy : forall i d, deps !! i = Some d ->
    i ∈ busy done st <-> forall j, j ∈ d -> M i j = true;
  di_range : forall i, i ∈ busy done st -> (i < length nodes)%nat;
  di_running : forall i job, (i, job) ∈ running st ->
    exists node, nodes !! i = Some node /\ dn_job node = job
                 /\ forallb S (dn_dependencies node) = true;
  di_jobs : length (jobs st) = length nodes
    /\ forall i node, nodes !! i = Some node -> i ∉ busy done st ->
         jobs st !! i = Some (Some (dn_job node));
  di_outcomes : forall i, outcomes st !! i
    = (fun node => if decide (i ∈ done) then final_outcome node else None) <$> nodes !! i;
  di_errors : forall i, errors st !! i
    = (fun node => if decide (i ∈ done) then final_error node else None) <$> nodes !! i;
  di_settled : settled st = length done;
}.

(** Only the edges of the graph matter. *)
Lemma dag_inv_ext M M' done st :
  (forall i j, depends deps i j -> M i j = M' i j) -> dag_inv M done st -> dag_inv M' done st.
Proof.
  intros HM [].
  assert (forall i d, deps !! i = Some d -> forall j, j ∈ d -> M i j = M' i j) as HM'
    by (intros i d Hd j Hj; apply HM; by exists d).
  split; try done.
  - intros i. rewrite di_remaining0. destruct (deps !! i) as [d|] eqn:Hd; [|done].
    cbn. f_equal. unfold count_unmet. f_equal. apply list_filter_iff_in. intros j Hj. by rewrite (HM' i d Hd j Hj).
  - intros i. rewrite di_failed0. destruct (deps !! i) as [d|] eqn:Hd; [|done].
    cbn. f_equal. specialize (HM' i d Hd). clear -HM'. unfold some_failed.
    induction d as [|j d IH]; [done|]. cbn. rewrite HM' by left. f_equal.
    apply IH. intros k Hk. apply HM'. by right.
  - intros i d Hd. rewrite di_busy0 by done. specialize (HM' i d Hd).
    split; intros H j Hj; specialize (H j Hj); by rewrite HM' in *.
Qed.

(** ** Pending edges

    The edges out of settled nodes that are still to be propagated. *)

Definition met (done : list nat) (work : list (nat * nat)) (i j : nat) : bool :=
  bool_decide (j ∈ done) && negb (bool_decide ((i, j) ∈ work)).

Definition work_ok (done : list nat) (work : list (nat * nat)) : Prop :=
  NoDup work /\ forall i j, (i, j) ∈ work -> depends deps i j /\ j ∈ done.

Definition edges (j : nat) : list (nat * nat) :=
  (fun i => (i, j)) <$> default [] (dependents_of deps !! j).

Lemma elem_of_edges j i k : (j < length nodes)%nat -> (i, k) ∈ edges j <-> k = j /\ depends deps i j.
Proof.
  intros Hj. destruct (dependents_of_spec deps Hgraph j) as (l & Hl & _ & Hd);
    [by rewrite length_fmap|].
  unfold edges. rewrite Hl. cbn. rewrite list_elem_of_fmap, <- Hd. naive_solver.
Qed.

Lemma edges_NoDup j : (j < length nodes)%nat -> NoDup (edges j).
Proof.
  intros Hj. destruct (dependents_of_spec deps Hgraph j) as (l & Hl & Hn & _);
    [by rewrite length_fmap|].
  unfold edges. rewrite Hl. cbn. apply NoDup_fmap; [|done]. by intros ? ? [= ->].
Qed.

(** Settling a node makes its edges pending and propagates nothing yet. *)
Lemma work_ok_settle done work i :
  i ∉ done -> (i < length nodes)%nat -> work_ok done work ->
  work_ok (done ++ [i]) (work ++ edges i).
Proof.
  intros Hi Hlt [Hnd Hw]. split.
  - apply list.NoDup_app. split_and!; [done| |by apply edges_NoDup].
    intros [k j] Hk Hk'. apply elem_of_edges in Hk' as [-> _]; [|done].
    by apply Hw in Hk as [_ ?].
  - intros k j [Hk|Hk]%elem_of_app.
    + apply Hw in Hk as [? ?]. split; [done|set_solver].
    + apply elem_of_edges in Hk as [-> ?]; [|done]. split; [done|set_solver].
Qed.

Lemma met_settle done work i k j :
  i ∉ done -> (i < length nodes)%nat -> depends deps k j ->
  met (done ++ [i]) (work ++ edges i) k j = met done work k j.
Proof.
  intros Hi Hlt Hkj. unfold met. destruct (decide (j = i)) as [->|Hne].
  - rewrite (bool_decide_eq_false_2 (i ∈ done)) by done.
    rewrite (bool_decide_eq_true_2 ((k, i) ∈ _)); [by rewrite andb_false_r|].
    apply elem_of_app. right. by apply elem_of_edges.
  - f_equal; [|f_equal]; apply bool_decide_ext; [set_solver|].
    rewrite elem_of_app, elem_of_edges by done. naive_solver.
Qed.

Lemma met_release done work i c k j :
  work_ok done ((i, c) :: work) ->
  met done work k j = if decide ((k, j) = (i, c)) then true else met done ((i, c) :: work) k j.
Proof.
  intros [Hnd Hw]. apply list.NoDup_cons in Hnd as [Hni _].
  destruct (Hw i c) as [_ Hc]; [left|]. unfold met. destruct (decide _) as [[= -> ->]|Hne].
  - by rewrite bool_decide_eq_true_2, bool_decide_eq_false_2.
  - do 2 f_equal. apply bool_decide_ext. rewrite elem_of_cons. naive_solver.
Qed.

Lemma work_ok_release done work i c : work_ok done ((i, c) :: work) -> work_ok done work.
Proof.
  intros [Hnd Hw]. apply list.NoDup_cons in Hnd as [_ Hnd]. split; [done|].
  intros k j Hk. apply Hw. by right.
Qed.
(** ** Propagating one edge *)

Lemma count_release M M' i c d :
  NoDup d -> c ∈ d -> M i c = false -> M' i c = true ->
  (forall j, j <> c -> M' i j = M i j) -> count_unmet M i d = Datatypes.S (count_unmet M' i d).
Proof.
  intros Hnd Hc H0 H1 Hne. unfold count_unmet. induction Hnd as [|x d Hx Hnd IH];
    [by apply elem_of_nil in Hc|].
  destruct (decide (x = c)) as [->|Hxc].
  - rewrite list.filter_cons_True, list.filter_cons_False by congruence. cbn. do 2 f_equal.
    apply list_filter_iff_in. intros j Hj. rewrite Hne; [done|]. by intros ->.
  - apply elem_of_cons in Hc as [->|Hc]; [done|]. specialize (IH Hc).
    destruct (M i x) eqn:Ex.
    + rewrite !list.filter_cons_False by (rewrite ?Hne by done; congruence). done.
    + rewrite !list.filter_cons_True by (rewrite ?Hne by done; congruence). cbn. by f_equal.
Qed.

Lemma some_failed_release M M' i c d :
  c ∈ d -> M i c = false -> M' i c = true -> (forall j, j <> c -> M' i j = M i j) ->
  some_failed M' i d = some_failed M i d || negb (S c).
Proof.
  intros Hc H0 H1 Hne. unfold some_failed. apply eq_true_iff_eq.
  rewrite orb_true_iff, !existsb_exists. setoid_rewrite andb_true_iff.
  setoid_rewrite <- list_elem_of_In. split.
  - intros (j & Hj & HM & HSj). destruct (decide (j = c)) as [->|Hjc]; [by right|].
    left. exists j. by rewrite <- Hne.
  - intros [(j & Hj & HM & HSj)|HSc]; [|by exists c].
    exists j. rewrite Hne; [done|]. intros ->. by rewrite H0 in HM.
Qed.

Lemma count_zero M i d : count_unmet M i d = O <-> forall j, j ∈ d -> M i j = true.
Proof.
  unfold count_unmet. rewrite length_zero_iff_nil. split.
  - intros H j Hj. destruct (M i j) eqn:Em; [done|].
    assert (j ∈ filter (fun j => M i j = false) d) as Hf by (by apply list_elem_of_filter).
    rewrite H in Hf. by apply elem_of_nil in Hf.
  - intros H. destruct (filter _ d) as [|j l] eqn:Ef; [done|].
    assert (j ∈ filter (fun j => M i j = false) d) as [HM Hj]%list_elem_of_filter
      by (rewrite Ef; left).
    by rewrite H in HM.
Qed.

(** Once every dependency has been propagated, the failure bit decides. *)
Lemma some_failed_all M i d :
  (forall j, j ∈ d -> M i j = true) -> some_failed M i d = negb (forallb S d).
Proof.
  intros H. unfold some_failed. induction d as [|j d IH]; [done|]. cbn.
  rewrite H by left. rewrite IH by (intros; apply H; by right). by destruct (S j).
Qed.
Lemma deps_lookup i d :
  deps !! i = Some d -> exists node, nodes !! i = Some node /\ d = dn_dependencies node.
Proof. intros (node & -> & ?)%list_lookup_fmap_Some. by exists node. Qed.

(** What releasing the edge [(i, c)] does to the counts, the failure bits and the
    nodes without unmet dependencies. *)
Lemma release_facts done work i c st :
  work_ok done ((i, c) :: work) -> dag_inv (met done ((i, c) :: work)) done st ->
  exists node, nodes !! i = Some node /\ i ∉ busy done st
  /\ let count := count_unmet (met done work) i (dn_dependencies node) in
     remaining st !! i = Some (Datatypes.S count)
     /\ (forall k, <[i := count]> (remaining st) !! k
                   = count_unmet (met done work) k <$> deps !! k)
     /\ (forall k, <[i := default false (failed_dependency st !! i) || negb (S c)]>
                     (failed_dependency st) !! k = some_failed (met done work) k <$> deps !! k)
     /\ default false (failed_dependency st !! i) || negb (S c)
        = some_failed (met done work) i (dn_dependencies node)
     /\ (forall k d, deps !! k = Some d ->
          k ∈ busy done st \/ (k = i /\ count = O) <-> forall j, j ∈ d -> met done work k j = true).
Proof.
  intros Hw Hinv. destruct (proj2 Hw i c) as [(d & Hd & Hcd) Hc]; [left|].
  destruct (deps_lookup i d Hd) as (node & Hnode & ->).
  set (M := met done ((i, c) :: work)) in *. set (M' := met done work).
  assert (forall k j, M' k j = if decide ((k, j) = (i, c)) then true else M k j) as HM
    by (intros; by apply met_release).
  assert (M i c = false) as Hic.
  { unfold M, met. rewrite (bool_decide_eq_true_2 ((i, c) ∈ _)) by left. by rewrite andb_false_r. }
  assert (M' i c = true) as Hic' by (rewrite HM; by rewrite decide_True).
  assert (forall j, j <> c -> M' i j = M i j) as Hij
    by (intros j Hj; rewrite HM, decide_False by naive_solver; done).
  assert (forall k, k <> i -> forall j, M' k j = M k j) as Hk
    by (intros k Hk j; rewrite HM, decide_False by naive_solver; done).
  pose proof (graph_ok_lookup deps Hgraph i _ Hd) as [Hnd _].
  pose proof (count_release M M' i c _ Hnd Hcd Hic Hic' Hij) as Hcount.
  pose proof (some_failed_release M M' i c _ Hcd Hic Hic' Hij) as Hfail.
  destruct Hinv. exists node. cbv zeta.
  assert (i ∉ busy done st) as Hni.
  { intros Hb. apply (proj1 (di_busy0 i _ Hd)) with (j := c) in Hb; [|done]. by rewrite Hic in Hb. }
  assert (remaining st !! i = Some (Datatypes.S (count_unmet M' i (dn_dependencies node)))) as Hr
    by (rewrite di_remaining0, Hd; cbn; by rewrite Hcount).
  assert (failed_dependency st !! i = Some (some_failed M i (dn_dependencies node))) as Hf
    by (by rewrite di_failed0, Hd).
  split_and!; try done.
  - intros k. destruct (decide (k = i)) as [->|Hne].
    + rewrite list_lookup_insert_eq by (by eapply lookup_lt_Some). by rewrite Hd.
    + rewrite list_lookup_insert_ne, di_remaining0 by done. destruct (deps !! k) as [dk|]; [|done].
      cbn. f_equal. unfold count_unmet. f_equal. apply list_filter_iff_in. intros j _.
      by rewrite Hk.
  - intros k. rewrite Hf. cbn. rewrite <- Hfail. destruct (decide (k = i)) as [->|Hne].
    + rewrite list_lookup_insert_eq by (by eapply lookup_lt_Some). by rewrite Hd.
    + rewrite list_lookup_insert_ne, di_failed0 by done. destruct (deps !! k) as [dk|]; [|done].
      cbn. f_equal. unfold some_failed. clear -Hk Hne. induction dk as [|j dk IH]; [done|].
      cbn. by rewrite Hk, IH.
  - rewrite Hf. by rewrite Hfail.
  - intros k dk Hdk. destruct (decide (k = i)) as [->|Hne].
    + rewrite Hd in Hdk. injection Hdk as <-. rewrite <- count_zero. naive_solver.
    + rewrite (di_busy0 k dk Hdk). setoid_rewrite (Hk k Hne). naive_solver.
Qed.
Definition inv (done : list nat) (work : list (nat * nat)) (st : state) : Prop :=
  work_ok done work /\ dag_inv (met done work) done st.

(** The queue entries of nodes that have just settled. *)
Definition tag (l : list nat) : list (nat * bool) := (fun x => (x, S x)) <$> l.

Lemma busy_skip done st st' i :
  running st' = running st -> busy (done ++ [i]) st' ≡ₚ i :: busy done st.
Proof. unfold busy. intros ->. rewrite <- app_assoc. cbn. by rewrite Permutation_middle. Qed.

(** A node whose last dependency settled, one of them without success, is skipped. *)
Lemma skip_inv done work i c st node st' :
  inv done ((i, c) :: work) st -> nodes !! i = Some node ->
  count_unmet (met done work) i (dn_dependencies node) = O ->
  some_failed (met done work) i (dn_dependencies node) = true ->
  st' = mkDagState (<[i := O]> (remaining st)) (jobs st) (<[i := Some Skipped]> (outcomes st))
          (errors st)
          (<[i := default false (failed_dependency st !! i) || negb (S c)]> (failed_dependency st))
          (running st) (Datatypes.S (settled st)) ->
  S i = false /\ inv (done ++ [i]) (work ++ edges i) st'.
Proof.
  intros [Hw Hinv] Hnode Hcount Hfail ->.
  destruct (release_facts done work i c st Hw Hinv) as (node' & Hn & Hni & Hrel). cbv zeta in Hrel.
  rewrite Hnode in Hn. injection Hn as <-. destruct Hrel as (_ & Hr & Hf & Hfe & Hb).
  rewrite Hcount in Hr. pose proof (proj1 (count_zero _ _ _) Hcount) as Hall.
  rewrite (some_failed_all _ _ _ Hall) in Hfail. apply negb_true_iff in Hfail.
  assert (S i = false) as HSi by (by rewrite (HS i node Hnode), Hfail).
  assert (i ∉ done) as Hnd by (intros Hin; apply Hni; unfold busy; set_solver).
  pose proof (lookup_lt_Some _ _ _ Hnode) as Hlt.
  assert (final_outcome node = Some Skipped /\ final_error node = None) as [Ho He]
    by (unfold final_outcome, final_error; by rewrite Hfail).
  split; [done|]. split; [by apply work_ok_settle; [..|eapply work_ok_release]|].
  apply (dag_inv_ext (met done work)); [intros; by rewrite met_settle|].
  destruct Hinv.
  set (st' := mkDagState _ _ _ _ _ _ _).
  pose proof (busy_skip done st st' i eq_refl) as Hbp.
  split; try done.
  - rewrite Hbp. by apply list.NoDup_cons.
  - intros k d Hd. rewrite Hbp, elem_of_cons, <- (Hb k d Hd). naive_solver.
  - intros k. rewrite Hbp, elem_of_cons. intros [->|Hk]; [done|by apply di_range0].
  - split; [apply di_jobs0|]. intros k nk Hk. rewrite Hbp, elem_of_cons. intros Hk'.
    apply di_jobs0; [done|naive_solver].
  - intros k. subst st'. cbn [outcomes]. destruct (decide (k = i)) as [->|Hne].
    + rewrite list_lookup_insert_eq by (eapply lookup_lt_Some; by rewrite di_outcomes0, Hnode).
      rewrite Hnode. cbn. by rewrite decide_True, Ho by set_solver.
    + rewrite list_lookup_insert_ne, di_outcomes0 by done. destruct (nodes !! k); [|done]. cbn.
      f_equal. by apply decide_ext; set_solver.
  - intros k. subst st'. cbn [errors]. rewrite di_errors0. destruct (decide (k = i)) as [->|Hne].
    + rewrite Hnode. cbn. by rewrite decide_False, decide_True, He by set_solver.
    + destruct (nodes !! k); [|done]. cbn. f_equal. by apply decide_ext; set_solver.
  - subst st'. cbn [settled]. rewrite length_app, di_settled0. cbn. lia.
Qed.

(** A node whose dependencies all succeeded is started. *)
Lemma start_inv M done i st st0 node :
  dag_inv M done st -> nodes !! i = Some node -> i ∉ busy done st ->
  forallb S (dn_dependencies node) = true ->
  st0 = mkDagState (remaining st0) (jobs st) (outcomes st) (errors st) (failed_dependency st0)
          (running st) (settled st) ->
  forall M', (forall k, remaining st0 !! k = count_unmet M' k <$> deps !! k) ->
  (forall k, failed_dependency st0 !! k = some_failed M' k <$> deps !! k) ->
  (forall k d, deps !! k = Some d ->
     k ∈ busy done st \/ k = i <-> forall j, j ∈ d -> M' k j = true) ->
  exists st', start_job (E := E) st0 i = Ok st' /\ dag_inv M' done st'.
Proof.
  intros [] Hnode Hni Hall -> M' Hr Hf Hb. unfold start_job. cbn [jobs].
  rewrite (proj2 di_jobs0 i node) by done. eexists. split; [done|].
  cbn [remaining failed_dependency] in *.
  set (st' := mkDagState _ _ _ _ _ _ _).
  assert (busy done st' ≡ₚ i :: busy done st) as Hbp.
  { unfold busy. subst st'. cbn [running]. rewrite fmap_app. cbn. rewrite app_assoc.
    by rewrite <- Permutation_cons_append. }
  split; try done.
  - rewrite Hbp. by apply list.NoDup_cons.
  - intros k d Hd. rewrite Hbp, elem_of_cons, <- (Hb k d Hd). naive_solver.
  - intros k. rewrite Hbp, elem_of_cons. intros [->|Hk]; [by eapply lookup_lt_Some|].
    by apply di_range0.
  - intros k job. subst st'. cbn [running]. rewrite elem_of_app.
    intros [Hk|[= -> ->]%list_elem_of_singleton]; [by apply di_running0|]. by exists node.
  - destruct di_jobs0 as [Hl Hj]. subst st'. cbn [jobs]. split; [by rewrite length_insert|].
    intros k nk Hk. rewrite Hbp, elem_of_cons. intros Hk'.
    rewrite list_lookup_insert_ne by naive_solver. apply Hj; [done|naive_solver].
Qed.
(** ** The loops *)

Lemma tag_app l k : tag (l ++ k) = tag l ++ tag k.
Proof. apply fmap_app. Qed.

Lemma release_step done work i c st terminal :
  inv done ((i, c) :: work) st ->
  exists new st', release_dependent (S c) st terminal i = Ok (st', terminal ++ tag new)
    /\ inv (done ++ new) (work ++ (new ≫= edges)) st'.
Proof.
  intros Hinv. pose proof Hinv as [Hw Hd].
  destruct (release_facts done work i c st Hw Hd) as (node & Hnode & Hni & Hrel). cbv zeta in Hrel.
  destruct Hrel as (Hrem & Hr & Hf & Hfe & Hb).
  set (count := count_unmet (met done work) i (dn_dependencies node)) in *.
  unfold release_dependent. rewrite Hrem, Hfe. cbv zeta. destruct (Nat.eqb_spec count 0) as [H0|H0].
  - cbn [negb]. destruct (some_failed _ _ _) eqn:Hsf.
    + destruct (skip_inv done work i c st node _ Hinv Hnode H0 Hsf eq_refl) as [HSi Hskip].
      eexists [i], _. cbn [tag fmap list_fmap]. rewrite HSi. split; [reflexivity|].
      cbn [mbind list_bind]. rewrite app_nil_r. rewrite Hfe in Hskip.
      fold count in H0. rewrite H0. exact Hskip.
    + assert (forallb S (dn_dependencies node) = true) as Hall.
      { rewrite (some_failed_all _ _ _ (proj1 (count_zero _ _ _) H0)) in Hsf.
        by apply negb_false_iff in Hsf. }
      edestruct (start_inv (met done ((i, c) :: work)) done i st) as (st' & Hst' & Hinv');
        [exact Hd|exact Hnode|exact Hni|exact Hall| | | | |].
      5: { rewrite Hst'. cbn [mbind result_bind]. exists [], st'. cbn [tag fmap list_fmap].
        rewrite app_nil_r. split; [done|]. cbn [mbind list_bind]. rewrite !app_nil_r.
        split; [by eapply work_ok_release|exact Hinv']. }
      * reflexivity.
      * exact Hr.
      * intros k. rewrite <- Hf, Hfe. done.
      * intros k d Hkd. rewrite <- (Hb k d Hkd). naive_solver.
  - cbn [negb]. eexists [], _. cbn [tag fmap list_fmap]. rewrite app_nil_r. split; [reflexivity|].
    cbn [mbind list_bind]. rewrite !app_nil_r. split; [by eapply work_ok_release|].
    destruct Hd. split; try done.
    + intros k. rewrite <- Hf, Hfe. done.
    + intros k d Hkd. rewrite <- (Hb k d Hkd). naive_solver.
Qed.

Lemma release_dependents_inv c todo : forall done work st terminal,
  inv done (((fun i => (i, c)) <$> todo) ++ work) st ->
  exists new st', release_dependents (S c) todo st terminal = Ok (st', terminal ++ tag new)
    /\ inv (done ++ new) (work ++ (new ≫= edges)) st'.
Proof.
  induction todo as [|i todo IH]; intros done work st terminal Hinv.
  - exists [], st. cbn. rewrite !app_nil_r. done.
  - cbn [fmap list_fmap app] in Hinv.
    destruct (release_step _ _ _ _ _ terminal Hinv) as (new & st1 & E1 & Hinv1).
    rewrite <- app_assoc in Hinv1.
    destruct (IH _ _ _ (terminal ++ tag new) Hinv1) as (new' & st2 & E2 & Hinv2).
    exists (new ++ new'), st2. cbn [release_dependents]. rewrite E1. cbn [mbind result_bind].
    rewrite E2, tag_app, app_assoc. split; [done|].
    rewrite bind_app. rewrite <- !app_assoc in Hinv2. done.
Qed.

Lemma busy_length M done st : dag_inv M done st -> (length done <= length nodes)%nat.
Proof.
  intros []. pose proof (nodup_range_length (busy done st) (length nodes) di_nodup0 di_range0) as H.
  unfold busy in H. rewrite length_app in H. lia.
Qed.

Lemma terminal_loop_inv fuel : forall done queue st,
  inv done (queue ≫= edges) st ->
  (length queue + (length nodes - length done) <= fuel)%nat ->
  exists new st', terminal_loop fuel (dependents_of deps) st (tag queue) = Some (Ok st')
    /\ inv (done ++ new) [] st'.
Proof.
  assert (forall fuel done st, inv done [] st ->
    exists new st', terminal_loop fuel (dependents_of deps) st (tag []) = Some (Ok st')
      /\ inv (done ++ new) [] st') as Hnil.
  { intros n done st Hinv. exists [], st. rewrite app_nil_r. by destruct n. }
  induction fuel as [|fuel IH]; intros done queue st Hinv Hfuel;
    (destruct queue as [|c queue]; [by apply Hnil|]); cbn in Hfuel; [lia|].
  rewrite bind_cons in Hinv. unfold edges at 1 in Hinv.
  destruct (release_dependents_inv _ _ _ _ _ (tag queue) Hinv) as (new & st1 & E1 & Hinv1).
  cbn [tag fmap list_fmap terminal_loop]. fold (tag queue). rewrite E1.
  rewrite <- tag_app. rewrite <- bind_app in Hinv1.
  assert (length done + length new <= length nodes)%nat.
  { rewrite <- length_app. apply (busy_length _ _ _ (proj2 Hinv1)). }
  destruct (IH _ _ _ Hinv1) as (new' & st2 & E2 & Hinv2); [rewrite !length_app; lia|].
  exists (new ++ new'), st2. rewrite app_assoc. done.
Qed.
(** ** Completions *)

Lemma record_inv done k i job st st' :
  inv done [] st -> running st !! k = Some (i, job) ->
  st' = mkDagState (remaining st) (jobs st)
          match run job with
          | Ok c => <[i := Some (Completed (dc_value c))]> (outcomes st)
          | Err _ => outcomes st
          end
          match run job with
          | Ok _ => errors st
          | Err e => <[i := Some e]> (errors st)
          end
          (failed_dependency st) (delete k (running st)) (Datatypes.S (settled st)) ->
  S i = match run job with Ok c => dc_succeeded c | Err _ => false end
  /\ inv (done ++ [i]) (edges i) st'.
Proof.
  intros [Hw Hinv] Hk Hst'. pose proof Hinv as [].
  destruct (di_running0 i job) as (node & Hnode & <- & Hall); [by eapply list_elem_of_lookup_2|].
  pose proof (lookup_lt_Some _ _ _ Hnode) as Hlt.
  assert (busy done st ≡ₚ busy (done ++ [i]) st') as Hbp.
  { unfold busy. rewrite Hst'. cbn [running]. rewrite <- app_assoc. apply Permutation_app_head.
    by rewrite (delete_Permutation _ _ _ Hk) at 1. }
  assert (i ∉ done) as Hnd.
  { intros Hin. unfold busy in di_nodup0. apply list.NoDup_app in di_nodup0 as (_ & Hd & _).
    apply (Hd i Hin). apply list_elem_of_fmap. eexists. split; [|by eapply list_elem_of_lookup_2].
    done. }
  split; [by rewrite (HS i node Hnode), Hall|].
  split; [by apply (work_ok_settle done [] i)|].
  apply (dag_inv_ext (met done [])); [intros; symmetry; by apply (met_settle done [])|].
  split; try (by rewrite Hst').
  - by rewrite <- Hbp.
  - intros j d Hd. by rewrite <- Hbp, di_busy0.
  - intros j. rewrite <- Hbp. apply di_range0.
  - intros j job. rewrite Hst'. cbn [running]. intros Hj. apply di_running0.
    rewrite (delete_Permutation _ _ _ Hk). by right.
  - split; [rewrite Hst'; by apply di_jobs0|]. intros j nj Hj. rewrite <- Hbp, Hst'.
    by apply di_jobs0.
  - intros j. rewrite Hst'. cbn [outcomes]. destruct (decide (j = i)) as [->|Hne].
    + rewrite Hnode. cbn. rewrite decide_True by set_solver. unfold final_outcome. rewrite Hall.
      destruct (run (dn_job node)); cbn.
      * by rewrite list_lookup_insert_eq by (eapply lookup_lt_Some; by rewrite di_outcomes0, Hnode).
      * rewrite di_outcomes0, Hnode. cbn. by rewrite decide_False.
    + transitivity (outcomes st !! j).
      { destruct (run (dn_job node)); [by rewrite list_lookup_insert_ne|done]. }
      rewrite di_outcomes0. destruct (nodes !! j); [|done]. cbn. f_equal.
      by apply decide_ext; set_solver.
  - intros j. rewrite Hst'. cbn [errors]. destruct (decide (j = i)) as [->|Hne].
    + rewrite Hnode. cbn. rewrite decide_True by set_solver. unfold final_error. rewrite Hall.
      destruct (run (dn_job node)); cbn.
      * rewrite di_errors0, Hnode. cbn. by rewrite decide_False.
      * by rewrite list_lookup_insert_eq by (eapply lookup_lt_Some; by rewrite di_errors0, Hnode).
    + transitivity (errors st !! j).
      { destruct (run (dn_job node)); [done|by rewrite list_lookup_insert_ne]. }
      rewrite di_errors0. destruct (nodes !! j); [|done]. cbn. f_equal.
      by apply decide_ext; set_solver.
  - rewrite Hst', length_app. cbn. lia.
Qed.

Lemma settle_inv done k i job st :
  inv done [] st -> running st !! k = Some (i, job) ->
  exists new st', settle (dependents_of deps)
      (mkDagState (remaining st) (jobs st) (outcomes st) (errors st) (failed_dependency st)
         (delete k (running st)) (settled st)) i (run job) = Some (Ok st')
    /\ inv (done ++ i :: new) [] st'.
Proof.
  intros Hinv Hk. destruct (record_inv done k i job st _ Hinv Hk eq_refl) as [HSi Hrec].
  unfold settle. cbn [jobs outcomes errors remaining failed_dependency running settled].
  rewrite (proj1 (di_jobs _ _ _ (proj2 Hinv))).
  pose proof (busy_length _ _ _ (proj2 Hrec)) as Hle. rewrite length_app in Hle. cbn in Hle.
  assert (edges i = [i] ≫= edges) as Hedges by (cbn; by rewrite app_nil_r).
  rewrite Hedges in Hrec.
  destruct (terminal_loop_inv (length nodes) _ [i] _ Hrec) as (new & st' & E1 & Hinv').
  { rewrite length_app. cbn. lia. }
  exists new, st'. rewrite <- app_assoc in Hinv'. split; [|exact Hinv'].
  rewrite <- E1. cbn [tag fmap list_fmap]. rewrite HSi. by destruct (run job).
Qed.

(** While a node is not settled, some job is running. *)
Lemma running_nonempty done st :
  inv done [] st -> (length done < length nodes)%nat -> running st <> [].
Proof.
  intros [_ Hinv] Hlt Hnil. destruct Hinv. unfold busy in *. rewrite Hnil, app_nil_r in *.
  assert (forall i, (i < length nodes)%nat -> i ∈ done) as Hall.
  { intros i Hi. assert (relations.sn (depends deps) i) as Hsn.
    { apply tc_finite_sn; [exact Hacyclic|]. exists (seq 0 (length nodes)).
      intros j Hj. apply elem_of_seq. split; [lia|].
      clear -Hj Hgraph. induction Hj as [i j Hij|]; [|done].
      apply (depends_lt deps Hgraph) in Hij as [_ Hj]. by rewrite length_fmap in Hj. }
    revert Hi. induction Hsn as [i _ IH]. intros Hi.
    destruct (lookup_lt_is_Some_2 nodes i Hi) as [node Hnode].
    assert (deps !! i = Some (dn_dependencies node)) as Hd by (by rewrite list_lookup_fmap, Hnode).
    apply (di_busy0 i _ Hd). intros j Hj. unfold met. rewrite (bool_decide_eq_false_2 (_ ∈ [])).
    2: { apply not_elem_of_nil. }
    rewrite bool_decide_eq_true_2; [done|]. apply IH; [by exists (dn_dependencies node)|].
    destruct (depends_lt deps Hgraph i j) as [_ Hj']; [by exists (dn_dependencies node)|].
    by rewrite length_fmap in Hj'. }
  assert (length (seq 0 (length nodes)) <= length done)%nat as Hle;
    [|rewrite length_seq in Hle; lia].
  apply submseteq_length, NoDup_submseteq; [apply NoDup_seq|].
  intros i Hi%elem_of_seq. apply Hall. lia.
Qed.

Lemma dag_loop_inv choose fuel : forall done turn st,
  inv done [] st -> (length nodes - length done <= fuel)%nat ->
  exists done' st', dag_loop run fuel choose turn (dependents_of deps) st = Some (Ok st')
    /\ inv done' [] st' /\ length done' = length nodes.
Proof.
  assert (forall done st n turn, inv done [] st -> (length nodes <= length done)%nat ->
    dag_loop run n choose turn (dependents_of deps) st = Some (Ok st)) as Hend.
  { intros settled_nodes st n turn [_ []] Hge.
    destruct n; cbn [dag_loop]; rewrite di_settled0, (proj1 di_jobs0);
      by destruct (Nat.ltb_spec (length settled_nodes) (length nodes)); [lia|]. }
  induction fuel as [|fuel IH]; intros done turn st Hinv Hfuel.
  { pose proof (busy_length _ _ _ (proj2 Hinv)). eexists done, st.
    split_and!; [apply (Hend done); [done|lia]|done|lia]. }
  pose proof (busy_length _ _ _ (proj2 Hinv)) as Hle.
  destruct (decide (length done < length nodes)%nat) as [Hlt|Hge].
  2: { eexists done, st. split_and!; [apply (Hend done); [done|lia]|done|lia]. }
  cbn [dag_loop]. rewrite (di_settled _ _ _ (proj2 Hinv)), (proj1 (di_jobs _ _ _ (proj2 Hinv))).
  rewrite (proj2 (Nat.ltb_lt _ _) Hlt).
  pose proof (running_nonempty done st Hinv Hlt) as Hne. unfold next_running. cbv zeta.
  set (k := (choose turn mod length (running st))%nat).
  assert (k < length (running st))%nat as Hk.
  { apply Nat.mod_upper_bound. by destruct (running st). }
  destruct (lookup_lt_is_Some_2 _ _ Hk) as [[i job] Hij]. rewrite Hij.
  destruct (settle_inv done k i job st Hinv Hij) as (new & st1 & E1 & Hinv1). rewrite E1.
  apply (IH (done ++ i :: new) (Datatypes.S turn) st1 Hinv1). rewrite length_app. cbn. lia.
Qed.
(** ** The start *)

Lemma start_jobs_ok zs : forall st : state,
  NoDup zs ->
  (forall i, i ∈ zs -> exists node, nodes !! i = Some node /\ jobs st !! i = Some (Some (dn_job node))) ->
  exists js rs, start_jobs (E := E) zs st
      = Ok (mkDagState (remaining st) js (outcomes st) (errors st) (failed_dependency st)
              (running st ++ rs) (settled st))
    /\ rs.*1 = zs /\ (forall i job, (i, job) ∈ rs ->
          i ∈ zs /\ exists node, nodes !! i = Some node /\ dn_job node = job)
    /\ length js = length (jobs st) /\ forall k, k ∉ zs -> js !! k = jobs st !! k.
Proof.
  induction zs as [|i zs IH]; intros st Hnd Hj.
  - exists (jobs st), []. cbn. rewrite app_nil_r. split_and!; try done; [by destruct st|].
    by intros ? ? ?%elem_of_nil.
  - apply list.NoDup_cons in Hnd as [Hi Hnd].
    destruct (Hj i) as (node & Hnode & Hjob); [left|].
    cbn [start_jobs]. unfold start_job at 1. rewrite Hjob. cbn [mbind result_bind].
    edestruct (IH (mkDagState (remaining st) (<[i := None]> (jobs st)) (outcomes st) (errors st)
      (failed_dependency st) (running st ++ [(i, dn_job node)]) (settled st)))
      as (js & rs & E1 & Hfst & Hrs & Hl & Hout); [done| |].
    { intros k Hk. destruct (Hj k) as (nk & Hnk & Hjk); [by right|]. exists nk. cbn [jobs].
      by rewrite list_lookup_insert_ne by (by intros ->). }
    exists js, ((i, dn_job node) :: rs). cbn in E1. rewrite E1. cbn [fmap list_fmap].
    rewrite <- app_assoc. split_and!; [done|by rewrite <- Hfst| | |].
    + intros k job [[= -> ->]|Hk]%elem_of_cons; [split; [left|by exists node]|].
      apply Hrs in Hk as [? ?]. split; [by right|done].
    + rewrite Hl. cbn [jobs]. by rewrite length_insert.
    + intros k Hk. rewrite Hout by set_solver. cbn [jobs].
      by rewrite list_lookup_insert_ne by set_solver.
Qed.

Lemma zero_positions_spec i :
  i ∈ zero_positions (incoming_of deps) <-> deps !! i = Some [].
Proof.
  unfold zero_positions, incoming_of. rewrite list_elem_of_filter, elem_of_seq, list_lookup_fmap.
  rewrite length_fmap. split.
  - intros [Hz _]. destruct (deps !! i) as [[|]|]; done.
  - intros Hd. rewrite Hd. split; [done|]. apply lookup_lt_Some in Hd. lia.
Qed.

Lemma met_nil i j : met [] [] i j = false.
Proof. unfold met. by rewrite bool_decide_eq_false_2 by apply not_elem_of_nil. Qed.

Lemma lookup_replicate_fmap {A B} (b : B) (l : list A) k :
  replicate (length l) b !! k = (fun _ => b) <$> l !! k.
Proof. revert k. induction l as [|x l IH]; intros [|k]; cbn; auto. Qed.

Lemma start_state :
  exists st, start_jobs (zero_positions (remaining (initial_state nodes : state)))
      (initial_state nodes) = Ok st /\ inv [] [] st.
Proof.
  assert (NoDup (zero_positions (incoming_of deps))) as Hnd
    by apply list.NoDup_filter, NoDup_seq.
  destruct (start_jobs_ok _ (initial_state nodes) Hnd) as (js & rs & E1 & Hfst & Hrs & Hl & Hout).
  { intros i Hi%zero_positions_spec. apply list_lookup_fmap_Some in Hi as (node & _ & Hn).
    exists node. split; [done|]. cbn. by rewrite list_lookup_fmap, Hn. }
  eexists. split; [exact E1|]. split; [split; [constructor|by intros ? ? ?%elem_of_nil]|].
  assert (forall st : state, running st = rs -> busy [] st = zero_positions (incoming_of deps)) as Hb
    by (intros st <-; exact Hfst).
  set (st := mkDagState _ _ _ _ _ _ _). specialize (Hb st eq_refl).
  split.
  - by rewrite Hb.
  - intros i. cbn. unfold incoming_of. rewrite list_lookup_fmap. destruct (deps !! i) as [d|]; [|done].
    cbn. f_equal. unfold count_unmet. induction d as [|j d IH]; [done|].
    rewrite list.filter_cons_True by apply met_nil. cbn. by f_equal.
  - intros i. cbn. rewrite lookup_replicate_fmap, list_lookup_fmap.
    destruct (nodes !! i) as [node|]; [|done]. cbn. f_equal. symmetry.
    unfold some_failed. induction (dn_dependencies node) as [|j d IH]; [done|]. cbn.
    by rewrite met_nil.
  - intros i d Hd. rewrite Hb, zero_positions_spec, Hd. split; [intros [= ->] ? ?%elem_of_nil; done|].
    intros H. destruct d as [|j d]; [done|]. specialize (H j). rewrite met_nil in H.
    by discriminate H; left.
  - intros i. rewrite Hb, zero_positions_spec. intros Hi%lookup_lt_Some. by rewrite length_fmap in Hi.
  - intros i job Hi. apply Hrs in Hi as [Hi (node & Hn & Hjob)]. exists node. split_and!; [done..|].
    apply zero_positions_spec in Hi. rewrite list_lookup_fmap, Hn in Hi. injection Hi as Hi.
    by rewrite Hi.
  - split; [cbn; rewrite Hl; cbn; by rewrite length_fmap|]. intros i node Hn. rewrite Hb. intros Hi.
    cbn. rewrite Hout by done. cbn. by rewrite list_lookup_fmap, Hn.
  - intros i. cbn. rewrite lookup_replicate_fmap. destruct (nodes !! i); [|done]. cbn.
    by rewrite decide_False by apply not_elem_of_nil.
  - intros i. cbn. rewrite lookup_replicate_fmap. destruct (nodes !! i); [|done]. cbn.
    by rewrite decide_False by apply not_elem_of_nil.
  - done.
Qed.

(** ** The result *)

Lemma collect_result (l : list (DagNode J)) :
  match omap id (final_error <$> l) with
  | error :: _ => Err (Task error)
  | [] => mapM (fun outcome => ok_or outcome InvalidGraph) (final_outcome <$> l)
  end = map_err Task (mapM (node_result run S) l).
Proof.
  induction l as [|node l IH]; [done|]. cbn [fmap list_fmap omap list_omap id mapM].
  assert (match node_result run S node with
          | Ok o => final_error node = None /\ final_outcome node = Some o
          | Err e => final_error node = Some e
          end) as Hnode.
  { unfold node_result, final_error, final_outcome. destruct (forallb S _); [|done].
    by destruct (run (dn_job node)). }
  destruct (node_result run S node) as [o|e].
  - destruct Hnode as [-> ->]. cbn [ok_or mbind result_bind].
    destruct (omap id (final_error <$> l)) as [|e es].
    + cbn [mapM mbind result_bind ok_or]. rewrite IH. by destruct (mapM (node_result run S) l).
    + destruct (mapM (node_result run S) l); [done|]. by injection IH as ->.
  - by rewrite Hnode.
Qed.

Lemma dag_result_inv done st :
  inv done [] st -> length done = length nodes ->
  dag_result st = map_err Task (mapM (node_result run S) nodes).
Proof.
  intros [_ []] Hlen. rewrite <- collect_result. unfold dag_result, busy in *.
  assert (forall i, (i < length nodes)%nat -> i ∈ done) as Hall.
  { intros i Hi. apply (nodup_range_full done (length nodes)); try done.
    - by apply list.NoDup_app in di_nodup0 as (? & _).
    - intros j Hj. apply di_range0. set_solver. }
  assert (errors st = final_error <$> nodes) as ->.
  { apply list_eq. intros i. rewrite di_errors0, list_lookup_fmap.
    destruct (nodes !! i) eqn:Hi; [|done]. cbn. by rewrite decide_True by eauto using lookup_lt_Some. }
  assert (outcomes st = final_outcome <$> nodes) as ->; [|done].
  apply list_eq. intros i. rewrite di_outcomes0, list_lookup_fmap.
  destruct (nodes !! i) eqn:Hi; [|done]. cbn. by rewrite decide_True by eauto using lookup_lt_Some.
Qed.

(** Whatever the order of completions, the loop ends with the oracle's result. *)
Lemma execute_dag_oracle choose :
  validate (E := E) nodes = Ok tt ->
  execute_dag run choose nodes = Some (map_err Task (mapM (node_result run S) nodes)).
Proof.
  intros Hv. unfold execute_dag. rewrite Hv.
  destruct start_state as (st & -> & Hinv).
  destruct (dag_loop_inv choose (length nodes) [] 0 st Hinv) as (done' & st' & -> & Hinv' & Hl);
    [lia|].
  by rewrite (dag_result_inv done' st').
Qed.
End Facts.

(** ** The oracle *)

Lemma forallb_ext_elem {A} (f g : A -> bool) l :
  (forall x, x ∈ l -> f x = g x) -> forallb f l = forallb g l.
Proof.
  induction l as [|x l IH]; intros H; [done|]. cbn. rewrite H by left.
  rewrite IH; [done|]. intros y Hy. apply H. by right.
Qed.

Section Oracle.
Context {J R E : Type} (run : J -> result E (DagCompletion R)) (nodes : list (DagNode J)).
Local Notation deps := (dn_dependencies <$> nodes).
Hypothesis Hgraph : graph_ok deps.
Hypothesis Hacyclic : acyclic deps.

(** As many levels as nodes reach the end of every chain of dependencies. *)
Lemma succeeds_equation i node :
  nodes !! i = Some node ->
  succeeds run (length nodes) nodes i
  = forallb (succeeds run (length nodes) nodes) (dn_dependencies node)
    && match run (dn_job node) with Ok c => dc_succeeded c | Err _ => false end.
Proof.
  intros Hnode. pose proof (proj2 (all_visited_acyclic deps Hgraph) Hacyclic) as Hall.
  unfold all_visited in Hall. apply bool_decide_eq_true in Hall.
  destruct (visited_count_spec deps Hgraph) as (final & incoming & Hfin & [Hnd Hr _ _ Htopo]).
  rewrite Hfin, app_nil_r in *. injection Hall as Hlen. rewrite length_fmap in *.
  assert (forall k j, final !! k = Some j -> forall f, (k < f)%nat ->
    succeeds run f nodes j = succeeds run (S f) nodes j) as Hstable.
  { intros k. induction (lt_wf k) as [k _ IH]. intros j Hj [|f] Hf; [lia|].
    cbn [succeeds]. destruct (nodes !! j) as [nj|] eqn:Hnj; [|done]. f_equal.
    apply forallb_ext_elem. intros d Hd.
    assert (d ∈ take k final) as [m Hm]%list_elem_of_lookup.
    { apply (Htopo k j d Hj). exists (dn_dependencies nj).
      by rewrite list_lookup_fmap, Hnj. }
    apply lookup_take_Some in Hm as [Hm Hmk]. apply (IH m Hmk d Hm). lia. }
  assert (i ∈ final) as [k Hk]%list_elem_of_lookup.
  { apply (nodup_range_full final (length nodes)); try done. by eapply lookup_lt_Some. }
  rewrite (Hstable k i Hk) by (rewrite <- Hlen; by eapply lookup_lt_Some).
  cbn [succeeds]. by rewrite Hnode.
Qed.
End Oracle.

(** ** Validation *)

Definition dag_ok {J} (nodes : list (DagNode J)) : Prop :=
  nodes <> []
  /\ Forall (fun node => Sorted.Sorted lt (dn_dependencies node)
       /\ Forall (fun d => (d < length nodes)%nat) (dn_dependencies node)) nodes
  /\ acyclic (dn_dependencies <$> nodes).

Lemma Sorted_NoDup d : Sorted.Sorted lt d -> NoDup d.
Proof.
  intros H. apply (windows2_all_Sorted Nat.ltb) in H; [|intros; apply Nat.ltb_lt].
  eapply windows2_all_NoDup; [| |exact H].
  - intros a b c. rewrite !Nat.ltb_lt. lia.
  - intros a. apply Nat.ltb_irrefl.
Qed.

Lemma dag_ok_graph {J} (nodes : list (DagNode J)) :
  dag_ok nodes -> graph_ok (dn_dependencies <$> nodes).
Proof.
  intros (_ & HF & _). unfold graph_ok. rewrite length_fmap. apply Forall_fmap.
  eapply list.Forall_impl; [exact HF|]. intros node [Hs Hr]. split; [by apply Sorted_NoDup|done].
Qed.

Lemma validate_loop_ok {J E} total index (nodes : list (DagNode J)) :
  validate_loop (E := E) total index nodes = Ok tt <->
  forall i node, nodes !! i = Some node ->
    Sorted.Sorted lt (dn_dependencies node)
    /\ forall d, d ∈ dn_dependencies node -> (d < total)%nat /\ d <> (index + i)%nat.
Proof.
  revert index. induction nodes as [|node nodes IH]; intros index; [by split|].
  cbn [validate_loop].
  destruct (negb (windows2_all Nat.ltb (dn_dependencies node))
    || existsb (fun d => (total <=? d)%nat || (d =? index)%nat) (dn_dependencies node)) eqn:Hc.
  - split; [done|]. intros H. destruct (H O node eq_refl) as [Hs Hd]. exfalso.
    apply orb_true_iff in Hc as [Hc|Hc].
    + apply negb_true_iff in Hc.
      apply (windows2_all_Sorted Nat.ltb) in Hs; [by rewrite Hs in Hc|intros; apply Nat.ltb_lt].
    + apply existsb_exists in Hc as (d & Hdin & Hd'). apply list_elem_of_In in Hdin.
      apply Hd in Hdin as [? Hne]. apply orb_true_iff in Hd' as [?%Nat.leb_le|?%Nat.eqb_eq]; lia.
  - apply orb_false_iff in Hc as [Hs Hd]. apply negb_false_iff in Hs.
    apply (windows2_all_Sorted _ lt) in Hs; [|intros; apply Nat.ltb_lt]. rewrite IH. split.
    + intros H [|i] n Hn; [|specialize (H i n Hn) as [? Hr]; split; [done|];
        intros d Hdi; apply Hr in Hdi; lia].
      injection Hn as <-. split; [done|]. intros d Hdin.
      destruct ((total <=? d)%nat || (d =? index)%nat) eqn:Ht.
      * exfalso. assert (existsb (fun d => (total <=? d)%nat || (d =? index)%nat)
          (dn_dependencies node) = true) as Hex; [|by rewrite Hex in Hd].
        apply existsb_exists. exists d. split; [by apply list_elem_of_In|done].
      * apply orb_false_iff in Ht as [?%Nat.leb_gt ?%Nat.eqb_neq]. lia.
    + intros H i n Hn. specialize (H (S i) n Hn) as [? Hr]. split; [done|].
      intros d Hdi. apply Hr in Hdi. lia.
Qed.

Lemma validate_ok {J E} (nodes : list (DagNode J)) :
  validate (E := E) nodes = Ok tt <-> dag_ok nodes.
Proof.
  unfold validate. destruct (bool_decide (length nodes = O)) eqn:Hz.
  { apply bool_decide_eq_true in Hz. split; [done|]. intros [Hne _].
    by destruct nodes. }
  apply bool_decide_eq_false in Hz. rewrite bind_ok. split.
  - intros ([] & Hl & Hv). pose proof (proj1 (validate_loop_ok _ _ _) Hl) as H.
    assert (Forall (fun node => Sorted.Sorted lt (dn_dependencies node)
       /\ Forall (fun d => (d < length nodes)%nat) (dn_dependencies node)) nodes) as HF.
    { apply list.Forall_lookup. intros i node Hi. destruct (H i node Hi) as [Hs Hd].
      split; [done|]. apply list.Forall_forall. intros d Hdi. by apply Hd. }
    split_and!; [by intros ->|done|].
    destruct (all_visited (dn_dependencies <$> nodes)) eqn:Ha; [|done].
    apply all_visited_acyclic in Ha; [done|]. unfold graph_ok. rewrite length_fmap.
    apply Forall_fmap. eapply list.Forall_impl; [exact HF|]. intros node [Hs Hr].
    split; [by apply Sorted_NoDup|done].
  - intros Hok. pose proof (dag_ok_graph nodes Hok) as Hg. destruct Hok as (Hne & HF & Hac).
    exists tt. split.
    + apply validate_loop_ok. intros i node Hi. rewrite list.Forall_lookup in HF.
      destruct (HF i node Hi) as [Hs Hr]. split; [done|]. intros d Hd.
      rewrite list.Forall_forall in Hr. split; [by apply Hr|]. intros ->.
      apply (Hac i), tc_once. exists (dn_dependencies node). by rewrite list_lookup_fmap, Hi.
    + by rewrite (proj2 (all_visited_acyclic _ Hg) Hac).
Qed.

(** The scheduler refines the oracle, whatever the order of completions. *)
Lemma execute_dag_ok {J R E} (run : J -> result E (DagCompletion R)) choose nodes :
  dag_ok nodes -> execute_dag run choose nodes = Some (dag_spec run nodes).
Proof.
  intros Hok. pose proof (dag_ok_graph nodes Hok) as Hg.
  apply execute_dag_oracle; [exact Hg|apply Hok| |by apply validate_ok].
  intros i node Hi. by apply succeeds_equation; [..|apply Hok|].
Qed.

Lemma execute_dag_invalid {J R E} (run : J -> result E (DagCompletion R)) choose nodes :
  ~ dag_ok nodes -> execute_dag run choose nodes = Some (Err InvalidGraph).
Proof.
  intros Hn. unfold execute_dag. destruct (validate nodes) as [[]|e] eqn:Hv.
  - exfalso. apply Hn. by apply validate_ok in Hv.
  - f_equal. f_equal. unfold validate in Hv.
    destruct (bool_decide _); [by injection Hv|].
    assert (forall (ns : list (DagNode J)) i, validate_loop (E := E) (length nodes) i ns = Ok tt
      \/ validate_loop (E := E) (length nodes) i ns = Err InvalidGraph) as Hloop.
    { induction ns as [|n ns IH]; intros i; [by left|]. cbn. destruct (_ || _); auto. }
    destruct (Hloop nodes 0%nat) as [Hl|Hl]; rewrite Hl in Hv; cbn in Hv;
      [destruct (all_visited _)|]; by simplify_eq.
Qed.
