(* ===== verification/Governor.v ===== *)
(** * Governor: permits

    [parallel.rs] (the worker counts) and [governor.rs].  A [tokio] semaphore is
    the caller's library: an interface gives the operations the governor uses, and
    laws state what [tokio::sync::Semaphore] documents.  An [acquire] is a machine
    whose steps are its polls; [select!] is biased, so a poll looks at the
    cancellation first, then at the semaphore, then at the deadline. *)

From S2P Require Import Prelude Text.

(** ** Worker counts *)

Record Parallelism : Type := mkParallelism {
  io_workers : Z; compute_workers : Z; max_processes : Z; max_filesystem_ops : Z }.

(** [usize::div_ceil] and [Ord::clamp]. *)
Definition div_ceil (a b : Z) : Z := (a + b - 1) / b.
Definition clamp (low high a : Z) : Z := Z.max low (Z.min high a).

Definition for_available_cpus (available : Z) : Parallelism :=
  let available := Z.max available 1 in
  let io_workers := if available =? 1 then 1 else clamp 2 8 (div_ceil available 4) in
  mkParallelism io_workers available available (saturating_mul usize_max available 2).

Record GovernorLimits : Type := mkLimitsOf {
  gl_programs : Z; gl_nodes : Z; gl_processes : Z; gl_filesystem : Z; gl_compute : Z }.

Definition non_zero (value : Z) : Z := if value =? 0 then 1 else value.

Definition from_parallelism (p : Parallelism) : GovernorLimits :=
  let nodes := saturating_add usize_max (compute_workers p) (max_filesystem_ops p) in
  mkLimitsOf (non_zero (saturating_mul usize_max (io_workers p) 4)) (non_zero nodes)
    (max_processes p) (max_filesystem_ops p) (compute_workers p).

Inductive PermitKind : Type := KProgram | KNode | KProcess | KFilesystem | KCompute.

#[export] Instance PermitKind_eq_dec : EqDecision PermitKind.
Proof. solve_decision. Defined.

Definition limit_of (l : GovernorLimits) (kind : PermitKind) : Z :=
  match kind with
  | KProgram => gl_programs l
  | KNode => gl_nodes l
  | KProcess => gl_processes l
  | KFilesystem => gl_filesystem l
  | KCompute => gl_compute l
  end.

(** ** Semaphores *)

Inductive TryAcquire (S : Type) : Type := Acquired (s : S) | NoPermits | SemClosed.
Arguments Acquired {S}.
Arguments NoPermits {S}.
Arguments SemClosed {S}.

Class Semaphore (S : Type) : Type := {
  sem_new : Z -> S;
  try_acquire_owned : S -> TryAcquire S;
  sem_release : S -> S;
}.

(** [tokio::sync::Semaphore::MAX_PERMITS]: [new] panics above it. *)
Definition MAX_PERMITS : Z := Z.shiftr usize_max 3.

(** A semaphore that is never closed hands out a permit while it has one. *)
Class SemaphoreLaws (S : Type) `{Semaphore S} : Type := {
  available : S -> Z;
  available_new : forall n, 0 <= n <= MAX_PERMITS -> available (sem_new n) = n;
  available_acquire : forall s, 0 <= available s ->
    match try_acquire_owned s with
    | Acquired s' => 0 < available s /\ available s' = available s - 1
    | NoPermits => available s = 0
    | SemClosed => False
    end;
  available_release : forall s, available (sem_release s) = available s + 1;
}.

(** A counter is one. *)
#[export] Instance counter_semaphore : Semaphore Z := {
  sem_new n := n;
  try_acquire_owned n := if 0 <? n then Acquired (n - 1) else NoPermits;
  sem_release n := n + 1;
}.
#[export] Instance counter_laws : SemaphoreLaws Z.
Proof.
  refine {| available n := n |}; cbn; [done| |done].
  intros s Hs. destruct (Z.ltb_spec 0 s); lia.
Defined.

(** ** Governors *)

Inductive ParallelismError : Type := Build | WorkerLost.

#[export] Instance ParallelismError_eq_dec : EqDecision ParallelismError.
Proof. solve_decision. Defined.

Inductive GovernorError : Type := GE_Cancelled | GE_Deadline | GE_Closed | GE_NoPermits.

#[export] Instance GovernorError_eq_dec : EqDecision GovernorError.
Proof. solve_decision. Defined.

Section Governor.
Context {S : Type} `{Semaphore S}.

Record Governor : Type := mkGovernor {
  gv_limits : GovernorLimits;
  gv_programs : S;
  gv_nodes : S;
  gv_processes : S;
  gv_filesystem : S;
  gv_compute : S;
}.

Definition Governor_new (l : GovernorLimits) : Governor :=
  mkGovernor l (sem_new (gl_programs l)) (sem_new (gl_nodes l)) (sem_new (gl_processes l))
    (sem_new (gl_filesystem l)) (sem_new (gl_compute l)).

Definition semaphore (g : Governor) (kind : PermitKind) : S :=
  match kind with
  | KProgram => gv_programs g
  | KNode => gv_nodes g
  | KProcess => gv_processes g
  | KFilesystem => gv_filesystem g
  | KCompute => gv_compute g
  end.

(** The semaphores are shared ([Arc]): the governor with one of them changed. *)
Definition with_semaphore (g : Governor) (kind : PermitKind) (s : S) : Governor :=
  match kind with
  | KProgram => mkGovernor (gv_limits g) s (gv_nodes g) (gv_processes g) (gv_filesystem g) (gv_compute g)
  | KNode => mkGovernor (gv_limits g) (gv_programs g) s (gv_processes g) (gv_filesystem g) (gv_compute g)
  | KProcess => mkGovernor (gv_limits g) (gv_programs g) (gv_nodes g) s (gv_filesystem g) (gv_compute g)
  | KFilesystem => mkGovernor (gv_limits g) (gv_programs g) (gv_nodes g) (gv_processes g) s (gv_compute g)
  | KCompute => mkGovernor (gv_limits g) (gv_programs g) (gv_nodes g) (gv_processes g) (gv_filesystem g) s
  end.

(** [Drop] of a permit. *)
Definition release (g : Governor) (kind : PermitKind) : Governor :=
  with_semaphore g kind (sem_release (semaphore g kind)).

Definition try_acquire (g : Governor) (kind : PermitKind) : result GovernorError Governor :=
  match try_acquire_owned (semaphore g kind) with
  | Acquired s => Ok (with_semaphore g kind s)
  | NoPermits => Err GE_NoPermits
  | SemClosed => Err GE_Closed
  end.

(** One poll of [acquire]; [None] is pending. *)
Definition poll_acquire (g : Governor) (kind : PermitKind) (cancelled expired : bool)
    : option (result GovernorError Governor) :=
  if cancelled then Some (Err GE_Cancelled)
  else
    match try_acquire_owned (semaphore g kind) with
    | Acquired s => Some (Ok (with_semaphore g kind s))
    | SemClosed => Some (Err GE_Closed)
    | NoPermits => if expired then Some (Err GE_Deadline) else None
    end.

(** ** Hierarchical permits

    A task acquires from its session's governor, then from the global one; the
    session's permit is held meanwhile and dropped when the second fails. *)

Inductive TaskState : Type :=
| TSession
| TGlobal
| THolding
| TFailed (e : GovernorError)
| TDropped.

Record AcquireTask : Type := mkTask { tk_session : nat; tk_kind : PermitKind; tk_state : TaskState }.

Record GovernorSystem : Type := mkSystem {
  sy_global : Governor; sy_sessions : list Governor; sy_tasks : list AcquireTask }.

Definition with_state (t : AcquireTask) (st : TaskState) : AcquireTask :=
  mkTask (tk_session t) (tk_kind t) st.

Definition set_task (sys : GovernorSystem) (i : nat) (t : AcquireTask) (global session : Governor)
    (st : TaskState) : GovernorSystem :=
  mkSystem global (<[tk_session t := session]> (sy_sessions sys))
    (<[i := with_state t st]> (sy_tasks sys)).

(** A poll of task [i]. *)
Definition poll_task (cancelled expired : bool) (i : nat) (sys : GovernorSystem) : GovernorSystem :=
  match sy_tasks sys !! i with
  | None => sys
  | Some t =>
      match sy_sessions sys !! tk_session t with
      | None => sys
      | Some session =>
          match tk_state t with
          | TSession =>
              match poll_acquire session (tk_kind t) cancelled expired with
              | Some (Ok session) => set_task sys i t (sy_global sys) session TGlobal
              | Some (Err e) => set_task sys i t (sy_global sys) session (TFailed e)
              | None => sys
              end
          | TGlobal =>
              match poll_acquire (sy_global sys) (tk_kind t) cancelled expired with
              | Some (Ok global) => set_task sys i t global session THolding
              | Some (Err e) =>
                  set_task sys i t (sy_global sys) (release session (tk_kind t)) (TFailed e)
              | None => sys
              end
          | _ => sys
          end
      end
  end.

(** Task [i] is dropped: what it holds is released. *)
Definition drop_task (i : nat) (sys : GovernorSystem) : GovernorSystem :=
  match sy_tasks sys !! i with
  | None => sys
  | Some t =>
      match sy_sessions sys !! tk_session t with
      | None => sys
      | Some session =>
          match tk_state t with
          | TSession | TFailed _ => set_task sys i t (sy_global sys) session TDropped
          | TGlobal => set_task sys i t (sy_global sys) (release session (tk_kind t)) TDropped
          | THolding =>
              set_task sys i t (release (sy_global sys) (tk_kind t))
                (release session (tk_kind t)) TDropped
          | TDropped => sys
          end
      end
  end.

Inductive GovernorEvent : Type :=
| EvPoll (i : nat) (cancelled expired : bool)
| EvDrop (i : nat)
| EvSpawn (session : nat) (kind : PermitKind).

Definition governor_step (sys : GovernorSystem) (ev : GovernorEvent) : GovernorSystem :=
  match ev with
  | EvPoll i cancelled expired => poll_task cancelled expired i sys
  | EvDrop i => drop_task i sys
  | EvSpawn session kind =>
      mkSystem (sy_global sys) (sy_sessions sys) (sy_tasks sys ++ [mkTask session kind TSession])
  end.

Definition governor_run (events : list GovernorEvent) (sys : GovernorSystem) : GovernorSystem :=
  foldl governor_step sys events.

Definition governor_start (global : GovernorLimits) (sessions : list GovernorLimits)
    : GovernorSystem :=
  mkSystem (Governor_new global) (Governor_new <$> sessions) [].
End Governor.
Arguments Governor : clear implicits.
Arguments GovernorSystem : clear implicits.

(** ** Facts *)

(** The defaults are positive, as [NonZeroUsize] requires, and bounded. *)
Lemma for_available_cpus_bounds available :
  available <= usize_max ->
  let p := for_available_cpus available in
  1 <= io_workers p <= 8 /\ 1 <= compute_workers p <= usize_max
  /\ 1 <= max_processes p <= usize_max /\ 1 <= max_filesystem_ops p <= usize_max
  /\ (forall kind, 1 <= limit_of (from_parallelism p) kind <= usize_max)
  /\ (32 <= available <= MAX_PERMITS / 4 ->
      forall kind, limit_of (from_parallelism p) kind <= 3 * available).
Proof.
  intros Ha p.
  assert (1 <= io_workers p <= 8) as Hio.
  { unfold p, for_available_cpus. cbn [io_workers]. destruct (Z.max available 1 =? 1); [lia|].
    unfold clamp. lia. }
  assert (1 <= compute_workers p <= usize_max) by (cbn; lia).
  assert (1 <= max_processes p <= usize_max) by (cbn; lia).
  assert (1 <= max_filesystem_ops p <= usize_max) by (cbn; unfold saturating_mul; lia).
  split_and!; try lia.
  2:{ intros Hav kind. change (MAX_PERMITS / 4) with 576460752303423487 in Hav. assert (compute_workers p = available) by (cbn; lia).
      assert (max_processes p = available) by (cbn; lia).
      assert (max_filesystem_ops p = available * 2)
        by (cbn; unfold saturating_mul; lia).
      destruct kind; cbn [limit_of from_parallelism gl_programs gl_nodes gl_processes
        gl_filesystem gl_compute]; unfold non_zero, saturating_mul, saturating_add;
        repeat match goal with |- context [?a =? 0] => destruct (Z.eqb_spec a 0) end; lia. }
  intros kind. destruct kind; cbn [limit_of from_parallelism gl_programs gl_nodes gl_processes
    gl_filesystem gl_compute]; unfold non_zero, saturating_mul, saturating_add in *;
    repeat match goal with |- context [?a =? 0] => destruct (Z.eqb_spec a 0) end; lia.
Qed.

Section Facts.
Context {S : Type} `{SemaphoreLaws S}.

Lemma semaphore_with (g : Governor S) k s k' :
  semaphore (with_semaphore g k s) k' = if decide (k = k') then s else semaphore g k'.
Proof. by destruct k, k'. Qed.

Definition free (g : Governor S) (kind : PermitKind) : Z := available (semaphore g kind).

Lemma free_release g k k' : free (release g k) k' = free g k' + (if decide (k = k') then 1 else 0).
Proof.
  unfold free, release. rewrite semaphore_with. destruct (decide (k = k')) as [->|]; [|lia].
  apply available_release.
Qed.

(** A poll that yields a permit takes one of the kind asked for. *)
Lemma poll_acquire_free g kind cancelled expired :
  0 <= free g kind ->
  match poll_acquire g kind cancelled expired with
  | Some (Ok g') => 0 < free g kind
      /\ forall k, free g' k = free g k - (if decide (kind = k) then 1 else 0)
  | Some (Err GE_Cancelled) => cancelled = true
  | Some (Err GE_Deadline) => expired = true /\ free g kind = 0
  | Some (Err _) => False
  | None => free g kind = 0 /\ cancelled = false /\ expired = false
  end.
Proof.
  intros Hf. unfold poll_acquire. destruct cancelled; [done|].
  pose proof (available_acquire (semaphore g kind) Hf) as Ha.
  destruct (try_acquire_owned (semaphore g kind)) as [s'| |]; [|by destruct expired|done].
  destruct Ha as [Hpos Hs]. split; [done|]. intros k. unfold free. rewrite semaphore_with.
  destruct (decide (kind = k)) as [->|]; lia.
Qed.

(** What a task holds of its session's governor and of the global one. *)
Definition holds_session (s : nat) (kind : PermitKind) (t : AcquireTask) : Z :=
  if decide (tk_session t = s /\ tk_kind t = kind)
  then match tk_state t with TGlobal | THolding => 1 | _ => 0 end else 0.

Definition holds_global (kind : PermitKind) (t : AcquireTask) : Z :=
  if decide (tk_kind t = kind) then match tk_state t with THolding => 1 | _ => 0 end else 0.

(** Every permit is either free or held by a task. *)
Definition system_inv (global : GovernorLimits) (sessions : list GovernorLimits)
    (sys : GovernorSystem S) : Prop :=
  (forall kind, 0 <= free (sy_global sys) kind
     /\ free (sy_global sys) kind + zsum (holds_global kind) (sy_tasks sys) = limit_of global kind)
  /\ length (sy_sessions sys) = length sessions
  /\ forall s g l, sy_sessions sys !! s = Some g -> sessions !! s = Some l -> forall kind,
       0 <= free g kind
       /\ free g kind + zsum (holds_session s kind) (sy_tasks sys) = limit_of l kind.
Context (global : GovernorLimits) (sessions : list GovernorLimits).
Local Notation sys_inv := (system_inv global sessions).

Lemma set_task_inv sys i t session g' session' st :
  sys_inv sys -> sy_tasks sys !! i = Some t -> sy_sessions sys !! tk_session t = Some session ->
  (forall kind, 0 <= free g' kind
     /\ free g' kind + holds_global kind (with_state t st)
        = free (sy_global sys) kind + holds_global kind t) ->
  (forall kind, 0 <= free session' kind
     /\ free session' kind + holds_session (tk_session t) kind (with_state t st)
        = free session kind + holds_session (tk_session t) kind t) ->
  sys_inv (set_task sys i t g' session' st).
Proof.
  intros (Hg & Hl & Hs) Hi Hses Hg' Hs'. unfold system_inv, set_task.
  cbn [sy_global sy_sessions sy_tasks]. split_and!.
  - intros kind. rewrite (zsum_insert _ _ _ _ _ Hi). specialize (Hg kind). specialize (Hg' kind). lia.
  - by rewrite length_insert.
  - intros s g l Hsg Hsl kind. rewrite (zsum_insert _ _ _ _ _ Hi).
    destruct (decide (s = tk_session t)) as [->|Hne].
    + rewrite list_lookup_insert_eq in Hsg by (by eapply lookup_lt_Some). injection Hsg as <-.
      specialize (Hs _ _ _ Hses Hsl kind). specialize (Hs' kind). lia.
    + rewrite list_lookup_insert_ne in Hsg by done. specialize (Hs _ _ _ Hsg Hsl kind).
      assert (holds_session s kind t = 0 /\ holds_session s kind (with_state t st) = 0) as [-> ->];
        [|lia].
      unfold holds_session, with_state. cbn [tk_session tk_kind].
      rewrite !decide_False by naive_solver. done.
Qed.

Lemma holds_state t st s kind :
  tk_session t = s ->
  holds_session s kind (with_state t st)
  = (if decide (tk_kind t = kind) then match st with TGlobal | THolding => 1 | _ => 0 end else 0)
  /\ holds_global kind (with_state t st)
  = (if decide (tk_kind t = kind) then match st with THolding => 1 | _ => 0 end else 0).
Proof.
  intros Hs. unfold holds_session, holds_global, with_state. cbn [tk_session tk_kind tk_state].
  split; [|done]. destruct (decide (tk_kind t = kind)).
  - by rewrite decide_True.
  - by rewrite decide_False by naive_solver.
Qed.

(** The obligations of [set_task_inv], by cases on the kind. *)
Ltac task_step Hstate :=
  intros kind;
  match goal with t : AcquireTask |- _ =>
    let H1 := fresh in let H2 := fresh in let H3 := fresh in let H4 := fresh in
    destruct (holds_state t (tk_state t) (tk_session t) kind eq_refl) as [H1 H2];
    assert (with_state t (tk_state t) = t) as H3 by (by destruct t);
    rewrite H3 in H1, H2; rewrite Hstate in H1, H2;
    repeat match goal with |- context [holds_session _ kind (with_state t ?st)] =>
      destruct (holds_state t st (tk_session t) kind eq_refl) as [-> ?] end;
    repeat match goal with |- context [holds_global kind (with_state t ?st)] =>
      destruct (holds_state t st (tk_session t) kind eq_refl) as [? ->] end;
    rewrite ?H1, ?H2, ?free_release
  end;
  repeat match goal with
  | Hg : forall kind, 0 <= free (sy_global ?sys) kind /\ _ |- _ => specialize (Hg kind)
  | Hf : forall k, free ?g k = _ |- _ => rewrite ?Hf; clear Hf
  | Hs : forall kind, 0 <= free _ kind /\ _ |- _ => specialize (Hs kind)
  end;
  repeat case_decide; subst; lia.

Lemma poll_task_inv cancelled expired i sys : sys_inv sys -> sys_inv (poll_task cancelled expired i sys).
Proof.
  intros Hinv. pose proof Hinv as (Hg & Hl & Hs). unfold poll_task.
  destruct (sy_tasks sys !! i) as [t|] eqn:Hi; [|done].
  destruct (sy_sessions sys !! tk_session t) as [session|] eqn:Hses; [|done].
  destruct (lookup_lt_is_Some_2 sessions (tk_session t)) as [l Hsl].
  { rewrite <- Hl. by eapply lookup_lt_Some. }
  specialize (Hs _ _ _ Hses Hsl). destruct (tk_state t) eqn:Hst; try done.
  - pose proof (poll_acquire_free session (tk_kind t) cancelled expired) as Hp.
    specialize (Hp ltac:(apply Hs)).
    destruct (poll_acquire _ _ _ _) as [[session'|e]|]; [|clear Hp|done];
      apply (set_task_inv _ _ _ session); try done.
    + task_step Hst.
    + destruct Hp as [Hpos Hp]. task_step Hst.
    + task_step Hst.
    + task_step Hst.
  - pose proof (poll_acquire_free (sy_global sys) (tk_kind t) cancelled expired) as Hp.
    specialize (Hp ltac:(apply Hg)).
    destruct (poll_acquire _ _ _ _) as [[g'|e]|]; [|clear Hp|done];
      apply (set_task_inv _ _ _ session); try done.
    + destruct Hp as [Hpos Hp]. task_step Hst.
    + clear Hp. task_step Hst.
    + task_step Hst.
    + task_step Hst.
Qed.

Lemma drop_task_inv i sys : sys_inv sys -> sys_inv (drop_task i sys).
Proof.
  intros Hinv. pose proof Hinv as (Hg & Hl & Hs). unfold drop_task.
  destruct (sy_tasks sys !! i) as [t|] eqn:Hi; [|done].
  destruct (sy_sessions sys !! tk_session t) as [session|] eqn:Hses; [|done].
  destruct (lookup_lt_is_Some_2 sessions (tk_session t)) as [l Hsl].
  { rewrite <- Hl. by eapply lookup_lt_Some. }
  specialize (Hs _ _ _ Hses Hsl).
  destruct (tk_state t) eqn:Hst; try done;
    apply (set_task_inv _ _ _ session); try done; task_step Hst.
Qed.
Lemma spawn_inv session kind sys : sys_inv sys -> sys_inv (governor_step sys (EvSpawn session kind)).
Proof.
  intros (Hg & Hl & Hs). unfold system_inv. cbn [governor_step sy_global sy_sessions sy_tasks].
  assert (forall k, holds_global k (mkTask session kind TSession) = 0) as Eg
    by (intros k; unfold holds_global; cbn; by destruct (decide _)).
  assert (forall s k, holds_session s k (mkTask session kind TSession) = 0) as Es
    by (intros s k; unfold holds_session; cbn; by destruct (decide _)).
  split_and!; [intros k|done|intros s g l Hsg Hsl k]; rewrite zsum_app, zsum_cons, zsum_nil, ?Eg, ?Es.
  - specialize (Hg k). lia.
  - specialize (Hs s g l Hsg Hsl k). lia.
Qed.

Lemma governor_run_inv events sys : sys_inv sys -> sys_inv (governor_run events sys).
Proof.
  revert sys. induction events as [|ev events IH]; intros sys Hinv; [done|].
  cbn. apply IH. destruct ev; [by apply poll_task_inv|by apply drop_task_inv|by apply spawn_inv].
Qed.

Lemma free_new l kind : 0 <= limit_of l kind <= MAX_PERMITS -> free (Governor_new l) kind = limit_of l kind.
Proof. intros Hl. destruct kind; by apply available_new. Qed.

Lemma governor_start_inv :
  (forall kind, 0 <= limit_of global kind <= MAX_PERMITS) ->
  Forall (fun l => forall kind, 0 <= limit_of l kind <= MAX_PERMITS) sessions ->
  sys_inv (governor_start global sessions).
Proof.
  intros Hg Hs. unfold system_inv, governor_start. cbn [sy_global sy_sessions sy_tasks].
  split_and!.
  - intros kind. rewrite free_new, zsum_nil by done. specialize (Hg kind). lia.
  - apply length_fmap.
  - intros s g l Hsg Hsl kind. rewrite list_lookup_fmap, Hsl in Hsg. injection Hsg as <-.
    rewrite list.Forall_lookup in Hs. specialize (Hs s l Hsl kind).
    rewrite free_new, zsum_nil by done. lia.
Qed.

(** Nobody holds anything once every task has failed or been dropped. *)
Lemma holds_nothing tasks :
  Forall (fun t => match tk_state t with TFailed _ | TDropped => True | _ => False end) tasks ->
  (forall kind, zsum (holds_global kind) tasks = 0)
  /\ forall s kind, zsum (holds_session s kind) tasks = 0.
Proof.
  intros HF. split; intros; induction HF as [|t tasks Ht _ IH]; [done| |done|]; rewrite zsum_cons, IH;
    unfold holds_global, holds_session; destruct (tk_state t); try done; by destruct (decide _).
Qed.
End Facts.
