(* ===== verification/Paths.v ===== *)
(** * Paths: the session's path dictionary

    [path_dictionary.rs].  The mutex makes [intern] one atomic step: a function on
    the locked state, which changes it only when it succeeds. *)

From S2P Require Import Prelude Text.

Record PathEntry : Type := mkPathEntry { pe_id : Z; pe_value : str }.
Record InternedPaths : Type := mkInterned { ip_ids : list Z; ip_introduced : list PathEntry }.

Inductive PathDictionaryError : Type :=
| PD_InvalidLimit
| PD_Quota (max : Z)
| PD_InvalidPath
| PD_IdExhausted.

Record PathDictionary : Type := mkDictionary {
  pd_max_entries : Z; pd_next_id : Z; pd_by_path : gmap str Z }.

Definition PathDictionary_new (max_entries : Z) : result PathDictionaryError PathDictionary :=
  if max_entries =? 0 then Err PD_InvalidLimit else Ok (mkDictionary max_entries 1 ∅).

Definition validate_path (path : str) : result PathDictionaryError unit :=
  if bool_decide (path = []) || (4096 <? str_len path) || contains 0 path
  then Err PD_InvalidPath else Ok tt.

Fixpoint validate_paths (paths : list str) : result PathDictionaryError unit :=
  match paths with
  | [] => Ok tt
  | path :: paths => _ ← validate_path path; validate_paths paths
  end.

(** The distinct paths that are not in the dictionary yet. *)
Definition new_paths (paths : list str) (d : PathDictionary) : gset str :=
  list_to_set (filter (fun path => pd_by_path d !! path = None) paths).

(** The assignment loop: the identifiers, the mappings introduced and the state. *)
Fixpoint intern_loop (paths : list str) (d : PathDictionary)
    : list Z * list PathEntry * PathDictionary :=
  match paths with
  | [] => ([], [], d)
  | path :: paths =>
      match pd_by_path d !! path with
      | Some id =>
          let '(ids, introduced, d) := intern_loop paths d in (id :: ids, introduced, d)
      | None =>
          let id := pd_next_id d in
          let d := mkDictionary (pd_max_entries d) (id + 1) (<[path := id]> (pd_by_path d)) in
          let '(ids, introduced, d) := intern_loop paths d in
          (id :: ids, mkPathEntry id path :: introduced, d)
      end
  end.

Definition intern (paths : list str) (d : PathDictionary)
    : result PathDictionaryError (InternedPaths * PathDictionary) :=
  _ ← validate_paths paths;
  let new_count := Z.of_nat (size (new_paths paths d)) in
  if pd_max_entries d
     <? saturating_add usize_max (Z.of_nat (size (pd_by_path d))) new_count
  then Err (PD_Quota (pd_max_entries d))
  else
    _ ← ok_or (checked_add u64_max (pd_next_id d) new_count) PD_IdExhausted;
    let '(ids, introduced, d) := intern_loop paths d in
    Ok (mkInterned ids introduced, d).

(** ** The peer's view

    [history] is every mapping the session has introduced, in order: what a peer
    that appends each batch's [introduced] holds. *)

Record dict_repr (history : list PathEntry) (d : PathDictionary) : Prop := mkDictRepr {
  dr_ids : forall i e, history !! i = Some e -> pe_id e = Z.of_nat i + 1;
  dr_values : NoDup (pe_value <$> history);
  dr_map : forall path id, pd_by_path d !! path = Some id <-> mkPathEntry id path ∈ history;
  dr_next : pd_next_id d = len history + 1;
}.

Lemma dict_new_repr max d : PathDictionary_new max = Ok d -> dict_repr [] d.
Proof.
  unfold PathDictionary_new. destruct (max =? 0); [done|]. intros [= <-].
  split; [done|constructor| |done]. intros path id. simpl. rewrite lookup_empty.
  split; [done|]. by intros ?%elem_of_nil.
Qed.

Lemma elem_of_values (history : list PathEntry) id path :
  mkPathEntry id path ∈ history -> path ∈ pe_value <$> history.
Proof. intros Hin. apply list_elem_of_fmap. by exists (mkPathEntry id path). Qed.

Lemma dict_repr_lookup_None history d path :
  dict_repr history d -> pd_by_path d !! path = None <-> path ∉ pe_value <$> history.
Proof.
  intros [_ _ Hmap _]. split.
  - intros Hn ([id v] & -> & Hin)%list_elem_of_fmap. apply Hmap in Hin. simpl in Hn. congruence.
  - intros Hn. destruct (_ !! path) as [id|] eqn:E; [|done]. destruct Hn.
    apply Hmap in E. by eapply elem_of_values.
Qed.

Lemma dict_size history d :
  dict_repr history d -> Z.of_nat (size (pd_by_path d)) = len history.
Proof.
  intros Hr. destruct Hr as [_ Hv Hmap _].
  assert (pd_by_path d = list_to_map ((fun e => (pe_value e, pe_id e)) <$> history)) as ->.
  { apply map_eq. intros path. apply option_eq. intros id. rewrite (Hmap path id).
    rewrite <- elem_of_list_to_map.
    - rewrite list_elem_of_fmap. split; [intros Hin; by exists (mkPathEntry id path)|]. intros ([id' v] & [= -> ->] & Hin). done.
    - by rewrite <- list_fmap_compose. }
  rewrite map_size_list_to_map.
  - unfold len. by rewrite length_fmap.
  - by rewrite <- list_fmap_compose.
Qed.

(** One assignment. *)
Lemma dict_repr_snoc history d path :
  dict_repr history d -> pd_by_path d !! path = None ->
  dict_repr (history ++ [mkPathEntry (pd_next_id d) path])
    (mkDictionary (pd_max_entries d) (pd_next_id d + 1)
       (<[path := pd_next_id d]> (pd_by_path d))).
Proof.
  intros Hr Hn. pose proof (proj1 (dict_repr_lookup_None _ _ _ Hr) Hn) as Hnew.
  destruct Hr as [Hids Hv Hmap Hnext]. split; simpl.
  - intros i e [Hi|[Hi He]]%lookup_app_Some; [by apply Hids|].
    apply list_lookup_singleton_Some in He as [Hz <-]. simpl. unfold len in Hnext. lia.
  - rewrite fmap_app. apply list.NoDup_app. split; [done|]. split; [|by apply NoDup_singleton].
    intros p Hp ->%list_elem_of_singleton. done.
  - intros p id. rewrite lookup_insert_Some, (Hmap p id), elem_of_app, list_elem_of_singleton.
    split; [naive_solver|]. intros [Hin|[= -> ->]]; [|by left]. right. split; [|done].
    intros <-. by eapply Hnew, elem_of_values.
  - rewrite len_app, Hnext. done.
Qed.

Lemma intern_loop_spec paths : forall history d ids introduced d',
  dict_repr history d -> intern_loop paths d = (ids, introduced, d') ->
  dict_repr (history ++ introduced) d'
  /\ pd_max_entries d' = pd_max_entries d
  /\ Forall2 (fun path id => mkPathEntry id path ∈ history ++ introduced) paths ids
  /\ forall path, path ∈ pe_value <$> introduced <->
       path ∈ paths /\ path ∉ pe_value <$> history.
Proof.
  induction paths as [|path paths IH]; intros history d ids introduced d' Hr H; simpl in H.
  - injection H as <- <- <-. rewrite app_nil_r. split; [done|]. split; [done|]. set_solver.
  - destruct (pd_by_path d !! path) as [id|] eqn:Hp.
    + destruct (intern_loop paths d) as [[ids' intro'] d''] eqn:Hl. injection H as <- <- <-.
      destruct (IH _ _ _ _ _ Hr Hl) as (Hr' & Hm & HF & Hi). split; [done|]. split; [done|].
      apply (dr_map _ _ Hr) in Hp. split.
      * constructor; [|done]. apply elem_of_app. by left.
      * intros p. rewrite (Hi p), elem_of_cons. split; [naive_solver|].
        intros [[->|?] Hn]; [|done]. destruct Hn. by eapply elem_of_values.
    + destruct (intern_loop paths (mkDictionary _ _ _)) as [[ids' intro'] d''] eqn:Hl.
      injection H as <- <- <-. pose proof (dict_repr_snoc _ _ _ Hr Hp) as Hr1.
      destruct (IH _ _ _ _ _ Hr1 Hl) as (Hr' & Hm & HF & Hi).
      rewrite <- app_assoc in Hr', HF. split; [done|]. split; [done|]. split.
      * constructor; [|done]. apply elem_of_app. right. left.
      * intros p. rewrite fmap_cons, elem_of_cons, (Hi p), elem_of_cons, fmap_app. simpl.
        rewrite elem_of_app, list_elem_of_singleton.
        pose proof (proj1 (dict_repr_lookup_None _ _ _ Hr) Hp).
        destruct (decide (p = path)) as [->|]; naive_solver.
Qed.

(** The loop introduces as many mappings as there are new paths. *)
Lemma intern_loop_count paths history d ids introduced d' :
  dict_repr history d -> intern_loop paths d = (ids, introduced, d') ->
  len introduced = Z.of_nat (size (new_paths paths d)).
Proof.
  intros Hr Hl. destruct (intern_loop_spec _ _ _ _ _ _ Hr Hl) as (Hr' & _ & _ & Hi).
  assert (new_paths paths d = list_to_set (pe_value <$> introduced)) as ->.
  { apply set_eq. intros p. unfold new_paths.
    rewrite !elem_of_list_to_set, (Hi p), list_elem_of_filter.
    rewrite (dict_repr_lookup_None _ _ _ Hr). tauto. }
  rewrite size_list_to_set.
  - unfold len. by rewrite length_fmap.
  - destruct Hr' as [_ Hv _ _]. rewrite fmap_app in Hv. by apply list.NoDup_app in Hv as (_ & _ & ?).
Qed.

Lemma validate_paths_ok paths :
  validate_paths paths = Ok tt <-> Forall (fun path => validate_path path = Ok tt) paths.
Proof.
  induction paths as [|path paths IH]; simpl; [by split|].
  rewrite bind_ok, list.Forall_cons, <- IH. split.
  - intros ([] & ? & ?). done.
  - intros [? ?]. by exists tt.
Qed.

(** [intern] of a batch: it succeeds exactly when every path is valid and the new
    ones fit, and extends the peer's view by what it introduced. *)
Lemma intern_spec history d paths ip d' :
  dict_repr history d -> intern paths d = Ok (ip, d') ->
  dict_repr (history ++ ip_introduced ip) d'
  /\ Forall2 (fun path id => mkPathEntry id path ∈ history ++ ip_introduced ip) paths (ip_ids ip)
  /\ Forall (fun e => pe_value e ∈ paths) (ip_introduced ip)
  /\ pd_max_entries d' = pd_max_entries d
  /\ len (history ++ ip_introduced ip) <= pd_max_entries d.
Proof.
  intros Hr H. unfold intern in H. inv_ok.
  destruct (intern_loop paths d) as [[ids introduced] d''] eqn:Hl. injection H as <- <-. simpl.
  destruct (intern_loop_spec _ _ _ _ _ _ Hr Hl) as (Hr' & Hm & HF & Hi). split_and!; try done.
  - apply list.Forall_forall. intros e He. apply (Hi (pe_value e)), list_elem_of_fmap. by eexists.
  - match goal with H : (_ <? _) = false |- _ => apply Z.ltb_ge in H; rename H into Hq end.
    match goal with H : checked_add _ _ _ = _ |- _ => apply checked_add_Some in H as [_ Hid] end.
    rewrite len_app. rewrite (intern_loop_count _ _ _ _ _ _ Hr Hl).
    rewrite (dict_size _ _ Hr) in Hq. rewrite (dr_next _ _ Hr) in Hid.
    unfold saturating_add in Hq. lia.
Qed.

Lemma intern_succeeds history d paths :
  dict_repr history d -> Forall (fun path => validate_path path = Ok tt) paths ->
  len history + Z.of_nat (size (new_paths paths d)) <= pd_max_entries d ->
  pd_max_entries d < u64_max ->
  exists ip d', intern paths d = Ok (ip, d').
Proof.
  intros Hr Hp Hq Hmax. unfold intern. rewrite (proj2 (validate_paths_ok paths) Hp). simpl.
  rewrite (dict_size _ _ Hr). destruct (Z.ltb_spec (pd_max_entries d)
    (saturating_add usize_max (len history) (Z.of_nat (size (new_paths paths d))))) as [Hl|_].
  { unfold saturating_add in Hl. lia. }
  assert (checked_add u64_max (pd_next_id d) (Z.of_nat (size (new_paths paths d)))
    = Some (pd_next_id d + Z.of_nat (size (new_paths paths d)))) as ->.
  { apply checked_add_Some. rewrite (dr_next _ _ Hr). split; [done|lia]. }
  simpl. destruct (intern_loop paths d) as [[ids introduced] d'']. by eexists _, _.
Qed.

(** A session's calls in the order of the lock, and the peer's history. *)
Fixpoint intern_run (batches : list (list str)) (history : list PathEntry) (d : PathDictionary)
    : list PathEntry * PathDictionary :=
  match batches with
  | [] => (history, d)
  | paths :: batches =>
      match intern paths d with
      | Ok (ip, d) => intern_run batches (history ++ ip_introduced ip) d
      | Err _ => intern_run batches history d
      end
  end.

Lemma intern_run_repr batches : forall history d,
  dict_repr history d ->
  dict_repr (intern_run batches history d).1 (intern_run batches history d).2
  /\ pd_max_entries (intern_run batches history d).2 = pd_max_entries d
  /\ exists more, (intern_run batches history d).1 = history ++ more.
Proof.
  induction batches as [|paths batches IH]; intros history d Hr; simpl.
  { split; [done|]. split; [done|]. exists []. by rewrite app_nil_r. }
  destruct (intern paths d) as [[ip d']|e] eqn:E; [|by apply IH].
  destruct (intern_spec _ _ _ _ _ Hr E) as (Hr' & _ & _ & Hm & _).
  destruct (IH _ _ Hr') as (Hr'' & Hm' & more & Hmore). split; [done|]. split; [congruence|].
  exists (ip_introduced ip ++ more). by rewrite Hmore, app_assoc.
Qed.
