(* ===== verification/Store.v ===== *)
(** * Store: retained results

    [result_store.rs].  The state behind the mutex is a record; a call that locks
    it is one atomic step.  BLAKE3 is the caller's [hash].  A spool file belongs to
    one capture or one content and nothing else writes it, so a disk storage holds
    the bytes of its file; every operation that touches a file takes an argument
    that says whether the system calls succeed. *)

From S2P Require Import Prelude Text.

(** ** Data *)

Abbreviation ContentId := (list Z) (only parsing).

Definition DEFAULT_CAPTURE_MEMORY_BYTES : Z := 4 * 1024 * 1024.

Record StoreLimits : Type := mkStoreLimits { sl_max_bytes : Z; sl_max_entries : Z }.
Definition StoreLimits_default : StoreLimits := mkStoreLimits (256 * 1024 * 1024) 4096.

Record StoreUsage : Type := mkUsage { su_bytes : Z; su_entries : Z }.

Inductive StoreError : Type :=
| SE_InvalidLimits
| SE_ContentTooLarge
| SE_ByteQuota (current incoming max : Z)
| SE_EntryQuota (max : Z)
| SE_AliasExhausted
| SE_UnknownAlias (alias : Z)
| SE_InUse (alias : Z)
| SE_ReservationMismatch
| SE_ReadLimit (requested max : Z)
| SE_Io
| SE_DigestCollision
| SE_Invariant.

#[export] Instance StoreError_eq_dec : EqDecision StoreError.
Proof. solve_decision. Defined.

Inductive Storage : Type := Memory (data : bytes) | Disk (file : bytes).

Record Content : Type := mkContent { ct_length : Z; ct_storage : Storage }.

(** [en_leases] counts the leases that share the entry's content. *)
Record Entry : Type := mkEntry { en_content_id : ContentId; en_content : Content; en_leases : nat }.

Record State : Type := mkState {
  st_next_alias : Z;
  st_bytes : Z;
  st_pending_bytes : Z;
  st_by_alias : gmap Z Entry;
  st_by_content : gmap ContentId Z;
}.

(** [StoreReservation]: the store it belongs to and its charge. *)
Record StoreReservation : Type := mkReservation { sr_store : nat; sr_bytes : Z }.

Record PendingContent : Type := mkPending {
  pc_content_id : option ContentId;
  pc_content : option Content;
  pc_reservation : option StoreReservation;
}.

Definition ResultStore_new (l : StoreLimits) : result StoreError State :=
  if (sl_max_bytes l =? 0) || (sl_max_entries l =? 0) then Err SE_InvalidLimits
  else Ok (mkState 1 0 0 ∅ ∅).

(** ** Content *)

Definition storage_bytes (s : Storage) : bytes := match s with Memory data => data | Disk file => file end.

(** [reader]: opening a file may fail. *)
Definition reader (io : bool) (c : Content) : result StoreError bytes :=
  match ct_storage c with
  | Memory data => Ok data
  | Disk file => if io then Ok file else Err SE_Io
  end.

(** The loop of [equals] over 64 KiB chunks, and the check that both ended. *)
Fixpoint equals_loop (turns : nat) (lhs rhs : bytes) (remaining : Z) : result StoreError bool :=
  match turns with
  | O => if bool_decide (lhs = []) && bool_decide (rhs = []) then Ok true else Err SE_Io
  | S turns =>
      let chunk := Z.min remaining 65536 in
      if (len lhs <? chunk) || (len rhs <? chunk) then Err SE_Io
      else if negb (bool_decide (take (Z.to_nat chunk) lhs = take (Z.to_nat chunk) rhs))
      then Ok false
      else equals_loop turns (drop (Z.to_nat chunk) lhs) (drop (Z.to_nat chunk) rhs)
             (remaining - chunk)
  end.

(** The loop runs while [remaining > 0]: as often as there are chunks. *)
Definition equals_turns (remaining : Z) : nat := Z.to_nat ((remaining + 65535) / 65536).

Definition equals (io : bool) (a b : Content) : result StoreError bool :=
  if negb (ct_length a =? ct_length b) then Ok false
  else
    match ct_storage a, ct_storage b with
    | Memory lhs, Memory rhs => Ok (bool_decide (lhs = rhs))
    | _, _ =>
        lhs ← reader io a;
        rhs ← reader io b;
        equals_loop (equals_turns (ct_length a)) lhs rhs (ct_length a)
    end.

Section Hash.
Context (hash : bytes -> ContentId).

Definition digest (io : bool) (c : Content) : result StoreError ContentId :=
  match ct_storage c with
  | Memory data => Ok (hash data)
  | Disk file =>
      if negb io then Err SE_Io
      else if len file =? ct_length c then Ok (hash file)
      else Err SE_Io
  end.

(** ** retain *)

Definition prepare_bytes (io : bool) (data : bytes) : result StoreError PendingContent :=
  let length := len data in
  storage ← (if len data <=? DEFAULT_CAPTURE_MEMORY_BYTES then Ok (Memory data)
             else if io then Ok (Disk data) else Err SE_Io);
  Ok (mkPending (Some (hash data)) (Some (mkContent length storage)) None).

Definition reservation_bytes (r : option StoreReservation) : Z :=
  match r with Some r => sr_bytes r | None => 0 end.

(** The check of each value against this store. *)
Fixpoint check_reservations (store : nat) (pending : list PendingContent) : result StoreError unit :=
  match pending with
  | [] => Ok tt
  | value :: pending =>
      content ← ok_or (pc_content value) SE_Invariant;
      if match pc_reservation value with
         | Some r => negb (sr_store r =? store)%nat || (ct_length content <? sr_bytes r)
         | None => false
         end
      then Err SE_ReservationMismatch
      else check_reservations store pending
  end.

(** The identity of a value, computed when it is not known yet. *)
Definition value_id (io : bool) (value : PendingContent) : result StoreError ContentId :=
  match pc_content_id value with
  | Some id => Ok id
  | None => content ← ok_or (pc_content value) SE_Invariant; digest io content
  end.

Fixpoint reserved_total (total : Z) (pending : list PendingContent) : result StoreError Z :=
  match pending with
  | [] => Ok total
  | value :: pending =>
      total ← ok_or (checked_add u64_max total (reservation_bytes (pc_reservation value)))
                SE_ContentTooLarge;
      reserved_total total pending
  end.

Inductive Placement : Type := Existing (alias : Z) | New (first : nat).

(** The first loop: where each value goes, the first occurrences of new content
    and their total length. *)
Fixpoint place_loop (io : bool) (state : State) (pending : list PendingContent) (index : nat)
    (rest : list (PendingContent * ContentId)) (first_new : gmap ContentId nat) (incoming : Z)
    : result StoreError (list Placement * gmap ContentId nat * Z) :=
  match rest with
  | [] => Ok ([], first_new, incoming)
  | (value, content_id) :: rest =>
      content ← ok_or (pc_content value) SE_Invariant;
      match st_by_content state !! content_id with
      | Some alias =>
          existing ← ok_or (st_by_alias state !! alias) SE_Invariant;
          same ← equals io (en_content existing) content;
          if negb same then Err SE_DigestCollision
          else
            '(placements, first_new, incoming) ←
              place_loop io state pending (S index) rest first_new incoming;
            Ok (Existing alias :: placements, first_new, incoming)
      | None =>
          match first_new !! content_id with
          | Some first =>
              first_content ← ok_or (pending !! first ≫= pc_content) SE_Invariant;
              same ← equals io first_content content;
              if negb same then Err SE_DigestCollision
              else
                '(placements, first_new, incoming) ←
                  place_loop io state pending (S index) rest first_new incoming;
                Ok (New first :: placements, first_new, incoming)
          | None =>
              incoming ← ok_or (checked_add u64_max incoming (ct_length content)) SE_ContentTooLarge;
              '(placements, first_new, incoming) ←
                place_loop io state pending (S index) rest (<[content_id := index]> first_new) incoming;
              Ok (New index :: placements, first_new, incoming)
          end
      end
  end.

(** The second loop: aliases are handed out in input order. *)
Fixpoint commit_loop (index : nat) (rest : list (Placement * (PendingContent * ContentId)))
    (allocated : gmap nat Z) (alias : Z) (by_alias : gmap Z Entry) (by_content : gmap ContentId Z)
    : result StoreError (list Z * Z * gmap Z Entry * gmap ContentId Z) :=
  match rest with
  | [] => Ok ([], alias, by_alias, by_content)
  | (placement, (value, content_id)) :: rest =>
      match placement with
      | Existing existing =>
          '(aliases, alias, by_alias, by_content) ←
            commit_loop (S index) rest allocated alias by_alias by_content;
          Ok (existing :: aliases, alias, by_alias, by_content)
      | New first =>
          if negb (first =? index)%nat then
            known ← ok_or (allocated !! first) SE_Invariant;
            '(aliases, alias, by_alias, by_content) ←
              commit_loop (S index) rest allocated alias by_alias by_content;
            Ok (known :: aliases, alias, by_alias, by_content)
          else
            content ← ok_or (pc_content value) SE_Invariant;
            next ← ok_or (checked_add u64_max alias 1) SE_Invariant;
            '(aliases, last, by_alias, by_content) ←
              commit_loop (S index) rest (<[index := alias]> allocated) next
                (<[alias := mkEntry content_id content 0]> by_alias)
                (<[content_id := alias]> by_content);
            Ok (alias :: aliases, last, by_alias, by_content)
      end
  end.

(** The critical section of [retain_pending] and what precedes it. *)
Definition retain_pending (io : bool) (store : nat) (l : StoreLimits) (pending : list PendingContent)
    (state : State) : result StoreError (list Z * State) :=
  if bool_decide (pending = []) then Ok ([], state)
  else
    _ ← check_reservations store pending;
    content_ids ← mapM (value_id io) pending;
    reserved ← reserved_total 0 pending;
    pending_after ← (if st_pending_bytes state <? reserved then Err SE_Invariant
                     else Ok (st_pending_bytes state - reserved));
    '(placements, first_new, incoming) ←
      place_loop io state pending 0 (zip pending content_ids) ∅ 0;
    current ← ok_or (checked_add u64_max (st_bytes state) pending_after) SE_ContentTooLarge;
    total ← ok_or (checked_add u64_max current incoming) SE_ContentTooLarge;
    if sl_max_bytes l <? total then Err (SE_ByteQuota current incoming (sl_max_bytes l))
    else
      let new_entries := Z.of_nat (size first_new) in
      if sl_max_entries l
         <? saturating_add usize_max (Z.of_nat (size (st_by_alias state))) new_entries
      then Err (SE_EntryQuota (sl_max_entries l))
      else
        next_alias ← ok_or (checked_add u64_max (st_next_alias state) new_entries) SE_AliasExhausted;
        '(aliases, alias, by_alias, by_content) ←
          commit_loop 0 (zip placements (zip pending content_ids)) ∅ (st_next_alias state)
            (st_by_alias state) (st_by_content state);
        if negb (alias =? next_alias) then Err SE_Invariant
        else
          bytes ← ok_or (checked_add u64_max (st_bytes state) incoming) SE_Invariant;
          Ok (aliases, mkState next_alias bytes pending_after by_alias by_content).

Definition retain_many (io : bool) (store : nat) (l : StoreLimits) (contents : list bytes)
    (state : State) : result StoreError (list Z * State) :=
  pending ← mapM (prepare_bytes io) contents;
  retain_pending io store l pending state.

Definition retain (io : bool) (store : nat) (l : StoreLimits) (data : bytes) (state : State)
    : result StoreError (Z * State) :=
  '(aliases, state) ← retain_many io store l [data] state;
  alias ← ok_or (head aliases) SE_Invariant;
  Ok (alias, state).
End Hash.

(** ** Aliases *)

Definition with_entry (state : State) (alias : Z) (e : Entry) : State :=
  mkState (st_next_alias state) (st_bytes state) (st_pending_bytes state)
    (<[alias := e]> (st_by_alias state)) (st_by_content state).

(** [get]: the lease shares the entry's content. *)
Definition get (alias : Z) (state : State) : result StoreError (Content * State) :=
  e ← ok_or (st_by_alias state !! alias) (SE_UnknownAlias alias);
  Ok (en_content e,
      with_entry state alias (mkEntry (en_content_id e) (en_content e) (S (en_leases e)))).

(** [Drop] of a lease. *)
Definition drop_lease (alias : Z) (state : State) : State :=
  match st_by_alias state !! alias with
  | Some e => with_entry state alias (mkEntry (en_content_id e) (en_content e) (pred (en_leases e)))
  | None => state
  end.

Definition content_id (alias : Z) (state : State) : result StoreError ContentId :=
  e ← ok_or (st_by_alias state !! alias) (SE_UnknownAlias alias);
  Ok (en_content_id e).

(** [Arc::strong_count] is one more than the leases. *)
Definition release (alias : Z) (state : State) : result StoreError State :=
  e ← ok_or (st_by_alias state !! alias) (SE_UnknownAlias alias);
  if negb (S (en_leases e) =? 1)%nat then Err (SE_InUse alias)
  else if st_bytes state <? ct_length (en_content e) then Err SE_Invariant
  else
    Ok (mkState (st_next_alias state) (st_bytes state - ct_length (en_content e))
          (st_pending_bytes state) (delete alias (st_by_alias state))
          (delete (en_content_id e) (st_by_content state))).

Definition usage (state : State) : StoreUsage :=
  mkUsage (st_bytes state) (Z.of_nat (size (st_by_alias state))).

Definition read_all (io : bool) (c : Content) (max_bytes : Z) : result StoreError bytes :=
  if max_bytes <? ct_length c then Err (SE_ReadLimit (ct_length c) max_bytes)
  else
    match ct_storage c with
    | Memory data => Ok data
    | Disk file =>
        if negb io then Err SE_Io
        else
          limit ← ok_or (checked_add u64_max (ct_length c) 1) SE_ContentTooLarge;
          let read := take (Z.to_nat limit) file in
          if len read =? ct_length c then Ok read else Err SE_Io
    end.

(** [None] is the panic of a slice out of range. *)
Definition read_range (io : bool) (c : Content) (offset length max_bytes : Z)
    : option (result StoreError bytes) :=
  if max_bytes <? length then Some (Err (SE_ReadLimit length max_bytes))
  else
    let start := Z.min offset (ct_length c) in
    let actual := Z.min length (saturating_sub (ct_length c) start) in
    match ct_storage c with
    | Memory data =>
        if len data <? start + actual then None
        else Some (Ok (take (Z.to_nat actual) (drop (Z.to_nat start) data)))
    | Disk file =>
        if negb io then Some (Err SE_Io)
        else if len (drop (Z.to_nat start) file) <? actual then Some (Err SE_Io)
        else Some (Ok (take (Z.to_nat actual) (drop (Z.to_nat start) file)))
    end.

(** ** Reservations *)

Definition reserve_u64 (l : StoreLimits) (incoming : Z) (r : StoreReservation) (state : State)
    : result StoreError (StoreReservation * State) :=
  if incoming =? 0 then Ok (r, state)
  else
    reservation_total ← ok_or (checked_add u64_max (sr_bytes r) incoming) SE_ContentTooLarge;
    current ← ok_or (checked_add u64_max (st_bytes state) (st_pending_bytes state)) SE_ContentTooLarge;
    total ← ok_or (checked_add u64_max current incoming) SE_ContentTooLarge;
    if sl_max_bytes l <? total then Err (SE_ByteQuota current incoming (sl_max_bytes l))
    else
      pending_bytes ← ok_or (checked_add u64_max (st_pending_bytes state) incoming) SE_Invariant;
      Ok (mkReservation (sr_store r) reservation_total,
          mkState (st_next_alias state) (st_bytes state) pending_bytes (st_by_alias state)
            (st_by_content state)).

Definition drop_reservation (r : StoreReservation) (state : State) : State :=
  if sr_bytes r =? 0 then state
  else mkState (st_next_alias state) (st_bytes state)
         (saturating_sub (st_pending_bytes state) (sr_bytes r)) (st_by_alias state)
         (st_by_content state).

(** ** The accounting and the atomicity of the store

    The invariant of the state behind the mutex, the one-pass reference of
    [retain_pending], and that the two loops of the source implement it. *)

(** ** Sums over the entries *)

Definition entry_length (kv : Z * Entry) : Z := ct_length (en_content kv.2).
Definition entries_bytes (m : gmap Z Entry) : Z := zsum entry_length (map_to_list m).

Lemma entries_bytes_insert m alias e :
  m !! alias = None -> entries_bytes (<[alias := e]> m) = entries_bytes m + ct_length (en_content e).
Proof.
  intros Hn. unfold entries_bytes.
  rewrite (zsum_Permutation _ _ _ (map_to_list_insert m alias e Hn)), zsum_cons.
  unfold entry_length at 1. simpl. lia.
Qed.

Lemma entries_bytes_delete m alias e :
  m !! alias = Some e -> entries_bytes (delete alias m) = entries_bytes m - ct_length (en_content e).
Proof.
  intros He. rewrite <- (insert_delete_id m alias e He) at 2.
  rewrite entries_bytes_insert by apply lookup_delete_eq. lia.
Qed.

Lemma entries_bytes_replace m alias e e' :
  m !! alias = Some e -> en_content e' = en_content e ->
  entries_bytes (<[alias := e']> m) = entries_bytes m.
Proof.
  intros He Hc. rewrite <- insert_delete_eq, entries_bytes_insert by apply lookup_delete_eq.
  rewrite (entries_bytes_delete _ _ _ He), Hc. lia.
Qed.

(** ** The invariant *)

Section Facts.
Context (hash : bytes -> list Z).

(** A content's length is that of its bytes. *)
Definition content_ok (c : Content) : Prop := len (storage_bytes (ct_storage c)) = ct_length c.

(** Aliases and identities are in bijection, and aliases were handed out. *)
Record tables_ok (next : Z) (by_alias : gmap Z Entry) (by_content : gmap (list Z) Z) : Prop := {
  to_alias : forall alias e, by_alias !! alias = Some e ->
    1 <= alias < next /\ by_content !! en_content_id e = Some alias;
  to_content : forall id alias, by_content !! id = Some alias ->
    exists e, by_alias !! alias = Some e /\ en_content_id e = id;
  to_entries : forall alias e, by_alias !! alias = Some e ->
    content_ok (en_content e)
    /\ en_content_id e = hash (storage_bytes (ct_storage (en_content e)));
}.

Record state_ok (l : StoreLimits) (state : State) : Prop := {
  ok_tables : tables_ok (st_next_alias state) (st_by_alias state) (st_by_content state);
  ok_bytes : st_bytes state = entries_bytes (st_by_alias state);
  ok_pending : 0 <= st_pending_bytes state;
  ok_quota : st_bytes state + st_pending_bytes state <= sl_max_bytes l;
  ok_entries : Z.of_nat (size (st_by_alias state)) <= sl_max_entries l;
  ok_next : 1 <= st_next_alias state <= u64_max;
}.

(** What a value in [pending] is, when its maker upholds the capture's invariant:
    its length and identity are those of its bytes, or its charge is above its
    length and the store refuses it. *)
Record pending_ok (store : nat) (value : PendingContent) : Prop := {
  pk_content : exists c, pc_content value = Some c
    /\ (content_ok c \/ exists r, pc_reservation value = Some r /\ ct_length c < sr_bytes r);
  pk_id : forall id c, pc_content_id value = Some id -> pc_content value = Some c ->
    content_ok c /\ id = hash (storage_bytes (ct_storage c));
  pk_reserved : 0 <= reservation_bytes (pc_reservation value);
}.

Definition value_ok (value : PendingContent) (id : list Z) (c : Content) : Prop :=
  pc_content value = Some c /\ content_ok c /\ id = hash (storage_bytes (ct_storage c)).

Lemma content_ok_nonneg c : content_ok c -> 0 <= ct_length c.
Proof. intros <-. apply len_nonneg. Qed.

Lemma entries_lengths next by_alias by_content :
  tables_ok next by_alias by_content ->
  Forall (fun kv => 0 <= entry_length kv) (map_to_list by_alias).
Proof.
  intros [_ _ He]. apply list.Forall_forall. intros [alias e] Hin%elem_of_map_to_list.
  apply content_ok_nonneg. by apply (He alias e).
Qed.

(** An entry is within the total. *)
Lemma entry_length_le next by_alias by_content alias e :
  tables_ok next by_alias by_content -> by_alias !! alias = Some e ->
  ct_length (en_content e) <= entries_bytes by_alias.
Proof.
  intros Ht He%elem_of_map_to_list. apply entries_lengths in Ht. unfold entries_bytes.
  change (entry_length (alias, e) <= zsum entry_length (map_to_list by_alias)).
  induction Ht as [|kv kvs Hkv HF IH]; [by apply elem_of_nil in He|]. rewrite zsum_cons.
  assert (0 <= zsum entry_length kvs).
  { clear -HF. induction HF; rewrite ?zsum_nil, ?zsum_cons; lia. }
  apply elem_of_cons in He as [<-|He]; [lia|]. specialize (IH He). lia.
Qed.

Lemma ResultStore_new_ok l state :
  0 <= sl_max_bytes l -> 0 <= sl_max_entries l ->
  ResultStore_new l = Ok state -> state_ok l state.
Proof.
  intros Hb Hn. unfold ResultStore_new. destruct (_ || _); [done|]. intros [= <-].
  by split; simpl; [split| | | | |].
Qed.

(** ** Comparing contents *)

Lemma equals_loop_spec turns : forall lhs rhs remaining,
  len lhs = remaining -> len rhs = remaining ->
  (remaining + 65535) / 65536 = Z.of_nat turns ->
  equals_loop turns lhs rhs remaining = Ok (bool_decide (lhs = rhs)).
Proof.
  induction turns as [|turns IH]; intros lhs rhs remaining Hl Hr Ht; simpl.
  - assert (remaining = 0) as -> by (pose proof (len_nonneg lhs); Z.to_euclidean_division_equations; lia).
    destruct lhs; [|unfold len in Hl; simpl in Hl; lia].
    destruct rhs; [done|unfold len in Hr; simpl in Hr; lia].
  - assert (0 < remaining) as Hpos by (Z.to_euclidean_division_equations; lia).
    set (chunk := Z.min remaining 65536).
    assert (0 < chunk <= remaining) as Hc by (unfold chunk; lia).
    destruct (Z.ltb_spec (len lhs) chunk); [lia|].
    destruct (Z.ltb_spec (len rhs) chunk); [lia|]. simpl.
    destruct (decide (take (Z.to_nat chunk) lhs = take (Z.to_nat chunk) rhs)) as [He|Hne].
    + rewrite (bool_decide_eq_true_2 _ He). simpl. rewrite IH.
      * f_equal. apply bool_decide_ext. split; [|by intros ->].
        intros Hd. rewrite <- (take_drop (Z.to_nat chunk) lhs), He, Hd. apply take_drop.
      * unfold len in *. rewrite length_drop. lia.
      * unfold len in *. rewrite length_drop. lia.
      * unfold chunk. Z.to_euclidean_division_equations. lia.
    + rewrite (bool_decide_eq_false_2 _ Hne). simpl. f_equal. symmetry.
      apply bool_decide_eq_false_2. by intros ->.
Qed.

(** Contents of the right length are compared by their bytes. *)
Lemma equals_spec io a b r :
  content_ok a -> content_ok b -> equals io a b = Ok r ->
  r = bool_decide (storage_bytes (ct_storage a) = storage_bytes (ct_storage b)).
Proof.
  unfold content_ok, equals. intros Ha Hb. destruct (Z.eqb_spec (ct_length a) (ct_length b)) as [He|Hne]; simpl.
  - assert (forall x y, equals_loop (equals_turns (ct_length a)) x y (ct_length a) = Ok r ->
      x = storage_bytes (ct_storage a) -> y = storage_bytes (ct_storage b) ->
      r = bool_decide (storage_bytes (ct_storage a) = storage_bytes (ct_storage b))) as Hloop.
    { intros x y H -> ->. rewrite equals_loop_spec in H; [by injection H|done|by rewrite Hb, He|].
      unfold equals_turns. rewrite Z2Nat.id; [done|]. pose proof (content_ok_nonneg a Ha).
      apply Z.div_pos; lia. }
    unfold reader in *. destruct (ct_storage a), (ct_storage b); simpl in *; intros H.
    + by injection H.
    + destruct io; [by eapply Hloop|done].
    + destruct io; [by eapply Hloop|done].
    + destruct io; [by eapply Hloop|done].
  - intros [= <-]. symmetry. apply bool_decide_eq_false_2. intros Heq. apply Hne. congruence.
Qed.

Lemma equals_not_invariant io a b : equals io a b <> Err SE_Invariant.
Proof.
  unfold equals, reader. destruct (negb _); [done|].
  assert (forall turns x y n, equals_loop turns x y n <> Err SE_Invariant) as Hl.
  { induction turns as [|turns IH]; intros x y n; simpl; [by destruct (_ && _)|].
    destruct (_ || _); [done|]. by destruct (negb _). }
  destruct (ct_storage a), (ct_storage b), io; simpl; try done; apply Hl.
Qed.

(** ** The one-pass reference

    Items in input order: a known identity keeps its alias, a new one takes the
    next. *)

Fixpoint assign (items : list (list Z * Content)) (alias : Z) (by_alias : gmap Z Entry)
    (by_content : gmap (list Z) Z) : list Z * Z * gmap Z Entry * gmap (list Z) Z :=
  match items with
  | [] => ([], alias, by_alias, by_content)
  | (id, c) :: items =>
      match by_content !! id with
      | Some known =>
          let '(aliases, last, by_alias, by_content) := assign items alias by_alias by_content in
          (known :: aliases, last, by_alias, by_content)
      | None =>
          let '(aliases, last, by_alias, by_content) :=
            assign items (alias + 1) (<[alias := mkEntry id c 0]> by_alias)
              (<[id := alias]> by_content) in
          (alias :: aliases, last, by_alias, by_content)
      end
  end.

Definition item_ok (item : list Z * Content) : Prop :=
  content_ok item.2 /\ item.1 = hash (storage_bytes (ct_storage item.2)).

(** A new entry keeps the tables. *)
Lemma tables_insert next by_alias by_content id c :
  tables_ok next by_alias by_content -> 1 <= next -> item_ok (id, c) -> by_content !! id = None ->
  tables_ok (next + 1) (<[next := mkEntry id c 0]> by_alias) (<[id := next]> by_content).
Proof.
  intros [Ha Hc He] Hnext Hi Hn. split.
  - intros alias e [[<- <-]|[Hne Hlk]]%lookup_insert_Some; simpl.
    + split; [lia|]. apply lookup_insert_eq.
    + destruct (Ha _ _ Hlk) as [? Hid]. split; [lia|]. rewrite lookup_insert_ne; [done|].
      congruence.
  - intros id' alias [[<- <-]|[Hne Hlk]]%lookup_insert_Some.
    + exists (mkEntry id c 0). by rewrite lookup_insert_eq.
    + destruct (Hc _ _ Hlk) as (e & Hlk' & Hid). exists e. split; [|done].
      destruct (Ha _ _ Hlk'). rewrite lookup_insert_ne; [done|lia].
  - intros alias e [[<- <-]|[Hne Hlk]]%lookup_insert_Some; [exact Hi|by eapply He].
Qed.

Lemma tables_fresh next by_alias by_content alias :
  tables_ok next by_alias by_content -> next <= alias -> by_alias !! alias = None.
Proof.
  intros [Ha _ _] Hle. destruct (by_alias !! alias) as [e|] eqn:E; [|done].
  destruct (Ha _ _ E). lia.
Qed.

Lemma assign_spec items : forall alias by_alias by_content aliases last by_alias' by_content',
  assign items alias by_alias by_content = (aliases, last, by_alias', by_content') ->
  tables_ok alias by_alias by_content -> 1 <= alias -> Forall item_ok items ->
  tables_ok last by_alias' by_content' /\ alias <= last
  /\ by_alias ⊆ by_alias' /\ by_content ⊆ by_content'
  /\ Forall2 (fun item a => by_content' !! item.1 = Some a) items aliases
  /\ (forall a e, by_alias' !! a = Some e -> by_alias !! a = Some e
       \/ alias <= a /\ (en_content_id e, en_content e) ∈ items).
Proof.
  induction items as [|[id c] items IH]; intros alias by_alias by_content aliases last ba bc H Ht H1 HF;
    simpl in H.
  - injection H as <- <- <- <-. split_and!; auto; done.
  - apply list.Forall_cons in HF as [Hi HF]. destruct (by_content !! id) as [known|] eqn:Hk.
    + destruct (assign items _ _ _) as [[[as_ last'] ba'] bc'] eqn:Ha. injection H as <- <- <- <-.
      destruct (IH _ _ _ _ _ _ _ Ha Ht H1 HF) as (? & ? & ? & Hbc & ? & Hold). split_and!; try done.
      * constructor; [|done]. simpl. by eapply lookup_weaken.
      * intros a e Hae. destruct (Hold a e Hae) as [?|[? ?]]; [by left|right]. split; [done|by right].
    + destruct (assign items _ _ _) as [[[as_ last'] ba'] bc'] eqn:Ha. injection H as <- <- <- <-.
      pose proof (tables_insert _ _ _ _ _ Ht H1 Hi Hk) as Ht'.
      destruct (IH _ _ _ _ _ _ _ Ha Ht' ltac:(lia) HF) as (? & ? & Hba & Hbc & ? & Hold).
      split_and!; try done; try lia.
      * etrans; [|exact Hba]. apply insert_subseteq. eapply tables_fresh; [exact Ht|lia].
      * etrans; [|exact Hbc]. by apply insert_subseteq.
      * constructor; [|done]. simpl. eapply lookup_weaken; [apply lookup_insert_eq|exact Hbc].
      * intros a e Hae. destruct (Hold a e Hae) as [[[<- <-]|[_ ?]]%lookup_insert_Some|[? ?]]; auto.
        -- right. split; [lia|by left].
        -- right. split; [lia|by right].
Qed.

(** ** The two loops implement the reference *)

Section Loops.
Context (io : bool) (state : State) (pending : list PendingContent).

Definition rel_item (value : PendingContent * list Z) (item : list Z * Content) : Prop :=
  value.2 = item.1 /\ pc_content value.1 = Some item.2.

Lemma place_commit rest : forall items index first_new incoming allocated alias by_alias by_content
    placements first_new' incoming',
  Forall2 rel_item rest items ->
  (forall id, by_content !! id = match st_by_content state !! id with
                                 | Some a => Some a
                                 | None => first_new !! id ≫= fun f => allocated !! f
                                 end) ->
  (forall id f, first_new !! id = Some f -> (f < index)%nat /\ is_Some (allocated !! f)) ->
  (forall a, alias <= a -> by_alias !! a = None) ->
  place_loop io state pending index rest first_new incoming = Ok (placements, first_new', incoming') ->
  let n := Z.of_nat (size first_new') - Z.of_nat (size first_new) in
  0 <= n
  /\ (alias + n <= u64_max ->
      let '(aliases, last, by_alias', by_content') := assign items alias by_alias by_content in
      commit_loop index (zip placements rest) allocated alias by_alias by_content
        = Ok (aliases, last, by_alias', by_content')
      /\ last = alias + n
      /\ Z.of_nat (size by_alias') = Z.of_nat (size by_alias) + n
      /\ entries_bytes by_alias' = entries_bytes by_alias + (incoming' - incoming)).
Proof.
  induction rest as [|[value id] rest IH]; intros items index first_new incoming allocated alias
    by_alias by_content placements first_new' incoming' HF Hbc Hfn Hfresh H; simpl in H.
  { injection H as <- <- <-. apply Forall2_nil_inv_l in HF as ->. simpl. split; [lia|].
    intros _. split_and!; [done|lia..]. }
  apply Forall2_cons_inv_l in HF as ([id' c] & items' & [Hid Hc] & HF & ->). simpl in Hid, Hc. subst id'.
  rewrite Hc in H. simpl in H. simpl. rewrite (Hbc id).
  assert (forall id f, first_new !! id = Some f -> (f < S index)%nat /\ is_Some (allocated !! f)) as Hfn'
    by (intros id0 f Hf; destruct (Hfn id0 f Hf); split; [lia|done]).
  destruct (st_by_content state !! id) as [known|] eqn:Hknown.
  - destruct (st_by_alias state !! known) as [e|]; [|done]. simpl in H.
    destruct (equals io _ _) as [[]|]; try done. simpl in H. inv_ok.
    match goal with x : (list Placement * _ * _)%type |- _ => destruct x as [[pls fn] inc] end.
    injection H as <- <- <-.
    match goal with H : place_loop _ _ _ _ _ _ _ = _ |- _ =>
      destruct (IH _ _ _ _ _ _ _ _ _ _ _ HF Hbc Hfn' Hfresh H) as [Hn Hrest] end.
    split; [done|]. intros Hle. specialize (Hrest Hle).
    destruct (assign items' _ _ _) as [[[as_ last] ba] bc]. destruct Hrest as (Hcm & ? & ? & ?).
    simpl. rewrite Hcm. simpl. done.
  - destruct (first_new !! id) as [first|] eqn:Hfirst.
    + destruct (Hfn _ _ Hfirst) as [Hlt [a Ha]]. simpl. rewrite Ha.
      destruct (pending !! first ≫= pc_content) as [c0|]; [|done]. simpl in H.
      destruct (equals io _ _) as [[]|]; try done. simpl in H. inv_ok.
      match goal with x : (list Placement * _ * _)%type |- _ => destruct x as [[pls fn] inc] end.
      injection H as <- <- <-.
      match goal with H : place_loop _ _ _ _ _ _ _ = _ |- _ =>
        destruct (IH _ _ _ _ _ _ _ _ _ _ _ HF Hbc Hfn' Hfresh H) as [Hn Hrest] end.
      split; [done|]. intros Hle. specialize (Hrest Hle).
      destruct (assign items' _ _ _) as [[[as_ last] ba] bc]. destruct Hrest as (Hcm & ? & ? & ?).
      simpl. destruct (Nat.eqb_spec first index); [lia|]. simpl. rewrite Ha. simpl. rewrite Hcm. done.
    + simpl. inv_ok.
      match goal with x : (list Placement * _ * _)%type |- _ => destruct x as [[pls fn] inc] end.
      injection H as <- <- <-.
      match goal with H : checked_add _ _ _ = _ |- _ => apply checked_add_Some in H as [-> _] end.
      match goal with H : place_loop _ _ _ _ _ _ _ = _ |- _ => rename H into Hpl end.
      destruct (IH items' (S index) (<[id := index]> first_new) (incoming + ct_length c)
        (<[index := alias]> allocated) (alias + 1) (<[alias := mkEntry id c 0]> by_alias)
        (<[id := alias]> by_content) pls fn inc) as [Hn Hrest];
        [exact HF| | | |exact Hpl|].
      * intros id'. destruct (decide (id' = id)) as [->|Hne].
        -- rewrite lookup_insert_eq, Hknown, lookup_insert_eq. simpl. by rewrite lookup_insert_eq.
        -- rewrite !lookup_insert_ne, (Hbc id') by done.
           destruct (st_by_content state !! id'); [done|].
           destruct (first_new !! id') as [f|] eqn:Hf; [|done]. simpl.
           destruct (Hfn _ _ Hf). rewrite lookup_insert_ne by lia. done.
      * intros id' f [[<- <-]|[Hne Hf]]%lookup_insert_Some.
        -- split; [lia|]. rewrite lookup_insert_eq. by eexists.
        -- destruct (Hfn _ _ Hf). rewrite lookup_insert_ne by lia. split; [lia|done].
      * intros a Ha. rewrite lookup_insert_ne by lia. apply Hfresh. lia.
      * rewrite map_size_insert_None in Hn, Hrest by done. split; [lia|]. intros Hle.
        specialize (Hrest ltac:(lia)).
        destruct (assign items' _ _ _) as [[[as_ last] ba] bc]. destruct Hrest as (Hcm & Hlast & Hs & Hb).
        rewrite map_size_insert_None in Hs by (apply Hfresh; lia).
        rewrite entries_bytes_insert in Hb by (apply Hfresh; lia). simpl in Hb.
        simpl. rewrite Nat.eqb_refl. simpl. rewrite Hc. simpl.
        assert (checked_add u64_max alias 1 = Some (alias + 1)) as ->
          by (apply checked_add_Some; lia).
        simpl. rewrite Hcm. simpl. split_and!; [done|lia..].
Qed.
End Loops.

(** ** retain_pending *)

Definition reserved (value : PendingContent) : Z := reservation_bytes (pc_reservation value).

Lemma reserved_total_spec pending : forall total t,
  reserved_total total pending = Ok t -> t = total + zsum reserved pending.
Proof.
  induction pending as [|value pending IH]; intros total t H; simpl in H.
  - injection H as <-. rewrite zsum_nil. lia.
  - inv_ok. match goal with H : checked_add _ _ _ = _ |- _ => apply checked_add_Some in H as [-> _] end.
    apply IH in H. rewrite zsum_cons. unfold reserved at 1. lia.
Qed.

Lemma check_reservations_spec store pending :
  Forall (pending_ok store) pending -> check_reservations store pending = Ok tt ->
  Forall (fun value => exists c, pc_content value = Some c /\ content_ok c) pending.
Proof.
  induction pending as [|value pending IH]; intros HF H; [constructor|]. simpl in H.
  apply list.Forall_cons in HF as [[(c & Hc & Hok) _ _] HF]. rewrite Hc in H. simpl in H.
  destruct (match pc_reservation value with Some _ => _ | None => _ end) eqn:E; [done|].
  constructor; [|by apply IH]. exists c. split; [done|].
  destruct Hok as [?|(r & Hr & Hlt)]; [done|]. rewrite Hr in E.
  apply orb_false_iff in E as [_ E%Z.ltb_ge]. lia.
Qed.

Lemma value_id_spec io store value id c :
  pending_ok store value -> pc_content value = Some c -> content_ok c ->
  value_id hash io value = Ok id -> item_ok (id, c).
Proof.
  intros [_ Hid _] Hc Hok H. split; [done|]. simpl. unfold value_id in H.
  destruct (pc_content_id value) as [known|] eqn:Hk.
  - injection H as <-. by destruct (Hid _ _ eq_refl Hc).
  - rewrite Hc in H. simpl in H. unfold digest in H. unfold content_ok in Hok.
    destruct (ct_storage c) as [data|file]; simpl in *; [by injection H|].
    destruct io; [|done]. simpl in H. rewrite Hok, Z.eqb_refl in H. by injection H.
Qed.

(** The items of a batch that passed the checks. *)
Lemma batch_items io store pending ids :
  Forall (pending_ok store) pending -> check_reservations store pending = Ok tt ->
  mapM (value_id hash io) pending = Ok ids ->
  exists items, Forall2 rel_item (zip pending ids) items /\ Forall item_ok items
    /\ Forall2 (fun value item => pc_content value = Some item.2) pending items.
Proof.
  intros HF Hck%check_reservations_spec; [|done]. intros Hids%mapM_ok.
  revert HF Hck. induction Hids as [|value id pending ids Hid _ IH]; intros HF Hck.
  { exists []. split_and!; constructor. }
  apply list.Forall_cons in HF as [Hv HF]. apply list.Forall_cons in Hck as [(c & Hc & Hok) Hck].
  destruct (IH HF Hck) as (items & H1 & H2 & H3). exists ((id, c) :: items).
  split_and!; [constructor; done| |by constructor].
  constructor; [by eapply value_id_spec|done].
Qed.

Lemma retain_pending_spec io store l pending state aliases state' :
  state_ok l state -> sl_max_entries l < u64_max -> Forall (pending_ok store) pending ->
  retain_pending hash io store l pending state = Ok (aliases, state') ->
  state_ok l state'
  /\ st_pending_bytes state' = st_pending_bytes state - zsum reserved pending
  /\ exists items,
       Forall2 (fun value item => pc_content value = Some item.2) pending items
       /\ Forall item_ok items
       /\ assign items (st_next_alias state) (st_by_alias state) (st_by_content state)
          = (aliases, st_next_alias state', st_by_alias state', st_by_content state').
Proof.
  intros Hst Hmax HF H. unfold retain_pending in H. case_bool_decide as Hnil.
  { subst pending. injection H as <- <-. rewrite zsum_nil. split; [done|]. split; [lia|].
    exists []. split_and!; by try constructor. }
  apply bind_ok in H as ([] & Hck & H). apply bind_ok in H as (ids & Hids & H).
  apply bind_ok in H as (res & Hres & H). apply bind_ok in H as (after & Hafter & H).
  apply bind_ok in H as ([[pls fn] inc] & Hpl & H).
  apply bind_ok in H as (current & Hcur%ok_or_ok & H). apply bind_ok in H as (total & Htot%ok_or_ok & H).
  destruct (Z.ltb_spec (sl_max_bytes l) total) as [|Hq]; [done|].
  destruct (Z.ltb_spec (sl_max_entries l) (saturating_add usize_max
    (Z.of_nat (size (st_by_alias state))) (Z.of_nat (size fn)))) as [|He]; [done|].
  apply bind_ok in H as (next & Hnext%ok_or_ok & H).
  apply checked_add_Some in Hcur as [-> _], Htot as [-> _], Hnext as [-> Hnext].
  apply reserved_total_spec in Hres. rewrite Z.add_0_l in Hres. subst res.
  destruct (Z.ltb_spec (st_pending_bytes state) (zsum reserved pending)) as [|Hle]; [done|].
  injection Hafter as <-.
  destruct (batch_items _ _ _ _ HF Hck Hids) as (items & Hrel & Hitems & Hc).
  pose proof (ok_tables _ _ Hst) as Htab.
  edestruct (place_commit io state pending (zip pending ids) items 0 ∅ 0 ∅ (st_next_alias state)
    (st_by_alias state) (st_by_content state)) as [Hn Hrest]; [exact Hrel| | | |exact Hpl|].
  { intros id. rewrite lookup_empty. simpl. by destruct (_ !! id). }
  { done. }
  { intros a Ha. by eapply tables_fresh. }
  rewrite map_size_empty in Hn, Hrest. specialize (Hrest ltac:(lia)).
  destruct (assign items _ _ _) as [[[as_ last] ba] bc] eqn:Ha.
  destruct Hrest as (Hcm & -> & Hsize & Hbytes). rewrite Hcm in H. simpl in H.
  replace (st_next_alias state + (Z.of_nat (size fn) - Z.of_nat 0)) with
    (st_next_alias state + Z.of_nat (size fn)) in * by lia.
  rewrite Z.eqb_refl in H. simpl in H. apply bind_ok in H as (bytes & Hb%ok_or_ok & H).
  apply checked_add_Some in Hb as [-> _]. injection H as <- <-. simpl.
  destruct (assign_spec _ _ _ _ _ _ _ _ Ha Htab (proj1 (ok_next _ _ Hst)) Hitems) as (Htab' & Hlast & _).
  split; [|split; [done|]].
  - split; simpl; [done| |lia|lia| |pose proof (ok_next _ _ Hst); lia].
    + rewrite (ok_bytes _ _ Hst). lia.
    + unfold saturating_add in He. lia.
  - exists items. by split_and!.
Qed.

(** ** The internal checks never fail *)

Lemma place_loop_sound io state pending next rest : forall index first_new incoming,
  tables_ok next (st_by_alias state) (st_by_content state) ->
  (forall k r, rest !! k = Some r ->
     pending !! (index + k)%nat = Some r.1 /\ is_Some (pc_content r.1)) ->
  (forall id f, first_new !! id = Some f -> is_Some (pending !! f ≫= pc_content)) ->
  place_loop io state pending index rest first_new incoming <> Err SE_Invariant.
Proof.
  induction rest as [|[value id] rest IH]; intros index first_new incoming Ht Hr Hf; [done|].
  destruct (Hr O _ eq_refl) as [Hp [c Hc]]. rewrite Nat.add_0_r in Hp. simpl in Hp, Hc.
  assert (forall k r, rest !! k = Some r ->
    pending !! (S index + k)%nat = Some r.1 /\ is_Some (pc_content r.1)) as Hr'.
  { intros k r Hk. rewrite Nat.add_succ_comm. by apply Hr. }
  simpl. rewrite Hc. simpl. destruct (st_by_content state !! id) as [known|] eqn:Hk.
  - destruct (to_content _ _ _ Ht _ _ Hk) as (e & -> & _). simpl.
    intros [He|([] & _ & He)]%bind_err; [by eapply equals_not_invariant| |done]. simpl in He.
    apply bind_err in He as [He|([[] ?] & _ & He)]; [by eapply IH|done].
  - destruct (first_new !! id) as [first|] eqn:Hfn.
    + destruct (Hf _ _ Hfn) as [c0 ->]. simpl.
      intros [He|([] & _ & He)]%bind_err; [by eapply equals_not_invariant| |done]. simpl in He.
      apply bind_err in He as [He|([[] ?] & _ & He)]; [by eapply IH|done].
    + intros [[_ ?]%ok_or_err|(n & _ & He)]%bind_err; [done|].
      apply bind_err in He as [He|([[] ?] & _ & He)]; [|done]. eapply IH; [exact Ht|exact Hr'| |exact He].
      intros id' f [[<- <-]|[_ ?]]%lookup_insert_Some; [|by eapply Hf]. rewrite Hp. by exists c.
Qed.

Lemma value_id_sound io store value : pending_ok store value -> value_id hash io value <> Err SE_Invariant.
Proof.
  intros [(c & Hc & _) _ _]. unfold value_id. destruct (pc_content_id value); [done|].
  rewrite Hc. simpl. unfold digest. destruct (ct_storage c); [done|].
  destruct io; [|done]. simpl. by destruct (_ =? _).
Qed.

Lemma check_reservations_sound store pending :
  Forall (pending_ok store) pending -> check_reservations store pending <> Err SE_Invariant.
Proof.
  induction 1 as [|value pending [(c & Hc & _) _ _] _ IH]; [done|]. simpl. rewrite Hc. simpl.
  by destruct (match pc_reservation value with Some _ => _ | None => _ end).
Qed.

Lemma retain_pending_sound io store l pending state :
  state_ok l state -> sl_max_bytes l <= u64_max -> Forall (pending_ok store) pending ->
  zsum reserved pending <= st_pending_bytes state ->
  retain_pending hash io store l pending state <> Err SE_Invariant.
Proof.
  intros Hst Hmax HF Hres H. unfold retain_pending in H. case_bool_decide; [done|].
  apply bind_err in H as [H|([] & Hck & H)]; [by eapply check_reservations_sound|].
  apply bind_err in H as [H|(ids & Hids & H)].
  { revert H. clear Hres Hck H0. induction HF as [|value pending Hv _ IH]; [done|]. simpl.
    intros [H|(id & _ & [H|(? & _ & ?)]%bind_err)]%bind_err; [by eapply value_id_sound|by apply IH|done]. }
  apply bind_err in H as [H|(res & Hr & H)].
  { revert H. generalize 0. clear. induction pending as [|value pending IH]; intros t; [done|]. simpl.
    intros [[_ ?]%ok_or_err|(? & _ & ?)]%bind_err; [done|by eapply IH]. }
  apply reserved_total_spec in Hr. rewrite Z.add_0_l in Hr. subst res.
  apply bind_err in H as [H|(after & Ha & H)].
  { destruct (Z.ltb_spec (st_pending_bytes state) (zsum reserved pending)); [lia|done]. }
  destruct (batch_items _ _ _ _ HF Hck Hids) as (items & Hrel & Hitems & Hc).
  apply bind_err in H as [H|([[pls fn] inc] & Hpl & H)].
  { revert H. eapply place_loop_sound; [apply (ok_tables _ _ Hst)| |done].
    intros k [value id] Hk. simpl. apply lookup_zip_with_Some in Hk as (v & i & [= -> ->] & Hv & _).
    split; [done|]. destruct (Forall2_lookup_l _ _ _ _ _ Hc Hv) as (item & _ & ->). by eexists. }
  apply bind_err in H as [[_ ?]%ok_or_err|(current & Hcur%ok_or_ok & H)]; [done|].
  apply bind_err in H as [[_ ?]%ok_or_err|(total & Htot%ok_or_ok & H)]; [done|].
  destruct (Z.ltb_spec (sl_max_bytes l) total) as [|Hq]; [done|].
  destruct (sl_max_entries l <? _); [done|].
  apply bind_err in H as [[_ ?]%ok_or_err|(next & Hnext%ok_or_ok & H)]; [done|].
  apply checked_add_Some in Hcur as [-> _], Htot as [-> _], Hnext as [-> Hnext].
  destruct (Z.ltb_spec (st_pending_bytes state) (zsum reserved pending)); [done|].
  injection Ha as <-.
  edestruct (place_commit io state pending (zip pending ids) items 0 ∅ 0 ∅ (st_next_alias state)
    (st_by_alias state) (st_by_content state)) as [Hn Hrest]; [exact Hrel| | | |exact Hpl|].
  { intros id. rewrite lookup_empty. simpl. by destruct (_ !! id). }
  { done. }
  { intros a Hle. eapply tables_fresh; [apply (ok_tables _ _ Hst)|done]. }
  rewrite map_size_empty in Hn, Hrest. specialize (Hrest ltac:(lia)).
  destruct (assign items _ _ _) as [[[as_ last] ba] bc] eqn:Ha.
  destruct Hrest as (Hcm & -> & Hsize & Hbytes). rewrite Hcm in H. simpl in H.
  replace (st_next_alias state + (Z.of_nat (size fn) - Z.of_nat 0)) with
    (st_next_alias state + Z.of_nat (size fn)) in H by lia.
  rewrite Z.eqb_refl in H. simpl in H.
  apply bind_err in H as [[Hb _]%ok_or_err|(? & _ & ?)]; [|done].
  unfold checked_add in Hb. destruct (Z.leb_spec (st_bytes state + inc) u64_max); [done|]. lia.
Qed.

(** ** Equal identities mean equal bytes *)

Definition same_bytes (c c' : Content) : Prop :=
  storage_bytes (ct_storage c) = storage_bytes (ct_storage c').

(** The comparisons of [place_loop]: an item with a known identity has the bytes of
    the entry, and an item with a new one those of its first occurrence. *)
Lemma place_loop_bytes io state pending next rest : forall items index first_new incoming
    placements first_new' incoming',
  tables_ok next (st_by_alias state) (st_by_content state) ->
  Forall2 rel_item rest items -> Forall item_ok items ->
  (forall k r, rest !! k = Some r -> pending !! (index + k)%nat = Some r.1) ->
  (forall id f c, first_new !! id = Some f -> pending !! f ≫= pc_content = Some c -> content_ok c) ->
  place_loop io state pending index rest first_new incoming = Ok (placements, first_new', incoming') ->
  first_new ⊆ first_new'
  /\ Forall (fun item =>
       match st_by_content state !! item.1 with
       | Some a => forall e, st_by_alias state !! a = Some e -> same_bytes (en_content e) item.2
       | None => exists f c, first_new' !! item.1 = Some f /\ pending !! f ≫= pc_content = Some c
                             /\ same_bytes c item.2
       end) items.
Proof.
  induction rest as [|[value id] rest IH]; intros items index first_new incoming placements
    first_new' incoming' Ht HF Hok Hp Hf H; simpl in H.
  { injection H as _ <- _. apply Forall2_nil_inv_l in HF as ->. split; [done|constructor]. }
  apply Forall2_cons_inv_l in HF as ([id' c] & items' & [Hid Hc] & HF & ->). simpl in Hid, Hc. subst id'.
  apply list.Forall_cons in Hok as [Hi Hok].
  assert (forall k r, rest !! k = Some r -> pending !! (S index + k)%nat = Some r.1) as Hp'.
  { intros k r Hk. rewrite Nat.add_succ_comm. by apply Hp. }
  rewrite Hc in H. simpl in H. destruct (st_by_content state !! id) as [known|] eqn:Hk.
  - destruct (to_content _ _ _ Ht _ _ Hk) as (e & He & _). rewrite He in H. simpl in H.
    apply bind_ok in H as (same & Heq & H). destruct same; [|done]. simpl in H.
    apply bind_ok in H as ([[pls fn] inc] & Hpl & H). injection H as <- <- <-.
    destruct (IH _ _ _ _ _ _ _ Ht HF Hok Hp' Hf Hpl) as [Hsub Hall]. split; [done|].
    constructor; [|done]. simpl. rewrite Hk. intros e' He'. rewrite He in He'. injection He' as <-.
    apply equals_spec in Heq; [|by apply (to_entries _ _ _ Ht _ _ He)|apply Hi].
    by symmetry in Heq; apply bool_decide_eq_true in Heq.
  - destruct (first_new !! id) as [first|] eqn:Hfn.
    + destruct (pending !! first ≫= pc_content) as [c0|] eqn:Hc0; [|done]. simpl in H.
      apply bind_ok in H as (same & Heq & H). destruct same; [|done]. simpl in H.
      apply bind_ok in H as ([[pls fn] inc] & Hpl & H). injection H as <- <- <-.
      destruct (IH _ _ _ _ _ _ _ Ht HF Hok Hp' Hf Hpl) as [Hsub Hall]. split; [done|].
      constructor; [|done]. simpl. rewrite Hk. exists first, c0.
      split; [by eapply lookup_weaken|]. split; [done|].
      apply equals_spec in Heq; [|by eapply Hf|apply Hi]. by symmetry in Heq; apply bool_decide_eq_true in Heq.
    + apply bind_ok in H as (inc1 & _ & H). apply bind_ok in H as ([[pls fn] inc] & Hpl & H).
      injection H as <- <- <-. pose proof (Hp O _ eq_refl) as Hp0. rewrite Nat.add_0_r in Hp0. simpl in Hp0.
      edestruct (IH items' (S index) (<[id := index]> first_new)) as [Hsub Hall];
        [exact Ht|exact HF|exact Hok|exact Hp'| |exact Hpl|].
      { intros id' f c' [[<- <-]|[_ Hid']]%lookup_insert_Some; [|by eapply Hf].
        rewrite Hp0. simpl. rewrite Hc. intros [= <-]. apply Hi. }
      split; [etrans; [by apply insert_subseteq|exact Hsub]|].
      constructor; [|done]. simpl. rewrite Hk. exists index, c.
      split; [eapply lookup_weaken; [apply lookup_insert_eq|exact Hsub]|]. rewrite Hp0. done.
Qed.

(** What is retained under an alias is the value it was returned for. *)
Lemma retain_pending_bytes io store l pending state aliases state' :
  state_ok l state -> sl_max_entries l < u64_max -> Forall (pending_ok store) pending ->
  retain_pending hash io store l pending state = Ok (aliases, state') ->
  Forall2 (fun value alias => exists c e, pc_content value = Some c
    /\ st_by_alias state' !! alias = Some e /\ same_bytes (en_content e) c) pending aliases.
Proof.
  intros Hst Hmax HF H. pose proof H as Hspec.
  apply retain_pending_spec in Hspec as (_ & _ & items & Hpi & Hitems & Ha); [|done..].
  pose proof (ok_tables _ _ Hst) as Htab.
  destruct (assign_spec _ _ _ _ _ _ _ _ Ha Htab (proj1 (ok_next _ _ Hst)) Hitems)
    as (Htab' & _ & Hsub & Hsubc & Hal & Hold).
  unfold retain_pending in H. case_bool_decide as Hnil.
  { subst pending. apply Forall2_nil_inv_l in Hpi as ->. apply Forall2_nil_inv_l in Hal as ->. constructor. }
  apply bind_ok in H as ([] & Hck & H). apply bind_ok in H as (ids & Hids & H).
  apply bind_ok in H as (res & Hres & H). apply bind_ok in H as (after & Hafter & H).
  apply bind_ok in H as ([[pls fn] inc] & Hpl & _).
  destruct (batch_items _ _ _ _ HF Hck Hids) as (items' & Hrel & Hitems' & Hc).
  assert (items' = items) as ->.
  { apply (list_eq_Forall2 _ _). clear -Hc Hpi Hitems Hitems'. revert items' Hc Hitems'.
    induction Hpi as [|v [id c] vs items Hv _ IH]; intros items' Hc Hitems'.
    - apply Forall2_nil_inv_l in Hc as ->. constructor.
    - apply Forall2_cons_inv_l in Hc as ([id' c'] & items2 & Hv' & Hc & ->).
      apply list.Forall_cons in Hitems as [[_ Hid] Hitems], Hitems' as [[_ Hid'] Hitems'].
      simpl in *. constructor; [congruence|by apply IH]. }
  edestruct (place_loop_bytes io state pending (st_next_alias state)) as [_ Hall];
    [exact Htab|exact Hrel|exact Hitems| | |exact Hpl|].
  { intros k [v id] Hk. simpl. apply lookup_zip_with_Some in Hk as (? & ? & [= -> ->] & Hv & _). done. }
  { intros id f c. by rewrite lookup_empty. }
  apply Forall2_same_length_lookup. split.
  { apply Forall2_length in Hpi, Hal. congruence. }
  intros k value alias Hv Hk. destruct (Forall2_lookup_l _ _ _ _ _ Hpi Hv) as (item & Hi & Hci).
  pose proof (Forall2_lookup_lr _ _ _ _ _ _ Hal Hi Hk) as Hida. simpl in Hida.
  destruct (to_content _ _ _ Htab' _ _ Hida) as (e & He & Hide).
  exists item.2, e. split; [done|]. split; [done|].
  pose proof (proj1 (list.Forall_lookup _ _) Hall _ _ Hi) as Hb. simpl in Hb.
  destruct (st_by_content state !! item.1) as [a0|] eqn:Hk0.
  - assert (a0 = alias) as ->.
    { pose proof (lookup_weaken _ _ _ _ Hk0 Hsubc). congruence. }
    destruct (to_content _ _ _ Htab _ _ Hk0) as (e0 & He0 & _).
    pose proof (lookup_weaken _ _ _ _ He0 Hsub) as He0'. rewrite He0' in He. injection He as <-.
    by apply Hb.
  - destruct (Hold _ _ He) as [Hold0|[_ Hin]].
    + destruct (to_alias _ _ _ Htab _ _ Hold0) as [_ Hx]. rewrite Hide in Hx. congruence.
    + rewrite list.Forall_forall in Hall. specialize (Hall _ Hin). simpl in Hall. rewrite Hide, Hk0 in Hall.
      destruct Hb as (f & c & Hf & Hcf & Hsame). destruct Hall as (f' & c' & Hf' & Hcf' & Hsame').
      unfold same_bytes in *. congruence.
Qed.

Lemma release_sound l alias state : state_ok l state -> release alias state <> Err SE_Invariant.
Proof.
  intros [Htab Hb _ _ _ _] H. unfold release in H. apply bind_err in H as [[_ ?]%ok_or_err|(e & He%ok_or_ok & H)];
    [done|]. destruct (negb _); [done|].
  destruct (Z.ltb_spec (st_bytes state) (ct_length (en_content e))) as [Hlt|]; [|done].
  pose proof (entry_length_le _ _ _ _ _ Htab He). lia.
Qed.
End Facts.
