(* ===== verification/Runtime.v ===== *)
(** * Runtime: sessions and their programs

    [runtime.rs] and [cancellation.rs].  The handles of a session's programs share
    its table of active requests; a handle's cancellation token is shared by every
    clone of the handle, so it is one cell of the handle here.  A method is cut
    into its atomic steps (the atomic flag, the critical section of the lock), and
    a session's history is any sequence of such steps. *)

From S2P Require Import Paths Store Governor Prelude Text Request Budget.

Inductive EngineError : Type :=
| EE_Parallelism (e : ParallelismError)
| EE_Store (e : StoreError)
| EE_Paths (e : PathDictionaryError)
| EE_Budget (e : BudgetError)
| EE_Governor (e : GovernorError)
| EE_InvalidSession
| EE_SessionClosed
| EE_DuplicateRequest (id : Z)
| EE_Poisoned.

Record SessionConfig : Type := mkConfig {
  cf_id : Z; cf_workspace : str; cf_max_output_bytes : Z; cf_max_paths : Z }.

Definition SessionConfig_validate (c : SessionConfig) : result EngineError unit :=
  if (cf_id c =? 0) || bool_decide (cf_workspace c = []) || (4096 <? str_len (cf_workspace c))
     || contains 0 (cf_workspace c) || (cf_max_output_bytes c =? 0) || (cf_max_paths c =? 0)
  then Err EE_InvalidSession else Ok tt.

(** A registered program: not started, started with the number of [Program]s that
    share its lease (the root and its children), or dropped. *)
Inductive HandleState : Type := HRegistered | HStarted (leases : nat) | HGone.

Record Handle : Type := mkHandle {
  hd_request_id : Z;
  hd_cancelled : bool;
  hd_state : HandleState;
}.

Definition live (h : Handle) : bool := match hd_state h with HGone => false | _ => true end.

(** [SessionInner] without its store, paths and governor, the calls of [register] between its first check and its lock,
    whether a [close] is between its swap and its lock, and whether one has
    finished.  [active] maps a request to the handle whose token it holds. *)
Record SessionState : Type := mkSession {
  ss_config : SessionConfig;
  ss_closed : bool;
  ss_active : gmap Z nat;
  ss_handles : list Handle;
  ss_registering : list Z;
  ss_closing : bool;
  ss_swept : bool;
}.

Definition open_session (c : SessionConfig) : result EngineError SessionState :=
  _ ← SessionConfig_validate c;
  Ok (mkSession c false ∅ [] [] false false).

(** ** register *)

(** Up to the lock: the flag is read and the budget is made. *)
Definition register_begin (now : Z) (request : Request) (s : SessionState)
    : result EngineError SessionState :=
  if ss_closed s then Err EE_SessionClosed
  else
    _ ← map_err EE_Budget
          (BudgetTracker_new (rq_budget request) (cf_max_output_bytes (ss_config s)) now);
    Ok (mkSession (ss_config s) (ss_closed s) (ss_active s) (ss_handles s) (ss_registering s ++ [rq_id request])
          (ss_closing s) (ss_swept s)).

(** The critical section of call [k]. *)
Definition register_commit (k : nat) (s : SessionState) : result EngineError SessionState :=
  match ss_registering s !! k with
  | None => Ok s
  | Some request_id =>
      if ss_closed s then Err EE_SessionClosed
      else
        match ss_active s !! request_id with
        | Some _ => Err (EE_DuplicateRequest request_id)
        | None =>
            Ok (mkSession (ss_config s) (ss_closed s) (<[request_id := length (ss_handles s)]> (ss_active s))
                  (ss_handles s ++ [mkHandle request_id false HRegistered])
                  (delete k (ss_registering s)) (ss_closing s) (ss_swept s))
        end
  end.

(** A call that fails leaves the session as it is, without the call. *)
Definition register_end (k : nat) (s : SessionState) : SessionState :=
  match register_commit k s with
  | Ok s => s
  | Err _ => mkSession (ss_config s) (ss_closed s) (ss_active s) (ss_handles s) (delete k (ss_registering s))
               (ss_closing s) (ss_swept s)
  end.

(** ** cancel *)

(** [CancellationToken::cancel] of handle [i]: whether it is the first call. *)
Definition cancel_token (i : nat) (s : SessionState) : bool * SessionState :=
  match ss_handles s !! i with
  | Some h =>
      (negb (hd_cancelled h),
       mkSession (ss_config s) (ss_closed s) (ss_active s)
         (<[i := mkHandle (hd_request_id h) true (hd_state h)]> (ss_handles s))
         (ss_registering s) (ss_closing s) (ss_swept s))
  | None => (false, s)
  end.

Definition cancel (request_id : Z) (s : SessionState) : bool * SessionState :=
  match ss_active s !! request_id with
  | Some i => cancel_token i s
  | None => (false, s)
  end.

(** ** close *)

Definition close_begin (s : SessionState) : SessionState :=
  if ss_closed s then s
  else mkSession (ss_config s) true (ss_active s) (ss_handles s) (ss_registering s) true (ss_swept s).

(** The loop over the active tokens, under the lock. *)
Definition close_sweep (s : SessionState) : SessionState :=
  if ss_closing s then
    let s := foldr (fun i s => (cancel_token i s).2) s (snd <$> map_to_list (ss_active s)) in
    mkSession (ss_config s) (ss_closed s) (ss_active s) (ss_handles s) (ss_registering s) false true
  else s.

(** ** Programs *)

Definition unregister (request_id : Z) (s : SessionState) : SessionState :=
  mkSession (ss_config s) (ss_closed s) (delete request_id (ss_active s)) (ss_handles s) (ss_registering s)
    (ss_closing s) (ss_swept s).

Definition set_state (i : nat) (h : Handle) (st : HandleState) (s : SessionState) : SessionState :=
  mkSession (ss_config s) (ss_closed s) (ss_active s)
    (<[i := mkHandle (hd_request_id h) (hd_cancelled h) st]> (ss_handles s))
    (ss_registering s) (ss_closing s) (ss_swept s).

(** [RegisteredProgram::start]: with its permit it becomes a program with one
    lease; without it the registration is dropped. *)
Definition start (i : nat) (permit : bool) (s : SessionState) : SessionState :=
  match ss_handles s !! i with
  | Some h =>
      match hd_state h with
      | HRegistered =>
          if permit then set_state i h (HStarted 1) s
          else unregister (hd_request_id h) (set_state i h HGone s)
      | _ => s
      end
  | None => s
  end.

(** [Program::child] has a budget of its own and shares the lease. *)
Definition child (i : nat) (budget : Budget) (output_limit deadline : Z) (s : SessionState)
    : result EngineError SessionState :=
  match ss_handles s !! i with
  | Some h =>
      match hd_state h with
      | HStarted n =>
          _ ← map_err EE_Budget (BudgetTracker_new_with_deadline budget output_limit deadline);
          Ok (set_state i h (HStarted (S n)) s)
      | _ => Ok s
      end
  | None => Ok s
  end.

(** [Drop] of a registration, or of one of the programs that share a lease; the
    lease is dropped with the last of them. *)
Definition drop_handle (i : nat) (s : SessionState) : SessionState :=
  match ss_handles s !! i with
  | Some h =>
      match hd_state h with
      | HRegistered | HStarted 1 => unregister (hd_request_id h) (set_state i h HGone s)
      | HStarted (S n) => set_state i h (HStarted n) s
      | _ => s
      end
  | None => s
  end.

Inductive SessionEvent : Type :=
| SRegisterBegin (now : Z) (request : Request)
| SRegisterEnd (k : nat)
| SCancel (request_id : Z)
| SCloseBegin
| SCloseSweep
| SStart (i : nat) (permit : bool)
| SChild (i : nat) (budget : Budget) (output_limit deadline : Z)
| SDrop (i : nat).

Definition session_step (s : SessionState) (ev : SessionEvent) : SessionState :=
  match ev with
  | SRegisterBegin now request =>
      match register_begin now request s with Ok s => s | Err _ => s end
  | SRegisterEnd k => register_end k s
  | SCancel request_id => (cancel request_id s).2
  | SCloseBegin => close_begin s
  | SCloseSweep => close_sweep s
  | SStart i permit => start i permit s
  | SChild i budget output_limit deadline =>
      match child i budget output_limit deadline s with Ok s => s | Err _ => s end
  | SDrop i => drop_handle i s
  end.

Definition session_run (events : list SessionEvent) (s : SessionState) : SessionState :=
  foldl session_step s events.

(** ** What a session guarantees about its programs

    The table of active requests names exactly the live handles, whatever the
    interleaving of registrations, starts, drops, cancellations and the close; a
    closed session's programs have all been told to stop. *)

(** ** The invariant *)

Definition active_exact (active : gmap Z nat) (hs : list Handle) : Prop :=
  forall id i, active !! id = Some i <->
    exists h, hs !! i = Some h /\ live h = true /\ hd_request_id h = id.

Definition leases_ok (hs : list Handle) : Prop :=
  forall i h, hs !! i = Some h -> hd_state h <> HStarted 0.

Definition all_cancelled (hs : list Handle) : Prop :=
  forall i h, hs !! i = Some h -> live h = true -> hd_cancelled h = true.

Record session_ok (s : SessionState) : Prop := mkSessionOk {
  so_active : active_exact (ss_active s) (ss_handles s);
  so_leases : leases_ok (ss_handles s);
  so_closed : ss_closed s = ss_closing s || ss_swept s;
  so_swept : ss_swept s = true -> all_cancelled (ss_handles s);
}.

Lemma open_session_ok c s : open_session c = Ok s -> session_ok s.
Proof.
  unfold open_session, SessionConfig_validate. repeat case_match; simplify_eq/=; [done|].
  intros [= <-]. split; simpl; [|by intros ??|done|done].
  intros id i; split; [done|]. by intros (h & Hh & _).
Qed.

(** ** A handle is replaced by one with the same request *)

Section replace.
Context (active : gmap Z nat) (hs : list Handle) (i : nat) (h h' : Handle).
Context (Hi : hs !! i = Some h) (Hid : hd_request_id h' = hd_request_id h).

Lemma replace_lookup j g :
  <[i := h']> hs !! j = Some g -> (j = i /\ g = h') \/ (j <> i /\ hs !! j = Some g).
Proof using Hi.
  destruct (decide (j = i)) as [->|Hj].
  - rewrite list_lookup_insert_eq by (by eapply lookup_lt_Some). intros [= <-]. by left.
  - rewrite list_lookup_insert_ne by done. by right.
Qed.

Lemma replace_lookup_eq : <[i := h']> hs !! i = Some h'.
Proof using Hi. apply list_lookup_insert_eq. by eapply lookup_lt_Some. Qed.

Lemma replace_active :
  active_exact active hs -> live h' = live h -> active_exact active (<[i := h']> hs).
Proof using Hi Hid.
  intros HA Hl id j. rewrite (HA id j). split.
  - intros (g & Hg & Hlg & Hgid). destruct (decide (j = i)) as [->|Hj].
    + rewrite Hi in Hg. injection Hg as <-. exists h'. rewrite replace_lookup_eq. naive_solver congruence.
    + exists g. rewrite list_lookup_insert_ne by done. done.
  - intros (g & [[-> ->]|[Hj Hg]]%replace_lookup & Hlg & Hgid); [|by exists g].
    exists h. naive_solver congruence.
Qed.

(** The last lease of a live handle goes, and its entry with it. *)
Lemma replace_gone :
  active_exact active hs -> live h = true -> live h' = false ->
  active_exact (delete (hd_request_id h) active) (<[i := h']> hs).
Proof using Hi Hid.
  intros HA Hl Hl' id j.
  assert (Hent : active !! hd_request_id h = Some i) by (apply HA; eauto).
  rewrite lookup_delete_Some, (HA id j). split.
  - intros (Hne & g & Hg & Hlg & Hgid). exists g. rewrite list_lookup_insert_ne; [done|].
    intros ->. rewrite Hi in Hg. injection Hg as <-. by apply Hne.
  - intros (g & [[-> ->]|[Hj Hg]]%replace_lookup & Hlg & Hgid); [congruence|].
    split; [|by exists g]. intros Hid'.
    assert (active !! id = Some j) by (apply HA; eauto). rewrite <- Hid' in *. congruence.
Qed.

Lemma replace_leases :
  leases_ok hs -> hd_state h' <> HStarted 0 -> leases_ok (<[i := h']> hs).
Proof using Hi. intros HL Hh j g [[-> ->]|[_ ?]]%replace_lookup; eauto. Qed.

Lemma replace_cancelled :
  all_cancelled hs -> (live h' = true -> live h = true) ->
  (hd_cancelled h = true -> hd_cancelled h' = true) ->
  all_cancelled (<[i := h']> hs).
Proof using Hi. intros HC Hl Hc j g [[-> ->]|[_ ?]]%replace_lookup; eauto. Qed.

End replace.

(** ** Cancellation *)

Definition cancel_handle (h : Handle) : Handle :=
  mkHandle (hd_request_id h) true (hd_state h).

Lemma cancel_token_eq i s :
  cancel_token i s
  = match ss_handles s !! i with
    | Some h =>
        (negb (hd_cancelled h),
         mkSession (ss_config s) (ss_closed s) (ss_active s) (<[i := cancel_handle h]> (ss_handles s))
           (ss_registering s) (ss_closing s) (ss_swept s))
    | None => (false, s)
    end.
Proof. done. Qed.

Lemma cancel_token_ok i s : session_ok s -> session_ok (cancel_token i s).2.
Proof.
  intros [HA HL HC HS]. rewrite cancel_token_eq. destruct (ss_handles s !! i) as [h|] eqn:Hi; [|done].
  split; simpl.
  - by eapply replace_active.
  - eapply replace_leases; eauto. exact (HL i h Hi).
  - done.
  - intros Hsw. eapply replace_cancelled; eauto.
Qed.

Definition cancel_all (ks : list nat) (s : SessionState) : SessionState :=
  foldr (fun i s => (cancel_token i s).2) s ks.

Lemma cancel_all_frame ks s :
  let s' := cancel_all ks s in
  (ss_config s', ss_closed s', ss_active s', ss_registering s', ss_closing s', ss_swept s')
  = (ss_config s, ss_closed s, ss_active s, ss_registering s, ss_closing s, ss_swept s).
Proof.
  induction ks as [|i ks IH]; [done|]. simpl in *. rewrite cancel_token_eq.
  destruct (_ !! i); done.
Qed.

Lemma cancel_all_lookup ks s j :
  ss_handles (cancel_all ks s) !! j
  = (fun h => if bool_decide (j ∈ ks) then cancel_handle h else h) <$> ss_handles s !! j.
Proof.
  induction ks as [|i ks IH]; simpl; [by destruct (ss_handles s !! j)|].
  rewrite cancel_token_eq. fold (cancel_all ks s).
  destruct (ss_handles (cancel_all ks s) !! i) as [h|] eqn:Hi; simpl;
    destruct (decide (j = i)) as [->|Hj].
  - rewrite list_lookup_insert_eq by (by eapply lookup_lt_Some).
    rewrite (bool_decide_eq_true_2 (i ∈ i :: ks)) by set_solver.
    rewrite Hi in IH. destruct (ss_handles s !! i) as [g|]; simpl in *; [|done].
    injection IH as ->. by destruct (bool_decide _).
  - rewrite list_lookup_insert_ne, IH by done.
    by rewrite (bool_decide_ext (j ∈ i :: ks) (j ∈ ks)) by set_solver.
  - rewrite Hi in IH |- *. by destruct (ss_handles s !! i).
  - rewrite IH. by rewrite (bool_decide_ext (j ∈ i :: ks) (j ∈ ks)) by set_solver.
Qed.

Lemma cancel_all_ok ks s : session_ok s -> session_ok (cancel_all ks s).
Proof. intros Hs. induction ks; simpl; [done|]. by apply cancel_token_ok. Qed.

(** ** The steps *)

Lemma register_begin_ok now request s s' :
  session_ok s -> register_begin now request s = Ok s' -> session_ok s'.
Proof.
  intros [? ? ? ?]. unfold register_begin. destruct (ss_closed s); [done|].
  destruct (BudgetTracker_new _ _ _); simpl; [|done]. by intros [= <-].
Qed.

Lemma register_end_ok k s : session_ok s -> session_ok (register_end k s).
Proof.
  intros [HA HL HC HS]. unfold register_end, register_commit.
  destruct (ss_registering s !! k) as [id|]; [|done].
  destruct (ss_closed s) eqn:Hcl; [done|].
  destruct (ss_active s !! id) as [?|] eqn:Hid; [done|].
  split; simpl.
  - intros id' i. rewrite lookup_insert_Some. rewrite (HA id' i). split.
    + intros [[<- <-]|[Hne (h & Hh & ? & ?)]].
      * eexists. rewrite lookup_app_r, Nat.sub_diag by lia. done.
      * exists h. rewrite lookup_app_l by (by eapply lookup_lt_Some). done.
    + intros (h & Hh & Hl & <-).
      apply lookup_app_Some in Hh as [Hh|[Hle Hh]].
      * right. split; [|by exists h]. intros Heq.
        assert (ss_active s !! hd_request_id h = Some i) by (apply HA; eauto). congruence.
      * left. apply list_lookup_singleton_Some in Hh as [Hz <-]. simpl. split; [done|lia].
  - intros i h [Hh|[_ Hh]]%lookup_app_Some; [by eapply HL|].
    by apply list_lookup_singleton_Some in Hh as [_ <-].
  - done.
  - intros Hsw. rewrite Hsw, orb_true_r in HC. done.
Qed.

Lemma close_begin_ok s : session_ok s -> session_ok (close_begin s).
Proof. intros Hs. pose proof Hs as [HA HL HC HS]. unfold close_begin. by destruct (ss_closed s). Qed.

Lemma close_sweep_ok s : session_ok s -> session_ok (close_sweep s).
Proof.
  intros Hs. unfold close_sweep. destruct (ss_closing s) eqn:Hcl; [|done].
  fold (cancel_all (snd <$> map_to_list (ss_active s)) s).
  pose proof (cancel_all_frame (snd <$> map_to_list (ss_active s)) s) as Hf.
  pose proof (cancel_all_lookup (snd <$> map_to_list (ss_active s)) s) as Hlk.
  destruct (cancel_all_ok (snd <$> map_to_list (ss_active s)) s Hs) as [HA HL HC HS].
  destruct Hs as [HA0 _ HC0 _]. simpl in Hf. injection Hf as _ Hf1 Hf2 Hf3 Hf4 Hf5.
  split; simpl; [done|done| |].
  - rewrite Hf1, HC0, Hcl. done.
  - intros _ i h Hi Hl. rewrite Hlk in Hi.
    destruct (ss_handles s !! i) as [g|] eqn:Hg; [|done]. simpl in Hi. injection Hi as <-.
    case_bool_decide as Hin; [done|]. destruct Hin. apply list_elem_of_fmap.
    exists (hd_request_id g, i). split; [done|]. apply elem_of_map_to_list, HA0. eauto.
Qed.

Lemma set_state_ok i h st s :
  ss_handles s !! i = Some h -> live h = true -> st <> HStarted 0 -> st <> HGone ->
  session_ok s -> session_ok (set_state i h st s).
Proof.
  intros Hi Hl Hst Hg [HA HL HC HS]. split; simpl; [| | done|].
  - eapply replace_active; eauto. unfold live in *; simpl. by destruct st.
  - by eapply replace_leases.
  - intros Hsw. eapply replace_cancelled; eauto.
Qed.

Lemma drop_ok i h s :
  ss_handles s !! i = Some h -> live h = true -> session_ok s ->
  session_ok (unregister (hd_request_id h) (set_state i h HGone s)).
Proof.
  intros Hi Hl [HA HL HC HS]. split; simpl; [| | done|].
  - by eapply replace_gone.
  - by eapply replace_leases.
  - intros Hsw. eapply replace_cancelled; eauto.
Qed.

Lemma session_step_ok s ev : session_ok s -> session_ok (session_step s ev).
Proof.
  intros Hs. destruct ev as [now request|k|id| | |i permit|i budget output_limit deadline|i]; simpl.
  - destruct (register_begin _ _ _) eqn:E; [by eapply register_begin_ok|done].
  - by apply register_end_ok.
  - unfold cancel. destruct (_ !! id); [by apply cancel_token_ok|done].
  - by apply close_begin_ok.
  - by apply close_sweep_ok.
  - unfold start. destruct (_ !! i) as [h|] eqn:Hi; [|done].
    destruct (hd_state h) eqn:Hst; [|done|done].
    assert (live h = true) by (unfold live; by rewrite Hst).
    destruct permit; [by apply set_state_ok|by apply drop_ok].
  - unfold child. destruct (_ !! i) as [h|] eqn:Hi; [|done].
    destruct (hd_state h) eqn:Hst; [done| |done].
    destruct (BudgetTracker_new_with_deadline _ _ _); simpl; [|done]. apply set_state_ok; try done. unfold live. by rewrite Hst.
  - unfold drop_handle. destruct (_ !! i) as [h|] eqn:Hi; [|done].
    destruct (hd_state h) as [|[|[|n]]|] eqn:Hst; try done.
    + apply drop_ok; try done. unfold live. by rewrite Hst.
    + apply drop_ok; try done. unfold live. by rewrite Hst.
    + apply set_state_ok; try done. unfold live. by rewrite Hst.
Qed.

Lemma session_run_ok events s : session_ok s -> session_ok (session_run events s).
Proof.
  revert s. induction events as [|ev events IH]; intros s Hs; simpl; [done|].
  apply IH. by apply session_step_ok.
Qed.

(** ** What never comes back *)

(** [earlier s s']: [s'] is a later state of the same session: its handles are
    those of [s], possibly cancelled or dropped since, and others after them. *)
Definition earlier (s s' : SessionState) : Prop :=
  ss_config s' = ss_config s /\
  (ss_closed s = true -> ss_closed s' = true /\ length (ss_handles s') = length (ss_handles s)) /\
  (ss_swept s = true -> ss_swept s' = true) /\
  forall i h, ss_handles s !! i = Some h ->
    exists h', ss_handles s' !! i = Some h' /\ hd_request_id h' = hd_request_id h /\
      (hd_cancelled h = true -> hd_cancelled h' = true) /\ (live h = false -> live h' = false).

#[export] Instance earlier_preorder : PreOrder earlier.
Proof.
  split.
  - intros s. split; [done|]. split; [done|]. split; [done|]. eauto 10.
  - intros s1 s2 s3 (F1 & C1 & W1 & H1) (F2 & C2 & W2 & H2).
    split; [congruence|]. split; [|split; [tauto|]].
    + intros H. destruct (C1 H) as [? L1]. destruct C2 as [? L2]; [done|]. split; [done|congruence].
    + intros i h Hi. destruct (H1 i h Hi) as (h2 & Hi2 & ? & ? & ?).
      destruct (H2 i h2 Hi2) as (h3 & ? & ? & ? & ?). exists h3. repeat split; auto; congruence.
Qed.

Lemma earlier_replace s i h h' active registering :
  ss_handles s !! i = Some h -> hd_request_id h' = hd_request_id h ->
  (hd_cancelled h = true -> hd_cancelled h' = true) -> (live h = false -> live h' = false) ->
  earlier s (mkSession (ss_config s) (ss_closed s) active (<[i := h']> (ss_handles s)) registering
               (ss_closing s) (ss_swept s)).
Proof.
  intros Hi Hid Hc Hl. split; [done|]. split; simpl; [by rewrite length_insert|]. split; [done|].
  intros j g Hj. destruct (decide (j = i)) as [->|Hne].
  - rewrite Hi in Hj. injection Hj as <-. exists h'.
    rewrite list_lookup_insert_eq by (by eapply lookup_lt_Some). done.
  - exists g. by rewrite list_lookup_insert_ne.
Qed.

Lemma cancel_token_earlier i s : earlier s (cancel_token i s).2.
Proof.
  unfold cancel_token. destruct (_ !! i) as [h|] eqn:Hi; [|done]. by eapply earlier_replace.
Qed.

Lemma set_state_earlier i h st s :
  ss_handles s !! i = Some h -> (live h = true \/ st = HGone) -> earlier s (set_state i h st s).
Proof.
  intros Hi Hl. apply earlier_replace with h; [done|done|done|].
  destruct Hl as [->| ->]; [by intros ?|done].
Qed.

Lemma drop_earlier i h s :
  ss_handles s !! i = Some h ->
  earlier s (unregister (hd_request_id h) (set_state i h HGone s)).
Proof.
  intros Hi. unfold unregister, set_state; simpl. by apply earlier_replace with h.
Qed.

Lemma earlier_same s s' :
  ss_config s' = ss_config s ->
  ss_closed s' = ss_closed s \/ ss_closed s' = true -> ss_handles s' = ss_handles s ->
  ss_swept s' = ss_swept s \/ ss_swept s' = true -> earlier s s'.
Proof.
  intros Hf Hc Hh Hw. split; [done|]. split; [rewrite Hh; naive_solver congruence|]. split; [naive_solver congruence|].
  rewrite Hh. eauto 10.
Qed.

Lemma cancel_all_earlier ks s : earlier s (cancel_all ks s).
Proof. induction ks; simpl; [done|]. etrans; [done|apply cancel_token_earlier]. Qed.

Lemma session_step_earlier s ev : earlier s (session_step s ev).
Proof.
  destruct ev as [now request|k|id| | |i permit|i budget output_limit deadline|i]; simpl.
  - unfold register_begin. destruct (ss_closed s) eqn:E; [done|].
    destruct (BudgetTracker_new _ _ _); simpl; [|done]. apply earlier_same; simpl; auto.
  - unfold register_end, register_commit. destruct (_ !! k); [|done].
    destruct (ss_closed s) eqn:E; [apply earlier_same; simpl; auto|].
    destruct (_ !! z); [apply earlier_same; simpl; auto|].
    split; [done|]. split; simpl; [congruence|]. split; [done|]. intros i h Hi. exists h.
    rewrite lookup_app_l by (by eapply lookup_lt_Some). done.
  - unfold cancel. destruct (_ !! id); [apply cancel_token_earlier|done].
  - unfold close_begin. destruct (ss_closed s) eqn:E; [done|]. apply earlier_same; simpl; auto.
  - unfold close_sweep. destruct (ss_closing s); [|done].
    etrans; [apply (cancel_all_earlier (snd <$> map_to_list (ss_active s)))|].
    apply earlier_same; simpl; auto.
  - unfold start. destruct (_ !! i) as [h|] eqn:Hi; [|done].
    destruct (hd_state h) eqn:Hst; [|done|done].
    assert (live h = true) by (unfold live; by rewrite Hst).
    destruct permit; [apply set_state_earlier; auto|by apply drop_earlier].
  - unfold child. destruct (_ !! i) as [h|] eqn:Hi; [|done].
    destruct (hd_state h) eqn:Hst; [done| |done].
    destruct (BudgetTracker_new_with_deadline _ _ _); simpl; [|done].
    apply set_state_earlier; [done|]. left. unfold live. by rewrite Hst.
  - unfold drop_handle. destruct (_ !! i) as [h|] eqn:Hi; [|done].
    destruct (hd_state h) as [|[|[|n]]|] eqn:Hst; try done; try by apply drop_earlier.
    apply set_state_earlier; [done|]. left. unfold live. by rewrite Hst.
Qed.

Lemma session_run_earlier events s : earlier s (session_run events s).
Proof.
  revert s. induction events as [|ev events IH]; intros s; simpl; [done|].
  etrans; [apply session_step_earlier|apply IH].
Qed.

(** The configuration was validated, so the budget of a registration is too. *)
Lemma register_succeeds c s0 s events now request :
  open_session c = Ok s0 -> s = session_run events s0 -> ss_closed s = false ->
  exists s', register_begin now request s = Ok s'
    /\ (ss_active s' !! rq_id request = None ->
        exists s'', register_commit (length (ss_registering s)) s' = Ok s''
          /\ ss_active s'' !! rq_id request = Some (length (ss_handles s))).
Proof.
  intros Hopen -> Hc. destruct (session_run_earlier events s0) as [Hf _].
  revert Hf Hc. generalize (session_run events s0). intros s Hf Hc.
  assert (cf_max_output_bytes (ss_config s) <> 0) as Hmax.
  { rewrite Hf. unfold open_session, SessionConfig_validate in Hopen.
    destruct (_ || _) eqn:E in Hopen; [done|]. injection Hopen as <-. simpl.
    rewrite !orb_false_iff in E. destruct E as [[_ E] _]. by apply Z.eqb_neq in E. }
  unfold register_begin. rewrite Hc. unfold BudgetTracker_new, BudgetTracker_new_with_deadline.
  apply Z.eqb_neq in Hmax. rewrite Hmax. simpl. eexists. split; [done|]. simpl.
  unfold register_commit. simpl. rewrite lookup_app_r, Nat.sub_diag by lia. simpl.
  intros ->. eexists. split; [done|]. simpl. apply lookup_insert_eq.
Qed.
