(* ===== verification/Capture.v ===== *)
(** * Capture: streams captured into the store

    [StoreCapture], [CaptureSample] and [CapturedContent] of [result_store.rs], and
    the system of one store with the captures that charge it.  A capture keeps its
    bytes in memory up to a limit and spills them to a file above it; whether the
    file operations of a call succeed is an argument. *)

From S2P Require Import Prelude Text Store.

(** ** The sample of a spilled stream *)

Record CaptureSample : Type := mkSample {
  cs_head : bytes;
  cs_head_next : option Z;
  cs_tail : bytes;
  cs_head_limit : Z;
  cs_tail_limit : Z;
}.

Definition CaptureSample_new (limit : Z) : CaptureSample :=
  let head_limit := limit / 2 in
  mkSample [] None [] head_limit (saturating_sub limit head_limit).

Definition observe (s : CaptureSample) (data : bytes) : CaptureSample :=
  let head_remaining := saturating_sub (cs_head_limit s) (len (cs_head s)) in
  let head_bytes := Z.min head_remaining (len data) in
  let head := cs_head s ++ take (Z.to_nat head_bytes) data in
  let head_next :=
    if (len head =? cs_head_limit s) && bool_decide (cs_head_next s = None)
       && (head_bytes <? len data)
    then data !! Z.to_nat head_bytes else cs_head_next s in
  if cs_tail_limit s =? 0
  then mkSample head head_next (cs_tail s) (cs_head_limit s) (cs_tail_limit s)
  else
    let tail_bytes := drop (Z.to_nat head_bytes) data in
    if cs_tail_limit s <=? len tail_bytes
    then mkSample head head_next (drop (Z.to_nat (len tail_bytes - cs_tail_limit s)) tail_bytes)
           (cs_head_limit s) (cs_tail_limit s)
    else
      let excess := saturating_sub (saturating_add usize_max (len (cs_tail s)) (len tail_bytes))
                      (cs_tail_limit s) in
      mkSample head head_next (drop (Z.to_nat excess) (cs_tail s) ++ tail_bytes)
        (cs_head_limit s) (cs_tail_limit s).

(** ** Captures *)

Inductive CaptureState : Type := CMemory (memory : bytes) | CDisk (file : bytes) (sample : CaptureSample).

Record StoreCapture : Type := mkCapture {
  cp_reservation : StoreReservation;
  cp_memory_limit : Z;
  cp_length : Z;
  cp_state : CaptureState;
}.

Record CapturedContent : Type := mkCaptured {
  cc_pending : PendingContent; cc_sample : option CaptureSample }.

Definition capture (store : nat) (l : StoreLimits) (memory_limit : Z) : StoreCapture :=
  mkCapture (mkReservation store 0) (Z.min memory_limit (sl_max_bytes l)) 0 (CMemory []).

(** What the file operations of an [append] do: all succeed, the file cannot be
    created, or a write fails and leaves any contents behind. *)
Inductive AppendIo : Type := IoOk | IoCreateFails | IoWriteFails (file : bytes).

Definition append (l : StoreLimits) (io : AppendIo) (data : bytes) (cap : StoreCapture) (state : State)
    : result StoreError unit * StoreCapture * State :=
  if bool_decide (data = []) then (Ok tt, cap, state)
  else
    let incoming := len data in
    match checked_add u64_max (cp_length cap) incoming with
    | None => (Err SE_ContentTooLarge, cap, state)
    | Some next_length =>
        match cp_state cap with
        | CMemory memory =>
            if next_length <=? cp_memory_limit cap
            then (Ok tt, mkCapture (cp_reservation cap) (cp_memory_limit cap) next_length
                           (CMemory (memory ++ data)), state)
            else
              match reserve_u64 l next_length (cp_reservation cap) state with
              | Err e => (Err e, cap, state)
              | Ok (r, state) =>
                  match io with
                  | IoCreateFails =>
                      (Err SE_Io, mkCapture r (cp_memory_limit cap) (cp_length cap) (CMemory memory),
                       state)
                  | IoWriteFails _ =>
                      (Err SE_Io, mkCapture r (cp_memory_limit cap) (cp_length cap) (CMemory []), state)
                  | IoOk =>
                      let sample := observe (observe (CaptureSample_new (cp_memory_limit cap)) memory) data in
                      (Ok tt, mkCapture r (cp_memory_limit cap) next_length
                                (CDisk (memory ++ data) sample), state)
                  end
              end
        | CDisk file sample =>
            match reserve_u64 l incoming (cp_reservation cap) state with
            | Err e => (Err e, cap, state)
            | Ok (r, state) =>
                match io with
                | IoOk => (Ok tt, mkCapture r (cp_memory_limit cap) next_length
                                    (CDisk (file ++ data) (observe sample data)), state)
                | IoCreateFails =>
                    (Err SE_Io, mkCapture r (cp_memory_limit cap) (cp_length cap) (CDisk file sample), state)
                | IoWriteFails file =>
                    (Err SE_Io, mkCapture r (cp_memory_limit cap) (cp_length cap) (CDisk file sample), state)
                end
            end
        end
    end.

Definition finish (io : bool) (cap : StoreCapture) : result StoreError CapturedContent :=
  '(storage, sample) ←
    match cp_state cap with
    | CMemory memory => Ok (Memory memory, None)
    | CDisk file sample => if io then Ok (Disk file, Some sample) else Err SE_Io
    end;
  Ok (mkCaptured
        (mkPending None (Some (mkContent (cp_length cap) storage)) (Some (cp_reservation cap)))
        sample).

Inductive CapturedView : Type :=
| Complete (data : bytes)
| Sampled (head : bytes) (head_next : option Z) (tail : bytes).

Definition view (c : CapturedContent) : CapturedView :=
  match pc_content (cc_pending c), cc_sample c with
  | Some (mkContent _ (Memory data)), _ => Complete data
  | Some (mkContent _ (Disk _)), Some sample =>
      Sampled (cs_head sample) (cs_head_next sample) (cs_tail sample)
  | _, _ => Complete []
  end.

(** ** A store and its captures *)

Inductive Slot : Type := SOpen (cap : StoreCapture) | SDone (captured : CapturedContent) | SGone.

Record StoreSystem : Type := mkStoreSystem { sx_state : State; sx_slots : list Slot }.

Section System.
Context (hash : bytes -> list Z) (store : nat) (l : StoreLimits).

(** [retain_captures] takes the captures it is given. *)
Definition captured_at (slots : list Slot) (i : nat) : option CapturedContent :=
  match slots !! i with Some (SDone c) => Some c | _ => None end.

Definition take_slots (slots : list Slot) (is_ : list nat) : list Slot :=
  foldr (fun i slots => <[i := SGone]> slots) slots is_.

(** The values not taken are dropped, and their reservations with them. *)
Definition drop_pending (pending : list PendingContent) (state : State) : State :=
  foldr (fun value state =>
    match pc_reservation value with Some r => drop_reservation r state | None => state end) state pending.

Definition retain_captures (io : bool) (is_ : list nat) (sys : StoreSystem)
    : option (result StoreError (list Z) * StoreSystem) :=
  if negb (bool_decide (NoDup is_)) then None
  else
    captures ← mapM (captured_at (sx_slots sys)) is_;
    let pending := cc_pending <$> captures in
    let slots := take_slots (sx_slots sys) is_ in
    Some match retain_pending hash io store l pending (sx_state sys) with
         | Ok (aliases, state) => (Ok aliases, mkStoreSystem state slots)
         | Err e => (Err e, mkStoreSystem (drop_pending pending (sx_state sys)) slots)
         end.

Inductive StoreEvent : Type :=
| ECapture (memory_limit : N)
| EAppend (i : nat) (io : AppendIo) (data : bytes)
| EFinish (i : nat) (io : bool)
| EDrop (i : nat)
| ERetain (io : bool) (contents : list bytes)
| ERetainCaptures (io : bool) (is_ : list nat)
| EGet (alias : Z)
| EDropLease (alias : Z)
| ERelease (alias : Z).

Definition with_state (sys : StoreSystem) (m : result StoreError State) : StoreSystem :=
  match m with Ok state => mkStoreSystem state (sx_slots sys) | Err _ => sys end.

Definition set_slot (sys : StoreSystem) (i : nat) (slot : Slot) (state : State) : StoreSystem :=
  mkStoreSystem state (<[i := slot]> (sx_slots sys)).

Definition store_step (sys : StoreSystem) (ev : StoreEvent) : StoreSystem :=
  match ev with
  | ECapture memory_limit =>
      mkStoreSystem (sx_state sys) (sx_slots sys ++ [SOpen (capture store l (Z.of_N memory_limit))])
  | EAppend i io data =>
      match sx_slots sys !! i with
      | Some (SOpen cap) =>
          let '(_, cap, state) := append l io data cap (sx_state sys) in
          set_slot sys i (SOpen cap) state
      | _ => sys
      end
  | EFinish i io =>
      match sx_slots sys !! i with
      | Some (SOpen cap) =>
          match finish io cap with
          | Ok c => set_slot sys i (SDone c) (sx_state sys)
          | Err _ => set_slot sys i SGone (drop_reservation (cp_reservation cap) (sx_state sys))
          end
      | _ => sys
      end
  | EDrop i =>
      match sx_slots sys !! i with
      | Some (SOpen cap) => set_slot sys i SGone (drop_reservation (cp_reservation cap) (sx_state sys))
      | Some (SDone c) => set_slot sys i SGone (drop_pending [cc_pending c] (sx_state sys))
      | _ => sys
      end
  | ERetain io contents =>
      with_state sys (snd <$> retain_many hash io store l contents (sx_state sys))
  | ERetainCaptures io is_ =>
      match retain_captures io is_ sys with Some (_, sys) => sys | None => sys end
  | EGet alias => with_state sys (snd <$> get alias (sx_state sys))
  | EDropLease alias => mkStoreSystem (drop_lease alias (sx_state sys)) (sx_slots sys)
  | ERelease alias => with_state sys (release alias (sx_state sys))
  end.

Definition store_run (events : list StoreEvent) (sys : StoreSystem) : StoreSystem :=
  foldl store_step sys events.
End System.

(** ** Captures and the session's quota

    A capture is faithful or refused; its sample is that of the whole stream,
    however it was cut into chunks; and the charge of the store is the bytes it
    retains plus the reservations of its captures, within the quota. *)

(** ** The sample *)

(** The last [n] bytes. *)
Definition last_bytes (n : Z) (data : bytes) : bytes := drop (Z.to_nat (len data - n)) data.

Definition sample_of (limit : Z) (all : bytes) : CaptureSample :=
  let head := Z.to_nat (limit / 2) in
  mkSample (take head all) (all !! head) (last_bytes (limit - limit / 2) (drop head all))
    (limit / 2) (limit - limit / 2).

Lemma last_bytes_app n a b :
  0 <= n -> last_bytes n (a ++ b)
  = if n <=? len b then last_bytes n b else last_bytes (n - len b) a ++ b.
Proof.
  intros Hn. unfold last_bytes. rewrite len_app. unfold len in *.
  destruct (Z.leb_spec n (Z.of_nat (length b))).
  - rewrite drop_app_ge by lia. f_equal. lia.
  - rewrite drop_app_le by lia. f_equal. f_equal. lia.
Qed.

Lemma len_last_bytes n data : 0 <= n -> len (last_bytes n data) = Z.min n (len data).
Proof. intros Hn. unfold last_bytes, len. rewrite length_drop. lia. Qed.

Lemma drop_last_bytes k n data :
  0 <= k <= n -> drop (Z.to_nat (Z.min n (len data) - k)) (last_bytes n data) = last_bytes k data.
Proof. intros Hk. unfold last_bytes. rewrite drop_drop. f_equal. unfold len. lia. Qed.

Lemma CaptureSample_new_spec limit : 0 <= limit -> CaptureSample_new limit = sample_of limit [].
Proof.
  intros Hl. unfold CaptureSample_new, sample_of. rewrite take_nil, drop_nil, lookup_nil.
  unfold last_bytes. rewrite drop_nil. f_equal. unfold saturating_sub.
  rewrite Z.max_l; [done|]. Z.to_euclidean_division_equations. lia.
Qed.

Lemma take_clamp {A} n (l : list A) : take (n `min` length l) l = take n l.
Proof. destruct (decide (n <= length l)%nat); [f_equal; lia|]. rewrite !take_ge by lia. done. Qed.

Lemma drop_clamp {A} n (l : list A) : drop (n `min` length l) l = drop n l.
Proof. destruct (decide (n <= length l)%nat); [f_equal; lia|]. rewrite !drop_ge by lia. done. Qed.

(** Observing a chunk extends the stream the sample is of. *)
Lemma observe_spec limit all data :
  0 <= limit -> len all + len data <= usize_max ->
  observe (sample_of limit all) data = sample_of limit (all ++ data).
Proof.
  intros Hl Hmax. assert (0 <= limit / 2 <= limit) as Hh by (Z.to_euclidean_division_equations; lia).
  unfold observe. simpl. set (h := limit / 2) in *.
  pose proof (len_nonneg all) as Ha. pose proof (len_nonneg data) as Hd.
  assert (len (take (Z.to_nat h) all) = Z.min h (len all)) as Hlen
    by (unfold len; rewrite length_take; lia).
  rewrite Hlen. unfold saturating_sub. set (hb := Z.min (Z.max (h - Z.min h (len all)) 0) (len data)).
  assert (hb = Z.min (Z.max (h - len all) 0) (len data)) as Hhb by lia. clearbody hb.
  assert (take (Z.to_nat h) all ++ take (Z.to_nat hb) data = take (Z.to_nat h) (all ++ data)) as Hhead.
  { rewrite take_app, <- (take_clamp (Z.to_nat h - length all) data). do 2 f_equal. unfold len in *. lia. }
  assert (drop (Z.to_nat h) (all ++ data) = drop (Z.to_nat h) all ++ drop (Z.to_nat hb) data) as Hdrop.
  { rewrite drop_app, <- (drop_clamp (Z.to_nat h - length all) data). do 2 f_equal. unfold len in *. lia. }
  assert ((if (len (take (Z.to_nat h) all ++ take (Z.to_nat hb) data) =? h)
     && bool_decide (all !! Z.to_nat h = None) && (hb <? len data)
    then data !! Z.to_nat hb else all !! Z.to_nat h) = (all ++ data) !! Z.to_nat h) as Hnext.
  { rewrite Hhead. assert (len (take (Z.to_nat h) (all ++ data)) = Z.min h (len all + len data)) as ->
      by (rewrite <- len_app; unfold len; rewrite length_take; lia).
    destruct (all !! Z.to_nat h) as [x|] eqn:Hx.
    - rewrite andb_false_r. simpl. symmetry. by apply lookup_app_l_Some.
    - apply lookup_ge_None in Hx. rewrite andb_true_r.
      rewrite lookup_app_r by lia. unfold len in *.
      destruct (Z.eqb_spec (Z.min h (Z.of_nat (length all) + Z.of_nat (length data))) h);
        destruct (Z.ltb_spec hb (Z.of_nat (length data))); simpl; try (f_equal; lia);
        symmetry; apply lookup_ge_None; lia. }
  rewrite Hnext, Hhead. unfold sample_of. fold h. rewrite Hdrop.
  set (tb := drop (Z.to_nat hb) data). set (t := limit - h).
  assert (0 <= t) as Ht by lia.
  assert (len tb <= len data) by (unfold tb, len; rewrite length_drop; lia).
  destruct (Z.eqb_spec t 0) as [Ht0|Ht0].
  - rewrite Ht0. f_equal. unfold last_bytes. rewrite !Z.sub_0_r. unfold len. rewrite !Nat2Z.id.
    by rewrite !drop_all.
  - rewrite last_bytes_app by done. destruct (Z.leb_spec t (len tb)); [done|]. f_equal. f_equal.
    rewrite len_last_bytes by done. rewrite <- (drop_last_bytes (t - len tb) t) by (pose proof (len_nonneg tb); lia).
    f_equal. unfold saturating_add.
    assert (len (drop (Z.to_nat h) all) <= len all) by (unfold len; rewrite length_drop; lia).
    pose proof (len_nonneg tb). lia.
Qed.

(** ** The reservation *)

Lemma reserve_u64_spec hash l incoming r state r' state' :
  state_ok hash l state -> 0 <= incoming -> reserve_u64 l incoming r state = Ok (r', state') ->
  state_ok hash l state' /\ sr_store r' = sr_store r
  /\ sr_bytes r' = sr_bytes r + incoming
  /\ st_pending_bytes state' = st_pending_bytes state + incoming.
Proof.
  intros Hst Hi H. unfold reserve_u64 in H. destruct (Z.eqb_spec incoming 0) as [->|Hne].
  { injection H as <- <-. split_and!; [done|done|lia|lia]. }
  apply bind_ok in H as (t & Ht%ok_or_ok & H). apply bind_ok in H as (c & Hc%ok_or_ok & H).
  apply bind_ok in H as (n & Hn%ok_or_ok & H).
  destruct (Z.ltb_spec (sl_max_bytes l) n); [done|].
  apply bind_ok in H as (p & Hp%ok_or_ok & H). injection H as <- <-. simpl.
  apply checked_add_Some in Ht as [-> _], Hc as [-> _], Hn as [-> _], Hp as [-> _].
  split_and!; try done.
  destruct Hst. split; simpl; try done; lia.
Qed.

Lemma drop_reservation_spec hash l r state :
  state_ok hash l state -> 0 <= sr_bytes r <= st_pending_bytes state ->
  state_ok hash l (drop_reservation r state)
  /\ st_pending_bytes (drop_reservation r state) = st_pending_bytes state - sr_bytes r.
Proof.
  intros Hst Hr. unfold drop_reservation. destruct (Z.eqb_spec (sr_bytes r) 0); [split; [done|lia]|].
  simpl. unfold saturating_sub. rewrite Z.max_l by lia. split; [|done].
  destruct Hst. split; simpl; try done; lia.
Qed.

Lemma reserve_u64_err l incoming r state : reserve_u64 l incoming r state <> Err SE_Io.
Proof.
  unfold reserve_u64. destruct (_ =? 0); [done|]. intros Hx.
  do 3 (apply bind_err in Hx as [[_ ?]%ok_or_err|(? & _ & Hx)]; [done|]).
  destruct (_ <? _); [done|]. by apply bind_err in Hx as [[_ ?]%ok_or_err|(? & _ & ?)].
Qed.

(** ** The capture's invariant *)

Definition capture_ok (store : nat) (cap : StoreCapture) : Prop :=
  sr_store (cp_reservation cap) = store
  /\ 0 <= sr_bytes (cp_reservation cap) /\ 0 <= cp_length cap <= u64_max /\ 0 <= cp_memory_limit cap
  /\ match cp_state cap with
     | CMemory memory =>
         cp_length cap <= cp_memory_limit cap
         /\ (sr_bytes (cp_reservation cap) = 0 /\ len memory = cp_length cap
             \/ cp_memory_limit cap < sr_bytes (cp_reservation cap))
     | CDisk file sample =>
         cp_length cap < sr_bytes (cp_reservation cap)
         \/ len file = cp_length cap /\ sr_bytes (cp_reservation cap) = cp_length cap
     end.

(** A capture that holds [all], whatever was appended to get there. *)
Definition holds (cap : StoreCapture) (all : bytes) : Prop :=
  cp_length cap = len all
  /\ match cp_state cap with
     | CMemory memory => memory = all /\ sr_bytes (cp_reservation cap) = 0
     | CDisk file sample =>
         file = all /\ sr_bytes (cp_reservation cap) = len all /\ sample = sample_of (cp_memory_limit cap) all
     end.

(** A capture that a failed write has broken. *)
Definition overcharged (cap : StoreCapture) : Prop := cp_length cap < sr_bytes (cp_reservation cap).

Lemma capture_ok_start store l memory_limit :
  0 <= memory_limit -> 0 <= sl_max_bytes l ->
  capture_ok store (capture store l memory_limit) /\ holds (capture store l memory_limit) [].
Proof.
  intros Hm Hl. split; [|done]. unfold capture_ok. simpl. split_and!; try done; try lia. by left.
Qed.

(** One [append]: it keeps the invariants; when it succeeds the capture holds one
    chunk more; when the quota refuses nothing changes; after any other failure of
    a write the capture is overcharged, for good. *)
Lemma append_spec hash store l io data cap state res cap' state' :
  state_ok hash l state -> capture_ok store cap ->
  append l io data cap state = (res, cap', state') ->
  state_ok hash l state' /\ capture_ok store cap'
  /\ st_pending_bytes state' - st_pending_bytes state
     = sr_bytes (cp_reservation cap') - sr_bytes (cp_reservation cap)
  /\ (forall all, holds cap all -> res = Ok tt -> holds cap' (all ++ data))
  /\ (overcharged cap -> overcharged cap')
  /\ (res = Err SE_Io -> overcharged cap')
  /\ (forall e, res = Err e -> e <> SE_Io -> cap' = cap /\ state' = state).
Proof.
  intros Hst Hcap H. pose proof Hcap as (Hs & Hr & Hlen & Hm & Hcs). unfold append in H.
  case_bool_decide as Hd.
  { subst data. injection H as <- <- <-. split_and!; try done; try lia. intros all. by rewrite app_nil_r. }
  assert (0 < len data) as Hpos by (destruct data; [done|]; rewrite len_cons; pose proof (len_nonneg data); lia).
  destruct (checked_add u64_max (cp_length cap) (len data)) as [next|] eqn:Hnext;
    [|injection H as <- <- <-; split_and!; (done || lia)].
  apply checked_add_Some in Hnext as [-> Hmax].
  destruct (cp_state cap) as [memory|file sample] eqn:Hstate.
  - destruct (Z.leb_spec (cp_length cap + len data) (cp_memory_limit cap)) as [Hle|Hgt].
    + injection H as <- <- <-. unfold capture_ok, holds, overcharged. simpl. rewrite Hstate.
      split_and!; try done; try lia.
      * destruct Hcs as [_ [[? ?]|?]]; [left|by right]. rewrite len_app. lia.
      * intros all (Hl & -> & Hz) _. rewrite len_app. split; [lia|done].
    + destruct (reserve_u64 _ _ _ _) as [[r state1]|e] eqn:Hres.
      2:{ injection H as <- <- <-. split_and!; try done; try lia.
          intros [= ->]. by apply reserve_u64_err in Hres. }
      apply (reserve_u64_spec hash) in Hres as (Hst1 & Hs1 & Hb & Hp); [|done|lia].
      destruct Hcs as [Hcl Hcs].
      destruct io as [| |left_]; injection H as <- <- <-; unfold capture_ok, holds, overcharged; simpl;
        rewrite ?Hstate, ?Hs1; split_and!; try done; try lia; try by intros e [= <-].
      * rewrite len_app. destruct Hcs as [[? ?]|?]; [right|left]; lia.
      * intros all (Hl & -> & Hz) _. rewrite len_app. split; [lia|]. split; [done|]. split; [lia|].
        rewrite CaptureSample_new_spec by done.
        rewrite (observe_spec _ [] all) by (rewrite ?len_nil; lia). simpl.
        by rewrite observe_spec by lia.
  - destruct (reserve_u64 _ _ _ _) as [[r state1]|e] eqn:Hres.
    2:{ injection H as <- <- <-. split_and!; try done; try lia.
        intros [= ->]. by apply reserve_u64_err in Hres. }
    apply (reserve_u64_spec hash) in Hres as (Hst1 & Hs1 & Hb & Hp); [|done|lia].
    destruct io as [| |left_]; injection H as <- <- <-; unfold capture_ok, holds, overcharged; simpl;
      rewrite ?Hstate, ?Hs1; split_and!; try done; try lia; try by intros e [= <-].
    + rewrite len_app. destruct Hcs as [?|[? ?]]; [left|right]; lia.
    + intros all (Hl & -> & Hz & ->) _. rewrite len_app. split; [lia|]. split; [done|]. split; [lia|].
      by rewrite observe_spec by lia.
Qed.

(** ** The store with its captures *)

Section System.
Context (hash : bytes -> list Z) (store : nat) (l : StoreLimits).
Hypothesis Hbytes : 0 <= sl_max_bytes l <= u64_max.
Hypothesis Hentries : 0 <= sl_max_entries l < u64_max.

Lemma finish_spec io cap c :
  capture_ok store cap -> finish io cap = Ok c ->
  pending_ok hash store (cc_pending c)
  /\ reserved (cc_pending c) = sr_bytes (cp_reservation cap)
  /\ (overcharged cap -> forall value, value = cc_pending c -> forall rest,
        check_reservations store (value :: rest) = Err SE_ReservationMismatch)
  /\ forall all, holds cap all ->
       (exists c', pc_content (cc_pending c) = Some c' /\ storage_bytes (ct_storage c') = all)
       /\ view c = match cp_state cap with
                   | CMemory _ => Complete all
                   | CDisk _ _ =>
                       let head := Z.to_nat (cp_memory_limit cap / 2) in
                       Sampled (take head all) (all !! head)
                         (last_bytes (cp_memory_limit cap - cp_memory_limit cap / 2) (drop head all))
                   end.
Proof.
  intros (Hs & Hr & Hlen & Hm & Hcs) H. unfold finish in H.
  assert (exists storage sample, c = mkCaptured (mkPending None (Some (mkContent (cp_length cap) storage))
      (Some (cp_reservation cap))) sample
    /\ match cp_state cap with
       | CMemory memory => storage = Memory memory
       | CDisk file s => storage = Disk file /\ sample = Some s
       end) as (storage & sample & -> & Hst).
  { destruct (cp_state cap); simpl in H; [|destruct io; [|done]; simpl in H];
      injection H as <-; eexists _, _; split; done. }
  split; [|split; [done|split]].
  - split; simpl; [|done|lia]. eexists. split; [done|]. unfold content_ok. simpl.
    destruct (cp_state cap) as [memory|file s].
    + subst storage. simpl. destruct Hcs as [? [[? ?]|?]]; [by left|right].
      eexists. split; [done|lia].
    + destruct Hst as [-> _]. simpl. destruct Hcs as [?|[? ?]]; [right|by left].
      by eexists.
  - intros Hover value -> rest. simpl. rewrite (proj2 (Z.ltb_lt _ _) Hover).
    by rewrite orb_true_r.
  - intros all [Hl Hh]. simpl. destruct (cp_state cap) as [memory|file s].
    + subst storage. destruct Hh as [-> _]. split; [|done]. by eexists.
    + destruct Hst as [-> ->]. destruct Hh as (-> & _ & ->). split; [by eexists|done].
Qed.

Definition slot_reserved (slot : Slot) : Z :=
  match slot with
  | SOpen cap => sr_bytes (cp_reservation cap)
  | SDone c => reserved (cc_pending c)
  | SGone => 0
  end.

Definition slot_ok (slot : Slot) : Prop :=
  match slot with
  | SOpen cap => capture_ok store cap
  | SDone c => pending_ok hash store (cc_pending c)
  | SGone => True
  end.

Record system_ok (sys : StoreSystem) : Prop := {
  sy_ok : state_ok hash l (sx_state sys);
  sy_pending : st_pending_bytes (sx_state sys) = zsum slot_reserved (sx_slots sys);
  sy_slots : Forall slot_ok (sx_slots sys);
}.

Lemma slot_reserved_nonneg slot : slot_ok slot -> 0 <= slot_reserved slot.
Proof. destruct slot; simpl; [intros (_ & ? & _); lia|intros [_ _ ?]; done|done]. Qed.

Lemma slots_reserved_nonneg slots : Forall slot_ok slots -> 0 <= zsum slot_reserved slots.
Proof.
  induction 1 as [|slot slots Hs _ IH]; [done|]. rewrite zsum_cons.
  apply slot_reserved_nonneg in Hs. lia.
Qed.

Lemma slot_reserved_le slots i slot :
  Forall slot_ok slots -> slots !! i = Some slot ->
  0 <= slot_reserved slot <= zsum slot_reserved slots.
Proof.
  intros HF Hi. pose proof (proj1 (list.Forall_lookup _ _) HF i slot Hi) as Hs.
  split; [by apply slot_reserved_nonneg|].
  assert (Forall slot_ok (<[i := SGone]> slots)) as HF' by (by apply Forall_insert).
  apply slots_reserved_nonneg in HF'. rewrite (zsum_insert _ _ _ _ _ Hi) in HF'. simpl in HF'. lia.
Qed.

(** A slot changes together with the charge of the store. *)
Lemma set_slot_ok sys i slot slot' state :
  system_ok sys -> sx_slots sys !! i = Some slot -> slot_ok slot' ->
  state_ok hash l state ->
  st_pending_bytes state - st_pending_bytes (sx_state sys) = slot_reserved slot' - slot_reserved slot ->
  system_ok (set_slot sys i slot' state).
Proof.
  intros [Hst Hp HF] Hi Hs' Hst' Hd. split; simpl; [done| |by apply Forall_insert].
  rewrite (zsum_insert _ _ _ _ _ Hi). lia.
Qed.

Lemma drop_pending_spec pending : forall state,
  state_ok hash l state -> Forall (pending_ok hash store) pending ->
  zsum reserved pending <= st_pending_bytes state ->
  state_ok hash l (drop_pending pending state)
  /\ st_pending_bytes (drop_pending pending state) = st_pending_bytes state - zsum reserved pending.
Proof.
  induction pending as [|value pending IH]; intros state Hst HF Hle; simpl.
  { rewrite zsum_nil. split; [done|lia]. }
  apply list.Forall_cons in HF as [[_ _ Hv] HF]. rewrite zsum_cons in *. change (0 <= reserved value) in Hv.
  destruct (IH state Hst HF) as [Hst' Hp]; [lia|]. fold (drop_pending pending state).
  assert (0 <= zsum reserved pending) as Hz.
  { clear -HF. induction HF as [|v vs [_ _ Hv] _ IH]; [done|]. rewrite zsum_cons.
    change (0 <= reserved v) in Hv. lia. }
  assert (reserved value = reservation_bytes (pc_reservation value)) as Hrv by done. rewrite Hrv in *.
  destruct (pc_reservation value) as [r|]; simpl in *; [|split; [done|lia]].
  apply (drop_reservation_spec hash l r) in Hst' as [Hst'' Hp']; [split; [done|lia]|lia].
Qed.

Lemma take_slots_spec slots is_ captures :
  NoDup is_ -> mapM (captured_at slots) is_ = Some captures -> Forall slot_ok slots ->
  Forall slot_ok (take_slots slots is_)
  /\ zsum slot_reserved (take_slots slots is_)
     = zsum slot_reserved slots - zsum reserved (cc_pending <$> captures)
  /\ (forall j, j ∉ is_ -> take_slots slots is_ !! j = slots !! j)
  /\ Forall (pending_ok hash store) (cc_pending <$> captures).
Proof.
  intros Hnd Hm HF. apply mapM_Some in Hm. induction Hm as [|i c is_ captures Hi Hm IH]; simpl.
  { rewrite zsum_nil. split_and!; [done|lia|done|constructor]. }
  apply list.NoDup_cons in Hnd as [Hni Hnd]. destruct (IH Hnd) as (HF' & Hsum & Hlk & Hp).
  unfold captured_at in Hi. destruct (slots !! i) as [[cap|c'|]|] eqn:Hs; try done. injection Hi as ->.
  fold (take_slots slots is_). split_and!.
  - by apply Forall_insert.
  - rewrite (zsum_insert _ _ _ (SDone c)) by (rewrite Hlk; done). rewrite Hsum, ?fmap_cons, zsum_cons. simpl. unfold fmap. lia.
  - intros j [Hji Hj]%not_elem_of_cons. rewrite list_lookup_insert_ne by done. by apply Hlk.
  - constructor; [|done]. by apply (proj1 (list.Forall_lookup _ _) HF i (SDone c)).
Qed.

Lemma prepare_bytes_ok io data value :
  prepare_bytes hash io data = Ok value ->
  pending_ok hash store value /\ reserved value = 0
  /\ exists c, pc_content value = Some c /\ storage_bytes (ct_storage c) = data.
Proof.
  intros H. unfold prepare_bytes in H. apply bind_ok in H as (storage & Hs & H). injection H as <-.
  assert (storage_bytes storage = data) as Hd
    by (destruct (_ <=? _); [|destruct io]; by simplify_eq/=).
  split; [|split; [done|by eexists]]. split; simpl; [|intros id c [= <-] [= <-]; simpl|done].
  - eexists. split; [done|]. left. unfold content_ok. simpl. by rewrite Hd.
  - unfold content_ok. simpl. by rewrite Hd.
Qed.

Lemma prepare_all_ok io contents pending :
  mapM (prepare_bytes hash io) contents = Ok pending ->
  Forall (pending_ok hash store) pending /\ zsum reserved pending = 0
  /\ Forall2 (fun data value => exists c, pc_content value = Some c
       /\ storage_bytes (ct_storage c) = data) contents pending.
Proof.
  intros H%mapM_ok. induction H as [|data value contents pending Hv _ (IH1 & IH2 & IH3)].
  { split_and!; constructor. }
  apply prepare_bytes_ok in Hv as (? & Hz & ?). rewrite zsum_cons, Hz, IH2.
  split_and!; by constructor.
Qed.

Lemma entry_lease_ok state alias e n :
  state_ok hash l state -> st_by_alias state !! alias = Some e ->
  state_ok hash l (with_entry state alias (mkEntry (en_content_id e) (en_content e) n)).
Proof.
  intros [[Ha Hc He] Hb Hp Hq Hn Hx] Hlk. split; simpl; try done.
  - split.
    + intros a e' [[<- <-]|[Hne Hlk']]%lookup_insert_Some; [exact (Ha _ _ Hlk)|by apply Ha].
    + intros id a Hid. destruct (Hc _ _ Hid) as (e' & Hlk' & Hid').
      destruct (decide (alias = a)) as [->|Hne].
      * rewrite lookup_insert_eq. eexists. split; [done|]. simpl. congruence.
      * exists e'. by rewrite lookup_insert_ne.
    + intros a e' [[<- <-]|[Hne Hlk']]%lookup_insert_Some; [exact (He _ _ Hlk)|exact (He _ _ Hlk')].
  - by rewrite (entries_bytes_replace _ _ _ _ Hlk).
  - rewrite map_size_insert_Some by (by eexists). done.
Qed.

Lemma release_ok alias state state' :
  state_ok hash l state -> release alias state = Ok state' ->
  state_ok hash l state' /\ st_pending_bytes state' = st_pending_bytes state.
Proof.
  intros [[Ha Hc He] Hb Hp Hq Hn Hx] H. unfold release in H.
  apply bind_ok in H as (e & Hlk%ok_or_ok & H). destruct (negb _); [done|].
  destruct (Z.ltb_spec (st_bytes state) (ct_length (en_content e))); [done|]. injection H as <-.
  split; [|done]. destruct (Ha _ _ Hlk) as [Hr Hid]. split; simpl; try done.
  - split.
    + intros a e' [Hne Hlk']%lookup_delete_Some. destruct (Ha _ _ Hlk') as [? Hid'].
      split; [done|]. rewrite lookup_delete_ne; [done|]. intros Heq. rewrite Heq in Hid. congruence.
    + intros id a [Hne Hid']%lookup_delete_Some. destruct (Hc _ _ Hid') as (e' & Hlk' & <-).
      exists e'. rewrite lookup_delete_ne; [done|]. intros <-. congruence.
    + intros a e' [Hne Hlk']%lookup_delete_Some. by apply (He a).
  - rewrite (entries_bytes_delete _ _ _ Hlk). lia.
  - destruct (He _ _ Hlk) as [Hok _]. apply content_ok_nonneg in Hok. lia.
  - rewrite map_size_delete_Some by (by eexists). lia.
Qed.

Lemma store_step_ok sys ev : system_ok sys -> system_ok (store_step hash store l sys ev).
Proof.
  intros Hsys. pose proof Hsys as [Hst Hp HF].
  assert (forall m, (forall state, m = Ok state -> state_ok hash l state
      /\ st_pending_bytes state = st_pending_bytes (sx_state sys)) -> system_ok (with_state sys m)) as Hwith.
  { intros [state|e] Hm; [|done]. destruct (Hm _ eq_refl) as [? Hpe]. split; simpl; [done|congruence|done]. }
  destruct ev as [memory_limit|i io data|i io|i|io contents|io is_|alias|alias|alias]; simpl.
  - split; simpl; [done| |].
    + rewrite zsum_app, zsum_cons, zsum_nil. simpl. lia.
    + apply Forall_app. split; [done|]. constructor; [|constructor].
      apply capture_ok_start; lia.
  - destruct (sx_slots sys !! i) as [[cap|?|]|] eqn:Hi; try done.
    pose proof (proj1 (list.Forall_lookup _ _) HF i _ Hi) as Hcap.
    destruct (append l io data cap (sx_state sys)) as [[res cap'] state'] eqn:Ha.
    destruct (append_spec hash store l _ _ _ _ _ _ _ Hst Hcap Ha) as (? & ? & ? & _).
    by apply set_slot_ok with (SOpen cap).
  - destruct (sx_slots sys !! i) as [[cap|?|]|] eqn:Hi; try done.
    pose proof (proj1 (list.Forall_lookup _ _) HF i _ Hi) as Hcap.
    destruct (finish io cap) as [c|e] eqn:Hf.
    + destruct (finish_spec _ _ _ Hcap Hf) as (Hpk & Hr & _).
      apply set_slot_ok with (SOpen cap); try done. simpl. lia.
    + destruct (slot_reserved_le _ _ _ HF Hi) as [? Hle]. simpl in Hle.
      destruct (drop_reservation_spec hash l (cp_reservation cap) (sx_state sys) Hst); [simpl in *; lia|].
      apply set_slot_ok with (SOpen cap); try done. simpl. lia.
  - destruct (sx_slots sys !! i) as [slot|] eqn:Hi; [|done].
    destruct (slot_reserved_le _ _ _ HF Hi) as [Hnn Hle].
    pose proof (proj1 (list.Forall_lookup _ _) HF i _ Hi) as Hslot. destruct slot as [cap|c|]; [| |done].
    + destruct (drop_reservation_spec hash l (cp_reservation cap) (sx_state sys) Hst); [simpl in *; lia|].
      apply set_slot_ok with (SOpen cap); try done. simpl. lia.
    + destruct (drop_pending_spec [cc_pending c] (sx_state sys) Hst) as [Hd1 Hd2].
      { by constructor. }
      { rewrite zsum_cons, zsum_nil. simpl in Hle. lia. }
      rewrite zsum_cons, zsum_nil in Hd2. apply set_slot_ok with (SDone c); try done. simpl in *. lia.
  - apply Hwith. intros state H%fmap_ok. destruct H as ([aliases state1] & H & ->).
    unfold retain_many in H. apply bind_ok in H as (pending & Hpre & H).
    apply prepare_all_ok in Hpre as (Hpk & Hz & _).
    apply (retain_pending_spec hash) in H as (? & Hpe & _); [|done|lia|done]. split; [done|]. simpl. lia.
  - unfold retain_captures. case_bool_decide as Hnd; simpl; [|done].
    destruct (mapM (captured_at (sx_slots sys)) is_) as [captures|] eqn:Hm; simpl; [|done].
    destruct (take_slots_spec _ _ _ Hnd Hm HF) as (HF' & Hsum & _ & Hpk).
    destruct (retain_pending _ _ _ _ _ _) as [[aliases state]|e] eqn:Hr.
    + apply (retain_pending_spec hash) in Hr as (? & Hpe & _); [|done|lia|done].
      split; simpl; [done|lia|done].
    + assert (zsum reserved (cc_pending <$> captures) <= st_pending_bytes (sx_state sys)) as Hle.
      { apply slots_reserved_nonneg in HF'. lia. }
      destruct (drop_pending_spec _ _ Hst Hpk Hle). split; simpl; [done|lia|done].
  - apply Hwith. intros state H%fmap_ok. destruct H as ([c state1] & H & ->). unfold get in H.
    apply bind_ok in H as (e & Hlk%ok_or_ok & H). injection H as <- <-. split; [|done].
    by apply entry_lease_ok.
  - split; simpl; [|unfold drop_lease; by destruct (_ !! alias)|done]. unfold drop_lease.
    destruct (_ !! alias) as [e|] eqn:Hlk; [|done]. by apply entry_lease_ok.
  - apply Hwith. intros state H. by apply (release_ok alias).
Qed.

Lemma store_run_ok events sys : system_ok sys -> system_ok (store_run hash store l events sys).
Proof.
  revert sys. induction events as [|ev events IH]; intros sys Hsys; [done|]. simpl.
  by apply IH, store_step_ok.
Qed.

(** ** Aliases are never reused *)

(** A later state: an alias that was handed out keeps its content or is gone. *)
Definition later (s s' : State) : Prop :=
  st_next_alias s <= st_next_alias s'
  /\ forall alias e', alias < st_next_alias s -> st_by_alias s' !! alias = Some e' ->
       exists e, st_by_alias s !! alias = Some e /\ en_content e = en_content e'
                 /\ en_content_id e = en_content_id e'.

#[export] Instance later_preorder : PreOrder later.
Proof.
  split.
  - intros s. split; [lia|]. intros alias e' _ He. by exists e'.
  - intros s1 s2 s3 [L1 H1] [L2 H2]. split; [lia|]. intros alias e3 Ha He3.
    destruct (H2 alias e3) as (e2 & He2 & ? & ?); [lia|done|].
    destruct (H1 alias e2) as (e1 & He1 & ? & ?); [lia|done|]. exists e1. split_and!; [done|congruence..].
Qed.

Lemma later_tables s s' :
  st_next_alias s' = st_next_alias s -> st_by_alias s' ⊆ st_by_alias s -> later s s'.
Proof.
  intros Hn Hs. split; [lia|]. intros alias e' _ He. exists e'. split; [|done].
  by eapply lookup_weaken.
Qed.

Lemma later_lease s alias e n :
  st_by_alias s !! alias = Some e ->
  later s (with_entry s alias (mkEntry (en_content_id e) (en_content e) n)).
Proof.
  intros Hlk. split; simpl; [lia|]. intros a e' _ [[<- <-]|[_ He]]%lookup_insert_Some; [by exists e|by exists e'].
Qed.

Lemma retain_later io pending state aliases state' :
  state_ok hash l state -> Forall (pending_ok hash store) pending ->
  retain_pending hash io store l pending state = Ok (aliases, state') -> later state state'.
Proof.
  intros Hst HF H. apply (retain_pending_spec hash) in H as (_ & _ & items & _ & Hitems & Ha); [|done|lia|done].
  destruct (assign_spec hash _ _ _ _ _ _ _ _ Ha (ok_tables _ _ _ Hst)
    (proj1 (ok_next _ _ _ Hst)) Hitems) as (_ & Hle & _ & _ & _ & Hold).
  split; [done|]. intros alias e' Hlt He'. destruct (Hold _ _ He') as [?|[? _]]; [by exists e'|lia].
Qed.

Lemma drop_pending_frame pending state :
  st_next_alias (drop_pending pending state) = st_next_alias state
  /\ st_by_alias (drop_pending pending state) = st_by_alias state.
Proof.
  induction pending as [|value pending [IH1 IH2]]; [done|]. simpl.
  destruct (pc_reservation value) as [r|]; [|done]. unfold drop_reservation.
  by destruct (_ =? 0).
Qed.

Lemma drop_reservation_later r s : later s (drop_reservation r s).
Proof. unfold drop_reservation. destruct (_ =? 0); [done|]. by apply later_tables. Qed.

Lemma reserve_later incoming r s r' s' : reserve_u64 l incoming r s = Ok (r', s') -> later s s'.
Proof.
  intros H. unfold reserve_u64 in H. destruct (_ =? 0); [by injection H as <- <-|].
  do 3 apply bind_ok in H as (? & _ & H). destruct (_ <? _); [done|].
  apply bind_ok in H as (? & _ & H). injection H as <- <-. by apply later_tables.
Qed.

Lemma append_later io data cap s res cap' s' :
  append l io data cap s = (res, cap', s') -> later s s'.
Proof.
  unfold append. intros H. case_bool_decide; [by simplify_eq|].
  destruct (checked_add _ _ _); [|by simplify_eq].
  destruct (cp_state cap); [destruct (_ <=? _); [by simplify_eq|]|];
    (destruct (reserve_u64 _ _ _ _) as [[r s1]|] eqn:Hr; [|by simplify_eq]);
    apply reserve_later in Hr; destruct io; by simplify_eq.
Qed.

Lemma store_step_later sys ev :
  system_ok sys -> later (sx_state sys) (sx_state (store_step hash store l sys ev)).
Proof.
  intros [Hst Hp HF].
  destruct ev as [memory_limit|i io data|i io|i|io contents|io is_|alias|alias|alias]; simpl.
  - done.
  - destruct (sx_slots sys !! i) as [[cap|?|]|]; try done.
    destruct (append l io data cap (sx_state sys)) as [[res cap'] state'] eqn:Ha. by eapply append_later.
  - destruct (sx_slots sys !! i) as [[cap|?|]|]; try done.
    destruct (finish io cap); [done|]. apply drop_reservation_later.
  - destruct (sx_slots sys !! i) as [[cap|c|]|]; try done; simpl; [apply drop_reservation_later|].
    destruct (pc_reservation _); [apply drop_reservation_later|done].
  - destruct (retain_many _ _ _ _ _ _) as [[aliases state]|] eqn:H; simpl; [|done].
    unfold retain_many in H. apply bind_ok in H as (pending & Hpre & H).
    apply prepare_all_ok in Hpre as (Hpk & _). by eapply retain_later.
  - unfold retain_captures. case_bool_decide as Hnd; simpl; [|done].
    destruct (mapM (captured_at (sx_slots sys)) is_) as [captures|] eqn:Hm; simpl; [|done].
    destruct (take_slots_spec _ _ _ Hnd Hm HF) as (_ & _ & _ & Hpk).
    destruct (retain_pending _ _ _ _ _ _) as [[aliases state]|e] eqn:Hr; simpl; [by eapply retain_later|].
    destruct (drop_pending_frame (cc_pending <$> captures) (sx_state sys)) as [H1 H2].
    apply later_tables; [done|by rewrite H2].
  - unfold get. destruct (st_by_alias (sx_state sys) !! alias) as [e|] eqn:Hlk; simpl; [|done].
    by apply later_lease.
  - unfold drop_lease. destruct (st_by_alias (sx_state sys) !! alias) as [e|] eqn:Hlk; [|done].
    by apply later_lease.
  - destruct (release alias (sx_state sys)) as [s|] eqn:H; simpl; [|done]. unfold release in H.
    apply bind_ok in H as (e & _ & H). destruct (negb _); [done|]. destruct (_ <? _); [done|].
    injection H as <-. apply later_tables; [done|]. apply delete_subseteq.
Qed.

Lemma store_run_later events sys :
  system_ok sys -> later (sx_state sys) (sx_state (store_run hash store l events sys)).
Proof.
  revert sys. induction events as [|ev events IH]; intros sys Hsys; [done|]. simpl.
  etrans; [by apply store_step_later|]. by apply IH, store_step_ok.
Qed.

(** An alias goes by a release of it only. *)
Definition lasts (alias : Z) (s s' : State) : Prop :=
  is_Some (st_by_alias s !! alias) -> is_Some (st_by_alias s' !! alias).

#[export] Instance lasts_preorder alias : PreOrder (lasts alias).
Proof. unfold lasts. split; [by intros s|]. intros s1 s2 s3 H1 H2 H. auto. Qed.

Lemma lasts_tables alias s s' : st_by_alias s ⊆ st_by_alias s' -> lasts alias s s'.
Proof. intros Hs [e He]. exists e. by eapply lookup_weaken. Qed.

Lemma lasts_entry alias s a e : lasts alias s (with_entry s a e).
Proof. intros H. simpl. destruct (decide (a = alias)) as [->|Hne]; [by rewrite lookup_insert_eq|by rewrite lookup_insert_ne]. Qed.

Lemma retain_lasts alias io pending state aliases state' :
  state_ok hash l state -> Forall (pending_ok hash store) pending ->
  retain_pending hash io store l pending state = Ok (aliases, state') -> lasts alias state state'.
Proof.
  intros Hst HF H. apply (retain_pending_spec hash) in H as (_ & _ & items & _ & Hitems & Ha); [|done|lia|done].
  destruct (assign_spec hash _ _ _ _ _ _ _ _ Ha (ok_tables _ _ _ Hst)
    (proj1 (ok_next _ _ _ Hst)) Hitems) as (_ & _ & Hsub & _). by apply lasts_tables.
Qed.

Lemma drop_reservation_lasts alias r s : lasts alias s (drop_reservation r s).
Proof. unfold drop_reservation. destruct (_ =? 0); [done|]. by apply lasts_tables. Qed.

Lemma drop_pending_lasts alias pending s : lasts alias s (drop_pending pending s).
Proof. destruct (drop_pending_frame pending s) as [_ H]. apply lasts_tables. by rewrite H. Qed.

Lemma append_table io data cap s res cap' s' :
  append l io data cap s = (res, cap', s') -> st_by_alias s' = st_by_alias s.
Proof.
  unfold append. intros H. case_bool_decide; [by simplify_eq|].
  destruct (checked_add _ _ _); [|by simplify_eq].
  assert (forall incoming r r' s1, reserve_u64 l incoming r s = Ok (r', s1) -> st_by_alias s1 = st_by_alias s) as Hres.
  { intros incoming r r' s1 Hr. unfold reserve_u64 in Hr. destruct (_ =? 0); [by injection Hr as <- <-|].
    do 3 apply bind_ok in Hr as (? & _ & Hr). destruct (_ <? _); [done|].
    apply bind_ok in Hr as (? & _ & Hr). by injection Hr as <- <-. }
  destruct (cp_state cap); [destruct (_ <=? _); [by simplify_eq|]|];
    (destruct (reserve_u64 _ _ _ _) as [[r s1]|] eqn:Hr; [|by simplify_eq]);
    apply Hres in Hr; destruct io; by simplify_eq.
Qed.

Lemma release_table alias s s' : release alias s = Ok s' -> st_by_alias s' = delete alias (st_by_alias s).
Proof.
  intros H. unfold release in H. apply bind_ok in H as (e & _ & H). destruct (negb _); [done|].
  destruct (_ <? _); [done|]. by injection H as <-.
Qed.

Lemma store_step_lasts alias sys ev :
  system_ok sys -> ev <> ERelease alias -> lasts alias (sx_state sys) (sx_state (store_step hash store l sys ev)).
Proof.
  intros [Hst Hp HF] Hev.
  destruct ev as [memory_limit|i io data|i io|i|io contents|io is_|a|a|a]; simpl.
  - done.
  - destruct (sx_slots sys !! i) as [[cap|?|]|]; try done.
    destruct (append l io data cap (sx_state sys)) as [[res cap'] state'] eqn:Ha. apply lasts_tables. simpl.
    by rewrite (append_table _ _ _ _ _ _ _ Ha).
  - destruct (sx_slots sys !! i) as [[cap|?|]|]; try done.
    destruct (finish io cap); [done|]. apply drop_reservation_lasts.
  - destruct (sx_slots sys !! i) as [[cap|c|]|]; try done; simpl; [apply drop_reservation_lasts|].
    apply (drop_pending_lasts _ [cc_pending c]).
  - destruct (retain_many _ _ _ _ _ _) as [[aliases state]|] eqn:H; simpl; [|done].
    unfold retain_many in H. apply bind_ok in H as (pending & Hpre & H).
    apply prepare_all_ok in Hpre as (Hpk & _). by eapply retain_lasts.
  - unfold retain_captures. case_bool_decide as Hnd; simpl; [|done].
    destruct (mapM (captured_at (sx_slots sys)) is_) as [captures|] eqn:Hm; simpl; [|done].
    destruct (take_slots_spec _ _ _ Hnd Hm HF) as (_ & _ & _ & Hpk).
    destruct (retain_pending _ _ _ _ _ _) as [[aliases state]|e] eqn:Hr; simpl; [by eapply retain_lasts|].
    apply drop_pending_lasts.
  - unfold get. destruct (st_by_alias (sx_state sys) !! a) as [e|]; simpl; [|done]. apply lasts_entry.
  - unfold drop_lease. destruct (st_by_alias (sx_state sys) !! a) as [e|]; [|done]. apply lasts_entry.
  - destruct (release a (sx_state sys)) as [s|] eqn:H; simpl; [|done]. intros Hs.
    rewrite (release_table _ _ _ H), lookup_delete_ne; [done|]. by intros ->.
Qed.

Lemma store_run_lasts alias events sys :
  system_ok sys -> ERelease alias ∉ events ->
  lasts alias (sx_state sys) (sx_state (store_run hash store l events sys)).
Proof.
  revert sys. induction events as [|ev events IH]; intros sys Hsys Hn; [done|]. simpl.
  apply not_elem_of_cons in Hn as [Hne Hn].
  etrans; [exact (store_step_lasts alias sys ev Hsys (not_eq_sym Hne))|]. by apply IH; [apply store_step_ok|].
Qed.
End System.

(** ** Reading back *)

Lemma read_back c data :
  content_ok c -> storage_bytes (ct_storage c) = data -> len data < u64_max ->
  (forall max_bytes, len data <= max_bytes -> read_all true c max_bytes = Ok data)
  /\ forall offset length max_bytes, 0 <= offset -> 0 <= length <= max_bytes ->
       read_range true c offset length max_bytes
       = Some (Ok (take (Z.to_nat length) (drop (Z.to_nat offset) data))).
Proof.
  unfold content_ok. intros Hok Hd Hmax. rewrite Hd in Hok. split.
  - intros max Hle. unfold read_all. destruct (Z.ltb_spec max (ct_length c)); [lia|].
    destruct (ct_storage c) as [b|file]; simpl in Hd; subst; [done|]. simpl.
    unfold checked_add. destruct (Z.leb_spec (ct_length c + 1) u64_max); [|lia]. simpl.
    rewrite take_ge by (unfold len in *; lia). by rewrite Hok, Z.eqb_refl.
  - intros offset length max Ho Hl. unfold read_range. destruct (Z.ltb_spec max length); [lia|].
    set (start := Z.min offset (ct_length c)).
    set (actual := Z.min length (saturating_sub (ct_length c) start)).
    assert (take (Z.to_nat actual) (drop (Z.to_nat start) data)
      = take (Z.to_nat length) (drop (Z.to_nat offset) data)) as Heq.
    { unfold start, actual, saturating_sub, len in *.
      destruct (Z.min_spec offset (ct_length c)) as [[? ->]|[? ->]].
      - rewrite <- (take_clamp (Z.to_nat length)), length_drop. f_equal. lia.
      - rewrite !drop_ge by lia. by rewrite !take_nil. }
    destruct (ct_storage c) as [b|file]; simpl in Hd; subst; simpl.
    + destruct (Z.ltb_spec (len data) (start + actual)) as [Hlt|]; [|by rewrite Heq].
      unfold actual, start, saturating_sub in Hlt. pose proof (len_nonneg data). lia.
    + destruct (Z.ltb_spec (len (drop (Z.to_nat start) data)) actual) as [Hlt|]; [|by rewrite Heq].
      unfold actual, start, saturating_sub, len in *. rewrite length_drop in Hlt. lia.
Qed.

(** What an entry of a sound store holds is read back through its alias. *)
Lemma entry_read_back hash l s alias e data :
  state_ok hash l s -> sl_max_bytes l < u64_max -> st_by_alias s !! alias = Some e ->
  storage_bytes (ct_storage (en_content e)) = data ->
  (forall max_bytes, len data <= max_bytes -> read_all true (en_content e) max_bytes = Ok data)
  /\ forall offset length max_bytes, 0 <= offset -> 0 <= length <= max_bytes ->
       read_range true (en_content e) offset length max_bytes
       = Some (Ok (take (Z.to_nat length) (drop (Z.to_nat offset) data))).
Proof.
  intros Hst Hbytes He Hd. destruct (to_entries _ _ _ _ (ok_tables _ _ _ Hst) _ _ He) as [Hok _].
  apply read_back; [done|done|]. unfold content_ok in Hok. rewrite Hd in Hok. rewrite Hok.
  pose proof (entry_length_le _ _ _ _ _ _ (ok_tables _ _ _ Hst) He).
  pose proof (ok_quota _ _ _ Hst). pose proof (ok_pending _ _ _ Hst).
  rewrite (ok_bytes _ _ _ Hst) in *. lia.
Qed.

(** What [retain_many] retained is in the store under the aliases it gave. *)
Lemma retained_entries (hash : bytes -> list Z) (io : bool) (store : nat) (l : StoreLimits)
    (contents : list bytes) (state state' : State) (aliases : list Z)
    (Hstate : state_ok hash l state) (Hentries : sl_max_entries l < u64_max)
    (Hretain : retain_many hash io store l contents state = Ok (aliases, state')) :
  state_ok hash l state' /\ st_pending_bytes state' = st_pending_bytes state
  /\ Forall2 (fun data alias => exists e, st_by_alias state' !! alias = Some e
       /\ storage_bytes (ct_storage (en_content e)) = data) contents aliases.
Proof.
  unfold retain_many in Hretain. apply bind_ok in Hretain as (pending & Hpre & H).
  apply (prepare_all_ok hash store) in Hpre as (Hpk & Hz & Hdata).
  pose proof (retain_pending_bytes hash io store l _ _ _ _ Hstate Hentries Hpk H) as Hb.
  apply (retain_pending_spec hash) in H as (Hst' & Hpe & _); [|done..].
  split; [done|]. split; [by rewrite Hpe, Hz, Z.sub_0_r|].
  apply Forall2_same_length_lookup. split.
  { apply Forall2_length in Hdata, Hb. congruence. }
  intros k data alias Hk Ha. destruct (Forall2_lookup_l _ _ _ _ _ Hdata Hk) as (value & Hv & c0 & Hc0 & Hd).
  destruct (Forall2_lookup_lr _ _ _ _ _ _ Hb Hv Ha) as (c & e & Hc & He & Hsame).
  exists e. split; [done|]. unfold same_bytes in Hsame. congruence.
Qed.

(** What [retain_many] retained is read back through the aliases it gave. *)
Lemma retained_back (hash : bytes -> list Z) (io : bool) (store : nat) (l : StoreLimits)
    (contents : list bytes) (state state' : State) (aliases : list Z)
    (Hstate : state_ok hash l state) (Hbytes : sl_max_bytes l < u64_max)
    (Hentries : sl_max_entries l < u64_max)
    (Hretain : retain_many hash io store l contents state = Ok (aliases, state')) :
  Forall2 (fun data alias => exists c state'', get alias state' = Ok (c, state'')
    /\ (forall max_bytes, len data <= max_bytes -> read_all true c max_bytes = Ok data)
    /\ forall offset length max_bytes, 0 <= offset -> 0 <= length <= max_bytes ->
         read_range true c offset length max_bytes
         = Some (Ok (take (Z.to_nat length) (drop (Z.to_nat offset) data)))) contents aliases.
Proof.
  destruct (retained_entries _ _ _ _ _ _ _ _ Hstate Hentries Hretain) as (Hst' & _ & H).
  revert H. apply Forall2_impl. cbn. intros data alias (e & He & Hd). unfold get. rewrite He.
  eexists _, _. split; [done|]. by eapply entry_read_back.
Qed.
