(* ===== verification/Reducer.v ===== *)
(** * Reducer: shortening the output of commands

    [reducer.rs].  A [&str] is its UTF-8 bytes, which is what offsets and lengths
    count.  Rayon collects in index order, so a parallel map is a map; where the
    source partitions its input, the partitions are modelled.  Line numbers and
    offsets are natural numbers: they index a text that is in memory.  An index out
    of range would panic; [ReducerFacts] shows every index is in range, so the
    defaults of the look-ups below are never used. *)

From S2P Require Import Prelude Text.

Definition PARALLEL_LINE_THRESHOLD : nat := 2048.
Definition PARTITION_LINES : nat := 1024.
Definition BLOCK_CANDIDATE_BATCH_LINES : nat := 4096.
Definition MAX_BLOCK_LINES : nat := 32.
Definition ERROR_CONTEXT_BEFORE : nat := 2.
Definition ERROR_CONTEXT_AFTER : nat := 6.
Definition ERROR_EDGE_LINES : nat := 2.
Definition REPEAT_SYMBOL : char := 215.
Definition OMISSION_SYMBOL : char := 8943.

Definition ERROR_ANCHOR_TERMS : list bytes :=
  [L "error"; L "fatal"; L "panic"; L "panicked"; L "failed"; L "failure"; L "failures";
   L "exception"; L "traceback"; L "abort"; L "aborted"; L "assertion"; L "segmentation fault";
   L "access violation"; L "undefined reference"; L "unhandled"].

Record ErrorFocusedReduction : Type := mkFocused {
  ef_text : bytes; ef_diagnostic_lines : nat; ef_omitted_spans : nat; ef_omitted_lines : nat }.
Record RepeatedLineReduction : Type := mkLines {
  rl_text : bytes; rl_collapsed_runs : nat; rl_omitted_lines : nat }.
Record RepeatedBlockReduction : Type := mkBlocks {
  rb_text : bytes; rb_collapsed_blocks : nat; rb_omitted_repetitions : nat; rb_omitted_lines : nat }.

(** ** Lines *)

(** [split_inclusive('\n')]: every piece but the last ends with the separator. *)
Fixpoint split_inclusive (text : bytes) : list bytes :=
  match text with
  | [] => []
  | c :: text =>
      if c =? 10 then [c] :: split_inclusive text
      else match split_inclusive text with
           | [] => [[c]]
           | line :: lines => (c :: line) :: lines
           end
  end.

(** [value.to_string().len()], by division. *)
Fixpoint decimal_digits_loop (fuel : nat) (value digits : Z) : Z :=
  match fuel with
  | S fuel => if 10 <=? value then decimal_digits_loop fuel (value / 10) (digits + 1) else digits
  | O => digits
  end.

(** A [usize] has at most twenty digits. *)
Definition decimal_digits (value : nat) : Z := decimal_digits_loop 20 (Z.of_nat value) 1.

(** ** Repeated lines *)

Record Run : Type := mkRun { rn_line : nat; rn_count : nat }.

(** The runs are pushed at the end of the vector; here the last one is the head. *)
Fixpoint local_runs_loop (lines : list bytes) (base offset : nat) (rest : list bytes)
    (runs : list Run) : list Run :=
  match rest with
  | [] => runs
  | line :: rest =>
      local_runs_loop lines base (S offset) rest
        match runs with
        | run :: others =>
            if bool_decide (lines !! (rn_line run - base)%nat = Some line)
            then mkRun (rn_line run) (S (rn_count run)) :: others
            else mkRun (base + offset) 1 :: runs
        | [] => [mkRun (base + offset) 1]
        end
  end.

Definition local_runs (lines : list bytes) (base : nat) : list Run :=
  rev (local_runs_loop lines base 0 lines []).

Fixpoint merge_runs_loop (lines : list bytes) (runs merged : list Run) : list Run :=
  match runs with
  | [] => merged
  | run :: runs =>
      merge_runs_loop lines runs
        match merged with
        | previous :: others =>
            if bool_decide (lines !! rn_line previous = lines !! rn_line run)
            then mkRun (rn_line previous) (rn_count previous + rn_count run) :: others
            else run :: merged
        | [] => [run]
        end
  end.

Definition merge_runs (lines : list bytes) (partitions : list (list Run)) : list Run :=
  rev (merge_runs_loop lines (concat partitions) []).

(** [par_chunks]. *)
Fixpoint chunks_of (fuel size : nat) (lines : list bytes) : list (list bytes) :=
  match fuel, lines with
  | S fuel, _ :: _ => take size lines :: chunks_of fuel size (drop size lines)
  | _, _ => []
  end.

Definition par_chunks (size : nat) (lines : list bytes) : list (list bytes) :=
  chunks_of (length lines) size lines.

Definition run_marker (count : nat) : bytes :=
  str_bytes ([REPEAT_SYMBOL] ++ to_string (Z.of_nat count) ++ [10]).

Definition encode_run (line : bytes) (count : nat) : bytes * bool :=
  if (count =? 1)%nat then (line, false)
  else
    let marker := run_marker count in
    let omitted_bytes := saturating_mul usize_max (len line) (Z.of_nat (count - 1)) in
    if ends_with 10 line && (len marker <? omitted_bytes)
    then (line ++ marker, true)
    else (concat (replicate count line), false).

Fixpoint encode_runs (lines : list bytes) (runs : list Run) : RepeatedLineReduction :=
  match runs with
  | [] => mkLines [] 0 0
  | run :: runs =>
      let '(output, collapsed) := encode_run (default [] (lines !! rn_line run)) (rn_count run) in
      let rest := encode_runs lines runs in
      mkLines (output ++ rl_text rest)
        (if collapsed then S (rl_collapsed_runs rest) else rl_collapsed_runs rest)
        (if collapsed then rn_count run - 1 + rl_omitted_lines rest else rl_omitted_lines rest)
  end.

Definition collapse_repeated_lines (text : bytes) : RepeatedLineReduction :=
  let lines := split_inclusive text in
  if (length lines <? 2)%nat then mkLines text 0 0
  else
    let partitions :=
      if (PARALLEL_LINE_THRESHOLD <=? length lines)%nat
      then imap (fun partition chunk => local_runs chunk (partition * PARTITION_LINES)%nat)
             (par_chunks PARTITION_LINES lines)
      else [local_runs lines 0] in
    encode_runs lines (merge_runs lines partitions).

(** ** Layout *)

Record LineLayout : Type := mkLayout { ly_text : bytes; ly_ends : list nat; ly_complete_lines : nat }.

(** [match_indices('\n')] plus one. *)
Fixpoint newline_ends (offset : nat) (text : bytes) : list nat :=
  match text with
  | [] => []
  | c :: text =>
      if c =? 10 then S offset :: newline_ends (S offset) text else newline_ends (S offset) text
  end.

Definition LineLayout_new (text : bytes) : LineLayout :=
  let ends := newline_ends 0 text in
  let complete_lines := length ends in
  let ends :=
    if negb (bool_decide (text = [])) && negb (bool_decide (ends !! (length ends - 1)%nat = Some (length text)))
    then ends ++ [length text] else ends in
  mkLayout text ends complete_lines.

Definition total_lines (l : LineLayout) : nat := length (ly_ends l).

Definition line_start (l : LineLayout) (line : nat) : nat :=
  match line with O => O | S line => default O (ly_ends l !! line) end.

Definition span_end (l : LineLayout) (start lines : nat) : nat :=
  default O (ly_ends l !! (start + lines - 1)%nat).

Definition span (l : LineLayout) (start lines : nat) : bytes :=
  take (span_end l start lines - line_start l start) (drop (line_start l start) (ly_text l)).

Definition line_of (l : LineLayout) (line : nat) : bytes := span l line 1.

Definition span_len (l : LineLayout) (start lines : nat) : nat :=
  (span_end l start lines - line_start l start)%nat.

(** ** Repeated blocks *)

(** Arithmetic on [u64]. *)
Definition wrapping_mul (a b : Z) : Z := (a * b) mod 2 ^ 64.
Definition rotate_left (x k : Z) : Z :=
  Z.lor (Z.land (Z.shiftl x k) (Z.ones 64)) (Z.shiftr x (64 - k)).

Fixpoint fingerprint_loop (line : bytes) (hash : Z) : Z :=
  match line with
  | [] => hash
  | byte :: line =>
      let hash := Z.lxor hash byte in
      let hash := wrapping_mul hash 0x00000100000001b3 in
      fingerprint_loop line (Z.lxor hash (Z.shiftr hash 29))
  end.

Definition line_fingerprint (line : bytes) (seed : Z) : Z :=
  let hash := fingerprint_loop line (Z.lxor seed (wrapping_mul (len line) 0x9e3779b185ebca87)) in
  Z.lxor hash (rotate_left hash 31).

Record BlockHashes : Type := mkHashes { bh_first : list Z; bh_second : list Z }.

(** The prefix hashes: the last one rotated and xored with the next fingerprint. *)
Fixpoint prefix_hashes (rotation previous : Z) (fingerprints : list Z) : list Z :=
  match fingerprints with
  | [] => []
  | h :: fingerprints =>
      let next := Z.lxor (rotate_left previous rotation) h in
      next :: prefix_hashes rotation next fingerprints
  end.

Definition BlockHashes_new (l : LineLayout) : BlockHashes :=
  let lines := line_of l <$> seq 0 (ly_complete_lines l) in
  mkHashes
    (0 :: prefix_hashes 1 0 ((fun line => line_fingerprint line 0x9e3779b185ebca87) <$> lines))
    (0 :: prefix_hashes 23 0 ((fun line => line_fingerprint line 0xc2b2ae3d27d4eb4f) <$> lines)).

Definition range_hash (prefix : list Z) (start lines : nat) (rotation : Z) : Z :=
  let shift := Z.land (Z.land (Z.of_nat lines) 63 * rotation) 63 in
  Z.lxor (default 0 (prefix !! (start + lines)%nat)) (rotate_left (default 0 (prefix !! start)) shift).

Definition ranges_equal (h : BlockHashes) (a b lines : nat) : bool :=
  (range_hash (bh_first h) a lines 1 =? range_hash (bh_first h) b lines 1)
  && (range_hash (bh_second h) a lines 23 =? range_hash (bh_second h) b lines 23).

Record BlockCandidate : Type := mkCandidate {
  cd_block_lines : nat; cd_repetitions : nat; cd_savings : Z }.

Definition NONE : BlockCandidate := mkCandidate 0 0 0.
Definition present (c : BlockCandidate) : bool := negb (cd_block_lines c =? 0)%nat.

Definition block_marker (repetitions block_lines : nat) : bytes :=
  str_bytes ([REPEAT_SYMBOL] ++ to_string (Z.of_nat repetitions) ++ [35]
             ++ to_string (Z.of_nat block_lines) ++ [10]).

Definition block_marker_len (repetitions block_lines : nat) : Z :=
  len_utf8 REPEAT_SYMBOL + decimal_digits repetitions + decimal_digits block_lines + 2.

Definition block_candidate (l : LineLayout) (start block_lines repetitions : nat)
    : option BlockCandidate :=
  if (repetitions <? 2)%nat then None
  else
    let consumed_lines := (block_lines * repetitions)%nat in
    if (ly_complete_lines l <? start + consumed_lines)%nat then None
    else
      let omitted_bytes := Z.of_nat (span_len l (start + block_lines) (consumed_lines - block_lines)) in
      let marker_bytes := block_marker_len repetitions block_lines in
      if omitted_bytes <=? marker_bytes then None
      else if (u16_max <? Z.of_nat block_lines) || (u32_max <? Z.of_nat repetitions) then None
      else Some (mkCandidate block_lines repetitions (omitted_bytes - marker_bytes)).

Definition preferred_candidate (current candidate : BlockCandidate) : BlockCandidate :=
  if negb (present current)
     || (cd_savings current <? cd_savings candidate)
     || (cd_savings candidate =? cd_savings current)
        && ((cd_block_lines candidate <? cd_block_lines current)%nat
            || (cd_block_lines candidate =? cd_block_lines current)%nat
               && (cd_repetitions current <? cd_repetitions candidate)%nat)
  then candidate else current.

(** The binary search; [high - low] bounds its turns. *)
Fixpoint lcp_loop (fuel : nat) (h : BlockHashes) (start block_lines low high : nat) : nat :=
  match fuel with
  | O => low
  | S fuel =>
      if (low <? high)%nat then
        let middle := (low + (high - low + 1) / 2)%nat in
        if ranges_equal h start (start + block_lines) middle
        then lcp_loop fuel h start block_lines middle high
        else lcp_loop fuel h start block_lines low (middle - 1)
      else low
  end.

Definition hashed_longest_common_prefix (l : LineLayout) (h : BlockHashes) (start block_lines : nat)
    : nat :=
  let high := (ly_complete_lines l - start - block_lines)%nat in
  lcp_loop high h start block_lines block_lines high.

(** [2..=max_block_lines]. *)
Definition block_sizes (l : LineLayout) (start : nat) : list nat :=
  seq 2 (Nat.min MAX_BLOCK_LINES ((ly_complete_lines l - start) / 2) - 1).

Definition consider (best : BlockCandidate) (candidate : option BlockCandidate) : BlockCandidate :=
  match candidate with Some candidate => preferred_candidate best candidate | None => best end.

Definition best_hashed_candidate (l : LineLayout) (h : BlockHashes) (start : nat) : BlockCandidate :=
  foldl (fun best block_lines =>
    if negb (ranges_equal h start (start + block_lines) block_lines) then best
    else
      let lcp := hashed_longest_common_prefix l h start block_lines in
      consider best (block_candidate l start block_lines (1 + lcp / block_lines)))
    NONE (block_sizes l start).

(** The [while] loop over the repetitions; a block has a line, so as many turns as
    lines are enough. *)
Fixpoint exact_repetitions (fuel : nat) (l : LineLayout) (start block_lines repetitions : nat) : nat :=
  match fuel with
  | O => repetitions
  | S fuel =>
      if (start + (repetitions + 1) * block_lines <=? ly_complete_lines l)%nat
         && bool_decide (span l start block_lines
                         = span l (start + repetitions * block_lines) block_lines)
      then exact_repetitions fuel l start block_lines (S repetitions)
      else repetitions
  end.

Definition best_exact_candidate (l : LineLayout) (start : nat) : BlockCandidate :=
  foldl (fun best block_lines =>
    consider best (block_candidate l start block_lines
      (exact_repetitions (ly_complete_lines l) l start block_lines 1)))
    NONE (block_sizes l start).

Definition candidate_is_exact (l : LineLayout) (start : nat) (c : BlockCandidate) : bool :=
  forallb (fun repetition =>
    bool_decide (span l start (cd_block_lines c)
                 = span l (start + repetition * cd_block_lines c) (cd_block_lines c)))
    (seq 1 (cd_repetitions c - 1)).

Definition verified_candidate (l : LineLayout) (start : nat) (c : BlockCandidate) : BlockCandidate :=
  if present c && candidate_is_exact l start c then c
  else if present c then best_exact_candidate l start
  else NONE.

(** The loops of [collapse_repeated_blocks].  The candidates of a batch are computed
    before any of it is projected; [None] is an index out of range. *)
Fixpoint batch_loop (fuel : nat) (l : LineLayout) (candidates : list BlockCandidate)
    (batch_start batch_end index : nat) (r : RepeatedBlockReduction)
    : option (nat * RepeatedBlockReduction) :=
  match fuel with
  | O => Some (index, r)
  | S fuel =>
      if (index <? batch_end)%nat then
        hashed ← candidates !! (index - batch_start)%nat;
        let c := verified_candidate l index hashed in
        if present c then
          let k := cd_block_lines c in
          let n := cd_repetitions c in
          batch_loop fuel l candidates batch_start batch_end (index + k * n)
            (mkBlocks (rb_text r ++ span l index k ++ block_marker n k)
               (S (rb_collapsed_blocks r)) (rb_omitted_repetitions r + (n - 1))
               (rb_omitted_lines r + k * (n - 1)))
        else
          batch_loop fuel l candidates batch_start batch_end (S index)
            (mkBlocks (rb_text r ++ line_of l index) (rb_collapsed_blocks r)
               (rb_omitted_repetitions r) (rb_omitted_lines r))
      else Some (index, r)
  end.

Fixpoint blocks_loop (fuel : nat) (l : LineLayout) (h : BlockHashes) (index : nat)
    (r : RepeatedBlockReduction) : option RepeatedBlockReduction :=
  match fuel with
  | O => None
  | S fuel =>
      if (index <? total_lines l)%nat then
        if (ly_complete_lines l <=? index)%nat then
          blocks_loop fuel l h (S index)
            (mkBlocks (rb_text r ++ line_of l index) (rb_collapsed_blocks r)
               (rb_omitted_repetitions r) (rb_omitted_lines r))
        else
          let batch_end := Nat.min (index + BLOCK_CANDIDATE_BATCH_LINES) (ly_complete_lines l) in
          let candidates := best_hashed_candidate l h <$> seq index (batch_end - index) in
          '(index, r) ← batch_loop (batch_end - index) l candidates index batch_end index r;
          blocks_loop fuel l h index r
      else Some r
  end.

Definition collapse_repeated_blocks (text : bytes) : option RepeatedBlockReduction :=
  let l := LineLayout_new text in
  if (ly_complete_lines l <? 4)%nat then Some (mkBlocks text 0 0 0)
  else blocks_loop (S (total_lines l)) l (BlockHashes_new l) 0 (mkBlocks [] 0 0 0).

(** ** Error focus *)

Definition is_identifier_byte (byte : Z) : bool := is_ascii_alphanumeric byte || (byte =? 95).

Definition to_ascii_lowercase (byte : Z) : Z := if is_ascii_upper byte then byte + 32 else byte.

Definition eq_ignore_ascii_case (a b : bytes) : bool :=
  bool_decide (to_ascii_lowercase <$> a = to_ascii_lowercase <$> b).

Definition contains_ascii_term (line term : bytes) : bool :=
  if bool_decide (term = []) || (length line <? length term)%nat then false
  else
    existsb (fun start =>
      eq_ignore_ascii_case (take (length term) (drop start line)) term
      && ((start =? 0)%nat
          || negb (is_identifier_byte (default 0 (line !! (start - 1)%nat))))
      && ((start + length term =? length line)%nat
          || negb (is_identifier_byte (default 0 (line !! (start + length term)%nat)))))
      (seq 0 (length line - length term + 1)).

(** The split at the bytes that are not of an identifier. *)
Fixpoint identifier_words (line : bytes) : list bytes :=
  match line with
  | [] => [[]]
  | c :: line =>
      if negb (is_identifier_byte c) then [] :: identifier_words line
      else match identifier_words line with
           | word :: words => (c :: word) :: words
           | [] => [[c]]
           end
  end.

Definition bytes_end_with (word suffix : bytes) : bool :=
  (length suffix <=? length word)%nat
  && bool_decide (drop (length word - length suffix) word = suffix).

Definition is_diagnostic_anchor (line : bytes) : bool :=
  existsb (contains_ascii_term line) ERROR_ANCHOR_TERMS
  || existsb (fun word => bytes_end_with word (L "Error") || bytes_end_with word (L "Exception"))
       (identifier_words line).

Definition omission_marker (lines : nat) : bytes :=
  str_bytes ([OMISSION_SYMBOL] ++ to_string (Z.of_nat lines) ++ [10]).

Definition omission_marker_len (lines : nat) : Z :=
  len_utf8 OMISSION_SYMBOL + decimal_digits lines + 1.

(** [retained[start..end].fill(true)]. *)
Definition fill (start end_ : nat) (retained : list bool) : list bool :=
  imap (fun i b => b || (start <=? i)%nat && (i <? end_)%nat) retained.

Definition retained_lines (anchors : list bool) : list bool :=
  let total := length anchors in
  let edge_lines := Nat.min ERROR_EDGE_LINES total in
  let retained := fill (total - edge_lines) total (fill 0 edge_lines (replicate total false)) in
  foldl (fun retained line =>
    if default false (anchors !! line)
    then fill (line - ERROR_CONTEXT_BEFORE) (Nat.min (line + (ERROR_CONTEXT_AFTER + 1)) total) retained
    else retained) retained (seq 0 total).

(** The inner loop: the end of the gap that starts at [line]. *)
Fixpoint gap_end (fuel : nat) (retained : list bool) (line : nat) : nat :=
  match fuel with
  | S fuel =>
      match retained !! line with
      | Some false => gap_end fuel retained (S line)
      | _ => line
      end
  | O => line
  end.

Fixpoint focus_loop (fuel : nat) (l : LineLayout) (retained : list bool) (line : nat)
    (r : ErrorFocusedReduction) : option ErrorFocusedReduction :=
  match fuel with
  | O => None
  | S fuel =>
      if (line <? total_lines l)%nat then
        if default false (retained !! line) then
          focus_loop fuel l retained (S line)
            (mkFocused (ef_text r ++ line_of l line) (ef_diagnostic_lines r) (ef_omitted_spans r)
               (ef_omitted_lines r))
        else
          let end_ := gap_end (total_lines l) retained line in
          let lines := (end_ - line)%nat in
          let source_bytes := Z.of_nat (span_len l line lines) in
          focus_loop fuel l retained end_
            (if omission_marker_len lines <? source_bytes
             then mkFocused (ef_text r ++ omission_marker lines) (ef_diagnostic_lines r)
                    (S (ef_omitted_spans r)) (ef_omitted_lines r + lines)
             else mkFocused (ef_text r ++ span l line lines) (ef_diagnostic_lines r)
                    (ef_omitted_spans r) (ef_omitted_lines r))
      else Some r
  end.

Definition focus_error_output (text : bytes) : option ErrorFocusedReduction :=
  let l := LineLayout_new text in
  let total := total_lines l in
  if (total =? 0)%nat then Some (mkFocused text 0 0 0)
  else
    let anchors := (fun line => is_diagnostic_anchor (line_of l line)) <$> seq 0 total in
    let diagnostic_lines := length (filter (fun a => a = true) anchors) in
    if (diagnostic_lines =? 0)%nat then Some (mkFocused text 0 0 0)
    else focus_loop (S total) l (retained_lines anchors) 0 (mkFocused [] diagnostic_lines 0 0).
