(* ===== verification/ReducerFacts.v ===== *)
(** * ReducerFacts: lines, runs and layouts

    The partitioned search for runs is the run-length encoding of the lines; a
    layout's offsets are those of its lines; markers have the lengths the source
    computes. *)

From S2P Require Import Prelude Text Reducer.

(** ** Markers *)

Lemma decimal_digits_loop_spec fuel : forall value digits,
  0 <= value < 10 ^ (Z.of_nat fuel + 1) ->
  decimal_digits_loop fuel value digits = digits + len (to_string value) - 1.
Proof.
  induction fuel as [|fuel IH]; intros value digits Hv; simpl.
  - rewrite to_string_digit by (simpl in Hv; lia). rewrite len_cons, len_nil. lia.
  - destruct (Z.leb_spec 10 value) as [Hle|Hlt].
    + rewrite IH.
      * rewrite (to_string_snoc value) by done. rewrite len_app, len_cons, len_nil. lia.
      * replace (Z.of_nat (S fuel) + 1) with (Z.succ (Z.of_nat fuel + 1)) in Hv by lia.
        rewrite Z.pow_succ_r in Hv by lia. Z.to_euclidean_division_equations. lia.
    + rewrite to_string_digit by lia. rewrite len_cons, len_nil. lia.
Qed.

Lemma decimal_digits_spec value :
  Z.of_nat value <= u64_max -> decimal_digits value = len (to_string (Z.of_nat value)).
Proof.
  intros Hv. unfold decimal_digits. rewrite decimal_digits_loop_spec; [lia|].
  change (10 ^ (Z.of_nat 20 + 1)) with 1000000000000000000000. lia.
Qed.

Lemma str_len_to_string n : 0 <= n -> str_len (to_string n) = len (to_string n).
Proof.
  intros Hn. apply str_len_ascii. pose proof (to_string_digits n Hn) as Hd.
  rewrite forallb_forall in Hd |- *. intros c Hc. specialize (Hd c Hc). revert Hd. unfold is_ascii_digit. rewrite andb_true_iff, !Z.leb_le, Z.ltb_lt. lia.
Qed.

Ltac marker_length :=
  change (len_utf8 REPEAT_SYMBOL) with 2; change (len_utf8 OMISSION_SYMBOL) with 3;
  change (len_utf8 10) with 1; change (len_utf8 35) with 1; lia.

Lemma run_marker_len count : len (run_marker count) = 3 + len (to_string (Z.of_nat count)).
Proof.
  change (str_len ([REPEAT_SYMBOL] ++ to_string (Z.of_nat count) ++ [10])
          = 3 + len (to_string (Z.of_nat count))).
  rewrite !str_len_app, !str_len_cons, str_len_to_string by lia. rewrite !str_len_nil. marker_length.
Qed.

Lemma block_marker_len_spec n k :
  Z.of_nat n <= u64_max -> Z.of_nat k <= u64_max -> block_marker_len n k = len (block_marker n k).
Proof.
  intros Hn Hk. unfold block_marker_len. rewrite !decimal_digits_spec by done.
  change (len (block_marker n k)) with (str_len ([REPEAT_SYMBOL] ++ to_string (Z.of_nat n) ++ [35]
    ++ to_string (Z.of_nat k) ++ [10])).
  rewrite !str_len_app, !str_len_cons, !str_len_to_string by lia. rewrite !str_len_nil. marker_length.
Qed.

Lemma omission_marker_len_spec n :
  Z.of_nat n <= u64_max -> omission_marker_len n = len (omission_marker n).
Proof.
  intros Hn. unfold omission_marker_len. rewrite decimal_digits_spec by done.
  change (len (omission_marker n)) with (str_len ([OMISSION_SYMBOL] ++ to_string (Z.of_nat n) ++ [10])).
  rewrite !str_len_app, !str_len_cons, !str_len_to_string by lia. rewrite !str_len_nil. marker_length.
Qed.

(** ** Run-length encoding *)

Section Group.
Context {A : Type} `{EqDecision A}.

(** The maximal runs of equal elements. *)
Fixpoint group (l : list A) : list (A * nat) :=
  match l with
  | [] => []
  | x :: l =>
      match group l with
      | (y, n) :: groups =>
          if decide (x = y) then (y, S n) :: groups else (x, 1%nat) :: (y, n) :: groups
      | [] => [(x, 1%nat)]
      end
  end.

Definition ungroup (groups : list (A * nat)) : list A := groups ≫= fun g => replicate g.2 g.1.

(** Adding a run after a reversed list of runs. *)
Definition push_run (groups : list (A * nat)) (g : A * nat) : list (A * nat) :=
  match groups with
  | (y, n) :: others => if decide (y = g.1) then (y, n + g.2)%nat :: others else g :: groups
  | [] => [g]
  end.

Definition push (groups : list (A * nat)) (x : A) : list (A * nat) := push_run groups (x, 1%nat).

Lemma group_cons_ne x l : group (x :: l) <> [].
Proof. simpl. destruct (group l) as [|[y n] gs]; [done|]. by destruct (decide _). Qed.

Lemma group_head x l : exists n gs, group (x :: l) = (x, S n) :: gs.
Proof.
  revert x. induction l as [|y l IH]; intros x; [by exists O, []|].
  destruct (IH y) as (n & gs & E). cbn [group] in *. rewrite E.
  destruct (decide (x = y)) as [->|]; [by exists (S n), gs|by exists O, ((y, S n) :: gs)].
Qed.

Lemma ungroup_group l : ungroup (group l) = l.
Proof.
  induction l as [|x l IH]; [done|]. simpl. destruct (group l) as [|[y n] gs]; [by rewrite <- IH|].
  destruct (decide (x = y)) as [->|]; simpl; by rewrite <- IH.
Qed.

Lemma group_counts l : Forall (fun g => (1 <= g.2)%nat) (group l).
Proof.
  induction l as [|x l IH]; [constructor|]. simpl. destruct (group l) as [|[y n] gs].
  - repeat constructor.
  - apply list.Forall_cons in IH as [Hn IH]. destruct (decide (x = y)); repeat constructor; simpl in *; try lia; done.
Qed.

(** A run that starts a new group extends it first. *)
Lemma group_replicate n x l :
  (forall y k, l = y :: k -> x <> y) -> group (replicate (S n) x ++ l) = (x, S n) :: group l.
Proof.
  intros Hl. induction n as [|n IH].
  - destruct l as [|y l]; [done|]. destruct (group_head y l) as (m & gs & E).
    cbn [replicate app group] in *. rewrite E. destruct (decide (x = y)) as [->|]; [|done].
    by destruct (Hl y l eq_refl).
  - cbn [replicate app group] in *. rewrite IH. by destruct (decide (x = x)).
Qed.

Lemma push_run_push x n groups :
  push_run groups (x, S n) = foldl push groups (replicate (S n) x).
Proof.
  revert groups. induction n as [|n IH]; intros groups; [done|].
  change (replicate (S (S n)) x) with (x :: replicate (S n) x). cbn [foldl]. rewrite <- IH.
  unfold push, push_run. simpl. destruct groups as [|[y m] others].
  - simpl. by destruct (decide (x = x)).
  - destruct (decide (y = x)) as [->|]; simpl.
    + destruct (decide (x = x)); [|done]. do 2 f_equal. lia.
    + by destruct (decide (x = x)).
Qed.

Lemma foldl_push_run l : forall groups, foldl push_run groups (group l) = foldl push groups l.
Proof.
  intros groups. rewrite <- (ungroup_group l) at 2. pose proof (group_counts l) as HF. revert groups.
  induction HF as [|[x n] gs Hn _ IH]; intros groups; [done|]. simpl in *.
  destruct n as [|n]; [lia|]. rewrite push_run_push. unfold ungroup. simpl.
  rewrite foldl_app. fold (ungroup gs). by rewrite IH.
Qed.

(** Reversed runs whose last element is in front. *)
Lemma foldl_push_spec l : forall x n others,
  rev (foldl push ((x, n) :: others) l)
  = rev others ++ match group l with
                  | (y, m) :: gs => if decide (x = y) then (x, n + m)%nat :: gs else (x, n) :: (y, m) :: gs
                  | [] => [(x, n)]
                  end.
Proof.
  induction l as [|y l IH]; intros x n others; [done|]. cbn [foldl group].
  unfold push at 2, push_run. cbn [fst snd].
  destruct (decide (x = y)) as [->|Hne].
  - rewrite IH. f_equal. destruct (group l) as [|[z m] gs].
    + by destruct (decide (y = y)).
    + destruct (decide (y = z)) as [->|].
      * destruct (decide (z = z)); [|done]. do 2 f_equal. lia.
      * destruct (decide (y = y)); done.
  - rewrite IH. cbn [rev]. rewrite <- app_assoc. f_equal. cbn [app].
    destruct (group l) as [|[z m] gs].
    + by destruct (decide (x = y)).
    + destruct (decide (y = z)) as [->|]; (destruct (decide (x = _)); [congruence|done]).
Qed.

Lemma foldl_push_group l : rev (foldl push [] l) = group l.
Proof.
  destruct l as [|x l]; [done|]. cbn [foldl]. unfold push at 2, push_run.
  rewrite foldl_push_spec. cbn [rev app group]. destruct (group l) as [|[y m] gs]; [done|].
  by destruct (decide (x = y)) as [->|].
Qed.
End Group.

(** ** Lines and offsets *)

Lemma split_inclusive_concat text : concat (split_inclusive text) = text.
Proof.
  induction text as [|c text IH]; [done|]. simpl. destruct (Z.eqb_spec c 10); [simpl; by rewrite IH|].
  destruct (split_inclusive text) as [|line lines]; simpl in *; by rewrite <- IH.
Qed.

Lemma split_inclusive_nonempty text : Forall (fun line => line <> []) (split_inclusive text).
Proof.
  induction text as [|c text IH]; [constructor|]. simpl.
  destruct (c =? 10); [by constructor|].
  destruct (split_inclusive text); [by repeat constructor|].
  apply list.Forall_cons in IH as [_ IH]. by constructor.
Qed.

(** The end offsets, whatever the text ends with. *)
Fixpoint line_ends (offset : nat) (lines : list bytes) : list nat :=
  match lines with
  | [] => []
  | line :: lines => (offset + length line)%nat :: line_ends (offset + length line) lines
  end.

Lemma newline_ends_spec text : forall offset,
  line_ends offset (split_inclusive text)
  = newline_ends offset text
    ++ (if negb (bool_decide (text = [])) && negb (ends_with 10 text)
        then [(offset + length text)%nat] else []).
Proof.
  induction text as [|c text IH]; intros offset; [done|].
  assert (ends_with 10 (c :: text) = if bool_decide (text = []) then c =? 10 else ends_with 10 text) as He
    by (by destruct text).
  rewrite He. cbn [split_inclusive newline_ends]. specialize (IH (S offset)).
  destruct (Z.eqb_spec c 10) as [->|Hc].
  - cbn [line_ends length]. rewrite Nat.add_1_r, IH. cbn [app]. f_equal. f_equal.
    rewrite (bool_decide_eq_false_2 (10 :: text = [])), Nat.add_succ_r by done.
    by destruct (bool_decide (text = [])).
  - rewrite bool_decide_eq_false_2 by done. simpl.
    destruct (split_inclusive text) as [|line lines] eqn:Hs.
    + assert (text = []) as -> by (rewrite <- (split_inclusive_concat text), Hs; done). simpl.
      by rewrite Nat.add_1_r.
    + assert (text <> []) as Hne by (intros ->; done). cbn [line_ends] in IH |- *. simpl length.
      rewrite !Nat.add_succ_r. rewrite !(bool_decide_eq_false_2 (text = [])) in IH |- * by done.
      exact IH.
Qed.

Lemma newline_ends_last text : forall offset,
  text <> [] ->
  bool_decide (newline_ends offset text !! (length (newline_ends offset text) - 1)%nat
               = Some (offset + length text)%nat)
  = ends_with 10 text.
Proof.
  assert (forall text offset, Forall (fun e => (offset < e)%nat) (newline_ends offset text)) as Hlt.
  { clear. induction text as [|c text IH]; intros offset; [constructor|]. simpl.
    destruct (c =? 10); [constructor; [lia|]|]; (eapply list.Forall_impl; [apply IH|simpl; intros; lia]). }
  assert (forall text offset, Forall (fun e => (e <= offset + length text)%nat) (newline_ends offset text)) as Hle.
  { clear. induction text as [|c text IH]; intros offset; [constructor|]. simpl.
    destruct (c =? 10); [constructor; [lia|]|]; (eapply list.Forall_impl; [apply IH|simpl; intros; lia]). }
  induction text as [|c text IH]; intros offset Hne; [done|].
  destruct (decide (text = [])) as [->|Ht].
  - simpl. destruct (c =? 10); simpl; [by rewrite Nat.add_1_r, bool_decide_eq_true_2|done].
  - assert (ends_with 10 (c :: text) = ends_with 10 text) as -> by (by destruct text).
    rewrite <- (IH (S offset) Ht). cbn [newline_ends length]. rewrite Nat.add_succ_r. cbn [Nat.add].
    destruct (c =? 10); [|done]. cbn [length].
    destruct (newline_ends (S offset) text) as [|e es] eqn:E; simpl.
    + destruct text as [|d text]; [done|]. apply bool_decide_eq_false_2. intros [= Hx].
      simpl in Hx. lia.
    + by rewrite Nat.sub_0_r.
Qed.

Lemma layout_ends text : ly_ends (LineLayout_new text) = line_ends 0 (split_inclusive text).
Proof.
  unfold LineLayout_new. cbn [ly_ends]. rewrite newline_ends_spec.
  destruct (decide (text = [])) as [->|Hne]; [done|].
  pose proof (newline_ends_last text 0 Hne) as Hl. cbn [Nat.add] in Hl.
  rewrite Hl, (bool_decide_eq_false_2 (text = [])) by done. simpl.
  destruct (ends_with 10 text); [by rewrite app_nil_r|done].
Qed.

(** The lines of a layout. *)
Definition lines_of (l : LineLayout) : list bytes := split_inclusive (ly_text l).

Lemma length_line_ends lines : forall offset, length (line_ends offset lines) = length lines.
Proof. induction lines as [|line lines IH]; intros offset; [done|]. simpl. by rewrite IH. Qed.

Lemma line_ends_lookup lines : forall offset i,
  (i < length lines)%nat ->
  line_ends offset lines !! i = Some (offset + length (concat (take (S i) lines)))%nat.
Proof.
  induction lines as [|line lines IH]; intros offset i Hi; simpl in Hi; [lia|].
  destruct i as [|i]; simpl.
  - by rewrite app_nil_r.
  - rewrite IH by lia. f_equal. rewrite length_app. simpl. lia.
Qed.

Section Layout.
Context (text : bytes).
Let l := LineLayout_new text.
Let lines := split_inclusive text.

Lemma total_lines_spec : total_lines l = length lines.
Proof. unfold total_lines, l. rewrite layout_ends. apply length_line_ends. Qed.

Lemma line_start_spec i : (i <= length lines)%nat -> line_start l i = length (concat (take i lines)).
Proof.
  intros Hi. unfold line_start. destruct i as [|i]; [done|]. unfold l. rewrite layout_ends.
  by rewrite line_ends_lookup.
Qed.

Lemma span_end_spec i n :
  (0 < n)%nat -> (i + n <= length lines)%nat -> span_end l i n = length (concat (take (i + n) lines)).
Proof.
  intros Hn Hi. unfold span_end, l. rewrite layout_ends. rewrite line_ends_lookup by (fold lines; lia).
  fold lines. simpl. do 3 f_equal. lia.
Qed.

(** A span is the lines it names. *)
Lemma span_spec i n :
  (0 < n)%nat -> (i + n <= length lines)%nat -> span l i n = concat (take n (drop i lines)).
Proof.
  intros Hn Hi. unfold span. rewrite span_end_spec, line_start_spec by lia.
  change (ly_text l) with text. rewrite <- take_take_drop, concat_app, length_app.
  assert (text = concat (take i lines) ++ concat (take n (drop i lines)) ++ concat (drop n (drop i lines))) as Ht.
  { rewrite <- !concat_app, !take_drop. symmetry. apply split_inclusive_concat. }
  rewrite Ht at 1. rewrite drop_app_length, Nat.add_sub_swap, Nat.sub_diag by lia. apply take_app_length.
Qed.

Lemma span_len_spec i n :
  (0 < n)%nat -> (i + n <= length lines)%nat -> span_len l i n = length (span l i n).
Proof.
  intros Hn Hi. rewrite span_spec by done. unfold span_len. rewrite span_end_spec, line_start_spec by lia.
  rewrite <- take_take_drop, concat_app, length_app. lia.
Qed.

Lemma line_of_spec i line : lines !! i = Some line -> line_of l i = line.
Proof.
  intros Hi. pose proof (lookup_lt_Some _ _ _ Hi). unfold line_of. rewrite span_spec by lia.
  rewrite (drop_S _ line) by done. apply app_nil_r.
Qed.

Lemma complete_le : (ly_complete_lines l <= length lines)%nat.
Proof.
  unfold l, LineLayout_new. cbn [ly_complete_lines].
  pose proof (newline_ends_spec text 0) as H. apply (f_equal length) in H.
  rewrite length_line_ends, length_app in H. fold lines in H. lia.
Qed.
End Layout.

(** ** Repeated lines *)

Lemma fmap_rev {A B} (f : A -> B) (l : list A) : f <$> rev l = rev (f <$> l).
Proof. apply map_rev. Qed.

(** What a run stands for. *)
Definition run_value (lines : list bytes) (base : nat) (run : Run) : option bytes * nat :=
  (lines !! (rn_line run - base)%nat, rn_count run).

Lemma local_runs_loop_spec lines base : forall rest offset runs,
  drop offset lines = rest ->
  run_value lines base <$> local_runs_loop lines base offset rest runs
  = foldl push (run_value lines base <$> runs) (Some <$> rest).
Proof.
  induction rest as [|line rest IH]; intros offset runs Hd; [done|]. simpl.
  assert (lines !! offset = Some line) as Hline.
  { rewrite <- (Nat.add_0_r offset), <- lookup_drop, Hd. done. }
  rewrite IH.
  2: { rewrite <- Nat.add_1_r, <- drop_drop, Hd. done. }
  f_equal. unfold push, push_run, run_value. destruct runs as [|run others]; simpl.
  - by rewrite Nat.add_comm, Nat.add_sub, Hline.
  - case_bool_decide as Hb; destruct (decide _) as [E|E]; try congruence; simpl.
    + by rewrite Nat.add_1_r.
    + by rewrite (Nat.add_comm base), Nat.add_sub, Hline.
Qed.

Lemma local_runs_spec lines base :
  run_value lines base <$> local_runs lines base = group (Some <$> lines).
Proof.
  unfold local_runs. rewrite fmap_rev, (local_runs_loop_spec lines base lines 0 []) by done.
  apply foldl_push_group.
Qed.

Lemma local_runs_loop_base lines base : forall rest offset runs,
  Forall (fun run => (base <= rn_line run)%nat) runs ->
  Forall (fun run => (base <= rn_line run)%nat) (local_runs_loop lines base offset rest runs).
Proof.
  induction rest as [|line rest IH]; intros offset runs HF; [done|]. simpl. apply IH.
  destruct HF as [|run others Hr HF]; [|case_bool_decide]; repeat constructor; simpl; lia || done.
Qed.

(** The runs of a chunk, seen from the whole text. *)
Lemma local_runs_chunk lines base size :
  run_value lines 0 <$> local_runs (take size (drop base lines)) base
  = group (Some <$> take size (drop base lines)).
Proof.
  set (chunk := take size (drop base lines)). rewrite <- (local_runs_spec chunk base).
  assert (Forall (fun run => (base <= rn_line run)%nat) (local_runs chunk base)) as Hb.
  { apply Forall_rev, local_runs_loop_base. constructor. }
  assert (Forall (fun g : option bytes * nat => is_Some g.1) (run_value chunk base <$> local_runs chunk base)) as Hs.
  { rewrite local_runs_spec. generalize chunk. clear. induction chunk as [|line chunk IH]; [constructor|].
    simpl. destruct (group _) as [|[y n] gs]; [by repeat constructor|].
    apply list.Forall_cons in IH as [? IH]. by destruct (decide _); repeat constructor. }
  rewrite Forall_fmap in Hs. induction Hb as [|run runs Hr _ IH]; [done|].
  apply list.Forall_cons in Hs as [Hs Hss]. rewrite !fmap_cons, (IH Hss). f_equal.
  unfold run_value in *. f_equal. simpl in Hs. apply lookup_lt_is_Some in Hs.
  unfold chunk in *. rewrite length_take in Hs.
  rewrite Nat.sub_0_r, lookup_take_lt, lookup_drop by lia. f_equal. lia.
Qed.

Lemma merge_runs_loop_spec lines : forall runs merged,
  run_value lines 0 <$> merge_runs_loop lines runs merged
  = foldl push_run (run_value lines 0 <$> merged) (run_value lines 0 <$> runs).
Proof.
  induction runs as [|run runs IH]; intros merged; [done|]. simpl. rewrite IH. f_equal.
  unfold push_run, run_value. destruct merged as [|previous others]; [done|]. simpl.
  rewrite !Nat.sub_0_r. case_bool_decide; destruct (decide _); try congruence; simpl; by rewrite ?Nat.sub_0_r.
Qed.

(** Whatever the partition, merging the runs of its parts gives the runs of the whole. *)
Lemma merge_runs_spec lines partitions chunks :
  concat chunks = lines ->
  Forall2 (fun runs chunk => run_value lines 0 <$> runs = group (Some <$> chunk)) partitions chunks ->
  run_value lines 0 <$> merge_runs lines partitions = group (Some <$> lines).
Proof.
  intros Hc HF. unfold merge_runs. rewrite fmap_rev, merge_runs_loop_spec, <- foldl_push_group.
  rewrite <- Hc at 3. f_equal. clear Hc. change (run_value lines 0 <$> []) with (@nil (option bytes * nat)).
  generalize (@nil (option bytes * nat)). induction HF as [|runs chunk partitions chunks H _ IH]; intros groups; [done|].
  simpl. rewrite !fmap_app, !foldl_app, H, foldl_push_run. apply IH.
Qed.

Lemma chunks_of_spec size lines : forall fuel base,
  (0 < size)%nat -> (length lines - base <= fuel)%nat ->
  concat (chunks_of fuel size (drop base lines)) = drop base lines
  /\ forall i chunk, chunks_of fuel size (drop base lines) !! i = Some chunk ->
     chunk = take size (drop (base + i * size) lines).
Proof.
  induction fuel as [|fuel IH]; intros base Hs Hf.
  - rewrite drop_ge by lia. by split.
  - destruct (drop base lines) as [|x rest] eqn:E; [by split|].
    unfold chunks_of. fold chunks_of. rewrite <- E, drop_drop.
    pose proof (f_equal length E) as El. rewrite length_drop in El. simpl in El.
    destruct (IH (base + size)%nat) as [Hc Hi]; [done|lia|]. split.
    + cbn [concat]. rewrite Hc, <- drop_drop. apply take_drop.
    + intros [|i] chunk; simpl; [intros [= <-]; by rewrite Nat.add_0_r|]. intros H. rewrite (Hi _ _ H).
      do 2 f_equal. lia.
Qed.

(** The reference: the encodings of the maximal runs. *)
Fixpoint encode_groups (groups : list (bytes * nat)) : RepeatedLineReduction :=
  match groups with
  | [] => mkLines [] 0 0
  | (line, count) :: groups =>
      let '(output, collapsed) := encode_run line count in
      let rest := encode_groups groups in
      mkLines (output ++ rl_text rest)
        (if collapsed then S (rl_collapsed_runs rest) else rl_collapsed_runs rest)
        (if collapsed then count - 1 + rl_omitted_lines rest else rl_omitted_lines rest)
  end.

Lemma encode_runs_spec lines runs :
  encode_runs lines runs = encode_groups (prod_map (default []) id <$> (run_value lines 0 <$> runs)).
Proof.
  induction runs as [|run runs IH]; [done|]. rewrite !fmap_cons. cbn [encode_runs encode_groups].
  rewrite <- IH. unfold run_value, prod_map. cbn [fst snd id]. by rewrite Nat.sub_0_r.
Qed.

Lemma group_some {A} `{EqDecision A} (d : A) (l : list A) :
  prod_map (default d) id <$> group (Some <$> l) = group l.
Proof.
  induction l as [|x l IH]; [done|]. rewrite fmap_cons. cbn [group]. rewrite <- IH. clear IH.
  destruct l as [|y l]; [done|]. rewrite fmap_cons.
  destruct (group_head (Some y) (Some <$> l)) as (n & gs & E). rewrite E. cbn.
  destruct (decide (Some x = Some y)) as [[= ->]|Hne]; cbn.
  - by destruct (decide (y = y)).
  - destruct (decide (x = y)) as [->|]; [by destruct Hne|done].
Qed.

Lemma collapse_lines_spec text :
  collapse_repeated_lines text = encode_groups (group (split_inclusive text)).
Proof.
  unfold collapse_repeated_lines. destruct (Nat.ltb_spec (length (split_inclusive text)) 2) as [Hl|Hl].
  - pose proof (split_inclusive_concat text) as Hc.
    destruct (split_inclusive text) as [|line [|? ?]]; simpl in *; [by subst| |lia]. by rewrite app_nil_r, <- Hc, app_nil_r.
  - set (lines := split_inclusive text) in *. rewrite encode_runs_spec, <- (group_some []).
    do 2 f_equal. destruct (PARALLEL_LINE_THRESHOLD <=? length lines)%nat.
    + destruct (chunks_of_spec PARTITION_LINES lines (length lines) 0) as [Hc Hi];
        [unfold PARTITION_LINES; lia|lia|]. rewrite drop_0 in Hc, Hi.
      apply (merge_runs_spec lines _ (par_chunks PARTITION_LINES lines)); [done|].
      apply Forall2_same_length_lookup_2; [apply length_imap|].
      intros i runs chunk H1 H2. rewrite list_lookup_imap, H2 in H1. injection H1 as <-.
      rewrite (Hi _ _ H2). apply local_runs_chunk.
    + apply (merge_runs_spec lines _ [lines]); [apply app_nil_r|]. repeat constructor. apply local_runs_spec.
Qed.

(** When a run is written once. *)
Definition collapses (g : bytes * nat) : bool :=
  negb (g.2 =? 1)%nat && ends_with 10 g.1 && (len (run_marker g.2) <? len g.1 * Z.of_nat (g.2 - 1)).

Definition group_text (g : bytes * nat) : bytes := concat (replicate g.2 g.1).

Lemma len_group_text g : len (group_text g) = len g.1 * Z.of_nat g.2.
Proof.
  destruct g as [line n]. unfold group_text. cbn [fst snd].
  induction n as [|n IH]; cbn [replicate concat]; [rewrite len_nil; lia|].
  rewrite len_app, IH. lia.
Qed.

Lemma concat_ungroup groups : concat (ungroup groups) = concat (group_text <$> groups).
Proof. induction groups as [|[x n] gs IH]; [done|]. unfold ungroup. simpl. rewrite concat_app. by f_equal. Qed.

Lemma encode_run_spec g :
  (1 <= g.2)%nat -> len (group_text g) <= usize_max ->
  encode_run g.1 g.2 = if collapses g then (g.1 ++ run_marker g.2, true) else (group_text g, false).
Proof.
  destruct g as [line n]. cbn [fst snd]. rewrite len_group_text. cbn [fst snd]. intros Hn Hl.
  unfold encode_run, collapses, group_text. cbn [fst snd].
  destruct (Nat.eqb_spec n 1) as [->|Hn1]; [simpl; by rewrite app_nil_r|]. cbn [negb andb].
  unfold saturating_mul. rewrite Z.min_l by (rewrite Nat2Z.inj_sub by done; pose proof (len_nonneg line); simpl in Hn; nia).
  by destruct (ends_with 10 line && _).
Qed.

(** The encoded runs, their counters and the length they save. *)
Lemma encode_groups_spec groups :
  Forall (fun g => (1 <= g.2)%nat) groups -> len (concat (ungroup groups)) <= usize_max ->
  let r := encode_groups groups in
  rl_text r = concat ((fun g => if collapses g then g.1 ++ run_marker g.2 else group_text g) <$> groups)
  /\ rl_collapsed_runs r = length (List.filter collapses groups)
  /\ rl_omitted_lines r = sum_list_with (fun g => g.2 - 1)%nat (List.filter collapses groups)
  /\ len (rl_text r) + Z.of_nat (rl_collapsed_runs r) <= len (concat (ungroup groups)).
Proof.
  induction 1 as [|[line n] gs Hn _ IH]; intros Hl; [repeat split; simpl; lia|].
  assert (len (concat (ungroup ((line, n) :: gs)))
          = len (group_text (line, n)) + len (concat (ungroup gs))) as Hs
    by (by rewrite !concat_ungroup, fmap_cons; cbn [concat]; rewrite len_app).
  rewrite Hs in *.
  pose proof (len_nonneg (concat (ungroup gs))). pose proof (len_nonneg (group_text (line, n))).
  destruct IH as (Ht & Hc & Ho & Hle); [lia|]. cbn [encode_groups].
  pose proof (encode_run_spec (line, n) Hn ltac:(lia)) as He. cbn [fst snd] in He. rewrite He.
  destruct (collapses (line, n)) eqn:Hcol; cbn [rl_text rl_collapsed_runs rl_omitted_lines List.filter];
    rewrite Hcol, fmap_cons, Hcol; cbn [concat length sum_list_with fst snd]; rewrite <- Ht, <- Hc, <- Ho;
    (split; [done|split; [done|split; [done|]]]); rewrite ?len_app.
  - unfold collapses in Hcol. rewrite !andb_true_iff, Z.ltb_lt in Hcol. cbn [fst snd] in Hcol.
    cbn [fst snd] in Hn. rewrite len_group_text. cbn [fst snd]. destruct Hcol as [_ Hcol].
    rewrite Nat2Z.inj_sub in Hcol by done. rewrite Z.mul_sub_distr_l in Hcol. lia.
  - lia.
Qed.

(** ** Error focus *)

Lemma fill_lookup s e retained i :
  fill s e retained !! i = (fun b => b || (s <=? i)%nat && (i <? e)%nat) <$> retained !! i.
Proof. unfold fill. by rewrite list_lookup_imap. Qed.

Lemma fill_length s e retained : length (fill s e retained) = length retained.
Proof. apply length_imap. Qed.

(** The flags: the edges, and the context of each anchor. *)
Lemma retained_fill_lookup (anchors : list bool) (total i : nat) : forall (lines : list nat) (retained : list bool),
  foldl (fun retained line =>
    if default false (anchors !! line)
    then fill (line - ERROR_CONTEXT_BEFORE) (Nat.min (line + (ERROR_CONTEXT_AFTER + 1)) total) retained
    else retained) retained lines !! i
  = (fun b => b || existsb (fun line => default false (anchors !! line) && ((line <=? i + 2)%nat
                 && (i <? Nat.min (line + 7) total)%nat)) lines) <$> retained !! i.
Proof.
  induction lines as [|line lines IH]; intros retained; cbn [foldl existsb].
  - destruct (retained !! i); simpl; [by rewrite orb_false_r|done].
  - rewrite IH. destruct (default false (anchors !! line)); cbn [andb orb]; [|done].
    rewrite fill_lookup. destruct (retained !! i) as [b|]; [|done]. simpl. f_equal.
    rewrite orb_assoc. do 3 f_equal. unfold ERROR_CONTEXT_BEFORE.
    destruct (Nat.leb_spec (line - 2) i), (Nat.leb_spec line (i + 2)); lia || done.
Qed.

Lemma retained_length anchors : length (retained_lines anchors) = length anchors.
Proof.
  unfold retained_lines. set (r := fill _ _ _).
  assert (length r = length anchors) as Hr by (unfold r; by rewrite !fill_length, length_replicate).
  revert Hr. generalize r (seq 0 (length anchors)). clear. intros r lines. revert r.
  induction lines as [|line lines IH]; intros r Hr; [done|]. cbn [foldl]. apply IH.
  destruct (default _ _); [by rewrite fill_length|done].
Qed.

Lemma retained_spec anchors i :
  retained_lines anchors !! i = Some true
  <-> (i < length anchors)%nat
      /\ ((i < ERROR_EDGE_LINES)%nat \/ (length anchors <= i + ERROR_EDGE_LINES)%nat
          \/ exists a, anchors !! a = Some true /\ (a <= i + ERROR_CONTEXT_BEFORE)%nat
                       /\ (i <= a + ERROR_CONTEXT_AFTER)%nat).
Proof.
  unfold retained_lines. rewrite retained_fill_lookup, !fill_lookup.
  unfold ERROR_EDGE_LINES, ERROR_CONTEXT_BEFORE, ERROR_CONTEXT_AFTER.
  destruct (decide (i < length anchors)%nat) as [Hi|];
    [rewrite lookup_replicate_2 by done|rewrite lookup_ge_None_2 by (rewrite length_replicate; lia); split; [done|lia]].
  set (ex := existsb _ _).
  assert (ex = true <-> exists a, anchors !! a = Some true /\ (a <= i + 2)%nat /\ (i <= a + 6)%nat) as Hex.
  { unfold ex. rewrite existsb_exists. split.
    - intros (a & _ & H). rewrite !andb_true_iff, Nat.leb_le, Nat.ltb_lt in H. exists a.
      destruct (anchors !! a) as [[]|]; simpl in H; [split; [done|lia]|lia|lia].
    - intros (a & H & H1 & H2). pose proof (lookup_lt_Some _ _ _ H). exists a.
      rewrite in_seq, H, !andb_true_iff, Nat.leb_le, Nat.ltb_lt. simpl. lia. }
  rewrite <- Hex. cbn [fmap option_fmap option_map]. destruct ex.
  - rewrite orb_true_r. split; [intros _; split; [done|tauto]|done].
  - rewrite orb_false_r, (inj_iff Some), orb_false_l, !orb_true_iff, !andb_true_iff, !Nat.leb_le, !Nat.ltb_lt.
    split; [|intros (_ & [H|[H|[=]]])]; lia.
Qed.

(** Where a gap ends. *)
Lemma gap_end_spec retained : forall fuel line,
  (length retained - line <= fuel)%nat ->
  let e := gap_end fuel retained line in
  (line <= e)%nat /\ drop line retained = replicate (e - line) false ++ drop e retained
  /\ retained !! e <> Some false.
Proof.
  induction fuel as [|fuel IH]; intros line Hf; simpl.
  - split; [lia|]. split; [by rewrite Nat.sub_diag|]. rewrite lookup_ge_None_2 by lia. done.
  - destruct (retained !! line) as [[]|] eqn:E;
      [split; [lia|]; split; [by rewrite Nat.sub_diag|by rewrite E]| |
       split; [lia|]; split; [by rewrite Nat.sub_diag|by rewrite E]].
    destruct (IH (S line)) as (Hle & Hd & He); [lia|]. split; [lia|]. split; [|done].
    rewrite (drop_S _ _ _ E), Hd.
    replace (gap_end fuel retained (S line) - line)%nat
      with (S (gap_end fuel retained (S line) - S line))%nat by lia. done.
Qed.

(** The maximal blocks of retained lines and the gaps between them. *)
Fixpoint segments (flags : list (bool * nat)) (lines : list bytes) : list (bool * list bytes) :=
  match flags with
  | [] => []
  | (b, n) :: flags => (b, take n lines) :: segments flags (drop n lines)
  end.

Definition omits (s : bool * list bytes) : bool :=
  negb s.1 && (len (omission_marker (length s.2)) <? len (concat s.2)).

Definition segment_text (s : bool * list bytes) : bytes :=
  if omits s then omission_marker (length s.2) else concat s.2.

Definition focused (diagnostic_lines : nat) (ss : list (bool * list bytes)) : ErrorFocusedReduction :=
  mkFocused (concat (segment_text <$> ss)) diagnostic_lines (length (List.filter omits ss))
    (sum_list_with (fun s => length s.2) (List.filter omits ss)).

Definition then_focused (r : ErrorFocusedReduction) (ss : list (bool * list bytes)) : ErrorFocusedReduction :=
  let f := focused (ef_diagnostic_lines r) ss in
  mkFocused (ef_text r ++ ef_text f) (ef_diagnostic_lines r) (ef_omitted_spans r + ef_omitted_spans f)
    (ef_omitted_lines r + ef_omitted_lines f).

Lemma segments_retained flags lines line r :
  then_focused (mkFocused (ef_text r ++ line) (ef_diagnostic_lines r) (ef_omitted_spans r) (ef_omitted_lines r))
    (segments (group flags) lines)
  = then_focused r (segments (group (true :: flags)) (line :: lines)).
Proof.
  assert (forall n rest, then_focused (mkFocused (ef_text r ++ line) (ef_diagnostic_lines r)
            (ef_omitted_spans r) (ef_omitted_lines r)) ((true, n) :: rest)
          = then_focused r ((true, line :: n) :: rest)) as Ht
    by (intros n rest; unfold then_focused, focused, segment_text, omits; cbn; by rewrite <- !app_assoc).
  assert (forall rest, then_focused (mkFocused (ef_text r ++ line) (ef_diagnostic_lines r)
            (ef_omitted_spans r) (ef_omitted_lines r)) rest
          = then_focused r ((true, [line]) :: rest)) as Hn
    by (intros rest; unfold then_focused, focused, segment_text, omits; cbn; by rewrite app_nil_r, <- !app_assoc).
  cbn [group]. destruct (group flags) as [|[[] n] gs]; cbn; [apply (Hn [])|apply Ht|apply Hn].
Qed.

Lemma segments_concat flags : forall lines,
  length flags = length lines -> concat ((fun s => concat s.2) <$> segments (group flags) lines) = concat lines.
Proof.
  intros lines Hl. rewrite <- (ungroup_group flags) in Hl. revert lines Hl.
  induction (group flags) as [|[b n] gs IH]; intros lines Hl.
  - by destruct lines.
  - change (length (replicate n b ++ ungroup gs) = length lines) in Hl.
    rewrite length_app, length_replicate in Hl.
    cbn [segments]. rewrite fmap_cons. cbn [concat snd]. rewrite IH by (rewrite length_drop; lia).
    by rewrite <- concat_app, take_drop.
Qed.

Lemma segments_gap n flags lines :
  (forall y k, flags = y :: k -> false <> y) ->
  segments (group (replicate (S n) false ++ flags)) lines
  = (false, take (S n) lines) :: segments (group flags) (drop (S n) lines).
Proof. intros Hf. by rewrite group_replicate. Qed.

Lemma then_focused_gap r gap ss :
  then_focused r ((false, gap) :: ss)
  = then_focused
      (if len (omission_marker (length gap)) <? len (concat gap)
       then mkFocused (ef_text r ++ omission_marker (length gap)) (ef_diagnostic_lines r)
              (S (ef_omitted_spans r)) (ef_omitted_lines r + length gap)
       else mkFocused (ef_text r ++ concat gap) (ef_diagnostic_lines r) (ef_omitted_spans r)
              (ef_omitted_lines r)) ss.
Proof.
  unfold then_focused, focused. rewrite fmap_cons. cbn [List.filter concat].
  assert (omits (false, gap) = (len (omission_marker (length gap)) <? len (concat gap))) as Ho by done.
  unfold segment_text at 1. rewrite Ho. clear Ho. cbn [snd].
  destruct (_ <? _); cbn [length sum_list_with ef_text ef_omitted_spans ef_omitted_lines ef_diagnostic_lines snd];
    rewrite <- ?app_assoc; f_equal; lia.
Qed.

Section Focus.
Context (text : bytes) (Hu : len text <= u64_max).
Let l := LineLayout_new text.
Let lines := split_inclusive text.

Lemma lines_le_text : (length lines <= length text)%nat.
Proof.
  rewrite <- (split_inclusive_concat text) at 1. fold lines.
  pose proof (split_inclusive_nonempty text) as HF. fold lines in HF.
  induction HF as [|line ls Hne _ IH]; [done|]. simpl. rewrite length_app.
  destruct line; [done|]. simpl. lia.
Qed.

Lemma focus_loop_spec retained : length retained = length lines ->
  forall fuel line r, (length lines - line < fuel)%nat ->
  focus_loop fuel l retained line r
  = Some (then_focused r (segments (group (drop line retained)) (drop line lines))).
Proof.
  intros Hlen. pose proof (total_lines_spec text : total_lines l = length lines) as Htotal.
  induction fuel as [|fuel IH]; intros line r Hf; [lia|]. cbn [focus_loop].
  rewrite Htotal. destruct (Nat.ltb_spec line (length lines)) as [Hl|Hl].
  2: { rewrite !drop_ge by lia. unfold then_focused, focused. simpl. rewrite app_nil_r, !Nat.add_0_r.
       by destruct r. }
  destruct (lookup_lt_is_Some_2 lines line Hl) as [x Hx].
  destruct (lookup_lt_is_Some_2 retained line) as [b Hb]; [lia|]. rewrite Hb.
  change (default false (Some b)) with b. destruct b; cbv iota.
  - rewrite IH by lia. f_equal. rewrite (drop_S retained _ _ Hb), (drop_S lines _ _ Hx).
    unfold l. rewrite (line_of_spec text _ _ Hx). apply segments_retained.
  - destruct (gap_end_spec retained (length lines) line) as (Hle & Hd & He); [lia|].
    set (e := gap_end (length lines) retained line) in *.
    assert (line < e)%nat as Hlt.
    { destruct (decide (e = line)) as [E|]; [|lia]. by rewrite E in He. }
    assert (e <= length lines)%nat as Hel.
    { pose proof (f_equal length Hd) as E. rewrite length_app, length_replicate, !length_drop in E. lia. }
    rewrite IH by lia. f_equal. rewrite Hd.
    destruct (e - line)%nat as [|m] eqn:Em; [lia|].
    rewrite segments_gap.
    2: { intros y k E <-. apply He. rewrite <- (Nat.add_0_r e), <- lookup_drop, E. done. }
    rewrite drop_drop. replace (line + S m)%nat with e by lia.
    unfold l. rewrite span_len_spec, !span_spec by (fold lines; lia). fold lines.
    pose proof lines_le_text.
    rewrite omission_marker_len_spec by (unfold len in Hu; lia).
    assert (length (take (S m) (drop line lines)) = S m) as Hm by (rewrite length_take, length_drop; lia).
    rewrite then_focused_gap, Hm. by fold (len (concat (take (S m) (drop line lines)))).
Qed.
End Focus.

(** ** Anchors *)

(** [term] stands alone in [line]: no identifier byte touches it. *)
Definition stands_alone (term line : bytes) : Prop :=
  exists before word after,
    line = before ++ word ++ after
    /\ to_ascii_lowercase <$> word = to_ascii_lowercase <$> term
    /\ (forall b rest, before = rest ++ [b] -> is_identifier_byte b = false)
    /\ (forall b rest, after = b :: rest -> is_identifier_byte b = false).

Lemma contains_ascii_term_spec line term :
  term <> [] -> contains_ascii_term line term = true <-> stands_alone term line.
Proof.
  intros Hne. unfold contains_ascii_term. rewrite (bool_decide_eq_false_2 _ Hne). cbn [orb].
  assert (0 < length term)%nat as Hpos by (destruct term; [done|simpl; lia]).
  assert (forall word, to_ascii_lowercase <$> word = to_ascii_lowercase <$> term -> length word = length term) as Hlen.
  { intros word H. apply (f_equal length) in H. by rewrite !length_fmap in H. }
  destruct (Nat.ltb_spec (length line) (length term)) as [Hl|Hl].
  - split; [done|]. intros (before & word & after & -> & Hw & _). specialize (Hlen word Hw).
    rewrite !length_app in Hl. lia.
  - rewrite existsb_exists. split.
    + intros (start & Hin & H). apply in_seq in Hin. unfold eq_ignore_ascii_case in H.
      rewrite !andb_true_iff, bool_decide_eq_true, !orb_true_iff, !negb_true_iff, !Nat.eqb_eq in H.
      destruct H as [[Hw Hb] Ha].
      exists (take start line), (take (length term) (drop start line)), (drop (length term) (drop start line)).
      rewrite !take_drop. split; [done|]. split; [done|]. split.
      * intros b rest E. destruct Hb as [->|Hb]; [by destruct rest|]. pose proof (f_equal length E) as El.
        rewrite length_take, length_app in El. simpl in El.
        rewrite <- (take_drop start line), E, lookup_app_l in Hb by (rewrite length_app; simpl; lia).
        rewrite lookup_app_r in Hb by lia. by replace (start - 1 - length rest)%nat with O in Hb by lia.
      * intros b rest E. rewrite drop_drop in E. destruct Ha as [Ha|Ha].
        -- apply (f_equal length) in E. rewrite length_drop in E. simpl in E. lia.
        -- by rewrite <- (Nat.add_0_r (start + length term)), <- lookup_drop, E in Ha.
    + intros (before & word & after & -> & Hw & Hb & Ha). specialize (Hlen word Hw). exists (length before).
      rewrite in_seq, !length_app. split; [rewrite !length_app in Hl; lia|].
      rewrite drop_app_length, <- Hlen, take_app_length. unfold eq_ignore_ascii_case.
      rewrite bool_decide_eq_true_2 by done. cbn [andb]. apply andb_true_iff. split.
      * destruct before as [|x rest] using rev_ind; [done|]. apply orb_true_iff. right.
        rewrite <- app_assoc, length_app. simpl. rewrite lookup_app_r by lia.
        replace (length rest + 1 - 1 - length rest)%nat with O by lia. simpl. by rewrite (Hb x rest).
      * destruct after as [|x rest]; [simpl; rewrite Nat.add_0_r; by rewrite Nat.eqb_refl|].
        apply orb_true_iff. right. rewrite !lookup_app_r by (rewrite ?length_app; lia).
        replace (length before + length word - length before - length word)%nat with O by lia. simpl.
        by rewrite (Ha x rest).
Qed.

(** A word of [line] ends with [suffix]. *)
Definition ends_word (suffix line : bytes) : Prop :=
  exists before after, line = before ++ suffix ++ after /\ (forall b rest, after = b :: rest -> is_identifier_byte b = false).

(** The first of the words, and the rest of the line. *)
Lemma first_word line :
  exists word words after, identifier_words line = word :: words /\ line = word ++ after
    /\ Forall (fun b => is_identifier_byte b = true) word
    /\ (forall b rest, after = b :: rest -> is_identifier_byte b = false).
Proof.
  induction line as [|c line (word & words & after & H1 & H2 & H3 & H4)]; [by exists [], [], []|]. cbn.
  destruct (is_identifier_byte c) eqn:Hc; cbn.
  - exists (c :: word), words, after. rewrite H1. split_and!; [done|by cbn; f_equal|by constructor|done].
  - exists [], (identifier_words line), (c :: line). split_and!; [done..|constructor|]. by intros b rest [= -> ->].
Qed.

(** A line that starts with identifier bytes up to a boundary starts with its first word. *)
Lemma first_word_unique (word after word' after' : bytes) :
  word ++ after = word' ++ after' ->
  Forall (fun b => is_identifier_byte b = true) word -> Forall (fun b => is_identifier_byte b = true) word' ->
  (forall b rest, after = b :: rest -> is_identifier_byte b = false) ->
  (forall b rest, after' = b :: rest -> is_identifier_byte b = false) -> word = word'.
Proof.
  intros H Hw Hw' Ha Ha'. revert word' H Hw'. induction Hw as [|b word Hb _ IH]; intros [|b' word'] H Hw'; cbn in H.
  - done.
  - subst after. apply list.Forall_cons in Hw' as [Hb' _]. rewrite (Ha _ _ eq_refl) in Hb'. done.
  - subst after'. by rewrite (Ha' _ _ eq_refl) in Hb.
  - injection H as -> H. f_equal. apply IH; [done|]. by apply list.Forall_cons in Hw' as [_ Hw'].
Qed.

Lemma bytes_end_with_spec word suffix : bytes_end_with word suffix = true <-> exists before, word = before ++ suffix.
Proof.
  unfold bytes_end_with. rewrite andb_true_iff, Nat.leb_le, bool_decide_eq_true. split.
  - intros [_ H]. exists (take (length word - length suffix) word). rewrite <- H at 2. by rewrite take_drop.
  - intros [before ->]. rewrite length_app. split; [lia|]. by rewrite Nat.add_sub, drop_app_length.
Qed.

Lemma identifier_words_spec suffix line :
  suffix <> [] -> Forall (fun b => is_identifier_byte b = true) suffix ->
  existsb (fun word => bytes_end_with word suffix) (identifier_words line) = true <-> ends_word suffix line.
Proof.
  intros Hne Hs. induction line as [|c line IH].
  { cbn. rewrite orb_false_r, bytes_end_with_spec. split.
    - intros [before Hb]. symmetry in Hb. by apply app_nil in Hb as [_ Hb].
    - intros (before & after & H & _). symmetry in H. apply app_nil in H as [_ H]. by apply app_nil in H as [H _]. }
  assert (ends_word suffix (c :: line) <-> (exists after, c :: line = suffix ++ after
    /\ forall b rest, after = b :: rest -> is_identifier_byte b = false) \/ ends_word suffix line) as ->.
  { split.
    - intros (before & after & H & Ha). destruct before as [|b before]; [by left; exists after|]. injection H as -> ->.
      right. by exists before, after.
    - intros [(after & H & Ha)|(before & after & -> & Ha)]; [by exists [], after|by exists (c :: before), after]. }
  rewrite <- IH. cbn [identifier_words]. destruct (is_identifier_byte c) eqn:Hc; cbn [negb].
  - destruct (first_word line) as (word & words & rest & Hw & Hl & Hid & Hr). rewrite Hw. cbn [existsb].
    assert (bytes_end_with (c :: word) suffix = true <-> (exists after, c :: line = suffix ++ after
      /\ forall b rest, after = b :: rest -> is_identifier_byte b = false) \/ bytes_end_with word suffix = true) as Hb.
    { rewrite !bytes_end_with_spec. split.
      - intros [[|b before] H]; [left|right; injection H as _ H; by exists before]. exists rest. cbn in H. rewrite <- H, Hl. done.
      - intros [(after & H & Ha)|[before ->]]; [|by exists (c :: before)]. exists []. rewrite Hl in H.
        apply (first_word_unique (c :: word) rest suffix after); try done. by constructor. }
    rewrite !orb_true_iff, Hb. tauto.
  - cbn [existsb]. rewrite orb_true_iff, bytes_end_with_spec. split; [intros [[before H]|H]|intros [(after & H & _)|H]].
    + symmetry in H. by apply app_nil in H as [_ H].
    + by right.
    + exfalso. destruct suffix as [|b suffix]; [done|]. injection H as -> _. apply list.Forall_cons in Hs as [Hs _]. congruence.
    + by right.
Qed.

(** The lines that are anchors. *)
Lemma is_diagnostic_anchor_spec line :
  is_diagnostic_anchor line = true
  <-> (exists term, In term ERROR_ANCHOR_TERMS /\ stands_alone term line)
      \/ ends_word (L "Error") line \/ ends_word (L "Exception") line.
Proof.
  unfold is_diagnostic_anchor. rewrite orb_true_iff. f_equiv.
  - rewrite existsb_exists. f_equiv. intros term.
    assert (Forall (fun t => t <> []) ERROR_ANCHOR_TERMS) as HF by (vm_compute; by repeat constructor).
    rewrite List.Forall_forall in HF. split; intros [Hin H]; (split; [done|]); by apply contains_ascii_term_spec; [apply HF|].
  - rewrite <- !identifier_words_spec by (try done; by repeat constructor). rewrite !existsb_exists. split.
    + intros (word & Hin & [H|H]%orb_true_iff); [left|right]; by exists word.
    + intros [(word & Hin & H)|(word & Hin & H)]; exists word; rewrite H; by rewrite ?orb_true_r.
Qed.

Lemma group_maximal {A} `{EqDecision A} (l : list A) : forall i g g',
  group l !! i = Some g -> group l !! S i = Some g' -> g.1 <> g'.1.
Proof.
  induction l as [|x l IH]; intros i g g'; [done|]. cbn [group].
  destruct (group l) as [|[y n] gs] eqn:E; [by destruct i|]. destruct (decide (x = y)) as [->|Hne].
  - destruct i as [|i]; simpl; [intros [= <-] H; apply (IH O (y, n) g'); done|].
    intros H H'. exact (IH (S i) g g' H H').
  - destruct i as [|i]; simpl; [intros [= <-] [= <-]; done|]. intros H H'. exact (IH i g g' H H').
Qed.

Lemma focused_len d ss :
  len (ef_text (focused d ss)) + Z.of_nat (ef_omitted_spans (focused d ss))
  <= len (concat ((fun s => concat s.2) <$> ss)).
Proof.
  unfold focused. cbn [ef_text ef_omitted_spans]. induction ss as [|s ss IH]; [done|].
  rewrite !fmap_cons. cbn [concat List.filter]. rewrite !len_app. unfold segment_text at 1.
  destruct (omits s) eqn:Ho; cbn [length]; [|lia]. unfold omits in Ho.
  rewrite andb_true_iff, Z.ltb_lt in Ho. lia.
Qed.

(** The projection to the errors of a text that has some. *)
Lemma focus_spec text :
  len text <= u64_max ->
  let anchors := is_diagnostic_anchor <$> split_inclusive text in
  let count := length (filter (fun a => a = true) anchors) in
  focus_error_output text
  = Some (if (count =? 0)%nat then mkFocused text 0 0 0
          else focused count (segments (group (retained_lines anchors)) (split_inclusive text))).
Proof.
  intros Hu anchors count. unfold focus_error_output. rewrite total_lines_spec.
  destruct (Nat.eqb_spec (length (split_inclusive text)) 0) as [Hz|Hz].
  { apply nil_length_inv in Hz. unfold count, anchors. by rewrite Hz. }
  assert ((fun line => is_diagnostic_anchor (line_of (LineLayout_new text) line))
            <$> seq 0 (length (split_inclusive text)) = anchors) as Ha.
  { apply list_eq. intros i. unfold anchors. rewrite !list_lookup_fmap.
    destruct (decide (i < length (split_inclusive text))%nat) as [Hi|].
    - rewrite lookup_seq_lt by done. destruct (lookup_lt_is_Some_2 _ _ Hi) as [x Hx]. rewrite Hx. simpl.
      by rewrite (line_of_spec text i x).
    - by rewrite lookup_seq_ge, lookup_ge_None_2 by lia. }
  rewrite Ha. fold count. destruct (count =? 0)%nat; [done|].
  rewrite (focus_loop_spec text Hu) by (try (rewrite retained_length; unfold anchors; apply length_fmap); lia).
  rewrite !drop_0. done.
Qed.
