(* ===== verification/ReducerBlocks.v ===== *)
(** * ReducerBlocks: repeated blocks

    The rolling hashes of equal ranges are equal, so the hashed search for a block
    never misses what the exact one finds; a candidate that is verified is therefore
    the one the exact search prefers, and the projection of a text is the greedy one
    over exact candidates, batches and hashes left aside. *)

From S2P Require Import Prelude Text Reducer ReducerFacts.

(** ** Rotations of 64-bit words *)

Definition word (x : Z) : Prop := 0 <= x < 2 ^ 64.

Lemma word_bits x : 0 <= x -> (forall i, 64 <= i -> Z.testbit x i = false) -> word x.
Proof.
  intros Hx Hb. split; [done|]. destruct (decide (x = 0)) as [->|]; [done|].
  apply Z.log2_lt_pow2; [lia|]. apply Z.nle_gt. intros Hl.
  specialize (Hb (Z.log2 x) Hl). by rewrite Z.bit_log2 in Hb by lia.
Qed.

Lemma word_testbit x i : word x -> 64 <= i -> Z.testbit x i = false.
Proof.
  intros [H0 Hx] Hi. destruct (decide (x = 0)) as [->|]; [apply Z.bits_0|].
  apply Z.bits_above_log2; [done|]. apply Z.log2_lt_pow2 in Hx; lia.
Qed.

Lemma word_lxor x y : word x -> word y -> word (Z.lxor x y).
Proof.
  intros Hx Hy. apply word_bits; [apply Z.lxor_nonneg; unfold word in *; lia|].
  intros i Hi. by rewrite Z.lxor_spec, !word_testbit.
Qed.

Lemma word_mul a b : word (wrapping_mul a b).
Proof. apply Z.mod_pos_bound. lia. Qed.

Lemma word_shiftr x k : word x -> 0 <= k -> word (Z.shiftr x k).
Proof.
  intros Hx Hk. apply word_bits; [apply Z.shiftr_nonneg; unfold word in *; lia|].
  intros i Hi. rewrite Z.shiftr_spec, word_testbit; [done|done|lia|lia].
Qed.

Lemma rotate_testbit x k i :
  word x -> 0 <= k < 64 -> 0 <= i < 64 -> Z.testbit (rotate_left x k) i = Z.testbit x ((i - k) mod 64).
Proof.
  intros Hx Hk Hi. unfold rotate_left. rewrite Z.lor_spec, Z.land_spec, Z.shiftl_spec, Z.ones_spec_low, andb_true_r by lia.
  rewrite Z.shiftr_spec by lia. destruct (Z.le_gt_cases k i).
  - rewrite Z.mod_small by lia. rewrite (word_testbit x (i + (64 - k))) by (done || lia). apply orb_false_r.
  - rewrite Z.testbit_neg_r by lia. replace ((i - k) mod 64) with (i + (64 - k)); [done|].
    rewrite <- (Z.mod_small (i + (64 - k)) 64) by lia.
    replace (i + (64 - k)) with (i - k + 1 * 64) by lia. by rewrite Z.mod_add.
Qed.

Lemma word_rotate x k : word x -> 0 <= k < 64 -> word (rotate_left x k).
Proof.
  intros Hx Hk. unfold rotate_left. apply word_bits.
  - apply Z.lor_nonneg. split; [|apply Z.shiftr_nonneg; unfold word in *; lia].
    apply Z.land_nonneg. right. rewrite Z.ones_equiv. lia.
  - intros i Hi. rewrite Z.lor_spec, Z.land_spec, Z.ones_spec_high, andb_false_r by lia.
    rewrite Z.shiftr_spec by lia. apply word_testbit; [done|lia].
Qed.

Lemma word_ext x y :
  word x -> word y -> (forall i, 0 <= i < 64 -> Z.testbit x i = Z.testbit y i) -> x = y.
Proof.
  intros Hx Hy H. apply Z.bits_inj'. intros i Hi. destruct (Z.lt_ge_cases i 64); [by apply H|].
  by rewrite !word_testbit.
Qed.

Lemma rotate_rotate x a b :
  word x -> 0 <= a < 64 -> 0 <= b < 64 ->
  rotate_left (rotate_left x a) b = rotate_left x ((a + b) mod 64).
Proof.
  intros Hx Ha Hb. pose proof (Z.mod_pos_bound (a + b) 64 ltac:(lia)).
  apply word_ext; [by apply word_rotate; [apply word_rotate|]|by apply word_rotate|].
  intros i Hi. pose proof (Z.mod_pos_bound (i - b) 64 ltac:(lia)).
  rewrite !rotate_testbit by (done || by apply word_rotate). f_equal.
  rewrite Zminus_mod_idemp_l, Zminus_mod_idemp_r. f_equal. lia.
Qed.

Lemma rotate_lxor x y k :
  word x -> word y -> 0 <= k < 64 ->
  rotate_left (Z.lxor x y) k = Z.lxor (rotate_left x k) (rotate_left y k).
Proof.
  intros Hx Hy Hk. apply word_ext; [by apply word_rotate; [apply word_lxor|]|by apply word_lxor; apply word_rotate|].
  intros i Hi. rewrite Z.lxor_spec, !rotate_testbit by (done || by apply word_lxor). apply Z.lxor_spec.
Qed.

Lemma rotate_0 x : word x -> rotate_left x 0 = x.
Proof.
  intros Hx. apply word_ext; [by apply word_rotate|done|]. intros i Hi.
  rewrite rotate_testbit by (done || lia). by rewrite Z.sub_0_r, Z.mod_small by lia.
Qed.

(** ** Hashes of ranges *)

Definition word_fold (rotation previous : Z) (fs : list Z) : Z :=
  foldl (fun previous h => Z.lxor (rotate_left previous rotation) h) previous fs.

Lemma prefix_lookup rotation fs : forall previous i,
  (i <= length fs)%nat ->
  (previous :: prefix_hashes rotation previous fs) !! i = Some (word_fold rotation previous (take i fs)).
Proof.
  induction fs as [|h fs IH]; intros previous i Hi; simpl in Hi.
  - by assert (i = O) as -> by lia.
  - destruct i as [|i]; [done|].
    exact (IH (Z.lxor (rotate_left previous rotation) h) i ltac:(lia)).
Qed.

Section Rotation.
Context (rotation : Z) (Hr : 0 <= rotation < 64).

Lemma word_fold_word fs : forall previous, word previous -> Forall word fs -> word (word_fold rotation previous fs).
Proof.
  intros previous Hp HF. revert previous Hp. induction HF as [|h fs Hh _ IH]; intros previous Hp; [done|].
  simpl. by apply IH, word_lxor; [apply word_rotate|].
Qed.

(** The fold is affine in where it starts. *)
Lemma word_fold_affine fs : forall previous,
  word previous -> Forall word fs ->
  word_fold rotation previous fs
  = Z.lxor (word_fold rotation 0 fs) (rotate_left previous ((Z.of_nat (length fs) * rotation) mod 64)).
Proof.
  induction fs as [|h fs IH] using rev_ind; intros previous Hp HF.
  - change (previous = Z.lxor 0 (rotate_left previous 0)). by rewrite rotate_0, Z.lxor_0_l.
  - apply Forall_app in HF as [HF Hh]. apply Forall_singleton in Hh.
    pose proof (IH previous Hp HF) as Hfold. pose proof (word_fold_word fs 0 ltac:(done) HF) as H0.
    unfold word_fold in *. rewrite !foldl_app. cbn [foldl]. rewrite Hfold.
    pose proof (Z.mod_pos_bound (Z.of_nat (length fs) * rotation) 64 ltac:(lia)).
    rewrite rotate_lxor, rotate_rotate by (done || by apply word_rotate).
    rewrite Zplus_mod_idemp_l, length_app. cbn [length].
    replace (Z.of_nat (length fs + 1) * rotation) with (Z.of_nat (length fs) * rotation + rotation) by lia.
    rewrite !Z.lxor_assoc. f_equal. apply Z.lxor_comm.
Qed.

Lemma range_hash_spec fs start lines :
  Forall word fs -> (start + lines <= length fs)%nat ->
  range_hash (0 :: prefix_hashes rotation 0 fs) start lines rotation
  = word_fold rotation 0 (take lines (drop start fs)).
Proof.
  intros HF Hl. unfold range_hash. rewrite !prefix_lookup by lia. cbn [default].
  change 63 with (Z.ones 6). rewrite !Z.land_ones by lia. rewrite Z.mul_mod_idemp_l by lia.
  change (2 ^ 6) with 64. rewrite <- (take_take_drop fs start lines).
  pose proof (word_fold_affine (take lines (drop start fs)) (word_fold rotation 0 (take start fs))) as Ha.
  unfold word_fold in *. rewrite foldl_app. simpl. rewrite Ha.
  - rewrite length_take, length_drop, Nat.min_l by lia.
    by rewrite Z.lxor_assoc, Z.lxor_nilpotent, Z.lxor_0_r.
  - by apply word_fold_word; [|apply Forall_take].
  - by apply Forall_take, Forall_drop.
Qed.
End Rotation.

Lemma fingerprint_loop_word line : forall hash, word hash -> word (fingerprint_loop line hash).
Proof.
  induction line as [|byte line IH]; intros hash Hh; [done|]. cbn [fingerprint_loop]. apply IH.
  apply word_lxor; [apply word_mul|]. apply word_shiftr; [apply word_mul|lia].
Qed.

Lemma fingerprint_word line seed : word seed -> word (line_fingerprint line seed).
Proof.
  intros Hs. unfold line_fingerprint.
  assert (word (fingerprint_loop line (Z.lxor seed (wrapping_mul (len line) 0x9e3779b185ebca87)))) as H.
  { apply fingerprint_loop_word, word_lxor; [done|apply word_mul]. }
  apply word_lxor; [done|]. by apply word_rotate.
Qed.

(** ** Lines that end with a newline *)

Definition is_line (line : bytes) : Prop := exists content, line = content ++ [10] /\ 10 ∉ content.

Lemma complete_is_line text : forall offset i line,
  (i < length (newline_ends offset text))%nat -> split_inclusive text !! i = Some line -> is_line line.
Proof.
  induction text as [|c text IH]; intros offset i line Hi; [done|]. cbn [newline_ends split_inclusive] in *.
  destruct (Z.eqb_spec c 10) as [->|Hc].
  - destruct i as [|i]; simpl in Hi |- *.
    + intros [= <-]. exists []. split; [done|apply not_elem_of_nil].
    + apply (IH (S offset)). lia.
  - specialize (IH (S offset) i). destruct (split_inclusive text) as [|first rest] eqn:E.
    + assert (text = []) as -> by (by rewrite <- (split_inclusive_concat text), E). simpl in Hi. lia.
    + destruct i as [|i]; [|by apply IH]. intros [= <-].
      destruct (IH first Hi eq_refl) as (content & -> & Hn). exists (c :: content). split; [done|].
      by apply not_elem_of_cons.
Qed.

Lemma split_concat lines : Forall is_line lines -> split_inclusive (concat lines) = lines.
Proof.
  induction 1 as [|line lines (content & -> & Hn) _ IH]; [done|]. cbn [concat]. rewrite <- app_assoc.
  induction content as [|c content IHc]; simpl.
  - by rewrite IH.
  - apply not_elem_of_cons in Hn as [Hc Hn]. destruct (Z.eqb_spec c 10); [congruence|].
    simpl in IHc. by rewrite IHc.
Qed.

(** ** Preference *)

Definition better (a b : BlockCandidate) : Prop :=
  cd_savings b < cd_savings a
  \/ cd_savings a = cd_savings b
     /\ ((cd_block_lines a < cd_block_lines b)%nat
         \/ cd_block_lines a = cd_block_lines b /\ (cd_repetitions b < cd_repetitions a)%nat).

Lemma preferred_spec current candidate :
  present current = true ->
  (preferred_candidate current candidate = current /\ ~ better candidate current)
  \/ (preferred_candidate current candidate = candidate /\ better candidate current).
Proof.
  intros Hp. unfold preferred_candidate, better. rewrite Hp. cbn [negb orb].
  destruct (Z.ltb_spec (cd_savings current) (cd_savings candidate)); [right; split; [done|lia]|].
  destruct (Z.eqb_spec (cd_savings candidate) (cd_savings current)); [|left; split; [done|lia]].
  destruct (Nat.ltb_spec (cd_block_lines candidate) (cd_block_lines current)); [right; split; [done|lia]|].
  destruct (Nat.eqb_spec (cd_block_lines candidate) (cd_block_lines current)); [|left; split; [done|lia]].
  destruct (Nat.ltb_spec (cd_repetitions current) (cd_repetitions candidate)); [right|left]; (split; [done|lia]).
Qed.

(** What the search over block sizes keeps. *)
Lemma best_spec (f : nat -> option BlockCandidate) sizes :
  (forall k c, k ∈ sizes -> f k = Some c -> k <> O /\ cd_block_lines c = k) ->
  let best := foldl (fun best k => consider best (f k)) NONE sizes in
  (best = NONE /\ Forall (fun k => f k = None) sizes)
  \/ ((exists k, k ∈ sizes /\ f k = Some best) /\ forall k c, k ∈ sizes -> f k = Some c -> ~ better c best).
Proof.
  intros Hf. induction sizes as [|k sizes IH] using rev_ind; [left; split; constructor|].
  specialize (IH (fun k c Hk => Hf k c ltac:(set_solver))).
  rewrite foldl_app. cbn [foldl]. set (best := foldl _ _ sizes) in *.
  destruct (f k) as [c|] eqn:Hk; simpl.
  - destruct IH as [[Hb HN]|[(k' & Hin & Hk') Hbest]].
    + right. rewrite Hb. change (preferred_candidate NONE c) with c. split.
      * exists k. split; [set_solver|done].
      * intros k' c' [Hin| ->%list_elem_of_singleton]%elem_of_app Hc'.
        -- rewrite list.Forall_forall in HN. by rewrite (HN _ Hin) in Hc'.
        -- rewrite Hk in Hc'. injection Hc' as <-. unfold better. lia.
    + right. destruct (Hf k' best ltac:(set_solver) Hk') as [Hn Hbl].
      assert (present best = true) as Hp
        by (unfold present; rewrite Hbl; destruct (Nat.eqb_spec k' 0); [done|done]).
      destruct (preferred_spec best c Hp) as [[-> Hnb]|[-> Hb]].
      * split; [exists k'; split; [set_solver|done]|].
        intros k2 c2 [Hin2| ->%list_elem_of_singleton]%elem_of_app Hc2; [by apply (Hbest k2)|congruence].
      * split; [exists k; split; [set_solver|done]|].
        intros k2 c2 [Hin2| ->%list_elem_of_singleton]%elem_of_app Hc2.
        -- specialize (Hbest k2 c2 Hin2 Hc2). unfold better in *. lia.
        -- rewrite Hk in Hc2. injection Hc2 as <-. unfold better. lia.
  - destruct IH as [[Hb HN]|[(k' & Hin & Hk') Hbest]].
    + left. split; [done|]. apply Forall_app. by split; [|constructor].
    + right. split; [exists k'; split; [set_solver|done]|].
      intros k2 c2 [Hin2| ->%list_elem_of_singleton]%elem_of_app Hc2; [by apply (Hbest k2)|congruence].
Qed.

Lemma len_to_string_snoc v : 10 <= v -> len (to_string v) = len (to_string (v / 10)) + 1.
Proof. intros. by rewrite (to_string_snoc v), len_app by done. Qed.

Lemma len_to_string_digit v : 0 <= v < 10 -> len (to_string v) = 1.
Proof. intros. by rewrite to_string_digit. Qed.

(** A longer count has at most that many digits more. *)
Lemma to_string_growth w : forall v, 0 <= v <= w -> len (to_string w) <= len (to_string v) + (w - v).
Proof.
  destruct (Z.le_gt_cases 0 w) as [Hw|]; [|lia]. revert Hw.
  induction w as [w IH] using (well_founded_induction (Z.lt_wf 0)). intros Hw v Hv.
  assert (1 <= len (to_string v)) as H1.
  { destruct (Z.le_gt_cases 10 v).
    - rewrite len_to_string_snoc by done. pose proof (len_nonneg (to_string (v / 10))). lia.
    - rewrite len_to_string_digit by lia. lia. }
  destruct (Z.le_gt_cases 10 w) as [H10|H10]; [|rewrite (len_to_string_digit w) by lia; lia].
  rewrite (len_to_string_snoc w) by done. destruct (Z.le_gt_cases 10 v) as [Hv10|Hv10].
  - rewrite (len_to_string_snoc v) by done.
    assert (len (to_string (w / 10)) <= len (to_string (v / 10)) + (w / 10 - v / 10)) as Hi.
    { apply IH; Z.to_euclidean_division_equations; lia. }
    revert Hi. Z.to_euclidean_division_equations. lia.
  - assert (len (to_string (w / 10)) <= len (to_string 1) + (w / 10 - 1)) as Hi.
    { apply IH; Z.to_euclidean_division_equations; lia. }
    change (len (to_string 1)) with 1 in Hi. revert Hi. Z.to_euclidean_division_equations. lia.
Qed.

(** ** Complete lines *)

Section Text.
Context (text : bytes).
Let l := LineLayout_new text.
Let lines := split_inclusive text.
Let complete := take (ly_complete_lines l) lines.

(** The lines [start .. start + n]. *)
Definition block (start n : nat) : list bytes := take n (drop start lines).

(** Equal ranges have equal hashes. *)
Lemma ranges_equal_sound a b n :
  (a + n <= ly_complete_lines l)%nat -> (b + n <= ly_complete_lines l)%nat ->
  block a n = block b n -> ranges_equal (BlockHashes_new l) a b n = true.
Proof.
  intros Ha Hb He. pose proof (complete_le text : ly_complete_lines l <= length lines)%nat as Hc.
  assert (line_of l <$> seq 0 (ly_complete_lines l) = complete) as Hlines.
  { apply list_eq. intros i. rewrite list_lookup_fmap. unfold complete.
    destruct (decide (i < ly_complete_lines l)%nat) as [Hi|].
    - destruct (lookup_lt_is_Some_2 lines i) as [x Hx]; [lia|].
      rewrite lookup_seq_lt, lookup_take_lt, Hx by done. simpl. f_equal. by apply line_of_spec.
    - rewrite lookup_seq_ge, lookup_take_ge by lia. done. }
  assert (forall f, take n (drop a (f <$> complete)) = take n (drop b (f <$> complete)) :> list Z) as Heq.
  { intros f. rewrite <- !fmap_drop, <- !fmap_take. f_equal. unfold complete.
    rewrite !skipn_firstn_comm, !take_take, !Nat.min_l by lia. exact He. }
  unfold ranges_equal, BlockHashes_new. rewrite Hlines. cbn [bh_first bh_second].
  rewrite !range_hash_spec by (lia || (apply Forall_fmap, Forall_true; intros; by apply fingerprint_word)
    || (rewrite length_fmap; unfold complete; rewrite length_take; lia)).
  by rewrite !Heq, !Z.eqb_refl.
Qed.

Lemma block_add a m n : block a (m + n) = block a m ++ block (a + m) n.
Proof. unfold block. by rewrite <- take_take_drop, drop_drop. Qed.

Lemma length_block a n : (a + n <= length lines)%nat -> length (block a n) = n.
Proof. intros. unfold block. rewrite length_take, length_drop. lia. Qed.

Lemma complete_lines_le : (ly_complete_lines l <= length lines)%nat.
Proof. apply (complete_le text). Qed.

Lemma block_lines a n : (a + n <= ly_complete_lines l)%nat -> Forall is_line (block a n).
Proof.
  intros Hl. apply list.Forall_lookup. intros i line Hi.
  pose proof (lookup_lt_Some _ _ _ Hi) as Hlt. unfold block in Hi, Hlt. rewrite length_take in Hlt.
  rewrite lookup_take_lt, lookup_drop in Hi by lia.
  apply (complete_is_line text 0 (a + i)%nat); [|done]. change (length (newline_ends 0 text)) with (ly_complete_lines l). lia.
Qed.

Lemma span_block a n :
  (0 < n)%nat -> (a + n <= ly_complete_lines l)%nat -> span l a n = concat (block a n).
Proof. intros Hn Ha. pose proof complete_lines_le. unfold l. rewrite span_spec; [done|done|fold lines; lia]. Qed.

(** A span of complete lines determines them. *)
Lemma span_inj a b n :
  (0 < n)%nat -> (a + n <= ly_complete_lines l)%nat -> (b + n <= ly_complete_lines l)%nat ->
  span l a n = span l b n <-> block a n = block b n.
Proof.
  intros Hn Ha Hb. rewrite !span_block by done. split; [|by intros ->].
  intros He. rewrite <- (split_concat (block a n)), <- (split_concat (block b n)) by by apply block_lines.
  by rewrite He.
Qed.

(** ** Repetitions *)

(** The block at [start] occurs [n] times in a row. *)
Definition repeats (start k n : nat) : Prop :=
  (start + n * k <= ly_complete_lines l)%nat
  /\ forall i, (i < n)%nat -> block (start + i * k) k = block start k.

Lemma repeats_block start k n : repeats start k n -> forall m j,
  (j + m <= n)%nat -> block (start + j * k) (m * k) = concat (replicate m (block start k)).
Proof.
  intros [Hl Hr]. induction m as [|m IH]; intros j Hj; [by unfold block; rewrite take_0|].
  cbn [replicate concat Nat.mul]. rewrite block_add, (Hr j) by lia. f_equal.
  replace (start + j * k + k)%nat with (start + S j * k)%nat by lia. apply IH. lia.
Qed.

Lemma exact_loop_spec start k : (0 < k)%nat -> forall fuel r,
  (1 <= r)%nat -> repeats start k r -> (ly_complete_lines l < r + fuel)%nat ->
  let n := exact_repetitions fuel l start k r in
  (r <= n)%nat /\ repeats start k n /\ forall n', repeats start k n' -> (n' <= n)%nat.
Proof.
  intros Hk. induction fuel as [|fuel IH]; intros r Hr1 Hr Hf; cbn [exact_repetitions].
  - destruct Hr as [Hl _]. nia.
  - destruct (Nat.leb_spec (start + (r + 1) * k) (ly_complete_lines l)) as [Hl|Hl]; cbn [andb].
    + case_bool_decide as He.
      * apply span_inj in He; [|done|nia|nia].
        destruct (IH (S r)) as (Hle & Hrep & Hmax); [lia| |lia|].
        -- split; [nia|]. intros i Hi. destruct (decide (i = r)) as [->|]; [by symmetry|].
           apply (proj2 Hr). lia.
        -- split; [lia|done].
      * split; [done|]. split; [done|]. intros n' [Hl' Hr']. apply Nat.nlt_ge. intros Hlt. apply He.
        apply span_inj; [done|nia|nia|]. symmetry. by apply Hr'.
    + split; [done|]. split; [done|]. intros n' [Hl' _]. apply Nat.nlt_ge. intros Hlt. nia.
Qed.

Lemma exact_spec start k :
  (0 < k)%nat -> (start + k <= ly_complete_lines l)%nat ->
  let n := exact_repetitions (ly_complete_lines l) l start k 1 in
  (1 <= n)%nat /\ repeats start k n /\ forall n', repeats start k n' -> (n' <= n)%nat.
Proof.
  intros Hk Hl. apply exact_loop_spec; [done|done| |lia]. split; [lia|].
  intros i Hi. assert (i = O) as -> by lia. f_equal. lia.
Qed.

(** The binary search reaches every prefix that is equal. *)
Lemma lcp_loop_spec h start k m : forall fuel low high,
  (high - low <= fuel)%nat -> (low <= high)%nat -> (m <= high)%nat ->
  (forall j, (j <= m)%nat -> ranges_equal h start (start + k) j = true) ->
  (m <= lcp_loop fuel h start k low high <= high)%nat.
Proof.
  induction fuel as [|fuel IH]; intros low high Hf Hlh Hm He; cbn [lcp_loop]; [lia|].
  destruct (Nat.ltb_spec low high) as [Hlt|]; [|lia].
  assert (low < low + (high - low + 1) / 2 <= high)%nat as Hmid.
  { split; [apply Nat.lt_add_pos_r, Nat.div_str_pos; lia|].
    pose proof (Nat.Div0.mul_div_le (high - low + 1) 2). lia. }
  set (middle := (low + (high - low + 1) / 2)%nat) in *.
  destruct (ranges_equal h start (start + k) middle) eqn:Heq.
  - apply IH; lia || done.
  - assert (m < middle)%nat.
    { apply Nat.nle_gt. intros Hle. by rewrite He in Heq. }
    destruct (IH low (middle - 1)%nat ltac:(lia) ltac:(lia) ltac:(lia) He). lia.
Qed.

(** ** Candidates *)

Context (Hu : Z.of_nat (length lines) <= u32_max).

(** What a block that is repeated saves. *)
Definition saving (start k n : nat) : Z :=
  len (concat (block (start + k) ((n - 1) * k))) - block_marker_len n k.

Lemma candidate_spec start k n c :
  (2 <= k <= MAX_BLOCK_LINES)%nat ->
  block_candidate l start k n = Some c
  <-> (2 <= n)%nat /\ (start + n * k <= ly_complete_lines l)%nat /\ 0 < saving start k n
      /\ c = mkCandidate k n (saving start k n).
Proof.
  intros Hk. pose proof complete_lines_le as Hc. unfold block_candidate, saving.
  destruct (Nat.ltb_spec n 2) as [|Hn]; [split; [done|lia]|].
  destruct (Nat.ltb_spec (ly_complete_lines l) (start + k * n)) as [|Hl]; [split; [done|lia]|].
  replace (k * n - k)%nat with ((n - 1) * k)%nat by nia.
  unfold l at 1 2. rewrite span_len_spec by (fold lines; nia). fold l.
  rewrite span_block by nia. fold (len (concat (block (start + k) ((n - 1) * k)))).
  destruct (Z.leb_spec (len (concat (block (start + k) ((n - 1) * k)))) (block_marker_len n k)) as [Hm|Hm].
  { split; [done|lia]. }
  destruct (Z.ltb_spec u16_max (Z.of_nat k)) as [|_]; [unfold MAX_BLOCK_LINES in Hk; lia|].
  destruct (Z.ltb_spec u32_max (Z.of_nat n)) as [|_]; [nia|]. cbn [orb].
  split; [intros [= <-]; repeat split; lia|by intros (_ & _ & _ & ->)].
Qed.

Lemma len_concat_lines ls : Forall is_line ls -> Z.of_nat (length ls) <= len (concat ls).
Proof.
  induction 1 as [|line ls (content & -> & _) _ IH]; [done|]. cbn [concat length].
  rewrite !len_app, len_cons, len_nil. pose proof (len_nonneg content). lia.
Qed.

(** One more repetition always saves more. *)
Lemma saving_mono start k n n' :
  (2 <= k)%nat -> (2 <= n <= n')%nat -> (start + n' * k <= ly_complete_lines l)%nat ->
  saving start k n + Z.of_nat (n' - n) <= saving start k n'.
Proof.
  intros Hk Hn Hl. pose proof complete_lines_le as Hc. unfold saving, block_marker_len.
  rewrite !decimal_digits_spec by nia.
  pose proof (to_string_growth (Z.of_nat n') (Z.of_nat n) ltac:(lia)) as Hg.
  replace ((n' - 1) * k)%nat with ((n - 1) * k + (n' - n) * k)%nat by nia.
  rewrite block_add, concat_app, len_app.
  set (b := block (start + k + (n - 1) * k) ((n' - n) * k)).
  assert (length b = (n' - n) * k)%nat as Hb by (apply length_block; nia).
  pose proof (len_concat_lines b) as Hlen. rewrite Hb in Hlen.
  assert (Forall is_line b) as HF by (apply block_lines; nia). specialize (Hlen HF). nia.
Qed.

Definition hashed (start k : nat) : option BlockCandidate :=
  if ranges_equal (BlockHashes_new l) start (start + k) k
  then block_candidate l start k
         (1 + hashed_longest_common_prefix l (BlockHashes_new l) start k / k)
  else None.

Definition exact (start k : nat) : option BlockCandidate :=
  block_candidate l start k (exact_repetitions (ly_complete_lines l) l start k 1).

Lemma block_sizes_spec start k :
  k ∈ block_sizes l start <-> (2 <= k <= MAX_BLOCK_LINES)%nat /\ (start + 2 * k <= ly_complete_lines l)%nat.
Proof.
  unfold block_sizes. rewrite elem_of_seq. set (h := (ly_complete_lines l - start)%nat).
  assert (k <= h / 2 <-> 2 * k <= h)%nat as Hd.
  { split; [intros H; pose proof (Nat.Div0.mul_div_le h 2); lia|].
    intros H. apply Nat.div_le_lower_bound; lia. }
  unfold MAX_BLOCK_LINES in *. lia.
Qed.

(** The hashed search counts at least the repetitions there are. *)
Lemma hashed_repetitions start k n :
  (2 <= k)%nat -> (2 <= n)%nat -> repeats start k n ->
  ranges_equal (BlockHashes_new l) start (start + k) k = true
  /\ (n <= 1 + hashed_longest_common_prefix l (BlockHashes_new l) start k / k)%nat
  /\ (start + (1 + hashed_longest_common_prefix l (BlockHashes_new l) start k / k) * k
      <= ly_complete_lines l)%nat.
Proof.
  intros Hk Hn Hr. pose proof (proj1 Hr) as Hl.
  assert (forall j, (j <= (n - 1) * k)%nat -> ranges_equal (BlockHashes_new l) start (start + k) j = true) as He.
  { intros j Hj. apply ranges_equal_sound; [nia|nia|].
    pose proof (repeats_block start k n Hr (n - 1) 0 ltac:(lia)) as H0.
    pose proof (repeats_block start k n Hr (n - 1) 1 ltac:(lia)) as H1.
    rewrite <- H1 in H0. rewrite Nat.mul_0_l, Nat.add_0_r, Nat.mul_1_l in H0.
    unfold block in *. apply (f_equal (take j)) in H0. by rewrite !take_take, !Nat.min_l in H0 by lia. }
  split; [apply He; nia|]. unfold hashed_longest_common_prefix.
  set (high := (ly_complete_lines l - start - k)%nat).
  pose proof (lcp_loop_spec (BlockHashes_new l) start k ((n - 1) * k) high k high) as H.
  set (lcp := lcp_loop _ _ _ _ _ _) in *.
  destruct H as [Hlo Hhi]; [lia|nia|nia|done|].
  pose proof (Nat.Div0.mul_div_le lcp k). split; [|nia].
  assert (n - 1 <= lcp / k)%nat by (apply Nat.div_le_lower_bound; lia). lia.
Qed.

Lemma hashed_of_exact start k c :
  k ∈ block_sizes l start -> exact start k = Some c ->
  exists c', hashed start k = Some c' /\ cd_savings c <= cd_savings c'.
Proof.
  intros [Hk Hl]%block_sizes_spec He. apply candidate_spec in He as (Hn & Hln & Hs & ->); [|done].
  destruct (exact_spec start k) as (_ & Hr & _); [lia|lia|].
  destruct (hashed_repetitions start k _ ltac:(lia) Hn Hr) as (Hreq & Hle & Hlh).
  unfold hashed. rewrite Hreq. eexists.
  pose proof (saving_mono start k _ _ ltac:(lia) (conj Hn Hle) Hlh) as Hm.
  split; [apply candidate_spec; [done|]; repeat split; [lia|done|lia]|]. cbn [cd_savings]. lia.
Qed.

Lemma exact_of_hashed start k c :
  k ∈ block_sizes l start -> hashed start k = Some c -> candidate_is_exact l start c = true ->
  exact start k = Some c.
Proof.
  intros [Hk Hl]%block_sizes_spec Hh Hex. unfold hashed in Hh.
  destruct (ranges_equal _ _ _ _); [|done].
  apply candidate_spec in Hh as (Hn & Hln & Hs & ->); [|done].
  set (n := (1 + _)%nat) in *. unfold candidate_is_exact in Hex. cbn [cd_block_lines cd_repetitions] in Hex.
  rewrite forallb_forall in Hex.
  assert (repeats start k n) as Hr.
  { split; [done|]. intros [|i] Hi; [by rewrite Nat.mul_0_l, Nat.add_0_r|].
    specialize (Hex (S i)). rewrite in_seq, bool_decide_eq_true in Hex. symmetry.
    apply span_inj; [lia|lia|nia|]. apply Hex. lia. }
  destruct (exact_spec start k) as (_ & Hre & Hmax); [lia|lia|]. pose proof (Hmax n Hr) as Hle.
  destruct (hashed_repetitions start k _ ltac:(lia) (Nat.le_trans _ _ _ Hn Hle) Hre) as (_ & Hle' & _).
  unfold exact. assert (exact_repetitions (ly_complete_lines l) l start k 1 = n) as -> by (apply Nat.le_antisymm; [exact Hle'|exact Hle]).
  apply candidate_spec; [done|]. done.
Qed.

Lemma exact_size start k c :
  k ∈ block_sizes l start -> exact start k = Some c -> k <> O /\ cd_block_lines c = k.
Proof.
  intros [Hk _]%block_sizes_spec He. apply candidate_spec in He as (_ & _ & _ & ->); [|done].
  split; [lia|done].
Qed.

Lemma hashed_size start k c :
  k ∈ block_sizes l start -> hashed start k = Some c -> k <> O /\ cd_block_lines c = k.
Proof.
  intros [Hk _]%block_sizes_spec He. unfold hashed in He. destruct (ranges_equal _ _ _ _); [|done].
  apply candidate_spec in He as (_ & _ & _ & ->); [|done]. split; [lia|done].
Qed.

(** Verifying the hashed candidate gives the exact one. *)
Lemma verified_spec start :
  verified_candidate l start (best_hashed_candidate l (BlockHashes_new l) start)
  = best_exact_candidate l start.
Proof.
  assert (best_hashed_candidate l (BlockHashes_new l) start
          = foldl (fun best k => consider best (hashed start k)) NONE (block_sizes l start)) as ->.
  { unfold best_hashed_candidate. generalize NONE. induction (block_sizes l start) as [|k ks IH]; intros b; [done|].
    cbn [foldl]. rewrite IH. f_equal. unfold hashed. by destruct (ranges_equal _ _ _ _). }
  destruct (best_spec (hashed start) (block_sizes l start)) as [[-> HN]|[(k & Hin & Hk) Hbest]];
    [apply hashed_size| |].
  - unfold verified_candidate. simpl. symmetry. unfold best_exact_candidate.
    destruct (best_spec (exact start) (block_sizes l start)) as [[H _]|[(k & Hin & Hk) _]];
      [apply exact_size|exact H|].
    destruct (hashed_of_exact start k _ Hin Hk) as (c & Hc & _).
    rewrite list.Forall_forall in HN. by rewrite (HN k Hin) in Hc.
  - set (c := foldl _ _ _) in *. clearbody c. unfold verified_candidate.
    destruct (hashed_size start k c Hin Hk) as [Hk0 Hck].
    assert (present c = true) as -> by (unfold present; by destruct (Nat.eqb_spec (cd_block_lines c) 0); [congruence|]).
    destruct (candidate_is_exact l start c) eqn:Hex; [|done]. cbn [andb].
    pose proof (exact_of_hashed start k c Hin Hk Hex) as Hek. unfold best_exact_candidate.
   
    destruct (best_spec (exact start) (block_sizes l start)) as [[_ HN]|[(k' & Hin' & Hk') Hbest']];
      [apply exact_size|rewrite list.Forall_forall in HN; by rewrite (HN k Hin) in Hek|].
    set (r := foldl _ _ (block_sizes l start)) in *. change (best_exact_candidate l start) with r in *. clearbody r.
    destruct (decide (k' = k)) as [->|Hne]; [congruence|].
    destruct (hashed_of_exact start k' r Hin' Hk') as (r' & Hr' & Hs).
    pose proof (Hbest k' r' Hin' Hr') as H1. pose proof (Hbest' k c Hin Hek) as H2.
    destruct (exact_size start k' r Hin' Hk') as [_ Hrk]. destruct (hashed_size start k' r' Hin' Hr') as [_ Hrk'].
    unfold better in *. lia.
Qed.

(** The exact search finds the repetition that saves the most. *)
Lemma exact_optimal start k n :
  (2 <= k <= MAX_BLOCK_LINES)%nat -> (2 <= n)%nat -> repeats start k n -> 0 < saving start k n ->
  present (best_exact_candidate l start) = true
  /\ saving start k n <= cd_savings (best_exact_candidate l start).
Proof.
  intros Hk Hn Hr Hs. pose proof (proj1 Hr) as Hl.
  destruct (exact_spec start k) as (_ & Hre & Hmax); [lia|nia|]. pose proof (Hmax n Hr) as Hle.
  pose proof (saving_mono start k _ _ ltac:(lia) (conj Hn Hle) (proj1 Hre)) as Hm.
  assert (k ∈ block_sizes l start) as Hin by (apply block_sizes_spec; nia).
  assert (exact start k = Some (mkCandidate k (exact_repetitions (ly_complete_lines l) l start k 1)
    (saving start k (exact_repetitions (ly_complete_lines l) l start k 1)))) as He.
  { apply candidate_spec; [done|]. repeat split; [lia|apply Hre|lia]. }
  unfold best_exact_candidate.
  destruct (best_spec (exact start) (block_sizes l start)) as [[_ HN]|[(k' & Hin' & Hk') Hbest]];
    [apply exact_size|rewrite list.Forall_forall in HN; by rewrite (HN k Hin) in He|].
  set (r := foldl _ _ (block_sizes l start)) in *. change (foldl _ _ _) with r. clearbody r.
  destruct (exact_size start k' r Hin' Hk') as [Hk0 Hrk]. split.
  - unfold present. rewrite Hrk. by destruct (Nat.eqb_spec k' 0).
  - specialize (Hbest k _ Hin He). unfold better in Hbest. cbn [cd_savings cd_block_lines] in Hbest. lia.
Qed.

(** What the exact search returns. *)
Lemma best_exact_sound start :
  let c := best_exact_candidate l start in
  present c = true ->
  (2 <= cd_block_lines c <= MAX_BLOCK_LINES)%nat /\ (2 <= cd_repetitions c)%nat
  /\ repeats start (cd_block_lines c) (cd_repetitions c)
  /\ 0 < saving start (cd_block_lines c) (cd_repetitions c).
Proof.
  unfold best_exact_candidate.
  destruct (best_spec (exact start) (block_sizes l start)) as [[H _]|[(k & Hin & Hk) _]];
    [apply exact_size| |].
  - unfold exact in H. cbn zeta. by rewrite H.
  - set (r := foldl _ _ (block_sizes l start)) in *. change (foldl _ _ _) with r. clearbody r. cbn zeta. intros _.
    apply block_sizes_spec in Hin as [Hk2 Hl2]. apply candidate_spec in Hk as (Hn & Hl & Hs & ->); [|done].
    cbn [cd_block_lines cd_repetitions]. repeat split; [lia|lia|done|done| |done].
    intros i Hi. destruct (exact_spec start k) as (_ & Hre & _); [lia|lia|]. by apply Hre.
Qed.

(** ** The projection *)

(** A block and how often it is repeated. *)
Fixpoint greedy (fuel index : nat) : list (list bytes * nat) :=
  match fuel with
  | O => []
  | S fuel =>
      if (index <? ly_complete_lines l)%nat then
        let c := best_exact_candidate l index in
        if present c
        then (block index (cd_block_lines c), cd_repetitions c)
             :: greedy fuel (index + cd_block_lines c * cd_repetitions c)
        else (block index 1, 1%nat) :: greedy fuel (S index)
      else []
  end.

Definition pieces (index : nat) : list (list bytes * nat) := greedy (ly_complete_lines l - index) index.

Lemma greedy_enough : forall fuel index,
  (ly_complete_lines l - index <= fuel)%nat -> greedy fuel index = pieces index.
Proof.
  unfold pieces. intros fuel index. remember (ly_complete_lines l - index)%nat as m eqn:Em.
  revert fuel index Em. induction m as [m IH] using (well_founded_induction lt_wf). intros fuel index Em Hf.
  destruct (Nat.ltb_spec index (ly_complete_lines l)) as [Hl|Hl].
  - destruct fuel as [|fuel]; [lia|]. destruct m as [|m]; [lia|]. cbn [greedy].
    destruct (Nat.ltb_spec index (ly_complete_lines l)) as [_|]; [|lia].
    destruct (present (best_exact_candidate l index)) eqn:Hp; f_equal.
    + destruct (best_exact_sound index Hp) as (Hk & Hn & _).
      set (k := cd_block_lines _) in *. set (n := cd_repetitions _) in *.
      assert (1 <= k * n)%nat by nia.
      rewrite (IH (ly_complete_lines l - (index + k * n))%nat) by lia.
      symmetry. apply IH; lia.
    + rewrite (IH (ly_complete_lines l - S index)%nat) by lia. symmetry. apply IH; lia.
  - assert (m = O) as -> by lia. destruct fuel as [|fuel]; [done|]. cbn [greedy].
    by destruct (Nat.ltb_spec index (ly_complete_lines l)); [lia|].
Qed.

Lemma pieces_step index :
  (index < ly_complete_lines l)%nat ->
  pieces index
  = let c := best_exact_candidate l index in
    if present c
    then (block index (cd_block_lines c), cd_repetitions c) :: pieces (index + cd_block_lines c * cd_repetitions c)
    else (block index 1, 1%nat) :: pieces (S index).
Proof.
  intros Hi. rewrite <- (greedy_enough (S (ly_complete_lines l)) index) by lia. cbn [greedy].
  destruct (Nat.ltb_spec index (ly_complete_lines l)); [|lia]. by rewrite !greedy_enough by lia.
Qed.

Definition piece_text (p : list bytes * nat) : bytes :=
  if (p.2 =? 1)%nat then concat p.1 else concat p.1 ++ block_marker p.2 (length p.1).

Definition repeated (p : list bytes * nat) : bool := negb (p.2 =? 1)%nat.

(** The counters and the text after [ps]. *)
Definition then_pieces (r : RepeatedBlockReduction) (ps : list (list bytes * nat)) : RepeatedBlockReduction :=
  mkBlocks (rb_text r ++ concat (piece_text <$> ps))
    (rb_collapsed_blocks r + length (List.filter repeated ps))
    (rb_omitted_repetitions r + sum_list_with (fun p => p.2 - 1)%nat (List.filter repeated ps))
    (rb_omitted_lines r + sum_list_with (fun p => length p.1 * (p.2 - 1))%nat (List.filter repeated ps)).

Lemma then_pieces_nil r : then_pieces r [] = r.
Proof. unfold then_pieces. simpl. rewrite app_nil_r, !Nat.add_0_r. by destruct r. Qed.

Lemma then_pieces_app r ps qs : then_pieces r (ps ++ qs) = then_pieces (then_pieces r ps) qs.
Proof.
  unfold then_pieces. cbn. rewrite fmap_app, concat_app, app_assoc, List.filter_app, length_app, !sum_list_with_app.
  f_equal; lia.
Qed.

Lemma step_repeat index r :
  let c := best_exact_candidate l index in
  present c = true ->
  mkBlocks (rb_text r ++ span l index (cd_block_lines c) ++ block_marker (cd_repetitions c) (cd_block_lines c))
    (S (rb_collapsed_blocks r)) (rb_omitted_repetitions r + (cd_repetitions c - 1))
    (rb_omitted_lines r + cd_block_lines c * (cd_repetitions c - 1))
  = then_pieces r [(block index (cd_block_lines c), cd_repetitions c)].
Proof.
  intros c Hp. destruct (best_exact_sound index Hp) as (Hk & Hn & [Hl _] & _). fold c in Hk, Hn, Hl.
  pose proof complete_lines_le. rewrite span_block by nia.
  unfold then_pieces, piece_text, repeated. cbn [fmap list_fmap List.filter concat fst snd].
  destruct (Nat.eqb_spec (cd_repetitions c) 1); [lia|]. cbn [negb length sum_list_with fst snd].
  rewrite length_block by nia. rewrite app_nil_r. f_equal; lia.
Qed.

Lemma step_line index r :
  (index < length lines)%nat ->
  mkBlocks (rb_text r ++ line_of l index) (rb_collapsed_blocks r) (rb_omitted_repetitions r) (rb_omitted_lines r)
  = then_pieces r [(block index 1, 1%nat)].
Proof.
  intros Hi. unfold then_pieces, piece_text, repeated, line_of, l. rewrite span_spec by (fold lines; lia).
  fold lines. cbn. rewrite app_nil_r, !Nat.add_0_r. done.
Qed.

Lemma batch_loop_spec batch_start batch_end candidates :
  (batch_end <= ly_complete_lines l)%nat ->
  candidates = best_hashed_candidate l (BlockHashes_new l) <$> seq batch_start (batch_end - batch_start) ->
  forall fuel index r,
  (batch_start <= index <= ly_complete_lines l)%nat -> (batch_end - index <= fuel)%nat ->
  exists index' ps,
    batch_loop fuel l candidates batch_start batch_end index r = Some (index', then_pieces r ps)
    /\ (index <= index' <= ly_complete_lines l)%nat /\ (batch_end <= index')%nat /\ pieces index = ps ++ pieces index'.
Proof.
  intros Hend ->. induction fuel as [|fuel IH]; intros index r Hs Hf; cbn [batch_loop].
  - exists index, []. rewrite then_pieces_nil. repeat split; lia || done.
  - destruct (Nat.ltb_spec index batch_end) as [Hl|Hl].
    2: { exists index, []. rewrite then_pieces_nil. repeat split; lia || done. }
    rewrite list_lookup_fmap, lookup_seq_lt by lia. cbn [fmap option_fmap option_map mbind option_bind].
    replace (batch_start + (index - batch_start))%nat with index by lia. rewrite verified_spec.
    rewrite pieces_step by lia. cbv zeta. pose proof complete_lines_le.
    destruct (present (best_exact_candidate l index)) eqn:Hp.
    + destruct (best_exact_sound index Hp) as (Hk & Hn & [Hlc _] & _). rewrite (step_repeat index r Hp).
      set (c := best_exact_candidate l index) in *.
      destruct (IH (index + cd_block_lines c * cd_repetitions c)%nat
                  (then_pieces r [(block index (cd_block_lines c), cd_repetitions c)]))
        as (index' & ps & He & Hi & Hb & Hps); [nia|nia|].
      exists index', ((block index (cd_block_lines c), cd_repetitions c) :: ps). rewrite He, Hps.
      by split; [rewrite <- then_pieces_app|split; [lia|]].
    + rewrite (step_line index r) by lia.
      destruct (IH (S index) (then_pieces r [(block index 1, 1%nat)])) as (index' & ps & He & Hi & Hb & Hps); [lia|lia|].
      exists index', ((block index 1, 1%nat) :: ps). rewrite He, Hps.
      by split; [rewrite <- then_pieces_app|split; [lia|]].
Qed.

(** The incomplete last line, when there is one. *)
Definition rest_pieces (index : nat) : list (list bytes * nat) := (fun line => ([line], 1%nat)) <$> drop index lines.

Lemma blocks_loop_spec : forall fuel index r,
  (length lines - index < fuel)%nat ->
  blocks_loop fuel l (BlockHashes_new l) index r
  = Some (then_pieces r (pieces index ++ rest_pieces (Nat.max index (ly_complete_lines l)))).
Proof.
  pose proof (total_lines_spec text : total_lines l = length lines) as Htotal. pose proof complete_lines_le as Hc.
  induction fuel as [|fuel IH]; intros index r Hf; [lia|]. cbn [blocks_loop]. rewrite Htotal.
  assert ((ly_complete_lines l <= index)%nat -> pieces index = []) as Hnil.
  { intros Hle. unfold pieces. by replace (ly_complete_lines l - index)%nat with O by lia. }
  destruct (Nat.ltb_spec index (length lines)) as [Hl|Hl].
  2: { rewrite Hnil by lia. unfold rest_pieces. rewrite drop_ge by lia. simpl. by rewrite then_pieces_nil. }
  destruct (Nat.leb_spec (ly_complete_lines l) index) as [Hle|Hlt].
  - rewrite step_line, IH, Hnil by lia. rewrite (Nat.max_l index), (Nat.max_l (S index)) by lia.
    assert (pieces (S index) = []) as ->.
    { unfold pieces. by replace (ly_complete_lines l - S index)%nat with O by lia. }
    rewrite <- then_pieces_app. destruct (lookup_lt_is_Some_2 lines index Hl) as [x Hx].
    do 2 f_equal. unfold rest_pieces, block. rewrite (drop_S lines _ _ Hx). done.
  - set (batch_end := Nat.min _ _).
    destruct (batch_loop_spec index batch_end _ ltac:(lia) eq_refl (batch_end - index)%nat index r
                ltac:(lia) ltac:(lia)) as (index' & ps & He & Hi & Hb & Hps).
    rewrite He. cbn [mbind option_bind]. unfold BLOCK_CANDIDATE_BATCH_LINES in *.
    assert (index < batch_end)%nat by lia.
    rewrite IH by lia. rewrite <- then_pieces_app, Hps, <- app_assoc. by rewrite !Nat.max_r by lia.
Qed.

(** What a piece stands for. *)
Definition piece_lines (p : list bytes * nat) : list bytes := concat (replicate p.2 p.1).

Definition piece_ok (p : list bytes * nat) : Prop :=
  p.2 = 1%nat /\ length p.1 = 1%nat
  \/ (2 <= p.2)%nat /\ (2 <= length p.1 <= MAX_BLOCK_LINES)%nat
     /\ len (piece_text p) < len (concat (piece_lines p)).

Lemma piece_repeat index :
  let c := best_exact_candidate l index in
  present c = true ->
  piece_ok (block index (cd_block_lines c), cd_repetitions c)
  /\ piece_lines (block index (cd_block_lines c), cd_repetitions c)
     = block index (cd_block_lines c * cd_repetitions c).
Proof.
  intros c Hp. destruct (best_exact_sound index Hp) as (Hk & Hn & Hr & Hs). fold c in Hk, Hn, Hr, Hs.
  set (k := cd_block_lines c) in *. set (n := cd_repetitions c) in *. pose proof (proj1 Hr) as Hl.
  pose proof complete_lines_le. assert (length (block index k) = k) as Hlen by (apply length_block; nia).
  pose proof (repeats_block index k n Hr n 0 ltac:(lia)) as Hall.
  rewrite Nat.mul_0_l, Nat.add_0_r, Nat.mul_comm in Hall.
  split; [|by rewrite Hall]. right. unfold piece_lines. cbn [fst snd]. rewrite Hlen. split; [done|]. split; [done|].
  rewrite <- Hall. unfold piece_text. cbn [fst snd]. destruct (Nat.eqb_spec n 1); [lia|]. rewrite Hlen.
  replace (k * n)%nat with (k + (n - 1) * k)%nat by nia. rewrite block_add, concat_app, !len_app.
  unfold saving in Hs. rewrite <- block_marker_len_spec by nia. lia.
Qed.

Lemma pieces_spec index :
  (index <= ly_complete_lines l)%nat ->
  Forall piece_ok (pieces index)
  /\ concat (piece_lines <$> pieces index) = block index (ly_complete_lines l - index).
Proof.
  remember (ly_complete_lines l - index)%nat as m eqn:Em. revert index Em.
  induction m as [m IH] using (well_founded_induction lt_wf). intros index Em Hi.
  pose proof complete_lines_le. destruct (decide (index = ly_complete_lines l)) as [->|Hne].
  { assert (m = O) as -> by lia. unfold pieces. rewrite Nat.sub_diag. split; [constructor|].
    unfold block. by rewrite take_0. }
  rewrite pieces_step by lia. cbv zeta. destruct (present (best_exact_candidate l index)) eqn:Hp.
  - destruct (piece_repeat index Hp) as [Hok Hpl].
    destruct (best_exact_sound index Hp) as (Hk & Hn & [Hl _] & _).
    set (k := cd_block_lines _) in *. set (n := cd_repetitions _) in *. assert (1 <= k * n)%nat by nia.
    destruct (IH (m - k * n)%nat ltac:(lia) (index + k * n)%nat ltac:(lia) ltac:(lia)) as [HF Hc].
    split; [by constructor|]. rewrite fmap_cons. cbn [concat]. rewrite Hpl, Hc, <- block_add. f_equal. nia.
  - destruct (IH (m - 1)%nat ltac:(lia) (S index) ltac:(lia) ltac:(lia)) as [HF Hc].
    split.
    + constructor; [|done]. left. split; [done|]. apply length_block. lia.
    + rewrite fmap_cons. cbn [concat]. rewrite Hc. unfold piece_lines. cbn [fst snd replicate concat].
      rewrite app_nil_r. replace m with (1 + (m - 1))%nat at 2 by lia. by rewrite block_add, Nat.add_1_r.
Qed.

Lemma rest_pieces_spec index :
  Forall piece_ok (rest_pieces index) /\ concat (piece_lines <$> rest_pieces index) = drop index lines.
Proof.
  unfold rest_pieces. split.
  - apply Forall_fmap, list.Forall_true. intros line. by left.
  - induction (drop index lines) as [|line ls IH]; [done|]. rewrite !fmap_cons. cbn [concat]. by rewrite IH.
Qed.

Lemma piece_text_le ps :
  Forall piece_ok ps ->
  len (concat (piece_text <$> ps)) + Z.of_nat (length (List.filter repeated ps))
  <= len (concat (concat (piece_lines <$> ps))).
Proof.
  induction 1 as [|[b n] ps Hok _ IH]; [done|]. rewrite !fmap_cons. cbn [concat].
  rewrite concat_app, !len_app. cbn [List.filter].
  assert (len (piece_text (b, n)) + (if repeated (b, n) then 1 else 0) <= len (concat (piece_lines (b, n)))) as H1.
  { destruct Hok as [[Hn Hb]|(Hn & _ & Hlt)]; unfold repeated; cbn [fst snd] in *.
    - subst n. unfold piece_text, piece_lines. cbn. rewrite app_nil_r. lia.
    - destruct (Nat.eqb_spec n 1); [lia|]. simpl. lia. }
  destruct (repeated (b, n)); cbn [length]; lia.
Qed.

(** The projection is that of the pieces. *)
Lemma collapse_blocks_spec :
  collapse_repeated_blocks text
  = Some (then_pieces (mkBlocks [] 0 0 0) (pieces 0 ++ rest_pieces (ly_complete_lines l))).
Proof.
  pose proof (total_lines_spec text : total_lines l = length lines) as Htotal. pose proof complete_lines_le.
  unfold collapse_repeated_blocks. fold l. destruct (Nat.ltb_spec (ly_complete_lines l) 4) as [Hl|Hl].
  - f_equal. assert (forall i, present (best_exact_candidate l i) = false) as Hn.
    { intros i. destruct (present _) eqn:Hp; [|done].
      destruct (best_exact_sound i Hp) as (Hk & Hn & [Hr _] & _). nia. }
    assert (forall fuel index, Forall (fun p => p.2 = 1%nat) (greedy fuel index)) as Hg.
    { induction fuel as [|fuel IH]; intros index; [constructor|]. cbn [greedy]. rewrite Hn.
      destruct (_ <? _)%nat; by constructor. }
    destruct (pieces_spec 0 ltac:(lia)) as [_ Hc]. destruct (rest_pieces_spec (ly_complete_lines l)) as [_ Hr].
    assert (forall ps, Forall (fun p : list bytes * nat => p.2 = 1%nat) ps ->
      then_pieces (mkBlocks [] 0 0 0) ps = mkBlocks (concat (concat (piece_lines <$> ps))) 0 0 0) as Hsingle.
    { intros ps HF. assert (List.filter repeated ps = []) as Hnil.
      { induction HF as [|p ps Hp _ IH]; [done|]. cbn [List.filter]. unfold repeated at 1. by rewrite Hp. }
      unfold then_pieces. rewrite Hnil. cbn. f_equal.
      induction HF as [|[b n] ps Hp _ IH]; [done|]. rewrite !fmap_cons. cbn [concat].
      cbn [snd] in Hp. subst n. rewrite concat_app, <- IH.
      - unfold piece_text, piece_lines. cbn. by rewrite app_nil_r.
      - by cbn [List.filter] in Hnil. }
    rewrite Hsingle.
    + rewrite fmap_app, concat_app, Hc, Hr, concat_app. unfold block. rewrite drop_0, Nat.sub_0_r.
      rewrite <- concat_app, take_drop. unfold lines. by rewrite split_inclusive_concat.
    + apply Forall_app. split; [apply Hg|]. apply Forall_fmap, list.Forall_true. done.
  - rewrite blocks_loop_spec by lia. by rewrite Nat.max_r by lia.
Qed.
End Text.
