(* ===== verification/Syntax.v ===== *)
(** * Syntax: parsed scripts

    [syntax.rs] and [diagnostic.rs].  A position is a byte offset in the submitted
    source; a span is half open.  [SourceSpan::new] asserts that its start is not
    after its end: [ParserFacts] shows that every span the parser makes satisfies it. *)

From S2P Require Import Prelude Text.

Record SourceSpan : Type := mkSpan { sp_start : Z; sp_end : Z }.

#[export] Instance SourceSpan_eq_dec : EqDecision SourceSpan.
Proof. solve_decision. Defined.

Definition span_ok (limit : Z) (s : SourceSpan) : Prop := 0 <= sp_start s <= sp_end s /\ sp_end s <= limit.

(** The addition is checked in the source. *)
Definition shift_span (s : SourceSpan) (offset : Z) : SourceSpan :=
  mkSpan (sp_start s + offset) (sp_end s + offset).

Inductive QuoteMode : Type := Unquoted | Single | Double.

#[export] Instance QuoteMode_eq_dec : EqDecision QuoteMode.
Proof. solve_decision. Defined.

Inductive ShellParameter : Type := Named (name : str) (braced : bool) | LastStatus.

Inductive RedirectionDescriptor : Type := Stdin | Stdout | Stderr.
Inductive RedirectionFileMode : Type := FRead | FWrite | FAppend.
Inductive ConditionalOperator : Type := AndIf | OrIf.

Record PipelineCondition : Type := mkCondition { pc_operator : ConditionalOperator; pc_span : SourceSpan }.

(** [command_range] is the half-open range of the stages in [sc_commands]. *)
Record Pipeline : Type := mkPipeline {
  pl_command_range : nat * nat;
  pl_pipe_spans : list SourceSpan;
  pl_condition : option PipelineCondition;
  pl_span : SourceSpan;
}.

Inductive Script : Type :=
| mkScript (sc_source : str) (sc_commands : list SimpleCommand) (sc_pipelines : list Pipeline) (sc_span : SourceSpan)
with SimpleCommand : Type :=
| mkCommand (cm_words : list Word) (cm_redirections : list Redirection) (cm_span : SourceSpan)
with Redirection : Type :=
| mkRedirection (rd_descriptor : RedirectionDescriptor) (rd_target : RedirectionTarget)
    (rd_operator_span rd_span : SourceSpan)
with RedirectionTarget : Type :=
| TFile (path : Word) (mode : RedirectionFileMode)
| TDescriptor (d : RedirectionDescriptor)
with Word : Type :=
| mkWord (wd_parts : list WordPart) (wd_span : SourceSpan)
with WordPart : Type :=
| WLiteral (value : str) (quote : QuoteMode) (span : SourceSpan)
| WEscapedLiteral (value : str) (span : SourceSpan)
| WParameter (parameter : ShellParameter) (quote : QuoteMode) (span : SourceSpan)
| WCommandSubstitution (substitution : CommandSubstitution) (quote : QuoteMode)
with CommandSubstitution : Type :=
| mkSubstitution (cs_script : Script) (cs_body_span cs_span : SourceSpan).

Definition sc_source (s : Script) : str := let 'mkScript source _ _ _ := s in source.
Definition sc_commands (s : Script) : list SimpleCommand := let 'mkScript _ commands _ _ := s in commands.
Definition sc_pipelines (s : Script) : list Pipeline := let 'mkScript _ _ pipelines _ := s in pipelines.
Definition sc_span (s : Script) : SourceSpan := let 'mkScript _ _ _ span := s in span.
Definition cm_words (c : SimpleCommand) : list Word := let 'mkCommand words _ _ := c in words.
Definition cm_redirections (c : SimpleCommand) : list Redirection := let 'mkCommand _ rs _ := c in rs.
Definition cm_span (c : SimpleCommand) : SourceSpan := let 'mkCommand _ _ span := c in span.
Definition rd_target (r : Redirection) : RedirectionTarget := let 'mkRedirection _ target _ _ := r in target.
Definition rd_operator_span (r : Redirection) : SourceSpan := let 'mkRedirection _ _ span _ := r in span.
Definition rd_span (r : Redirection) : SourceSpan := let 'mkRedirection _ _ _ span := r in span.
Definition wd_parts (w : Word) : list WordPart := let 'mkWord parts _ := w in parts.
Definition wd_span (w : Word) : SourceSpan := let 'mkWord _ span := w in span.
Definition cs_script (s : CommandSubstitution) : Script := let 'mkSubstitution script _ _ := s in script.
Definition cs_body_span (s : CommandSubstitution) : SourceSpan := let 'mkSubstitution _ span _ := s in span.
Definition cs_span (s : CommandSubstitution) : SourceSpan := let 'mkSubstitution _ _ span := s in span.

Definition part_span (p : WordPart) : SourceSpan :=
  match p with
  | WLiteral _ _ span | WEscapedLiteral _ span | WParameter _ _ span => span
  | WCommandSubstitution s _ => cs_span s
  end.

Definition part_quote (p : WordPart) : QuoteMode :=
  match p with
  | WLiteral _ quote _ | WParameter _ quote _ | WCommandSubstitution _ quote => quote
  | WEscapedLiteral _ _ => Unquoted
  end.

(** [Word::literal], one part at a time. *)
Definition part_literal (p : WordPart) : str :=
  match p with
  | WLiteral value _ _ | WEscapedLiteral value _ => value
  | WParameter (Named name braced) _ _ =>
      [36] ++ (if braced then [123] else []) ++ name ++ (if braced then [125] else [])
  | WParameter LastStatus _ _ => L "$?"
  | WCommandSubstitution s _ => L "$(" ++ sc_source (cs_script s) ++ [41]
  end.

Definition literal (w : Word) : str := wd_parts w ≫= part_literal.

(** ** Diagnostics *)

Inductive DiagnosticCode : Type :=
| UnexpectedSeparator
| InvalidRedirection
| UnsupportedSyntax
| UnterminatedSingleQuote
| UnterminatedDoubleQuote
| UnterminatedParameterExpansion
| InvalidParameterExpansion
| UnterminatedCommandSubstitution
| CommandSubstitutionDepthExceeded
| TrailingEscape.

Record Diagnostic : Type := mkDiagnostic { dg_code : DiagnosticCode; dg_message : str; dg_span : SourceSpan }.

Definition shifted (d : Diagnostic) (offset : Z) : Diagnostic :=
  mkDiagnostic (dg_code d) (dg_message d) (shift_span (dg_span d) offset).

(** ** Script shifting for execution *)

Definition shift_part (offset : Z) (p : WordPart) : WordPart :=
  match p with
  | WLiteral value quote span => WLiteral value quote (shift_span span offset)
  | WEscapedLiteral value span => WEscapedLiteral value (shift_span span offset)
  | WParameter parameter quote span => WParameter parameter quote (shift_span span offset)
  | WCommandSubstitution (mkSubstitution script body_span span) quote =>
      WCommandSubstitution (mkSubstitution script (shift_span body_span offset) (shift_span span offset)) quote
  end.

Definition shift_word (offset : Z) (w : Word) : Word :=
  mkWord (shift_part offset <$> wd_parts w) (shift_span (wd_span w) offset).

Definition shift_redirection (offset : Z) (r : Redirection) : Redirection :=
  let 'mkRedirection descriptor target operator_span span := r in
  mkRedirection descriptor
    match target with TFile path mode => TFile (shift_word offset path) mode | TDescriptor d => TDescriptor d end
    (shift_span operator_span offset) (shift_span span offset).

Definition shift_command (offset : Z) (c : SimpleCommand) : SimpleCommand :=
  mkCommand (shift_word offset <$> cm_words c) (shift_redirection offset <$> cm_redirections c)
    (shift_span (cm_span c) offset).

Definition shift_pipeline (offset : Z) (p : Pipeline) : Pipeline :=
  mkPipeline (pl_command_range p) ((fun s => shift_span s offset) <$> pl_pipe_spans p)
    ((fun c => mkCondition (pc_operator c) (shift_span (pc_span c) offset)) <$> pl_condition p)
    (shift_span (pl_span p) offset).

Definition shifted_for_execution (s : Script) (offset : Z) : Script :=
  mkScript (sc_source s) (shift_command offset <$> sc_commands s) (shift_pipeline offset <$> sc_pipelines s)
    (shift_span (sc_span s) offset).
