(* ===== verification/Parser.v ===== *)
(** * Parser: the shell's parser

    [parser.rs].  A parser state is the characters that remain and their byte offset,
    so [source[position..]] is [pr_rest]; a slice of the source between two positions
    is the characters read between them.

    [debug] is [cfg!(debug_assertions)]: two calls of [bump] are the argument of
    [debug_assert_eq!], which a build without debug assertions does not evaluate.

    [OutOfFuel] is a loop that has not ended within its fuel, one more than the
    characters that remain; [ParserFacts] shows that it never happens. *)

From S2P Require Import Prelude Text Syntax.

Inductive outcome (A : Type) : Type := Done (a : A) | Failed (d : Diagnostic) | OutOfFuel.
Arguments Done {A} a.
Arguments Failed {A} d.
Arguments OutOfFuel {A}.

#[export] Instance outcome_ret : MRet outcome := fun A a => Done a.
#[export] Instance outcome_bind : MBind outcome := fun A B f m =>
  match m with Done a => f a | Failed d => Failed d | OutOfFuel => OutOfFuel end.
#[export] Instance outcome_fmap : FMap outcome := fun A B f m =>
  match m with Done a => Done (f a) | Failed d => Failed d | OutOfFuel => OutOfFuel end.

Definition map_diagnostic {A} (f : Diagnostic -> Diagnostic) (m : outcome A) : outcome A :=
  match m with Done a => Done a | Failed d => Failed (f d) | OutOfFuel => OutOfFuel end.

Definition MAX_COMMAND_SUBSTITUTION_DEPTH : nat := 32.

Record Parser : Type := mkParser { pr_rest : str; pr_position : Z }.

Definition fail {A} (code : DiagnosticCode) (message : str) (start end_ : Z) : outcome A :=
  Failed (mkDiagnostic code message (mkSpan start end_)).

(** ** Characters *)

Definition is_reserved_operator (c : char) : bool := (c =? 38) || (c =? 40) || (c =? 41) || (c =? 96).
Definition is_identifier_start (c : char) : bool := (c =? 95) || is_ascii_alphabetic c.
Definition is_identifier_continue (c : char) : bool := (c =? 95) || is_ascii_alphanumeric c.
Definition is_unsupported_special_parameter (c : char) : bool :=
  is_ascii_digit c || existsb (Z.eqb c) (L "#@*-!$").
(** [u8::is_ascii_whitespace]. *)
Definition is_ascii_whitespace (c : char) : bool := existsb (Z.eqb c) [32; 9; 10; 12; 13].

Definition one_of (s : str) (c : char) : bool := existsb (Z.eqb c) s.

Definition peek (p : Parser) : option char := head (pr_rest p).

Definition bump (p : Parser) : option char * Parser :=
  match pr_rest p with
  | [] => (None, p)
  | c :: rest => (Some c, mkParser rest (pr_position p + len_utf8 c))
  end.

Definition skip (p : Parser) : Parser := snd (bump p).

Definition peeks (f : char -> bool) (p : Parser) : bool :=
  match peek p with Some c => f c | None => false end.

(** [source[position..].starts_with(..)]. *)
Fixpoint prefix_of (prefix s : str) : bool :=
  match prefix, s with
  | [], _ => true
  | c :: prefix, d :: s => (c =? d) && prefix_of prefix s
  | _ :: _, [] => false
  end.

Definition starts (prefix : str) (p : Parser) : bool := prefix_of prefix (pr_rest p).

Definition starts_conditional_operator (p : Parser) : bool := starts (L "&&") p || starts (L "||") p.
Definition starts_command_substitution (p : Parser) : bool := starts (L "$(") p.

(** The characters while [f] holds, and the parser after them. *)
Fixpoint take_chars (f : char -> bool) (rest : str) (position : Z) : str * Parser :=
  match rest with
  | c :: rest' =>
      if f c then let '(taken, p) := take_chars f rest' (position + len_utf8 c) in (c :: taken, p)
      else ([], mkParser rest position)
  | [] => ([], mkParser [] position)
  end.

Definition take_while (f : char -> bool) (p : Parser) : str * Parser := take_chars f (pr_rest p) (pr_position p).

Definition skip_horizontal (p : Parser) : bool * Parser :=
  let '(taken, q) := take_while (one_of [32; 9; 13]) p in (negb (bool_decide (taken = [])), q).

Definition skip_comment (p : Parser) : Parser := snd (take_while (fun c => negb (c =? 10)) p).

Definition is_eof (p : Parser) : bool := bool_decide (pr_rest p = []).

(** A turn consumes a line. *)
Fixpoint skip_command_layout (fuel : nat) (p : Parser) : outcome Parser :=
  match fuel with
  | O => OutOfFuel
  | S fuel =>
      let p := snd (skip_horizontal p) in
      match peek p with
      | Some c =>
          if c =? 10 then skip_command_layout fuel (skip p)
          else if c =? 35 then
            let p := skip_comment p in
            skip_command_layout fuel (if peeks (Z.eqb 10) p then skip p else p)
          else Done p
      | None => Done p
      end
  end.

Fixpoint skip_conditional_layout (fuel : nat) (p : Parser) : outcome Parser :=
  match fuel with
  | O => OutOfFuel
  | S fuel =>
      let p := snd (skip_horizontal p) in
      let p := if peeks (Z.eqb 35) p then skip_comment p else p in
      if peeks (Z.eqb 10) p then skip_conditional_layout fuel (skip p)
      else Done (snd (skip_horizontal p))
  end.

Definition here_end (p : Parser) : Z :=
  match peek p with Some c => pr_position p + len_utf8 c | None => pr_position p end.

Definition diagnostic_here {A} (code : DiagnosticCode) (message : str) (p : Parser) : outcome A :=
  fail code message (pr_position p) (here_end p).

(** ** The end of a command substitution *)

Inductive CommandSubstitutionScanQuote : Type := SUnquoted | SSingle | SDouble.

Record CommandSubstitutionScanFrame : Type := mkFrame {
  fr_quote : CommandSubstitutionScanQuote; fr_comment : bool; fr_comment_boundary : bool }.

Definition frame_new : CommandSubstitutionScanFrame := mkFrame SUnquoted false true.

Section Source.
Context (debug : bool) (source_len : Z).

Definition depth_exceeded {A} (position : Z) : outcome A :=
  fail CommandSubstitutionDepthExceeded (L "command substitution nesting exceeds the 32-level limit")
    position (position + 2).

(** The active frame and those below it. *)
Fixpoint scan_loop (depth : nat) (substitution_start : Z) (rest : str) (position : Z)
    (frame : CommandSubstitutionScanFrame) (others : list CommandSubstitutionScanFrame) : outcome Z :=
  match rest with
  | [] =>
      fail UnterminatedCommandSubstitution (L "command substitution is missing its closing parenthesis")
        substitution_start (substitution_start + 2)
  | c :: rest =>
      let character_end := position + len_utf8 c in
      let continue := scan_loop depth substitution_start rest character_end in
      if fr_comment frame then
        continue (if c =? 10 then mkFrame (fr_quote frame) false true else frame) others
      else
        match fr_quote frame with
        | SSingle =>
            continue (if c =? 39 then mkFrame SUnquoted (fr_comment frame) (fr_comment_boundary frame)
                      else frame) others
        | SDouble =>
            if c =? 92 then
              match rest with
              | [] => continue frame others
              | e :: rest =>
                  scan_loop depth substitution_start rest (character_end + len_utf8 e) frame others
              end
            else if c =? 34 then
              continue (mkFrame SUnquoted (fr_comment frame) (fr_comment_boundary frame)) others
            else if c =? 36 then
              match rest with
              | 40 :: rest =>
                  if (MAX_COMMAND_SUBSTITUTION_DEPTH <=? depth + S (length others))%nat
                  then depth_exceeded position
                  else scan_loop depth substitution_start rest (position + 2) frame_new (frame :: others)
              | _ => continue frame others
              end
            else continue frame others
        | SUnquoted =>
            let without_boundary := mkFrame (fr_quote frame) (fr_comment frame) false in
            if c =? 92 then
              match rest with
              | [] => continue without_boundary others
              | e :: rest =>
                  scan_loop depth substitution_start rest (character_end + len_utf8 e) without_boundary others
              end
            else if c =? 39 then continue (mkFrame SSingle (fr_comment frame) false) others
            else if c =? 34 then continue (mkFrame SDouble (fr_comment frame) false) others
            else if (c =? 35) && fr_comment_boundary frame then
              continue (mkFrame (fr_quote frame) true (fr_comment_boundary frame)) others
            else
              let other_character :=
                if c =? 41 then
                  match others with
                  | [] => Done position
                  | parent :: others =>
                      continue (mkFrame (fr_quote parent) (fr_comment parent) false) others
                  end
                else
                  continue (mkFrame (fr_quote frame) (fr_comment frame)
                              (is_ascii_whitespace c || one_of (L ";|&") c)) others in
              if c =? 36 then
                match rest with
                | 40 :: rest =>
                    if (MAX_COMMAND_SUBSTITUTION_DEPTH <=? depth + S (length others))%nat
                    then depth_exceeded position
                    else scan_loop depth substitution_start rest (position + 2) frame_new (frame :: others)
                | _ => other_character
                end
              else other_character
        end
  end.

(** The characters before a byte offset, and those after it. *)
Fixpoint split_at_bytes (n : Z) (s : str) : str * str :=
  match s with
  | c :: rest =>
      if n <=? 0 then ([], s)
      else let '(before, after) := split_at_bytes (n - len_utf8 c) rest in (c :: before, after)
  | [] => ([], [])
  end.

(** ** Parameters *)

(** [debug_assert_eq!(self.bump(), ..)]. *)
Definition asserted_bump (p : Parser) : Parser := if debug then skip p else p.

Definition parse_braced (parameter_start : Z) (p : Parser) : outcome (ShellParameter * Parser) :=
  match peek p with
  | None =>
      fail UnterminatedParameterExpansion (L "braced parameter expansion is missing its closing brace")
        parameter_start source_len
  | Some first =>
      if negb (is_identifier_start first) then
        fail InvalidParameterExpansion (L "braced parameters require an ASCII identifier")
          parameter_start (pr_position p + len_utf8 first)
      else
        let '(others, q) := take_while is_identifier_continue (skip p) in
        match peek q with
        | Some c =>
            if c =? 125 then Done (Named (first :: others) true, skip q)
            else
              fail InvalidParameterExpansion (L "braced parameters support only a plain ASCII identifier")
                parameter_start (pr_position q + len_utf8 c)
        | None =>
            fail UnterminatedParameterExpansion (L "braced parameter expansion is missing its closing brace")
              parameter_start source_len
        end
  end.

Definition parse_parameter (quote : QuoteMode) (p : Parser) : outcome (option WordPart * Parser) :=
  let parameter_start := pr_position p in
  let p := asserted_bump p in
  let parameter (m : ShellParameter * Parser) :=
    let '(parameter, p) := m in
    Done (Some (WParameter parameter quote (mkSpan parameter_start (pr_position p))), p) in
  match peek p with
  | None => Done (None, p)
  | Some c =>
      if c =? 63 then parameter (LastStatus, skip p)
      else if c =? 123 then m ← parse_braced parameter_start (skip p); parameter m
      else if is_identifier_start c then
        let '(others, q) := take_while is_identifier_continue (skip p) in
        parameter (Named (c :: others) false, q)
      else if is_unsupported_special_parameter c then
        fail UnsupportedSyntax (L "only named parameters and `$?` are supported")
          parameter_start (pr_position p + len_utf8 c)
      else Done (None, p)
  end.

(** ** Quotes *)

Fixpoint single_loop (quote_start : Z) (value : str) (rest : str) (position : Z) : outcome (WordPart * Parser) :=
  match rest with
  | [] =>
      fail UnterminatedSingleQuote (L "single-quoted text is missing its closing quote")
        quote_start source_len
  | c :: rest =>
      let next := position + len_utf8 c in
      if c =? 39 then Done (WLiteral value Single (mkSpan quote_start next), mkParser rest next)
      else single_loop quote_start (value ++ [c]) rest next
  end.

Definition parse_single_quoted (p : Parser) : outcome (WordPart * Parser) :=
  let quote_start := pr_position p in
  let p := skip p in
  single_loop quote_start [] (pr_rest p) (pr_position p).

(** [nested] parses the body of a substitution, one level deeper. *)
Section Nested.
Context (nested : str -> outcome Script) (depth : nat).

Definition parse_command_substitution (quote : QuoteMode) (p : Parser) : outcome (WordPart * Parser) :=
  let substitution_start := pr_position p in
  if starts (L "$((") p then
    fail InvalidParameterExpansion (L "arithmetic expansion is not implemented")
      substitution_start (substitution_start + 3)
  else if (MAX_COMMAND_SUBSTITUTION_DEPTH <=? depth)%nat then depth_exceeded substitution_start
  else
    let p := skip (skip p) in
    let body_start := pr_position p in
    body_end ← scan_loop depth substitution_start (pr_rest p) body_start frame_new [];
    let '(body, rest) := split_at_bytes (body_end - body_start) (pr_rest p) in
    script ← map_diagnostic (fun d => shifted d body_start) (nested body);
    if bool_decide (length (sc_commands script) = O) then
      fail UnexpectedSeparator (L "a command substitution must contain a command")
        substitution_start (substitution_start + 2)
    else
      let p := asserted_bump (mkParser rest body_end) in
      let span := mkSpan substitution_start (pr_position p) in
      Done (WCommandSubstitution (mkSubstitution script (mkSpan body_start body_end) span) quote, p).

(** [parts], [value] and [literal_start] are the variables of the loop. *)
Fixpoint double_loop (fuel : nat) (quote_start : Z) (parts : list WordPart) (value : str)
    (literal_start : Z) (p : Parser) : outcome (list WordPart * Parser) :=
  match fuel with
  | O => OutOfFuel
  | S fuel =>
      match peek p with
      | None =>
          fail UnterminatedDoubleQuote (L "double-quoted text is missing its closing quote")
            quote_start source_len
      | Some c =>
          if c =? 34 then
            let p := skip p in
            let parts :=
              if negb (bool_decide (value = [])) || bool_decide (parts = [])
              then parts ++ [WLiteral value Double (mkSpan literal_start (pr_position p))] else parts in
            Done (parts, p)
          else if c =? 36 then
            let dollar_start := pr_position p in
            '(expansion, p) ←
              (if starts_command_substitution p
               then '(part, p) ← parse_command_substitution Double p; Done (Some part, p)
               else parse_parameter Double p);
            match expansion with
            | Some part =>
                let parts :=
                  if negb (bool_decide (value = []))
                  then parts ++ [WLiteral value Double (mkSpan literal_start dollar_start)] else parts in
                double_loop fuel quote_start (parts ++ [part]) [] (pr_position p) p
            | None => double_loop fuel quote_start parts (value ++ [36]) literal_start p
            end
          else if c =? 92 then
            let escape_start := pr_position p in
            match bump (skip p) with
            | (None, _) =>
                fail TrailingEscape (L "a trailing backslash must escape another character")
                  escape_start source_len
            | (Some escaped, p) =>
                let value :=
                  if one_of [34; 92; 36] escaped then value ++ [escaped]
                  else if escaped =? 10 then value
                  else value ++ [92; escaped] in
                double_loop fuel quote_start parts value literal_start p
            end
          else double_loop fuel quote_start parts (value ++ [c]) literal_start (skip p)
      end
  end.

Definition parse_double_quoted (p : Parser) : outcome (list WordPart * Parser) :=
  double_loop (S (length (pr_rest p))) (pr_position p) [] [] (pr_position p) (skip p).

(** ** Words *)

(** [unquoted] with its start, once it has one. *)
Definition push_unquoted (parts : list WordPart) (value : str) (start : option Z) (end_ : Z)
    : list WordPart * str :=
  match start with
  | Some start => (parts ++ [WLiteral value Unquoted (mkSpan start end_)], [])
  | None => (parts, value)
  end.

Fixpoint word_loop (fuel : nat) (parts : list WordPart) (unquoted : str) (unquoted_start : option Z)
    (p : Parser) : outcome (list WordPart * Parser) :=
  match fuel with
  | O => OutOfFuel
  | S fuel =>
      let finish := Done ((push_unquoted parts unquoted unquoted_start (pr_position p)).1, p) in
      match peek p with
      | None => finish
      | Some c =>
          if one_of [32; 9; 13; 10; 59] c then finish
          else if one_of (L "|<>") c then finish
          else if starts_conditional_operator p then finish
          else if is_reserved_operator c then
            diagnostic_here UnsupportedSyntax
              (L "background jobs and subshells are reserved for a later milestone") p
          else
            let '(pushed, unquoted') := push_unquoted parts unquoted unquoted_start (pr_position p) in
            if c =? 39 then
              '(part, p) ← parse_single_quoted p;
              word_loop fuel (pushed ++ [part]) unquoted' None p
            else if c =? 34 then
              '(quoted, p) ← parse_double_quoted p;
              word_loop fuel (pushed ++ quoted) unquoted' None p
            else if c =? 36 then
              if starts_command_substitution p then
                '(part, p) ← parse_command_substitution Unquoted p;
                word_loop fuel (pushed ++ [part]) unquoted' None p
              else
                let dollar_start := pr_position p in
                '(parameter, p) ← parse_parameter Unquoted p;
                match parameter with
                | Some part => word_loop fuel (pushed ++ [part]) unquoted' None p
                | None => word_loop fuel pushed (unquoted' ++ [36]) (Some dollar_start) p
                end
            else if c =? 92 then
              let escape_start := pr_position p in
              match bump (skip p) with
              | (None, _) =>
                  fail TrailingEscape (L "a trailing backslash must escape another character")
                    escape_start source_len
              | (Some escaped, p) =>
                  let pushed :=
                    if escaped =? 10 then pushed
                    else pushed ++ [WEscapedLiteral [escaped] (mkSpan escape_start (pr_position p))] in
                  word_loop fuel pushed unquoted' None p
              end
            else
              word_loop fuel parts (unquoted ++ [c])
                (Some (default (pr_position p) unquoted_start)) (skip p)
      end
  end.

Definition parse_word (p : Parser) : outcome (Word * Parser) :=
  '(parts, q) ← word_loop (S (length (pr_rest p))) [] [] None p;
  Done (mkWord parts (mkSpan (pr_position p) (pr_position q)), q).

(** ** Redirections *)

Definition starts_redirection (p : Parser) : bool :=
  peeks (one_of (L "<>")) p
  || (peeks is_ascii_digit p && peeks (one_of (L "<>")) (snd (take_while is_ascii_digit p))).

(** [parse::<u8>] of the digits. *)
Definition parse_redirection_descriptor_prefix (p : Parser) : outcome (option Z * Parser) :=
  let '(digits, q) := take_while is_ascii_digit p in
  if bool_decide (digits = []) then Done (None, q)
  else
    match parse_unsigned u8_max digits with
    | Some n => Done (Some n, q)
    | None =>
        fail InvalidRedirection (L "redirection descriptor is outside the supported range")
          (pr_position p) (pr_position q)
    end.

Definition parse_file_redirection (redirection_start : Z) (operator_span : SourceSpan)
    (descriptor : RedirectionDescriptor) (mode : RedirectionFileMode) (p : Parser)
    : outcome (Redirection * Parser) :=
  let '(separated, p) := skip_horizontal p in
  if match peek p with None => true | Some c => one_of [10; 59; 124; 60; 62] c end
     || starts_conditional_operator p
     || (separated && peeks (Z.eqb 35) p)
  then
    Failed (mkDiagnostic UnexpectedSeparator
              (L "a file redirection operator must be followed by a target") operator_span)
  else
    '(path, p) ← parse_word p;
    Done (mkRedirection descriptor (TFile path mode) operator_span
            (mkSpan redirection_start (sp_end (wd_span path))), p).

Definition parse_descriptor_redirection (redirection_start : Z) (descriptor : RedirectionDescriptor)
    (p : Parser) : outcome (Redirection * Parser) :=
  let '(c, p) := bump p in
  target ←
    match c with
    | Some 49 => Done Stdout
    | Some 50 => Done Stderr
    | _ =>
        fail InvalidRedirection (L "descriptor duplication supports only descriptors 1 and 2")
          redirection_start (pr_position p)
    end;
  if peeks (fun c => negb (one_of [32; 9; 13; 10; 59; 124; 38; 60; 62] c)) p then
    fail InvalidRedirection (L "a duplicated descriptor must end at an operator or word boundary")
      redirection_start (pr_position p)
  else
    let span := mkSpan redirection_start (pr_position p) in
    Done (mkRedirection descriptor (TDescriptor target) span span, p).

(** [expect] and [unreachable!] guard the operator: the caller has seen it. *)
Definition parse_redirection (p : Parser) : outcome (Redirection * Parser) :=
  let redirection_start := pr_position p in
  '(descriptor, p) ← parse_redirection_descriptor_prefix p;
  let '(operator, p) := bump p in
  if bool_decide (operator = Some 60) then
    if peeks (Z.eqb 60) p then
      fail UnsupportedSyntax (L "here documents are reserved for a later milestone")
        redirection_start (pr_position (skip p))
    else
      match descriptor with
      | None | Some 0 =>
          parse_file_redirection redirection_start (mkSpan redirection_start (pr_position p)) Stdin FRead p
      | Some _ =>
          fail InvalidRedirection (L "input redirection supports only descriptor 0")
            redirection_start (pr_position p)
      end
  else
    let append := peeks (Z.eqb 62) p in
    let p := if append then skip p else p in
    descriptor ←
      match descriptor with
      | None | Some 1 => Done Stdout
      | Some 2 => Done Stderr
      | Some _ =>
          fail InvalidRedirection (L "output redirection supports only descriptors 1 and 2")
            redirection_start (pr_position p)
      end;
    if negb append && peeks (Z.eqb 38) p then
      parse_descriptor_redirection redirection_start descriptor (skip p)
    else if append && peeks (Z.eqb 38) p then
      fail InvalidRedirection (L "append redirection cannot duplicate a descriptor")
        redirection_start (pr_position (skip p))
    else
      parse_file_redirection redirection_start (mkSpan redirection_start (pr_position p)) descriptor
        (if append then FAppend else FWrite) p.

(** ** Commands and pipelines *)

(** The inner loop: the words and redirections of a command and its end. *)
Fixpoint command_loop (fuel : nat) (words : list Word) (redirections : list Redirection)
    (command_end : option Z) (p : Parser)
    : outcome (list Word * list Redirection * option Z * Parser) :=
  match fuel with
  | O => OutOfFuel
  | S fuel =>
      let '(separated, p) := skip_horizontal p in
      let finish := Done (words, redirections, command_end, p) in
      match peek p with
      | None => finish
      | Some c =>
          if one_of [10; 59; 124] c then finish
          else if (c =? 38) && starts_conditional_operator p then finish
          else if (c =? 35) && separated then finish
          else if starts_redirection p then
            '(redirection, p) ← parse_redirection p;
            command_loop fuel words (redirections ++ [redirection]) (Some (sp_end (rd_span redirection))) p
          else
            '(word, p) ← parse_word p;
            command_loop fuel (words ++ [word]) redirections (Some (sp_end (wd_span word))) p
      end
  end.

(** The stages of one pipeline. *)
Fixpoint stages_loop (fuel : nat) (commands : list SimpleCommand) (pipe_spans : list SourceSpan)
    (p : Parser) : outcome (list SimpleCommand * list SourceSpan * Z * Parser) :=
  match fuel with
  | O => OutOfFuel
  | S fuel =>
      if peeks (Z.eqb 124) p then
        diagnostic_here UnexpectedSeparator (L "a pipeline operator must follow a command") p
      else
        let command_start := pr_position p in
        '(words, redirections, command_end, p) ← command_loop (S (length (pr_rest p))) [] [] None p;
        match (if bool_decide (length (words : list Word) = O) then None else command_end) with
        | None => diagnostic_here UnexpectedSeparator (L "a pipeline stage must contain a command") p
        | Some command_end =>
            let commands := commands ++ [mkCommand words redirections (mkSpan command_start command_end)] in
            let p := snd (skip_horizontal p) in
            match peek p with
            | None => Done (commands, pipe_spans, command_end, p)
            | Some c =>
                if c =? 35 then Done (commands, pipe_spans, command_end, skip_comment p)
                else if one_of (L "|&") c && starts_conditional_operator p then
                  Done (commands, pipe_spans, command_end, p)
                else if c =? 124 then
                  let pipe_span := mkSpan (pr_position p) (pr_position (skip p)) in
                  let p := snd (skip_horizontal (skip p)) in
                  if match peek p with None => true | Some c => one_of [10; 59; 124; 35] c end
                     || starts_conditional_operator p
                  then
                    Failed (mkDiagnostic UnexpectedSeparator
                              (L "a pipeline operator must be followed by a command on the same line")
                              pipe_span)
                  else stages_loop fuel commands (pipe_spans ++ [pipe_span]) p
                else if one_of [10; 59] c then Done (commands, pipe_spans, command_end, p)
                else
                  diagnostic_here UnsupportedSyntax (L "unsupported syntax follows a pipeline stage") p
            end
        end
  end.

Fixpoint script_loop (fuel : nat) (commands : list SimpleCommand) (pipelines : list Pipeline)
    (condition : option PipelineCondition) (p : Parser)
    : outcome (list SimpleCommand * list Pipeline) :=
  match fuel with
  | O => OutOfFuel
  | S fuel =>
      if is_eof p then Done (commands, pipelines)
      else if starts_conditional_operator p then
        fail UnexpectedSeparator (L "a conditional operator must follow a pipeline")
          (pr_position p) (pr_position p + 2)
      else if peeks (Z.eqb 59) p then
        diagnostic_here UnexpectedSeparator (L "a command separator must follow a command") p
      else
        let pipeline_start := pr_position p in
        let first_command := length commands in
        '(commands, pipe_spans, pipeline_end, p) ← stages_loop (S (length (pr_rest p))) commands [] p;
        let pipelines :=
          pipelines ++ [mkPipeline (first_command, length (commands : list SimpleCommand)) pipe_spans condition
                          (mkSpan pipeline_start pipeline_end)] in
        let p := snd (skip_horizontal p) in
        if starts_conditional_operator p then
          let operator := if starts (L "&&") p then AndIf else OrIf in
          let operator_span := mkSpan (pr_position p) (pr_position (skip (skip p))) in
          let p := skip (skip p) in
          p ← skip_conditional_layout (S (length (pr_rest p))) p;
          if is_eof p || peeks (Z.eqb 59) p || starts_conditional_operator p || peeks (Z.eqb 124) p
          then
            Failed (mkDiagnostic UnexpectedSeparator
                      (L "a conditional operator must be followed by a pipeline") operator_span)
          else script_loop fuel commands pipelines (Some (mkCondition operator operator_span)) p
        else
          match peek p with
          | None => Done (commands, pipelines)
          | Some c =>
              if one_of [10; 59] c then
                p ← skip_command_layout (S (length (pr_rest p))) (skip p);
                script_loop fuel commands pipelines None p
              else diagnostic_here UnsupportedSyntax (L "unsupported syntax follows a pipeline") p
          end
  end.
End Nested.
End Source.

(** [levels] bounds the nesting: a parser at the maximal depth enters no substitution. *)
Fixpoint parse_at (debug : bool) (levels depth : nat) (source : str) : outcome Script :=
  let nested := match levels with O => fun _ => OutOfFuel | S levels => parse_at debug levels (S depth) end in
  let p := mkParser source 0 in
  p ← skip_command_layout (S (length source)) p;
  '(commands, pipelines) ←
    script_loop debug (str_len source) nested depth (S (length source)) [] [] None p;
  Done (mkScript source commands pipelines (mkSpan 0 (str_len source))).

Definition parse (debug : bool) (source : str) : outcome Script :=
  parse_at debug MAX_COMMAND_SUBSTITUTION_DEPTH 0 source.
