(* ===== verification/ParserFacts.v ===== *)
(** * ParserFacts: every parse ends, in bounds

    What a parser function promises: it returns within its fuel, it only moves
    forward, and the spans it makes, those of its diagnostics included, are in the
    source. *)

From S2P Require Import Prelude Text Syntax Parser.

(** ** Advancing *)

(** [q] is at least [k] characters after [p] in the same source. *)
Definition adv (k : nat) (p q : Parser) : Prop :=
  (length (pr_rest q) + k <= length (pr_rest p))%nat
  /\ pr_position p + Z.of_nat k <= pr_position q
  /\ pr_position q + str_len (pr_rest q) = pr_position p + str_len (pr_rest p).

(** [p] is a position of a source of [n] bytes. *)
Definition at_ (n : Z) (p : Parser) : Prop := 0 <= pr_position p /\ pr_position p + str_len (pr_rest p) = n.

Lemma adv_refl p : adv 0 p p.
Proof. unfold adv. lia. Qed.

Lemma adv_trans j k p q r : adv j p q -> adv k q r -> adv (j + k) p r.
Proof. unfold adv. lia. Qed.

Lemma adv_weaken j k p q : (k <= j)%nat -> adv j p q -> adv k p q.
Proof. unfold adv. lia. Qed.

Lemma adv_at n k p q : at_ n p -> adv k p q -> at_ n q.
Proof. unfold at_, adv. pose proof (str_len_nonneg (pr_rest q)). lia. Qed.

Lemma skip_cons c rest position : skip (mkParser (c :: rest) position) = mkParser rest (position + len_utf8 c).
Proof. done. Qed.

Lemma adv_skip p c : peek p = Some c -> adv 1 p (skip p) /\ pr_position (skip p) = pr_position p + len_utf8 c.
Proof.
  destruct p as [[|d rest] position]; [done|]. intros [= ->]. rewrite skip_cons. unfold adv. simpl.
  rewrite str_len_cons. pose proof (len_utf8_bounds c). lia.
Qed.

Lemma adv_skip_0 p : adv 0 p (skip p).
Proof.
  destruct p as [[|d rest] position]; [apply adv_refl|].
  eapply (adv_weaken 1); [lia|]. by eapply adv_skip.
Qed.

Lemma adv_bump p : adv 0 p (bump p).2.
Proof. apply adv_skip_0. Qed.

Lemma take_chars_adv f : forall rest position,
  adv (length (take_chars f rest position).1) (mkParser rest position) (take_chars f rest position).2.
Proof.
  induction rest as [|c rest IH]; intros position; simpl; [apply adv_refl|].
  destruct (f c); [|apply adv_refl]. specialize (IH (position + len_utf8 c)).
  destruct (take_chars f rest (position + len_utf8 c)) as [taken q]. simpl in *.
  eapply (adv_trans 1); [|exact IH]. apply (adv_skip (mkParser (c :: rest) position) c). done.
Qed.

Lemma take_chars_forall f : forall rest position, Forall (fun c => f c = true) (take_chars f rest position).1.
Proof.
  induction rest as [|c rest IH]; intros position; simpl; [constructor|].
  destruct (f c) eqn:E; [|constructor]. specialize (IH (position + len_utf8 c)).
  destruct (take_chars f rest (position + len_utf8 c)) as [taken q]. by constructor.
Qed.

Lemma take_while_adv f p : adv (length (take_while f p).1) p (take_while f p).2.
Proof. destruct p as [rest position]. apply take_chars_adv. Qed.

Lemma take_while_adv_0 f p : adv 0 p (take_while f p).2.
Proof. eapply adv_weaken; [|apply take_while_adv]. lia. Qed.

Lemma take_while_forall f p : Forall (fun c => f c = true) (take_while f p).1.
Proof. apply take_chars_forall. Qed.

Lemma skip_horizontal_adv p : adv 0 p (skip_horizontal p).2.
Proof.
  unfold skip_horizontal. pose proof (take_while_adv_0 (one_of [32; 9; 13]) p) as H.
  by destruct (take_while _ p).
Qed.

Lemma take_chars_stops f : forall rest position,
  (f <$> peek (take_chars f rest position).2) <> Some true.
Proof.
  induction rest as [|c rest IH]; intros position; [done|]. cbn [take_chars].
  destruct (f c) eqn:Hc; [|change (Some (f c) <> Some true); by rewrite Hc].
  specialize (IH (position + len_utf8 c)). by destruct (take_chars f rest _).
Qed.

Lemma skip_horizontal_blank p : (one_of [32; 9; 13] <$> peek (skip_horizontal p).2) <> Some true.
Proof.
  pose proof (take_chars_stops (one_of [32; 9; 13]) (pr_rest p) (pr_position p)) as H.
  unfold skip_horizontal, take_while. by destruct (take_chars _ _ _).
Qed.

Lemma skip_comment_adv p : adv 0 p (skip_comment p).
Proof. apply take_while_adv_0. Qed.

Lemma prefix_of_spec pre s : prefix_of pre s = true <-> exists t, s = pre ++ t.
Proof.
  revert s. induction pre as [|c pre IH]; intros s; simpl; [split; [by exists s|done]|].
  destruct s as [|d s]; [split; [done|by intros (? & ?)]|]. rewrite andb_true_iff, Z.eqb_eq, IH.
  split; [intros [-> [t ->]]; by exists t|intros [t [= -> ->]]; split; [done|by exists t]].
Qed.

Lemma peeks_true f p : peeks f p = true -> exists c, peek p = Some c /\ f c = true.
Proof. unfold peeks. destruct (peek p) as [c|]; [intros; by exists c|done]. Qed.

Lemma is_eof_peek p : is_eof p = false -> exists c, peek p = Some c.
Proof.
  unfold is_eof, peek. rewrite bool_decide_eq_false. destruct (pr_rest p) as [|c rest]; [done|]. by exists c.
Qed.

(** Two characters that were seen. *)
Lemma adv_skip_2 pre p c d :
  starts pre p = true -> pre = [c; d] -> 
  adv 2 p (skip (skip p)) /\ pr_position (skip (skip p)) = pr_position p + len_utf8 c + len_utf8 d
  /\ exists rest, pr_rest p = c :: d :: rest /\ pr_rest (skip (skip p)) = rest.
Proof.
  intros H ->. apply prefix_of_spec in H as [t H]. destruct p as [rest position]. simpl in H. subst rest.
  rewrite !skip_cons. unfold adv. simpl. rewrite !str_len_cons.
  pose proof (len_utf8_bounds c). pose proof (len_utf8_bounds d). repeat split; try lia. by exists t.
Qed.

(** ** Outcomes *)

Definition good {A} (n : Z) (Q : A -> Prop) (m : outcome A) : Prop :=
  match m with Done a => Q a | Failed d => span_ok n (dg_span d) | OutOfFuel => False end.

Lemma good_bind {A B} n (Q : A -> Prop) (R : B -> Prop) m (f : A -> outcome B) :
  good n Q m -> (forall a, Q a -> good n R (f a)) -> good n R (m ≫= f).
Proof. destruct m; simpl; auto. Qed.

Lemma good_mono {A} n (Q R : A -> Prop) m : good n Q m -> (forall a, Q a -> R a) -> good n R m.
Proof. destruct m; simpl; auto. Qed.

Lemma good_fail {A} n (Q : A -> Prop) code message s e :
  0 <= s <= e -> e <= n -> good n Q (fail code message s e).
Proof. intros. simpl. unfold span_ok. simpl. lia. Qed.

Lemma good_here {A} n (Q : A -> Prop) code message p : at_ n p -> good n Q (diagnostic_here code message p).
Proof.
  intros [H0 Hn]. apply good_fail; unfold here_end; destruct p as [[|c rest] position]; simpl in *;
    rewrite ?str_len_cons, ?str_len_nil in Hn; try pose proof (len_utf8_bounds c);
    try pose proof (str_len_nonneg rest); lia.
Qed.

(** What a character that is seen leaves. *)
Lemma at_peek n p c : at_ n p -> peek p = Some c -> pr_position p + len_utf8 c <= n.
Proof.
  destruct p as [[|d rest] position]; [done|]. intros [H0 Hn] [= ->]. simpl in *. rewrite str_len_cons in Hn.
  pose proof (str_len_nonneg rest). lia.
Qed.

Lemma at_position n p : at_ n p -> 0 <= pr_position p <= n.
Proof. intros [H0 Hn]. pose proof (str_len_nonneg (pr_rest p)). lia. Qed.

Lemma skip_command_layout_good n : forall fuel p,
  at_ n p -> (length (pr_rest p) < fuel)%nat -> good n (fun q => adv 0 p q) (skip_command_layout fuel p).
Proof.
  induction fuel as [|fuel IH]; intros p Hp Hf; [lia|]. cbn [skip_command_layout].
  pose proof (skip_horizontal_adv p) as H1. set (q := (skip_horizontal p).2) in *.
  pose proof (adv_at n 0 p q Hp H1) as Hq.
  assert (forall q', adv 1 q q' -> good n (fun r => adv 0 p r) (skip_command_layout fuel q')) as Hnext.
  { intros q' H2. eapply good_mono; [apply IH; [by eapply adv_at|unfold adv in *; lia]|].
    intros r Hr. cbn in Hr. unfold adv in *. lia. }
  destruct (peek q) as [c|] eqn:Hc; [|exact H1].
  destruct (adv_skip q c Hc) as [Hs _]. destruct (c =? 10); [by apply Hnext|].
  destruct (Z.eqb_spec c 35) as [->|]; [|exact H1]. apply Hnext.
  assert (adv 1 q (skip_comment q)) as Hcm.
  { unfold skip_comment. eapply adv_weaken; [|apply take_while_adv].
    unfold take_while. destruct q as [[|d rest] position]; [done|]. injection Hc as ->. simpl.
    destruct (take_chars _ rest _). simpl. lia. }
  destruct (peeks _ (skip_comment q)); [|done].
  pose proof (adv_skip_0 (skip_comment q)). unfold adv in *. lia.
Qed.

Lemma skip_conditional_layout_good n : forall fuel p,
  at_ n p -> (length (pr_rest p) < fuel)%nat -> good n (fun q => adv 0 p q) (skip_conditional_layout fuel p).
Proof.
  induction fuel as [|fuel IH]; intros p Hp Hf; [lia|]. cbn [skip_conditional_layout].
  pose proof (skip_horizontal_adv p) as H1. set (q := (skip_horizontal p).2) in *.
  set (q2 := if peeks (Z.eqb 35) q then skip_comment q else q).
  assert (adv 0 p q2) as H2.
  { unfold q2. destruct (peeks _ q); [|done]. exact (adv_trans 0 0 _ _ _ H1 (skip_comment_adv q)). }
  pose proof (adv_at n 0 p q2 Hp H2) as Hq2. destruct (peeks (Z.eqb 10) q2) eqn:Hpk.
  - apply peeks_true in Hpk as (c & Hc & _). destruct (adv_skip q2 c Hc) as [Hs _].
    eapply good_mono; [apply IH; [by eapply adv_at|unfold adv in *; lia]|].
    intros r Hr. cbn in Hr. unfold adv in *. lia.
  - exact (adv_trans 0 0 _ _ _ H2 (skip_horizontal_adv q2)).
Qed.

(** ** Well-formed scripts *)

Definition identifier (name : str) : Prop :=
  match name with
  | first :: rest => is_identifier_start first = true /\ Forall (fun c => is_identifier_continue c = true) rest
  | [] => False
  end.

(** The pipelines cover the commands from [start] to [count] in order. *)
Fixpoint pipelines_from (n : Z) (start : nat) (pls : list Pipeline) (count : nat) : Prop :=
  match pls with
  | [] => start = count
  | p :: pls =>
      (pl_command_range p).1 = start /\ (start < (pl_command_range p).2)%nat
      /\ (length (pl_pipe_spans p) + 1 = (pl_command_range p).2 - start)%nat
      /\ Forall (span_ok n) (pl_pipe_spans p) /\ span_ok n (pl_span p)
      /\ (forall c, pl_condition p = Some c -> span_ok n (pc_span c))
      /\ pipelines_from n (pl_command_range p).2 pls count
  end.

Definition pipelines_wf (n : Z) (count : nat) (pls : list Pipeline) : Prop :=
  pipelines_from n 0 pls count /\ forall p, head pls = Some p -> pl_condition p = None.

(** A script, relative to its own source, and its words, relative to [n] bytes. *)
Inductive script_wf : Script -> Prop :=
| script_wf_intro source commands pipelines :
    Forall (command_wf (str_len source)) commands ->
    pipelines_wf (str_len source) (length commands) pipelines ->
    script_wf (mkScript source commands pipelines (mkSpan 0 (str_len source)))
with command_wf : Z -> SimpleCommand -> Prop :=
| command_wf_intro n words redirections span :
    words <> [] -> Forall (word_wf n) words -> Forall (redirection_wf n) redirections -> span_ok n span ->
    command_wf n (mkCommand words redirections span)
with redirection_wf : Z -> Redirection -> Prop :=
| redirection_wf_file n descriptor path mode operator_span span :
    word_wf n path -> span_ok n operator_span -> span_ok n span ->
    redirection_wf n (mkRedirection descriptor (TFile path mode) operator_span span)
| redirection_wf_descriptor n descriptor target operator_span span :
    span_ok n operator_span -> span_ok n span ->
    redirection_wf n (mkRedirection descriptor (TDescriptor target) operator_span span)
with word_wf : Z -> Word -> Prop :=
| word_wf_intro n parts span : Forall (part_wf n) parts -> span_ok n span -> word_wf n (mkWord parts span)
with part_wf : Z -> WordPart -> Prop :=
| part_wf_literal n value quote span : span_ok n span -> part_wf n (WLiteral value quote span)
| part_wf_escaped n c span : span_ok n span -> part_wf n (WEscapedLiteral [c] span)
| part_wf_named n name braced quote span :
    identifier name -> span_ok n span -> part_wf n (WParameter (Named name braced) quote span)
| part_wf_status n quote span : span_ok n span -> part_wf n (WParameter LastStatus quote span)
| part_wf_substitution n script body_span span quote :
    script_wf script -> sc_commands script <> [] -> span_ok n span ->
    sp_start body_span = sp_start span + 2 -> sp_end body_span <= sp_end span ->
    sp_end body_span = sp_start body_span + str_len (sc_source script) ->
    part_wf n (WCommandSubstitution (mkSubstitution script body_span span) quote).

#[export] Hint Constructors script_wf command_wf redirection_wf word_wf part_wf : parser.

Lemma pipelines_from_app n pls p : forall start mid,
  pipelines_from n start pls mid ->
  (pl_command_range p).1 = mid -> (mid < (pl_command_range p).2)%nat ->
  (length (pl_pipe_spans p) + 1 = (pl_command_range p).2 - mid)%nat ->
  Forall (span_ok n) (pl_pipe_spans p) -> span_ok n (pl_span p) ->
  (forall c, pl_condition p = Some c -> span_ok n (pc_span c)) ->
  pipelines_from n start (pls ++ [p]) (pl_command_range p).2.
Proof.
  induction pls as [|q pls IH]; intros start mid Hf H1 H2 H3 H4 H5 H6; simpl in *.
  - subst start. by do 6 (split; [done|]).
  - destruct Hf as (? & ? & ? & ? & ? & ? & Hf). do 6 (split; [done|]). by eapply IH.
Qed.

Lemma span_ok_shift n d offset : span_ok n (dg_span d) -> 0 <= offset -> span_ok (n + offset) (dg_span (shifted d offset)).
Proof. unfold span_ok. destruct d as [code message [s e]]. simpl. lia. Qed.

Lemma span_ok_le m n s : span_ok m s -> m <= n -> span_ok n s.
Proof. unfold span_ok. lia. Qed.

Section Source.
Context (debug : bool) (n : Z).

(** ** The end of a substitution *)

Lemma split_at_bytes_app before after : split_at_bytes (str_len before) (before ++ after) = (before, after).
Proof.
  induction before as [|c before IH]; simpl.
  - by destruct after.
  - rewrite str_len_cons. pose proof (len_utf8_bounds c). pose proof (str_len_nonneg before).
    destruct (Z.leb_spec (len_utf8 c + str_len before) 0); [lia|].
    replace (len_utf8 c + str_len before - len_utf8 c) with (str_len before) by lia. by rewrite IH.
Qed.

(** The end is at a closing parenthesis. *)
Definition ends_at (rest : str) (position e : Z) : Prop :=
  exists before after, rest = before ++ 41 :: after /\ e = position + str_len before.

Lemma ends_at_cons c rest position e : ends_at rest (position + len_utf8 c) e -> ends_at (c :: rest) position e.
Proof. intros (before & after & -> & ->). exists (c :: before), after. split; [done|]. rewrite str_len_cons. lia. Qed.

(** The end, and spans in bounds when the scan starts in bounds. *)
Definition scans (start : Z) (rest : str) (position : Z) (m : outcome Z) : Prop :=
  match m with
  | Done e => ends_at rest position e
  | Failed d =>
      0 <= start -> start + 2 <= position -> position + str_len rest = n -> span_ok n (dg_span d)
  | OutOfFuel => False
  end.

Lemma scans_cons start c rest position m :
  scans start rest (position + len_utf8 c) m -> scans start (c :: rest) position m.
Proof.
  pose proof (len_utf8_bounds c).
  destruct m as [e|d|]; simpl; [apply ends_at_cons| |done]. intros H0 H1 H2 H3. rewrite str_len_cons in H3.
  apply H0; lia.
Qed.

Lemma scan_loop_scans depth start : forall rest position frame others,
  scans start rest position (scan_loop depth start rest position frame others).
Proof.
  assert (forall m rest, (length rest < m)%nat -> forall position frame others,
    scans start rest position (scan_loop depth start rest position frame others)) as H.
  2: { intros rest. apply (H (S (length rest))). lia. }
  induction m as [|m IH]; intros rest Hm position frame others; [lia|].
  destruct rest as [|c rest]; [intros ? ? Hn; rewrite str_len_nil in Hn; apply (good_fail (A:=Z) n (fun _ => True)); lia|].
  simpl in Hm.
  assert (forall frame others, scans start (c :: rest) position
    (scan_loop depth start rest (position + len_utf8 c) frame others)) as Hnext
    by (intros; apply scans_cons, IH; lia).
  assert (forall d rest' frame others, rest = d :: rest' -> scans start (c :: rest) position
    (scan_loop depth start rest' (position + len_utf8 c + len_utf8 d) frame others)) as Hnext2.
  { intros d rest' f o ->. simpl in Hm. apply scans_cons, scans_cons, IH. lia. }
  assert (forall rest' frame others, c = 36 -> rest = 40 :: rest' -> scans start (c :: rest) position
    (scan_loop depth start rest' (position + 2) frame others)) as Hsub.
  { intros rest' f o -> E. specialize (Hnext2 40 rest' f o E).
    change (len_utf8 36) with 1 in Hnext2. change (len_utf8 40) with 1 in Hnext2.
    by rewrite <- Z.add_assoc in Hnext2. }
  assert (forall rest', c = 36 -> rest = 40 :: rest' -> scans start (c :: rest) position (depth_exceeded position)) as Hdeep.
  { intros rest' -> -> ? ? Hn. rewrite !str_len_cons in Hn. change (len_utf8 36) with 1 in *. change (len_utf8 40) with 1 in *.
    pose proof (str_len_nonneg rest'). apply (good_fail (A:=Z) n (fun _ => True)); lia. }
  cbn [scan_loop]. destruct frame as [quote [] boundary]; cbn [fr_quote fr_comment fr_comment_boundary];
    [destruct (c =? 10); apply Hnext|]. destruct quote.
  - destruct (c =? 92); [destruct rest as [|d rest']; [apply Hnext|by apply Hnext2]|].
    destruct (c =? 39); [apply Hnext|]. destruct (c =? 34); [apply Hnext|].
    destruct ((c =? 35) && boundary); [apply Hnext|].
    assert (scans start (c :: rest) position
      (if c =? 41 then
         match others with
         | [] => Done position
         | parent :: others =>
             scan_loop depth start rest (position + len_utf8 c)
               (mkFrame (fr_quote parent) (fr_comment parent) false) others
         end
       else scan_loop depth start rest (position + len_utf8 c)
              (mkFrame SUnquoted false
                 (is_ascii_whitespace c || one_of (L ";|&") c)) others)) as Hother.
    { destruct (Z.eqb_spec c 41) as [->|]; [|apply Hnext]. destruct others; [|apply Hnext].
      exists [], rest. split; [done|]. rewrite str_len_nil. lia. }
    destruct (Z.eqb_spec c 36) as [Hc|]; [|exact Hother].
    destruct rest as [|d rest']; [exact Hother|]. destruct (decide (d = 40)) as [->|Hd].
    + destruct (_ <=? _)%nat; [by eapply Hdeep|by apply Hsub].
    + destruct d as [|d|d]; try exact Hother. do 6 (destruct d as [d|d|]; try exact Hother). by destruct Hd.
  - destruct (c =? 39); apply Hnext.
  - destruct (c =? 92); [destruct rest as [|d rest']; [apply Hnext|by apply Hnext2]|].
    destruct (c =? 34); [apply Hnext|]. destruct (Z.eqb_spec c 36) as [Hc|]; [|apply Hnext].
    destruct rest as [|d rest']; [apply Hnext|]. destruct (decide (d = 40)) as [->|Hd].
    + destruct (_ <=? _)%nat; [by eapply Hdeep|by apply Hsub].
    + destruct d as [|d|d]; try apply Hnext. do 6 (destruct d as [d|d|]; try apply Hnext). by destruct Hd.
Qed.

Lemma scan_loop_good depth start rest position frame others :
  0 <= start -> start + 2 <= position -> position + str_len rest = n ->
  good n (ends_at rest position) (scan_loop depth start rest position frame others).
Proof.
  intros H0 H1 H2. pose proof (scan_loop_scans depth start rest position frame others) as H.
  destruct (scan_loop _ _ _ _ _ _); [exact H|by apply H|done].
Qed.

(** ** Parameters and quotes *)

Lemma asserted_bump_adv p : adv 0 p (asserted_bump debug p).
Proof. unfold asserted_bump. destruct debug; [apply adv_skip_0|apply adv_refl]. Qed.

(** A parser function: it moves at least [k] characters and its value satisfies [Q]. *)
Definition moves {A} (k : nat) (p : Parser) (Q : A -> Prop) (m : outcome (A * Parser)) : Prop :=
  good n (fun r => adv k p r.2 /\ Q r.1) m.

Lemma moves_done {A} k p q (Q : A -> Prop) a : adv k p q -> Q a -> moves k p Q (Done (a, q)).
Proof. done. Qed.

Lemma moves_bind {A B} j k p (Q : A -> Prop) (R : B -> Prop) m (f : A * Parser -> outcome (B * Parser)) :
  moves j p Q m -> (forall a q, adv j p q -> Q a -> moves k p R (f (a, q))) -> moves k p R (m ≫= f).
Proof. intros Hm Hf. eapply good_bind; [exact Hm|]. intros [a q] [Ha HQ]. by apply Hf. Qed.

Lemma moves_weaken {A} j k p (Q R : A -> Prop) m :
  moves j p Q m -> (k <= j)%nat -> (forall a, Q a -> R a) -> moves k p R m.
Proof.
  intros Hm Hk HQ. eapply good_mono; [exact Hm|]. intros r [Ha HQr]. split; [by eapply adv_weaken|by apply HQ].
Qed.

(** Having moved to [q] first. *)
Lemma moves_from {A} j k p q (Q : A -> Prop) m : adv j p q -> moves k q Q m -> moves (j + k) p Q m.
Proof.
  intros Hj Hm. eapply good_mono; [exact Hm|]. intros r [Ha HQ]. split; [by eapply adv_trans|done].
Qed.

Lemma identifier_continue first others :
  is_identifier_start first = true -> Forall (fun c => is_identifier_continue c = true) others ->
  identifier (first :: others).
Proof. done. Qed.

Lemma span_at p q k : at_ n p -> adv k p q -> span_ok n (mkSpan (pr_position p) (pr_position q)).
Proof.
  intros Hp Ha. pose proof (adv_at n k p q Hp Ha) as Hq. apply at_position in Hp, Hq.
  unfold span_ok, adv in *. simpl. lia.
Qed.

(** A character that is seen after [p]. *)
Lemma span_seen p q k c start :
  0 <= start <= pr_position p -> at_ n p -> adv k p q -> peek q = Some c ->
  0 <= start <= pr_position q + len_utf8 c /\ pr_position q + len_utf8 c <= n.
Proof.
  intros Hs Hp Ha Hc. pose proof (adv_at n k p q Hp Ha) as Hq. pose proof (at_peek n q c Hq Hc).
  pose proof (len_utf8_bounds c). unfold adv in Ha. lia.
Qed.

Lemma parse_braced_good start p :
  0 <= start <= pr_position p -> at_ n p ->
  moves 1 p (fun parameter => exists name, parameter = Named name true /\ identifier name)
    (parse_braced n start p).
Proof.
  intros Hs Hp. pose proof (at_position n p Hp). unfold parse_braced.
  destruct (peek p) as [first|] eqn:Hc; [|apply good_fail; lia].
  destruct (is_identifier_start first) eqn:Hi; cbn [negb].
  2: { pose proof (span_seen p p 0 first start Hs Hp (adv_refl p) Hc). apply good_fail; lia. }
  destruct (adv_skip p first Hc) as [Hsk _].
  pose proof (take_while_adv_0 is_identifier_continue (skip p)) as Ht.
  pose proof (take_while_forall is_identifier_continue (skip p)) as HF.
  destruct (take_while is_identifier_continue (skip p)) as [others q]. cbn [fst snd] in *.
  pose proof (adv_trans 1 0 _ _ _ Hsk Ht) as Hq. destruct (peek q) as [c|] eqn:Hcq; [|apply good_fail; lia].
  destruct (c =? 125).
  - apply moves_done; [|by exists (first :: others)]. eapply (adv_trans 1 0); [exact Hq|apply adv_skip_0].
  - pose proof (span_seen p q 1 c start Hs Hp Hq Hcq). apply good_fail; lia.
Qed.

Lemma parse_parameter_good quote p :
  at_ n p -> peek p = Some 36 ->
  good n (fun r => match r.1 with
                   | Some part => adv 1 p r.2 /\ part_wf n part
                   | None => adv 1 p r.2
                   end) (parse_parameter debug n quote p).
Proof.
  intros Hp H36. pose proof (at_position n p Hp) as Hpos. unfold parse_parameter.
  destruct debug eqn:Hd; cbn [asserted_bump].
  2: { rewrite H36. cbn. pose proof (span_seen p p 0 36 (pr_position p) ltac:(lia) Hp (adv_refl p) H36).
       unfold span_ok. simpl in *. lia. }
  destruct (adv_skip p 36 H36) as [Hs Hps]. change (len_utf8 36) with 1 in Hps.
  set (q := skip p) in *. pose proof (adv_at n 1 p q Hp Hs) as Hq.
  destruct (peek q) as [c|] eqn:Hc; [|exact Hs].
  destruct (adv_skip q c Hc) as [Hs2 _].
  assert (forall parameter r k, adv k q r ->
    (forall span, span_ok n span -> part_wf n (WParameter parameter quote span)) ->
    adv 1 p r /\ part_wf n (WParameter parameter quote (mkSpan (pr_position p) (pr_position r)))) as Hdone.
  { intros parameter r k Hr Hwf. pose proof (adv_trans 1 k _ _ _ Hs Hr) as H1.
    split; [eapply adv_weaken; [|exact H1]; lia|]. by eapply Hwf, span_at. }
  destruct (c =? 63); [by eapply Hdone; [exact Hs2|]; constructor|].
  destruct (c =? 123).
  { eapply good_bind; [apply (parse_braced_good (pr_position p)); [unfold adv in *; lia|by eapply adv_at]|].
    intros [parameter r] [Hr Hname]. cbn [fst snd] in *. destruct Hname as (name & -> & Hname).
    eapply (Hdone _ r 2%nat); [exact (adv_trans 1 1 _ _ _ Hs2 Hr)|]. intros span Hspan. by constructor. }
  destruct (is_identifier_start c) eqn:Hi.
  { pose proof (take_while_adv_0 is_identifier_continue (skip q)) as Ht.
    pose proof (take_while_forall is_identifier_continue (skip q)) as HF.
    destruct (take_while is_identifier_continue (skip q)) as [others r]. cbn [fst snd] in *.
    eapply (Hdone _ r 1%nat); [exact (adv_trans 1 0 _ _ _ Hs2 Ht)|]. intros span Hspan. by constructor. }
  destruct (is_unsupported_special_parameter c); [|exact Hs].
  pose proof (span_seen p q 1 c (pr_position p) ltac:(lia) Hp Hs Hc). apply good_fail; lia.
Qed.

Lemma single_loop_good start : forall rest value position,
  0 <= start <= position -> at_ n (mkParser rest position) ->
  moves 0 (mkParser rest position) (part_wf n) (single_loop n start value rest position).
Proof.
  induction rest as [|c rest IH]; intros value position Hs Hp; cbn [single_loop];
    pose proof (at_position n _ Hp) as Hpos; simpl in Hpos; [apply good_fail; lia|].
  destruct (adv_skip (mkParser (c :: rest) position) c eq_refl) as [Ha _]. rewrite skip_cons in Ha.
  pose proof (adv_at n 1 _ _ Hp Ha) as Hq. pose proof (at_position n _ Hq) as Hq0. simpl in Hq0.
  pose proof (len_utf8_bounds c). destruct (c =? 39).
  - apply moves_done; [eapply adv_weaken; [|exact Ha]; lia|]. constructor. unfold span_ok. simpl. lia.
  - eapply (moves_weaken 1); [|lia|by intros]. eapply (moves_from 1 0); [exact Ha|]. apply IH; [lia|done].
Qed.

Lemma parse_single_quoted_good p c :
  at_ n p -> peek p = Some c -> moves 1 p (part_wf n) (parse_single_quoted n p).
Proof.
  intros Hp Hc. destruct (adv_skip p c Hc) as [Hs _]. pose proof (adv_at n 1 p _ Hp Hs) as Hq.
  unfold parse_single_quoted. set (q := skip p) in *. eapply (moves_from 1 0); [exact Hs|].
  pose proof (at_position n p Hp). destruct q as [rest position]. apply single_loop_good; [unfold adv in Hs; simpl in *; lia|done].
Qed.

Section Nested.
Context (nested : str -> outcome Script) (depth : nat).
Context (Hnested : (depth < MAX_COMMAND_SUBSTITUTION_DEPTH)%nat -> forall body,
  good (str_len body) (fun s => script_wf s /\ sc_source s = body) (nested body)).

Lemma good_map_diagnostic {A} m offset (Q : A -> Prop) (o : outcome A) :
  good m Q o -> 0 <= offset -> offset + m <= n -> good n Q (map_diagnostic (fun d => shifted d offset) o).
Proof.
  destruct o as [a|d|]; simpl; [done| |done]. intros Hd H0 Hm.
  apply (span_ok_le (m + offset)); [|lia]. by apply span_ok_shift.
Qed.

Lemma parse_command_substitution_good quote p :
  at_ n p -> starts_command_substitution p = true ->
  moves 1 p (part_wf n) (parse_command_substitution debug nested depth quote p).
Proof.
  intros Hp Hst. pose proof (at_position n p Hp) as Hpos.
  destruct (adv_skip_2 _ p 36 40 Hst eq_refl) as (Hs & Hps & rest & Hrest & Hrest2).
  change (len_utf8 36) with 1 in Hps. change (len_utf8 40) with 1 in Hps.
  pose proof (adv_at n 2 _ _ Hp Hs) as Hq. pose proof (at_position n _ Hq) as Hqpos.
  unfold parse_command_substitution. destruct (starts (L "$((") p) eqn:H3.
  { apply prefix_of_spec in H3 as [t H3]. destruct Hp as [H0 Hn]. rewrite H3 in Hn. cbn [app] in Hn.
    rewrite !str_len_cons in Hn. pose proof (str_len_nonneg t). change (len_utf8 36) with 1 in Hn.
    change (len_utf8 40) with 1 in Hn. apply good_fail; lia. }
  destruct (Nat.leb_spec MAX_COMMAND_SUBSTITUTION_DEPTH depth) as [|Hdepth]; [apply good_fail; lia|].
  set (q := skip (skip p)) in *. rewrite Hrest2. destruct Hq as [Hq0 Hqn]. rewrite Hrest2 in Hqn.
  eapply good_bind; [apply scan_loop_good; lia|].
  intros e (before & after & -> & ->).
  replace (pr_position q + str_len before - pr_position q) with (str_len before) by lia.
  rewrite split_at_bytes_app. rewrite str_len_app, str_len_cons in Hqn.
  pose proof (str_len_nonneg after). pose proof (str_len_nonneg before). change (len_utf8 41) with 1 in Hqn.
  eapply good_bind; [apply (good_map_diagnostic (str_len before)); [by apply Hnested|lia|lia]|].
  intros script [Hwf Hsrc]. cbn beta. destruct (length (sc_commands script)) as [|k] eqn:Hlen; cbn [bool_decide].
  { rewrite bool_decide_eq_true_2 by done. apply good_fail; lia. }
  rewrite bool_decide_eq_false_2 by done.
  set (e := pr_position q + str_len before) in *.
  assert (adv 2 p (mkParser (41 :: after) e)) as He.
  { unfold adv in *. cbn [pr_rest pr_position]. rewrite Hrest, Hrest2 in Hs. rewrite Hrest. simpl in *.
    rewrite length_app, !str_len_cons, str_len_app, str_len_cons in *. simpl in *. lia. }
  pose proof (adv_trans 2 0 _ _ _ He (asserted_bump_adv (mkParser (41 :: after) e))) as Hfin.
  set (p' := asserted_bump debug (mkParser (41 :: after) e)) in *.
  apply moves_done; [eapply adv_weaken; [|exact Hfin]; lia|].
  assert (e <= pr_position p') as Hep.
  { pose proof (asserted_bump_adv (mkParser (41 :: after) e)) as Ha. fold p' in Ha. unfold adv in Ha. simpl in Ha. lia. }
  constructor; [done|by intros Hnil; rewrite Hnil in Hlen|by eapply span_at| | |]; cbn [sp_start sp_end]; [lia|lia|].
  rewrite Hsrc. unfold e. lia.
Qed.

(** ** Words *)

Lemma Forall_snoc {A} (P : A -> Prop) l x : Forall P l -> P x -> Forall P (l ++ [x]).
Proof. intros. apply Forall_app. by split; [|constructor]. Qed.

Lemma double_loop_good quote_start : forall fuel p parts value literal_start,
  at_ n p -> (length (pr_rest p) < fuel)%nat -> 0 <= quote_start <= pr_position p ->
  0 <= literal_start <= pr_position p -> Forall (part_wf n) parts ->
  moves 0 p (Forall (part_wf n)) (double_loop debug n nested depth fuel quote_start parts value literal_start p).
Proof.
  induction fuel as [|fuel IH]; intros p parts value literal_start Hp Hf Hqs Hls Hparts; [lia|].
  pose proof (at_position n p Hp) as Hpos. cbn [double_loop].
  destruct (peek p) as [c|] eqn:Hc; [|apply good_fail; lia].
  destruct (adv_skip p c Hc) as [Hs Hps]. pose proof (adv_at n 1 _ _ Hp Hs) as Hq.
  assert (forall k q parts value literal_start, (1 <= k)%nat -> adv k p q -> 0 <= literal_start <= pr_position q ->
    Forall (part_wf n) parts ->
    moves 0 p (Forall (part_wf n)) (double_loop debug n nested depth fuel quote_start parts value literal_start q)) as Hnext.
  { intros k q ps v ls Hk Ha Hls' Hps'. eapply (moves_weaken k); [|lia|by intros].
    replace k with (k + 0)%nat by lia. eapply moves_from; [exact Ha|].
    apply IH; [exact (adv_at n k p q Hp Ha)|unfold adv in Ha; lia|unfold adv in Ha; lia|done|done]. }
  destruct (c =? 34).
  { apply moves_done; [eapply adv_weaken; [|exact Hs]; lia|].
    destruct (negb _ || _); [|done]. apply Forall_snoc; [done|]. constructor.
    pose proof (at_position n _ Hq). unfold span_ok, adv in *. simpl. lia. }
  destruct (Z.eqb_spec c 36) as [->|].
  { eapply (good_bind n (fun r => match r.1 with
                   | Some part => adv 1 p r.2 /\ part_wf n part
                   | None => adv 1 p r.2
                   end)).
    - destruct (starts_command_substitution p) eqn:Hst; [|by apply parse_parameter_good].
      eapply good_bind; [by apply parse_command_substitution_good|]. intros [part q] H. exact H.
    - intros [[part|] q] H; cbn [fst snd] in H.
      + destruct H as [Ha Hpart]. eapply (Hnext 1%nat); [lia|exact Ha| |].
        * pose proof (at_position n q (adv_at n 1 _ _ Hp Ha)). lia.
        * apply Forall_snoc; [|done]. destruct (negb _); [|done]. apply Forall_snoc; [done|]. constructor.
          unfold span_ok. simpl. lia.
      + eapply (Hnext 1%nat); [lia|exact H| |done]. unfold adv in H. lia. }
  destruct (c =? 92).
  { destruct (bump (skip p)) as [[d|] q] eqn:Hb; [|apply good_fail; lia].
    pose proof (adv_bump (skip p)) as Ha. rewrite Hb in Ha. cbn [snd] in Ha. pose proof (adv_trans 1 0 _ _ _ Hs Ha) as H2.
    eapply (Hnext 1%nat); [lia|exact H2|unfold adv in H2; lia|done]. }
  eapply (Hnext 1%nat); [lia|exact Hs|unfold adv in Hs; lia|done].
Qed.

Lemma parse_double_quoted_good p c :
  at_ n p -> peek p = Some c -> moves 1 p (Forall (part_wf n)) (parse_double_quoted debug n nested depth p).
Proof.
  intros Hp Hc. destruct (adv_skip p c Hc) as [Hs _]. pose proof (at_position n p Hp).
  unfold parse_double_quoted. eapply (moves_from 1 0); [exact Hs|].
  apply double_loop_good; [by eapply adv_at|unfold adv in Hs; lia|unfold adv in Hs; lia|unfold adv in Hs; lia|constructor].
Qed.

(** The literal that is being read starts before the position. *)
Definition start_ok (start : option Z) (p : Parser) : Prop :=
  match start with Some start => 0 <= start <= pr_position p | None => True end.

Lemma push_unquoted_wf parts value start p :
  at_ n p -> Forall (part_wf n) parts -> start_ok start p ->
  Forall (part_wf n) (push_unquoted parts value start (pr_position p)).1.
Proof.
  intros Hp Hparts Hs. pose proof (at_position n p Hp). destruct start as [start|]; simpl in *; [|done].
  apply Forall_snoc; [done|]. constructor. unfold span_ok. simpl. lia.
Qed.

(** Where a word ends. *)
Definition word_stops (p : Parser) : bool :=
  match peek p with
  | None => true
  | Some c => one_of [32; 9; 13; 10; 59] c || one_of (L "|<>") c || starts_conditional_operator p
  end.

Lemma word_loop_good : forall fuel p parts unquoted start,
  at_ n p -> (length (pr_rest p) < fuel)%nat -> Forall (part_wf n) parts -> start_ok start p ->
  moves (if word_stops p then 0 else 1) p (Forall (part_wf n))
    (word_loop debug n nested depth fuel parts unquoted start p).
Proof.
  induction fuel as [|fuel IH]; intros p parts unquoted start Hp Hf Hparts Hst; [lia|].
  pose proof (at_position n p Hp) as Hpos. cbn [word_loop].
  pose proof (push_unquoted_wf parts unquoted start p Hp Hparts Hst) as Hpushed.
  assert (forall k q parts unquoted start, (1 <= k)%nat -> adv k p q -> Forall (part_wf n) parts -> start_ok start q ->
    moves (if word_stops p then 0 else 1) p (Forall (part_wf n))
      (word_loop debug n nested depth fuel parts unquoted start q)) as Hnext.
  { intros k q ps v st Hk Ha Hps' Hst'. eapply (moves_weaken (k + 0)); [|destruct (word_stops p); lia|by intros].
    eapply moves_from; [exact Ha|].
    eapply moves_weaken; [apply IH; [exact (adv_at n k p q Hp Ha)|unfold adv in Ha; lia|done|done]|lia|by intros]. }
  assert (word_stops p = true -> moves (if word_stops p then 0 else 1) p (Forall (part_wf n))
    (Done ((push_unquoted parts unquoted start (pr_position p)).1, p))) as Hfinish
    by (intros ->; apply moves_done; [apply adv_refl|done]).
  unfold word_stops in Hfinish at 1. revert Hnext Hfinish. generalize (if word_stops p then 0%nat else 1%nat).
  intros progress Hnext Hfinish.
  destruct (peek p) as [c|] eqn:Hc; [|by apply Hfinish].
  destruct (adv_skip p c Hc) as [Hs Hps]. pose proof (adv_at n 1 _ _ Hp Hs) as Hq.
  destruct (one_of [32; 9; 13; 10; 59] c); [by apply Hfinish|]. destruct (one_of _ c); [by apply Hfinish|].
  destruct (starts_conditional_operator p); [by apply Hfinish|].
  destruct (is_reserved_operator c); [by apply good_here|].
  destruct (push_unquoted parts unquoted start (pr_position p)) as [pushed unquoted'] eqn:Hpu.
  cbn [fst] in Hpushed. clear Hfinish.
  destruct (c =? 39).
  { eapply moves_bind; [by eapply parse_single_quoted_good|]. intros part q Ha Hpart.
    eapply (Hnext 1%nat); [lia|exact Ha| |done]. by apply Forall_snoc. }
  destruct (c =? 34).
  { eapply moves_bind; [by eapply parse_double_quoted_good|]. intros quoted q Ha Hpart.
    eapply (Hnext 1%nat); [lia|exact Ha| |done]. by apply Forall_app. }
  destruct (Z.eqb_spec c 36) as [->|].
  { destruct (starts_command_substitution p) eqn:Hsub.
    - eapply moves_bind; [by apply parse_command_substitution_good|]. intros part q Ha Hpart.
      eapply (Hnext 1%nat); [lia|exact Ha| |done]. by apply Forall_snoc.
    - eapply good_bind; [by apply parse_parameter_good|].
      intros [[part|] q] H; cbn [fst snd] in H.
      + destruct H as [Ha Hpart]. eapply (Hnext 1%nat); [lia|exact Ha| |done]. by apply Forall_snoc.
      + eapply (Hnext 1%nat); [lia|exact H|done|]. simpl. unfold adv in H. lia. }
  destruct (c =? 92).
  { destruct (bump (skip p)) as [[d|] q] eqn:Hb; [|apply good_fail; lia].
    pose proof (adv_bump (skip p)) as Ha. rewrite Hb in Ha. cbn [snd] in Ha. pose proof (adv_trans 1 0 _ _ _ Hs Ha) as H2.
    eapply (Hnext 1%nat); [lia|exact H2| |done]. destruct (d =? 10); [done|].
    apply Forall_snoc; [done|]. constructor. by eapply span_at. }
  eapply (Hnext 1%nat); [lia|exact Hs|done|]. simpl. unfold adv in Hs.
  destruct start as [start|]; simpl in *; lia.
Qed.

Lemma parse_word_good p :
  at_ n p -> moves (if word_stops p then 0 else 1) p (fun w => word_wf n w /\ 0 <= sp_start (wd_span w) /\ pr_position p <= sp_end (wd_span w) <= n)
    (parse_word debug n nested depth p).
Proof.
  intros Hp. unfold parse_word. eapply moves_bind; [apply word_loop_good; [done|lia|constructor|done]|].
  intros parts q Ha Hparts. pose proof (span_at p q _ Hp Ha) as Hsp. pose proof (at_position n p Hp).
  pose proof (at_position n q (adv_at n _ p q Hp Ha)). apply moves_done; [done|]. split; [by constructor|]. unfold span_ok, adv in *. simpl in *. lia.
Qed.

(** ** Redirections *)

(** A span that ends at or before the position. *)
Lemma redirection_span start e p q k :
  0 <= start <= pr_position p -> at_ n p -> adv k p q -> e = pr_position q -> span_ok n (mkSpan start e).
Proof.
  intros Hs Hp Ha ->. pose proof (at_position n q (adv_at n k p q Hp Ha)). unfold span_ok, adv in *. simpl. lia.
Qed.

Definition redirection_good (p : Parser) (r : Redirection) : Prop :=
  redirection_wf n r /\ pr_position p <= sp_end (rd_span r) <= n.

Lemma parse_file_redirection_good start operator_span descriptor mode p :
  at_ n p -> 0 <= start <= pr_position p -> span_ok n operator_span ->
  moves 0 p (redirection_good p)
    (parse_file_redirection debug n nested depth start operator_span descriptor mode p).
Proof.
  intros Hp Hs Ho. unfold parse_file_redirection. pose proof (skip_horizontal_adv p) as Ha.
  destruct (skip_horizontal p) as [separated q]. cbn [snd] in Ha.
  destruct (_ || _); [exact Ho|].
  pose proof (adv_at n 0 p q Hp Ha) as Hq.
  eapply good_bind; [by apply parse_word_good|]. intros [path r] [Hr (Hw & H0 & He)]. cbn [fst snd] in *.
  apply moves_done; [unfold adv in *; lia|].
  split; cbn [rd_span sp_end]; [|unfold adv in Ha; lia]. constructor; [done|done|].
  unfold span_ok, adv in *. simpl. lia.
Qed.

Lemma parse_descriptor_redirection_good start descriptor p :
  at_ n p -> 0 <= start <= pr_position p ->
  moves 0 p (redirection_good p) (parse_descriptor_redirection start descriptor p).
Proof.
  intros Hp Hs. unfold parse_descriptor_redirection. pose proof (adv_bump p) as Ha.
  destruct (bump p) as [c q]. cbn [snd] in Ha.
  pose proof (redirection_span start _ p q 0 Hs Hp Ha eq_refl) as Hspan.
  pose proof (at_position n q (adv_at n 0 p q Hp Ha)) as Hqpos.
  eapply (good_bind n (fun _ => True)).
  - destruct c as [c|]; [|exact Hspan].
    destruct c as [|c|c]; try exact Hspan. do 6 (destruct c as [c|c|]; try exact Hspan); done.
  - intros target _. destruct (peeks _ q); [exact Hspan|].
    apply moves_done; [done|]. split; [by constructor|]. cbn [rd_span sp_end]. unfold adv in Ha. lia.
Qed.

Lemma parse_redirection_good p :
  at_ n p -> starts_redirection p = true ->
  moves 1 p (redirection_good p) (parse_redirection debug n nested depth p).
Proof.
  intros Hp Hst. pose proof (at_position n p Hp) as Hpos. unfold parse_redirection.
  assert (exists c, peek (take_while is_ascii_digit p).2 = Some c /\ one_of (L "<>") c = true) as (c & Hc & _).
  { unfold starts_redirection in Hst. apply orb_true_iff in Hst as [Hst|Hst].
    - apply peeks_true in Hst as (c & Hc & Hone). exists c. split; [|done].
      destruct p as [[|d rest] position]; [done|]. injection Hc as ->. unfold take_while. simpl.
      assert (is_ascii_digit c = false) as ->; [|done]. unfold one_of in Hone. simpl in Hone.
      rewrite !orb_true_iff, !Z.eqb_eq in Hone. destruct Hone as [->|[->|Hf]]; done.
    - apply andb_true_iff in Hst as [_ Hst]. by apply peeks_true in Hst. }
  unfold parse_redirection_descriptor_prefix. pose proof (take_while_adv_0 is_ascii_digit p) as Ht.
  destruct (take_while is_ascii_digit p) as [digits q]. cbn [fst snd] in *.
  pose proof (adv_at n 0 p q Hp Ht) as Hq.
  eapply (good_bind n (fun r => r.2 = q)).
  { destruct (bool_decide (digits = [])); [done|]. destruct (parse_unsigned u8_max digits); [done|].
    by eapply span_at. }
  intros [descriptor q'] Heq. simpl in Heq. subst q'.
  destruct (adv_skip q c Hc) as [Hs _]. pose proof (adv_trans 0 1 _ _ _ Ht Hs) as H1. cbn [Nat.add] in H1.
  assert (bump q = (Some c, skip q)) as ->.
  { destruct q as [[|d rest] position]; [done|]. injection Hc as ->. done. }
  assert (forall r k, adv k (skip q) r -> 0 <= pr_position p <= pr_position r) as Hstart
    by (intros r k Hr; unfold adv in *; lia).
  assert (forall r k, adv k (skip q) r -> span_ok n (mkSpan (pr_position p) (pr_position r))) as Hspan.
  { intros r k Hr. eapply span_at; [done|]. exact (adv_trans 1 k _ _ _ H1 Hr). }
  assert (forall r k m, adv k (skip q) r -> moves 0 r (redirection_good r) m -> moves 1 p (redirection_good p) m) as Hsub.
  { intros r k m Hr Hm. pose proof (adv_trans 1 k _ _ _ H1 Hr) as H2. eapply good_mono; [exact Hm|].
    intros x [Hx [Hwf He]]. split; [pose proof (adv_trans _ _ _ _ _ H2 Hx) as H3; eapply adv_weaken; [|exact H3]; lia|].
    split; [done|]. unfold adv in H2. lia. }
  assert (forall r, adv 0 (skip q) r -> at_ n r) as Hat.
  { intros r Hr. eapply adv_at; [exact Hp|]. exact (adv_trans 1 0 _ _ _ H1 Hr). }
  pose proof (adv_refl (skip q)) as Hrefl. pose proof (adv_skip_0 (skip q)) as Hskip.
  destruct (bool_decide (Some c = Some 60)).
  { destruct (peeks (Z.eqb 60) (skip q)); [eapply Hspan; exact Hskip|].
    assert (moves 1 p (redirection_good p)
      (parse_file_redirection debug n nested depth (pr_position p) (mkSpan (pr_position p) (pr_position (skip q)))
         Stdin FRead (skip q))) as Hfile.
    { eapply Hsub; [exact Hrefl|]. apply parse_file_redirection_good; [by apply Hat|by eapply Hstart|by eapply Hspan]. }
    destruct descriptor as [[| |]|]; try exact Hfile; by eapply Hspan. }
  set (append := peeks (Z.eqb 62) (skip q)). set (r := if append then skip (skip q) else skip q).
  assert (adv 0 (skip q) r) as Hr by (unfold r; by destruct append).
  eapply (good_bind n (fun _ => True)).
  { destruct descriptor as [[|d|d]|]; try done; try by eapply Hspan.
    destruct d as [d|d|]; try done; try by eapply Hspan. destruct d; try done; by eapply Hspan. }
  intros target _. pose proof (adv_trans 0 0 _ _ _ Hr (adv_skip_0 r)) as Hr2.
  destruct (negb append && peeks (Z.eqb 38) r).
  { eapply Hsub; [exact Hr2|]. apply parse_descriptor_redirection_good; [by apply Hat|by eapply Hstart]. }
  destruct (append && peeks (Z.eqb 38) r); [by eapply Hspan|].
  eapply Hsub; [exact Hr|]. apply parse_file_redirection_good; [by apply Hat|by eapply Hstart|by eapply Hspan].
Qed.

(** ** Commands *)

Definition end_ok (start : Z) (e : option Z) (p : Parser) : Prop :=
  match e with Some e => start <= e <= n | None => True end.

Lemma command_loop_good start : forall fuel words redirections e p,
  at_ n p -> (length (pr_rest p) < fuel)%nat -> 0 <= start <= pr_position p ->
  Forall (word_wf n) words -> Forall (redirection_wf n) redirections -> end_ok start e p ->
  (words <> [] -> e <> None) ->
  good n (fun '(words', redirections', e', q) =>
            adv 0 p q /\ Forall (word_wf n) words' /\ Forall (redirection_wf n) redirections'
            /\ end_ok start e' q /\ (words' <> [] -> e' <> None)
            /\ (words = [] -> words' <> [] -> adv 1 p q))
    (command_loop debug n nested depth fuel words redirections e p).
Proof.
  induction fuel as [|fuel IH]; intros words redirections e p Hp Hf Hs Hw Hr He Hne; [lia|].
  cbn [command_loop]. pose proof (skip_horizontal_adv p) as Hh.
  pose proof (skip_horizontal_blank p) as Hblank.
  destruct (skip_horizontal p) as [separated q]. cbn [snd] in Hh, Hblank.
  pose proof (adv_at n 0 p q Hp Hh) as Hq.
  assert (good n (fun '(words', redirections', e', q) =>
            adv 0 p q /\ Forall (word_wf n) words' /\ Forall (redirection_wf n) redirections'
            /\ end_ok start e' q /\ (words' <> [] -> e' <> None)
            /\ (words = [] -> words' <> [] -> adv 1 p q))
    (Done (words, redirections, e, q))) as Hfinish
    by (cbn; do 5 (split; [done|]); congruence).
  assert (forall k r words' redirections' e', adv (S k) q r -> Forall (word_wf n) words' ->
    Forall (redirection_wf n) redirections' -> end_ok start (Some e') r ->
    good n (fun '(words', redirections', e', q) =>
            adv 0 p q /\ Forall (word_wf n) words' /\ Forall (redirection_wf n) redirections'
            /\ end_ok start e' q /\ (words' <> [] -> e' <> None)
            /\ (words = [] -> words' <> [] -> adv 1 p q))
      (command_loop debug n nested depth fuel words' redirections' (Some e') r)) as Hnext.
  { intros k r w' r' e' Ha Hw' Hr' He'. pose proof (adv_trans 0 (S k) _ _ _ Hh Ha) as H1.
    eapply good_mono; [apply IH; [by eapply adv_at|unfold adv in H1; lia|unfold adv in H1; lia|done|done|done|done]|].
    intros [[[w2 r2] e2] q2] (Ha2 & Hw2 & Hr2 & He2 & Hn2 & _).
    pose proof (adv_trans _ _ _ _ _ H1 Ha2) as H3.
    split; [eapply adv_weaken; [|exact H3]; lia|]. do 4 (split; [done|]). intros _ _.
    eapply adv_weaken; [|exact H3]; lia. }
  destruct (peek q) as [c|] eqn:Hc; [|exact Hfinish].
  destruct (one_of [10; 59; 124] c) eqn:Hsep; [exact Hfinish|].
  destruct ((c =? 38) && starts_conditional_operator q) eqn:Hcond; [exact Hfinish|].
  destruct ((c =? 35) && separated); [exact Hfinish|].
  destruct (starts_redirection q) eqn:Hred.
  - eapply good_bind; [by apply parse_redirection_good|].
    intros [r p'] [Ha [Hwf Hend]]. cbn [fst snd] in *. eapply (Hnext 0%nat); [exact Ha|done|by apply Forall_snoc|].
    simpl. unfold adv in Hh. lia.
  - assert (word_stops q = false) as Hstop.
    { unfold word_stops. rewrite Hc. change (Some (one_of [32; 9; 13] c) <> Some true) in Hblank.
      assert (one_of [32; 9; 13] c = false) as Hb by (by destruct (one_of [32; 9; 13] c)).
      assert (one_of [60; 62] c = false) as Hlt.
      { unfold starts_redirection, peeks in Hred. rewrite Hc in Hred. apply orb_false_iff in Hred as [? _]. done. }
      assert (starts_conditional_operator q = false) as ->.
      { destruct (starts_conditional_operator q) eqn:E; [|done]. exfalso. unfold starts_conditional_operator, starts in E.
        unfold peek in Hc. rewrite andb_true_r in Hcond. apply Z.eqb_neq in Hcond.
        unfold one_of in Hsep. simpl in Hsep. rewrite !orb_false_iff, !Z.eqb_neq in Hsep.
        apply orb_true_iff in E as [E|E]; apply prefix_of_spec in E as [t E]; rewrite E in Hc;
          injection Hc as Hc; lia. }
      unfold one_of in *. simpl in *. rewrite !orb_false_iff in *. tauto. }
    eapply good_bind; [by apply parse_word_good|]. rewrite Hstop.
    intros [w p'] [Ha (Hwf & H0 & Hend)]. cbn [fst snd] in *. eapply (Hnext 0%nat); [exact Ha|by apply Forall_snoc|done|].
    simpl. unfold adv in Hh. lia.
Qed.

(** ** Pipelines *)

Definition stages_ok (p : Parser) (commands : list SimpleCommand) (spans : list SourceSpan)
    (r : list SimpleCommand * list SourceSpan * Z * Parser) : Prop :=
  let '(commands', spans', e, q) := r in
  adv 1 p q /\ Forall (command_wf n) commands' /\ Forall (span_ok n) spans' /\ pr_position p <= e <= n
  /\ (length commands' + length spans = length commands + length spans' + 1)%nat
  /\ (length commands < length commands')%nat.

Lemma stages_loop_good : forall fuel commands spans p,
  at_ n p -> (length (pr_rest p) < fuel)%nat -> Forall (command_wf n) commands -> Forall (span_ok n) spans ->
  good n (stages_ok p commands spans) (stages_loop debug n nested depth fuel commands spans p).
Proof.
  induction fuel as [|fuel IH]; intros commands spans p Hp Hf Hc Hsp; [lia|]. cbn [stages_loop].
  pose proof (at_position n p Hp) as Hpos.
  destruct (peeks (Z.eqb 124) p); [by apply good_here|].
  eapply good_bind.
  { apply (command_loop_good (pr_position p)); [done|lia|lia|constructor|constructor|done|done]. }
  intros [[[words redirections] e] q] (Ha & Hw & Hr & He & Hne & Hprog).
  pose proof (adv_at n 0 p q Hp Ha) as Hq.
  destruct words as [|w ws]; cbn [length]; [rewrite bool_decide_eq_true_2 by done; by apply good_here|].
  rewrite bool_decide_eq_false_2 by done. specialize (Hprog eq_refl ltac:(done)).
  destruct e as [e|]; [|by destruct Hne]. simpl in He.
  assert (Forall (command_wf n) (commands ++ [mkCommand (w :: ws) redirections (mkSpan (pr_position p) e)])) as Hcs.
  { apply Forall_snoc; [done|]. constructor; [done|done|done|]. unfold span_ok. simpl. lia. }
  set (commands' := commands ++ _) in *.
  assert (length commands' = S (length commands)) as Hlen by (unfold commands'; rewrite length_app; simpl; lia).
  pose proof (skip_horizontal_adv q) as Hh. set (r := (skip_horizontal q).2) in *.
  pose proof (adv_trans 1 0 _ _ _ Hprog Hh) as H1. cbn [Nat.add] in H1. pose proof (adv_at n 1 p r Hp H1) as Hr'.
  assert (forall r', adv 1 p r' -> good n (stages_ok p commands spans) (Done (commands', spans, e, r'))) as Hdone.
  { intros r' Hr2. cbn. split; [done|]. split; [done|]. split; [done|]. lia. }
  destruct (peek r) as [c|] eqn:Hpk; [|by apply Hdone].
  destruct (c =? 35); [apply Hdone; exact (adv_trans 1 0 _ _ _ H1 (skip_comment_adv r))|].
  destruct (one_of _ c && _); [by apply Hdone|].
  destruct (c =? 124).
  - destruct (adv_skip r c Hpk) as [Hs _]. pose proof (adv_trans 1 1 _ _ _ H1 Hs) as H2. cbn [Nat.add] in H2.
    pose proof (skip_horizontal_adv (skip r)) as Hh2. set (r2 := (skip_horizontal (skip r)).2) in *.
    pose proof (adv_trans 2 0 _ _ _ H2 Hh2) as H3. cbn [Nat.add] in H3.
    assert (span_ok n (mkSpan (pr_position r) (pr_position (skip r)))) as Hspan by (by eapply span_at).
    destruct (_ || _); [exact Hspan|].
    eapply good_mono; [apply IH; [exact (adv_at n 2 p r2 Hp H3)|unfold adv in H3; lia|done|by apply Forall_snoc]|].
    intros [[[commands2 spans2] e2] q2] (Ha2 & Hc2 & Hs2 & He2 & Hl2 & Hlt2).
    rewrite length_app in Hl2. simpl in Hl2.
    split; [eapply adv_weaken; [|exact (adv_trans _ _ _ _ _ H3 Ha2)]; lia|].
    split; [done|]. split; [done|]. unfold adv in H3. lia.
  - destruct (one_of [10; 59] c); [by apply Hdone|by apply good_here].
Qed.

Lemma script_loop_good : forall fuel commands pipelines condition p,
  at_ n p -> (length (pr_rest p) < fuel)%nat -> Forall (command_wf n) commands ->
  pipelines_wf n (length commands) pipelines ->
  (forall c, condition = Some c -> span_ok n (pc_span c)) -> (pipelines = [] -> condition = None) ->
  good n (fun '(commands', pipelines') => Forall (command_wf n) commands' /\ pipelines_wf n (length commands') pipelines')
    (script_loop debug n nested depth fuel commands pipelines condition p).
Proof.
  induction fuel as [|fuel IH]; intros commands pipelines condition p Hp Hf Hc Hpl Hcond Hfirst; [lia|].
  cbn [script_loop]. destruct (is_eof p) eqn:Heof; [done|].
  pose proof (at_position n p Hp) as Hpos.
  assert (forall p, at_ n p -> starts_conditional_operator p = true ->
    adv 2 p (skip (skip p)) /\ pr_position p + 2 <= n) as Htwo.
  { clear. intros p Hp H. unfold starts_conditional_operator in H. apply orb_true_iff in H as [H|H].
    - destruct (adv_skip_2 _ p 38 38 H eq_refl) as (Ha & Hps & _). split; [done|].
      pose proof (at_position n _ (adv_at n 2 _ _ Hp Ha)). change (len_utf8 38) with 1 in Hps. lia.
    - destruct (adv_skip_2 _ p 124 124 H eq_refl) as (Ha & Hps & _). split; [done|].
      pose proof (at_position n _ (adv_at n 2 _ _ Hp Ha)). change (len_utf8 124) with 1 in Hps. lia. }
  destruct (starts_conditional_operator p) eqn:Hop; [destruct (Htwo p Hp Hop); apply good_fail; lia|].
  destruct (peeks (Z.eqb 59) p); [by apply good_here|].
  eapply good_bind; [apply stages_loop_good; [done|lia|done|constructor]|].
  intros [[[commands' spans] e] q] (Ha & Hc' & Hspans & He & Hlen & Hlt). simpl in Hlen.
  set (pl := mkPipeline (length commands, length commands') spans condition (mkSpan (pr_position p) e)).
  assert (pipelines_wf n (length commands') (pipelines ++ [pl])) as Hpl'.
  { destruct Hpl as [Hfrom Hhead]. split.
    - eapply (pipelines_from_app n pipelines pl 0 (length commands)); try done; cbn; try lia.
      unfold span_ok. simpl. lia.
    - intros p0 Hp0. destruct pipelines as [|p1 ps]; [|by apply Hhead]. injection Hp0 as <-. by apply Hfirst. }
  assert (forall r, adv 0 q r -> at_ n r /\ (length (pr_rest r) < fuel)%nat) as Hat.
  { intros r Hr. pose proof (adv_trans 1 0 _ _ _ Ha Hr) as H1. split; [by eapply adv_at|unfold adv in H1; lia]. }
  assert (forall condition r, adv 0 q r -> (forall c, condition = Some c -> span_ok n (pc_span c)) ->
    good n (fun '(commands', pipelines') => Forall (command_wf n) commands' /\ pipelines_wf n (length commands') pipelines')
      (script_loop debug n nested depth fuel commands' (pipelines ++ [pl]) condition r)) as Hnext.
  { intros cond r Hr Hcr. apply IH; [by apply Hat|by apply Hat|done|done|done|]. intros Hnil. by destruct pipelines. }
  pose proof (skip_horizontal_adv q) as Hh. set (r := (skip_horizontal q).2) in *.
  destruct (Hat r Hh) as [Hr _].
  destruct (starts_conditional_operator r) eqn:Hopr.
  - destruct (Htwo r Hr Hopr) as [H2 _]. pose proof (adv_trans 0 2 _ _ _ Hh H2) as H3. cbn [Nat.add] in H3.
    assert (span_ok n (mkSpan (pr_position r) (pr_position (skip (skip r))))) as Hspan by (by eapply span_at).
    eapply good_bind.
    { apply skip_conditional_layout_good; [|lia]. apply Hat. eapply adv_weaken; [|exact H3]. lia. }
    intros r2 Hr2. cbn beta in Hr2. destruct (_ || _); [exact Hspan|].
    apply Hnext; [eapply adv_weaken; [|exact (adv_trans _ _ _ _ _ H3 Hr2)]; lia|]. by intros c [= <-].
  - destruct (peek r) as [c|] eqn:Hpk; [|done].
    destruct (one_of [10; 59] c); [|by apply good_here].
    destruct (adv_skip r c Hpk) as [Hs _]. pose proof (adv_trans 0 1 _ _ _ Hh Hs) as H3. cbn [Nat.add] in H3.
    eapply good_bind.
    { apply skip_command_layout_good; [|unfold adv in Hs; lia]. apply Hat. eapply adv_weaken; [|exact H3]. lia. }
    intros r2 Hr2. cbn beta in Hr2.
    apply Hnext; [eapply adv_weaken; [|exact (adv_trans _ _ _ _ _ H3 Hr2)]; lia|done].
Qed.
End Nested.
End Source.

Lemma parse_at_good debug : forall levels depth source,
  (MAX_COMMAND_SUBSTITUTION_DEPTH <= depth + levels)%nat ->
  good (str_len source) (fun s => script_wf s /\ sc_source s = source) (parse_at debug levels depth source).
Proof.
  induction levels as [|levels IH]; intros depth source Hl; cbn [parse_at].
  all: assert (at_ (str_len source) (mkParser source 0)) as Hp by (unfold at_; simpl; lia).
  all: eapply good_bind; [apply skip_command_layout_good; [exact Hp|simpl; lia]|].
  all: intros p Ha; cbn beta in Ha; pose proof (adv_at _ 0 _ p Hp Ha) as Hp'.
  all: eapply good_bind; [apply script_loop_good; [|exact Hp'|unfold adv in Ha; simpl in Ha; lia|constructor|done|done|done]|].
  - intros Hd. lia.
  - intros [commands pipelines] [Hc Hpl]. split; [by constructor|done].
  - intros Hd body. apply IH. lia.
  - intros [commands pipelines] [Hc Hpl]. split; [by constructor|done].
Qed.

(** ** Quoted words, and builds without debug assertions

    A list of words in single quotes is parsed back; and what a build that does not
    evaluate [debug_assert_eq!] can still parse. *)

(** ** Quoted words *)

Definition quote_word (a : str) : str := 39 :: a ++ [39].
Definition quote_words (args : list str) : str := join 32 (quote_word <$> args).

(** Where a word ends when blanks separate the words. *)
Definition at_blank (rest : str) : Prop := rest = [] \/ exists more, rest = 32 :: more.

Section Quotes.
Context (debug : bool) (n : Z) (nested : str -> outcome Script) (depth : nat).

Lemma single_loop_quoted start a : forall rest value position,
  ~ In 39 a ->
  single_loop n start value (a ++ 39 :: rest) position
  = Done (WLiteral (value ++ a) Single (mkSpan start (position + str_len a + 1)),
          mkParser rest (position + str_len a + 1)).
Proof.
  induction a as [|c a IH]; intros rest value position Ha; cbn [app single_loop].
  - rewrite Z.eqb_refl, app_nil_r, str_len_nil. change (len_utf8 39) with 1. by rewrite Z.add_0_r.
  - destruct (Z.eqb_spec c 39) as [->|]; [destruct Ha; by left|]. rewrite IH by (intros H; apply Ha; by right).
    rewrite <- app_assoc, str_len_cons. cbn [app]. by rewrite !Z.add_assoc.
Qed.

Lemma word_loop_blank fuel parts p :
  at_blank (pr_rest p) -> word_loop debug n nested depth (S fuel) parts [] None p = Done (parts, p).
Proof.
  intros [E|[more E]]; cbn [word_loop]; unfold peek; rewrite E; done.
Qed.

Lemma word_loop_quote fuel parts s position :
  word_loop debug n nested depth (S fuel) parts [] None (mkParser (39 :: s) position)
  = '(part, p) ← parse_single_quoted n (mkParser (39 :: s) position);
    word_loop debug n nested depth fuel (parts ++ [part]) [] None p.
Proof. reflexivity. Qed.

(** The one part of a quoted word and the parser after it. *)
Lemma parse_word_quoted a rest position :
  ~ In 39 a -> at_blank rest ->
  exists part e, part_literal part = a /\ part_quote part = Single
  /\ parse_word debug n nested depth (mkParser (quote_word a ++ rest) position)
     = Done (mkWord [part] (mkSpan position e), mkParser rest e).
Proof.
  intros Ha Hb. unfold quote_word. cbn [app]. rewrite <- app_assoc. cbn [app].
  exists (WLiteral a Single (mkSpan position (position + 1 + str_len a + 1))), (position + 1 + str_len a + 1).
  split; [done|]. split; [done|]. unfold parse_word. cbn [pr_rest length].
  set (fuel := length _). assert (exists f, fuel = S f) as [f Hf].
  { unfold fuel. rewrite length_app. cbn [length]. rewrite Nat.add_succ_r. by eexists. }
  rewrite Hf. clearbody fuel. rewrite word_loop_quote. unfold parse_single_quoted. rewrite skip_cons.
  cbn [pr_rest pr_position]. change (len_utf8 39) with 1. rewrite single_loop_quoted by done.
  cbn [mbind outcome_bind app]. rewrite word_loop_blank by done. done.
Qed.

(** ** The whole command *)

Lemma skip_horizontal_one rest position c :
  head rest = Some c -> one_of [32; 9; 13] c = false ->
  skip_horizontal (mkParser (32 :: rest) position) = (true, mkParser rest (position + 1)).
Proof.
  intros Hh Hc. destruct rest as [|d rest]; [done|]. injection Hh as ->.
  unfold skip_horizontal, take_while. cbn [pr_rest pr_position take_chars].
  change (one_of [32; 9; 13] 32) with true. cbv iota. by rewrite Hc.
Qed.

(** The words that follow, each after a blank. *)
Definition more_words (args : list str) : str := args ≫= fun a => 32 :: quote_word a.

Lemma more_words_blank args : at_blank (more_words args).
Proof. destruct args as [|a args]; [by left|right]. by eexists. Qed.

Lemma quote_words_cons a args : quote_words (a :: args) = quote_word a ++ more_words args.
Proof.
  revert a. induction args as [|b args IH]; intros a; [unfold quote_words; simpl; by rewrite app_nil_r|].
  unfold quote_words in *. rewrite fmap_cons, join_cons by done. by rewrite IH.
Qed.

Definition quoted_words (args : list str) (words : list Word) : Prop :=
  Forall2 (fun a w => exists part span, w = mkWord [part] span /\ part_literal part = a /\ part_quote part = Single)
    args words.

Lemma command_loop_quoted args : forall fuel words e position,
  Forall (fun a => ~ In 39 a) args -> (length args < fuel)%nat ->
  exists words' e' position', quoted_words args words'
  /\ command_loop debug n nested depth fuel words [] (Some e) (mkParser (more_words args) position)
     = Done (words ++ words', [], Some e', mkParser [] position').
Proof.
  induction args as [|a args IH]; intros fuel words e position Ha Hf; (destruct fuel as [|fuel]; [simpl in Hf; lia|]).
  - exists [], e, position. split; [constructor|]. by rewrite app_nil_r.
  - apply list.Forall_cons in Ha as [Ha Has]. simpl in Hf. unfold more_words. cbn [mbind list_bind].
    fold (more_words args). cbn [app]. cbn [command_loop].
    rewrite (skip_horizontal_one _ _ 39) by done. unfold quote_word. cbn -[parse_word command_loop more_words].
    destruct (parse_word_quoted a (more_words args) (position + 1) Ha (more_words_blank args))
      as (part & p' & Hl & Hq & Hp).
    unfold quote_word in Hp. cbn [app] in Hp. rewrite Hp. cbn [mbind outcome_bind wd_span sp_end].
    destruct (IH fuel (words ++ [mkWord [part] (mkSpan (position + 1) p')]) p' p' Has ltac:(lia))
      as (words' & e' & position' & Hw & Hc).
    rewrite Hc. exists (mkWord [part] (mkSpan (position + 1) p') :: words'), e', position'.
    rewrite <- app_assoc. split; [|done]. constructor; [|done]. by eexists _, _.
Qed.
End Quotes.

Lemma length_more_words args : (length args <= length (more_words args))%nat.
Proof.
  induction args as [|a args IH]; [done|].
  change (more_words (a :: args)) with ((32 :: quote_word a) ++ more_words args). rewrite length_app. simpl. lia.
Qed.

Section Script.
Context (debug : bool) (n : Z) (nested : str -> outcome Script) (depth : nat).

(** A command that starts with a quote. *)
Lemma command_loop_first fuel s position :
  command_loop debug n nested depth (S fuel) [] [] None (mkParser (39 :: s) position)
  = '(word, p) ← parse_word debug n nested depth (mkParser (39 :: s) position);
    command_loop debug n nested depth fuel [word] [] (Some (sp_end (wd_span word))) p.
Proof. reflexivity. Qed.

Lemma stages_loop_first fuel s position :
  stages_loop debug n nested depth (S fuel) [] [] (mkParser (39 :: s) position)
  = '(words, redirections, command_end, p) ←
      command_loop debug n nested depth (S (length (39 :: s))) [] [] None (mkParser (39 :: s) position);
    match (if bool_decide (length (words : list Word) = O) then None else command_end), pr_rest p with
    | Some e, [] => Done ([mkCommand words redirections (mkSpan position e)], [], e, p)
    | _, _ => stages_loop debug n nested depth (S fuel) [] [] (mkParser (39 :: s) position)
    end.
Proof.
  cbn [stages_loop]. change (peeks (Z.eqb 124) (mkParser (39 :: s) position)) with false. cbv iota.
  cbn [pr_rest pr_position]. destruct (command_loop _ _ _ _ _ _ _ _ _) as [[[[words rs] e] p]| |]; try done.
  cbn [mbind outcome_bind]. destruct (if bool_decide (length words = O) then None else e) as [e'|]; [|done].
  destruct p as [[|c rest] pos]; done.
Qed.

Lemma script_loop_quoted fuel a args position :
  Forall (fun a => ~ In 39 a) (a :: args) ->
  exists words span pipelines, quoted_words (a :: args) words
  /\ script_loop debug n nested depth (S fuel) [] [] None (mkParser (quote_words (a :: args)) position)
     = Done ([mkCommand words [] span], pipelines).
Proof.
  intros Hall. rewrite quote_words_cons. apply list.Forall_cons in Hall as [Ha Has].
  destruct (parse_word_quoted debug n nested depth a (more_words args) position Ha (more_words_blank args))
    as (part & e & Hl & Hq & Hp).
  unfold quote_word in *. cbn [app] in *. set (s := (a ++ [39]) ++ more_words args) in *.
  destruct (command_loop_quoted debug n nested depth args (length (39 :: s)) [mkWord [part] (mkSpan position e)] e e)
    as (words & e' & position' & Hw & Hc); [done|..].
  { unfold s. pose proof (length_more_words args). cbn [length]. rewrite length_app. lia. }
  assert (stages_loop debug n nested depth (S (length (39 :: s))) [] [] (mkParser (39 :: s) position)
    = Done ([mkCommand (mkWord [part] (mkSpan position e) :: words) [] (mkSpan position e')], [], e',
            mkParser [] position')) as Hst.
  { rewrite stages_loop_first, command_loop_first, Hp. cbn [mbind outcome_bind wd_span sp_end].
    rewrite Hc. done. }
  exists (mkWord [part] (mkSpan position e) :: words). eexists. eexists.
  split; [constructor; [by eexists _, _|done]|]. cbn [script_loop].
  change (is_eof (mkParser (39 :: s) position)) with false.
  change (starts_conditional_operator (mkParser (39 :: s) position)) with false.
  change (peeks (Z.eqb 59) (mkParser (39 :: s) position)) with false. cbv iota.
  cbn [pr_rest pr_position]. rewrite Hst. reflexivity.
Qed.
End Script.

Lemma parse_at_S debug levels depth source :
  parse_at debug (S levels) depth source
  = (p ← skip_command_layout (S (length source)) (mkParser source 0);
     '(commands, pipelines) ←
       script_loop debug (str_len source) (parse_at debug levels (S depth)) depth (S (length source)) [] [] None p;
     Done (mkScript source commands pipelines (mkSpan 0 (str_len source)))).
Proof. reflexivity. Qed.

Lemma parse_quoted debug a args :
  Forall (fun a => ~ In 39 a) (a :: args) ->
  exists words span pipelines, quoted_words (a :: args) words
  /\ parse debug (quote_words (a :: args))
     = Done (mkScript (quote_words (a :: args)) [mkCommand words [] span] pipelines
               (mkSpan 0 (str_len (quote_words (a :: args))))).
Proof.
  intros Hall. unfold parse. set (source := quote_words (a :: args)).
  destruct (script_loop_quoted debug (str_len source)
    (parse_at debug 31 1) 0 (length source) a args 0 Hall) as (words & span & pipelines & Hw & Hs).
  exists words, span, pipelines. split; [done|]. fold source in Hs.
  change MAX_COMMAND_SUBSTITUTION_DEPTH with (S 31). rewrite parse_at_S.
  assert (skip_command_layout (S (length source)) (mkParser source 0) = Done (mkParser source 0)) as ->.
  { unfold source. rewrite quote_words_cons. reflexivity. }
  cbn [mbind outcome_bind]. rewrite Hs. reflexivity.
Qed.

(** ** Builds without debug assertions *)

(** A script with no parameter and no substitution out of double quotes, its substitutions'
    own scripts included. *)
Inductive release_script : Script -> Prop :=
| release_script_intro source commands pipelines span :
    Forall release_command commands -> release_script (mkScript source commands pipelines span)
with release_command : SimpleCommand -> Prop :=
| release_command_intro words redirections span :
    Forall release_word words -> Forall release_redirection redirections ->
    release_command (mkCommand words redirections span)
with release_redirection : Redirection -> Prop :=
| release_redirection_file descriptor path mode operator_span span :
    release_word path -> release_redirection (mkRedirection descriptor (TFile path mode) operator_span span)
| release_redirection_descriptor descriptor target operator_span span :
    release_redirection (mkRedirection descriptor (TDescriptor target) operator_span span)
with release_word : Word -> Prop :=
| release_word_intro parts span : Forall release_part parts -> release_word (mkWord parts span)
with release_part : WordPart -> Prop :=
| release_part_literal value quote span : release_part (WLiteral value quote span)
| release_part_escaped value span : release_part (WEscapedLiteral value span)
| release_part_substitution script body_span span :
    release_script script -> release_part (WCommandSubstitution (mkSubstitution script body_span span) Double).

#[local] Hint Constructors release_script release_command release_redirection release_word release_part : core.

(** What a computation returns, when it does. *)
Definition yields {A} (Q : A -> Prop) (m : outcome A) : Prop := forall a, m = Done a -> Q a.

Lemma yields_bind {A B} (Q : A -> Prop) (R : B -> Prop) m (f : A -> outcome B) :
  yields Q m -> (forall a, Q a -> yields R (f a)) -> yields R (m ≫= f).
Proof. destruct m; unfold yields; cbn; naive_solver. Qed.

Lemma yields_done {A} (Q : A -> Prop) a : Q a -> yields Q (Done a).
Proof. by intros ? ? [= <-]. Qed.

Lemma yields_true {A} (m : outcome A) : yields (fun _ => True) m.
Proof. done. Qed.

(** A returned value with the property. *)
Ltac release_done := apply yields_done; cbn [fst snd] in *; first [done | solve [eauto 6] | by constructor].

Section Release.
Context (n : Z) (nested : str -> outcome Script) (depth : nat).
Context (Hnested : forall body, yields release_script (nested body)).

(** The dollar is still ahead, and it is no parameter. *)
Lemma release_parameter quote p :
  peek p = Some 36 -> exists d, parse_parameter false n quote p = Failed d.
Proof. intros Hp. unfold parse_parameter. cbn [asserted_bump]. rewrite Hp. by eexists. Qed.

(** The closing parenthesis is still ahead. *)
Lemma release_substitution quote p :
  starts_command_substitution p = true ->
  yields (fun r => (exists s body_span span, release_script s
              /\ r.1 = WCommandSubstitution (mkSubstitution s body_span span) quote) /\ peek r.2 = Some 41)
    (parse_command_substitution false nested depth quote p).
Proof.
  intros Hst r. destruct (adv_skip_2 _ p 36 40 Hst eq_refl) as (Hs & Hps & rest & Hrest & Hrest2).
  unfold parse_command_substitution. destruct (starts _ p); [done|]. destruct (_ <=? _)%nat; [done|].
  set (q := skip (skip p)) in *. change (len_utf8 36) with 1 in Hps. change (len_utf8 40) with 1 in Hps.
  pose proof (scan_loop_scans n depth (pr_position p) (pr_rest q) (pr_position q) frame_new []) as Hscan.
  destruct (scan_loop _ _ _ _ _ _) as [e| |]; try done. destruct Hscan as (before & after & Hq & ->).
  cbn [mbind outcome_bind]. rewrite Hq.
  replace (pr_position q + str_len before - pr_position q) with (str_len before) by lia.
  rewrite split_at_bytes_app. cbv beta iota. destruct (nested before) as [script| |] eqn:Hscript; try done.
  apply Hnested in Hscript. cbn [map_diagnostic mbind outcome_bind]. destruct (bool_decide _); [done|]. intros [= <-].
  split; [by eexists _, _, _|done].
Qed.

Lemma Forall_release_snoc parts part :
  Forall release_part parts -> release_part part -> Forall release_part (parts ++ [part]).
Proof. apply Forall_snoc. Qed.

Lemma release_double quote_start : forall fuel parts value literal_start p,
  Forall release_part parts ->
  yields (fun r => Forall release_part r.1)
    (double_loop false n nested depth fuel quote_start parts value literal_start p).
Proof.
  induction fuel as [|fuel IH]; intros parts value literal_start p Hp; [done|]. cbn [double_loop].
  destruct (peek p) as [c|] eqn:Hc; [|done].
  destruct (c =? 34); [apply yields_done; cbn [fst]; destruct (_ || _); [by apply Forall_release_snoc; auto|done]|].
  destruct (Z.eqb_spec c 36) as [->|].
  - eapply (yields_bind (fun r => exists part, r.1 = Some part /\ release_part part)).
    + destruct (starts_command_substitution p) eqn:Hst.
      * eapply yields_bind; [by apply release_substitution|]. intros [part q] [(s & body_span & span & Hs & Hp') _]. cbn [fst] in Hp'. subst part.
        apply yields_done. eexists. split; [done|]. by constructor.
      * destruct (release_parameter Double p Hc) as [d ->]. done.
    + intros [part q] (part' & Hs & Hpart). cbn [fst] in Hs. subst part. apply IH, Forall_release_snoc; [|done].
      destruct (negb _); [by apply Forall_release_snoc; auto|done].
  - destruct (c =? 92); [|by apply IH]. destruct (bump (skip p)) as [[d|] q]; [|done]. by apply IH.
Qed.

Lemma push_unquoted_release parts value start e :
  Forall release_part parts -> Forall release_part (push_unquoted parts value start e).1.
Proof. destruct start; [by intros; apply Forall_release_snoc|done]. Qed.

Lemma release_closing fuel parts value start p a :
  peek p = Some 41 -> word_loop false n nested depth fuel parts value start p <> Done a.
Proof.
  intros Hp. destruct fuel as [|fuel]; [done|]. cbn [word_loop]. rewrite Hp. cbv iota.
  change (one_of [32; 9; 13; 10; 59] 41) with false. change (one_of (L "|<>") 41) with false. cbv iota.
  assert (starts_conditional_operator p = false) as ->.
  { unfold starts_conditional_operator, starts. unfold peek in Hp. destruct (pr_rest p) as [|c rest]; [done|].
    by injection Hp as ->. }
  done.
Qed.

Lemma single_loop_release start rest : forall value position,
  yields (fun r => release_part r.1) (single_loop n start value rest position).
Proof.
  induction rest as [|c rest IH]; intros value position; [done|]. cbn [single_loop].
  destruct (c =? 39); [release_done|apply IH].
Qed.

Lemma release_word_loop : forall fuel parts value start p,
  Forall release_part parts ->
  yields (fun r => Forall release_part r.1) (word_loop false n nested depth fuel parts value start p).
Proof.
  induction fuel as [|fuel IH]; intros parts value start p Hp; [done|]. cbn [word_loop].
  pose proof (push_unquoted_release parts value start (pr_position p) Hp) as Hpushed.
  assert (yields (fun r : list WordPart * Parser => Forall release_part r.1)
    (Done ((push_unquoted parts value start (pr_position p)).1, p))) as Hfinish by (release_done).
  destruct (peek p) as [c|] eqn:Hc; [|exact Hfinish].
  destruct (one_of _ c); [exact Hfinish|]. destruct (one_of _ c); [exact Hfinish|].
  destruct (starts_conditional_operator p); [exact Hfinish|]. destruct (is_reserved_operator c); [done|].
  destruct (push_unquoted parts value start (pr_position p)) as [pushed value']. cbn [fst] in Hpushed.
  destruct (c =? 39).
  { eapply yields_bind; [apply single_loop_release|]. intros [part q] Hpart. by apply IH, Forall_release_snoc. }
  destruct (c =? 34).
  { eapply yields_bind; [by apply release_double|]. intros [quoted q] Hq. apply IH. by apply Forall_app. }
  destruct (Z.eqb_spec c 36) as [->|].
  { destruct (starts_command_substitution p) eqn:Hst.
    - eapply yields_bind; [by apply release_substitution|]. intros [part q] [_ Hq] a Ha.
      exfalso. exact (release_closing _ _ _ _ _ _ Hq Ha).
    - destruct (release_parameter Unquoted p Hc) as [d ->]. done. }
  destruct (c =? 92); [|by apply IH]. destruct (bump (skip p)) as [[d|] q]; [|done].
  apply IH. destruct (d =? 10); [done|]. by apply Forall_release_snoc; auto.
Qed.

Lemma release_parse_word p : yields (fun r => release_word r.1) (parse_word false n nested depth p).
Proof.
  unfold parse_word. eapply yields_bind; [by apply release_word_loop|]. intros [parts q] H. release_done.
Qed.

Lemma release_file start os descriptor mode p :
  yields (fun r => release_redirection r.1) (parse_file_redirection false n nested depth start os descriptor mode p).
Proof.
  unfold parse_file_redirection. destruct (skip_horizontal p) as [separated q]. destruct (_ || _); [done|].
  eapply yields_bind; [apply release_parse_word|]. intros [path r] H. release_done.
Qed.

Lemma release_parse_redirection p :
  yields (fun r => release_redirection r.1) (parse_redirection false n nested depth p).
Proof.
  unfold parse_redirection. eapply yields_bind; [apply yields_true|]. intros [descriptor q] _.
  destruct (bump q) as [operator r]. destruct (bool_decide _).
  - destruct (peeks _ r); [done|]. destruct descriptor as [[| |]|]; first [apply release_file|done].
  - eapply yields_bind; [apply yields_true|]. intros target _.
    destruct (_ && _).
    + unfold parse_descriptor_redirection. destruct (bump _) as [c q2].
      eapply yields_bind; [apply yields_true|]. intros t _. destruct (peeks _ q2); [done|]. release_done.
    + destruct (_ && _); [done|apply release_file].
Qed.

Lemma release_command_loop : forall fuel words redirections e p,
  Forall release_word words -> Forall release_redirection redirections ->
  yields (fun r => Forall release_word r.1.1.1 /\ Forall release_redirection r.1.1.2)
    (command_loop false n nested depth fuel words redirections e p).
Proof.
  induction fuel as [|fuel IH]; intros words redirections e p Hw Hr; [done|]. cbn [command_loop].
  destruct (skip_horizontal p) as [separated q].
  destruct (peek q) as [c|]; [|release_done].
  destruct (one_of _ c); [release_done|]. destruct (_ && _); [release_done|].
  destruct (_ && _); [release_done|]. destruct (starts_redirection q).
  - eapply yields_bind; [apply release_parse_redirection|]. intros [r q2] H. apply IH; [done|by apply Forall_snoc].
  - eapply yields_bind; [apply release_parse_word|]. intros [w q2] H. apply IH; [by apply Forall_snoc|done].
Qed.

Lemma release_stages_loop : forall fuel commands spans p,
  Forall release_command commands ->
  yields (fun r => Forall release_command r.1.1.1) (stages_loop false n nested depth fuel commands spans p).
Proof.
  induction fuel as [|fuel IH]; intros commands spans p Hc; [done|]. cbn [stages_loop].
  destruct (peeks _ p); [done|].
  eapply yields_bind; [by apply release_command_loop|]. intros [[[words rs] e] q] [Hw Hr]. cbn [fst snd] in *.
  destruct (if bool_decide _ then None else e) as [e'|]; [|done].
  assert (Forall release_command (commands ++ [mkCommand words rs (mkSpan (pr_position p) e')])) as Hcs
    by (by apply Forall_snoc).
  destruct (peek _) as [c|]; [|release_done]. destruct (c =? 35); [release_done|].
  destruct (_ && _); [release_done|]. destruct (c =? 124).
  - destruct (_ || _); [done|]. by apply IH.
  - destruct (one_of _ c); [release_done|done].
Qed.

Lemma release_script_loop : forall fuel commands pipelines condition p,
  Forall release_command commands ->
  yields (fun r => Forall release_command r.1) (script_loop false n nested depth fuel commands pipelines condition p).
Proof.
  induction fuel as [|fuel IH]; intros commands pipelines condition p Hc; [done|]. cbn [script_loop].
  destruct (is_eof p); [release_done|]. destruct (starts_conditional_operator p); [done|].
  destruct (peeks _ p); [done|].
  eapply yields_bind; [by apply release_stages_loop|]. intros [[[commands' spans] e] q] H. cbn [fst] in H.
  destruct (starts_conditional_operator _).
  - eapply yields_bind; [apply yields_true|]. intros r _. destruct (_ || _); [done|]. by apply IH.
  - destruct (peek _) as [c|]; [|release_done]. destruct (one_of _ c); [|done].
    eapply yields_bind; [apply yields_true|]. intros r _. by apply IH.
Qed.
End Release.

Lemma release_parse_at levels : forall depth source, yields release_script (parse_at false levels depth source).
Proof.
  induction levels as [|levels IH]; intros depth source; cbn [parse_at];
    (eapply yields_bind; [apply yields_true|]); intros p _;
    (eapply yields_bind; [apply release_script_loop; [done || (intros; apply IH)|done]|]);
    intros [commands pipelines] H; release_done.
Qed.
