(* ===== verification/ShellState.v ===== *)
(** * ShellState: what persists across commands

    [state.rs] on a Unix target: the environment, the variables, aliases, functions,
    the last status, the options and the table of jobs. *)

From S2P Require Import Prelude Text Syntax.

(** ** The environment *)

Record EnvironmentEntry : Type := mkEnvEntry { ee_name : bytes; ee_value : bytes }.

(** The key of a name is the name itself. *)
Definition PlatformEnvironment : Type := gmap bytes EnvironmentEntry.

Definition environment_key (name : bytes) : bytes := name.

Definition env_insert (name value : bytes) (e : PlatformEnvironment) : option bytes * PlatformEnvironment :=
  (ee_value <$> e !! environment_key name, <[environment_key name := mkEnvEntry name value]> e).

Definition env_get (name : bytes) (e : PlatformEnvironment) : option bytes := ee_value <$> e !! environment_key name.

Definition env_remove (name : bytes) (e : PlatformEnvironment) : option bytes * PlatformEnvironment :=
  (ee_value <$> e !! environment_key name, delete (environment_key name) e).

(** [from_iter]: a later pair replaces an earlier one. *)
Definition env_from_iter (pairs : list (bytes * bytes)) : PlatformEnvironment :=
  foldl (fun e '(name, value) => (env_insert name value e).2) ∅ pairs.

(** ** Status, options, jobs *)

Inductive ExecutionBackend : Type := Native | Wsl (distribution : option str).

Inductive ShellStatusKind : Type :=
| Exited | ParseError | ExpansionError | ResolutionError | SpawnError | RedirectionError | TimedOut | Interrupted.

Record ShellStatus : Type := mkStatus {
  ss_code : Z; ss_kind : ShellStatusKind; ss_signal : option Z; ss_backend : ExecutionBackend }.

Definition status_success : ShellStatus := mkStatus 0 Exited None Native.

Record ShellOptions : Type := mkOptions { so_pipefail : bool; so_wsl_distribution : option str }.

Definition set_pipefail (enabled : bool) (o : ShellOptions) : ShellOptions :=
  mkOptions enabled (so_wsl_distribution o).

Definition set_wsl_distribution (distribution : option str) (o : ShellOptions) : ShellOptions :=
  mkOptions (so_pipefail o) distribution.

Inductive JobState : Type := JRunning | JStopped | JExited (status : ShellStatus).

Record JobSummary : Type := mkJob { jb_id : Z; jb_command : str; jb_state : JobState }.

Record JobTable : Type := mkJobs { jt_next_id : Z; jt_jobs : gmap Z JobSummary }.

Inductive StateError : Type := InvalidIdentifier | JobIdExhausted.

Definition JobTable_new : JobTable := mkJobs 1 ∅.

Definition job_insert (command : str) (state : JobState) (t : JobTable) : result StateError (Z * JobTable) :=
  let id := jt_next_id t in
  next_id ← ok_or (checked_add u64_max (jt_next_id t) 1) JobIdExhausted;
  Ok (id, mkJobs next_id (<[id := mkJob id command state]> (jt_jobs t))).

Definition job_remove (id : Z) (t : JobTable) : option JobSummary * JobTable :=
  (jt_jobs t !! id, mkJobs (jt_next_id t) (delete id (jt_jobs t))).

(** ** The state *)

Record ShellState : Type := mkShell {
  sh_cwd : bytes;
  sh_environment : PlatformEnvironment;
  sh_variables : gmap str bytes;
  sh_aliases : gmap str str;
  sh_functions : gmap str Script;
  sh_last_status : ShellStatus;
  sh_options : ShellOptions;
  sh_jobs : JobTable;
}.

Definition ShellState_new (cwd : bytes) : ShellState :=
  mkShell cwd ∅ ∅ ∅ ∅ status_success (mkOptions false None) JobTable_new.

Definition validate_identifier (name : str) : result StateError unit :=
  match str_bytes name with
  | first :: rest =>
      if (is_ascii_alphabetic first || (first =? 95))
         && forallb (fun byte => is_ascii_alphanumeric byte || (byte =? 95)) rest
      then Ok tt else Err InvalidIdentifier
  | [] => Err InvalidIdentifier
  end.

Definition variable (name : str) (s : ShellState) : option bytes := sh_variables s !! name.

Definition set_variable (name : str) (value : bytes) (s : ShellState) : result StateError (option bytes * ShellState) :=
  _ ← validate_identifier name;
  Ok (sh_variables s !! name,
      mkShell (sh_cwd s) (sh_environment s) (<[name := value]> (sh_variables s)) (sh_aliases s)
        (sh_functions s) (sh_last_status s) (sh_options s) (sh_jobs s)).

Definition unset_variable (name : str) (s : ShellState) : option bytes * ShellState :=
  (sh_variables s !! name,
   mkShell (sh_cwd s) (sh_environment s) (delete name (sh_variables s)) (sh_aliases s) (sh_functions s)
     (sh_last_status s) (sh_options s) (sh_jobs s)).

Definition set_alias (name replacement : str) (s : ShellState) : result StateError (option str * ShellState) :=
  _ ← validate_identifier name;
  Ok (sh_aliases s !! name,
      mkShell (sh_cwd s) (sh_environment s) (sh_variables s) (<[name := replacement]> (sh_aliases s))
        (sh_functions s) (sh_last_status s) (sh_options s) (sh_jobs s)).

Definition unset_alias (name : str) (s : ShellState) : option str * ShellState :=
  (sh_aliases s !! name,
   mkShell (sh_cwd s) (sh_environment s) (sh_variables s) (delete name (sh_aliases s)) (sh_functions s)
     (sh_last_status s) (sh_options s) (sh_jobs s)).

Definition set_function (name : str) (body : Script) (s : ShellState) : result StateError (option Script * ShellState) :=
  _ ← validate_identifier name;
  Ok (sh_functions s !! name,
      mkShell (sh_cwd s) (sh_environment s) (sh_variables s) (sh_aliases s) (<[name := body]> (sh_functions s))
        (sh_last_status s) (sh_options s) (sh_jobs s)).

Definition unset_function (name : str) (s : ShellState) : option Script * ShellState :=
  (sh_functions s !! name,
   mkShell (sh_cwd s) (sh_environment s) (sh_variables s) (sh_aliases s) (delete name (sh_functions s))
     (sh_last_status s) (sh_options s) (sh_jobs s)).

Definition set_last_status (status : ShellStatus) (s : ShellState) : ShellState :=
  mkShell (sh_cwd s) (sh_environment s) (sh_variables s) (sh_aliases s) (sh_functions s) status
    (sh_options s) (sh_jobs s).

Definition set_cwd (cwd : bytes) (s : ShellState) : ShellState :=
  mkShell cwd (sh_environment s) (sh_variables s) (sh_aliases s) (sh_functions s) (sh_last_status s)
    (sh_options s) (sh_jobs s).
