(* ===== verification/Expand.v ===== *)
(** * Expand: words to fields

    [expand.rs] on a Unix target.  A field remembers which of its bytes may be
    pathname operators: those of unquoted literals and of unquoted expansions. *)

From S2P Require Import Prelude Text Syntax ShellState.

Record PathnameSegment : Type := mkSegment { ps_value : bytes; ps_active : bool }.

Record ExpandedWord : Type := mkExpanded {
  ew_value : bytes; ew_span : SourceSpan; ew_pathname_segments : list PathnameSegment }.

Definition from_pathname (value : bytes) (span : SourceSpan) : ExpandedWord := mkExpanded value span [].

Record ExpandedFieldBuilder : Type := mkBuilder {
  fb_value : bytes; fb_pathname_segments : list PathnameSegment; fb_present : bool }.

Definition builder_default : ExpandedFieldBuilder := mkBuilder [] [] false.

(** [last_mut] with its filter, or a new segment. *)
Fixpoint extend_segments (segments : list PathnameSegment) (value : bytes) (active : bool) : list PathnameSegment :=
  match segments with
  | [] => [mkSegment value active]
  | [s] =>
      if eqb (ps_active s) active then [mkSegment (ps_value s ++ value) active]
      else [s; mkSegment value active]
  | s :: segments => s :: extend_segments segments value active
  end.

Definition fb_append (value : bytes) (pathname_active : bool) (b : ExpandedFieldBuilder) : ExpandedFieldBuilder :=
  if bool_decide (value = []) then b
  else mkBuilder (fb_value b ++ value) (extend_segments (fb_pathname_segments b) value pathname_active) true.

Definition mark_present (b : ExpandedFieldBuilder) : ExpandedFieldBuilder :=
  mkBuilder (fb_value b) (fb_pathname_segments b) true.

Definition fb_take (b : ExpandedFieldBuilder) : option (bytes * list PathnameSegment) * ExpandedFieldBuilder :=
  if negb (fb_present b) then (None, b)
  else (Some (fb_value b, fb_pathname_segments b), mkBuilder [] [] false).

Definition finish_field (fields : list (bytes * list PathnameSegment)) (current : ExpandedFieldBuilder)
    : list (bytes * list PathnameSegment) * ExpandedFieldBuilder :=
  match fb_take current with
  | (Some field, current) => (fields ++ [field], current)
  | (None, current) => (fields, current)
  end.

Definition is_field_separator (value : Z) : bool := (value =? 32) || (value =? 9) || (value =? 10).

(** [segment] is [bytes[segment_start..index]]. *)
Fixpoint split_value_loop (rest segment : bytes) (fields : list (bytes * list PathnameSegment))
    (current : ExpandedFieldBuilder) : list (bytes * list PathnameSegment) * ExpandedFieldBuilder :=
  match rest with
  | [] => (fields, fb_append segment true current)
  | byte :: rest =>
      if is_field_separator byte then
        let current := fb_append segment true current in
        let '(fields, current) := finish_field fields current in
        split_value_loop rest [] fields current
      else split_value_loop rest (segment ++ [byte]) fields current
  end.

Definition append_split_value (value : bytes) (fields : list (bytes * list PathnameSegment))
    (current : ExpandedFieldBuilder) : list (bytes * list PathnameSegment) * ExpandedFieldBuilder :=
  split_value_loop value [] fields current.

Definition parameter_value (parameter : ShellParameter) (state : ShellState) : bytes :=
  match parameter with
  | Named name _ =>
      match variable name state with
      | Some value => value
      | None => default [] (env_get (str_bytes name) (sh_environment state))
      end
  | LastStatus => str_bytes (to_string (ss_code (sh_last_status state)))
  end.

(** [None] is the panic on a substitution without a value. *)
Fixpoint expand_parts (parts : list WordPart) (state : ShellState) (values : list bytes)
    (fields : list (bytes * list PathnameSegment)) (current : ExpandedFieldBuilder)
    : option (list (bytes * list PathnameSegment) * ExpandedFieldBuilder) :=
  match parts with
  | [] => Some (fields, current)
  | WLiteral value quote _ :: parts =>
      let current := fb_append (str_bytes value) (bool_decide (quote = Unquoted)) current in
      let current := if bool_decide (value = []) && negb (bool_decide (quote = Unquoted))
                     then mark_present current else current in
      expand_parts parts state values fields current
  | WEscapedLiteral value _ :: parts =>
      expand_parts parts state values fields (fb_append (str_bytes value) false current)
  | WParameter parameter quote _ :: parts =>
      let value := parameter_value parameter state in
      if bool_decide (quote = Unquoted) then
        let '(fields, current) := append_split_value value fields current in
        expand_parts parts state values fields current
      else expand_parts parts state values fields (mark_present (fb_append value false current))
  | WCommandSubstitution _ quote :: parts =>
      match values with
      | [] => None
      | value :: values =>
          if bool_decide (quote = Unquoted) then
            let '(fields, current) := append_split_value value fields current in
            expand_parts parts state values fields current
          else expand_parts parts state values fields (mark_present (fb_append value false current))
      end
  end.

Definition expand_word_with_substitutions (word : Word) (state : ShellState) (substitution_values : list bytes)
    : option (list ExpandedWord) :=
  '(fields, current) ← expand_parts (wd_parts word) state substitution_values [] builder_default;
  let '(fields, _) := finish_field fields current in
  Some ((fun '(value, segments) => mkExpanded value (wd_span word) segments) <$> fields).

(** ** The fields of a word

    What a word is before it is cut into fields: its bytes, each with the flag that
    lets it be a pathname operator, the places where a separator cuts, and the marks
    of the quoted parts, which make a field exist even when it is empty. *)

Inductive Item : Type := IUnit (byte : Z) (active : bool) | IBreak | IMark.

Definition flagged (active : bool) (value : bytes) : list Item := (fun b => IUnit b active) <$> value.

(** The value of an unquoted expansion. *)
Definition break_items (value : bytes) : list Item :=
  (fun b => if is_field_separator b then IBreak else IUnit b true) <$> value.

Definition expansion_items (quote : QuoteMode) (value : bytes) : list Item :=
  if bool_decide (quote = Unquoted) then break_items value else flagged false value ++ [IMark].

Definition literal_items (quote : QuoteMode) (value : bytes) : list Item :=
  if bool_decide (quote = Unquoted) then flagged true value else flagged false value ++ [IMark].

(** [None] when a substitution has no value. *)
Fixpoint word_items (state : ShellState) (parts : list WordPart) (values : list bytes) : option (list Item) :=
  match parts with
  | [] => Some []
  | WLiteral value quote _ :: parts =>
      app (literal_items quote (str_bytes value)) <$> word_items state parts values
  | WEscapedLiteral value _ :: parts =>
      app (flagged false (str_bytes value)) <$> word_items state parts values
  | WParameter parameter quote _ :: parts =>
      app (expansion_items quote (parameter_value parameter state)) <$> word_items state parts values
  | WCommandSubstitution _ quote :: parts =>
      match values with
      | [] => None
      | value :: values => app (expansion_items quote value) <$> word_items state parts values
      end
  end.

(** The fields, [field] the one that is open. *)
Fixpoint fields_of (items : list Item) (field : option (list (Z * bool))) : list (list (Z * bool)) :=
  match items with
  | [] => option_list field
  | IUnit b active :: items => fields_of items (Some (default [] field ++ [(b, active)]))
  | IMark :: items => fields_of items (Some (default [] field))
  | IBreak :: items => option_list field ++ fields_of items None
  end.

(** The bytes of the segments, each with its flag. *)
Definition segment_flags (segments : list PathnameSegment) : list (Z * bool) :=
  segments ≫= fun s => (fun b => (b, ps_active s)) <$> ps_value s.

(** A field's value is that of its segments, none is empty and neighbours differ. *)
Definition segments_ok (segments : list PathnameSegment) : Prop :=
  Forall (fun s => ps_value s <> []) segments
  /\ windows2_all (fun s t => negb (eqb (ps_active s) (ps_active t))) segments = true.

Definition field_ok (field : bytes * list PathnameSegment) : Prop :=
  field.1 = (segment_flags field.2).*1 /\ segments_ok field.2.

Definition builder_ok (b : ExpandedFieldBuilder) : Prop :=
  field_ok (fb_value b, fb_pathname_segments b) /\ (fb_present b = false -> fb_pathname_segments b = []).

Definition open_field (b : ExpandedFieldBuilder) : option (list (Z * bool)) :=
  if fb_present b then Some (segment_flags (fb_pathname_segments b)) else None.

Definition field_flags (field : bytes * list PathnameSegment) : list (Z * bool) := segment_flags field.2.

(** ** The builder *)

Lemma extend_segments_flags segments value active :
  segment_flags (extend_segments segments value active)
  = segment_flags segments ++ ((fun b => (b, active)) <$> value).
Proof.
  induction segments as [|s [|t segments] IH].
  - cbn. by rewrite app_nil_r.
  - cbn [extend_segments]. destruct (eqb _ _) eqn:E; unfold segment_flags; cbn.
    + apply eqb_prop in E as ->. by rewrite !app_nil_r, fmap_app.
    + by rewrite !app_nil_r.
  - change (extend_segments (s :: t :: segments) value active)
      with (s :: extend_segments (t :: segments) value active).
    unfold segment_flags in *. cbn [mbind list_bind]. cbn [mbind list_bind] in IH. rewrite IH.
    by rewrite <- !app_assoc.
Qed.

Lemma extend_segments_head s segments value active :
  exists t rest, extend_segments (s :: segments) value active = t :: rest /\ ps_active t = ps_active s.
Proof.
  destruct segments as [|t segments]; cbn [extend_segments].
  - destruct (eqb _ _) eqn:E; [apply eqb_prop in E|]; by eexists _, _.
  - by eexists _, _.
Qed.

Lemma extend_segments_ok segments value active :
  value <> [] -> segments_ok segments -> segments_ok (extend_segments segments value active).
Proof.
  intros Hv [Hn Hw]. split.
  - clear Hw. induction Hn as [|s segments Hs Hn IH]; [by repeat constructor|].
    destruct segments as [|t segments]; [|by constructor]. cbn [extend_segments]. destruct (eqb _ _).
    + repeat constructor. cbn. by destruct (ps_value s).
    + by repeat constructor.
  - clear Hn. induction segments as [|s [|t segments] IH]; [done| |].
    + cbn [extend_segments]. destruct (eqb _ _) eqn:E; [done|]. cbn. by rewrite E.
    + rewrite windows2_all_cons2 in Hw. apply andb_true_iff in Hw as [Hst Hw]. specialize (IH Hw).
      change (extend_segments (s :: t :: segments) value active)
        with (s :: extend_segments (t :: segments) value active).
      destruct (extend_segments_head t segments value active) as (t' & rest & E & Ha). rewrite E in *.
      rewrite windows2_all_cons2, IH, Ha. by rewrite Hst.
Qed.

Lemma builder_default_ok : builder_ok builder_default.
Proof. by repeat split. Qed.

Lemma fb_append_ok value active b : builder_ok b -> builder_ok (fb_append value active b).
Proof.
  intros [[Hv Hs] Hp]. unfold fb_append. case_bool_decide as E; [done|]. split; [split; cbn|done].
  - cbn in Hv. rewrite extend_segments_flags, fmap_app, <- list_fmap_compose, Hv. f_equal.
    unfold compose. cbn. by rewrite list_fmap_id.
  - by apply extend_segments_ok.
Qed.

Lemma mark_present_ok b : builder_ok b -> builder_ok (mark_present b).
Proof. by intros [H _]. Qed.

Lemma closed_builder b : builder_ok b -> default [] (open_field b) = segment_flags (fb_pathname_segments b).
Proof. intros [_ Hp]. unfold open_field. destruct (fb_present b); [done|]. by rewrite Hp. Qed.

Lemma fields_of_flagged active value items b :
  builder_ok b ->
  fields_of (flagged active value ++ items) (open_field b) = fields_of items (open_field (fb_append value active b)).
Proof.
  intros Hb. unfold fb_append. case_bool_decide as E; [by subst|].
  assert (forall field, value <> [] -> fields_of (flagged active value ++ items) field
    = fields_of items (Some (default [] field ++ ((fun b => (b, active)) <$> value)))) as Hf.
  { clear. induction value as [|v value IH]; intros field Hv; [done|]. cbn.
    destruct (decide (value = [])) as [->|Hn]; [done|].
    change ((fun b => IUnit b active) <$> value) with (flagged active value). rewrite IH by done. cbn.
    by rewrite <- app_assoc. }
  rewrite Hf by done. f_equal. unfold open_field at 2. cbn. f_equal.
  by rewrite extend_segments_flags, closed_builder.
Qed.

Lemma fields_of_mark items b :
  builder_ok b -> fields_of (IMark :: items) (open_field b) = fields_of items (open_field (mark_present b)).
Proof. intros Hb. cbn [fields_of]. f_equal. by rewrite closed_builder. Qed.

Lemma finish_field_spec fields b items :
  builder_ok b -> Forall field_ok fields ->
  let r := finish_field fields b in
  (field_flags <$> r.1) ++ fields_of items (open_field r.2)
    = (field_flags <$> fields) ++ option_list (open_field b) ++ fields_of items None
  /\ Forall field_ok r.1 /\ builder_ok r.2 /\ open_field r.2 = None.
Proof.
  intros Hb Hf r. unfold r, finish_field, fb_take, open_field. destruct (fb_present b) eqn:E; cbn.
  - rewrite fmap_app, <- app_assoc. split; [done|]. split; [|split; [apply builder_default_ok|done]].
    apply Forall_app. split; [done|]. by constructor; [apply Hb|].
  - rewrite E. by split.
Qed.

(** ** The parts of a word *)

(** One step: the fields and the builder after it stand for the same fields. *)
Definition simulates (items : list Item) (fields : list (bytes * list PathnameSegment)) (b : ExpandedFieldBuilder)
    (r : list (bytes * list PathnameSegment) * ExpandedFieldBuilder) : Prop :=
  Forall field_ok r.1 /\ builder_ok r.2
  /\ forall rest, (field_flags <$> r.1) ++ fields_of rest (open_field r.2)
                  = (field_flags <$> fields) ++ fields_of (items ++ rest) (open_field b).

Lemma simulates_trans items items' fields b r r' :
  simulates items fields b r -> simulates items' r.1 r.2 r' -> simulates (items ++ items') fields b r'.
Proof.
  intros (_ & _ & H1) (Hf & Hb & H2). split; [done|]. split; [done|]. intros rest.
  by rewrite H2, H1, <- app_assoc.
Qed.

Lemma simulates_flagged active value fields b :
  builder_ok b -> Forall field_ok fields ->
  simulates (flagged active value) fields b (fields, fb_append value active b).
Proof.
  intros Hb Hf. split; [done|]. split; [by apply fb_append_ok|]. intros rest. cbn [fst snd].
  by rewrite fields_of_flagged.
Qed.

Lemma simulates_mark fields b :
  builder_ok b -> Forall field_ok fields -> simulates [IMark] fields b (fields, mark_present b).
Proof.
  intros Hb Hf. split; [done|]. split; [by apply mark_present_ok|]. intros rest. cbn [fst snd app].
  by rewrite fields_of_mark.
Qed.

Lemma simulates_break fields b :
  builder_ok b -> Forall field_ok fields -> simulates [IBreak] fields b (finish_field fields b).
Proof.
  intros Hb Hf. destruct (finish_field_spec fields b [] Hb Hf) as (_ & Hf' & Hb' & _).
  split; [done|]. split; [done|]. intros rest.
  destruct (finish_field_spec fields b rest Hb Hf) as (E & _). exact E.
Qed.

Lemma split_value_loop_spec rest : forall segment fields b,
  builder_ok b -> Forall field_ok fields ->
  simulates (flagged true segment ++ break_items rest) fields b (split_value_loop rest segment fields b).
Proof.
  induction rest as [|byte rest IH]; intros segment fields b Hb Hf; cbn [split_value_loop].
  - cbn. rewrite app_nil_r. by apply simulates_flagged.
  - cbn [break_items fmap list_fmap]. destruct (is_field_separator byte).
    + pose proof (simulates_flagged true segment fields b Hb Hf) as H1.
      pose proof (simulates_break fields _ (fb_append_ok segment true b Hb) Hf) as H2.
      destruct (finish_field fields (fb_append segment true b)) as [fields' b'].
      change (IBreak :: _) with ([IBreak] ++ break_items rest).
      refine (simulates_trans _ _ _ _ _ _ H1 (simulates_trans _ _ _ _ _ _ H2 _)).
      destruct H2 as (Hf2 & Hb2 & _). exact (IH [] fields' b' Hb2 Hf2).
    + specialize (IH (segment ++ [byte]) fields b Hb Hf). unfold flagged in IH.
      rewrite fmap_app, <- app_assoc in IH. exact IH.
Qed.

(** An expansion's value. *)
Definition append_value (quote : QuoteMode) (value : bytes) (fields : list (bytes * list PathnameSegment))
    (b : ExpandedFieldBuilder) : list (bytes * list PathnameSegment) * ExpandedFieldBuilder :=
  if bool_decide (quote = Unquoted) then append_split_value value fields b
  else (fields, mark_present (fb_append value false b)).

Lemma append_value_spec quote value fields b :
  builder_ok b -> Forall field_ok fields ->
  simulates (expansion_items quote value) fields b (append_value quote value fields b).
Proof.
  intros Hb Hf. unfold expansion_items, append_value. case_bool_decide.
  - exact (split_value_loop_spec value [] fields b Hb Hf).
  - refine (simulates_trans _ _ _ _ (fields, fb_append value false b) _ _ _); [by apply simulates_flagged|].
    apply simulates_mark; [by apply fb_append_ok|done].
Qed.

Definition append_literal (quote : QuoteMode) (value : str) (b : ExpandedFieldBuilder) : ExpandedFieldBuilder :=
  let b := fb_append (str_bytes value) (bool_decide (quote = Unquoted)) b in
  if bool_decide (value = []) && negb (bool_decide (quote = Unquoted)) then mark_present b else b.

Lemma fb_append_present value active b : value <> [] -> fb_present (fb_append value active b) = true.
Proof. intros H. unfold fb_append. by case_bool_decide. Qed.

Lemma str_bytes_empty value : str_bytes value = [] -> value = [].
Proof.
  destruct value as [|c value]; [done|]. rewrite str_bytes_cons. unfold encode_utf8.
  repeat destruct (_ <? _); done.
Qed.

Lemma append_literal_spec quote value fields b :
  builder_ok b -> Forall field_ok fields ->
  simulates (literal_items quote (str_bytes value)) fields b (fields, append_literal quote value b).
Proof.
  intros Hb Hf. unfold literal_items, append_literal. case_bool_decide as Hq; cbn [negb].
  - rewrite andb_false_r. by apply simulates_flagged.
  - rewrite andb_true_r.
    pose proof (simulates_mark fields _ (fb_append_ok (str_bytes value) false b Hb) Hf) as Hm.
    pose proof (simulates_flagged false (str_bytes value) fields b Hb Hf) as Ha.
    pose proof (simulates_trans _ _ _ _ (fields, fb_append (str_bytes value) false b) _ Ha Hm) as Hr.
    case_bool_decide as Hv; [exact Hr|].
    assert (mark_present (fb_append (str_bytes value) false b) = fb_append (str_bytes value) false b) as <-; [|exact Hr].
    unfold mark_present. rewrite <- (fb_append_present (str_bytes value) false b) by (by intros ?%str_bytes_empty).
    by destruct (fb_append _ _ _).
Qed.

(** The items are those of the parts, and only a missing value fails. *)
Lemma expand_parts_spec state parts : forall values fields b,
  builder_ok b -> Forall field_ok fields ->
  match word_items state parts values with
  | Some items => exists r, expand_parts parts state values fields b = Some r /\ simulates items fields b r
  | None => expand_parts parts state values fields b = None
  end.
Proof.
  induction parts as [|part parts IH]; intros values fields b Hb Hf; cbn [word_items expand_parts].
  { exists (fields, b). split; [done|]. split; [done|]. split; [done|]. by intros rest. }
  assert (forall items values' r, simulates items fields b r ->
    match app items <$> word_items state parts values' with
    | Some items => exists r', expand_parts parts state values' r.1 r.2 = Some r' /\ simulates items fields b r'
    | None => expand_parts parts state values' r.1 r.2 = None
    end) as Hnext.
  { intros items values' r Hr. destruct (id Hr) as (Hf' & Hb' & _). specialize (IH values' r.1 r.2 Hb' Hf').
    destruct (word_items _ _ _) as [items'|]; cbn; [|done]. destruct IH as (r' & E & Hs).
    exists r'. split; [done|]. by eapply simulates_trans. }
  assert (forall quote value values', 
    match app (expansion_items quote value) <$> word_items state parts values' with
    | Some items => exists r',
        (if bool_decide (quote = Unquoted)
         then let '(fields, b) := append_split_value value fields b in expand_parts parts state values' fields b
         else expand_parts parts state values' fields (mark_present (fb_append value false b))) = Some r'
        /\ simulates items fields b r'
    | None =>
        (if bool_decide (quote = Unquoted)
         then let '(fields, b) := append_split_value value fields b in expand_parts parts state values' fields b
         else expand_parts parts state values' fields (mark_present (fb_append value false b))) = None
    end) as Hvalue.
  { intros quote value values'.
    pose proof (Hnext _ values' _ (append_value_spec quote value fields b Hb Hf)) as H. unfold append_value in H.
    case_bool_decide; [|exact H]. by destruct (append_split_value value fields b). }
  destruct part as [value quote span|value span|parameter quote span|substitution quote].
  - exact (Hnext _ values (fields, append_literal quote value b) (append_literal_spec quote value fields b Hb Hf)).
  - exact (Hnext _ values _ (simulates_flagged false (str_bytes value) fields b Hb Hf)).
  - apply Hvalue.
  - destruct values as [|value values]; [done|]. apply Hvalue.
Qed.

Lemma expand_word_spec word state values :
  match word_items state (wd_parts word) values with
  | Some items => exists fields, expand_word_with_substitutions word state values = Some fields
      /\ (segment_flags ∘ ew_pathname_segments) <$> fields = fields_of items None
      /\ Forall (fun f => ew_span f = wd_span word /\ field_ok (ew_value f, ew_pathname_segments f)) fields
  | None => expand_word_with_substitutions word state values = None
  end.
Proof.
  unfold expand_word_with_substitutions.
  pose proof (expand_parts_spec state (wd_parts word) values [] builder_default builder_default_ok
    ltac:(constructor)) as H.
  destruct (word_items _ _ _) as [items|]; [|by rewrite H].
  destruct H as ([fields b] & -> & Hf & Hb & Hr). cbn [mbind option_bind]. cbn [fst snd] in *.
  destruct (finish_field_spec fields b [] Hb Hf) as (Hfin & Hf' & _ & Hopen).
  destruct (finish_field fields b) as [fields' b']. cbn [fst snd] in *. eexists. split; [done|]. split.
  - specialize (Hr []). rewrite app_nil_r in Hr. cbn in Hr. rewrite <- Hr. rewrite Hopen in Hfin. cbn in Hfin.
    rewrite !app_nil_r in Hfin. rewrite <- Hfin. clear. induction fields' as [|[v s] l IH]; [done|]. cbn. by f_equal.
  - apply list.Forall_forall. intros f (field & -> & Hin)%list_elem_of_fmap.
    destruct field as [v s]. cbn. split; [done|]. by apply (proj1 (list.Forall_forall _ _) Hf' (v, s)).
Qed.
