(* ===== verification/Glob.v ===== *)
(** * Glob: pathname expansion

    [glob.rs] on a Unix target, where a native unit is a byte and an [OsString] is
    its bytes.  [Path::components] and [PathBuf::push] are those of the standard
    library; the file system is a record of functions. *)

From S2P Require Import Prelude Text Syntax Expand.

Definition MAX_PATHNAME_EXPANSION_MATCHES : Z := 4096.
Definition MAX_PATHNAME_EXPANSION_ENTRIES : Z := 65536.
Definition MAX_PATHNAME_PATTERN_UNITS : Z := 32768.

Inductive PathnameExpansionErrorKind : Type := InvalidPattern | NoMatches | ResourceLimit | Filesystem.

Record PathnameExpansionError : Type := mkGlobError {
  pe_kind : PathnameExpansionErrorKind; pe_message : str; pe_span : SourceSpan }.

(** ** The standard library's paths *)

Abbreviation OsString := bytes (only parsing).

Definition is_separator (unit_ : Z) : bool := unit_ =? 47.

Inductive Component : Type := CPrefix (value : OsString) | CRootDir | CCurDir | CParentDir | CNormal (value : OsString).

Definition as_os_str (c : Component) : OsString :=
  match c with
  | CPrefix value | CNormal value => value
  | CRootDir => [47]
  | CCurDir => [46]
  | CParentDir => [46; 46]
  end.

Definition has_root (path : OsString) : bool := starts_with 47 path.

Definition piece_component (piece : bytes) : option Component :=
  if bool_decide (piece = []) || bool_decide (piece = [46]) then None
  else if bool_decide (piece = [46; 46]) then Some CParentDir
  else Some (CNormal piece).

(** Repeated separators and inner [.] are dropped; a leading [.] is kept. *)
Definition components (path : OsString) : list Component :=
  let pieces := split 47 path in
  (if has_root path then [CRootDir]
   else if bool_decide (head pieces = Some [46]) then [CCurDir] else [])
  ++ omap piece_component pieces.

Definition push (path value : OsString) : OsString :=
  if has_root value then value
  else if bool_decide (path = []) || ends_with 47 path then path ++ value
  else path ++ [47] ++ value.

(** ** Patterns *)

Inductive PatternToken : Type :=
| TLiteral (u : Z)
| TAnyOne
| TAnySequence
| TClass (negated : bool) (ranges : list (Z * Z)).

(** [unreachable!] on a sequence: the table below never asks. *)
Definition matches (token : PatternToken) (candidate : Z) : bool :=
  match token with
  | TLiteral expected => expected =? candidate
  | TAnyOne => true
  | TAnySequence => false
  | TClass negated ranges =>
      let contained := existsb (fun '(start, end_) => (start <=? candidate) && (candidate <=? end_)) ranges in
      negb (eqb contained negated)
  end.

(** One row of the table: [next] from [states]. *)
Fixpoint sequence_row (reachable : bool) (states : list bool) : list bool :=
  match states with
  | [] => []
  | state :: states => let reachable := reachable || state in reachable :: sequence_row reachable states
  end.

Fixpoint single_row (token : PatternToken) (candidate : bytes) (states : list bool) : list bool :=
  match candidate, states with
  | unit_ :: candidate, state :: states => (state && matches token unit_) :: single_row token candidate states
  | _, _ => []
  end.

Definition next_row (candidate : bytes) (states : list bool) (token : PatternToken) : list bool :=
  match token with
  | TAnySequence => sequence_row false states
  | _ => false :: single_row token candidate states
  end.

Definition matches_component (pattern : list PatternToken) (candidate : bytes) : bool :=
  if bool_decide (head candidate = Some 46)
     && negb match pattern with TLiteral unit_ :: _ => unit_ =? 46 | _ => false end
  then false
  else
    let states := foldl (next_row candidate) (true :: replicate (length candidate) false) pattern in
    default false (states !! length candidate).

Definition is_pattern_operator (unit_ : Z) : bool :=
  (unit_ =? 42) || (unit_ =? 63) || (unit_ =? 91) || (unit_ =? 93).

Definition contains_pattern_introducer (value : OsString) : bool :=
  existsb (fun unit_ => (unit_ =? 42) || (unit_ =? 63) || (unit_ =? 91)) value.

Definition has_active_pattern_introducer (segments : list PathnameSegment) : bool :=
  existsb (fun s => ps_active s && contains_pattern_introducer (ps_value s)) segments.

Definition contains_active_prefix_operator (units : bytes) (active : list bool) : bool :=
  existsb (fun '(unit_, active) => active && is_pattern_operator unit_) (zip units active).

(** A component is its units, each with its flag; [rest] starts after the cursor.
    The ranges of a class, whose content ends before the closing bracket. *)
Fixpoint class_ranges (fuel : nat) (content : list (Z * bool)) : result str (list (Z * Z)) :=
  match fuel, content with
  | S fuel, (start, _) :: (dash, active) :: (end_, a) :: rest =>
      if active && (dash =? 45) then
        if end_ <? start then Err (L "pathname pattern contains a descending character range")
        else ranges ← class_ranges fuel rest; Ok ((start, end_) :: ranges)
      else
        ranges ← class_ranges fuel ((dash, active) :: (end_, a) :: rest);
        Ok ((start, start) :: ranges)
  | S fuel, (unit_, _) :: rest => ranges ← class_ranges fuel rest; Ok ((unit_, unit_) :: ranges)
  | _, _ => Ok []
  end.

(** The content up to the first active closing bracket, and what follows it. *)
Fixpoint find_closing (units : list (Z * bool)) : option (list (Z * bool) * list (Z * bool)) :=
  match units with
  | [] => None
  | (unit_, active) :: units =>
      if active && (unit_ =? 93) then Some ([], units)
      else '(content, rest) ← find_closing units; Some ((unit_, active) :: content, rest)
  end.

(** [units] follows the opening bracket. *)
Definition compile_class (units : list (Z * bool)) : result str (PatternToken * list (Z * bool)) :=
  let negated := match units with (unit_, active) :: _ => active && ((unit_ =? 33) || (unit_ =? 94)) | [] => false end in
  let content_start := if negated then tail units else units in
  '(content, rest) ← ok_or (find_closing content_start)
    (L "pathname pattern contains an unterminated '[' class");
  if bool_decide (content = []) then Err (L "pathname pattern contains an empty character class")
  else
    ranges ← class_ranges (length content) content;
    Ok (TClass negated ranges, rest).

(** The tokens are pushed at the end; here the last one is the head. *)
Fixpoint compile_loop (fuel : nat) (units : list (Z * bool)) (tokens : list PatternToken) (has_pattern : bool)
    : result str (list PatternToken * bool) :=
  match fuel, units with
  | S fuel, (unit_, active) :: rest =>
      if active && (unit_ =? 42) then
        compile_loop fuel rest
          match tokens with TAnySequence :: _ => tokens | _ => TAnySequence :: tokens end true
      else if active && (unit_ =? 63) then compile_loop fuel rest (TAnyOne :: tokens) true
      else if active && (unit_ =? 91) then
        '(class, next) ← compile_class rest;
        compile_loop fuel next (class :: tokens) true
      else compile_loop fuel rest (TLiteral unit_ :: tokens) has_pattern
  | _, _ => Ok (rev tokens, has_pattern)
  end.

Definition compile_component (units : bytes) (active : list bool) : result str (option (list PatternToken)) :=
  '(tokens, has_pattern) ← compile_loop (length units) (zip units active) [] false;
  Ok (if (has_pattern : bool) then Some tokens else None).

(** ** Path patterns *)

Inductive PathPatternComponent : Type :=
| PPrefix (value : OsString)
| PRoot (value : OsString)
| PCurDir (value : OsString)
| PParentDir (value : OsString)
| PNormal (value : OsString) (pattern : option (list PatternToken)).

Record CompiledPathPattern : Type := mkCompiled {
  cp_components : list PathPatternComponent; cp_has_pattern : bool; cp_requires_directory : bool }.

Record GlobCandidate : Type := mkGlob { gc_lookup : OsString; gc_argument : OsString }.

Record PathnameExpansionBudget : Type := mkGlobBudget {
  gb_pattern_units : Z; gb_inspected_entries : Z; gb_matches : Z }.

Definition flatten_segments (segments : list PathnameSegment) : bytes * list bool :=
  (segments ≫= ps_value, segments ≫= fun s => replicate (length (ps_value s)) (ps_active s)).

(** [windows(..).position(..)]. *)
Fixpoint position_of (needle haystack : bytes) : option nat :=
  if (length haystack <? length needle)%nat then None
  else if bool_decide (take (length needle) haystack = needle) then Some O
  else match haystack with
       | [] => None
       | _ :: haystack => S <$> position_of needle haystack
       end.

Definition find_subslice (haystack : bytes) (start : nat) (needle : bytes) : option nat :=
  if bool_decide (needle = []) then Some start
  else if (length haystack <? start)%nat then None
  else (fun offset => (start + offset)%nat) <$> position_of needle (drop start haystack).

Fixpoint position_separator (path : bytes) : option nat :=
  match path with
  | [] => None
  | unit_ :: path => if is_separator unit_ then Some O else S <$> position_separator path
  end.

(** The range's ends. *)
Definition locate_component (path : bytes) (cursor : nat) (component : bytes) (kind : Component)
    : option (nat * nat) :=
  match kind with
  | CRootDir =>
      (fun start => (start + cursor, start + cursor + 1)%nat) <$> position_separator (drop cursor path)
  | _ =>
      (fun start => (start, start + length component)%nat) <$> find_subslice path cursor component
  end.

(** [&active[range]]. *)
Definition slice {A} (range : nat * nat) (l : list A) : list A := take (range.2 - range.1) (drop range.1 l).

Definition compile_one (span : SourceSpan) (component : Component) (component_units : bytes)
    (component_active : list bool) : result PathnameExpansionError PathPatternComponent :=
  match component with
  | CPrefix value =>
      if contains_active_prefix_operator component_units component_active
      then Err (mkGlobError InvalidPattern
                  (L "pathname operators are not allowed in a platform path prefix") span)
      else Ok (PPrefix value)
  | CRootDir => Ok (PRoot (as_os_str component))
  | CCurDir => Ok (PCurDir (as_os_str component))
  | CParentDir => Ok (PParentDir (as_os_str component))
  | CNormal value =>
      pattern ← map_err (fun message => mkGlobError InvalidPattern message span)
        (compile_component component_units component_active);
      Ok (PNormal value pattern)
  end.

Definition is_pattern (component : PathPatternComponent) : bool :=
  match component with PNormal _ (Some _) => true | _ => false end.

Fixpoint compile_components (span : SourceSpan) (units : bytes) (active : list bool) (cursor : nat)
    (cs : list Component) : result PathnameExpansionError (list PathPatternComponent) :=
  match cs with
  | [] => Ok []
  | component :: cs =>
      let component_units := as_os_str component in
      range ← ok_or (locate_component units cursor component_units component)
        (mkGlobError InvalidPattern
           (L "pathname pattern could not be mapped to native path components") span);
      compiled ← compile_one span component component_units (slice range active);
      rest ← compile_components span units active range.2 cs;
      Ok (compiled :: rest)
  end.

(** The budget is returned with the result: it is charged before anything can fail. *)
Definition compile_path_pattern (word : ExpandedWord) (budget : PathnameExpansionBudget)
    : result PathnameExpansionError CompiledPathPattern * PathnameExpansionBudget :=
  let pattern_units :=
    foldl (fun total s => saturating_add usize_max total (len (ps_value s))) 0 (ew_pathname_segments word) in
  let budget := mkGlobBudget (saturating_add usize_max (gb_pattern_units budget) pattern_units)
                  (gb_inspected_entries budget) (gb_matches budget) in
  (if MAX_PATHNAME_PATTERN_UNITS <? gb_pattern_units budget
   then Err (mkGlobError ResourceLimit
               (L "pathname expansion retained more than 32768 active pattern units") (ew_span word))
   else
     let '(units, active) := flatten_segments (ew_pathname_segments word) in
     cs ← compile_components (ew_span word) units active 0 (components (ew_value word));
     Ok (mkCompiled cs (existsb is_pattern cs)
           match rev units with unit_ :: _ => is_separator unit_ | [] => false end),
   budget).

(** ** Expansion *)

Inductive IoErrorKind : Type := NotFound | NotADirectory | OtherIo.
Record IoError : Type := mkIoError { io_kind : IoErrorKind; io_text : str }.

(** [read_dir], [metadata] and [symlink_metadata]; the latter two say whether the path
    is a directory. *)
Record FileSystem : Type := mkFs {
  fs_read_dir : OsString -> result IoError (list (result IoError OsString));
  fs_metadata : OsString -> result IoError bool;
  fs_symlink_metadata : OsString -> result IoError bool;
}.

Definition filesystem_error (e : IoError) (span : SourceSpan) : PathnameExpansionError :=
  mkGlobError Filesystem (L "pathname expansion could not read the filesystem: " ++ io_text e) span.

Definition skips (e : IoError) : bool := match io_kind e with NotFound | NotADirectory => true | OtherIo => false end.

Section Expansion.
Context (fs : FileSystem) (span : SourceSpan).

(** The entries of a directory. *)
Fixpoint entries_loop (pattern : list PatternToken) (candidate : GlobCandidate)
    (entries : list (result IoError OsString)) (budget : PathnameExpansionBudget)
    : result PathnameExpansionError (list GlobCandidate) * PathnameExpansionBudget :=
  match entries with
  | [] => (Ok [], budget)
  | entry :: entries =>
      let budget := mkGlobBudget (gb_pattern_units budget)
                      (saturating_add usize_max (gb_inspected_entries budget) 1) (gb_matches budget) in
      if MAX_PATHNAME_EXPANSION_ENTRIES <? gb_inspected_entries budget
      then (Err (mkGlobError ResourceLimit
                   (L "pathname expansion inspected more than 65536 directory entries") span), budget)
      else
        match entry with
        | Err e => (Err (filesystem_error e span), budget)
        | Ok file_name =>
            if negb (matches_component pattern file_name)
            then entries_loop pattern candidate entries budget
            else
              let budget := mkGlobBudget (gb_pattern_units budget) (gb_inspected_entries budget)
                              (saturating_add usize_max (gb_matches budget) 1) in
              if MAX_PATHNAME_EXPANSION_MATCHES <? gb_matches budget
              then (Err (mkGlobError ResourceLimit
                      (L "pathname expansion produced more than 4096 intermediate or final matches") span),
                    budget)
              else
                let found := mkGlob (push (gc_lookup candidate) file_name)
                               (push (gc_argument candidate) file_name) in
                let '(rest, budget) := entries_loop pattern candidate entries budget in
                (cons found <$> rest, budget)
        end
  end.

Fixpoint candidates_loop (pattern : list PatternToken) (candidates : list GlobCandidate)
    (budget : PathnameExpansionBudget)
    : result PathnameExpansionError (list GlobCandidate) * PathnameExpansionBudget :=
  match candidates with
  | [] => (Ok [], budget)
  | candidate :: candidates =>
      match fs_read_dir fs (gc_lookup candidate) with
      | Err e =>
          if skips e then candidates_loop pattern candidates budget
          else (Err (filesystem_error e span), budget)
      | Ok entries =>
          match entries_loop pattern candidate entries budget with
          | (Err e, budget) => (Err e, budget)
          | (Ok found, budget) =>
              let '(rest, budget) := candidates_loop pattern candidates budget in
              (app found <$> rest, budget)
          end
      end
  end.

Definition push_value (value : OsString) (candidate : GlobCandidate) : GlobCandidate :=
  mkGlob (push (gc_lookup candidate) value) (push (gc_argument candidate) value).

Fixpoint walk (cs : list PathPatternComponent) (candidates : list GlobCandidate)
    (budget : PathnameExpansionBudget)
    : result PathnameExpansionError (list GlobCandidate) * PathnameExpansionBudget :=
  match cs with
  | [] => (Ok candidates, budget)
  | PPrefix value :: cs | PRoot value :: cs | PCurDir value :: cs | PParentDir value :: cs
  | PNormal value None :: cs => walk cs (push_value value <$> candidates) budget
  | PNormal _ (Some pattern) :: cs =>
      match candidates_loop pattern candidates budget with
      | (Err e, budget) => (Err e, budget)
      | (Ok candidates, budget) => walk cs candidates budget
      end
  end.

(** The candidates that exist, and are directories when the pattern ends with a
    separator. *)
Fixpoint existing (requires_directory : bool) (candidates : list GlobCandidate)
    : result PathnameExpansionError (list OsString) :=
  match candidates with
  | [] => Ok []
  | candidate :: candidates =>
      match (if requires_directory then fs_metadata fs (gc_lookup candidate)
             else fs_symlink_metadata fs (gc_lookup candidate)) with
      | Err e => if skips e then existing requires_directory candidates else Err (filesystem_error e span)
      | Ok is_dir =>
          if requires_directory && negb is_dir then existing requires_directory candidates
          else cons (gc_argument candidate) <$> existing requires_directory candidates
      end
  end.

(** [sort_by] and [dedup]; [compare_native] is the order of the units. *)
Fixpoint compare_native (a b : OsString) : comparison :=
  match a, b with
  | [], [] => Eq
  | [], _ => Lt
  | _, [] => Gt
  | x :: a, y :: b => match x ?= y with Eq => compare_native a b | c => c end
  end.

Fixpoint insert_sorted (x : OsString) (l : list OsString) : list OsString :=
  match l with
  | [] => [x]
  | y :: l => match compare_native x y with Gt => y :: insert_sorted x l | _ => x :: y :: l end
  end.

Definition sort_native (l : list OsString) : list OsString := foldr insert_sorted [] l.

Fixpoint dedup (l : list OsString) : list OsString :=
  match l with
  | [] => []
  | x :: l => match dedup l with
              | (y :: _) as rest => if bool_decide (x = y) then rest else x :: rest
              | [] => [x]
              end
  end.
End Expansion.

Definition expand_pathname (fs : FileSystem) (word : ExpandedWord) (cwd : OsString)
    (budget : PathnameExpansionBudget)
    : result PathnameExpansionError (list ExpandedWord) * PathnameExpansionBudget :=
  if negb (has_active_pattern_introducer (ew_pathname_segments word)) then (Ok [word], budget)
  else
    match compile_path_pattern word budget with
    | (Err e, budget) => (Err e, budget)
    | (Ok compiled, budget) =>
        if negb (cp_has_pattern compiled) then (Ok [word], budget)
        else
          let span := ew_span word in
          let start := mkGlob (if has_root (ew_value word) then [] else cwd) [] in
          match walk fs span (cp_components compiled) [start] budget with
          | (Err e, budget) => (Err e, budget)
          | (Ok candidates, budget) =>
              (matches ← existing fs span (cp_requires_directory compiled) candidates;
               if bool_decide (matches = [])
               then Err (mkGlobError NoMatches (L "pathname pattern matched no paths") span)
               else Ok ((fun path => from_pathname path span) <$> dedup (sort_native matches)),
               budget)
          end
    end.

Fixpoint expand_pathnames_with_budget (fs : FileSystem) (words : list ExpandedWord) (cwd : OsString)
    (budget : PathnameExpansionBudget)
    : result PathnameExpansionError (list ExpandedWord) * PathnameExpansionBudget :=
  match words with
  | [] => (Ok [], budget)
  | word :: words =>
      match expand_pathname fs word cwd budget with
      | (Err e, budget) => (Err e, budget)
      | (Ok expanded, budget) =>
          let '(rest, budget) := expand_pathnames_with_budget fs words cwd budget in
          (app expanded <$> rest, budget)
      end
  end.

(** ** Patterns and the paths they reach

    The table of [matches_component] decides the language of a pattern; the search
    for a component finds it where the path has it, so a unit is an operator of its
    component exactly when it is an unquoted one; the walk reaches the paths that a
    relation on the file system gives. *)

(** ** The language of a pattern *)

Inductive Matches : list PatternToken -> bytes -> Prop :=
| matches_nil : Matches [] []
| matches_unit token unit_ pattern candidate :
    token <> TAnySequence -> matches token unit_ = true -> Matches pattern candidate ->
    Matches (token :: pattern) (unit_ :: candidate)
| matches_sequence any pattern candidate :
    Matches pattern candidate -> Matches (TAnySequence :: pattern) (any ++ candidate).

(** A name that starts with a dot is matched by a literal dot only. *)
Definition visible_to (pattern : list PatternToken) (name : bytes) : Prop :=
  head name = Some 46 -> head pattern = Some (TLiteral 46).

Lemma Matches_app pattern pattern' candidate :
  Matches (pattern ++ pattern') candidate
  <-> exists c c', candidate = c ++ c' /\ Matches pattern c /\ Matches pattern' c'.
Proof.
  split.
  - revert candidate. induction pattern as [|token pattern IH]; intros candidate H.
    + exists [], candidate. repeat split; [constructor|done].
    + inversion H as [|? unit_ ? c1 Hne Hm Hrest|any ? c1 Hrest]; subst;
        apply IH in Hrest as (c & c' & -> & Hc & Hc').
      * exists (unit_ :: c), c'. repeat split; [|done]. by constructor.
      * exists (any ++ c), c'. rewrite app_assoc. repeat split; [|done]. by constructor.
  - intros (c & c' & -> & Hc & Hc'). induction Hc as [| |any pattern c Hc IH]; [done|by constructor|].
    rewrite <- app_assoc. cbn [app]. by constructor.
Qed.

Lemma Matches_nil candidate : Matches [] candidate <-> candidate = [].
Proof. split; [by inversion 1|intros ->; constructor]. Qed.

Lemma Matches_sequence candidate : Matches [TAnySequence] candidate.
Proof. rewrite <- (app_nil_r candidate). repeat constructor. Qed.

Lemma Matches_single token candidate :
  token <> TAnySequence -> Matches [token] candidate <-> exists unit_, candidate = [unit_] /\ matches token unit_ = true.
Proof.
  intros Ht. split.
  - inversion 1 as [|? unit_ ? ? _ Hm Hn|]; subst; [|done]. inversion Hn; subst. by exists unit_.
  - intros (unit_ & -> & H). by repeat constructor.
Qed.

(** ** The table

    After the tokens of [pattern] the row says which prefixes they match. *)
Definition row_of (pattern : list PatternToken) (candidate : bytes) (states : list bool) : Prop :=
  length states = S (length candidate)
  /\ forall i, states !! i = Some true <-> (i <= length candidate)%nat /\ Matches pattern (take i candidate).

Lemma length_sequence_row states : forall reachable, length (sequence_row reachable states) = length states.
Proof. induction states as [|s states IH]; intros r; cbn; [done|]. by rewrite IH. Qed.

Lemma lookup_sequence_row states : forall reachable i,
  sequence_row reachable states !! i = Some true
  <-> (i < length states)%nat /\ (reachable = true \/ exists j, (j <= i)%nat /\ states !! j = Some true).
Proof.
  induction states as [|s states IH]; intros reachable i; cbn; [split; [done|lia]|].
  destruct i as [|i]; cbn.
  - split.
    + intros [=H]. split; [lia|]. apply orb_true_iff in H as [->| ->]; [by left|right; by exists O].
    + intros [_ [->|([|j] & Hj & E)]]; [done| |lia]. injection E as ->. by rewrite orb_true_r.
  - rewrite IH. split.
    + intros [Hi [H|(j & Hj & E)]]; (split; [lia|]).
      * apply orb_true_iff in H as [->| ->]; [by left|right; exists O; split; [lia|done]].
      * right. exists (S j). split; [lia|done].
    + intros [Hi [->|([|j] & Hj & E)]]; (split; [lia|]); [by left| |].
      * left. injection E as ->. by rewrite orb_true_r.
      * right. exists j. split; [lia|done].
Qed.

Lemma length_single_row token candidate : forall states,
  length states = S (length candidate) -> length (single_row token candidate states) = length candidate.
Proof. induction candidate as [|u c IH]; intros [|s states] H; cbn in *; try lia. rewrite IH; lia. Qed.

Lemma lookup_single_row token candidate : forall states i,
  length states = S (length candidate) ->
  single_row token candidate states !! i = Some true
  <-> states !! i = Some true /\ exists unit_, candidate !! i = Some unit_ /\ matches token unit_ = true.
Proof.
  induction candidate as [|u c IH]; intros [|s states] i H; cbn in H; try lia.
  - cbn. split; [done|]. by intros (_ & ? & ? & _).
  - cbn. destruct i as [|i]; cbn; [|apply IH; lia].
    split; [intros [=E%andb_true_iff]; naive_solver|]. by intros ([= ->] & ? & [= ->] & ->).
Qed.

Lemma next_row_spec pattern candidate states token :
  row_of pattern candidate states -> row_of (pattern ++ [token]) candidate (next_row candidate states token).
Proof.
  intros [Hl Hs].
  assert (token = TAnySequence \/ token <> TAnySequence) as [->|Ht] by (destruct token; naive_solver).
  - cbn [next_row]. split; [by rewrite length_sequence_row|]. intros i. rewrite lookup_sequence_row, Hl, Matches_app.
    split.
    + intros [Hi [|(j & Hj & (_ & Hm)%Hs)]]; [done|]. split; [lia|].
      exists (take j candidate), (drop j (take i candidate)). split; [|split; [done|apply Matches_sequence]].
      rewrite <- (take_drop j (take i candidate)) at 1. rewrite take_take. by rewrite Nat.min_l.
    + intros [Hi (c & c' & E & Hm & _)]. split; [lia|]. right. exists (length c).
      assert (length (take i candidate) = length (c ++ c')) as El by (by rewrite E).
      rewrite length_take_le, length_app in El by done. split; [lia|]. apply Hs. split; [lia|].
      replace (take (length c) candidate) with c; [done|].
      rewrite <- (Nat.min_l (length c) i), <- take_take, E by lia. by rewrite take_app_length.
  - replace (next_row candidate states token) with (false :: single_row token candidate states) by (by destruct token).
    split; [cbn; by rewrite length_single_row|]. intros i. rewrite Matches_app.
    setoid_rewrite Matches_single; [|done]. destruct i as [|i]; cbn [lookup list_lookup].
    + split; [done|]. intros (_ & c & c' & E & _ & u & -> & _). cbn in E. by destruct c.
    + rewrite lookup_single_row, Hs by done. split.
      * intros ((Hi & Hm) & u & Hu & Hmu). pose proof (lookup_lt_Some _ _ _ Hu). split; [lia|].
        exists (take i candidate), [u]. split; [by apply take_S_r|]. split; [done|by exists u].
      * intros (Hi & c & c' & E & Hm & u & -> & Hmu).
        assert (length (take (S i) candidate) = length (c ++ [u])) as El by (by rewrite E).
        rewrite length_take_le, length_app in El by lia. cbn in El.
        assert (length c = i) as Hc by lia. assert (take i candidate = c) as Et.
        { rewrite <- (Nat.min_l i (S i)), <- take_take, E by lia. subst i. by rewrite take_app_length. }
        split; [split; [lia|by rewrite Et]|]. exists u. split; [|done].
        rewrite <- (lookup_take_lt candidate (S i) i), E, <- Hc by lia. by rewrite list_lookup_middle.
Qed.

Lemma table_spec pattern : forall before candidate states,
  row_of before candidate states ->
  row_of (before ++ pattern) candidate (foldl (next_row candidate) states pattern).
Proof.
  induction pattern as [|token pattern IH]; intros before candidate states H; cbn [foldl].
  - by rewrite app_nil_r.
  - change (token :: pattern) with ([token] ++ pattern). rewrite app_assoc. apply IH. by apply next_row_spec.
Qed.

Lemma row_of_start candidate : row_of [] candidate (true :: replicate (length candidate) false).
Proof.
  split; [cbn; by rewrite length_replicate|]. intros i. rewrite Matches_nil. destruct i as [|i]; cbn.
  - split; [|done]. intros _. split; [lia|done].
  - split; [intros [E _]%lookup_replicate; done|]. intros [Hi E]. by destruct candidate; [simpl in Hi; lia|].
Qed.

Lemma matches_component_spec pattern candidate :
  matches_component pattern candidate = true <-> Matches pattern candidate /\ visible_to pattern candidate.
Proof.
  unfold matches_component, visible_to.
  assert (match pattern with TLiteral unit_ :: _ => unit_ =? 46 | _ => false end = true
          <-> head pattern = Some (TLiteral 46)) as Hd.
  { destruct pattern as [|[u| | |] pattern]; cbn; try (split; [done|by intros [=]]).
    rewrite Z.eqb_eq. split; [by intros ->|by intros [= ->]]. }
  destruct (table_spec pattern [] candidate _ (row_of_start candidate)) as [Hl Hs]. cbn [app] in *.
  set (states := foldl _ _ _) in *.
  assert (default false (states !! length candidate) = true <-> Matches pattern candidate) as Ht.
  { specialize (Hs (length candidate)). rewrite firstn_all in Hs.
    destruct (lookup_lt_is_Some_2 states (length candidate)) as [b Hb]; [lia|]. rewrite Hb in *. cbn.
    destruct b; naive_solver. }
  rewrite <- Hd. case_bool_decide as Hh; cbn [andb].
  - destruct (match pattern with TLiteral unit_ :: _ => unit_ =? 46 | _ => false end); cbn [negb].
    + rewrite Ht. naive_solver.
    + split; [done|]. intros [_ H]. by specialize (H Hh).
  - rewrite Ht. naive_solver.
Qed.

(** ** Components and their flags

    The path cut at its separators, each unit with its flag. *)

Fixpoint split_units (units : list (Z * bool)) : list (list (Z * bool)) :=
  match units with
  | [] => [[]]
  | u :: units =>
      match split_units units with
      | [] => [[u]]
      | w :: ws => if is_separator u.1 then [] :: w :: ws else (u :: w) :: ws
      end
  end.

(** A piece compiled with its own flags. *)
Definition piece_pattern (span : SourceSpan) (piece : list (Z * bool))
    : option (result PathnameExpansionError PathPatternComponent) :=
  (fun c => compile_one span c (as_os_str c) piece.*2) <$> piece_component piece.*1.

(** What comes before the first piece that counts. *)
Definition leading_pattern (units : list (Z * bool)) : list PathPatternComponent :=
  if has_root units.*1 then [PRoot [47]]
  else if bool_decide (head (split 47 units.*1) = Some [46]) then [PCurDir [46]] else [].

Definition path_pattern (span : SourceSpan) (units : list (Z * bool))
    : result PathnameExpansionError (list PathPatternComponent) :=
  app (leading_pattern units) <$> mapM id (omap (piece_pattern span) (split_units units)).

(** What the search passes over: separators and single dots. *)
Inductive skipped : bytes -> Prop :=
| skipped_nil : skipped []
| skipped_separator l : skipped l -> skipped (47 :: l)
| skipped_dot l : skipped l -> skipped (46 :: 47 :: l).

Lemma skipped_app l k : skipped l -> skipped k -> skipped (l ++ k).
Proof. induction 1; intros; cbn; [done|constructor; auto..]. Qed.

Lemma position_of_step c l w :
  (length w <= S (length l))%nat -> take (length w) (c :: l) <> w ->
  position_of w (c :: l) = S <$> position_of w l.
Proof.
  intros Hl Ht. cbn [position_of]. rewrite (proj2 (Nat.ltb_ge _ _)) by done. by rewrite bool_decide_eq_false_2.
Qed.

Lemma position_of_here w rest : position_of w (w ++ rest) = Some O.
Proof.
  assert ((length (w ++ rest) <? length w)%nat = false) as Hl by (apply Nat.ltb_ge; rewrite length_app; lia).
  destruct (w ++ rest) as [|c l] eqn:E; cbn [position_of]; rewrite Hl;
    by rewrite <- E, take_app_length, bool_decide_eq_true_2.
Qed.

Lemma position_of_skipped mid w rest :
  skipped mid -> contains 47 w = false -> w <> [] -> w <> [46] ->
  position_of w (mid ++ w ++ rest) = Some (length mid).
Proof.
  intros Hm Hw Hn Hd.
  assert (forall l, take (length w) (47 :: l) <> w) as Hslash.
  { intros l. destruct w as [|c w]; [done|]. cbn. intros [= <- _]. by cbn in Hw. }
  assert (forall l, take (length w) (46 :: 47 :: l) <> w) as Hdot.
  { intros l. destruct w as [|c [|d w]]; [done|by cbn; intros [= <-]|]. cbn. intros [= <- <- _]. by cbn in Hw. }
  induction Hm as [|l _ IH|l _ IH]; cbn [app length]; [apply position_of_here|..].
  - rewrite position_of_step, IH; [done|rewrite !length_app; lia|apply Hslash].
  - rewrite position_of_step, position_of_step, IH; try done; simpl; rewrite !length_app; lia.
Qed.

Lemma slice_middle {A} (a b c : list A) : slice (length a, (length a + length b)%nat) (a ++ b ++ c) = b.
Proof. unfold slice. cbn [fst snd]. rewrite drop_app_length. replace (_ - _)%nat with (length b) by lia. apply take_app_length. Qed.

Lemma split_units_nonempty units : split_units units <> [].
Proof. destruct units as [|u l]; [done|]. cbn. destruct (split_units l); [done|]. by destruct (is_separator _). Qed.

(** The last piece, or a piece, a separator and the rest. *)
Lemma split_units_cases units :
  (contains 47 units.*1 = false /\ split_units units = [units])
  \/ exists w sep rest, units = w ++ sep :: rest /\ sep.1 = 47 /\ contains 47 w.*1 = false
       /\ split_units units = w :: split_units rest.
Proof.
  induction units as [|u units IH]; [by left|]. cbn [split_units fmap list_fmap].
  unfold is_separator. destruct (Z.eqb_spec u.1 47) as [E|E].
  - right. exists [], u, units. repeat split; [done|]. pose proof (split_units_nonempty units). by destruct (split_units units).
  - destruct IH as [[Hc ->]|(w & sep & rest & -> & Hs & Hw & ->)].
    + left. split; [|done]. cbn. rewrite Hc. by rewrite (proj2 (Z.eqb_neq u.1 47)).
    + right. exists (u :: w), sep, rest. split; [done|]. split; [done|]. split; [|done].
      cbn. rewrite Hw. by rewrite (proj2 (Z.eqb_neq u.1 47)).
Qed.

Lemma split_fst_units units : split 47 units.*1 = (fun piece => piece.*1) <$> split_units units.
Proof.
  induction units as [|u units IH]; [done|]. cbn [fmap list_fmap split split_units]. rewrite IH.
  destruct (split_units units) as [|w ws]; [done|]. cbn [fmap list_fmap]. unfold is_separator.
  by destruct (u.1 =? 47).
Qed.

Lemma piece_component_cases w :
  (piece_component w = None /\ (w = [] \/ w = [46]))
  \/ (exists c, piece_component w = Some c /\ as_os_str c = w /\ c <> CRootDir /\ w <> [] /\ w <> [46]).
Proof.
  unfold piece_component. repeat case_bool_decide; cbn; naive_solver.
Qed.

(** The search from the last component's end finds the next one. *)
Lemma compile_piece span pre mid w rest c cs :
  skipped mid.*1 -> contains 47 w.*1 = false -> piece_component w.*1 = Some c ->
  let us := pre ++ mid ++ w ++ rest in
  compile_components span us.*1 us.*2 (length pre) (c :: cs)
  = (x ← compile_one span c (as_os_str c) w.*2;
     k ← compile_components span us.*1 us.*2 (length (pre ++ mid ++ w)) cs; Ok (x :: k)).
Proof.
  intros Hm Hw Hc us. destruct (piece_component_cases w.*1) as [[E _]|(c' & E & Ho & Hr & Hn & Hd)]; [congruence|].
  assert (c' = c) as -> by congruence. cbn [compile_components].
  assert (locate_component us.*1 (length pre) (as_os_str c) c
    = Some (length (pre ++ mid), (length (pre ++ mid) + length w)%nat)) as ->.
  { replace (locate_component us.*1 (length pre) (as_os_str c) c) with
      ((fun start => (start, (start + length (as_os_str c))%nat)) <$> find_subslice us.*1 (length pre) (as_os_str c))
      by (by destruct c).
    rewrite Ho. unfold find_subslice. rewrite bool_decide_eq_false_2 by done.
    unfold us. rewrite !fmap_app. rewrite (proj2 (Nat.ltb_ge _ _)) by (rewrite length_app, length_fmap; lia).
    rewrite <- (length_fmap fst pre) at 1. rewrite drop_app_length, position_of_skipped by done.
    cbn. by rewrite ?length_app, ?length_fmap. }
  cbn [ok_or mbind result_bind snd].
  assert (slice (length (pre ++ mid), (length (pre ++ mid) + length w)%nat) us.*2 = w.*2) as ->.
  { assert (us.*2 = (pre ++ mid).*2 ++ w.*2 ++ rest.*2) as -> by (unfold us; by rewrite !fmap_app, !app_assoc).
    rewrite <- (length_fmap snd (pre ++ mid)), <- (length_fmap snd w). apply slice_middle. }
  rewrite <- length_app, <- app_assoc. done.
Qed.

Lemma compile_pieces span : forall rest pre mid,
  skipped mid.*1 ->
  let us := pre ++ mid ++ rest in
  compile_components span us.*1 us.*2 (length pre) (omap piece_component (split 47 rest.*1))
  = mapM id (omap (piece_pattern span) (split_units rest)).
Proof.
  intros rest. induction rest as [rest IH] using list_length_ind. intros pre mid Hm us.
  rewrite split_fst_units.
  destruct (split_units_cases rest) as [[Hw ->]|(w & sep & rest' & -> & Hsep & Hw & ->)].
  - cbn [fmap list_fmap omap list_omap]. unfold piece_pattern at 1.
    destruct (piece_component_cases rest.*1) as [[-> _]|(c & E & _)]; [done|]. rewrite E. cbn [fmap option_fmap option_map].
    pose proof (compile_piece span pre mid rest [] c [] Hm Hw E) as H. cbv zeta in H. rewrite app_nil_r in H.
    unfold us. rewrite H. cbn. by destruct (compile_one _ _ _ _).
  - cbn [fmap list_fmap omap list_omap].
    assert (length rest' < length (w ++ sep :: rest'))%nat as Hl by (rewrite length_app; simpl; lia).
    rewrite <- split_fst_units. unfold piece_pattern at 1.
    assert (forall u, u = [] \/ u = [46] -> skipped (u ++ [47])) as Hsk.
    { intros u [->| ->]; repeat constructor. }
    destruct (piece_component_cases w.*1) as [[-> Hs]|(c & E & _)].
    + cbn [fmap option_fmap option_map]. specialize (IH rest' Hl pre (mid ++ w ++ [sep])). unfold us.
      rewrite <- !app_assoc in IH. cbn [app] in IH. apply IH.
      rewrite !fmap_app. apply skipped_app; [done|]. cbn. rewrite Hsep. by apply Hsk.
    + rewrite E. cbn [fmap option_fmap option_map mapM]. unfold us.
      rewrite (compile_piece span pre mid w (sep :: rest') c _ Hm Hw E).
      specialize (IH rest' Hl (pre ++ mid ++ w) [sep]). rewrite <- !app_assoc in IH. cbn [app] in IH.
      cbn [id]. destruct (compile_one _ _ _ _) as [x|e]; [|done]. cbn [mbind result_bind].
      rewrite IH by (cbn; rewrite Hsep; repeat constructor). done.
Qed.

Lemma compile_lead span us c p cs :
  locate_component us.*1 0 (as_os_str c) c = Some (0, 1)%nat ->
  (forall flags, compile_one span c (as_os_str c) flags = Ok p) ->
  compile_components span us.*1 us.*2 0 (c :: cs) = cons p <$> compile_components span us.*1 us.*2 1 cs.
Proof.
  intros Hl Hc. cbn [compile_components]. rewrite Hl. cbn [ok_or mbind result_bind]. rewrite Hc.
  cbn [snd]. by destruct (compile_components _ _ _ 1 cs).
Qed.

Lemma compile_components_spec span us :
  compile_components span us.*1 us.*2 0 (components us.*1) = path_pattern span us.
Proof.
  unfold components, path_pattern, leading_pattern. destruct (has_root us.*1) eqn:Hr.
  - destruct us as [|u us]; [done|]. cbn in Hr. apply Z.eqb_eq in Hr. destruct u as [u a]. cbn in Hr. subst u.
    pose proof (compile_pieces span us [(47, a)] [] ltac:(constructor)) as H. cbv zeta in H. cbn [app] in H.
    assert (omap piece_component (split 47 ((47, a) :: us).*1) = omap piece_component (split 47 us.*1)) as ->.
    { cbn. pose proof (split_nonempty 47 us.*1). by destruct (split 47 us.*1). }
    assert (omap (piece_pattern span) (split_units ((47, a) :: us)) = omap (piece_pattern span) (split_units us)) as ->.
    { pose proof (split_units_nonempty us). cbn. by destruct (split_units us). }
    cbn [app]. rewrite (compile_lead span _ CRootDir (PRoot [47])) by done.
    change (length [(47, a)]) with 1%nat in H. rewrite H. by destruct (mapM id _).
  - case_bool_decide as Hd.
    + assert (exists a tail, us = (46, a) :: tail /\ (tail = [] \/ exists b rest, tail = (47, b) :: rest)) as (a & tl & -> & Ht).
      { rewrite split_fst_units in Hd. destruct us as [|[u a] us]; [done|].
        destruct (split_units_cases ((u, a) :: us)) as [[_ E]|(w & [s b] & rest & E' & Hs & _ & E)]; rewrite E in Hd; cbn in Hd.
        - injection Hd as -> Hu. exists a, []. destruct us; [|done]. split; [done|by left].
        - cbn in Hs. subst s. destruct w as [|[u' a'] [|]]; try done. cbn in Hd. injection Hd as ->.
          cbn in E'. injection E' as -> -> ->. eexists _, _. split; [done|]. right. by eexists _, _. }
      cbn [app]. rewrite (compile_lead span _ CCurDir (PCurDir [46])); [|by destruct tl|done].
      destruct Ht as [->|(b & rest & ->)]; [done|].
      pose proof (compile_pieces span rest [(46, a)] [(47, b)] ltac:(repeat constructor)) as H. cbv zeta in H.
      cbn [app] in H. change (length [(46, a)]) with 1%nat in H.
      assert (omap piece_component (split 47 ((46, a) :: (47, b) :: rest).*1) = omap piece_component (split 47 rest.*1)) as ->.
      { cbn. pose proof (split_nonempty 47 rest.*1). by destruct (split 47 rest.*1). }
      assert (omap (piece_pattern span) (split_units ((46, a) :: (47, b) :: rest))
        = omap (piece_pattern span) (split_units rest)) as ->.
      { pose proof (split_units_nonempty rest). cbn. by destruct (split_units rest). }
      rewrite H. by destruct (mapM id _).
    + cbn [app]. pose proof (compile_pieces span us [] [] ltac:(constructor)) as H. cbv zeta in H. cbn [app length] in H.
      rewrite H. by destruct (mapM id _).
Qed.

Lemma flatten_segments_spec segments :
  flatten_segments segments = ((segment_flags segments).*1, (segment_flags segments).*2).
Proof.
  unfold flatten_segments, segment_flags. induction segments as [|s segments IH]; [done|].
  cbn [mbind list_bind] in *. injection IH as -> ->. rewrite !fmap_app. f_equal; f_equal.
  - rewrite <- list_fmap_compose. unfold compose. cbn. by rewrite list_fmap_id.
  - rewrite <- list_fmap_compose. unfold compose. cbn. induction (ps_value s) as [|b l IHl]; [done|]. cbn. by f_equal.
Qed.

(** ** The fuel of the pattern compiler *)

Lemma find_closing_length units : forall content rest,
  find_closing units = Some (content, rest) -> (length content + length rest < length units)%nat.
Proof.
  induction units as [|[u a] units IH]; intros content rest H; [done|]. cbn [find_closing] in H.
  destruct (a && (u =? 93)); [injection H as <- <-; simpl; lia|].
  destruct (find_closing units) as [[c r]|]; [|done]. injection H as <- <-. specialize (IH c r eq_refl). simpl. lia.
Qed.

Lemma compile_class_length units token next :
  compile_class units = Ok (token, next) -> (length next < length units)%nat.
Proof.
  unfold compile_class. intros H. inv_ok. destruct x as [content rest].
  match goal with E : find_closing _ = _ |- _ => apply find_closing_length in E end.
  case_bool_decide; [done|]. inv_ok. subst. destruct (match units with [] => _ | _ => _ end), units; simpl in *; lia.
Qed.

(** As much fuel as units is enough. *)
Lemma class_ranges_fuel : forall fuel fuel' content,
  (length content <= fuel)%nat -> (length content <= fuel')%nat ->
  class_ranges fuel content = class_ranges fuel' content.
Proof.
  induction fuel as [|fuel IH]; intros [|fuel'] content Hf Hf'; try (by destruct content; [done|simpl in *; lia]).
  destruct content as [|[u a] [|[d b] [|[e c] rest]]]; cbn [class_ranges]; simpl in Hf, Hf'; [done|..].
  - by rewrite (IH fuel') by (simpl; lia).
  - by rewrite (IH fuel') by (simpl; lia).
  - by rewrite !(IH fuel') by (simpl; lia).
Qed.

Lemma compile_loop_fuel : forall fuel fuel' units tokens has_pattern,
  (length units <= fuel)%nat -> (length units <= fuel')%nat ->
  compile_loop fuel units tokens has_pattern = compile_loop fuel' units tokens has_pattern.
Proof.
  induction fuel as [|fuel IH]; intros [|fuel'] units tokens hp Hf Hf'; try (by destruct units; [done|simpl in *; lia]).
  destruct units as [|[u a] units]; [done|]. simpl in Hf, Hf'. cbn [compile_loop].
  rewrite !(IH fuel') by lia.
  destruct (compile_class units) as [[class next]|] eqn:E; [|done]. cbn [mbind result_bind].
  apply compile_class_length in E. by rewrite !(IH fuel') by lia.
Qed.

(** What was quoted is literal. *)
Lemma compile_component_quoted units active :
  Forall (fun '(u, a) => a = false \/ u <> 42 /\ u <> 63 /\ u <> 91) (zip units active) ->
  compile_component units active = Ok None.
Proof.
  intros H. unfold compile_component.
  assert (forall fuel tokens, exists tokens', compile_loop fuel (zip units active) tokens false = Ok (tokens', false)) as Hl.
  { induction (zip units active) as [|[u a] l IH]; intros [|fuel] tokens; cbn; try by eexists.
    apply list.Forall_cons in H as [Hu H].
    assert (a && (u =? 42) = false /\ a && (u =? 63) = false /\ a && (u =? 91) = false) as (-> & -> & ->)
      by (destruct Hu as [->|(?%Z.eqb_neq & ?%Z.eqb_neq & ?%Z.eqb_neq)]; [done|repeat split; apply andb_false_intro2; done]).
    by apply IH. }
  destruct (Hl (length units) []) as [tokens' ->]. done.
Qed.

(** ** The walk *)

Definition fixed_value (c : PathPatternComponent) : option OsString :=
  match c with
  | PPrefix value | PRoot value | PCurDir value | PParentDir value | PNormal value None => Some value
  | PNormal _ (Some _) => None
  end.

(** The candidates that the components lead to. *)
Inductive Reaches (fs : FileSystem) : list PathPatternComponent -> GlobCandidate -> GlobCandidate -> Prop :=
| reaches_here c : Reaches fs [] c c
| reaches_fixed component value cs c d :
    fixed_value component = Some value -> Reaches fs cs (push_value value c) d ->
    Reaches fs (component :: cs) c d
| reaches_entry value pattern cs c entries name d :
    fs_read_dir fs (gc_lookup c) = Ok entries -> Ok name ∈ entries ->
    Matches pattern name -> visible_to pattern name ->
    Reaches fs cs (push_value name c) d ->
    Reaches fs (PNormal value (Some pattern) :: cs) c d.

(** Within the limits of one command. *)
Definition budget_ok (b : PathnameExpansionBudget) : Prop :=
  gb_inspected_entries b <= MAX_PATHNAME_EXPANSION_ENTRIES /\ gb_matches b <= MAX_PATHNAME_EXPANSION_MATCHES.

Section Walk.
Context (fs : FileSystem) (span : SourceSpan).

(** What a successful step spends and finds. *)
Definition step_ok {A} (budget : PathnameExpansionBudget)
    (r : result PathnameExpansionError A * PathnameExpansionBudget) (found : A -> Prop) : Prop :=
  gb_pattern_units r.2 = gb_pattern_units budget
  /\ match r.1 with
     | Ok a => (budget_ok budget -> budget_ok r.2) /\ found a
     | Err e => pe_kind e = ResourceLimit \/ pe_kind e = Filesystem
     end.

Lemma entries_loop_spec pattern candidate entries : forall budget,
  step_ok budget (entries_loop span pattern candidate entries budget) (fun found =>
    forall d, d ∈ found <-> exists name, Ok name ∈ entries /\ Matches pattern name /\ visible_to pattern name
                                        /\ d = push_value name candidate).
Proof.
  induction entries as [|entry entries IH]; intros budget; cbn [entries_loop].
  - split; [done|]. split; [done|]. intros d. split; [by intros ?%elem_of_nil|by intros (? & ?%elem_of_nil & _)].
  - set (b1 := mkGlobBudget _ _ _). destruct (Z.ltb_spec MAX_PATHNAME_EXPANSION_ENTRIES (gb_inspected_entries b1)) as [|Hi];
      [split; [done|by left]|].
    destruct entry as [name|e]; [|split; [done|by right]].
    destruct (matches_component pattern name) eqn:Hm; cbn [negb].
    + set (b2 := mkGlobBudget _ _ (saturating_add _ _ _)).
      destruct (Z.ltb_spec MAX_PATHNAME_EXPANSION_MATCHES (gb_matches b2)) as [|Hmm]; [split; [done|by left]|].
      destruct (IH b2) as [Hu Hr]. destruct (entries_loop _ _ _ _ b2) as [[found|e] b3]; cbn [fst snd] in *; [|done].
      split; [done|]. destruct Hr as [Hb Hf]. split; [by intros _; apply Hb|]. intros d. cbn.
      apply matches_component_spec in Hm as [Hm Hv]. rewrite elem_of_cons, Hf. setoid_rewrite elem_of_cons.
      split; [intros [->|H]; naive_solver|]. intros (name' & [[= ->]|Hin] & ? & ? & ->); [by left|right; naive_solver].
    + destruct (IH b1) as [Hu Hr]. destruct (entries_loop _ _ _ _ b1) as [[found|e] b2]; cbn [fst snd] in *; [|done].
      split; [done|]. destruct Hr as [Hb Hf]. split; [intros [_ Hm']; apply Hb; by split|]. intros d.
      rewrite Hf. setoid_rewrite elem_of_cons. split; [naive_solver|].
      intros (name' & [[= ->]|Hin] & Hm' & Hv & ->); [|naive_solver].
      pose proof (proj2 (matches_component_spec pattern name) (conj Hm' Hv)). congruence.
Qed.

Lemma candidates_loop_spec pattern candidates : forall budget,
  step_ok budget (candidates_loop fs span pattern candidates budget) (fun found =>
    forall d, d ∈ found <-> exists c entries name, c ∈ candidates /\ fs_read_dir fs (gc_lookup c) = Ok entries
      /\ Ok name ∈ entries /\ Matches pattern name /\ visible_to pattern name /\ d = push_value name c).
Proof.
  induction candidates as [|c candidates IH]; intros budget; cbn [candidates_loop].
  - split; [done|]. split; [done|]. intros d. split; [by intros ?%elem_of_nil|by intros (? & ? & ? & ?%elem_of_nil & _)].
  - destruct (fs_read_dir fs (gc_lookup c)) as [entries|e] eqn:Hread.
    + destruct (entries_loop_spec pattern c entries budget) as [Hu Hr].
      destruct (entries_loop _ _ _ _ _) as [[found|e] b1]; cbn [fst snd] in *; [|done].
      destruct Hr as [Hb Hf]. destruct (IH b1) as [Hu' Hr'].
      destruct (candidates_loop _ _ _ _ b1) as [[rest|e] b2]; cbn [fst snd] in *; [|split; [cbn in *; congruence|done]].
      split; [cbn in *; congruence|]. destruct Hr' as [Hb' Hf']. split; [naive_solver|]. intros d. cbn.
      rewrite elem_of_app, Hf, Hf'. setoid_rewrite elem_of_cons. split; [naive_solver|].
      intros (c' & es & name & [->|Hin] & He & H); [left|right; naive_solver].
      assert (es = entries) as -> by congruence. by exists name.
    + destruct (skips e) eqn:Hs; [|split; [done|by right]]. destruct (IH budget) as [Hu Hr].
      destruct (candidates_loop _ _ _ _ budget) as [[rest|e'] b1]; cbn [fst snd] in *; [|done].
      split; [done|]. destruct Hr as [Hb Hf]. split; [done|]. intros d. rewrite Hf. setoid_rewrite elem_of_cons.
      split; [naive_solver|]. intros (c' & es & name & [->|Hin] & He & H); [congruence|naive_solver].
Qed.

Lemma walk_spec cs : forall candidates budget,
  step_ok budget (walk fs span cs candidates budget) (fun found =>
    forall d, d ∈ found <-> exists c, c ∈ candidates /\ Reaches fs cs c d).
Proof.
  induction cs as [|component cs IH]; intros candidates budget.
  { split; [done|]. split; [done|]. intros d. cbn. split; [intros H; exists d; split; [done|constructor]|].
    intros (c & Hc & H). by inversion H; subst. }
  destruct (fixed_value component) as [value|] eqn:Hv.
  - assert (walk fs span (component :: cs) candidates budget = walk fs span cs (push_value value <$> candidates) budget) as ->
      by (destruct component as [| | | |? []]; by simplify_eq/=).
    destruct (IH (push_value value <$> candidates) budget) as [Hu Hr]. split; [done|].
    destruct (walk _ _ _ _ _) as [[found|e] b]; cbn [fst snd] in *; [|done]. destruct Hr as [Hb Hf]. split; [done|].
    intros d. rewrite Hf. setoid_rewrite list_elem_of_fmap. split.
    + intros (? & (c & -> & Hc) & H). exists c. split; [done|by econstructor].
    + intros (c & Hc & H). exists (push_value value c). split; [by exists c|].
      inversion H; subst; [congruence|done].
  - destruct component as [| | | |value [pattern|]]; try done. cbn [walk].
    destruct (candidates_loop_spec pattern candidates budget) as [Hu Hr].
    destruct (candidates_loop _ _ _ _ _) as [[found|e] b1]; cbn [fst snd] in *; [|done].
    destruct Hr as [Hb Hf]. destruct (IH found b1) as [Hu' Hr']. split; [cbn in *; congruence|].
    destruct (walk _ _ _ _ _) as [[out|e] b2]; cbn [fst snd] in *; [|done]. destruct Hr' as [Hb' Hf'].
    split; [naive_solver|]. intros d. rewrite Hf'. setoid_rewrite Hf. split.
    + intros (? & (c & entries & name & Hc & He & Hn & Hm & Hvis & ->) & H). exists c. split; [done|].
      by eapply reaches_entry.
    + intros (c & Hc & H). inversion H; subst; [done|]. eexists. split; [|done]. by eexists _, _, _.
Qed.

(** A candidate is kept when it exists, as a directory when the pattern asks for one. *)
Definition exists_at (requires_directory : bool) (path : OsString) : Prop :=
  if requires_directory then fs_metadata fs path = Ok true
  else exists is_dir, fs_symlink_metadata fs path = Ok is_dir.

Lemma existing_spec requires_directory candidates :
  match existing fs span requires_directory candidates with
  | Ok found => forall a, a ∈ found <-> exists d, d ∈ candidates /\ gc_argument d = a
                                               /\ exists_at requires_directory (gc_lookup d)
  | Err e => pe_kind e = Filesystem
  end.
Proof.
  induction candidates as [|c candidates IH]; cbn [existing].
  { intros a. split; [by intros ?%elem_of_nil|by intros (? & ?%elem_of_nil & _)]. }
  assert (forall keep, (keep <-> exists_at requires_directory (gc_lookup c)) -> forall a (found : list OsString),
    (forall a, a ∈ found <-> exists d, d ∈ candidates /\ gc_argument d = a /\ exists_at requires_directory (gc_lookup d)) ->
    (keep /\ a = gc_argument c \/ a ∈ found) <-> exists d, d ∈ c :: candidates /\ gc_argument d = a
                                               /\ exists_at requires_directory (gc_lookup d)) as Hcons.
  { intros keep Hk a found Hf. rewrite (Hf a). setoid_rewrite elem_of_cons. rewrite Hk. naive_solver. }
  unfold exists_at in Hcons at 1. destruct requires_directory.
  - destruct (fs_metadata _ _) as [[]|e] eqn:E; cbn [andb negb].
    + destruct (existing _ _ _ _) as [found|]; [|done]. cbn. intros a. rewrite elem_of_cons, <- (Hcons True); naive_solver.
    + destruct (existing _ _ _ _) as [found|]; [|done]. intros a. rewrite <- (Hcons False); [|naive_solver|exact IH]. naive_solver.
    + destruct (skips e); [|done]. destruct (existing _ _ _ _) as [found|]; [|done]. intros a.
      rewrite <- (Hcons False); [|naive_solver|exact IH]. naive_solver.
  - destruct (fs_symlink_metadata _ _) as [b|e] eqn:E; cbn [andb].
    + destruct (existing _ _ _ _) as [found|]; [|done]. cbn. intros a. rewrite elem_of_cons, <- (Hcons True); naive_solver.
    + destruct (skips e); [|done]. destruct (existing _ _ _ _) as [found|]; [|done]. intros a.
      rewrite <- (Hcons False); [|naive_solver|exact IH]. naive_solver.
Qed.
End Walk.

(** ** Sorting *)

Definition native_lt (a b : OsString) : Prop := compare_native a b = Lt.
Definition native_le (a b : OsString) : Prop := compare_native a b <> Gt.

Lemma compare_native_eq a : forall b, compare_native a b = Eq <-> a = b.
Proof.
  induction a as [|x a IH]; intros [|y b]; cbn; try done. destruct (Z.compare_spec x y) as [->| |].
  - rewrite IH. split; [by intros ->|by intros [= ->]].
  - split; [done|]. intros [= -> _]. lia.
  - split; [done|]. intros [= -> _]. lia.
Qed.

Lemma compare_native_refl a : compare_native a a = Eq.
Proof. by apply compare_native_eq. Qed.

Lemma compare_native_antisym a : forall b, compare_native b a = CompOpp (compare_native a b).
Proof.
  induction a as [|x a IH]; intros [|y b]; cbn; try done. rewrite (Z.compare_antisym x y).
  destruct (x ?= y); cbn; [apply IH|done..].
Qed.

Lemma native_lt_trans a : forall b c, native_lt a b -> native_lt b c -> native_lt a c.
Proof.
  unfold native_lt. induction a as [|x a IH]; intros [|y b] [|z c]; cbn; try done.
  destruct (Z.compare_spec x y) as [->|Hxy|], (Z.compare_spec y z) as [->|Hyz|]; try done.
  - apply IH.
  - intros _ _. by rewrite (proj2 (Z.compare_lt_iff x z)).
  - intros _ _. by rewrite (proj2 (Z.compare_lt_iff x z)) by lia.
Qed.

Lemma native_le_cases a b : native_le a b <-> native_lt a b \/ a = b.
Proof. unfold native_le, native_lt. rewrite <- compare_native_eq. destruct (compare_native a b); naive_solver. Qed.

Lemma native_le_trans a b c : native_le a b -> native_le b c -> native_le a c.
Proof. rewrite !native_le_cases. intros [H1| ->] [H2| ->]; [left; by eapply native_lt_trans|by left|by left|by right]. Qed.

Lemma elem_of_insert_sorted x y l : y ∈ insert_sorted x l <-> y = x \/ y ∈ l.
Proof.
  induction l as [|z l IH]; cbn; [by rewrite elem_of_cons|].
  destruct (compare_native x z); rewrite !elem_of_cons, ?IH; naive_solver.
Qed.

Lemma elem_of_sort_native y l : y ∈ sort_native l <-> y ∈ l.
Proof. induction l as [|x l IH]; cbn; [done|]. by rewrite elem_of_insert_sorted, elem_of_cons, IH. Qed.

Lemma insert_sorted_sorted x l : Sorted.StronglySorted native_le l -> Sorted.StronglySorted native_le (insert_sorted x l).
Proof.
  induction 1 as [|z l Hl IH Hz]; cbn; [by repeat constructor|].
  destruct (compare_native x z) eqn:E.
  1,2: assert (native_le x z) as Hx by (unfold native_le; by rewrite E);
    constructor; [by constructor|constructor; [done|]]; eapply Forall_impl; [|exact Hz]; intros y; by apply native_le_trans.
  constructor; [done|]. apply list.Forall_forall. intros y [->|Hy]%elem_of_insert_sorted.
  - unfold native_le. rewrite compare_native_antisym, E. done.
  - by apply (proj1 (list.Forall_forall _ _) Hz).
Qed.

Lemma sort_native_sorted l : Sorted.StronglySorted native_le (sort_native l).
Proof. induction l as [|x l IH]; cbn; [constructor|]. by apply insert_sorted_sorted. Qed.

Lemma elem_of_dedup y l : y ∈ dedup l <-> y ∈ l.
Proof.
  induction l as [|x l IH]; [done|]. cbn [dedup]. rewrite (elem_of_cons l), <- IH.
  destruct (dedup l) as [|z k]; [by rewrite elem_of_cons|].
  case_bool_decide as Hx; [|by rewrite elem_of_cons].
  subst z. split; [by right|by intros [->|H]; [left|]].
Qed.

Lemma dedup_sorted l : Sorted.StronglySorted native_le l -> Sorted.StronglySorted native_lt (dedup l).
Proof.
  induction 1 as [|x l Hl IH Hx]; [constructor|]. cbn [dedup].
  destruct (dedup l) as [|z k] eqn:E; [by repeat constructor|]. case_bool_decide as Hxz; [done|].
  assert (forall y, y ∈ z :: k -> native_le x y) as Hall.
  { intros y Hy. rewrite <- E, elem_of_dedup in Hy. by apply (proj1 (list.Forall_forall _ _) Hx). }
  assert (native_lt x z) as Hlt by (destruct (proj1 (native_le_cases x z) (Hall z ltac:(by left))); congruence).
  constructor; [done|]. constructor; [done|]. inversion IH as [|? ? _ Hz]; subst.
  eapply Forall_impl; [|exact Hz]. intros y. by apply native_lt_trans.
Qed.

(** ** The whole expansion *)

(** The paths that a word's pattern names. *)
Definition named_path (fs : FileSystem) (cwd : OsString) (word : ExpandedWord) (cs : list PathPatternComponent)
    (path : OsString) : Prop :=
  exists d, Reaches fs cs (mkGlob (if has_root (ew_value word) then [] else cwd) []) d /\ gc_argument d = path
    /\ exists_at fs (match rev (ew_value word) with unit_ :: _ => is_separator unit_ | [] => false end) (gc_lookup d).

Lemma compile_path_pattern_spec word budget :
  ew_value word = (segment_flags (ew_pathname_segments word)).*1 ->
  (compile_path_pattern word budget).1
  = if MAX_PATHNAME_PATTERN_UNITS <? gb_pattern_units (compile_path_pattern word budget).2
    then Err (mkGlobError ResourceLimit
           (L "pathname expansion retained more than 32768 active pattern units") (ew_span word))
    else (fun cs => mkCompiled cs (existsb is_pattern cs)
                      match rev (ew_value word) with unit_ :: _ => is_separator unit_ | [] => false end)
         <$> path_pattern (ew_span word) (segment_flags (ew_pathname_segments word)).
Proof.
  intros Hv. unfold compile_path_pattern. cbn [fst snd gb_pattern_units].
  destruct (_ <? _); [done|]. rewrite flatten_segments_spec, Hv, compile_components_spec.
  by destruct (path_pattern _ _).
Qed.

Lemma compile_path_pattern_budget word budget :
  budget_ok budget <-> budget_ok (compile_path_pattern word budget).2.
Proof. done. Qed.

Lemma expand_pathname_spec fs word cwd budget cs :
  ew_value word = (segment_flags (ew_pathname_segments word)).*1 ->
  path_pattern (ew_span word) (segment_flags (ew_pathname_segments word)) = Ok cs -> existsb is_pattern cs = true ->
  has_active_pattern_introducer (ew_pathname_segments word) = true ->
  let r := expand_pathname fs word cwd budget in
  match r.1 with
  | Ok words => exists paths, words = (fun path => from_pathname path (ew_span word)) <$> paths /\ paths <> []
      /\ Sorted.StronglySorted native_lt paths /\ (forall path, path ∈ paths <-> named_path fs cwd word cs path)
      /\ (budget_ok budget -> budget_ok r.2)
  | Err e => match pe_kind e with
             | InvalidPattern => False
             | NoMatches => forall path, ~ named_path fs cwd word cs path
             | ResourceLimit | Filesystem => True
             end
  end.
Proof.
  intros Hv Hcs Hp Hi r. unfold r, expand_pathname. rewrite Hi. cbn [negb].
  pose proof (compile_path_pattern_spec word budget Hv) as Hc. rewrite Hcs in Hc.
  pose proof (proj1 (compile_path_pattern_budget word budget)) as Hb.
  destruct (compile_path_pattern word budget) as [compiled b1]. cbn [fst snd] in Hc, Hb.
  destruct (_ <? _) in Hc; subst compiled; [done|]. cbn [fmap result_fmap cp_has_pattern cp_components cp_requires_directory].
  rewrite Hp. cbn [negb].
  pose proof (walk_spec fs (ew_span word) cs [mkGlob (if has_root (ew_value word) then [] else cwd) []] b1) as [_ Hw].
  destruct (walk _ _ _ _ _) as [[candidates|e] b2]; cbn [fst snd] in *.
  2:{ destruct Hw as [-> | ->]; done. }
  destruct Hw as [Hb2 Hw]. set (requires := match rev _ with _ :: _ => _ | [] => _ end).
  pose proof (existing_spec fs (ew_span word) requires candidates) as He.
  destruct (existing _ _ _ _) as [found|e]; cbn [mbind result_bind]; [|by rewrite He].
  assert (forall path, path ∈ found <-> named_path fs cwd word cs path) as Hf.
  { intros path. rewrite He. unfold named_path. fold requires. setoid_rewrite Hw.
    setoid_rewrite list_elem_of_singleton. naive_solver. }
  case_bool_decide as Hn.
  - intros path. rewrite <- Hf, Hn. by intros ?%elem_of_nil.
  - exists (dedup (sort_native found)). split; [done|].
    assert (forall path, path ∈ dedup (sort_native found) <-> path ∈ found) as Hd
      by (intros; by rewrite elem_of_dedup, elem_of_sort_native).
    split; [|split; [by apply dedup_sorted, sort_native_sorted|split; [|naive_solver]]].
    + intros Hnil. destruct found as [|f found]; [done|]. assert (f ∈ dedup (sort_native (f :: found))) as H
        by (apply Hd; by left). rewrite Hnil in H. by apply elem_of_nil in H.
    + intros path. by rewrite Hd.
Qed.

(** A word without an unquoted operator is passed through. *)
Lemma expand_pathname_plain fs word cwd budget :
  has_active_pattern_introducer (ew_pathname_segments word) = false ->
  expand_pathname fs word cwd budget = (Ok [word], budget).
Proof. intros H. unfold expand_pathname. by rewrite H. Qed.
