(* ===== verification/EngineProps.v ===== *)
(** * EngineProps: what the engine promises

    The dependency scheduler returns the same outcomes whatever order its jobs
    finish in; a budget is never exceeded and no grant is lost; permits are
    conserved; a session's table names its live programs, and closing it stops all
    of them. *)

From S2P Require Import Prelude Text Graph Dag Request Budget Governor Runtime.

(** ** Samples *)

(** A job is the value it completes with, whether it succeeded, or an error. *)
Definition sample_job (j : result nat (nat * bool)) : result nat (DagCompletion nat) :=
  match j with Ok (v, ok) => Ok (mkCompletion v ok) | Err e => Err e end.

(** 0 fails, so 2, and 3 after it, are skipped; 1 and 4 complete. *)
Definition sample_dag : list (DagNode (result nat (nat * bool))) :=
  [mkDagNode [] (Ok (10, false)); mkDagNode [] (Ok (11, true)); mkDagNode [0; 1] (Ok (12, true));
   mkDagNode [2] (Ok (13, true)); mkDagNode [1] (Ok (14, true))]%nat.

Lemma sample_dag_ok : dag_ok sample_dag.
Proof. apply (validate_ok (E := nat)). vm_compute. reflexivity. Defined.

Definition sample_config : SessionConfig := mkConfig 1 (L ".") 4096 65536.

Definition sample_search (id : Z) : Request :=
  mkRequest id (ARead (mkRead [L "a.txt"] ReadBytes 0 10)) (mkBudget 100 10 30000) None.

Definition sample_session : SessionState :=
  match open_session sample_config with
  | Ok s => s
  | Err _ => mkSession sample_config true ∅ [] [] false false
  end.

(** Two programs registered, the first started with a child, the second cancelled,
    then the session closed. *)
Definition sample_events : list SessionEvent :=
  [SRegisterBegin 0 (sample_search 7); SRegisterBegin 0 (sample_search 8);
   SRegisterEnd 0; SRegisterEnd 0; SStart 0 true; SChild 0 (mkBudget 10 2 1000) 32 0; SCancel 8; SCloseBegin; SCloseSweep].

(** ** The dependency scheduler *)

(** C26: Dependency scheduling is deterministic: for a valid graph, whatever order
    the running jobs complete in, [execute_dag] terminates and returns what the
    dependency oracle says: each node's job runs exactly when all its dependencies
    succeed, every other node is skipped, the outcomes come in the order of the
    nodes, and the error, if any, is that of the first node whose job fails. *)
Theorem dag_refines_oracle {J R E} (run : J -> result E (DagCompletion R)) (choose : nat -> nat)
    (nodes : list (DagNode J)) (Hok : dag_ok nodes) :
  execute_dag run choose nodes = Some (dag_spec run nodes).
Proof. by apply execute_dag_ok. Qed.

Lemma dag_refines_oracle_witness :
  execute_dag sample_job (fun turn => turn * 3 + 1)%nat sample_dag
  = Some (Ok [Completed 10; Completed 11; Skipped; Skipped; Completed 14])%nat.
Proof.
  rewrite (dag_refines_oracle sample_job (fun turn => turn * 3 + 1)%nat sample_dag sample_dag_ok).
  vm_compute. reflexivity.
Defined.

(** A node completes exactly when everything it depends on, at any distance,
    succeeded: when [execute_dag] returns outcomes, there is one for each node, and
    it is the completion of the node's job if each of the node's dependencies
    succeeded, and a skip otherwise; a node succeeds when its dependencies do and
    its job reports success. *)
Theorem dag_outcomes {J R E} (run : J -> result E (DagCompletion R)) (choose : nat -> nat)
    (nodes : list (DagNode J)) (outcomes : list (DagOutcome R)) (Hok : dag_ok nodes)
    (Hrun : execute_dag run choose nodes = Some (Ok outcomes)) :
  exists success : nat -> bool,
    length outcomes = length nodes
    /\ forall i node, nodes !! i = Some node ->
         (success i = forallb success (dn_dependencies node)
            && match run (dn_job node) with Ok c => dc_succeeded c | Err _ => false end)
         /\ match outcomes !! i with
            | Some (Completed value) =>
                forallb success (dn_dependencies node) = true
                /\ exists ok, run (dn_job node) = Ok (mkCompletion value ok)
            | Some Skipped => forallb success (dn_dependencies node) = false
            | None => False
            end.
Proof.
  rewrite execute_dag_ok in Hrun by done. injection Hrun as Hspec. unfold dag_spec in Hspec.
  destruct (mapM _ nodes) as [os|] eqn:HM; [|done]. injection Hspec as <-.
  apply mapM_ok in HM. exists (succeeds run (length nodes) nodes). split.
  { symmetry. by eapply Forall2_length. }
  intros i node Hi. split.
  { apply succeeds_equation; [by apply dag_ok_graph|apply Hok|done]. }
  destruct (Forall2_lookup_l _ _ _ _ _ HM Hi) as (o & -> & Ho). unfold node_result in Ho.
  destruct (forallb _ _); [|by injection Ho as <-].
  destruct (run (dn_job node)) as [[v ok]|]; [|done]. injection Ho as <-. eauto.
Qed.

Lemma dag_outcomes_witness :
  exists success : nat -> bool, success 1%nat = true /\ success 3%nat = false.
Proof.
  destruct (dag_outcomes sample_job id sample_dag [Completed 10; Completed 11; Skipped; Skipped;
    Completed 14]%nat sample_dag_ok) as (success & _ & H); [vm_compute; reflexivity|].
  exists success. split.
  - destruct (H 1%nat _ eq_refl) as [-> _]. reflexivity.
  - destruct (H 3%nat _ eq_refl) as [-> H3]. cbn in H3 |- *. by rewrite H3.
Defined.

(** Invalid graphs are rejected before any job runs: [validate] accepts exactly
    the nonempty graphs whose dependency lists are strictly increasing, in range
    and acyclic, and [execute_dag] of any other graph returns [InvalidGraph],
    whatever the jobs are. *)
Theorem dag_validation {J R E} (nodes : list (DagNode J)) :
  (validate (E := E) nodes = Ok tt <-> dag_ok nodes)
  /\ (~ dag_ok nodes -> forall (run : J -> result E (DagCompletion R)) choose,
        execute_dag run choose nodes = Some (Err InvalidGraph)).
Proof. split; [apply validate_ok|]. intros Hn run choose. by apply execute_dag_invalid. Qed.

Lemma dag_validation_witness :
  execute_dag sample_job id [mkDagNode [1] (Ok (1, true)); mkDagNode [0] (Ok (2, true))]%nat
  = Some (Err InvalidGraph).
Proof.
  apply (dag_validation (R := nat) (E := nat)
    [mkDagNode [1] (Ok (1, true)); mkDagNode [0] (Ok (2, true))]%nat).
  intros H. apply (validate_ok (E := nat)) in H. vm_compute in H. discriminate H.
Defined.

(** ** Budgets *)

(** C27: A budget is never exceeded and no grant is lost: after any interleaving of
    the atomic operations of any number of reservations, weak exchanges that fail
    included, the counter is the sum of the reservations granted and is within
    the limit; and a reservation that was refused did not fit. *)
Theorem budget_never_exceeded (max limit : Z) (amounts : list Z) (schedule : list (nat * bool))
    (Hlimit : 0 <= limit <= max) (Hamounts : forallb (fun a => 0 <=? a) amounts = true) :
  let p := pool_run max limit schedule (pool_start amounts) in
  pl_counter p = zsum granted (pl_threads p)
  /\ 0 <= pl_counter p <= limit
  /\ forall t e, t ∈ pl_threads p -> rv_state t = RDone (Err e) -> limit < pl_counter p + rv_amount t.
Proof.
  intros p. destruct (pool_run_inv max limit Hlimit schedule (pool_start amounts)) as (Hs & Hc & Ht).
  { by apply (pool_start_inv max limit). }
  split; [done|]. split; [done|]. intros t e Hin He. rewrite list.Forall_forall in Ht.
  destruct (Ht t Hin) as [_ H]. by rewrite He in H.
Qed.

Lemma budget_never_exceeded_witness :
  let p := pool_run u64_max 100 [(0, false); (1, false); (2, false); (1, true); (1, false);
             (0, false); (0, false); (2, false); (2, false)]%nat (pool_start [60; 30; 50]) in
  pl_counter p = 90 /\ pl_counter p = zsum granted (pl_threads p).
Proof.
  split; [vm_compute; reflexivity|].
  apply (budget_never_exceeded u64_max 100 [60; 30; 50]); [lia|reflexivity].
Defined.

(** A reservation that no other one interferes with terminates, from any
    point of its loop, within three atomic operations. *)
Theorem reservation_terminates (max amount limit : Z) (st : ReserveState) (counter : Z) :
  exists res counter', reserve_run 3 max amount limit st counter = (RDone res, counter').
Proof. apply reserve_run_done. Qed.

(** Reserving output takes exactly the bytes asked for from what remains, or
    is refused and takes nothing; the error carries what was requested in all,
    saturated at the width of the counter. *)
Theorem reserve_output_exact (bt : BudgetTracker) (bytes : Z)
    (Hused : 0 <= bt_output_used bt <= bt_output_limit bt)
    (Hlimit : bt_output_limit bt <= u64_max) (Hbytes : 0 <= bytes) :
  exists res bt', reserve_output bt bytes = Some (res, bt')
    /\ br_records (remaining bt') = br_records (remaining bt)
    /\ bt_output_used bt' <= bt_output_limit bt'
    /\ if bytes <=? br_output_bytes (remaining bt)
       then res = Ok tt
            /\ br_output_bytes (remaining bt') = br_output_bytes (remaining bt) - bytes
       else res = Err (BE_Output (Z.min (bt_output_used bt + bytes) u64_max)) /\ bt' = bt.
Proof.
  unfold reserve_output. rewrite reserve_alone.
  destruct (reserve_request u64_max bytes (bt_output_limit bt) (bt_output_used bt)) as [r|e] eqn:Hr;
    (eexists _, _; split; [reflexivity|]); cbn [remaining br_records br_output_bytes bt_records_used
      bt_record_limit bt_output_used bt_output_limit]; unfold saturating_sub.
  - apply reserve_request_ok in Hr as (-> & ? & ?). split; [done|]. split; [lia|].
    destruct (Z.leb_spec bytes (Z.max (bt_output_limit bt - bt_output_used bt) 0)); [|lia].
    split; [done|lia].
  - apply reserve_request_err in Hr as [Hlt ->]; [|done]. split; [done|]. split; [lia|].
    destruct (Z.leb_spec bytes (Z.max (bt_output_limit bt - bt_output_used bt) 0)); [lia|].
    split; [done|]. by destruct bt.
Qed.

Lemma reserve_output_exact_witness :
  exists res bt', reserve_output (mkTracker 10 100 5 0 40 0) 61 = Some (res, bt')
    /\ res = Err (BE_Output 101).
Proof.
  destruct (reserve_output_exact (mkTracker 10 100 5 0 40 0) 61) as (res & bt' & H & _ & _ & Hr);
    [cbn; lia|cbn; lia|lia|].
  exists res, bt'. split; [exact H|]. cbn in Hr. apply Hr.
Defined.

(** ** Permits *)

(** Permits are conserved: for every implementation of semaphores, after any
    sequence of polls, drops and new acquisitions over any number of sessions, the
    permits held of each kind plus the free ones are the limit, of the global
    governor and of every session's, so no more operations than the limit ever
    run at once; and when every acquisition has failed or been dropped, every
    permit is free again. *)
Theorem permits_conserved {S} `{SemaphoreLaws S} (global : GovernorLimits)
    (sessions : list GovernorLimits) (events : list GovernorEvent)
    (Hglobal : forall kind, 0 <= limit_of global kind <= MAX_PERMITS)
    (Hsessions : Forall (fun l => forall kind, 0 <= limit_of l kind <= MAX_PERMITS) sessions) :
  let sys := governor_run (S := S) events (governor_start global sessions) in
  system_inv global sessions sys
  /\ (forall kind, zsum (holds_global kind) (sy_tasks sys) <= limit_of global kind)
  /\ (Forall (fun t => match tk_state t with TFailed _ | TDropped => True | _ => False end)
        (sy_tasks sys) ->
      (forall kind, free (sy_global sys) kind = limit_of global kind)
      /\ forall s g l kind, sy_sessions sys !! s = Some g -> sessions !! s = Some l ->
           free g kind = limit_of l kind).
Proof.
  intros sys. assert (system_inv global sessions sys) as Hinv
    by (by apply governor_run_inv, governor_start_inv).
  pose proof Hinv as (Hg & _ & Hs). split; [done|]. split.
  - intros kind. specialize (Hg kind). lia.
  - intros [Eg Es]%holds_nothing. split.
    + intros kind. specialize (Hg kind). rewrite Eg in Hg. lia.
    + intros s g l kind Hsg Hsl. specialize (Hs s g l Hsg Hsl kind). rewrite Es in Hs. lia.
Qed.

Definition one_each : GovernorLimits := mkLimitsOf 1 1 1 1 1.

Lemma one_each_nonneg kind : 0 <= limit_of one_each kind <= MAX_PERMITS.
Proof. by destruct kind. Defined.

Lemma permits_conserved_witness :
  let sys := governor_run (S := Z)
    [EvSpawn 0 KNode; EvSpawn 1 KNode; EvPoll 0 false false; EvPoll 0 false false;
     EvPoll 1 false false; EvPoll 1 false true; EvDrop 0]
    (governor_start one_each [one_each; one_each]) in
  tk_state <$> sy_tasks sys = [TDropped; TFailed GE_Deadline]
  /\ forall kind, free (sy_global sys) kind = 1.
Proof.
  split; [vm_compute; reflexivity|]. intros kind.
  destruct (permits_conserved (S := Z) one_each [one_each; one_each]
    [EvSpawn 0 KNode; EvSpawn 1 KNode; EvPoll 0 false false; EvPoll 0 false false;
     EvPoll 1 false false; EvPoll 1 false true; EvDrop 0]) as (_ & _ & H).
  - exact one_each_nonneg.
  - constructor; [exact one_each_nonneg|constructor; [exact one_each_nonneg|constructor]].
  - destruct H as [H _]; [repeat constructor|]. rewrite H. by destruct kind.
Defined.

(** Worker counts derived from the processors are positive, as their types
    require, and bounded: between one and eight readers, and every limit derived
    from them is at least one and does not overflow; for any realistic machine no
    limit is above three times the processors, so creating the semaphores does not
    panic. *)
Theorem worker_counts_bounded (available : Z) (Ha : available <= usize_max) :
  let p := for_available_cpus available in
  1 <= io_workers p <= 8 /\ 1 <= compute_workers p <= usize_max
  /\ 1 <= max_processes p <= usize_max /\ 1 <= max_filesystem_ops p <= usize_max
  /\ (forall kind, 1 <= limit_of (from_parallelism p) kind <= usize_max)
  /\ (32 <= available <= MAX_PERMITS / 4 ->
      forall kind, limit_of (from_parallelism p) kind <= 3 * available).
Proof. by apply for_available_cpus_bounds. Qed.

Lemma worker_counts_bounded_witness : 1 <= limit_of (from_parallelism (for_available_cpus 0)) KNode.
Proof. destruct (worker_counts_bounded 0) as (_ & _ & _ & _ & H & _); [lia|apply (H KNode)]. Defined.

(** ** Sessions *)

(** The table of active requests is exact: after any interleaving of
    registrations, starts, child programs, drops, cancellations and the close of a
    session, an identifier is in the table if and only if the handle it maps to is
    live and has that identifier; so two live programs never share an identifier,
    and dropping a program never removes another one's entry; and a registration
    whose identifier is free succeeds as long as the session is open. *)
Theorem active_table_exact (c : SessionConfig) (s0 : SessionState) (events : list SessionEvent)
    (Hopen : open_session c = Ok s0) :
  let s := session_run events s0 in
  (forall id i, ss_active s !! id = Some i <->
     exists h, ss_handles s !! i = Some h /\ live h = true /\ hd_request_id h = id)
  /\ (forall i j h h', ss_handles s !! i = Some h -> ss_handles s !! j = Some h' ->
       live h = true -> live h' = true -> hd_request_id h = hd_request_id h' -> i = j)
  /\ forall now request, ss_closed s = false ->
       exists s', register_begin now request s = Ok s'
         /\ (ss_active s' !! rq_id request = None ->
             exists s'', register_commit (length (ss_registering s)) s' = Ok s''
               /\ ss_active s'' !! rq_id request = Some (length (ss_handles s))).
Proof.
  intros s. destruct (session_run_ok events s0) as [HA _ _ _]; [by eapply open_session_ok|].
  split; [exact HA|]. split; [|by intros now request; apply (register_succeeds c s0 s events)]. intros i j h h' Hi Hj Hl Hl' Heq.
  assert (ss_active s !! hd_request_id h = Some i) as Hai by (apply HA; eauto).
  assert (ss_active s !! hd_request_id h = Some j) as Haj by (apply HA; eauto). congruence.
Qed.

Lemma active_table_exact_witness :
  let s := session_run (take 6 sample_events ++ [SDrop 0]) sample_session in
  exists h, ss_handles s !! 0%nat = Some h /\ live h = true /\ hd_request_id h = 7.
Proof.
  destruct (active_table_exact sample_config sample_session (take 6 sample_events ++ [SDrop 0]))
    as [H _]; [reflexivity|].
  apply (H 7 0%nat). vm_compute. reflexivity.
Defined.

(** Closing a session stops all its programs: once a close has finished,
    whatever happens next, every live program is cancelled, no program is ever
    added, the session stays closed and every registration is refused. *)
Theorem close_cancels_all (c : SessionConfig) (s0 : SessionState)
    (events later : list SessionEvent) (Hopen : open_session c = Ok s0)
    (Hclosed : ss_swept (session_run events s0) = true) :
  let s := session_run events s0 in
  let s' := session_run later s in
  all_cancelled (ss_handles s')
  /\ length (ss_handles s') = length (ss_handles s)
  /\ forall now request, register_begin now request s' = Err EE_SessionClosed.
Proof.
  intros s s'. assert (session_ok s) as Hs by (by eapply session_run_ok, open_session_ok).
  assert (session_ok s') as [_ _ _ HS] by (by apply session_run_ok).
  destruct (session_run_earlier later s) as (_ & Hcl & Hsw & _).
  assert (ss_closed s = true) as Hc by (rewrite (so_closed s Hs); subst s; by rewrite Hclosed, orb_true_r).
  destruct (Hcl Hc) as [Hc' Hlen]. split; [by apply HS, Hsw|]. split; [done|].
  intros now request. unfold register_begin. subst s'. by rewrite Hc'.
Qed.

Lemma close_cancels_all_witness :
  let s := session_run [SRegisterEnd 0; SDrop 1] (session_run sample_events sample_session) in
  all_cancelled (ss_handles s).
Proof.
  apply (close_cancels_all sample_config sample_session sample_events [SRegisterEnd 0; SDrop 1]);
    vm_compute; reflexivity.
Defined.

(** [cancel] answers [true] exactly for the first cancellation of a live
    program, which is cancelled from then on: whatever happens next, the token it
    shares with its children stays set, and no later [cancel] of the same program
    answers [true]. *)
Theorem cancel_first_only (c : SessionConfig) (s0 : SessionState)
    (events later : list SessionEvent) (id : Z) (Hopen : open_session c = Ok s0) :
  let s := session_run events s0 in
  (fst (cancel id s) = true <->
     exists i h, ss_handles s !! i = Some h /\ live h = true /\ hd_request_id h = id
       /\ hd_cancelled h = false)
  /\ forall i, ss_active s !! id = Some i ->
       let s' := session_run later (snd (cancel id s)) in
       (exists h, ss_handles s' !! i = Some h /\ hd_cancelled h = true)
       /\ (ss_active s' !! id = Some i -> fst (cancel id s') = false).
Proof.
  intros s. destruct (session_run_ok events s0) as [HA _ _ _]; [by eapply open_session_ok|].
  fold s in HA. unfold cancel. split.
  - destruct (ss_active s !! id) as [i|] eqn:Hi.
    + pose proof (proj1 (HA id i) Hi) as (h & Hh & Hl & Hid). unfold cancel_token. rewrite Hh.
      simpl. rewrite negb_true_iff. split; [eauto 10|].
      intros (j & h' & Hj & Hl' & Hid' & Hc).
      assert (ss_active s !! id = Some j) by (apply HA; eauto). congruence.
    + simpl. split; [done|]. intros (j & h' & Hj & Hl' & Hid' & Hc).
      assert (ss_active s !! id = Some j) by (apply HA; eauto). congruence.
  - intros i Hi. pose proof (proj1 (HA id i) Hi) as (h & Hh & Hl & Hid). rewrite Hi. simpl.
    destruct (session_run_earlier later (cancel_token i s).2) as (_ & _ & _ & HE).
    destruct (HE i (cancel_handle h)) as (h' & Hh' & _ & Hc & _).
    { rewrite cancel_token_eq, Hh. simpl. by eapply replace_lookup_eq. }
    specialize (Hc eq_refl). revert Hh'. clear HE.
    generalize (session_run later (cancel_token i s).2). intros s' Hh'. split; [eauto|].
    intros ->. unfold cancel_token. rewrite Hh'. simpl. by rewrite Hc.
Qed.

Lemma cancel_first_only_witness :
  fst (cancel 7 (session_run (take 7 sample_events) sample_session)) = true
  /\ fst (cancel 8 (session_run (take 7 sample_events) sample_session)) = false.
Proof.
  split.
  - apply (cancel_first_only sample_config sample_session (take 7 sample_events) [] 7); [reflexivity|].
    exists 0%nat. eexists. vm_compute. split; [reflexivity|]. split; [reflexivity|].
    split; reflexivity.
  - vm_compute. reflexivity.
Defined.
