(* ===== verification/StoreProps.v ===== *)
(** * StoreProps: what the result store and the path dictionary promise

    The quota is never exceeded, whatever captures fail or are dropped; retained
    bytes are read back under their alias; an alias is never given to other
    content; a capture whose write failed is never retained; path identifiers
    resolve in the view of a peer that only sees what was introduced. *)

From S2P Require Import Prelude Text Paths Store Capture.

(** ** Samples *)

Definition sample_limits : StoreLimits := mkStoreLimits 100 4.
Definition empty_state : State := mkState 1 0 0 ∅ ∅.
Definition empty_system : StoreSystem := mkStoreSystem empty_state [].

(** A digest for the witnesses: the bytes themselves. *)
Definition sample_hash (data : bytes) : list Z := data.

(** Two captures, one of which spills and then fails to write; a batch; a release. *)
Definition sample_store_events : list StoreEvent :=
  [ECapture 4; ECapture 4; EAppend 0 IoOk [1; 2; 3]; EAppend 0 IoOk [4; 5; 6];
   EAppend 1 (IoWriteFails [9]) [1; 2; 3; 4; 5]; EFinish 0 true;
   ERetainCaptures true [0%nat]; ERetain true [[7; 8]; [7; 8]; [9]]; ERelease 2].

Lemma limits_ok : 0 <= sl_max_bytes sample_limits < u64_max
  /\ 0 <= sl_max_entries sample_limits < u64_max.
Proof. split; cbn; lia. Defined.

(** Every state reachable from a new store satisfies the invariant. *)
Lemma reachable_ok hash store l state events :
  0 <= sl_max_bytes l < u64_max -> 0 <= sl_max_entries l < u64_max -> ResultStore_new l = Ok state ->
  system_ok hash store l (store_run hash store l events (mkStoreSystem state [])).
Proof.
  intros Hb He Hnew. apply store_run_ok; [lia|done|].
  split; simpl; [by eapply ResultStore_new_ok; [lia|lia|]| |constructor].
  unfold ResultStore_new in Hnew. destruct (_ || _) in Hnew; [done|]. by injection Hnew as <-.
Qed.

(** ** Accounting *)

(** C28: The quota is never exceeded: after any sequence of captures, appends
    (with any I/O failures), finishes, drops, retentions, leases and releases, the
    bytes the store counts are the sum of its entries, the pending bytes are the
    sum of the live reservations, the two together are within the byte limit, and
    the entries within theirs; and the two tables agree: an identity names an alias
    exactly when the entry under the alias has that identity, and the identity of every
    entry is the digest of its bytes. *)
Theorem store_accounting (hash : bytes -> list Z) (store : nat) (l : StoreLimits) (state : State)
    (events : list StoreEvent)
    (Hbytes : 0 <= sl_max_bytes l < u64_max) (Hentries : 0 <= sl_max_entries l < u64_max)
    (Hnew : ResultStore_new l = Ok state) :
  let sys := store_run hash store l events (mkStoreSystem state []) in
  st_bytes (sx_state sys) = entries_bytes (st_by_alias (sx_state sys))
  /\ st_pending_bytes (sx_state sys) = zsum slot_reserved (sx_slots sys)
  /\ 0 <= zsum slot_reserved (sx_slots sys)
  /\ su_bytes (usage (sx_state sys)) + st_pending_bytes (sx_state sys) <= sl_max_bytes l
  /\ su_entries (usage (sx_state sys)) <= sl_max_entries l
  /\ (forall id alias, st_by_content (sx_state sys) !! id = Some alias
       <-> exists e, st_by_alias (sx_state sys) !! alias = Some e /\ en_content_id e = id)
  /\ forall alias e, st_by_alias (sx_state sys) !! alias = Some e ->
       en_content_id e = hash (storage_bytes (ct_storage (en_content e))).
Proof.
  intros sys. destruct (reachable_ok hash store l state events Hbytes Hentries Hnew)
    as [[[Ha Hc Hd] Hb Hp0 Hq He _] Hp Hs].
  split_and!; try done; [by eapply slots_reserved_nonneg| |].
  - intros id alias. split; [apply Hc|]. intros (e & Hlk & <-). by apply (Ha alias).
  - intros alias e Hlk. by apply (Hd _ _ Hlk).
Qed.

Lemma store_accounting_witness :
  let sys := store_run sample_hash 1 sample_limits sample_store_events empty_system in
  usage (sx_state sys) = mkUsage 7 2 /\ st_pending_bytes (sx_state sys) = 5
  /\ su_bytes (usage (sx_state sys)) + st_pending_bytes (sx_state sys) <= 100.
Proof.
  split; [vm_compute; reflexivity|]. split; [vm_compute; reflexivity|].
  apply (store_accounting sample_hash 1 sample_limits empty_state sample_store_events);
    [apply limits_ok|apply limits_ok|reflexivity].
Defined.

(** Retaining a batch is the one-pass assignment: the two loops of
    [retain_pending], with their checks and maps, give each item the alias of its
    content if it is known and the next alias otherwise, in input order; the batch
    is retained as a whole or the state is unchanged, and its reservations are
    released. *)
Theorem retain_refines (hash : bytes -> list Z) (io : bool) (store : nat) (l : StoreLimits)
    (pending : list PendingContent) (state state' : State) (aliases : list Z)
    (Hstate : state_ok hash l state) (Hentries : sl_max_entries l < u64_max)
    (Hpending : Forall (pending_ok hash store) pending)
    (Hretain : retain_pending hash io store l pending state = Ok (aliases, state')) :
  state_ok hash l state'
  /\ st_pending_bytes state' = st_pending_bytes state - zsum reserved pending
  /\ exists items,
       Forall2 (fun value item => pc_content value = Some item.2) pending items
       /\ Forall (item_ok hash) items
       /\ assign items (st_next_alias state) (st_by_alias state) (st_by_content state)
          = (aliases, st_next_alias state', st_by_alias state', st_by_content state').
Proof. by apply (retain_pending_spec hash io store l). Qed.

Lemma empty_state_ok : state_ok sample_hash sample_limits empty_state.
Proof. apply ResultStore_new_ok; [cbn; lia|cbn; lia|reflexivity]. Defined.

Definition sample_value (data : bytes) : PendingContent :=
  mkPending (Some data) (Some (mkContent (len data) (Memory data))) None.

Lemma sample_value_ok data : pending_ok sample_hash 1 (sample_value data).
Proof.
  split; [|intros id c [= <-] [= <-]; by split|simpl; lia].
  exists (mkContent (len data) (Memory data)). split; [reflexivity|left; reflexivity].
Defined.

Lemma retain_refines_witness :
  exists aliases state', retain_pending sample_hash true 1 sample_limits
    [sample_value [7]; sample_value [8]; sample_value [7]] empty_state = Ok (aliases, state')
  /\ aliases = [1; 2; 1] /\ st_pending_bytes state' = 0.
Proof.
  eexists _, _. split; [vm_compute; reflexivity|]. split; [reflexivity|].
  edestruct (retain_refines sample_hash true 1 sample_limits
    [sample_value [7]; sample_value [8]; sample_value [7]] empty_state) as (_ & Hp & _);
    [exact empty_state_ok|apply limits_ok| |vm_compute; reflexivity|exact Hp].
  constructor; [apply sample_value_ok|]. constructor; [apply sample_value_ok|].
  constructor; [apply sample_value_ok|constructor].
Defined.

(** ** Reading back *)

(** C29: Retained bytes are read back until they are released: when a store, after any
    history, retains a batch, then after any further captures, retentions, leases and
    releases [get] of each alias the batch returned still succeeds unless that alias was
    released; and whenever it succeeds, its [read_all] is the bytes of that item and its
    [read_range] the range of them, without ever slicing out of bounds.  This needs no
    assumption on the digest. *)
Theorem retain_readback (hash : bytes -> list Z) (io : bool) (store : nat) (l : StoreLimits)
    (state : State) (before after : list StoreEvent) (contents : list bytes) (aliases : list Z) (state' : State)
    (Hbytes : 0 <= sl_max_bytes l < u64_max) (Hentries : 0 <= sl_max_entries l < u64_max)
    (Hnew : ResultStore_new l = Ok state) :
  let sys := store_run hash store l before (mkStoreSystem state []) in
  retain_many hash io store l contents (sx_state sys) = Ok (aliases, state') ->
  let now := sx_state (store_run hash store l after (mkStoreSystem state' (sx_slots sys))) in
  Forall2 (fun data alias =>
    (ERelease alias ∉ after -> exists c leased, get alias now = Ok (c, leased))
    /\ forall c leased, get alias now = Ok (c, leased) ->
         (forall max_bytes, len data <= max_bytes -> read_all true c max_bytes = Ok data)
         /\ forall offset length max_bytes, 0 <= offset -> 0 <= length <= max_bytes ->
              read_range true c offset length max_bytes
              = Some (Ok (take (Z.to_nat length) (drop (Z.to_nat offset) data)))) contents aliases.
Proof.
  intros sys Hr now. assert (system_ok hash store l sys) as [Hst Hp HF] by (by apply reachable_ok).
  destruct (retained_entries hash io store l contents _ _ _ Hst (proj2 Hentries) Hr) as (Hst' & Hpe & H).
  set (sys' := mkStoreSystem state' (sx_slots sys)) in *.
  assert (system_ok hash store l sys') as Hsys' by (split; cbn; [done|congruence|done]).
  pose proof (store_run_later hash store l ltac:(lia) Hentries after sys' Hsys') as [_ Hlater].
  destruct (store_run_ok hash store l ltac:(lia) Hentries after sys' Hsys') as [Hnow _ _].
  revert H. apply Forall2_impl. cbn. intros data alias (e & He & Hd). split.
  - intros Hn. destruct (store_run_lasts hash store l ltac:(lia) Hentries alias after sys' Hsys' Hn) as [e' He']; [by eexists|].
    fold now in He'. unfold get. rewrite He'. by eexists _, _.
  - intros c leased Hg. unfold get in Hg. apply bind_ok in Hg as (e' & He'%ok_or_ok & [= <- <-]).
    destruct (Hlater alias e') as (e0 & He0 & Hc & _); [apply (to_alias _ _ _ _ (ok_tables _ _ _ Hst') _ _ He)|exact He'|].
    change (sx_state sys') with state' in He0. simplify_eq. eapply entry_read_back; [exact Hnow|lia|exact He'|by rewrite <- Hc].
Qed.

Definition sample_after : list StoreEvent := [ERetain true [[9]; [3]]; EGet 2; ERelease 1; ERelease 2; EDropLease 2].

Lemma retain_readback_witness :
  exists state' c leased,
    retain_many sample_hash true 1 sample_limits [[7; 8]; [9]; [7; 8]] empty_state = Ok ([1; 2; 1], state')
    /\ get 2 (sx_state (store_run sample_hash 1 sample_limits (take 3 sample_after) (mkStoreSystem state' []))) = Ok (c, leased)
    /\ read_all true c 1 = Ok [9].
Proof.
  eexists.
  edestruct (Forall2_lookup_lr _ _ _ 1 [9] 2 (retain_readback sample_hash true 1 sample_limits empty_state []
    (take 3 sample_after) [[7; 8]; [9]; [7; 8]] [1; 2; 1] _ (proj1 limits_ok) (proj2 limits_ok) eq_refl
    ltac:(vm_compute; reflexivity)) eq_refl eq_refl) as [Hin Hread].
  destruct Hin as (c & leased & Hg).
  { intros H. repeat (apply elem_of_cons in H as [H|H]; [discriminate H|]). by apply elem_of_nil in H. }
  exists c, leased. split; [vm_compute; reflexivity|]. split; [exact Hg|]. apply (Hread c leased Hg). vm_compute. discriminate.
Defined.

(** ** Aliases *)

(** A numeric alias is never reused: whatever happens between two states of a
    store, an alias handed out before the first either still names the same
    content in the second or is retired. *)
Theorem alias_never_reused (hash : bytes -> list Z) (store : nat) (l : StoreLimits) (state : State)
    (before after : list StoreEvent) (alias : Z) (e' : Entry)
    (Hbytes : 0 <= sl_max_bytes l < u64_max) (Hentries : 0 <= sl_max_entries l < u64_max)
    (Hnew : ResultStore_new l = Ok state) :
  let sys := store_run hash store l before (mkStoreSystem state []) in
  let sys' := store_run hash store l after sys in
  alias < st_next_alias (sx_state sys) -> st_by_alias (sx_state sys') !! alias = Some e' ->
  exists e, st_by_alias (sx_state sys) !! alias = Some e
    /\ en_content e = en_content e' /\ en_content_id e = en_content_id e'.
Proof.
  intros sys sys' Hlt He'.
  assert (system_ok hash store l sys) as Hsys by (by apply reachable_ok).
  destruct (store_run_later hash store l ltac:(lia) Hentries after sys Hsys) as [_ Hlater].
  by apply (Hlater alias).
Qed.

Lemma alias_never_reused_witness :
  let sys := store_run sample_hash 1 sample_limits (take 7 sample_store_events) empty_system in
  exists e, st_by_alias (sx_state sys) !! 1 = Some e
    /\ en_content e = mkContent 6 (Disk [1; 2; 3; 4; 5; 6]).
Proof.
  destruct (alias_never_reused sample_hash 1 sample_limits empty_state (take 7 sample_store_events)
    (drop 7 sample_store_events) 1 (mkEntry [1; 2; 3; 4; 5; 6] (mkContent 6 (Disk [1; 2; 3; 4; 5; 6])) 0))
    as (e & He & Hc & _); [apply limits_ok|apply limits_ok|reflexivity|vm_compute; reflexivity
    |vm_compute; reflexivity|].
  exists e. split; [exact He|exact Hc].
Defined.

(** The store's internal checks never fail: in every reachable state a
    retention, of bytes or of captures, and a release either succeed or report an
    error of the caller or of the system, never [Invariant]. *)
Theorem store_checks_hold (hash : bytes -> list Z) (store : nat) (l : StoreLimits) (state : State)
    (events : list StoreEvent)
    (Hbytes : 0 <= sl_max_bytes l < u64_max) (Hentries : 0 <= sl_max_entries l < u64_max)
    (Hnew : ResultStore_new l = Ok state) :
  let sys := store_run hash store l events (mkStoreSystem state []) in
  (forall io contents, retain_many hash io store l contents (sx_state sys) <> Err SE_Invariant)
  /\ (forall io is_ res sys', retain_captures hash store l io is_ sys = Some (res, sys') ->
        res <> Err SE_Invariant)
  /\ forall alias, release alias (sx_state sys) <> Err SE_Invariant.
Proof.
  intros sys.
  assert (system_ok hash store l sys) as [Hst Hp HF] by (by apply reachable_ok).
  split_and!.
  - intros io contents H. unfold retain_many in H. apply bind_err in H as [H|(pending & Hpre & H)].
    + revert H. clear. induction contents as [|data contents IH]; [done|]. simpl.
      intros [H|(? & _ & [H|(? & _ & ?)]%bind_err)]%bind_err; [|by apply IH|done].
      unfold prepare_bytes in H. apply bind_err in H as [H|(? & _ & ?)]; [|done].
      destruct (_ <=? _); [done|]. by destruct io.
    + apply (prepare_all_ok hash store) in Hpre as (Hpk & Hz & _). revert H.
      apply retain_pending_sound; [done|lia|done|]. rewrite Hz. by apply (ok_pending _ _ _ Hst).
  - intros io is_ res sys' H. unfold retain_captures in H. case_bool_decide as Hnd; simpl in H; [|done].
    destruct (mapM (captured_at (sx_slots sys)) is_) as [captures|] eqn:Hm; simpl in H; [|done].
    destruct (take_slots_spec _ _ _ _ _ Hnd Hm HF) as (HF' & Hsum & _ & Hpk).
    apply slots_reserved_nonneg in HF'.
    pose proof (retain_pending_sound hash io store l (cc_pending <$> captures) (sx_state sys) Hst
      ltac:(lia) Hpk ltac:(lia)) as Hs.
    destruct (retain_pending _ _ _ _ _ _) as [[aliases s]|e]; injection H as <- <-; congruence.
  - intros alias. by eapply release_sound.
Qed.

Lemma store_checks_hold_witness :
  release 9 (sx_state (store_run sample_hash 1 sample_limits sample_store_events empty_system))
  <> Err SE_Invariant.
Proof.
  apply (store_checks_hold sample_hash 1 sample_limits empty_state sample_store_events);
    [apply limits_ok|apply limits_ok|reflexivity].
Defined.

(** ** Captures *)

(** Appends one after the other, until one fails. *)
Fixpoint append_all (l : StoreLimits) (chunks : list bytes) (cap : StoreCapture) (state : State)
    : option (StoreCapture * State) :=
  match chunks with
  | [] => Some (cap, state)
  | data :: chunks =>
      match append l IoOk data cap state with
      | (Ok _, cap, state) => append_all l chunks cap state
      | (Err _, _, _) => None
      end
  end.

(** Appends whose results are ignored. *)
Definition append_run (l : StoreLimits) (chunks : list (AppendIo * bytes)) (cs : StoreCapture * State)
    : StoreCapture * State :=
  foldl (fun cs c => let '(_, cap, state) := append l c.1 c.2 cs.1 cs.2 in (cap, state)) cs chunks.

Lemma append_all_holds hash store l chunks : forall cap state cap' state' all,
  state_ok hash l state -> capture_ok store cap -> holds cap all ->
  append_all l chunks cap state = Some (cap', state') ->
  state_ok hash l state' /\ capture_ok store cap' /\ holds cap' (all ++ concat chunks)
  /\ cp_memory_limit cap' = cp_memory_limit cap.
Proof.
  induction chunks as [|data chunks IH]; intros cap state cap' state' all Hst Hcap Hh H; simpl in H.
  { injection H as <- <-. by rewrite app_nil_r. }
  destruct (append l IoOk data cap state) as [[[[]|] cap1] state1] eqn:Ha; [|done].
  destruct (append_spec _ _ _ _ _ _ _ _ _ _ Hst Hcap Ha) as (Hst1 & Hcap1 & _ & Hh1 & _).
  destruct (IH _ _ _ _ _ Hst1 Hcap1 (Hh1 _ Hh eq_refl) H) as (? & ? & Hall & Hml).
  rewrite <- app_assoc in Hall. split_and!; try done. rewrite Hml. clear -Ha. unfold append in Ha.
  case_bool_decide; [by simplify_eq|]. destruct (checked_add _ _ _); [|by simplify_eq].
  destruct (cp_state cap); [destruct (_ <=? _); [by simplify_eq|]|];
    (destruct (reserve_u64 _ _ _ _) as [[r s1]|] eqn:Hr; by simplify_eq).
Qed.

Lemma append_run_overcharged hash store l chunks : forall cs,
  state_ok hash l cs.2 -> capture_ok store cs.1 -> overcharged cs.1 ->
  capture_ok store (append_run l chunks cs).1 /\ overcharged (append_run l chunks cs).1.
Proof.
  induction chunks as [|c chunks IH]; intros cs Hst Hcap Ho; [done|]. simpl.
  destruct (append l c.1 c.2 cs.1 cs.2) as [[res cap] state] eqn:Ha.
  destruct (append_spec _ _ _ _ _ _ _ _ _ _ Hst Hcap Ha) as (? & ? & _ & _ & Hov & _).
  apply IH; simpl; auto.
Qed.

(** C30: A captured stream is complete and its sample is that of the stream: however
    it is cut into chunks, a capture whose appends and [finish] succeed holds
    exactly the bytes appended, and its view is all of them, or, above the memory
    limit, their first half-limit, the byte after it, and the last half-limit of
    the rest. *)
Theorem capture_faithful (hash : bytes -> list Z) (store : nat) (l : StoreLimits) (memory_limit : Z)
    (io : bool) (chunks : list bytes) (state state' : State) (cap : StoreCapture) (c : CapturedContent)
    (Hstate : state_ok hash l state) (Hlimit : 0 <= memory_limit) (Hbytes : 0 <= sl_max_bytes l)
    (Happend : append_all l chunks (capture store l memory_limit) state = Some (cap, state'))
    (Hfinish : finish io cap = Ok c) :
  (exists content, pc_content (cc_pending c) = Some content
     /\ storage_bytes (ct_storage content) = concat chunks)
  /\ let limit := Z.min memory_limit (sl_max_bytes l) in
     let head := Z.to_nat (limit / 2) in
     view c = match cp_state cap with
              | CMemory _ => Complete (concat chunks)
              | CDisk _ _ => Sampled (take head (concat chunks)) (concat chunks !! head)
                               (last_bytes (limit - limit / 2) (drop head (concat chunks)))
              end.
Proof.
  destruct (capture_ok_start store l memory_limit Hlimit Hbytes) as [Hc0 Hh0].
  destruct (append_all_holds _ _ _ _ _ _ _ _ _ Hstate Hc0 Hh0 Happend) as (Hst' & Hcap & Hh & Hml).
  destruct (finish_spec hash store io cap c Hcap Hfinish) as (_ & _ & _ & H).
  destruct (H _ Hh) as [Hc Hv]. split; [exact Hc|]. rewrite Hml in Hv. exact Hv.
Qed.

Definition sample_spilled : StoreCapture :=
  match append_all sample_limits [[1; 2]; [3; 4; 5]; [6]] (capture 1 sample_limits 4) empty_state with
  | Some (cap, _) => cap
  | None => capture 1 sample_limits 4
  end.

Lemma capture_faithful_witness :
  exists c, finish true sample_spilled = Ok c /\ view c = Sampled [1; 2] (Some 3) [5; 6].
Proof.
  eexists. split; [vm_compute; reflexivity|].
  edestruct (capture_faithful sample_hash 1 sample_limits 4 true [[1; 2]; [3; 4; 5]; [6]] empty_state)
    as [_ Hv]; [exact empty_state_ok|lia|cbn; lia|vm_compute; reflexivity|vm_compute; reflexivity|exact Hv].
Defined.

(** A capture whose write failed is never retained: after an [append] that
    reported an I/O error, whatever else is appended, a batch that contains the
    capture is refused with [ReservationMismatch], so truncated output is never
    given an alias. *)
Theorem failed_write_refused (hash : bytes -> list Z) (store : nat) (l : StoreLimits) (io : AppendIo)
    (data : bytes) (cap cap' : StoreCapture) (state state' : State) (chunks : list (AppendIo * bytes))
    (flush : bool) (c : CapturedContent) (others : list PendingContent)
    (Hstate : state_ok hash l state) (Hcap : capture_ok store cap)
    (Happend : append l io data cap state = (Err SE_Io, cap', state'))
    (Hfinish : finish flush (append_run l chunks (cap', state')).1 = Ok c) :
  forall io' now, retain_pending hash io' store l (cc_pending c :: others) now
    = Err SE_ReservationMismatch.
Proof.
  destruct (append_spec _ _ _ _ _ _ _ _ _ _ Hstate Hcap Happend) as (Hst & Hcap' & _ & _ & _ & Hio & _).
  destruct (append_run_overcharged hash store l chunks (cap', state') Hst Hcap' (Hio eq_refl)) as [Hc Ho].
  destruct (finish_spec hash store flush _ c Hc Hfinish) as (_ & _ & Hover & _).
  intros io' now. unfold retain_pending. rewrite bool_decide_eq_false_2 by done.
  by rewrite (Hover Ho _ eq_refl others).
Qed.

Lemma failed_write_refused_witness :
  exists cap' state' c,
    append sample_limits (IoWriteFails []) [1; 2; 3; 4; 5] (capture 1 sample_limits 4) empty_state
      = (Err SE_Io, cap', state')
    /\ finish true (append_run sample_limits [(IoOk, [9])] (cap', state')).1 = Ok c
    /\ retain_pending sample_hash true 1 sample_limits [cc_pending c] state' = Err SE_ReservationMismatch.
Proof.
  eexists _, _, _. split; [vm_compute; reflexivity|]. split; [vm_compute; reflexivity|].
  eapply (failed_write_refused sample_hash 1 sample_limits (IoWriteFails []) [1; 2; 3; 4; 5]
    (capture 1 sample_limits 4) _ empty_state _ [(IoOk, [9])] true).
  - exact empty_state_ok.
  - apply capture_ok_start; [lia|cbn; lia].
  - vm_compute. reflexivity.
  - vm_compute. reflexivity.
Defined.

(** ** Paths *)

(** Path identifiers resolve for the peer: after any batches, accepted or
    refused, the mappings introduced so far are numbered 1, 2, 3 and so on, name
    each path once and stay within the limit; every identifier returned by a later
    batch is the number of its path in them; and a batch of valid paths that fits
    is accepted. *)
Theorem path_ids_resolve (max : Z) (d0 : PathDictionary) (batches : list (list str))
    (Hnew : PathDictionary_new max = Ok d0) (Hmax : 0 <= max < u64_max) :
  let history := (intern_run batches [] d0).1 in
  let d := (intern_run batches [] d0).2 in
  (forall i e, history !! i = Some e -> pe_id e = Z.of_nat i + 1)
  /\ NoDup (pe_value <$> history)
  /\ (forall paths ip d', intern paths d = Ok (ip, d') ->
        Forall2 (fun path id => 1 <= id /\ (history ++ ip_introduced ip) !! Z.to_nat (id - 1)
          = Some (mkPathEntry id path)) paths (ip_ids ip)
        /\ Forall (fun e => pe_value e ∈ paths) (ip_introduced ip)
        /\ len (history ++ ip_introduced ip) <= max)
  /\ forall paths, Forall (fun path => validate_path path = Ok tt) paths ->
       len history + Z.of_nat (size (new_paths paths d)) <= max ->
       exists ip d', intern paths d = Ok (ip, d').
Proof.
  intros history d. pose proof (dict_new_repr _ _ Hnew) as Hr0.
  destruct (intern_run_repr batches [] d0 Hr0) as (Hr & Hm & _). fold history d in Hr, Hm.
  assert (pd_max_entries d = max) as Hmd.
  { rewrite Hm. unfold PathDictionary_new in Hnew. destruct (_ =? _); [done|]. by injection Hnew as <-. }
  split; [apply Hr|]. split; [apply Hr|]. split.
  - intros paths ip d' H. destruct (intern_spec _ _ _ _ _ Hr H) as (Hr' & HF & Hi & _ & Hle).
    rewrite Hmd in Hle. split; [|done]. revert HF. apply Forall2_impl. simpl.
    intros path id (k & Hk)%list_elem_of_lookup.
    pose proof (dr_ids _ _ Hr' _ _ Hk) as Hid. simpl in Hid. split; [lia|].
    replace (Z.to_nat (id - 1)) with k by lia. done.
  - intros paths Hp Hq. eapply intern_succeeds; [exact Hr|done|lia|lia].
Qed.

Lemma path_ids_resolve_witness :
  exists ip d', intern [L "b"; L "c"; L "b"]
    (intern_run [[L "a"; L "b"]; [L ""]] [] (mkDictionary 3 1 ∅)).2 = Ok (ip, d').
Proof.
  apply (path_ids_resolve 3 (mkDictionary 3 1 ∅) [[L "a"; L "b"]; [L ""]]); [reflexivity|lia| |].
  - constructor; [reflexivity|]. constructor; [reflexivity|]. constructor; [reflexivity|constructor].
  - vm_compute. discriminate.
Defined.
