(* ===== verification/ReducerProps.v ===== *)
(** * ReducerProps: what the reducers promise

    The shortened text is never longer, every counter is that of the markers, and
    what is left out is determined by what is kept. *)

From S2P Require Import Prelude Text Reducer ReducerFacts ReducerBlocks.

(** C31: However the lines are partitioned for the search, [collapse_repeated_lines]
    writes the maximal runs of equal lines of its text, each as it is or, exactly when
    that is shorter, as one line and a marker with the count; the counters are those
    of the runs written with a marker, and each of them saves at least a byte. *)
Theorem collapse_lines_runs text :
  len text <= usize_max ->
  let runs := group (split_inclusive text) in
  let r := collapse_repeated_lines text in
  concat (ungroup runs) = text
  /\ (forall i g g', runs !! i = Some g -> runs !! S i = Some g' -> g.1 <> g'.1)
  /\ rl_text r = concat ((fun g => if collapses g then g.1 ++ run_marker g.2
                                   else concat (replicate g.2 g.1)) <$> runs)
  /\ rl_collapsed_runs r = length (List.filter collapses runs)
  /\ rl_omitted_lines r = sum_list_with (fun g => g.2 - 1)%nat (List.filter collapses runs)
  /\ len (rl_text r) + Z.of_nat (rl_collapsed_runs r) <= len text.
Proof.
  intros Hl runs r. assert (concat (ungroup runs) = text) as Ht
    by (unfold runs; rewrite ungroup_group; apply split_inclusive_concat).
  split; [done|]. split; [apply group_maximal|]. 
  pose proof (encode_groups_spec runs (group_counts _)) as He. cbv zeta in He. rewrite Ht in He.
  unfold r. rewrite collapse_lines_spec. exact (He Hl).
Qed.

Example collapse_lines_runs_witness :
  let text := L "ok" ++ [10] ++ concat (replicate 5 (L "retry" ++ [10])) ++ L "end" in
  len text <= usize_max
  /\ rl_text (collapse_repeated_lines text)
     = concat ((fun g => if collapses g then g.1 ++ run_marker g.2
                         else concat (replicate g.2 g.1)) <$> group (split_inclusive text))
  /\ rl_collapsed_runs (collapse_repeated_lines text) = 1%nat
  /\ rl_omitted_lines (collapse_repeated_lines text) = 4%nat.
Proof.
  intros text. assert (len text <= usize_max) as H by (vm_compute; discriminate).
  split; [exact H|]. destruct (collapse_lines_runs text H) as (_ & _ & Ht & Hc & Ho & _).
  split; [exact Ht|]. rewrite Hc, Ho. by vm_compute.
Defined.

(** Verifying the candidate of the hashed search gives what the exact search
    returns at that line: the two rolling hashes of equal ranges are equal and the
    binary search over them reaches every common prefix, so a collision costs a
    second search and never a different answer. *)
Theorem hashed_search_exact text start :
  Z.of_nat (length (split_inclusive text)) <= u32_max ->
  let l := LineLayout_new text in
  verified_candidate l start (best_hashed_candidate l (BlockHashes_new l) start)
  = best_exact_candidate l start.
Proof. intros Hu. by apply verified_spec. Qed.

Example hashed_search_exact_witness :
  let l := LineLayout_new (concat (replicate 4 (L "alpha" ++ [10] ++ L "beta" ++ [10]))) in
  verified_candidate l 0 (best_hashed_candidate l (BlockHashes_new l) 0) = mkCandidate 2 4 27.
Proof.
  intros l. unfold l. rewrite hashed_search_exact; [vm_compute; reflexivity|vm_compute; discriminate].
Defined.

(** The candidate of a line is a real repetition of a block of two to thirty-two
    lines whose marker is shorter than what it replaces, and no other repetition that
    starts there saves more. *)
Theorem block_search_optimal text start :
  Z.of_nat (length (split_inclusive text)) <= u32_max ->
  let l := LineLayout_new text in
  let c := best_exact_candidate l start in
  (present c = true ->
   (2 <= cd_block_lines c <= MAX_BLOCK_LINES)%nat /\ (2 <= cd_repetitions c)%nat
   /\ repeats text start (cd_block_lines c) (cd_repetitions c)
   /\ 0 < saving text start (cd_block_lines c) (cd_repetitions c))
  /\ forall k n, (2 <= k <= MAX_BLOCK_LINES)%nat -> (2 <= n)%nat -> repeats text start k n ->
     0 < saving text start k n ->
     present c = true /\ saving text start k n <= cd_savings c.
Proof.
  intros Hu l c. split; [by apply best_exact_sound|]. intros k n Hk Hn Hr Hs. by apply exact_optimal.
Qed.

Example block_search_optimal_witness :
  let text := concat (replicate 4 (L "alpha" ++ [10] ++ L "beta" ++ [10])) in
  repeats text 0 2 (cd_repetitions (best_exact_candidate (LineLayout_new text) 0)).
Proof.
  intros text.
  assert (Z.of_nat (length (split_inclusive text)) <= u32_max) as Hu by (vm_compute; discriminate).
  destruct (block_search_optimal text 0 Hu) as [H _].
  assert (present (best_exact_candidate (LineLayout_new text) 0) = true) as Hp by (vm_compute; reflexivity).
  destruct (H Hp) as (_ & _ & Hr & _).
  assert (cd_block_lines (best_exact_candidate (LineLayout_new text) 0) = 2%nat) as E by (vm_compute; reflexivity).
  rewrite E in Hr. exact Hr.
Defined.

(** C32: [collapse_repeated_blocks] returns for every text whose lines a 32-bit counter
    can number (the counter of repetitions has that width), and its text is that of
    pieces which, each written out as often as it is repeated, are the text: a line as
    it is, or a block of lines and a marker with the repetitions and the lines,
    shorter than the repetitions; the counters are those of the marked pieces. *)
Theorem collapse_blocks_expand text :
  Z.of_nat (length (split_inclusive text)) <= u32_max ->
  exists pieces,
    collapse_repeated_blocks text
    = Some (mkBlocks (concat (piece_text <$> pieces)) (length (List.filter repeated pieces))
        (sum_list_with (fun p => p.2 - 1)%nat (List.filter repeated pieces))
        (sum_list_with (fun p => length p.1 * (p.2 - 1))%nat (List.filter repeated pieces)))
    /\ Forall piece_ok pieces
    /\ concat (concat ((fun p => concat (replicate p.2 p.1)) <$> pieces)) = text
    /\ len (concat (piece_text <$> pieces)) + Z.of_nat (length (List.filter repeated pieces)) <= len text.
Proof.
  intros Hu. exists (pieces text 0 ++ rest_pieces text (ly_complete_lines (LineLayout_new text))).
  destruct (pieces_spec text Hu 0 ltac:(lia)) as [HF Hc].
  destruct (rest_pieces_spec text (ly_complete_lines (LineLayout_new text))) as [HFr Hr].
  assert (Forall piece_ok (pieces text 0 ++ rest_pieces text (ly_complete_lines (LineLayout_new text)))) as Hok
    by (by apply Forall_app).
  assert (concat (concat (piece_lines <$> pieces text 0
            ++ rest_pieces text (ly_complete_lines (LineLayout_new text)))) = text) as Ht.
  { rewrite fmap_app, concat_app, Hc, Hr. unfold block. rewrite drop_0, Nat.sub_0_r, take_drop.
    apply split_inclusive_concat. }
  split; [rewrite collapse_blocks_spec by done; done|]. split; [done|]. split; [exact Ht|].
  pose proof (piece_text_le text _ Hok) as Hle. rewrite Ht in Hle. exact Hle.
Qed.

Example collapse_blocks_expand_witness :
  exists pieces,
    collapse_repeated_blocks (concat (replicate 4 (L "alpha" ++ [10] ++ L "beta" ++ [10])))
    = Some (mkBlocks (concat (piece_text <$> pieces)) (length (List.filter repeated pieces))
        (sum_list_with (fun p => p.2 - 1)%nat (List.filter repeated pieces))
        (sum_list_with (fun p => length p.1 * (p.2 - 1))%nat (List.filter repeated pieces))).
Proof.
  destruct (collapse_blocks_expand (concat (replicate 4 (L "alpha" ++ [10] ++ L "beta" ++ [10]))))
    as (ps & H & _); [vm_compute; discriminate|]. exists ps. exact H.
Defined.

(** C33: [focus_error_output] returns for every text.  A text without an anchor is left
    as it is; else the output is the maximal blocks of retained lines and, for each gap
    between them, the gap or, when that is shorter, a marker with its lines.  The lines
    retained are exactly the edges and the context of every anchor, where a line is an
    anchor exactly when it has a term of the list, in letters of either case, that no
    identifier byte touches, or a word that ends with [Error] or [Exception]. *)
Theorem focus_keeps_errors text :
  len text <= u64_max ->
  let lines := split_inclusive text in
  let anchors := is_diagnostic_anchor <$> lines in
  let count := length (filter (fun a => a = true) anchors) in
  let ss := segments (group (retained_lines anchors)) lines in
  focus_error_output text = Some (if (count =? 0)%nat then mkFocused text 0 0 0 else focused count ss)
  /\ concat ((fun s => concat s.2) <$> ss) = text
  /\ (forall i, retained_lines anchors !! i = Some true
      <-> (i < length lines)%nat
          /\ ((i < ERROR_EDGE_LINES)%nat \/ (length lines <= i + ERROR_EDGE_LINES)%nat
              \/ exists a, anchors !! a = Some true /\ (a <= i + ERROR_CONTEXT_BEFORE)%nat
                           /\ (i <= a + ERROR_CONTEXT_AFTER)%nat))
  /\ (forall a line, lines !! a = Some line -> (anchors !! a = Some true
        <-> (exists term, In term ERROR_ANCHOR_TERMS /\ stands_alone term line)
            \/ ends_word (L "Error") line \/ ends_word (L "Exception") line))
  /\ len (ef_text (focused count ss)) + Z.of_nat (ef_omitted_spans (focused count ss)) <= len text.
Proof.
  intros Hu lines anchors count ss.
  assert (concat ((fun s => concat s.2) <$> ss) = text) as Hc.
  { unfold ss. rewrite segments_concat by (rewrite retained_length; apply length_fmap).
    apply split_inclusive_concat. }
  split; [by apply focus_spec|]. split; [done|]. split; [|split].
  - intros i. rewrite retained_spec. unfold anchors. by rewrite length_fmap.
  - intros a line Hl. unfold anchors. rewrite list_lookup_fmap, Hl, <- is_diagnostic_anchor_spec. cbn. split; congruence.
  - pose proof (focused_len count ss) as Hle. rewrite Hc in Hle. exact Hle.
Qed.

Example focus_keeps_errors_witness :
  let text := concat (replicate 20 (L "step" ++ [10])) ++ L "error: no such file" ++ [10]
              ++ concat (replicate 20 (L "tail" ++ [10])) in
  exists r, focus_error_output text = Some r /\ ef_diagnostic_lines r = 1%nat /\ ef_omitted_spans r = 2%nat.
Proof.
  intros text. assert (len text <= u64_max) as H by (vm_compute; discriminate).
  destruct (focus_keeps_errors text H) as [He _]. eexists. split; [exact He|].
  split; vm_compute; reflexivity.
Defined.
