(* ===== verification/ShellProps.v ===== *)
(** * ShellProps: what the shell's front end promises

    A script is parsed or refused with a place in it; a word becomes the fields its
    quotes allow; an unquoted pattern names exactly the paths that match it. *)

From S2P Require Import Prelude Text Syntax Parser ParserFacts ShellState Expand Glob.

(** ** Parsing *)

(** C34: Parsing ends for every source, in every build: it gives a script of that source
    whose spans lie in it, whose substitutions hold at least one command and whose
    pipelines cover the commands in order, or a diagnostic whose span lies in it. *)
Theorem parse_total debug source :
  match parse debug source with
  | Done s => script_wf s /\ sc_source s = source
  | Failed d => span_ok (str_len source) (dg_span d)
  | OutOfFuel => False
  end.
Proof. by pose proof (parse_at_good debug MAX_COMMAND_SUBSTITUTION_DEPTH 0 source ltac:(lia)). Qed.

(** Words in single quotes are parsed back, whatever they hold but a quote: one
    command, one word each, one quoted literal per word. *)
Theorem quoted_words_roundtrip debug a args :
  Forall (fun a => ~ In 39 a) (a :: args) ->
  exists words span pipelines,
    Forall2 (fun a w => exists part span, w = mkWord [part] span /\ part_literal part = a /\ part_quote part = Single)
      (a :: args) words
    /\ parse debug (quote_words (a :: args))
       = Done (mkScript (quote_words (a :: args)) [mkCommand words [] span] pipelines
                 (mkSpan 0 (str_len (quote_words (a :: args))))).
Proof. apply parse_quoted. Qed.

Example quoted_words_roundtrip_witness :
  let args := [L "a b"; L "$HOME | rm"; []] in
  Forall (fun a => ~ In 39 a) args
  /\ exists words span pipelines, parse false (quote_words args)
       = Done (mkScript (quote_words args) [mkCommand words [] span] pipelines
                 (mkSpan 0 (str_len (quote_words args))))
     /\ Forall2 (fun a w => exists part span, w = mkWord [part] span /\ part_literal part = a /\ part_quote part = Single)
          args words.
Proof.
  intros args. assert (Forall (fun a => ~ In 39 a) args) as H.
  { repeat constructor; vm_compute; intuition discriminate. }
  split; [exact H|]. destruct (quoted_words_roundtrip false (L "a b") [L "$HOME | rm"; []] H)
    as (words & span & pipelines & Hw & Hp).
  exists words, span, pipelines. split; [exact Hp|exact Hw].
Defined.

(** C35: Without debug assertions the dollar of a parameter and the closing parenthesis of
    a substitution are never consumed: a script that such a build parses has no
    parameter at all and no substitution outside double quotes, neither itself nor in the
    scripts nested in its double-quoted substitutions, although the same sources are
    scripts for a build that evaluates its assertions. *)
Theorem release_rejects_parameters source :
  (forall s, parse false source = Done s -> release_script s)
  /\ (exists d, parse false (L "echo $HOME") = Failed d)
  /\ (exists s, parse true (L "echo $HOME") = Done s)
  /\ (exists d, parse false (L "echo $(pwd)") = Failed d)
  /\ (exists s, parse true (L "echo $(pwd)") = Done s)
  /\ (exists d, parse false ([34] ++ L "$(echo $HOME)" ++ [34]) = Failed d)
  /\ (exists s, parse true ([34] ++ L "$(echo $HOME)" ++ [34]) = Done s).
Proof.
  split; [apply release_parse_at|].
  repeat split; eexists; vm_compute; reflexivity.
Qed.

(** ** Words *)

(** Expanding a word is cutting the bytes of its parts at the separators that came
    from unquoted expansions: each field's bytes, with the flags that let them be
    pathname operators, are those of the reference, a field that a quoted part
    touched exists even when it is empty, and only a missing substitution value fails. *)
Theorem expand_fields_exact word state values :
  match word_items state (wd_parts word) values with
  | Some items => exists fields, expand_word_with_substitutions word state values = Some fields
      /\ (segment_flags ∘ ew_pathname_segments) <$> fields = fields_of items None
      /\ Forall (fun f => ew_span f = wd_span word
                          /\ ew_value f = (segment_flags (ew_pathname_segments f)).*1) fields
  | None => expand_word_with_substitutions word state values = None
  end.
Proof.
  pose proof (expand_word_spec word state values) as H. destruct (word_items _ _ _); [|done].
  destruct H as (fields & E & Hf & Hall). exists fields. split; [done|]. split; [done|].
  eapply list.Forall_impl; [exact Hall|]. intros f [Hs [Hv _]]. by split.
Qed.

(** ** Pathnames *)

(** The table of [matches_component] decides the language of the pattern, save that
    a name starting with a dot is only matched by a pattern starting with one. *)
Theorem glob_matching_exact pattern candidate :
  matches_component pattern candidate = true
  <-> Matches pattern candidate /\ (head candidate = Some 46 -> head pattern = Some (TLiteral 46)).
Proof. apply matches_component_spec. Qed.

(** Every component of an expanded word is found in its path, at the place where the
    path has it: the pattern compiled is that of the path cut at its separators, each
    piece with its own flags, so that a quoted unit is never an operator and a
    pattern is only refused for its classes. *)
Theorem path_pattern_aligned word state values fields f budget :
  expand_word_with_substitutions word state values = Some fields -> f ∈ fields ->
  let r := compile_path_pattern f budget in
  r.1 = (if MAX_PATHNAME_PATTERN_UNITS <? gb_pattern_units r.2
         then Err (mkGlobError ResourceLimit
                (L "pathname expansion retained more than 32768 active pattern units") (ew_span f))
         else (fun cs => mkCompiled cs (existsb is_pattern cs)
                           match rev (ew_value f) with unit_ :: _ => is_separator unit_ | [] => false end)
              <$> path_pattern (ew_span f) (segment_flags (ew_pathname_segments f))).
Proof.
  intros He Hf r. apply compile_path_pattern_spec.
  pose proof (expand_word_spec word state values) as H. destruct (word_items _ _ _); [|congruence].
  destruct H as (fields' & E & _ & Hall). simplify_eq. by apply (proj1 (list.Forall_forall _ _) Hall) in Hf as [_ [Hv _]].
Qed.

(** The fields of a word, when there is no missing value. *)
Definition fields_with (name : str) (value : bytes) (w : Word) : list ExpandedWord :=
  default [] (s ← to_option (set_variable name value (ShellState_new [])); expand_word_with_substitutions w s.2 []).

Definition word_of (parts : list WordPart) : Word := mkWord parts (mkSpan 0 0).

Example path_pattern_aligned_witness :
  let w := word_of [WLiteral (L "src/") Unquoted (mkSpan 0 0); WLiteral (L "*") Single (mkSpan 0 0);
                    WLiteral (L "/*.rs") Unquoted (mkSpan 0 0)] in
  let s := ShellState_new [] in
  exists f, expand_word_with_substitutions w s [] = Some [f]
  /\ (compile_path_pattern f (mkGlobBudget 0 0 0)).1
     = Ok (mkCompiled [PNormal (L "src") None; PNormal (L "*") None;
                       PNormal (L "*.rs") (Some [TAnySequence; TLiteral 46; TLiteral 114; TLiteral 115])] true false).
Proof.
  intros w s. assert (exists f, expand_word_with_substitutions w s [] = Some [f]) as [f Hf]
    by (eexists; vm_compute; reflexivity).
  exists f. split; [exact Hf|].
  assert (f ∈ [f]) as Hin by (constructor).
  rewrite (path_pattern_aligned w s [] [f] f (mkGlobBudget 0 0 0) Hf Hin).
  vm_compute in Hf. injection Hf as <-. vm_compute. reflexivity.
Defined.

(** C36: Expanding a word's pattern gives, sorted by their bytes and each once, exactly the
    paths that exist in the file system along the components of the pattern, within
    the limits of the command; it never refuses a pattern that compiles, and says
    that nothing matched only when no path does. *)
Theorem pathname_expansion_exact fs word cwd budget cs :
  ew_value word = (segment_flags (ew_pathname_segments word)).*1 ->
  has_active_pattern_introducer (ew_pathname_segments word) = true ->
  path_pattern (ew_span word) (segment_flags (ew_pathname_segments word)) = Ok cs -> existsb is_pattern cs = true ->
  let r := expand_pathname fs word cwd budget in
  match r.1 with
  | Ok words => exists paths, words = (fun path => from_pathname path (ew_span word)) <$> paths /\ paths <> []
      /\ Sorted.StronglySorted native_lt paths /\ (forall path, path ∈ paths <-> named_path fs cwd word cs path)
      /\ (budget_ok budget -> budget_ok r.2)
  | Err e => match pe_kind e with
             | InvalidPattern => False
             | NoMatches => forall path, ~ named_path fs cwd word cs path
             | ResourceLimit | Filesystem => True
             end
  end.
Proof. intros Hv Hi Hcs Hp. by apply expand_pathname_spec. Qed.

(** A directory with four entries, one of them hidden. *)
Definition small_fs : FileSystem :=
  mkFs (fun path => if bool_decide (path = L "/w") then Ok [Ok (L "b.rs"); Ok (L ".h.rs"); Ok (L "a.rs"); Ok (L "c.txt")]
                    else Err (mkIoError NotFound []))
    (fun _ => Ok false) (fun _ => Ok false).

Definition small_word : ExpandedWord := mkExpanded (L "*.rs") (mkSpan 0 4) [mkSegment (L "*.rs") true].

Example pathname_expansion_exact_witness :
  (expand_pathname small_fs small_word (L "/w") (mkGlobBudget 0 0 0)).1
    = Ok [from_pathname (L "a.rs") (mkSpan 0 4); from_pathname (L "b.rs") (mkSpan 0 4)]
  /\ exists cs, (forall path, path ∈ [L "a.rs"; L "b.rs"] <-> named_path small_fs (L "/w") small_word cs path)
  /\ budget_ok (expand_pathname small_fs small_word (L "/w") (mkGlobBudget 0 0 0)).2.
Proof.
  split; [vm_compute; reflexivity|].
  assert (exists cs, path_pattern (mkSpan 0 4) (segment_flags (ew_pathname_segments small_word)) = Ok cs
    /\ existsb is_pattern cs = true) as (cs & Hcs & Hp) by (eexists; vm_compute; split; reflexivity).
  exists cs. pose proof (pathname_expansion_exact small_fs small_word (L "/w") (mkGlobBudget 0 0 0) cs
    eq_refl eq_refl Hcs Hp) as H. cbv zeta in H.
  assert (fst (expand_pathname small_fs small_word (L "/w") (mkGlobBudget 0 0 0))
    = Ok ((fun path => from_pathname path (mkSpan 0 4)) <$> [L "a.rs"; L "b.rs"])) as E by (vm_compute; reflexivity).
  rewrite E in H. destruct H as (paths & Hw & _ & _ & Hn & Hb).
  assert (paths = [L "a.rs"; L "b.rs"]) as ->.
  { destruct paths as [|p [|q [|? ?]]]; try discriminate Hw. injection Hw as -> ->. reflexivity. }
  split; [exact Hn|]. apply Hb. split; discriminate.
Defined.
