(* ===== verification/Workspace.v ===== *)
(** * Workspace: logical paths and errors of the platform layer

    crates/ash-platform/src: the errors of [lib.rs], [validate_logical] and [reject_reserved] of [workspace.rs].  A logical
    path is a canonical relative path, [/]-separated on every system. *)

From S2P Require Import Prelude Text.

(** [std::io::ErrorKind], as far as the code distinguishes it. *)
Inductive IoKind : Type := NotFound | AlreadyExists | InvalidInput | BrokenPipe | OtherIo.

Inductive PlatformError : Type :=
| PL_InvalidLogicalPath
| PL_WorkspaceEscape
| PL_InvalidWorkspace
| PL_NonUtf8Path
| PL_InvalidEnvironment
| PL_InvalidProcessGraph
| PL_InvalidProcessRedirection
| PL_ProcessRedirection (path : str) (source : IoKind)
| PL_InvalidMutationTarget
| PL_ReservedPath
| PL_MutationLockPoisoned
| PL_JournalCorrupt
| PL_RecoveryRequired
| PL_InputTooLarge (size max : Z)
| PL_EntryLimit (max : Z)
| PL_Io (kind : IoKind).

#[export] Instance IoKind_eq_dec : EqDecision IoKind.
Proof. solve_decision. Defined.
#[export] Instance PlatformError_eq_dec : EqDecision PlatformError.
Proof. solve_decision. Defined.

Definition STATE_DIRECTORY : str := L ".ash".

(** [&str::starts_with] of a string. *)
Definition starts_with_str (p s : str) : bool := bool_decide (p `prefix_of` s).

Definition bad_component (component : str) : bool :=
  bool_decide (component = []) || bool_decide (component = L ".")
  || bool_decide (component = L "..").

Definition validate_logical (logical : str) : result PlatformError unit :=
  if bool_decide (logical = []) || (4096 <? str_len logical)
     || (contains 0 logical || contains 92 logical || contains 58 logical)
     || starts_with 47 logical || ends_with 47 logical
     || (negb (bool_decide (logical = L ".")) && existsb bad_component (split 47 logical))
  then Err PL_InvalidLogicalPath else Ok tt.

(** The test of [reject_reserved], also made on the paths of a manifest. *)
Definition reserved_path (logical : str) : bool :=
  bool_decide (logical = STATE_DIRECTORY) || starts_with_str (L ".ash/") logical.

(** [internal_state] is the workspace's flag: its [.ash] is ash's own. *)
Definition reject_reserved (internal_state : bool) (logical : str) : result PlatformError unit :=
  if internal_state && reserved_path logical then Err PL_ReservedPath else Ok tt.

(** A path that both the transaction and its manifest accept. *)
Definition target_ok (logical : str) : bool :=
  is_ok (validate_logical logical) && negb (bool_decide (logical = L ".")) && negb (reserved_path logical).

Lemma validate_logical_ok s : validate_logical s = Ok tt <-> is_ok (validate_logical s) = true.
Proof. destruct (validate_logical s) as [[]|]; done. Qed.

Lemma validate_logical_len s : is_ok (validate_logical s) = true -> str_len s <= 4096.
Proof.
  unfold validate_logical. destruct (4096 <? str_len s) eqn:E; [by rewrite orb_true_r|]. intros _. lia.
Qed.

(** The components of an accepted path are its own, and none names [.ash]. *)
Lemma target_components s :
  target_ok s = true -> split 47 s <> [] /\ head (split 47 s) <> Some STATE_DIRECTORY.
Proof.
  intros Ht. split; [apply split_nonempty|]. intros Hh.
  unfold target_ok, reserved_path in Ht. zbool.
  pose proof (join_split 47 s) as Hj. destruct (split 47 s) as [|w ws]; [done|].
  injection Hh as ->. destruct ws as [|w ws].
  - cbn in Hj. subst s. case_bool_decide; done.
  - rewrite join_cons in Hj by done. subst s.
    unfold starts_with_str in *.
    by rewrite bool_decide_true in * by (by exists (join 47 (w :: ws))).
Qed.
