(* ===== verification/Manifest.v ===== *)
(** * Manifest: file actions and the journal's manifest

    The data of transaction.rs, [validate_actions], and the binary manifest of a
    journal: [encode_manifest], [decode_manifest] and their helpers.  The decoder's
    [&mut cursor] is a state that each reader passes on.  [hash] is BLAKE3. *)

From S2P Require Import Prelude Text Workspace.

(** ** Constants *)

Definition MANIFEST_MAGIC : bytes := L "ASHFS002".
Definition FORMAT_MARKER : bytes := L "ash-workspace-state-v1" ++ [10].
Definition COMMITTED_MARKER : bytes := L "committed" ++ [10].
Definition NONE_LENGTH : Z := u32_max.
Definition MAX_MANIFEST_BYTES : Z := 4 * 1024 * 1024.
Definition MAX_ACTIONS : Z := 256.
Definition MAX_FILE_TRANSACTION_FILE_BYTES : Z := 128 * 1024 * 1024.
Definition MAX_FILE_TRANSACTION_TOTAL_BYTES : Z := 128 * 1024 * 1024.

(** ** Data *)

Inductive FileActionKind : Type := FA_Create | FA_Copy | FA_Move | FA_Remove | FA_Replace.

#[export] Instance FileActionKind_eq_dec : EqDecision FileActionKind.
Proof. solve_decision. Defined.

(** [kind as u8], and the [match] that reads it back. *)
Definition kind_byte (k : FileActionKind) : Z :=
  match k with FA_Create => 0 | FA_Copy => 1 | FA_Move => 2 | FA_Remove => 3 | FA_Replace => 4 end.

Definition kind_of_byte (b : Z) : option FileActionKind :=
  if b =? 0 then Some FA_Create else if b =? 1 then Some FA_Copy
  else if b =? 2 then Some FA_Move else if b =? 3 then Some FA_Remove
  else if b =? 4 then Some FA_Replace else None.

Record FileAction : Type := mkAction {
  fa_kind : FileActionKind;
  fa_path : str;
  fa_destination : option str;
  fa_expected_digest : option bytes;
  fa_content : option bytes;
}.

Definition FileAction_create (path : str) (content : bytes) : FileAction :=
  mkAction FA_Create path None None (Some content).
Definition FileAction_copy (path destination : str) (expected_digest : bytes) : FileAction :=
  mkAction FA_Copy path (Some destination) (Some expected_digest) None.
Definition FileAction_move_file (path destination : str) (expected_digest : bytes) : FileAction :=
  mkAction FA_Move path (Some destination) (Some expected_digest) None.
Definition FileAction_remove (path : str) (expected_digest : bytes) : FileAction :=
  mkAction FA_Remove path None (Some expected_digest) None.
Definition FileAction_replace (path : str) (expected_digest content : bytes) : FileAction :=
  mkAction FA_Replace path None (Some expected_digest) (Some content).

Record FileTransactionLimits : Type := mkLimits { max_file_bytes : Z; max_total_bytes : Z }.

Definition FileTransactionLimits_new (file total : Z) : result PlatformError FileTransactionLimits :=
  if (file =? 0) || (total =? 0) || (total <? file)
     || (MAX_FILE_TRANSACTION_FILE_BYTES <? file) || (MAX_FILE_TRANSACTION_TOTAL_BYTES <? total)
  then Err PL_InvalidMutationTarget else Ok (mkLimits file total).

Record PreparedAction : Type := mkPrepared {
  pa_kind : FileActionKind;
  pa_path : str;
  pa_destination : option str;
  pa_digest : bytes;
  pa_size : Z;
  pa_preimage_digest : option bytes;
  pa_preimage_size : option Z;
}.

#[export] Instance PreparedAction_eq_dec : EqDecision PreparedAction.
Proof. solve_decision. Defined.

(** ** Validation of a transaction *)

Definition is_none {A} (o : option A) : bool := match o with None => true | Some _ => false end.
Definition is_some {A} (o : option A) : bool := negb (is_none o).

Definition shape_valid (a : FileAction) : bool :=
  match fa_kind a with
  | FA_Create => is_none (fa_destination a) && is_none (fa_expected_digest a) && is_some (fa_content a)
  | FA_Copy | FA_Move =>
      is_some (fa_destination a) && is_some (fa_expected_digest a) && is_none (fa_content a)
  | FA_Remove => is_none (fa_destination a) && is_some (fa_expected_digest a) && is_none (fa_content a)
  | FA_Replace => is_none (fa_destination a) && is_some (fa_expected_digest a) && is_some (fa_content a)
  end.

(** The checks of one path, and [paths.insert]. *)
Definition claim_path (internal_state : bool) (path : str) (paths : gset str)
    : result PlatformError (gset str) :=
  _ ← validate_logical path;
  _ ← reject_reserved internal_state path;
  if bool_decide (path = L ".") || bool_decide (path ∈ paths) then Err PL_InvalidMutationTarget
  else Ok ({[path]} ∪ paths).

Fixpoint validate_each (internal_state : bool) (actions : list FileAction) (paths : gset str)
    : result PlatformError unit :=
  match actions with
  | [] => Ok tt
  | action :: actions =>
      paths ← claim_path internal_state (fa_path action) paths;
      paths ← match fa_destination action with
              | Some destination => claim_path internal_state destination paths
              | None => Ok paths
              end;
      if negb (shape_valid action) then Err PL_InvalidMutationTarget
      else validate_each internal_state actions paths
  end.

Definition validate_actions (internal_state : bool) (actions : list FileAction)
    : result PlatformError unit :=
  if bool_decide (actions = []) || (MAX_ACTIONS <? len actions) then Err PL_InvalidMutationTarget
  else validate_each internal_state actions ∅.

(** ** Encoding *)

(** One total of [validate_manifest_sizes]: [size] is added to [total]. *)
Definition add_size (size total : Z) : result PlatformError Z :=
  if MAX_FILE_TRANSACTION_FILE_BYTES <? size then Err PL_JournalCorrupt
  else
    total ← ok_or (checked_add u64_max total size) PL_JournalCorrupt;
    if MAX_FILE_TRANSACTION_TOTAL_BYTES <? total then Err PL_JournalCorrupt else Ok total.

Fixpoint sizes_loop (actions : list PreparedAction) (materialized preimages : Z)
    : result PlatformError unit :=
  match actions with
  | [] => Ok tt
  | action :: actions =>
      materialized ← add_size (pa_size action) materialized;
      preimages ← match pa_preimage_size action with
                  | Some size => add_size size preimages
                  | None => Ok preimages
                  end;
      sizes_loop actions materialized preimages
  end.

Definition validate_manifest_sizes (actions : list PreparedAction) : result PlatformError unit :=
  sizes_loop actions 0 0.

Definition encode_text (value : str) : result PlatformError bytes :=
  if u32_max <? str_len value then Err PL_JournalCorrupt
  else Ok (to_be_bytes 4 (str_len value) ++ str_bytes value).

Definition encode_optional_text (value : option str) : result PlatformError bytes :=
  match value with Some value => encode_text value | None => Ok (to_be_bytes 4 NONE_LENGTH) end.

Definition encode_preimage (a : PreparedAction) : result PlatformError bytes :=
  match pa_preimage_digest a, pa_preimage_size a with
  | Some digest, Some size => Ok ([1] ++ digest ++ to_be_bytes 8 size)
  | None, None => Ok [0]
  | _, _ => Err PL_JournalCorrupt
  end.

(** The body of the loop over the actions. *)
Definition encode_action (a : PreparedAction) : result PlatformError bytes :=
  path ← encode_text (pa_path a);
  destination ← encode_optional_text (pa_destination a);
  preimage ← encode_preimage a;
  Ok ([kind_byte (pa_kind a)] ++ path ++ destination ++ pa_digest a ++ to_be_bytes 8 (pa_size a)
      ++ preimage).

Definition encode_manifest (hash : bytes -> bytes) (actions : list PreparedAction)
    : result PlatformError bytes :=
  _ ← validate_manifest_sizes actions;
  if u32_max <? len actions then Err PL_JournalCorrupt
  else
    rows ← mapM encode_action actions;
    let body := MANIFEST_MAGIC ++ to_be_bytes 4 (len actions) ++ concat rows in
    Ok (body ++ hash body).

(** ** Decoding *)

(** A reader of [bytes] from a cursor. *)
Definition reader (A : Type) : Type := bytes -> Z -> result PlatformError (A * Z).

#[export] Instance reader_ret : MRet reader := fun A a b c => Ok (a, c).
#[export] Instance reader_bind : MBind reader := fun A B f m b c =>
  match m b c with Ok (a, c) => f a b c | Err e => Err e end.

Definition of_result {A} (r : result PlatformError A) : reader A := fun b c => a ← r; Ok (a, c).
Definition corrupt {A} : reader A := fun _ _ => Err PL_JournalCorrupt.

Definition take_bytes (length : Z) : reader bytes := fun b cursor =>
  end_ ← ok_or (checked_add usize_max cursor length) PL_JournalCorrupt;
  if len b <? end_ then Err PL_JournalCorrupt
  else Ok (slice b (Z.to_nat cursor) (Z.to_nat end_), end_).

Definition read_u8 : reader Z := b ← take_bytes 1; mret (from_be_bytes b).
Definition read_u32 : reader Z := b ← take_bytes 4; mret (from_be_bytes b).
Definition read_u64 : reader Z := b ← take_bytes 8; mret (from_be_bytes b).

Definition decode_utf8 (length : Z) : reader str :=
  value ← take_bytes length;
  of_result (map_err (fun _ => PL_JournalCorrupt) (from_utf8 value)).

Definition decode_text : reader str :=
  length ← read_u32;
  if (length =? NONE_LENGTH) || (4096 <? length) then corrupt else decode_utf8 length.

Definition decode_optional_text : reader (option str) :=
  length ← read_u32;
  if length =? NONE_LENGTH then mret None
  else if 4096 <? length then corrupt
  else value ← decode_utf8 length; mret (Some value).

Definition decode_kind : reader FileActionKind :=
  byte ← read_u8; of_result (ok_or (kind_of_byte byte) PL_JournalCorrupt).

Definition decode_preimage : reader (option bytes * option Z) :=
  flag ← read_u8;
  if flag =? 0 then mret (None, None)
  else if flag =? 1 then
    digest ← take_bytes 32; size ← read_u64; mret (Some digest, Some size)
  else corrupt.

(** The checks of one decoded path, and [paths.insert]. *)
Definition claim_decoded (path : str) (paths : gset str) : result PlatformError (gset str) :=
  _ ← map_err (fun _ => PL_JournalCorrupt) (validate_logical path);
  if bool_decide (path = L ".") || reserved_path path || bool_decide (path ∈ paths)
  then Err PL_JournalCorrupt else Ok ({[path]} ∪ paths).

Definition prepared_shape_valid (a : PreparedAction) : bool :=
  match pa_kind a with
  | FA_Create | FA_Remove => is_none (pa_destination a) && is_none (pa_preimage_digest a)
  | FA_Copy | FA_Move => is_some (pa_destination a) && is_none (pa_preimage_digest a)
  | FA_Replace =>
      is_none (pa_destination a) && is_some (pa_preimage_digest a) && is_some (pa_preimage_size a)
  end.

(** The fields of one action. *)
Definition decode_fields : reader PreparedAction :=
  kind ← decode_kind;
  path ← decode_text;
  destination ← decode_optional_text;
  digest ← take_bytes 32;
  size ← read_u64;
  preimage ← decode_preimage;
  mret (mkPrepared kind path destination digest size preimage.1 preimage.2).

(** One turn of the loop: the action and the paths claimed so far. *)
Definition decode_action (paths : gset str) : reader (PreparedAction * gset str) :=
  action ← decode_fields;
  paths ← of_result (claim_decoded (pa_path action) paths);
  paths ← of_result (match pa_destination action with
                     | Some destination => claim_decoded destination paths
                     | None => Ok paths
                     end);
  if prepared_shape_valid action then mret (action, paths) else corrupt.

Fixpoint decode_actions (count : nat) (paths : gset str) : reader (list PreparedAction) :=
  match count with
  | O => mret []
  | S count =>
      step ← decode_action paths;
      actions ← decode_actions count step.2;
      mret (step.1 :: actions)
  end.

(** The [body], without its checksum. *)
Definition decode_body : reader (list PreparedAction) :=
  magic ← take_bytes (len MANIFEST_MAGIC);
  if negb (bool_decide (magic = MANIFEST_MAGIC)) then corrupt
  else
    count ← read_u32;
    if (count =? 0) || (MAX_ACTIONS <? count) then corrupt
    else decode_actions (Z.to_nat count) ∅.

Definition decode_manifest (hash : bytes -> bytes) (b : bytes)
    : result PlatformError (list PreparedAction) :=
  if (len b <? len MANIFEST_MAGIC + 4 + 32) || (MAX_MANIFEST_BYTES <? len b) then Err PL_JournalCorrupt
  else
    let body := take (length b - 32) b in
    if negb (bool_decide (hash body = drop (length b - 32) b)) then Err PL_JournalCorrupt
    else
      decoded ← decode_body body 0;
      if negb (decoded.2 =? len body) then Err PL_JournalCorrupt
      else
        _ ← validate_manifest_sizes decoded.1;
        Ok decoded.1.

(** ** What the manifest's readers accept

    A reader is described by a relation between the value it returns and the bytes
    it consumes; relations compose as the readers do.  The decoder of a manifest
    then accepts exactly what the encoder writes of well-formed actions. *)

(** ** Readers and relations *)

Definition within (b : bytes) (c : Z) : Prop :=
  forallb byte_ok b = true /\ 0 <= c <= len b /\ len b <= MAX_MANIFEST_BYTES.

Definition reads {A} (m : reader A) (R : A -> bytes -> Prop) : Prop :=
  forall b c x c', within b c ->
    (m b c = Ok (x, c') <->
     exists e, R x e /\ e `prefix_of` drop (Z.to_nat c) b /\ c' = c + len e).

Lemma within_prefix b c e :
  within b c -> e `prefix_of` drop (Z.to_nat c) b ->
  within b (c + len e) /\ forallb byte_ok e = true
  /\ forall e', e' `prefix_of` drop (Z.to_nat (c + len e)) b
                <-> e ++ e' `prefix_of` drop (Z.to_nat c) b.
Proof.
  intros (Hb & Hc & Hm) [k Hk].
  assert (length b - Z.to_nat c = length e + length k)%nat as Hl
    by (rewrite <- length_drop, Hk; apply length_app).
  unfold len in *. split; [|split].
  - unfold within, len. split; [done|]. lia.
  - assert (forallb byte_ok (drop (Z.to_nat c) b) = true) as Hd.
    { rewrite <- (take_drop (Z.to_nat c) b), forallb_app in Hb. by zbool. }
    rewrite Hk, forallb_app in Hd. by zbool.
  - intros e'. replace (Z.to_nat (c + _)) with (Z.to_nat c + length e)%nat by lia.
    rewrite <- drop_drop, Hk, drop_app_length. split.
    + intros Hp. by apply prefix_app.
    + intros Hp. by apply prefix_app_inv in Hp.
Qed.

Lemma reads_ret {A} (a : A) : reads (mret a) (fun x e => x = a /\ e = []).
Proof.
  intros b c x c' _. cbn. split.
  - intros [= <- <-]. exists []. split; [done|]. split; [apply prefix_nil|]. unfold len. cbn. lia.
  - intros (e & [-> ->] & _ & ->). unfold mret, reader_ret, len. cbn. by rewrite Z.add_0_r.
Qed.

Lemma reads_result {A} (r : result PlatformError A) : reads (of_result r) (fun x e => r = Ok x /\ e = []).
Proof.
  destruct r as [a|err].
  - intros b c x c' Hw. rewrite (reads_ret a b c x c' Hw). naive_solver.
  - intros b c x c' Hw. split; [done|]. naive_solver.
Qed.

Lemma reads_corrupt {A} : reads (@corrupt A) (fun _ _ => False).
Proof. intros b c x c' _. split; [done|]. naive_solver. Qed.

Lemma reads_bind {A B} (m : reader A) (k : A -> reader B) R Q :
  reads m R -> (forall x e, R x e -> reads (k x) (Q x)) ->
  reads (m ≫= k) (fun y e => exists x e1 e2, R x e1 /\ Q x y e2 /\ e = e1 ++ e2).
Proof.
  intros Hm Hk b c y c' Hw. unfold mbind, reader_bind. split.
  - destruct (m b c) as [[x c1]|] eqn:E; [|done]. intros H.
    apply (Hm b c x c1 Hw) in E as (e1 & Hr & Hp & ->).
    destruct (within_prefix b c e1 Hw Hp) as (Hw1 & _ & Hpre).
    apply (Hk x e1 Hr b _ y c' Hw1) in H as (e2 & Hq & Hp2 & ->).
    exists (e1 ++ e2). split; [naive_solver|]. split; [by apply Hpre|]. rewrite len_app. lia.
  - intros (e & (x & e1 & e2 & Hr & Hq & ->) & Hp & ->).
    assert (e1 `prefix_of` drop (Z.to_nat c) b) as Hp1 by (by eapply prefix_app_l).
    destruct (within_prefix b c e1 Hw Hp1) as (Hw1 & _ & Hpre).
    rewrite (proj2 (Hm b c x (c + len e1) Hw)) by eauto.
    apply (Hk x e1 Hr b _ y _ Hw1). exists e2. rewrite len_app, Z.add_assoc. naive_solver.
Qed.

Lemma reads_equiv {A} (m : reader A) (R Q : A -> bytes -> Prop) :
  reads m R -> (forall x e, forallb byte_ok e = true -> R x e <-> Q x e) -> reads m Q.
Proof.
  intros Hm Heq b c x c' Hw. rewrite (Hm b c x c' Hw).
  split; intros (e & Hr & Hp & ->); exists e; (split; [|done]);
    apply Heq; try done; by destruct (within_prefix b c e Hw Hp) as (_ & ? & _).
Qed.

Lemma reads_if {A} (t : bool) (m n : reader A) R Q :
  reads m R -> reads n Q -> reads (if t then m else n) (fun x e => if t then R x e else Q x e).
Proof. by destruct t. Qed.

(** ** The readers *)

Lemma reads_take n : 0 <= n -> reads (take_bytes n) (fun x e => x = e /\ len e = n).
Proof.
  intros Hn b c x c' (Hb & Hc & Hm). unfold take_bytes, checked_add.
  unfold MAX_MANIFEST_BYTES in Hm. split.
  - intros H. inv_ok. subst.
    match goal with H : (if _ <=? _ then _ else _) = Some _ |- _ => destruct (_ <=? _) eqn:E in H; [|done] end.
    simplify_eq. exists (slice b (Z.to_nat c) (Z.to_nat (c + n))).
    assert (len (slice b (Z.to_nat c) (Z.to_nat (c + n))) = n) as Hl.
    { unfold len. rewrite length_slice; unfold len in *; lia. }
    rewrite Hl. split; [done|]. split; [|done]. unfold slice. apply prefix_take.
  - intros (e & [-> <-] & [k Hk] & ->).
    assert (length b - Z.to_nat c = length e + length k)%nat as Hl
      by (rewrite <- length_drop, Hk; apply length_app).
    unfold len in *.
    rewrite (proj2 (Z.leb_le _ _)) by lia. cbn.
    rewrite (proj2 (Z.ltb_ge _ _)) by lia. repeat f_equal.
    unfold slice. replace (_ - _)%nat with (length e) by lia. by rewrite Hk, take_app_length.
Qed.

Lemma be_bytes_iff k e x :
  forallb byte_ok e = true ->
  (x = from_be_bytes e /\ len e = Z.of_nat k) <-> (0 <= x < 256 ^ Z.of_nat k /\ e = to_be_bytes k x).
Proof.
  intros Hb. split.
  - intros [-> Hl]. pose proof (from_be_bytes_bounds e Hb) as Hr. rewrite Hl in Hr. split; [done|].
    replace k with (length e) by (unfold len in Hl; lia). by rewrite to_from_be_bytes.
  - intros [Hx ->]. rewrite from_to_be_bytes by done. unfold len. by rewrite length_to_be_bytes.
Qed.

Lemma reads_be k :
  reads (b ← take_bytes (Z.of_nat k); mret (from_be_bytes b))
        (fun x e => 0 <= x < 256 ^ Z.of_nat k /\ e = to_be_bytes k x).
Proof.
  eapply reads_equiv.
  - apply reads_bind; [apply reads_take; lia|]. intros b e _. apply reads_ret.
  - intros x e Hb. cbn beta. rewrite <- (be_bytes_iff k e x Hb). split.
    + intros (b & e1 & e2 & [-> Hl] & [-> ->] & ->). by rewrite app_nil_r.
    + intros [-> Hl]. exists e, e, []. by rewrite app_nil_r.
Qed.

Lemma reads_u8 : reads read_u8 (fun x e => 0 <= x < 256 /\ e = [x]).
Proof.
  eapply reads_equiv; [apply (reads_be 1)|]. intros x e _. cbn. split.
  - intros [H ->]. split; [lia|]. f_equal. apply Z.mod_small. lia.
  - intros [H ->]. split; [lia|]. f_equal. symmetry. apply Z.mod_small. lia.
Qed.

Lemma reads_u32 : reads read_u32 (fun x e => 0 <= x <= u32_max /\ e = to_be_bytes 4 x).
Proof.
  eapply reads_equiv; [apply (reads_be 4)|]. intros x e _. cbv beta. change (256 ^ Z.of_nat 4) with (u32_max + 1).
  intuition lia.
Qed.

Lemma reads_u64 : reads read_u64 (fun x e => 0 <= x <= u64_max /\ e = to_be_bytes 8 x).
Proof.
  eapply reads_equiv; [apply (reads_be 8)|]. intros x e _. cbv beta. change (256 ^ Z.of_nat 8) with (u64_max + 1).
  intuition lia.
Qed.

(** ** Fields *)

Definition text_ok (s : str) : Prop := valid_str s = true /\ str_len s <= 4096.
Definition digest_ok (d : bytes) : Prop := len d = 32 /\ forallb byte_ok d = true.

(** The Rust types of the fields, and the length of a path. *)
Record fields_ok (a : PreparedAction) : Prop := mkFieldsOk {
  fo_path : text_ok (pa_path a);
  fo_destination : forall d, pa_destination a = Some d -> text_ok d;
  fo_digest : digest_ok (pa_digest a);
  fo_size : 0 <= pa_size a <= u64_max;
  fo_preimage : match pa_preimage_digest a, pa_preimage_size a with
                | Some d, Some s => digest_ok d /\ 0 <= s <= u64_max
                | None, None => True
                | _, _ => False
                end;
}.

Lemma encode_text_ok s : str_len s <= 4096 ->
  encode_text s = Ok (to_be_bytes 4 (str_len s) ++ str_bytes s).
Proof. intros H. unfold encode_text. by rewrite (proj2 (Z.ltb_ge _ _)) by lia. Qed.

Lemma utf8_iff value s : from_utf8 value = Ok s <-> valid_str s = true /\ value = str_bytes s.
Proof.
  split; [intros [? <-]%from_utf8_Ok; done|]. intros [Hv ->]. by apply from_utf8_str_bytes.
Qed.

Lemma reads_utf8 n : 0 <= n ->
  reads (decode_utf8 n) (fun s e => valid_str s = true /\ str_len s = n /\ e = str_bytes s).
Proof.
  intros Hn. eapply reads_equiv.
  - apply reads_bind; [by apply reads_take|]. intros v e _. apply reads_result.
  - intros s e _. cbv beta. split.
    + intros (v & e1 & e2 & [-> Hl] & [Hu ->] & ->). apply map_err_ok, utf8_iff in Hu as [Hv ->].
      by rewrite app_nil_r.
    + intros (Hv & Hl & ->). exists (str_bytes s), (str_bytes s), []. rewrite app_nil_r.
      repeat split; try done. by apply map_err_ok, utf8_iff.
Qed.

Lemma reads_text : reads decode_text (fun s e => text_ok s /\ encode_text s = Ok e).
Proof.
  eapply reads_equiv.
  - apply reads_bind; [apply reads_u32|]. intros n e [Hn _].
    apply (reads_if (_ || _)); [apply reads_corrupt|apply reads_utf8; lia].
  - intros s e _. cbv beta. split.
    + intros (n & e1 & e2 & [Hn ->] & H & ->). destruct (_ || _) eqn:E; [done|].
      destruct H as (Hv & <- & ->). zbool. split; [split; [done|lia]|]. by rewrite encode_text_ok by lia.
    + intros [[Hv Hl] He]. rewrite encode_text_ok in He by done. injection He as <-.
      pose proof (str_len_nonneg s). exists (str_len s), (to_be_bytes 4 (str_len s)), (str_bytes s).
      split; [split; [lia|done]|]. split; [|done].
      rewrite (proj2 (orb_false_iff _ _)); [done|]. unfold NONE_LENGTH. lia.
Qed.

Lemma reads_optional_text :
  reads decode_optional_text
        (fun o e => (forall s, o = Some s -> text_ok s) /\ encode_optional_text o = Ok e).
Proof.
  eapply reads_equiv.
  - apply reads_bind; [apply reads_u32|]. intros n e [Hn _].
    apply reads_if; [apply reads_ret|]. apply (reads_if (4096 <? n)); [apply reads_corrupt|].
    apply reads_bind; [apply reads_utf8; lia|]. intros s e' _. apply reads_ret.
  - intros o e _. cbv beta. split.
    + intros (n & e1 & e2 & [Hn ->] & H & ->). destruct (n =? NONE_LENGTH) eqn:E.
      { destruct H as [-> ->]. apply Z.eqb_eq in E as ->. by rewrite app_nil_r. }
      destruct (4096 <? n) eqn:E2; [done|].
      destruct H as (s & e1 & e3 & (Hv & <- & ->) & [-> ->] & ->).
      split; [intros ? [= <-]; split; [done|lia]|]. cbn. rewrite encode_text_ok by lia.
      by rewrite app_nil_r.
    + intros [Hs He]. destruct o as [s|].
      * destruct (Hs s eq_refl) as [Hv Hl]. cbn in He. rewrite encode_text_ok in He by done.
        injection He as <-. pose proof (str_len_nonneg s).
        exists (str_len s), (to_be_bytes 4 (str_len s)), (str_bytes s).
        split; [split; [lia|done]|]. split; [|done].
        rewrite (proj2 (Z.eqb_neq _ _)) by (unfold NONE_LENGTH; lia).
        rewrite (proj2 (Z.ltb_ge _ _)) by lia.
        exists s, (str_bytes s), []. by rewrite app_nil_r.
      * injection He as <-. exists NONE_LENGTH, (to_be_bytes 4 NONE_LENGTH), [].
        rewrite app_nil_r. unfold NONE_LENGTH. done.
Qed.

Lemma kind_bytes k b : kind_of_byte b = Some k <-> b = kind_byte k.
Proof.
  split; [|by intros ->; destruct k].
  unfold kind_of_byte. repeat (case_match; [intros [= <-]; cbn; lia|]). done.
Qed.

Lemma reads_kind : reads decode_kind (fun k e => e = [kind_byte k]).
Proof.
  eapply reads_equiv.
  - apply reads_bind; [apply reads_u8|]. intros n e _. apply reads_result.
  - intros k e _. cbv beta. split.
    + intros (n & e1 & e2 & [Hn ->] & [H ->] & ->). apply ok_or_ok, kind_bytes in H as ->. done.
    + intros ->. exists (kind_byte k), [kind_byte k], []. split; [by destruct k|].
      split; [|done]. split; [|done]. by apply ok_or_ok, kind_bytes.
Qed.

Definition preimage_ok (p : option bytes * option Z) : Prop :=
  match p with
  | (Some d, Some s) => digest_ok d /\ 0 <= s <= u64_max
  | (None, None) => True
  | _ => False
  end.

Lemma reads_preimage :
  reads decode_preimage (fun p e => preimage_ok p /\ 
    e = match p with (Some d, Some s) => [1] ++ d ++ to_be_bytes 8 s | _ => [0] end).
Proof.
  eapply reads_equiv.
  - apply reads_bind; [apply reads_u8|]. intros n e _. apply reads_if; [apply reads_ret|].
    apply reads_if; [|apply reads_corrupt].
    apply reads_bind; [by apply reads_take|]. intros d e' _.
    apply reads_bind; [apply reads_u64|]. intros s e2 _. apply reads_ret.
  - intros p e Hb. cbv beta. split.
    + intros (n & e1 & e2 & [Hn ->] & H & ->). destruct (n =? 0) eqn:E.
      { destruct H as [-> ->]. by apply Z.eqb_eq in E as ->. }
      destruct (n =? 1) eqn:E1; [|done].
      destruct H as (d & e3 & e4 & [-> Hl] & (s & e5 & e6 & [Hs ->] & [-> ->] & ->) & ->).
      rewrite !forallb_app in Hb. zbool. replace n with 1 by lia. rewrite app_nil_r. done.
    + destruct p as [[d|] [s|]]; cbn; intros [Hp ->]; try done.
      * destruct Hp as [[Hl Hd] Hs]. exists 1, [1], (d ++ to_be_bytes 8 s). split; [done|]. split; [|done].
        exists d, d, (to_be_bytes 8 s). split; [done|]. split; [|done].
        exists s, (to_be_bytes 8 s), []. by rewrite app_nil_r.
      * by exists 0, [0], [].
Qed.

Lemma reads_fields : reads decode_fields (fun a e => fields_ok a /\ encode_action a = Ok e).
Proof.
  eapply reads_equiv.
  - apply reads_bind; [apply reads_kind|]. intros k e _.
    apply reads_bind; [apply reads_text|]. intros p e1 _.
    apply reads_bind; [apply reads_optional_text|]. intros d e2 _.
    apply reads_bind; [by apply reads_take|]. intros g e3 _.
    apply reads_bind; [apply reads_u64|]. intros s e4 _.
    apply reads_bind; [apply reads_preimage|]. intros i e5 _. apply reads_ret.
  - intros a e Hb. cbv beta. split.
    + intros (k & e1 & e2 & -> & (p & e3 & e4 & [Hp Ep] & (d & e5 & e6 & [Hd Ed] &
        (g & e7 & e8 & [-> Hg] & (s & e9 & e10 & [Hs ->] & (i & e11 & e12 & [Hi ->] &
        [-> ->] & ->) & ->) & ->) & ->) & ->) & ->).
      rewrite !forallb_app in Hb. zbool. split.
      * split; cbn; try done. by destruct i as [[?|] [?|]].
      * unfold encode_action, encode_preimage. cbn. rewrite Ep, Ed. cbn.
        destruct i as [[?|] [?|]]; try done; cbn; by rewrite app_nil_r.
    + intros [[Hp Hd [Hg _] Hs Hi] He]. unfold encode_action in He. inv_ok. subst e.
      destruct a as [k p d g s pd ps]. cbn in *.
      do 3 eexists. split; [done|]. split; [|done].
      do 3 eexists. split; [by split|]. split; [|done].
      do 3 eexists. split; [by split|]. split; [|done].
      do 3 eexists. split; [by split|]. split; [|done].
      do 3 eexists. split; [by split|]. split; [|done].
      exists (pd, ps). do 2 eexists. split; [split; [|done]|].
      { by destruct pd, ps. }
      split; [split; done|]. rewrite app_nil_r. unfold encode_preimage in *.
      by destruct pd, ps; simplify_eq/=.
Qed.

(** ** Claimed paths *)

Definition paths_of (path : str) (destination : option str) : list str :=
  path :: match destination with Some d => [d] | None => [] end.
Definition prepared_paths (a : PreparedAction) : list str := paths_of (pa_path a) (pa_destination a).
Definition action_paths (a : FileAction) : list str := paths_of (fa_path a) (fa_destination a).

(** Paths that are acceptable, distinct and new, and the set they extend. *)
Definition claimed (ok : str -> bool) (l : list str) (paths paths' : gset str) : Prop :=
  Forall (fun p => ok p = true) l /\ NoDup l /\ (forall p, p ∈ l -> p ∉ paths)
  /\ paths' = list_to_set l ∪ paths.

Lemma claimed_one ok p paths paths' :
  claimed ok [p] paths paths' <-> ok p = true /\ p ∉ paths /\ paths' = {[p]} ∪ paths.
Proof.
  unfold claimed. rewrite Forall_singleton. split.
  - intros (Ho & _ & Hn & ->). split; [done|]. split; [apply Hn; set_solver|]. set_solver.
  - intros (Ho & Hn & ->). split; [done|]. split; [apply NoDup_singleton|]. set_solver.
Qed.

Lemma claimed_app ok l1 l2 paths paths'' :
  claimed ok (l1 ++ l2) paths paths'' <->
  exists paths', claimed ok l1 paths paths' /\ claimed ok l2 paths' paths''.
Proof.
  unfold claimed. rewrite Forall_app, list.NoDup_app. split.
  - intros ([Ho1 Ho2] & (Hn1 & Hd & Hn2) & Hp & ->). exists (list_to_set l1 ∪ paths).
    split; [set_solver|]. split; [done|]. split; [done|]. split; [set_solver|].
    rewrite list_to_set_app_L. set_solver.
  - intros (paths' & (Ho1 & Hn1 & Hp1 & ->) & (Ho2 & Hn2 & Hp2 & ->)).
    split; [done|]. split; [set_solver|]. split; [set_solver|].
    rewrite list_to_set_app_L. set_solver.
Qed.

Lemma claimed_nil ok paths paths' : claimed ok [] paths paths' <-> paths' = paths.
Proof.
  unfold claimed. split; [set_solver|]. intros ->.
  split; [constructor|]. split; [constructor|]. set_solver.
Qed.

(** Both loops claim a path and then its destination. *)
Lemma claim_both (ok : str -> bool) (claim : str -> gset str -> result PlatformError (gset str))
    path destination paths paths'' :
  (forall p paths paths', claim p paths = Ok paths' <-> claimed ok [p] paths paths') ->
  (exists paths', claim path paths = Ok paths'
     /\ match destination with Some d => claim d paths' | None => Ok paths' end = Ok paths'')
  <-> claimed ok (paths_of path destination) paths paths''.
Proof.
  intros Hc. unfold paths_of. change (path :: ?l) with ([path] ++ l). rewrite claimed_app.
  split; intros (paths' & H1 & H2); exists paths'; (split; [by apply Hc|]); destruct destination.
  - by apply Hc.
  - injection H2 as ->. by apply claimed_nil.
  - by apply Hc.
  - by apply claimed_nil in H2 as ->.
Qed.

Lemma claim_decoded_iff p paths paths' :
  claim_decoded p paths = Ok paths' <-> claimed target_ok [p] paths paths'.
Proof.
  rewrite claimed_one. unfold claim_decoded, target_ok.
  destruct (validate_logical p) as [[]|]; cbn; [|naive_solver].
  destruct (bool_decide (p = _)), (reserved_path p); cbn; try naive_solver.
  case_bool_decide; naive_solver.
Qed.

(** ** The actions *)

Definition row_ok (a : PreparedAction) : Prop := fields_ok a /\ prepared_shape_valid a = true.

Lemma reads_action paths :
  reads (decode_action paths) (fun r e =>
    row_ok r.1 /\ claimed target_ok (prepared_paths r.1) paths r.2 /\ encode_action r.1 = Ok e).
Proof.
  eapply reads_equiv.
  - apply reads_bind; [apply reads_fields|]. intros a e _.
    apply reads_bind; [apply reads_result|]. intros p1 e1 _.
    apply reads_bind; [apply reads_result|]. intros p2 e2 _.
    apply reads_if; [apply reads_ret|apply reads_corrupt].
  - intros [a p] e _. cbv beta. cbn [fst snd]. split.
    + intros (a' & e1 & e2 & [Hf He] & (p1 & e3 & e4 & [H1 ->] & (p2 & e5 & e6 & [H2 ->] &
        H3 & ->) & ->) & ->).
      destruct (prepared_shape_valid a') eqn:E; [|done]. destruct H3 as [[= -> ->] ->].
      rewrite app_nil_r. split; [by split|]. split; [|done].
      apply (claim_both _ claim_decoded); [apply claim_decoded_iff|]. by exists p1.
    + intros ([Hf Hs] & Hc & He).
      apply (claim_both _ claim_decoded) in Hc as (p1 & H1 & H2); [|apply claim_decoded_iff].
      exists a, e, []. split; [by split|]. split; [|by rewrite app_nil_r].
      exists p1, [], []. split; [by split|]. split; [|done].
      exists p, [], []. split; [by split|]. split; [|done]. by rewrite Hs.
Qed.

Lemma reads_actions n paths :
  reads (decode_actions n paths) (fun ps e =>
    length ps = n /\ Forall row_ok ps /\ (exists paths', claimed target_ok (ps ≫= prepared_paths) paths paths')
    /\ exists rows, mapM encode_action ps = Ok rows /\ e = concat rows).
Proof.
  revert paths. induction n as [|n IH]; intros paths; cbn [decode_actions].
  - eapply reads_equiv; [apply reads_ret|]. intros ps e _. cbv beta. split.
    + intros [-> ->]. split; [done|]. split; [constructor|]. split; [|by exists []].
      exists paths. by apply claimed_nil.
    + intros (Hl & _ & _ & rows & Hm & ->). destruct ps; [|done]. injection Hm as <-. done.
  - eapply reads_equiv.
    { apply reads_bind; [apply reads_action|]. intros r e _.
      apply reads_bind; [apply IH|]. intros l e1 _. apply reads_ret. }
    intros ps e _. cbv beta. split.
    + intros ([a p1] & e1 & e2 & (Hr & Hc & He) & (l & e3 & e4 & (<- & Hf & [p2 Hc2] & rows & Hm & ->)
        & [-> ->] & ->) & ->). cbn [fst snd] in *.
      split; [done|]. split; [by constructor|]. split.
      * exists p2. rewrite bind_cons, claimed_app. by exists p1.
      * exists (e1 :: rows). cbn. rewrite He. cbn. rewrite Hm. cbn. by rewrite app_nil_r.
    + intros (Hl & Hf & [p2 Hc] & rows & Hm & ->). destruct ps as [|a ps]; [done|].
      rewrite bind_cons, claimed_app in Hc. destruct Hc as (p1 & Hc1 & Hc2).
      apply list.Forall_cons in Hf as [Hr Hf]. cbn in Hm. inv_ok. subst rows. injection Hl as Hl.
      eexists (a, p1), _, _. split; [done|]. split.
      * eexists ps, _, []. split; [|done]. split; [done|]. split; [done|]. split; [by exists p2|]. by eexists.
      * cbn. by rewrite app_nil_r.
Qed.

(** ** Manifests *)

(** What a manifest can hold: the actions a transaction prepares. *)
Record manifest_ok (ps : list PreparedAction) : Prop := mkManifestOk {
  mo_count : 1 <= len ps <= MAX_ACTIONS;
  mo_rows : Forall row_ok ps;
  mo_targets : Forall (fun p => target_ok p = true) (ps ≫= prepared_paths);
  mo_distinct : NoDup (ps ≫= prepared_paths);
  mo_sizes : validate_manifest_sizes ps = Ok tt;
}.

Lemma claimed_fresh ok l : (exists paths', claimed ok l ∅ paths') <-> Forall (fun p => ok p = true) l /\ NoDup l.
Proof. unfold claimed. split; [naive_solver|]. intros [Ho Hn]. eexists. repeat split; try done. Qed.

Definition manifest_body (ps : list PreparedAction) (rows : list bytes) : bytes :=
  MANIFEST_MAGIC ++ to_be_bytes 4 (len ps) ++ concat rows.

Lemma reads_body :
  reads decode_body (fun ps e => 1 <= len ps <= MAX_ACTIONS /\ Forall row_ok ps
    /\ Forall (fun p => target_ok p = true) (ps ≫= prepared_paths) /\ NoDup (ps ≫= prepared_paths)
    /\ exists rows, mapM encode_action ps = Ok rows
                    /\ e = manifest_body ps rows).
Proof.
  eapply reads_equiv.
  - apply reads_bind; [by apply reads_take|]. intros m e _.
    apply reads_if; [apply reads_corrupt|].
    apply reads_bind; [apply reads_u32|]. intros n e1 _.
    apply (reads_if (_ || _)); [apply reads_corrupt|apply reads_actions].
  - intros ps e _. cbv beta. split.
    + intros (m & e1 & e2 & [-> _] & H & ->). destruct (negb _) eqn:E; [done|]. zbool. apply bool_decide_eq_true in E as ->.
      destruct H as (n & e3 & e4 & [Hn ->] & H & ->). destruct (_ || _) eqn:E2; [done|]. zbool.
      destruct H as (Hl & Hr & Hc%claimed_fresh & rows & Hm & ->).
      assert (len ps = n) as <- by (unfold len; lia).
      split; [lia|]. split; [done|]. destruct Hc as [Ht Hd]. split; [done|]. split; [done|]. by exists rows.
    + intros (Hl & Hr & Ht & Hn & rows & Hm & ->). do 3 eexists. split; [by split|]. split; [|done].
      rewrite bool_decide_true by done. cbn [negb].
      exists (len ps), (to_be_bytes 4 (len ps)), (concat rows). unfold MAX_ACTIONS in *.
      split; [split; [lia|done]|]. split; [|done].
      rewrite (proj2 (orb_false_iff _ _)) by lia. unfold len. rewrite Nat2Z.id.
      split; [done|]. split; [done|]. split; [by apply claimed_fresh|]. by exists rows.
Qed.

Lemma length_digest d : digest_ok d -> len d = 32.
Proof. by intros [? _]. Qed.

Lemma len_be k n : len (to_be_bytes k n) = Z.of_nat k.
Proof. unfold len. by rewrite length_to_be_bytes. Qed.

Lemma encode_text_len s e : str_len s <= 4096 -> encode_text s = Ok e -> len e <= 4100.
Proof.
  intros H He. rewrite encode_text_ok in He by done. assert (e = to_be_bytes 4 (str_len s) ++ str_bytes s) as -> by congruence.
  rewrite len_app, len_be. change (len (str_bytes s)) with (str_len s). lia.
Qed.

Lemma encode_action_len a e : fields_ok a -> encode_action a = Ok e -> len e <= 8282.
Proof.
  intros [[_ Hp] Hd Hg Hs Hi] He. unfold encode_action in He.
  apply bind_ok in He as (p & Ep & He). apply bind_ok in He as (d & Ed & He).
  apply bind_ok in He as (i & Ei & He).
  assert (e = [kind_byte (pa_kind a)] ++ p ++ d ++ pa_digest a ++ to_be_bytes 8 (pa_size a) ++ i)
    as -> by congruence.
  rewrite !len_app, len_be, (length_digest _ Hg). change (len [kind_byte (pa_kind a)]) with 1.
  apply encode_text_len in Ep; [|done].
  assert (len d <= 4100).
  { destruct (pa_destination a) as [t|]; unfold encode_optional_text in Ed.
    - eapply encode_text_len; [|done]. by apply Hd.
    - assert (d = to_be_bytes 4 NONE_LENGTH) as -> by congruence. rewrite len_be. lia. }
  assert (len i <= 41); [|lia]. unfold encode_preimage in Ei.
  destruct (pa_preimage_digest a) as [g|], (pa_preimage_size a) as [n|]; try done.
  - assert (i = [1] ++ g ++ to_be_bytes 8 n) as -> by congruence.
    rewrite !len_app, len_be, (length_digest g) by apply Hi. done.
  - assert (i = [0]) as -> by congruence. done.
Qed.

Lemma str_bytes_ok s : valid_str s = true -> forallb byte_ok (str_bytes s) = true.
Proof.
  induction s as [|c s IH]; [done|]. cbn [valid_str forallb]. intros [Hc Hs]%andb_true_iff.
  rewrite str_bytes_cons, forallb_app, IH by done. rewrite andb_true_r.
  unfold valid_char in Hc. assert (0 <= c <= 1114111) by lia. unfold encode_utf8.
  pose proof (Z.mod_pos_bound c 64 ltac:(lia)). pose proof (Z.mod_pos_bound (c / 64) 64 ltac:(lia)).
  pose proof (Z.mod_pos_bound (c / 4096) 64 ltac:(lia)).
  assert (0 <= c / 64 /\ 0 <= c / 4096 /\ 0 <= c / 262144) by (repeat split; apply Z.div_pos; lia).
  destruct (Z.ltb_spec c 128); [cbn; unfold byte_ok; lia|].
  destruct (Z.ltb_spec c 2048); [assert (c / 64 < 32) by (apply Z.div_lt_upper_bound; lia); cbn; unfold byte_ok; lia|].
  destruct (Z.ltb_spec c 65536); [assert (c / 4096 < 16) by (apply Z.div_lt_upper_bound; lia); cbn; unfold byte_ok; lia|].
  assert (c / 262144 < 8) by (apply Z.div_lt_upper_bound; lia). cbn. unfold byte_ok. lia.
Qed.

Lemma encode_action_bytes a : fields_ok a -> exists e, encode_action a = Ok e /\ forallb byte_ok e = true.
Proof.
  intros [[Hv Hp] Hd [_ Hg] Hs Hi]. unfold encode_action. rewrite encode_text_ok by done. cbn [mbind result_bind].
  assert (forall t, text_ok t -> encode_text t = Ok (to_be_bytes 4 (str_len t) ++ str_bytes t)
            /\ forallb byte_ok (to_be_bytes 4 (str_len t) ++ str_bytes t) = true) as Htext.
  { intros t [Ht Hl]. rewrite encode_text_ok by done. split; [done|].
    by rewrite forallb_app, to_be_bytes_ok, str_bytes_ok. }
  assert (exists d, encode_optional_text (pa_destination a) = Ok d /\ forallb byte_ok d = true) as (d & -> & Hd').
  { unfold encode_optional_text. destruct (pa_destination a) as [t|].
    - eexists. by apply Htext, Hd.
    - eexists. split; [done|apply to_be_bytes_ok]. }
  assert (exists i, encode_preimage a = Ok i /\ forallb byte_ok i = true) as (i & -> & Hi').
  { unfold encode_preimage. destruct (pa_preimage_digest a) as [g|], (pa_preimage_size a) as [n|]; try done.
    - eexists. split; [done|]. destruct Hi as [[_ Hi] _]. by rewrite !forallb_app, Hi, to_be_bytes_ok.
    - by eexists. }
  eexists. split; [reflexivity|]. rewrite !forallb_app, !to_be_bytes_ok, str_bytes_ok, Hd', Hi', Hg by done.
  by destruct (pa_kind a).
Qed.

Lemma concat_len_le (rows : list bytes) m :
  Forall (fun r => len r <= m) rows -> len (concat rows) <= m * len rows.
Proof.
  induction 1 as [|r rows H _ IH]; [by rewrite Z.mul_0_r|]. cbn. rewrite len_app.
  change (len (r :: rows)) with (Z.of_nat (S (length rows))). unfold len in IH at 2. lia.
Qed.

(** The largest manifest of well-formed actions fits the reader's limit. *)
Lemma rows_len ps rows :
  len ps <= MAX_ACTIONS -> Forall row_ok ps -> mapM encode_action ps = Ok rows ->
  len (concat rows) <= 8282 * MAX_ACTIONS.
Proof.
  intros Hl Hr Hm. apply mapM_ok in Hm.
  assert (len (concat rows) <= 8282 * len rows).
  { apply concat_len_le. clear Hl. induction Hm as [|a r ps rows Ha _ IH]; [constructor|].
    apply list.Forall_cons in Hr as [[Hf _] Hr]. constructor; [by eapply encode_action_len|auto]. }
  apply Forall2_length in Hm. unfold len in *. lia.
Qed.

Lemma body_checksum (b body sum : bytes) :
  len sum = 32 -> b = body ++ sum <-> 32 <= len b /\ take (length b - 32) b = body /\ drop (length b - 32) b = sum.
Proof.
  intros Hs. unfold len in *. split.
  - intros ->. rewrite length_app. replace (length body + length sum - 32)%nat with (length body) by lia.
    rewrite take_app_length, drop_app_length. split; [lia|done].
  - intros (_ & <- & <-). by rewrite take_drop.
Qed.

Section with_hash.
Context (hash : bytes -> bytes) (hash_ok : forall b, digest_ok (hash b)).

Lemma encode_manifest_iff ps b :
  encode_manifest hash ps = Ok b <->
  validate_manifest_sizes ps = Ok tt /\ len ps <= u32_max /\
  exists rows, mapM encode_action ps = Ok rows /\ b = manifest_body ps rows ++ hash (manifest_body ps rows).
Proof.
  unfold encode_manifest. rewrite bind_ok. split.
  - intros ([] & Hs & H). split; [done|]. destruct (_ <? _) eqn:E; [done|]. split; [lia|].
    apply bind_ok in H as (rows & Hm & H). exists rows. split; [done|].
    unfold manifest_body. cbv zeta in H. congruence.
  - intros (Hs & Hl & rows & Hm & ->). exists tt. split; [done|].
    rewrite (proj2 (Z.ltb_ge _ _)) by lia. apply bind_ok. by exists rows.
Qed.

Lemma decode_manifest_iff b ps :
  forallb byte_ok b = true ->
  decode_manifest hash b = Ok ps <-> manifest_ok ps /\ encode_manifest hash ps = Ok b.
Proof.
  intros Hb. rewrite encode_manifest_iff. unfold decode_manifest.
  assert (forallb byte_ok (take (length b - 32) b) = true) as Hbody.
  { rewrite <- (take_drop (length b - 32) b), forallb_app in Hb. by zbool. }
  split.
  - cbv zeta. intros H. destruct (_ || _) eqn:E1; [done|]. destruct (negb _) eqn:E2; [done|]. zbool.
    apply bind_ok in H as ([ps' c] & Hd & H). cbn [fst snd] in H.
    destruct (negb _) eqn:E3 in H; [done|]. apply bind_ok in H as ([] & Hs & H).
    assert (ps' = ps) as -> by congruence. apply negb_false_iff, Z.eqb_eq in E3.
    apply bool_decide_eq_true in E2. change (len MANIFEST_MAGIC) with 8 in *.
    set (body := take (length b - 32) b) in *.
    assert (len body <= len b) by (unfold len, body; rewrite length_take; lia).
    apply reads_body in Hd as (e & (Hc & Hr & Ht & Hn & rows & Hm & He) & [k Hk] & Hlen).
    2: { split; [done|]. split; [|lia]. unfold len. lia. }
    rewrite drop_0 in Hk.
    assert (body = e) as Hbe.
    { rewrite E3, Hk, len_app in Hlen. rewrite Hk, (nil_length_inv k), app_nil_r; [done|].
      unfold len in *. lia. }
    unfold MAX_ACTIONS in Hc. split; [by split|]. split; [done|]. split; [lia|].
    exists rows. split; [done|]. rewrite <- He, <- Hbe.
    apply body_checksum; [apply hash_ok|]. split; [lia|]. by split.
  - intros ([Hc Hr Ht Hn Hs] & _ & _ & rows & Hm & ->).
    set (e := manifest_body ps rows) in *.
    pose proof (length_digest _ (hash_ok e)) as Hh.
    pose proof (rows_len ps rows (proj2 Hc) Hr Hm) as Hlr. unfold MAX_ACTIONS in Hlr.
    assert (len e = 12 + len (concat rows)) as Hle.
    { unfold e, manifest_body. rewrite !len_app, len_be. change (len MANIFEST_MAGIC) with 8. lia. }
    pose proof (len_nonneg (concat rows)).
    rewrite (proj2 (orb_false_iff _ _)).
    2: { rewrite len_app. change (len MANIFEST_MAGIC) with 8. unfold MAX_MANIFEST_BYTES. split; lia. }
    destruct (proj1 (body_checksum (e ++ hash e) e (hash e) Hh) eq_refl) as (_ & Hb1 & Hb2).
    cbv zeta. rewrite Hb1 in Hbody |- *. rewrite Hb2, bool_decide_true by done. cbn [negb].
    apply bind_ok. exists (ps, len e). split.
    + apply reads_body.
      { split; [done|]. split; [lia|]. unfold MAX_MANIFEST_BYTES. lia. }
      exists e. split; [|by rewrite drop_0]. split; [done|]. split; [done|]. split; [done|].
      split; [done|]. by exists rows.
    + cbn [fst snd]. rewrite Z.eqb_refl. cbn [negb]. by rewrite Hs.
Qed.

(** What can be recorded is written, and read back. *)
Lemma manifest_written ps :
  manifest_ok ps ->
  exists b, encode_manifest hash ps = Ok b /\ decode_manifest hash b = Ok ps /\ len b <= MAX_MANIFEST_BYTES.
Proof.
  intros Hok. pose proof Hok as [Hc Hr _ _ Hs]. rewrite list.Forall_forall in Hr.
  destruct (mapM_total encode_action ps) as [rows Hm].
  { intros a Ha. destruct (encode_action_bytes a (proj1 (Hr a Ha))) as (e & He & _). by exists e. }
  assert (forallb byte_ok (concat rows) = true) as Hrows.
  { apply mapM_ok in Hm. clear -Hm Hr. induction Hm as [|a e ps rows He _ IH]; [done|].
    cbn. rewrite forallb_app, IH by (intros x Hx; apply Hr; by right).
    destruct (encode_action_bytes a (proj1 (Hr a ltac:(left)))) as (e' & He' & Hb).
    assert (e = e') as -> by congruence. by rewrite Hb. }
  set (b := manifest_body ps rows ++ hash (manifest_body ps rows)).
  assert (encode_manifest hash ps = Ok b) as He.
  { apply encode_manifest_iff. split; [done|]. unfold MAX_ACTIONS in Hc. split; [lia|]. by exists rows. }
  exists b. split; [done|]. assert (decode_manifest hash b = Ok ps) as Hd.
  { apply decode_manifest_iff; [|done]. unfold b, manifest_body. rewrite !forallb_app, to_be_bytes_ok, Hrows.
    rewrite (proj2 (hash_ok _)). done. }
  split; [done|]. unfold decode_manifest in Hd. destruct (_ || _) eqn:E; [done|]. zbool. lia.
Qed.

End with_hash.
