(* ===== verification/Disk.v ===== *)
(** * Disk: the file system under a transaction

    What transaction.rs and mutation.rs see of the system: a tree of named nodes,
    file contents by inode, and the calls of [std::fs] as one step each.  A place
    names a path: below the workspace's root, or below ash's own [.ash] directory,
    whose layout is fixed ([indexed_path] names the files of a journal by index).

    Every call may be refused, and the process may die before or after it.  The
    calls that are not atomic ([write_all], [remove_dir_all], the replacement of a
    file by the [atomicwrites] crate) may also be cut short: a fault says what was
    done.  A refused single call has no effect, as POSIX has it.  Nobody else changes
    the files while a transaction holds its locks, so a file's bytes are those it had
    when it was opened.  Durability ([sync_all]) has no effect on what the process
    sees; a sync can fail.  Permission bits and times are not modelled; links are
    never followed, because the code refuses them first. *)

From S2P Require Import Prelude Text Workspace.

(** ** Places and nodes *)

(** [transaction.new] and [transaction]. *)
Inductive JournalName : Type := Preparing | Transaction.

(** A journal directory and what it may hold. *)
Inductive Slot : Type :=
| Self
| StageDir | RemovedDir
| StageFile (index : nat) | RemovedFile (index : nat)
| ManifestFile | CommittingFile | CommittedFile.

Inductive Place : Type :=
| Work (components : list str)
| StateDir | FormatFile | LockFile
| Journal (name : JournalName) (slot : Slot).

#[export] Instance JournalName_eq_dec : EqDecision JournalName.
Proof. solve_decision. Defined.
#[export] Instance Slot_eq_dec : EqDecision Slot.
Proof. solve_decision. Defined.
#[export] Instance Place_eq_dec : EqDecision Place.
Proof. solve_decision. Defined.

#[export] Instance Slot_countable : Countable Slot.
Proof.
  refine (inj_countable'
    (fun s => match s with
      | Self => inl 0%nat | StageDir => inl 1%nat | RemovedDir => inl 2%nat
      | ManifestFile => inl 3%nat | CommittingFile => inl 4%nat | CommittedFile => inl 5%nat
      | StageFile i => inr (inl i) | RemovedFile i => inr (inr i) end)
    (fun x => match x with
      | inl 0%nat => Self | inl 1%nat => StageDir | inl 2%nat => RemovedDir
      | inl 3%nat => ManifestFile | inl 4%nat => CommittingFile | inl _ => CommittedFile
      | inr (inl i) => StageFile i | inr (inr i) => RemovedFile i end) _).
  by intros [].
Defined.

#[export] Instance Place_countable : Countable Place.
Proof.
  refine (inj_countable'
    (fun p => match p with
      | Work l => inl l | StateDir => inr (inl 0%nat) | FormatFile => inr (inl 1%nat)
      | LockFile => inr (inl 2%nat)
      | Journal Preparing s => inr (inr (inl s)) | Journal Transaction s => inr (inr (inr s)) end)
    (fun x => match x with
      | inl l => Work l | inr (inl 0%nat) => StateDir | inr (inl 1%nat) => FormatFile
      | inr (inl _) => LockFile
      | inr (inr (inl s)) => Journal Preparing s | inr (inr (inr s)) => Journal Transaction s end) _).
  by intros [| | | |[] ?].
Defined.

(** [Path::parent]; the root is its own. *)
Definition parent (p : Place) : Place :=
  match p with
  | Work components => Work (removelast components)
  | StateDir => Work []
  | FormatFile | LockFile | Journal _ Self => StateDir
  | Journal n (StageFile _) => Journal n StageDir
  | Journal n (RemovedFile _) => Journal n RemovedDir
  | Journal n _ => Journal n Self
  end.

(** [Special] is neither a regular file nor a directory: a link, a device. *)
Inductive Node : Type := Dir | File (inode : nat) | Special.

#[export] Instance Node_eq_dec : EqDecision Node.
Proof. solve_decision. Defined.

Record Disk : Type := mkDisk { tree : gmap Place Node; data : gmap nat bytes }.

Definition set_tree (t : gmap Place Node) (d : Disk) : Disk := mkDisk t (data d).

(** ** Faults *)

Inductive TransactionControl : Type := Continue | Cancelled | TimedOut.

(** How far a call that is cut short got: nothing, some bytes, some entries of a
    tree in the order they were removed, or all of it. *)
Inductive Tear : Type := Nothing | Prefix (count : nat) | Gone (slots : list Slot) | Everything.

(** [Refused]: the call returns an error; [Halted]: the process dies in it. *)
Inductive Fault : Type := Fine | Refused (done_ : Tear) | Halted (done_ : Tear).

Inductive Call : Type := Query | Update | WriteAll | RemoveTree (name : JournalName) | Swap.

(** [Mutex::try_lock] and [File::try_lock] while they do not succeed. *)
Inductive LockAnswer : Type := WouldBlock | LockFailed.

(** What the system and the caller answer, by the number of calls so far. *)
Record Environment : Type := mkEnvironment {
  faults : nat -> Call -> Fault;
  control : nat -> TransactionControl;
  mutex_answers : list LockAnswer;
  file_lock_answers : list LockAnswer;
}.

(** The process's world: the disk, the workspace's [internal_state], and how often
    the environment has been asked. *)
Record World : Type := mkWorld {
  w_disk : Disk; w_internal : bool; w_calls : nat; w_polls : nat }.

Definition on_disk (d : Disk) (w : World) : World :=
  mkWorld d (w_internal w) (w_calls w) (w_polls w).

(** ** Computations *)

Inductive Outcome (E A : Type) : Type := Done (a : A) | Fail_ (e : E) | Crash.
Arguments Done {E A} a.
Arguments Fail_ {E A} e.
Arguments Crash {E A}.

Definition io (E A : Type) : Type := Environment -> World -> Outcome E A * World.

#[export] Instance io_ret E : MRet (io E) := fun A a _ w => (Done a, w).
#[export] Instance io_bind E : MBind (io E) := fun A B f m env w =>
  match m env w with
  | (Done a, w) => f a env w
  | (Fail_ e, w) => (Fail_ e, w)
  | (Crash, w) => (Crash, w)
  end.

Definition fail {E A} (e : E) : io E A := fun _ w => (Fail_ e, w).

(** [match m { Ok(a) => .., Err(e) => .. }], and [map_err]. *)
Definition try {E F A} (m : io E A) : io F (result E A) := fun env w =>
  match m env w with
  | (Done a, w) => (Done (Ok a), w)
  | (Fail_ e, w) => (Done (Err e), w)
  | (Crash, w) => (Crash, w)
  end.
Definition map_fail {E F A} (f : E -> F) (m : io E A) : io F A := fun env w =>
  match m env w with
  | (Done a, w) => (Done a, w)
  | (Fail_ e, w) => (Fail_ (f e), w)
  | (Crash, w) => (Crash, w)
  end.

(** [?] on a pure [Result]. *)
Definition lift {E A} (r : result E A) : io E A :=
  match r with Ok a => mret a | Err e => fail e end.

Definition get_environment {E} : io E Environment := fun env w => (Done env, w).
Definition get_internal {E} : io E bool := fun _ w => (Done (w_internal w), w).
Definition set_internal {E} (b : bool) : io E unit := fun _ w =>
  (Done tt, mkWorld (w_disk w) b (w_calls w) (w_polls w)).

(** One call of the [control] closure. *)
Definition poll {E} : io E TransactionControl := fun env w =>
  (Done (control env (w_polls w)), mkWorld (w_disk w) (w_internal w) (w_calls w) (S (w_polls w))).

(** ** Calls *)

(** A call: its effect, and what is left of it when it is cut short. *)
Definition attempt {A} (c : Call) (act : Disk -> result IoKind (A * Disk))
    (refused halted : Tear -> Disk -> Disk) : io IoKind A := fun env w =>
  let d := w_disk w in
  let next := mkWorld d (w_internal w) (S (w_calls w)) (w_polls w) in
  match faults env (w_calls w) c with
  | Fine =>
      match act d with
      | Ok (a, d') => (Done a, on_disk d' next)
      | Err e => (Fail_ e, next)
      end
  | Refused t => (Fail_ OtherIo, on_disk (refused t d) next)
  | Halted t => (Crash, on_disk (halted t d) next)
  end.

Definition keep (_ : Tear) (d : Disk) : Disk := d.

Definition whole {A} (act : Disk -> result IoKind (A * Disk)) (t : Tear) (d : Disk) : Disk :=
  match t, act d with Everything, Ok (_, d') => d' | _, _ => d end.

(** A call that changes nothing, and one that happens at once or not at all. *)
Definition query {A} (f : Disk -> result IoKind A) : io IoKind A :=
  attempt Query (fun d => a ← f d; Ok (a, d)) keep keep.
Definition update {A} (act : Disk -> result IoKind (A * Disk)) : io IoKind A :=
  attempt Update act keep (whole act).

Record Metadata : Type := mkMetadata { md_node : Node; md_len : Z }.
Definition is_file (m : Metadata) : bool := match md_node m with File _ => true | _ => false end.
Definition is_dir (m : Metadata) : bool := match md_node m with Dir => true | _ => false end.

(** [fs::symlink_metadata], and [fs::metadata] where no link is followed. *)
Definition stat (p : Place) (d : Disk) : result IoKind Metadata :=
  match tree d !! p with
  | None => Err NotFound
  | Some (File i) => Ok (mkMetadata (File i) (len (default [] (data d !! i))))
  | Some n => Ok (mkMetadata n 0)
  end.
Definition symlink_metadata (p : Place) : io IoKind Metadata := query (stat p).

(** [Path::exists]: an error counts as absence. *)
Definition exists_ {E} (p : Place) : io E bool :=
  m ← try (symlink_metadata p); mret (is_ok m).

(** The bytes of a regular file: [File::open] and what its reads return. *)
Definition contents (p : Place) (d : Disk) : result IoKind bytes :=
  match tree d !! p with
  | None => Err NotFound
  | Some (File i) => ok_or (data d !! i) OtherIo
  | Some _ => Err OtherIo
  end.
Definition open_file (p : Place) : io IoKind bytes := query (contents p).
Definition read_file (p : Place) : io IoKind bytes := query (contents p).

(** One [read], [set_permissions] or [sync_all] on an open file. *)
Definition touch_open : io IoKind unit := query (fun _ => Ok tt).

(** [File::open(directory)] and [sync_all]. *)
Definition sync_directory (p : Place) : io IoKind unit :=
  query (fun d => match tree d !! p with Some _ => Ok tt | None => Err NotFound end).
Definition sync_parent (p : Place) : io IoKind unit := sync_directory (parent p).

(** A new name needs a free place in a directory. *)
Definition place_free (p : Place) (d : Disk) : result IoKind unit :=
  match tree d !! p, tree d !! parent p with
  | Some _, _ => Err AlreadyExists
  | None, Some Dir => Ok tt
  | None, None => Err NotFound
  | None, Some _ => Err OtherIo
  end.

Definition create_dir (p : Place) : io IoKind unit :=
  update (fun d => _ ← place_free p d; Ok (tt, set_tree (<[p := Dir]> (tree d)) d)).

Definition new_inode (d : Disk) : nat := fresh (dom (data d) : gset nat).

(** [OpenOptions::create_new]: a new empty file, open for writing. *)
Definition create_new (p : Place) : io IoKind nat :=
  update (fun d =>
    _ ← place_free p d;
    let i := new_inode d in
    Ok (i, mkDisk (<[p := File i]> (tree d)) (<[i := []]> (data d)))).

(** [write_all] appends; cut short, it has written a prefix. *)
Definition append (i : nat) (b : bytes) (d : Disk) : Disk :=
  mkDisk (tree d) (<[i := default [] (data d !! i) ++ b]> (data d)).
Definition append_torn (i : nat) (b : bytes) (t : Tear) (d : Disk) : Disk :=
  match t with Everything => append i b d | Prefix n => append i (take n b) d | _ => d end.
Definition write_all (i : nat) (b : bytes) : io IoKind unit :=
  attempt WriteAll (fun d => Ok (tt, append i b d)) (append_torn i b) (append_torn i b).

Definition hard_link (from to : Place) : io IoKind unit :=
  update (fun d =>
    match tree d !! from with
    | Some (File i) => _ ← place_free to d; Ok (tt, set_tree (<[to := File i]> (tree d)) d)
    | Some _ => Err OtherIo
    | None => Err NotFound
    end).

(** [fs::rename] of a file, which replaces a file of that name. *)
Definition rename_file (from to : Place) : io IoKind unit :=
  update (fun d =>
    match tree d !! from, tree d !! to, tree d !! parent to with
    | None, _, _ => Err NotFound
    | Some (File i), (None | Some (File _)), Some Dir =>
        Ok (tt, set_tree (<[to := File i]> (delete from (tree d))) d)
    | _, _, _ => Err OtherIo
    end).

Definition remove_file (p : Place) : io IoKind unit :=
  update (fun d =>
    match tree d !! p with
    | Some (File _) => Ok (tt, set_tree (delete p (tree d)) d)
    | Some _ => Err OtherIo
    | None => Err NotFound
    end).

(** ** Journal directories *)

Definition in_journal (n : JournalName) (p : Place) : bool :=
  match p with Journal m _ => bool_decide (m = n) | _ => false end.

Definition drop_journal (n : JournalName) (t : gmap Place Node) : gmap Place Node :=
  filter (fun kv => in_journal n kv.1 = false) t.

(** The names of two journals, exchanged. *)
Definition exchange (from to : JournalName) (p : Place) : Place :=
  match p with
  | Journal m s => Journal (if bool_decide (m = from) then to else if bool_decide (m = to) then from else m) s
  | _ => p
  end.

(** [fs::rename] of a directory: onto nothing, or onto an empty directory. *)
Definition journal_empty (n : JournalName) (t : gmap Place Node) : bool :=
  bool_decide (map_Forall (fun p node => in_journal n p = false \/ (p = Journal n Self /\ node = Dir)) t).

Definition rename_journal (from to : JournalName) : io IoKind unit :=
  update (fun d =>
    match tree d !! Journal from Self with
    | None => Err NotFound
    | Some _ =>
        if negb (journal_empty to (tree d)) then Err OtherIo
        else Ok (tt, set_tree (kmap (exchange from to) (drop_journal to (tree d))) d)
    end).

(** One step of [fs::remove_dir_all]: a directory goes when it is empty. *)
Definition removable (n : JournalName) (s : Slot) (t : gmap Place Node) : bool :=
  bool_decide (map_Forall (fun p _ => parent p <> Journal n s) t).
Definition remove_slot (n : JournalName) (t : gmap Place Node) (s : Slot) : gmap Place Node :=
  if removable n s t then delete (Journal n s) t else t.

Definition remove_torn (n : JournalName) (t : Tear) (d : Disk) : Disk :=
  match t with
  | Everything => set_tree (drop_journal n (tree d)) d
  | Gone slots => set_tree (fold_left (remove_slot n) slots (tree d)) d
  | _ => d
  end.

Definition remove_dir_all (n : JournalName) : io IoKind unit :=
  attempt (RemoveTree n)
    (fun d => match tree d !! Journal n Self with
              | Some Dir => Ok (tt, remove_torn n Everything d)
              | Some _ => Err OtherIo
              | None => Err NotFound
              end)
    (remove_torn n) (remove_torn n).

(** ** Reasoning about computations on a disk

    [wp] is the weakest precondition of a computation over disks: what holds when it
    returns, when it fails and when the process dies in it.  [answers] describes a
    computation that changes nothing: what it returns when nothing goes wrong, which
    is also the only thing it may return.  [fine] is an environment without faults. *)

Record fine (env : Environment) : Prop := mkFine {
  fine_faults : forall n c, faults env n c = Fine;
  fine_control : forall n, control env n = Continue;
  fine_mutex : Forall (eq WouldBlock) (mutex_answers env);
  fine_file_lock : Forall (eq WouldBlock) (file_lock_answers env);
}.

(** ** Weakest preconditions *)

Definition wp {E A} (env : Environment) (m : io E A) (Qd : A -> Disk -> Prop) (Qe : E -> Disk -> Prop)
    (Qc : Disk -> Prop) (b : bool) (d : Disk) : Prop :=
  forall calls polls,
    match m env (mkWorld d b calls polls) with
    | (Done a, w) => w_internal w = b /\ Qd a (w_disk w)
    | (Fail_ e, w) => w_internal w = b /\ Qe e (w_disk w)
    | (Crash, w) => Qc (w_disk w)
    end.

Section wp.
Context {E A : Type} (env : Environment).
Implicit Types (Qd : A -> Disk -> Prop) (Qe : E -> Disk -> Prop) (Qc : Disk -> Prop).

Lemma wp_ret Qd Qe Qc (a : A) b d : Qd a d -> wp env (mret a : io E A) Qd Qe Qc b d.
Proof. intros H c p. by split. Qed.

Lemma wp_fail Qd Qe Qc (e : E) b d : Qe e d -> wp env (fail e : io E A) Qd Qe Qc b d.
Proof. intros H c p. by split. Qed.

Lemma wp_mono Qd Qe Qc (Qd' : A -> Disk -> Prop) (Qe' : E -> Disk -> Prop) (Qc' : Disk -> Prop)
    (m : io E A) b d :
  wp env m Qd Qe Qc b d ->
  (forall a d, Qd a d -> Qd' a d) -> (forall e d, Qe e d -> Qe' e d) -> (forall d, Qc d -> Qc' d) ->
  wp env m Qd' Qe' Qc' b d.
Proof.
  intros H Hd He Hc c p. specialize (H c p).
  destruct (m env _) as [[a|e|] w]; [split; [apply H|apply Hd, H]|split; [apply H|apply He, H]|auto].
Qed.

Lemma wp_bind {B} (m : io E B) (k : B -> io E A) Qd Qe Qc b d :
  wp env m (fun a d => wp env (k a) Qd Qe Qc b d) Qe Qc b d -> wp env (m ≫= k) Qd Qe Qc b d.
Proof.
  intros H c p. unfold mbind, io_bind. specialize (H c p).
  destruct (m env _) as [[a|e|] [d' b' c' p']]; cbn in *; [|done|done].
  destruct H as [-> H]. apply H.
Qed.

Lemma wp_try {F} (m : io E A) (Qd : result E A -> Disk -> Prop) (Qe : F -> Disk -> Prop) Qc b d :
  wp env m (fun a d => Qd (Ok a) d) (fun e d => Qd (Err e) d) Qc b d -> wp env (try m) Qd Qe Qc b d.
Proof.
  intros H c p. unfold try. specialize (H c p). by destruct (m env _) as [[a|e|] w].
Qed.

Lemma wp_map_fail {F} (f : E -> F) (m : io E A) Qd (Qe : F -> Disk -> Prop) Qc b d :
  wp env m Qd (fun e d => Qe (f e) d) Qc b d -> wp env (map_fail f m) Qd Qe Qc b d.
Proof.
  intros H c p. unfold map_fail. specialize (H c p). by destruct (m env _) as [[a|e|] w].
Qed.

Lemma wp_lift (r : result E A) Qd Qe Qc b d :
  match r with Ok a => Qd a d | Err e => Qe e d end -> wp env (lift r) Qd Qe Qc b d.
Proof. destruct r; intros H c p; by split. Qed.

End wp.

(** ** Calls *)

Lemma wp_attempt {A} env c (act : Disk -> result IoKind (A * Disk)) refused halted
    (Qd : A -> Disk -> Prop) (Qe : IoKind -> Disk -> Prop) (Qc : Disk -> Prop) b d :
  (forall a d', act d = Ok (a, d') -> Qd a d') ->
  (forall e, act d = Err e -> Qe e d) ->
  (forall n t, faults env n c = Refused t -> Qe OtherIo (refused t d)) ->
  (forall n t, faults env n c = Halted t -> Qc (halted t d)) ->
  wp env (attempt c act refused halted) Qd Qe Qc b d.
Proof.
  intros Hd He Hr Hh k p. unfold attempt. cbn.
  destruct (faults env k c) as [|t|t] eqn:Ef; cbn.
  - destruct (act d) as [[a d']|e] eqn:Ea; cbn; split; auto.
  - split; [done|]. by eapply Hr.
  - by eapply Hh.
Qed.

Lemma not_fine_refused env n c t : faults env n c = Refused t -> ~ fine env.
Proof. intros H Hf. by rewrite (fine_faults _ Hf) in H. Qed.
Lemma not_fine_halted env n c t : faults env n c = Halted t -> ~ fine env.
Proof. intros H Hf. by rewrite (fine_faults _ Hf) in H. Qed.

(** An update that succeeds: it happens, or the environment is at fault. *)
Lemma wp_update {A} env (act : Disk -> result IoKind (A * Disk))
    (Qd : A -> Disk -> Prop) (Qe : IoKind -> Disk -> Prop) (Qc : Disk -> Prop) b d a d' :
  act d = Ok (a, d') -> Qd a d' ->
  (~ fine env -> Qe OtherIo d /\ Qc d /\ Qc d') ->
  wp env (update act) Qd Qe Qc b d.
Proof.
  intros Ha Hd Hf. unfold update. apply wp_attempt.
  - intros a0 d0. rewrite Ha. by intros [= <- <-].
  - intros e. by rewrite Ha.
  - intros n t H. by apply Hf, (not_fine_refused _ _ _ _ H).
  - intros n t H. unfold whole. rewrite Ha.
    destruct (Hf (not_fine_halted _ _ _ _ H)) as (_ & ? & ?). by destruct t.
Qed.

(** ** Answers *)

Definition answers {E A} (m : io E A) (b : bool) (d : Disk) (o : Outcome E A) : Prop :=
  forall env calls polls,
    match m env (mkWorld d b calls polls) with
    | (Done a, w) => w_disk w = d /\ w_internal w = b /\ o = Done a
    | (Fail_ e, w) => w_disk w = d /\ w_internal w = b /\ (fine env -> o = Fail_ e)
    | (Crash, w) => w_disk w = d /\ ~ fine env
    end.

Definition as_outcome {E A} (r : result E A) : Outcome E A :=
  match r with Ok a => Done a | Err e => Fail_ e end.

Section answers.
Context {E A : Type}.

Lemma answers_ret (a : A) b d : answers (mret a : io E A) b d (Done a).
Proof. intros env c p. done. Qed.

Lemma answers_fail (e : E) b d : answers (fail e : io E A) b d (Fail_ e).
Proof. intros env c p. done. Qed.

Lemma answers_lift_ok (r : result E A) b d a : r = Ok a -> answers (lift r) b d (Done a).
Proof. intros ->. apply answers_ret. Qed.

Lemma answers_lift_err (r : result E A) b d e : r = Err e -> answers (lift r) b d (Fail_ e).
Proof. intros ->. apply answers_fail. Qed.

Lemma answers_bind {B} (m : io E B) (k : B -> io E A) b d x o :
  answers m b d (Done x) -> answers (k x) b d o -> answers (m ≫= k) b d o.
Proof.
  intros Hm Hk env c p. unfold mbind, io_bind. specialize (Hm env c p).
  destruct (m env _) as [[a|e|] [d' b' c' p']]; cbn in *.
  - destruct Hm as (-> & -> & [= <-]). apply Hk.
  - destruct Hm as (-> & -> & H). split; [done|]. split; [done|]. intros Hf. discriminate (H Hf).
  - done.
Qed.

Lemma answers_bind_fail {B} (m : io E B) (k : B -> io E A) b d e :
  answers m b d (Fail_ e) -> answers (m ≫= k) b d (Fail_ e).
Proof.
  intros Hm env c p. unfold mbind, io_bind. specialize (Hm env c p).
  destruct (m env _) as [[a|e'|] w]; cbn in *; [by destruct Hm as (_ & _ & ?)| |done].
  destruct Hm as (? & ? & H). split; [done|]. split; [done|]. intros Hf. by injection (H Hf) as <-.
Qed.

Lemma answers_map_fail {F} (f : E -> F) (m : io E A) b d a :
  answers m b d (Done a) -> answers (map_fail f m) b d (Done a).
Proof.
  intros Hm env c p. unfold map_fail. specialize (Hm env c p).
  destruct (m env _) as [[x|e|] w]; [naive_solver| |done].
  destruct Hm as (? & ? & H). split; [done|]. split; [done|]. intros Hf. discriminate (H Hf).
Qed.

Lemma answers_internal b d : answers (get_internal : io E bool) b d (Done b).
Proof. intros env c p. done. Qed.

(** What an answering computation does to a postcondition. *)
Lemma wp_answers env (m : io E A) b d o Qd Qe Qc :
  answers m b d o ->
  (forall a, o = Done a -> Qd a d) ->
  (forall e, (fine env -> o = Fail_ e) -> Qe e d) ->
  (~ fine env -> Qc d) ->
  wp env m Qd Qe Qc b d.
Proof.
  intros Hm Hd He Hc c p. specialize (Hm env c p).
  destruct (m env _) as [[a|e|] w].
  - destruct Hm as (-> & -> & ->). split; [done|]. by apply Hd.
  - destruct Hm as (-> & -> & H). split; [done|]. by apply He.
  - destruct Hm as (-> & H). by apply Hc.
Qed.

End answers.

(** The frequent case: an answer, or a fault. *)
Lemma wp_done {E A} env (m : io E A) b d a (Qd : A -> Disk -> Prop) (Qe : E -> Disk -> Prop) (Qc : Disk -> Prop) :
  answers m b d (Done a) -> Qd a d -> (~ fine env -> (forall e, Qe e d) /\ Qc d) -> wp env m Qd Qe Qc b d.
Proof.
  intros Hm Hd Hf. apply (wp_answers _ _ _ _ _ _ _ _ Hm).
  - by intros a0 [= <-].
  - intros e H. apply Hf. intros Hfine. discriminate (H Hfine).
  - intros H. by apply Hf.
Qed.

Lemma wp_bind_done {E A B} env (m : io E B) (k : B -> io E A) b d x
    (Qd : A -> Disk -> Prop) (Qe : E -> Disk -> Prop) (Qc : Disk -> Prop) :
  answers m b d (Done x) -> (~ fine env -> (forall e, Qe e d) /\ Qc d) ->
  wp env (k x) Qd Qe Qc b d -> wp env (m ≫= k) Qd Qe Qc b d.
Proof. intros Hm Hf Hk. apply wp_bind. by apply (wp_done _ _ _ _ x). Qed.

(** ** Queries *)

Lemma answers_query {A} (f : Disk -> result IoKind A) b d :
  answers (query f) b d (as_outcome (f d)).
Proof.
  intros env c p. unfold query, attempt. cbn.
  destruct (faults env c Query) eqn:Ef; cbn.
  - by destruct (f d).
  - split; [done|]. split; [done|]. intros Hf. by apply not_fine_refused in Ef.
  - split; [done|]. by apply not_fine_halted in Ef.
Qed.

Lemma answers_query_ok {A} (f : Disk -> result IoKind A) b d a :
  f d = Ok a -> answers (query f) b d (Done a).
Proof. intros H. pose proof (answers_query f b d) as Hq. by rewrite H in Hq. Qed.

Lemma answers_stat p b d m : stat p d = Ok m -> answers (symlink_metadata p) b d (Done m).
Proof. apply answers_query_ok. Qed.

Lemma answers_open p b d c : contents p d = Ok c -> answers (open_file p) b d (Done c).
Proof. apply answers_query_ok. Qed.

Lemma answers_touch b d : answers touch_open b d (Done tt).
Proof. by apply answers_query_ok. Qed.

Lemma answers_sync p n b d : tree d !! p = Some n -> answers (sync_directory p) b d (Done tt).
Proof. intros H. apply answers_query_ok. by rewrite H. Qed.

(** [match fs::symlink_metadata(p) { .. Err(NotFound) => .., Err(e) => return Err(e) }]:
    a fault never looks like a missing file. *)
Lemma stat_err p d e : stat p d = Err e -> e = NotFound.
Proof. unfold stat. destruct (tree d !! p) as [[| |]|]; by intros [=]. Qed.

Lemma answers_match_stat {E A} p (k : result IoKind Metadata -> io E A) b d o e :
  k (Err OtherIo) = fail e -> answers (k (stat p d)) b d o ->
  answers (try (symlink_metadata p) ≫= k) b d o.
Proof.
  intros Hk Ho env c q. unfold mbind, io_bind, try, symlink_metadata, query, attempt. cbn.
  destruct (faults env c Query) eqn:Ef; cbn.
  - destruct (stat p d) as [m|e'] eqn:Es; cbn; apply Ho.
  - rewrite Hk. cbn. split; [done|]. split; [done|]. intros Hf. by apply not_fine_refused in Ef.
  - split; [done|]. by apply not_fine_halted in Ef.
Qed.

Lemma wp_match_stat {E A} env p (k : result IoKind Metadata -> io E A) b d e
    (Qd : A -> Disk -> Prop) (Qe : E -> Disk -> Prop) (Qc : Disk -> Prop) :
  k (Err OtherIo) = fail e -> wp env (k (stat p d)) Qd Qe Qc b d -> (~ fine env -> Qe e d /\ Qc d) ->
  wp env (try (symlink_metadata p) ≫= k) Qd Qe Qc b d.
Proof.
  intros Hk Ho Hf. apply wp_bind, wp_try. unfold symlink_metadata, query. apply wp_attempt.
  - intros m d' H. apply bind_ok in H as (m' & Hs & H). injection H as -> <-. by rewrite Hs in Ho.
  - intros e' H. apply bind_err in H as [Hs|(m' & _ & H)]; [|done]. by rewrite Hs in Ho.
  - intros n t H. rewrite Hk. apply wp_fail. by apply Hf, (not_fine_refused _ _ _ _ H).
  - intros n t H. by apply Hf, (not_fine_halted _ _ _ _ H).
Qed.

Lemma stat_file p d i c :
  tree d !! p = Some (File i) -> data d !! i = Some c -> stat p d = Ok (mkMetadata (File i) (len c)).
Proof. intros Ht Hd. unfold stat. by rewrite Ht, Hd. Qed.
Lemma stat_dir p d : tree d !! p = Some Dir -> stat p d = Ok (mkMetadata Dir 0).
Proof. intros Ht. unfold stat. by rewrite Ht. Qed.
Lemma stat_none p d : tree d !! p = None -> stat p d = Err NotFound.
Proof. intros Ht. unfold stat. by rewrite Ht. Qed.
Lemma contents_file p d i c :
  tree d !! p = Some (File i) -> data d !! i = Some c -> contents p d = Ok c.
Proof. intros Ht Hd. unfold contents. by rewrite Ht, Hd. Qed.

(** [Path::exists]: presence is never imagined, absence may be a fault. *)
Lemma wp_exists {E} env p b d (Qd : bool -> Disk -> Prop) (Qe : E -> Disk -> Prop) (Qc : Disk -> Prop) :
  Qd (is_ok (stat p d)) d -> (~ fine env -> Qd false d /\ Qc d) ->
  wp env (exists_ p) Qd Qe Qc b d.
Proof.
  intros Hd Hf. unfold exists_. apply wp_bind, wp_try. unfold symlink_metadata, query.
  apply wp_attempt.
  - intros m d' H. apply bind_ok in H as (m' & Hs & H). injection H as -> <-. apply wp_ret. by rewrite Hs in Hd.
  - intros e H. apply bind_err in H as [Hs|(m' & _ & H)]; [|done]. apply wp_ret. by rewrite Hs in Hd.
  - intros n t H. apply wp_ret. cbn. apply Hf. by apply not_fine_refused in H.
  - intros n t H. apply Hf. by apply not_fine_halted in H.
Qed.

