(* ===== verification/Mutation.v ===== *)
(** * Mutation: checked paths, file reads and compare-and-swap replacement

    mutation.rs, and the helpers of transaction.rs that read, hash and write single
    files.  The crates BLAKE3, [same-file] and [atomicwrites] are the parameters of
    [Libraries], with what they document as [LibraryLaws]. *)

From S2P Require Import Prelude Text Workspace Manifest Disk.

(** ** Crates *)

(** [blake3::hash]; whether two open files are one; the disk after a file was
    replaced by a new one with the given bytes. *)
Class Libraries : Type := {
  blake3 : bytes -> bytes;
  same_inode : nat -> nat -> bool;
  replaced : Place -> bytes -> Disk -> Disk;
}.

Class LibraryLaws (L : Libraries) : Prop := {
  blake3_digest b : digest_ok (blake3 b);
  same_inode_spec i j : same_inode i j = true <-> i = j;
  replaced_spec p b d :
    exists i, data d !! i = None /\ replaced p b d = mkDisk (<[p := File i]> (tree d)) (<[i := b]> (data d));
}.

(** ** Errors and outcomes *)

Inductive FileTransactionFailure : Type :=
| FT_Conflict | FT_Cancelled | FT_TimedOut | FT_Filesystem | FT_RecoveryRequired.

Inductive StepFailure : Type :=
| SF_Conflict (digest : bytes)
| SF_Stopped (failure : FileTransactionFailure)
| SF_Platform (error : PlatformError).

Inductive ReplaceOutcome : Type :=
| RO_Committed (previous_digest new_digest : bytes)
| RO_Conflict (actual_digest : bytes)
| RO_Indeterminate (actual_digest : option bytes).

Inductive WriteAbort : Type :=
| WA_Io (kind : IoKind)
| WA_Platform (error : PlatformError)
| WA_Conflict (digest : bytes).

(** [atomicwrites::Error]. *)
Inductive AtomicError : Type := Internal (kind : IoKind) | User (abort : WriteAbort).

Definition io_p {A} : io IoKind A -> io PlatformError A := map_fail PL_Io.
Definition p_s {A} : io PlatformError A -> io StepFailure A := map_fail SF_Platform.
Definition io_s {A} (m : io IoKind A) : io StepFailure A := p_s (io_p m).

(** ** Control points *)

Definition control_failure (c : TransactionControl) : option FileTransactionFailure :=
  match c with
  | Continue => None | Cancelled => Some FT_Cancelled | TimedOut => Some FT_TimedOut end.

Definition check_control : io FileTransactionFailure unit :=
  c ← poll; match control_failure c with None => mret tt | Some f => fail f end.

Definition check_stopped : io StepFailure unit := map_fail SF_Stopped check_control.

(** ** Paths *)

(** The loop over the components; the last call is [canonicalize], which returns
    its argument when no link is on the way. *)
Fixpoint check_components (native components : list str) (must_exist : bool)
    : io PlatformError Place :=
  match components with
  | [] => _ ← io_p touch_open; mret (Work native)
  | component :: components =>
      let native := native ++ [component] in
      let final_component := bool_decide (components = []) in
      m ← try (symlink_metadata (Work native));
      match m with
      | Ok metadata =>
          if (final_component && negb (is_file metadata))
             || (negb final_component && negb (is_dir metadata))
          then fail PL_InvalidMutationTarget
          else check_components native components must_exist
      | Err NotFound =>
          if final_component && negb must_exist then mret (Work native) else fail (PL_Io NotFound)
      | Err e => fail (PL_Io e)
      end
  end.

Definition checked_mutation_path (logical : str) (must_exist : bool) : io PlatformError Place :=
  _ ← lift (validate_logical logical);
  internal ← get_internal;
  _ ← lift (reject_reserved internal logical);
  if bool_decide (logical = L ".") then fail PL_InvalidMutationTarget
  else check_components [] (split 47 logical) must_exist.

(** ** Whole files *)

Definition write_new_sync (p : Place) (b : bytes) : io PlatformError unit :=
  file ← io_p (create_new p);
  _ ← io_p (write_all file b);
  io_p touch_open.

Definition read_regular_bounded (p : Place) (max_bytes : Z) : io PlatformError bytes :=
  metadata ← io_p (symlink_metadata p);
  if negb (is_file metadata) || (max_bytes <? md_len metadata) then fail PL_JournalCorrupt
  else
    b ← io_p (read_file p);
    if max_bytes <? len b then fail PL_JournalCorrupt else mret b.

Definition remove_file_if_present (p : Place) : io PlatformError unit :=
  m ← try (symlink_metadata p);
  match m with
  | Ok metadata => if is_file metadata then io_p (remove_file p) else fail PL_RecoveryRequired
  | Err NotFound => mret tt
  | Err e => fail (PL_Io e)
  end.

(** ** Reading in blocks *)

Definition COPY_BUFFER_BYTES : Z := 64 * 1024.

(** What successive [read]s into the buffer return, until they return nothing. *)
Fixpoint blocks_aux (fuel : nat) (b : bytes) : list bytes :=
  match fuel, b with
  | S fuel, _ :: _ =>
      take (Z.to_nat COPY_BUFFER_BYTES) b :: blocks_aux fuel (drop (Z.to_nat COPY_BUFFER_BYTES) b)
  | _, _ => []
  end.
Definition blocks (b : bytes) : list bytes := blocks_aux (length b) b.

Definition too_large (size max : Z) : StepFailure := SF_Platform (PL_InputTooLarge size max).

Definition charge_bytes (n : Z) (limits : FileTransactionLimits) (total : Z)
    : result StepFailure Z :=
  if max_file_bytes limits <? n then Err (too_large n (max_file_bytes limits))
  else
    total ← ok_or (checked_add u64_max total n) (too_large u64_max (max_total_bytes limits));
    if max_total_bytes limits <? total then Err (too_large total (max_total_bytes limits))
    else Ok total.

Section libraries.
Context `{L : Libraries}.

(** [each] is what happens to a block once it is accounted for. *)
Fixpoint block_loop (each : bytes -> io StepFailure unit) (l : list bytes) (max_bytes size : Z)
    (hashed : bytes) : io StepFailure (bytes * Z) :=
  _ ← check_stopped;
  _ ← io_s touch_open;
  match l with
  | [] => mret (blake3 hashed, size)
  | block :: l =>
      size ← lift (ok_or (checked_add u64_max size (len block)) (too_large u64_max max_bytes));
      if max_bytes <? size then fail (too_large size max_bytes)
      else _ ← each block; block_loop each l max_bytes size (hashed ++ block)
  end.

Definition hash_reader_bounded (l : list bytes) (max_bytes : Z) : io StepFailure (bytes * Z) :=
  block_loop (fun _ => mret tt) l max_bytes 0 [].

Definition hash_file_without_charge (p : Place) (limits : FileTransactionLimits)
    : io StepFailure (bytes * Z) :=
  b ← io_s (open_file p); hash_reader_bounded (blocks b) (max_file_bytes limits).

(** The digest, the size and the new total. *)
Definition hash_file_bounded (p : Place) (limits : FileTransactionLimits) (total : Z)
    : io StepFailure (bytes * Z * Z) :=
  r ← hash_file_without_charge p limits;
  total ← lift (charge_bytes r.2 limits total);
  mret (r, total).

Definition copy_file_bounded (source destination : Place) (limits : FileTransactionLimits) (total : Z)
    : io StepFailure (bytes * Z * Z) :=
  metadata ← io_s (symlink_metadata source);
  if max_file_bytes limits <? md_len metadata
  then fail (too_large (md_len metadata) (max_file_bytes limits))
  else
    b ← io_s (open_file source);
    file ← io_s (create_new destination);
    r ← block_loop (fun block => io_s (write_all file block)) (blocks b) (max_file_bytes limits) 0 [];
    _ ← io_s touch_open;
    _ ← io_s touch_open;
    total ← lift (charge_bytes r.2 limits total);
    mret (r, total).

Fixpoint recovery_loop (l : list bytes) (expected_size read_size : Z) (hashed : bytes)
    : io PlatformError bytes :=
  _ ← io_p touch_open;
  match l with
  | [] => if negb (read_size =? expected_size) then fail PL_RecoveryRequired else mret (blake3 hashed)
  | block :: l =>
      read_size ← lift (ok_or (checked_add u64_max read_size (len block)) PL_RecoveryRequired);
      if expected_size <? read_size then fail PL_RecoveryRequired
      else recovery_loop l expected_size read_size (hashed ++ block)
  end.

Definition hash_file_recovery (p : Place) (expected_size : Z) : io PlatformError bytes :=
  metadata ← io_p (symlink_metadata p);
  if negb (md_len metadata =? expected_size) then fail PL_RecoveryRequired
  else
    b ← io_p (open_file p);
    recovery_loop (blocks b) expected_size 0 [].

Definition file_matches_recovery (p : Place) (expected_size : Z) (expected_digest : bytes)
    : io PlatformError bool :=
  metadata ← io_p (symlink_metadata p);
  if negb (is_file metadata) then fail PL_RecoveryRequired
  else if negb (md_len metadata =? expected_size) then mret false
  else digest ← hash_file_recovery p expected_size; mret (bool_decide (digest = expected_digest)).

Fixpoint staged_loop (l : list bytes) (capacity : Z) (read : bytes) : io StepFailure bytes :=
  _ ← check_stopped;
  _ ← io_s touch_open;
  match l with
  | [] => mret read
  | block :: l =>
      if capacity <? saturating_add usize_max (len read) (len block)
      then fail (SF_Platform PL_JournalCorrupt)
      else staged_loop l capacity (read ++ block)
  end.

Definition read_staged_replacement (p : Place) (expected_size : Z) (expected_digest : bytes)
    (limits : FileTransactionLimits) : io StepFailure bytes :=
  metadata ← io_s (symlink_metadata p);
  if negb (is_file metadata) || negb (md_len metadata =? expected_size)
     || (max_file_bytes limits <? expected_size)
  then fail (SF_Platform PL_JournalCorrupt)
  else
    b ← io_s (open_file p);
    read ← staged_loop (blocks b) expected_size [];
    if negb (len read =? expected_size) || negb (bool_decide (blake3 read = expected_digest))
    then fail (SF_Platform PL_JournalCorrupt) else mret read.

(** [same_regular_file]: the inodes are compared by the [same-file] crate. *)
Definition same_regular_file (left_ right_ : Place) : io PlatformError bool :=
  l ← io_p (symlink_metadata left_);
  if negb (is_file l) then mret false
  else
    r ← io_p (symlink_metadata right_);
    if negb (is_file r) then mret false
    else
      _ ← io_p touch_open;
      mret (match md_node l, md_node r with File i, File j => same_inode i j | _, _ => false end).

(** ** Compare-and-swap replacement *)

(** [AtomicFile::write]: a temporary file, the caller's closure, the exchange.  The
    exchange may take place although it is reported to have failed. *)
Definition swap_torn (p : Place) (b : bytes) (t : Tear) (d : Disk) : Disk :=
  match t with Everything => replaced p b d | _ => d end.

Definition atomic_write (p : Place) (b : bytes) (f : io WriteAbort unit) : io AtomicError unit :=
  _ ← map_fail Internal touch_open;
  _ ← map_fail User f;
  map_fail Internal (attempt Swap (fun d => Ok (tt, replaced p b d)) (swap_torn p b) (swap_torn p b)).

Definition revalidate_mutation_file (logical : str) (target : Place) : io PlatformError Place :=
  native ← checked_mutation_path logical true;
  if bool_decide (native = target) then mret native else fail PL_InvalidMutationTarget.

Definition read_mutation_file (logical : str) (target : Place) (max_bytes : Z)
    : io PlatformError bytes :=
  native ← revalidate_mutation_file logical target;
  metadata ← io_p (symlink_metadata native);
  if max_bytes <? md_len metadata then fail (PL_InputTooLarge (md_len metadata) max_bytes)
  else io_p (read_file native).

Definition mutation_file_size (logical : str) : io PlatformError Z :=
  target ← checked_mutation_path logical true;
  native ← revalidate_mutation_file logical target;
  metadata ← io_p (symlink_metadata native);
  mret (md_len metadata).

Definition read_mutation_limited (logical : str) (max_bytes : Z) : io PlatformError bytes :=
  target ← checked_mutation_path logical true;
  read_mutation_file logical target max_bytes.

(** The closure given to [AtomicFile::write]. *)
Definition write_checked (logical : str) (target : Place) (expected_digest : bytes)
    (max_existing_bytes : Z) : io WriteAbort unit :=
  _ ← map_fail WA_Io touch_open;
  _ ← map_fail WA_Io touch_open;
  current ← map_fail WA_Platform (read_mutation_file logical target max_existing_bytes);
  if bool_decide (blake3 current = expected_digest) then mret tt
  else fail (WA_Conflict (blake3 current)).

Definition compare_and_swap_replace_inner (logical : str) (expected_digest new_contents : bytes)
    (max_existing_bytes : Z) : io PlatformError ReplaceOutcome :=
  target ← checked_mutation_path logical true;
  current ← read_mutation_file logical target max_existing_bytes;
  let actual_digest := blake3 current in
  if negb (bool_decide (actual_digest = expected_digest)) then mret (RO_Conflict actual_digest)
  else
    _ ← io_p touch_open;
    let new_digest := blake3 new_contents in
    written ← try (atomic_write target new_contents
                     (write_checked logical target expected_digest max_existing_bytes));
    match written with
    | Ok _ => mret (RO_Committed actual_digest new_digest)
    | Err (Internal e) =>
        now ← try (read_mutation_file logical target max_existing_bytes);
        match now with
        | Ok current =>
            let observed := blake3 current in
            if bool_decide (observed = new_digest) then mret (RO_Committed actual_digest new_digest)
            else if bool_decide (observed = expected_digest) then fail (PL_Io e)
            else mret (RO_Conflict observed)
        | Err _ => mret (RO_Indeterminate None)
        end
    | Err (User (WA_Io e)) => fail (PL_Io e)
    | Err (User (WA_Platform e)) => fail e
    | Err (User (WA_Conflict digest)) => mret (RO_Conflict digest)
    end.

(** [Mutex::lock]: it waits until the lock is free or poisoned. *)
Fixpoint begin_mutation (answers : list LockAnswer) : io PlatformError unit :=
  match answers with
  | [] => mret tt
  | WouldBlock :: answers => begin_mutation answers
  | LockFailed :: _ => fail PL_MutationLockPoisoned
  end.

Definition compare_and_swap_replace (logical : str) (expected_digest new_contents : bytes)
    (max_existing_bytes : Z) : io PlatformError ReplaceOutcome :=
  env ← @get_environment PlatformError;
  _ ← begin_mutation (mutex_answers env);
  compare_and_swap_replace_inner logical expected_digest new_contents max_existing_bytes.

End libraries.

(** ** What the file helpers do

    The reads answer from the disk, [checked_mutation_path] accepts the places that
    are reached through directories, a new file is created whole unless a fault cuts
    it short, and a compare-and-swap replaces a file or leaves it. *)

(** ** Places of logical paths *)

Definition place_of (logical : str) : Place := Work (split 47 logical).

(** Every directory above the path exists. *)
Definition reachable (d : Disk) (logical : str) : Prop :=
  forall l l', split 47 logical = l ++ l' -> l' <> [] -> tree d !! Work l = Some Dir.

Lemma removelast_snoc {A} (l : list A) x : removelast (l ++ [x]) = l.
Proof. by rewrite removelast_last. Qed.


Lemma reachable_parent d s : reachable d s -> tree d !! parent (place_of s) = Some Dir.
Proof.
  intros H. unfold place_of. cbn. pose proof (split_nonempty 47 s) as Hn.
  destruct (exists_last Hn) as (l & x & E). rewrite E, removelast_snoc. by apply (H l [x]).
Qed.

(** What a final component may be. *)
Definition final_ok (d : Disk) (p : Place) (must_exist : bool) : Prop :=
  match tree d !! p with
  | None => must_exist = false
  | Some (File _) => True
  | Some _ => False
  end.

Lemma answers_io {A} (m : io IoKind A) b d a : answers m b d (Done a) -> answers (io_p m) b d (Done a).
Proof. apply answers_map_fail. Qed.

Lemma answers_p_s {A} (m : io PlatformError A) b d a : answers m b d (Done a) -> answers (p_s m) b d (Done a).
Proof. apply answers_map_fail. Qed.

Lemma answers_io_s {A} (m : io IoKind A) b d a : answers m b d (Done a) -> answers (io_s m) b d (Done a).
Proof. intros H. by apply answers_p_s, answers_io. Qed.

(** The loop over the components answers; it accepts exactly the reachable files. *)
Lemma answers_components must_exist b d components native :
  components <> [] ->
  exists o, answers (check_components native components must_exist) b d o
    /\ ((forall l l', components = l ++ l' -> l <> [] -> l' <> [] -> tree d !! Work (native ++ l) = Some Dir) ->
        final_ok d (Work (native ++ components)) must_exist -> o = Done (Work (native ++ components)))
    /\ forall p, o = Done p -> p = Work (native ++ components) /\ final_ok d p must_exist
       /\ forall l l', components = l ++ l' -> l <> [] -> l' <> [] -> tree d !! Work (native ++ l) = Some Dir.
Proof.
  revert native. induction components as [|c components IH]; intros native Hne; [done|]. clear Hne.
  set (final := bool_decide (components = [])).
  cbn [check_components].
  destruct (stat (Work (native ++ [c])) d) as [m|e] eqn:Es.
  - destruct ((final && negb (is_file m)) || (negb final && negb (is_dir m))) eqn:Eb.
    + exists (Fail_ PL_InvalidMutationTarget). split.
      { eapply answers_match_stat; [done|]. rewrite Es. fold final. rewrite Eb. apply answers_fail. }
      split; [|done]. intros Hd Hf. exfalso. unfold stat in Es.
      destruct components as [|c' components]; cbn in Eb.
      * unfold final_ok in Hf. destruct (tree d !! _) as [[| |]|]; simplify_eq/=; done.
      * rewrite (Hd [c] (c' :: components)) in Es by done. by simplify_eq/=.
    + destruct components as [|c' components].
      * exists (Done (Work (native ++ [c]))). split.
        { eapply answers_match_stat; [done|]. rewrite Es. fold final. rewrite Eb. cbn.
          eapply answers_bind; [apply answers_io, answers_touch|apply answers_ret]. }
        split; [done|]. intros p [= <-]. split; [done|]. split.
        { unfold stat, final_ok in *. destruct (tree d !! _) as [[| |]|]; simplify_eq/=; done. }
        intros l l' Hl Hn Hn'. destruct l as [|x l]; [done|]. destruct l; destruct l'; simplify_eq/=; done.
      * destruct (IH (native ++ [c]) ltac:(done)) as (o & Ho & Hdone & Hinv).
        exists o. rewrite <- app_assoc in *. cbn [app] in *.
        assert (tree d !! Work (native ++ [c]) = Some Dir) as Hdir.
        { unfold stat in Es. cbn in Eb. destruct (tree d !! _) as [[| |]|]; simplify_eq/=; done. }
        split; [|split].
        { eapply answers_match_stat; [done|]. rewrite Es. fold final. rewrite Eb. apply Ho. }
        { intros Hd Hf. apply Hdone; [|done]. intros l l' Hl Hn Hn'. rewrite <- app_assoc.
          apply (Hd (c :: l) l'); [by rewrite Hl|done|done]. }
        intros p Hp. destruct (Hinv p Hp) as (-> & Hf & Hd). split; [done|]. split; [done|].
        intros l l' Hl Hn Hn'. destruct l as [|x l]; [done|]. injection Hl as <- Hl.
        destruct l as [|x l]; [done|].
        specialize (Hd (x :: l) l' Hl ltac:(done) Hn'). by rewrite <- app_assoc in Hd.
  - pose proof (stat_err _ _ _ Es) as ->.
    assert (tree d !! Work (native ++ [c]) = None) as Hnone.
    { unfold stat in Es. by destruct (tree d !! _) as [[| |]|]. }
    destruct (final && negb must_exist) eqn:Eb.
    + exists (Done (Work (native ++ [c]))). zbool. unfold final in *.
      destruct components; [|by rewrite bool_decide_false in *]. subst must_exist. split.
      { eapply answers_match_stat; [done|]. rewrite Es. cbn. apply answers_ret. }
      split; [done|]. intros p [= <-]. split; [done|]. split.
      { unfold final_ok. by rewrite Hnone. }
      intros l l' Hl Hn Hn'. destruct l as [|x l]; [done|]. destruct l; destruct l'; simplify_eq/=; done.
    + exists (Fail_ (PL_Io NotFound)). split.
      { eapply answers_match_stat; [done|]. rewrite Es. fold final. rewrite Eb. apply answers_fail. }
      split; [|done]. intros Hd Hf. exfalso. destruct components as [|c' components].
      * cbn in Eb. unfold final_ok in Hf. rewrite Hnone in Hf. by subst.
      * by rewrite (Hd [c] (c' :: components)) in Hnone by done.
Qed.

(** *** Paths *)

Lemma target_ok_iff s :
  target_ok s = true <->
  validate_logical s = Ok tt /\ s <> L "." /\ reject_reserved true s = Ok tt.
Proof.
  unfold target_ok, reject_reserved. rewrite validate_logical_ok. cbn [andb].
  destruct (reserved_path s), (is_ok _); case_bool_decide; cbn; naive_solver.
Qed.

Lemma checked_answers d s must_exist :
  tree d !! Work [] = Some Dir ->
  exists o, answers (checked_mutation_path s must_exist) true d o
    /\ (target_ok s = true -> reachable d s -> final_ok d (place_of s) must_exist -> o = Done (place_of s))
    /\ forall p, o = Done p ->
       p = place_of s /\ target_ok s = true /\ reachable d s /\ final_ok d (place_of s) must_exist.
Proof.
  intros Hroot. unfold checked_mutation_path.
  destruct (validate_logical s) as [[]|e] eqn:Ev.
  2: { exists (Fail_ e). split; [by eapply answers_bind_fail, answers_lift_err|].
       split; [|done]. intros (? & _ & _)%target_ok_iff. congruence. }
  destruct (reject_reserved true s) as [[]|e] eqn:Er.
  2: { exists (Fail_ e). split; [|split; [|done]].
       - eapply answers_bind; [by apply answers_lift_ok|]. eapply answers_bind; [apply answers_internal|].
         by eapply answers_bind_fail, answers_lift_err.
       - intros (_ & _ & ?)%target_ok_iff. congruence. }
  destruct (decide (s = L ".")) as [Hs|Hs].
  { exists (Fail_ PL_InvalidMutationTarget). split; [|split; [|done]].
    - eapply answers_bind; [by apply answers_lift_ok|]. eapply answers_bind; [apply answers_internal|].
      eapply answers_bind; [by apply answers_lift_ok|]. rewrite bool_decide_true by done. apply answers_fail.
    - by intros (_ & ? & _)%target_ok_iff. }
  assert (target_ok s = true) as Ht by by apply target_ok_iff.
  destruct (answers_components must_exist true d (split 47 s) [] (split_nonempty 47 s)) as (o & Ho & Hd & Hinv).
  exists o. split; [|split].
  - eapply answers_bind; [by apply answers_lift_ok|]. eapply answers_bind; [apply answers_internal|].
    eapply answers_bind; [by apply answers_lift_ok|]. by rewrite bool_decide_false by done.
  - intros _ Hr Hf. apply Hd; [|done]. intros l l' Hl _ Hn. by apply (Hr l l').
  - intros p Hp. destruct (Hinv p Hp) as (-> & Hf & Hdirs). split; [done|]. split; [done|]. split; [|done].
    intros l l' Hl Hn. destruct l as [|x l]; [done|]. by apply (Hdirs (x :: l) l').
Qed.

Lemma answers_checked d s must_exist :
  tree d !! Work [] = Some Dir -> target_ok s = true -> reachable d s -> final_ok d (place_of s) must_exist ->
  answers (checked_mutation_path s must_exist) true d (Done (place_of s)).
Proof.
  intros Hroot Ht Hr Hf. destruct (checked_answers d s must_exist Hroot) as (o & Ho & Hd & _).
  by rewrite (Hd Ht Hr Hf) in Ho.
Qed.

(** ** Files *)

(** The place holds a regular file with these bytes. *)
Definition holds (d : Disk) (p : Place) (c : bytes) : Prop :=
  exists i, tree d !! p = Some (File i) /\ data d !! i = Some c.

Lemma holds_stat d p c : holds d p c -> exists i, tree d !! p = Some (File i) /\ stat p d = Ok (mkMetadata (File i) (len c)).
Proof. intros (i & Ht & Hd). exists i. split; [done|]. by apply stat_file. Qed.

Lemma holds_contents d p c : holds d p c -> contents p d = Ok c.
Proof. intros (i & Ht & Hd). by eapply contents_file. Qed.

Lemma holds_fun d p c c' : holds d p c -> holds d p c' -> c = c'.
Proof. intros (i & Ht & Hd) (j & Ht' & Hd'). congruence. Qed.

Lemma holds_final d p c must_exist : holds d p c -> final_ok d p must_exist.
Proof. intros (i & Ht & _). unfold final_ok. by rewrite Ht. Qed.

Lemma none_final d p : tree d !! p = None -> final_ok d p false.
Proof. intros Ht. unfold final_ok. by rewrite Ht. Qed.

Lemma blocks_aux_concat fuel b : (length b <= fuel)%nat -> concat (blocks_aux fuel b) = b.
Proof.
  revert b. induction fuel as [|fuel IH]; intros b Hl; [by destruct b; cbn in *; [|lia]|].
  destruct b as [|x b]; [done|]. cbn [blocks_aux concat].
  rewrite IH; [apply take_drop|]. rewrite length_drop.
  pose proof (eq_refl : COPY_BUFFER_BYTES = 65536). cbn [length] in *. lia.
Qed.

Lemma blocks_concat b : concat (blocks b) = b.
Proof. by apply blocks_aux_concat. Qed.

Section libraries.
Context `{lib : Libraries}.

Lemma answers_stopped b d : answers check_stopped b d (Done tt).
Proof.
  unfold check_stopped. apply answers_map_fail. intros env c p. unfold check_control, mbind, io_bind, poll. cbn.
  destruct (control env p) eqn:Ec; cbn; [done| |];
    (split; [done|]; split; [done|]; intros Hf; by rewrite (fine_control _ Hf) in Ec).
Qed.

(** Hashing: the size is within the bound, or an error says so. *)
Lemma answers_block_loop l max size acc b d :
  exists o, answers (block_loop (fun _ => mret tt) l max size acc) b d o
    /\ (size + len (concat l) <= max -> max <= u64_max -> o = Done (blake3 (acc ++ concat l), size + len (concat l)))
    /\ forall r, o = Done r -> r = (blake3 (acc ++ concat l), size + len (concat l)).
Proof.
  revert size acc. induction l as [|x l IH]; intros size acc; cbn [block_loop concat].
  - exists (Done (blake3 acc, size)). rewrite app_nil_r, Z.add_0_r. split; [|naive_solver].
    eapply answers_bind; [apply answers_stopped|].
    eapply answers_bind; [apply answers_io_s, answers_touch|]. apply answers_ret.
  - rewrite len_app, app_assoc, Z.add_assoc.
    unfold checked_add. pose proof (len_nonneg (concat l)).
    destruct (size + len x <=? u64_max) eqn:E1.
    2: { exists (Fail_ (too_large u64_max max)). split; [|split; [lia|done]].
         eapply answers_bind; [apply answers_stopped|].
         eapply answers_bind; [apply answers_io_s, answers_touch|]. apply answers_bind_fail, answers_fail. }
    destruct (max <? size + len x) eqn:E2.
    { exists (Fail_ (too_large (size + len x) max)). split; [|split; [lia|done]].
      eapply answers_bind; [apply answers_stopped|].
      eapply answers_bind; [apply answers_io_s, answers_touch|].
      eapply answers_bind; [apply answers_ret|]. rewrite E2. apply answers_fail. }
    destruct (IH (size + len x) (acc ++ x)) as (o & Ho & Hd & Hi). exists o. split; [|by split].
    eapply answers_bind; [apply answers_stopped|].
    eapply answers_bind; [apply answers_io_s, answers_touch|].
    eapply answers_bind; [apply answers_ret|]. rewrite E2.
    by eapply answers_bind; [apply answers_ret|].
Qed.

Lemma hash_answers d p c limits b :
  holds d p c ->
  exists o, answers (hash_file_without_charge p limits) b d o
    /\ (len c <= max_file_bytes limits <= u64_max -> o = Done (blake3 c, len c))
    /\ forall r, o = Done r -> r = (blake3 c, len c).
Proof.
  intros Hh. destruct (answers_block_loop (blocks c) (max_file_bytes limits) 0 [] b d) as (o & Ho & Hd & Hi).
  rewrite blocks_concat in Hd, Hi. exists o. split; [|split; [|done]].
  - eapply answers_bind; [|apply Ho]. by apply answers_io_s, answers_open, holds_contents.
  - intros []. by apply Hd.
Qed.

Lemma answers_recovery_loop l n size acc b d :
  n <= u64_max -> 
  answers (recovery_loop l n size acc) b d
    (if size + len (concat l) =? n then Done (blake3 (acc ++ concat l)) else Fail_ PL_RecoveryRequired).
Proof.
  intros Hn. revert size acc. induction l as [|x l IH]; intros size acc; cbn [recovery_loop concat].
  - rewrite app_nil_r, Z.add_0_r. eapply answers_bind; [apply answers_io, answers_touch|].
    destruct (size =? n); [apply answers_ret|apply answers_fail].
  - rewrite len_app, app_assoc, Z.add_assoc. pose proof (len_nonneg (concat l)).
    eapply answers_bind; [apply answers_io, answers_touch|]. unfold checked_add.
    destruct (size + len x <=? u64_max) eqn:E1.
    + eapply answers_bind; [apply answers_ret|]. destruct (n <? size + len x) eqn:E2; [|apply IH].
      rewrite (proj2 (Z.eqb_neq _ _)) by lia. apply answers_fail.
    + rewrite (proj2 (Z.eqb_neq _ _)) by lia. apply answers_bind_fail, answers_fail.
Qed.

Lemma answers_hash_recovery d p c n b :
  holds d p c -> n <= u64_max ->
  answers (hash_file_recovery p n) b d (if len c =? n then Done (blake3 c) else Fail_ PL_RecoveryRequired).
Proof.
  intros Hh Hn. destruct (holds_stat _ _ _ Hh) as (i & Ht & Hs).
  eapply answers_bind; [by apply answers_io, answers_stat|]. cbn [md_len].
  destruct (len c =? n) eqn:E; [|apply answers_fail]. cbn [negb].
  eapply answers_bind; [by apply answers_io, answers_open, holds_contents|].
  pose proof (answers_recovery_loop (blocks c) n 0 [] b d Hn) as Ha.
  rewrite blocks_concat in Ha. rewrite Z.add_0_l, E in Ha. exact Ha.
Qed.

Lemma answers_matches d p c n dg b :
  holds d p c -> n <= u64_max ->
  answers (file_matches_recovery p n dg) b d (Done ((len c =? n) && bool_decide (blake3 c = dg))).
Proof.
  intros Hh Hn. destruct (holds_stat _ _ _ Hh) as (i & Ht & Hs).
  eapply answers_bind; [by apply answers_io, answers_stat|]. cbn [md_len is_file md_node negb].
  destruct (len c =? n) eqn:E; [|apply answers_ret]. cbn [negb andb].
  pose proof (answers_hash_recovery d p c n b Hh Hn) as Ha. rewrite E in Ha.
  eapply answers_bind; [done|]. apply answers_ret.
Qed.

Lemma answers_same d p q i j b :
  tree d !! p = Some (File i) -> tree d !! q = Some (File j) ->
  answers (same_regular_file p q) b d (Done (same_inode i j)).
Proof.
  intros Hp Hq. assert (forall p i, tree d !! p = Some (File i) ->
    exists n, stat p d = Ok (mkMetadata (File i) n)) as Hst.
  { intros p' i' H. unfold stat. rewrite H. eauto. }
  destruct (Hst p i Hp) as (n & Hs), (Hst q j Hq) as (m & Hs').
  eapply answers_bind; [by apply answers_io, answers_stat|]. cbn.
  eapply answers_bind; [by apply answers_io, answers_stat|]. cbn.
  eapply answers_bind; [apply answers_io, answers_touch|]. apply answers_ret.
Qed.

Lemma answers_read_regular d p c max b :
  holds d p c -> len c <= max -> answers (read_regular_bounded p max) b d (Done c).
Proof.
  intros Hh Hl. destruct (holds_stat _ _ _ Hh) as (i & Ht & Hs).
  eapply answers_bind; [by apply answers_io, answers_stat|]. cbn [md_len is_file md_node negb orb].
  rewrite (proj2 (Z.ltb_ge _ _)) by lia.
  eapply answers_bind; [by apply answers_io, answers_open, holds_contents|].
  rewrite (proj2 (Z.ltb_ge _ _)) by lia. apply answers_ret.
Qed.

(** ** New files *)

Definition created (p : Place) (c : bytes) (d : Disk) : Disk :=
  mkDisk (<[p := File (new_inode d)]> (tree d)) (<[new_inode d := c]> (data d)).

Lemma append_created p c c' d : append (new_inode d) c' (created p c d) = created p (c ++ c') d.
Proof.
  unfold append, created. cbn. rewrite lookup_insert_eq. cbn. f_equal. apply insert_insert_eq.
Qed.

Lemma append_torn_created p c c' t d :
  exists c'', append_torn (new_inode d) c' t (created p c d) = created p c'' d.
Proof.
  destruct t; cbn; rewrite ?append_created; eauto.
Qed.

(** A new file is as asked, or a fault has left part of it. *)
Lemma wp_write_new_sync env p c b d (Qd : unit -> Disk -> Prop) (Qe : PlatformError -> Disk -> Prop) (Qc : Disk -> Prop) :
  (forall e, place_free p d = Err e -> Qe (PL_Io e) d) ->
  (place_free p d = Ok tt -> Qd tt (created p c d)) ->
  (~ fine env -> Qe (PL_Io OtherIo) d /\ Qc d) ->
  (~ fine env -> place_free p d = Ok tt ->
   forall c', (forall e, Qe e (created p c' d)) /\ Qc (created p c' d)) ->
  wp env (write_new_sync p c) Qd Qe Qc b d.
Proof.
  intros He Hd Hf Hf'. unfold write_new_sync. apply wp_bind, wp_map_fail.
  unfold create_new, update. destruct (place_free p d) as [[]|e] eqn:Ep.
  2: { apply wp_attempt; rewrite ?Ep; cbn; try done.
       - intros e' [= <-]. by apply He.
       - intros n t H. by apply Hf, (not_fine_refused _ _ _ _ H).
       - intros n t H. unfold whole. rewrite Ep. destruct t; by apply Hf, (not_fine_halted _ _ _ _ H). }
  specialize (Hd eq_refl).
  eapply wp_update; [by rewrite Ep| |].
  2: { intros H. destruct (Hf H). split; [done|]. split; [done|]. by apply (Hf' H eq_refl). }
  change (mkDisk _ _) with (created p [] d).
  apply wp_bind, wp_map_fail. unfold write_all. apply wp_attempt.
  - intros a d' [= <- <-]. rewrite append_created.
    apply wp_map_fail. eapply wp_done; [apply answers_touch|done|].
    intros H. split; [intros e|]; by apply (Hf' H eq_refl).
  - done.
  - intros n t H. destruct (append_torn_created p [] c t d) as (c'' & ->).
    by apply (Hf' (not_fine_refused _ _ _ _ H) eq_refl).
  - intros n t H. destruct (append_torn_created p [] c t d) as (c'' & ->).
    by apply (Hf' (not_fine_halted _ _ _ _ H) eq_refl).
Qed.

(** ** Replacement *)

Context `{laws : !LibraryLaws lib}.

Lemma reachable_update d d' s p :
  (forall q, q <> p -> tree d' !! q = tree d !! q) -> tree d !! p <> Some Dir ->
  reachable d s -> reachable d' s.
Proof.
  intros Ho Hp Hr l l' Hl Hn. pose proof (Hr l l' Hl Hn) as H. rewrite Ho; [done|]. intros <-. congruence.
Qed.

Lemma replaced_holds p c d : holds (replaced p c d) p c.
Proof.
  destruct (replaced_spec p c d) as (i & Hi & ->). exists i. cbn. by rewrite !lookup_insert_eq.
Qed.

Lemma replaced_other p c d q : q <> p -> tree (replaced p c d) !! q = tree d !! q.
Proof. intros Hq. destruct (replaced_spec p c d) as (i & Hi & ->). cbn. by rewrite lookup_insert_ne. Qed.

Lemma replaced_data p c d : data d ⊆ data (replaced p c d).
Proof. destruct (replaced_spec p c d) as (i & Hi & ->). cbn. by apply insert_subseteq. Qed.

(** A logical path that leads to a regular file. *)
Record file_at (d : Disk) (s : str) (c : bytes) : Prop := mkFileAt {
  fa_root : tree d !! Work [] = Some Dir;
  fa_target : target_ok s = true;
  fa_reachable : reachable d s;
  fa_holds : holds d (place_of s) c;
}.

Lemma file_at_checked d s c m : file_at d s c -> answers (checked_mutation_path s m) true d (Done (place_of s)).
Proof. intros []. apply answers_checked; try done. by eapply holds_final. Qed.

Lemma file_at_replaced d s c c' : file_at d s c -> file_at (replaced (place_of s) c' d) s c'.
Proof.
  intros [Hroot Ht Hr (i & Hi & _)]. split; [|done| |apply replaced_holds].
  - rewrite replaced_other; [done|]. intros E. rewrite E in Hroot. congruence.
  - eapply reachable_update; [intros q; apply replaced_other| |done]. by rewrite Hi.
Qed.

Lemma answers_read_mutation d s c max :
  file_at d s c ->
  answers (read_mutation_file s (place_of s) max) true d
    (if max <? len c then Fail_ (PL_InputTooLarge (len c) max) else Done c).
Proof.
  intros Hf. destruct (holds_stat _ _ _ (fa_holds _ _ _ Hf)) as (i & Ht & Hs).
  unfold read_mutation_file, revalidate_mutation_file.
  eapply answers_bind.
  { eapply answers_bind; [by eapply file_at_checked|]. rewrite bool_decide_true by done. apply answers_ret. }
  eapply answers_bind; [by apply answers_io, answers_stat|]. cbn [md_len].
  destruct (max <? len c); [apply answers_fail|]. apply answers_io, answers_open, holds_contents, Hf.
Qed.

(** Reading the file again after the exchange was reported to have failed. *)
Lemma wp_observe env s c c' new max e d (Qd : ReplaceOutcome -> Disk -> Prop)
    (Qe : PlatformError -> Disk -> Prop) (Qc : Disk -> Prop) :
  file_at d s c' ->
  (blake3 c' = blake3 new -> Qd (RO_Committed (blake3 c) (blake3 new)) d) ->
  (blake3 c' = blake3 new \/ c' = c) -> (blake3 c' <> blake3 new -> Qe (PL_Io e) d) -> Qd (RO_Indeterminate None) d ->
  (~ fine env -> Qc d) ->
  wp env (now ← try (read_mutation_file s (place_of s) max);
          match now with
          | Ok current =>
              if bool_decide (blake3 current = blake3 new) then mret (RO_Committed (blake3 c) (blake3 new))
              else if bool_decide (blake3 current = blake3 c) then fail (PL_Io e)
              else mret (RO_Conflict (blake3 current))
          | Err _ => mret (RO_Indeterminate None)
          end) Qd Qe Qc true d.
Proof.
  intros Hf Heq Hor He Hi Hc. apply wp_bind, wp_try.
  apply (wp_answers _ _ _ _ _ _ _ _ (answers_read_mutation d s c' max Hf)); [| |done].
  - intros a Ha. destruct (max <? len c'); [done|]. injection Ha as <-.
    case_bool_decide as E; [apply wp_ret; auto|].
    destruct Hor as [?| ->]; [done|]. rewrite bool_decide_true by done. apply wp_fail. auto.
  - intros e' _. by apply wp_ret.
Qed.

(** The exchange happens, or does not, and the outcome says which unless a fault
    hides it; nothing is ever reported as a conflict. *)
Lemma wp_replace env s c new max d (Qd : ReplaceOutcome -> Disk -> Prop)
    (Qe : PlatformError -> Disk -> Prop) (Qc : Disk -> Prop) :
  file_at d s c ->
  let d' := replaced (place_of s) new d in
  Qd (RO_Committed (blake3 c) (blake3 new)) d' ->
  (forall e, (fine env -> max < len c) -> Qe e d) ->
  (~ fine env -> Qc d /\ Qc d' /\ Qd (RO_Indeterminate None) d /\ Qd (RO_Indeterminate None) d'
     /\ (blake3 c = blake3 new -> Qd (RO_Committed (blake3 c) (blake3 new)) d)) ->
  wp env (compare_and_swap_replace_inner s (blake3 c) new max) Qd Qe Qc true d.
Proof.
  intros Hf d' Hd He Hbad. pose proof (file_at_replaced d s c new Hf) as Hf'. fold d' in Hf'.
  assert (~ fine env -> (forall e, Qe e d) /\ Qc d) as Hb.
  { intros H. split; [|apply Hbad, H]. intros e. apply He. by intros. }
  pose proof (answers_read_mutation d s c max Hf) as Hread.
  unfold compare_and_swap_replace_inner.
  eapply wp_bind_done; [by eapply file_at_checked|done|].
  destruct (max <? len c) eqn:Emax.
  { apply wp_bind. apply (wp_answers _ _ _ _ _ _ _ _ Hread); [done| |by apply Hb].
    intros e _. apply He. lia. }
  eapply wp_bind_done; [done|done|]. rewrite bool_decide_true by done. cbn [negb].
  eapply wp_bind_done; [apply answers_io, answers_touch|done|].
  apply wp_bind, wp_try. unfold atomic_write.
  (* The temporary file: nothing is exchanged yet. *)
  apply wp_bind, wp_map_fail.
  apply (wp_answers _ _ _ _ _ _ _ _ (answers_touch true d)); [|intros e H|by apply Hb].
  2: { assert (~ fine env) as Hnf by (intros Hfine; discriminate (H Hfine)).
       destruct (Hbad Hnf) as (? & ? & ? & ? & ?). apply (wp_observe env s c c); auto. intros. by apply Hb. }
  (* The closure. *)
  intros [] _. apply wp_bind, wp_map_fail. unfold write_checked.
  assert (forall e, ~ fine env -> Qe e d) as Hq by (intros; by apply Hb).
  apply wp_bind, wp_map_fail. apply (wp_done _ _ _ _ tt); [apply answers_touch| |intros H; split; [|by apply Hb]; intros; apply wp_fail; auto].
  apply wp_bind, wp_map_fail. apply (wp_done _ _ _ _ tt); [apply answers_touch| |intros H; split; [|by apply Hb]; intros; apply wp_fail; auto].
  apply wp_bind, wp_map_fail. apply (wp_done _ _ _ _ c); [done| |intros H; split; [|by apply Hb]; intros; apply wp_fail; auto].
  rewrite bool_decide_true by done. apply wp_ret.
  (* The exchange. *)
  apply wp_map_fail, wp_attempt.
  - intros a d0 [= <- <-]. by apply wp_ret.
  - done.
  - intros n t H%not_fine_refused. destruct (Hbad H) as (? & ? & ? & ? & ?).
    destruct t; cbn [swap_torn];
      [apply (wp_observe env s c c); auto..|apply (wp_observe env s c new); auto].
    done.
  - intros n t H%not_fine_halted. destruct (Hbad H) as (? & ? & _). by destruct t.
Qed.

(** ** Small helpers *)

(** The stage of a replacement. *)
Lemma answers_staged_loop l capacity acc b d :
  capacity <= u64_max ->
  exists o, answers (staged_loop l capacity acc) b d o
    /\ (len acc + len (concat l) <= capacity -> o = Done (acc ++ concat l))
    /\ forall r, o = Done r -> r = acc ++ concat l.
Proof.
  intros Hc. revert acc. induction l as [|x l IH]; intros acc; cbn [staged_loop concat].
  - exists (Done acc). rewrite app_nil_r. split; [|naive_solver].
    eapply answers_bind; [apply answers_stopped|].
    eapply answers_bind; [apply answers_io_s, answers_touch|]. apply answers_ret.
  - rewrite len_app, app_assoc. pose proof (len_nonneg (concat l)).
    destruct (capacity <? saturating_add usize_max (len acc) (len x)) eqn:E.
    + exists (Fail_ (SF_Platform PL_JournalCorrupt)). split; [|split; [unfold saturating_add in E; lia|done]].
      eapply answers_bind; [apply answers_stopped|].
      eapply answers_bind; [apply answers_io_s, answers_touch|]. apply answers_fail.
    + destruct (IH (acc ++ x)) as (o & Ho & Hd & Hi). exists o. split; [|split; [|done]].
      * eapply answers_bind; [apply answers_stopped|].
        by eapply answers_bind; [apply answers_io_s, answers_touch|].
      * intros Hl. apply Hd. rewrite len_app. lia.
Qed.

Lemma staged_answers d p c n dg limits b :
  holds d p c -> n <= u64_max ->
  exists o, answers (read_staged_replacement p n dg limits) b d o
    /\ (len c = n -> blake3 c = dg -> n <= max_file_bytes limits -> o = Done c)
    /\ forall r, o = Done r -> r = c /\ blake3 c = dg.
Proof.
  intros Hh Hn. destruct (holds_stat _ _ _ Hh) as (i & Ht & Hs). unfold read_staged_replacement.
  destruct (negb (len c =? n) || (max_file_bytes limits <? n)) eqn:E1.
  { exists (Fail_ (SF_Platform PL_JournalCorrupt)). split; [|split; [|done]].
    - eapply answers_bind; [by apply answers_io_s, answers_stat|]. cbn [is_file md_node md_len negb orb].
      rewrite E1. apply answers_fail.
    - intros <- _ ?. rewrite Z.eqb_refl in E1. cbn in E1. lia. }
  destruct (answers_staged_loop (blocks c) n [] b d Hn) as (o & Ho & Hd & _).
  rewrite blocks_concat in Hd. cbn [app] in Hd. zbool.
  rewrite (Hd ltac:(unfold len in *; cbn [length]; lia)) in Ho. clear Hd.
  exists (if bool_decide (blake3 c = dg) then Done c else Fail_ (SF_Platform PL_JournalCorrupt)).
  split; [|case_bool_decide; naive_solver].
  eapply answers_bind; [by apply answers_io_s, answers_stat|]. cbn [is_file md_node md_len negb orb].
  rewrite (proj2 (orb_false_iff _ _)) by (split; [by rewrite (proj2 (Z.eqb_eq _ _))|lia]).
  eapply answers_bind; [by apply answers_io_s, answers_open, holds_contents|].
  eapply answers_bind; [done|]. rewrite (proj2 (Z.eqb_eq _ _)) by done. cbn [negb orb].
  case_bool_decide; [apply answers_ret|apply answers_fail].
Qed.

End libraries.
