(* ===== verification/Transaction.v ===== *)
(** * Transaction: journaled file transactions

    transaction.rs: preparing the stage of every action, publishing the journal,
    applying the actions, committing, rolling back, and recovering what an earlier
    process left.  [rows] are the outcomes reported per action. *)

From S2P Require Import Prelude Text Workspace Manifest Disk Mutation.

(** ** Outcomes *)

Inductive FileActionState : Type :=
| AS_Committed | AS_Conflict | AS_RolledBack | AS_RecoveryRequired | AS_Skipped.

Record FileActionOutcome : Type := mkOutcome { ao_state : FileActionState; ao_digest : option bytes }.
Definition skipped : FileActionOutcome := mkOutcome AS_Skipped None.

Record FileTransactionOutcome : Type := mkTransactionOutcome {
  to_actions : list FileActionOutcome; to_failure : option FileTransactionFailure }.

Record TransactionTotals : Type := mkTotals { tt_materialized : Z; tt_preimages : Z }.

Inductive AppliedState : Type := Applied | Linked | NotApplied | Indeterminate.

(** ** Journal directories *)

Definition internal_directory_exists (p : Place) : io PlatformError bool :=
  m ← try (symlink_metadata p);
  match m with
  | Ok metadata => if is_dir metadata then mret true else fail PL_JournalCorrupt
  | Err NotFound => mret false
  | Err e => fail (PL_Io e)
  end.

Definition require_internal_directory (p : Place) : io PlatformError unit :=
  exists_p ← internal_directory_exists p;
  if exists_p : bool then mret tt else fail PL_JournalCorrupt.

Definition remove_directory_if_present (n : JournalName) : io PlatformError unit :=
  r ← try (remove_dir_all n);
  match r with
  | Ok _ | Err NotFound => mret tt
  | Err e => fail (PL_Io e)
  end.

Definition rollback_digest (a : PreparedAction) : bytes := default (pa_digest a) (pa_preimage_digest a).

(** [action.destination.as_deref().unwrap_or(&action.path)] *)
Definition target_path (a : PreparedAction) : str := default (pa_path a) (pa_destination a).

Section libraries.
Context `{L : Libraries}.

(** ** Preparing *)

(** The source returns the path too, which no caller uses. *)
Definition ensure_absent (logical : str) (limits : FileTransactionLimits) (total : Z)
    : io StepFailure unit :=
  candidate ← p_s (checked_mutation_path logical false);
  m ← try (symlink_metadata candidate);
  match m with
  | Err NotFound => mret tt
  | Ok metadata =>
      if is_file metadata then
        r ← hash_file_bounded candidate limits total; fail (SF_Conflict r.1.1)
      else fail (SF_Platform PL_InvalidMutationTarget)
  | Err e => fail (SF_Platform (PL_Io e))
  end.

Definition ensure_absent_for_apply (logical : str) (limits : FileTransactionLimits)
    : io StepFailure unit :=
  candidate ← p_s (checked_mutation_path logical false);
  m ← try (symlink_metadata candidate);
  match m with
  | Err NotFound => mret tt
  | Ok metadata =>
      if is_file metadata then
        r ← hash_file_without_charge candidate limits; fail (SF_Conflict r.1)
      else fail (SF_Platform PL_InvalidMutationTarget)
  | Err e => fail (SF_Platform (PL_Io e))
  end.

Definition expect {A} (o : option A) (e : PlatformError) : io StepFailure A :=
  lift (ok_or o (SF_Platform e)).

Definition prepare_action (index : nat) (action : FileAction) (limits : FileTransactionLimits)
    (totals : TransactionTotals) : io StepFailure (PreparedAction * TransactionTotals) :=
  _ ← check_stopped;
  let stage := Journal Preparing (StageFile index) in
  let '(mkTotals materialized preimages) := totals in
  match fa_kind action with
  | FA_Create =>
      _ ← ensure_absent (fa_path action) limits materialized;
      content ← expect (fa_content action) PL_InvalidMutationTarget;
      materialized ← lift (charge_bytes (len content) limits materialized);
      _ ← p_s (write_new_sync stage content);
      mret (mkPrepared FA_Create (fa_path action) (fa_destination action) (blake3 content)
              (len content) None None, mkTotals materialized preimages)
  | FA_Copy =>
      destination ← expect (fa_destination action) PL_InvalidMutationTarget;
      _ ← ensure_absent destination limits materialized;
      source ← p_s (checked_mutation_path (fa_path action) true);
      r ← copy_file_bounded source stage limits materialized;
      if negb (bool_decide (Some r.1.1 = fa_expected_digest action)) then fail (SF_Conflict r.1.1)
      else mret (mkPrepared FA_Copy (fa_path action) (fa_destination action) r.1.1 r.1.2 None None,
                 mkTotals r.2 preimages)
  | (FA_Move | FA_Remove) as kind =>
      _ ← match fa_destination action with
          | Some destination => ensure_absent destination limits materialized
          | None => mret tt
          end;
      source ← p_s (checked_mutation_path (fa_path action) true);
      r ← hash_file_bounded source limits materialized;
      if negb (bool_decide (Some r.1.1 = fa_expected_digest action)) then fail (SF_Conflict r.1.1)
      else mret (mkPrepared kind (fa_path action) (fa_destination action) r.1.1 r.1.2 None None,
                 mkTotals r.2 preimages)
  | FA_Replace =>
      source ← p_s (checked_mutation_path (fa_path action) true);
      r ← copy_file_bounded source (Journal Preparing (RemovedFile index)) limits preimages;
      if negb (bool_decide (Some r.1.1 = fa_expected_digest action)) then fail (SF_Conflict r.1.1)
      else
        content ← expect (fa_content action) PL_InvalidMutationTarget;
        materialized ← lift (charge_bytes (len content) limits materialized);
        _ ← p_s (write_new_sync stage content);
        mret (mkPrepared FA_Replace (fa_path action) (fa_destination action) (blake3 content)
                (len content) (Some r.1.1) (Some r.1.2), mkTotals materialized r.2)
  end.

(** ** Applying *)

Definition hard_link_error {A} (destination : Place) (limits : FileTransactionLimits) (error : IoKind)
    : io StepFailure A :=
  m ← try (symlink_metadata destination);
  match m with
  | Ok metadata =>
      if is_file metadata then
        r ← hash_file_without_charge destination limits; fail (SF_Conflict r.1)
      else fail (SF_Platform (PL_Io error))
  | Err _ => fail (SF_Platform (PL_Io error))
  end.

Definition link_or_conflict (from to : Place) (limits : FileTransactionLimits) : io StepFailure unit :=
  r ← try (hard_link from to);
  match r with Ok _ => mret tt | Err e => hard_link_error to limits e end.

Definition apply_create_copy (index : nat) (action : PreparedAction) (limits : FileTransactionLimits)
    : io StepFailure unit :=
  _ ← ensure_absent_for_apply (target_path action) limits;
  destination ← p_s (checked_mutation_path (target_path action) false);
  let stage := Journal Transaction (StageFile index) in
  r ← hash_file_without_charge stage limits;
  if negb (bool_decide (r.1 = pa_digest action)) || negb (r.2 =? pa_size action)
  then fail (SF_Platform PL_JournalCorrupt)
  else
    _ ← link_or_conflict stage destination limits;
    _ ← io_s (sync_parent destination);
    _ ← io_s (remove_file stage);
    io_s (sync_directory (Journal Transaction StageDir)).

Definition apply_move (action : PreparedAction) (limits : FileTransactionLimits)
    : io StepFailure unit :=
  source ← p_s (checked_mutation_path (pa_path action) true);
  r ← hash_file_without_charge source limits;
  if negb (bool_decide (r.1 = pa_digest action)) || negb (r.2 =? pa_size action)
  then fail (SF_Conflict r.1)
  else
    destination_logical ← expect (pa_destination action) PL_JournalCorrupt;
    _ ← ensure_absent_for_apply destination_logical limits;
    destination ← p_s (checked_mutation_path destination_logical false);
    _ ← link_or_conflict source destination limits;
    _ ← io_s (sync_parent destination);
    _ ← io_s (remove_file source);
    io_s (sync_parent source).

Definition apply_remove (index : nat) (action : PreparedAction) (limits : FileTransactionLimits)
    : io StepFailure unit :=
  source ← p_s (checked_mutation_path (pa_path action) true);
  r ← hash_file_without_charge source limits;
  if negb (bool_decide (r.1 = pa_digest action)) || negb (r.2 =? pa_size action)
  then fail (SF_Conflict r.1)
  else
    _ ← io_s (rename_file source (Journal Transaction (RemovedFile index)));
    _ ← io_s (sync_parent source);
    io_s (sync_directory (Journal Transaction RemovedDir)).

Definition apply_replace (index : nat) (action : PreparedAction) (limits : FileTransactionLimits)
    : io StepFailure unit :=
  expected_digest ← expect (pa_preimage_digest action) PL_JournalCorrupt;
  expected_size ← expect (pa_preimage_size action) PL_JournalCorrupt;
  destination ← p_s (checked_mutation_path (pa_path action) true);
  r ← hash_file_without_charge destination limits;
  if negb (bool_decide (r.1 = expected_digest)) || negb (r.2 =? expected_size)
  then fail (SF_Conflict r.1)
  else
    let stage := Journal Transaction (StageFile index) in
    new_contents ← read_staged_replacement stage (pa_size action) (pa_digest action) limits;
    outcome ← p_s (compare_and_swap_replace_inner (pa_path action) expected_digest new_contents
                     (max_file_bytes limits));
    match outcome with
    | RO_Committed _ new_digest =>
        if negb (bool_decide (new_digest = pa_digest action))
        then fail (SF_Platform PL_RecoveryRequired)
        else
          _ ← io_s (sync_parent destination);
          _ ← io_s (remove_file stage);
          io_s (sync_directory (Journal Transaction StageDir))
    | RO_Conflict actual_digest => fail (SF_Conflict actual_digest)
    | RO_Indeterminate _ => fail (SF_Platform PL_RecoveryRequired)
    end.

Definition apply_action (index : nat) (action : PreparedAction) (limits : FileTransactionLimits)
    : io StepFailure unit :=
  _ ← check_stopped;
  match pa_kind action with
  | FA_Create | FA_Copy => apply_create_copy index action limits
  | FA_Move => apply_move action limits
  | FA_Remove => apply_remove index action limits
  | FA_Replace => apply_replace index action limits
  end.

(** ** Rolling back *)

(** The [exists] closure of [applied_state]. *)
Definition exists_regular (p : Place) : io PlatformError bool :=
  m ← try (symlink_metadata p);
  match m with
  | Ok metadata => if is_file metadata then mret true else fail PL_RecoveryRequired
  | Err NotFound => mret false
  | Err e => fail (PL_Io e)
  end.

(** The arm [(false, true) if hash_file_recovery(..)? == digest]. *)
Definition applied_if (p : Place) (action : PreparedAction) : io PlatformError AppliedState :=
  digest ← hash_file_recovery p (pa_size action);
  mret (if bool_decide (digest = pa_digest action) then Applied else Indeterminate).

(** The arm [(true, true) if matches && same]. *)
Definition linked_if (p q : Place) (action : PreparedAction) : io PlatformError AppliedState :=
  matches ← file_matches_recovery p (pa_size action) (pa_digest action);
  if negb matches then mret Indeterminate
  else
    same ← same_regular_file p q;
    mret (if same : bool then Linked else Indeterminate).

Definition applied_state_create_copy (index : nat) (action : PreparedAction)
    : io PlatformError AppliedState :=
  let stage := Journal Transaction (StageFile index) in
  destination ← checked_mutation_path (target_path action) false;
  has_stage ← exists_regular stage;
  has_destination ← exists_regular destination;
  match has_stage, has_destination with
  | _, false => mret NotApplied
  | true, true => linked_if stage destination action
  | false, true => applied_if destination action
  end.

Definition applied_state_move (action : PreparedAction) : io PlatformError AppliedState :=
  source ← checked_mutation_path (pa_path action) false;
  destination_logical ← lift (ok_or (pa_destination action) PL_JournalCorrupt);
  destination ← checked_mutation_path destination_logical false;
  has_source ← exists_regular source;
  has_destination ← exists_regular destination;
  match has_source, has_destination with
  | true, false => mret NotApplied
  | true, true => linked_if source destination action
  | false, true => applied_if destination action
  | false, false => mret Indeterminate
  end.

Definition applied_state_remove (index : nat) (action : PreparedAction)
    : io PlatformError AppliedState :=
  source ← checked_mutation_path (pa_path action) false;
  let removed := Journal Transaction (RemovedFile index) in
  has_source ← exists_regular source;
  has_removed ← exists_regular removed;
  match has_source, has_removed with
  | true, false => mret NotApplied
  | false, true => applied_if removed action
  | _, _ => mret Indeterminate
  end.

Definition applied_state_replace (index : nat) (action : PreparedAction)
    : io PlatformError AppliedState :=
  destination ← checked_mutation_path (pa_path action) false;
  let removed := Journal Transaction (RemovedFile index) in
  has_destination ← exists_regular destination;
  if negb has_destination then mret Indeterminate
  else
    preimage_digest ← lift (ok_or (pa_preimage_digest action) PL_JournalCorrupt);
    preimage_size ← lift (ok_or (pa_preimage_size action) PL_JournalCorrupt);
    has_removed ← exists_regular removed;
    if negb has_removed then
      untouched ← file_matches_recovery destination preimage_size preimage_digest;
      mret (if untouched : bool then NotApplied else Indeterminate)
    else
      intact ← file_matches_recovery removed preimage_size preimage_digest;
      if negb intact then mret Indeterminate
      else
        new ← file_matches_recovery destination (pa_size action) (pa_digest action);
        if new : bool then mret Applied
        else
          old ← file_matches_recovery destination preimage_size preimage_digest;
          mret (if old : bool then NotApplied else Indeterminate).

Definition applied_state (index : nat) (action : PreparedAction) : io PlatformError AppliedState :=
  match pa_kind action with
  | FA_Create | FA_Copy => applied_state_create_copy index action
  | FA_Move => applied_state_move action
  | FA_Remove => applied_state_remove index action
  | FA_Replace => applied_state_replace index action
  end.

Definition unless {E} (ok : bool) (e : E) : io E unit := if ok then mret tt else fail e.

Definition rollback_create_copy (index : nat) (action : PreparedAction) : io PlatformError unit :=
  let stage := Journal Transaction (StageFile index) in
  destination ← checked_mutation_path (target_path action) true;
  digest ← hash_file_recovery destination (pa_size action);
  if negb (bool_decide (digest = pa_digest action)) then fail PL_RecoveryRequired
  else
    has_stage ← exists_ stage;
    same ← (if has_stage : bool then same_regular_file stage destination else mret true);
    if negb same then fail PL_RecoveryRequired
    else
      _ ← io_p (remove_file destination);
      io_p (sync_parent destination).

Definition rollback_move (action : PreparedAction) : io PlatformError unit :=
  source ← checked_mutation_path (pa_path action) false;
  has_source ← exists_ source;
  destination_logical ← lift (ok_or (pa_destination action) PL_JournalCorrupt);
  destination ← checked_mutation_path destination_logical true;
  if has_source : bool then
    matches ← file_matches_recovery source (pa_size action) (pa_digest action);
    same ← (if matches : bool then same_regular_file source destination else mret false);
    if negb same then fail PL_RecoveryRequired
    else
      _ ← io_p (remove_file destination);
      io_p (sync_parent destination)
  else
    digest ← hash_file_recovery destination (pa_size action);
    if negb (bool_decide (digest = pa_digest action)) then fail PL_RecoveryRequired
    else
      _ ← io_p (hard_link destination source);
      _ ← io_p (sync_parent source);
      _ ← io_p (remove_file destination);
      io_p (sync_parent destination).

Definition rollback_remove (index : nat) (action : PreparedAction) : io PlatformError unit :=
  source ← checked_mutation_path (pa_path action) false;
  has_source ← exists_ source;
  if has_source : bool then fail PL_RecoveryRequired
  else
    let removed := Journal Transaction (RemovedFile index) in
    digest ← hash_file_recovery removed (pa_size action);
    if negb (bool_decide (digest = pa_digest action)) then fail PL_RecoveryRequired
    else
      _ ← io_p (rename_file removed source);
      _ ← io_p (sync_parent source);
      io_p (sync_directory (Journal Transaction RemovedDir)).

Definition rollback_replace (index : nat) (action : PreparedAction) : io PlatformError unit :=
  preimage_digest ← lift (ok_or (pa_preimage_digest action) PL_JournalCorrupt);
  preimage_size ← lift (ok_or (pa_preimage_size action) PL_JournalCorrupt);
  destination ← checked_mutation_path (pa_path action) true;
  new ← file_matches_recovery destination (pa_size action) (pa_digest action);
  if negb new then fail PL_RecoveryRequired
  else
    let removed := Journal Transaction (RemovedFile index) in
    intact ← file_matches_recovery removed preimage_size preimage_digest;
    if negb intact then fail PL_RecoveryRequired
    else
      old ← read_regular_bounded removed preimage_size;
      if negb (len old =? preimage_size) || negb (bool_decide (blake3 old = preimage_digest))
      then fail PL_RecoveryRequired
      else
        outcome ← compare_and_swap_replace_inner (pa_path action) (pa_digest action) old
                    MAX_FILE_TRANSACTION_FILE_BYTES;
        match outcome with
        | RO_Committed _ new_digest =>
            if negb (bool_decide (new_digest = preimage_digest)) then fail PL_RecoveryRequired
            else
              _ ← io_p (sync_parent destination);
              _ ← remove_file_if_present removed;
              _ ← remove_file_if_present (Journal Transaction (StageFile index));
              _ ← io_p (sync_directory (Journal Transaction RemovedDir));
              io_p (sync_directory (Journal Transaction StageDir))
        | _ => fail PL_RecoveryRequired
        end.

Definition rollback_action (index : nat) (action : PreparedAction) : io PlatformError unit :=
  match pa_kind action with
  | FA_Create | FA_Copy => rollback_create_copy index action
  | FA_Move => rollback_move action
  | FA_Remove => rollback_remove index action
  | FA_Replace => rollback_replace index action
  end.

(** [rows]: none when an earlier process's journal is recovered. *)
Definition row_state (rows : option (list FileActionOutcome)) (index : nat) : option FileActionState :=
  rows ← rows; row ← rows !! index; Some (ao_state row).

Definition set_row (index : nat) (state : FileActionState) (digest : bytes)
    (rows : list FileActionOutcome) : list FileActionOutcome :=
  <[index := mkOutcome state (Some digest)]> rows.

(** One turn of the loop of [rollback_locked]: the rows, and whether recovery is
    required of this action. *)
Definition rollback_turn (index : nat) (action : PreparedAction)
    (rows : option (list FileActionOutcome)) : io PlatformError (option (list FileActionOutcome) * bool) :=
  state ← match row_state rows index with
          | Some (AS_Conflict | AS_Skipped) => mret (Ok NotApplied)
          | _ => try (applied_state index action)
          end;
  match state with
  | Ok NotApplied =>
      mret (match row_state rows index with
            | Some (AS_Committed | AS_RecoveryRequired) =>
                set_row index AS_RolledBack (rollback_digest action) <$> rows
            | _ => rows
            end, false)
  | Ok Indeterminate | Err _ =>
      mret (set_row index AS_RecoveryRequired (pa_digest action) <$> rows, true)
  | Ok (Applied | Linked) =>
      r ← try (rollback_action index action);
      match r with
      | Ok _ => mret (set_row index AS_RolledBack (rollback_digest action) <$> rows, false)
      | Err _ => mret (set_row index AS_RecoveryRequired (pa_digest action) <$> rows, true)
      end
  end.

(** [actions.iter().enumerate().rev()]: the last action first. *)
Fixpoint rollback_from (index : nat) (actions : list PreparedAction)
    (rows : option (list FileActionOutcome)) : io PlatformError (option (list FileActionOutcome) * bool) :=
  match actions with
  | [] => mret (rows, false)
  | action :: actions =>
      r ← rollback_from (S index) actions rows;
      s ← rollback_turn index action r.1;
      mret (s.1, r.2 || s.2)
  end.

Definition rollback_locked (actions : list PreparedAction) (rows : option (list FileActionOutcome))
    : io PlatformError (option (list FileActionOutcome) * bool) :=
  rollback_from 0 actions rows.

(** ** Recovering *)

(** The end of a journal: its directory goes and the state directory is synced. *)
Definition remove_journal : io PlatformError unit :=
  _ ← remove_directory_if_present Transaction;
  io_p (sync_directory StateDir).

Definition recover_locked : io PlatformError bool :=
  has_preparing ← internal_directory_exists (Journal Preparing Self);
  _ ← (if has_preparing : bool then remove_directory_if_present Preparing else mret tt);
  has_transaction ← internal_directory_exists (Journal Transaction Self);
  if negb has_transaction then mret has_preparing
  else
    _ ← require_internal_directory (Journal Transaction StageDir);
    _ ← require_internal_directory (Journal Transaction RemovedDir);
    b ← read_regular_bounded (Journal Transaction ManifestFile) MAX_MANIFEST_BYTES;
    prepared ← lift (decode_manifest blake3 b);
    m ← try (symlink_metadata (Journal Transaction CommittedFile));
    match m with
    | Ok _ =>
        marker ← read_regular_bounded (Journal Transaction CommittedFile) (len COMMITTED_MARKER);
        if negb (bool_decide (marker = COMMITTED_MARKER)) then fail PL_JournalCorrupt
        else
          _ ← remove_journal; mret true
    | Err NotFound =>
        r ← rollback_locked prepared None;
        if r.2 : bool then fail PL_RecoveryRequired
        else
          _ ← remove_journal; mret true
    | Err e => fail (PL_Io e)
    end.

(** ** Locks and the state directory *)

(** The match of [ensure_internal_state]; the flag is set after it. *)
Definition state_directory_checked : io PlatformError unit :=
  m ← try (symlink_metadata StateDir);
  match m with
  | Ok metadata =>
      if negb (is_dir metadata) then fail PL_ReservedPath
      else
        marker ← try (read_regular_bounded FormatFile (len FORMAT_MARKER));
        if bool_decide (to_option marker = Some FORMAT_MARKER) then mret tt
        else fail PL_ReservedPath
  | Err NotFound =>
      _ ← io_p (create_dir StateDir);
      _ ← io_p touch_open;
      _ ← write_new_sync FormatFile FORMAT_MARKER;
      io_p (sync_directory (Work []))
  | Err e => fail (PL_Io e)
  end.

Definition ensure_internal_state : io PlatformError unit :=
  _ ← state_directory_checked; set_internal true.

(** A loop of [try_lock]: none when the lock is taken. *)
Fixpoint lock_loop (failed : PlatformError) (answers : list LockAnswer)
    : io PlatformError (option FileTransactionFailure) :=
  match answers with
  | [] => mret None
  | LockFailed :: _ => fail failed
  | WouldBlock :: answers =>
      c ← poll;
      match control_failure c with
      | Some failure => mret (Some failure)
      | None => lock_loop failed answers
      end
  end.

(** [OpenOptions::create(true)] on the lock file. *)
Definition open_or_create (p : Place) : io IoKind unit :=
  update (fun d =>
    match tree d !! p with
    | Some (File _) => Ok (tt, d)
    | Some _ => Err OtherIo
    | None =>
        _ ← place_free p d;
        let i := new_inode d in
        Ok (tt, mkDisk (<[p := File i]> (tree d)) (<[i := []]> (data d)))
    end).

Definition open_lock_file : io PlatformError unit :=
  m ← try (symlink_metadata LockFile);
  match m with
  | Ok metadata => if is_file metadata then io_p (open_or_create LockFile) else fail PL_JournalCorrupt
  | Err NotFound => io_p (open_or_create LockFile)
  | Err e => fail (PL_Io e)
  end.

(** Both locks, or why the caller was stopped. *)
Definition acquire_transaction_locks : io PlatformError (option FileTransactionFailure) :=
  env ← @get_environment PlatformError;
  local ← lock_loop PL_MutationLockPoisoned (mutex_answers env);
  match local with
  | Some failure => mret (Some failure)
  | None =>
      _ ← ensure_internal_state;
      _ ← open_lock_file;
      lock_loop (PL_Io OtherIo) (file_lock_answers env)
  end.

Definition recover_file_transactions : io PlatformError bool :=
  internal ← @get_internal PlatformError;
  if negb internal then mret false
  else
    locks ← acquire_transaction_locks;
    match locks with
    | Some _ => mret false
    | None => recover_locked
    end.

(** [Workspace::new]: whether the workspace's [.ash] is ash's. *)
Definition has_internal_state : io PlatformError bool :=
  m ← try (symlink_metadata StateDir);
  match m with
  | Ok metadata =>
      if negb (is_dir metadata) then mret false
      else
        marker ← try (read_regular_bounded FormatFile (len FORMAT_MARKER));
        match marker with
        | Ok value => mret (bool_decide (value = FORMAT_MARKER))
        | Err (PL_JournalCorrupt | PL_Io NotFound) => mret false
        | Err e => fail e
        end
  | Err NotFound => mret false
  | Err e => fail (PL_Io e)
  end.

(** [Workspace::new] on a root that is resolved already. *)
Definition Workspace_new : io PlatformError unit :=
  _ ← io_p touch_open;
  metadata ← io_p (symlink_metadata (Work []));
  if negb (is_dir metadata) then fail PL_InvalidWorkspace
  else
    internal ← has_internal_state;
    set_internal internal.

(** ** The transaction *)

(** The preparation loop: the prepared actions, or the failing action's index. *)
Fixpoint prepare_from (index : nat) (actions : list FileAction) (limits : FileTransactionLimits)
    (totals : TransactionTotals)
    : io PlatformError (result (nat * StepFailure) (list PreparedAction)) :=
  match actions with
  | [] => mret (Ok [])
  | action :: actions =>
      r ← try (prepare_action index action limits totals);
      match r with
      | Err failure => mret (Err (index, failure))
      | Ok (prepared, totals) =>
          rest ← prepare_from (S index) actions limits totals;
          mret (cons prepared <$> rest)
      end
  end.

(** The application loop: the rows, and the failure that stopped it. *)
Fixpoint apply_from (index : nat) (prepared : list PreparedAction) (limits : FileTransactionLimits)
    (rows : list FileActionOutcome)
    : io PlatformError (list FileActionOutcome * option FileTransactionFailure) :=
  match prepared with
  | [] => mret (rows, None)
  | action :: prepared =>
      let rows := set_row index AS_RecoveryRequired (pa_digest action) rows in
      r ← try (apply_action index action limits);
      match r with
      | Ok _ => apply_from (S index) prepared limits (set_row index AS_Committed (pa_digest action) rows)
      | Err (SF_Conflict digest) => mret (set_row index AS_Conflict digest rows, Some FT_Conflict)
      | Err (SF_Stopped stopped) => mret (<[index := skipped]> rows, Some stopped)
      | Err (SF_Platform _) => mret (rows, Some FT_Filesystem)
      end
  end.

(** Rolling back after [failure], with the journal removed when that succeeds. *)
Definition abandon (prepared : list PreparedAction) (rows : list FileActionOutcome)
    (failure : FileTransactionFailure) : io PlatformError FileTransactionOutcome :=
  r ← rollback_locked prepared (Some rows);
  let rows := default rows r.1 in
  if r.2 : bool then mret (mkTransactionOutcome rows (Some FT_RecoveryRequired))
  else
    _ ← remove_journal;
    mret (mkTransactionOutcome rows (Some failure)).

(** Writing and renaming the commit marker; whether that failed. *)
Definition write_commit_marker : io PlatformError bool :=
  written ← try (write_new_sync (Journal Transaction CommittingFile) COMMITTED_MARKER);
  match written with
  | Err _ => mret true
  | Ok _ =>
      renamed ← try (rename_file (Journal Transaction CommittingFile) (Journal Transaction CommittedFile));
      mret (negb (is_ok renamed))
  end.

Definition recovery_rows (prepared : list PreparedAction) : list FileActionOutcome :=
  (fun action => mkOutcome AS_RecoveryRequired (Some (pa_digest action))) <$> prepared.

Definition commit (prepared : list PreparedAction) (rows : list FileActionOutcome)
    : io PlatformError FileTransactionOutcome :=
  commit_failed ← write_commit_marker;
  if commit_failed : bool then abandon prepared rows FT_Filesystem
  else
    synced ← try (sync_directory (Journal Transaction Self));
    match synced with
    | Err _ => mret (mkTransactionOutcome (recovery_rows prepared) (Some FT_RecoveryRequired))
    | Ok _ =>
        _ ← try (remove_directory_if_present Transaction);
        _ ← try (sync_directory StateDir);
        mret (mkTransactionOutcome rows None)
    end.

(** From the published journal on. *)
Definition apply_and_commit (prepared : list PreparedAction) (limits : FileTransactionLimits)
    (rows : list FileActionOutcome) : io PlatformError FileTransactionOutcome :=
  r ← apply_from 0 prepared limits rows;
  failure ← match r.2 with
            | Some failure => mret (Some failure)
            | None =>
                c ← try check_control;
                mret (match c with Ok _ => None | Err stopped => Some stopped end)
            end;
  match failure with
  | Some failure => abandon prepared r.1 failure
  | None => commit prepared r.1
  end.

(** An empty journal, named [transaction.new]. *)
Definition create_preparing : io PlatformError unit :=
  has_preparing ← internal_directory_exists (Journal Preparing Self);
  _ ← (if has_preparing : bool then remove_directory_if_present Preparing else mret tt);
  _ ← io_p (create_dir (Journal Preparing Self));
  _ ← io_p (create_dir (Journal Preparing StageDir));
  _ ← io_p (create_dir (Journal Preparing RemovedDir));
  io_p (sync_directory StateDir).

(** Writing the manifest and renaming the journal to [transaction]. *)
Definition publish (prepared : list PreparedAction) : io PlatformError unit :=
  manifest ← lift (encode_manifest blake3 prepared);
  _ ← write_new_sync (Journal Preparing ManifestFile) manifest;
  _ ← io_p (sync_directory (Journal Preparing Self));
  _ ← io_p (rename_journal Preparing Transaction);
  io_p (sync_directory StateDir).

Definition transaction_locked (actions : list FileAction) (limits : FileTransactionLimits)
    : io PlatformError FileTransactionOutcome :=
  let rows := replicate (length actions) skipped in
  _ ← recover_locked;
  _ ← create_preparing;
  r ← prepare_from 0 actions limits (mkTotals 0 0);
  match r with
  | Err (index, failure) =>
      _ ← remove_directory_if_present Preparing;
      match failure with
      | SF_Conflict digest =>
          mret (mkTransactionOutcome (set_row index AS_Conflict digest rows) (Some FT_Conflict))
      | SF_Stopped failure => mret (mkTransactionOutcome rows (Some failure))
      | SF_Platform error => fail error
      end
  | Ok prepared =>
      _ ← publish prepared;
      apply_and_commit prepared limits rows
  end.

Definition file_transaction (actions : list FileAction) (limits : FileTransactionLimits)
    : io PlatformError FileTransactionOutcome :=
  internal ← @get_internal PlatformError;
  _ ← lift (validate_actions internal actions);
  locks ← acquire_transaction_locks;
  match locks with
  | Some failure => mret (mkTransactionOutcome (replicate (length actions) skipped) (Some failure))
  | None => transaction_locked actions limits
  end.

End libraries.
