(* ===== verification/JournalState.v ===== *)
(** * JournalState: what a disk with a journal stands for

    A view is what the workspace's paths hold.  [perform] says what an action does to
    a view: the specification of a transaction.  [pending v d ps gs] is a disk whose
    journal records the actions [ps] and whose workspace, once they are undone, is
    [v]: each action is somewhere between untouched and applied, independently of the
    others, within its own footprint of places.  [gs] are the bytes that each action
    brings and takes. *)

From S2P Require Import Prelude Text Workspace Manifest Disk Mutation Transaction.

(** ** Views *)

Inductive Entry : Type := Absent | Directory | Other | Contents (c : bytes).
Definition View : Type := list str -> Entry.

Definition view (d : Disk) : View := fun l =>
  match tree d !! Work l with
  | None => Absent
  | Some Dir => Directory
  | Some Special => Other
  | Some (File i) => match data d !! i with Some c => Contents c | None => Other end
  end.

Definition view_at (v : View) (logical : str) : Entry := v (split 47 logical).
Definition store (logical : str) (e : Entry) (v : View) : View := fun l =>
  if decide (l = split 47 logical) then e else v l.

(** What one action does to the workspace when it succeeds. *)
Definition perform (a : FileAction) (v : View) : View :=
  match fa_kind a, fa_destination a with
  | (FA_Create | FA_Replace), _ => store (fa_path a) (Contents (default [] (fa_content a))) v
  | FA_Copy, Some destination => store destination (view_at v (fa_path a)) v
  | FA_Move, Some destination => store destination (view_at v (fa_path a)) (store (fa_path a) Absent v)
  | FA_Remove, _ => store (fa_path a) Absent v
  | _, None => v
  end.

Definition perform_all (actions : list FileAction) (v : View) : View :=
  fold_left (fun v a => perform a v) actions v.

Lemma split_inj c s t : split c s = split c t -> s = t.
Proof. intros H. rewrite <- (join_split c s), <- (join_split c t). by rewrite H. Qed.

Lemma place_of_inj s t : place_of s = place_of t -> s = t.
Proof. intros [= H]. by apply split_inj in H. Qed.

Lemma view_holds d s c : holds d (place_of s) c -> view_at (view d) s = Contents c.
Proof. intros (i & Ht & Hd). unfold view_at, view. unfold place_of in Ht. by rewrite Ht, Hd. Qed.

Lemma view_none d s : tree d !! place_of s = None -> view_at (view d) s = Absent.
Proof. intros Ht. unfold view_at, view. unfold place_of in Ht. by rewrite Ht. Qed.

(** ** Disks *)

Record wf (d : Disk) : Prop := mkWf {
  wf_root : tree d !! Work [] = Some Dir;
  wf_data : forall p i, tree d !! p = Some (File i) -> is_Some (data d !! i);
}.

Lemma wf_holds d p i : wf d -> tree d !! p = Some (File i) -> exists c, holds d p c.
Proof. intros Hw Ht. destruct (wf_data d Hw p i Ht) as [c Hc]. by exists c, i. Qed.

(** [d'] differs from [d] at places of [S] only; no bytes change, and no directory goes
    but those of a journal in preparation. *)
Record touches (S : Place -> Prop) (d d' : Disk) : Prop := mkTouches {
  to_wf : wf d';
  to_other : forall p, ~ S p -> tree d' !! p = tree d !! p;
  to_dirs : forall p, in_journal Preparing p = false -> tree d !! p = Some Dir -> tree d' !! p = Some Dir;
  to_data : data d ⊆ data d';
}.

Lemma touches_refl S d : wf d -> touches S d d.
Proof. by split. Qed.

Lemma touches_trans S d d' d'' : touches S d d' -> touches S d' d'' -> touches S d d''.
Proof.
  intros [_ O1 D1 C1] [W O2 D2 C2]. split; [done| |auto|by etrans].
  intros p Hp. by rewrite O2, O1.
Qed.

Lemma touches_mono (S S' : Place -> Prop) d d' : (forall p, S p -> S' p) -> touches S d d' -> touches S' d d'.
Proof. intros HS [W O D C]. split; [done| |done|done]. intros p Hp. apply O. auto. Qed.

Lemma touches_intro (S : Place -> Prop) d d' :
  wf d -> (forall p, ~ S p -> tree d' !! p = tree d !! p) ->
  (forall p, in_journal Preparing p = false -> S p -> tree d !! p <> Some Dir) ->
  (forall p i, S p -> tree d' !! p = Some (File i) -> is_Some (data d' !! i)) ->
  data d ⊆ data d' -> (forall p, S p \/ ~ S p) -> touches S d d'.
Proof.
  intros [Hr Hf] Ho Hd Hi Hs Hdec.
  assert (forall p, in_journal Preparing p = false -> tree d !! p = Some Dir -> tree d' !! p = Some Dir) as Hdirs.
  { intros p Hj Hp. rewrite Ho; [done|]. intros HS. by apply (Hd p). }
  split; [split; [auto|]|done|done|done].
  intros p i Hp. destruct (Hdec p) as [HS|HS]; [by eapply Hi|].
  rewrite Ho in Hp by done. destruct (Hf p i Hp) as [c Hc]. exists c. by eapply lookup_weaken.
Qed.

Lemma touches_delete p d : wf d -> tree d !! p <> Some Dir -> touches (eq p) d (set_tree (delete p (tree d)) d).
Proof.
  intros Hw Hp. apply touches_intro; cbn; try done.
  - intros q Hq. by rewrite lookup_delete_ne.
  - by intros q _ <-.
  - intros q i <-. by rewrite lookup_delete_eq.
  - intros q. destruct (decide (p = q)); auto.
Qed.

Lemma touches_link p i d :
  wf d -> tree d !! p <> Some Dir -> is_Some (data d !! i) ->
  touches (eq p) d (set_tree (<[p := File i]> (tree d)) d).
Proof.
  intros Hw Hp Hi. apply touches_intro; cbn; try done.
  - intros q Hq. by rewrite lookup_insert_ne.
  - by intros q _ <-.
  - intros q j <-. rewrite lookup_insert_eq. by intros [= <-].
  - intros q. destruct (decide (p = q)); auto.
Qed.

Lemma touches_new p i c d :
  wf d -> tree d !! p <> Some Dir -> data d !! i = None ->
  touches (eq p) d (mkDisk (<[p := File i]> (tree d)) (<[i := c]> (data d))).
Proof.
  intros Hw Hp Hi. apply touches_intro; cbn; try done.
  - intros q Hq. by rewrite lookup_insert_ne.
  - by intros q _ <-.
  - intros q j <-. rewrite lookup_insert_eq. intros [= <-]. rewrite lookup_insert_eq. eauto.
  - by apply insert_subseteq.
  - intros q. destruct (decide (p = q)); auto.
Qed.

Lemma new_inode_fresh d : data d !! new_inode d = None.
Proof. apply not_elem_of_dom. unfold new_inode. apply (is_fresh (dom (data d) : gset nat)). Qed.

Lemma touches_created p c d : wf d -> tree d !! p <> Some Dir -> touches (eq p) d (created p c d).
Proof. intros. apply touches_new; auto using new_inode_fresh. Qed.

Lemma touches_rename p q i d :
  wf d -> tree d !! p = Some (File i) -> tree d !! q <> Some Dir ->
  touches (fun r => r = p \/ r = q) d (set_tree (<[q := File i]> (delete p (tree d))) d).
Proof.
  intros Hw Hp Hq. pose proof (wf_data d Hw p i Hp). apply touches_intro; cbn; try done.
  - intros r Hr. rewrite lookup_insert_ne, lookup_delete_ne by naive_solver. done.
  - intros r _ [->| ->]; congruence.
  - intros r j Hr. destruct (decide (r = q)) as [->|Hn].
    + rewrite lookup_insert_eq. by intros [= <-].
    + rewrite lookup_insert_ne by done. destruct Hr as [->|]; [by rewrite lookup_delete_eq|done].
  - intros r. destruct (decide (r = p)), (decide (r = q)); naive_solver.
Qed.

Lemma holds_touches S d d' p c : touches S d d' -> ~ S p -> holds d p c -> holds d' p c.
Proof.
  intros [_ O _ C] Hp (i & Ht & Hc). exists i. rewrite O by done. split; [done|]. by eapply lookup_weaken.
Qed.

Lemma reachable_touches S d d' s : touches S d d' -> reachable d s -> reachable d' s.
Proof. intros [_ _ D _] Hr l l' Hl Hn. apply D; [done|]. by eapply Hr. Qed.

Lemma view_touches S d d' l : wf d -> touches S d d' -> ~ S (Work l) -> view d' l = view d l.
Proof.
  intros Hw [_ O _ C] Hl. unfold view. rewrite O by done.
  destruct (tree d !! Work l) as [[|i|]|] eqn:E; [done| |done|done].
  destruct (wf_data d Hw _ i E) as [c Hc]. by rewrite Hc, (lookup_weaken _ _ _ _ Hc C).
Qed.

(** ** The state of one action *)

Definition stage_of (index : nat) : Place := Journal Transaction (StageFile index).
Definition removed_of (index : nat) : Place := Journal Transaction (RemovedFile index).

(** The bytes an action brings, and those it takes from its path. *)
Record Ghost : Type := mkGhost { g_new : bytes; g_old : bytes }.

(** [p] holds the file [i], or nothing. *)
Definition link_or_none (d : Disk) (p : Place) (i : nat) : Prop :=
  tree d !! p = None \/ tree d !! p = Some (File i).

Section libraries.
Context `{lib : Libraries}.

Definition describes (a : PreparedAction) (c : bytes) : Prop :=
  pa_digest a = blake3 c /\ pa_size a = len c.

(** The record of an action agrees with the view that the transaction started from. *)
Definition ghost_ok (v : View) (a : PreparedAction) (g : Ghost) : Prop :=
  match pa_kind a with
  | FA_Create | FA_Copy => describes a (g_new g) /\ view_at v (target_path a) = Absent
  | FA_Move =>
      describes a (g_old g) /\ view_at v (pa_path a) = Contents (g_old g)
      /\ exists destination, pa_destination a = Some destination /\ view_at v destination = Absent
  | FA_Remove => describes a (g_old g) /\ view_at v (pa_path a) = Contents (g_old g)
  | FA_Replace =>
      describes a (g_new g) /\ view_at v (pa_path a) = Contents (g_old g)
      /\ pa_preimage_digest a = Some (blake3 (g_old g)) /\ pa_preimage_size a = Some (len (g_old g))
      /\ (blake3 (g_old g) = blake3 (g_new g) -> g_old g = g_new g)
  end.

(** Where the files of an action may be, at any moment of applying or undoing it. *)
Definition midway (d : Disk) (index : nat) (a : PreparedAction) (g : Ghost) : Prop :=
  match pa_kind a with
  | FA_Create | FA_Copy =>
      exists i, data d !! i = Some (g_new g)
        /\ link_or_none d (stage_of index) i /\ link_or_none d (place_of (target_path a)) i
  | FA_Move =>
      exists i, data d !! i = Some (g_old g)
        /\ link_or_none d (place_of (pa_path a)) i /\ link_or_none d (place_of (target_path a)) i
        /\ (tree d !! place_of (pa_path a) = None -> tree d !! place_of (target_path a) <> None)
  | FA_Remove =>
      exists i, data d !! i = Some (g_old g)
        /\ ((tree d !! place_of (pa_path a) = Some (File i) /\ tree d !! removed_of index = None)
            \/ (tree d !! place_of (pa_path a) = None /\ tree d !! removed_of index = Some (File i)))
  | FA_Replace =>
      (tree d !! removed_of index = None \/ holds d (removed_of index) (g_old g))
      /\ (holds d (place_of (pa_path a)) (g_old g)
          \/ (holds d (place_of (pa_path a)) (g_new g) /\ holds d (removed_of index) (g_old g)))
      /\ (tree d !! stage_of index = None \/ exists c, holds d (stage_of index) c)
  end.

(** Nothing of the action has happened yet. *)
Definition untouched (d : Disk) (index : nat) (a : PreparedAction) (g : Ghost) : Prop :=
  match pa_kind a with
  | FA_Create | FA_Copy => tree d !! stage_of index <> None /\ tree d !! place_of (target_path a) = None
  | FA_Move => tree d !! place_of (target_path a) = None
  | FA_Remove => tree d !! removed_of index = None
  | FA_Replace =>
      holds d (place_of (pa_path a)) (g_old g) /\ holds d (stage_of index) (g_new g)
      /\ holds d (removed_of index) (g_old g)
  end.

(** The paths whose entries the action changes; a copy reads its source only. *)
Definition changed_paths (a : PreparedAction) : list str :=
  match pa_kind a with
  | FA_Create | FA_Copy => [target_path a]
  | FA_Move => [pa_path a; target_path a]
  | FA_Remove | FA_Replace => [pa_path a]
  end.

(** The action's paths hold what the transaction found, or what it leaves. *)
Definition undone (v : View) (d : Disk) (a : PreparedAction) : Prop :=
  forall s, s ∈ changed_paths a -> view_at (view d) s = view_at v s.

Definition effect (a : PreparedAction) (g : Ghost) (v : View) : View :=
  match pa_kind a with
  | FA_Create | FA_Copy => store (target_path a) (Contents (g_new g)) v
  | FA_Move => store (target_path a) (Contents (g_old g)) (store (pa_path a) Absent v)
  | FA_Remove => store (pa_path a) Absent v
  | FA_Replace => store (pa_path a) (Contents (g_new g)) v
  end.

Definition paths_ok (d : Disk) (a : PreparedAction) : Prop :=
  forall s, s ∈ changed_paths a -> target_ok s = true /\ reachable d s.

Record action_state (v : View) (d : Disk) (index : nat) (a : PreparedAction) (g : Ghost) : Prop :=
  mkActionState {
    as_shape : prepared_shape_valid a = true;
    as_ghost : ghost_ok v a g;
    as_paths : paths_ok d a;
    as_midway : midway d index a g;
  }.

(** ** Footprints *)

Definition footprint (index : nat) (a : PreparedAction) (p : Place) : Prop :=
  p = stage_of index \/ p = removed_of index \/ exists s, s ∈ changed_paths a /\ p = place_of s.

Lemma changed_in a s : prepared_shape_valid a = true -> s ∈ changed_paths a -> s ∈ prepared_paths a.
Proof.
  unfold prepared_shape_valid, changed_paths, target_path, prepared_paths, paths_of.
  destruct (pa_kind a), (pa_destination a); cbn; try done; set_solver.
Qed.

Lemma footprint_path index a s : s ∈ changed_paths a -> footprint index a (place_of s).
Proof. intros H. right. right. by exists s. Qed.

Lemma footprint_stage index a : footprint index a (stage_of index).
Proof. by left. Qed.
Lemma footprint_removed index a : footprint index a (removed_of index).
Proof. right. by left. Qed.

(** Different actions have disjoint footprints. *)
Lemma footprint_disjoint i j a b p :
  i <> j -> (forall s, s ∈ changed_paths a -> s ∉ changed_paths b) ->
  footprint i a p -> ~ footprint j b p.
Proof.
  intros Hij Hs Ha Hb. unfold footprint, stage_of, removed_of in *.
  destruct Ha as [->|[->|(s & Hin & ->)]], Hb as [Hb|[Hb|(t & Hin' & Hb)]]; try (unfold place_of in Hb; congruence).
  apply place_of_inj in Hb as ->. by apply (Hs t).
Qed.

Lemma link_or_none_touches S d d' p i : touches S d d' -> ~ S p -> link_or_none d p i -> link_or_none d' p i.
Proof. intros [_ O _ _] Hp. unfold link_or_none. by rewrite O. Qed.

(** What others do leaves an action's state alone. *)
Section frame.
Context (S : Place -> Prop) (d d' : Disk) (index : nat) (a : PreparedAction) (g : Ghost).
Context (Ht : touches S d d') (Hf : forall p, footprint index a p -> ~ S p).

Lemma frame_path s : s ∈ changed_paths a -> ~ S (place_of s).
Proof. intros H. by apply Hf, footprint_path. Qed.

Lemma frame_tree p : ~ S p -> tree d' !! p = tree d !! p.
Proof. apply Ht. Qed.

Lemma frame_data i c : data d !! i = Some c -> data d' !! i = Some c.
Proof. intros H. eapply lookup_weaken; [exact H|apply Ht]. Qed.

Lemma midway_frame : midway d index a g -> midway d' index a g.
Proof.
  pose proof (Hf _ (footprint_stage index a)) as H1. pose proof (Hf _ (footprint_removed index a)) as H2.
  pose proof frame_path as Hp. unfold changed_paths in Hp. unfold midway.
  destruct (pa_kind a).
  1,2: specialize (Hp (target_path a) ltac:(set_solver));
    intros (i & Hi & Hs & Hd); exists i; split; [by apply frame_data|];
    split; by eapply link_or_none_touches.
  - pose proof (Hp (pa_path a) ltac:(set_solver)). specialize (Hp (target_path a) ltac:(set_solver)).
    intros (i & Hi & Hs & Hd & Hn). exists i. rewrite !frame_tree by done.
    split; [by apply frame_data|]. split; [by eapply link_or_none_touches|].
    split; [by eapply link_or_none_touches|done].
  - specialize (Hp (pa_path a) ltac:(set_solver)).
    intros (i & Hi & H). exists i. rewrite !frame_tree by done. split; [by apply frame_data|done].
  - specialize (Hp (pa_path a) ltac:(set_solver)). rewrite !frame_tree by done. intros (Hr & Hq & Hs).
    split; [|split].
    + destruct Hr; [by left|right; by eapply (holds_touches S d d')].
    + destruct Hq as [?|[]]; [left|right; split]; by eapply (holds_touches S d d').
    + destruct Hs as [|[c ?]]; [by left|right; exists c; by eapply (holds_touches S d d')].
Qed.

Lemma untouched_frame : untouched d index a g -> untouched d' index a g.
Proof.
  pose proof (Hf _ (footprint_stage index a)) as H1. pose proof (Hf _ (footprint_removed index a)) as H2.
  pose proof frame_path as Hp. unfold changed_paths in Hp. unfold untouched.
  destruct (pa_kind a).
  1,2,3: specialize (Hp (target_path a) ltac:(set_solver)); by rewrite !frame_tree by done.
  - by rewrite !frame_tree by done.
  - specialize (Hp (pa_path a) ltac:(set_solver)).
    intros (Hq & Hs & Hr). split; [|split]; by eapply (holds_touches S d d').
Qed.

End frame.

Lemma paths_ok_touches S d d' a : touches S d d' -> paths_ok d a -> paths_ok d' a.
Proof.
  intros Ht Hp s Hs. destruct (Hp s Hs). split; [done|]. by eapply reachable_touches.
Qed.

Lemma action_state_frame S v d d' index a g :
  touches S d d' -> (forall p, footprint index a p -> ~ S p) ->
  action_state v d index a g -> action_state v d' index a g.
Proof.
  intros Ht Hf [Hs Hg Hp Hm]. split; [done|done|by eapply paths_ok_touches|by eapply midway_frame].
Qed.

Lemma undone_frame S v d d' a :
  wf d -> touches S d d' -> (forall s, s ∈ changed_paths a -> ~ S (place_of s)) -> undone v d a -> undone v d' a.
Proof.
  intros Hw Ht Hf Hu s Hs. unfold view_at. rewrite (view_touches S d d') by (done || by apply Hf). by apply Hu.
Qed.

End libraries.
