(* ===== verification/RollbackFacts.v ===== *)
(** * RollbackFacts: undoing one action

    From any moment of an action, [applied_state] finds out what is to be undone and
    [rollback_action] undoes it.  A fault leaves the action at another such moment,
    so that a later attempt can finish. *)

From S2P Require Import Prelude Text Workspace Manifest Disk Mutation Transaction JournalState.

Section one_action.
Context `{lib : Libraries} `{laws : !LibraryLaws lib}.
Context (v : View) (index : nat) (a : PreparedAction) (g : Ghost).

(** The journal's directories are there, and the sizes are those of a manifest. *)
Record journal_dirs (d : Disk) : Prop := mkJournalDirs {
  jd_stage : tree d !! Journal Transaction StageDir = Some Dir;
  jd_removed : tree d !! Journal Transaction RemovedDir = Some Dir;
}.

Record sizes_ok : Prop := mkSizesOk {
  so_size : pa_size a <= MAX_FILE_TRANSACTION_FILE_BYTES;
  so_preimage : forall n, pa_preimage_size a = Some n -> n <= MAX_FILE_TRANSACTION_FILE_BYTES;
}.

(** A moment of the action, reached from [d] within its footprint. *)
Definition moment (d d' : Disk) : Prop :=
  touches (footprint index a) d d' /\ midway d' index a g.

(** What makes [applied_state] ask for a rollback. *)
Definition to_undo (d : Disk) : Prop :=
  match pa_kind a with
  | FA_Create | FA_Copy | FA_Move => tree d !! place_of (target_path a) <> None
  | FA_Remove => tree d !! place_of (pa_path a) = None
  | FA_Replace =>
      holds d (removed_of index) (g_old g)
      /\ exists c, holds d (place_of (pa_path a)) c /\ describes a c
  end.

Lemma moment_refl d : wf d -> midway d index a g -> moment d d.
Proof. intros Hw Hm. split; [by apply touches_refl|done]. Qed.

Lemma path_checked d s m :
  wf d -> paths_ok d a -> s ∈ changed_paths a -> final_ok d (place_of s) m ->
  answers (checked_mutation_path s m) true d (Done (place_of s)).
Proof. intros Hw Hp Hs Hf. destruct (Hp s Hs). apply answers_checked; try done. apply Hw. Qed.

Lemma answers_exists_regular p d b :
  match tree d !! p with Some (File _) | None => True | _ => False end ->
  answers (exists_regular p) b d (Done (match tree d !! p with None => false | _ => true end)).
Proof.
  intros H. unfold exists_regular. eapply answers_match_stat; [done|].
  unfold stat. destruct (tree d !! p) as [[|i|]|]; try done; cbn; apply answers_ret.
Qed.

Lemma exists_regular_link d p i b : link_or_none d p i ->
  answers (exists_regular p) b d (Done (match tree d !! p with None => false | _ => true end)).
Proof. intros H. apply answers_exists_regular. by destruct H as [-> | ->]. Qed.

Lemma link_final d p i : link_or_none d p i -> final_ok d p false.
Proof. unfold final_ok. by intros [-> | ->]. Qed.

Lemma link_holds d p i c : data d !! i = Some c -> link_or_none d p i -> tree d !! p <> None -> holds d p c.
Proof. intros Hi [H|H] Hn; [done|]. by exists i. Qed.

Lemma describes_matches c c' : describes a c ->
  ((len c' =? pa_size a) && bool_decide (blake3 c' = pa_digest a) = true) <-> describes a c'.
Proof.
  intros _. unfold describes. rewrite andb_true_iff, Z.eqb_eq, bool_decide_eq_true. intuition congruence.
Qed.

Lemma size_u64 : sizes_ok -> pa_size a <= u64_max.
Proof. intros [H _]. unfold MAX_FILE_TRANSACTION_FILE_BYTES in H. lia. Qed.

(** The two guarded arms. *)
Lemma answers_applied_if d p c :
  sizes_ok -> holds d p c -> describes a c -> answers (applied_if p a) true d (Done Applied).
Proof.
  intros Hz Hh [Hd Hs]. unfold applied_if. pose proof (answers_hash_recovery d p c (pa_size a) true Hh (size_u64 Hz)) as Ha.
  rewrite Hs, Z.eqb_refl in Ha. rewrite Hs. eapply answers_bind; [done|].
  rewrite bool_decide_true by done. apply answers_ret.
Qed.

Lemma answers_linked_if d p q i c :
  sizes_ok -> tree d !! p = Some (File i) -> tree d !! q = Some (File i) -> data d !! i = Some c ->
  describes a c -> answers (linked_if p q a) true d (Done Linked).
Proof.
  intros Hz Hp Hq Hc Hd. unfold linked_if.
  eapply answers_bind; [apply (answers_matches d p c); [by exists i|by apply size_u64]|].
  rewrite (proj2 (describes_matches c c Hd) Hd). cbn [negb].
  eapply answers_bind; [by apply answers_same|].
  rewrite (proj2 (same_inode_spec i i)) by done. apply answers_ret.
Qed.

Lemma undone_one d s : changed_paths a = [s] -> view_at (view d) s = view_at v s -> undone v d a.
Proof. intros E H t Ht. rewrite E in Ht. apply list_elem_of_singleton in Ht as ->. done. Qed.

Lemma undone_two d s t :
  changed_paths a = [s; t] -> view_at (view d) s = view_at v s -> view_at (view d) t = view_at v t ->
  undone v d a.
Proof. intros E H H' r Hr. rewrite E in Hr. apply elem_of_cons in Hr as [->|Hr%list_elem_of_singleton]; [done|by subst]. Qed.

(** ** Finding out *)

Definition found (d : Disk) (st : AppliedState) : Prop :=
  (st = NotApplied /\ undone v d a) \/ ((st = Applied \/ st = Linked) /\ to_undo d).

Lemma found_create_copy d :
  wf d -> sizes_ok -> pa_kind a = FA_Create \/ pa_kind a = FA_Copy -> action_state v d index a g ->
  exists st, answers (applied_state_create_copy index a) true d (Done st) /\ found d st.
Proof.
  intros Hw Hz Hk [_ Hg Hp Hm].
  assert (changed_paths a = [target_path a]) as Hc by (unfold changed_paths; by destruct Hk as [-> | ->]).
  assert (target_path a ∈ changed_paths a) as Hin by (rewrite Hc; set_solver).
  assert (describes a (g_new g) /\ view_at v (target_path a) = Absent) as [Hd Hv]
    by (unfold ghost_ok in Hg; by destruct Hk as [Hk|Hk]; rewrite Hk in Hg).
  assert (exists i, data d !! i = Some (g_new g) /\ link_or_none d (stage_of index) i
            /\ link_or_none d (place_of (target_path a)) i) as (i & Hi & Hs & Ht)
    by (unfold midway in Hm; by destruct Hk as [Hk|Hk]; rewrite Hk in Hm).
  assert (to_undo d = (tree d !! place_of (target_path a) <> None)) as Hu
    by (unfold to_undo; by destruct Hk as [-> | ->]).
  unfold applied_state_create_copy, found. rewrite Hu.
  pose proof (path_checked d _ false Hw Hp Hin (link_final _ _ _ Ht)) as Hchk.
  pose proof (exists_regular_link d _ i true Hs) as Hes. pose proof (exists_regular_link d _ i true Ht) as Het.
  change (Journal Transaction (StageFile index)) with (stage_of index).
  destruct Ht as [Ht|Ht]; rewrite Ht in *.
  - exists NotApplied. split.
    + eapply answers_bind; [done|]. eapply answers_bind; [done|]. eapply answers_bind; [done|].
      destruct (tree d !! stage_of index); apply answers_ret.
    + left. split; [done|]. apply (undone_one d (target_path a)); [done|]. by rewrite view_none, Hv.
  - destruct Hs as [Hs|Hs]; rewrite Hs in *.
    + exists Applied. split; [|by right; split; [left|]].
      eapply answers_bind; [done|]. eapply answers_bind; [done|]. eapply answers_bind; [done|].
      eapply answers_applied_if; [done|by exists i|done].
    + exists Linked. split; [|by right; split; [right|]].
      eapply answers_bind; [done|]. eapply answers_bind; [done|]. eapply answers_bind; [done|].
      by eapply answers_linked_if.
Qed.

Lemma found_move d :
  wf d -> sizes_ok -> pa_kind a = FA_Move -> action_state v d index a g ->
  exists st, answers (applied_state_move a) true d (Done st) /\ found d st.
Proof.
  intros Hw Hz Hk [_ Hg Hp Hm]. unfold ghost_ok, midway in Hg, Hm. rewrite Hk in Hg, Hm.
  destruct Hg as (Hd & Hv & t & Et & Hvt), Hm as (i & Hi & Hs & Ht & Hn).
  assert (target_path a = t) as Htp by (unfold target_path; by rewrite Et). rewrite Htp in *.
  assert (changed_paths a = [pa_path a; t]) as Hc by (unfold changed_paths; by rewrite Hk, Htp).
  assert (pa_path a ∈ changed_paths a /\ t ∈ changed_paths a) as [Hin1 Hin2] by (rewrite Hc; set_solver).
  assert (to_undo d = (tree d !! place_of t <> None)) as Hu by (unfold to_undo; by rewrite Hk, Htp).
  unfold applied_state_move, found. rewrite Hu.
  pose proof (path_checked d _ false Hw Hp Hin1 (link_final _ _ _ Hs)) as Hchk1.
  pose proof (path_checked d _ false Hw Hp Hin2 (link_final _ _ _ Ht)) as Hchk2.
  pose proof (exists_regular_link d _ i true Hs) as Hes. pose proof (exists_regular_link d _ i true Ht) as Het.
  assert (forall st, answers
    (match (match tree d !! place_of (pa_path a) with None => false | _ => true end),
           (match tree d !! place_of t with None => false | _ => true end) with
     | true, false => mret NotApplied
     | true, true => linked_if (place_of (pa_path a)) (place_of t) a
     | false, true => applied_if (place_of t) a
     | false, false => mret Indeterminate
     end) true d (Done st) -> answers (applied_state_move a) true d (Done st)) as Hrun.
  { intros st H. eapply answers_bind; [done|].
    eapply answers_bind; [by apply answers_lift_ok; rewrite Et|]. eapply answers_bind; [done|].
    eapply answers_bind; [done|]. by eapply answers_bind. }
  destruct Ht as [Ht|Ht]; rewrite Ht in *.
  - destruct Hs as [Hs|Hs]; [by destruct (Hn Hs)|]. exists NotApplied. split.
    + apply Hrun. rewrite Hs. apply answers_ret.
    + left. split; [done|]. apply (undone_two d (pa_path a) t); [done| |by rewrite view_none, Hvt].
      rewrite Hv. apply view_holds. by exists i.
  - destruct Hs as [Hs|Hs]; rewrite Hs in *.
    + exists Applied. split; [|by right; split; [left|]].
      apply Hrun. eapply answers_applied_if; [done|by exists i|done].
    + exists Linked. split; [|by right; split; [right|]].
      apply Hrun. by eapply answers_linked_if.
Qed.

Lemma found_remove d :
  wf d -> sizes_ok -> pa_kind a = FA_Remove -> action_state v d index a g ->
  exists st, answers (applied_state_remove index a) true d (Done st) /\ found d st.
Proof.
  intros Hw Hz Hk [_ Hg Hp Hm]. unfold ghost_ok, midway in Hg, Hm. rewrite Hk in Hg, Hm.
  destruct Hg as (Hd & Hv), Hm as (i & Hi & Hor).
  assert (changed_paths a = [pa_path a]) as Hc by (unfold changed_paths; by rewrite Hk).
  assert (pa_path a ∈ changed_paths a) as Hin by (rewrite Hc; set_solver).
  assert (to_undo d = (tree d !! place_of (pa_path a) = None)) as Hu by (unfold to_undo; by rewrite Hk).
  unfold applied_state_remove, found. rewrite Hu.
  change (Journal Transaction (RemovedFile index)) with (removed_of index).
  assert (link_or_none d (place_of (pa_path a)) i /\ link_or_none d (removed_of index) i) as [Hl1 Hl2]
    by (unfold link_or_none; destruct Hor as [[-> ->]|[-> ->]]; auto).
  pose proof (path_checked d _ false Hw Hp Hin (link_final _ _ _ Hl1)) as Hchk.
  pose proof (exists_regular_link d _ i true Hl1) as He1. pose proof (exists_regular_link d _ i true Hl2) as He2.
  destruct Hor as [[H1 H2]|[H1 H2]]; rewrite H1, H2 in *.
  - exists NotApplied. split.
    + eapply answers_bind; [done|]. eapply answers_bind; [done|]. eapply answers_bind; [done|]. apply answers_ret.
    + left. split; [done|]. apply (undone_one d (pa_path a)); [done|]. rewrite Hv. apply view_holds. by exists i.
  - exists Applied. split; [|by right; split; [left|]].
    eapply answers_bind; [done|]. eapply answers_bind; [done|]. eapply answers_bind; [done|].
    eapply answers_applied_if; [done|by exists i|done].
Qed.

Lemma found_replace d :
  wf d -> sizes_ok -> pa_kind a = FA_Replace -> action_state v d index a g ->
  exists st, answers (applied_state_replace index a) true d (Done st) /\ found d st.
Proof.
  intros Hw Hz Hk [_ Hg Hp Hm]. unfold ghost_ok, midway in Hg, Hm. rewrite Hk in Hg, Hm.
  destruct Hg as (Hd & Hv & Epd & Eps & _), Hm as (Hr & Hq & _).
  assert (changed_paths a = [pa_path a]) as Hc by (unfold changed_paths; by rewrite Hk).
  assert (pa_path a ∈ changed_paths a) as Hin by (rewrite Hc; set_solver).
  assert (exists c, holds d (place_of (pa_path a)) c) as [c Hh] by (destruct Hq as [?|[? ?]]; eauto).
  assert (len (g_old g) <= u64_max) as Hz2
    by (pose proof (so_preimage Hz _ Eps) as H; unfold MAX_FILE_TRANSACTION_FILE_BYTES in H; lia).
  pose proof (size_u64 Hz) as Hz1.
  pose proof (path_checked d _ false Hw Hp Hin (holds_final _ _ _ _ Hh)) as Hchk.
  assert (forall p x, holds d p x -> answers (exists_regular p) true d (Done true)) as Hex.
  { intros p x (i & Hi & _). pose proof (answers_exists_regular p d true) as H. rewrite Hi in H. by apply H. }
  assert (holds d (place_of (pa_path a)) (g_old g) -> undone v d a) as Hund.
  { intros H. apply (undone_one d (pa_path a)); [done|]. rewrite Hv. by apply view_holds. }
  assert (forall n, (len n =? len n) && bool_decide (blake3 n = blake3 n) = true) as Hself.
  { intros n. by rewrite Z.eqb_refl, bool_decide_true. }
  unfold applied_state_replace, found, to_undo. rewrite Hk.
  change (Journal Transaction (RemovedFile index)) with (removed_of index).
  (* The part of the run that is common to all cases. *)
  assert (forall st (k : io PlatformError AppliedState), k =
     (has_removed ← exists_regular (removed_of index);
      if negb has_removed then
        untouched ← file_matches_recovery (place_of (pa_path a)) (len (g_old g)) (blake3 (g_old g));
        mret (if untouched : bool then NotApplied else Indeterminate)
      else
        intact ← file_matches_recovery (removed_of index) (len (g_old g)) (blake3 (g_old g));
        if negb intact then mret Indeterminate
        else
          new ← file_matches_recovery (place_of (pa_path a)) (pa_size a) (pa_digest a);
          if new : bool then mret Applied
          else
            old ← file_matches_recovery (place_of (pa_path a)) (len (g_old g)) (blake3 (g_old g));
            mret (if old : bool then NotApplied else Indeterminate)) ->
     answers k true d (Done st) -> answers (applied_state_replace index a) true d (Done st)) as Hrun.
  { intros st k -> H. eapply answers_bind; [done|]. eapply answers_bind; [by eapply Hex|]. cbn [negb].
    eapply answers_bind; [by apply answers_lift_ok; rewrite Epd|].
    by eapply answers_bind; [by apply answers_lift_ok; rewrite Eps|]. }
  destruct Hr as [Hr|Hr].
  - destruct Hq as [Hq|[_ (i & Hi & _)]]; [|congruence].
    exists NotApplied. split; [|left; auto]. eapply Hrun; [reflexivity|].
    eapply answers_bind; [apply answers_exists_regular; by rewrite Hr|]. rewrite Hr. cbn [negb].
    eapply answers_bind; [by apply (answers_matches d _ (g_old g))|]. rewrite Hself. apply answers_ret.
  - destruct (decide ((len c =? pa_size a) && bool_decide (blake3 c = pa_digest a) = true)) as [Hm|Hm].
    + exists Applied. split; [|right; split; [by left|]; split; [done|]; exists c; split; [done|by eapply describes_matches]].
      eapply Hrun; [reflexivity|]. eapply answers_bind; [by eapply Hex|]. cbn [negb].
      eapply answers_bind; [by apply (answers_matches d _ (g_old g))|]. rewrite Hself. cbn [negb].
      eapply answers_bind; [by apply (answers_matches d _ c)|]. rewrite Hm. apply answers_ret.
    + assert (holds d (place_of (pa_path a)) (g_old g)) as Ho.
      { destruct Hq as [Hq|[Hq _]]; [done|]. destruct Hm. pose proof (holds_fun _ _ _ _ Hh Hq) as ->.
        by apply (describes_matches _ _ Hd). }
      pose proof (holds_fun _ _ _ _ Hh Ho) as ->.
      exists NotApplied. split; [|left; auto]. eapply Hrun; [reflexivity|].
      eapply answers_bind; [by eapply Hex|]. cbn [negb].
      eapply answers_bind; [by apply (answers_matches d _ (g_old g))|]. rewrite Hself. cbn [negb].
      eapply answers_bind; [by apply (answers_matches d _ (g_old g))|].
      rewrite (not_true_is_false _ Hm).
      eapply answers_bind; [by apply (answers_matches d _ (g_old g))|]. rewrite Hself. apply answers_ret.
Qed.

Lemma found_state d :
  wf d -> sizes_ok -> action_state v d index a g ->
  exists st, answers (applied_state index a) true d (Done st) /\ found d st.
Proof.
  intros Hw Hz Ha. unfold applied_state.
  destruct (pa_kind a) eqn:E; eauto using found_create_copy, found_move, found_remove, found_replace.
Qed.

(** ** Undoing *)

Section undo.
Context (env : Environment) (d : Disk).
Context (Hw : wf d) (Hz : sizes_ok) (Ha : action_state v d index a g) (Hj : journal_dirs d).

(** What an attempt to undo leaves. *)
Definition undo_wp (m : io PlatformError unit) (d0 : Disk) : Prop :=
  wp env m (fun _ d' => moment d d' /\ undone v d' a)
     (fun _ d' => ~ fine env /\ moment d d') (fun d' => ~ fine env /\ moment d d') true d0.

Lemma undo_bind {B} (m : io PlatformError B) k d0 x :
  answers m true d0 (Done x) -> moment d d0 -> undo_wp (k x) d0 -> undo_wp (m ≫= k) d0.
Proof. intros Hm Hd Hk. eapply wp_bind_done; [done| |done]. intros Hf. by split. Qed.

Lemma undo_last (m : io PlatformError unit) d0 x :
  answers m true d0 (Done x) -> moment d d0 -> undone v d0 a -> undo_wp m d0.
Proof. intros Hm Hd Hu. eapply wp_done; [done|by split|]. intros Hf. by split. Qed.

Lemma undo_update (act : Disk -> result IoKind (unit * Disk)) k d0 d1 :
  act d0 = Ok (tt, d1) -> moment d d0 -> moment d d1 -> undo_wp (k tt) d1 ->
  undo_wp (io_p (update act) ≫= k) d0.
Proof.
  intros He H0 H1 Hk. apply wp_bind, wp_map_fail. eapply wp_update; [done|done|]. intros Hf. split; [by split|]. split; by split.
Qed.

(** [Path::exists], where a fault may hide the file. *)
Lemma undo_exists p (k : bool -> io PlatformError unit) d0 :
  moment d d0 -> undo_wp (k (is_ok (stat p d0))) d0 ->
  (~ fine env -> undo_wp (k false) d0) -> undo_wp (exists_ p ≫= k) d0.
Proof. intros H0 Ht Hf. apply wp_bind, wp_exists; [done|]. intros H. split; [by apply Hf|by split]. Qed.

Lemma undo_fail e d0 : ~ fine env -> moment d d0 -> undo_wp (fail e) d0.
Proof. intros. by apply wp_fail. Qed.

Lemma moment_start : moment d d.
Proof. apply moment_refl; [done|apply Ha]. Qed.

Lemma moment_step d0 d1 p :
  moment d d0 -> touches (eq p) d0 d1 -> footprint index a p -> midway d1 index a g -> moment d d1.
Proof.
  intros [H0 _] H1 Hp Hm. split; [|done]. eapply touches_trans; [done|].
  eapply touches_mono; [|done]. by intros q <-.
Qed.

Lemma answers_sync_reachable d0 s :
  touches (footprint index a) d d0 -> s ∈ changed_paths a ->
  answers (io_p (sync_parent (place_of s))) true d0 (Done tt).
Proof.
  intros Ht Hs. apply answers_io. eapply answers_sync. eapply to_dirs; [done|done|].
  by apply reachable_parent, (as_paths _ _ _ _ _ Ha).
Qed.

Lemma answers_sync_dir p d0 :
  touches (footprint index a) d d0 -> in_journal Preparing p = false -> tree d !! p = Some Dir ->
  answers (io_p (sync_directory p)) true d0 (Done tt).
Proof. intros Ht Hn Hp. apply answers_io. eapply answers_sync. by eapply to_dirs. Qed.

Lemma remove_file_ok d0 p i : tree d0 !! p = Some (File i) ->
  match tree d0 !! p with
  | Some (File _) => Ok (tt, set_tree (delete p (tree d0)) d0)
  | Some _ => Err OtherIo | None => Err NotFound end = Ok (tt, set_tree (delete p (tree d0)) d0).
Proof. by intros ->. Qed.

Lemma answers_digest p c : holds d p c -> describes a c ->
  answers (hash_file_recovery p (pa_size a)) true d (Done (pa_digest a)).
Proof.
  intros Hh [Hd Hs]. pose proof (answers_hash_recovery d p c (pa_size a) true Hh (size_u64 Hz)) as H.
  by rewrite Hs, Z.eqb_refl, <- Hd, <- Hs in H.
Qed.

Lemma rollback_create_copy_spec :
  pa_kind a = FA_Create \/ pa_kind a = FA_Copy -> to_undo d -> undo_wp (rollback_create_copy index a) d.
Proof.
  intros Hk Hu. pose proof moment_start as Hstart. destruct (Ha) as [_ Hg Hp Hm].
  assert (changed_paths a = [target_path a]) as Hc by (unfold changed_paths; by destruct Hk as [-> | ->]).
  assert (target_path a ∈ changed_paths a) as Hin by (rewrite Hc; set_solver).
  assert (describes a (g_new g) /\ view_at v (target_path a) = Absent) as [Hd Hv]
    by (unfold ghost_ok in Hg; by destruct Hk as [Hk|Hk]; rewrite Hk in Hg).
  assert (forall d, midway d index a g <-> exists i, data d !! i = Some (g_new g)
            /\ link_or_none d (stage_of index) i /\ link_or_none d (place_of (target_path a)) i) as Hmid
    by (intros; unfold midway; by destruct Hk as [-> | ->]).
  apply Hmid in Hm as (i & Hi & Hs & Ht).
  assert (tree d !! place_of (target_path a) = Some (File i)) as Hdst
    by (unfold to_undo in Hu; destruct Ht as [Ht|Ht]; [by destruct Hk as [Hk|Hk]; rewrite Hk in Hu|done]).
  set (d1 := set_tree (delete (place_of (target_path a)) (tree d)) d).
  assert (moment d d1) as Hd1.
  { eapply moment_step; [done|apply touches_delete; [done|by rewrite Hdst]|by apply footprint_path|].
    apply Hmid. exists i. split; [done|]. split.
    - unfold link_or_none. cbn. by rewrite lookup_delete_ne by done.
    - left. cbn. by rewrite lookup_delete_eq. }
  unfold rollback_create_copy.
  eapply undo_bind; [eapply path_checked; eauto using link_final; by eapply holds_final; exists i|done|].
  eapply undo_bind; [apply (answers_digest _ (g_new g)); [by exists i|done]|done|].
  rewrite bool_decide_true by done. cbn [negb].
  change (Journal Transaction (StageFile index)) with (stage_of index).
  assert (undo_wp (_ ← io_p (remove_file (place_of (target_path a)));
                   io_p (sync_parent (place_of (target_path a)))) d) as Hrest.
  { eapply undo_update; [by apply remove_file_ok with (i := i)|done|done|].
    eapply undo_last; [eapply answers_sync_reachable; [apply Hd1|done]|done|].
    apply (undone_one d1 (target_path a)); [done|]. rewrite Hv. apply view_none. cbn. by rewrite lookup_delete_eq. }
  apply undo_exists; [done| |].
  - destruct (is_ok (stat (stage_of index) d)) eqn:E.
    + assert (tree d !! stage_of index = Some (File i)) as Hst.
      { unfold stat in E. destruct Hs as [Hs|Hs]; [by rewrite Hs in E|done]. }
      eapply undo_bind; [by apply answers_same|done|].
      by rewrite (proj2 (same_inode_spec i i)) by done.
    + eapply undo_bind; [apply answers_ret|done|]. done.
  - intros _. eapply undo_bind; [apply answers_ret|done|]. done.
Qed.

(** The last two steps of undoing a move: the destination's name goes. *)
Lemma undo_destination t i d0 :
  pa_kind a = FA_Move -> pa_destination a = Some t -> pa_path a <> t -> data d !! i = Some (g_old g) ->
  moment d d0 -> tree d0 !! place_of (pa_path a) = Some (File i) -> tree d0 !! place_of t = Some (File i) ->
  undo_wp (_ ← io_p (remove_file (place_of t)); io_p (sync_parent (place_of t))) d0.
Proof.
  intros Hk Et Hne Hi Hd0 Hs Ht. pose proof (as_ghost _ _ _ _ _ Ha) as Hg.
  unfold ghost_ok in Hg. rewrite Hk in Hg. destruct Hg as (_ & Hv & t' & Et' & Hvt).
  assert (t' = t) as -> by congruence.
  assert (target_path a = t) as Htp by (unfold target_path; by rewrite Et).
  assert (changed_paths a = [pa_path a; t]) as Hc by (unfold changed_paths; by rewrite Hk, Htp).
  assert (t ∈ changed_paths a) as Hin by (rewrite Hc; set_solver).
  assert (place_of (pa_path a) <> place_of t) as Hpl by (intros ?%place_of_inj; done).
  destruct Hd0 as [Ht0 Hm0].
  assert (data d0 !! i = Some (g_old g)) as Hi0 by (eapply lookup_weaken; [done|apply Ht0]).
  set (d1 := set_tree (delete (place_of t) (tree d0)) d0).
  assert (tree d1 !! place_of (pa_path a) = Some (File i)) as Hs1 by (cbn; by rewrite lookup_delete_ne).
  assert (moment d d1) as Hd1.
  { eapply moment_step; [by split|apply touches_delete; [apply Ht0|by rewrite Ht]|by apply footprint_path|].
    unfold midway. rewrite Hk, Htp. exists i. split; [done|]. split; [by right|].
    split; [left; cbn; by rewrite lookup_delete_eq|]. intros H. congruence. }
  eapply undo_update; [by apply remove_file_ok with (i := i)|by split|done|].
  eapply undo_last; [eapply answers_sync_reachable; [apply Hd1|done]|done|].
  apply (undone_two d1 (pa_path a) t); [done| |].
  - rewrite Hv. apply view_holds. by exists i.
  - rewrite Hvt. apply view_none. cbn. by rewrite lookup_delete_eq.
Qed.

Lemma hard_link_ok d0 p q i :
  tree d0 !! p = Some (File i) -> tree d0 !! q = None -> tree d0 !! parent q = Some Dir ->
  match tree d0 !! p with
  | Some (File i) => _ ← place_free q d0; Ok (tt, set_tree (<[q := File i]> (tree d0)) d0)
  | Some _ => Err OtherIo | None => Err NotFound end = Ok (tt, set_tree (<[q := File i]> (tree d0)) d0).
Proof. intros -> Hq Hp. unfold place_free. by rewrite Hq, Hp. Qed.

Lemma rollback_move_spec :
  pa_kind a = FA_Move -> NoDup (prepared_paths a) -> to_undo d -> undo_wp (rollback_move a) d.
Proof.
  intros Hk Hnd Hu. pose proof moment_start as Hstart. destruct (Ha) as [_ Hg Hp Hm].
  unfold ghost_ok, midway, to_undo in Hg, Hm, Hu. rewrite Hk in Hg, Hm, Hu.
  destruct Hg as (Hd & Hv & t & Et & Hvt), Hm as (i & Hi & Hs & Ht & Hn).
  assert (target_path a = t) as Htp by (unfold target_path; by rewrite Et). rewrite Htp in *.
  assert (changed_paths a = [pa_path a; t]) as Hc by (unfold changed_paths; by rewrite Hk, Htp).
  assert (pa_path a ∈ changed_paths a /\ t ∈ changed_paths a) as [Hin1 Hin2] by (rewrite Hc; set_solver).
  assert (pa_path a <> t) as Hne.
  { unfold prepared_paths, paths_of in Hnd. rewrite Et in Hnd. apply list.NoDup_cons in Hnd as [H _]. set_solver. }
  destruct Ht as [Ht|Ht]; [done|].
  assert (holds d (place_of t) (g_old g)) as Hht by (by exists i).
  assert (forall d0, answers (lift (ok_or (pa_destination a) PL_JournalCorrupt) : io PlatformError str) true d0 (Done t)) as Hdest
    by (intros; apply answers_lift_ok; by rewrite Et).
  assert (answers (checked_mutation_path t true) true d (Done (place_of t))) as Hchk
    by (eapply path_checked; eauto using holds_final).
  unfold rollback_move.
  eapply undo_bind; [eapply path_checked; eauto using link_final|done|].
  (* The name is there twice. *)
  assert (tree d !! place_of (pa_path a) = Some (File i) ->
    undo_wp (destination_logical ← lift (ok_or (pa_destination a) PL_JournalCorrupt);
             destination ← checked_mutation_path destination_logical true;
             matches ← file_matches_recovery (place_of (pa_path a)) (pa_size a) (pa_digest a);
             same ← (if matches : bool then same_regular_file (place_of (pa_path a)) destination else mret false);
             if negb same then fail PL_RecoveryRequired
             else _ ← io_p (remove_file destination); io_p (sync_parent destination)) d) as Htwice.
  { intros Hsi. eapply undo_bind; [done|done|]. eapply undo_bind; [done|done|].
    eapply undo_bind; [apply (answers_matches d _ (g_old g)); [by exists i|by apply size_u64]|done|].
    rewrite (proj2 (describes_matches _ _ Hd) Hd).
    eapply undo_bind; [by apply answers_same|done|]. rewrite (proj2 (same_inode_spec i i)) by done.
    cbn [negb]. by apply (undo_destination t i). }
  (* The name is at the destination only, or a fault makes it seem so. *)
  assert (tree d !! place_of (pa_path a) = None \/ ~ fine env ->
    undo_wp (destination_logical ← lift (ok_or (pa_destination a) PL_JournalCorrupt);
             destination ← checked_mutation_path destination_logical true;
             digest ← hash_file_recovery destination (pa_size a);
             if negb (bool_decide (digest = pa_digest a)) then fail PL_RecoveryRequired
             else
               _ ← io_p (hard_link destination (place_of (pa_path a)));
               _ ← io_p (sync_parent (place_of (pa_path a)));
               _ ← io_p (remove_file destination);
               io_p (sync_parent destination)) d) as Honce.
  { intros Hor. eapply undo_bind; [done|done|]. eapply undo_bind; [done|done|].
    eapply undo_bind; [by apply (answers_digest _ (g_old g))|done|].
    rewrite bool_decide_true by done. cbn [negb].
    destruct Hs as [Hs|Hs].
    - assert (tree d !! parent (place_of (pa_path a)) = Some Dir) as Hpar
        by (apply reachable_parent, Hp; done).
      set (d1 := set_tree (<[place_of (pa_path a) := File i]> (tree d)) d).
      assert (tree d1 !! place_of t = Some (File i)) as Ht1.
      { cbn. rewrite lookup_insert_ne; [done|]. intros ?%place_of_inj. done. }
      assert (tree d1 !! place_of (pa_path a) = Some (File i)) as Hs1 by (cbn; by rewrite lookup_insert_eq).
      assert (moment d d1) as Hd1.
      { eapply moment_step; [done|apply touches_link; [done|by rewrite Hs|by eexists]|by apply footprint_path|].
        unfold midway. rewrite Hk, Htp. exists i. split; [done|]. split; [by right|]. split; [by right|]. congruence. }
      eapply undo_update; [by apply hard_link_ok with (i := i)|done|done|].
      eapply undo_bind; [eapply answers_sync_reachable; [apply Hd1|done]|done|].
      by apply (undo_destination t i).
    - destruct Hor as [?|Hbad]; [congruence|].
      apply wp_bind, wp_map_fail, wp_attempt.
      + intros u d' H. rewrite Ht in H. unfold place_free in H. by rewrite Hs in H.
      + intros e _. by split.
      + intros n tr _. by split.
      + intros n tr _. unfold whole. rewrite Ht. unfold place_free. rewrite Hs. by destruct tr. }
  apply undo_exists; [done| |intros H; apply Honce; by right].
  destruct (is_ok (stat (place_of (pa_path a)) d)) eqn:E; unfold stat in E.
  - apply Htwice. destruct Hs as [Hs|Hs]; [by rewrite Hs in E|done].
  - apply Honce. left. destruct Hs as [Hs|Hs]; [done|by rewrite Hs in E].
Qed.

Lemma rename_ok d0 p q i :
  tree d0 !! p = Some (File i) -> tree d0 !! q = None -> tree d0 !! parent q = Some Dir ->
  match tree d0 !! p, tree d0 !! q, tree d0 !! parent q with
  | None, _, _ => Err NotFound
  | Some (File i), (None | Some (File _)), Some Dir =>
      Ok (tt, set_tree (<[q := File i]> (delete p (tree d0))) d0)
  | _, _, _ => Err OtherIo
  end = Ok (tt, set_tree (<[q := File i]> (delete p (tree d0))) d0).
Proof. by intros -> -> ->. Qed.

Lemma rollback_remove_spec :
  pa_kind a = FA_Remove -> to_undo d -> undo_wp (rollback_remove index a) d.
Proof.
  intros Hk Hu. pose proof moment_start as Hstart. destruct (Ha) as [_ Hg Hp Hm].
  unfold ghost_ok, midway, to_undo in Hg, Hm, Hu. rewrite Hk in Hg, Hm, Hu.
  destruct Hg as (Hd & Hv), Hm as (i & Hi & [[H1 H2]|[H1 H2]]); [congruence|].
  assert (changed_paths a = [pa_path a]) as Hc by (unfold changed_paths; by rewrite Hk).
  assert (pa_path a ∈ changed_paths a) as Hin by (rewrite Hc; set_solver).
  assert (tree d !! parent (place_of (pa_path a)) = Some Dir) as Hpar by (apply reachable_parent, Hp; done).
  set (d1 := set_tree (<[place_of (pa_path a) := File i]> (delete (removed_of index) (tree d))) d).
  assert (tree d1 !! place_of (pa_path a) = Some (File i)) as Hs1 by (cbn; by rewrite lookup_insert_eq).
  assert (moment d d1) as Hd1.
  { split.
    - eapply touches_mono; [|apply touches_rename; [done|done|by rewrite H1]].
      intros q [->| ->]; [apply footprint_removed|by apply footprint_path].
    - unfold midway. rewrite Hk. exists i. split; [done|]. left. split; [done|].
      cbn. rewrite lookup_insert_ne by done. by rewrite lookup_delete_eq. }
  unfold rollback_remove. change (Journal Transaction (RemovedFile index)) with (removed_of index).
  eapply undo_bind; [eapply path_checked; eauto using none_final|done|].
  assert (forall (b : bool), b = false ->
    undo_wp (if b then fail PL_RecoveryRequired
             else digest ← hash_file_recovery (removed_of index) (pa_size a);
                  if negb (bool_decide (digest = pa_digest a)) then fail PL_RecoveryRequired
                  else
                    _ ← io_p (rename_file (removed_of index) (place_of (pa_path a)));
                    _ ← io_p (sync_parent (place_of (pa_path a)));
                    io_p (sync_directory (Journal Transaction RemovedDir))) d) as Hrest.
  { intros b ->. eapply undo_bind; [apply (answers_digest _ (g_old g)); [by exists i|done]|done|].
    rewrite bool_decide_true by done. cbn [negb].
    eapply undo_update; [by apply rename_ok with (i := i)|done|done|].
    eapply undo_bind; [eapply answers_sync_reachable; [apply Hd1|done]|done|].
    eapply undo_last; [eapply answers_sync_dir; [apply Hd1|done|apply Hj]|done|].
    apply (undone_one d1 (pa_path a)); [done|]. rewrite Hv. apply view_holds. by exists i. }
  apply undo_exists; [done| |intros _; exact (Hrest false eq_refl)].
  apply (Hrest (is_ok (stat (place_of (pa_path a)) d))). unfold stat. by rewrite H1.
Qed.

(** Removing what a replacement leaves in the journal. *)
Lemma undo_remove_present p (k : unit -> io PlatformError unit) d0 :
  p = removed_of index \/ p = stage_of index ->
  pa_kind a = FA_Replace -> moment d d0 -> holds d0 (place_of (pa_path a)) (g_old g) ->
  (forall d1, moment d d1 -> holds d1 (place_of (pa_path a)) (g_old g) -> undo_wp (k tt) d1) ->
  undo_wp (remove_file_if_present p ≫= k) d0.
Proof.
  intros Hp Hk [Ht Hm] Hh Hrest. pose proof Hm as Hm'.
  unfold midway in Hm'. rewrite Hk in Hm'. destruct Hm' as (Hr & _ & Hs).
  assert (footprint index a p) as Hfp by (destruct Hp as [->| ->]; [apply footprint_removed|apply footprint_stage]).
  assert (p <> place_of (pa_path a)) as Hne by (destruct Hp as [->| ->]; done).
  apply wp_bind. unfold remove_file_if_present.
  destruct (tree d0 !! p) as [n|] eqn:E.
  - assert (exists i, n = File i) as [i ->].
    { destruct Hp as [->| ->].
      - destruct Hr as [Hr|(i & Hr & _)]; [congruence|]. exists i. congruence.
      - destruct Hs as [Hs|(c & i & Hs & _)]; [congruence|]. exists i. congruence. }
    set (d1 := set_tree (delete p (tree d0)) d0).
    assert (holds d1 (place_of (pa_path a)) (g_old g)) as Hh1.
    { destruct Hh as (j & Hj1 & Hj2). exists j. cbn. by rewrite lookup_delete_ne. }
    assert (moment d d1) as Hd1.
    { eapply moment_step; [by split|apply touches_delete; [apply Ht|by rewrite E]|done|].
      unfold midway. rewrite Hk. split; [|split].
      - destruct Hp as [->| ->]; [left; cbn; by rewrite lookup_delete_eq|].
        unfold holds. cbn. by rewrite lookup_delete_ne.
      - by left.
      - destruct Hp as [->| ->]; [|left; cbn; by rewrite lookup_delete_eq].
        unfold holds. cbn. by rewrite lookup_delete_ne. }
    eapply wp_match_stat; [done| |by split].
    unfold stat. rewrite E. cbn [is_file md_node].
    apply wp_map_fail. eapply wp_update; [by eapply remove_file_ok|by apply Hrest|].
    intros Hf. split; [by split|]. split; by split.
  - eapply wp_match_stat; [done| |by split]. unfold stat. rewrite E. apply wp_ret. by apply Hrest.
Qed.

Lemma rollback_replace_spec :
  pa_kind a = FA_Replace -> to_undo d -> undo_wp (rollback_replace index a) d.
Proof.
  intros Hk Hu. pose proof moment_start as Hstart. destruct (Ha) as [_ Hg Hp Hm].
  unfold ghost_ok, midway, to_undo in Hg, Hm, Hu. rewrite Hk in Hg, Hm, Hu.
  destruct Hg as (Hd & Hv & Epd & Eps & Hcol), Hm as (_ & Hq & Hst), Hu as (Hr & c & Hh & Hdc).
  assert (changed_paths a = [pa_path a]) as Hc by (unfold changed_paths; by rewrite Hk).
  assert (pa_path a ∈ changed_paths a) as Hin by (rewrite Hc; set_solver).
  pose proof (so_preimage Hz _ Eps) as Hz2. pose proof (so_size Hz) as Hz1.
  unfold MAX_FILE_TRANSACTION_FILE_BYTES in Hz1, Hz2.
  assert (forall d0, moment d d0 -> holds d0 (place_of (pa_path a)) (g_old g) -> undone v d0 a) as Hund.
  { intros d0 _ H. apply (undone_one d0 (pa_path a)); [done|]. rewrite Hv. by apply view_holds. }
  unfold rollback_replace. change (Journal Transaction (RemovedFile index)) with (removed_of index).
  change (Journal Transaction (StageFile index)) with (stage_of index).
  eapply undo_bind; [by apply answers_lift_ok; rewrite Epd|done|].
  eapply undo_bind; [by apply answers_lift_ok; rewrite Eps|done|].
  eapply undo_bind; [eapply path_checked; eauto using holds_final|done|].
  eapply undo_bind; [apply (answers_matches d _ c); [done|lia]|done|].
  rewrite (proj2 (describes_matches _ _ Hdc) Hdc). cbn [negb].
  eapply undo_bind; [apply (answers_matches d _ (g_old g)); [done|lia]|done|].
  rewrite Z.eqb_refl, bool_decide_true by done. cbn [negb andb].
  eapply undo_bind; [by apply (answers_read_regular d _ (g_old g))|done|].
  rewrite Z.eqb_refl, bool_decide_true by done. cbn [negb orb].
  assert (file_at d (pa_path a) c) as Hfile by (split; [apply Hw|apply Hp, Hin|apply Hp, Hin|done]).
  set (d1 := replaced (place_of (pa_path a)) (g_old g) d).
  assert (holds d1 (place_of (pa_path a)) (g_old g)) as Hh1 by apply replaced_holds.
  assert (tree d !! place_of (pa_path a) <> Some Dir) as Hnd by (destruct Hh as (i & -> & _); done).
  assert (touches (eq (place_of (pa_path a))) d d1) as Ht1.
  { unfold d1. destruct (replaced_spec (place_of (pa_path a)) (g_old g) d) as (i & Hi & ->).
    by apply touches_new. }
  assert (moment d d1) as Hd1.
  { eapply moment_step; [done|done|by apply footprint_path|]. unfold midway. rewrite Hk.
    split; [right; by eapply (holds_touches (eq (place_of (pa_path a))) d)|]. split; [by left|].
    destruct Hst as [Hst|[x Hst]]; [left; by rewrite (to_other _ _ _ Ht1)|right; exists x; by eapply (holds_touches (eq (place_of (pa_path a))) d)]. }
  rewrite (proj1 Hdc).
  (* Once the bytes are back, only the journal is cleaned. *)
  assert (forall d0, moment d d0 -> holds d0 (place_of (pa_path a)) (g_old g) ->
    undo_wp (if negb (bool_decide (blake3 (g_old g) = blake3 (g_old g))) then fail PL_RecoveryRequired
             else
               _ ← io_p (sync_parent (place_of (pa_path a)));
               _ ← remove_file_if_present (removed_of index);
               _ ← remove_file_if_present (stage_of index);
               _ ← io_p (sync_directory (Journal Transaction RemovedDir));
               io_p (sync_directory (Journal Transaction StageDir))) d0) as Hclean.
  { intros d0 Hd0 Hh0. rewrite bool_decide_true by done. cbn [negb].
    eapply undo_bind; [eapply answers_sync_reachable; [apply Hd0|done]|done|].
    apply undo_remove_present; [by left|done|done|done|]. intros d2 Hd2 Hh2.
    apply undo_remove_present; [by right|done|done|done|]. intros d3 Hd3 Hh3.
    eapply undo_bind; [eapply answers_sync_dir; [apply Hd3|done|apply Hj]|done|].
    eapply undo_last; [eapply answers_sync_dir; [apply Hd3|done|apply Hj]|done|by apply Hund]. }
  apply wp_bind. apply (wp_replace env (pa_path a) c (g_old g) _ d); [done|by apply Hclean| |].
  - intros e H. split; [|done]. intros Hf. specialize (H Hf).
    destruct Hdc as [_ Hsz]. unfold MAX_FILE_TRANSACTION_FILE_BYTES in H. lia.
  - intros Hf. split; [by split|]. split; [by split|].
    split; [by apply wp_fail|]. split; [by apply wp_fail|]. intros Heq. apply Hclean; [done|].
    destruct Hq as [Hq|[Hq _]]; [done|]. pose proof (holds_fun _ _ _ _ Hh Hq) as ->.
    by rewrite (Hcol ltac:(done)) at 1.
Qed.

Lemma rollback_spec : NoDup (prepared_paths a) -> to_undo d -> undo_wp (rollback_action index a) d.
Proof.
  intros Hnd Hu. unfold rollback_action.
  destruct (pa_kind a) eqn:E; eauto using rollback_create_copy_spec, rollback_move_spec,
    rollback_remove_spec, rollback_replace_spec.
Qed.

End undo.

End one_action.

(** * undoing a whole journal

    [pending v d ps gs]: the journal on [d] records [ps], and undoing them gives the
    view [v].  Rolling back under any faults stays there, and without faults it
    arrives; what an interrupted recovery leaves is recovered by the next one. *)

Section libraries.
Context `{lib : Libraries} `{laws : !LibraryLaws lib}.

(** [transaction.new] is a directory if anything, and what it holds is below directories. *)
Definition preparing_ok (d : Disk) : Prop :=
  (tree d !! Journal Preparing Self = None \/ tree d !! Journal Preparing Self = Some Dir)
  /\ forall s, s <> Self -> tree d !! Journal Preparing s <> None ->
       tree d !! parent (Journal Preparing s) = Some Dir.

Lemma preparing_same d d' :
  (forall s, tree d' !! Journal Preparing s = tree d !! Journal Preparing s) -> preparing_ok d -> preparing_ok d'.
Proof.
  intros He [H1 H2]. split; [by rewrite He|]. intros s Hs. rewrite He. intros Hn.
  specialize (H2 s Hs Hn). by destruct s; cbn [parent] in *; try done; rewrite He.
Qed.

(** A directory that is not there holds nothing. *)
Lemma preparing_none d s : preparing_ok d -> tree d !! Journal Preparing Self = None -> tree d !! Journal Preparing s = None.
Proof.
  intros [_ H] Hn. destruct (tree d !! Journal Preparing s) as [n|] eqn:E; [|done]. exfalso.
  assert (s <> Self) as Hs by (intros ->; congruence).
  assert (forall s, s <> Self -> parent (Journal Preparing s) = Journal Preparing Self ->
            tree d !! Journal Preparing s = None) as Hdirect.
  { intros s' Hs' Hp. destruct (tree d !! Journal Preparing s') as [m|] eqn:E'; [|done].
    specialize (H s' Hs'). rewrite E', Hp, Hn in H. by specialize (H ltac:(done)). }
  specialize (H s Hs). rewrite E in H. specialize (H ltac:(done)).
  destruct s; try (by rewrite Hdirect in E); cbn [parent] in H; by rewrite Hdirect in H.
Qed.

(** The state directory is ash's. *)
Record state_ok (d : Disk) : Prop := mkStateOk {
  st_dir : tree d !! StateDir = Some Dir;
  st_format : holds d FormatFile FORMAT_MARKER;
  st_lock : tree d !! LockFile = None \/ exists i, tree d !! LockFile = Some (File i);
  st_preparing : preparing_ok d;
}.

(** The published manifest, as recovery reads it. *)
Definition has_manifest (d : Disk) (ps : list PreparedAction) : Prop :=
  exists b, holds d (Journal Transaction ManifestFile) b /\ len b <= MAX_MANIFEST_BYTES
            /\ decode_manifest blake3 b = Ok ps.

Record pending (v : View) (d : Disk) (ps : list PreparedAction) (gs : list Ghost) : Prop := mkPending {
  pd_wf : wf d;
  pd_state : state_ok d;
  pd_self : tree d !! Journal Transaction Self = Some Dir;
  pd_dirs : journal_dirs d;
  pd_manifest : has_manifest d ps;
  pd_uncommitted : tree d !! Journal Transaction CommittedFile = None;
  pd_ghosts : length gs = length ps;
  pd_actions : forall i a g, ps !! i = Some a -> gs !! i = Some g -> action_state v d i a g;
  pd_distinct : NoDup (ps ≫= prepared_paths);
  pd_sizes : forall a, a ∈ ps -> sizes_ok a;
  pd_others : forall l, (forall s, s ∈ ps ≫= prepared_paths -> split 47 s <> l) -> view d l = v l;
  pd_sources : forall a s, a ∈ ps -> s ∈ prepared_paths a -> s ∉ changed_paths a ->
    view_at (view d) s = view_at v s;
}.

(** All actions are undone. *)
Definition all_undone (v : View) (d : Disk) (ps : list PreparedAction) : Prop :=
  forall a, a ∈ ps -> undone v d a.

Lemma all_undone_view v d ps gs : pending v d ps gs -> all_undone v d ps -> forall l, view d l = v l.
Proof.
  intros Hp Hu l.
  destruct (decide (Exists (fun s => split 47 s = l) (ps ≫= prepared_paths))) as [H|H].
  - apply list.Exists_exists in H as (s & Hs & <-). apply list_elem_of_bind in Hs as (a & Hs & Ha).
    destruct (decide (s ∈ changed_paths a)) as [Hc|Hc]; [by apply (Hu a)|]. by apply (pd_sources _ _ _ _ Hp a).
  - apply (pd_others _ _ _ _ Hp). intros s Hs <-. apply H, list.Exists_exists. by exists s.
Qed.

(** ** Frames *)

Lemma bind_paths_disjoint (ps : list PreparedAction) i j a b s :
  NoDup (ps ≫= prepared_paths) -> ps !! i = Some a -> ps !! j = Some b -> i <> j ->
  s ∈ prepared_paths a -> s ∉ prepared_paths b.
Proof.
  revert i j. induction ps as [|p ps IH]; intros i j Hn Hi Hj Hij Ha Hb; [done|].
  rewrite bind_cons, list.NoDup_app in Hn. destruct Hn as (_ & Hd & Hn).
  destruct i as [|i], j as [|j]; simplify_eq/=; [| |by eapply (IH i j); eauto].
  - apply (Hd s Ha), list_elem_of_bind. exists b. split; [done|]. by eapply list_elem_of_lookup_2.
  - apply (Hd s Hb), list_elem_of_bind. exists a. split; [done|]. by eapply list_elem_of_lookup_2.
Qed.

Lemma bind_nodup (ps : list PreparedAction) a : NoDup (ps ≫= prepared_paths) -> a ∈ ps -> NoDup (prepared_paths a).
Proof.
  induction ps as [|p ps IH]; [by intros _ ?%elem_of_nil|].
  rewrite bind_cons, list.NoDup_app. intros (Hp & _ & Hn) [->|H]%elem_of_cons; auto.
Qed.

Section moment.
Context (v : View) (d d' : Disk) (ps : list PreparedAction) (gs : list Ghost).
Context (Hp : pending v d ps gs) (i : nat) (a : PreparedAction) (g : Ghost).
Context (Hi : ps !! i = Some a) (Hg : gs !! i = Some g) (Hm : moment i a g d d').

Lemma changed_of s : s ∈ changed_paths a -> s ∈ prepared_paths a.
Proof. apply changed_in. by eapply as_shape, pd_actions. Qed.

Lemma moment_disjoint j b :
  ps !! j = Some b -> i <> j -> forall p, footprint j b p -> ~ footprint i a p.
Proof.
  intros Hj Hij p. apply footprint_disjoint; [done|]. intros s Hs Ha.
  destruct (lookup_lt_is_Some_2 gs j) as [g' Hg'].
  { rewrite (pd_ghosts _ _ _ _ Hp). by eapply lookup_lt_Some. }
  apply (bind_paths_disjoint ps j i b a s (pd_distinct _ _ _ _ Hp)); [done|done|done| |by apply changed_of].
  apply changed_in; [|done]. by eapply as_shape, pd_actions.
Qed.

Lemma moment_tree n s :
  (forall k, s <> StageFile k /\ s <> RemovedFile k) -> tree d' !! Journal n s = tree d !! Journal n s.
Proof.
  intros Hs. apply (to_other _ _ _ (proj1 Hm)). intros [H|[H|(t & _ & H)]]; [| |done].
  - injection H as _ ->. by destruct (Hs i) as [? _].
  - injection H as _ ->. by destruct (Hs i) as [_ ?].
Qed.

Lemma moment_undone j b : ps !! j = Some b -> i <> j -> undone v d b -> undone v d' b.
Proof.
  intros Hj Hij. eapply undone_frame; [apply Hp|apply Hm|]. intros s Hs.
  apply (moment_disjoint j b Hj Hij). by apply footprint_path.
Qed.

Lemma moment_pending : pending v d' ps gs.
Proof.
  pose proof (proj1 Hm) as Ht. pose proof Hp as [Hw [S1 S2 S3 S4] Hself [J1 J2] (mb & (mi & M1 & M2) & Hm') Hunc Hl Ha Hn Hz Ho Hsrc].
  assert (forall p, p = StateDir \/ p = FormatFile \/ p = LockFile -> tree d' !! p = tree d !! p) as Hst.
  { intros p H. apply (to_other _ _ _ Ht). unfold footprint, stage_of, removed_of, place_of.
    intros [->|[->|(t & _ & ->)]]; naive_solver. }
  assert (forall s, (forall k, s <> StageFile k /\ s <> RemovedFile k) -> forall n,
            tree d' !! Journal n s = tree d !! Journal n s) as Hj by (intros; by apply moment_tree).
  split; try done.
  - apply Ht.
  - split.
    + rewrite Hst by auto. done.
    + destruct S2 as (k & H1 & H2). exists k. rewrite Hst by auto. split; [done|].
      eapply lookup_weaken; [done|apply Ht].
    + rewrite Hst by auto. done.
    + apply (preparing_same d); [|done]. intros s. apply (to_other _ _ _ Ht).
      unfold footprint, stage_of, removed_of, place_of. intros [|[|(t & _ & ?)]]; done.
  - by rewrite Hj.
  - split; by rewrite Hj.
  - exists mb. split; [|done]. exists mi. rewrite Hj by done. split; [done|]. eapply lookup_weaken; [done|apply Ht].
  - by rewrite Hj.
  - intros j b g' Hjb Hjg. destruct (decide (i = j)) as [<-|Hij].
    + assert (b = a) as -> by congruence. assert (g' = g) as -> by congruence. destruct (Ha i a g Hi Hg) as [? ? ? ?].
      split; [done|done|by eapply paths_ok_touches|apply Hm].
    + eapply action_state_frame; [exact Ht|by apply (moment_disjoint j)|by apply Ha].
  - intros l Hl'. rewrite (view_touches (footprint i a) d d'); [by apply Ho|done|done|].
    intros [H|[H|(t & Hin & H)]]; [done|done|]. injection H as ->.
    apply (Hl' t); [|done]. apply list_elem_of_bind. exists a.
    split; [by apply changed_of|by eapply list_elem_of_lookup_2].
  - intros b s Hb Hs Hc. rewrite <- (Hsrc b s Hb Hs Hc). apply (view_touches (footprint i a)); [done|done|].
    intros [H|[H|(t & Hin & H)]]; [done|done|]. apply (place_of_inj s) in H as <-.
    apply list_elem_of_lookup_1 in Hb as [j Hj'].
    destruct (decide (i = j)) as [<-|Hij]; [simplify_eq; done|].
    eapply (bind_paths_disjoint ps i j); eauto. by apply changed_of.
Qed.

End moment.

(** ** Rolling back *)

(** The row says that the action did not happen, so it is not looked at. *)
Definition known_not_applied (rows : option (list FileActionOutcome)) (i : nat) : Prop :=
  row_state rows i = Some AS_Conflict \/ row_state rows i = Some AS_Skipped.

(** The row no longer claims that the action is in place or in doubt. *)
Definition row_settled (rows : option (list FileActionOutcome)) (i : nat) : Prop :=
  row_state rows i <> Some AS_Committed /\ row_state rows i <> Some AS_RecoveryRequired.

Lemma set_row_other i j st dg rows : i <> j ->
  row_state (set_row i st dg <$> rows) j = row_state rows j.
Proof. intros Hij. destruct rows as [rows|]; [|done]. cbn. unfold set_row. by rewrite list_lookup_insert_ne. Qed.

Lemma set_row_same i st dg rows s : row_state (set_row i st dg <$> rows) i = Some s -> s = st.
Proof.
  destruct rows as [rows|]; [|done]. cbn. unfold set_row.
  destruct (decide (i < length rows)%nat).
  - rewrite list_lookup_insert_eq by done. by intros [= <-].
  - rewrite list_insert_ge, lookup_ge_None_2 by lia. done.
Qed.

Section rollback.
Context (env : Environment) (v : View) (ps : list PreparedAction) (gs : list Ghost).

(** What rolling back the actions that [who] selects leaves. *)
Record rolled (who : nat -> Prop) (d : Disk) (rows : option (list FileActionOutcome)) (d' : Disk)
    (r : option (list FileActionOutcome) * bool) : Prop := mkRolled {
  ro_pending : pending v d' ps gs;
  ro_others : forall j b, ps !! j = Some b -> ~ who j -> undone v d b -> undone v d' b;
  ro_rows : forall j, ~ who j -> row_state r.1 j = row_state rows j;
  ro_undone : r.2 = false -> forall j b, ps !! j = Some b -> who j -> undone v d' b;
  ro_settled : r.2 = false -> forall j, who j -> row_settled r.1 j;
  ro_fault : r.2 = true -> ~ fine env;
  ro_reported : is_Some rows -> is_Some r.1;
}.

Definition rolled_wp (who : nat -> Prop) d rows (m : io PlatformError (option (list FileActionOutcome) * bool)) d0 : Prop :=
  wp env m (fun r d' => rolled who d rows d' r) (fun _ _ => False)
     (fun d' => ~ fine env /\ pending v d' ps gs) true d0.

Lemma turn_spec d rows i a :
  pending v d ps gs -> ps !! i = Some a -> (known_not_applied rows i -> undone v d a) ->
  rolled_wp (eq i) d rows (rollback_turn i a rows) d.
Proof.
  intros Hp Hi Hrow.
  destruct (lookup_lt_is_Some_2 gs i) as [g Hg].
  { rewrite (pd_ghosts _ _ _ _ Hp). by eapply lookup_lt_Some. }
  pose proof (pd_actions _ _ _ _ Hp i a g Hi Hg) as Ha.
  assert (a ∈ ps) as Hin by by eapply list_elem_of_lookup_2.
  pose proof (pd_sizes _ _ _ _ Hp a Hin) as Hz.
  (* The disk is unchanged and the action is undone already. *)
  assert (undone v d a -> rolled_wp (eq i) d rows
    (mret (match row_state rows i with
           | Some (AS_Committed | AS_RecoveryRequired) => set_row i AS_RolledBack (rollback_digest a) <$> rows
           | _ => rows end, false)) d) as Hnot.
  { intros Hu. apply wp_ret. split; try done.
    - intros j Hj. cbn [fst]. destruct (row_state rows i) as [[]|]; try done; by apply set_row_other.
    - intros _ j b Hj <-. by assert (b = a) as -> by congruence.
    - intros _ j <-. unfold row_settled. cbn [fst].
      destruct (row_state rows i) as [[]|] eqn:E; rewrite ?E; try done;
        split; by intros ?%set_row_same.
    - intros Hs. cbn [fst]. destruct (row_state rows i) as [[]|]; try done; by apply fmap_is_Some. }
  (* Something went wrong with it. *)
  assert (forall d', pending v d' ps gs -> ~ fine env ->
    (forall j b, ps !! j = Some b -> i <> j -> undone v d b -> undone v d' b) ->
    rolled_wp (eq i) d rows (mret (set_row i AS_RecoveryRequired (pa_digest a) <$> rows, true)) d') as Hbad.
  { intros d' Hp' Hf Hu. apply wp_ret. split; try done; [intros j Hj; by apply set_row_other|by intros ?; apply fmap_is_Some]. }
  assert (rolled_wp (eq i) d rows
    (state ← try (applied_state i a);
     match state with
     | Ok NotApplied =>
         mret (match row_state rows i with
               | Some (AS_Committed | AS_RecoveryRequired) =>
                   set_row i AS_RolledBack (rollback_digest a) <$> rows
               | _ => rows end, false)
     | Ok Indeterminate | Err _ =>
         mret (set_row i AS_RecoveryRequired (pa_digest a) <$> rows, true)
     | Ok (Applied | Linked) =>
         r ← try (rollback_action i a);
         match r with
         | Ok _ => mret (set_row i AS_RolledBack (rollback_digest a) <$> rows, false)
         | Err _ => mret (set_row i AS_RecoveryRequired (pa_digest a) <$> rows, true)
         end
     end) d) as Hask.
  { destruct (found_state v i a g d (pd_wf _ _ _ _ Hp) Hz Ha) as (st & Hst & Hfound).
    apply wp_bind, wp_try. apply (wp_answers _ _ _ _ _ _ _ _ Hst).
    2: { intros e H. apply Hbad; [done| |done]. intros Hf. discriminate (H Hf). }
    2: done.
    intros st' [= <-]. destruct Hfound as [[-> Hu]|[Hst' Hu]]; [by apply Hnot|].
    assert (rolled_wp (eq i) d rows
      (r ← try (rollback_action i a);
       match r with
       | Ok _ => mret (set_row i AS_RolledBack (rollback_digest a) <$> rows, false)
       | Err _ => mret (set_row i AS_RecoveryRequired (pa_digest a) <$> rows, true)
       end) d) as Hroll; [|by destruct Hst' as [-> | ->]].
    assert (NoDup (prepared_paths a)) as Hnd by (by eapply bind_nodup; [apply Hp|]).
    pose proof (rollback_spec v i a g env d (pd_wf _ _ _ _ Hp) Hz Ha (pd_dirs _ _ _ _ Hp) Hnd Hu) as Hspec.
    apply wp_bind, wp_try. eapply wp_mono; [apply Hspec| | |].
    - intros [] d' [Hm Hund]. apply wp_ret. split; try done.
      + by eapply moment_pending.
      + intros j b Hj Hij. by eapply (moment_undone v d d' ps gs Hp i a g Hi Hg Hm).
      + intros j Hj. by apply set_row_other.
      + intros _ j b Hj <-. by assert (b = a) as -> by congruence.
      + intros _ j <-. split; by intros ?%set_row_same.
      + by intros ?; apply fmap_is_Some.
    - intros e d' [Hf Hm]. apply Hbad; [by eapply moment_pending|done|].
      intros j b Hj Hij. by eapply (moment_undone v d d' ps gs Hp i a g Hi Hg Hm).
    - intros d' [Hf Hm]. split; [done|]. by eapply moment_pending. }
  unfold rollback_turn.
  destruct (row_state rows i) as [[]|] eqn:Er; try exact Hask.
  all: apply wp_bind, wp_ret; apply Hnot, Hrow; unfold known_not_applied; rewrite Er; auto.
Qed.

(** The loop, from the last action to the first of [suf]. *)
Lemma from_spec suf pre d rows :
  ps = pre ++ suf -> pending v d ps gs ->
  (forall j b, ps !! j = Some b -> known_not_applied rows j -> undone v d b) ->
  rolled_wp (fun j => (length pre <= j < length ps)%nat) d rows (rollback_from (length pre) suf rows) d.
Proof.
  revert pre d rows. induction suf as [|a suf IH]; intros pre d rows Hps Hp Hrow; cbn [rollback_from].
  - rewrite app_nil_r in Hps. assert (length ps = length pre) by (by rewrite Hps). apply wp_ret. split; try done; intros; lia.
  - assert (length (pre ++ [a]) = S (length pre)) as Hlen by (rewrite length_app; cbn; lia).
    apply wp_bind. rewrite <- Hlen.
    eapply wp_mono; [apply (IH (pre ++ [a])); [by rewrite <- app_assoc|done|done]| |done|done].
    intros r d' [Hp' Ho Hr Hu Hs Hf Hrep]. rewrite Hlen in *. apply wp_bind.
    assert (ps !! length pre = Some a) as Hi by (rewrite Hps; apply list_lookup_middle; done).
    eapply wp_mono; [apply (turn_spec d' r.1 _ a Hp' Hi)| |done|done].
    { intros Hk. apply (Ho (length pre) a Hi); [lia|]. apply (Hrow (length pre) a Hi).
      unfold known_not_applied in *. rewrite Hr in Hk by lia. done. }
    intros t d'' [Hp'' Ho' Hr' Hu' Hs' Hf' Hrep']. apply wp_ret. split; cbn [fst snd].
    + done.
    + intros j b Hj Hn Hb. assert (j < length ps)%nat by by eapply lookup_lt_Some.
      apply (Ho' j b Hj); [lia|]. apply (Ho j b Hj); [lia|done].
    + intros j Hn. rewrite Hr'; [apply Hr; lia|]. intros <-.
      apply Hn. split; [lia|]. by eapply lookup_lt_Some.
    + intros [H1 H2]%orb_false_iff j b Hj Hle. destruct (decide (length pre = j)) as [<-|Hne].
      * by apply (Hu' H2 (length pre) b).
      * apply (Ho' j b Hj); [done|]. apply (Hu H1 j b Hj). lia.
    + intros [H1 H2]%orb_false_iff j Hle. destruct (decide (length pre = j)) as [<-|Hne].
      * by apply (Hs' H2).
      * unfold row_settled. rewrite Hr' by done. apply (Hs H1). lia.
    + intros [H|H]%orb_true_iff; auto.
    + auto.
Qed.

(** Rolling back everything: without faults, all actions are undone. *)
Lemma rollback_locked_spec d rows :
  pending v d ps gs -> (forall j b, ps !! j = Some b -> known_not_applied rows j -> undone v d b) ->
  wp env (rollback_locked ps rows)
     (fun r d' => pending v d' ps gs /\ (r.2 = true -> ~ fine env)
        /\ (r.2 = false -> all_undone v d' ps /\ forall j, (j < length ps)%nat -> row_settled r.1 j)
        /\ (is_Some rows -> is_Some r.1))
     (fun _ _ => False) (fun d' => ~ fine env /\ pending v d' ps gs) true d.
Proof.
  intros Hp Hrow. eapply wp_mono; [apply (from_spec ps []); done| |done|done].
  cbn [length]. intros r d' [Hp' _ _ Hu Hs Hf Hrep]. split; [done|]. split; [done|]. split; [|done].
  intros Hr2. split.
  - intros a [j Hj]%list_elem_of_lookup_1. apply (Hu Hr2 j a Hj). apply lookup_lt_Some in Hj. lia.
  - intros j Hj. apply (Hs Hr2). lia.
Qed.

End rollback.

End libraries.
