(* ===== verification/Durable.v ===== *)
(** * Durable: the disks between two runs of ash

    [stands v d]: the disk [d] stands for the workspace [v], whatever was running when
    it was left.  Either no journal is there and the workspace is [v]; or a journal
    is pending and undoing it gives [v]; or a journal is committed and the workspace
    is [v] already.  Recovery keeps this under any faults and, without faults, ends
    with no journal. *)

From S2P Require Import Prelude Text Workspace Manifest Disk Mutation Transaction JournalState.
From S2P Require Import RollbackFacts.

(** No call of [remove_dir_all] on a published journal is cut short. *)
Definition whole_removals (env : Environment) : Prop :=
  forall n l, faults env n (RemoveTree Transaction) <> Refused (Gone l)
              /\ faults env n (RemoveTree Transaction) <> Halted (Gone l).

Lemma lookup_drop_journal n t p :
  drop_journal n t !! p = if in_journal n p then None else t !! p.
Proof.
  unfold drop_journal. destruct (in_journal n p) eqn:E.
  - apply map_lookup_filter_None. right. intros x _. cbn. congruence.
  - destruct (t !! p) as [x|] eqn:Et.
    + by apply map_lookup_filter_Some.
    + apply map_lookup_filter_None. by left.
Qed.

Definition dropped (n : JournalName) (d : Disk) : Disk := set_tree (drop_journal n (tree d)) d.

(** What a removal that is cut short may leave: some entries of that journal less. *)
Lemma remove_torn_tree n t d p :
  tree (remove_torn n t d) !! p = tree d !! p
  \/ (in_journal n p = true /\ tree (remove_torn n t d) !! p = None).
Proof.
  destruct t as [| |l|]; cbn [remove_torn]; auto.
  - cbn. generalize (tree d). induction l as [|s l IH]; intros t; cbn [fold_left]; [by left|].
    assert (remove_slot n t s = t \/ remove_slot n t s = delete (Journal n s) t) as [-> | ->]; [|apply IH|].
    { unfold remove_slot. destruct (removable n s t); auto. }
    destruct (IH (delete (Journal n s) t)) as [H|[Hn H]]; [|by right].
    destruct (decide (p = Journal n s)) as [->|Hne].
    + right. split; [cbn; by rewrite bool_decide_true|]. by rewrite H, lookup_delete_eq.
    + left. by rewrite H, lookup_delete_ne.
  - cbn. rewrite lookup_drop_journal. destruct (in_journal n p); auto.
Qed.

Lemma remove_torn_data n t d : data (remove_torn n t d) = data d.
Proof. by destruct t. Qed.

(** A removal that is cut short leaves nothing without its directory. *)
Lemma remove_torn_preparing t d : preparing_ok d -> preparing_ok (remove_torn Preparing t d).
Proof.
  intros Hp. destruct t as [| |l|]; cbn [remove_torn]; auto.
  - revert d Hp. induction l as [|s l IH]; intros d Hp; cbn [fold_left]; [by destruct d|].
    apply (IH (set_tree (remove_slot Preparing (tree d) s) d)).
    unfold remove_slot. destruct (removable Preparing s (tree d)) eqn:E; [|by destruct d].
    apply bool_decide_eq_true in E. destruct Hp as [H1 H2]. split; cbn.
    + destruct (decide (s = Self)) as [->|Hs]; [left; apply lookup_delete_eq|].
      by rewrite lookup_delete_ne by congruence.
    + intros s' Hs' Hn. destruct (decide (s = s')) as [<-|Hne]; [by rewrite lookup_delete_eq in Hn|].
      rewrite lookup_delete_ne in Hn by congruence. specialize (H2 s' Hs' Hn).
      rewrite lookup_delete_ne; [done|]. intros Heq.
      destruct (tree d !! Journal Preparing s') as [n|] eqn:E'; [|done].
      by apply (E _ _ E').
  - split; [left|intros s _]; cbn; rewrite lookup_drop_journal; cbn; by rewrite bool_decide_true.
Qed.

(** The removal is done, or a fault leaves part of it. *)
Lemma wp_remove env n b d (Qd : unit -> Disk -> Prop) (Qe : PlatformError -> Disk -> Prop) (Qc : Disk -> Prop) :
  tree d !! Journal n Self = Some Dir -> Qd tt (dropped n d) ->
  (~ fine env -> forall t, (forall l, n = Transaction -> whole_removals env -> t <> Gone l) ->
     Qe (PL_Io OtherIo) (remove_torn n t d) /\ Qc (remove_torn n t d)) ->
  wp env (remove_directory_if_present n) Qd Qe Qc b d.
Proof.
  intros Hs Hd Hf. unfold remove_directory_if_present, remove_dir_all.
  apply wp_bind, wp_try, wp_attempt.
  - intros u d' H. rewrite Hs in H. injection H as <- <-. by apply wp_ret.
  - intros e H. by rewrite Hs in H.
  - intros k t H. apply wp_fail. apply (Hf (not_fine_refused _ _ _ _ H)).
    intros l -> Hw ->. by apply (Hw k l) in H.
  - intros k t H. apply (Hf (not_fine_halted _ _ _ _ H)).
    intros l -> Hw ->. by apply (Hw k l) in H.
Qed.

Section libraries.
Context `{lib : Libraries} `{laws : !LibraryLaws lib}.

(** ** Disks between runs *)

Definition lock_ok (d : Disk) : Prop :=
  tree d !! LockFile = None \/ exists i, tree d !! LockFile = Some (File i).

Definition no_journal (d : Disk) : Prop := forall s, tree d !! Journal Transaction s = None.

Record quiet (v : View) (d : Disk) : Prop := mkQuiet {
  q_wf : wf d;
  q_none : no_journal d;
  q_preparing : preparing_ok d;
  q_lock : lock_ok d;
  q_view : forall l, view d l = v l;
}.

Record committed (v : View) (d : Disk) : Prop := mkCommitted {
  cm_wf : wf d;
  cm_state : state_ok d;
  cm_self : tree d !! Journal Transaction Self = Some Dir;
  cm_dirs : journal_dirs d;
  cm_manifest : exists ps, has_manifest d ps;
  cm_marker : holds d (Journal Transaction CommittedFile) COMMITTED_MARKER;
  cm_view : forall l, view d l = v l;
}.

Inductive stands (v : View) (d : Disk) : Prop :=
| stands_quiet (Hq : quiet v d)
| stands_pending ps gs (Hp : pending v d ps gs)
| stands_committed (Hc : committed v d).

(** ** Changes outside the workspace and the journal *)

Definition outer (p : Place) : Prop := in_journal Preparing p = true \/ p = LockFile.

Lemma outer_format : ~ outer FormatFile /\ ~ outer StateDir.
Proof. unfold outer. split; intros [?|?]; done. Qed.

Section outer.
Context (d d' : Disk) (Ht : touches outer d d') (Hprep : preparing_ok d') (Hlock : lock_ok d').

Lemma outer_tree p : in_journal Preparing p = false -> p <> LockFile -> tree d' !! p = tree d !! p.
Proof. intros H1 H2. apply (to_other _ _ _ Ht). unfold outer. intros [?|?]; congruence. Qed.

Lemma outer_holds p c : in_journal Preparing p = false -> p <> LockFile -> holds d p c -> holds d' p c.
Proof. intros H1 H2. apply (holds_touches outer); [done|]. unfold outer. intros [?|?]; congruence. Qed.

Lemma outer_view l : wf d -> view d' l = view d l.
Proof. intros Hw. apply (view_touches outer); [done|done|]. by intros [?|?]. Qed.

Lemma state_outer : state_ok d -> state_ok d'.
Proof.
  intros [H1 H2 _ _]. split; [by rewrite outer_tree|by apply outer_holds|done|done].
Qed.

Lemma dirs_outer : journal_dirs d -> journal_dirs d'.
Proof. intros [H1 H2]. split; by rewrite outer_tree. Qed.

Lemma manifest_outer ps : has_manifest d ps -> has_manifest d' ps.
Proof. intros (b & Hb & H). exists b. split; [by apply outer_holds|done]. Qed.

Lemma pending_outer v ps gs : pending v d ps gs -> pending v d' ps gs.
Proof.
  intros [Hw Hs Hself Hj Hm Hu Hl Ha Hn Hz Ho Hsrc]. split; try done.
  - apply Ht.
  - by apply state_outer.
  - by rewrite outer_tree.
  - by apply dirs_outer.
  - by apply manifest_outer.
  - by rewrite outer_tree.
  - intros i a g Hi Hg. eapply action_state_frame; [exact Ht| |by apply Ha].
    intros p [->|[->|(s & _ & ->)]]; intros [?|?]; done.
  - intros l H. rewrite outer_view by done. by apply Ho.
  - intros a s H1 H2 H3. unfold view_at. rewrite outer_view by done. by apply (Hsrc a).
Qed.

Lemma quiet_outer v : quiet v d -> quiet v d'.
Proof.
  intros [Hw Hn _ _ Hv]. split; [apply Ht| |done|done|].
  - intros s. by rewrite outer_tree.
  - intros l. by rewrite outer_view.
Qed.

Lemma stands_outer v : stands v d -> stands v d'.
Proof.
  intros [Hq|ps gs Hp|[Hw Hs Hself Hj [ps Hm] Hc Hv]].
  - by apply stands_quiet, quiet_outer.
  - by eapply stands_pending, pending_outer.
  - apply stands_committed. split.
    + apply Ht.
    + by apply state_outer.
    + by rewrite outer_tree.
    + by apply dirs_outer.
    + exists ps. by apply manifest_outer.
    + by apply outer_holds.
    + intros l. by rewrite outer_view.
Qed.

End outer.

(** Removing a journal in preparation, wholly or partly. *)
Lemma outer_removed t v d : stands v d -> wf d -> preparing_ok d -> lock_ok d ->
  let d' := remove_torn Preparing t d in
  stands v d' /\ preparing_ok d' /\ lock_ok d' /\ touches outer d d'.
Proof.
  intros Hs Hw Hp Hl d'. pose proof (remove_torn_tree Preparing t d) as Htree.
  assert (forall p, in_journal Preparing p = false -> tree d' !! p = tree d !! p) as Hother.
  { intros p Hn. destruct (Htree p) as [|[H _]]; [done|congruence]. }
  assert (touches outer d d') as Ht.
  { split.
    - split; [rewrite Hother by done; apply Hw|]. intros p i Hpi. unfold d'. rewrite remove_torn_data.
      destruct (Htree p) as [H|[_ H]]; unfold d' in Hpi; rewrite H in Hpi; [by eapply wf_data|done].
    - intros p Hn. apply Hother. destruct (in_journal Preparing p) eqn:E; [|done]. destruct Hn. by left.
    - intros p Hj H. by rewrite Hother.
    - unfold d'. by rewrite remove_torn_data. }
  assert (preparing_ok d') as Hp' by by apply remove_torn_preparing.
  assert (lock_ok d') as Hl' by (unfold lock_ok; by rewrite Hother).
  split; [by eapply stands_outer|done].
Qed.


(** ** Removing a published journal *)

Lemma dropped_other n d p : in_journal n p = false -> tree (dropped n d) !! p = tree d !! p.
Proof. intros H. cbn. by rewrite lookup_drop_journal, H. Qed.

Lemma dropped_quiet v d :
  wf d -> state_ok d -> (forall l, view d l = v l) ->
  quiet v (dropped Transaction d) /\ state_ok (dropped Transaction d).
Proof.
  intros Hw [H1 (i & H2 & H2') H3 H4] Hv. split; split.
  - split; [rewrite dropped_other by done; apply Hw|]. intros p j Hp. cbn in Hp.
    rewrite lookup_drop_journal in Hp. destruct (in_journal Transaction p); [done|]. by apply (wf_data d Hw p).
  - intros s. cbn. rewrite lookup_drop_journal. cbn. by rewrite bool_decide_true.
  - apply (preparing_same d); [|done]. intros s. by apply dropped_other.
  - unfold lock_ok. by rewrite dropped_other.
  - intros l. rewrite <- Hv. unfold view. by rewrite dropped_other.
  - by rewrite dropped_other.
  - exists i. by rewrite dropped_other.
  - by rewrite dropped_other.
  - apply (preparing_same d); [|done]. intros s. by apply dropped_other.
Qed.

Section run.
Context (env : Environment) (Hwhole : whole_removals env) (v : View).

(** A computation that ends with no journal, or is at fault and still stands. *)
Definition clears {A} (m : io PlatformError A) (d : Disk) : Prop :=
  wp env m (fun _ d' => quiet v d' /\ state_ok d')
     (fun _ d' => ~ fine env /\ stands v d' /\ state_ok d')
     (fun d' => ~ fine env /\ stands v d' /\ state_ok d') true d.

Lemma remove_journal_clears d :
  wf d -> state_ok d -> stands v d -> (forall l, view d l = v l) ->
  tree d !! Journal Transaction Self = Some Dir -> clears remove_journal d.
Proof.
  intros Hw Hs Hst Hv Hself. destruct (dropped_quiet v d Hw Hs Hv) as [Hq Hs'].
  unfold clears, remove_journal. apply wp_bind, wp_remove; [done| |].
  - eapply wp_done; [apply answers_io; by eapply answers_sync, Hs'| |].
    + by split.
    + intros Hf. split; [intros e|]; (split; [done|]; split; [by apply stands_quiet|done]).
  - intros Hf t Ht. assert (forall l, t <> Gone l) as Hn by (intros; by apply Ht).
    assert (stands v (remove_torn Transaction t d) /\ state_ok (remove_torn Transaction t d)) as [].
    { destruct t; cbn [remove_torn]; try done; [by destruct (Hn slots)|]. split; [by apply stands_quiet|done]. }
    done.
Qed.

Lemma answers_directory p d b :
  tree d !! p = None \/ tree d !! p = Some Dir ->
  answers (internal_directory_exists p) b d (Done (match tree d !! p with None => false | _ => true end)).
Proof.
  intros H. unfold internal_directory_exists. eapply answers_match_stat; [done|].
  unfold stat. destruct H as [-> | ->]; cbn; apply answers_ret.
Qed.

Lemma answers_require p d b : tree d !! p = Some Dir -> answers (require_internal_directory p) b d (Done tt).
Proof.
  intros H. unfold require_internal_directory. eapply answers_bind; [apply answers_directory; by right|].
  rewrite H. apply answers_ret.
Qed.

(** Reading what the journal says it will do. *)
Lemma answers_manifest d ps :
  has_manifest d ps ->
  exists b, answers (read_regular_bounded (Journal Transaction ManifestFile) MAX_MANIFEST_BYTES) true d (Done b)
            /\ decode_manifest blake3 b = Ok ps.
Proof. intros (b & Hb & Hl & Hd). exists b. split; [by apply answers_read_regular|done]. Qed.

(** From an existing journal on. *)
Definition recover_journal : io PlatformError bool :=
  _ ← require_internal_directory (Journal Transaction StageDir);
  _ ← require_internal_directory (Journal Transaction RemovedDir);
  b ← read_regular_bounded (Journal Transaction ManifestFile) MAX_MANIFEST_BYTES;
  prepared ← lift (decode_manifest blake3 b);
  m ← try (symlink_metadata (Journal Transaction CommittedFile));
  match m with
  | Ok _ =>
      marker ← read_regular_bounded (Journal Transaction CommittedFile) (len COMMITTED_MARKER);
      if negb (bool_decide (marker = COMMITTED_MARKER)) then fail PL_JournalCorrupt
      else
        _ ← remove_journal; mret true
  | Err NotFound =>
      r ← rollback_locked prepared None;
      if r.2 : bool then fail PL_RecoveryRequired
      else
        _ ← remove_journal; mret true
  | Err e => fail (PL_Io e)
  end.

Lemma clears_bind {B} (m : io PlatformError B) (k : B -> io PlatformError bool) d x :
  answers m true d (Done x) -> stands v d -> state_ok d -> clears (k x) d -> clears (m ≫= k) d.
Proof. intros Hm Hs Ho Hk. eapply wp_bind_done; [done| |done]. intros Hf. split; [intros e|]; (split; [exact Hf|by split]). Qed.

Lemma clears_return d (b : bool) : clears remove_journal d -> clears (_ ← remove_journal; mret b) d.
Proof.
  intros H. apply wp_bind. eapply wp_mono; [exact H| |done|done]. intros u d' Hq. by apply wp_ret.
Qed.

Lemma recover_pending_clears d ps gs : pending v d ps gs -> clears recover_journal d.
Proof.
  intros Hp. pose proof (pd_state _ _ _ _ Hp) as Hs. pose proof (pd_dirs _ _ _ _ Hp) as Hj.
  assert (stands v d) as Hst by by eapply stands_pending.
  destruct (answers_manifest d ps (pd_manifest _ _ _ _ Hp)) as (b & Hb & Hdec). unfold recover_journal.
  eapply clears_bind; [apply answers_require, Hj|done|done|].
  eapply clears_bind; [apply answers_require, Hj|done|done|].
  eapply clears_bind; [done|done|done|]. eapply clears_bind; [by apply answers_lift_ok|done|done|].
  eapply wp_match_stat; [done| |done]. unfold stat. rewrite (pd_uncommitted _ _ _ _ Hp).
  apply wp_bind. eapply wp_mono.
  - apply (rollback_locked_spec env v ps gs d None Hp). by intros j c _ [?|?].
  - intros r d' (Hp' & Hf & Hu & _). destruct r.2.
    + apply wp_fail. split; [auto|]. split; [by eapply stands_pending|apply Hp'].
    + apply clears_return, remove_journal_clears; [apply Hp'|apply Hp'|by eapply stands_pending| |apply Hp'].
      eapply all_undone_view; [done|by apply Hu].
  - done.
  - intros d' [Hf Hp']. split; [done|]. split; [by eapply stands_pending|apply Hp'].
Qed.

Lemma recover_committed_clears d : committed v d -> clears recover_journal d.
Proof.
  intros Hc. pose proof Hc as [Hw Hs Hself Hj [ps Hm] Hmark Hv].
  assert (stands v d) as Hst by by apply stands_committed.
  destruct (answers_manifest d ps Hm) as (b & Hb & Hdec). unfold recover_journal.
  eapply clears_bind; [apply answers_require, Hj|done|done|].
  eapply clears_bind; [apply answers_require, Hj|done|done|].
  eapply clears_bind; [done|done|done|]. eapply clears_bind; [by apply answers_lift_ok|done|done|].
  eapply wp_match_stat; [done| |done].
  destruct (holds_stat _ _ _ Hmark) as (i & _ & ->).
  eapply clears_bind; [by apply (answers_read_regular d _ COMMITTED_MARKER)|done|done|].
  rewrite bool_decide_true by done. cbn [negb]. by apply clears_return, remove_journal_clears.
Qed.

(** Recovery, from any disk that ash leaves. *)
Lemma recover_locked_clears d : stands v d -> state_ok d -> clears recover_locked d.
Proof.
  intros Hst Hs. unfold recover_locked.
  assert (wf d) as Hw by (destruct Hst as [[]|? ? []|[]]; done).
  eapply clears_bind; [apply answers_directory, Hs|done|done|].
  (* What is left once [transaction.new] is gone. *)
  assert (forall d b, stands v d -> state_ok d -> clears
    (has_transaction ← internal_directory_exists (Journal Transaction Self);
     if negb has_transaction then mret b else recover_journal) d) as Hrest.
  { clear d Hst Hs Hw. intros d b Hst Hs. destruct Hst as [Hq|ps gs Hp|Hc].
    - pose proof (q_none _ _ Hq Self) as Hn.
      eapply clears_bind; [apply answers_directory; by left|by apply stands_quiet|done|].
      rewrite Hn. cbn [negb]. by apply wp_ret.
    - pose proof (pd_self _ _ _ _ Hp) as Hself.
      eapply clears_bind; [apply answers_directory; by right|by eapply stands_pending|done|].
      rewrite Hself. cbn [negb]. by eapply recover_pending_clears.
    - pose proof (cm_self _ _ Hc) as Hself.
      eapply clears_bind; [apply answers_directory; by right|by apply stands_committed|done|].
      rewrite Hself. cbn [negb]. by apply recover_committed_clears. }
  destruct (tree d !! Journal Preparing Self) as [n|] eqn:E; [|apply wp_bind, wp_ret; by apply Hrest].
  pose proof (outer_removed Everything v d Hst Hw (st_preparing _ Hs) (st_lock _ Hs)) as Hev.
  destruct Hev as (Hst1 & Hp1 & Hl1 & Ht1).
  apply wp_bind, wp_remove.
  - destruct (proj1 (st_preparing _ Hs)); congruence.
  - apply Hrest; [done|]. by eapply state_outer.
  - intros Hf t _. destruct (outer_removed t v d Hst Hw (st_preparing _ Hs) (st_lock _ Hs)) as (H1 & H2 & H3 & H4).
    assert (state_ok (remove_torn Preparing t d)) by by eapply state_outer. done.
Qed.

End run.

End libraries.

(** ** Opening a workspace, its locks and its state directory

    [Workspace_new] tells ash's state directory from another one; the locks make the
    state directory if there is none.  Recovery of a workspace that was just opened
    always succeeds without faults, and under faults leaves what it found. *)

(** A postcondition that sees the [internal_state] flag; [R] holds whenever the
    computation does not return. *)
Definition wpi {E A} (env : Environment) (m : io E A) (Q : A -> bool -> Disk -> Prop)
    (R : option E -> Disk -> Prop) (b : bool) (d : Disk) : Prop :=
  forall calls polls,
    match m env (mkWorld d b calls polls) with
    | (Done a, w) => Q a (w_internal w) (w_disk w)
    | (Fail_ e, w) => R (Some e) (w_disk w)
    | (Crash, w) => R None (w_disk w)
    end.

Lemma wpi_wp {E A} env (m : io E A) (Q : A -> bool -> Disk -> Prop) R b d :
  wp env m (fun a => Q a b) (fun e => R (Some e)) (R None) b d -> wpi env m Q R b d.
Proof.
  intros H c p. specialize (H c p). destruct (m env _) as [[a|e|] w]; [|apply H|exact H].
  destruct H as [E' H]. by rewrite E'.
Qed.

Lemma wpi_bind {E A B} env (m : io E B) (k : B -> io E A) (Q : A -> bool -> Disk -> Prop) R b d :
  wpi env m (fun x b' d' => wpi env (k x) Q R b' d') R b d -> wpi env (m ≫= k) Q R b d.
Proof.
  intros H c p. unfold mbind, io_bind. specialize (H c p).
  destruct (m env _) as [[x|e|] [d' b' c' p']]; cbn in *; [apply H|done|done].
Qed.

Lemma wpi_set_internal {E} env (Q : unit -> bool -> Disk -> Prop) (R : option E -> Disk -> Prop) x b d :
  Q tt x d -> wpi env (set_internal x) Q R b d.
Proof. intros H c p. done. Qed.

Lemma wpi_mono {E A} env (m : io E A) (Q Q' : A -> bool -> Disk -> Prop) (R R' : option E -> Disk -> Prop) b d :
  wpi env m Q R b d -> (forall a b d, Q a b d -> Q' a b d) -> (forall o d, R o d -> R' o d) ->
  wpi env m Q' R' b d.
Proof. intros H HQ HR c p. specialize (H c p). destruct (m env _) as [[a|e|] w]; auto. Qed.

Lemma wpi_get_internal {E A} env (k : bool -> io E A) (Q : A -> bool -> Disk -> Prop) R b d :
  wpi env (k b) Q R b d -> wpi env (get_internal ≫= k) Q R b d.
Proof. intros H c p. apply H. Qed.

Section libraries.
Context `{lib : Libraries} `{laws : !LibraryLaws lib}.
Context (env : Environment).

(** ** Locks *)

Lemma wp_lock_loop f answers b d :
  wp env (lock_loop f answers)
     (fun r d' => d' = d /\ (fine env -> Forall (eq WouldBlock) answers -> r = None))
     (fun _ d' => d' = d /\ (Forall (eq WouldBlock) answers -> ~ fine env)) (fun _ => False) b d.
Proof.
  induction answers as [|x answers IH]; cbn [lock_loop]; [by apply wp_ret|].
  destruct x.
  - intros c p. unfold mbind, io_bind, poll. cbn. destruct (control env p) eqn:Ec; cbn.
    + specialize (IH c (S p)). destruct (lock_loop f answers env _) as [[r|e|] w]; cbn in *.
      * destruct IH as (H1 & H2 & H3). split; [done|]. split; [done|]. intros Hf Ha.
        apply H3; [done|]. by apply list.Forall_cons in Ha as [_ ?].
      * destruct IH as (H1 & H2 & H3). split; [done|]. split; [done|]. intros Ha.
        apply H3. by apply list.Forall_cons in Ha as [_ ?].
      * done.
    + split; [done|]. split; [done|]. intros Hf. by rewrite (fine_control _ Hf) in Ec.
    + split; [done|]. split; [done|]. intros Hf. by rewrite (fine_control _ Hf) in Ec.
  - apply wp_fail. split; [done|]. intros H. by apply list.Forall_cons in H as [? _].
Qed.

Lemma stands_wf v d : stands v d -> wf d.
Proof. by intros [[]|? ? []|[]]. Qed.

Section view.
Context (v : View).

(** What is kept while the locks are taken. *)
Definition ready (d : Disk) : Prop := stands v d /\ state_ok d.

Lemma open_lock_file_ready d :
  ready d -> wp env open_lock_file (fun _ d' => ready d') (fun _ d' => ~ fine env /\ ready d')
                (fun d' => ~ fine env /\ ready d') true d.
Proof.
  intros [Hst Hs]. pose proof (stands_wf v d Hst) as Hw. unfold open_lock_file.
  eapply wp_match_stat; [done| |done].
  destruct (st_lock _ Hs) as [Hn|[i Hi]].
  - unfold stat. rewrite Hn. apply wp_map_fail.
    set (d' := created LockFile [] d).
    assert (ready d') as Hr.
    { assert (touches outer d d') as Ht.
      { eapply touches_mono; [|apply touches_created; [done|by rewrite Hn]]. intros p <-. by right. }
      assert (tree d' !! LockFile = Some (File (new_inode d))) as Hl by (cbn; by rewrite lookup_insert_eq).
      assert (preparing_ok d') as Hp.
      { apply (preparing_same d); [|apply Hs]. intros s. cbn. by rewrite lookup_insert_ne. }
      assert (lock_ok d') as Hlk by (right; eauto).
      split; [by eapply stands_outer|by eapply state_outer]. }
    eapply wp_update.
    + rewrite Hn. unfold place_free. rewrite Hn. cbn [parent]. rewrite (st_dir _ Hs). reflexivity.
    + done.
    + intros Hf. split; [by split|]. split; by split.
  - unfold stat. rewrite Hi. cbn. apply wp_map_fail.
    eapply wp_update; [by rewrite Hi|by split|]. intros Hf. split; [by split|]. split; by split.
Qed.

End view.

(** ** Recognising the state directory *)

(** A query that fails, fails of itself or by a fault. *)
Lemma wp_query {A} (f : Disk -> result IoKind A) b d (Qd : A -> Disk -> Prop) (Qe : IoKind -> Disk -> Prop)
    (Qc : Disk -> Prop) :
  match f d with Ok a => Qd a d | Err e => Qe e d end -> (~ fine env -> Qe OtherIo d /\ Qc d) ->
  wp env (query f) Qd Qe Qc b d.
Proof.
  intros H Hf. unfold query. apply wp_attempt.
  - intros a d' Ha. apply bind_ok in Ha as (x & Hx & Ha). injection Ha as -> <-. by rewrite Hx in H.
  - intros e Ha. apply bind_err in Ha as [Hx|(x & _ & Ha)]; [|done]. by rewrite Hx in H.
  - intros n t Ht. by apply Hf, (not_fine_refused _ _ _ _ Ht).
  - intros n t Ht. by apply Hf, (not_fine_halted _ _ _ _ Ht).
Qed.

(** [read_regular_bounded]: the bytes, or why not; faults are I/O errors. *)
Definition regular_bounded (p : Place) (max : Z) (d : Disk) : result PlatformError bytes :=
  match tree d !! p with
  | None => Err (PL_Io NotFound)
  | Some (File i) =>
      let c := default [] (data d !! i) in if max <? len c then Err PL_JournalCorrupt else Ok c
  | Some _ => Err PL_JournalCorrupt
  end.

Lemma wp_read_regular p max b d (Qd : bytes -> Disk -> Prop) (Qe : PlatformError -> Disk -> Prop) (Qc : Disk -> Prop) :
  wf d -> match regular_bounded p max d with Ok c => Qd c d | Err e => Qe e d end ->
  (~ fine env -> Qe (PL_Io OtherIo) d /\ Qc d) -> wp env (read_regular_bounded p max) Qd Qe Qc b d.
Proof.
  intros Hw H Hf. unfold read_regular_bounded, regular_bounded in *.
  apply wp_bind, wp_map_fail, wp_query; [|done]. unfold stat.
  destruct (tree d !! p) as [[|i|]|] eqn:E; cbn in H |- *; [by apply wp_fail| |by apply wp_fail|exact H].
  destruct (wf_data d Hw p i E) as [c Hc]. rewrite Hc in *. cbn in H |- *. unfold id in *.
  destruct (max <? len c) eqn:El; [by apply wp_fail|].
  apply wp_bind, wp_map_fail, wp_query; [|done].
  rewrite (contents_file p d i c E Hc), El. by apply wp_ret.
Qed.

Definition is_state (d : Disk) : Prop := tree d !! StateDir = Some Dir /\ holds d FormatFile FORMAT_MARKER.

Lemma format_iff d : wf d -> regular_bounded FormatFile (len FORMAT_MARKER) d = Ok FORMAT_MARKER <-> holds d FormatFile FORMAT_MARKER.
Proof.
  intros Hw. unfold regular_bounded, holds. split.
  - destruct (tree d !! FormatFile) as [[|i|]|] eqn:E; try done.
    destruct (wf_data d Hw _ i E) as [c Hc]. rewrite Hc. unfold default, id.
    destruct (_ <? _); [done|]. intros [= ->]. by exists i.
  - intros (i & -> & ->). unfold default, id. by rewrite (proj2 (Z.ltb_ge _ _)).
Qed.

Lemma wp_has_internal_state b d (Qd : bool -> Disk -> Prop) (Qe : PlatformError -> Disk -> Prop) (Qc : Disk -> Prop) :
  wf d -> (is_state d -> Qd true d) -> (~ is_state d -> Qd false d) ->
  (~ fine env -> (forall e, Qe e d) /\ Qc d) -> wp env has_internal_state Qd Qe Qc b d.
Proof.
  intros Hw Ht Hn Hf. unfold has_internal_state.
  eapply wp_match_stat; [done| |by intros H; split; apply Hf].
  unfold stat. destruct (tree d !! StateDir) as [[|i|]|] eqn:E; cbn [is_dir md_node negb].
  2-4: apply wp_ret, Hn; intros [H _]; congruence.
  apply wp_bind, wp_try, wp_read_regular; [done| |by intros H; split; [apply wp_fail|]; apply Hf].
  pose proof (format_iff d Hw) as Hiff.
  destruct (regular_bounded FormatFile (len FORMAT_MARKER) d) as [c|e] eqn:Er.
  - apply wp_ret. case_bool_decide as Ec.
    + subst c. apply Ht. split; [done|]. by apply Hiff.
    + apply Hn. intros [_ H]. apply Hiff in H. congruence.
  - assert (~ is_state d) as Hns by (intros [_ H]; apply Hiff in H; congruence).
    unfold regular_bounded in Er. destruct (tree d !! FormatFile) as [[|i|]|]; simplify_eq; try (apply wp_ret; auto).
    destruct (_ <? _); simplify_eq. apply wp_ret; auto.
Qed.

(** ** The state directory *)

Section state.
Context (v : View).

Lemma stands_state d : stands v d -> is_state d -> state_ok d.
Proof. intros [[]|? ? []|[]] [H1 H2]; done. Qed.

Lemma state_is_state d : state_ok d -> is_state d.
Proof. by intros [? ? _ _]. Qed.

(** Making the state directory leaves a workspace without a journal alone. *)
Definition at_state (p : Place) : Prop := p = StateDir \/ p = FormatFile.

Lemma quiet_state d d' :
  quiet v d -> wf d' -> (forall p, ~ at_state p -> tree d' !! p = tree d !! p) -> data d ⊆ data d' ->
  quiet v d'.
Proof.
  intros [Hw Hn Hp Hl Hv] Hw' Ho Hd.
  assert (forall p, p <> StateDir -> p <> FormatFile -> tree d' !! p = tree d !! p) as Ho'
    by (intros p H1 H2; apply Ho; intros [|]; done).
  split; [done| | | |].
  - intros s. by rewrite Ho'.
  - apply (preparing_same d); [|done]. intros s. by rewrite Ho'.
  - unfold lock_ok. by rewrite Ho'.
  - intros l. rewrite <- Hv. unfold view. rewrite Ho' by done.
    destruct (tree d !! Work l) as [[|i|]|] eqn:E; [done| |done|done].
    destruct (wf_data d Hw _ i E) as [c Hc]. by rewrite Hc, (lookup_weaken _ _ _ _ Hc Hd).
Qed.

Lemma wf_insert_dir p d : wf d -> wf (set_tree (<[p := Dir]> (tree d)) d).
Proof.
  intros [Hr Hf]. split.
  - cbn. destruct (decide (p = Work [])) as [->|Hn]; [by rewrite lookup_insert_eq|by rewrite lookup_insert_ne].
  - intros q i. cbn. destruct (decide (p = q)) as [->|Hn].
    + by rewrite lookup_insert_eq.
    + rewrite lookup_insert_ne by done. apply Hf.
Qed.

Lemma wf_created p c d : wf d -> p <> Work [] -> wf (created p c d).
Proof.
  intros [Hr Hf] Hp. split; [cbn; by rewrite lookup_insert_ne|].
  intros q i. cbn. destruct (decide (p = q)) as [->|Hn].
  - rewrite lookup_insert_eq. intros [= <-]. rewrite lookup_insert_eq. by eexists.
  - rewrite lookup_insert_ne by done. intros H. destruct (Hf q i H) as [x Hx].
    exists x. rewrite lookup_insert_ne; [done|]. intros <-. pose proof (new_inode_fresh d). congruence.
Qed.

Lemma created_data p c d : data d ⊆ data (created p c d).
Proof. apply insert_subseteq, new_inode_fresh. Qed.

(** A new state directory, with whatever [FORMAT] was written. *)
Lemma fresh_state d c : quiet v d -> tree d !! StateDir = None ->
  let d1 := set_tree (<[StateDir := Dir]> (tree d)) d in
  quiet v d1 /\ quiet v (created FormatFile c d1).
Proof.
  intros Hq Hn d1. pose proof (q_wf _ _ Hq) as Hw.
  assert (quiet v d1) as Hq1.
  { apply (quiet_state d); [done|by apply wf_insert_dir| |done].
    intros p Hp. cbn. rewrite lookup_insert_ne; [done|]. intros <-. apply Hp. by left. }
  split; [done|]. apply (quiet_state d1); [done|apply wf_created; [apply Hq1|done]| |apply created_data].
  intros p Hp. cbn. rewrite lookup_insert_ne; [done|]. intros <-. apply Hp. by right.
Qed.

Lemma fresh_state_ok d : quiet v d -> tree d !! StateDir = None ->
  state_ok (created FormatFile FORMAT_MARKER (set_tree (<[StateDir := Dir]> (tree d)) d)).
Proof.
  intros Hq Hn. destruct (fresh_state d FORMAT_MARKER Hq Hn) as [_ Hq'].
  apply stands_state; [by apply stands_quiet|]. split.
  - cbn. rewrite lookup_insert_ne by done. by rewrite lookup_insert_eq.
  - exists (new_inode (set_tree (<[StateDir := Dir]> (tree d)) d)). cbn. by rewrite !lookup_insert_eq.
Qed.

(** A workspace whose [.ash] is ash's, or is not there. *)
Definition usable (d : Disk) : Prop :=
  is_state d \/ (tree d !! StateDir = None /\ tree d !! FormatFile = None).

Lemma ensure_spec b d :
  stands v d ->
  wpi env ensure_internal_state
    (fun _ b' d' => b' = true /\ ready v d') (fun _ d' => stands v d' /\ (usable d -> ~ fine env)) b d.
Proof.
  intros Hst. pose proof (stands_wf v d Hst) as Hw. unfold ensure_internal_state.
  apply wpi_bind, wpi_wp. unfold state_directory_checked.
  apply (wp_mono env (fun _ d' => ready v d') (fun _ d' => stands v d' /\ (usable d -> ~ fine env))
           (fun d' => stands v d' /\ (usable d -> ~ fine env))); [|intros [] d' H; by apply wpi_set_internal|done|done].
  destruct (tree d !! StateDir) as [n|] eqn:E.
  - assert (usable d -> is_state d) as Hus by (intros [?|[? _]]; [done|congruence]).
    assert (~ is_state d -> stands v d /\ (usable d -> ~ fine env)) as Hstop
      by (intros H; split; [done|]; intros ?%Hus; done).
    eapply wp_match_stat; [done| |by split].
    unfold stat. rewrite E. destruct n; cbn [is_dir md_node negb];
      [|apply wp_fail, Hstop; intros [H _]; congruence..].
    apply wp_bind, wp_try, wp_read_regular; [done| |].
    2: { intros Hf. split; [|by split]. rewrite bool_decide_false by done. apply wp_fail. by split. }
    pose proof (format_iff d Hw) as Hiff.
    destruct (regular_bounded FormatFile (len FORMAT_MARKER) d) as [c|e]; cbn [to_option].
    + case_bool_decide as Ec.
      * injection Ec as ->. apply wp_ret. split; [done|]. apply stands_state; [done|].
        split; [done|by apply Hiff].
      * apply wp_fail, Hstop. intros [_ H]. apply Hiff in H. congruence.
    + rewrite bool_decide_false by done. apply wp_fail, Hstop. intros [_ H]. apply Hiff in H. congruence.
  - assert (quiet v d) as Hq.
    { destruct Hst as [Hq|? ? [_ [] _]|[_ [] _]]; [done|congruence..]. }
    eapply wp_match_stat; [done| |by split]. unfold stat. rewrite E.
    destruct (fresh_state d [] Hq E) as [Hq1 _].
    set (d1 := set_tree (<[StateDir := Dir]> (tree d)) d) in *.
    assert (forall d', quiet v d' -> ~ fine env -> stands v d' /\ (usable d -> ~ fine env)) as Hstop
      by (intros d' H Hf; split; [by apply stands_quiet|done]).
    assert (forall c, quiet v (created FormatFile c d1)) as Hqc by (intros; by apply fresh_state).
    apply wp_bind, wp_map_fail. eapply wp_update.
    + unfold place_free. rewrite E. cbn [parent]. rewrite (wf_root _ Hw). reflexivity.
    + fold d1. eapply wp_bind_done; [apply answers_io, answers_touch|by intros Hf; split; [intros e|]; apply Hstop|].
      apply wp_bind, wp_write_new_sync.
      * intros e He. split; [by apply stands_quiet|]. intros [[H _]|[_ H]]; [congruence|]. exfalso.
        unfold place_free in He. cbn [parent] in He. unfold d1 in He. cbn in He.
        by rewrite lookup_insert_ne, H, lookup_insert_eq in He by done.
      * intros _. eapply wp_done; [apply answers_io; eapply answers_sync; apply Hqc| |].
        { split; [by apply stands_quiet, Hqc|by apply fresh_state_ok]. }
        intros Hf. split; [intros e|]; apply Hstop; (done || apply Hqc).
      * intros Hf. split; by apply Hstop.
      * intros Hf _ c'. split; [intros e|]; apply Hstop; (done || apply Hqc).
    + intros Hf. split; [by apply Hstop|]. split; by apply Hstop.
Qed.

(** ** The locks *)

Lemma acquire_spec b d :
  stands v d ->
  wpi env acquire_transaction_locks
    (fun r b' d' => (r = None -> b' = true /\ ready v d') /\ stands v d' /\ (usable d -> fine env -> r = None))
    (fun _ d' => stands v d' /\ (usable d -> ~ fine env)) b d.
Proof.
  intros Hst. unfold acquire_transaction_locks.
  intros c p. unfold mbind, io_bind at 1. cbn [get_environment]. revert c p.
  change (wpi env
    (local ← lock_loop PL_MutationLockPoisoned (mutex_answers env);
     match local with
     | Some failure => mret (Some failure)
     | None =>
         _ ← ensure_internal_state;
         _ ← open_lock_file;
         lock_loop (PL_Io OtherIo) (file_lock_answers env)
     end)
    (fun r b' d' => (r = None -> b' = true /\ ready v d') /\ stands v d' /\ (usable d -> fine env -> r = None))
    (fun _ d' => stands v d' /\ (usable d -> ~ fine env)) b d).
  apply wpi_bind, wpi_wp. eapply wp_mono; [apply wp_lock_loop| | |done].
  2: { intros e d' [-> H]. split; [done|]. intros _ Hf. by apply (H (fine_mutex _ Hf)). }
  intros r d' [-> Hr]. destruct r as [f|].
  { apply wpi_wp, wp_ret. split; [done|]. split; [done|]. intros _ Hf. by specialize (Hr Hf (fine_mutex _ Hf)). }
  apply wpi_bind. eapply wpi_mono; [by apply ensure_spec| |done].
  intros _ b' d' (-> & Hready). apply wpi_bind, wpi_wp.
  eapply wp_mono; [by apply open_lock_file_ready| | |].
  2: { intros e d2 [Hf [H1 _]]. split; [done|]. by intros _. }
  2: { intros d2 [Hf [H1 _]]. split; [done|]. by intros _. }
  intros u d'' Hr''. apply wpi_wp. eapply wp_mono; [apply wp_lock_loop| | |done].
  - intros r d3 [-> H]. split; [done|]. split; [apply Hr''|]. intros _ Hf. by apply (H Hf), fine_file_lock.
  - intros e d3 [-> H]. split; [apply Hr''|]. intros _ Hf. by apply (H (fine_file_lock _ Hf)).
Qed.

(** ** Recovery of a workspace that was just opened *)

Definition reopen_and_recover : io PlatformError bool := _ ← Workspace_new; recover_file_transactions.

Lemma workspace_new_spec b d (Q : unit -> bool -> Disk -> Prop) (R : option PlatformError -> Disk -> Prop) :
  wf d -> (is_state d -> Q tt true d) -> (~ is_state d -> Q tt false d) -> (~ fine env -> forall o, R o d) ->
  wpi env Workspace_new Q R b d.
Proof.
  intros Hw Ht Hn Hf. unfold Workspace_new.
  assert (~ fine env -> (forall e, R (Some e) d) /\ R None d) as Hf' by (intros H; split; [intros e|]; by apply Hf).
  apply wpi_bind, wpi_wp. eapply wp_done; [apply answers_io, answers_touch| |done].
  apply wpi_bind, wpi_wp. eapply wp_done; [apply answers_io, answers_stat, stat_dir, Hw| |done].
  cbn [is_dir md_node negb]. apply wpi_bind, wpi_wp, wp_has_internal_state; [done| | |done].
  - intros H. by apply wpi_set_internal, Ht.
  - intros H. by apply wpi_set_internal, Hn.
Qed.

Lemma reopen_spec b d :
  whole_removals env -> stands v d ->
  wpi env reopen_and_recover
    (fun _ _ d' => stands v d' /\ (fine env -> quiet v d'))
    (fun _ d' => stands v d' /\ ~ fine env) b d.
Proof.
  intros Hwhole Hst. pose proof (stands_wf v d Hst) as Hw. unfold reopen_and_recover.
  apply wpi_bind, workspace_new_spec; [done| | |by intros H; split].
  - intros His. apply wpi_get_internal. cbn [negb]. apply wpi_bind.
    eapply wpi_mono; [by apply acquire_spec| |].
    2: { intros o d' [H1 H2]. split; [done|]. apply H2. by left. }
    intros r b' d' (H1 & H2 & H3). destruct r as [f|].
    + apply wpi_wp, wp_ret. split; [done|]. intros Hf. by specialize (H3 (or_introl His) Hf).
    + destruct (H1 eq_refl) as (-> & Hs1 & Hs2). apply wpi_wp.
      eapply wp_mono; [by apply recover_locked_clears| | |].
      * intros _ d3 [Hq Hs3]. split; [by apply stands_quiet|done].
      * intros e d3 (Hf & Hs3 & _). by split.
      * intros d3 (Hf & Hs3 & _). by split.
  - intros Hns. apply wpi_get_internal. cbn [negb]. apply wpi_wp, wp_ret. split; [done|]. intros _.
    destruct Hst as [Hq|? ? Hp|Hc]; [done| |]; exfalso; apply Hns, state_is_state; [apply Hp|apply Hc].
Qed.

End state.

End libraries.
