(* ===== verification/ApplyFacts.v ===== *)
(** * ApplyFacts: applying one action

    An action that nothing has touched is applied, or fails at a moment of the action
    from which it can be undone.  It never reports a conflict, since nobody else
    changes its files; when the caller stops it, nothing has happened yet. *)

From S2P Require Import Prelude Text Workspace Manifest Disk Mutation Transaction JournalState.
From S2P Require Import RollbackFacts.

Create HintDb raises.

(** The computation fails with such a failure only. *)
Definition raises {A} (P : StepFailure -> Prop) (m : io StepFailure A) : Prop :=
  forall env w, match fst (m env w) with Fail_ e => P e | _ => True end.

(** What the caller's control may answer. *)
Definition stop_ok (e : StepFailure) : Prop :=
  match e with SF_Stopped f => f = FT_Cancelled \/ f = FT_TimedOut | _ => True end.

(** No conflict either. *)
Definition calm_failure (e : StepFailure) : Prop :=
  stop_ok e /\ match e with SF_Conflict _ => False | _ => True end.
Notation calm := (raises calm_failure).

Section raises.
Context {A B : Type} (P : StepFailure -> Prop) (HP : forall e, P (SF_Platform e)).

Lemma raises_ret (a : A) : raises P (mret a : io StepFailure A).
Proof. done. Qed.

Lemma raises_bind (m : io StepFailure B) (k : B -> io StepFailure A) :
  raises P m -> (forall x, raises P (k x)) -> raises P (m ≫= k).
Proof.
  intros Hm Hk env w. unfold mbind, io_bind. specialize (Hm env w).
  destruct (m env w) as [[x|e|] w']; cbn in *; [apply Hk|done|done].
Qed.

Lemma raises_fail (e : StepFailure) : P e -> raises P (fail e : io StepFailure A).
Proof. by intros H env w. Qed.

Lemma raises_lift_or (o : option A) (e : StepFailure) : P e -> raises P (lift (ok_or o e)).
Proof. intros H. destruct o; [done|]. by apply raises_fail. Qed.

Lemma raises_p (m : io PlatformError A) : raises P (p_s m).
Proof. intros env w. unfold p_s, map_fail. destruct (m env w) as [[x|e|] w']; cbn; auto with raises. Qed.

Lemma raises_io (m : io IoKind A) : raises P (io_s m).
Proof. apply raises_p. Qed.

End raises.

Lemma calm_platform e : calm_failure (SF_Platform e).
Proof. done. Qed.
Lemma stop_platform e : stop_ok (SF_Platform e).
Proof. done. Qed.

#[export] Hint Resolve raises_ret raises_bind raises_fail raises_lift_or raises_p raises_io
  calm_platform stop_platform : raises.

Lemma raises_stopped (P : StepFailure -> Prop) :
  P (SF_Stopped FT_Cancelled) -> P (SF_Stopped FT_TimedOut) -> raises P check_stopped.
Proof.
  intros H1 H2 env w. unfold check_stopped, check_control, map_fail, mbind, io_bind, poll. cbn.
  by destruct (control env (w_polls w)).
Qed.

Section libraries.
Context `{lib : Libraries} `{laws : !LibraryLaws lib}.

Section raises.
Context (P : StepFailure -> Prop) (HP : forall e, P (SF_Platform e)).
Context (H1 : P (SF_Stopped FT_Cancelled)) (H2 : P (SF_Stopped FT_TimedOut)).

Lemma raises_block_loop each l max size acc :
  (forall x, raises P (each x)) -> raises P (block_loop each l max size acc).
Proof.
  intros He. revert size acc. induction l as [|x l IH]; intros size acc; cbn [block_loop];
    (apply raises_bind; [by apply raises_stopped|intros _]); (apply raises_bind; [auto with raises|intros _]); [auto with raises|].
  apply raises_bind; [unfold too_large; auto with raises|]. intros n. destruct (_ <? n); [unfold too_large; auto with raises|].
  apply raises_bind; auto with raises.
Qed.

Lemma raises_hash p limits : raises P (hash_file_without_charge p limits).
Proof. apply raises_bind; [auto with raises|]. intros b. by apply raises_block_loop. Qed.

Lemma raises_staged p n dg limits : raises P (read_staged_replacement p n dg limits).
Proof.
  apply raises_bind; [auto with raises|]. intros m. destruct (_ || _); [auto with raises|].
  apply raises_bind; [auto with raises|]. intros b. apply raises_bind; [|intros r; destruct (_ || _); auto with raises].
  generalize (@nil Z). induction (blocks b) as [|x l IH]; intros acc; cbn [staged_loop];
    (apply raises_bind; [by apply raises_stopped|intros _]); (apply raises_bind; [auto with raises|intros _]); [auto with raises|].
  destruct (_ <? _); auto with raises.
Qed.

End raises.

Lemma calm_cancelled : calm_failure (SF_Stopped FT_Cancelled).
Proof. split; [by left|done]. Qed.
Lemma calm_timed_out : calm_failure (SF_Stopped FT_TimedOut).
Proof. split; [by right|done]. Qed.
#[local] Hint Resolve calm_cancelled calm_timed_out raises_stopped raises_hash raises_staged raises_block_loop : raises.

Section one_action.
Context (v : View) (index : nat) (a : PreparedAction) (g : Ghost) (limits : FileTransactionLimits).

(** The paths hold what the action brings. *)
Definition arrived (d : Disk) : Prop :=
  forall s, s ∈ changed_paths a -> view_at (view d) s = view_at (effect a g v) s.

(** The sizes that preparing the action has checked. *)
Record fits : Prop := mkFits {
  fi_limit : max_file_bytes limits <= u64_max;
  fi_size : pa_size a <= max_file_bytes limits;
  fi_preimage : forall n, pa_preimage_size a = Some n -> n <= max_file_bytes limits;
}.

Lemma store_same s e (w : View) : view_at (store s e w) s = e.
Proof. unfold view_at, store. by rewrite decide_True. Qed.
Lemma store_other s t e (w : View) : s <> t -> view_at (store s e w) t = view_at w t.
Proof. intros H. unfold view_at, store. rewrite decide_False; [done|]. intros E. apply H. by apply split_inj in E. Qed.

Lemma untouched_undone d :
  action_state v d index a g -> untouched d index a g -> undone v d a.
Proof.
  intros [_ Hg _ Hm] Hu. unfold ghost_ok, midway, untouched, undone, changed_paths in *.
  destruct (pa_kind a).
  1,2: intros s ->%list_elem_of_singleton; destruct Hg as [_ ->], Hu as [_ Hu]; by apply view_none.
  - destruct Hg as (_ & Hv & t & Et & Hvt), Hm as (i & Hi & [Hs|Hs] & _ & Hn); [by destruct (Hn Hs)|].
    intros s [->| ->%list_elem_of_singleton]%elem_of_cons.
    + rewrite Hv. apply view_holds. by exists i.
    + rewrite (view_none _ _ Hu). unfold target_path. by rewrite Et.
  - destruct Hg as (_ & Hv), Hm as (i & Hi & [[Hs _]|[_ Hr]]); [|congruence].
    intros s ->%list_elem_of_singleton. rewrite Hv. apply view_holds. by exists i.
  - destruct Hg as (_ & Hv & _), Hu as (Hh & _).
    intros s ->%list_elem_of_singleton. rewrite Hv. by apply view_holds.
Qed.

Section apply.
Context (env : Environment) (d : Disk).
Context (Hw : wf d) (Ha : action_state v d index a g) (Hu : untouched d index a g) (Hj : journal_dirs d).
Context (Hfits : fits).

(** What applying the action leaves. *)
Definition apply_failed (e : StepFailure) (d' : Disk) : Prop :=
  ~ fine env /\ moment index a g d d'
  /\ calm_failure e /\ match e with SF_Stopped _ => undone v d' a | _ => True end.

Definition apply_wp (m : io StepFailure unit) (d0 : Disk) : Prop :=
  wp env m (fun _ d' => moment index a g d d' /\ arrived d') apply_failed
     (fun d' => ~ fine env /\ moment index a g d d') true d0.

Lemma apply_start : moment index a g d d.
Proof. apply moment_refl; [done|apply Ha]. Qed.

(** Before anything has changed. *)
Lemma apply_before {B} (m : io StepFailure B) k x :
  answers m true d (Done x) -> calm m -> apply_wp (k x) d -> apply_wp (m ≫= k) d.
Proof.
  intros Hm Hc Hk. apply wp_bind. intros c p. specialize (Hm env c p). specialize (Hc env (mkWorld d true c p)).
  destruct (m env _) as [[y|e|] w]; cbn in Hc.
  - destruct Hm as (-> & -> & [= <-]). by split.
  - destruct Hm as (-> & -> & H). split; [done|].
    assert (~ fine env) as Hf by (intros Hf; discriminate (H Hf)).
    split; [done|]. split; [apply apply_start|]. split; [done|]. destruct e; [done| |done]. by apply untouched_undone.
  - destruct Hm as (-> & H). split; [done|apply apply_start].
Qed.

Lemma apply_later (m : io IoKind unit) k d0 :
  answers m true d0 (Done tt) -> moment index a g d d0 -> apply_wp (k tt) d0 -> apply_wp (io_s m ≫= k) d0.
Proof.
  intros Hm Hd Hk. apply wp_bind, wp_map_fail, wp_map_fail. eapply wp_done; [done|done|].
  intros Hf. split; [intros e|]; (split; [exact Hf|]); [by split|done].
Qed.

Lemma apply_last (m : io IoKind unit) d0 :
  answers m true d0 (Done tt) -> moment index a g d d0 -> arrived d0 -> apply_wp (io_s m) d0.
Proof.
  intros Hm Hd Hk. apply wp_map_fail, wp_map_fail. eapply wp_done; [done|by split|].
  intros Hf. split; [intros e|]; (split; [exact Hf|]); [by split|done].
Qed.

Lemma apply_update (act : Disk -> result IoKind (unit * Disk)) k d0 d1 :
  act d0 = Ok (tt, d1) -> moment index a g d d0 -> moment index a g d d1 -> apply_wp (k tt) d1 ->
  apply_wp (io_s (update act) ≫= k) d0.
Proof.
  intros He H0 H1 Hk. apply wp_bind, wp_map_fail, wp_map_fail. eapply wp_update; [done|done|].
  intros Hf. split; [by split|]. split; by split.
Qed.

Lemma apply_hash p c (k : bytes * Z -> io StepFailure unit) :
  holds d p c -> len c <= max_file_bytes limits -> apply_wp (k (blake3 c, len c)) d ->
  apply_wp (hash_file_without_charge p limits ≫= k) d.
Proof.
  intros Hh Hl Hk. destruct (hash_answers d p c limits true Hh) as (o & Ho & Hd & _).
  rewrite (Hd (conj Hl (fi_limit Hfits))) in Ho. eapply apply_before; [done|auto with raises|done].
Qed.

(** A destination that is free is linked, or a fault leaves it free. *)
Lemma apply_absent s (k : unit -> io StepFailure unit) :
  s ∈ changed_paths a -> tree d !! place_of s = None -> apply_wp (k tt) d ->
  apply_wp (ensure_absent_for_apply s limits ≫= k) d.
Proof.
  intros Hs Hn Hk. apply wp_bind. unfold ensure_absent_for_apply.
  assert (~ fine env -> forall e, apply_failed (SF_Platform e) d) as Hf
    by (intros H e; split; [done|split; [apply apply_start|done]]).
  apply wp_bind, wp_map_fail. eapply wp_done.
  - eapply path_checked; [done|by apply Ha|done|by apply none_final].
  - eapply wp_match_stat; [done| |intros H; split; [by apply Hf|by split; [|apply apply_start]]].
    unfold stat. rewrite Hn. by apply wp_ret.
  - intros H. split; [intros e; by apply Hf|]. split; [done|apply apply_start].
Qed.

Lemma apply_link p s i (k : unit -> io StepFailure unit) :
  s ∈ changed_paths a -> tree d !! p = Some (File i) -> tree d !! place_of s = None ->
  let d1 := set_tree (<[place_of s := File i]> (tree d)) d in
  moment index a g d d1 -> apply_wp (k tt) d1 ->
  apply_wp (link_or_conflict p (place_of s) limits ≫= k) d.
Proof.
  intros Hs Hp Hn d1 Hm Hk. apply wp_bind. unfold link_or_conflict. apply wp_bind, wp_try.
  assert (tree d !! parent (place_of s) = Some Dir) as Hpar by by apply reachable_parent, (as_paths _ _ _ _ _ Ha).
  eapply wp_update; [by apply hard_link_ok with (i := i)|by apply wp_ret|].
  intros Hf. split; [|split; by split; [|done || apply apply_start]].
  assert (apply_failed (SF_Platform (PL_Io OtherIo)) d) as Hfail
    by (split; [done|split; [apply apply_start|done]]).
  unfold hard_link_error. eapply wp_match_stat; [done| |intros _; split; [done|by split; [|apply apply_start]]].
  unfold stat. rewrite Hn. by apply wp_fail.
Qed.

Lemma apply_sync_parent d0 s k :
  moment index a g d d0 -> s ∈ changed_paths a -> apply_wp (k tt) d0 ->
  apply_wp (io_s (sync_parent (place_of s)) ≫= k) d0.
Proof.
  intros Hd Hs Hk. apply apply_later; [|done|done]. eapply answers_sync. eapply to_dirs; [apply Hd|done|].
  by apply reachable_parent, (as_paths _ _ _ _ _ Ha).
Qed.

Lemma answers_sync_journal d0 s :
  moment index a g d d0 -> s = StageDir \/ s = RemovedDir ->
  answers (sync_directory (Journal Transaction s)) true d0 (Done tt).
Proof. intros Hd Hs. eapply answers_sync. eapply to_dirs; [apply Hd|done|]. destruct Hs as [->| ->]; apply Hj. Qed.

Lemma apply_create_copy_spec :
  pa_kind a = FA_Create \/ pa_kind a = FA_Copy -> apply_wp (apply_create_copy index a limits) d.
Proof.
  intros Hk. pose proof (as_ghost _ _ _ _ _ Ha) as Hg. pose proof (as_midway _ _ _ _ _ Ha) as Hm.
  assert (changed_paths a = [target_path a]) as Hc by (unfold changed_paths; by destruct Hk as [-> | ->]).
  assert (target_path a ∈ changed_paths a) as Hin by (rewrite Hc; set_solver).
  assert (describes a (g_new g)) as [Hd Hsz]
    by (unfold ghost_ok in Hg; by destruct Hk as [Hk|Hk]; rewrite Hk in Hg; destruct Hg).
  assert (forall d, midway d index a g <-> exists i, data d !! i = Some (g_new g)
            /\ link_or_none d (stage_of index) i /\ link_or_none d (place_of (target_path a)) i) as Hmid
    by (intros; unfold midway; by destruct Hk as [-> | ->]).
  assert (tree d !! stage_of index <> None /\ tree d !! place_of (target_path a) = None) as [Hst Hdst]
    by (unfold untouched in Hu; by destruct Hk as [Hk|Hk]; rewrite Hk in Hu).
  assert (effect a g v = store (target_path a) (Contents (g_new g)) v) as Heff
    by (unfold effect; by destruct Hk as [-> | ->]).
  apply Hmid in Hm as (i & Hi & [Hs|Hs] & _); [done|].
  set (d1 := set_tree (<[place_of (target_path a) := File i]> (tree d)) d).
  assert (moment index a g d d1) as Hd1.
  { eapply moment_step; [apply apply_start|apply touches_link; [done|by rewrite Hdst|by eexists]|by apply footprint_path|].
    apply Hmid. exists i. split; [done|]. split; right; cbn; [by rewrite lookup_insert_ne|by rewrite lookup_insert_eq]. }
  set (d2 := set_tree (delete (stage_of index) (tree d1)) d1).
  assert (tree d1 !! stage_of index = Some (File i)) as Hs1 by (cbn; by rewrite lookup_insert_ne).
  assert (tree d2 !! place_of (target_path a) = Some (File i)) as Ht2
    by (cbn; rewrite lookup_delete_ne by done; by rewrite lookup_insert_eq).
  assert (moment index a g d d2) as Hd2.
  { eapply moment_step; [exact Hd1|apply touches_delete; [apply Hd1|by rewrite Hs1]|apply footprint_stage|].
    apply Hmid. exists i. split; [done|]. split; [left; cbn; by rewrite lookup_delete_eq|by right]. }
  unfold apply_create_copy. apply apply_absent; [done|done|].
  eapply apply_before; [apply answers_p_s; eapply path_checked; [done|by apply Ha|done|by apply none_final]|auto with raises|].
  change (Journal Transaction (StageFile index)) with (stage_of index).
  apply (apply_hash _ (g_new g)); [by exists i|rewrite <- Hsz; by apply Hfits|]. cbn [fst snd].
  rewrite bool_decide_true by done. rewrite (proj2 (Z.eqb_eq _ _)) by done. cbn [negb orb].
  apply (apply_link _ _ i); [done|done|done|exact Hd1|]. apply apply_sync_parent; [done|done|].
  eapply apply_update; [by apply remove_file_ok with (i := i)|done|exact Hd2|].
  apply apply_last; [apply answers_sync_journal; auto with raises|done|].
  intros s Hs'. rewrite Hc in Hs'. apply list_elem_of_singleton in Hs' as ->.
  rewrite Heff, store_same. apply view_holds. by exists i.
Qed.

Lemma calm_expect {B} (o : option B) e : calm (expect o e).
Proof. unfold expect. auto with raises. Qed.

Lemma apply_move_spec : pa_kind a = FA_Move -> NoDup (prepared_paths a) -> apply_wp (apply_move a limits) d.
Proof.
  intros Hk Hnd. pose proof (as_ghost _ _ _ _ _ Ha) as Hg. pose proof (as_midway _ _ _ _ _ Ha) as Hm.
  pose proof Hu as Hfree. unfold ghost_ok, midway, untouched in Hg, Hm, Hfree. rewrite Hk in Hg, Hm, Hfree.
  destruct Hg as ([Hd Hsz] & Hv & t & Et & Hvt), Hm as (i & Hi & Hs & _ & Hn).
  assert (target_path a = t) as Htp by (unfold target_path; by rewrite Et). rewrite Htp in *.
  destruct Hs as [Hs|Hs]; [by destruct (Hn Hs)|].
  assert (changed_paths a = [pa_path a; t]) as Hc by (unfold changed_paths; by rewrite Hk, Htp).
  assert (pa_path a ∈ changed_paths a /\ t ∈ changed_paths a) as [Hin1 Hin2] by (rewrite Hc; set_solver).
  assert (pa_path a <> t) as Hne.
  { unfold prepared_paths, paths_of in Hnd. rewrite Et in Hnd. apply list.NoDup_cons in Hnd as [H _]. set_solver. }
  assert (place_of (pa_path a) <> place_of t) as Hpl by (intros ?%place_of_inj; done).
  set (d1 := set_tree (<[place_of t := File i]> (tree d)) d).
  assert (tree d1 !! place_of (pa_path a) = Some (File i)) as Hs1 by (cbn; by rewrite lookup_insert_ne).
  assert (tree d1 !! place_of t = Some (File i)) as Ht1 by (cbn; by rewrite lookup_insert_eq).
  assert (moment index a g d d1) as Hd1.
  { eapply moment_step; [apply apply_start|apply touches_link; [done|by rewrite Hfree|by eexists]|by apply footprint_path|].
    unfold midway. rewrite Hk, Htp. exists i. split; [done|]. split; [by right|]. split; [by right|]. congruence. }
  set (d2 := set_tree (delete (place_of (pa_path a)) (tree d1)) d1).
  assert (tree d2 !! place_of t = Some (File i)) as Ht2 by (cbn; by rewrite lookup_delete_ne).
  assert (tree d2 !! place_of (pa_path a) = None) as Hs2 by (cbn; by rewrite lookup_delete_eq).
  assert (moment index a g d d2) as Hd2.
  { eapply moment_step; [exact Hd1|apply touches_delete; [apply Hd1|by rewrite Hs1]|by apply footprint_path|].
    unfold midway. rewrite Hk, Htp. exists i. split; [done|]. split; [by left|]. split; [by right|]. congruence. }
  assert (holds d (place_of (pa_path a)) (g_old g)) as Hh by (by exists i).
  unfold apply_move.
  eapply apply_before; [apply answers_p_s; eapply path_checked; [done|by apply Ha|done|by eapply holds_final]|auto with raises|].
  apply (apply_hash _ (g_old g)); [done|rewrite <- Hsz; by apply Hfits|]. cbn [fst snd].
  rewrite bool_decide_true by done. rewrite (proj2 (Z.eqb_eq _ _)) by done. cbn [negb orb].
  eapply apply_before; [by apply answers_lift_ok; rewrite Et|apply calm_expect|].
  apply apply_absent; [done|done|].
  eapply apply_before; [apply answers_p_s; eapply path_checked; [done|by apply Ha|done|by apply none_final]|auto with raises|].
  apply (apply_link _ _ i); [done|done|done|exact Hd1|]. apply apply_sync_parent; [done|done|].
  eapply apply_update; [by apply remove_file_ok with (i := i)|done|exact Hd2|].
  apply apply_last; [eapply answers_sync; eapply to_dirs; [apply Hd2|done|];
                     by apply reachable_parent, (as_paths _ _ _ _ _ Ha)|done|].
  intros s Hs'. rewrite Hc in Hs'. unfold effect. rewrite Hk, Htp.
  apply elem_of_cons in Hs' as [->|Hs'%list_elem_of_singleton].
  - rewrite store_other, store_same by done. by apply view_none.
  - subst s. rewrite store_same. apply view_holds. by exists i.
Qed.

Lemma apply_remove_spec : pa_kind a = FA_Remove -> apply_wp (apply_remove index a limits) d.
Proof.
  intros Hk. pose proof (as_ghost _ _ _ _ _ Ha) as Hg. pose proof (as_midway _ _ _ _ _ Ha) as Hm.
  pose proof Hu as Hfree. unfold ghost_ok, midway, untouched in Hg, Hm, Hfree. rewrite Hk in Hg, Hm, Hfree.
  destruct Hg as ([Hd Hsz] & Hv), Hm as (i & Hi & [[Hs _]|[_ Hr]]); [|congruence].
  assert (changed_paths a = [pa_path a]) as Hc by (unfold changed_paths; by rewrite Hk).
  assert (pa_path a ∈ changed_paths a) as Hin by (rewrite Hc; set_solver).
  set (d1 := set_tree (<[removed_of index := File i]> (delete (place_of (pa_path a)) (tree d))) d).
  assert (tree d1 !! place_of (pa_path a) = None) as Hs1
    by (cbn; rewrite lookup_insert_ne by done; by rewrite lookup_delete_eq).
  assert (moment index a g d d1) as Hd1.
  { split.
    - eapply touches_mono; [|apply touches_rename; [done|done|by rewrite Hfree]].
      intros q [->| ->]; [by apply footprint_path|apply footprint_removed].
    - unfold midway. rewrite Hk. exists i. split; [done|]. right. split; [done|].
      cbn. by rewrite lookup_insert_eq. }
  unfold apply_remove. change (Journal Transaction (RemovedFile index)) with (removed_of index).
  assert (holds d (place_of (pa_path a)) (g_old g)) as Hh by (by exists i).
  eapply apply_before; [apply answers_p_s; eapply path_checked; [done|by apply Ha|done|by eapply holds_final]|auto with raises|].
  apply (apply_hash _ (g_old g)); [done|rewrite <- Hsz; by apply Hfits|]. cbn [fst snd].
  rewrite bool_decide_true by done. rewrite (proj2 (Z.eqb_eq _ _)) by done. cbn [negb orb].
  eapply apply_update; [apply rename_ok; [done|done|apply Hj]|apply apply_start|exact Hd1|].
  apply apply_sync_parent; [done|done|].
  apply apply_last; [apply answers_sync_journal; auto with raises|done|].
  intros s Hs'. rewrite Hc in Hs'. apply list_elem_of_singleton in Hs' as ->.
  unfold effect. rewrite Hk, store_same. by apply view_none.
Qed.

(** The end of a replacement whose exchange took place. *)
Lemma replace_end d0 :
  pa_kind a = FA_Replace -> moment index a g d d0 ->
  holds d0 (place_of (pa_path a)) (g_new g) -> holds d0 (removed_of index) (g_old g) ->
  holds d0 (stage_of index) (g_new g) ->
  apply_wp (_ ← io_s (sync_parent (place_of (pa_path a)));
            _ ← io_s (remove_file (stage_of index));
            io_s (sync_directory (Journal Transaction StageDir))) d0.
Proof.
  intros Hk Hd0 Hh Hr (k & Hst & _).
  assert (changed_paths a = [pa_path a]) as Hc by (unfold changed_paths; by rewrite Hk).
  assert (pa_path a ∈ changed_paths a) as Hin by (rewrite Hc; set_solver).
  set (d1 := set_tree (delete (stage_of index) (tree d0)) d0).
  assert (touches (eq (stage_of index)) d0 d1) as Ht1
    by (apply touches_delete; [apply Hd0|by rewrite Hst]).
  assert (holds d1 (place_of (pa_path a)) (g_new g)) as Hh1 by (by eapply holds_touches).
  assert (moment index a g d d1) as Hd1.
  { eapply moment_step; [exact Hd0|exact Ht1|apply footprint_stage|].
    unfold midway. rewrite Hk. assert (holds d1 (removed_of index) (g_old g)) by (by eapply holds_touches).
    split; [by right|]. split; [by right|]. left. cbn. by rewrite lookup_delete_eq. }
  apply apply_sync_parent; [done|done|].
  eapply apply_update; [by apply remove_file_ok with (i := k)|done|exact Hd1|].
  apply apply_last; [apply answers_sync_journal; auto with raises|done|].
  intros s Hs'. rewrite Hc in Hs'. apply list_elem_of_singleton in Hs' as ->.
  unfold effect. rewrite Hk, store_same. by apply view_holds.
Qed.

Lemma apply_replace_spec : pa_kind a = FA_Replace -> apply_wp (apply_replace index a limits) d.
Proof.
  intros Hk. pose proof (as_ghost _ _ _ _ _ Ha) as Hg.
  pose proof Hu as Hfree. unfold ghost_ok, untouched in Hg, Hfree. rewrite Hk in Hg, Hfree.
  destruct Hg as ([Hd Hsz] & Hv & Epd & Eps & Hcol), Hfree as (Hh & Hst & Hr).
  assert (changed_paths a = [pa_path a]) as Hc by (unfold changed_paths; by rewrite Hk).
  assert (pa_path a ∈ changed_paths a) as Hin by (rewrite Hc; set_solver).
  pose proof (fi_limit Hfits) as Hl. pose proof (fi_size Hfits) as Hl1.
  pose proof (fi_preimage Hfits _ Eps) as Hl2.
  unfold apply_replace. change (Journal Transaction (StageFile index)) with (stage_of index).
  eapply apply_before; [by apply answers_lift_ok; rewrite Epd|apply calm_expect|].
  eapply apply_before; [by apply answers_lift_ok; rewrite Eps|apply calm_expect|].
  eapply apply_before; [apply answers_p_s; eapply path_checked; [done|by apply Ha|done|by eapply holds_final]|auto with raises|].
  apply (apply_hash _ (g_old g)); [done|done|]. cbn [fst snd].
  rewrite bool_decide_true by done. rewrite (proj2 (Z.eqb_eq _ _)) by done. cbn [negb orb].
  destruct (staged_answers d (stage_of index) (g_new g) (pa_size a) (pa_digest a) limits true Hst ltac:(lia))
    as (o & Ho & Hdone & _). rewrite (Hdone ltac:(done) ltac:(done) ltac:(lia)) in Ho.
  eapply apply_before; [exact Ho|auto with raises|].
  assert (file_at d (pa_path a) (g_old g)) as Hfile
    by (split; [apply Hw|apply (as_paths _ _ _ _ _ Ha), Hin|apply (as_paths _ _ _ _ _ Ha), Hin|done]).
  set (d1 := replaced (place_of (pa_path a)) (g_new g) d).
  assert (touches (eq (place_of (pa_path a))) d d1) as Ht1.
  { unfold d1. destruct (replaced_spec (place_of (pa_path a)) (g_new g) d) as (i & Hi & ->).
    apply touches_new; [done|by destruct Hh as (j & -> & _)|done]. }
  assert (holds d1 (stage_of index) (g_new g)) as Hst1 by (by eapply holds_touches).
  assert (holds d1 (removed_of index) (g_old g)) as Hr1 by (by eapply holds_touches).
  assert (holds d1 (place_of (pa_path a)) (g_new g)) as Hh1 by apply replaced_holds.
  assert (moment index a g d d1) as Hd1.
  { eapply moment_step; [apply apply_start|exact Ht1|by apply footprint_path|].
    unfold midway. rewrite Hk. split; [by right|]. split; [by right|]. right. by exists (g_new g). }
  pose proof apply_start as Hd0.
  assert (forall d0, moment index a g d d0 -> ~ fine env ->
            apply_wp (fail (SF_Platform PL_RecoveryRequired)) d0) as Hbad.
  { intros d0 H0 Hf. apply wp_fail. split; [done|]. by split. }
  assert (forall d0, moment index a g d d0 -> holds d0 (place_of (pa_path a)) (g_new g) ->
            holds d0 (removed_of index) (g_old g) -> holds d0 (stage_of index) (g_new g) ->
    apply_wp (if negb (bool_decide (blake3 (g_new g) = pa_digest a)) then fail (SF_Platform PL_RecoveryRequired)
             else _ ← io_s (sync_parent (place_of (pa_path a)));
                  _ ← io_s (remove_file (stage_of index));
                  io_s (sync_directory (Journal Transaction StageDir))) d0) as Hend.
  { intros d0 H0 H1 H2 H3. rewrite bool_decide_true by done. cbn [negb]. by apply replace_end. }
  apply wp_bind, wp_map_fail.
  apply (wp_replace env (pa_path a) (g_old g) (g_new g) _ d); [done|by apply Hend| |].
  - intros e H. assert (~ fine env) as Hf by (intros Hf; specialize (H Hf); lia).
    split; [done|]. by split.
  - intros Hf. split; [by split|]. split; [by split|]. split; [by apply Hbad|]. split; [by apply Hbad|].
    intros Heq. apply Hend; [done| |done|done]. by rewrite <- (Hcol Heq).
Qed.

Lemma apply_spec : NoDup (prepared_paths a) -> apply_wp (apply_action index a limits) d.
Proof.
  intros Hnd. unfold apply_action. eapply apply_before; [apply answers_stopped|auto with raises|].
  destruct (pa_kind a) eqn:E; eauto using apply_create_copy_spec, apply_move_spec, apply_remove_spec, apply_replace_spec.
Qed.

End apply.

End one_action.

End libraries.

#[export] Hint Resolve calm_cancelled calm_timed_out raises_stopped raises_hash raises_staged
  raises_block_loop : raises.
