(* ===== verification/Committing.v ===== *)
(** * Committing: from a published journal to an outcome

    The application loop, the rollback that follows a failure, and the commit.  Until
    the commit marker has its name the disk stands for the workspace that the
    transaction found; from then on, for the one that it makes. *)

From S2P Require Import Prelude Text Workspace Manifest Disk Mutation Transaction JournalState.
From S2P Require Import RollbackFacts Durable ApplyFacts.

Section libraries.
Context `{lib : Libraries} `{laws : !LibraryLaws lib}.
Context (env : Environment) (Hwhole : whole_removals env).
Context (v : View) (ps : list PreparedAction) (gs : list Ghost) (limits : FileTransactionLimits).
Context (Hfits : forall a, a ∈ ps -> fits a limits).

(** ** The application loop *)

(** The first [n] actions are in place, the others are untouched. *)
Record applied_upto (n : nat) (d : Disk) : Prop := mkAppliedUpto {
  au_pending : pending v d ps gs;
  au_unmarked : tree d !! Journal Transaction CommittingFile = None;
  au_arrived : forall j a g, (j < n)%nat -> ps !! j = Some a -> gs !! j = Some g -> arrived v a g d;
  au_untouched : forall j a g, (n <= j)%nat -> ps !! j = Some a -> gs !! j = Some g -> untouched d j a g;
}.

(** A published journal and rows that say of no action that it did not happen, unless
    it is undone. *)
Definition ceased (rows : list FileActionOutcome) (d : Disk) : Prop :=
  pending v d ps gs
  /\ forall j b, ps !! j = Some b -> known_not_applied (Some rows) j -> undone v d b.

Definition committed_row (a : PreparedAction) : FileActionOutcome :=
  mkOutcome AS_Committed (Some (pa_digest a)).

Lemma arrived_frame S d d' a g :
  wf d -> touches S d d' -> (forall s, s ∈ changed_paths a -> ~ S (place_of s)) ->
  arrived v a g d -> arrived v a g d'.
Proof.
  intros Hw Ht Hf Hu s Hs. unfold view_at. rewrite (view_touches S d d') by (done || by apply Hf). by apply Hu.
Qed.

Lemma ghost_of d i a : pending v d ps gs -> ps !! i = Some a -> is_Some (gs !! i).
Proof. intros Hp Hi. apply lookup_lt_is_Some_2. rewrite (pd_ghosts _ _ _ _ Hp). by eapply lookup_lt_Some. Qed.

Section turn.
Context (n : nat) (d : Disk) (a : PreparedAction) (g : Ghost).
Context (Hn : applied_upto n d) (Ha : ps !! n = Some a) (Hg : gs !! n = Some g).

Lemma moment_unmarked d' : moment n a g d d' -> tree d' !! Journal Transaction CommittingFile = None.
Proof. intros Hm. rewrite (moment_tree d d' n a g Hm) by done. apply Hn. Qed.

Lemma moment_applied d' :
  moment n a g d d' -> arrived v a g d' -> applied_upto (S n) d'.
Proof.
  intros Hm Harr. pose proof (au_pending _ _ Hn) as Hp. split.
  - by eapply (moment_pending v d d' ps gs Hp n a g).
  - by apply moment_unmarked.
  - intros j b h Hj Hb Hh. destruct (decide (j = n)) as [->|Hne]; [by simplify_eq|].
    eapply arrived_frame; [apply Hp|apply Hm| |by eapply (au_arrived _ _ Hn j b h); [lia|..]].
    intros s Hs. apply (moment_disjoint v d ps gs Hp n a g Ha Hg j b Hb); [done|by apply footprint_path].
  - intros j b h Hj Hb Hh. eapply untouched_frame; [apply Hm| |eapply (au_untouched _ _ Hn j b h); [lia|done..]].
    apply (moment_disjoint v d ps gs Hp n a g Ha Hg j b Hb). lia.
Qed.

Lemma later_undone d' j b : moment n a g d d' -> (n < j)%nat -> ps !! j = Some b -> undone v d' b.
Proof.
  intros Hm Hj Hb. pose proof (au_pending _ _ Hn) as Hp. destruct (ghost_of d j b Hp Hb) as [h Hh].
  apply (moment_undone v d d' ps gs Hp n a g Ha Hg Hm j b Hb); [lia|].
  eapply untouched_undone; [by eapply (pd_actions _ _ _ _ Hp)|]. eapply (au_untouched _ _ Hn); [|done..]. lia.
Qed.

End turn.

Definition filesystem_failure (f : FileTransactionFailure) : Prop :=
  f = FT_Cancelled \/ f = FT_TimedOut \/ f = FT_Filesystem.

Definition loop_wp (m : io PlatformError (list FileActionOutcome * option FileTransactionFailure)) d0 : Prop :=
  wp env m
    (fun r d' => match r.2 with
                 | None => applied_upto (length ps) d' /\ r.1 = committed_row <$> ps
                 | Some f => ~ fine env /\ filesystem_failure f /\ ceased r.1 d'
                 end)
    (fun _ _ => False) (fun d' => ~ fine env /\ pending v d' ps gs) true d0.

(** The rows while [pre] is in place and the others wait. *)
Definition loop_rows (pre suf : list PreparedAction) : list FileActionOutcome :=
  (committed_row <$> pre) ++ replicate (length suf) skipped.

Lemma row_before pre l j : (j < length pre)%nat ->
  row_state (Some ((committed_row <$> pre) ++ l)) j = Some AS_Committed.
Proof.
  intros Hj. unfold row_state. cbn. rewrite lookup_app_l by (by rewrite length_fmap).
  rewrite list_lookup_fmap. destruct (lookup_lt_is_Some_2 pre j Hj) as [x ->]. done.
Qed.

Lemma row_here pre r l :
  row_state (Some ((committed_row <$> pre) ++ r :: l)) (length pre) = Some (ao_state r).
Proof. unfold row_state. cbn. by rewrite list_lookup_middle by (by rewrite length_fmap). Qed.

Lemma insert_here {A} (l l' : list A) x y n : n = length l -> <[n := y]> (l ++ x :: l') = l ++ y :: l'.
Proof. intros ->. by rewrite insert_app_r_alt, Nat.sub_diag by lia. Qed.

Lemma apply_from_spec suf pre d :
  ps = pre ++ suf -> applied_upto (length pre) d ->
  loop_wp (apply_from (length pre) suf limits (loop_rows pre suf)) d.
Proof.
  revert pre d. induction suf as [|a suf IH]; intros pre d Hps Hn; cbn [apply_from].
  - rewrite app_nil_r in Hps. apply wp_ret. cbn [fst snd]. unfold loop_rows. cbn.
    by rewrite app_nil_r, Hps.
  - assert (ps !! length pre = Some a) as Ha by (rewrite Hps; by apply list_lookup_middle).
    pose proof (au_pending _ _ Hn) as Hp. destruct (ghost_of d _ a Hp Ha) as [g Hg].
    assert (a ∈ ps) as Hin by by eapply list_elem_of_lookup_2.
    assert (length (pre ++ [a]) = S (length pre)) as Hlen by (rewrite length_app; cbn; lia).
    unfold loop_rows, set_row. cbn [length replicate]. rewrite insert_here by (by rewrite length_fmap).
    assert (forall r d', moment (length pre) a g d d' ->
              (ao_state r = AS_Skipped -> undone v d' a) -> ao_state r <> AS_Conflict ->
              ceased ((committed_row <$> pre) ++ r :: replicate (length suf) skipped) d') as Hceased.
    { intros r d' Hm Hu Hc. split; [by eapply (moment_pending v d d' ps gs Hp)|].
      intros j b Hb Hk. destruct (Nat.lt_total j (length pre)) as [Hj|[->|Hj]].
      - exfalso. unfold known_not_applied in Hk. rewrite row_before in Hk by done. by destruct Hk.
      - assert (b = a) as -> by congruence. unfold known_not_applied in Hk. rewrite row_here in Hk.
        destruct Hk as [[= Hk]|[= Hk]]; auto. done.
      - by eapply (later_undone (length pre) d a g Hn Ha). }
    apply wp_bind, wp_try.
    pose proof (apply_spec v (length pre) a g limits env d (pd_wf _ _ _ _ Hp)
      (pd_actions _ _ _ _ Hp _ _ _ Ha Hg) (au_untouched _ _ Hn _ _ _ (Nat.le_refl _) Ha Hg)
      (pd_dirs _ _ _ _ Hp) (Hfits a Hin) (bind_nodup ps a (pd_distinct _ _ _ _ Hp) Hin)) as Hspec.
    eapply wp_mono; [exact Hspec| | |].
    + intros [] d' [Hm Harr]. rewrite insert_here by (by rewrite length_fmap).
      assert ((committed_row <$> pre) ++ mkOutcome AS_Committed (Some (pa_digest a))
                :: replicate (length suf) skipped = loop_rows (pre ++ [a]) suf) as ->.
      { unfold loop_rows. rewrite fmap_app, <- app_assoc. done. }
      rewrite <- Hlen. apply IH; [by rewrite <- app_assoc|]. rewrite Hlen. by eapply moment_applied.
    + intros e d' (Hf & Hm & [Hstop Hcalm] & Hu). destruct e as [dg|f|e]; [done| |].
      * apply wp_ret. cbn [fst snd]. rewrite insert_here by (by rewrite length_fmap).
        split; [done|]. split; [unfold filesystem_failure; destruct Hstop; auto|]. by apply Hceased.
      * apply wp_ret. cbn [fst snd]. split; [done|]. split; [by right; right|]. by apply Hceased.
    + intros d' [Hf Hm]. split; [done|]. by eapply (moment_pending v d d' ps gs Hp).
Qed.

(** ** Giving up and committing *)

Context (w : View) (Hnew : forall d, applied_upto (length ps) d -> forall l, view d l = w l).

(** What an outcome says of the disk: the transaction happened, or it did not, or the
    next recovery decides; rows that claim otherwise are settled. *)
Definition outcome_ok (o : FileTransactionOutcome) (d : Disk) : Prop :=
  match to_failure o with
  | None => stands w d /\ to_actions o = committed_row <$> ps /\ (fine env -> quiet w d)
  | Some FT_RecoveryRequired => ~ fine env /\ (stands v d \/ stands w d)
  | Some _ => ~ fine env /\ quiet v d
              /\ forall j, (j < length ps)%nat -> row_settled (Some (to_actions o)) j
  end.

Definition finish_wp (m : io PlatformError FileTransactionOutcome) d0 : Prop :=
  wp env m outcome_ok (fun _ d' => ~ fine env /\ stands v d')
    (fun d' => ~ fine env /\ (stands v d' \/ stands w d')) true d0.

Lemma give_up_spec rows f d :
  ~ fine env -> filesystem_failure f -> ceased rows d -> finish_wp (abandon ps rows f) d.
Proof.
  intros Hf Hfail [Hp Hrows]. unfold abandon. apply wp_bind.
  eapply wp_mono; [apply (rollback_locked_spec env v ps gs d (Some rows) Hp Hrows)| |done|].
  2: { intros d' [_ Hp']. split; [done|]. left. by eapply stands_pending. }
  intros r d' (Hp' & _ & Hu & Hrep). destruct r.2.
  - apply wp_ret. split; [done|]. left. by eapply stands_pending.
  - destruct (Hu eq_refl) as [Hall Hset]. destruct (Hrep ltac:(done)) as [rows' Er].
    rewrite Er in *. cbn [default]. unfold id. apply wp_bind.
    eapply wp_mono; [apply (remove_journal_clears env Hwhole v d'); try apply Hp'| | |].
    + by eapply stands_pending.
    + by eapply all_undone_view.
    + intros _ d2 [Hq _]. apply wp_ret. unfold outcome_ok. cbn [to_failure to_actions].
      unfold filesystem_failure in Hfail. by destruct Hfail as [->|[->| ->]].
    + intros _ d2 (_ & Hs & _). by split.
    + intros d2 (_ & Hs & _). split; [done|by left].
Qed.

(** A file of the journal's own directory. *)
Definition journal_file (p : Place) : Prop :=
  p = Journal Transaction CommittingFile \/ p = Journal Transaction CommittedFile.

Section mark.
Context (d d' : Disk) (Ht : touches journal_file d d').

Lemma mark_tree p : ~ journal_file p -> tree d' !! p = tree d !! p.
Proof. apply (to_other _ _ _ Ht). Qed.

Lemma mark_holds p c : ~ journal_file p -> holds d p c -> holds d' p c.
Proof. intros Hp. by apply (holds_touches journal_file). Qed.

Lemma mark_view l : wf d -> view d' l = view d l.
Proof. intros Hw. apply (view_touches journal_file); [done|done|]. by intros [?|?]. Qed.

Lemma mark_state : state_ok d -> state_ok d'.
Proof.
  assert (forall p, p = StateDir \/ p = FormatFile \/ p = LockFile -> ~ journal_file p) as Hn
    by (intros p H [?|?]; naive_solver).
  intros [H1 H2 H3 H4]. split.
  - rewrite mark_tree; auto.
  - apply mark_holds; auto.
  - rewrite mark_tree; auto.
  - apply (preparing_same d); [|done]. intros s. apply mark_tree. by intros [?|?].
Qed.

Lemma mark_dirs : journal_dirs d -> journal_dirs d'.
Proof. intros [H1 H2]. split; rewrite mark_tree; try done; by intros [?|?]. Qed.

Lemma mark_manifest qs : has_manifest d qs -> has_manifest d' qs.
Proof. intros (b & Hb & H). exists b. split; [|done]. apply mark_holds; [by intros [?|?]|done]. Qed.

(** Without the marker the journal is pending. *)
Lemma mark_pending :
  tree d' !! Journal Transaction CommittedFile = None -> pending v d ps gs -> pending v d' ps gs.
Proof.
  intros Hu [Hw Hs Hself Hj Hm _ Hl Ha Hn Hz Ho Hsrc]. split; try done.
  - apply Ht.
  - by apply mark_state.
  - rewrite mark_tree; [done|]. by intros [?|?].
  - by apply mark_dirs.
  - by apply mark_manifest.
  - intros i a g Hi Hg. eapply action_state_frame; [exact Ht| |by apply Ha].
    intros p [->|[->|(s & _ & ->)]]; intros [?|?]; done.
  - intros l H. rewrite mark_view by done. by apply Ho.
  - intros a s H1 H2 H3. unfold view_at. rewrite mark_view by done. by apply (Hsrc a).
Qed.

(** With it, it is committed. *)
Lemma mark_committed :
  holds d' (Journal Transaction CommittedFile) COMMITTED_MARKER -> pending v d ps gs ->
  (forall l, view d l = w l) -> committed w d'.
Proof.
  intros Hmark [Hw Hs Hself Hj Hm _ _ _ _ _ _ _] Hv. split.
  - apply Ht.
  - by apply mark_state.
  - rewrite mark_tree; [done|]. by intros [?|?].
  - by apply mark_dirs.
  - exists ps. by apply mark_manifest.
  - done.
  - intros l. by rewrite mark_view.
Qed.

End mark.

(** The rows of a loop that went through claim every action. *)
Lemma committed_rows_known j : ~ known_not_applied (Some (committed_row <$> ps)) j.
Proof.
  unfold known_not_applied, row_state. cbn. rewrite list_lookup_fmap.
  destruct (ps !! j); cbn; by intros [?|?].
Qed.

Lemma commit_spec d : applied_upto (length ps) d -> finish_wp (commit ps (committed_row <$> ps)) d.
Proof.
  intros Hd. pose proof (au_pending _ _ Hd) as Hp. pose proof (pd_wf _ _ _ _ Hp) as Hw.
  pose proof (Hnew d Hd) as Hview. pose proof (au_unmarked _ _ Hd) as Hfree.
  pose proof (pd_uncommitted _ _ _ _ Hp) as Hunc.
  assert (place_free (Journal Transaction CommittingFile) d = Ok tt) as Hplace
    by (unfold place_free; rewrite Hfree; cbn [parent]; by rewrite (pd_self _ _ _ _ Hp)).
  assert (forall c, touches journal_file d (created (Journal Transaction CommittingFile) c d)) as Ht.
  { intros c. eapply touches_mono; [|apply touches_created; [done|by rewrite Hfree]]. intros p <-. by left. }
  assert (forall c, pending v (created (Journal Transaction CommittingFile) c d) ps gs) as Hpend.
  { intros c. apply (mark_pending d); [done| |done]. cbn. by rewrite lookup_insert_ne. }
  (* The marker was not written: everything is undone. *)
  assert (forall d', pending v d' ps gs -> ~ fine env ->
            finish_wp (abandon ps (committed_row <$> ps) FT_Filesystem) d') as Hback.
  { intros d' Hp' Hf. apply give_up_spec; [done|by right; right|]. split; [done|].
    intros j b _ Hk. by apply committed_rows_known in Hk. }
  unfold commit, write_commit_marker. apply wp_bind, wp_bind, wp_try, wp_write_new_sync.
  { intros e He. congruence. }
  2: { intros Hf. split; [|split; [done|]; left; by eapply stands_pending].
       apply wp_ret. by apply Hback. }
  2: { intros Hf _ c. split; [intros e; apply wp_ret; by apply Hback|].
       split; [done|]. left. by eapply stands_pending. }
  intros _. set (d1 := created (Journal Transaction CommittingFile) COMMITTED_MARKER d).
  set (i := new_inode d).
  set (d2 := set_tree (<[Journal Transaction CommittedFile := File i]>
                         (delete (Journal Transaction CommittingFile) (tree d1))) d1).
  assert (tree d1 !! Journal Transaction CommittingFile = Some (File i)) as H1
    by (cbn; by rewrite lookup_insert_eq).
  assert (tree d1 !! Journal Transaction CommittedFile = None) as H2
    by (cbn; by rewrite lookup_insert_ne).
  assert (touches journal_file d d2) as Ht2.
  { eapply touches_trans; [apply Ht|]. apply touches_rename; [apply (Ht COMMITTED_MARKER)|done|by rewrite H2]. }
  assert (committed w d2) as Hc.
  { apply (mark_committed d); [done| |done|done]. exists i. cbn. rewrite lookup_insert_eq. split; [done|].
    by rewrite lookup_insert_eq. }
  pose proof (stands_committed w d2 Hc) as Hst.
  apply wp_bind, wp_try. eapply wp_update.
  - apply (rename_ok d1 _ _ i); [exact H1|exact H2|]. cbn. rewrite lookup_insert_ne by done. apply Hp.
  - fold d2. apply wp_ret. cbn [negb is_ok]. apply wp_bind, wp_try. eapply wp_done.
    + eapply answers_sync. apply (cm_self _ _ Hc).
    + destruct (dropped_quiet w d2 (cm_wf _ _ Hc) (cm_state _ _ Hc) (cm_view _ _ Hc)) as [Hq Hq'].
      assert (forall d', stands w d' -> (fine env -> quiet w d') ->
                finish_wp (_ ← try (sync_directory StateDir);
                           mret (mkTransactionOutcome (committed_row <$> ps) None)) d') as Hend.
      { intros d' H H'. apply wp_bind, wp_try. unfold sync_directory, query. apply wp_attempt.
        - intros [] d0 Ha. apply bind_ok in Ha as ([] & _ & Ha). injection Ha as <-. by apply wp_ret.
        - intros e _. by apply wp_ret.
        - intros n t _. by apply wp_ret.
        - intros n t Hx%not_fine_halted. split; [done|by right]. }
      apply wp_bind, wp_try, wp_remove; [apply Hc| |].
      * apply Hend; [by apply stands_quiet|done].
      * intros Hf t Hwt. assert (forall l, t <> Gone l) as Hn by (intros; by apply Hwt).
        assert (stands w (remove_torn Transaction t d2)) as Hs3.
        { destruct t; cbn [remove_torn]; try done; [by destruct (Hn slots)|]. by apply stands_quiet. }
        split; [by apply Hend|]. split; [done|by right].
    + intros Hf. split; [|by split; [|right]]. intros e. apply wp_ret. unfold outcome_ok. cbn. by split; [|right].
  - intros Hf. split; [apply wp_ret, Hback; [apply Hpend|done]|]. split; (split; [done|]); [left|by right].
    eapply stands_pending, Hpend.
Qed.

Lemma apply_and_commit_spec d :
  applied_upto 0 d -> finish_wp (apply_and_commit ps limits (replicate (length ps) skipped)) d.
Proof.
  intros Hd. unfold apply_and_commit. apply wp_bind.
  eapply wp_mono; [apply (apply_from_spec ps [] d eq_refl Hd)| |done|].
  2: { intros d' [Hf Hp]. split; [done|]. left. by eapply stands_pending. }
  intros [rows [f|]] d'; cbn [fst snd].
  - intros (Hf & Hfail & Hc). apply wp_bind, wp_ret. by apply give_up_spec.
  - intros [Hn ->]. apply wp_bind, wp_bind, wp_try.
    assert (answers check_control true d' (Done tt)) as Hctl.
    { intros e c p. unfold check_control, mbind, io_bind, poll. cbn.
      destruct (control e p) eqn:Ec; cbn; [done| |]; (split; [done|]; split; [done|];
        intros Hfine; by rewrite (fine_control _ Hfine) in Ec). }
    assert (stands v d') as Hst by (eapply stands_pending; apply Hn).
    intros c p. specialize (Hctl env c p).
    destruct (check_control env _) as [[[]|f|] wd] eqn:E.
    + destruct Hctl as (E1 & E2 & _). split; [done|]. apply wp_ret. rewrite E1. by apply commit_spec.
    + destruct Hctl as (E1 & E2 & Hf). split; [done|]. apply wp_ret. rewrite E1.
      apply give_up_spec.
      * intros Hfine. discriminate (Hf Hfine).
      * unfold check_control, mbind, io_bind, poll in E. cbn in E. unfold filesystem_failure.
        unfold fail in E. destruct (control env p); cbn in E; simplify_eq; auto.
      * split; [apply Hn|]. intros j b _ Hk. by apply committed_rows_known in Hk.
    + destruct Hctl as [-> Hf]. split; [done|by left].
Qed.

End libraries.
