(* ===== verification/PrepareFacts.v ===== *)
(** * PrepareFacts: preparing one action

    [admission v limits totals a] is what preparing needs of the workspace [v].  Preparing
    writes below [transaction.new] only; it succeeds exactly when the action is
    admitted and its paths can be reached, unless a fault stops it, and then the
    action's bytes are staged. *)

From S2P Require Import Prelude Text Workspace Manifest Disk Mutation Transaction JournalState.
From S2P Require Import RollbackFacts Durable ApplyFacts.

(** ** Views of places *)

Definition reach (v : View) (logical : str) : Prop :=
  forall l l', split 47 logical = l ++ l' -> l' <> [] -> v l = Directory.

Lemma view_directory d l : view d l = Directory <-> tree d !! Work l = Some Dir.
Proof.
  unfold view. destruct (tree d !! Work l) as [[|i|]|]; try done. by destruct (data d !! i).
Qed.

Lemma view_absent d s : view_at (view d) s = Absent <-> tree d !! place_of s = None.
Proof.
  unfold view_at, view, place_of. destruct (tree d !! _) as [[|i|]|]; try done. by destruct (data d !! i).
Qed.

Lemma view_contents d s c : view_at (view d) s = Contents c <-> holds d (place_of s) c.
Proof.
  split; [|apply view_holds]. unfold view_at, view, place_of, holds.
  destruct (tree d !! _) as [[|i|]|]; try done. destruct (data d !! i) eqn:E; [|done].
  intros [= ->]. by exists i.
Qed.

Lemma reach_reachable v d s : (forall l, view d l = v l) -> reachable d s <-> reach v s.
Proof.
  intros Hv. unfold reachable, reach. split; intros H l l' Hl Hn.
  - rewrite <- Hv. apply view_directory. by eapply H.
  - apply view_directory. rewrite Hv. by eapply H.
Qed.

(** ** Copying *)

Section libraries.
Context `{lib : Libraries} `{laws : !LibraryLaws lib}.

Lemma wp_copy_loop env p d l acc max b :
  len acc + len (concat l) <= max -> max <= u64_max ->
  wp env (block_loop (fun block => io_s (write_all (new_inode d) block)) l max (len acc) acc)
    (fun r d' => r = (blake3 (acc ++ concat l), len (acc ++ concat l)) /\ d' = created p (acc ++ concat l) d)
    (fun _ d' => ~ fine env /\ exists c, d' = created p c d)
    (fun d' => ~ fine env /\ exists c, d' = created p c d) b (created p acc d).
Proof.
  intros Hl Hm. revert acc Hl. induction l as [|x l IH]; intros acc Hl; cbn [block_loop concat].
  - rewrite app_nil_r.
    eapply wp_bind_done; [apply answers_stopped|by intros Hf; split; [intros e|]; split; eauto|].
    eapply wp_bind_done; [apply answers_io_s, answers_touch|by intros Hf; split; [intros e|]; split; eauto|].
    by apply wp_ret.
  - cbn [concat] in Hl. rewrite len_app in Hl. pose proof (len_nonneg (concat l)).
    eapply wp_bind_done; [apply answers_stopped|by intros Hf; split; [intros e|]; split; eauto|].
    eapply wp_bind_done; [apply answers_io_s, answers_touch|by intros Hf; split; [intros e|]; split; eauto|].
    unfold checked_add. rewrite (proj2 (Z.leb_le _ _)) by lia. apply wp_bind, wp_ret.
    rewrite (proj2 (Z.ltb_ge _ _)) by lia.
    apply wp_bind, wp_map_fail, wp_map_fail. unfold write_all. apply wp_attempt.
    + intros a d' [= <- <-]. rewrite append_created. rewrite app_assoc, <- len_app. apply IH.
      rewrite len_app. lia.
    + done.
    + intros n t Hx%not_fine_refused. split; [done|]. apply append_torn_created.
    + intros n t Hx%not_fine_halted. split; [done|]. apply append_torn_created.
Qed.

(** A copy is whole, or the destination is there in part or not at all. *)
Lemma wp_copy env p q c limits total d (Qd : bytes * Z * Z -> Disk -> Prop)
    (Qe : StepFailure -> Disk -> Prop) (Qc : Disk -> Prop) b :
  holds d p c -> place_free q d = Ok tt -> max_file_bytes limits <= u64_max ->
  (forall total', charge_bytes (len c) limits total = Ok total' ->
     Qd (blake3 c, len c, total') (created q c d)) ->
  (forall e d', (d' = d \/ exists c', d' = created q c' d) ->
     (fine env -> is_ok (charge_bytes (len c) limits total) = false) -> Qe e d') ->
  (forall d', (d' = d \/ exists c', d' = created q c' d) -> ~ fine env -> Qc d') ->
  wp env (copy_file_bounded p q limits total) Qd Qe Qc b d.
Proof.
  intros Hh Hfree Hmax Hd He Hc. destruct (holds_stat _ _ _ Hh) as (i & Ht & Hs). unfold copy_file_bounded.
  assert (~ fine env -> (forall e, Qe e d) /\ Qc d) as Hbad.
  { intros Hf. split; [intros e; by apply He; [left|]|by apply Hc; [left|]]. }
  assert (~ fine env -> forall c', (forall e, Qe e (created q c' d)) /\ Qc (created q c' d)) as Hbad'.
  { intros Hf c'. split; [intros e; apply He; [right; by exists c'|done]|apply Hc; [right; by exists c'|done]]. }
  eapply wp_bind_done; [by apply answers_io_s, answers_stat|done|]. cbn [md_len].
  destruct (max_file_bytes limits <? len c) eqn:Em.
  { apply wp_fail, He; [by left|]. intros _. unfold charge_bytes. by rewrite Em. }
  eapply wp_bind_done; [by apply answers_io_s, answers_open, holds_contents|done|].
  apply wp_bind, wp_map_fail, wp_map_fail. unfold create_new.
  eapply wp_update; [by rewrite Hfree| |].
  2: { intros Hf. destruct (Hbad Hf). split; [done|]. split; [done|]. by apply (Hbad' Hf []). }
  change (mkDisk _ _) with (created q [] d). apply wp_bind.
  pose proof (wp_copy_loop env q d (blocks c) [] (max_file_bytes limits) b) as Hloop.
  rewrite blocks_concat in Hloop. unfold len in Hloop at 1 3. cbn [length app] in Hloop.
  eapply wp_mono; [apply Hloop; unfold len in *; lia| | |].
  - intros r d' [-> ->]. cbn [fst snd].
    eapply wp_bind_done; [apply answers_io_s, answers_touch|intros Hf; by apply (Hbad' Hf)|].
    eapply wp_bind_done; [apply answers_io_s, answers_touch|intros Hf; by apply (Hbad' Hf)|].
    apply wp_bind, wp_lift. destruct (charge_bytes (len c) limits total) as [total'|e] eqn:E.
    + apply wp_ret. by apply Hd.
    + apply He; [right; by eexists|done].
  - intros e d' [Hf [c' ->]]. by apply (Hbad' Hf).
  - intros d' [Hf [c' ->]]. by apply (Hbad' Hf).
Qed.

(** ** Admission *)

(** What the action needs of the workspace; the totals with its bytes. *)
Definition admission (v : View) (limits : FileTransactionLimits) (totals : TransactionTotals)
    (a : FileAction) : option TransactionTotals :=
  let '(mkTotals materialized preimages) := totals in
  let charge c total := to_option (charge_bytes (len c) limits total) in
  let expected c := bool_decide (fa_expected_digest a = Some (blake3 c)) in
  match fa_kind a, fa_destination a, fa_content a with
  | FA_Create, _, Some content =>
      match view_at v (fa_path a) with
      | Absent => m ← charge content materialized; Some (mkTotals m preimages)
      | _ => None
      end
  | (FA_Copy | FA_Move), Some destination, _ =>
      match view_at v destination, view_at v (fa_path a) with
      | Absent, Contents c =>
          if expected c then m ← charge c materialized; Some (mkTotals m preimages) else None
      | _, _ => None
      end
  | FA_Remove, _, _ =>
      match view_at v (fa_path a) with
      | Contents c =>
          if expected c then m ← charge c materialized; Some (mkTotals m preimages) else None
      | _ => None
      end
  | FA_Replace, _, Some content =>
      match view_at v (fa_path a) with
      | Contents c =>
          if expected c then
            p ← charge c preimages; m ← charge content materialized; Some (mkTotals m p)
          else None
      | _ => None
      end
  | _, _, _ => None
  end.

(** The paths of an action are a mutation's, and lead through directories. *)
Definition located (v : View) (a : FileAction) : Prop :=
  forall s, s ∈ action_paths a -> target_ok s = true /\ reach v s.

(** ** What preparing records *)

Record planned (v : View) (limits : FileTransactionLimits) (a : FileAction) (p : PreparedAction)
    (g : Ghost) : Prop := mkPlanned {
  pl_kind : pa_kind p = fa_kind a;
  pl_path : pa_path p = fa_path a;
  pl_destination : pa_destination p = fa_destination a;
  pl_shape : prepared_shape_valid p = true;
  pl_ghost : ghost_ok v p g;
  pl_fits : fits p limits;
  pl_sizes : sizes_ok p;
  pl_fields : digest_ok (pa_digest p) /\ preimage_ok (pa_preimage_digest p, pa_preimage_size p);
  pl_new : match fa_kind a with
           | FA_Create | FA_Replace => fa_content a = Some (g_new g)
           | FA_Copy => view_at v (fa_path a) = Contents (g_new g)
           | _ => True
           end;
}.

(** The bytes that a journal holds for an untouched action. *)
Definition staged (j : JournalName) (index : nat) (p : PreparedAction) (g : Ghost) (d : Disk) : Prop :=
  match pa_kind p with
  | FA_Create | FA_Copy => holds d (Journal j (StageFile index)) (g_new g)
  | FA_Move => True
  | FA_Remove => tree d !! Journal j (RemovedFile index) = None
  | FA_Replace =>
      holds d (Journal j (StageFile index)) (g_new g) /\ holds d (Journal j (RemovedFile index)) (g_old g)
  end.

(** What [FileTransactionLimits::new] accepts. *)
Record limits_ok (l : FileTransactionLimits) : Prop := mkLimitsOk {
  li_file : 0 < max_file_bytes l <= max_total_bytes l;
  li_max_file : max_file_bytes l <= MAX_FILE_TRANSACTION_FILE_BYTES;
  li_max_total : max_total_bytes l <= MAX_FILE_TRANSACTION_TOTAL_BYTES;
}.

Lemma limits_new_ok f t l : 0 <= f -> 0 <= t -> FileTransactionLimits_new f t = Ok l -> limits_ok l.
Proof.
  unfold FileTransactionLimits_new. intros Hf Ht.
  destruct (_ || _) eqn:E; [done|]. intros [= <-]. zbool. split; cbn; lia.
Qed.

Lemma charge_ok n l total total' : charge_bytes n l total = Ok total' ->
  n <= max_file_bytes l /\ total' = total + n /\ total' <= max_total_bytes l.
Proof.
  unfold charge_bytes, checked_add. destruct (_ <? n) eqn:E1; [done|].
  destruct (total + n <=? u64_max) eqn:E2; [|done]. cbn.
  destruct (max_total_bytes l <? total + n) eqn:E3; [done|]. intros [= <-]. lia.
Qed.

(** Bytes that are charged are within the manifest's bounds. *)
Lemma charge_add_size n l total total' : limits_ok l ->
  charge_bytes n l total = Ok total' -> add_size n total = Ok total'.
Proof.
  intros [_ H1 H2] Hc. pose proof Hc as (Hn & -> & Ht)%charge_ok.
  unfold charge_bytes in Hc. unfold add_size, checked_add in *.
  rewrite (proj2 (Z.ltb_ge _ _)) by lia. destruct (_ <? n); [done|].
  destruct (total + n <=? u64_max); [|done]. cbn. by rewrite (proj2 (Z.ltb_ge _ _)) by lia.
Qed.

Section prepare.
Context (env : Environment) (v : View) (limits : FileTransactionLimits) (Hlim : limits_ok limits).

(** What a preparation that is given up leaves. *)
Definition given_up (d : Disk) : Prop := quiet v d /\ state_ok d.

(** A journal in preparation. *)
Record base (d : Disk) : Prop := mkBase {
  ba_quiet : quiet v d;
  ba_state : state_ok d;
  ba_self : tree d !! Journal Preparing Self = Some Dir;
  ba_stage : tree d !! Journal Preparing StageDir = Some Dir;
  ba_removed : tree d !! Journal Preparing RemovedDir = Some Dir;
  ba_manifest : tree d !! Journal Preparing ManifestFile = None;
  ba_uncommitted : tree d !! Journal Preparing CommittedFile = None;
  ba_unmarked : tree d !! Journal Preparing CommittingFile = None;
}.

Lemma base_given_up d : base d -> given_up d.
Proof. by intros []. Qed.

(** A new file of the journal. *)
Section created.
Context (s : Slot) (c : bytes) (d : Disk).
Context (Hs : s <> Self) (Hn : tree d !! Journal Preparing s = None).

Lemma created_touches : wf d -> touches (eq (Journal Preparing s)) d (created (Journal Preparing s) c d).
Proof. intros Hw. apply touches_created; [done|by rewrite Hn]. Qed.

Lemma created_tree p : p <> Journal Preparing s -> tree (created (Journal Preparing s) c d) !! p = tree d !! p.
Proof. intros Hp. cbn. by rewrite lookup_insert_ne. Qed.

Lemma created_given_up :
  given_up d -> tree d !! parent (Journal Preparing s) = Some Dir -> given_up (created (Journal Preparing s) c d).
Proof.
  intros [Hq Hst] Hp. pose proof (st_preparing _ Hst) as [H1 H2].
  assert (touches outer d (created (Journal Preparing s) c d)) as Ht.
  { eapply touches_mono; [|apply created_touches, Hq]. intros q <-. by left. }
  assert (preparing_ok (created (Journal Preparing s) c d)) as Hpr.
  { split; [by rewrite created_tree by congruence|]. intros s' Hs' Hn'.
    assert (tree d !! parent (Journal Preparing s') = Some Dir) as Hd.
    { destruct (decide (s' = s)) as [->|Hne]; [done|]. apply H2; [done|]. by rewrite created_tree in Hn' by congruence. }
    rewrite created_tree; [done|]. intros E. rewrite E in Hd. congruence. }
  assert (lock_ok (created (Journal Preparing s) c d)) as Hl by (unfold lock_ok; rewrite created_tree by done; apply Hst).
  split; [by eapply quiet_outer|by eapply state_outer].
Qed.

Lemma created_base : base d -> (exists k, s = StageFile k \/ s = RemovedFile k) -> base (created (Journal Preparing s) c d).
Proof.
  intros [Hq Hst H1 H2 H3 H4 H5 H6] [k Hk].
  assert (given_up (created (Journal Preparing s) c d)) as [].
  { apply created_given_up; [done|]. by destruct Hk as [-> | ->]. }
  split; try done; rewrite created_tree; try done; by destruct Hk as [-> | ->].
Qed.

Lemma created_free : tree d !! parent (Journal Preparing s) = Some Dir -> place_free (Journal Preparing s) d = Ok tt.
Proof. intros Hp. unfold place_free. by rewrite Hn, Hp. Qed.

End created.

Section one_action.
Context (a : FileAction) (totals : TransactionTotals).

Definition good : Prop := located v a /\ is_Some (admission v limits totals a).

Definition prep_wp {A} (m : io StepFailure A) (Q : A -> Disk -> Prop) (d : Disk) : Prop :=
  wp env m Q (fun _ d' => given_up d' /\ (fine env -> ~ good)) (fun d' => given_up d' /\ ~ fine env) true d.

Lemma prep_fail {A} e (Q : A -> Disk -> Prop) d : given_up d -> ~ good -> prep_wp (fail e) Q d.
Proof. intros Hd Hg. by apply wp_fail. Qed.

Lemma prep_bad {A} d : given_up d -> ~ fine env ->
  (forall e : A, given_up d /\ (fine env -> ~ good)) /\ given_up d /\ ~ fine env.
Proof. intros Hd Hf. by split. Qed.

Lemma prep_answers {A B} (m : io StepFailure B) (k : B -> io StepFailure A) o Q d :
  answers m true d o -> given_up d -> (good -> exists x, o = Done x) ->
  (forall x, o = Done x -> prep_wp (k x) Q d) -> prep_wp (m ≫= k) Q d.
Proof.
  intros Hm Hd Hg Hk. apply wp_bind, (wp_answers _ _ _ _ _ _ _ _ Hm); [done| |done].
  intros e He. split; [done|]. intros Hf Hgood. destruct (Hg Hgood) as [x Hx]. specialize (He Hf). congruence.
Qed.

Lemma prep_checked {A} s m (k : Place -> io StepFailure A) Q d :
  given_up d -> s ∈ action_paths a -> (good -> final_ok d (place_of s) m) ->
  (target_ok s = true -> reach v s -> final_ok d (place_of s) m -> prep_wp (k (place_of s)) Q d) ->
  prep_wp (p_s (checked_mutation_path s m) ≫= k) Q d.
Proof.
  intros Hd Hs Hg Hk. pose proof (proj1 Hd) as Hq.
  destruct (checked_answers d s m (wf_root _ (q_wf _ _ Hq))) as (o & Ho & Hdone & Hinv).
  pose proof (reach_reachable v d s (q_view _ _ Hq)) as Hreach.
  apply wp_bind, wp_map_fail, (wp_answers _ _ _ _ _ _ _ _ Ho).
  - intros p Hp. destruct (Hinv p Hp) as (-> & Ht & Hr & Hf). by apply Hk; [|apply Hreach|].
  - intros e He. split; [done|]. intros Hf [Hl Ha]. destruct (Hl s Hs) as [Ht Hr].
    specialize (He Hf). rewrite (Hdone Ht (proj2 Hreach Hr) (Hg (conj Hl Ha))) in He. done.
  - by intros Hf.
Qed.

(** A path that leads to a file. *)
Lemma prep_source {A} s (k : Place -> io StepFailure A) Q d :
  given_up d -> s ∈ action_paths a -> (good -> exists c, view_at v s = Contents c) ->
  (forall c, view_at v s = Contents c -> holds d (place_of s) c -> target_ok s = true -> reach v s ->
     prep_wp (k (place_of s)) Q d) ->
  prep_wp (p_s (checked_mutation_path s true) ≫= k) Q d.
Proof.
  intros Hd Hs Hg Hk. pose proof (proj1 Hd) as Hq. apply prep_checked; [done|done| |].
  - intros H. destruct (Hg H) as [c Hc]. unfold view_at in Hc. rewrite <- (q_view _ _ Hq) in Hc.
    apply view_contents in Hc. by eapply holds_final.
  - intros Ht Hr Hf. unfold final_ok in Hf.
    destruct (tree d !! place_of s) as [[|i|]|] eqn:E; try done.
    destruct (wf_holds d _ i (q_wf _ _ Hq) E) as [c Hc]. apply (Hk c); [|done|done|done].
    unfold view_at. rewrite <- (q_view _ _ Hq). by apply view_contents.
Qed.

Lemma prep_hash {A} p c total (k : bytes * Z * Z -> io StepFailure A) Q d :
  given_up d -> holds d p c -> (good -> exists t, charge_bytes (len c) limits total = Ok t) ->
  (forall t, charge_bytes (len c) limits total = Ok t -> prep_wp (k (blake3 c, len c, t)) Q d) ->
  prep_wp (hash_file_bounded p limits total ≫= k) Q d.
Proof.
  intros Hd Hh Hg Hk. destruct (hash_answers d p c limits true Hh) as (o & Ho & Hdone & Hinv).
  pose proof (li_max_file _ Hlim) as Hm. unfold MAX_FILE_TRANSACTION_FILE_BYTES in Hm.
  apply wp_bind. unfold hash_file_bounded. apply (prep_answers _ _ _ _ _ Ho); [done| |].
  - intros H. destruct (Hg H) as [t Ht]. apply charge_ok in Ht as (? & _). eexists. apply Hdone. lia.
  - intros r Hr. rewrite (Hinv r Hr). cbn [snd]. apply wp_bind, wp_lift.
    destruct (charge_bytes (len c) limits total) as [t|e]; [by apply wp_ret, Hk|].
    split; [done|]. intros _ H. by destruct (Hg H).
Qed.

(** A path that leads to nothing yet. *)
Lemma prep_absent {A} s total (k : unit -> io StepFailure A) Q d :
  given_up d -> s ∈ action_paths a -> (good -> view_at v s = Absent) ->
  (view_at v s = Absent -> target_ok s = true -> reach v s -> prep_wp (k tt) Q d) ->
  prep_wp (ensure_absent s limits total ≫= k) Q d.
Proof.
  intros Hd Hs Hg Hk. pose proof (proj1 Hd) as Hq.
  assert (view_at (view d) s = view_at v s) as Hv by (unfold view_at; by rewrite (q_view _ _ Hq)).
  apply wp_bind. unfold ensure_absent. apply prep_checked; [done|done| |].
  - intros H. apply none_final, view_absent. by rewrite Hv, Hg.
  - intros Ht Hr Hf. unfold final_ok in Hf.
    eapply wp_match_stat; [done| |by intros Hx; split].
    destruct (tree d !! place_of s) as [[|i|]|] eqn:E; try done.
    + assert (~ good) as Hbad.
      { intros H. apply Hg in H. rewrite <- Hv in H. apply view_absent in H. congruence. }
      unfold stat. rewrite E. cbn [is_file md_node].
      destruct (wf_holds d _ i (q_wf _ _ Hq) E) as [c Hc].
      apply (prep_hash _ c); [done|done|done|]. intros t _. by apply prep_fail.
    + unfold stat. rewrite E. apply wp_ret. apply Hk; [|done|done].
      rewrite <- Hv. by apply view_absent.
Qed.

Lemma prep_charge {A} n total (k : Z -> io StepFailure A) Q d :
  given_up d -> (good -> exists t, charge_bytes n limits total = Ok t) ->
  (forall t, charge_bytes n limits total = Ok t -> prep_wp (k t) Q d) ->
  prep_wp (lift (charge_bytes n limits total) ≫= k) Q d.
Proof.
  intros Hd Hg Hk. apply wp_bind, wp_lift. destruct (charge_bytes n limits total) as [t|e]; [by apply Hk|].
  split; [done|]. intros _ H. by destruct (Hg H).
Qed.

Section slot.
Context (s : Slot) (Hs : exists k, s = StageFile k \/ s = RemovedFile k).
Context (d : Disk) (Hd : base d) (Hn : tree d !! Journal Preparing s = None).

Lemma slot_self : s <> Self.
Proof. by destruct Hs as [k [-> | ->]]. Qed.

Lemma slot_parent : tree d !! parent (Journal Preparing s) = Some Dir.
Proof. destruct Hs as [k [-> | ->]]; [apply (ba_stage _ Hd)|apply (ba_removed _ Hd)]. Qed.

Lemma slot_base c : base (created (Journal Preparing s) c d).
Proof. apply created_base; [apply slot_self|done|done|done]. Qed.

Lemma prep_write {A} c (k : unit -> io StepFailure A) Q :
  prep_wp (k tt) Q (created (Journal Preparing s) c d) ->
  prep_wp (p_s (write_new_sync (Journal Preparing s) c) ≫= k) Q d.
Proof.
  intros Hk. pose proof (created_free s d Hn slot_parent) as Hfree.
  apply wp_bind, wp_map_fail, wp_write_new_sync.
  - intros e He. congruence.
  - by intros _.
  - intros Hf. pose proof (base_given_up d Hd). by split.
  - intros Hf _ c'. pose proof (base_given_up _ (slot_base c')). by split; [intros e|].
Qed.

Lemma prep_copy {A} p c total (k : bytes * Z * Z -> io StepFailure A) Q :
  holds d p c -> (good -> exists t, charge_bytes (len c) limits total = Ok t) ->
  (forall t, charge_bytes (len c) limits total = Ok t ->
     prep_wp (k (blake3 c, len c, t)) Q (created (Journal Preparing s) c d)) ->
  prep_wp (copy_file_bounded p (Journal Preparing s) limits total ≫= k) Q d.
Proof.
  intros Hh Hg Hk. pose proof (created_free s d Hn slot_parent) as Hfree.
  pose proof (li_max_file _ Hlim) as Hm. unfold MAX_FILE_TRANSACTION_FILE_BYTES in Hm.
  assert (forall d', (d' = d \/ exists c', d' = created (Journal Preparing s) c' d) -> given_up d') as Hgive
    by (intros d' [->|[c' ->]]; apply base_given_up; [done|apply slot_base]).
  apply wp_bind, (wp_copy env p _ c limits total d); [done|done|lia|done| |].
  - intros e d' Hd' He. split; [by apply Hgive|]. intros Hf H. destruct (Hg H) as [t Ht].
    specialize (He Hf). by rewrite Ht in He.
  - intros d' Hd' Hf. split; [by apply Hgive|done].
Qed.

End slot.

End one_action.

(** ** The actions *)

Definition slots (n : nat) (p : Place) : Prop :=
  p = Journal Preparing (StageFile n) \/ p = Journal Preparing (RemovedFile n).

Record prepared (n : nat) (a : FileAction) (totals : TransactionTotals) (d : Disk)
    (r : PreparedAction * TransactionTotals) (d' : Disk) : Prop := mkPreparedFact {
  pf_base : base d';
  pf_touches : touches (slots n) d d';
  pf_located : located v a;
  pf_admit : admission v limits totals a = Some r.2;
  pf_planned : exists g, planned v limits a r.1 g /\ staged Preparing n r.1 g d';
  pf_sizes : add_size (pa_size r.1) (tt_materialized totals) = Ok (tt_materialized r.2)
    /\ match pa_preimage_size r.1 with
       | Some size => add_size size (tt_preimages totals)
       | None => Ok (tt_preimages totals)
       end = Ok (tt_preimages r.2);
}.

(** The contents that replacing compares are told apart by their digests. *)
Definition distinguished (a : FileAction) : Prop :=
  fa_kind a = FA_Replace -> forall c content, view_at v (fa_path a) = Contents c ->
  fa_content a = Some content -> blake3 c = blake3 content -> c = content.

Section actions.
Context (n : nat) (a : FileAction) (materialized preimages : Z) (d : Disk).
Context (Hd : base d) (Hshape : shape_valid a = true).
Context (Hs : tree d !! Journal Preparing (StageFile n) = None).
Context (Hr : tree d !! Journal Preparing (RemovedFile n) = None).
Let totals : TransactionTotals := mkTotals materialized preimages.

Definition action_wp (m : io StepFailure (PreparedAction * TransactionTotals)) (d0 : Disk) : Prop :=
  prep_wp a totals m (fun r d' => prepared n a totals d r d') d0.

Lemma charged (c : bytes) total t :
  charge_bytes (len c) limits total = Ok t ->
  0 <= len c <= max_file_bytes limits /\ len c <= MAX_FILE_TRANSACTION_FILE_BYTES /\ len c <= u64_max.
Proof.
  intros H%charge_ok. pose proof (len_nonneg c). pose proof (li_max_file _ Hlim) as Hm.
  unfold MAX_FILE_TRANSACTION_FILE_BYTES in *. lia.
Qed.

Lemma limit_u64 : max_file_bytes limits <= u64_max.
Proof. pose proof (li_max_file _ Hlim) as Hm. unfold MAX_FILE_TRANSACTION_FILE_BYTES in Hm. lia. Qed.

Lemma none_path : fa_destination a = None -> action_paths a = [fa_path a].
Proof. intros E. unfold action_paths, paths_of. by rewrite E. Qed.

Lemma some_path t : fa_destination a = Some t -> action_paths a = [fa_path a; t].
Proof. intros E. unfold action_paths, paths_of. by rewrite E. Qed.

Lemma located_none : fa_destination a = None -> target_ok (fa_path a) = true -> reach v (fa_path a) -> located v a.
Proof. intros E Ht Hre s. rewrite (none_path E). by intros ->%list_elem_of_singleton. Qed.

Lemma prepare_create_spec :
  fa_kind a = FA_Create -> action_wp (prepare_action n a limits totals) d.
Proof.
  intros Hk. unfold shape_valid in Hshape. rewrite Hk in Hshape.
  destruct (fa_destination a) eqn:Ed; [done|]. destruct (fa_expected_digest a); [done|].
  destruct (fa_content a) as [content|] eqn:Ec; [|done].
  assert (admission v limits totals a =
    match view_at v (fa_path a) with
    | Absent => m ← to_option (charge_bytes (len content) limits materialized); Some (mkTotals m preimages)
    | _ => None end) as Hadm by (unfold admission, totals; by rewrite Hk, Ec).
  assert (good a totals -> view_at v (fa_path a) = Absent
            /\ exists t, charge_bytes (len content) limits materialized = Ok t) as Hgood.
  { intros [_ H]. rewrite Hadm in H. destruct (view_at v (fa_path a)); try by destruct H.
    destruct (charge_bytes _ limits materialized); [|by destruct H]. eauto. }
  assert (fa_path a ∈ action_paths a) as Hin by (rewrite none_path by done; set_solver).
  unfold prepare_action. rewrite Hk.
  eapply prep_answers; [apply answers_stopped|by apply base_given_up|eauto|]. intros [] _. cbn [totals].
  apply prep_absent; [by apply base_given_up|done|by intros [? _]%Hgood|]. intros Hv Ht Hre.
  rewrite Ec. apply wp_bind, wp_ret.
  apply prep_charge; [by apply base_given_up|by intros [_ ?]%Hgood|]. intros t Hc.
  destruct (charged content _ _ Hc) as (Hl1 & Hl2 & Hl3).
  apply prep_write; [by exists n; left|done|done|]. apply wp_ret. split.
  - apply slot_base; [by exists n; left|done|done].
  - eapply touches_mono; [|apply created_touches; [done|apply Hd]]. intros p <-. by left.
  - by apply located_none.
  - rewrite Hadm, Hv, Hc. done.
  - exists (mkGhost content []). split.
    + split; cbn [fst pa_kind pa_path pa_destination pa_digest pa_size pa_preimage_digest pa_preimage_size g_new];
        [by rewrite Hk|done|done|..].
      * unfold prepared_shape_valid. cbn. by rewrite Ed.
      * split; [by split|]. unfold target_path. cbn. by rewrite Ed.
      * split; [apply limit_u64|apply Hl1|done].
      * split; [apply Hl2|done].
      * split; [apply blake3_digest|done].
      * by rewrite Hk.
    + exists (new_inode d). cbn. by rewrite !lookup_insert_eq.
  - split; [by eapply charge_add_size|done].
Qed.

(** A source whose bytes are expected, and that are charged. *)
Definition expected_source (c : bytes) (total : Z) : Prop :=
  view_at v (fa_path a) = Contents c /\ fa_expected_digest a = Some (blake3 c)
  /\ exists t, charge_bytes (len c) limits total = Ok t.

Lemma good_transfer t :
  fa_kind a = FA_Copy \/ fa_kind a = FA_Move -> fa_destination a = Some t -> good a totals ->
  view_at v t = Absent /\ exists c, expected_source c materialized.
Proof.
  intros Hk Ed [_ H]. unfold admission, totals in H. unfold expected_source.
  destruct Hk as [Hk|Hk]; rewrite Hk, Ed in H.
  all: destruct (view_at v t); try (by destruct H); split; [done|].
  all: destruct (view_at v (fa_path a)) as [| | |c]; try (by destruct H); exists c; split; [done|].
  all: case_bool_decide; [|by destruct H]; split; [done|].
  all: destruct (charge_bytes _ limits materialized); [by eexists|by destruct H].
Qed.

Lemma admit_transfer t c m :
  fa_kind a = FA_Copy \/ fa_kind a = FA_Move -> fa_destination a = Some t -> view_at v t = Absent ->
  view_at v (fa_path a) = Contents c -> fa_expected_digest a = Some (blake3 c) ->
  charge_bytes (len c) limits materialized = Ok m ->
  admission v limits totals a = Some (mkTotals m preimages).
Proof.
  intros Hk Ed Ht Hv He Hc. unfold admission, totals.
  destruct Hk as [-> | ->]; by rewrite Ed, Ht, Hv, bool_decide_true, Hc.
Qed.

Lemma located_some t : fa_destination a = Some t -> target_ok (fa_path a) = true -> reach v (fa_path a) ->
  target_ok t = true -> reach v t -> located v a.
Proof.
  intros E Ht Hre Ht' Hre' s. rewrite (some_path t E).
  by intros [->| ->%list_elem_of_singleton]%elem_of_cons.
Qed.

Lemma prep_digest {A} c (k : io StepFailure A) Q d0 :
  given_up d0 -> view_at v (fa_path a) = Contents c ->
  (good a totals -> exists c' total, expected_source c' total) ->
  (fa_expected_digest a = Some (blake3 c) -> prep_wp a totals k Q d0) ->
  prep_wp a totals (if negb (bool_decide (Some (blake3 c) = fa_expected_digest a))
                    then fail (SF_Conflict (blake3 c)) else k) Q d0.
Proof.
  intros Hd0 Hv Hg Hk. case_bool_decide as E; cbn [negb]; [by apply Hk|].
  apply prep_fail; [done|]. intros H. destruct (Hg H) as (c' & t & Hv' & He & _). congruence.
Qed.

Lemma prepare_copy_spec :
  fa_kind a = FA_Copy -> action_wp (prepare_action n a limits totals) d.
Proof.
  intros Hk. unfold shape_valid in Hshape. rewrite Hk in Hshape.
  destruct (fa_destination a) as [t|] eqn:Ed; [|done].
  pose proof (good_transfer t (or_introl Hk) Ed) as Hgood.
  pose proof (base_given_up d Hd) as Hgd.
  assert (fa_path a ∈ action_paths a /\ t ∈ action_paths a) as [Hin1 Hin2] by (rewrite (some_path t) by done; set_solver).
  unfold prepare_action. rewrite Hk.
  eapply prep_answers; [apply answers_stopped|done|eauto|]. intros [] _. cbn [totals].
  rewrite Ed. apply wp_bind, wp_ret.
  apply prep_absent; [done|done|by intros [? _]%Hgood|]. intros Hvt Htt Hret.
  apply prep_source; [done|done|intros [_ (c & Hc & _)]%Hgood; by exists c|]. intros c Hv Hh Ht Hre.
  assert (forall c', view_at v (fa_path a) = Contents c' -> c' = c) as Hsame by (intros; congruence).
  apply prep_copy with (c := c); [by exists n; left|done|done|done| |].
  { intros [_ (c' & Hc' & _ & H)]%Hgood. by rewrite <- (Hsame c' Hc'). }
  intros m Hc. destruct (charged c _ _ Hc) as (Hl1 & Hl2 & Hl3). cbn [fst snd].
  pose proof (slot_base (StageFile n) ltac:(by exists n; left) d Hd Hs c) as Hb.
  apply (prep_digest c); [by apply base_given_up|done|intros [_ (c' & H)]%Hgood; by exists c', materialized|].
  intros He. apply wp_ret. split.
  - done.
  - eapply touches_mono; [|apply created_touches; [done|apply Hd]]. intros p <-. by left.
  - by apply (located_some t).
  - by eapply admit_transfer; eauto.
  - exists (mkGhost c []). split.
    + split; cbn [fst pa_kind pa_path pa_destination pa_digest pa_size pa_preimage_digest pa_preimage_size g_new];
        [by rewrite Hk|done|done|..].
      * done.
      * split; [by split|done].
      * split; [apply limit_u64|apply Hl1|done].
      * split; [apply Hl2|done].
      * split; [apply blake3_digest|done].
      * by rewrite Hk.
    + exists (new_inode d). cbn. by rewrite !lookup_insert_eq.
  - split; [by eapply charge_add_size|done].
Qed.

(** Moving and removing write nothing. *)
Lemma untouched_prepared p m :
  located v a -> admission v limits totals a = Some m ->
  (exists g, planned v limits a p g /\ staged Preparing n p g d) ->
  add_size (pa_size p) materialized = Ok (tt_materialized m) -> pa_preimage_size p = None ->
  tt_preimages m = preimages -> prepared n a totals d (p, m) d.
Proof.
  intros Hl Ha Hp Hsz Hpre Ht. split; try done; [apply touches_refl, Hd|]. cbn [fst snd]. by rewrite Hpre, Ht.
Qed.

Lemma prepare_move_spec :
  fa_kind a = FA_Move -> action_wp (prepare_action n a limits totals) d.
Proof.
  intros Hk. unfold shape_valid in Hshape. rewrite Hk in Hshape.
  destruct (fa_destination a) as [t|] eqn:Ed; [|done].
  pose proof (good_transfer t (or_intror Hk) Ed) as Hgood.
  pose proof (base_given_up d Hd) as Hgd.
  assert (fa_path a ∈ action_paths a /\ t ∈ action_paths a) as [Hin1 Hin2] by (rewrite (some_path t) by done; set_solver).
  unfold prepare_action. rewrite Hk.
  eapply prep_answers; [apply answers_stopped|done|eauto|]. intros [] _. cbn [totals].
  rewrite Ed. apply prep_absent; [done|done|by intros [? _]%Hgood|]. intros Hvt Htt Hret.
  apply prep_source; [done|done|intros [_ (c & Hc & _)]%Hgood; by exists c|]. intros c Hv Hh Ht Hre.
  assert (forall c', view_at v (fa_path a) = Contents c' -> c' = c) as Hsame by (intros; congruence).
  apply prep_hash with (c := c); [done|done| |].
  { intros [_ (c' & Hc' & _ & H)]%Hgood. by rewrite <- (Hsame c' Hc'). }
  intros m Hc. destruct (charged c _ _ Hc) as (Hl1 & Hl2 & Hl3). cbn [fst snd].
  apply (prep_digest c); [done|done|intros [_ (c' & H)]%Hgood; by exists c', materialized|].
  intros He. apply wp_ret, untouched_prepared;
    [by apply (located_some t)|by eapply admit_transfer; eauto| |by eapply charge_add_size|done|done].
  exists (mkGhost [] c). split; [|done].
  split; cbn [fst pa_kind pa_path pa_destination pa_digest pa_size pa_preimage_digest pa_preimage_size g_old];
    [done|done|done|..].
  - done.
  - split; [by split|]. split; [done|]. by exists t.
  - split; [apply limit_u64|apply Hl1|done].
  - split; [apply Hl2|done].
  - split; [apply blake3_digest|done].
  - by rewrite Hk.
Qed.

Lemma prepare_remove_spec :
  fa_kind a = FA_Remove -> action_wp (prepare_action n a limits totals) d.
Proof.
  intros Hk. unfold shape_valid in Hshape. rewrite Hk in Hshape.
  destruct (fa_destination a) as [t|] eqn:Ed; [done|].
  pose proof (base_given_up d Hd) as Hgd.
  assert (admission v limits totals a =
    match view_at v (fa_path a) with
    | Contents c => if bool_decide (fa_expected_digest a = Some (blake3 c))
                    then m ← to_option (charge_bytes (len c) limits materialized); Some (mkTotals m preimages)
                    else None
    | _ => None end) as Hadm by (unfold admission, totals; by rewrite Hk).
  assert (good a totals -> exists c, expected_source c materialized) as Hgood.
  { intros [_ H]. rewrite Hadm in H. unfold expected_source.
    destruct (view_at v (fa_path a)) as [| | |c]; try (by destruct H). exists c. split; [done|].
    case_bool_decide; [|by destruct H]. split; [done|].
    destruct (charge_bytes _ limits materialized); [by eexists|by destruct H]. }
  assert (fa_path a ∈ action_paths a) as Hin by (rewrite none_path by done; set_solver).
  unfold prepare_action. rewrite Hk.
  eapply prep_answers; [apply answers_stopped|done|eauto|]. intros [] _. cbn [totals].
  rewrite Ed. apply wp_bind, wp_ret.
  apply prep_source; [done|done|intros (c & Hc & _)%Hgood; by exists c|]. intros c Hv Hh Ht Hre.
  assert (forall c', view_at v (fa_path a) = Contents c' -> c' = c) as Hsame by (intros; congruence).
  apply prep_hash with (c := c); [done|done| |].
  { intros (c' & Hc' & _ & H)%Hgood. by rewrite <- (Hsame c' Hc'). }
  intros m Hc. destruct (charged c _ _ Hc) as (Hl1 & Hl2 & Hl3). cbn [fst snd].
  apply (prep_digest c); [done|done|intros (c' & H)%Hgood; by exists c', materialized|].
  intros He. apply wp_ret, untouched_prepared;
    [by apply located_none|by rewrite Hadm, Hv, bool_decide_true, Hc| |by eapply charge_add_size|done|done].
  exists (mkGhost [] c). split; [|done].
  split; cbn [fst pa_kind pa_path pa_destination pa_digest pa_size pa_preimage_digest pa_preimage_size g_old];
    [done|done|done|..].
  - done.
  - by split.
  - split; [apply limit_u64|apply Hl1|done].
  - split; [apply Hl2|done].
  - split; [apply blake3_digest|done].
  - by rewrite Hk.
Qed.

Lemma prepare_replace_spec :
  fa_kind a = FA_Replace -> distinguished a -> action_wp (prepare_action n a limits totals) d.
Proof.
  intros Hk Hdist. unfold shape_valid in Hshape. rewrite Hk in Hshape.
  destruct (fa_destination a) as [t|] eqn:Ed; [done|].
  destruct (fa_expected_digest a) as [e|] eqn:Ee; [|done]. destruct (fa_content a) as [content|] eqn:Ec; [|done].
  pose proof (base_given_up d Hd) as Hgd.
  assert (admission v limits totals a =
    match view_at v (fa_path a) with
    | Contents c => if bool_decide (fa_expected_digest a = Some (blake3 c))
                    then p ← to_option (charge_bytes (len c) limits preimages);
                         m ← to_option (charge_bytes (len content) limits materialized); Some (mkTotals m p)
                    else None
    | _ => None end) as Hadm by (unfold admission, totals; by rewrite Hk, Ec).
  assert (good a totals -> (exists c, expected_source c preimages)
            /\ exists t, charge_bytes (len content) limits materialized = Ok t) as Hgood.
  { intros [_ H]. rewrite Hadm in H. unfold expected_source.
    destruct (view_at v (fa_path a)) as [| | |c]; try (by destruct H).
    case_bool_decide; [|by destruct H].
    destruct (charge_bytes _ limits preimages) eqn:E1; [|by destruct H].
    destruct (charge_bytes _ limits materialized); [|by destruct H]. split; [|by eexists].
    exists c. split; [done|]. split; [done|]. by eexists. }
  assert (fa_path a ∈ action_paths a) as Hin by (rewrite none_path by done; set_solver).
  unfold prepare_action. rewrite Hk.
  eapply prep_answers; [apply answers_stopped|done|eauto|]. intros [] _. cbn [totals].
  apply prep_source; [done|done|intros [(c & Hc & _) _]%Hgood; by exists c|]. intros c Hv Hh Ht Hre.
  assert (forall c', view_at v (fa_path a) = Contents c' -> c' = c) as Hsame by (intros; congruence).
  apply prep_copy with (c := c); [by exists n; right|done|done|done| |].
  { intros [(c' & Hc' & _ & H) _]%Hgood. by rewrite <- (Hsame c' Hc'). }
  intros m Hc. destruct (charged c _ _ Hc) as (Hl1 & Hl2 & Hl3). cbn [fst snd].
  set (d1 := created (Journal Preparing (RemovedFile n)) c d).
  pose proof (slot_base (RemovedFile n) ltac:(by exists n; right) d Hd Hr c) as Hb. fold d1 in Hb.
  apply (prep_digest c); [by apply base_given_up|done|intros [(c' & H) _]%Hgood; by exists c', preimages|].
  intros He. rewrite Ec. apply wp_bind, wp_ret.
  apply prep_charge; [by apply base_given_up|by intros [_ ?]%Hgood|]. intros m' Hc'.
  destruct (charged content _ _ Hc') as (Hl4 & Hl5 & Hl6).
  assert (tree d1 !! Journal Preparing (StageFile n) = None) as Hs1 by (cbn; by rewrite lookup_insert_ne).
  apply prep_write; [by exists n; left|done|done|]. apply wp_ret.
  assert (touches (eq (Journal Preparing (StageFile n))) d1 (created (Journal Preparing (StageFile n)) content d1)) as Ht1
    by (apply created_touches; [done|apply Hb]).
  split.
  - apply slot_base; [by exists n; left|done|done].
  - eapply touches_trans.
    + eapply touches_mono; [|apply created_touches; [done|apply Hd]]. intros p <-. by right.
    + eapply touches_mono; [|exact Ht1]. intros p <-. by left.
  - by apply located_none.
  - rewrite Hadm, Hv, bool_decide_true by done. by rewrite Hc, Hc'.
  - exists (mkGhost content c). split.
    + split; cbn [fst pa_kind pa_path pa_destination pa_digest pa_size pa_preimage_digest pa_preimage_size g_new];
        [done|done|by rewrite Ed|..].
      * unfold prepared_shape_valid. cbn. by rewrite Ed.
      * split; [by split|]. split; [done|]. split; [done|]. split; [done|]. intros Heq. by apply (Hdist Hk).
      * split; [apply limit_u64|apply Hl4|]. intros k [= <-]. apply Hl1.
      * split; [apply Hl5|]. intros k [= <-]. apply Hl2.
      * split; [apply blake3_digest|]. split; [apply blake3_digest|]. lia.
      * by rewrite Hk.
    + split.
      * exists (new_inode d1). cbn. by rewrite !lookup_insert_eq.
      * eapply holds_touches; [exact Ht1|done|]. exists (new_inode d). cbn. by rewrite !lookup_insert_eq.
  - split; by eapply charge_add_size.
Qed.

Lemma prepare_spec : distinguished a -> action_wp (prepare_action n a limits totals) d.
Proof.
  intros Hdist. destruct (fa_kind a) eqn:E; eauto using prepare_create_spec, prepare_copy_spec,
    prepare_move_spec, prepare_remove_spec, prepare_replace_spec.
Qed.

End actions.

End prepare.

End libraries.
