(* ===== verification/Publishing.v ===== *)
(** * Publishing: from an idle workspace to a published journal

    Making [transaction.new], preparing every action in it, writing the manifest and
    giving the journal its name.  Until then nothing but [transaction.new] has
    changed; from then on the journal is pending with every action untouched. *)

From S2P Require Import Prelude Text Workspace Manifest Disk Mutation Transaction JournalState.
From S2P Require Import RollbackFacts Durable ApplyFacts Committing PrepareFacts.

(** Where failures come from, next to what they leave. *)
Lemma wp_raises {A} (P : StepFailure -> Prop) env (m : io StepFailure A) Qd Qe Qc b d :
  raises P m -> wp env m Qd Qe Qc b d -> wp env m Qd (fun e d => P e /\ Qe e d) Qc b d.
Proof.
  intros Hr H c p. specialize (H c p). specialize (Hr env (mkWorld d b c p)).
  destruct (m env _) as [[a|e|] w]; cbn in *; [done| |done]. destruct H as [? ?]. by split.
Qed.

Lemma raises_try {E A B} (P : StepFailure -> Prop) (m : io E B) (k : result E B -> io StepFailure A) :
  (forall r, raises P (k r)) -> raises P (try m ≫= k).
Proof. intros Hk env w. unfold mbind, io_bind, try. destruct (m env w) as [[x|e|] w']; cbn; [apply Hk|apply Hk|done]. Qed.

Section libraries.
Context `{lib : Libraries} `{laws : !LibraryLaws lib}.

Lemma prepare_stops n a limits totals : raises stop_ok (prepare_action n a limits totals).
Proof.
  assert (stop_ok (SF_Stopped FT_Cancelled)) as H1 by by left.
  assert (stop_ok (SF_Stopped FT_TimedOut)) as H2 by by right.
  assert (forall p l t, raises stop_ok (hash_file_bounded p l t)) as Hhash.
  { intros p l t. apply raises_bind; [auto with raises|]. intros r. apply raises_bind; [|done].
    unfold charge_bytes. destruct (_ <? _); [done|]. destruct (checked_add _ _ _); [|done]. cbn.
    by destruct (_ <? _). }
  assert (forall c l t, raises stop_ok (lift (charge_bytes c l t))) as Hcharge.
  { intros c l t. unfold charge_bytes. destruct (_ <? _); [done|]. destruct (checked_add _ _ _); [|done]. cbn.
    by destruct (_ <? _). }
  assert (forall s l t, raises stop_ok (ensure_absent s l t)) as Habs.
  { intros s l t. apply raises_bind; [auto with raises|]. intros p. apply raises_try.
    intros [m|[]]; auto with raises. destruct (is_file m); [|auto with raises].
    apply raises_bind; [done|]. by intros r; apply raises_fail. }
  assert (forall p q l t, raises stop_ok (copy_file_bounded p q l t)) as Hcopy.
  { intros p q l t. apply raises_bind; [auto with raises|]. intros m. destruct (_ <? _); [done|].
    apply raises_bind; [auto with raises|]. intros b. apply raises_bind; [auto with raises|]. intros i.
    apply raises_bind; [auto with raises|]. intros r.
    apply raises_bind; [auto with raises|]. intros _. apply raises_bind; [auto with raises|]. intros _.
    apply raises_bind; [done|]. auto with raises. }
  assert (forall dg, stop_ok (SF_Conflict dg)) as Hconf by done.
  unfold prepare_action, expect. destruct totals as [m p].
  apply raises_bind; [auto with raises|]. intros _. destruct (fa_kind a).
  - repeat (apply raises_bind; [auto with raises|intros ?]). auto with raises.
  - repeat (apply raises_bind; [auto with raises|intros ?]). destruct (negb _); auto with raises.
  - apply raises_bind; [destruct (fa_destination a); cbn; auto with raises|intros _].
    repeat (apply raises_bind; [auto with raises|intros ?]). destruct (negb _); auto with raises.
  - apply raises_bind; [destruct (fa_destination a); cbn; auto with raises|intros _].
    repeat (apply raises_bind; [auto with raises|intros ?]). destruct (negb _); auto with raises.
  - repeat (apply raises_bind; [auto with raises|intros ?]). destruct (negb _); [auto with raises|].
    repeat (apply raises_bind; [auto with raises|intros ?]). auto with raises.
Qed.

Section run.
Context (env : Environment) (v : View) (limits : FileTransactionLimits) (Hlim : limits_ok limits).

(** ** An empty journal *)

Lemma given_up_dir s d :
  given_up v d -> tree d !! Journal Preparing s = None -> (s = Self \/ tree d !! parent (Journal Preparing s) = Some Dir) ->
  given_up v (set_tree (<[Journal Preparing s := Dir]> (tree d)) d).
Proof.
  intros [Hq Hst] Hn Hp. set (d' := set_tree _ d). pose proof (st_preparing _ Hst) as [H1 H2].
  assert (forall p, p <> Journal Preparing s -> tree d' !! p = tree d !! p) as Ho
    by (intros p Hne; cbn; by rewrite lookup_insert_ne).
  assert (touches outer d d') as Ht.
  { eapply touches_mono with (S := eq (Journal Preparing s)); [intros q <-; by left|]. split.
    - apply wf_insert_dir, Hq.
    - intros p Hne. apply Ho. congruence.
    - intros p Hj. by rewrite Ho by (intros ->; cbn in Hj; by case_bool_decide).
    - done. }
  assert (preparing_ok d') as Hpr.
  { split.
    - destruct (decide (s = Self)) as [->|Hs]; [right; cbn; by rewrite lookup_insert_eq|]. by rewrite Ho by congruence.
    - intros s' Hs' Hn'. destruct (decide (s' = s)) as [->|Hne].
      + destruct Hp as [?|Hp]; [done|]. rewrite Ho; [done|]. intros E. rewrite E in Hp. congruence.
      + rewrite Ho in Hn' by congruence. specialize (H2 s' Hs' Hn').
        rewrite Ho; [done|]. intros E. rewrite E in H2. congruence. }
  assert (lock_ok d') as Hl by (unfold lock_ok; rewrite Ho by done; apply Hst).
  split; [by eapply quiet_outer|by eapply state_outer].
Qed.

Definition make_wp {A} (m : io PlatformError A) (Q : A -> Disk -> Prop) (d : Disk) : Prop :=
  wp env m Q (fun _ d' => given_up v d' /\ ~ fine env) (fun d' => given_up v d' /\ ~ fine env) true d.

Lemma make_dir {A} s (k : unit -> io PlatformError A) Q d :
  given_up v d -> tree d !! Journal Preparing s = None -> tree d !! parent (Journal Preparing s) = Some Dir ->
  (let d' := set_tree (<[Journal Preparing s := Dir]> (tree d)) d in given_up v d' -> make_wp (k tt) Q d') ->
  make_wp (io_p (create_dir (Journal Preparing s)) ≫= k) Q d.
Proof.
  intros Hd Hn Hp Hk. pose proof (given_up_dir s d Hd Hn (or_intror Hp)) as Hd'.
  apply wp_bind, wp_map_fail. eapply wp_update.
  - unfold place_free. rewrite Hn, Hp. reflexivity.
  - by apply Hk.
  - by intros Hf.
Qed.

Lemma create_preparing_spec d :
  given_up v d ->
  make_wp create_preparing (fun _ d' => base v d' /\ forall k,
    tree d' !! Journal Preparing (StageFile k) = None /\ tree d' !! Journal Preparing (RemovedFile k) = None) d.
Proof.
  intros Hd. unfold create_preparing.
  (* From an empty place on. *)
  assert (forall d, given_up v d -> (forall s, tree d !! Journal Preparing s = None) ->
    make_wp (_ ← io_p (create_dir (Journal Preparing Self));
             _ ← io_p (create_dir (Journal Preparing StageDir));
             _ ← io_p (create_dir (Journal Preparing RemovedDir));
             io_p (sync_directory StateDir))
      (fun _ d' => base v d' /\ forall k,
        tree d' !! Journal Preparing (StageFile k) = None /\ tree d' !! Journal Preparing (RemovedFile k) = None) d) as Hrest.
  { clear d Hd. intros d Hd Hn. pose proof (st_dir _ (proj2 Hd)) as Hdir.
    apply make_dir; [done|done|done|]. intros d1 H1.
    apply make_dir; [done|cbn; by rewrite lookup_insert_ne|cbn; by rewrite lookup_insert_eq|]. intros d2 H2.
    apply make_dir; [done|cbn; by rewrite !lookup_insert_ne|cbn; rewrite lookup_insert_ne by done; by rewrite lookup_insert_eq|].
    intros d3 H3. eapply wp_done; [apply answers_io; eapply answers_sync, (proj2 H3)| |by intros Hf].
    split; [split; [apply H3|apply H3|..]|intros k; split]; cbn.
    all: repeat (rewrite lookup_insert_eq || rewrite lookup_insert_ne by done); done. }
  pose proof (st_preparing _ (proj2 Hd)) as Hp.
  eapply wp_bind_done; [apply answers_directory, Hp|by intros Hf|].
  destruct (tree d !! Journal Preparing Self) as [n|] eqn:E.
  - assert (n = Dir) as -> by (destruct Hp as [[?|?] _]; congruence).
    pose proof (stands_quiet v d (proj1 Hd)) as Hst.
    assert (forall t, given_up v (remove_torn Preparing t d)) as Hgone.
    { intros t. destruct (outer_removed t v d Hst (q_wf _ _ (proj1 Hd)) Hp (st_lock _ (proj2 Hd))) as (_ & H2 & H3 & H4).
      split; [by eapply quiet_outer; [..|apply Hd]|by eapply state_outer; [..|apply Hd]]. }
    apply wp_bind, wp_remove; [done| |].
    + apply Hrest; [apply (Hgone Everything)|]. intros s. cbn. rewrite lookup_drop_journal. cbn. by rewrite bool_decide_true.
    + intros Hf t _. by split.
  - apply wp_bind, wp_ret. apply Hrest; [done|]. intros s. by apply preparing_none.
Qed.

(** ** Preparing every action *)

Fixpoint admit_all (totals : TransactionTotals) (actions : list FileAction) : option TransactionTotals :=
  match actions with
  | [] => Some totals
  | a :: actions => totals ← admission v limits totals a; admit_all totals actions
  end.

(** What the actions need of the workspace. *)
Definition acceptable (actions : list FileAction) (totals : TransactionTotals) : Prop :=
  Forall (located v) actions /\ is_Some (admit_all totals actions).

(** The bytes of every action are staged in the journal [j]. *)
Definition all_staged (j : JournalName) (n : nat) (ps : list PreparedAction) (gs : list Ghost) (d : Disk) : Prop :=
  forall i p g, ps !! i = Some p -> gs !! i = Some g -> staged j (n + i) p g d.

Definition all_planned (actions : list FileAction) (ps : list PreparedAction) (gs : list Ghost) : Prop :=
  forall i, match actions !! i, ps !! i, gs !! i with
            | Some a, Some p, Some g => planned v limits a p g /\ located v a
            | None, None, None => True
            | _, _, _ => False
            end.

Definition slots_from (n : nat) (p : Place) : Prop := exists k, (n <= k)%nat /\ slots k p.
Definition free_from (n : nat) (d : Disk) : Prop := forall k, (n <= k)%nat ->
  tree d !! Journal Preparing (StageFile k) = None /\ tree d !! Journal Preparing (RemovedFile k) = None.

Lemma staged_frame S d d' n p g :
  touches S d d' -> (forall q, slots n q -> ~ S q) -> staged Preparing n p g d -> staged Preparing n p g d'.
Proof.
  intros Ht Hf. unfold staged.
  assert (~ S (Journal Preparing (StageFile n))) as H1 by (apply Hf; by left).
  assert (~ S (Journal Preparing (RemovedFile n))) as H2 by (apply Hf; by right).
  destruct (pa_kind p); try done.
  - by apply (holds_touches S).
  - by apply (holds_touches S).
  - by rewrite (to_other _ _ _ Ht).
  - intros [Ha Hb]. split; by eapply holds_touches.
Qed.

Lemma free_slots n d d' : touches (slots n) d d' -> free_from n d -> free_from (S n) d'.
Proof.
  intros Ht Hf k Hk. destruct (Hf k ltac:(lia)) as [H1 H2]. rewrite !(to_other _ _ _ Ht); [done|..].
  all: intros [E|E]; try done; injection E as ->; lia.
Qed.

(** What the preparation loop leaves. *)
Record prepared_all (n : nat) (actions : list FileAction) (totals : TransactionTotals) (d : Disk)
    (ps : list PreparedAction) (d' : Disk) : Prop := mkPreparedAll {
  pra_base : base v d';
  pra_touches : touches (slots_from n) d d';
  pra_ghosts : exists gs, all_planned actions ps gs /\ all_staged Preparing n ps gs d';
  pra_admit : is_Some (admit_all totals actions);
  pra_sizes : sizes_loop ps (tt_materialized totals) (tt_preimages totals) = Ok tt;
}.

Lemma prepare_from_spec actions n totals d :
  base v d -> free_from n d -> Forall (fun a => shape_valid a = true) actions ->
  Forall (distinguished v) actions ->
  wp env (prepare_from n actions limits totals)
    (fun r d' => match r with
       | Ok ps => prepared_all n actions totals d ps d'
       | Err (_, e) => stop_ok e /\ given_up v d' /\ (fine env -> ~ acceptable actions totals)
       end)
    (fun _ _ => False) (fun d' => given_up v d' /\ ~ fine env) true d.
Proof.
  revert n totals d. induction actions as [|a actions IH]; intros n totals d Hd Hf Hs Hdi; cbn [prepare_from].
  - apply wp_ret. split; try done; [apply touches_refl, Hd|]. exists []. by split; intros i.
  - apply list.Forall_cons in Hs as [Hs Hss]. apply list.Forall_cons in Hdi as [Hdi Hdis].
    destruct (Hf n ltac:(lia)) as [Hf1 Hf2]. destruct totals as [m p0] eqn:Et.
    pose proof (prepare_spec env v limits Hlim n a m p0 d Hd Hs Hf1 Hf2 Hdi) as Hspec.
    apply (wp_raises stop_ok) in Hspec; [|apply prepare_stops]. rewrite <- Et in *.
    assert (acceptable (a :: actions) totals ->
            good v limits a totals /\ forall t, admission v limits totals a = Some t -> acceptable actions t) as Hacc.
    { intros [Hl Ha]. apply list.Forall_cons in Hl as [Hl Hls]. cbn [admit_all] in Ha.
      destruct (admission v limits totals a) as [t|] eqn:E; [|by destruct Ha].
      split; [split; [done|by rewrite E]|]. intros t' [= <-]. by split. }
    apply wp_bind, wp_try. eapply wp_mono; [exact Hspec| | |].
    2: { intros e d' (Hst & Hgu & Hng). apply wp_ret. split; [done|]. split; [done|].
         intros Hfine Ha. by apply (Hng Hfine), Hacc. }
    2: done.
    intros [p t] d1 [Hb1 Ht1 Hl1 Ha1 (g & Hp1 & Hst1) (Hz1 & Hz2)]. cbn [fst snd] in *.
    apply wp_bind. eapply wp_mono; [apply (IH (S n) t d1 Hb1)|..]; try done.
    { by eapply free_slots. }
    intros [ps|[i e]] d2.
    + intros [Hb2 Ht2 (gs & Hp2 & Hst2) Ha2 Hz3]. apply wp_ret. cbn [fmap result_fmap]. split.
      * done.
      * eapply touches_trans.
        -- eapply touches_mono; [|exact Ht1]. intros q Hq. by exists n.
        -- eapply touches_mono; [|exact Ht2]. intros q (k & Hk & Hq). exists k. split; [lia|done].
      * exists (g :: gs). split.
        -- intros [|j]; cbn; [by split|]. apply Hp2.
        -- intros [|j] q h Hq Hh; simplify_eq/=.
           ++ rewrite Nat.add_0_r. eapply staged_frame; [exact Ht2| |done].
              intros r Hr (k & Hk & Hr'). destruct Hr as [->| ->], Hr' as [E|E]; try done; injection E as ->; lia.
           ++ rewrite Nat.add_succ_r. by apply (Hst2 j).
      * cbn [admit_all]. by rewrite Ha1.
      * cbn [sizes_loop]. rewrite Hz1. cbn [mbind result_bind]. rewrite Hz2. done.
    + intros (Hst & Hgu & Hng). apply wp_ret. split; [done|]. split; [done|].
      intros Hfine Ha. apply (Hng Hfine). by apply (proj2 (Hacc Ha)).
Qed.

(** ** What is prepared can be recorded *)

Lemma all_planned_nil : all_planned [] [] [].
Proof. by intros i. Qed.

Lemma all_planned_cons a actions p ps g gs :
  all_planned (a :: actions) (p :: ps) (g :: gs) <->
  (planned v limits a p g /\ located v a) /\ all_planned actions ps gs.
Proof.
  split.
  - intros H. split; [exact (H 0%nat)|]. intros i. exact (H (S i)).
  - intros [H1 H2] [|i]; [done|apply H2].
Qed.

Lemma all_planned_ind (P : list FileAction -> list PreparedAction -> list Ghost -> Prop) :
  P [] [] [] ->
  (forall a p g actions ps gs, planned v limits a p g -> located v a -> all_planned actions ps gs ->
     P actions ps gs -> P (a :: actions) (p :: ps) (g :: gs)) ->
  forall actions ps gs, all_planned actions ps gs -> P actions ps gs.
Proof.
  intros Hnil Hcons. induction actions as [|a actions IH]; intros ps gs H.
  - specialize (H 0%nat) as H0. destruct ps, gs; try done.
  - specialize (H 0%nat) as H0. destruct ps as [|p ps], gs as [|g gs]; try done.
    apply all_planned_cons in H as [[H1 H2] H]. by apply Hcons; [..|apply IH].
Qed.

Lemma planned_paths a p g : planned v limits a p g -> prepared_paths p = action_paths a.
Proof. intros [_ Hp Hd _ _ _ _ _ _]. unfold prepared_paths, action_paths. by rewrite Hp, Hd. Qed.

Lemma all_planned_length actions ps gs :
  all_planned actions ps gs -> length ps = length actions /\ length gs = length ps.
Proof. revert actions ps gs. apply all_planned_ind; [done|]. cbn. intros; lia. Qed.

Lemma all_planned_paths actions ps gs :
  all_planned actions ps gs -> ps ≫= prepared_paths = actions ≫= action_paths.
Proof.
  revert actions ps gs. apply all_planned_ind; [done|]. intros a p g actions ps gs Hp _ _ IH.
  by rewrite !bind_cons, IH, (planned_paths a p g).
Qed.

Lemma all_planned_at actions ps gs i p g : all_planned actions ps gs -> ps !! i = Some p -> gs !! i = Some g ->
  exists a, actions !! i = Some a /\ planned v limits a p g /\ located v a.
Proof.
  intros H Hp Hg. specialize (H i). rewrite Hp, Hg in H. destruct (actions !! i) as [a|]; [|done]. by exists a.
Qed.

(** Paths are Rust strings. *)
Definition strings_ok (actions : list FileAction) : Prop :=
  Forall (fun s => valid_str s = true) (actions ≫= action_paths).

Lemma planned_row a p g : planned v limits a p g -> located v a ->
  Forall (fun s => valid_str s = true) (action_paths a) -> row_ok p.
Proof.
  intros Hp Hl Hv. pose proof (planned_paths a p g Hp) as Hpp. rewrite list.Forall_forall in Hv.
  pose proof Hp as [_ _ _ Hs Hg _ [Hz Hz'] [Hdg Hpre] _].
  assert (forall s, s ∈ prepared_paths p -> text_ok s) as Htext.
  { intros s Hs'. rewrite Hpp in Hs'. split; [by apply Hv|]. apply validate_logical_len.
    destruct (Hl s Hs') as [Ht _]. unfold target_ok in Ht. by zbool. }
  split; [|done]. unfold prepared_paths, paths_of in Htext. split.
  - apply Htext. set_solver.
  - intros t Et. apply Htext. rewrite Et. set_solver.
  - done.
  - assert (0 <= pa_size p) as H0.
    { assert (exists c, describes p c) as (c & _ & ->) by (unfold ghost_ok in Hg; destruct (pa_kind p); naive_solver).
      apply len_nonneg. }
    unfold MAX_FILE_TRANSACTION_FILE_BYTES in Hz. lia.
  - unfold preimage_ok in Hpre. by destruct (pa_preimage_digest p), (pa_preimage_size p).
Qed.

Lemma planned_manifest actions ps gs :
  all_planned actions ps gs -> 1 <= len actions <= MAX_ACTIONS -> strings_ok actions ->
  NoDup (actions ≫= action_paths) -> sizes_loop ps 0 0 = Ok tt -> manifest_ok ps.
Proof.
  intros Hp Hc Hv Hn Hz. pose proof (all_planned_paths _ _ _ Hp) as Hpaths.
  destruct (all_planned_length _ _ _ Hp) as [Hl _]. split.
  - unfold len in *. by rewrite Hl.
  - clear Hc Hn Hz Hpaths Hl. revert actions ps gs Hp Hv. apply (all_planned_ind (fun actions ps _ => strings_ok actions -> Forall row_ok ps)); [done|].
    intros a p g actions ps gs Hp Hl _ IH Hv. unfold strings_ok in Hv. rewrite bind_cons, Forall_app in Hv.
    destruct Hv as [Hv1 Hv2]. constructor; [by eapply planned_row|by apply IH].
  - rewrite Hpaths. apply list.Forall_forall. intros s Hs.
    apply list_elem_of_bind in Hs as (a & Hs & Ha). apply list_elem_of_lookup_1 in Ha as [i Hi].
    specialize (Hp i). rewrite Hi in Hp. destruct (ps !! i), (gs !! i); try done. by apply Hp.
  - by rewrite Hpaths.
  - done.
Qed.

(** ** The rename *)

Lemma exchange_twice p : exchange Preparing Transaction (exchange Preparing Transaction p) = p.
Proof. by destruct p as [| | | |[] s]. Qed.

#[local] Instance exchange_inj : Inj (=) (=) (exchange Preparing Transaction).
Proof. intros p q H. by rewrite <- (exchange_twice p), H, exchange_twice. Qed.

(** The journal in preparation gets its name. *)
Definition published (d : Disk) : Disk :=
  set_tree (kmap (exchange Preparing Transaction) (drop_journal Transaction (tree d))) d.

Lemma published_tree d p :
  tree (published d) !! p = drop_journal Transaction (tree d) !! exchange Preparing Transaction p.
Proof.
  pose proof (lookup_kmap (exchange Preparing Transaction) (drop_journal Transaction (tree d))
    (exchange Preparing Transaction p)) as H.
  by rewrite exchange_twice in H.
Qed.

Lemma published_transaction d s : tree (published d) !! Journal Transaction s = tree d !! Journal Preparing s.
Proof. rewrite published_tree, lookup_drop_journal. done. Qed.

Lemma published_preparing d s : tree (published d) !! Journal Preparing s = None.
Proof. rewrite published_tree, lookup_drop_journal. done. Qed.

Lemma published_other d p :
  in_journal Preparing p = false -> in_journal Transaction p = false -> tree (published d) !! p = tree d !! p.
Proof. intros H1 H2. rewrite published_tree, lookup_drop_journal. by destruct p as [| | | |[] s]. Qed.

Lemma published_holds d s c : holds d (Journal Preparing s) c -> holds (published d) (Journal Transaction s) c.
Proof. intros (i & Ht & Hc). exists i. by rewrite published_transaction. Qed.

Lemma published_view d l : view (published d) l = view d l.
Proof. unfold view. by rewrite published_other. Qed.

Lemma published_staged n p g d : staged Preparing n p g d -> staged Transaction n p g (published d).
Proof.
  unfold staged. destruct (pa_kind p); try done; [by apply published_holds|by apply published_holds| |].
  - by rewrite published_transaction.
  - intros [H1 H2]. split; by apply published_holds.
Qed.

Lemma journal_free d : no_journal d -> journal_empty Transaction (tree d) = true.
Proof.
  intros Hn. apply bool_decide_eq_true. intros p x Hp. left. destruct p as [| | | |m s]; try done.
  cbn. case_bool_decide as E; [|done]. subst m. by rewrite Hn in Hp.
Qed.

(** An action whose bytes are staged is untouched. *)
Lemma staged_untouched d n a p g :
  planned v limits a p g -> (forall l, view d l = v l) -> staged Transaction n p g d ->
  midway d n p g /\ untouched d n p g.
Proof.
  intros Hp Hview Hst. pose proof (pl_ghost _ _ _ _ _ Hp) as Hg.
  assert (forall s, view_at v s = Absent -> tree d !! place_of s = None) as Habs
    by (intros s H; apply view_absent; unfold view_at in *; by rewrite Hview).
  assert (forall s c, view_at v s = Contents c -> holds d (place_of s) c) as Hcon
    by (intros s c H; apply view_contents; unfold view_at in *; by rewrite Hview).
  unfold staged, ghost_ok, midway, untouched in *. unfold stage_of, removed_of.
  destruct (pa_kind p).
  1,2: destruct Hst as (i & Hi & Hdi), Hg as [_ Ht%Habs]; split; [|by rewrite Hi];
    exists i; split; [done|]; split; [by right|by left].
  - destruct Hg as (_ & Hs & t & Et & Ht). assert (target_path p = t) as -> by (unfold target_path; by rewrite Et).
    apply Hcon in Hs as (i & Hi & Hdi). apply Habs in Ht. split; [|done].
    exists i. split; [done|]. split; [by right|]. split; [by left|]. congruence.
  - destruct Hg as (_ & Hs). apply Hcon in Hs as (i & Hi & Hdi). split; [|done]. exists i. split; [done|]. by left.
  - destruct Hg as (_ & Hs & _), Hst as [H1 H2]. apply Hcon in Hs. split; [|done].
    split; [by right|]. split; [by left|]. right. by exists (g_new g).
Qed.

Section publish.
Context (actions : list FileAction) (ps : list PreparedAction) (gs : list Ghost).
Context (Hp : all_planned actions ps gs) (Hok : manifest_ok ps).

Lemma published_pending d b :
  quiet v d -> state_ok d ->
  tree d !! Journal Preparing Self = Some Dir -> tree d !! Journal Preparing StageDir = Some Dir ->
  tree d !! Journal Preparing RemovedDir = Some Dir -> tree d !! Journal Preparing CommittedFile = None ->
  tree d !! Journal Preparing CommittingFile = None ->
  holds d (Journal Preparing ManifestFile) b -> len b <= MAX_MANIFEST_BYTES -> decode_manifest blake3 b = Ok ps ->
  all_staged Preparing 0 ps gs d -> applied_upto v ps gs 0 (published d).
Proof.
  intros Hq [S1 (si & S2 & S3) S4 _] H1 H2 H3 H4 H5 Hb Hlen Hdec Hst.
  pose proof (q_wf _ _ Hq) as [Hr Hf].
  assert (forall l, view (published d) l = v l) as Hview by (intros l; by rewrite published_view, (q_view _ _ Hq)).
  assert (wf (published d)) as Hw.
  { split; [by rewrite published_other|]. intros p i Hpi. rewrite published_tree, lookup_drop_journal in Hpi.
    destruct (in_journal _ _); [done|]. by apply (Hf _ _ Hpi). }
  assert (forall i p g, ps !! i = Some p -> gs !! i = Some g ->
    exists a, planned v limits a p g /\ located v a /\ midway (published d) i p g /\ untouched (published d) i p g) as Hact.
  { intros i p g Hi Hg. destruct (all_planned_at _ _ _ _ _ _ Hp Hi Hg) as (a & _ & Hpl & Hl).
    exists a. split; [done|]. split; [done|]. eapply staged_untouched; [done|done|].
    apply published_staged. by apply (Hst i p g). }
  split; [|by rewrite published_transaction|intros; lia|].
  2: { intros j p g _ Hj Hg. by destruct (Hact j p g Hj Hg) as (a & _ & _ & _ & H). }
  split.
  - done.
  - split.
    + by rewrite published_other.
    + exists si. by rewrite published_other.
    + by rewrite published_other.
    + split; [left|intros s _]; by rewrite published_preparing.
  - by rewrite published_transaction.
  - split; by rewrite published_transaction.
  - exists b. split; [by apply published_holds|done].
  - by rewrite published_transaction.
  - by apply (all_planned_length actions).
  - intros i p g Hi Hg. destruct (Hact i p g Hi Hg) as (a & Hpl & Hl & Hmid & _).
    split; [apply Hpl|apply Hpl| |done]. intros s Hs.
    apply (changed_in p s (pl_shape _ _ _ _ _ Hpl)) in Hs. rewrite (planned_paths a p g Hpl) in Hs.
    destruct (Hl s Hs) as [Ht Hre]. split; [done|]. by apply (reach_reachable v).
  - apply Hok.
  - intros p Hin. apply list_elem_of_lookup_1 in Hin as [i Hi].
    specialize (Hp i). rewrite Hi in Hp. destruct (actions !! i), (gs !! i); try done. by apply Hp.
  - intros l _. apply Hview.
  - intros p s _ _ _. unfold view_at. apply Hview.
Qed.

Lemma publish_spec d :
  base v d -> all_staged Preparing 0 ps gs d ->
  wp env (publish ps) (fun _ d' => applied_upto v ps gs 0 d')
    (fun _ d' => ~ fine env /\ stands v d') (fun d' => ~ fine env /\ stands v d') true d.
Proof.
  intros Hd Hst. pose proof (base_given_up _ d Hd) as Hg.
  destruct (manifest_written blake3 blake3_digest ps Hok) as (b & Henc & Hdec & Hlen).
  set (s := ManifestFile). assert (tree d !! Journal Preparing s = None) as Hn by apply Hd.
  assert (tree d !! parent (Journal Preparing s) = Some Dir) as Hpar by apply (ba_self _ _ Hd).
  assert (forall c, given_up v (created (Journal Preparing s) c d)) as Hgc by (intros c; by apply created_given_up).
  assert (forall d', given_up v d' -> ~ fine env -> ~ fine env /\ stands v d') as Hbad
    by (intros d' [Hq _] Hf; split; [done|by apply stands_quiet]).
  unfold publish. apply wp_bind, wp_lift. rewrite Henc. apply wp_bind, wp_write_new_sync.
  { intros e He. by rewrite created_free in He. }
  2: { intros Hf. split; by apply Hbad. }
  2: { intros Hf _ c. split; [intros e|]; by apply Hbad. }
  intros _. set (d1 := created (Journal Preparing s) b d).
  assert (forall p, p <> Journal Preparing s -> tree d1 !! p = tree d !! p) as Ho by (intros; by apply created_tree).
  assert (touches (eq (Journal Preparing s)) d d1) as Ht by (apply created_touches; [done|apply Hd]).
  destruct (Hgc b) as [Hq1 Hs1]. fold d1 in Hq1, Hs1.
  eapply wp_bind_done; [apply answers_io; eapply answers_sync; rewrite Ho by done; apply (ba_self _ _ Hd)| |].
  { intros Hf. split; [intros e|]; by apply Hbad. }
  assert (applied_upto v ps gs 0 (published d1)) as Hup.
  { apply (published_pending d1 b); try done; try (rewrite Ho by done; apply Hd).
    - exists (new_inode d). cbn. by rewrite !lookup_insert_eq.
    - intros i p g Hi Hgi. eapply staged_frame; [exact Ht| |by eapply Hst].
      by intros q [->| ->]. }
  assert (stands v (published d1)) as Hst1 by (eapply stands_pending; apply Hup).
  change (created (Journal Preparing ManifestFile) b d) with d1.
  apply wp_bind, wp_map_fail. eapply wp_update.
  - rewrite Ho by done. rewrite (ba_self _ _ Hd), (journal_free d1) by apply Hq1. reflexivity.
  - fold (published d1). eapply wp_done; [apply answers_io; eapply answers_sync; apply Hup|done|].
    intros Hf. by split.
  - intros Hf. fold (published d1). split; [by apply Hbad|]. split; [by apply Hbad|done].
Qed.

End publish.

End run.

End libraries.
