(* ===== verification/Atomicity.v ===== *)
(** * Atomicity: a file transaction happens or does not

    [file_transaction] refines [perform_all]: whatever faults occur, the disk stands
    for the workspace before or after all of the actions, and what the outcome
    reports is so.  Without faults a transaction succeeds exactly when it is valid and
    the workspace admits it. *)

From S2P Require Import Prelude Text Workspace Manifest Disk Mutation Transaction JournalState.
From S2P Require Import RollbackFacts Durable ApplyFacts Committing PrepareFacts Publishing.

(** ** Validation *)

Definition request_path_ok (internal_state : bool) (s : str) : bool :=
  is_ok (validate_logical s) && is_ok (reject_reserved internal_state s) && negb (bool_decide (s = L ".")).

Lemma claim_path_iff internal p paths paths' :
  claim_path internal p paths = Ok paths' <-> claimed (request_path_ok internal) [p] paths paths'.
Proof.
  rewrite claimed_one. unfold claim_path, request_path_ok.
  destruct (validate_logical p) as [[]|]; cbn; [|naive_solver].
  destruct (reject_reserved internal p) as [[]|]; cbn; [|naive_solver].
  destruct (bool_decide (p = _)); cbn; [naive_solver|]. case_bool_decide; naive_solver.
Qed.

Lemma validate_each_iff internal actions paths :
  validate_each internal actions paths = Ok tt <->
  (exists paths', claimed (request_path_ok internal) (actions ≫= action_paths) paths paths')
  /\ Forall (fun a => shape_valid a = true) actions.
Proof.
  revert paths. induction actions as [|a actions IH]; intros paths; cbn [validate_each].
  - split; [|done]. intros _. split; [|constructor]. exists paths. by apply claimed_nil.
  - rewrite bind_cons, list.Forall_cons. setoid_rewrite claimed_app. split.
    + intros H. apply bind_ok in H as (p1 & H1 & H). apply bind_ok in H as (p2 & H2 & H).
      destruct (shape_valid a) eqn:E; [|done]. apply IH in H as [[p3 H3] Hs].
      split; [|done]. exists p3, p2. split; [|done].
      apply (claim_both _ (claim_path internal)); [apply claim_path_iff|]. by exists p1.
    + intros [(p3 & p2 & H12 & H3) [E Hs]].
      apply (claim_both _ (claim_path internal)) in H12 as (p1 & H1 & H2); [|apply claim_path_iff].
      apply bind_ok. exists p1. split; [done|]. apply bind_ok. exists p2. split; [done|].
      rewrite E. apply IH. split; [by exists p3|done].
Qed.

Lemma validate_actions_iff internal actions :
  validate_actions internal actions = Ok tt <->
  1 <= len actions <= MAX_ACTIONS
  /\ Forall (fun s => request_path_ok internal s = true) (actions ≫= action_paths)
  /\ NoDup (actions ≫= action_paths) /\ Forall (fun a => shape_valid a = true) actions.
Proof.
  unfold validate_actions. assert (1 <= len actions <-> actions <> []) as Hne.
  { unfold len. destruct actions; cbn; split; try done; lia. }
  case_bool_decide as E; cbn [orb].
  - split; [done|]. intros (H & _). by apply Hne in E; [|lia].
  - destruct (MAX_ACTIONS <? len actions) eqn:El; [split; [done|]; lia|].
    rewrite validate_each_iff, claimed_fresh. split; [|naive_solver].
    intros [[Hp Hn] Hs]. split; [|done]. apply Hne in E. lia.
Qed.

(** ** What performing does *)

Section perform.
Implicit Types (a : FileAction) (v w : View) (s t : str).

Lemma store_at s e v l : store s e v l = if decide (l = split 47 s) then e else v l.
Proof. done. Qed.

Lemma perform_other a v l : (forall s, s ∈ action_paths a -> split 47 s <> l) -> perform a v l = v l.
Proof.
  unfold action_paths, paths_of, perform. intros H.
  assert (l <> split 47 (fa_path a)) as Hp by (intros ->; apply (H (fa_path a)); [set_solver|done]).
  destruct (fa_destination a) as [t|].
  - assert (l <> split 47 t) as Ht by (intros ->; apply (H t); [set_solver|done]).
    destruct (fa_kind a); repeat (rewrite store_at, decide_False by done); done.
  - destruct (fa_kind a); repeat (rewrite store_at, decide_False by done); done.
Qed.

Lemma perform_local a v w s :
  (forall t, t ∈ action_paths a -> view_at v t = view_at w t) -> s ∈ action_paths a ->
  view_at (perform a v) s = view_at (perform a w) s.
Proof.
  intros H Hs. pose proof (H s Hs) as Hvs. unfold view_at in Hvs.
  assert (view_at v (fa_path a) = view_at w (fa_path a)) as Hp by (apply H; unfold action_paths, paths_of; set_solver).
  unfold perform. destruct (fa_kind a), (fa_destination a) as [t|]; unfold view_at in *;
    repeat (rewrite store_at; case_decide); done.
Qed.

Lemma perform_all_cons a actions v : perform_all (a :: actions) v = perform_all actions (perform a v).
Proof. done. Qed.

Lemma perform_all_other actions v l :
  (forall s, s ∈ actions ≫= action_paths -> split 47 s <> l) -> perform_all actions v l = v l.
Proof.
  revert v. induction actions as [|a actions IH]; intros v H; [done|].
  rewrite perform_all_cons. rewrite bind_cons in H. rewrite IH by (intros s Hs; apply H; apply elem_of_app; by right).
  apply perform_other. intros s Hs. apply H, elem_of_app. by left.
Qed.

Lemma perform_all_at actions v i a s :
  NoDup (actions ≫= action_paths) -> actions !! i = Some a -> s ∈ action_paths a ->
  view_at (perform_all actions v) s = view_at (perform a v) s.
Proof.
  revert v i. induction actions as [|b actions IH]; intros v i Hn Hi Hs; [done|].
  rewrite bind_cons, list.NoDup_app in Hn. destruct Hn as (_ & Hd & Hn). rewrite perform_all_cons.
  destruct i as [|i]; simplify_eq/=.
  - unfold view_at. apply perform_all_other. intros t Ht E. apply split_inj in E as ->. by apply (Hd s).
  - rewrite (IH _ i) by done. apply perform_local; [|done]. intros t Ht. unfold view_at.
    apply perform_other. intros t' Ht' E. apply split_inj in E as ->. apply (Hd t Ht').
    apply list_elem_of_bind. exists a. split; [done|]. by eapply list_elem_of_lookup_2.
Qed.

End perform.

Section libraries.
Context `{lib : Libraries} `{laws : !LibraryLaws lib}.

(** An action's record has the effect of the action. *)
Lemma planned_effect v limits a p g s :
  planned v limits a p g -> NoDup (action_paths a) -> s ∈ action_paths a ->
  view_at (perform a v) s = if decide (s ∈ changed_paths p) then view_at (effect p g v) s else view_at v s.
Proof.
  intros [Hk Hp Hd Hs Hg _ _ _ Hnew] Hn Hin. unfold action_paths, paths_of in Hin, Hn.
  unfold prepared_shape_valid in Hs. unfold changed_paths, effect, perform, ghost_ok in *. rewrite Hk in *.
  destruct (fa_kind a).
  - rewrite <- Hd in *. destruct (pa_destination p) eqn:E; [done|]. apply list_elem_of_singleton in Hin as ->.
    assert (target_path p = fa_path a) as -> by (unfold target_path; by rewrite E, <- Hp).
    rewrite decide_True by set_solver. by rewrite Hnew.
  - destruct (fa_destination a) as [t|] eqn:E; [|by rewrite Hd in Hs].
    assert (target_path p = t) as -> by (unfold target_path; by rewrite Hd). rewrite Hnew.
    apply list.NoDup_cons in Hn as [Hn _]. apply elem_of_cons in Hin as [->|Hin%list_elem_of_singleton].
    + rewrite decide_False by set_solver. rewrite store_other; [done|]. intros ->. apply Hn. set_solver.
    + subst s. by rewrite decide_True by set_solver.
  - destruct (fa_destination a) as [t|] eqn:E; [|by rewrite Hd in Hs].
    assert (target_path p = t) as -> by (unfold target_path; by rewrite Hd). rewrite Hp in *.
    destruct Hg as (_ & -> & _). by rewrite decide_True.
  - rewrite <- Hd in *. destruct (pa_destination p) eqn:E; [done|]. apply list_elem_of_singleton in Hin as ->.
    rewrite Hp. by rewrite decide_True by set_solver.
  - rewrite <- Hd in *. destruct (pa_destination p) eqn:E; [done|]. apply list_elem_of_singleton in Hin as ->.
    rewrite Hp. rewrite decide_True by set_solver. by rewrite Hnew.
Qed.

Lemma performed v limits actions ps gs d :
  all_planned v limits actions ps gs -> NoDup (actions ≫= action_paths) ->
  applied_upto v ps gs (length ps) d -> forall l, view d l = perform_all actions v l.
Proof.
  intros Hpl Hn [Hp _ Harr _] l. pose proof (all_planned_paths v limits _ _ _ Hpl) as Hpaths.
  destruct (decide (Exists (fun s => split 47 s = l) (actions ≫= action_paths))) as [H|H].
  2: { assert (forall s, s ∈ actions ≫= action_paths -> split 47 s <> l) as Hno
         by (intros s Hs E; apply H, list.Exists_exists; by exists s).
       rewrite perform_all_other by done. apply (pd_others _ _ _ _ Hp). by rewrite Hpaths. }
  apply list.Exists_exists in H as (s & Hs & <-). apply list_elem_of_bind in Hs as (a & Hs & Ha).
  apply list_elem_of_lookup_1 in Ha as [i Hi]. specialize (Hpl i) as Hpi. rewrite Hi in Hpi.
  destruct (ps !! i) as [p|] eqn:Ei, (gs !! i) as [g|] eqn:Eg; try done. destruct Hpi as [Hpi _].
  assert (NoDup (action_paths a)) as Hna.
  { rewrite <- (planned_paths v limits a p g Hpi). eapply bind_nodup; [apply Hp|]. by eapply list_elem_of_lookup_2. }
  change (view_at (view d) s = view_at (perform_all actions v) s).
  rewrite (perform_all_at actions v i a s Hn Hi Hs), (planned_effect v limits a p g s Hpi Hna Hs).
  case_decide as Hc.
  - apply (Harr i p g); [by eapply lookup_lt_Some|done|done|done].
  - apply (pd_sources _ _ _ _ Hp p s); [by eapply list_elem_of_lookup_2| |done].
    by rewrite (planned_paths v limits a p g Hpi).
Qed.

(** ** The transaction *)

Section run.
Context (env : Environment) (Hwhole : whole_removals env).
Context (v : View) (limits : FileTransactionLimits) (Hlim : limits_ok limits).
Context (actions : list FileAction).

(** What the transaction needs of the workspace and of the request. *)
Definition accepted : Prop :=
  acceptable v limits actions (mkTotals 0 0) /\ exists internal, validate_actions internal actions = Ok tt.

(** What the outcome says is so; [F] is that nothing went wrong. *)
Definition outcome_true (F : Prop) (o : FileTransactionOutcome) (d : Disk) : Prop :=
  match to_failure o with
  | None =>
      stands (perform_all actions v) d /\ accepted
      /\ (forall j, (j < length actions)%nat -> row_state (Some (to_actions o)) j = Some AS_Committed)
      /\ (F -> quiet (perform_all actions v) d)
  | Some FT_RecoveryRequired => ~ F /\ (stands v d \/ stands (perform_all actions v) d)
  | Some _ =>
      stands v d /\ (forall j, (j < length actions)%nat -> row_settled (Some (to_actions o)) j)
      /\ (F -> quiet v d /\ ~ accepted)
  end.

(** Failing, or dying. *)
Definition error_true (F : Prop) (d : Disk) : Prop := stands v d /\ (F -> ~ accepted).
Definition crash_true (F : Prop) (d : Disk) : Prop := ~ F /\ (stands v d \/ stands (perform_all actions v) d).

Lemma outcome_mono (F F' : Prop) o d : (F' -> F) -> outcome_true F o d -> outcome_true F' o d.
Proof. intros H. unfold outcome_true. destruct (to_failure o) as [[]|]; naive_solver. Qed.

Definition transaction_wp (m : io PlatformError FileTransactionOutcome) (d : Disk) : Prop :=
  wp env m (outcome_true (fine env)) (fun _ => error_true (fine env)) (crash_true (fine env)) true d.

Lemma row_skipped n j : row_settled (Some (replicate n skipped)) j.
Proof.
  unfold row_settled, row_state. cbn. destruct (replicate n skipped !! j) as [r|] eqn:E; [|done].
  apply lookup_replicate in E as [-> _]. done.
Qed.

Lemma row_conflict n i dg j : row_settled (Some (set_row i AS_Conflict dg (replicate n skipped))) j.
Proof.
  unfold row_settled, row_state, set_row. cbn.
  destruct (_ !! j) as [r|] eqn:E; [|done]. cbn.
  apply list_lookup_insert_Some in E as [(_ & <- & _)|[_ E]]; [done|].
  apply lookup_replicate in E as [-> _]. done.
Qed.

Lemma remove_preparing_spec d :
  given_up v d ->
  wp env (remove_directory_if_present Preparing) (fun _ d' => given_up v d')
    (fun _ d' => given_up v d' /\ ~ fine env) (fun d' => given_up v d' /\ ~ fine env) true d.
Proof.
  intros Hd. pose proof (st_preparing _ (proj2 Hd)) as Hp.
  assert (forall t, given_up v (remove_torn Preparing t d)) as Hgone.
  { intros t. destruct (outer_removed t v d (stands_quiet v d (proj1 Hd)) (q_wf _ _ (proj1 Hd)) Hp (st_lock _ (proj2 Hd)))
      as (_ & H2 & H3 & H4).
    split; [by eapply quiet_outer; [..|apply Hd]|by eapply state_outer; [..|apply Hd]]. }
  destruct (proj1 Hp) as [Hn|Hs].
  - unfold remove_directory_if_present, remove_dir_all. apply wp_bind, wp_try, wp_attempt.
    + intros u d' H. by rewrite Hn in H.
    + intros e H. rewrite Hn in H. injection H as <-. by apply wp_ret.
    + intros n t H%not_fine_refused. by apply wp_fail.
    + by intros n t H%not_fine_halted.
  - apply wp_remove; [done|apply (Hgone Everything)|]. intros Hf t _. by split.
Qed.

(** From the prepared actions on. *)
Lemma prepared_spec ps d :
  1 <= len actions <= MAX_ACTIONS -> NoDup (actions ≫= action_paths) -> strings_ok actions ->
  (exists internal, validate_actions internal actions = Ok tt) ->
  prepared_all v limits 0 actions (mkTotals 0 0) d ps d ->
  transaction_wp (_ ← publish ps; apply_and_commit ps limits (replicate (length actions) skipped)) d.
Proof.
  intros Hc Hn Hv Hval [Hb _ (gs & Hp & Hst) Hadm Hz].
  pose proof (planned_manifest v limits Hlim actions ps gs Hp Hc Hv Hn Hz) as Hok.
  destruct (all_planned_length v limits _ _ _ Hp) as [Hl _].
  assert (accepted) as Hacc.
  { split; [|done]. split; [|done]. apply list.Forall_forall. intros a Ha.
    apply list_elem_of_lookup_1 in Ha as [i Hi]. specialize (Hp i). rewrite Hi in Hp.
    destruct (ps !! i), (gs !! i); try done. by apply Hp. }
  assert (forall a, a ∈ ps -> fits a limits) as Hfits.
  { intros a Ha. apply list_elem_of_lookup_1 in Ha as [i Hi]. specialize (Hp i). rewrite Hi in Hp.
    destruct (actions !! i), (gs !! i); try done. by apply Hp. }
  apply wp_bind. eapply wp_mono; [by eapply publish_spec| | |].
  2: { intros e d' [Hf Hs]. by split. }
  2: { intros d' [Hf Hs]. split; [done|by left]. }
  intros [] d' Hup. rewrite <- Hl.
  eapply wp_mono.
  - apply (apply_and_commit_spec env Hwhole v ps gs limits Hfits (perform_all actions v)); [|done].
    intros d0 H0. by eapply performed.
  - intros o d2 Ho. unfold outcome_ok in Ho. unfold outcome_true. rewrite <- Hl.
    destruct (to_failure o) as [[]|]; [destruct Ho as (Hf & Hq & Hr); split; [by apply stands_quiet|done]..|done|].
    destruct Ho as (Hs & Hr & Hq). split; [done|]. split; [done|]. split; [|done].
    intros j Hj. rewrite Hr. unfold row_state. cbn. rewrite list_lookup_fmap.
    destruct (lookup_lt_is_Some_2 ps j Hj) as [x ->]. done.
  - intros e d2 [Hf Hs]. by split.
  - done.
Qed.

Lemma transaction_locked_spec d :
  stands v d -> state_ok d -> 1 <= len actions <= MAX_ACTIONS -> NoDup (actions ≫= action_paths) ->
  Forall (fun a => shape_valid a = true) actions -> (exists internal, validate_actions internal actions = Ok tt) ->
  strings_ok actions -> Forall (distinguished v) actions ->
  transaction_wp (transaction_locked actions limits) d.
Proof.
  intros Hst Hs Hc Hn Hsh Hval Hv Hdi. unfold transaction_locked.
  assert (forall d', given_up v d' -> ~ fine env -> error_true (fine env) d' /\ crash_true (fine env) d') as Hbad.
  { intros d' [Hq _] Hf. split; [split; [by apply stands_quiet|done]|]. split; [done|]. left. by apply stands_quiet. }
  apply wp_bind. eapply wp_mono; [by apply (recover_locked_clears env Hwhole v d)| | |].
  2: { intros e d' (Hf & H & _). by split. }
  2: { intros d' (Hf & H & _). split; [done|by left]. }
  intros x1 d1 Hd1. apply wp_bind.
  eapply wp_mono; [by apply (create_preparing_spec env v d1)| | |].
  2: { intros e d' [H Hf]. by apply Hbad. }
  2: { intros d' [H Hf]. by apply Hbad. }
  intros x2 d2 [Hb2 Hfree]. apply wp_bind.
  eapply wp_mono; [apply (prepare_from_spec env v limits Hlim actions 0 (mkTotals 0 0) d2 Hb2); try done; intros k _; apply Hfree| |done|].
  2: { intros d' [H Hf]. by apply Hbad. }
  intros [ps|[i e]] d3 Hr.
  - apply prepared_spec; try done. destruct Hr as [H1 H2 H3 H4 H5]. split; try done. apply touches_refl, H1.
  - destruct Hr as (Hstop & Hg & Hna). apply wp_bind.
    eapply wp_mono; [by apply remove_preparing_spec| | |].
    2: { intros e' d' [H Hf]. by apply Hbad. }
    2: { intros d' [H Hf]. by apply Hbad. }
    intros x4 d4 [Hq4 Hs4].
    assert (fine env -> quiet v d4 /\ ~ accepted) as Hno by (intros Hf; split; [done|]; intros [H _]; by apply (Hna Hf)).
    pose proof (stands_quiet v d4 Hq4) as Hst4. destruct e as [dg|f|e].
    + apply wp_ret. split; [done|]. split; [intros j _; apply row_conflict|done].
    + apply wp_ret. unfold outcome_true. cbn [to_failure to_actions].
      destruct Hstop as [->| ->]; (split; [done|]; split; [intros j _; apply row_skipped|done]).
    + apply wp_fail. split; [done|]. intros Hf. by apply Hno.
Qed.

(** A request that the workspace admits is valid whatever the workspace's flag says. *)
Lemma accepted_valid internal : accepted -> validate_actions internal actions = Ok tt.
Proof.
  intros [[Hl _] [internal' H]]. apply validate_actions_iff in H as (Hc & _ & Hn & Hs).
  apply validate_actions_iff. split; [done|]. split; [|done].
  apply list.Forall_forall. intros s Hs'. apply list_elem_of_bind in Hs' as (a & Hs' & Ha).
  rewrite list.Forall_forall in Hl. destruct (Hl a Ha s Hs') as [Ht _].
  unfold target_ok, request_path_ok, reject_reserved in *. zbool.
  destruct internal; cbn; by rewrite H, H1, ?H0.
Qed.

Lemma file_transaction_spec b d :
  stands v d -> strings_ok actions -> Forall (distinguished v) actions ->
  wpi env (file_transaction actions limits)
    (fun o _ => outcome_true (fine env /\ usable d) o)
    (fun e => if e then error_true (fine env /\ usable d) else crash_true (fine env /\ usable d)) b d.
Proof.
  intros Hst Hv Hdi. unfold file_transaction. apply wpi_get_internal.
  apply wpi_bind, wpi_wp, wp_lift. destruct (validate_actions b actions) as [[]|e] eqn:Eval.
  2: { split; [done|]. intros _ Hacc. apply (accepted_valid b) in Hacc. congruence. }
  pose proof (proj1 (validate_actions_iff b actions) Eval) as (Hc & _ & Hn & Hs).
  apply wpi_bind. eapply wpi_mono; [by apply acquire_spec| |].
  2: { intros [e|] d' [H1 H2]; (split; [|tauto || by left]); [done|tauto]. }
  intros r b' d' (Hr & Hst' & Hu). destruct r as [f|].
  - apply wpi_wp, wp_ret. unfold outcome_true. cbn [to_failure to_actions].
    assert (~ (fine env /\ usable d)) as Hbad by (intros [Hf Hus]; by specialize (Hu Hus Hf)).
    destruct f; try (split; [done|]; split; [intros j _; apply row_skipped|done]). split; [done|by left].
  - destruct (Hr eq_refl) as (-> & Hs1 & Hs2). apply wpi_wp.
    eapply wp_mono; [apply (transaction_locked_spec d' Hs1 Hs2 Hc Hn Hs); [by exists b|done|done]| | |].
    + intros o d2. apply outcome_mono. by intros [].
    + intros e d2 [H1 H2]. split; [done|]. intros [Hf _]. by apply H2.
    + intros d2 [H1 H2]. split; [|done]. intros [Hf _]. by apply H1.
Qed.

End run.

End libraries.

(** * histories of a workspace

    A history is a sequence of transactions and recoveries, each in a process of its
    own or in one that goes on, under any faults.  Whatever happened, the disk stands
    for a workspace that some serial execution reaches: every transaction that
    reported success is in it, none that reported a failure is, and one that was cut
    off or requires recovery is in it whole or not at all. *)

Section libraries.
Context `{lib : Libraries} `{laws : !LibraryLaws lib}.

(** ** Events *)

(** [Done]: what was returned; [Fail_]: an error; [Crash]: the process died. *)
Inductive Event : Type :=
| Transacted (actions : list FileAction) (report : Outcome PlatformError FileTransactionOutcome)
| Reopened (report : Outcome PlatformError bool).

Inductive happens : Disk -> Event -> Disk -> Prop :=
| happens_transaction env b calls polls d actions limits r w :
    whole_removals env -> limits_ok limits -> strings_ok actions ->
    file_transaction actions limits env (mkWorld d b calls polls) = (r, w) ->
    happens d (Transacted actions r) (w_disk w)
| happens_reopening env b calls polls d r w :
    whole_removals env -> reopen_and_recover env (mkWorld d b calls polls) = (r, w) ->
    happens d (Reopened r) (w_disk w).

Inductive history : Disk -> list Event -> Disk -> Prop :=
| history_nil d : history d [] d
| history_cons d e d' events d'' :
    happens d e d' -> history d' events d'' -> history d (e :: events) d''.

(** ** The specification *)

(** What the report of an event allows to have become of the workspace. *)
Definition allows (e : Event) (v v' : View) : Prop :=
  match e with
  | Transacted actions (Done o) =>
      match to_failure o with
      | None => v' = perform_all actions v
      | Some FT_RecoveryRequired => v' = v \/ v' = perform_all actions v
      | Some _ => v' = v
      end
  | Transacted actions Crash => v' = v \/ v' = perform_all actions v
  | Transacted _ (Fail_ _) | Reopened _ => v' = v
  end.

Inductive serial : View -> list Event -> View -> Prop :=
| serial_nil v : serial v [] v
| serial_cons v e v' events v'' : allows e v v' -> serial v' events v'' -> serial v (e :: events) v''.

(** ** Contents that their digests tell apart *)

Definition tells_apart (known : bytes -> Prop) : Prop :=
  forall b c, known b -> known c -> blake3 b = blake3 c -> b = c.
Definition view_known (known : bytes -> Prop) (v : View) : Prop := forall l c, v l = Contents c -> known c.
Definition action_known (known : bytes -> Prop) (a : FileAction) : Prop := known (default [] (fa_content a)).
Definition event_known (known : bytes -> Prop) (e : Event) : Prop :=
  match e with Transacted actions _ => Forall (action_known known) actions | Reopened _ => True end.

Section known.
Context (known : bytes -> Prop) (Hinj : tells_apart known).

Lemma store_known s e v : view_known known v -> (forall c, e = Contents c -> known c) -> view_known known (store s e v).
Proof. intros Hv He l c. unfold store. case_decide; [apply He|apply Hv]. Qed.

Lemma perform_known a v : view_known known v -> action_known known a -> view_known known (perform a v).
Proof.
  intros Hv Ha. unfold action_known in Ha. unfold perform.
  assert (forall s c, view_at v s = Contents c -> known c) as Hat by (intros s c; apply Hv).
  destruct (fa_kind a), (fa_destination a); repeat apply store_known; try done; try (by intros c [= <-]); by apply Hat.
Qed.

Lemma perform_all_known actions v :
  view_known known v -> Forall (action_known known) actions -> view_known known (perform_all actions v).
Proof.
  revert v. induction actions as [|a actions IH]; intros v Hv Ha; [done|].
  apply list.Forall_cons in Ha as [Ha Has]. rewrite perform_all_cons. apply IH; [by apply perform_known|done].
Qed.

Lemma known_distinguished v actions :
  view_known known v -> Forall (action_known known) actions -> Forall (distinguished v) actions.
Proof.
  intros Hv Ha. rewrite list.Forall_forall in Ha |- *. intros a Hk%Ha _ c content Hc Hcon Heq.
  unfold action_known in Hk. rewrite Hcon in Hk. apply Hinj; [by eapply Hv|done|done].
Qed.

Lemma allows_known e v v' : view_known known v -> event_known known e -> allows e v v' -> view_known known v'.
Proof.
  intros Hv He. pose proof (fun actions => perform_all_known actions v Hv) as Hp.
  destruct e as [actions [o|e|]|r]; cbn in *; [destruct (to_failure o) as [[]|]| | |]; naive_solver.
Qed.

(** ** One event *)

Lemma happens_allowed v d e d' :
  happens d e d' -> stands v d -> view_known known v -> event_known known e ->
  exists v', allows e v v' /\ stands v' d'.
Proof.
  intros [env b c p d0 actions limits r w Hwhole Hlim Hv Hrun|env b c p d0 r w Hwhole Hrun] Hst Hk He.
  - pose proof (file_transaction_spec env Hwhole v limits Hlim actions b d0 Hst Hv
      (known_distinguished v actions Hk He) c p) as Hspec.
    rewrite Hrun in Hspec. destruct r as [o|x|]; cbn [allows].
    + unfold outcome_true in Hspec. destruct (to_failure o) as [[]|]; naive_solver.
    + exists v. split; [done|]. apply Hspec.
    + unfold crash_true in Hspec. naive_solver.
  - pose proof (reopen_spec env v b d0 Hwhole Hst c p) as Hspec. rewrite Hrun in Hspec.
    exists v. split; [done|]. destruct r; apply Hspec.
Qed.

Lemma history_serial v d events d' :
  history d events d' -> stands v d -> view_known known v -> Forall (event_known known) events ->
  exists v', serial v events v' /\ stands v' d'.
Proof.
  intros H. revert v. induction H as [d|d e d1 events d2 H1 _ IH]; intros v Hst Hk He.
  - exists v. split; [constructor|done].
  - apply list.Forall_cons in He as [He Hes].
    destruct (happens_allowed v d e d1 H1 Hst Hk He) as (v1 & Ha & Hs1).
    destruct (IH v1 Hs1 (allows_known e v v1 Hk He Ha) Hes) as (v2 & Hser & Hs2).
    exists v2. split; [by econstructor|done].
Qed.

End known.

(** Without faults nothing is cut short. *)
Lemma fine_whole env : fine env -> whole_removals env.
Proof. intros Hf n l. by rewrite (fine_faults _ Hf). Qed.

(** A recovery without faults ends, and leaves no journal. *)
Lemma reopen_quiet v env b calls polls d :
  stands v d -> fine env ->
  exists r w, reopen_and_recover env (mkWorld d b calls polls) = (Done r, w) /\ quiet v (w_disk w).
Proof.
  intros Hst Hf. pose proof (reopen_spec env v b d (fine_whole env Hf) Hst calls polls) as Hspec.
  destruct (reopen_and_recover env _) as [[r|e|] w]; [|by destruct Hspec..].
  exists r, w. split; [done|]. by apply Hspec.
Qed.

End libraries.
