(* ===== verification/Rows.v ===== *)
(** * Rows: what the rows of a transaction look like

    Whatever the system does, a transaction has one row per action; a row with a
    finished state carries a digest, a skipped one none; all rows are committed when
    there is no failure, and a conflict has its row. *)

From S2P Require Import Prelude Text Workspace Manifest Disk Mutation Transaction.

#[export] Instance FileActionState_eq_dec : EqDecision FileActionState.
Proof. solve_decision. Defined.

(** ** What computations return *)

(** Results satisfy [P] and failures [Q], whatever the system answers. *)
Definition post {E A} (m : io E A) (P : A -> Prop) (Q : E -> Prop) : Prop :=
  forall env w, match fst (m env w) with Done a => P a | Fail_ e => Q e | Crash => True end.

Definition anything {A} (_ : A) : Prop := True.

Create HintDb post.

Section post.
Context {E F A B : Type}.
Implicit Types (P : A -> Prop) (Q : E -> Prop).

Lemma post_ret P Q a : P a -> post (mret a : io E A) P Q.
Proof. by intros H env w. Qed.
Lemma post_fail P Q e : Q e -> post (fail e : io E A) P Q.
Proof. by intros H env w. Qed.
Lemma post_any (m : io E A) : post m anything anything.
Proof. intros env w. by destruct (fst _). Qed.
Lemma post_bind (m : io E B) (k : B -> io E A) R P Q :
  post m R Q -> (forall b, R b -> post (k b) P Q) -> post (m ≫= k) P Q.
Proof.
  intros Hm Hk env w. unfold mbind, io_bind. specialize (Hm env w).
  destruct (m env w) as [[b|e|] w']; cbn in *; [by apply Hk|done|done].
Qed.
Lemma post_try (m : io E A) P Q (Q' : F -> Prop) :
  post m P Q -> post (try m : io F _) (fun r => match r with Ok a => P a | Err e => Q e end) Q'.
Proof. intros H env w. unfold try. specialize (H env w). by destruct (m env w) as [[a|e|] w']. Qed.
Lemma post_map_fail (f : E -> F) (m : io E A) P Q (Q' : F -> Prop) :
  post m P Q -> (forall e, Q e -> Q' (f e)) -> post (map_fail f m) P Q'.
Proof.
  intros H HQ env w. unfold map_fail. specialize (H env w).
  destruct (m env w) as [[a|e|] w']; cbn in *; [done|by apply HQ|done].
Qed.
Lemma post_mono (m : io E A) P Q P' Q' :
  post m P Q -> (forall a, P a -> P' a) -> (forall e, Q e -> Q' e) -> post m P' Q'.
Proof. intros H HP HQ env w. specialize (H env w). destruct (fst _); [by apply HP|by apply HQ|done]. Qed.
Lemma post_lift (r : result E A) P Q :
  match r with Ok a => P a | Err e => Q e end -> post (lift r) P Q.
Proof. intros H. destruct r; intros env w; exact H. Qed.
Lemma post_if (b : bool) (m k : io E A) P Q : post m P Q -> post k P Q -> post (if b then m else k) P Q.
Proof. intros Hm Hk. destruct b; assumption. Qed.

End post.

(** A conflict carries a digest, a stop is one that the caller asked for. *)
Definition step_ok (e : StepFailure) : Prop :=
  match e with
  | SF_Conflict d => digest_ok d
  | SF_Stopped f => f = FT_Cancelled \/ f = FT_TimedOut
  | SF_Platform _ => True
  end.

Lemma post_p_s {A} (m : io PlatformError A) : post (p_s m) anything step_ok.
Proof. eapply post_map_fail; [apply post_any|done]. Qed.
Lemma post_io_s {A} (m : io IoKind A) : post (io_s m) anything step_ok.
Proof. apply post_p_s. Qed.
Lemma post_control : post check_control anything (fun f => f = FT_Cancelled \/ f = FT_TimedOut).
Proof.
  unfold check_control. eapply post_bind; [apply (post_any (@poll FileTransactionFailure))|].
  intros c _. destruct c; cbn; [by apply post_ret|apply post_fail; auto..].
Qed.
Lemma post_stopped : post check_stopped anything step_ok.
Proof. eapply post_map_fail; [apply post_control|done]. Qed.
Lemma post_expect {A} (o : option A) e : post (expect o e) anything step_ok.
Proof. apply post_lift. by destruct o. Qed.
Lemma post_charge n limits total : post (lift (charge_bytes n limits total)) anything step_ok.
Proof.
  apply post_lift. unfold charge_bytes. destruct (_ <? n); [done|].
  destruct (checked_add _ _ _); [|done]. cbn. by destruct (_ <? _).
Qed.

#[export] Hint Resolve post_ret post_fail post_p_s post_io_s post_stopped post_expect post_charge post_if : post.
#[export] Hint Unfold anything : post.

(** A computation whose steps are all of these. *)
Ltac post_steps :=
  repeat first
    [ progress intros
    | solve [auto with post]
    | apply post_if
    | (eapply post_bind; [solve [eauto with post]|intros ? ?]) ].

Section libraries.
Context `{lib : Libraries} `{laws : !LibraryLaws lib}.

Lemma step_conflict b : step_ok (SF_Conflict (blake3 b)).
Proof. apply blake3_digest. Qed.

Lemma post_block_loop each l max size acc :
  (forall x, post (each x) anything step_ok) ->
  post (block_loop each l max size acc) (fun r => digest_ok r.1) step_ok.
Proof.
  intros He. revert size acc. induction l as [|x l IH]; intros size acc; cbn [block_loop]; post_steps.
  apply post_ret, blake3_digest.
Qed.

Lemma post_hash p limits : post (hash_file_without_charge p limits) (fun r => digest_ok r.1) step_ok.
Proof.
  eapply post_bind; [apply post_io_s|]. intros b _. apply post_block_loop. intros _. by apply post_ret.
Qed.

Lemma post_hash_bounded p limits total :
  post (hash_file_bounded p limits total) (fun r => digest_ok r.1.1) step_ok.
Proof. eapply post_bind; [apply post_hash|]. intros r Hr. post_steps. Qed.

Lemma post_copy p q limits total :
  post (copy_file_bounded p q limits total) (fun r => digest_ok r.1.1) step_ok.
Proof.
  unfold copy_file_bounded. eapply post_bind; [apply post_io_s|]. intros m _.
  apply post_if; [by apply post_fail|]. do 2 (eapply post_bind; [apply post_io_s|intros ? _]).
  eapply post_bind; [apply post_block_loop; intros; apply post_io_s|]. intros r Hr. post_steps.
Qed.

Lemma post_absent s limits total : post (ensure_absent s limits total) anything step_ok.
Proof.
  eapply post_bind; [apply post_p_s|]. intros p _. eapply post_bind; [apply post_try, post_any|].
  intros [m|[]] _; [|by post_steps..]. apply post_if; [|by post_steps].
  eapply post_bind; [apply post_hash_bounded|]. intros r Hr. by apply post_fail.
Qed.

Lemma post_absent_apply s limits : post (ensure_absent_for_apply s limits) anything step_ok.
Proof.
  eapply post_bind; [apply post_p_s|]. intros p _. eapply post_bind; [apply post_try, post_any|].
  intros [m|[]] _; [|by post_steps..]. apply post_if; [|by post_steps].
  eapply post_bind; [apply post_hash|]. intros r Hr. by apply post_fail.
Qed.

(** ** Preparing and applying *)

Definition digests_ok (p : PreparedAction) : Prop :=
  digest_ok (pa_digest p) /\ forall d, pa_preimage_digest p = Some d -> digest_ok d.

Lemma rollback_digest_ok p : digests_ok p -> digest_ok (rollback_digest p).
Proof. intros [H1 H2]. unfold rollback_digest. destruct (pa_preimage_digest p); [by apply H2|done]. Qed.

Lemma post_prepare n a limits totals :
  post (prepare_action n a limits totals) (fun r => digests_ok r.1) step_ok.
Proof.
  assert (forall k s d b size, digest_ok b -> digests_ok (mkPrepared k s d b size None None)) as Hd by by split.
  unfold prepare_action. eapply post_bind; [apply post_stopped|intros _ _]. destruct totals as [mat pre].
  destruct (fa_kind a).
  - eapply post_bind; [apply post_absent|intros _ _]. post_steps. apply post_ret, Hd, blake3_digest.
  - eapply post_bind; [apply post_expect|intros d _]. eapply post_bind; [apply post_absent|intros _ _].
    eapply post_bind; [apply post_p_s|intros p _]. eapply post_bind; [apply post_copy|]. intros r Hr.
    apply post_if; [by apply post_fail|by apply post_ret, Hd].
  - eapply post_bind; [destruct (fa_destination a); [apply post_absent|by apply post_ret]|intros _ _].
    eapply post_bind; [apply post_p_s|intros p _]. eapply post_bind; [apply post_hash_bounded|]. intros r Hr.
    apply post_if; [by apply post_fail|by apply post_ret, Hd].
  - eapply post_bind; [destruct (fa_destination a); [apply post_absent|by apply post_ret]|intros _ _].
    eapply post_bind; [apply post_p_s|intros p _]. eapply post_bind; [apply post_hash_bounded|]. intros r Hr.
    apply post_if; [by apply post_fail|by apply post_ret, Hd].
  - eapply post_bind; [apply post_p_s|intros p _]. eapply post_bind; [apply post_copy|]. intros r Hr.
    apply post_if; [by apply post_fail|]. eapply post_bind; [apply post_expect|intros c _].
    eapply post_bind; [apply post_charge|intros m _]. eapply post_bind; [apply post_p_s|intros _ _].
    apply post_ret. split; [apply blake3_digest|]. by intros d [= <-].
Qed.

Lemma post_link from to limits : post (link_or_conflict from to limits) anything step_ok.
Proof.
  eapply post_bind; [apply post_try, post_any|]. intros [[]|e] _; [by apply post_ret|].
  unfold hard_link_error. eapply post_bind; [apply post_try, post_any|]. intros [m|e'] _; [|by apply post_fail].
  apply post_if; [|by apply post_fail]. eapply post_bind; [apply post_hash|]. intros r Hr. by apply post_fail.
Qed.

Definition abort_ok (a : WriteAbort) : Prop := match a with WA_Conflict d => digest_ok d | _ => True end.
Definition replace_ok (o : ReplaceOutcome) : Prop := match o with RO_Conflict d => digest_ok d | _ => True end.

Lemma post_write_checked s p d max : post (write_checked s p d max) anything abort_ok.
Proof.
  unfold write_checked.
  do 3 (eapply post_bind; [eapply post_map_fail; [apply post_any|done]|intros ? _]).
  case_bool_decide; [by apply post_ret|apply post_fail, blake3_digest].
Qed.

Lemma post_swap s d new max : post (compare_and_swap_replace_inner s d new max) replace_ok anything.
Proof.
  unfold compare_and_swap_replace_inner. do 2 (eapply post_bind; [apply post_any|intros ? _]).
  apply post_if; [apply post_ret, blake3_digest|]. eapply post_bind; [apply post_any|intros _ _].
  eapply post_bind.
  - apply post_try. unfold atomic_write.
    eapply (post_bind _ _ anything _ (fun e => match e with User a => abort_ok a | _ => True end));
      [eapply post_map_fail; [apply post_any|done]|intros _ _].
    eapply (post_bind _ _ anything); [eapply post_map_fail; [apply post_write_checked|by intros []]|intros _ _].
    eapply post_map_fail; [apply post_any|done].
  - intros [[]|[e|[e|e|dg]]] H; [by apply post_ret| |by apply post_fail|by apply post_fail|by apply post_ret].
    eapply post_bind; [apply post_try, post_any|]. intros [c|e'] _; [|by apply post_ret].
    apply post_if; [by apply post_ret|]. apply post_if; [by apply post_fail|apply post_ret, blake3_digest].
Qed.

Lemma post_staged p size d limits : post (read_staged_replacement p size d limits) anything step_ok.
Proof.
  unfold read_staged_replacement. eapply post_bind; [apply post_io_s|intros m _].
  apply post_if; [by apply post_fail|]. eapply post_bind; [apply post_io_s|intros b _].
  eapply (post_bind _ _ anything); [|intros r _; by post_steps].
  generalize (@nil Z). induction (blocks b) as [|x l IH]; intros acc; cbn [staged_loop]; post_steps.
Qed.

Lemma post_apply n a limits : post (apply_action n a limits) anything step_ok.
Proof.
  assert (forall r : bytes * Z, digest_ok r.1 -> post (fail (SF_Conflict r.1) : io StepFailure unit) anything step_ok) as Hc
    by (intros; by apply post_fail).
  unfold apply_action. eapply post_bind; [apply post_stopped|intros _ _]. destruct (pa_kind a).
  1, 2: eapply post_bind; [apply post_absent_apply|intros _ _]; eapply post_bind; [apply post_p_s|intros p _];
    eapply post_bind; [apply post_hash|intros r Hr]; apply post_if; [by apply post_fail|];
    eapply post_bind; [apply post_link|intros _ _]; post_steps.
  - eapply post_bind; [apply post_p_s|intros p _]. eapply post_bind; [apply post_hash|intros r Hr].
    apply post_if; [by apply Hc|]. eapply post_bind; [apply post_expect|intros q _].
    eapply post_bind; [apply post_absent_apply|intros _ _]. eapply post_bind; [apply post_p_s|intros t _].
    eapply post_bind; [apply post_link|intros _ _]. post_steps.
  - eapply post_bind; [apply post_p_s|intros p _]. eapply post_bind; [apply post_hash|intros r Hr].
    apply post_if; [by apply Hc|]. post_steps.
  - do 2 (eapply post_bind; [apply post_expect|intros ? _]). eapply post_bind; [apply post_p_s|intros p _].
    eapply post_bind; [apply post_hash|intros r Hr]. apply post_if; [by apply Hc|].
    eapply post_bind; [apply post_staged|intros new _].
    eapply post_bind; [eapply post_map_fail; [apply post_swap|done]|].
    intros [d1 d2|d|d] Ho; [|by apply post_fail..]. apply post_if; [by apply post_fail|]. post_steps.
Qed.

(** ** Rows *)

Definition row_ok (r : FileActionOutcome) : Prop :=
  match ao_state r with
  | AS_Committed | AS_Conflict | AS_RolledBack | AS_RecoveryRequired => exists d, ao_digest r = Some d /\ digest_ok d
  | AS_Skipped => ao_digest r = None
  end.

Definition is_committed (r : FileActionOutcome) : Prop := ao_state r = AS_Committed.
Definition is_conflict (r : FileActionOutcome) : Prop := ao_state r = AS_Conflict.

(** What an outcome of [count] actions says of itself. *)
Record outcome_shape (count : nat) (o : FileTransactionOutcome) : Prop := mkShape {
  os_length : length (to_actions o) = count;
  os_rows : Forall row_ok (to_actions o);
  os_success : to_failure o = None -> Forall is_committed (to_actions o);
  os_conflict : to_failure o = Some FT_Conflict -> Exists is_conflict (to_actions o);
}.

Lemma set_row_ok i s d rows :
  s <> AS_Skipped -> digest_ok d -> Forall row_ok rows -> Forall row_ok (set_row i s d rows).
Proof.
  intros Hs Hd Hr. apply Forall_insert; [done|]. unfold row_ok. cbn.
  destruct s; try done; by exists d.
Qed.

Lemma set_row_length i s d rows : length (set_row i s d rows) = length rows.
Proof. apply length_insert. Qed.

Lemma set_row_conflict i d rows : (i < length rows)%nat -> Exists is_conflict (set_row i AS_Conflict d rows).
Proof.
  intros Hi. apply list.Exists_exists. exists (mkOutcome AS_Conflict (Some d)). split; [|done].
  eapply list_elem_of_lookup_2. by apply list_lookup_insert_eq.
Qed.

Lemma row_skipped_ok n : Forall row_ok (replicate n skipped).
Proof. apply Forall_replicate. done. Qed.

(** Rolling back keeps the number of rows, their shape, and the conflicts. *)
Definition kept (rows rows' : list FileActionOutcome) : Prop :=
  length rows' = length rows /\ Forall row_ok rows'
  /\ forall j r, rows !! j = Some r -> is_conflict r -> rows' !! j = Some r.

Lemma kept_refl rows : Forall row_ok rows -> kept rows rows.
Proof. intros H. split; [done|by split]. Qed.

Lemma kept_trans rows rows' rows'' : kept rows rows' -> kept rows' rows'' -> kept rows rows''.
Proof. intros (H1 & _ & H3) (H4 & H5 & H6). split; [congruence|]. split; [done|]. intros j r Hj Hr. by apply H6; [apply H3|]. Qed.

Lemma kept_set i s d rows :
  s <> AS_Skipped -> digest_ok d -> Forall row_ok rows -> (forall r, rows !! i = Some r -> ~ is_conflict r) ->
  kept rows (set_row i s d rows).
Proof.
  intros Hs Hd Hr Hn. split; [apply length_insert|]. split; [by apply set_row_ok|].
  intros j r Hj Hc. unfold set_row. rewrite list_lookup_insert_ne; [done|]. intros ->. by apply (Hn r).
Qed.

Lemma post_turn n a rows :
  digests_ok a -> Forall row_ok rows ->
  post (rollback_turn n a (Some rows)) (fun r => exists rows', r.1 = Some rows' /\ kept rows rows') anything.
Proof.
  intros Ha Hr. pose proof (rollback_digest_ok a Ha) as Hd. pose proof (proj1 Ha) as Hp.
  assert (forall b : bool, post (mret (Some rows, b) : io PlatformError _)
            (fun r => exists rows', r.1 = Some rows' /\ kept rows rows') anything) as Hsame
    by (intros b; apply post_ret; exists rows; split; [done|by apply kept_refl]).
  destruct (decide (row_state (Some rows) n = Some AS_Conflict)) as [Hc|Hc].
  { unfold rollback_turn. rewrite Hc. eapply (post_bind _ _ (fun r => r = Ok NotApplied)); [by apply post_ret|]. by intros ? ->. }
  assert (forall r, rows !! n = Some r -> ~ is_conflict r) as Hn.
  { intros r Hr' Hcr. apply Hc. unfold row_state. cbn. rewrite Hr'. cbn. by rewrite Hcr. }
  assert (forall s d (b : bool), s <> AS_Skipped -> digest_ok d ->
    post (mret (set_row n s d <$> Some rows, b) : io PlatformError _)
      (fun r => exists rows', r.1 = Some rows' /\ kept rows rows') anything) as Hset.
  { intros s d b Hs Hd'. apply post_ret. eexists. split; [done|]. by apply kept_set. }
  unfold rollback_turn. eapply post_bind; [apply post_any|]. intros [[]|e] _.
  1, 2: eapply post_bind; [apply post_try, post_any|]; intros [[]|e] _; by apply Hset.
  - destruct (row_state (Some rows) n) as [[]|]; first [by apply Hsame|by apply Hset].
  - by apply Hset.
  - by apply Hset.
Qed.

Lemma post_rollback ps : forall n rows,
  Forall digests_ok ps -> Forall row_ok rows ->
  post (rollback_from n ps (Some rows)) (fun r => exists rows', r.1 = Some rows' /\ kept rows rows') anything.
Proof.
  induction ps as [|a ps IH]; intros n rows Hp Hr; cbn [rollback_from].
  - apply post_ret. exists rows. split; [done|by apply kept_refl].
  - apply list.Forall_cons in Hp as [Ha Hp]. eapply post_bind; [by apply IH|].
    intros r (rows1 & -> & Hk1). eapply post_bind; [apply post_turn; [done|apply Hk1]|].
    intros s (rows2 & E2 & Hk2). apply post_ret. exists rows2. split; [done|]. by eapply kept_trans.
Qed.

Lemma post_abandon ps rows f n :
  Forall digests_ok ps -> Forall row_ok rows -> length rows = n -> f <> FT_RecoveryRequired ->
  (f = FT_Conflict -> Exists is_conflict rows) ->
  post (abandon ps rows f) (outcome_shape n) anything.
Proof.
  intros Hp Hr Hl Hf Hc. unfold abandon, rollback_locked. eapply post_bind; [by apply post_rollback|].
  intros r (rows' & -> & Hk1 & Hk2 & Hk3). cbn [default from_option]. apply post_if.
  - apply post_ret. split; cbn; try done. congruence.
  - eapply post_bind; [apply post_any|]. intros _ _. apply post_ret. split; cbn; [congruence|done|done|].
    intros [= ->]. specialize (Hc eq_refl). apply list.Exists_exists in Hc as (r' & Hin & Hcr).
    apply list_elem_of_lookup_1 in Hin as [j Hj]. apply list.Exists_exists. exists r'. split; [|done].
    eapply list_elem_of_lookup_2. by apply (Hk3 j).
Qed.

Lemma post_commit ps rows n :
  Forall digests_ok ps -> length ps = n -> length rows = n -> Forall row_ok rows -> Forall is_committed rows ->
  post (commit ps rows) (outcome_shape n) anything.
Proof.
  intros Hp Hlp Hl Hr Hc. unfold commit. eapply post_bind; [apply post_any|]. intros b _. apply post_if.
  - by apply post_abandon.
  - eapply post_bind; [apply post_try, post_any|]. intros [[]|e] _.
    + do 2 (eapply post_bind; [apply post_try, post_any|intros ? _]). by apply post_ret.
    + apply post_ret. split; cbn; [by unfold recovery_rows; rewrite length_fmap| |done|done].
      apply Forall_fmap. eapply list.Forall_impl; [exact Hp|]. intros p [Hd _]. unfold row_ok. cbn. by exists (pa_digest p).
Qed.

(** The loop of the actions: every row it passed is committed. *)
Lemma post_apply_from ps limits : forall n rows,
  Forall digests_ok ps -> Forall row_ok rows -> length rows = (n + length ps)%nat ->
  (forall j r, (j < n)%nat -> rows !! j = Some r -> is_committed r) ->
  post (apply_from n ps limits rows)
    (fun r => length r.1 = length rows /\ Forall row_ok r.1
              /\ (r.2 = None -> Forall is_committed r.1) /\ r.2 <> Some FT_RecoveryRequired
              /\ (r.2 = Some FT_Conflict -> Exists is_conflict r.1)) anything.
Proof.
  induction ps as [|a ps IH]; intros n rows Hp Hr Hl Hdone; cbn [apply_from].
  - apply post_ret. split_and!; try done. intros _. apply list.Forall_lookup. intros j r Hj.
    apply (Hdone j); [|done]. apply lookup_lt_Some in Hj. cbn in *. lia.
  - apply list.Forall_cons in Hp as [Ha Hp]. pose proof (proj1 Ha) as Hd. cbn in Hl.
    set (rows1 := set_row n AS_RecoveryRequired (pa_digest a) rows).
    assert (Forall row_ok rows1 /\ length rows1 = length rows) as [Hr1 Hl1]
      by (split; [by apply set_row_ok|apply set_row_length]).
    eapply post_bind; [apply post_try, post_apply|]. intros [[]|[d|f|e]] Hs; cbn in Hs.
    + eapply post_mono; [apply IH| |done].
      * done.
      * by apply set_row_ok.
      * rewrite set_row_length. lia.
      * intros j r Hj Hlk. unfold set_row in Hlk. apply list_lookup_insert_Some in Hlk as [(<- & <- & _)|[Hne Hlk]]; [done|].
        apply list_lookup_insert_Some in Hlk as [(-> & _)|[_ Hlk]]; [done|]. apply (Hdone j); [lia|done].
      * intros r (H1 & H2 & H3). rewrite set_row_length in H1. by split; [congruence|].
    + apply post_ret. cbn. split_and!; try done; [by rewrite set_row_length|by apply set_row_ok|].
      intros _. apply set_row_conflict. lia.
    + apply post_ret. cbn. split_and!; [by rewrite length_insert|by apply Forall_insert|done| |];
        destruct Hs as [-> | ->]; done.
    + apply post_ret. by cbn.
Qed.

Lemma post_apply_and_commit ps limits n :
  Forall digests_ok ps -> length ps = n ->
  post (apply_and_commit ps limits (replicate n skipped)) (outcome_shape n) anything.
Proof.
  intros Hp Hl. unfold apply_and_commit. eapply post_bind.
  { apply post_apply_from; [done|apply row_skipped_ok|rewrite length_replicate; lia|intros; lia]. }
  intros [rows f] (H1 & H2 & H3 & H4 & H5). cbn [fst snd] in *. rewrite length_replicate in H1.
  eapply (post_bind _ _ (fun g => (g = None -> f = None) /\ g <> Some FT_RecoveryRequired
                                  /\ (g = Some FT_Conflict -> f = Some FT_Conflict))).
  - destruct f as [f|]; [by apply post_ret|]. eapply post_bind.
    + apply post_try, post_control.
    + intros [[]|g] Hg; apply post_ret; [done|]. destruct Hg as [-> | ->]; done.
  - intros g (G1 & G2 & G3). destruct g as [g|].
    + apply post_abandon; try done; [congruence|]. intros ->. by apply H5, G3.
    + apply post_commit; try done. by apply H3, G1.
Qed.

Lemma post_prepare_from limits actions : forall n totals,
  post (prepare_from n actions limits totals)
    (fun r => match r with
              | Ok ps => Forall digests_ok ps /\ length ps = length actions
              | Err (i, e) => step_ok e /\ (n <= i < n + length actions)%nat
              end) anything.
Proof.
  induction actions as [|a actions IH]; intros n totals; cbn [prepare_from]; [by apply post_ret|].
  eapply post_bind; [apply post_try, post_prepare|]. intros [[p totals']|e] H.
  - eapply post_bind; [apply IH|]. intros [ps|[i e]] Hr; apply post_ret; cbn in *.
    + destruct Hr as [? ?]. split; [by constructor|lia].
    + split; [apply Hr|lia].
  - apply post_ret. split; [done|cbn; lia].
Qed.

Lemma post_lock_loop failed answers :
  post (lock_loop failed answers) (fun f => f <> Some FT_Conflict /\ f <> Some FT_RecoveryRequired) anything.
Proof.
  induction answers as [|[] answers IH]; cbn [lock_loop]; [by apply post_ret| |by apply post_fail].
  eapply (post_bind _ _ anything); [apply post_any|]. intros c _. destruct c; cbn; [apply IH|by apply post_ret..].
Qed.

(** The shape of every outcome. *)
Lemma file_transaction_shape actions limits :
  post (file_transaction actions limits) (outcome_shape (length actions)) anything.
Proof.
  unfold file_transaction. do 2 (eapply post_bind; [apply post_any|intros ? _]).
  eapply (post_bind _ _ (fun f => f <> Some FT_Conflict /\ f <> Some FT_RecoveryRequired)).
  - unfold acquire_transaction_locks. eapply post_bind; [apply post_any|]. intros env _.
    eapply post_bind; [apply post_lock_loop|]. intros [f|] Hf; [by apply post_ret|].
    do 2 (eapply post_bind; [apply post_any|intros ? _]). apply post_lock_loop.
  - intros [f|] [Hf1 Hf2].
    + apply post_ret. split; cbn; [apply length_replicate|apply row_skipped_ok|done|congruence].
    + unfold transaction_locked. do 2 (eapply post_bind; [apply post_any|intros ? _]).
      eapply post_bind; [apply post_prepare_from|]. intros [ps|[i e]] Hr.
      * destruct Hr as [Hp Hl]. eapply post_bind; [apply post_any|]. intros _ _. rewrite <- Hl. by apply post_apply_and_commit.
      * destruct Hr as [Hs Hi]. eapply post_bind; [apply post_any|]. intros _ _. destruct e as [d|f|e].
        -- apply post_ret. split; cbn; [by rewrite set_row_length, length_replicate|apply set_row_ok; [done|done|apply row_skipped_ok]|done|].
           intros _. apply set_row_conflict. rewrite length_replicate. lia.
        -- apply post_ret. split; cbn; [apply length_replicate|apply row_skipped_ok|done|].
           destruct Hs as [-> | ->]; done.
        -- by apply post_fail.
Qed.

End libraries.
