(* ===== verification/Permits.v ===== *)
(** * Permits: one-time approvals

    The policy and the authority of crates/ash-ops/src/authorization.rs.  The authority's
    counter and the maps behind its lock are a state; each use of one is an atomic step.
    [now] is what the clock answers, [None] when it cannot be represented.  BLAKE3 and
    its keyed form are the section's functions; feeding a hasher twice is feeding it the
    concatenation. *)

From S2P Require Import Prelude Text AsonModel AsonCodec Capability.

Inductive AuthorizationError : Type :=
| AuInvalidPolicy | AuInvalidAuthority | AuInvalidChallenge | AuInvalidToken | AuReplay | AuCapacity
| AuNonceExhausted | AuClock | AuPoisoned | AuValue (e : ApprovalValueError).

#[export] Instance ApprovalChallenge_eq_dec : EqDecision ApprovalChallenge.
Proof. solve_decision. Defined.

(** ** Constants *)

(** A literal of the source with its closing [\0]. *)
Definition ACTION_DOMAIN : bytes := L "ash-approval-action-v1" ++ [0].
Definition POLICY_DOMAIN : bytes := L "ash-approval-policy-v1" ++ [0].
Definition NONCE_DOMAIN : bytes := L "ash-approval-nonce-v1" ++ [0].
Definition TOKEN_DOMAIN : bytes := L "ash-approval-token-v1" ++ [0].

(** A [Duration] is its nanoseconds. *)
Abbreviation Duration := Z (only parsing).
Definition from_secs (s : Z) : Duration := s * 1000000000.
Definition as_millis (d : Duration) : Z := d / 1000000.

Definition DEFAULT_CHALLENGE_TTL : Duration := from_secs (5 * 60).
Definition MAX_POLICY_ID_BYTES : Z := 128.
Definition MAX_PENDING_PERMITS : Z := 4096.
Definition MAX_USED_PERMITS : Z := 4096.

(** ** Data *)

Record PermitState : Type := mkPermitState {
  pm_pending : gmap bytes ApprovalChallenge;
  pm_used : gmap bytes Z;
}.

(** What of an authority never changes, and what does. *)
Record PermitAuthority : Type := mkAuthority {
  pa_key : bytes; pa_session_binding : bytes; pa_policy_digest : bytes }.
Record AuthorityState : Type := mkAuthorityState { as_counter : Z; as_permits : PermitState }.

Record AuthorizationPolicy : Type := mkPolicy {
  po_digest : bytes; po_granted : Z; po_approval : Z; po_authority : option PermitAuthority;
  po_ttl : Duration }.

Definition authority_start : AuthorityState := mkAuthorityState 0 (mkPermitState ∅ ∅).

Definition purge_expired (now : Z) (s : PermitState) : PermitState :=
  mkPermitState (filter (fun kv => now < ch_expires_at_millis kv.2) (pm_pending s))
    (filter (fun kv => now < kv.2) (pm_used s)).

(** ** Validation *)

Definition validate_policy_id (id : str) : result AuthorizationError unit :=
  if bool_decide (id = []) || (MAX_POLICY_ID_BYTES <? str_len id)
     || contains 0 id || contains 10 id || contains 13 id
  then Err AuInvalidPolicy else Ok tt.

Definition validate_mask (mask : Z) : result AuthorizationError unit :=
  if mask_extra mask ALL_CAPABILITY_MASK =? 0 then Ok tt else Err AuInvalidPolicy.

(** The byte-wise difference of two slices, folded. *)
Definition difference (expected actual : bytes) : Z :=
  foldl (fun difference '(x, y) => Z.lor difference (Z.lxor x y)) 0 (zip expected actual).

Definition constant_time_eq (expected actual : bytes) : bool :=
  if negb (len expected =? len actual) then false else difference expected actual =? 0.

Section hashing.
Context (hash : bytes -> bytes) (keyed_hash : bytes -> bytes -> bytes).

Definition policy_digest (id : str) : bytes := take 16 (hash (POLICY_DOMAIN ++ str_bytes id)).

Definition token_mac (key signing : bytes) : bytes := keyed_hash key (TOKEN_DOMAIN ++ signing).

(** ** The policy *)

Definition AuthorizationPolicy_allow (capabilities : Z) : result AuthorizationError AuthorizationPolicy :=
  _ ← validate_mask capabilities;
  Ok (mkPolicy (policy_digest (L "ash-direct-grant")) capabilities 0 None DEFAULT_CHALLENGE_TTL).

Definition with_approvals (policy_id : str) (granted approval_required : Z) (authority : PermitAuthority)
    : result AuthorizationError AuthorizationPolicy :=
  _ ← validate_policy_id policy_id;
  _ ← validate_mask granted;
  _ ← validate_mask approval_required;
  if negb (Z.land granted approval_required =? 0) || (approval_required =? 0)
     || negb (bool_decide (pa_policy_digest authority = policy_digest policy_id))
  then Err AuInvalidPolicy
  else Ok (mkPolicy (policy_digest policy_id) granted approval_required (Some authority) DEFAULT_CHALLENGE_TTL).

Definition AuthorizationPolicy_default : AuthorizationPolicy :=
  mkPolicy (policy_digest (L "ash-default")) ALL_CAPABILITY_MASK 0 None DEFAULT_CHALLENGE_TTL.

(** ** The authority *)

Definition PermitAuthority_new (key session_binding : bytes) (policy_id : str)
    : result AuthorizationError (PermitAuthority * AuthorityState) :=
  _ ← validate_policy_id policy_id;
  if bool_decide (key = zeros 32) || bool_decide (session_binding = zeros 16) then Err AuInvalidAuthority
  else Ok (mkAuthority key session_binding (policy_digest policy_id), authority_start).

Section authority.
Context (authority : PermitAuthority).

(** The counter's [fetch_update]: the value before the addition. *)
Definition take_counter (s : AuthorityState) : result AuthorizationError Z * AuthorityState :=
  match checked_add u64_max (as_counter s) 1 with
  | Some next => (Ok (as_counter s), mkAuthorityState next (as_permits s))
  | None => (Err AuNonceExhausted, s)
  end.

Definition nonce_material (session_id capabilities expires counter : Z) (action_digest : bytes) : bytes :=
  NONCE_DOMAIN ++ pa_session_binding authority ++ to_be_bytes 8 session_id ++ to_be_bytes 8 capabilities
  ++ to_be_bytes 8 expires ++ to_be_bytes 8 counter ++ action_digest.

Definition nonce_of (material : bytes) : bytes := take 16 (keyed_hash (pa_key authority) material).

Definition make_challenge (session_id capabilities expires counter : Z) (action_digest : bytes)
    : result AuthorizationError ApprovalChallenge :=
  map_err AuValue
    (challenge_new session_id capabilities expires (pa_session_binding authority) (pa_policy_digest authority)
       action_digest (nonce_of (nonce_material session_id capabilities expires counter action_digest))).

Definition challenge_expiry (now : option Z) (ttl : Duration) : result AuthorizationError (Z * Z) :=
  now ← ok_or now AuClock;
  millis ← (if as_millis ttl <=? u64_max then Ok (as_millis ttl) else Err AuClock);
  expires ← ok_or (checked_add u64_max now millis) AuClock;
  Ok (now, expires).

(** The critical section of [challenge]. *)
Definition register_challenge (now : Z) (challenge : ApprovalChallenge) (s : AuthorityState)
    : result AuthorizationError ApprovalChallenge * AuthorityState :=
  let permits := purge_expired now (as_permits s) in
  let purged := mkAuthorityState (as_counter s) permits in
  if MAX_PENDING_PERMITS <=? Z.of_nat (size (pm_pending permits)) then (Err AuCapacity, purged)
  else
    match pm_pending permits !! ch_nonce challenge with
    | Some _ => (Err AuInvalidChallenge, purged)
    | None =>
        (Ok challenge,
         mkAuthorityState (as_counter s)
           (mkPermitState (<[ch_nonce challenge := challenge]> (pm_pending permits)) (pm_used permits)))
    end.

Definition token_of (challenge : ApprovalChallenge) : bytes :=
  ch_nonce challenge ++ token_mac (pa_key authority) (signing_bytes challenge).

(** [issue], which the embedding harness calls. *)
Definition issue (now : option Z) (poisoned : bool) (challenge : ApprovalChallenge) (s : AuthorityState)
    : result AuthorizationError bytes * AuthorityState :=
  match now with
  | None => (Err AuClock, s)
  | Some now =>
      if negb (bool_decide (ch_session_binding challenge = pa_session_binding authority))
         || negb (bool_decide (ch_policy_digest challenge = pa_policy_digest authority))
         || (ch_expires_at_millis challenge <=? now)
      then (Err AuInvalidChallenge, s)
      else if poisoned then (Err AuPoisoned, s)
      else
        let permits := purge_expired now (as_permits s) in
        let purged := mkAuthorityState (as_counter s) permits in
        if negb (bool_decide (pm_pending permits !! ch_nonce challenge = Some challenge))
        then (Err AuInvalidChallenge, purged)
        else (Ok (token_of challenge), purged)
  end.

(** [verify]. *)
Definition verify (now : option Z) (poisoned : bool) (token : bytes) (session_id capabilities : Z)
    (action_digest : bytes) (s : AuthorityState) : result AuthorizationError unit * AuthorityState :=
  let nonce := take 16 token in
  match now with
  | None => (Err AuClock, s)
  | Some now =>
      if poisoned then (Err AuPoisoned, s)
      else
        let permits := purge_expired now (as_permits s) in
        let purged := mkAuthorityState (as_counter s) permits in
        match pm_used permits !! nonce with
        | Some _ => (Err AuReplay, purged)
        | None =>
            match pm_pending permits !! nonce with
            | None => (Err AuInvalidToken, purged)
            | Some challenge =>
                if negb (ch_session_id challenge =? session_id)
                   || negb (ch_capabilities challenge =? capabilities)
                   || negb (bool_decide (ch_session_binding challenge = pa_session_binding authority))
                   || negb (bool_decide (ch_policy_digest challenge = pa_policy_digest authority))
                   || negb (bool_decide (ch_action_digest challenge = action_digest))
                   || (ch_expires_at_millis challenge <=? now)
                then (Err AuInvalidToken, purged)
                else
                  let expected := token_mac (pa_key authority) (signing_bytes challenge) in
                  if negb (constant_time_eq expected (drop 16 token)) then (Err AuInvalidToken, purged)
                  else if MAX_USED_PERMITS <=? Z.of_nat (size (pm_used permits)) then (Err AuCapacity, purged)
                  else
                    (Ok tt,
                     mkAuthorityState (as_counter s)
                       (mkPermitState (delete nonce (pm_pending permits))
                          (<[nonce := ch_expires_at_millis challenge]> (pm_used permits))))
            end
        end
  end.

End authority.
End hashing.

Definition with_challenge_ttl (policy : AuthorizationPolicy) (ttl : Duration)
    : result AuthorizationError AuthorizationPolicy :=
  if (ttl =? 0) || (from_secs (60 * 60) <? ttl) then Err AuInvalidPolicy
  else Ok (mkPolicy (po_digest policy) (po_granted policy) (po_approval policy) (po_authority policy) ttl).

Definition policy_mask (policy : AuthorizationPolicy) : Z := Z.lor (po_granted policy) (po_approval policy).

Definition restrict (policy : AuthorizationPolicy) (capabilities : Z) : AuthorizationPolicy :=
  let capabilities := Z.land capabilities ALL_CAPABILITY_MASK in
  let granted := Z.land (po_granted policy) capabilities in
  let approval := Z.land (po_approval policy) capabilities in
  mkPolicy (po_digest policy) granted approval (if approval =? 0 then None else po_authority policy)
    (po_ttl policy).

(** ** Comparing digests *)

Lemma difference_zero expected actual acc :
  foldl (fun difference '(x, y) => Z.lor difference (Z.lxor x y)) acc (zip expected actual) = 0
  <-> acc = 0 /\ forall i x y, expected !! i = Some x -> actual !! i = Some y -> x = y.
Proof.
  revert acc actual. induction expected as [|e expected IH]; intros acc [|a actual]; cbn; try (split; naive_solver).
  rewrite IH, Z.lor_eq_0_iff, Z.lxor_eq_0_iff. split.
  - intros [[-> ->] H]. split; [done|]. intros [|i] x y Hx Hy; [cbn in *; congruence|]. by apply (H i).
  - intros [-> H]. split; [split; [done|by apply (H 0%nat)]|]. intros i x y Hx Hy. by apply (H (S i)).
Qed.

Lemma constant_time_eq_spec expected actual : constant_time_eq expected actual = true <-> expected = actual.
Proof.
  unfold constant_time_eq, difference, len. split.
  - destruct (Z.eqb_spec (Z.of_nat (length expected)) (Z.of_nat (length actual))) as [E|]; [|done].
    cbn [negb]. intros [_ H]%Z.eqb_eq%difference_zero.
    apply list_eq_same_length with (n := length actual); [done|lia|]. intros i x y _ Hx Hy. by apply (H i).
  - intros ->. rewrite Z.eqb_refl. cbn [negb]. apply Z.eqb_eq, difference_zero. split; [done|]. intros i x y Hx Hy. congruence.
Qed.

(** ** One verification *)

Lemma purged_pending now s n c :
  pm_pending (purge_expired now s) !! n = Some c <-> pm_pending s !! n = Some c /\ now < ch_expires_at_millis c.
Proof. apply map_lookup_filter_Some. Qed.

Lemma purged_used now s n e : pm_used (purge_expired now s) !! n = Some e <-> pm_used s !! n = Some e /\ now < e.
Proof. apply map_lookup_filter_Some. Qed.

Section facts.
Context (keyed_hash : bytes -> bytes -> bytes) (authority : PermitAuthority).
Notation verify := (verify keyed_hash authority).
Notation token_of := (token_of keyed_hash authority).

(** What a challenge allows. *)
Record allows_use (session_id capabilities : Z) (action_digest : bytes) (now : Z) (c : ApprovalChallenge) : Prop :=
  mkAllowsUse {
    au_session : ch_session_id c = session_id;
    au_capabilities : ch_capabilities c = capabilities;
    au_binding : ch_session_binding c = pa_session_binding authority;
    au_policy : ch_policy_digest c = pa_policy_digest authority;
    au_action : ch_action_digest c = action_digest;
    au_time : now < ch_expires_at_millis c;
  }.

(** When [verify] accepts, and what it leaves. *)
Definition accepts (token : bytes) (session_id capabilities : Z) (action_digest : bytes) (now : Z)
    (permits : PermitState) (c : ApprovalChallenge) : Prop :=
  pm_used permits !! take 16 token = None /\ pm_pending permits !! take 16 token = Some c
  /\ allows_use session_id capabilities action_digest now c
  /\ drop 16 token = token_mac keyed_hash (pa_key authority) (signing_bytes c)
  /\ Z.of_nat (size (pm_used permits)) < MAX_USED_PERMITS.

Lemma verify_spec token session_id capabilities action_digest now s :
  let permits := purge_expired now (as_permits s) in
  match verify (Some now) false token session_id capabilities action_digest s with
  | (Ok _, s') => exists c, accepts token session_id capabilities action_digest now permits c
      /\ s' = mkAuthorityState (as_counter s)
                (mkPermitState (delete (take 16 token) (pm_pending permits))
                   (<[take 16 token := ch_expires_at_millis c]> (pm_used permits)))
  | (Err _, s') => s' = mkAuthorityState (as_counter s) permits
      /\ forall c, ~ accepts token session_id capabilities action_digest now permits c
  end.
Proof.
  intros permits. unfold Permits.verify. fold permits.
  destruct (pm_used permits !! take 16 token) as [e|] eqn:Hu; [split; [done|]; intros c (H & _); congruence|].
  destruct (pm_pending permits !! take 16 token) as [c|] eqn:Hp; [|split; [done|]; intros c (_ & H & _); congruence].
  destruct (_ || _) eqn:Hc.
  - split; [done|]. intros c' (_ & Hp' & [H1 H2 H3 H4 H5 H6] & _). assert (c' = c) as -> by congruence.
    rewrite !orb_true_iff in Hc. destruct Hc as [[[[[Hc|Hc]|Hc]|Hc]|Hc]|Hc]; zbool; try lia;
      rewrite ?bool_decide_eq_false in *; done.
  - rewrite !orb_false_iff in Hc. destruct Hc as [[[[[H1 H2] H3] H4] H5] H6].
    assert (allows_use session_id capabilities action_digest now c) as Ha.
    { split; zbool; rewrite ?bool_decide_eq_true in *; done || lia. }
    destruct (constant_time_eq _ _) eqn:Hm; cbn [negb].
    + apply constant_time_eq_spec in Hm. destruct (Z.leb_spec MAX_USED_PERMITS (Z.of_nat (size (pm_used permits)))).
      * split; [done|]. intros c' (_ & _ & _ & _ & ?). lia.
      * exists c. by split.
    + split; [done|]. intros c' (_ & Hp' & _ & Hm' & _). assert (c' = c) as -> by congruence.
      apply not_true_iff_false in Hm. by rewrite constant_time_eq_spec in Hm.
Qed.

(** A token that is accepted is the challenge's. *)
Lemma accepts_token token session_id capabilities action_digest now permits c :
  accepts token session_id capabilities action_digest now permits c -> ch_nonce c = take 16 token ->
  token = token_of c.
Proof.
  intros (_ & _ & _ & Hm & _) Hn. unfold Permits.token_of. rewrite Hn, <- Hm. by rewrite take_drop.
Qed.

End facts.

(** ** Histories

    The steps of the tasks that share an authority, in any order: a task takes a counter,
    and later registers a challenge with it; the harness issues tokens; tasks verify
    tokens, also forged and replayed ones.  The clock may answer anything. *)

Inductive event : Type :=
| Counted (counter : Z)
| Challenged (now session_id capabilities expires counter : Z) (action_digest : bytes)
    (reply : result AuthorizationError ApprovalChallenge)
| Issued (now : option Z) (poisoned : bool) (challenge : ApprovalChallenge)
    (reply : result AuthorizationError bytes)
| Verified (now : option Z) (poisoned : bool) (token : bytes) (session_id capabilities : Z)
    (action_digest : bytes) (reply : result AuthorizationError unit).

(** [ap_flight]: the counters taken for challenges that are not registered yet. *)
Record Approvals : Type := mkApprovals { ap_state : AuthorityState; ap_flight : list Z }.

Section history.
Context (keyed_hash : bytes -> bytes -> bytes) (authority : PermitAuthority).
Notation verify := (verify keyed_hash authority).
Notation nonce_of := (nonce_of keyed_hash authority).
Notation material := (nonce_material authority).

Inductive step : Approvals -> event -> Approvals -> Prop :=
| step_counted s flight n s' :
    take_counter s = (Ok n, s') -> step (mkApprovals s flight) (Counted n) (mkApprovals s' (n :: flight))
| step_challenged s l1 n l2 now session_id capabilities expires action_digest c r s' :
    make_challenge keyed_hash authority session_id capabilities expires n action_digest = Ok c ->
    register_challenge now c s = (r, s') ->
    step (mkApprovals s (l1 ++ n :: l2)) (Challenged now session_id capabilities expires n action_digest r)
      (mkApprovals s' (l1 ++ l2))
| step_issued s flight now poisoned c r s' :
    issue keyed_hash authority now poisoned c s = (r, s') ->
    step (mkApprovals s flight) (Issued now poisoned c r) (mkApprovals s' flight)
| step_verified s flight now poisoned token session_id capabilities action_digest r s' :
    verify now poisoned token session_id capabilities action_digest s = (r, s') ->
    step (mkApprovals s flight) (Verified now poisoned token session_id capabilities action_digest r)
      (mkApprovals s' flight).

Inductive history : list event -> Approvals -> Prop :=
| history_start : history [] (mkApprovals authority_start [])
| history_step events s e s' : history events s -> step s e s' -> history (events ++ [e]) s'.

(** The challenges registered, with the counters and the materials of their nonces. *)
Definition registration (e : event) : option (Z * bytes * ApprovalChallenge) :=
  match e with
  | Challenged _ session_id capabilities expires n action_digest (Ok c) =>
      Some (n, material session_id capabilities expires n action_digest, c)
  | _ => None
  end.
Definition registered (events : list event) : list (Z * bytes * ApprovalChallenge) := omap registration events.

(** The tokens accepted. *)
Definition acceptance (e : event) : option bytes :=
  match e with Verified _ _ token _ _ _ (Ok _) => Some token | _ => None end.
Definition accepted_tokens (events : list event) : list bytes := omap acceptance events.

(** The materials that occur are told apart by their nonces. *)
Context (known : bytes -> Prop).
Context (Hnonce : forall m m', known m -> known m' -> nonce_of m = nonce_of m' -> m = m').
Definition event_known (e : event) : Prop := forall r, registration e = Some r -> known r.1.2.

Lemma material_counter s c x n d s' c' x' n' d' :
  0 <= n <= u64_max -> 0 <= n' <= u64_max -> material s c x n d = material s' c' x' n' d' -> n = n'.
Proof.
  intros Hn Hn'. unfold nonce_material. rewrite !app_assoc. intros H.
  apply app_inj_1 in H as [H _]; [|rewrite !length_app, !length_to_be_bytes; lia].
  apply app_inj_1 in H as [_ H]; [|rewrite !length_app, !length_to_be_bytes; lia].
  apply (f_equal from_be_bytes) in H. by rewrite !from_to_be_bytes in H by lia.
Qed.

Record approvals_ok (events : list event) (a : Approvals) : Prop := mkApprovalsOk {
  ok_counter : 0 <= as_counter (ap_state a) <= u64_max;
  ok_taken : NoDup (ap_flight a ++ ((fun r => r.1.1) <$> registered events));
  ok_below : Forall (fun n => 0 <= n < as_counter (ap_state a)) (ap_flight a ++ ((fun r => r.1.1) <$> registered events));
  ok_made : forall n m c, (n, m, c) ∈ registered events -> known m /\ ch_nonce c = nonce_of m
              /\ exists s caps x d, m = material s caps x n d;
  ok_pending : forall n c, pm_pending (as_permits (ap_state a)) !! n = Some c ->
     c ∈ snd <$> registered events /\ ch_nonce c = n /\ n ∉ take 16 <$> accepted_tokens events;
  ok_accepted : NoDup (take 16 <$> accepted_tokens events);
  ok_used : forall n, n ∈ take 16 <$> accepted_tokens events -> exists c, c ∈ snd <$> registered events /\ ch_nonce c = n;
  ok_remembered : forall n e, pm_used (as_permits (ap_state a)) !! n = Some e -> n ∈ take 16 <$> accepted_tokens events;
  ok_sizes : Z.of_nat (size (pm_pending (as_permits (ap_state a)))) <= MAX_PENDING_PERMITS
    /\ Z.of_nat (size (pm_used (as_permits (ap_state a)))) <= MAX_USED_PERMITS;
}.

Lemma purge_sizes now s :
  (size (pm_pending (purge_expired now s)) <= size (pm_pending s))%nat
  /\ (size (pm_used (purge_expired now s)) <= size (pm_used s))%nat.
Proof. split; apply map_subseteq_size, map_filter_subseteq. Qed.

(** Forgetting what has expired keeps the invariant. *)
Lemma approvals_purged events a now :
  approvals_ok events a ->
  approvals_ok events (mkApprovals (mkAuthorityState (as_counter (ap_state a)) (purge_expired now (as_permits (ap_state a)))) (ap_flight a)).
Proof.
  intros [H1 H2 H3 H4 H5 H6 H7 Hr [H8 H9]]. pose proof (purge_sizes now (as_permits (ap_state a))) as [Hs1 Hs2].
  split; cbn [ap_state ap_flight as_counter as_permits]; try done.
  - intros n c [H _]%purged_pending. by apply H5.
  - intros n e [H _]%purged_used. by apply (Hr n e).
  - lia.
Qed.

Lemma registered_snoc events e :
  registered (events ++ [e]) = registered events ++ match registration e with Some r => [r] | None => [] end.
Proof. unfold registered. rewrite omap_app. cbn. by destruct (registration e). Qed.

Lemma accepted_snoc events e :
  accepted_tokens (events ++ [e]) = accepted_tokens events ++ match acceptance e with Some t => [t] | None => [] end.
Proof. unfold accepted_tokens. rewrite omap_app. cbn. by destruct (acceptance e). Qed.

(** An event that neither registers nor accepts. *)
Lemma approvals_quiet events e a :
  registration e = None -> acceptance e = None -> approvals_ok events a -> approvals_ok (events ++ [e]) a.
Proof.
  intros Hr Ha [H1 H2 H3 H4 H5 H6 H7 H8 H9].
  split; rewrite ?registered_snoc, ?accepted_snoc, ?Hr, ?Ha, ?app_nil_r; done.
Qed.

(** A counter that is dropped. *)
Lemma approvals_dropped events s l1 n l2 :
  approvals_ok events (mkApprovals s (l1 ++ n :: l2)) -> approvals_ok events (mkApprovals s (l1 ++ l2)).
Proof.
  intros [H1 H2 H3 H4 H5 H6 H7 H8 H9]. cbn [ap_state ap_flight] in *.
  assert (l1 ++ l2 ++ ((fun r => r.1.1) <$> registered events)
          `sublist_of` l1 ++ n :: l2 ++ ((fun r => r.1.1) <$> registered events)) as Hsub
    by (apply sublist_app; [done|by constructor]).
  split; cbn [ap_state ap_flight]; rewrite <- ?app_assoc; try done.
  - eapply sublist_NoDup; [|exact Hsub]. by rewrite <- app_assoc in H2.
  - rewrite <- app_assoc in H3. rewrite list.Forall_forall in H3 |- *. intros k Hk. apply H3.
    by eapply elem_of_sublist.
Qed.

Lemma approvals_counted events s flight n s' :
  approvals_ok events (mkApprovals s flight) -> take_counter s = (Ok n, s') ->
  approvals_ok events (mkApprovals s' (n :: flight)).
Proof.
  intros [H1 H2 H3 H4 H5 H6 H7 H8 H9]. cbn [ap_state ap_flight] in *. unfold take_counter.
  destruct (checked_add _ _ _) as [next|] eqn:E; [|done]. intros [= <- <-]. apply checked_add_Some in E as [-> E].
  rewrite list.Forall_forall in H3.
  split; cbn [ap_state ap_flight as_counter as_permits app]; try done.
  - lia.
  - apply list.NoDup_cons. split; [|done]. intros Hin%H3. lia.
  - constructor; [lia|]. apply list.Forall_forall. intros k Hk%H3. lia.
Qed.

Lemma approvals_registered events s l1 n l2 now session_id capabilities expires d c r s' :
  let e := Challenged now session_id capabilities expires n d r in
  event_known e -> approvals_ok events (mkApprovals s (l1 ++ n :: l2)) ->
  make_challenge keyed_hash authority session_id capabilities expires n d = Ok c ->
  register_challenge now c s = (r, s') -> approvals_ok (events ++ [e]) (mkApprovals s' (l1 ++ l2)).
Proof.
  intros e Hk Hok Hc Hr. pose proof (approvals_dropped _ _ _ _ _ (approvals_purged _ _ now Hok)) as Hd.
  cbn [ap_state ap_flight] in Hd. unfold register_challenge in Hr.
  destruct (Z.leb_spec MAX_PENDING_PERMITS (Z.of_nat (size (pm_pending (purge_expired now (as_permits s)))))) as [|Hroom].
  { injection Hr as <- <-. by apply approvals_quiet. }
  destruct (pm_pending (purge_expired now (as_permits s)) !! ch_nonce c) as [c'|] eqn:Hp.
  { injection Hr as <- <-. by apply approvals_quiet. }
  injection Hr as <- <-. specialize (Hk _ eq_refl). cbn [fst snd] in Hk. unfold make_challenge in Hc. inv_ok.
  unfold challenge_new in Hc. inv_ok. subst c. set (m := material session_id capabilities expires n d) in *.
  destruct Hok as [H1 H2 H3 _ _ _ _ _ _]. destruct Hd as [_ _ _ D4 D5 D6 D7 Dr [D8 D9]]. cbn [ap_state ap_flight as_counter as_permits] in *.
  rewrite list.Forall_forall in H3.
  (* The nonce is new. *)
  assert (forall c', c' ∈ snd <$> registered events -> ch_nonce c' <> nonce_of m) as Hnew.
  { intros c' ([[n' m'] c''] & -> & Hin)%list_elem_of_fmap E. destruct (D4 _ _ _ Hin) as (Hk' & En & s0 & c0 & x0 & d0 & Em).
    assert (m' = m) as E' by (apply Hnonce; [done|done|by rewrite <- En]). rewrite Em in E'.
    assert (n' ∈ (fun r => r.1.1) <$> registered events) as Hn' by (apply list_elem_of_fmap; by exists (n', m', c'')).
    apply material_counter in E'; [|enough (0 <= n' < as_counter s) by lia; apply H3; set_solver
                                  |enough (0 <= n < as_counter s) by lia; apply H3; set_solver].
    subst n'. rewrite <- app_assoc in H2. apply list.NoDup_app in H2 as (_ & _ & H2). apply list.NoDup_cons in H2 as [H2 _].
    apply H2. set_solver. }
  split; rewrite ?registered_snoc, ?accepted_snoc; cbn [registration acceptance ap_state ap_flight as_counter as_permits pm_pending pm_used];
    rewrite ?app_nil_r, ?fmap_app; cbn [fmap list_fmap fst snd]; try done.
  - rewrite app_assoc. eapply NoDup_Permutation_proper; [|exact H2]. rewrite <- !app_assoc. apply Permutation_app_head.
    rewrite (Permutation_app_comm l2). cbn. rewrite <- app_assoc. cbn.
    rewrite <- Permutation_middle. f_equiv. apply Permutation_app_comm.
  - apply list.Forall_forall. intros k Hin. apply H3. set_solver.
  - intros n' m' c' [Hin|Hin]%elem_of_app; [by apply D4|]. apply list_elem_of_singleton in Hin. simplify_eq. cbn.
    split_and!; [done..|]. by eexists _, _, _, _.
  - intros k c' [[<- <-]|[Hne Hl]]%lookup_insert_Some.
    + split; [set_solver|]. split; [done|]. intros Hin. destruct (D7 _ Hin) as (c' & Hin' & E). by apply (Hnew c').
    + destruct (D5 _ _ Hl) as (Ha & Hb & Hc'). split_and!; [set_solver|done..].
  - intros k Hin. destruct (D7 _ Hin) as (c' & Hin' & E). exists c'. split; [set_solver|done].
  - split; [|done]. rewrite map_size_insert_None by done. unfold purge_expired in Hroom. cbn [pm_pending] in Hroom. lia.
Qed.

Lemma approvals_issued events s flight now poisoned c r s' :
  approvals_ok events (mkApprovals s flight) -> issue keyed_hash authority now poisoned c s = (r, s') ->
  approvals_ok (events ++ [Issued now poisoned c r]) (mkApprovals s' flight).
Proof.
  intros Hok H. apply approvals_quiet; [done..|]. unfold issue in H.
  destruct now as [now|]; [|by injection H as <- <-]. destruct (_ || _); [by injection H as <- <-|].
  destruct poisoned; [by injection H as <- <-|]. pose proof (approvals_purged _ _ now Hok) as Hp.
  destruct (negb _); by injection H as <- <-.
Qed.

Lemma approvals_verified events s flight now poisoned token session_id capabilities d r s' :
  approvals_ok events (mkApprovals s flight) ->
  verify now poisoned token session_id capabilities d s = (r, s') ->
  approvals_ok (events ++ [Verified now poisoned token session_id capabilities d r]) (mkApprovals s' flight).
Proof.
  intros Hok H. destruct now as [now|]; [|injection H as <- <-; by apply approvals_quiet].
  destruct poisoned; [injection H as <- <-; by apply approvals_quiet|].
  pose proof (verify_spec keyed_hash authority token session_id capabilities d now s) as Hspec.
  pose proof (approvals_purged _ _ now Hok) as Hp. cbn [ap_state ap_flight] in Hp.
  rewrite H in Hspec. destruct r as [[]|x].
  - destruct Hspec as (c & (_ & Hpend & _ & _ & Hroom) & ->). destruct Hp as [H1 H2 H3 H4 H5 H6 H7 Hr [H8 H9]].
    cbn [ap_state ap_flight as_counter as_permits] in *. destruct (H5 _ _ Hpend) as (Hin & Hn & Hfresh).
    split; rewrite ?registered_snoc, ?accepted_snoc; cbn [registration acceptance ap_state ap_flight as_counter as_permits pm_pending pm_used];
      rewrite ?app_nil_r, ?fmap_app; cbn [fmap list_fmap]; try done.
    + intros k c' [Hne Hl]%lookup_delete_Some. destruct (H5 _ _ Hl) as (Ha & Hb & Hc). split_and!; [done..|].
      intros [?|?%list_elem_of_singleton]%elem_of_app; [done|congruence].
    + apply list.NoDup_app. split_and!; [done| |apply NoDup_singleton]. intros k Hk ->%list_elem_of_singleton. done.
    + intros k [Hk| ->%list_elem_of_singleton]%elem_of_app; [by apply H7|]. by exists c.
    + intros k e [[<- _]|[_ Hl]]%lookup_insert_Some; apply elem_of_app; [right; by apply list_elem_of_singleton|left; by apply (Hr k e)].
    + split.
      * pose proof (map_subseteq_size _ _ (delete_subseteq (pm_pending (purge_expired now (as_permits s))) (take 16 token))). lia.
      * destruct (pm_used (purge_expired now (as_permits s)) !! take 16 token) as [e|] eqn:E.
        -- rewrite map_size_insert_Some by done. lia.
        -- rewrite map_size_insert_None by done. lia.
  - destruct Hspec as [-> _]. by apply approvals_quiet.
Qed.

Lemma history_ok events a : history events a -> Forall event_known events -> approvals_ok events a.
Proof.
  induction 1 as [|events a e a' _ IH Hstep]; intros Hk.
  - split; [done|constructor|constructor| | |constructor| | |done].
    + intros n m c Hin. by apply elem_of_nil in Hin.
    + intros n c Hc. destruct (lookup_empty_Some _ _ Hc).
    + intros n Hin. by apply elem_of_nil in Hin.
    + intros n e He. destruct (lookup_empty_Some _ _ He).
  - apply list.Forall_app in Hk as [Hk [He _]%list.Forall_cons]. specialize (IH Hk). destruct Hstep.
    + apply approvals_quiet; [done..|]. by eapply approvals_counted.
    + by eapply approvals_registered.
    + by eapply approvals_issued.
    + by eapply approvals_verified.
Qed.

Lemma history_split before e after : forall a,
  history (before ++ e :: after) a -> exists s s', history before s /\ step s e s'.
Proof.
  induction after as [|x after IH] using rev_ind; intros a H.
  - inversion H as [E|events s e' s' Hh Hs E]; [by destruct before|].
    apply app_inj_tail in E as [-> ->]. by exists s, a.
  - rewrite app_comm_cons, app_assoc in H. inversion H as [E|events s e' s' Hh Hs E]; [by destruct before|].
    apply app_inj_tail in E as [-> ->]. by apply (IH s).
Qed.

(** Whoever is let through holds the token of a challenge registered before. *)
Lemma verified_challenge before a now poisoned token session_id capabilities d after :
  history (before ++ Verified now poisoned token session_id capabilities d (Ok tt) :: after) a ->
  Forall event_known (before ++ Verified now poisoned token session_id capabilities d (Ok tt) :: after) ->
  exists c t, c ∈ snd <$> registered before /\ now = Some t
    /\ allows_use authority session_id capabilities d t c /\ token = token_of keyed_hash authority c.
Proof.
  intros H Hk. destruct (history_split _ _ _ _ H) as (s & s' & Hh & Hs).
  apply list.Forall_app in Hk as [Hk _]. pose proof (history_ok _ _ Hh Hk) as Hok.
  inversion Hs as [| | |st flight now' p' token' sid caps d' r st' Hv]; subst.
  destruct now as [t|]; [|done]. destruct poisoned; [done|].
  pose proof (verify_spec keyed_hash authority token session_id capabilities d t st) as Hspec. rewrite Hv in Hspec.
  destruct Hspec as (c & Hacc & _). exists c, t. pose proof Hacc as (_ & Hp & Ha & _).
  apply purged_pending in Hp as [Hp _]. destruct (ok_pending _ _ Hok _ _ Hp) as (Hin & Hn & _).
  split_and!; [done..|]. by eapply accepts_token.
Qed.

(** An issued token is accepted, for the use it was issued for, until it expires. *)
Lemma issued_accepted events a now c token s' :
  (forall key m, length (keyed_hash key m) = 32%nat) ->
  history events a -> Forall event_known events ->
  issue keyed_hash authority (Some now) false c (ap_state a) = (Ok token, s') ->
  Z.of_nat (size (pm_used (as_permits s'))) < MAX_USED_PERMITS ->
  forall now', now' < ch_expires_at_millis c ->
  exists s'', verify (Some now') false token (ch_session_id c) (ch_capabilities c) (ch_action_digest c) s' = (Ok tt, s'').
Proof.
  intros Hlen Hh Hk Hi Hroom now' Hnow. pose proof (history_ok _ _ Hh Hk) as Hok.
  unfold issue in Hi. destruct (_ || _) eqn:Hc; [done|]. rewrite !orb_false_iff in Hc. destruct Hc as [[Hb Hp] Ht].
  zbool. rewrite !bool_decide_eq_true in *.
  destruct (bool_decide (pm_pending _ !! _ = Some c)) eqn:Hin; cbn [negb] in Hi; [|done].
  injection Hi as <- <-. rewrite bool_decide_eq_true in Hin. apply purged_pending in Hin as [Hin _].
  destruct (ok_pending _ _ Hok _ _ Hin) as (Hreg & _ & Hfresh).
  apply list_elem_of_fmap in Hreg as ([[n m] c'] & -> & Hreg). cbn [snd] in *.
  destruct (ok_made _ _ Hok _ _ _ Hreg) as (_ & Hn & _).
  assert (length (ch_nonce c') = 16%nat) as Hl by (rewrite Hn; unfold Permits.nonce_of; rewrite length_take, Hlen; lia).
  set (st := mkAuthorityState _ _) in *.
  pose proof (verify_spec keyed_hash authority (token_of keyed_hash authority c') (ch_session_id c') (ch_capabilities c')
    (ch_action_digest c') now' st) as Hs. cbv zeta in Hs.
  destruct (verify _ _ _ _ _ _ st) as [[[]|e] s2]; [by eexists|]. exfalso. destruct Hs as [_ Hs].
  pose proof (purge_sizes now' (as_permits st)) as [_ Hsz].
  apply (Hs c'). unfold accepts, Permits.token_of. rewrite take_app_length', drop_app_length' by done. split_and!.
  - apply eq_None_not_Some. intros [e0 [He0 _]%purged_used]. cbn in He0. apply purged_used in He0 as [He0 _].
    by apply Hfresh, (ok_remembered _ _ Hok _ e0).
  - apply purged_pending. split; [|done]. cbn. by apply purged_pending.
  - by split.
  - done.
  - lia.
Qed.

End history.
