(* ===== verification/NativeTree.v ===== *)
(** * NativeTree: the system's files as the readers see them

    What [std::fs] answers about native paths, links followed where the call follows
    them, on a Unix target; and the path functions of [std] the readers use, over the
    components of [Glob]. *)

From S2P Require Import Prelude Text Glob.
From S2P Require Import Workspace.

Inductive EntryKind : Type := EkFile | EkDirectory | EkSymlink | EkOther.
#[export] Instance EntryKind_eq_dec : EqDecision EntryKind.
Proof. solve_decision. Defined.

(** [fs::Metadata], the time as [modified_millis] computes it. *)
Record FileMeta : Type := mkFileMeta { fm_kind : EntryKind; fm_len : Z; fm_modified : option Z }.

(** The files at one moment. *)
Record FileTree : Type := mkFileTree {
  ft_canonicalize : OsString -> result IoKind OsString;
  ft_metadata : OsString -> result IoKind FileMeta;
  ft_symlink_metadata : OsString -> result IoKind FileMeta;
  ft_read : OsString -> result IoKind bytes;
  ft_read_dir : OsString -> result IoKind (list (result IoKind OsString));
  ft_read_link : OsString -> result IoKind OsString;
  (** Opening a file, and at most so many bytes of an open one from a place on. *)
  ft_open : OsString -> result IoKind nat;
  ft_read_at : nat -> Z -> Z -> result IoKind bytes;
}.

(** ** Paths *)

(** [Path::is_absolute], [file_name] and [to_str]. *)
Definition is_absolute (path : OsString) : bool := has_root path.
Definition file_name (path : OsString) : option OsString :=
  match rev (components path) with CNormal name :: _ => Some name | _ => None end.
Definition to_str (path : OsString) : option str := to_option (from_utf8 path).

(** [Path::strip_prefix] leaves the components behind the prefix. *)
Fixpoint strip_components (prefix path : list Component) : option (list Component) :=
  match prefix, path with
  | [], _ => Some path
  | p :: prefix, c :: path => if bool_decide (as_os_str p = as_os_str c) then strip_components prefix path else None
  | _ :: _, [] => None
  end.
Definition strip_path (root path : OsString) : option (list Component) :=
  strip_components (components root) (components path).

(** [Path::starts_with]. *)
Definition starts_with_path (root path : OsString) : bool :=
  match strip_path root path with Some _ => true | None => false end.
