(* ===== verification/Projection.v ===== *)
(** * Projection: what an operation sees of its program, and what the client is told

    crates/ash-ops/src/error.rs and projection.rs, the latter over a view of
    [ash_engine::Program].  Errors of third-party crates ([regex], [tokio]'s joins) and
    of the parts whose errors are only passed on are constructors without what they
    carry.

    An operation is a computation over the program's shared objects (its budget, the
    session's path dictionary, result store and permit authority) and the disk.  Before each of its turns
    the other tasks of the process, and other processes, may have acted on all of them;
    a call that locks an object is one turn, and so is a system call of the workspace,
    because a transaction holds its locks.  Cancellation, the clock, permits, the worker
    pool and the reads of spool files are answers of the surroundings.  Permits are
    dropped by the governor's own rules ([Governor]). *)

From S2P Require Import Prelude Text AsonModel Capability Response Budget Paths Store Governor.
From S2P Require Import Runtime Workspace AsonCodec Request Disk Permits NativeTree.

Inductive SemanticError : Type :=
| SmPlatform (e : PlatformError)
| SmParallelism (e : ParallelismError)
| SmRegex
| SmCancelled
| SmWorkLimit.

Inductive OperationError : Type :=
| OE_Authorization (e : AuthorizationError)
| OE_Platform (e : PlatformError)
| OE_Engine (e : EngineError)
| OE_Budget (e : BudgetError)
| OE_Parallelism (e : ParallelismError)
| OE_Store (e : StoreError)
| OE_Paths (e : PathDictionaryError)
| OE_Build (e : BuildError)
| OE_Response (e : ResponseError)
| OE_Regex
| OE_Io
| OE_Task
| OE_Unsupported
| OE_Cancelled
| OE_CapabilityDenied
| OE_InvalidArgument
| OE_InvalidSnapshot
| OE_WorkLimit
| OE_WrongFileType
| OE_OutputBudget.

(** [From<SemanticError>]. *)
Definition of_semantic (e : SemanticError) : OperationError :=
  match e with
  | SmPlatform e => OE_Platform e
  | SmParallelism e => OE_Parallelism e
  | SmRegex => OE_Regex
  | SmCancelled => OE_Cancelled
  | SmWorkLimit => OE_WorkLimit
  end.

Definition classification (e : OperationError) : Status * ErrorCode * RetryClass * ErrorStage :=
  match e with
  | OE_Unsupported => (Unsupported, UnsupportedOperation, CorrectRequest, StValidate)
  | OE_CapabilityDenied => (Denied, CapabilityDenied, Never, StAuthorize)
  | OE_Cancelled | OE_Engine (EE_Governor GE_Cancelled) => (SCancelled, ProcessCancelled, Never, StExecute)
  | OE_Engine (EE_Governor GE_Deadline) | OE_Engine (EE_Budget BE_Deadline) | OE_Budget BE_Deadline =>
      (STimedOut, ProcessTimedOut, RetrySame, StExecute)
  | OE_InvalidArgument | OE_InvalidSnapshot | OE_Platform PL_InvalidLogicalPath | OE_Regex =>
      (InvalidRequest, InvalidArgument, CorrectRequest, StValidate)
  | OE_WrongFileType => (SFailed, WrongFileType, CorrectRequest, StExecute)
  | OE_Platform PL_InvalidMutationTarget => (SFailed, WrongFileType, CorrectRequest, StResolve)
  | OE_Platform PL_WorkspaceEscape => (Denied, WorkspaceEscape, Never, StAuthorize)
  | OE_Platform PL_ReservedPath => (Denied, CapabilityDenied, Never, StAuthorize)
  | OE_Platform (PL_JournalCorrupt | PL_RecoveryRequired) =>
      (SFailed, CRecoveryRequired, RetryApproval, StExecute)
  | OE_Platform (PL_Io NotFound) => (SNotFound, PathNotFound, CorrectRequest, StResolve)
  | OE_Platform (PL_InputTooLarge _ _ | PL_EntryLimit _) | OE_WorkLimit =>
      (BudgetExceeded, StorageBudget, CorrectRequest, StExecute)
  | OE_OutputBudget
  | OE_Engine (EE_Budget (BE_Output _)) | OE_Engine (EE_Budget (BE_Records _))
  | OE_Budget (BE_Output _ | BE_Records _) => (BudgetExceeded, OutputBudget, CorrectRequest, StReduce)
  | OE_Store (SE_ContentTooLarge | SE_ByteQuota _ _ _ | SE_EntryQuota _ | SE_ReadLimit _ _) =>
      (BudgetExceeded, StorageBudget, CorrectRequest, StRetain)
  | OE_Store (SE_UnknownAlias _) => (SNotFound, UnknownReference, CorrectRequest, StResolve)
  | OE_Store (SE_InUse _) => (SConflict, ReferenceBusy, RetrySame, StRetain)
  | OE_Store SE_Io => (SFailed, CFilesystem, RetrySame, StRetain)
  | OE_Platform PL_MutationLockPoisoned => (SInternal, CInternal, RetrySame, StExecute)
  | OE_Platform _ => (SFailed, CFilesystem, RetrySame, StExecute)
  | OE_Engine (EE_Parallelism WorkerLost) | OE_Parallelism WorkerLost =>
      (SInternal, CInternal, RetrySame, StExecute)
  | OE_Authorization _ | OE_Engine _ | OE_Budget _ | OE_Parallelism _ | OE_Store _ | OE_Paths _
  | OE_Build _ | OE_Response _ => (SInternal, CInternal, RetrySame, StEncode)
  | OE_Io | OE_Task => (SInternal, CInternal, RetrySame, StExecute)
  end.

Definition into_response (e : OperationError) (request_id : Z) : result OperationError FinalResponse :=
  let '(status, code, retry, stage) := classification e in
  map_err OE_Response
    (FinalResponse_failure request_id status (mkErrorRecord code retry stage None None) [] None 0 None).

(** Every error has a response. *)
Lemma into_response_total e request_id :
  request_id <> 0 -> exists r, into_response e request_id = Ok r /\ fp_request_id r = request_id
                               /\ fp_status r <> Success /\ fp_data r = None.
Proof.
  intros Hid. unfold into_response.
  destruct (classification e) as [[[status code] retry] stage] eqn:E.
  assert (status <> Success) as Hs.
  { intros ->. unfold classification in E.
    repeat (match type of E with context [match ?x with _ => _ end] => destruct x end; try discriminate). }
  exists (mkResponse request_id status [] None (Some (mkErrorRecord code retry stage None None)) 0 None).
  split_and!; try done. unfold FinalResponse_failure, FinalResponse_new.
  destruct (Z.eqb_spec request_id 0); [done|].
  by rewrite (bool_decide_eq_false_2 _ Hs).
Qed.

(** ** The program an operation sees *)

Record Shared : Type := mkShared {
  sh_budget : BudgetTracker; sh_paths : PathDictionary; sh_store : Store.State;
  sh_authority : AuthorityState }.

Definition with_budget (b : BudgetTracker) (sh : Shared) : Shared :=
  mkShared b (sh_paths sh) (sh_store sh) (sh_authority sh).
Definition with_paths (p : PathDictionary) (sh : Shared) : Shared :=
  mkShared (sh_budget sh) p (sh_store sh) (sh_authority sh).
Definition with_store (s : Store.State) (sh : Shared) : Shared :=
  mkShared (sh_budget sh) (sh_paths sh) s (sh_authority sh).
Definition with_authority (a : AuthorityState) (sh : Shared) : Shared :=
  mkShared (sh_budget sh) (sh_paths sh) (sh_store sh) a.

Record Surroundings : Type := mkSurroundings {
  su_system : Environment;
  su_cancelled : nat -> bool;
  su_now : nat -> Z;
  su_permit : nat -> result GovernorError unit;
  su_worker : nat -> bool;
  su_spool : nat -> bool;
  su_others : nat -> Shared -> Disk.Disk -> Shared * Disk.Disk;
  (** The identity of the session, of its store, and the store's limits. *)
  su_session : Z;
  su_store : nat;
  su_store_limits : StoreLimits;
  (** [SystemTime::now] in milliseconds, and whether the authority's lock is poisoned. *)
  su_clock : nat -> option Z;
  su_poisoned : nat -> bool;
  (** The workspace's root, the system's files around a disk, and the order in which
      the pool's workers take up jobs. *)
  su_root : bytes;
  su_tree : nat -> Disk.Disk -> FileTree;
  su_priority : nat -> nat -> nat;
}.

Record Progress : Type := mkProgress { pg_world : World; pg_shared : Shared; pg_turn : nat }.

Definition op (E A : Type) : Type := Surroundings -> Progress -> Outcome E A * Progress.

#[export] Instance op_ret E : MRet (op E) := fun A a _ st => (Done a, st).
#[export] Instance op_bind E : MBind (op E) := fun A B f m su st =>
  match m su st with
  | (Done a, st) => f a su st
  | (Fail_ e, st) => (Fail_ e, st)
  | (Crash, st) => (Crash, st)
  end.

Definition op_fail {E A} (e : E) : op E A := fun _ st => (Fail_ e, st).
Definition op_lift {E A} (r : result E A) : op E A :=
  match r with Ok a => mret a | Err e => op_fail e end.
Definition op_try {E F A} (m : op E A) : op F (result E A) := fun su st =>
  match m su st with
  | (Done a, st) => (Done (Ok a), st)
  | (Fail_ e, st) => (Done (Err e), st)
  | (Crash, st) => (Crash, st)
  end.
Definition op_map_err {E F A} (f : E -> F) (m : op E A) : op F A := fun su st =>
  match m su st with
  | (Done a, st) => (Done a, st)
  | (Fail_ e, st) => (Fail_ (f e), st)
  | (Crash, st) => (Crash, st)
  end.

(** The others act, and the operation's turn begins. *)
Definition others (su : Surroundings) (st : Progress) : Progress :=
  let '(sh, d) := su_others su (pg_turn st) (pg_shared st) (w_disk (pg_world st)) in
  mkProgress (on_disk d (pg_world st)) sh (S (pg_turn st)).

Definition ask {E A} (answer : Surroundings -> nat -> A) : op E A := fun su st =>
  (Done (answer su (pg_turn st)), others su st).

Definition get_surroundings {E} : op E Surroundings := fun su st => (Done su, st).

(** A call on a shared object. *)
Definition shared {E A} (f : Shared -> result E A * Shared) : op E A := fun su st =>
  let st := others su st in
  let '(r, sh) := f (pg_shared st) in
  (match r with Ok a => Done a | Err e => Fail_ e end, mkProgress (pg_world st) sh (pg_turn st)).

(** A call of the workspace under a [control] closure. *)
Definition system_with {E A} (control : Surroundings -> Progress -> nat -> TransactionControl)
    (m : io E A) : op E A := fun su st =>
  let st := others su st in
  let system := su_system su in
  let env := mkEnvironment (faults system) (control su st) (mutex_answers system)
               (file_lock_answers system) in
  let '(r, w) := m env (pg_world st) in
  (r, mkProgress w (pg_shared st) (pg_turn st)).

Definition system {E A} (m : io E A) : op E A :=
  system_with (fun su _ => control (su_system su)) m.

(** [ComputePool::run]: the job's result, unless the pool drops the job before it
    starts; the jobs do not panic. *)
Definition pool_run {A} (m : op OperationError A) : op OperationError A :=
  done_ ← ask su_worker;
  if done_ : bool then m else op_fail (OE_Parallelism WorkerLost).

Definition acquire : op OperationError unit :=
  answer ← ask su_permit;
  op_lift (map_err (fun e => OE_Engine (EE_Governor e)) answer).

(** [check_cancelled] and [check_control] of the operations. *)
Definition check_program : op OperationError unit :=
  cancelled ← ask su_cancelled;
  if cancelled : bool then op_fail OE_Cancelled
  else
    now ← ask su_now;
    shared (fun sh => (map_err OE_Budget (check_deadline (sh_budget sh) now), sh)).

(** The closure the operations give to a transaction. *)
Definition program_control (su : Surroundings) (st : Progress) (poll : nat) : TransactionControl :=
  if su_cancelled su (pg_turn st + poll) then Cancelled
  else
    match check_deadline (sh_budget (pg_shared st)) (su_now su (pg_turn st + poll)) with
    | Err _ => TimedOut
    | Ok _ => Continue
    end.

(** ** projection.rs *)

Definition encoded (response : FinalResponse) : result OperationError str :=
  encode <$> map_err OE_Build (FinalResponse_encode response).

Definition limit_of (remaining : BudgetRemaining) : Z :=
  Z.min (br_output_bytes remaining) (saturating_mul u64_max (br_tokens remaining) 4).

Definition presentation_limit : op OperationError Z :=
  shared (fun sh => (Ok (limit_of (remaining (sh_budget sh))), sh)).

(** The search of [largest_prefix]; [fuel] bounds its turns. *)
Fixpoint prefix_loop (fuel : nat) (candidate : Z -> bool -> result OperationError FinalResponse)
    (total byte_limit low high : Z) : option (result OperationError Z) :=
  if high <=? low then Some (Ok low)
  else
    match fuel with
    | O => None
    | S fuel =>
        let middle := low + (high - low + 1) / 2 in
        match candidate middle (middle <? total) ≫= encoded with
        | Err e => Some (Err e)
        | Ok text =>
            if str_len text <=? byte_limit then prefix_loop fuel candidate total byte_limit middle high
            else prefix_loop fuel candidate total byte_limit low (middle - 1)
        end
    end.

Definition largest_prefix (total record_limit byte_limit : Z)
    (candidate : Z -> bool -> result OperationError FinalResponse) : option (result OperationError Z) :=
  let upper := Z.min total record_limit in
  match prefix_loop (Z.to_nat upper) candidate total byte_limit 0 upper with
  | Some (Ok low) =>
      Some (
        text ← candidate low (low <? total) ≫= encoded;
        if byte_limit <? str_len text then Err OE_OutputBudget else Ok low)
  | other => other
  end.

(** The keys of the [BTreeMap] after one more insertion. *)
Fixpoint insert_path (path : str) (keys : list str) : list str :=
  match keys with
  | [] => [path]
  | key :: rest =>
      if bool_decide (path = key) then keys
      else if bytes_lt (str_bytes path) (str_bytes key) then path :: keys
      else key :: insert_path path rest
  end.

Definition path_keys (paths : list str) : list str := foldl (fun keys path => insert_path path keys) [] paths.

(** The enumeration of the map's entries from the identifier [id] on. *)
Fixpoint number_paths (id : Z) (keys : list str) : list PathMapping :=
  match keys with
  | [] => []
  | key :: keys => mkMapping id key :: number_paths (id + 1) keys
  end.

(** [unique[path]]. *)
Fixpoint mapping_id (mappings : list PathMapping) (path : str) : Z :=
  match mappings with
  | [] => 0
  | m :: mappings => if bool_decide (pm_value m = path) then pm_id m else mapping_id mappings path
  end.

Definition temporary_paths (paths : list str) : list Z * list PathMapping :=
  let unique := path_keys paths in
  let base := u64_max - len unique in
  let mappings := number_paths (base + 1) unique in
  (mapping_id mappings <$> paths, mappings).

Definition intern_paths (paths : list str) : op OperationError (list Z * list PathMapping) :=
  shared (fun sh =>
    match intern paths (sh_paths sh) with
    | Ok (interned, dictionary) =>
        (Ok (ip_ids interned, (fun e => mkMapping (pe_id e) (pe_value e)) <$> ip_introduced interned),
         with_paths dictionary sh)
    | Err e => (Err (OE_Paths e), sh)
    end).

(** A reservation of the budget; [reserve_alone] shows that it always ends. *)
Definition reserve (f : BudgetTracker -> option (result BudgetError unit * BudgetTracker))
    : op OperationError unit :=
  shared (fun sh =>
    match f (sh_budget sh) with
    | Some (r, budget) => (map_err OE_Budget r, with_budget budget sh)
    | None => (Err OE_Task, sh)
    end).

Definition charge (response : FinalResponse) (records : Z) : op OperationError unit :=
  text ← op_lift (encoded response);
  records ← op_lift (if u32_max <? records then Err OE_WorkLimit else Ok records);
  _ ← reserve (fun budget => reserve_records budget records);
  reserve (fun budget => reserve_output budget (str_len text)).

(** [ResultStore::get], [ResultLease::len], [read_all] and the end of the lease. *)
Definition read_retained (reference max_bytes : Z) : op OperationError (Z * bytes) :=
  content ← shared (fun sh =>
    match get reference (sh_store sh) with
    | Ok (content, store) => (Ok content, with_store store sh)
    | Err e => (Err (OE_Store e), sh)
    end);
  spool ← ask su_spool;
  let size := ct_length content in
  let data := if max_bytes <? size then Err OE_WorkLimit
              else map_err OE_Store (read_all spool content max_bytes) in
  _ ← shared (fun sh =>
    (Ok tt, with_store (drop_lease reference (sh_store sh)) sh));
  data ← op_lift data;
  mret (size, data).
