(* ===== verification/ProjectionFacts.v ===== *)
(** * ProjectionFacts: path numberings and the length of answers

    An answer is costed before the operation runs, with temporary path identifiers
    and the longest rows.  Here: the temporary and the interned identifiers both number
    the paths, and an answer with the latter is never longer than one with the former. *)

From S2P Require Import ReducerFacts ReducerBlocks Prelude Text AsonModel AsonCodec.
From S2P Require Import AsonScalarFacts AsonFacts Wire Capability Request Response.
From S2P Require Import ResponseFacts Budget Paths Store Governor Runtime Projection Workspace.
From S2P Require Import Manifest Disk.

(** ** The order of strings *)

Lemma bytes_lt_irrefl b : bytes_lt b b = false.
Proof. induction b as [|x b IH]; [done|]. cbn. by rewrite Z.ltb_irrefl, Z.eqb_refl, IH. Qed.

Lemma bytes_lt_trans a b c : bytes_lt a b = true -> bytes_lt b c = true -> bytes_lt a c = true.
Proof.
  revert b c. induction a as [|x a IH]; intros [|y b] [|z c]; cbn; try done.
  rewrite !orb_true_iff, !andb_true_iff, !Z.ltb_lt, !Z.eqb_eq.
  intros [Hxy|[-> Hab]] [Hyz|[-> Hbc]]; [left; lia|by left|by left|right; eauto].
Qed.

Lemma bytes_lt_total a b : bytes_lt a b = false -> bytes_lt b a = false -> a = b.
Proof.
  revert b. induction a as [|x a IH]; intros [|y b]; cbn; try done.
  rewrite !orb_false_iff, !andb_false_iff, !Z.ltb_ge, !Z.eqb_neq.
  intros [H1 H2] [H3 H4]. assert (x = y) as -> by lia. f_equal. apply IH; naive_solver.
Qed.

Definition str_lt (s t : str) : Prop := bytes_lt (str_bytes s) (str_bytes t) = true.

Lemma str_lt_total s t : valid_str s = true -> valid_str t = true -> s <> t -> str_lt s t \/ str_lt t s.
Proof.
  intros Hs Ht Hne. unfold str_lt. destruct (bytes_lt (str_bytes s) (str_bytes t)) eqn:E1; [by left|].
  destruct (bytes_lt (str_bytes t) (str_bytes s)) eqn:E2; [by right|].
  destruct Hne. by apply str_bytes_inj, bytes_lt_total.
Qed.

Lemma str_lt_sorted_nodup l : Sorted.StronglySorted str_lt l -> NoDup l.
Proof.
  induction 1 as [|x l _ IH Hx]; constructor; [|done]. intros Hin. rewrite list.Forall_forall in Hx.
  specialize (Hx x Hin). unfold str_lt in Hx. by rewrite bytes_lt_irrefl in Hx.
Qed.

(** ** The keys of the map *)

Lemma elem_of_insert_path q p keys : q ∈ insert_path p keys <-> q = p \/ q ∈ keys.
Proof.
  induction keys as [|k keys IH]; cbn [insert_path]; [set_solver|].
  case_bool_decide; [set_solver|]. destruct (bytes_lt _ _); set_solver.
Qed.

Lemma insert_path_sorted p keys :
  valid_str p = true -> Forall (fun k => valid_str k = true) keys ->
  Sorted.StronglySorted str_lt keys -> Sorted.StronglySorted str_lt (insert_path p keys).
Proof.
  intros Hp Hk. induction 1 as [|k keys Hs IH Hlt]; cbn [insert_path]; [by repeat constructor|].
  apply list.Forall_cons in Hk as [Hk Hks]. case_bool_decide as E; [by constructor|].
  destruct (bytes_lt (str_bytes p) (str_bytes k)) eqn:El.
  - constructor; [by constructor|]. constructor; [done|]. eapply list.Forall_impl; [exact Hlt|].
    intros x Hx. by eapply bytes_lt_trans.
  - constructor; [by apply IH|]. apply list.Forall_forall. intros x [->|Hx]%elem_of_insert_path.
    + destruct (str_lt_total p k Hp Hk E) as [H|H]; [|done]. unfold str_lt in H. congruence.
    + rewrite list.Forall_forall in Hlt. by apply Hlt.
Qed.

Lemma path_keys_spec paths :
  Forall (fun p => valid_str p = true) paths ->
  Sorted.StronglySorted str_lt (path_keys paths) /\ forall q, q ∈ path_keys paths <-> q ∈ paths.
Proof.
  unfold path_keys. intros Hv.
  assert (forall keys, Sorted.StronglySorted str_lt keys -> Forall (fun k => valid_str k = true) keys ->
    let r := foldl (fun keys path => insert_path path keys) keys paths in
    Sorted.StronglySorted str_lt r /\ forall q, q ∈ r <-> q ∈ keys \/ q ∈ paths) as H.
  { induction Hv as [|p paths Hp Hv IH]; intros keys Hs Hk; cbn [foldl]; [set_solver|].
    destruct (IH (insert_path p keys)) as [H1 H2].
    - by apply insert_path_sorted.
    - apply list.Forall_forall. intros x [->|Hx]%elem_of_insert_path; [done|].
      rewrite list.Forall_forall in Hk. by apply Hk.
    - split; [done|]. intros q. rewrite H2, elem_of_insert_path. set_solver. }
  destruct (H [] (Sorted.SSorted_nil _) (List.Forall_nil _)) as [H1 H2].
  split; [done|]. intros q. rewrite H2, elem_of_nil. tauto.
Qed.

(** ** Numberings *)

Definition path_sound (path : str) : Prop := valid_str path = true /\ validate_path path = Ok tt.

Lemma validate_path_iff path :
  validate_path path = Ok tt <-> path <> [] /\ str_len path <= 4096 /\ contains 0 path = false.
Proof.
  assert (bool_decide (path = []) || (4096 <? str_len path) || contains 0 path = false
          <-> path <> [] /\ str_len path <= 4096 /\ contains 0 path = false) as <-.
  { rewrite !orb_false_iff, bool_decide_eq_false, Z.ltb_ge. tauto. }
  unfold validate_path. by destruct (_ || _ || _).
Qed.

(** Each path has an identifier, distinct paths distinct ones, and the mappings that go
    with them give some of the paths the identifiers they have. *)
Record numbering (paths : list str) (ids : list Z) (mappings : list PathMapping) : Prop := mkNumbering {
  nu_length : length ids = length paths;
  nu_same : forall i j p q m n, paths !! i = Some p -> paths !! j = Some q ->
              ids !! i = Some m -> ids !! j = Some n -> m = n -> p = q;
  nu_range : Forall (fun id => 1 <= id <= u64_max) ids;
  nu_valid : paths_valid mappings;
  nu_mapping_range : Forall (fun m => 1 <= pm_id m <= u64_max) mappings;
  nu_values : forall p, p ∈ pm_value <$> mappings -> p ∈ paths;
  nu_agree : forall m i id, m ∈ mappings -> paths !! i = Some (pm_value m) -> ids !! i = Some id -> pm_id m = id;
}.

Lemma numbered_values id keys : pm_value <$> number_paths id keys = keys.
Proof. revert id. induction keys as [|k keys IH]; intros id; [done|]. cbn. by rewrite IH. Qed.

Lemma elem_of_number_paths id keys m :
  m ∈ number_paths id keys ->
  exists i, keys !! i = Some (pm_value m) /\ pm_id m = id + Z.of_nat i.
Proof.
  revert id. induction keys as [|k keys IH]; intros id H; [by apply elem_of_nil in H|].
  cbn in H. apply elem_of_cons in H as [->|H]; [exists 0%nat; cbn; split; [done|lia]|].
  destruct (IH _ H) as (i & Hi & ->). exists (S i). split; [done|lia].
Qed.

Lemma number_paths_sorted id keys : Sorted.Sorted (fun a b => pm_id a < pm_id b) (number_paths id keys).
Proof.
  revert id. induction keys as [|k keys IH]; intros id; [constructor|]. cbn. constructor; [done|].
  destruct keys; cbn; constructor. cbn. lia.
Qed.

Lemma mapping_id_spec id keys p :
  NoDup keys -> p ∈ keys -> exists i, keys !! i = Some p /\ mapping_id (number_paths id keys) p = id + Z.of_nat i.
Proof.
  intros Hn. revert id. induction Hn as [|k keys Hk Hn IH]; intros id Hp; [by apply elem_of_nil in Hp|].
  cbn [number_paths mapping_id pm_value pm_id]. case_bool_decide as E.
  - exists 0%nat. subst. cbn. split; [done|lia].
  - apply elem_of_cons in Hp as [->|Hp]; [done|]. destruct (IH (id + 1) Hp) as (i & Hi & ->).
    exists (S i). split; [done|lia].
Qed.

Lemma path_keys_length paths :
  Forall (fun p => valid_str p = true) paths -> len (path_keys paths) <= len paths.
Proof.
  intros Hv. destruct (path_keys_spec _ Hv) as [Hs Hi]. apply str_lt_sorted_nodup in Hs.
  unfold len. apply inj_le, submseteq_length, NoDup_submseteq; [done|]. intros x. apply Hi.
Qed.

Lemma temporary_numbering paths :
  Forall path_sound paths -> len paths < u64_max ->
  numbering paths (temporary_paths paths).1 (temporary_paths paths).2.
Proof.
  intros Hs Hlen.
  assert (Forall (fun p => valid_str p = true) paths) as Hv by (eapply list.Forall_impl; [exact Hs|]; by intros p []).
  destruct (path_keys_spec _ Hv) as [Hsort Hin]. pose proof (str_lt_sorted_nodup _ Hsort) as Hn.
  pose proof (path_keys_length paths Hv) as Hkl. pose proof (len_nonneg (path_keys paths)).
  assert (forall i k, path_keys paths !! i = Some k -> Z.of_nat i < len (path_keys paths)) as Hlt
    by (intros i k Hi; apply lookup_lt_Some in Hi; unfold len; lia).
  unfold temporary_paths. cbn [fst snd]. split.
  - by rewrite length_fmap.
  - intros i j p q m n Hp Hq Hm Hn' ->. rewrite list_lookup_fmap, Hp in Hm. rewrite list_lookup_fmap, Hq in Hn'.
    injection Hm as Hm. injection Hn' as Hn'.
    destruct (mapping_id_spec (u64_max - len (path_keys paths) + 1) _ p Hn) as (i' & Hi' & Ei);
      [by apply Hin; eapply list_elem_of_lookup_2|].
    destruct (mapping_id_spec (u64_max - len (path_keys paths) + 1) _ q Hn) as (j' & Hj' & Ej);
      [by apply Hin; eapply list_elem_of_lookup_2|].
    assert (i' = j') as -> by lia. congruence.
  - apply Forall_fmap, list.Forall_forall. intros p Hp. cbn.
    destruct (mapping_id_spec (u64_max - len (path_keys paths) + 1) _ p Hn ltac:(by apply Hin)) as (i & Hi & ->).
    specialize (Hlt _ _ Hi). lia.
  - split; [apply number_paths_sorted|]. split; [by rewrite numbered_values|].
    apply list.Forall_forall. intros m (i & Hi & ->)%elem_of_number_paths. split; [lia|].
    apply list_elem_of_lookup_2, Hin in Hi. rewrite list.Forall_forall in Hs. by apply validate_path_iff, Hs.
  - apply list.Forall_forall. intros m (i & Hi & ->)%elem_of_number_paths. specialize (Hlt _ _ Hi). lia.
  - intros p. rewrite numbered_values. by apply Hin.
  - intros m i id (k & Hk & ->)%elem_of_number_paths Hp Hid. rewrite list_lookup_fmap, Hp in Hid. injection Hid as <-.
    destruct (mapping_id_spec (u64_max - len (path_keys paths) + 1) _ (pm_value m) Hn) as (j & Hj & ->);
      [by eapply list_elem_of_lookup_2|]. by rewrite (NoDup_lookup _ _ _ _ Hn Hk Hj).
Qed.

(** Temporary identifiers have twenty digits. *)
Lemma temporary_wide paths :
  Forall path_sound paths -> len paths <= 1000 ->
  Forall (fun id => 10000000000000000000 <= id <= u64_max) (temporary_paths paths).1.
Proof.
  intros Hs Hlen.
  assert (Forall (fun p => valid_str p = true) paths) as Hv by (eapply list.Forall_impl; [exact Hs|]; by intros p []).
  destruct (path_keys_spec _ Hv) as [Hsort Hin]. pose proof (str_lt_sorted_nodup _ Hsort) as Hn.
  pose proof (path_keys_length paths Hv) as Hkl. unfold temporary_paths. cbn [fst].
  apply Forall_fmap, list.Forall_forall. intros p Hp. cbn.
  destruct (mapping_id_spec (u64_max - len (path_keys paths) + 1) _ p Hn ltac:(by apply Hin)) as (i & Hi & ->).
  apply lookup_lt_Some in Hi. unfold len in *. lia.
Qed.

Lemma interned_numbering history d paths ip d' :
  dict_repr history d -> pd_max_entries d <= u64_max -> Forall path_sound paths -> intern paths d = Ok (ip, d') ->
  numbering paths (ip_ids ip) ((fun e => mkMapping (pe_id e) (pe_value e)) <$> ip_introduced ip).
Proof.
  intros Hr Hmax Hs H. destruct (intern_spec _ _ _ _ _ Hr H) as (Hr' & HF & Hi & _ & Hm).
  assert (forall id p, mkPathEntry id p ∈ history ++ ip_introduced ip -> 1 <= id <= u64_max) as Hrange.
  { intros id p Hp. apply list_elem_of_lookup_1 in Hp as [i Hi'].
    pose proof (dr_ids _ _ Hr' _ _ Hi') as E. cbn in E. apply lookup_lt_Some in Hi'. unfold len in Hm. lia. }
  assert (forall id p q, mkPathEntry id p ∈ history ++ ip_introduced ip ->
                         mkPathEntry id q ∈ history ++ ip_introduced ip -> p = q) as Hfun.
  { intros id p q Hp Hq. apply list_elem_of_lookup_1 in Hp as [i Hp], Hq as [j Hq].
    pose proof (dr_ids _ _ Hr' _ _ Hp) as Ei. pose proof (dr_ids _ _ Hr' _ _ Hq) as Ej. cbn in Ei, Ej.
    assert (i = j) as -> by lia. congruence. }
  split.
  - symmetry. by eapply Forall2_length.
  - intros i j p q m n Hp Hq Hm' Hn' ->. pose proof (Forall2_lookup_lr _ _ _ _ _ _ HF Hp Hm').
    pose proof (Forall2_lookup_lr _ _ _ _ _ _ HF Hq Hn'). by apply (Hfun n).
  - apply list.Forall_forall. intros id Hid. apply list_elem_of_lookup_1 in Hid as [i Hid].
    destruct (Forall2_lookup_r _ _ _ _ _ HF Hid) as (p & _ & Hp). by apply (Hrange id p).
  - pose proof (dr_values _ _ Hr') as Hn. rewrite fmap_app in Hn. apply list.NoDup_app in Hn as (_ & _ & Hn).
    split; [|split].
    + assert (forall k l, (forall i e, l !! i = Some e -> pe_id e = k + Z.of_nat i) ->
        Sorted.Sorted (fun a b => pm_id a < pm_id b) ((fun e => mkMapping (pe_id e) (pe_value e)) <$> l)) as Hsort.
      { intros k l. revert k. induction l as [|e l IH]; intros k Hl; [constructor|]. cbn. constructor.
        - apply (IH (k + 1)). intros i x Hx. specialize (Hl (S i) x Hx). lia.
        - destruct l as [|x l]; constructor. cbn. pose proof (Hl 0%nat e eq_refl). pose proof (Hl 1%nat x eq_refl). lia. }
      apply (Hsort (len history + 1)). intros i e Hi'.
      pose proof (dr_ids _ _ Hr' (length history + i)%nat e) as E. rewrite E; [unfold len; lia|].
      rewrite lookup_app_r by lia. by replace (length history + i - length history)%nat with i by lia.
    + by rewrite <- list_fmap_compose.
    + apply Forall_fmap, list.Forall_forall. intros e He. cbn. rewrite list.Forall_forall in Hi. rewrite list.Forall_forall in Hs.
      destruct (Hs _ (Hi e He)) as [_ Hp%validate_path_iff]. split; [|done].
      assert (mkPathEntry (pe_id e) (pe_value e) ∈ history ++ ip_introduced ip) as He' by (apply elem_of_app; right; by destruct e).
      apply Hrange in He'. lia.
  - apply Forall_fmap, list.Forall_forall. intros e He. cbn. apply (Hrange _ (pe_value e)), elem_of_app. right. by destruct e.
  - intros p. rewrite <- list_fmap_compose. intros (e & -> & He)%list_elem_of_fmap.
    rewrite list.Forall_forall in Hi. by apply Hi.
  - intros m i id (e & -> & He)%list_elem_of_fmap Hp Hid. cbn in *.
    pose proof (Forall2_lookup_lr _ _ _ _ _ _ HF Hp Hid) as H1.
    assert (mkPathEntry (pe_id e) (pe_value e) ∈ history ++ ip_introduced ip) as H2 by (apply elem_of_app; right; by destruct e).
    apply (dr_map _ _ Hr') in H1, H2. congruence.
Qed.

(** ** The length of decimals and cells *)

Lemma decimal_mono n : forall m, 0 <= m <= n -> str_len (to_string m) <= str_len (to_string n).
Proof.
  destruct (Z.le_gt_cases 0 n) as [Hn|]; [|lia]. revert Hn.
  induction n as [n IH] using (well_founded_induction (Z.lt_wf 0)). intros Hn m Hm.
  rewrite !str_len_to_string by lia. destruct (Z.lt_ge_cases m 10) as [Hs|Hl].
  - rewrite (len_to_string_digit m) by lia. destruct (Z.lt_ge_cases n 10).
    + by rewrite len_to_string_digit.
    + rewrite len_to_string_snoc by done. pose proof (len_nonneg (to_string (n / 10))). lia.
  - rewrite (len_to_string_snoc m), (len_to_string_snoc n) by lia.
    assert (0 <= n / 10 < n) by (split; [apply Z.div_pos|apply Z.div_lt]; lia).
    assert (0 <= m / 10 <= n / 10) by (split; [apply Z.div_pos|apply Z.div_le_mono]; lia).
    specialize (IH (n / 10) ltac:(lia) ltac:(lia) (m / 10) ltac:(lia)).
    rewrite (str_len_to_string (m / 10)), (str_len_to_string (n / 10)) in IH by lia. lia.
Qed.

Lemma decimal_bound_low n : 0 <= n -> 1 <= str_len (to_string n).
Proof. intros Hn. change 1 with (str_len (to_string 0)). apply decimal_mono. lia. Qed.

Lemma decimal_bound n : 0 <= n <= u64_max -> 1 <= str_len (to_string n) <= 20.
Proof.
  intros Hn. split; [apply decimal_bound_low; lia|].
  change 20 with (str_len (to_string u64_max)). by apply decimal_mono.
Qed.

Lemma decimal_wide n : 10000000000000000000 <= n <= u64_max -> str_len (to_string n) = 20.
Proof.
  intros Hn. apply Z.le_antisymm; [apply decimal_bound; lia|].
  change 20 with (str_len (to_string 10000000000000000000)). apply decimal_mono. lia.
Qed.

Lemma bare_written s :
  s <> [] -> forallb is_bare_byte s = true -> head s <> Some 64 -> write_atom (AText s) = s.
Proof.
  intros Hne Hb Hh. cbn [write_atom]. unfold is_bare_text. rewrite (bool_decide_eq_false_2 _ Hne).
  rewrite forallb_str_bytes by apply bare_byte_ascii. rewrite Hb.
  destruct s as [|c s]; [done|]. unfold is_reference_syntax. cbn [strip_prefix].
  destruct (Z.eqb_spec c 64) as [->|]; [by destruct Hh|done].
Qed.

Lemma digit_bare c : is_ascii_digit c = true -> is_bare_byte c = true.
Proof. unfold is_bare_byte, is_ascii_alphanumeric. intros ->. by rewrite ?orb_true_r. Qed.

Lemma decimal_written n : 0 <= n -> write_atom (AText (to_string n)) = to_string n.
Proof.
  intros Hn. pose proof (to_string_digits n Hn) as Hd. apply bare_written.
  - apply to_string_nonempty.
  - rewrite forallb_forall in Hd |- *. intros c Hc. by apply digit_bare, Hd.
  - destruct (to_string n) as [|c s]; [done|]. intros [= ->]. by cbn in Hd.
Qed.

Definition cell_le (c d : Cell) : Prop := str_len (write_cell c) <= str_len (write_cell d).

Lemma cell_le_refl c : cell_le c c.
Proof. unfold cell_le. lia. Qed.

Lemma unsigned_le m n : 0 <= m <= n -> cell_le (unsigned_value m) (unsigned_value n).
Proof.
  intros H. unfold cell_le, unsigned_value. cbn [write_cell]. rewrite !decimal_written by lia. by apply decimal_mono.
Qed.

Lemma id_le id wide :
  1 <= id <= u64_max -> 10000000000000000000 <= wide <= u64_max -> cell_le (unsigned_value id) (unsigned_value wide).
Proof.
  intros Hi Hw. unfold cell_le, unsigned_value. cbn [write_cell]. rewrite !decimal_written, (decimal_wide wide) by lia.
  apply decimal_bound. lia.
Qed.

Lemma digit_le m n : 0 <= m < 10 -> 0 <= n -> cell_le (unsigned_value m) (unsigned_value n).
Proof.
  intros Hm Hn. unfold cell_le, unsigned_value. cbn [write_cell]. rewrite !decimal_written by lia.
  rewrite str_len_to_string, len_to_string_digit by lia. by apply decimal_bound_low.
Qed.

Lemma write_row_mono r s : Forall2 cell_le r s -> str_len (write_row r) <= str_len (write_row s).
Proof.
  intros H. unfold write_row. rewrite !str_len_app. apply Z.add_le_mono_r, join_len_mono.
  rewrite Forall2_fmap. exact H.
Qed.

Lemma hex_digits_bare d : forallb byte_ok d = true -> forallb is_bare_byte (encode_hex d) = true /\ head (encode_hex d) <> Some 64.
Proof.
  assert (forall n, 0 <= n < 16 -> is_bare_byte (hex_digit n) = true /\ hex_digit n <> 64) as Hh.
  { intros n Hn. split; [|unfold hex_digit; destruct (Z.ltb_spec n 10); lia].
    assert (forallb (fun n => is_bare_byte (hex_digit n)) (seqZ 0 16) = true) as H by reflexivity.
    rewrite forallb_forall in H. apply H, list_elem_of_In, elem_of_seqZ. lia. }
  induction d as [|b d IH]; [done|]. cbn [forallb]. intros [Hb Hd]%andb_true_iff. rewrite encode_hex_cons.
  destruct (byte_nibbles b Hb) as (H1 & H2 & _). destruct (Hh _ H1) as [B1 N1]. destruct (Hh _ H2) as [B2 _].
  split; [|cbn; congruence]. cbn [forallb]. rewrite B1, B2. by apply IH.
Qed.

Lemma encode_hex_length d : length (encode_hex d) = (2 * length d)%nat.
Proof. induction d as [|b d IH]; [done|]. rewrite encode_hex_cons. cbn. lia. Qed.

Lemma encode_hex_len d : forallb byte_ok d = true -> str_len (encode_hex d) = 2 * len d.
Proof.
  intros Hd. rewrite str_len_ascii.
  - unfold len. rewrite encode_hex_length. lia.
  - apply hex_digits_bare in Hd as [Hb _]. rewrite forallb_forall in Hb |- *. intros c Hc.
    apply Z.ltb_lt. apply bare_byte_ascii. by apply Hb.
Qed.

(** A digest as bytes, and as the text of a cell. *)
Lemma digest_text_len d : digest_ok d -> str_len (write_atom (AText (encode_hex d))) = 64.
Proof.
  intros [Hl Hb]. destruct (hex_digits_bare d Hb) as [H1 H2]. rewrite bare_written; [|..]; try done.
  - rewrite encode_hex_len by done. lia.
  - intros E. pose proof (encode_hex_length d) as H. rewrite E in H. unfold len in Hl. cbn in H. lia.
Qed.

Lemma digest_valid d : digest_ok d -> valid_digest (encode_hex d) = true.
Proof.
  intros [Hl Hb]. unfold valid_digest. rewrite encode_hex_len, Hl by done. cbn [Z.mul Z.eqb Pos.mul Pos.eqb andb].
  rewrite forallb_str_bytes by (intros b; unfold is_ascii_digit; lia). clear Hl.
  assert (forall n, 0 <= n < 16 -> is_ascii_digit (hex_digit n)
            || ((97 <=? hex_digit n) && (hex_digit n <=? 102)) = true) as Hh
    by (intros n Hn; unfold hex_digit, is_ascii_digit; destruct (Z.ltb_spec n 10); lia).
  induction d as [|b d IH]; [done|]. cbn [forallb] in Hb. apply andb_true_iff in Hb as [Hb Hd].
  rewrite encode_hex_cons. destruct (byte_nibbles b Hb) as (H1 & H2 & _).
  cbn [forallb]. rewrite (Hh _ H1), (Hh _ H2). by apply IH.
Qed.

Lemma digest_le o w :
  (forall d, o = Some d -> digest_ok d) -> digest_ok w ->
  cell_le (optional_text (encode_hex <$> o)) (optional_text (Some (encode_hex w))).
Proof.
  intros Ho Hw. unfold cell_le. destruct o as [d|]; cbn [fmap option_fmap option_map optional_text map_or_null].
  - unfold text_value. cbn [write_cell]. rewrite !digest_text_len by auto. lia.
  - unfold text_value. cbn [write_cell]. rewrite digest_text_len by done. done.
Qed.

(** ** The length of tables *)

Lemma zsum_mono {A B} (f : A -> Z) (g : B -> Z) l k :
  Forall2 (fun a b => f a <= g b) l k -> zsum f l <= zsum g k.
Proof. induction 1 as [|a b l k H _ IH]; [done|]. rewrite !zsum_cons. lia. Qed.

Lemma zsum_submseteq {A} (f : A -> Z) l k : (forall x, 0 <= f x) -> l ⊆+ k -> zsum f l <= zsum f k.
Proof.
  intros Hf [r Hr]%submseteq_Permutation. rewrite (zsum_Permutation f _ _ Hr), zsum_app.
  pose proof (zsum_nonneg f r Hf). lia.
Qed.

Lemma str_len_bind {A} (f : A -> str) l : str_len (l ≫= f) = zsum (fun a => str_len (f a)) l.
Proof. induction l as [|a l IH]; [done|]. by rewrite bind_cons, str_len_app, IH, zsum_cons. Qed.

Definition field_len (f : Field) : Z := str_len (write_field f).

Lemma table_len k columns rws :
  field_len (mkField k (VTable (mkTable columns rws)))
  = str_len k + str_len (to_string (len rws)) + str_len (write_columns columns) + 4
    + zsum (fun r => str_len (write_row r)) rws.
Proof.
  unfold field_len, write_field. cbn [field_key field_value table_rows table_columns].
  rewrite !str_len_app, str_len_bind.
  change (str_len (L "[")) with 1. change (str_len (L "]")) with 1. change (str_len (L ":")) with 1.
  change (str_len [10]) with 1. lia.
Qed.

Lemma table_mono k columns rws rws' :
  len rws <= len rws' ->
  zsum (fun r => str_len (write_row r)) rws <= zsum (fun r => str_len (write_row r)) rws' ->
  field_len (mkField k (VTable (mkTable columns rws))) <= field_len (mkField k (VTable (mkTable columns rws'))).
Proof.
  intros Hl Hz. rewrite !table_len. pose proof (decimal_mono (len rws') (len rws)) as H.
  pose proof (len_nonneg rws). lia.
Qed.

(** ** The length of answers *)

Definition answer_len (r : FinalResponse) : Z := str_len (encode (response_document r)).

Lemma encoded_eq r : encoded r = Ok (encode (response_document r)).
Proof. unfold encoded. by rewrite FinalResponse_encode_eq. Qed.

Definition scalar_len (k : Key) (n : Z) : Z := field_len (mkField k (Scalar (AText (to_string n)))).
Definition data_len (d : ResultData) : Z := field_len (mkField (L "d") (ResultData_value d)).
Definition error_len (e : ErrorRecord) : Z :=
  field_len (mkField (L "e") (VRecord (mkRec ERROR_COLUMNS (ErrorRecord_cells e)))).
Definition paths_len (paths : list PathMapping) : Z :=
  if bool_decide (length paths = O) then 0
  else field_len (mkField (L "p") (rows PATH_COLUMNS PathMapping_cells paths)).
Definition option_len {A} (f : A -> Z) (o : option A) : Z := match o with Some a => f a | None => 0 end.

Lemma answer_len_eq r :
  answer_len r
  = field_len (mkField (L "t") (Scalar (AText (L "3")))) + scalar_len (L "i") (fp_request_id r)
    + scalar_len (L "s") (Status_code (fp_status r)) + paths_len (fp_paths r)
    + option_len data_len (fp_data r) + option_len error_len (fp_error r)
    + scalar_len (L "z") (fp_flags r) + field_len (mkField (L "r") (Scalar (optional_reference (fp_reference r)))).
Proof.
  unfold answer_len, encode, response_document, paths_len. cbn [fields]. rewrite str_len_bind.
  change (fun a => str_len (write_field a)) with field_len. rewrite !zsum_app, !zsum_cons, !zsum_nil.
  unfold scalar_len, option_len, data_len, error_len.
  destruct (bool_decide _), (fp_data r), (fp_error r); rewrite ?zsum_cons, ?zsum_nil; lia.
Qed.

Lemma scalar_len_mono k m n : 0 <= m -> str_len (to_string m) <= str_len (to_string n) -> 0 <= n ->
  scalar_len k m <= scalar_len k n.
Proof.
  intros Hm H Hn. unfold scalar_len, field_len, write_field. cbn [field_key field_value].
  rewrite !str_len_app, !decimal_written by lia. lia.
Qed.

Lemma digits_below n k : 0 <= n < 10 -> 0 <= k -> str_len (to_string n) <= str_len (to_string k).
Proof. intros Hn Hk. rewrite str_len_to_string, len_to_string_digit by lia. by apply decimal_bound_low. Qed.

(** Without evidence every error record is as long as the one of recovery. *)
Definition recovery_error : ErrorRecord := mkErrorRecord CRecoveryRequired RetryApproval StExecute None None.

Lemma error_len_bound code retry stage :
  error_len (mkErrorRecord code retry stage None None) <= error_len recovery_error.
Proof.
  unfold error_len, field_len, write_field. cbn [field_key field_value rec_columns rec_values].
  rewrite !str_len_app. apply Z.add_le_mono_l, Z.add_le_mono_l, Z.add_le_mono_l, Z.add_le_mono_l.
  apply write_row_mono. unfold ErrorRecord_cells.
  cbn [er_code er_retry er_stage er_evidence er_argument recovery_error].
  assert (forall m n, 0 <= m -> str_len (to_string m) <= str_len (to_string n) -> 0 <= n ->
            cell_le (unsigned_value m) (unsigned_value n)) as Hu.
  { intros m n Hm H Hn. unfold cell_le, unsigned_value. cbn [write_cell]. by rewrite !decimal_written. }
  repeat constructor; try apply cell_le_refl; apply Hu; try (destruct code, retry, stage; cbn; lia).
  - change (str_len (to_string (ErrorCode_code CRecoveryRequired))) with (str_len (to_string 999)).
    apply decimal_mono. by destruct code; cbn.
  - apply digits_below; [by destruct retry; cbn|done].
  - apply digits_below; [by destruct stage; cbn|done].
Qed.

(** Mappings of a numbering cost no more than temporary ones. *)
Lemma mappings_len paths ids mappings :
  Forall path_sound paths -> len paths <= 1000 -> numbering paths ids mappings ->
  paths_len mappings <= paths_len (temporary_paths paths).2.
Proof.
  intros Hs Hlen [_ _ _ [_ [Hn _]] Hr Hv].
  assert (Forall (fun p => valid_str p = true) paths) as Hvs by (eapply list.Forall_impl; [exact Hs|]; by intros p []).
  destruct (path_keys_spec _ Hvs) as [_ Hin]. pose proof (path_keys_length paths Hvs) as Hkl.
  unfold temporary_paths. cbn [snd]. set (keys := path_keys paths) in *.
  set (temporary := number_paths (u64_max - len keys + 1) keys).
  assert (pm_value <$> mappings ⊆+ keys) as Hsub.
  { apply NoDup_submseteq; [done|]. intros p Hp. by apply Hin, Hv. }
  assert (len mappings <= len temporary) as Hl.
  { apply submseteq_length in Hsub. rewrite length_fmap in Hsub. unfold len.
    rewrite <- (length_fmap pm_value temporary). unfold temporary. rewrite numbered_values. lia. }
  set (cost p := 20 + (str_len (write_atom (AText p)) + 2)).
  assert (forall m, str_len (write_row (PathMapping_cells m))
                    = str_len (write_atom (AText (to_string (pm_id m)))) + (str_len (write_atom (AText (pm_value m))) + 2)) as Hrow.
  { intros m. unfold write_row, PathMapping_cells. cbn [fmap list_fmap write_cell join unsigned_value text_value].
    rewrite !str_len_app, str_len_cons. change (len_utf8 44) with 1. change (str_len [10]) with 1. lia. }
  unfold paths_len. case_bool_decide as E1; [case_bool_decide; [done|apply str_len_nonneg]|].
  rewrite bool_decide_eq_false_2 by (unfold len in Hl; lia).
  apply table_mono; [by rewrite !len_fmap|].
  assert (forall l, zsum (fun r => str_len (write_row r)) (PathMapping_cells <$> l)
                    = zsum (fun m => str_len (write_row (PathMapping_cells m))) l) as Hfm.
  { intros l. induction l as [|m l IH]; [done|]. by rewrite fmap_cons, !zsum_cons, IH. }
  rewrite !Hfm. transitivity (zsum cost (pm_value <$> mappings)).
  { clear -Hr Hrow. induction mappings as [|m mappings IH]; [done|]. rewrite fmap_cons, !zsum_cons.
    apply list.Forall_cons in Hr as [Hm Hr]. specialize (IH Hr). rewrite Hrow. unfold cost at 1.
    rewrite decimal_written by lia. pose proof (decimal_bound (pm_id m) ltac:(lia)). lia. }
  transitivity (zsum cost keys).
  { apply zsum_submseteq; [|done]. intros p. unfold cost. pose proof (str_len_nonneg (write_atom (AText p))). lia. }
  assert (forall id l, 10000000000000000000 <= id -> id + len l <= u64_max + 1 ->
            zsum cost l <= zsum (fun m => str_len (write_row (PathMapping_cells m))) (number_paths id l)) as Hz.
  { intros id l. revert id. induction l as [|p l IH]; intros id Hid Hm; [done|]. cbn [number_paths].
    rewrite !zsum_cons, Hrow. cbn [pm_id pm_value]. rewrite len_cons in Hm. pose proof (len_nonneg l).
    specialize (IH (id + 1) ltac:(lia) ltac:(lia)). unfold cost at 1.
    rewrite decimal_written, decimal_wide by lia. lia. }
  apply Hz; lia.
Qed.

(** The answer of a transaction against the one that was reserved. *)
Lemma answer_bounded r request_id mappings data :
  1 <= request_id -> fp_request_id r = request_id -> fp_reference r = None ->
  0 <= Status_code (fp_status r) < 10 -> fp_flags r = 0 \/ fp_flags r = RESULT_PARTIAL ->
  (forall e, fp_error r = Some e -> er_evidence e = None /\ er_argument e = None) ->
  paths_len (fp_paths r) <= paths_len mappings -> option_len data_len (fp_data r) <= data_len data ->
  answer_len r <= answer_len (mkResponse request_id SFailed mappings (Some data) (Some recovery_error) RESULT_PARTIAL None).
Proof.
  intros Hid <- Hr Hs Hf He Hp Hd. rewrite !answer_len_eq.
  cbn [fp_request_id fp_status fp_paths fp_data fp_error fp_flags fp_reference option_len]. rewrite Hr.
  assert (scalar_len (L "s") (Status_code (fp_status r)) <= scalar_len (L "s") (Status_code SFailed))
    by (apply scalar_len_mono; [lia|by apply digits_below|done]).
  assert (scalar_len (L "z") (fp_flags r) <= scalar_len (L "z") RESULT_PARTIAL)
    by (destruct Hf as [-> | ->]; [apply scalar_len_mono; [done|by apply digits_below|done]|lia]).
  assert (option_len error_len (fp_error r) <= error_len recovery_error).
  { destruct (fp_error r) as [[code retry stage ev ar]|]; [|apply str_len_nonneg].
    destruct (He _ eq_refl) as [E1 E2]. cbn in E1, E2. subst. apply error_len_bound. }
  lia.
Qed.

(** ** The largest prefix *)

Section prefix.
Context (candidate : Z -> bool -> result OperationError FinalResponse) (total byte_limit : Z).
Context (size : Z -> Z).

Definition sized (k : Z) : Prop :=
  exists text, candidate k (k <? total) ≫= encoded = Ok text /\ str_len text = size k.

Lemma prefix_loop_spec fuel : forall low high,
  (forall k, low <= k <= high -> sized k) -> (forall k m, low <= k <= m -> m <= high -> size k <= size m) ->
  0 <= low <= high -> (Z.to_nat (high - low) <= fuel)%nat ->
  exists n, prefix_loop fuel candidate total byte_limit low high = Some (Ok n)
            /\ low <= n <= high /\ (n = low \/ size n <= byte_limit)
            /\ forall k, n < k <= high -> byte_limit < size k.
Proof.
  induction fuel as [|fuel IH]; intros low high Hs Hm Hl Hf; cbn [prefix_loop].
  - destruct (Z.leb_spec high low); [|lia]. exists low. split_and!; [done|lia..].
  - destruct (Z.leb_spec high low); [exists low; split_and!; [done|lia..]|].
    set (middle := low + (high - low + 1) / 2).
    assert (low < middle <= high) as Hmid.
    { unfold middle. pose proof (Z.div_le_lower_bound (high - low + 1) 2 1 ltac:(lia) ltac:(lia)).
      pose proof (Z.div_le_upper_bound (high - low + 1) 2 (high - low) ltac:(lia) ltac:(lia)). lia. }
    destruct (Hs middle ltac:(lia)) as (text & -> & Ht). rewrite Ht.
    destruct (Z.leb_spec (size middle) byte_limit) as [Hfit|Hover].
    + destruct (IH middle high) as (n & -> & Hn & Hsz & Hmax); [intros; apply Hs; lia|intros; apply Hm; lia|lia|lia|].
      exists n. split_and!; [done|lia|lia| |done]. right. destruct Hsz as [->|]; done.
    + destruct (IH low (middle - 1)) as (n & -> & Hn & Hsz & Hmax); [intros; apply Hs; lia|intros; apply Hm; lia|lia|lia|].
      exists n. split_and!; [done|lia|lia|done|]. intros k Hk.
      destruct (Z.lt_ge_cases k middle); [apply Hmax; lia|]. pose proof (Hm middle k). lia.
Qed.

Lemma largest_prefix_spec record_limit :
  0 <= total -> 0 <= record_limit ->
  (forall k, 0 <= k <= Z.min total record_limit -> sized k) ->
  (forall k m, 0 <= k <= m -> m <= Z.min total record_limit -> size k <= size m) ->
  exists r, largest_prefix total record_limit byte_limit candidate = Some r
  /\ match r with
     | Ok n => 0 <= n <= Z.min total record_limit /\ size n <= byte_limit
               /\ forall k, n < k <= Z.min total record_limit -> byte_limit < size k
     | Err e => e = OE_OutputBudget /\ byte_limit < size 0
     end.
Proof.
  intros Ht Hr Hs Hm. unfold largest_prefix.
  destruct (prefix_loop_spec (Z.to_nat (Z.min total record_limit)) 0 (Z.min total record_limit))
    as (n & -> & Hn & Hsz & Hmax); [done|done|lia|lia|].
  destruct (Hs n Hn) as (text & -> & Htext). cbn [mbind result_bind]. rewrite Htext.
  destruct (Z.ltb_spec byte_limit (size n)); eexists; (split; [done|]); cbn.
  - split; [done|]. destruct Hsz as [->|]; lia.
  - split_and!; [lia..|done].
Qed.

End prefix.
