(* ===== verification/Patch.v ===== *)
(** * Patch: checked edits of whole files

    crates/ash-ops/src/patch.rs.  The edits of a request are resolved, every file is
    read and compared with its expected digest, the edited contents are computed, and
    one file transaction replaces them all.  What the answer may cost is reserved
    before the transaction runs. *)

From S2P Require Import Prelude Text AsonModel AsonCodec Capability Request Response Budget.
From S2P Require Import Paths Store Governor Runtime Projection Workspace Manifest Disk.
From S2P Require Import Mutation Transaction.

Definition MAX_PATCH_FILE_BYTES : Z := 128 * 1024 * 1024.
Definition MAX_PATCH_TOTAL_BYTES : Z := 128 * 1024 * 1024.

Record ResolvedEdit : Type := mkResolved {
  re_offset : Z; re_delete_length : Z; re_replacement : bytes }.

Record PatchTask : Type := mkPatchTask {
  ta_path : str; ta_expected_digest : bytes; ta_observed_size : Z; ta_result_size : Z;
  ta_edits : list ResolvedEdit }.

Record PreparedFile : Type := mkPreparedFile {
  pf_path : str; pf_expected_digest : bytes; pf_replacement : bytes }.

Inductive Preparation : Type := Ready (file : PreparedFile) | PConflicting (actual_digest : bytes).

Record Row : Type := mkRow { row_state : PatchState; row_digest : option bytes }.

Inductive Failure : Type := XConflict | XCancelled | XTimedOut | XFilesystem | XRecoveryRequired.

Record TransactionOutcome : Type := mkPatchOutcome { tr_rows : list Row; tr_failure : option Failure }.

(** [Failure::error]. *)
Definition Failure_error (f : Failure) : Status * ErrorRecord :=
  match f with
  | XConflict => (SConflict, mkErrorRecord ContentConflict CorrectRequest StExecute None None)
  | XCancelled => (SCancelled, mkErrorRecord ProcessCancelled Never StExecute None None)
  | XTimedOut => (STimedOut, mkErrorRecord ProcessTimedOut RetrySame StExecute None None)
  | XFilesystem => (SFailed, mkErrorRecord CFilesystem RetrySame StExecute None None)
  | XRecoveryRequired => (SFailed, mkErrorRecord CRecoveryRequired RetryApproval StExecute None None)
  end.

(** ** Digests *)

Definition digest_nibble (byte : Z) : option Z :=
  if (48 <=? byte) && (byte <=? 57) then Some (byte - 48)
  else if (97 <=? byte) && (byte <=? 102) then Some (byte - 97 + 10)
  else None.

(** The loop over [chunks_exact(2)]. *)
Fixpoint parse_pairs (b : bytes) : option bytes :=
  match b with
  | high :: low :: b =>
      high ← digest_nibble high;
      high ← checked_mul u8_max high 16;
      low ← digest_nibble low;
      rest ← parse_pairs b;
      Some (high + low :: rest)
  | _ => Some []
  end.

Definition parse_digest (value : str) : option bytes :=
  if negb (str_len value =? 64) then None else parse_pairs (str_bytes value).

(** [blake3::Hash::to_hex] writes each byte as two lower-case digits. *)
Definition hex_digest (digest : bytes) : str := encode_hex digest.

(** ** The answer *)

Definition PatchResult_of (path : Z) (row : Row) : PatchResult :=
  mkPatchResult path (row_state row) (hex_digest <$> row_digest row).

Definition make_response (request_id : Z) (mappings : list PathMapping) (ids : list Z) (rows : list Row)
    (failure : option Failure) : result OperationError FinalResponse :=
  if negb (length ids =? length rows)%nat then Err OE_InvalidArgument
  else
    let data := DPatch (zip_with PatchResult_of ids rows) in
    map_err OE_Response
      match failure with
      | Some failure =>
          let '(status, error) := Failure_error failure in
          FinalResponse_failure request_id status error mappings (Some data)
            match failure with XRecoveryRequired => RESULT_PARTIAL | _ => 0 end None
      | None => FinalResponse_success request_id mappings data 0 None
      end.

Definition emit_without_mutation (request_id : Z) (paths : list str) (rows : list Row) (failure : Failure)
    : op OperationError FinalResponse :=
  let '(temporary_ids, temporary_mappings) := temporary_paths paths in
  temporary ← op_lift (make_response request_id temporary_mappings temporary_ids rows (Some failure));
  text ← op_lift (encoded temporary);
  limit ← presentation_limit;
  if limit <? str_len text then op_fail OE_OutputBudget
  else
    '(ids, mappings) ← intern_paths paths;
    response ← op_lift (make_response request_id mappings ids rows (Some failure));
    _ ← charge response (len rows);
    mret response.

Definition worst_row : Row := mkRow PRecoveryRequired (Some (repeat 255 32)).

Definition reserve_transaction_response (request_id : Z) (paths : list str)
    : op OperationError (list Z * list PathMapping) :=
  let '(temporary_ids, temporary_mappings) := temporary_paths paths in
  let rows := repeat worst_row (length paths) in
  worst ← op_lift (make_response request_id temporary_mappings temporary_ids rows (Some XRecoveryRequired));
  text ← op_lift (encoded worst);
  limit ← presentation_limit;
  if limit <? str_len text then op_fail OE_OutputBudget
  else
    _ ← charge worst (len paths);
    intern_paths paths.

(** ** Resolving edits *)

Definition resolve_content (content : PatchContent) : op OperationError (bytes * Z) :=
  match content with
  | PInline value => mret (str_bytes value, str_len value)
  | PReference reference =>
      r ← read_retained reference MAX_PATCH_FILE_BYTES; mret (r.2, r.1)
  end.

Fixpoint resolve_loop (edits : list PatchEdit) (by_file : list (list ResolvedEdit)) (replacement_bytes : Z)
    : op OperationError (list (list ResolvedEdit)) :=
  match edits with
  | [] => mret by_file
  | edit :: edits =>
      '(replacement, size) ← resolve_content (ed_replacement edit);
      replacement_bytes ← op_lift (ok_or (checked_add u64_max replacement_bytes size) OE_WorkLimit);
      if MAX_PATCH_TOTAL_BYTES <? replacement_bytes then op_fail OE_WorkLimit
      else
        let index := Z.to_nat (ed_file_index edit) in
        file ← op_lift (ok_or (by_file !! index) OE_InvalidArgument);
        let resolved := mkResolved (ed_offset edit) (ed_delete_length edit) replacement in
        resolve_loop edits (<[index := file ++ [resolved]]> by_file) replacement_bytes
  end.

Definition resolve_edits (arguments : PatchArgs) : op OperationError (list (list ResolvedEdit)) :=
  resolve_loop (pt_edits arguments) (repeat [] (length (pt_paths arguments))) 0.

(** ** Sizes and tasks *)

Definition sum_sizes (sizes : list Z) : result OperationError Z :=
  foldl (fun total size =>
    total ← total;
    if MAX_PATCH_FILE_BYTES <? size then Err OE_WorkLimit
    else ok_or (checked_add u64_max total size) OE_WorkLimit) (Ok 0) sizes.

(** The fold of a task over the edits: what they delete, each within the file. *)
Fixpoint deleted_bytes (edits : list ResolvedEdit) (observed_size total : Z) : result OperationError Z :=
  match edits with
  | [] => Ok total
  | edit :: edits =>
      end_ ← ok_or (checked_add u64_max (re_offset edit) (re_delete_length edit)) OE_InvalidArgument;
      if observed_size <? end_ then Err OE_InvalidArgument
      else
        total ← ok_or (checked_add u64_max total (re_delete_length edit)) OE_WorkLimit;
        deleted_bytes edits observed_size total
  end.

Fixpoint inserted_bytes (edits : list ResolvedEdit) (total : Z) : result OperationError Z :=
  match edits with
  | [] => Ok total
  | edit :: edits =>
      total ← ok_or (checked_add u64_max total (len (re_replacement edit))) OE_WorkLimit;
      inserted_bytes edits total
  end.

Fixpoint tasks_loop (files : list (str * str * list ResolvedEdit * Z)) (total_result_bytes : Z)
    : result OperationError (list PatchTask) :=
  match files with
  | [] => Ok []
  | (path, digest, edits, observed_size) :: files =>
      deleted ← deleted_bytes edits observed_size 0;
      inserted ← inserted_bytes edits 0;
      result_size ←
        ok_or (size ← checked_sub observed_size deleted; checked_add u64_max size inserted) OE_WorkLimit;
      if MAX_PATCH_FILE_BYTES <? result_size then Err OE_WorkLimit
      else
        total_result_bytes ← ok_or (checked_add u64_max total_result_bytes result_size) OE_WorkLimit;
        if MAX_PATCH_TOTAL_BYTES <? total_result_bytes then Err OE_WorkLimit
        else
          expected_digest ← ok_or (parse_digest digest) OE_InvalidArgument;
          tasks ← tasks_loop files total_result_bytes;
          Ok (mkPatchTask path expected_digest observed_size result_size edits :: tasks)
  end.

Definition build_tasks (arguments : PatchArgs) (edits : list (list ResolvedEdit)) (sizes : list Z)
    : result OperationError (list PatchTask) :=
  tasks_loop (zip (zip (zip (pt_paths arguments) (pt_expected_digests arguments)) edits) sizes) 0.

(** ** Editing *)

(** [original.get(first..last)]. *)
Definition get_range (original : bytes) (first last : Z) : option bytes :=
  if (first <=? last) && (last <=? len original)
  then Some (take (Z.to_nat (last - first)) (drop (Z.to_nat first) original)) else None.

Definition poll_cancelled : op OperationError unit :=
  cancelled ← ask su_cancelled;
  if cancelled : bool then op_fail OE_Cancelled else mret tt.

Fixpoint edit_loop (original : bytes) (edits : list ResolvedEdit) (cursor : Z) (replacement : bytes)
    : op OperationError (bytes * Z) :=
  match edits with
  | [] => mret (replacement, cursor)
  | edit :: edits =>
      _ ← poll_cancelled;
      end_ ← op_lift (ok_or (checked_add u64_max (re_offset edit) (re_delete_length edit)) OE_InvalidArgument);
      kept ← op_lift (ok_or (get_range original cursor (re_offset edit)) OE_InvalidArgument);
      edit_loop original edits end_ (replacement ++ kept ++ re_replacement edit)
  end.

Section libraries.
Context `{lib : Libraries}.

Fixpoint sizes_loop (paths : list str) : op OperationError (list Z) :=
  match paths with
  | [] => mret []
  | path :: paths =>
      _ ← poll_cancelled;
      size ← op_map_err OE_Platform (system (mutation_file_size path));
      sizes ← sizes_loop paths;
      mret (size :: sizes)
  end.

Definition mutation_sizes (paths : list str) : op OperationError (list Z) :=
  sizes ← pool_run (sizes_loop paths);
  total ← op_lift (sum_sizes sizes);
  if MAX_PATCH_TOTAL_BYTES <? total then op_fail OE_WorkLimit else mret sizes.

Definition prepare_file (task : PatchTask) : op OperationError Preparation :=
  _ ← poll_cancelled;
  original ← op_map_err OE_Platform (system (read_mutation_limited (ta_path task) (ta_observed_size task)));
  let actual_digest := blake3 original in
  if negb (bool_decide (actual_digest = ta_expected_digest task)) then mret (PConflicting actual_digest)
  else
    '(replacement, cursor) ← edit_loop original (ta_edits task) 0 [];
    rest ← op_lift (ok_or (get_range original cursor (len original)) OE_InvalidArgument);
    let replacement := replacement ++ rest in
    if negb (len replacement =? ta_result_size task) then op_fail OE_InvalidArgument
    else mret (Ready (mkPreparedFile (ta_path task) (ta_expected_digest task) replacement)).

(** [map_ordered_owned]: every task runs, and the results are in their order.  The
    tasks only read, so that running them one after the other is running them at once,
    with the others' moves between any two reads. *)
Fixpoint prepare_all (tasks : list PatchTask) : op OperationError (list (result OperationError Preparation)) :=
  match tasks with
  | [] => mret []
  | task :: tasks =>
      prepared ← op_try (prepare_file task);
      rest ← prepare_all tasks;
      mret (prepared :: rest)
  end.

(** The loop over the results: the rows of a conflict, and the files. *)
Fixpoint collect_prepared (prepared : list (result OperationError Preparation))
    : result OperationError (list Row * list (option PreparedFile) * bool) :=
  match prepared with
  | [] => Ok ([], [], false)
  | r :: prepared =>
      p ← r;
      '(rows, files, conflict) ← collect_prepared prepared;
      match p with
      | Ready file => Ok (mkRow PSkipped None :: rows, Some file :: files, conflict)
      | PConflicting digest => Ok (mkRow PConflict (Some digest) :: rows, None :: files, true)
      end
  end.

(** ** The transaction *)

Definition patch_state (s : FileActionState) : PatchState :=
  match s with
  | AS_Committed => PCommitted
  | AS_Conflict => PConflict
  | AS_RolledBack => PRolledBack
  | AS_RecoveryRequired => PRecoveryRequired
  | AS_Skipped => PSkipped
  end.

Definition patch_failure (f : FileTransactionFailure) : Failure :=
  match f with
  | FT_Conflict => XConflict
  | FT_Cancelled => XCancelled
  | FT_TimedOut => XTimedOut
  | FT_Filesystem => XFilesystem
  | FT_RecoveryRequired => XRecoveryRequired
  end.

Definition replace_action (file : PreparedFile) : FileAction :=
  FileAction_replace (pf_path file) (pf_expected_digest file) (pf_replacement file).

Definition run_transaction (files : list PreparedFile) : op OperationError TransactionOutcome :=
  match FileTransactionLimits_new MAX_PATCH_FILE_BYTES MAX_PATCH_TOTAL_BYTES with
  | Err _ => mret (mkPatchOutcome (repeat (mkRow PSkipped None) (length files)) (Some XFilesystem))
  | Ok limits =>
      outcome ← op_try (system_with program_control (file_transaction (replace_action <$> files) limits));
      mret
        match outcome with
        | Ok outcome =>
            mkPatchOutcome ((fun r => mkRow (patch_state (ao_state r)) (ao_digest r)) <$> to_actions outcome)
              (patch_failure <$> to_failure outcome)
        | Err (PL_JournalCorrupt | PL_RecoveryRequired) =>
            mkPatchOutcome (repeat (mkRow PRecoveryRequired None) (length files)) (Some XRecoveryRequired)
        | Err _ => mkPatchOutcome (repeat (mkRow PSkipped None) (length files)) (Some XFilesystem)
        end
  end.

Definition patch_execute (request : Request) (arguments : PatchArgs) : op OperationError FinalResponse :=
  _ ← check_program;
  remaining ← shared (fun sh => (Ok (remaining (sh_budget sh)), sh));
  if br_records remaining <? len (pt_paths arguments) then op_fail OE_OutputBudget
  else
    edits ← resolve_edits arguments;
    _ ← acquire;
    _ ← acquire;
    sizes ← mutation_sizes (pt_paths arguments);
    tasks ← op_lift (build_tasks arguments edits sizes);
    prepared ← pool_run (prepare_all tasks);
    '(conflict_rows, files, has_conflict) ← op_lift (collect_prepared prepared);
    _ ← check_program;
    if has_conflict : bool then
      emit_without_mutation (rq_id request) (pt_paths arguments) conflict_rows XConflict
    else
      files ← op_lift (mapM (fun file => ok_or file OE_InvalidArgument) files);
      '(ids, mappings) ← reserve_transaction_response (rq_id request) (pt_paths arguments);
      outcome ← run_transaction files;
      op_lift (make_response (rq_id request) mappings ids (tr_rows outcome) (tr_failure outcome)).

End libraries.

(** * programs of creations, copies, moves and removals

    crates/ash-ops/src/filesystem.rs, and the services of mutation.rs it calls (those
    that derive a preimage from the current file are the human shell's and stay
    outside).  [parse_digest] and [hex_digest] have the same bodies as those of
    patch.rs. *)

(** ** mutation.rs *)

(** [SemanticMutationServices::new]. *)
Definition service_limits : FileTransactionLimits :=
  mkLimits MAX_FILE_TRANSACTION_FILE_BYTES MAX_FILE_TRANSACTION_TOTAL_BYTES.

(** [Workspace::validate_file_actions]. *)
Definition validate_file_actions (actions : list FileAction) : io PlatformError unit :=
  internal ← @get_internal PlatformError;
  lift (validate_actions internal actions).

Definition service_validate (actions : list FileAction) : io SemanticError unit :=
  map_fail SmPlatform (validate_file_actions actions).

Definition prepare_touch (path : str) : FileAction := FileAction_create path [].

Section services.
Context `{lib : Libraries}.

Definition service_execute (actions : list FileAction) : io SemanticError FileTransactionOutcome :=
  _ ← service_validate actions;
  map_fail SmPlatform (file_transaction actions service_limits).

End services.

(** ** The answer *)

Definition protocol_state (s : FileActionState) : FsState :=
  match s with
  | AS_Committed => FCommitted
  | AS_Conflict => FConflict
  | AS_RolledBack => FRolledBack
  | AS_RecoveryRequired => FRecoveryRequired
  | AS_Skipped => FSkipped
  end.

Definition failure_error (f : FileTransactionFailure) : Status * ErrorRecord :=
  match f with
  | FT_Conflict => (SConflict, mkErrorRecord ContentConflict CorrectRequest StExecute None None)
  | FT_Cancelled => (SCancelled, mkErrorRecord ProcessCancelled Never StExecute None None)
  | FT_TimedOut => (STimedOut, mkErrorRecord ProcessTimedOut RetrySame StExecute None None)
  | FT_Filesystem => (SFailed, mkErrorRecord CFilesystem RetrySame StExecute None None)
  | FT_RecoveryRequired => (SFailed, mkErrorRecord CRecoveryRequired RetryApproval StExecute None None)
  end.

(** The paths of the actions, each source before its destination. *)
Fixpoint response_paths (actions : list FsAction) : list str :=
  match actions with
  | [] => []
  | action :: actions =>
      fs_path action :: match fs_destination action with Some d => [d] | None => [] end
      ++ response_paths actions
  end.

(** The rows; what is left of the identifiers must be nothing. *)
Fixpoint fs_rows (actions : list FsAction) (outcomes : list FileActionOutcome) (ids : list Z)
    : result OperationError (list FsResult * list Z) :=
  match actions, outcomes with
  | action :: actions, outcome :: outcomes =>
      '(path, ids) ← match ids with id :: ids => Ok (id, ids) | [] => Err OE_InvalidArgument end;
      '(destination, ids) ←
        match fs_destination action, ids with
        | None, ids => Ok (None, ids)
        | Some _, id :: ids => Ok (Some id, ids)
        | Some _, [] => Err OE_InvalidArgument
        end;
      '(rows, ids) ← fs_rows actions outcomes ids;
      Ok (mkFsResult (fs_id action) (fs_kind action) path destination (protocol_state (ao_state outcome))
            (hex_digest <$> ao_digest outcome) :: rows, ids)
  | _, _ => Ok ([], ids)
  end.

Definition fs_make_response (request_id : Z) (mappings : list PathMapping) (path_ids : list Z)
    (actions : list FsAction) (outcomes : list FileActionOutcome)
    (failure : option FileTransactionFailure) : result OperationError FinalResponse :=
  if negb (length actions =? length outcomes)%nat then Err OE_InvalidArgument
  else
    '(rows, ids) ← fs_rows actions outcomes path_ids;
    if negb (bool_decide (ids = [])) then Err OE_InvalidArgument
    else
      let data := DFs rows in
      map_err OE_Response
        match failure with
        | Some failure =>
            let '(status, error) := failure_error failure in
            FinalResponse_failure request_id status error mappings (Some data)
              match failure with FT_RecoveryRequired => RESULT_PARTIAL | _ => 0 end None
        | None => FinalResponse_success request_id mappings data 0 None
        end.

Definition worst_outcome : FileActionOutcome := mkOutcome AS_RecoveryRequired (Some (repeat 255 32)).

Definition reserve_response (request_id : Z) (actions : list FsAction)
    : op OperationError (list Z * list PathMapping) :=
  let paths := response_paths actions in
  let '(temporary_ids, temporary_mappings) := temporary_paths paths in
  response ← op_lift (fs_make_response request_id temporary_mappings temporary_ids actions
                        (repeat worst_outcome (length actions)) (Some FT_RecoveryRequired));
  text ← op_lift (encoded response);
  limit ← presentation_limit;
  if limit <? str_len text then op_fail OE_OutputBudget
  else
    _ ← charge response (len actions);
    intern_paths paths.

(** ** Resolving actions *)

Definition expected_digest (action : FsAction) : result OperationError bytes :=
  digest ← ok_or (fs_expected_digest action) OE_InvalidArgument;
  ok_or (parse_digest digest) OE_InvalidArgument.

Definition create_content (content : PatchContent) : op OperationError bytes :=
  match content with
  | PInline value => mret (str_bytes value)
  | PReference reference => r ← read_retained reference MAX_FILE_TRANSACTION_FILE_BYTES; mret r.2
  end.

Fixpoint resolve_actions (actions : list FsAction) (total_content : Z) : op OperationError (list FileAction) :=
  match actions with
  | [] => mret []
  | action :: actions =>
      '(resolved, total_content) ←
        match fs_kind action with
        | FsCreate =>
            content ← op_lift (ok_or (fs_content action) OE_InvalidArgument);
            data ← create_content content;
            total_content ← op_lift (ok_or (checked_add u64_max total_content (len data)) OE_WorkLimit);
            if (MAX_FILE_TRANSACTION_FILE_BYTES <? len data)
               || (MAX_FILE_TRANSACTION_TOTAL_BYTES <? total_content)
            then op_fail OE_WorkLimit
            else mret (FileAction_create (fs_path action) data, total_content)
        | (FsCopy | FsMove) as kind =>
            destination ← op_lift (ok_or (fs_destination action) OE_InvalidArgument);
            digest ← op_lift (expected_digest action);
            mret (match kind with
                  | FsCopy => FileAction_copy (fs_path action) destination digest
                  | _ => FileAction_move_file (fs_path action) destination digest
                  end, total_content)
        | FsRemove =>
            digest ← op_lift (expected_digest action);
            mret (FileAction_remove (fs_path action) digest, total_content)
        end;
      rest ← resolve_actions actions total_content;
      mret (resolved :: rest)
  end.

Section libraries.
Context `{lib : Libraries}.

Definition fs_execute (request : Request) (arguments : list FsAction) : op OperationError FinalResponse :=
  _ ← check_program;
  actions ← resolve_actions arguments 0;
  _ ← op_map_err of_semantic (system (service_validate actions));
  '(ids, mappings) ← reserve_response (rq_id request) arguments;
  _ ← acquire;
  _ ← acquire;
  outcome ← pool_run (op_map_err of_semantic (system_with program_control (service_execute actions)));
  op_lift (fs_make_response (rq_id request) mappings ids arguments (to_actions outcome) (to_failure outcome)).

End libraries.
