(* ===== verification/AnswerFacts.v ===== *)
(** * AnswerFacts: the answers of patches and filesystem programs

    Whatever a transaction reports, the answer to it can be built, and is no longer
    than the answer that was costed before the transaction ran. *)

From S2P Require Import Prelude Text AsonModel AsonCodec AsonScalarFacts AsonFacts Wire.
From S2P Require Import Capability Request RequestFacts Response ResponseFacts Budget Paths.
From S2P Require Import Store Governor Runtime Projection Workspace Manifest Disk Mutation.
From S2P Require Import Transaction Rows ProjectionFacts Patch JournalState RollbackFacts.
From S2P Require Import Durable ApplyFacts Committing PrepareFacts Publishing Atomicity.

(** A text of a digest, as the checks of a response have it. *)
Lemma some_digest_hex d : digest_ok d -> some_digest (Some (hex_digest d)).
Proof. intros Hd. eexists. split; [done|]. by apply digest_valid. Qed.

Lemma worst_digest_ok : digest_ok (repeat 255 32).
Proof. by split. Qed.

(** An answer without references is valid when its parts are. *)
Lemma plain_response_valid request_id status mappings data error flags :
  request_id <> 0 -> (status = Success <-> error = None) -> paths_valid mappings ->
  data_valid data -> status_agrees status data -> reference_agrees data None ->
  data_references data = [] -> (forall e, error = Some e -> er_evidence e = None /\ er_argument e = None) ->
  flags = 0 \/ flags = RESULT_PARTIAL ->
  response_valid (mkResponse request_id status mappings (Some data) error flags None).
Proof.
  intros Hid Hse Hm Hd Hs Hr Href He Hf.
  assert (references (mkResponse request_id status mappings (Some data) error flags None) = []) as Hnone.
  { unfold references, error_references. cbn. rewrite Href. destruct error as [e|]; [|done].
    destruct (He e eq_refl) as [E1 E2]. by rewrite E1, E2. }
  unfold response_valid. rewrite Hnone. cbn [fp_request_id fp_status fp_error fp_data fp_flags fp_paths fp_reference].
  split_and!; try done.
  - by destruct Hf as [-> | ->].
  - by intros d [= <-].
  - destruct Hf as [-> | ->]; done.
  - destruct Hf as [-> | ->]; done.
Qed.

(** ** Patches *)

Definition patch_row_ok (r : Row) : Prop :=
  patch_digest (row_state r) (hex_digest <$> row_digest r) /\ forall d, row_digest r = Some d -> digest_ok d.

(** Rows and a failure that go together. *)
Record patch_shape (count : nat) (rows : list Row) (failure : option Failure) : Prop := mkPatchShape {
  ps_length : length rows = count;
  ps_rows : Forall patch_row_ok rows;
  ps_success : failure = None -> Forall (fun r => row_state r = PCommitted) rows;
  ps_conflict : failure = Some XConflict -> Exists (fun r => row_state r = PConflict) rows;
}.

Definition patch_row (r : FileActionOutcome) : Row := mkRow (patch_state (ao_state r)) (ao_digest r).

Lemma patch_row_of r : row_ok r -> patch_row_ok (patch_row r).
Proof.
  unfold row_ok, patch_row_ok, patch_row. destruct r as [[] o]; cbn.
  1, 2, 3: intros (d & -> & Hd); split; [by apply some_digest_hex|by intros e [= <-]].
  - intros (d & -> & Hd). split; [right; by apply some_digest_hex|by intros e [= <-]].
  - intros ->. done.
Qed.

Lemma patch_shape_of count o :
  outcome_shape count o -> patch_shape count (patch_row <$> to_actions o) (patch_failure <$> to_failure o).
Proof.
  intros [Hl Hr Hs Hc]. split.
  - by rewrite length_fmap.
  - apply Forall_fmap. eapply list.Forall_impl; [exact Hr|]. intros r. apply patch_row_of.
  - intros Hf. apply Forall_fmap. destruct (to_failure o) as [f|]; [done|].
    eapply list.Forall_impl; [by apply Hs|]. intros r E. cbn. by rewrite E.
  - intros Hf. apply list.Exists_fmap. destruct (to_failure o) as [[]|]; try done.
    eapply list.Exists_impl; [by apply Hc|]. intros r E. cbn. by rewrite E.
Qed.

Definition failure_flags (failure : option Failure) : Z :=
  match failure with Some XRecoveryRequired => RESULT_PARTIAL | _ => 0 end.

(** The answer that [make_response] builds. *)
Definition patch_answer (request_id : Z) (mappings : list PathMapping) (ids : list Z) (rows : list Row)
    (failure : option Failure) : FinalResponse :=
  mkResponse request_id (from_option (fun f => (Failure_error f).1) Success failure) mappings
    (Some (DPatch (zip_with PatchResult_of ids rows)))
    ((fun f => (Failure_error f).2) <$> failure) (failure_flags failure) None.

Lemma patch_answer_built request_id paths ids mappings rows failure :
  request_id <> 0 -> numbering paths ids mappings -> NoDup paths -> paths <> [] ->
  patch_shape (length paths) rows failure ->
  make_response request_id mappings ids rows failure = Ok (patch_answer request_id mappings ids rows failure).
Proof.
  intros Hid [Hl Hsame Hrange Hval Hmr _ _] Hn Hne [Hrl Hr Hs Hc].
  assert (forall status error,
    (status = Success <-> error = None) -> (status = Success -> failure = None) ->
    (status = SConflict -> failure = Some XConflict) ->
    (forall e, error = Some e -> er_evidence e = None /\ er_argument e = None) ->
    response_valid (mkResponse request_id status mappings (Some (DPatch (zip_with PatchResult_of ids rows)))
      error (failure_flags failure) None)) as Hvalid.
  { intros status error Hse Hst Hcf He. apply plain_response_valid; try done.
    - cbn. split; [|split].
      + destruct ids as [|i ids]; [by destruct paths|]. destruct rows as [|r rows]; [by destruct paths|]. done.
      + rewrite fmap_zip_with_l; [|done|lia]. apply NoDup_alt. intros i j m Hi Hj.
        assert (is_Some (paths !! i)) as [p Hp] by (apply lookup_lt_is_Some; apply lookup_lt_Some in Hi; lia).
        assert (is_Some (paths !! j)) as [q Hq] by (apply lookup_lt_is_Some; apply lookup_lt_Some in Hj; lia).
        pose proof (Hsame i j p q m m Hp Hq Hi Hj eq_refl) as ->. by eapply NoDup_lookup.
      + apply list.Forall_lookup. intros i x Hx. apply lookup_zip_with_Some in Hx as (m & r & -> & Hm & Hr').
        rewrite list.Forall_lookup in Hrange. rewrite list.Forall_lookup in Hr.
        specialize (Hrange i m Hm). split; [cbn; lia|]. apply (Hr i r Hr').
    - cbn. split.
      + intros E. specialize (Hs (Hst E)). apply list.Forall_lookup. intros i x Hx.
        apply lookup_zip_with_Some in Hx as (m & r & -> & Hm & Hr'). rewrite list.Forall_lookup in Hs. by apply (Hs i).
      + intros E. specialize (Hc (Hcf E)). apply list.Exists_exists in Hc as (r & Hin & Hst').
        apply list_elem_of_lookup_1 in Hin as [i Hi].
        assert (is_Some (ids !! i)) as [m Hm] by (apply lookup_lt_is_Some; apply lookup_lt_Some in Hi; lia).
        apply list.Exists_exists. exists (PatchResult_of m r). split; [|done].
        eapply list_elem_of_lookup_2, lookup_zip_with_Some. by exists m, r.
    - destruct failure as [[]|]; cbn; auto. }
  unfold make_response. rewrite (proj2 (Nat.eqb_eq _ _)) by congruence. cbn [negb].
  assert (forall status error, 
    FinalResponse_new request_id status mappings (Some (DPatch (zip_with PatchResult_of ids rows))) error
      (failure_flags failure) None = Ok (mkResponse request_id status mappings
        (Some (DPatch (zip_with PatchResult_of ids rows))) error (failure_flags failure) None)
    <-> response_valid (mkResponse request_id status mappings (Some (DPatch (zip_with PatchResult_of ids rows)))
      error (failure_flags failure) None)) as Hnew by (intros; rewrite FinalResponse_new_ok; tauto).
  unfold patch_answer. destruct failure as [f|]; cbn [from_option fmap option_fmap option_map].
  - destruct (Failure_error f) as [status error] eqn:E. unfold FinalResponse_failure.
    replace (match f with XRecoveryRequired => RESULT_PARTIAL | _ => 0 end) with (failure_flags (Some f)) by done.
    rewrite (proj2 (Hnew status (Some error))); [done|].
    apply Hvalid; destruct f; injection E as <- <-; try done; by intros e [= <-].
  - unfold FinalResponse_success. change 0 with (failure_flags None). rewrite (proj2 (Hnew Success None)); [done|].
    by apply Hvalid.
Qed.

(** The row of [worst] is as long as any. *)
Lemma patch_rows_len ids wide rows :
  Forall (fun id => 1 <= id <= u64_max) ids -> Forall (fun id => 10000000000000000000 <= id <= u64_max) wide ->
  length ids = length wide -> Forall patch_row_ok rows -> length rows = length ids ->
  data_len (DPatch (zip_with PatchResult_of ids rows))
  <= data_len (DPatch (zip_with PatchResult_of wide (repeat worst_row (length rows)))).
Proof.
  intros Hi Hw Hlen Hr Hl. unfold data_len, ResultData_value, ResponseFacts.rows. apply table_mono.
  { rewrite !len_fmap. unfold len. rewrite !length_zip_with, repeat_length. lia. }
  apply zsum_mono, Forall2_fmap, Forall2_same_length_lookup_2.
  { rewrite !length_zip_with, repeat_length. lia. }
  intros i x y Hx Hy. apply lookup_zip_with_Some in Hx as (m & r & -> & Hm & Hr').
  apply lookup_zip_with_Some in Hy as (n & w & -> & Hn & Hw').
  apply list_elem_of_lookup_2 in Hw' as Hin. apply list_elem_of_In, repeat_spec in Hin as ->.
  rewrite list.Forall_lookup in Hi. rewrite list.Forall_lookup in Hw. rewrite list.Forall_lookup in Hr.
  specialize (Hi i m Hm). specialize (Hw i n Hn). destruct (Hr i r Hr') as [_ Hd].
  apply write_row_mono. unfold PatchResult_cells, PatchResult_of, hex_digest. cbn [Response.pa_path pa_state pa_digest worst_row row_state row_digest].
  repeat constructor.
  - by apply id_le.
  - apply digit_le; [by destruct (row_state r); cbn|done].
  - change (encode_hex <$> Some (repeat 255 32)) with (Some (encode_hex (repeat 255 32))).
    apply digest_le; [done|apply worst_digest_ok].
Qed.

Lemma patch_answer_fits request_id paths ids mappings rows failure :
  1 <= request_id -> Forall path_sound paths -> len paths <= 1000 -> numbering paths ids mappings ->
  patch_shape (length paths) rows failure ->
  answer_len (patch_answer request_id mappings ids rows failure)
  <= answer_len (patch_answer request_id (temporary_paths paths).2 (temporary_paths paths).1
                   (repeat worst_row (length paths)) (Some XRecoveryRequired)).
Proof.
  intros Hid Hp Hlen Hnum [Hl Hr _ _]. pose proof (temporary_numbering paths Hp ltac:(lia)) as Htmp.
  unfold patch_answer at 2. cbn [from_option fmap option_fmap option_map Failure_error fst snd failure_flags].
  apply (answer_bounded _ request_id); try done.
  - destruct failure as [[]|]; cbn; lia.
  - destruct failure as [[]|]; cbn; auto.
  - destruct failure as [[]|]; cbn; [intros e [= <-]; done..|done].
  - by eapply mappings_len.
  - cbn [option_len patch_answer fp_data]. rewrite <- Hl. apply patch_rows_len; try done.
    + apply Hnum.
    + by apply temporary_wide.
    + rewrite (nu_length _ _ _ Hnum). symmetry. apply Htmp.
    + rewrite Hl. symmetry. apply Hnum.
Qed.

(** ** Filesystem programs *)

Lemma response_paths_eq actions : response_paths actions = actions ≫= RequestFacts.action_paths.
Proof.
  induction actions as [|a actions IH]; [done|]. rewrite bind_cons. cbn [response_paths]. rewrite IH.
  unfold RequestFacts.action_paths. by destruct (fs_destination a).
Qed.

(** The shape a validated action has. *)
Lemma FsAction_validate_shape a :
  FsAction_validate a = Ok tt ->
  fs_id a <> 0 /\ match fs_kind a with
                  | FsCreate | FsRemove => fs_destination a = None
                  | FsCopy | FsMove => is_Some (fs_destination a)
                  end.
Proof.
  unfold FsAction_validate. intros H. inv_ok. zbool. split; [done|].
  destruct (fs_kind a), (fs_destination a), (fs_expected_digest a), (fs_content a); try done; by eexists.
Qed.

Definition fs_row_ok (r : FsResult) : Prop :=
  fr_id r <> 0 /\ fr_path r <> 0 /\ fs_destination_ok r /\ fs_digest (fr_state r) (fr_digest r).

Lemma fs_digest_of r : row_ok r -> fs_digest (protocol_state (ao_state r)) (hex_digest <$> ao_digest r).
Proof.
  unfold row_ok. destruct r as [[] o]; cbn.
  1, 2, 3: intros (d & -> & Hd); by apply some_digest_hex.
  - intros (d & -> & Hd). right. by apply some_digest_hex.
  - by intros ->.
Qed.

Lemma fs_rows_built actions : forall outcomes ids rest,
  length outcomes = length actions -> length ids = length (response_paths actions) -> NoDup ids ->
  Forall (fun id => 1 <= id <= u64_max) ids -> Forall row_ok outcomes ->
  Forall (fun a => FsAction_validate a = Ok tt) actions ->
  exists rows, fs_rows actions outcomes (ids ++ rest) = Ok (rows, rest)
    /\ fr_id <$> rows = fs_id <$> actions /\ Forall fs_row_ok rows
    /\ (Forall is_committed outcomes -> Forall (fun r => fr_state r = FCommitted) rows)
    /\ (Exists is_conflict outcomes -> Exists (fun r => fr_state r = FConflict) rows).
Proof.
  induction actions as [|a actions IH]; intros [|o outcomes] ids rest Ho Hi Hn Hr Hok Hv; try done.
  { destruct ids; [|done]. exists []. split_and!; try done. intros H; by inversion H. }
  apply list.Forall_cons in Hok as [Hoo Hok]. apply list.Forall_cons in Hv as [Ha Hv].
  destruct (FsAction_validate_shape a Ha) as [Hid Hshape]. cbn [response_paths] in Hi.
  destruct ids as [|path ids]; [done|]. apply list.NoDup_cons in Hn as [Hnp Hn].
  apply list.Forall_cons in Hr as [Hp Hr].
  assert (exists destination ids' rows,
    (match fs_destination a, ids ++ rest with
     | None, ids => Ok (None, ids) | Some _, id :: ids => Ok (Some id, ids) | Some _, [] => Err OE_InvalidArgument
     end) = Ok (destination, ids' ++ rest)
    /\ fs_destination_ok (mkFsResult (fs_id a) (fs_kind a) path destination (protocol_state (ao_state o)) (hex_digest <$> ao_digest o))
    /\ fs_rows actions outcomes (ids' ++ rest) = Ok (rows, rest)
    /\ fr_id <$> rows = fs_id <$> actions /\ Forall fs_row_ok rows
    /\ (Forall is_committed outcomes -> Forall (fun r => fr_state r = FCommitted) rows)
    /\ (Exists is_conflict outcomes -> Exists (fun r => fr_state r = FConflict) rows))
    as (destination & ids' & rows & Ed & Hd & Er & H1 & H2 & H3 & H4).
  { cbn in Ho. destruct (fs_destination a) as [d|]; cbn in Hi.
    - destruct ids as [|q ids]; [done|]. apply list.NoDup_cons in Hn as [_ Hn]. apply list.Forall_cons in Hr as [Hq Hr].
      cbn in Hi. destruct (IH outcomes ids rest) as (rows & Hrows); [lia|lia|done..|]. exists (Some q), ids, rows. split; [done|]. split; [|done].
      assert (q <> path) as Hne by (intros ->; apply Hnp; left). unfold fs_destination_ok. cbn [fr_kind fr_destination fr_path].
      destruct (fs_kind a); try done; exists q; split_and!; done || lia.
    - destruct (IH outcomes ids rest) as (rows & Hrows); [lia|lia|done..|]. exists None, ids, rows. split; [by destruct (ids ++ rest)|].
      split; [|done]. unfold fs_destination_ok. cbn. destruct (fs_kind a); try done; by destruct Hshape. }
  cbn [fs_rows app]. cbn [mbind result_bind]. rewrite Ed. cbn [mbind result_bind]. rewrite Er. cbn [mbind result_bind].
  eexists. split; [done|]. rewrite !fmap_cons, H1. split; [done|]. split; [|split].
  - constructor; [|done]. split_and!; [done|cbn; lia|done|by apply fs_digest_of].
  - intros [Hc Hcs]%list.Forall_cons. constructor; [|by apply H3]. cbn. by rewrite Hc.
  - intros [Hc|Hc]%Exists_cons; [left; cbn; by rewrite Hc|right; by apply H4].
Qed.

(** Two runs on the same actions: the second has wide identifiers and the worst rows. *)
Lemma fs_rows_le actions : forall outcomes worst ids wide rest wrest rows wrows,
  fs_rows actions outcomes ids = Ok (rows, rest) -> fs_rows actions worst wide = Ok (wrows, wrest) ->
  length outcomes = length actions -> length worst = length actions ->
  Forall (fun id => 1 <= id <= u64_max) ids -> Forall (fun id => 10000000000000000000 <= id <= u64_max) wide ->
  Forall row_ok outcomes -> Forall (eq worst_outcome) worst ->
  Forall2 (fun r w => Forall2 cell_le (FsResult_cells r) (FsResult_cells w)) rows wrows.
Proof.
  induction actions as [|a actions IH]; intros [|o outcomes] [|w worst] ids wide rest wrest rows wrows H W Ho Hw Hi Hwi Hok Hwo; try done.
  { injection H as <- _. injection W as <- _. constructor. }
  apply list.Forall_cons in Hok as [Hoo Hok]. apply list.Forall_cons in Hwo as [<- Hwo].
  cbn [fs_rows] in H, W. destruct ids as [|p ids]; [done|]. destruct wide as [|q wide]; [done|].
  apply list.Forall_cons in Hi as [Hp Hi]. apply list.Forall_cons in Hwi as [Hq Hwi].
  cbn [mbind result_bind] in H, W. injection Ho as Ho. injection Hw as Hw.
  assert (forall path wpath d wd, 1 <= path <= u64_max -> 10000000000000000000 <= wpath <= u64_max ->
    cell_le (map_or_null unsigned_value d) (map_or_null unsigned_value wd) ->
    Forall2 cell_le
      (FsResult_cells (mkFsResult (fs_id a) (fs_kind a) path d (protocol_state (ao_state o)) (hex_digest <$> ao_digest o)))
      (FsResult_cells (mkFsResult (fs_id a) (fs_kind a) wpath wd (protocol_state (ao_state worst_outcome))
        (hex_digest <$> ao_digest worst_outcome)))) as Hrow.
  { intros path wpath d wd H1 H2 H3. unfold FsResult_cells, hex_digest.
    cbn [fr_id fr_kind fr_path fr_destination fr_state fr_digest]. repeat constructor; try apply cell_le_refl; try done.
    - by apply id_le.
    - apply digit_le; [by destruct (ao_state o); cbn|done].
    - apply digest_le; [|apply worst_digest_ok]. intros d' Hd'. unfold row_ok in Hoo.
      destruct (ao_state o); try (destruct Hoo as (? & E & ?); by simplify_eq); congruence. }
  destruct (fs_destination a) as [d|].
  - destruct ids as [|p' ids]; [done|]. destruct wide as [|q' wide]; [done|]. cbn [mbind result_bind] in H, W.
    apply list.Forall_cons in Hi as [Hp' Hi]. apply list.Forall_cons in Hwi as [Hq' Hwi].
    destruct (fs_rows actions outcomes ids) as [[r1 rest1]|] eqn:E1; [|done].
    destruct (fs_rows actions worst wide) as [[r2 rest2]|] eqn:E2; [|done].
    injection H as <- _. injection W as <- _. constructor; [|by eapply IH].
    apply Hrow; try done. by apply id_le.
  - cbn [mbind result_bind] in H, W.
    destruct (fs_rows actions outcomes ids) as [[r1 rest1]|] eqn:E1; [|done].
    destruct (fs_rows actions worst wide) as [[r2 rest2]|] eqn:E2; [|done].
    injection H as <- _. injection W as <- _. constructor; [|by eapply IH].
    apply Hrow; try done.
Qed.

Definition fs_flags (failure : option FileTransactionFailure) : Z :=
  match failure with Some FT_RecoveryRequired => RESULT_PARTIAL | _ => 0 end.

Definition fs_answer (request_id : Z) (mappings : list PathMapping) (rows : list FsResult)
    (failure : option FileTransactionFailure) : FinalResponse :=
  mkResponse request_id (from_option (fun f => (failure_error f).1) Success failure) mappings (Some (DFs rows))
    ((fun f => (failure_error f).2) <$> failure) (fs_flags failure) None.

Definition fs_shape (count : nat) (outcomes : list FileActionOutcome) (failure : option FileTransactionFailure) : Prop :=
  outcome_shape count (mkTransactionOutcome outcomes failure).

Lemma numbering_nodup paths ids mappings : numbering paths ids mappings -> NoDup paths -> NoDup ids.
Proof.
  intros [Hl Hsame _ _ _ _ _] Hn. apply NoDup_alt. intros i j m Hi Hj.
  assert (is_Some (paths !! i)) as [p Hp] by (apply lookup_lt_is_Some; apply lookup_lt_Some in Hi; lia).
  assert (is_Some (paths !! j)) as [q Hq] by (apply lookup_lt_is_Some; apply lookup_lt_Some in Hj; lia).
  pose proof (Hsame i j p q m m Hp Hq Hi Hj eq_refl) as ->. by eapply NoDup_lookup.
Qed.

Lemma fs_answer_built request_id actions ids mappings outcomes failure :
  request_id <> 0 -> FsArgs_validate actions = Ok tt -> numbering (response_paths actions) ids mappings ->
  fs_shape (length actions) outcomes failure ->
  exists rows, fs_rows actions outcomes ids = Ok (rows, [])
    /\ fs_make_response request_id mappings ids actions outcomes failure = Ok (fs_answer request_id mappings rows failure).
Proof.
  intros Hid Hv Hnum [Hrl Hr Hs Hc]. cbn [to_actions to_failure] in *.
  destruct (FsArgs_validate_safe actions Hv) as (Hlen & Hsorted & Hva & Hnd & _).
  rewrite <- response_paths_eq in Hnd.
  destruct (fs_rows_built actions outcomes ids [] Hrl) as (rows & Er & Hids & Hrows & Hcom & Hcon);
    [apply Hnum|by eapply numbering_nodup|apply Hnum|done|done|]. rewrite app_nil_r in Er.
  exists rows. split; [done|]. unfold fs_make_response. rewrite (proj2 (Nat.eqb_eq _ _)) by congruence.
  cbn [negb]. rewrite Er. cbn [mbind result_bind]. rewrite bool_decide_eq_true_2 by done. cbn [negb].
  assert (forall status error,
    (status = Success <-> error = None) -> (status = Success -> failure = None) ->
    (status = SConflict -> failure = Some FT_Conflict) ->
    (forall e, error = Some e -> er_evidence e = None /\ er_argument e = None) ->
    FinalResponse_new request_id status mappings (Some (DFs rows)) error (fs_flags failure) None
    = Ok (mkResponse request_id status mappings (Some (DFs rows)) error (fs_flags failure) None)) as Hnew.
  { intros status error Hse Hst Hcf He. apply FinalResponse_new_ok. split; [done|]. apply plain_response_valid; try done.
    - apply Hnum.
    - cbn. split; [|split; [|done]].
      + intros ->. destruct actions; [|done]. unfold len in Hlen. cbn in Hlen. lia.
      + assert (Sorted.Sorted Z.lt (fr_id <$> rows)) as Hso by by rewrite Hids.
        clear -Hso. induction rows as [|r rows IH]; [constructor|]. cbn in Hso. inversion Hso as [|? ? Hso' Hh]; subst.
        constructor; [by apply IH|]. destruct rows; constructor. by inversion Hh.
    - cbn. split; intros E; [by apply Hcom, Hs, Hst|by apply Hcon, Hc, Hcf].
    - destruct failure as [[]|]; cbn; auto. }
  unfold fs_answer. destruct failure as [f|]; cbn [from_option fmap option_fmap option_map].
  - destruct (failure_error f) as [status error] eqn:E. unfold FinalResponse_failure.
    replace (match f with FT_RecoveryRequired => RESULT_PARTIAL | _ => 0 end) with (fs_flags (Some f)) by done.
    rewrite Hnew; [done|destruct f; injection E as <- <-; try done; by intros e [= <-]..].
  - unfold FinalResponse_success. change 0 with (fs_flags None). by rewrite Hnew.
Qed.

Definition worst_outcomes (actions : list FsAction) : list FileActionOutcome := repeat worst_outcome (length actions).

Lemma worst_shape actions : fs_shape (length actions) (worst_outcomes actions) (Some FT_RecoveryRequired).
Proof.
  split; cbn; [apply repeat_length| |done..]. apply list.Forall_forall. intros r Hr.
  apply list_elem_of_In, repeat_spec in Hr as ->. unfold row_ok. cbn. eexists. split; [done|apply worst_digest_ok].
Qed.

Lemma fs_answer_fits request_id actions ids mappings outcomes failure rows wrows :
  1 <= request_id -> Forall path_sound (response_paths actions) -> len (response_paths actions) <= 1000 ->
  numbering (response_paths actions) ids mappings -> fs_shape (length actions) outcomes failure ->
  fs_rows actions outcomes ids = Ok (rows, []) ->
  fs_rows actions (worst_outcomes actions) (temporary_paths (response_paths actions)).1 = Ok (wrows, []) ->
  answer_len (fs_answer request_id mappings rows failure)
  <= answer_len (fs_answer request_id (temporary_paths (response_paths actions)).2 wrows (Some FT_RecoveryRequired)).
Proof.
  intros Hid Hp Hlen Hnum [Hrl Hr _ _] Er Ew. cbn [to_actions] in *.
  unfold fs_answer at 2. cbn [from_option fmap option_fmap option_map failure_error fst snd fs_flags].
  apply (answer_bounded _ request_id); try done.
  - destruct failure as [[]|]; cbn; lia.
  - destruct failure as [[]|]; cbn; auto.
  - destruct failure as [[]|]; cbn; [intros e [= <-]; done..|done].
  - by eapply mappings_len.
  - cbn [option_len fs_answer fp_data]. unfold data_len, ResultData_value, ResponseFacts.rows.
    assert (Forall2 (fun r w => Forall2 cell_le (FsResult_cells r) (FsResult_cells w)) rows wrows) as HF.
    { eapply fs_rows_le; [exact Er|exact Ew|done|apply repeat_length|apply Hnum|by apply temporary_wide|done|].
      apply list.Forall_forall. intros r Hin. by apply list_elem_of_In, repeat_spec in Hin as ->. }
    apply table_mono; [rewrite !len_fmap; unfold len; rewrite (list.Forall2_length _ _ _ HF); lia|].
    apply zsum_mono, Forall2_fmap. eapply list.Forall2_impl; [exact HF|]. intros r w H. by apply write_row_mono.
Qed.

(** * reasoning about operations

    [calmly m P]: whatever the other tasks do, [m] leaves the disk as they left it, and
    what it returns satisfies [P].  All of an operation is calm but its transaction. *)

(** ** Computations that only read *)

Definition looks {E A} (m : io E A) (P : A -> Disk.Disk -> Prop) : Prop :=
  forall env w, w_disk (m env w).2 = w_disk w /\ forall a, (m env w).1 = Done a -> P a (w_disk w).

Section looks.
Context {E F A B : Type}.

Lemma looks_ret (P : A -> Disk.Disk -> Prop) a : (forall d, P a d) -> looks (mret a : io E A) P.
Proof. intros H env w. split; [done|]. by intros ? [= <-]. Qed.
Lemma looks_fail (P : A -> Disk.Disk -> Prop) (e : E) : looks (Disk.fail e) P.
Proof. by intros env w. Qed.
Lemma looks_lift (r : result E A) (P : A -> Disk.Disk -> Prop) : (forall a d, P a d) -> looks (lift r) P.
Proof. intros H. destruct r; [by apply looks_ret|apply looks_fail]. Qed.
Lemma looks_bind (m : io E B) (k : B -> io E A) Q P :
  looks m Q -> (forall b d, Q b d -> looks (k b) P) -> looks (m ≫= k) P.
Proof.
  intros Hm Hk env w. destruct (Hm env w) as [Hd Ho]. unfold mbind, io_bind.
  destruct (m env w) as [[b|e|] w1]; cbn in *; [|by split..].
  destruct (Hk b (w_disk w) (Ho b eq_refl) env w1) as [Hd' Ho']. rewrite Hd in Hd', Ho'. by split.
Qed.
Lemma looks_try (m : io E A) (P : A -> Disk.Disk -> Prop) :
  looks m P -> looks (try m : io F _) (fun r d => forall a, r = Ok a -> P a d).
Proof.
  intros H env w. destruct (H env w) as [Hd Ho]. unfold try. destruct (m env w) as [[a|e|] w1]; cbn in *;
    (split; [done|]); [intros r [= <-] a' [= <-]; by apply Ho|by intros r [= <-]|done].
Qed.
Lemma looks_map_fail (f : E -> F) (m : io E A) P : looks m P -> looks (map_fail f m) P.
Proof.
  intros H env w. destruct (H env w) as [Hd Ho]. unfold map_fail. destruct (m env w) as [[a|e|] w1]; cbn in *; (split; [done|]); [|done..].
  intros a' [= <-]. by apply Ho.
Qed.
Lemma looks_mono (m : io E A) (P Q : A -> Disk.Disk -> Prop) : looks m P -> (forall a d, P a d -> Q a d) -> looks m Q.
Proof. intros H HPQ env w. destruct (H env w) as [Hd Ho]. split; [done|]. intros a Ha. by apply HPQ, Ho. Qed.

End looks.

Lemma looks_internal {E} : looks (@get_internal E) (fun _ _ => True).
Proof. by intros env w. Qed.

Lemma looks_query {A} (f : Disk.Disk -> result IoKind A) : looks (query f) (fun a d => f d = Ok a).
Proof.
  intros env w. unfold query, attempt. destruct (faults env (w_calls w) Query); cbn; [|by split..].
  destruct (f (w_disk w)) as [a|e]; cbn; [|by split]. split; [done|]. by intros a' [= <-].
Qed.

Lemma looks_components must_exist components : forall native,
  looks (check_components native components must_exist) (fun p _ => exists l, p = Work l).
Proof.
  induction components as [|c components IH]; intros native; cbn [check_components].
  - eapply looks_bind; [apply looks_map_fail, looks_query|]. intros _ _ _. apply looks_ret. intros _. by eexists.
  - eapply looks_bind; [apply looks_try, looks_query|]. intros [m|[]] _ _; [|..].
    + destruct (_ || _); [apply looks_fail|apply IH].
    + destruct (_ && _); [apply looks_ret; intros _; by eexists|apply looks_fail].
    + apply looks_fail.
    + apply looks_fail.
    + apply looks_fail.
    + apply looks_fail.
Qed.

Lemma looks_checked s must_exist : looks (checked_mutation_path s must_exist) (fun p _ => exists l, p = Work l).
Proof.
  unfold checked_mutation_path. eapply (looks_bind _ _ (fun _ _ => True)); [by apply looks_lift|]. intros _ _ _.
  eapply looks_bind; [apply looks_internal|]. intros b _ _.
  eapply (looks_bind _ _ (fun _ _ => True)); [by apply looks_lift|]. intros _ _ _.
  destruct (bool_decide _); [apply looks_fail|apply looks_components].
Qed.

Lemma looks_revalidate s p : looks (revalidate_mutation_file s p) (fun p _ => exists l, p = Work l).
Proof.
  eapply looks_bind; [apply looks_checked|]. intros q _ [l ->]. destruct (bool_decide _); [|apply looks_fail].
  apply looks_ret. intros _. by eexists.
Qed.

Lemma looks_size s : looks (mutation_file_size s) (fun _ _ => True).
Proof.
  eapply looks_bind; [apply looks_checked|]. intros p _ _. eapply looks_bind; [apply looks_revalidate|]. intros q _ _.
  eapply looks_bind; [apply looks_map_fail, looks_query|]. intros m _ _. by apply looks_ret.
Qed.

(** What is read are the bytes of a file of the workspace. *)
Lemma looks_limited s max : looks (read_mutation_limited s max) (fun b d => exists l, view d l = Contents b).
Proof.
  eapply looks_bind; [apply looks_checked|]. intros p _ _. eapply looks_bind; [apply looks_revalidate|]. intros q _ [l ->].
  eapply looks_bind; [apply looks_map_fail, looks_query|]. intros m _ _.
  destruct (max <? md_len m); [apply looks_fail|]. apply looks_map_fail.
  eapply looks_mono; [apply looks_query|]. intros b d Hb. exists l. unfold contents in Hb. unfold view.
  destruct (tree d !! Work l) as [[|i|]|]; try done. destruct (data d !! i) as [c|]; [|done]. cbn in Hb. by injection Hb as ->.
Qed.

(** ** Operations *)

Definition op_wp {E A} (su : Surroundings) (m : op E A) (Qd : A -> Progress -> Prop)
    (Qe : E -> Progress -> Prop) (Qc : Progress -> Prop) (st : Progress) : Prop :=
  match m su st with
  | (Done a, st') => Qd a st'
  | (Fail_ e, st') => Qe e st'
  | (Crash, st') => Qc st'
  end.

Lemma op_wp_bind {E A B} su (m : op E B) (k : B -> op E A) Qd Qe Qc st :
  op_wp su m (fun b st' => op_wp su (k b) Qd Qe Qc st') Qe Qc st -> op_wp su (m ≫= k) Qd Qe Qc st.
Proof. unfold op_wp, mbind, op_bind. by destruct (m su st) as [[b|e|] st']. Qed.

Lemma op_wp_mono {E A} su (m : op E A) (Qd Qd' : A -> Progress -> Prop) (Qe Qe' : E -> Progress -> Prop)
    (Qc Qc' : Progress -> Prop) st :
  op_wp su m Qd Qe Qc st -> (forall a st, Qd a st -> Qd' a st) -> (forall e st, Qe e st -> Qe' e st) ->
  (forall st, Qc st -> Qc' st) -> op_wp su m Qd' Qe' Qc' st.
Proof. unfold op_wp. intros H Hd He Hc. destruct (m su st) as [[a|e|] st']; auto. Qed.

Section others.
Context `{lib : Libraries} `{laws : !LibraryLaws lib}.
Context (known : bytes -> Prop) (archive : Z -> bytes -> Prop) (su : Surroundings).

Definition disk_of (st : Progress) : Disk.Disk := w_disk (pg_world st).

(** What the others keep: the disk stands for a workspace of known contents, the
    dictionary is one, and a reference that the store knows looks as the archive has it. *)
Definition sound (d : Disk.Disk) : Prop :=
  view_known known (view d) /\ exists v, stands v d /\ view_known known v.
Definition archived (store : Store.State) : Prop := forall reference e,
  st_by_alias store !! reference = Some e ->
  forall io max b, read_all io (en_content e) max = Ok b -> archive reference b.
Record shared_fine (sh : Shared) : Prop := mkSharedFine {
  sf_max : pd_max_entries (sh_paths sh) <= u64_max;
  sf_paths : exists history, dict_repr history (sh_paths sh);
  sf_store : archived (sh_store sh);
}.
Definition good_company : Prop :=
  forall n sh d, sound d -> shared_fine sh ->
    sound (su_others su n sh d).2 /\ shared_fine (su_others su n sh d).1.

(** One of their moves on the disk. *)
Definition moves (d d' : Disk.Disk) : Prop := exists n sh, d' = (su_others su n sh d).2.

Context (Hcompany : good_company) (d0 : Disk.Disk).

Record calm (st : Progress) : Prop := mkCalm {
  ca_moves : rtc moves d0 (disk_of st);
  ca_sound : sound (disk_of st);
  ca_shared : shared_fine (pg_shared st);
}.

Definition calmly {E A} (m : op E A) (P : A -> Prop) : Prop :=
  forall st, calm st -> op_wp su m (fun a st' => calm st' /\ P a) (fun _ => calm) calm st.

Lemma others_calm st : calm st -> calm (others su st).
Proof.
  intros [Hm Hs Hp]. unfold others. destruct (Hcompany (pg_turn st) (pg_shared st) (disk_of st) Hs Hp) as [Hs' Hp'].
  unfold disk_of in *. destruct (su_others su (pg_turn st) (pg_shared st) (w_disk (pg_world st))) as [sh d] eqn:E.
  split; cbn; try done. eapply rtc_r; [exact Hm|]. exists (pg_turn st), (pg_shared st). unfold disk_of. by rewrite E.
Qed.

Section rules.
Context {E F A B : Type}.

Lemma calmly_ret (P : A -> Prop) a : P a -> calmly (mret a : op E A) P.
Proof. by intros H st Hst. Qed.
Lemma calmly_fail (P : A -> Prop) (e : E) : calmly (op_fail e) P.
Proof. by intros st Hst. Qed.
Lemma calmly_lift (r : result E A) (P : A -> Prop) : (forall a, r = Ok a -> P a) -> calmly (op_lift r) P.
Proof. intros H. destruct r; [by apply calmly_ret, H|apply calmly_fail]. Qed.
Lemma calmly_bind (m : op E B) (k : B -> op E A) Q P :
  calmly m Q -> (forall b, Q b -> calmly (k b) P) -> calmly (m ≫= k) P.
Proof.
  intros Hm Hk st Hst. apply op_wp_bind. eapply op_wp_mono; [exact (Hm st Hst)| |done..].
  intros b st' [Hst' Hb]. exact (Hk b Hb st' Hst').
Qed.
Lemma calmly_try (m : op E A) (P : A -> Prop) :
  calmly m P -> calmly (op_try m : op F _) (fun r => forall a, r = Ok a -> P a).
Proof.
  intros H st Hst. specialize (H st Hst). unfold op_wp, op_try in *.
  destruct (m su st) as [[a|e|] st']; [|by split|done]. destruct H as [? ?]. split; [done|]. by intros a' [= <-].
Qed.
Lemma calmly_map_err (f : E -> F) (m : op E A) P : calmly m P -> calmly (op_map_err f m) P.
Proof.
  intros H st Hst. specialize (H st Hst). unfold op_wp, op_map_err in *. by destruct (m su st) as [[a|e|] st'].
Qed.
Lemma calmly_mono (m : op E A) (P Q : A -> Prop) : calmly m P -> (forall a, P a -> Q a) -> calmly m Q.
Proof. intros H HPQ st Hst. eapply op_wp_mono; [exact (H st Hst)|naive_solver|done..]. Qed.
Lemma calmly_ask (answer : Surroundings -> nat -> A) : calmly (ask answer : op E A) (fun _ => True).
Proof. intros st Hst. split; [by apply others_calm|done]. Qed.
Lemma calmly_if (b : bool) (m k : op E A) P : calmly m P -> calmly k P -> calmly (if b then m else k) P.
Proof. intros Hm Hk. destruct b; assumption. Qed.

(** A call on a shared object keeps the dictionary fine. *)
Lemma calmly_shared (f : Shared -> result E A * Shared) (P : A -> Prop) :
  (forall sh, shared_fine sh -> shared_fine (f sh).2 /\ forall a, (f sh).1 = Ok a -> P a) -> calmly (shared f) P.
Proof.
  intros Hf st Hst. destruct (others_calm st Hst) as [Hm Hs Hp]. unfold op_wp, shared.
  destruct (Hf _ Hp) as [Hp' HP]. destruct (f (pg_shared (others su st))) as [[a|e] sh]; cbn in *.
  - split; [by split|by apply HP].
  - by split.
Qed.

Lemma calmly_system (m : io E A) (P : A -> Prop) :
  looks m (fun a d => sound d -> P a) -> calmly (system m) P.
Proof.
  intros H st Hst. pose proof (others_calm st Hst) as H1. unfold op_wp, system, system_with.
  generalize dependent (others su st). intros st1 [Hm Hs Hp]. unfold disk_of in *.
  match goal with |- context [m ?env ?w] => destruct (H env w) as [Hd Ho]; destruct (m env w) as [[a|e|] w'] end;
    cbn [fst snd] in *;
    assert (calm (mkProgress w' (pg_shared st1) (pg_turn st1))) as Hc
      by (split; unfold disk_of; cbn; rewrite ?Hd; done); try done.
  split; [done|]. by apply (Ho a eq_refl).
Qed.

End rules.

Lemma calmly_pool {A} (m : op OperationError A) P : calmly m P -> calmly (pool_run m) P.
Proof.
  intros H. eapply calmly_bind; [apply calmly_ask|]. intros b _. apply calmly_if; [done|apply calmly_fail].
Qed.

Lemma calmly_acquire : calmly acquire (fun _ => True).
Proof. eapply calmly_bind; [apply calmly_ask|]. intros r _. by apply calmly_lift. Qed.

Lemma calmly_check : calmly check_program (fun _ => True).
Proof.
  eapply calmly_bind; [apply calmly_ask|]. intros b _. apply calmly_if; [apply calmly_fail|].
  eapply calmly_bind; [apply calmly_ask|]. intros now _. by apply calmly_shared.
Qed.

Lemma calmly_limit : calmly presentation_limit (fun _ => True).
Proof. by apply calmly_shared. Qed.

Lemma calmly_reserve f : calmly (reserve f) (fun _ => True).
Proof.
  apply calmly_shared. intros sh [Hm Hp Hs]. split; [|done]. by destruct (f (sh_budget sh)) as [[r b]|].
Qed.

Lemma calmly_charge response records : calmly (charge response records) (fun _ => True).
Proof.
  eapply (calmly_bind _ _ (fun _ => True)); [by apply calmly_lift|]. intros text _.
  eapply (calmly_bind _ _ (fun _ => True)); [by apply calmly_lift|]. intros n _.
  eapply calmly_bind; [apply calmly_reserve|]. intros _ _. apply calmly_reserve.
Qed.

(** A reference is read as the archive has it. *)
Lemma archived_entry store reference e e' :
  archived store -> st_by_alias store !! reference = Some e -> en_content e' = en_content e ->
  archived (with_entry store reference e').
Proof.
  intros H He Hc r f. cbn. intros [[<- <-]|[_ Hf]]%lookup_insert_Some; [rewrite Hc|]; by apply H.
Qed.

Lemma archived_get store reference content store' :
  archived store -> get reference store = Ok (content, store') ->
  archived store' /\ forall io max b, read_all io content max = Ok b -> archive reference b.
Proof.
  unfold get. intros H. destruct (st_by_alias store !! reference) as [e|] eqn:E; [|done]. intros [= <- <-].
  split; [by eapply archived_entry|]. by apply H.
Qed.

Lemma archived_drop store reference : archived store -> archived (drop_lease reference store).
Proof.
  unfold drop_lease. intros H. destruct (st_by_alias store !! reference) as [e|] eqn:E; [|done].
  by eapply archived_entry.
Qed.

Lemma calmly_retained reference max : calmly (read_retained reference max) (fun r => archive reference r.2).
Proof.
  eapply (calmly_bind _ _ (fun c => forall io m b, read_all io c m = Ok b -> archive reference b));
    [apply calmly_shared|intros content Hc].
  { intros sh Hf. destruct (get reference (sh_store sh)) as [[c s]|] eqn:E; [|by split].
    destruct (archived_get _ _ _ _ (sf_store _ Hf) E) as [Hs Hc]. destruct Hf as [Hm Hp _].
    split; [by split|]. by intros c' [= <-]. }
  eapply calmly_bind; [apply calmly_ask|intros spool _].
  eapply (calmly_bind _ _ (fun _ => True)); [apply calmly_shared|intros _ _].
  { intros sh [Hm Hp Hs]. split; [|done]. split; [done..|by apply archived_drop]. }
  eapply (calmly_bind _ _ (archive reference)); [apply calmly_lift|intros data Hd; by apply calmly_ret].
  intros data. destruct (max <? ct_length content); [done|].
  destruct (read_all spool content max) eqn:E; [|done]. intros [= <-]. by eapply Hc.
Qed.

(** Interning numbers the paths. *)
Lemma calmly_intern paths :
  Forall path_sound paths -> calmly (intern_paths paths) (fun r => numbering paths r.1 r.2).
Proof.
  intros Hs. apply calmly_shared. intros sh [Hmax [history Hr] Hstore].
  destruct (intern paths (sh_paths sh)) as [[ip d]|e] eqn:E; cbn.
  - destruct (intern_spec _ _ _ _ _ Hr E) as (Hr' & _ & _ & Hm & _). split.
    + split; cbn; [lia|by eexists|done].
    + intros r [= <-]. exact (interned_numbering history _ _ _ _ Hr Hmax Hs E).
  - by split; [split; [|by exists history|]|].
Qed.

(** A calm computation, then another. *)
Lemma calm_wp {E A B} (m : op E B) (k : B -> op E A) P Qd Qe Qc st :
  calm st -> calmly m P ->
  (forall b st', calm st' -> P b -> op_wp su (k b) Qd Qe Qc st') ->
  (forall e st', calm st' -> Qe e st') -> (forall st', calm st' -> Qc st') ->
  op_wp su (m ≫= k) Qd Qe Qc st.
Proof.
  intros Hst Hm Hk He Hc. apply op_wp_bind. eapply op_wp_mono; [exact (Hm st Hst)| |done..].
  intros b st' [Hst' Hb]. by apply Hk.
Qed.

(** The transaction: it starts from a workspace [v] that the others left. *)
Lemma transaction_wp actions limits st :
  calm st -> tells_apart known -> whole_removals (su_system su) -> limits_ok limits -> strings_ok actions ->
  Forall (action_known known) actions ->
  exists v d, rtc moves d0 d /\ stands v d /\ view_known known v /\
    op_wp su (system_with program_control (file_transaction actions limits))
      (fun o st' => outcome_true v limits actions False o (disk_of st'))
      (fun e st' => error_true v limits actions False (disk_of st'))
      (fun st' => crash_true v actions False (disk_of st')) st.
Proof.
  intros Hst Hinj Hw Hl Hs Ha. destruct (others_calm st Hst) as [Hm [_ (v & Hv & Hk)] Hp].
  exists v, (disk_of (others su st)). split; [done|]. split; [done|]. split; [done|].
  unfold op_wp, system_with. set (env := mkEnvironment _ _ _ _).
  destruct (pg_world (others su st)) as [d b c p] eqn:E. unfold disk_of in Hv. rewrite E in Hv.
  pose proof (file_transaction_spec env Hw v limits Hl actions b d Hv Hs
    (known_distinguished known Hinj v actions Hk Ha) c p) as H.
  destruct (file_transaction actions limits env (mkWorld d b c p)) as [[o|e|] w]; unfold disk_of; cbn in *.
  - eapply outcome_mono; [|apply H]. done.
  - split; [apply H|tauto].
  - split; [tauto|]. apply H.
Qed.

End others.
