(* ===== verification/PatchFacts.v ===== *)
(** * PatchFacts: a patch is its edits

    [apply_edits] is the specification of an edited file: the edits are carried out one
    by one, the last first, so that no edit moves another's place.  The loop of
    [prepare_file], which goes forward with a cursor, computes just that. *)

From S2P Require Import Prelude Text AsonModel AsonCodec AsonScalarFacts Capability Request.
From S2P Require Import RequestFacts Response ResponseFacts Budget Paths Store Governor Runtime.
From S2P Require Import Projection Workspace Manifest Disk Mutation Transaction JournalState.
From S2P Require Import RollbackFacts Durable ApplyFacts Committing PrepareFacts Publishing.
From S2P Require Import Atomicity Rows ProjectionFacts Patch AnswerFacts.

(** ** Edits *)

Definition splice (e : ResolvedEdit) (b : bytes) : bytes :=
  take (Z.to_nat (re_offset e)) b ++ re_replacement e ++ drop (Z.to_nat (re_offset e + re_delete_length e)) b.

Definition apply_edits (edits : list ResolvedEdit) (b : bytes) : bytes := foldr splice b edits.

(** The edits lie one after the other between [cursor] and [size]. *)
Fixpoint in_order (cursor : Z) (edits : list ResolvedEdit) (size : Z) : Prop :=
  match edits with
  | [] => cursor <= size
  | e :: edits => cursor <= re_offset e /\ in_order (re_offset e + re_delete_length e) edits size
  end.

Definition edit_typed (e : ResolvedEdit) : Prop := 0 <= re_offset e /\ 0 <= re_delete_length e.

Lemma in_order_le cursor edits size : Forall edit_typed edits -> in_order cursor edits size -> cursor <= size.
Proof.
  revert cursor. induction edits as [|e edits IH]; intros cursor Ht H; [done|].
  apply list.Forall_cons in Ht as [[Ho Hd] Ht]. destruct H as [H1 H2]. specialize (IH _ Ht H2). lia.
Qed.

(** What comes before the edits stays. *)
Lemma apply_edits_before cursor edits b :
  Forall edit_typed edits -> 0 <= cursor -> in_order cursor edits (len b) ->
  take (Z.to_nat cursor) (apply_edits edits b) = take (Z.to_nat cursor) b.
Proof.
  revert cursor. induction edits as [|e edits IH]; intros cursor Ht Hc H; [done|].
  apply list.Forall_cons in Ht as [[Ho Hd] Ht]. destruct H as [H1 H2]. pose proof (in_order_le _ _ _ Ht H2) as Hl.
  specialize (IH (re_offset e + re_delete_length e) Ht ltac:(lia) H2). cbn [apply_edits foldr]. fold (apply_edits edits b). unfold splice.
  assert (take (Z.to_nat (re_offset e)) (apply_edits edits b) = take (Z.to_nat (re_offset e)) b) as ->.
  { apply (f_equal (take (Z.to_nat (re_offset e)))) in IH. rewrite !take_take in IH.
    by rewrite Nat.min_l in IH by lia. }
  rewrite take_app_le by (rewrite length_take; unfold len in Hl; lia). rewrite take_take. f_equal. lia.
Qed.

Lemma get_range_spec b first last r :
  get_range b first last = Some r ->
  first <= last <= len b /\ r = take (Z.to_nat (last - first)) (drop (Z.to_nat first) b).
Proof. unfold get_range. destruct (_ && _) eqn:E; [|done]. intros [= <-]. zbool. by split. Qed.

(** One step of the forward loop. *)
Lemma splice_after e edits original cursor :
  edit_typed e -> Forall edit_typed edits -> 0 <= cursor <= re_offset e ->
  in_order (re_offset e + re_delete_length e) edits (len original) ->
  drop (Z.to_nat cursor) (apply_edits (e :: edits) original)
  = take (Z.to_nat (re_offset e - cursor)) (drop (Z.to_nat cursor) original) ++ re_replacement e
    ++ drop (Z.to_nat (re_offset e + re_delete_length e)) (apply_edits edits original).
Proof.
  intros [Ho Hd] Ht Hc Hin. cbn [apply_edits foldr]. fold (apply_edits edits original).
  unfold splice. pose proof (in_order_le _ _ _ Ht Hin) as Hle.
  assert (take (Z.to_nat (re_offset e)) (apply_edits edits original) = take (Z.to_nat (re_offset e)) original) as ->.
  { pose proof (apply_edits_before (re_offset e + re_delete_length e) edits original Ht ltac:(lia) Hin) as H.
    apply (f_equal (take (Z.to_nat (re_offset e)))) in H. rewrite !take_take in H. by rewrite Nat.min_l in H by lia. }
  rewrite drop_app_le by (rewrite length_take; unfold len in Hle; lia).
  rewrite skipn_firstn_comm. do 2 f_equal. lia.
Qed.

Lemma get_range_some b first last : first <= last <= len b ->
  get_range b first last = Some (take (Z.to_nat (last - first)) (drop (Z.to_nat first) b)).
Proof. intros [? ?]. unfold get_range. by rewrite !(proj2 (Z.leb_le _ _)) by done. Qed.

Lemma get_range_none b first last : ~ first <= last <= len b -> get_range b first last = None.
Proof. intros H. unfold get_range. destruct (Z.leb_spec first last), (Z.leb_spec last (len b)); done || lia. Qed.


(** *** The loop, exactly *)

(** The editing part of [prepare_file], from a cursor on. *)
Definition edit_from (original : bytes) (edits : list ResolvedEdit) (cursor : Z) (acc : bytes) : op OperationError bytes :=
  '(replacement, cursor) ← edit_loop original edits cursor acc;
  rest ← op_lift (ok_or (get_range original cursor (len original)) OE_InvalidArgument);
  mret (replacement ++ rest).

Lemma edit_from_nil original cursor acc su st :
  edit_from original [] cursor acc su st
  = match get_range original cursor (len original) with
    | Some rest => (Done (acc ++ rest), st)
    | None => (Fail_ OE_InvalidArgument, st)
    end.
Proof. unfold edit_from, mbind, op_bind. cbn. by destruct (get_range _ _ _). Qed.

Lemma edit_from_cons original e edits cursor acc su st :
  su_cancelled su (pg_turn st) = false ->
  edit_from original (e :: edits) cursor acc su st
  = match checked_add u64_max (re_offset e) (re_delete_length e), get_range original cursor (re_offset e) with
    | Some end_, Some kept => edit_from original edits end_ (acc ++ kept ++ re_replacement e) su (others su st)
    | _, _ => (Fail_ OE_InvalidArgument, others su st)
    end.
Proof.
  intros Hc. unfold edit_from at 1. cbn [edit_loop]. unfold mbind, op_bind at 1, poll_cancelled, mbind, op_bind, ask.
  rewrite Hc. cbn. destruct (checked_add _ _ _) as [end_|]; cbn; [|done]. by destruct (get_range _ _ _).
Qed.

Lemma edit_from_exact original edits su : (forall turn, su_cancelled su turn = false) -> len original <= u64_max ->
  Forall edit_typed edits -> forall cursor acc st, 0 <= cursor ->
  (in_order cursor edits (len original) ->
     (edit_from original edits cursor acc su st).1 = Done (acc ++ drop (Z.to_nat cursor) (apply_edits edits original)))
  /\ (~ in_order cursor edits (len original) ->
     (edit_from original edits cursor acc su st).1 = Fail_ OE_InvalidArgument).
Proof.
  intros Hcan Hlen. induction edits as [|e edits IH]; intros Ht cursor acc st Hc.
  - rewrite edit_from_nil. cbn [in_order apply_edits foldr]. split; intros H.
    + rewrite get_range_some by lia. cbn. do 2 f_equal. apply take_ge. rewrite length_drop. unfold len. lia.
    + by rewrite get_range_none by lia.
  - apply list.Forall_cons in Ht as [He Ht]. pose proof He as [Ho Hd].
    rewrite edit_from_cons by done. cbn [in_order]. unfold checked_add.
    destruct (IH Ht (re_offset e + re_delete_length e)
      (acc ++ take (Z.to_nat (re_offset e - cursor)) (drop (Z.to_nat cursor) original) ++ re_replacement e)
      (others su st) ltac:(lia)) as [IH1 IH2].
    destruct (Z.leb_spec (re_offset e + re_delete_length e) u64_max) as [Hu|Hu].
    + destruct (decide (cursor <= re_offset e <= len original)) as [Hr|Hr].
      * rewrite get_range_some by done. split.
        -- intros [_ Hin]. rewrite IH1 by done. rewrite splice_after by done || lia. by rewrite <- !app_assoc.
        -- intros Hin. apply IH2. intros H. apply Hin. split; [lia|done].
      * rewrite get_range_none by done. split; [|done]. intros [H1 H2]. pose proof (in_order_le _ _ _ Ht H2). lia.
    + split; [|done]. intros [H1 H2]. pose proof (in_order_le _ _ _ Ht H2). lia.
Qed.

(** ** From the request to the tasks *)

(** The edits of the [i]th file, with their replacements. *)
Fixpoint file_edits (i : nat) (edits : list PatchEdit) (contents : list bytes) : list ResolvedEdit :=
  match edits, contents with
  | e :: edits, c :: contents =>
      if decide (Z.to_nat (ed_file_index e) = i)
      then mkResolved (ed_offset e) (ed_delete_length e) c :: file_edits i edits contents
      else file_edits i edits contents
  | _, _ => []
  end.

Definition edit_ranges (e : PatchEdit) : Prop := 0 <= ed_offset e /\ 0 <= ed_delete_length e.

Lemma file_edits_typed i edits : forall contents,
  Forall edit_ranges edits -> Forall edit_typed (file_edits i edits contents).
Proof.
  induction edits as [|e edits IH]; intros [|c contents] H; try done. apply list.Forall_cons in H as [He H]. cbn.
  case_decide; [constructor; [done|]|]; by apply IH.
Qed.

(** A digest that is parsed is the text of its bytes. *)
Lemma parse_pairs_hex b l : parse_pairs b = Some l -> decode_hex_loop b = Ok l.
Proof.
  revert l. induction b as [b IH] using list_length_ind. intros l H.
  destruct b as [|h [|x b]]; cbn in H |- *; [by injection H as <-..|].
  assert (forall c n, digest_nibble c = Some n -> hex_nibble c = Ok n /\ 0 <= n < 16) as Hn.
  { intros c n. unfold digest_nibble, hex_nibble. destruct ((48 <=? c) && (c <=? 57)) eqn:E1; [intros [= <-]; zbool; split; [done|lia]|].
    destruct ((97 <=? c) && (c <=? 102)) eqn:E2; [|done]. intros [= <-]. zbool. split; [done|lia]. }
  destruct (digest_nibble h) as [high|] eqn:Eh; [|done]. destruct (digest_nibble x) as [low|] eqn:Ex; cbn in H;
    [|by destruct (checked_mul _ _ _)].
  destruct (Hn _ _ Eh) as [-> ?], (Hn _ _ Ex) as [-> ?]. cbn.
  unfold checked_mul in H. rewrite (proj2 (Z.leb_le _ _)) in H by lia. cbn in H.
  unfold checked_add. rewrite (proj2 (Z.leb_le _ _)) by lia. cbn.
  destruct (parse_pairs b) as [rest|] eqn:Er; [|done]. rewrite (IH b ltac:(cbn; lia) _ Er). by injection H as <-.
Qed.

Lemma parse_digest_hex s d : parse_digest s = Some d -> hex_digest d = s.
Proof.
  unfold parse_digest. destruct (negb _) eqn:E; [done|]. intros H%parse_pairs_hex.
  destruct (decode_hex_array_inv 32 s d) as [-> _]; [|done]. unfold decode_hex_array.
  change (Z.of_nat 32 * 2) with 64. by rewrite E.
Qed.

(** What a task is made of. *)
Definition task_of (file : str * str * list ResolvedEdit * Z) (t : PatchTask) : Prop :=
  ta_path t = file.1.1.1 /\ hex_digest (ta_expected_digest t) = file.1.1.2 /\ ta_edits t = file.1.2.

Lemma tasks_loop_spec files : forall total tasks, tasks_loop files total = Ok tasks -> Forall2 task_of files tasks.
Proof.
  induction files as [|[[[path digest] edits] size] files IH]; intros total tasks H; cbn [tasks_loop] in H.
  - injection H as <-. constructor.
  - inv_ok. subst. constructor; [|by eapply IH]. split_and!; try done. by apply parse_digest_hex.
Qed.

Lemma build_tasks_spec a edits sizes tasks i t :
  build_tasks a edits sizes = Ok tasks -> tasks !! i = Some t ->
  pt_paths a !! i = Some (ta_path t) /\ pt_expected_digests a !! i = Some (hex_digest (ta_expected_digest t))
  /\ edits !! i = Some (ta_edits t).
Proof.
  intros H%tasks_loop_spec Ht. destruct (Forall2_lookup_r _ _ _ _ _ H Ht) as (file & Hf & H1 & H2 & H3).
  apply lookup_zip_with_Some in Hf as (f1 & size & -> & Hf & _). apply lookup_zip_with_Some in Hf as (f2 & es & -> & Hf & He).
  apply lookup_zip_with_Some in Hf as (path & digest & -> & Hp & Hd). cbn in *. by subst.
Qed.

Lemma build_tasks_length a edits sizes tasks :
  build_tasks a edits sizes = Ok tasks -> length (pt_expected_digests a) = length (pt_paths a) ->
  length edits = length (pt_paths a) -> length sizes = length (pt_paths a) -> length tasks = length (pt_paths a).
Proof.
  intros H%tasks_loop_spec Hd He Hs. rewrite <- (list.Forall2_length _ _ _ H), !length_zip. lia.
Qed.

Section company.
Context `{lib : Libraries} `{laws : !LibraryLaws lib}.
Context (known : bytes -> Prop) (archive : Z -> bytes -> Prop) (su : Surroundings).
Context (Hcompany : good_company known archive su) (d0 : Disk.Disk).
Notation calmly := (calmly known archive su d0).

Lemma calmly_poll : calmly poll_cancelled (fun _ => True).
Proof.
  eapply calmly_bind; [by apply calmly_ask|]. intros b _. apply calmly_if; [apply calmly_fail|by apply calmly_ret].
Qed.

(** The forward loop, with what is left after it. *)
Lemma calmly_edits original edits : forall cursor acc,
  Forall edit_typed edits -> 0 <= cursor ->
  calmly (edit_loop original edits cursor acc)
    (fun r => forall rest, get_range original r.2 (len original) = Some rest ->
       in_order cursor edits (len original) /\ r.1 ++ rest = acc ++ drop (Z.to_nat cursor) (apply_edits edits original)).
Proof.
  induction edits as [|e edits IH]; intros cursor acc Ht Hc; cbn [edit_loop].
  - apply calmly_ret. intros rest Hr. cbn in *. apply get_range_spec in Hr as [Hl ->]. split; [lia|]. f_equal.
    apply take_ge. rewrite length_drop. unfold len. lia.
  - apply list.Forall_cons in Ht as [[Ho Hd] Ht]. eapply calmly_bind; [by apply calmly_poll|intros _ _].
    eapply calmly_bind; [apply calmly_lift; intros n Hn; exact Hn|]. intros end_ Hend.
    eapply calmly_bind; [apply calmly_lift; intros n Hn; exact Hn|]. intros kept Hkept.
    apply ok_or_ok, checked_add_Some in Hend as [-> _]. apply ok_or_ok, get_range_spec in Hkept as [Hk ->].
    eapply calmly_mono; [apply IH; [done|lia]|]. intros r Hr rest Hrest. destruct (Hr rest Hrest) as [Hin Heq].
    split; [cbn [in_order]; split; [lia|done]|]. rewrite Heq, <- !app_assoc. f_equal.
    rewrite splice_after by done || lia. by rewrite <- ?app_assoc.
Qed.

(** What a prepared file is. *)
Definition prepared_as (task : PatchTask) (p : Preparation) : Prop :=
  match p with
  | Ready file => exists original, known original /\ blake3 original = ta_expected_digest task
      /\ in_order 0 (ta_edits task) (len original)
      /\ file = mkPreparedFile (ta_path task) (ta_expected_digest task) (apply_edits (ta_edits task) original)
  | PConflicting digest => exists b, digest = blake3 b /\ digest <> ta_expected_digest task
  end.

Lemma calmly_prepare task : Forall edit_typed (ta_edits task) -> calmly (prepare_file task) (prepared_as task).
Proof.
  intros Ht. unfold prepare_file. eapply calmly_bind; [by apply calmly_poll|intros _ _].
  eapply calmly_bind with (Q := known).
  { apply calmly_map_err, calmly_system; [done|]. eapply looks_mono; [apply looks_limited|].
    intros b d [l Hl] [Hk _]. by apply (Hk l). }
  intros original Hknown. case_bool_decide as Hdig; cbn [negb].
  - eapply calmly_bind; [by apply calmly_edits|]. intros [replacement cursor] Hr.
    eapply calmly_bind; [apply calmly_lift; intros rest Hrest; exact Hrest|]. intros rest Hrest%ok_or_ok.
    destruct (Hr rest Hrest) as [Hin Heq]. apply calmly_if; [apply calmly_fail|]. apply calmly_ret.
    exists original. split_and!; [done..|]. f_equal. exact Heq.
  - apply calmly_ret. by exists original.
Qed.

(** What an edit inserts: its text, or what the archive has of its reference. *)
Definition content_of (e : PatchEdit) (c : bytes) : Prop :=
  match ed_replacement e with PInline value => c = str_bytes value | PReference r => archive r c end.

Lemma calmly_content e : calmly (resolve_content (ed_replacement e)) (fun r => content_of e r.1).
Proof.
  unfold content_of. destruct (ed_replacement e); [by apply calmly_ret|].
  eapply calmly_bind; [by apply calmly_retained|]. intros r Hr. by apply calmly_ret.
Qed.

Lemma calmly_resolve edits : forall by_file total,
  calmly (resolve_loop edits by_file total) (fun final => exists contents,
    Forall2 content_of edits contents /\ length final = length by_file
    /\ forall i es, by_file !! i = Some es -> final !! i = Some (es ++ file_edits i edits contents)).
Proof.
  induction edits as [|e edits IH]; intros by_file total; cbn [resolve_loop].
  - apply calmly_ret. exists []. split_and!; [constructor|done|]. intros i es Hi. by rewrite app_nil_r.
  - eapply calmly_bind; [apply calmly_content|]. intros [c size] Hc.
    eapply calmly_bind with (Q := fun _ => True); [by apply calmly_lift|]. intros total' _.
    apply calmly_if; [apply calmly_fail|].
    eapply calmly_bind; [apply calmly_lift; intros f Hf; exact Hf|]. intros file Hfile%ok_or_ok.
    eapply calmly_mono; [apply IH|]. intros final (contents & H2 & Hl & Hi). rewrite length_insert in Hl.
    exists (c :: contents). split_and!; [by constructor|done|]. intros i es Hes. cbn [file_edits]. case_decide as Hd.
    + subst i. rewrite Hfile in Hes. injection Hes as <-. rewrite cons_middle, app_assoc. apply Hi.
      apply list_lookup_insert_eq. by eapply lookup_lt_Some.
    + apply Hi. by rewrite list_lookup_insert_ne.
Qed.

(** The edits of each file. *)
Definition resolved_as (a : PatchArgs) (contents : list bytes) (edits : list (list ResolvedEdit)) : Prop :=
  Forall2 content_of (pt_edits a) contents /\ length edits = length (pt_paths a)
  /\ forall i es, edits !! i = Some es -> es = file_edits i (pt_edits a) contents.

Lemma calmly_resolved a : calmly (resolve_edits a) (fun edits => exists contents, resolved_as a contents edits).
Proof.
  eapply calmly_mono; [apply calmly_resolve|]. intros edits (contents & H2 & Hl & Hi). exists contents.
  rewrite repeat_length in Hl. split_and!; [done..|]. intros i es Hes.
  rewrite (Hi i []) in Hes; [by injection Hes as <-|].
  apply lookup_lt_Some in Hes. rewrite <- Hl. clear -Hes. revert i Hes.
  induction (length edits) as [|n IH]; intros [|i] Hi; cbn; try lia; [done|apply IH; lia].
Qed.

Lemma calmly_sizes paths : calmly (sizes_loop paths) (fun sizes => length sizes = length paths).
Proof.
  induction paths as [|p paths IH]; cbn [sizes_loop]; [by apply calmly_ret|].
  eapply calmly_bind; [by apply calmly_poll|intros _ _].
  eapply calmly_bind with (Q := fun _ => True).
  { apply calmly_map_err, calmly_system; [done|]. eapply looks_mono; [apply looks_size|done]. }
  intros size _. eapply calmly_bind; [exact IH|]. intros sizes Hs. apply calmly_ret. cbn. by rewrite Hs.
Qed.

Lemma calmly_mutation_sizes paths : calmly (mutation_sizes paths) (fun sizes => length sizes = length paths).
Proof.
  eapply calmly_bind; [by apply calmly_pool, calmly_sizes|]. intros sizes Hs.
  eapply calmly_bind with (Q := fun _ => True); [by apply calmly_lift|]. intros total _.
  apply calmly_if; [apply calmly_fail|by apply calmly_ret].
Qed.

Lemma calmly_prepare_all tasks :
  Forall (fun t => Forall edit_typed (ta_edits t)) tasks ->
  calmly (prepare_all tasks) (Forall2 (fun t r => forall p, r = Ok p -> prepared_as t p) tasks).
Proof.
  induction tasks as [|t tasks IH]; intros H; cbn [prepare_all]; [apply calmly_ret; constructor|].
  apply list.Forall_cons in H as [Ht H]. eapply calmly_bind; [by apply calmly_try, calmly_prepare|]. intros r Hr.
  eapply calmly_bind; [by apply IH|]. intros rest Hrest. apply calmly_ret. by constructor.
Qed.

(** The rows of a conflict, and the files. *)
Lemma collect_prepared_spec tasks : forall prepared rows files conflict,
  Forall2 (fun t r => forall p, r = Ok p -> prepared_as t p) tasks prepared ->
  collect_prepared prepared = Ok (rows, files, conflict) ->
  length rows = length tasks /\ Forall patch_row_ok rows
  /\ (conflict = true -> Exists (fun r => row_state r = PConflict) rows)
  /\ Forall2 (fun t f => forall file, f = Some file -> prepared_as t (Ready file)) tasks files.
Proof.
  induction tasks as [|t tasks IH]; intros prepared rows files conflict H2 H; inversion H2 as [|? r ? rest Hr Hrest]; subst.
  - injection H as <- <- <-. split_and!; try done; constructor.
  - cbn [collect_prepared] in H. inv_ok. destruct x0 as [[rows' files'] conflict'].
    match goal with H : collect_prepared rest = Ok _ |- _ => destruct (IH _ _ _ _ Hrest H) as (Hl & Hok & Hc & Hf) end.
    subst r. specialize (Hr _ eq_refl). destruct x as [file|digest]; injection H as <- <- <-; cbn.
    + split_and!; [by rewrite Hl|by constructor|intros ->; right; by apply Hc|].
      constructor; [by intros ? [= <-]|done].
    + destruct Hr as (b & -> & _). pose proof (blake3_digest b) as Hb. split_and!; [by rewrite Hl| |by left|by constructor].
      constructor; [|done]. split; [by apply some_digest_hex|by intros ? [= <-]].
Qed.

End company.
