(* ===== verification/PatchReports.v ===== *)
(** * PatchReports: what a patch reports is true

    From the request to the disk: the answer of [patch_execute] says what became of the
    files, whatever the other tasks of the process do between its turns. *)

From S2P Require Import Prelude Text AsonModel AsonCodec AsonScalarFacts Capability Request.
From S2P Require Import RequestFacts Response ResponseFacts Budget Paths Store Governor Runtime.
From S2P Require Import Projection Workspace Manifest Disk Mutation Transaction JournalState.
From S2P Require Import RollbackFacts Durable ApplyFacts Committing PrepareFacts Publishing.
From S2P Require Import Atomicity Rows ProjectionFacts Patch AnswerFacts PatchFacts.

(** ** Replacing files *)

Section replacing.
Context `{lib : Libraries} `{laws : !LibraryLaws lib}.

Definition patched (files : list PreparedFile) (v : View) : View := perform_all (replace_action <$> files) v.

Lemma patched_frame files : forall v l,
  Forall (fun f => l <> split 47 (pf_path f)) files -> patched files v l = v l.
Proof.
  induction files as [|f files IH]; intros v l H; [done|]. apply list.Forall_cons in H as [Hf H].
  unfold patched. rewrite fmap_cons, perform_all_cons. fold (patched files (perform (replace_action f) v)).
  rewrite IH by done. cbn. unfold store. by rewrite decide_False.
Qed.

Lemma patched_file files : forall v i f,
  NoDup (pf_path <$> files) -> files !! i = Some f ->
  view_at (patched files v) (pf_path f) = Contents (pf_replacement f).
Proof.
  induction files as [|g files IH]; intros v i f Hn Hf; [done|].
  rewrite fmap_cons in Hn. apply list.NoDup_cons in Hn as [Hg Hn].
  unfold patched. rewrite fmap_cons, perform_all_cons. fold (patched files (perform (replace_action g) v)).
  destruct i as [|i]; [|by eapply IH]. injection Hf as ->. unfold view_at. rewrite patched_frame.
  - cbn. unfold store. by rewrite decide_True.
  - apply list.Forall_forall. intros h Hh E. apply split_inj in E. apply Hg. rewrite E. by apply list_elem_of_fmap_2.
Qed.

(** What was admitted had the expected digests. *)
Lemma admitted_files v limits files : forall totals i f,
  is_Some (admit_all v limits totals (replace_action <$> files)) -> files !! i = Some f ->
  exists c, view_at v (pf_path f) = Contents c /\ blake3 c = pf_expected_digest f.
Proof.
  induction files as [|g files IH]; intros totals i f Ha Hf; [done|].
  rewrite fmap_cons in Ha. cbn [admit_all] in Ha. destruct (admission v limits totals (replace_action g)) as [t|] eqn:E;
    [|by apply is_Some_None in Ha]. destruct i as [|i]; [|by eapply IH]. injection Hf as ->.
  unfold admission in E. destruct totals. cbn in E. destruct (view_at v (pf_path f)) as [| | |c]; try done.
  case_bool_decide as Hd; [|done]. exists c. split; [done|]. congruence.
Qed.

End replacing.

(** ** Reports *)

Section company.
Context `{lib : Libraries} `{laws : !LibraryLaws lib}.
Context (known : bytes -> Prop) (archive : Z -> bytes -> Prop) (su : Surroundings).
Context (Hcompany : good_company known archive su) (Hinj : tells_apart known).
Context (Hwhole : whole_removals (su_system su)) (d0 : Disk.Disk).
Notation calmly := (calmly known archive su d0).

(** [v'] is [v] with the files of the patch edited; each had the contents whose digest
    the request expects. *)
Definition edited (a : PatchArgs) (contents : list bytes) (v' : View) (i : nat) (path digest : str)
    (original : bytes) : Prop :=
  let edits := file_edits i (pt_edits a) contents in
  hex_digest (blake3 original) = digest /\ in_order 0 edits (len original)
  /\ view_at v' path = Contents (apply_edits edits original).

Definition elsewhere (a : PatchArgs) (v v' : View) : Prop :=
  forall l, Forall (fun path => l <> split 47 path) (pt_paths a) -> v' l = v l.

Definition patch_of (a : PatchArgs) (contents : list bytes) (v v' : View) : Prop :=
  elsewhere a v v' /\ forall i path digest,
    pt_paths a !! i = Some path -> pt_expected_digests a !! i = Some digest ->
    exists original, view_at v path = Contents original /\ edited a contents v' i path digest original.

(** The same, when nothing is known of what the files had been. *)
Definition patch_left (a : PatchArgs) (contents : list bytes) (v v' : View) : Prop :=
  elsewhere a v v' /\ forall i path digest,
    pt_paths a !! i = Some path -> pt_expected_digests a !! i = Some digest ->
    exists original, edited a contents v' i path digest original.

(** What a report says of the disk. *)
Definition patch_report (a : PatchArgs) (contents : list bytes) (v : View) (failure : option Failure)
    (d : Disk.Disk) : Prop :=
  match failure with
  | None => exists v', patch_of a contents v v' /\ stands v' d
  | Some XRecoveryRequired => stands v d \/ exists v', patch_left a contents v v' /\ stands v' d
  | Some _ => stands v d
  end.

(** ** The transaction *)

Lemma op_wp_try {E F A} (m : op E A) (Q : result E A -> Progress -> Prop) (Qe : F -> Progress -> Prop) Qc st :
  op_wp su m (fun a => Q (Ok a)) (fun e => Q (Err e)) Qc st -> op_wp su (op_try m) Q Qe Qc st.
Proof. unfold op_wp, op_try. by destruct (m su st) as [[a|e|] st']. Qed.

Lemma op_wp_post {E A} control (m : io E A) P Qd Qe Qc st :
  post m P anything -> op_wp su (system_with control m) Qd Qe Qc st ->
  op_wp su (system_with control m) (fun a st' => Qd a st' /\ P a) Qe Qc st.
Proof.
  intros Hp. unfold op_wp, system_with. set (env := mkEnvironment _ _ _ _).
  specialize (Hp env (pg_world (others su st))). destruct (m env (pg_world (others su st))) as [[a|e|] w]; cbn in *; tauto.
Qed.

(** What the files must be for the report of their transaction. *)
Definition transaction_report (v : View) (files : list PreparedFile) (failure : option Failure) (d : Disk.Disk) : Prop :=
  match failure with
  | None => stands (patched files v) d
            /\ Forall (fun f => exists c, view_at v (pf_path f) = Contents c /\ blake3 c = pf_expected_digest f) files
  | Some XRecoveryRequired => stands v d \/ stands (patched files v) d
  | Some _ => stands v d
  end.

Lemma skipped_rows_ok s n : s = PSkipped \/ s = PRecoveryRequired -> Forall patch_row_ok (repeat (mkRow s None) n).
Proof.
  intros Hs. apply list.Forall_forall. intros r Hr. apply list_elem_of_In, repeat_spec in Hr as ->.
  split; [|done]. destruct Hs as [-> | ->]; [done|by left].
Qed.

Lemma run_transaction_wp files st :
  calm known archive su d0 st -> Forall (fun f => valid_str (pf_path f) = true /\ known (pf_replacement f)) files ->
  exists v d, rtc (moves su) d0 d /\ stands v d /\ view_known known v /\
    op_wp su (run_transaction files)
      (fun o st' => patch_shape (length files) (tr_rows o) (tr_failure o)
                    /\ transaction_report v files (tr_failure o) (disk_of st'))
      (fun _ _ => False) (fun st' => stands v (disk_of st') \/ stands (patched files v) (disk_of st')) st.
Proof.
  intros Hst Hf. unfold run_transaction.
  destruct (FileTransactionLimits_new MAX_PATCH_FILE_BYTES MAX_PATCH_TOTAL_BYTES) as [limits|e] eqn:E; [|done].
  assert (limits_ok limits) as Hl by (eapply limits_new_ok; [..|exact E]; done).
  destruct (transaction_wp known archive su Hcompany d0 (replace_action <$> files) limits st) as (v & d & Hm & Hv & Hk & Hw); try done.
  { unfold strings_ok. apply list.Forall_bind, Forall_fmap. eapply list.Forall_impl; [exact Hf|].
    intros f [Hs _]. by repeat constructor. }
  { apply Forall_fmap. eapply list.Forall_impl; [exact Hf|]. by intros f [_ ?]. }
  exists v, d. split_and!; [done..|]. eapply op_wp_post in Hw; [|apply file_transaction_shape].
  eapply op_wp_bind, op_wp_try, op_wp_mono; [exact Hw|..].
  - intros o st' [Ho Hshape]. apply patch_shape_of in Hshape. rewrite length_fmap in Hshape. split; [exact Hshape|].
    cbn [tr_failure]. unfold outcome_true in Ho. destruct (to_failure o) as [[]|]; cbn; try apply Ho; try tauto.
    split; [apply Ho|]. destruct Ho as (_ & [[_ Hacc] _] & _). apply list.Forall_lookup. intros i f Hi.
    by eapply admitted_files.
  - intros e st' [He _]. assert (length (repeat (mkRow PSkipped None) (length files)) = length files
      /\ length (repeat (mkRow PRecoveryRequired None) (length files)) = length files) as [H1 H2] by (by rewrite !repeat_length).
    destruct e; split; cbn; try done; try (split; cbn; try done; apply skipped_rows_ok; auto); by left.
  - intros st' [_ H]. exact H.
Qed.

(** ** The whole patch *)

(** What the prepared files are. *)
Definition files_of (a : PatchArgs) (contents : list bytes) (files : list PreparedFile) : Prop :=
  length files = length (pt_paths a) /\ forall i f, files !! i = Some f ->
    pt_paths a !! i = Some (pf_path f)
    /\ pt_expected_digests a !! i = Some (hex_digest (pf_expected_digest f))
    /\ exists original, known original /\ blake3 original = pf_expected_digest f
         /\ in_order 0 (file_edits i (pt_edits a) contents) (len original)
         /\ pf_replacement f = apply_edits (file_edits i (pt_edits a) contents) original.

Lemma files_paths a contents files : files_of a contents files -> pf_path <$> files = pt_paths a.
Proof.
  intros [Hl Hf]. apply list_eq_same_length with (n := length files); [by rewrite ?length_fmap..|].
  intros i x y _ Hx Hy. apply list_lookup_fmap_Some in Hx as (f & -> & Hi). destruct (Hf i f Hi) as [E _]. congruence.
Qed.

Section report.
Context (a : PatchArgs) (contents : list bytes) (files : list PreparedFile) (v : View).
Context (Hfiles : files_of a contents files) (Hpaths : NoDup (pt_paths a)).
Context (Hlen : length (pt_expected_digests a) = length (pt_paths a)).

Lemma file_at i path digest :
  pt_paths a !! i = Some path -> pt_expected_digests a !! i = Some digest ->
  exists f, files !! i = Some f /\ path = pf_path f /\ digest = hex_digest (pf_expected_digest f).
Proof.
  intros Hp Hd. destruct (lookup_lt_is_Some_2 files i) as [f Hf].
  { rewrite (proj1 Hfiles). by eapply lookup_lt_Some. }
  destruct (proj2 Hfiles i f Hf) as (E1 & E2 & _). exists f. split; [done|]. split; congruence.
Qed.

Lemma patched_elsewhere : elsewhere a v (patched files v).
Proof.
  intros l Hl. apply patched_frame. rewrite <- (files_paths _ _ _ Hfiles) in Hl. exact (proj1 (Forall_fmap _ _ _) Hl).
Qed.

Lemma patched_at i f : files !! i = Some f -> view_at (patched files v) (pf_path f) = Contents (pf_replacement f).
Proof. intros Hf. eapply patched_file; [by rewrite (files_paths _ _ _ Hfiles)|exact Hf]. Qed.

Lemma patched_left : patch_left a contents v (patched files v).
Proof.
  split; [apply patched_elsewhere|]. intros i path digest Hp Hd.
  destruct (file_at i path digest Hp Hd) as (f & Hf & -> & ->).
  destruct (proj2 Hfiles i f Hf) as (_ & _ & original & _ & E & Hin & Hr). exists original.
  split_and!; [by rewrite E|done|]. rewrite <- Hr. by eapply patched_at.
Qed.

Lemma patched_of :
  view_known known v ->
  Forall (fun f => exists c, view_at v (pf_path f) = Contents c /\ blake3 c = pf_expected_digest f) files ->
  patch_of a contents v (patched files v).
Proof.
  intros Hk Hall. split; [apply patched_elsewhere|]. intros i path digest Hp Hd.
  destruct (file_at i path digest Hp Hd) as (f & Hf & -> & ->).
  destruct (proj2 Hfiles i f Hf) as (_ & _ & original & Ho & E & Hin & Hr).
  rewrite list.Forall_lookup in Hall. destruct (Hall i f Hf) as (c & Hc & Ec).
  assert (c = original) as -> by (apply Hinj; [by eapply Hk|done|congruence]). exists original. split; [done|].
  split_and!; [by rewrite E|done|]. rewrite <- Hr. by eapply patched_at.
Qed.

Lemma report_of failure d :
  view_known known v -> transaction_report v files failure d -> patch_report a contents v failure d.
Proof.
  intros Hk H. destruct failure as [[]|]; try exact H.
  - destruct H as [H|H]; [by left|]. right. exists (patched files v). split; [apply patched_left|done].
  - destruct H as [H Hall]. exists (patched files v). split; [by apply patched_of|done].
Qed.

End report.

(** The answer, and what it says. *)
Definition patch_true (request_id : Z) (a : PatchArgs) (r : FinalResponse) (d : Disk.Disk) : Prop :=
  exists v d1 contents ids mappings rows failure,
    rtc (moves su) d0 d1 /\ stands v d1 /\ Forall2 (content_of archive) (pt_edits a) contents
    /\ numbering (pt_paths a) ids mappings /\ patch_shape (length (pt_paths a)) rows failure
    /\ r = patch_answer request_id mappings ids rows failure
    /\ patch_report a contents v failure d.

(** Dying, the files are edited or they are not. *)
Definition patch_cut (a : PatchArgs) (d : Disk.Disk) : Prop :=
  exists v d1 contents, rtc (moves su) d0 d1 /\ stands v d1 /\ Forall2 (content_of archive) (pt_edits a) contents
    /\ (stands v d \/ exists v', patch_left a contents v v' /\ stands v' d).

(** What a request guarantees. *)
Record patch_request (a : PatchArgs) : Prop := mkPatchRequest {
  pr_valid : PatchArgs_validate a = Ok tt;
  pr_strings : Forall (fun path => valid_str path = true) (pt_paths a);
  pr_ranges : Forall edit_ranges (pt_edits a);
}.

Lemma validate_each_text values field max : Request.validate_each values field max = Ok tt ->
  Forall (fun s => str_len s <= max /\ contains 0 s = false) values.
Proof.
  induction values as [|s values IH]; intros H; [constructor|]. cbn [Request.validate_each] in H. inv_ok. constructor; [|by apply IH].
  match goal with H : validate_bounded_text _ _ _ = Ok _ |- _ => unfold validate_bounded_text in H end. inv_ok. by zbool.
Qed.

Lemma patch_request_paths a : patch_request a ->
  Forall path_sound (pt_paths a) /\ NoDup (pt_paths a) /\ pt_paths a <> [] /\ len (pt_paths a) <= 256
  /\ length (pt_expected_digests a) = length (pt_paths a).
Proof.
  intros [Hv Hs _]. unfold PatchArgs_validate, Request.validate_paths, validate_text_items in Hv. inv_ok. zbool.
  rename select (bool_decide (pt_paths a = []) = false) into Hne. apply bool_decide_eq_false in Hne.
  rename select (existsb (fun p => bool_decide (p = [])) (pt_paths a) = false) into He.
  rename select (Request.validate_each _ _ _ = Ok _) into Ht.
  match type of Ht with _ = Ok ?u => destruct u end. apply validate_each_text in Ht.
  split_and!; [| |done|lia|unfold len in *; lia].
  - apply list.Forall_forall. intros p Hp. rewrite list.Forall_forall in Hs, Ht. split; [by apply Hs|].
    apply validate_path_iff. destruct (Ht p Hp) as [? ?]. split; [|done]. intros ->.
    rewrite <- not_true_iff_false, existsb_exists in He. apply He. exists []. split; [by apply list_elem_of_In|done].
  - rename select (paths_sorted _ = true) into Hps. unfold paths_sorted in Hps. apply str_lt_sorted_nodup.
    apply Sorted.Sorted_StronglySorted; [intros p q r; apply bytes_lt_trans|].
    by apply (windows2_all_Sorted _ str_lt) in Hps.
Qed.

(** What a request adds to the known contents. *)
Definition edits_known (a : PatchArgs) : Prop := forall contents i digest original,
  Forall2 (content_of archive) (pt_edits a) contents -> pt_expected_digests a !! i = Some digest ->
  known original -> hex_digest (blake3 original) = digest ->
  known (apply_edits (file_edits i (pt_edits a) contents) original).

Section request.
Context (request : Request) (a : PatchArgs) (Hid : rq_id request <> 0) (Ha : patch_request a) (Hk : edits_known a).

Lemma calmly_emit rows failure :
  patch_shape (length (pt_paths a)) rows (Some failure) ->
  calmly (emit_without_mutation (rq_id request) (pt_paths a) rows failure)
    (fun r => exists ids mappings, numbering (pt_paths a) ids mappings
      /\ r = patch_answer (rq_id request) mappings ids rows (Some failure)).
Proof.
  intros Hs. destruct (patch_request_paths a Ha) as (Hp & Hn & Hne & _). unfold emit_without_mutation.
  destruct (temporary_paths (pt_paths a)) as [tids tmaps].
  eapply calmly_bind with (Q := fun _ => True); [by apply calmly_lift|]. intros t _.
  eapply calmly_bind with (Q := fun _ => True); [by apply calmly_lift|]. intros text _.
  eapply calmly_bind; [by apply calmly_limit|]. intros limit _. apply calmly_if; [apply calmly_fail|].
  eapply calmly_bind; [by apply calmly_intern|]. intros [ids mappings] Hnum.
  eapply calmly_bind; [apply calmly_lift; intros r Hr; exact Hr|]. intros r Hr.
  erewrite patch_answer_built in Hr by done. injection Hr as <-.
  eapply calmly_bind; [by apply calmly_charge|]. intros _ _. apply calmly_ret. by exists ids, mappings.
Qed.

Lemma calmly_reserved :
  calmly (reserve_transaction_response (rq_id request) (pt_paths a)) (fun r => numbering (pt_paths a) r.1 r.2).
Proof.
  destruct (patch_request_paths a Ha) as (Hp & _). unfold reserve_transaction_response.
  destruct (temporary_paths (pt_paths a)) as [tids tmaps].
  eapply calmly_bind with (Q := fun _ => True); [by apply calmly_lift|]. intros t _.
  eapply calmly_bind with (Q := fun _ => True); [by apply calmly_lift|]. intros text _.
  eapply calmly_bind; [by apply calmly_limit|]. intros limit _. apply calmly_if; [apply calmly_fail|].
  eapply calmly_bind; [by apply calmly_charge|]. intros _ _. by apply calmly_intern.
Qed.

(** The tasks of the request, prepared. *)
Lemma prepared_files contents edits sizes tasks files :
  resolved_as archive a contents edits -> length sizes = length (pt_paths a) ->
  build_tasks a edits sizes = Ok tasks ->
  Forall2 (fun t f => prepared_as known t (Ready f)) tasks files -> files_of a contents files.
Proof.
  intros (_ & Hl & Hes) Hs Hb Hf. destruct (patch_request_paths a Ha) as (_ & _ & _ & _ & Hd). split.
  - rewrite <- (list.Forall2_length _ _ _ Hf). by eapply build_tasks_length.
  - intros i f Hi. destruct (Forall2_lookup_r _ _ _ _ _ Hf Hi) as (t & Ht & original & Ho & Eb & Hin & ->). cbn.
    destruct (build_tasks_spec _ _ _ _ _ _ Hb Ht) as (E1 & E2 & E3). apply Hes in E3. rewrite <- E3.
    split_and!; [done..|]. by exists original.
Qed.

Lemma calm_stands st : calm known archive su d0 st -> exists v, stands v (disk_of st) /\ rtc (moves su) d0 (disk_of st).
Proof. intros [Hm [_ (v & Hv & _)] _]. by exists v. Qed.

(** Reserving, running and answering. *)
Lemma transaction_answer_wp contents files st :
  calm known archive su d0 st -> files_of a contents files -> Forall2 (content_of archive) (pt_edits a) contents ->
  op_wp su (
      '(ids, mappings) ← reserve_transaction_response (rq_id request) (pt_paths a);
      outcome ← run_transaction files;
      op_lift (make_response (rq_id request) mappings ids (tr_rows outcome) (tr_failure outcome)))
    (fun r st' => patch_true (rq_id request) a r (disk_of st'))
    (fun _ st' => rtc (moves su) d0 (disk_of st'))
    (fun st' => rtc (moves su) d0 (disk_of st') \/ patch_cut a (disk_of st')) st.
Proof.
  destruct (patch_request_paths a Ha) as (Hp & Hn & Hne & Hlen & Hd). intros Hst Hof Hcontents.
  eapply calm_wp; [exact Hst|by apply calmly_reserved| |intros e st' H; apply H|intros st' H; left; apply H].
  clear st Hst. intros [ids mappings] st Hst Hnum.
  destruct (run_transaction_wp files st Hst) as (v & d & Hm & Hv & Hvk & Hw).
  { apply list.Forall_lookup. intros i f Hf. destruct (proj2 Hof i f Hf) as (E1 & E2 & original & Ho & Eb & _ & ->).
    split; [|eapply Hk; [exact Hcontents|done|done|by rewrite Eb]].
    destruct (proj1 (list.Forall_lookup _ _) Hp i _ E1). done. }
  eapply op_wp_bind, op_wp_mono; [exact Hw|..].
  - intros o st' [Hshape Hrep]. rewrite (proj1 Hof) in Hshape. unfold op_wp.
    erewrite patch_answer_built by done. cbn. exists v, d, contents, ids, mappings, (tr_rows o), (tr_failure o).
    split_and!; try done. by eapply report_of.
  - done.
  - intros st' H. right. exists v, d, contents. split_and!; [done..|].
    destruct H as [H|H]; [by left|]. right. exists (patched files v). split; [by eapply patched_left|done].
Qed.

Lemma patch_execute_true st :
  calm known archive su d0 st ->
  op_wp su (patch_execute request a)
    (fun r st' => patch_true (rq_id request) a r (disk_of st'))
    (fun _ st' => rtc (moves su) d0 (disk_of st'))
    (fun st' => rtc (moves su) d0 (disk_of st') \/ patch_cut a (disk_of st')) st.
Proof.
  destruct (patch_request_paths a Ha) as (Hp & Hn & Hne & Hlen & Hd). intros Hst. unfold patch_execute.
  assert (forall (e : OperationError) st', calm known archive su d0 st' -> rtc (moves su) d0 (disk_of st')) as He
    by (intros _ st' H; apply H).
  assert (forall st', calm known archive su d0 st' -> rtc (moves su) d0 (disk_of st') \/ patch_cut a (disk_of st')) as Hc
    by (intros st' H; left; apply H).
  eapply calm_wp; [exact Hst|by apply calmly_check| |done..]. clear st Hst. intros _ st Hst _.
  eapply (calm_wp _ _ _ _ _ _ (fun _ => True)); [exact Hst|by apply calmly_shared| |done..]. clear st Hst. intros rem st Hst _.
  destruct (_ <? _); [by apply (He OE_Task)|].
  eapply calm_wp; [exact Hst|by apply calmly_resolved| |done..]. clear st Hst. intros edits st Hst [contents Hedits].
  do 2 (eapply calm_wp; [exact Hst|by apply calmly_acquire| |done..]; clear st Hst; intros _ st Hst _).
  eapply calm_wp; [exact Hst|by apply calmly_mutation_sizes| |done..]. clear st Hst. intros sizes st Hst Hsizes.
  eapply calm_wp; [exact Hst|apply calmly_lift; intros t Ht; exact Ht| |done..]. clear st Hst. intros tasks st Hst Htasks.
  assert (Forall (fun t => Forall edit_typed (ta_edits t)) tasks) as Htyped.
  { apply list.Forall_lookup. intros i t Ht. destruct (build_tasks_spec _ _ _ _ _ _ Htasks Ht) as (_ & _ & E).
    destruct Hedits as (_ & _ & Hes). rewrite (Hes _ _ E). apply file_edits_typed, Ha. }
  eapply calm_wp; [exact Hst|by apply calmly_pool, calmly_prepare_all| |done..].
  clear st Hst. intros prepared st Hst Hprep.
  eapply calm_wp; [exact Hst|apply calmly_lift; intros t Ht; exact Ht| |done..]. clear st Hst.
  intros [[rows files] conflict] st Hst Hcollect.
  destruct (collect_prepared_spec _ _ _ _ _ _ Hprep Hcollect) as (Hrl & Hrok & Hconf & Hfiles).
  eapply calm_wp; [exact Hst|by apply calmly_check| |done..]. clear st Hst. intros _ st Hst _. destruct conflict.
  - assert (patch_shape (length (pt_paths a)) rows (Some XConflict)) as Hshape.
    { split; [|exact Hrok|intros [=]|intros _; by apply Hconf]. rewrite Hrl.
      eapply build_tasks_length; [exact Htasks|exact Hd|apply Hedits|exact Hsizes]. }
    eapply op_wp_mono; [exact (calmly_emit _ _ Hshape _ Hst)|..].
    + intros r st' [Hst' (ids & mappings & Hnum & ->)]. destruct (calm_stands st' Hst') as (v & Hv & Hm).
      exists v, (disk_of st'), contents, ids, mappings, rows, (Some XConflict). split_and!; try done. apply Hedits.
    + exact He.
    + exact Hc.
  - eapply calm_wp; [exact Hst|apply calmly_lift; intros t Ht; exact Ht| |done..]. clear st Hst. intros fs st Hst Hfs%mapM_ok.
    assert (files_of a contents fs) as Hof.
    { eapply prepared_files; [exact Hedits|exact Hsizes|exact Htasks|]. apply Forall2_same_length_lookup_2.
      - rewrite (list.Forall2_length _ _ _ Hfiles). by apply list.Forall2_length in Hfs.
      - intros i t f Ht Hf. destruct (Forall2_lookup_r _ _ _ _ _ Hfs Hf) as (o & Ho & ->%ok_or_ok).
        destruct (Forall2_lookup_r _ _ _ _ _ Hfiles Ho) as (t' & Ht' & H). simplify_eq. by apply H. }
    by eapply transaction_answer_wp; [..|apply Hedits].
Qed.

End request.
End company.

(** * what a filesystem program reports is true

    From the request to the disk: the answer of [fs_execute] says what became of the
    actions, whatever the other tasks of the process do between its turns. *)

(** ** The service *)

Lemma looks_validate actions : looks (service_validate actions) (fun _ _ => True).
Proof.
  apply looks_map_fail. eapply looks_bind; [apply looks_internal|]. intros b _ _. by apply looks_lift.
Qed.

Section company.
Context `{lib : Libraries} `{laws : !LibraryLaws lib}.
Context (known : bytes -> Prop) (archive : Z -> bytes -> Prop) (su : Surroundings).
Context (Hcompany : good_company known archive su) (Hinj : tells_apart known).
Context (Hwhole : whole_removals (su_system su)) (d0 : Disk.Disk).
Notation calmly := (calmly known archive su d0).
Notation calm := (calm known archive su d0).

Lemma service_limits_ok : limits_ok service_limits.
Proof. by split. Qed.

Lemma service_execute_shape actions : post (service_execute actions) (outcome_shape (length actions)) anything.
Proof.
  eapply post_bind; [apply post_any|]. intros _ _. eapply post_map_fail; [apply file_transaction_shape|done].
Qed.

Lemma service_wp actions st :
  calm st -> strings_ok actions -> Forall (action_known known) actions ->
  exists v d, rtc (moves su) d0 d /\ stands v d /\
    op_wp su (system_with program_control (service_execute actions))
      (fun o st' => outcome_shape (length actions) o /\ outcome_true v service_limits actions False o (disk_of st'))
      (fun _ st' => stands v (disk_of st'))
      (fun st' => stands v (disk_of st') \/ stands (perform_all actions v) (disk_of st')) st.
Proof.
  intros Hst Hs Ha. destruct (others_calm _ _ _ Hcompany d0 st Hst) as [Hm [_ (v & Hv & Hk)] Hp].
  exists v, (disk_of (others su st)). split; [done|]. split; [done|].
  enough (op_wp su (system_with program_control (service_execute actions))
            (fun o st' => outcome_true v service_limits actions False o (disk_of st'))
            (fun _ st' => stands v (disk_of st'))
            (fun st' => stands v (disk_of st') \/ stands (perform_all actions v) (disk_of st')) st) as H.
  { eapply op_wp_mono; [exact (op_wp_post su _ _ _ _ _ _ _ (service_execute_shape actions) H)| |done..]. intros o st' [? ?]. by split. }
  unfold op_wp, system_with. set (env := mkEnvironment _ _ _ _).
  unfold service_execute, mbind, io_bind. destruct (looks_validate actions env (pg_world (others su st))) as [Hd _].
  destruct (service_validate actions env (pg_world (others su st))) as [[u|e|] w]; cbn [fst snd] in *; unfold disk_of in *; cbn [pg_world];
    [|by rewrite Hd|rewrite Hd; by left].
  destruct w as [d b c p]. cbn in Hd. subst d. unfold map_fail.
  pose proof (file_transaction_spec env Hwhole v service_limits service_limits_ok actions b _ Hv Hs
    (known_distinguished known Hinj v actions Hk Ha) c p) as H.
  destruct (file_transaction actions service_limits env _) as [[o|e|] w]; cbn in *.
  - eapply outcome_mono; [|apply H]. done.
  - apply H.
  - apply H.
Qed.

(** ** From the request to the actions *)

Definition content_as (content : PatchContent) (c : bytes) : Prop :=
  match content with PInline value => c = str_bytes value | PReference r => archive r c end.

(** The action that a request's action becomes. *)
Definition action_of (r : FsAction) (a : FileAction) : Prop :=
  match fs_kind r with
  | FsCreate => exists content c, fs_content r = Some content /\ content_as content c
                  /\ a = FileAction_create (fs_path r) c
  | FsCopy => exists destination digest, fs_destination r = Some destination
                  /\ fs_expected_digest r = Some (hex_digest digest)
                  /\ a = FileAction_copy (fs_path r) destination digest
  | FsMove => exists destination digest, fs_destination r = Some destination
                  /\ fs_expected_digest r = Some (hex_digest digest)
                  /\ a = FileAction_move_file (fs_path r) destination digest
  | FsRemove => exists digest, fs_expected_digest r = Some (hex_digest digest)
                  /\ a = FileAction_remove (fs_path r) digest
  end.

Lemma expected_digest_ok r d : expected_digest r = Ok d -> fs_expected_digest r = Some (hex_digest d).
Proof.
  unfold expected_digest. intros H. inv_ok. rename select (fs_expected_digest r = _) into He. rewrite He.
  f_equal. symmetry. by apply parse_digest_hex.
Qed.

Lemma calmly_create content : calmly (create_content content) (content_as content).
Proof.
  destruct content; [by apply calmly_ret|]. eapply calmly_bind; [by apply calmly_retained|]. intros r Hr. by apply calmly_ret.
Qed.

Lemma calmly_digest r : calmly (op_lift (expected_digest r)) (fun d => fs_expected_digest r = Some (hex_digest d)).
Proof. apply calmly_lift. intros d. apply expected_digest_ok. Qed.

Lemma calmly_actions rs : forall total, calmly (resolve_actions rs total) (Forall2 action_of rs).
Proof.
  induction rs as [|r rs IH]; intros total; cbn [resolve_actions]; [by apply calmly_ret|].
  eapply calmly_bind with (Q := fun x => action_of r x.1).
  - unfold action_of. destruct (fs_kind r).
    + eapply calmly_bind; [apply calmly_lift; intros c Hc; exact Hc|]. intros content Hc%ok_or_ok.
      eapply calmly_bind; [by apply calmly_create|]. intros data Hdata.
      eapply calmly_bind with (Q := fun _ => True); [by apply calmly_lift|]. intros total' _.
      apply calmly_if; [apply calmly_fail|]. apply calmly_ret. by exists content, data.
    + eapply calmly_bind; [apply calmly_lift; intros c Hc; exact Hc|]. intros destination Hc%ok_or_ok.
      eapply calmly_bind; [by apply calmly_digest|]. intros d Hd. apply calmly_ret. by exists destination, d.
    + eapply calmly_bind; [apply calmly_lift; intros c Hc; exact Hc|]. intros destination Hc%ok_or_ok.
      eapply calmly_bind; [by apply calmly_digest|]. intros d Hd. apply calmly_ret. by exists destination, d.
    + eapply calmly_bind; [by apply calmly_digest|]. intros d Hd. apply calmly_ret. by exists d.
  - intros [a total'] Ha. eapply calmly_bind; [apply IH|]. intros rest Hrest. apply calmly_ret. by constructor.
Qed.

Lemma action_of_paths r a s :
  action_of r a -> s ∈ Manifest.action_paths a -> s = fs_path r \/ fs_destination r = Some s.
Proof.
  unfold action_of, Manifest.action_paths.
  destruct (fs_kind r); intros H; [destruct H as (? & ? & _ & _ & ->)|destruct H as (? & ? & ? & _ & ->)
    |destruct H as (? & ? & ? & _ & ->)|destruct H as (? & _ & ->)]; cbn; set_solver.
Qed.

(** What a request guarantees. *)
Record fs_request (rs : list FsAction) : Prop := mkFsRequest {
  fq_valid : FsArgs_validate rs = Ok tt;
  fq_strings : Forall (fun path => valid_str path = true) (response_paths rs);
}.

Definition contents_known (rs : list FsAction) : Prop :=
  forall actions, Forall2 action_of rs actions -> Forall (action_known known) actions.

Lemma actions_strings rs actions :
  Forall (fun path => valid_str path = true) (response_paths rs) -> Forall2 action_of rs actions -> strings_ok actions.
Proof.
  intros Hs H2. unfold strings_ok. revert Hs. rewrite response_paths_eq.
  induction H2 as [|r a rs actions Hra _ IH]; intros Hs; [constructor|].
  rewrite bind_cons in Hs. rewrite bind_cons. apply list.Forall_app in Hs as [Hr Hs]. apply list.Forall_app. split; [|by apply IH].
  apply list.Forall_forall. intros s Hin. rewrite list.Forall_forall in Hr. apply Hr.
  unfold RequestFacts.action_paths. destruct (action_of_paths r a s Hra Hin) as [-> | ->]; set_solver.
Qed.

Lemma text_sound s field : valid_str s = true -> validate_text s field 4096 = Ok tt -> path_sound s.
Proof.
  intros Hv H. unfold validate_text, validate_bounded_text in H. inv_ok. zbool. split; [done|].
  rename select (bool_decide _ = false) into Hne. apply bool_decide_eq_false in Hne. by apply validate_path_iff.
Qed.

Lemma fs_request_paths rs : fs_request rs -> Forall path_sound (response_paths rs) /\ rs <> [] /\ len rs <= 256
  /\ len (response_paths rs) <= 512.
Proof.
  intros [Hv Hs]. destruct (FsArgs_validate_safe rs Hv) as (Hlen & _ & Hva & _). clear Hv. split_and!.
  - rewrite response_paths_eq in *. clear Hlen. induction rs as [|r rs IH]; [constructor|].
    rewrite bind_cons in *. apply list.Forall_app in Hs as [Hr Hs]. apply list.Forall_cons in Hva as [H Hva].
    apply list.Forall_app. split; [|by apply IH]. unfold RequestFacts.action_paths in *. apply list.Forall_cons in Hr as [Hp Hd].
    unfold FsAction_validate in H. inv_ok. constructor; [by destruct x; eapply text_sound|].
    destruct (fs_destination r) as [d|]; [|constructor]. apply list.Forall_cons in Hd as [Hd _]. constructor; [|constructor].
    inv_ok. by match goal with H : validate_text d _ _ = Ok ?u |- _ => destruct u; eapply text_sound end.
  - intros ->. unfold len in Hlen. cbn in Hlen. lia.
  - unfold MAX_FS_ACTIONS in Hlen. lia.
  - unfold MAX_FS_ACTIONS in Hlen. enough (len (response_paths rs) <= 2 * len rs) by lia. clear.
    induction rs as [|r rs IH]; [done|]. cbn [response_paths]. rewrite !len_cons, len_app.
    destruct (fs_destination r); rewrite ?len_cons; unfold len at 1; cbn [length]; lia.
Qed.

(** ** The whole program *)

(** What a report says of the disk. *)
Definition fs_report (v : View) (actions : list FileAction) (failure : option FileTransactionFailure)
    (d : Disk.Disk) : Prop :=
  match failure with
  | None => stands (perform_all actions v) d /\ accepted v service_limits actions
  | Some FT_RecoveryRequired => stands v d \/ stands (perform_all actions v) d
  | Some _ => stands v d
  end.

Definition fs_true (request_id : Z) (rs : list FsAction) (r : FinalResponse) (d : Disk.Disk) : Prop :=
  exists v d1 actions ids mappings outcomes rows failure,
    rtc (moves su) d0 d1 /\ stands v d1 /\ Forall2 action_of rs actions
    /\ numbering (response_paths rs) ids mappings /\ fs_shape (length rs) outcomes failure
    /\ fs_rows rs outcomes ids = Ok (rows, []) /\ r = fs_answer request_id mappings rows failure
    /\ fs_report v actions failure d.

(** An error: the workspace is as the others left it. *)
Definition fs_nothing (d : Disk.Disk) : Prop := exists v d1, rtc (moves su) d0 d1 /\ stands v d1 /\ stands v d.

(** Dying, all actions happened or none. *)
Definition fs_cut (rs : list FsAction) (d : Disk.Disk) : Prop :=
  exists v d1 actions, rtc (moves su) d0 d1 /\ stands v d1 /\ Forall2 action_of rs actions
    /\ (stands v d \/ stands (perform_all actions v) d).

Lemma calm_nothing st : calm st -> fs_nothing (disk_of st).
Proof. intros [Hm [_ (v & Hv & _)] _]. by exists v, (disk_of st). Qed.

Section request.
Context (request : Request) (rs : list FsAction) (Hid : rq_id request <> 0) (Hrs : fs_request rs).
Context (Hk : contents_known rs).

Lemma calmly_reserve_response :
  calmly (reserve_response (rq_id request) rs) (fun r => numbering (response_paths rs) r.1 r.2).
Proof.
  destruct (fs_request_paths rs Hrs) as (Hp & _). unfold reserve_response.
  destruct (temporary_paths (response_paths rs)) as [tids tmaps].
  eapply calmly_bind with (Q := fun _ => True); [by apply calmly_lift|]. intros t _.
  eapply calmly_bind with (Q := fun _ => True); [by apply calmly_lift|]. intros text _.
  eapply calmly_bind; [by apply calmly_limit|]. intros limit _. apply calmly_if; [apply calmly_fail|].
  eapply calmly_bind; [by apply calmly_charge|]. intros _ _. by apply calmly_intern.
Qed.

Notation promise := (fun m st => op_wp su m
    (fun r st' => fs_true (rq_id request) rs r (disk_of st'))
    (fun _ st' => fs_nothing (disk_of st'))
    (fun st' => fs_nothing (disk_of st') \/ fs_cut rs (disk_of st')) st).

(** The transaction, on a thread of the pool, and the answer. *)
Lemma fs_answer_wp actions ids mappings st :
  calm st -> Forall2 action_of rs actions -> numbering (response_paths rs) ids mappings ->
  promise (outcome ← pool_run (op_map_err of_semantic (system_with program_control (service_execute actions)));
           op_lift (fs_make_response (rq_id request) mappings ids rs (to_actions outcome) (to_failure outcome))) st.
Proof.
  intros Hst Hact Hnum. apply op_wp_bind. unfold pool_run.
  eapply calm_wp; [exact Hst|by apply calmly_ask| |by intros e st'; apply calm_nothing|by left; apply calm_nothing].
  clear st Hst. intros done_ st Hst _. destruct done_; [|by apply calm_nothing].
  destruct (service_wp actions st Hst) as (v & d & Hm & Hv & Hw); [by eapply actions_strings; [apply Hrs|]|by apply Hk|].
  unfold op_wp, op_map_err in *. destruct (system_with _ _ su st) as [[o|e|] st'].
  - destruct Hw as [Hshape Ho]. pose proof (list.Forall2_length _ _ _ Hact) as Hl. rewrite <- Hl in Hshape.
    destruct (fs_answer_built (rq_id request) rs ids mappings (to_actions o) (to_failure o)) as (rows & Er & Eb); [done|apply Hrs|done| |].
    { unfold fs_shape. by destruct o. }
    rewrite Eb. cbn. exists v, d, actions, ids, mappings, (to_actions o), rows, (to_failure o).
    split_and!; try done. { unfold fs_shape. by destruct o. }
    unfold outcome_true in Ho. unfold fs_report. destruct (to_failure o) as [[]|]; tauto.
  - by exists v, d.
  - right. by exists v, d, actions.
Qed.

Lemma fs_execute_true st : calm st -> promise (fs_execute request rs) st.
Proof.
  intros Hst. unfold fs_execute.
  assert (forall (e : OperationError) st', calm st' -> fs_nothing (disk_of st')) as He by (intros _; apply calm_nothing).
  assert (forall st', calm st' -> fs_nothing (disk_of st') \/ fs_cut rs (disk_of st')) as Hc
    by (intros st' H; left; by apply calm_nothing).
  eapply calm_wp; [exact Hst|by apply calmly_check| |done..]. clear st Hst. intros _ st Hst _.
  eapply calm_wp; [exact Hst|by apply calmly_actions| |done..]. clear st Hst. intros actions st Hst Hact.
  eapply (calm_wp _ _ _ _ _ _ (fun _ => True)); [exact Hst| | |done..].
  { apply calmly_map_err, calmly_system; [done|]. eapply looks_mono; [apply looks_validate|done]. }
  clear st Hst. intros _ st Hst _.
  eapply calm_wp; [exact Hst|by apply calmly_reserve_response| |done..]. clear st Hst. intros [ids mappings] st Hst Hnum.
  do 2 (eapply calm_wp; [exact Hst|by apply calmly_acquire| |done..]; clear st Hst; intros _ st Hst _).
  by apply fs_answer_wp.
Qed.

End request.
End company.
