(* ===== verification/PlatformProps.v ===== *)
(** * PlatformProps: properties of file transactions

    Histories are serial, reports are true, a transaction succeeds exactly when it is
    admitted, paths are confined, manifests are read back exactly.  The witnesses run
    on a small disk with a small digest. *)

From S2P Require Import Prelude Text Workspace Manifest Disk Mutation Transaction JournalState.
From S2P Require Import RollbackFacts Durable ApplyFacts Committing PrepareFacts Publishing.
From S2P Require Import Atomicity.

(** ** A concrete instance *)

Definition small_hash (b : bytes) : bytes := to_be_bytes 32 (fold_left (fun h x => h * 257 + x + 1) b 0).

#[local] Instance small_libraries : Libraries := {
  blake3 := small_hash;
  same_inode := Nat.eqb;
  replaced p b d := created p b d;
}.

#[local] Instance small_laws : LibraryLaws small_libraries.
Proof.
  split.
  - intros b. split; [apply len_be|apply to_be_bytes_ok].
  - intros i j. apply Nat.eqb_eq.
  - intros p b d. exists (new_inode d). split; [apply new_inode_fresh|done].
Qed.

Definition calm_environment : Environment :=
  mkEnvironment (fun _ _ => Fine) (fun _ => Continue) [] [].

Lemma calm_fine : fine calm_environment.
Proof. by split; cbn; try constructor. Qed.

(** A directory [d] and four files. *)
Definition small_disk : Disk := mkDisk
  (<[Work [] := Dir]> (<[Work [L "d"] := Dir]> (<[Work [L "a"] := File 0]> (<[Work [L "b"] := File 1]>
   (<[Work [L "e"] := File 2]> (<[Work [L "f"] := File 3]> ∅))))))
  (<[0%nat := [1; 2]]> (<[1%nat := [3]]> (<[2%nat := [6]]> (<[3%nat := [7]]> ∅)))).

Lemma small_tree p n : tree small_disk !! p = Some n ->
  (exists l, p = Work l) /\ (n = Dir \/ exists i, n = File i /\ (i < 4)%nat).
Proof.
  unfold small_disk. cbn [tree]. intros H.
  repeat (apply lookup_insert_Some in H as [[<- <-]|[_ H]];
    [split; [by eexists|(by left) || (right; eexists; split; [reflexivity|lia])]|]).
  by rewrite lookup_empty in H.
Qed.

Lemma small_none p : (forall l, p <> Work l) -> tree small_disk !! p = None.
Proof.
  intros Hp. destruct (tree small_disk !! p) as [n|] eqn:E; [|done].
  apply small_tree in E as [[l ->] _]. by destruct (Hp l).
Qed.

Lemma small_quiet : quiet (view small_disk) small_disk.
Proof.
  split.
  - split; [done|]. intros p i Hp. apply small_tree in Hp as [_ [?|(j & [= <-] & Hj)]]; [done|].
    destruct i as [|[|[|[|i]]]]; [by eexists..|lia].
  - intros s. by apply small_none.
  - split; [left; by apply small_none|]. intros s _ H. by rewrite small_none in H.
  - left. by apply small_none.
  - done.
Qed.

Definition small_actions : list FileAction :=
  [FileAction_create (L "c") [5]; FileAction_copy (L "a") (L "d/a") (small_hash [1; 2]);
   FileAction_replace (L "b") (small_hash [3]) [4]; FileAction_move_file (L "e") (L "d/e") (small_hash [6]);
   FileAction_remove (L "f") (small_hash [7])].
Definition small_limits : FileTransactionLimits := mkLimits 1000 1000.

Definition small_world : World := mkWorld small_disk false 0 0.

(** What the transaction leaves at some paths. *)
Definition holds_at (w : World) (paths : list str) : list Entry := view_at (view (w_disk w)) <$> paths.

Example small_transaction :
  let r := file_transaction small_actions small_limits calm_environment small_world in
  match r.1 with Done o => to_failure o = None | _ => False end
  /\ holds_at r.2 [L "a"; L "b"; L "c"; L "e"; L "f"; L "d/a"; L "d/e"]
     = [Contents [1; 2]; Contents [4]; Contents [5]; Absent; Absent; Contents [1; 2]; Contents [6]].
Proof. vm_compute. split; reflexivity. Qed.

(** The contents that occur, and no other, for the digest to tell apart. *)
Definition small_known (b : bytes) : Prop := b ∈ [[]; [1; 2]; [3]; [4]; [5]; [6]; [7]].

Lemma small_tells_apart : tells_apart small_known.
Proof.
  intros b c Hb Hc Heq. unfold small_known in *.
  repeat (apply elem_of_cons in Hb as [->|Hb]); try (by apply elem_of_nil in Hb);
    repeat (apply elem_of_cons in Hc as [->|Hc]); try (by apply elem_of_nil in Hc); try reflexivity;
    exfalso; revert Heq; vm_compute; congruence.
Qed.

Lemma small_view_known : view_known small_known (view small_disk).
Proof.
  intros l c. unfold view. destruct (tree small_disk !! Work l) as [[|i|]|] eqn:E; try done.
  apply small_tree in E as [_ [?|(j & [= <-] & Hj)]]; [done|].
  unfold small_known. destruct i as [|[|[|[|i]]]]; cbn; [intros [= <-]; set_solver..|lia].
Qed.

Lemma small_event_known r : event_known small_known (Transacted small_actions r).
Proof. unfold small_known. repeat constructor; unfold action_known, small_known; cbn; set_solver. Qed.

Lemma small_limits_ok : limits_ok small_limits.
Proof. by split; cbn. Qed.

Lemma small_strings : strings_ok small_actions.
Proof. repeat constructor. Qed.

Lemma small_distinguished : Forall (distinguished (view small_disk)) small_actions.
Proof.
  apply (known_distinguished small_known small_tells_apart); [apply small_view_known|].
  apply (small_event_known Crash).
Qed.

(** ** The properties *)

Section properties.
Context `{lib : Libraries} `{laws : !LibraryLaws lib}.

(** C1: Whatever faults, crashes and interruptions occur in a sequence of transactions
    and recoveries (a removal of the published journal apart, which must not be cut
    short), the disk stands for the workspace of a serial execution that contains
    every transaction reported as done, none reported as failed, and each interrupted
    one whole or not at all; and the next recovery that is not disturbed leaves exactly
    that workspace, with no journal. *)
Theorem history_serializable known v d events d' :
  tells_apart known -> view_known known v -> Forall (event_known known) events ->
  quiet v d -> history d events d' ->
  exists v', serial v events v'
    /\ forall env b calls polls, fine env ->
       exists r w, reopen_and_recover env (mkWorld d' b calls polls) = (Done r, w) /\ quiet v' (w_disk w).
Proof.
  intros Hinj Hv He Hq Hh.
  destruct (history_serial known Hinj v d events d' Hh (stands_quiet v d Hq) Hv He) as (v' & Hs & Hst).
  exists v'. split; [done|]. intros. by apply reopen_quiet.
Qed.

(** C2: What a transaction reports is true of the disk it leaves: success means that
    all actions happened, every row says so and the request was admitted; a failure
    means that none did and no row claims otherwise; only when recovery is required, or
    the process died, is it one or the other.  Recovery is never required when nothing
    went wrong. *)
Theorem transaction_reports_true env v limits actions d b calls polls :
  whole_removals env -> limits_ok limits -> stands v d -> strings_ok actions ->
  Forall (distinguished v) actions ->
  let F := fine env /\ usable d in
  match file_transaction actions limits env (mkWorld d b calls polls) with
  | (Done o, w) => outcome_true v limits actions F o (w_disk w)
  | (Fail_ _, w) => error_true v limits actions F (w_disk w)
  | (Crash, w) => crash_true v actions F (w_disk w)
  end.
Proof.
  intros Hw Hl Hst Hs Hd F. pose proof (file_transaction_spec env Hw v limits Hl actions b d Hst Hs Hd calls polls) as H.
  by destruct (file_transaction actions limits env _) as [[o|e|] w].
Qed.

(** C3: Undisturbed, a transaction succeeds exactly when its request is valid, its
    paths lead through directories, every destination is free, every source has the
    expected digest and the byte totals are within the limits; then the workspace is
    what performing the actions makes of it. *)
Theorem transaction_succeeds_exactly env v limits actions d b calls polls :
  fine env -> usable d -> limits_ok limits -> stands v d -> strings_ok actions ->
  Forall (distinguished v) actions ->
  (exists o w, file_transaction actions limits env (mkWorld d b calls polls) = (Done o, w)
               /\ to_failure o = None /\ quiet (perform_all actions v) (w_disk w))
  <-> accepted v limits actions.
Proof.
  intros Hf Hu Hl Hst Hs Hd.
  pose proof (file_transaction_spec env (fine_whole env Hf) v limits Hl actions b d Hst Hs Hd calls polls) as H.
  destruct (file_transaction actions limits env _) as [[o|e|] w]; split.
  - intros (o' & w' & [= <- <-] & Ho & _). unfold outcome_true in H. rewrite Ho in H. apply H.
  - intros Ha. exists o, w. split; [done|]. unfold outcome_true in H.
    destruct (to_failure o) as [[]|]; [exfalso; naive_solver..|split; [done|]; by apply H].
  - by intros (o' & w' & [=] & _).
  - intros Ha. destruct H as [_ H]. by destruct (H (conj Hf Hu) Ha).
  - by intros (o' & w' & [=] & _).
  - intros _. destruct H as [H _]. by destruct H.
Qed.

(** C39: A path is accepted for mutation exactly when it is canonical, outside ash's own
    directory, reached through real directories (never through a link) and ends in a
    regular file, or in nothing where that is allowed; checking changes nothing. *)
Theorem mutation_paths_confined env d s must_exist calls polls :
  tree d !! Work [] = Some Dir ->
  match checked_mutation_path s must_exist env (mkWorld d true calls polls) with
  | (Done p, w) =>
      w_disk w = d /\ p = place_of s /\ target_ok s = true /\ reachable d s /\ final_ok d p must_exist
      /\ head (split 47 s) <> Some STATE_DIRECTORY
  | (Fail_ _, w) =>
      w_disk w = d /\ (fine env -> ~ (target_ok s = true /\ reachable d s /\ final_ok d (place_of s) must_exist))
  | (Crash, w) => w_disk w = d /\ ~ fine env
  end.
Proof.
  intros Hroot. destruct (checked_answers d s must_exist Hroot) as (o & Ho & Hd & Hi).
  specialize (Ho env calls polls). destruct (checked_mutation_path s must_exist env _) as [[p|e|] w].
  - destruct Ho as (-> & _ & ->). destruct (Hi p eq_refl) as (-> & Ht & Hr & Hf).
    pose proof (target_components s Ht) as [_ Hh]. by repeat split.
  - destruct Ho as (-> & _ & H). split; [done|]. intros Hf (Ht & Hr & Hfin).
    specialize (H Hf). by rewrite (Hd Ht Hr Hfin) in H.
  - by destruct Ho as [-> ?].
Qed.

End properties.

(** The manifest decoder accepts exactly the bytes that the encoder makes of action
    lists of 1 to 256 well-formed actions with distinct paths and bounded sizes, and
    returns them. *)
Theorem manifest_codec_exact hash b ps :
  (forall b, digest_ok (hash b)) -> forallb byte_ok b = true ->
  decode_manifest hash b = Ok ps <-> manifest_ok ps /\ encode_manifest hash ps = Ok b.
Proof. intros Hh. by apply decode_manifest_iff. Qed.

(** A request is valid exactly when it has 1 to 256 actions, each with the fields of
    its kind, and all their paths are canonical, allowed and distinct. *)
Theorem validate_actions_exact internal_state actions :
  validate_actions internal_state actions = Ok tt <->
  1 <= len actions <= MAX_ACTIONS
  /\ Forall (fun s => request_path_ok internal_state s = true) (actions ≫= action_paths)
  /\ NoDup (actions ≫= action_paths) /\ Forall (fun a => shape_valid a = true) actions.
Proof. apply validate_actions_iff. Qed.

(** ** Witnesses *)

(** The process dies in the 130th call, after the replacement and the move. *)
Definition dying_environment : Environment :=
  mkEnvironment (fun n _ => if (n =? 130)%nat then Halted Everything else Fine) (fun _ => Continue) [] [].

Lemma dying_whole : whole_removals dying_environment.
Proof. intros n l. unfold dying_environment. cbn. by destruct (n =? 130)%nat. Qed.

Definition first_run := file_transaction small_actions small_limits dying_environment small_world.
Definition second_run := reopen_and_recover calm_environment (mkWorld (w_disk first_run.2) false 0 0).

Example dying_and_recovering :
  first_run.1 = Crash /\ second_run.1 = Done true
  /\ holds_at first_run.2 [L "a"; L "b"; L "c"; L "e"; L "f"; L "d/a"; L "d/e"]
     = [Contents [1; 2]; Contents [4]; Contents [5]; Absent; Contents [7]; Contents [1; 2]; Contents [6]]
  /\ holds_at second_run.2 [L "a"; L "b"; L "c"; L "e"; L "f"; L "d/a"; L "d/e"]
     = [Contents [1; 2]; Contents [3]; Absent; Contents [6]; Contents [7]; Absent; Absent].
Proof. vm_compute. split_and!; reflexivity. Qed.

Lemma dying_history :
  history small_disk [Transacted small_actions first_run.1; Reopened second_run.1] (w_disk second_run.2).
Proof.
  econstructor; [|econstructor; [|constructor]].
  - eapply (happens_transaction dying_environment false 0 0 _ _ small_limits);
      [apply dying_whole|apply small_limits_ok|apply small_strings|apply surjective_pairing].
  - eapply (happens_reopening calm_environment false 0 0); [apply fine_whole, calm_fine|apply surjective_pairing].
Qed.

Lemma history_serializable_witness :
  exists v', serial (view small_disk) [Transacted small_actions first_run.1; Reopened second_run.1] v'
    /\ forall env b calls polls, fine env ->
       exists r w, reopen_and_recover env (mkWorld (w_disk second_run.2) b calls polls) = (Done r, w)
                   /\ quiet v' (w_disk w).
Proof.
  apply (history_serializable small_known (view small_disk) small_disk
    [Transacted small_actions first_run.1; Reopened second_run.1] (w_disk second_run.2)).
  - apply small_tells_apart.
  - apply small_view_known.
  - constructor; [apply small_event_known|constructor; [exact I|constructor]].
  - apply small_quiet.
  - apply dying_history.
Defined.

Lemma small_usable : usable small_disk.
Proof. right. split; by apply small_none. Qed.

Lemma transaction_reports_true_witness :
  match file_transaction small_actions small_limits dying_environment small_world with
  | (Done o, w) => outcome_true (view small_disk) small_limits small_actions
                     (fine dying_environment /\ usable small_disk) o (w_disk w)
  | (Fail_ _, w) => error_true (view small_disk) small_limits small_actions
                      (fine dying_environment /\ usable small_disk) (w_disk w)
  | (Crash, w) => crash_true (view small_disk) small_actions
                    (fine dying_environment /\ usable small_disk) (w_disk w)
  end.
Proof.
  apply (transaction_reports_true dying_environment (view small_disk) small_limits small_actions small_disk false 0 0).
  - apply dying_whole.
  - apply small_limits_ok.
  - apply stands_quiet, small_quiet.
  - apply small_strings.
  - apply small_distinguished.
Defined.

Lemma transaction_succeeds_exactly_witness :
  accepted (view small_disk) small_limits small_actions.
Proof.
  apply (transaction_succeeds_exactly calm_environment (view small_disk) small_limits small_actions
           small_disk false 0 0).
  - apply calm_fine.
  - apply small_usable.
  - apply small_limits_ok.
  - apply stands_quiet, small_quiet.
  - apply small_strings.
  - apply small_distinguished.
  - pose proof (file_transaction_spec calm_environment (fine_whole _ calm_fine) (view small_disk) small_limits
      small_limits_ok small_actions false small_disk (stands_quiet _ _ small_quiet) small_strings
      small_distinguished 0%nat 0%nat) as H.
    assert (match (file_transaction small_actions small_limits calm_environment small_world).1 with
            | Done o => to_failure o = None | _ => False end) as Hs by apply small_transaction.
    change (mkWorld small_disk false 0 0) with small_world in *.
    destruct (file_transaction small_actions small_limits calm_environment small_world) as [[o|e|] w]; try done.
    exists o, w. split; [done|]. split; [done|]. cbn in Hs. unfold outcome_true in H. rewrite Hs in H.
    apply H. split; [apply calm_fine|apply small_usable].
Defined.

Lemma mutation_paths_confined_witness :
  tree small_disk !! Work [] = Some Dir
  /\ match checked_mutation_path (L "d/a") false calm_environment (mkWorld small_disk true 0 0) with
     | (Done p, w) =>
         w_disk w = small_disk /\ p = place_of (L "d/a") /\ target_ok (L "d/a") = true
         /\ reachable small_disk (L "d/a") /\ final_ok small_disk p false
         /\ head (split 47 (L "d/a")) <> Some STATE_DIRECTORY
     | (Fail_ _, w) =>
         w_disk w = small_disk
         /\ (fine calm_environment ->
             ~ (target_ok (L "d/a") = true /\ reachable small_disk (L "d/a")
                /\ final_ok small_disk (place_of (L "d/a")) false))
     | (Crash, w) => w_disk w = small_disk /\ ~ fine calm_environment
     end.
Proof. split; [reflexivity|]. apply (mutation_paths_confined calm_environment small_disk (L "d/a") false 0 0). reflexivity. Defined.

Definition small_prepared : list PreparedAction :=
  [mkPrepared FA_Create (L "c") None (small_hash [5]) 1 None None;
   mkPrepared FA_Replace (L "b") None (small_hash [4]) 1 (Some (small_hash [3])) (Some 1)].
Definition small_manifest : bytes := match encode_manifest small_hash small_prepared with Ok b => b | _ => [] end.

Lemma manifest_codec_exact_witness :
  decode_manifest small_hash small_manifest = Ok small_prepared
  /\ (decode_manifest small_hash small_manifest = Ok small_prepared ->
      manifest_ok small_prepared /\ encode_manifest small_hash small_prepared = Ok small_manifest).
Proof.
  split; [vm_compute; reflexivity|].
  apply (manifest_codec_exact small_hash small_manifest small_prepared).
  - intros b. split; [apply len_be|apply to_be_bytes_ok].
  - vm_compute. reflexivity.
Defined.

(** ** What modelling showed *)

(** Only [remove_dir_all] on the published journal goes wrong, after these entries. *)
Definition cut_short (gone : list Slot) : Environment :=
  mkEnvironment (fun _ c => match c with RemoveTree Transaction => Refused (Gone gone) | _ => Fine end)
    (fun _ => Continue) [] [].

(** The removals must indeed not be cut short: when the clean-up after a commit
    loses the commit marker and stops, the transaction has reported success, and the
    next recovery undoes it. *)
Theorem cut_short_cleanup_undoes_commit :
  let first := file_transaction small_actions small_limits (cut_short [CommittedFile]) small_world in
  let second := reopen_and_recover calm_environment (mkWorld (w_disk first.2) false 0 0) in
  match first.1 with Done o => to_failure o = None | _ => False end
  /\ holds_at first.2 [L "a"; L "b"; L "c"; L "e"] = [Contents [1; 2]; Contents [4]; Contents [5]; Absent]
  /\ second.1 = Done true
  /\ holds_at second.2 [L "a"; L "b"; L "c"; L "e"] = [Contents [1; 2]; Contents [3]; Absent; Contents [6]].
Proof. vm_compute. split_and!; reflexivity. Qed.

(** When it loses a directory of the journal instead, every later transaction fails. *)
Example cut_short_cleanup_blocks :
  let first := file_transaction small_actions small_limits (cut_short [StageDir]) small_world in
  let again := file_transaction [FileAction_create (L "g") []] small_limits calm_environment
                 (mkWorld (w_disk first.2) false 0 0) in
  match first.1 with Done o => to_failure o = None | _ => False end
  /\ again.1 = Fail_ PL_JournalCorrupt /\ bool_decide (tree (w_disk again.2) = tree (w_disk first.2)) = true.
Proof. vm_compute. split_and!; reflexivity. Qed.

(** A process that dies between making [.ash] and writing [FORMAT] leaves a workspace
    that no later transaction accepts. *)
Example unfinished_state_directory_blocks :
  let dying := mkEnvironment (fun n _ => if (n =? 2)%nat then Halted Nothing else Fine) (fun _ => Continue) [] [] in
  let first := file_transaction small_actions small_limits dying small_world in
  let again := file_transaction small_actions small_limits calm_environment (mkWorld (w_disk first.2) false 0 0) in
  first.1 = Crash /\ again.1 = Fail_ PL_ReservedPath /\ bool_decide (tree (w_disk again.2) = tree (w_disk first.2)) = true.
Proof. vm_compute. split_and!; reflexivity. Qed.
