(* ===== verification/Authorization.v ===== *)
(** * Authorization: who may run a request

    [authorize] of crates/ash-ops/src/authorization.rs, over the authority of [Permits]. *)

From S2P Require Import Prelude Text AsonModel AsonCodec Capability Request Response Budget Paths Store.
From S2P Require Import Governor Runtime Workspace Disk Permits Projection.

Section libraries.
Context (hash : bytes -> bytes) (keyed_hash : bytes -> bytes -> bytes).

Definition action_digest (request : Request) : result OperationError bytes :=
  target ← encode <$> map_err OE_Build (authorization_target request);
  Ok (hash (ACTION_DOMAIN ++ str_bytes target)).

Definition approval_response (request_id : Z) (code : ErrorCode) (evidence : Z)
    : result OperationError FinalResponse :=
  map_err OE_Response
    (FinalResponse_failure request_id Denied
       (mkErrorRecord code RetryApproval StAuthorize (Some evidence) None) [] None RESULT_RETAINED None).

(** [ResultStore::retain]. *)
Definition retain_result (data : bytes) : op OperationError Z :=
  su ← get_surroundings;
  spool ← ask su_spool;
  shared (fun sh =>
    match retain hash spool (su_store su) (su_store_limits su) data (sh_store sh) with
    | Ok (alias, store) => (Ok alias, with_store store sh)
    | Err e => (Err (OE_Store e), sh)
    end).

(** A call on the authority behind its lock or its counter. *)
Definition with_permits {A} (f : AuthorityState -> result AuthorizationError A * AuthorityState)
    : op AuthorizationError A :=
  shared (fun sh => let '(r, s) := f (sh_authority sh) in (r, with_authority s sh)).

Definition verify_permit (authority : PermitAuthority) (token : bytes) (session_id capabilities : Z)
    (digest : bytes) : op AuthorizationError unit :=
  now ← ask su_clock;
  poisoned ← ask su_poisoned;
  with_permits (verify keyed_hash authority now poisoned token session_id capabilities digest).

Definition challenge (authority : PermitAuthority) (session_id capabilities : Z) (digest : bytes)
    (ttl : Duration) : op AuthorizationError ApprovalChallenge :=
  now ← ask su_clock;
  '(now, expires) ← op_lift (challenge_expiry now ttl);
  counter ← with_permits take_counter;
  c ← op_lift (make_challenge keyed_hash authority session_id capabilities expires counter digest);
  poisoned ← ask su_poisoned;
  if poisoned : bool then op_fail AuPoisoned else with_permits (register_challenge now c).

(** From the missing or refused permit to the answer. *)
Definition challenge_response (policy : AuthorizationPolicy) (authority : PermitAuthority) (request : Request)
    (approval : Z) (digest : bytes) (code : ErrorCode) : op OperationError FinalResponse :=
  su ← get_surroundings;
  c ← op_map_err OE_Authorization (challenge authority (su_session su) approval digest (po_ttl policy));
  evidence ← op_lift ((fun d => str_bytes (encode d)) <$> map_err OE_Build (challenge_encode c));
  worst ← op_lift (approval_response (rq_id request) code u64_max);
  text ← op_lift (encoded worst);
  limit ← presentation_limit;
  if limit <? str_len text then op_fail OE_OutputBudget
  else
    _ ← charge worst 1;
    reference ← retain_result evidence;
    op_lift (approval_response (rq_id request) code reference).

Definition authorize (policy : AuthorizationPolicy) (request : Request)
    : op OperationError (option FinalResponse) :=
  let required := required_capabilities (rq_arguments request) in
  if negb (mask_extra required (policy_mask policy) =? 0) then op_fail OE_CapabilityDenied
  else
    let approval := Z.land required (po_approval policy) in
    if approval =? 0 then mret None
    else
      authority ← op_lift (ok_or (po_authority policy) (OE_Authorization AuInvalidPolicy));
      if negb (bool_decide (pa_policy_digest authority = po_digest policy))
      then op_fail (OE_Authorization AuInvalidPolicy)
      else
        digest ← op_lift (action_digest request);
        su ← get_surroundings;
        code ←
          match rq_permit request with
          | Some token =>
              verified ← op_try (verify_permit authority token (su_session su) approval digest);
              mret match verified with Ok _ => None | Err _ => Some PermitInvalid end
          | None => mret (Some PermitRequired)
          end;
        match code with
        | None => mret None
        | Some code =>
            response ← challenge_response policy authority request approval digest code;
            mret (Some response)
        end.

End libraries.
