(* ===== verification/WorkspaceRead.v ===== *)
(** * WorkspaceRead: reading through a workspace

    The reading half of crates/ash-platform/src/workspace.rs: a logical path is
    resolved, its target checked to lie below the root, and read or walked.  Every call
    of the system is a turn of its own, so the files may change between two of them. *)

From stdpp Require Import sorting.
From S2P Require Import Prelude Text Glob Workspace Request Disk NativeTree Projection.
From S2P Require Import ProjectionFacts.

(** ** The library's sort *)

(** [sort_unstable_by] leaves elements that compare as equal in any order. *)
Class UnstableSort : Type := sort_by : forall {A : Type}, (A -> A -> bool) -> list A -> list A.
Class UnstableSortLaws `(UnstableSort) : Prop := {
  sort_by_permutation {A} (le : A -> A -> bool) l : Permutation (sort_by le l) l;
  sort_by_sorted {A} (le : A -> A -> bool) l :
    (forall x y, le x y = true \/ le y x = true) ->
    (forall x y z, le x y = true -> le y z = true -> le x z = true) ->
    Sorted.StronglySorted (fun x y => le x y = true) (sort_by le l);
}.

(** A merge sort is one. *)
#[export] Instance merge_sort_by : UnstableSort := fun A le => merge_sort (fun x y => Is_true (le x y)).
#[export] Instance merge_sort_by_laws : UnstableSortLaws merge_sort_by.
Proof.
  split.
  - intros A le l. apply merge_sort_Permutation.
  - intros A le l Htotal Htrans.
    assert (Total (fun x y => Is_true (le x y))) by (intros x y; rewrite !Is_true_true; apply Htotal).
    assert (Transitive (fun x y => Is_true (le x y))) by (intros x y z; rewrite !Is_true_true; apply Htrans).
    pose proof (StronglySorted_merge_sort (fun x y => Is_true (le x y)) l) as Hs. unfold sort_by, merge_sort_by.
    induction Hs as [|x k _ IH Hx]; constructor; [done|]. eapply list.Forall_impl; [exact Hx|]. intros y Hy. by apply Is_true_true.
Qed.

(** The order of byte slices. *)
Definition bytes_le (a b : bytes) : bool := negb (bytes_lt b a).

(** ** Turns *)

(** A call of [std::fs], and the load of [internal_state]. *)
Definition native_call {A} (f : FileTree -> result IoKind A) : op PlatformError A := fun su st =>
  let st := others su st in
  (match f (su_tree su (pg_turn st) (w_disk (pg_world st))) with Ok a => Done a | Err e => Fail_ (PL_Io e) end, st).
Definition load_internal {E} : op E bool := fun _ st => (Done (w_internal (pg_world st)), st).

(** ** Data *)

Record ResolvedPath : Type := mkResolved { rp_logical : str; rp_native : OsString }.
Record WalkOptions : Type := mkWalkOptions { wo_max_depth : Z; wo_include_hidden : bool; wo_max_entries : Z }.
Record NativeEntry : Type := mkNativeEntry {
  ne_logical : str; ne_kind : EntryKind; ne_size : Z; ne_modified_millis : option Z }.

(** ** Resolving *)

Definition ensure_contained (root native : OsString) : result PlatformError unit :=
  if starts_with_path root native then Ok tt else Err PL_WorkspaceEscape.

Definition joined_path (root : OsString) (logical : str) : OsString :=
  if bool_decide (logical = L ".") then root
  else foldl (fun path component => push path (str_bytes component)) root (split 47 logical).

Definition resolve_existing (logical : str) : op PlatformError ResolvedPath :=
  _ ← op_lift (validate_logical logical);
  internal ← load_internal;
  _ ← op_lift (reject_reserved internal logical);
  su ← get_surroundings;
  native ← native_call (fun t => ft_canonicalize t (joined_path (su_root su) logical));
  _ ← op_lift (ensure_contained (su_root su) native);
  mret (mkResolved logical native).

Definition revalidate (path : ResolvedPath) : op PlatformError OsString :=
  su ← get_surroundings;
  native ← native_call (fun t => ft_canonicalize t (rp_native path));
  _ ← op_lift (ensure_contained (su_root su) native);
  mret native.

(** ** Reading *)

Definition read_sync (path : ResolvedPath) : op PlatformError bytes :=
  native ← revalidate path;
  native_call (fun t => ft_read t native).

Definition read_limited_sync (path : ResolvedPath) (max_bytes : Z) : op PlatformError bytes :=
  native ← revalidate path;
  metadata ← native_call (fun t => ft_metadata t native);
  if max_bytes <? fm_len metadata then op_fail (PL_InputTooLarge (fm_len metadata) max_bytes)
  else native_call (fun t => ft_read t native).

(** ** Walking *)

Definition logical_from_native (root native : OsString) : result PlatformError str :=
  relative ← ok_or (strip_path root native) PL_WorkspaceEscape;
  if bool_decide (length relative = O) then Ok (L ".")
  else
    components ← mapM (fun component => ok_or (to_str (as_os_str component)) PL_NonUtf8Path) relative;
    Ok (join 47 components).

Definition is_hidden (path : OsString) : bool :=
  match file_name path ≫= to_str with Some name => starts_with 46 name | None => false end.

Definition native_entry (logical : str) (metadata : FileMeta) : NativeEntry :=
  mkNativeEntry logical (fm_kind metadata)
    (if bool_decide (fm_kind metadata = EkFile) then fm_len metadata else 0) (fm_modified metadata).

(** The names of a directory, or the first error among them. *)
Definition read_dir_names (directory : OsString) : op PlatformError (list OsString) :=
  entries ← native_call (fun t => ft_read_dir t directory);
  op_lift (map_err PL_Io (mapM id entries)).

(** [for child in children]. *)
Fixpoint each_child {E A} (visit : OsString -> A -> op E A) (children : list OsString) (output : A) : op E A :=
  match children with
  | [] => mret output
  | child :: children => output ← visit child output; each_child visit children output
  end.

Section walk.
Context `{sort : UnstableSort} (options : WalkOptions).

(** [walk_inner]; [remaining] is how many levels are left below [depth]. *)
Fixpoint walk_inner (remaining : nat) (native : OsString) (depth : Z) (output : list NativeEntry)
    : op PlatformError (list NativeEntry) :=
  su ← get_surroundings;
  internal ← load_internal;
  if (depth =? 1) && internal && bool_decide (file_name native = Some (str_bytes (L ".ash"))) then mret output
  else
    metadata ← native_call (fun t => ft_symlink_metadata t native);
    if (0 <? depth) && is_hidden native && negb (wo_include_hidden options) then mret output
    else if wo_max_entries options <=? len output then op_fail (PL_EntryLimit (wo_max_entries options))
    else
      logical ← op_lift (logical_from_native (su_root su) native);
      let output := output ++ [native_entry logical metadata] in
      if negb (bool_decide (fm_kind metadata = EkDirectory)) then mret output
      else
        match remaining with
        | O => mret output
        | S remaining =>
            verified ← native_call (fun t => ft_canonicalize t native);
            _ ← op_lift (ensure_contained (su_root su) verified);
            names ← read_dir_names verified;
            each_child (fun name output => walk_inner remaining (push verified name) (depth + 1) output)
              (sort_by bytes_le names) output
        end.

Definition walk (root : ResolvedPath) : op PlatformError (list NativeEntry) :=
  if wo_max_entries options =? 0 then op_fail (PL_EntryLimit 0)
  else
    native ← revalidate root;
    entries ← walk_inner (Z.to_nat (wo_max_depth options)) native 0 [];
    mret (sort_by (fun left right => bytes_le (str_bytes (ne_logical left)) (str_bytes (ne_logical right))) entries).
End walk.

(** * the reads of a workspace stay below its root *)

(** ** The order of byte slices *)

Lemma bytes_le_total a b : bytes_le a b = true \/ bytes_le b a = true.
Proof.
  unfold bytes_le. destruct (bytes_lt b a) eqn:E1; [right|by left]. destruct (bytes_lt a b) eqn:E2; [|done].
  pose proof (bytes_lt_trans _ _ _ E1 E2) as H. by rewrite bytes_lt_irrefl in H.
Qed.

Lemma bytes_le_eq a b : bytes_le a b = true -> bytes_le b a = true -> a = b.
Proof. unfold bytes_le. rewrite !negb_true_iff. intros H1 H2. by apply bytes_lt_total. Qed.

Lemma bytes_le_trans a b c : bytes_le a b = true -> bytes_le b c = true -> bytes_le a c = true.
Proof.
  unfold bytes_le. rewrite !negb_true_iff. intros Hab Hbc. destruct (bytes_lt c a) eqn:E; [|done]. exfalso.
  destruct (bytes_lt a b) eqn:Eab; [by rewrite (bytes_lt_trans _ _ _ E Eab) in Hbc|].
  assert (a = b) as -> by by apply bytes_lt_total. congruence.
Qed.

(** ** Successful computations *)

Lemma op_bind_done {E A B} (m : op E A) (k : A -> op E B) su st b st' :
  (m ≫= k) su st = (Done b, st') -> exists a st1, m su st = (Done a, st1) /\ k a su st1 = (Done b, st').
Proof. unfold mbind, op_bind. destruct (m su st) as [[a|e|] st1]; naive_solver. Qed.

Lemma op_lift_done {E A} (r : result E A) su st a st' : op_lift r su st = (Done a, st') -> r = Ok a /\ st' = st.
Proof. destruct r; [|done]. by intros [= <- <-]. Qed.

Lemma op_map_err_done {E F A} (f : E -> F) (m : op E A) su st a st' :
  op_map_err f m su st = (Done a, st') -> m su st = (Done a, st').
Proof. unfold op_map_err. destruct (m su st) as [[]]; naive_solver. Qed.

Ltac op_inv := repeat match goal with
  | H : (_ ≫= _) ?su ?st = (Done _, _) |- _ => apply op_bind_done in H as (? & ? & ? & H)
  | H : op_lift _ _ _ = (Done _, _) |- _ => apply op_lift_done in H as [? ->]
  | H : get_surroundings _ _ = (Done _, _) |- _ => injection H as <- <-
  | H : load_internal _ _ = (Done _, _) |- _ => injection H as <- <-
  | H : mret _ _ _ = (Done _, _) |- _ => injection H as <- <-
  | H : op_fail _ _ _ = (Done _, _) |- _ => discriminate H
  | x : unit |- _ => destruct x
  end.

(** ** Between two states *)

(** The states a run passes through: the others may always act, and whether ash's own
    directory is claimed does not change. *)
Class Passage (su : Surroundings) (R : Progress -> Progress -> Prop) : Prop := mkPassage {
  passage_preorder :: PreOrder R;
  passage_others st : R st (others su st);
  passage_internal st st' : R st st' -> w_internal (pg_world st') = w_internal (pg_world st);
}.

(** Nothing but the others acts. *)
Definition waits (su : Surroundings) : Progress -> Progress -> Prop := rtc (fun st st' => st' = others su st).

Lemma others_internal su st : w_internal (pg_world (others su st)) = w_internal (pg_world st).
Proof. unfold others. by destruct (su_others su _ _ _). Qed.

#[export] Instance waits_passage su : Passage su (waits su).
Proof.
  split; [unfold waits; apply _|intros st; by apply rtc_once|].
  intros st st' H. induction H as [|a b c -> _ IH]; [done|]. by rewrite IH, others_internal.
Qed.

(** From one state to another through known passages. *)
Ltac passes := first [assumption | reflexivity | etrans; [eassumption|passes]].

Section facts.
Context (su : Surroundings) (R : Progress -> Progress -> Prop) `{passage : !Passage su R}.

(** What the system answered between the two states. *)
Definition answered {A} (st st' : Progress) (f : FileTree -> result IoKind A) (a : A) : Prop :=
  exists now, R st now /\ R now st' /\ f (su_tree su (pg_turn now) (w_disk (pg_world now))) = Ok a.

Lemma answered_within {A} st1 st2 st3 st4 (f : FileTree -> result IoKind A) a :
  R st1 st2 -> answered st2 st3 f a -> R st3 st4 -> answered st1 st4 f a.
Proof. intros H1 (now & H2 & H3 & H) H4. exists now. split_and!; [by etrans..|done]. Qed.

Lemma native_call_done {A} (f : FileTree -> result IoKind A) st a st' :
  native_call f su st = (Done a, st') -> R st st' /\ answered st st' f a.
Proof.
  unfold native_call. destruct (f _) as [x|] eqn:E; [|done]. intros [= <- <-].
  pose proof (passage_others st) as H. split; [done|]. by exists (others su st).
Qed.

Lemma ensure_contained_ok native : ensure_contained (su_root su) native = Ok tt <-> starts_with_path (su_root su) native = true.
Proof. unfold ensure_contained. by destruct (starts_with_path _ _). Qed.

(** A canonical target below the root. *)
Definition confined (st st' : Progress) (path native : OsString) : Prop :=
  answered st st' (fun t => ft_canonicalize t path) native /\ starts_with_path (su_root su) native = true.

Lemma confined_within st1 st2 st3 st4 path native :
  R st1 st2 -> confined st2 st3 path native -> R st3 st4 -> confined st1 st4 path native.
Proof. intros H1 [H2 H3] H4. split; [by eapply answered_within|done]. Qed.

Lemma revalidate_confined path st native st' :
  revalidate path su st = (Done native, st') -> R st st' /\ confined st st' (rp_native path) native.
Proof.
  unfold revalidate. intros H. op_inv. rename select (native_call _ _ _ = _) into Hc. rename select (ensure_contained _ _ = _) into He.
  apply native_call_done in Hc as [HR Ha]. split; [done|]. split; [done|by apply ensure_contained_ok].
Qed.

Lemma resolve_existing_confined logical st path st' :
  resolve_existing logical su st = (Done path, st') ->
  R st st' /\ rp_logical path = logical /\ validate_logical logical = Ok tt
  /\ reject_reserved (w_internal (pg_world st)) logical = Ok tt
  /\ confined st st' (joined_path (su_root su) logical) (rp_native path).
Proof.
  unfold resolve_existing. intros H. op_inv. rename select (native_call _ _ _ = _) into Hc. rename select (ensure_contained _ _ = _) into He.
  apply native_call_done in Hc as [HR Ha]. split_and!; [done..|]. split; [done|by apply ensure_contained_ok].
Qed.

Lemma read_limited_confined path max st b st' :
  read_limited_sync path max su st = (Done b, st') ->
  exists native metadata, confined st st' (rp_native path) native
    /\ answered st st' (fun t => ft_metadata t native) metadata /\ fm_len metadata <= max
    /\ answered st st' (fun t => ft_read t native) b.
Proof.
  unfold read_limited_sync. intros H. apply op_bind_done in H as (native & st1 & [R1 Hr]%revalidate_confined & H).
  apply op_bind_done in H as (metadata & st2 & [R2 Hm]%native_call_done & H). destruct (Z.ltb_spec max (fm_len metadata)); [done|].
  apply native_call_done in H as [R3 H]. exists native, metadata. split_and!; [..|done|].
  - eapply confined_within; [reflexivity|exact Hr|by etrans].
  - by eapply answered_within.
  - eapply answered_within; [|exact H|reflexivity]. by etrans.
Qed.

(** ** Walks *)

Context `{sort : UnstableSort} (options : WalkOptions).

(** A name that a walk looked at, how far below the start, and what the system said of it. *)
Record Visit : Type := mkVisit { vi_native : OsString; vi_depth : Z; vi_meta : FileMeta }.

Definition shows_visit (v : Visit) (e : NativeEntry) : Prop :=
  logical_from_native (su_root su) (vi_native v) = Ok (ne_logical e) /\ e = native_entry (ne_logical e) (vi_meta v).

(** Hidden names that were not asked for, and ash's own directory. *)
Definition left_out (internal : bool) (native : OsString) (depth : Z) : Prop :=
  depth = 1 /\ internal = true /\ file_name native = Some (str_bytes (L ".ash"))
  \/ 0 < depth /\ is_hidden native = true /\ wo_include_hidden options = false.

(** The names in a directory, which stands at a canonical path below the root. *)
Definition lists (st st' : Progress) (directory verified : OsString) (names : list OsString) : Prop :=
  confined st st' directory verified /\ answered st st' (fun t => ft_read_dir t verified) (Ok <$> names).

(** The visits of a walk from the given starts: each name was looked at, and is a start or
    one of the names of a directory that was visited; every start and every name of a
    visited directory above the depth limit is visited or left out. *)
Record walked (st st' : Progress) (starts : list OsString) (depth : Z) (seen : list Visit) : Prop := mkWalked {
  wk_looked : forall v, v ∈ seen -> answered st st' (fun t => ft_symlink_metadata t (vi_native v)) (vi_meta v)
    /\ depth <= vi_depth v <= Z.max 0 (wo_max_depth options)
    /\ ~ left_out (w_internal (pg_world st)) (vi_native v) (vi_depth v);
  wk_below : forall v, v ∈ seen -> (vi_native v ∈ starts /\ vi_depth v = depth)
    \/ exists p verified names name, p ∈ seen /\ fm_kind (vi_meta p) = EkDirectory
         /\ lists st st' (vi_native p) verified names /\ name ∈ names
         /\ vi_native v = push verified name /\ vi_depth v = vi_depth p + 1;
  wk_starts : forall native, native ∈ starts ->
    left_out (w_internal (pg_world st)) native depth \/ exists v, v ∈ seen /\ vi_native v = native /\ vi_depth v = depth;
  wk_names : forall p, p ∈ seen -> fm_kind (vi_meta p) = EkDirectory -> vi_depth p < Z.max 0 (wo_max_depth options) ->
    exists verified names, lists st st' (vi_native p) verified names
      /\ forall name, name ∈ names -> left_out (w_internal (pg_world st)) (push verified name) (vi_depth p + 1)
           \/ exists v, v ∈ seen /\ vi_native v = push verified name /\ vi_depth v = vi_depth p + 1;
}.

Lemma lists_within st1 st2 st3 st4 directory verified names :
  R st1 st2 -> lists st2 st3 directory verified names -> R st3 st4 -> lists st1 st4 directory verified names.
Proof. intros H1 [H2 H3] H4. split; [by eapply confined_within|by eapply answered_within]. Qed.

Lemma walked_within st1 st2 st3 st4 starts depth seen :
  R st1 st2 -> walked st2 st3 starts depth seen -> R st3 st4 -> walked st1 st4 starts depth seen.
Proof.
  intros H1 [W1 W2 W3 W4] H4. pose proof (passage_internal _ _ H1) as Hi. rewrite Hi in W1, W3, W4. split.
  - intros v Hv. destruct (W1 v Hv) as (? & ? & ?). split_and!; [by eapply answered_within|lia|lia|done].
  - intros v Hv. destruct (W2 v Hv) as [?|(p & verified & names & name & Hp & Hk & Hl & Hrest)]; [by left|right].
    exists p, verified, names, name. split_and!; [done|done|by eapply lists_within|apply Hrest|apply Hrest|apply Hrest].
  - done.
  - intros p Hp Hk Hd. destruct (W4 p Hp Hk Hd) as (verified & names & ? & ?). exists verified, names. split; [by eapply lists_within|done].
Qed.

Lemma walked_nil st st' depth : walked st st' [] depth [].
Proof. split; intros ? H; by apply elem_of_nil in H. Qed.

Lemma walked_app st st' starts1 starts2 depth seen1 seen2 :
  walked st st' starts1 depth seen1 -> walked st st' starts2 depth seen2 ->
  walked st st' (starts1 ++ starts2) depth (seen1 ++ seen2).
Proof.
  intros [A1 A2 A3 A4] [B1 B2 B3 B4]. split.
  - intros v [H|H]%list.elem_of_app; auto.
  - intros v [H|H]%list.elem_of_app; [destruct (A2 v H) as [[? ?]|(p & ve & ns & n & ? & ?)]|destruct (B2 v H) as [[? ?]|(p & ve & ns & n & ? & ?)]];
      [left; split; [set_solver|done]|right; exists p, ve, ns, n; split; [set_solver|done]|left; split; [set_solver|done]|right; exists p, ve, ns, n; split; [set_solver|done]].
  - intros x [H|H]%list.elem_of_app; [destruct (A3 _ H) as [?|(v & ? & ?)]|destruct (B3 _ H) as [?|(v & ? & ?)]];
      [by left|right; exists v; split; [set_solver|done]|by left|right; exists v; split; [set_solver|done]].
  - intros p [H|H]%list.elem_of_app Hk Hd; [destruct (A4 p H Hk Hd) as (ve & ns & ? & Hn)|destruct (B4 p H Hk Hd) as (ve & ns & ? & Hn)];
      exists ve, ns; (split; [done|]); intros name Hname; destruct (Hn name Hname) as [?|(v & ? & ?)];
      [by left|right; exists v; split; [set_solver|done]|by left|right; exists v; split; [set_solver|done]].
Qed.

(** A visit, and those of the names below it. *)
Lemma walked_visit st st' v verified names seen :
  answered st st' (fun t => ft_symlink_metadata t (vi_native v)) (vi_meta v) ->
  0 <= vi_depth v <= Z.max 0 (wo_max_depth options) -> ~ left_out (w_internal (pg_world st)) (vi_native v) (vi_depth v) ->
  (fm_kind (vi_meta v) = EkDirectory /\ vi_depth v < Z.max 0 (wo_max_depth options) /\ lists st st' (vi_native v) verified names
   \/ names = [] /\ (fm_kind (vi_meta v) = EkDirectory -> Z.max 0 (wo_max_depth options) <= vi_depth v)) ->
  walked st st' (push verified <$> names) (vi_depth v + 1) seen ->
  walked st st' [vi_native v] (vi_depth v) (v :: seen).
Proof.
  intros Hl Hd Hn Hc [W1 W2 W3 W4]. split.
  - intros x [->|Hx]%elem_of_cons; [by split_and!; try lia|]. destruct (W1 x Hx) as (? & ? & ?). split_and!; [done|lia|lia|done].
  - intros x [->|Hx]%elem_of_cons; [left; split; [by left|done]|right]. destruct (W2 x Hx) as [[Hs Hdx]|(p & ve & ns & n & ? & ?)].
    + apply list_elem_of_fmap in Hs as (name & Hx' & Hname). destruct Hc as [(Hk & _ & Hls)|[-> _]]; [|by apply elem_of_nil in Hname].
      exists v, verified, names, name. split_and!; try done. by left.
    + exists p, ve, ns, n. split; [by right|done].
  - intros native ->%list_elem_of_singleton. right. exists v. split; [by left|done].
  - intros p [->|Hp]%elem_of_cons Hk Hdp.
    + destruct Hc as [(_ & _ & Hls)|[_ Hc]]; [|specialize (Hc Hk); lia]. exists verified, names. split; [done|].
      intros name Hname. destruct (W3 (push verified name)) as [?|(x & ? & ?)]; [apply list_elem_of_fmap; by exists name|by left|].
      right. exists x. split; [by right|done].
    + destruct (W4 p Hp Hk Hdp) as (ve & ns & ? & Hns). exists ve, ns. split; [done|]. intros name Hname.
      destruct (Hns name Hname) as [?|(x & ? & ?)]; [by left|right; exists x; split; [by right|done]].
Qed.

(** What a step of the walk adds to the output. *)
Definition adds (st st' : Progress) (starts : list OsString) (depth : Z) (output output' : list NativeEntry) : Prop :=
  R st st' /\ exists seen found, output' = output ++ found /\ Forall2 shows_visit seen found
    /\ walked st st' starts depth seen /\ (found <> [] -> len output' <= wo_max_entries options).

Lemma adds_nothing st st' native depth output :
  R st st' -> left_out (w_internal (pg_world st)) native depth -> adds st st' [native] depth output output.
Proof.
  intros HR Hl. split; [done|]. exists [], []. rewrite app_nil_r. split_and!; [done|constructor| |done].
  split; try (by intros ? H%elem_of_nil). intros x ->%list_elem_of_singleton. by left.
Qed.

Lemma each_child_adds (visit : OsString -> list NativeEntry -> op PlatformError (list NativeEntry)) verified depth names :
  (forall name output st output' st', visit name output su st = (Done output', st') ->
     adds st st' [push verified name] depth output output') ->
  forall output st output' st', each_child visit names output su st = (Done output', st') ->
    adds st st' (push verified <$> names) depth output output'.
Proof.
  intros Hv. induction names as [|name names IH]; intros output st output' st' H; cbn [each_child] in H.
  { op_inv. split; [reflexivity|]. exists [], []. rewrite app_nil_r. split_and!; [done|constructor|apply walked_nil|done]. }
  apply op_bind_done in H as (out & st1 & (R1 & seen1 & found1 & -> & F1 & W1 & L1)%Hv & (R2 & seen2 & found2 & -> & F2 & W2 & L2)%IH).
  split; [by etrans|]. exists (seen1 ++ seen2), (found1 ++ found2). split_and!; [by rewrite (assoc_L (++))|by apply Forall2_app| |].
  - rewrite fmap_cons. apply (walked_app _ _ [push verified name]); [eapply walked_within; [reflexivity|exact W1|exact R2]|].
    eapply walked_within; [exact R1|exact W2|reflexivity].
  - intros Hne. destruct found2 as [|e found2]; [|by apply L2]. rewrite app_nil_r in *. by apply L1.
Qed.

Lemma adds_starts st st' starts starts' depth output output' :
  Permutation starts starts' -> adds st st' starts depth output output' -> adds st st' starts' depth output output'.
Proof.
  intros Hp (HR & seen & found & H1 & H2 & [W1 W2 W3 W4] & H4). split; [done|]. exists seen, found. split_and!; try done.
  split; [done| | |done].
  - intros v Hv. destruct (W2 v Hv) as [[? ?]|?]; [left; by rewrite <- Hp|by right].
  - intros x Hx. apply W3. by rewrite Hp.
Qed.

Lemma names_done directory st names st' :
  read_dir_names directory su st = (Done names, st') ->
  R st st' /\ answered st st' (fun t => ft_read_dir t directory) (Ok <$> names).
Proof.
  unfold read_dir_names. intros H. apply op_bind_done in H as (entries & st1 & [R1 H1]%native_call_done & H).
  apply op_lift_done in H as [H%map_err_ok%mapM_ok ->]. split; [done|]. replace (Ok <$> names) with entries; [done|].
  clear H1. induction H as [|x y l k Hx _ IH]; [done|]. rewrite fmap_cons. cbn in Hx. by rewrite IH, Hx.
Qed.

Lemma walk_inner_adds `{laws : !UnstableSortLaws sort} remaining : forall native depth output st output' st',
  0 <= depth -> depth + Z.of_nat remaining = Z.max 0 (wo_max_depth options) ->
  walk_inner options remaining native depth output su st = (Done output', st') ->
  adds st st' [native] depth output output'.
Proof.
  assert (forall native depth output st metadata st1 logical,
    native_call (fun t => ft_symlink_metadata t native) su st = (Done metadata, st1) ->
    0 <= depth <= Z.max 0 (wo_max_depth options) ->
    (depth =? 1) && w_internal (pg_world st) && bool_decide (file_name native = Some (str_bytes (L ".ash"))) = false ->
    (0 <? depth) && is_hidden native && negb (wo_include_hidden options) = false ->
    (wo_max_entries options <=? len output) = false ->
    logical_from_native (su_root su) native = Ok logical ->
    forall verified names output' st',
      (fm_kind metadata = EkDirectory /\ depth < Z.max 0 (wo_max_depth options) /\ lists st1 st' native verified names
       \/ names = [] /\ (fm_kind metadata = EkDirectory -> Z.max 0 (wo_max_depth options) <= depth)) ->
      adds st1 st' (push verified <$> names) (depth + 1) (output ++ [native_entry logical metadata]) output' ->
      adds st st' [native] depth output output') as Hstep.
  { intros native depth output st metadata st1 logical [R1 Hm]%native_call_done Hd Hash Hhid Hmax%Z.leb_gt Hlog verified names output' st' Hc
      (R2 & seen & found & -> & HF & HW & Hlen). split; [by etrans|].
    exists (mkVisit native depth metadata :: seen), (native_entry logical metadata :: found). split_and!.
    - by rewrite <- (assoc_L (++)).
    - constructor; [by split|done].
    - apply (walked_visit st st' (mkVisit native depth metadata) verified names); cbn.
      + eapply answered_within; [|exact Hm|]; passes.
      + done.
      + rewrite !andb_false_iff, Z.eqb_neq, bool_decide_eq_false in Hash. rewrite !andb_false_iff, Z.ltb_ge, negb_false_iff in Hhid.
        intros [(Hd1 & Hi & Hf)|(Hpos & Hh & Hi)]; [destruct Hash as [[?|?]|?]; [lia|congruence|done]|].
        destruct Hhid as [[?|?]|?]; [lia|congruence..].
      + destruct Hc as [(? & ? & ?)|?]; [left|by right]. split_and!; [done..|]. eapply lists_within; [|eassumption|]; passes.
      + eapply walked_within; [exact R1|exact HW|reflexivity].
    - intros _. destruct found as [|e found]; [|by apply Hlen]. rewrite app_nil_r, len_app, len_cons, len_nil. lia. }
  assert (forall native depth st, (depth =? 1) && w_internal (pg_world st) && bool_decide (file_name native = Some (str_bytes (L ".ash"))) = true ->
    left_out (w_internal (pg_world st)) native depth) as Hash.
  { intros native depth st H. left. rewrite !andb_true_iff, Z.eqb_eq, bool_decide_eq_true in H. naive_solver. }
  assert (forall native depth internal, (0 <? depth) && is_hidden native && negb (wo_include_hidden options) = true ->
    left_out internal native depth) as Hhid.
  { intros native depth internal H. right. rewrite !andb_true_iff, Z.ltb_lt, negb_true_iff in H. naive_solver. }
  assert (forall st depth output, adds st st [] (depth + 1) output output) as Hend.
  { intros st depth output. split; [reflexivity|]. exists [], []. rewrite app_nil_r. split_and!; [done|constructor|apply walked_nil|done]. }
  induction remaining as [|remaining IH]; intros native depth output st output' st' Hd Hr H; cbn [walk_inner] in H;
    apply op_bind_done in H as (? & ? & Hsu & H); injection Hsu as <- <-;
    apply op_bind_done in H as (? & ? & Hin & H); injection Hin as <- <-;
    (destruct (_ && _ && _) eqn:E1; [op_inv; apply adds_nothing; [reflexivity|by apply Hash]|]);
    apply op_bind_done in H as (metadata & st1 & Hm & H);
    (destruct ((0 <? depth) && _ && _) eqn:E2; [op_inv; apply adds_nothing; [by apply native_call_done in Hm as [? _]|by apply Hhid]|]);
    (destruct (_ <=? _) eqn:E3; [done|]);
    apply op_bind_done in H as (logical & st2 & [Hlog ->]%op_lift_done & H); cbv zeta in H.
  - assert (H' : st' = st1 /\ output' = output ++ [native_entry logical metadata]) by (destruct (negb (bool_decide _)); by op_inv).
    destruct H' as [-> ->]. eapply (Hstep native depth output st metadata st1 logical Hm ltac:(lia) E1 E2 E3 Hlog [] []); [|apply Hend].
    right. split; [done|]. lia.
  - case_bool_decide as Hk; cbn [negb] in H.
    + apply op_bind_done in H as (verified & st3 & [R1 Hv]%native_call_done & H).
      apply op_bind_done in H as ([] & st4 & [Hc ->]%op_lift_done & H). apply ensure_contained_ok in Hc.
      apply op_bind_done in H as (names & st5 & [R2 Hn]%names_done & H).
      apply each_child_adds with (verified := verified) (depth := depth + 1) in H as Ha;
        [|intros name out s out' s' Hw; apply (IH _ (depth + 1)) in Hw; [done|lia|lia]].
      apply (adds_starts _ _ _ (push verified <$> names)) in Ha; [|by apply fmap_Permutation, sort_by_permutation].
      eapply (Hstep native depth output st metadata st1 logical Hm ltac:(lia) E1 E2 E3 Hlog verified names).
      * left. split_and!; [done|lia|]. destruct Ha as [R3 _]. split.
        -- split; [|done]. eapply answered_within; [reflexivity|exact Hv|by etrans].
        -- eapply answered_within; [|exact Hn|]; passes.
      * destruct Ha as (R3 & seen & found & H1 & H2 & H3 & H4). split; [etrans; [exact R1|by etrans]|].
        exists seen, found. split_and!; try done. eapply walked_within; [|exact H3|reflexivity]. by etrans.
    + op_inv. eapply (Hstep native depth output st metadata _ logical Hm ltac:(lia) E1 E2 E3 Hlog [] []); [|apply Hend].
      by right.
Qed.

(** What a walk found: its visits from the canonical place of its root, in the order of the
    names. *)
Definition walk_found (st st' : Progress) (root : ResolvedPath) (entries : list NativeEntry) : Prop :=
  exists native seen found,
    confined st st' (rp_native root) native
    /\ walked st st' [native] 0 seen /\ Forall2 shows_visit seen found /\ Permutation found entries
    /\ len entries <= wo_max_entries options
    /\ Sorted.StronglySorted (fun e e' => bytes_le (str_bytes (ne_logical e)) (str_bytes (ne_logical e')) = true) entries.

Lemma walk_found_within st1 st2 st3 st4 root entries :
  R st1 st2 -> walk_found st2 st3 root entries -> R st3 st4 -> walk_found st1 st4 root entries.
Proof.
  intros H1 (native & seen & found & H2 & H3 & H4) H5. exists native, seen, found.
  split; [by eapply confined_within|]. split; [by eapply walked_within|done].
Qed.

Lemma native_walk_spec `{laws : !UnstableSortLaws sort} root st entries st' :
  walk options root su st = (Done entries, st') -> R st st' /\ walk_found st st' root entries.
Proof.
  unfold walk. intros H. destruct (Z.eqb_spec (wo_max_entries options) 0) as [|Hz]; [done|].
  apply op_bind_done in H as (native & st1 & [R1 Hr]%revalidate_confined & H).
  apply op_bind_done in H as (found & st2 & Hw & H). injection H as <- <-.
  apply walk_inner_adds in Hw as (R2 & seen & found' & -> & HF & HW & Hlen); [|done|lia]. rewrite app_nil_l in *. cbn [app] in *.
  split; [by etrans|]. set (le := fun left right => _). pose proof (sort_by_permutation le found') as Hp.
  exists native, seen, found'.
  split_and!; [eapply confined_within; [|exact Hr|]; passes|eapply walked_within; [|exact HW|]; passes|done|by symmetry| |].
  - unfold len. rewrite Hp. destruct (decide (found' = [])) as [->|Hne]; [|by apply Hlen].
    exfalso. inversion HF; subst. destruct (wk_starts _ _ _ _ _ HW native) as [Hl|(v & Hv & _)]; [by left| |by apply elem_of_nil in Hv].
    destruct Hl as [(? & _)|(? & _)]; lia.
  - apply sort_by_sorted; [intros x y; apply bytes_le_total|intros x y z; apply bytes_le_trans].
Qed.

(** Every entry is a name below the root, as the system described it. *)
Lemma walk_found_entry st st' root entries e :
  walk_found st st' root entries -> e ∈ entries ->
  exists v, answered st st' (fun t => ft_symlink_metadata t (vi_native v)) (vi_meta v) /\ shows_visit v e
    /\ starts_with_path (su_root su) (vi_native v) = true.
Proof.
  intros (native & seen & found & _ & HW & HF & Hp & _) He. rewrite <- Hp in He. apply list_elem_of_lookup_1 in He as [i Hi].
  destruct (Forall2_lookup_r _ _ _ _ _ HF Hi) as (v & Hv & Hs). exists v. apply list_elem_of_lookup_2 in Hv.
  destruct (wk_looked _ _ _ _ _ HW v Hv) as (H & _). split_and!; [done..|]. destruct Hs as [Hl _].
  unfold logical_from_native in Hl. apply bind_ok in Hl as (relative & Hs%ok_or_ok & _). unfold starts_with_path. by rewrite Hs.
Qed.

End facts.

(** A fact about a part of a run, as one about a longer part. *)
Ltac within H := match type of H with
  | answered ?su ?R _ _ _ _ => eapply (answered_within su R); [|exact H|]; passes
  | confined ?su ?R _ _ _ _ => eapply (confined_within su R); [|exact H|]; passes
  | walk_found ?su ?R _ _ _ _ _ => eapply (walk_found_within su R); [|exact H|]; passes
  end.
