(* ===== verification/Semantic.v ===== *)
(** * Semantic: the read, list and search services

    crates/ash-ops/src/semantic.rs on a Unix target.  A provider of files is an
    interface, implemented by the workspace and by the human's native file system; the
    services run over it on the compute pool, or serially.  The [regex] crate is an
    interface too. *)

From S2P Require Import Prelude Text Glob AsonModel Capability Request Workspace Manifest Disk.
From S2P Require Import Mutation NativeTree Governor Projection WorkspaceRead.

Definition MAX_READ_FILE_BYTES : Z := 128 * 1024 * 1024.
Definition MAX_LIST_ENTRIES : Z := 1000000.
Definition MAX_SEARCH_FILE_BYTES : Z := 64 * 1024 * 1024.
Definition MAX_SEARCH_MATCHES : Z := 1000000.
Definition MAX_MATCHES_PER_FILE : Z := 100000.
Definition MAX_SEARCH_ENTRIES : Z := 1000000.

(** ** Data *)

Record SemanticPath : Type := mkSemanticPath { sp_path : OsString; sp_stable_sort_key : bytes }.
#[export] Instance SemanticPath_eq_dec : EqDecision SemanticPath.
Proof. solve_decision. Defined.

Inductive SemanticEntryKind : Type := SkFile | SkDirectory | SkSymlink | SkOther.
#[export] Instance SemanticEntryKind_eq_dec : EqDecision SemanticEntryKind.
Proof. solve_decision. Defined.

Record SemanticEntry : Type := mkSemanticEntry {
  sn_path : SemanticPath; sn_kind : SemanticEntryKind; sn_size : Z; sn_modified_millis : option Z }.

Record SemanticWalkOptions : Type := mkSemanticWalk {
  sw_max_depth : Z; sw_include_hidden : bool; sw_max_entries : Z }.

Inductive SemanticReadMode : Type := SmBytes | SmLines.
#[export] Instance SemanticReadMode_eq_dec : EqDecision SemanticReadMode.
Proof. solve_decision. Defined.

Record ReadQuery : Type := mkReadQuery {
  qr_paths : list OsString; qr_mode : SemanticReadMode; qr_offset : Z; qr_length : Z }.
Record SemanticRead : Type := mkSemanticRead {
  sr_path : SemanticPath; sr_digest : str; sr_bytes : bytes; sr_offset : Z; sr_length : Z }.

Inductive SemanticListFilter : Type := FilterAll | FilterFiles | FilterDirectories.
Record ListQuery : Type := mkListQuery {
  ql_paths : list OsString; ql_depth : Z; ql_include_hidden : bool; ql_filter : SemanticListFilter }.

Inductive SemanticSearchPattern : Type := LiteralPattern | RegexPattern.
#[export] Instance SemanticSearchPattern_eq_dec : EqDecision SemanticSearchPattern.
Proof. solve_decision. Defined.
Record SearchQuery : Type := mkSearchQuery {
  qs_query : str; qs_paths : list OsString; qs_pattern : SemanticSearchPattern;
  qs_case_insensitive : bool; qs_include_hidden : bool }.
Record SemanticSearchMatch : Type := mkSemanticMatch {
  ma_path : SemanticPath; ma_line : Z; ma_column : Z; ma_text : str }.
#[export] Instance SemanticSearchMatch_eq_dec : EqDecision SemanticSearchMatch.
Proof. solve_decision. Defined.
Record SemanticSearchResult : Type := mkSearchResult {
  sx_matches : list SemanticSearchMatch; sx_normalized_text : bool; sx_partial : bool }.

Record SemanticLimits : Type := mkSemanticLimits {
  sl_max_read_file_bytes : Z; sl_max_list_entries : Z; sl_max_search_file_bytes : Z;
  sl_max_search_matches : Z; sl_max_matches_per_file : Z; sl_max_search_entries : Z }.
Definition SemanticLimits_default : SemanticLimits :=
  mkSemanticLimits MAX_READ_FILE_BYTES MAX_LIST_ENTRIES MAX_SEARCH_FILE_BYTES MAX_SEARCH_MATCHES
    MAX_MATCHES_PER_FILE MAX_SEARCH_ENTRIES.

(** ** Providers *)

Class SemanticFileSystem : Type := {
  Resolved : Type;
  fs_resolve_existing : OsString -> op SemanticError Resolved;
  fs_semantic_path : Resolved -> SemanticPath;
  fs_read_limited : Resolved -> Z -> op SemanticError bytes;
  fs_walk : Resolved -> SemanticWalkOptions -> op SemanticError (list SemanticEntry);
}.

Definition platform {A} : op PlatformError A -> op SemanticError A := op_map_err SmPlatform.

(** *** The workspace *)

Definition semantic_kind (kind : EntryKind) : SemanticEntryKind :=
  match kind with
  | EkFile => SkFile | EkDirectory => SkDirectory | EkSymlink => SkSymlink | EkOther => SkOther
  end.

Definition logical_path (logical : str) : SemanticPath := mkSemanticPath (str_bytes logical) (str_bytes logical).

Definition workspace_entry (entry : NativeEntry) : SemanticEntry :=
  mkSemanticEntry (logical_path (ne_logical entry)) (semantic_kind (ne_kind entry)) (ne_size entry)
    (ne_modified_millis entry).

Definition workspace_walk `{sort : UnstableSort} (root : ResolvedPath) (options : SemanticWalkOptions)
    : op PlatformError (list SemanticEntry) :=
  entries ← walk (mkWalkOptions (sw_max_depth options) (sw_include_hidden options) (sw_max_entries options)) root;
  mret (workspace_entry <$> entries).

Definition workspace_resolve (path : OsString) : op PlatformError ResolvedPath :=
  logical ← op_lift (ok_or (to_str path) PL_NonUtf8Path);
  resolve_existing logical.

#[export] Instance workspace_filesystem `{sort : UnstableSort} : SemanticFileSystem := {|
  Resolved := ResolvedPath;
  fs_resolve_existing path := platform (workspace_resolve path);
  fs_semantic_path path := logical_path (rp_logical path);
  fs_read_limited path max_bytes := platform (read_limited_sync path max_bytes);
  fs_walk root options := platform (workspace_walk root options);
|}.

(** *** The native file system *)

Definition native_path_sort_key (path : OsString) : bytes := path.
Definition native_path (path : OsString) : SemanticPath := mkSemanticPath path (native_path_sort_key path).

Definition native_hidden (path : OsString) : bool :=
  match file_name path with Some name => starts_with 46 name | None => false end.

Definition NativeFileSystem_new (cwd : OsString) : op PlatformError OsString :=
  cwd ← native_call (fun t => ft_canonicalize t cwd);
  metadata ← native_call (fun t => ft_metadata t cwd);
  if negb (bool_decide (fm_kind metadata = EkDirectory)) then op_fail PL_InvalidWorkspace else mret cwd.

Definition native_resolve (cwd path : OsString) : op PlatformError OsString :=
  let path := if is_absolute path then path else push cwd path in
  native_call (fun t => ft_canonicalize t path).

Definition native_read_limited (path : OsString) (max_bytes : Z) : op PlatformError bytes :=
  metadata ← native_call (fun t => ft_metadata t path);
  if max_bytes <? fm_len metadata then op_fail (PL_InputTooLarge (fm_len metadata) max_bytes)
  else native_call (fun t => ft_read t path).

Definition native_file (path : OsString) (metadata : FileMeta) : SemanticEntry :=
  mkSemanticEntry (native_path path) (semantic_kind (fm_kind metadata))
    (if bool_decide (fm_kind metadata = EkFile) then fm_len metadata else 0) (fm_modified metadata).

Section native_walk.
Context `{sort : UnstableSort} (options : SemanticWalkOptions).

Fixpoint native_walk_inner (remaining : nat) (path : OsString) (depth : Z) (output : list SemanticEntry)
    : op PlatformError (list SemanticEntry) :=
  metadata ← native_call (fun t => ft_symlink_metadata t path);
  if (0 <? depth) && native_hidden path && negb (sw_include_hidden options) then mret output
  else if sw_max_entries options <=? len output then op_fail (PL_EntryLimit (sw_max_entries options))
  else
    let output := output ++ [native_file path metadata] in
    if negb (bool_decide (fm_kind metadata = EkDirectory)) then mret output
    else
      match remaining with
      | O => mret output
      | S remaining =>
          names ← read_dir_names path;
          each_child (fun child output => native_walk_inner remaining child (depth + 1) output)
            (sort_by (fun left right => bytes_le (native_path_sort_key left) (native_path_sort_key right)) (push path <$> names))
            output
      end.

Definition native_walk (root : OsString) : op PlatformError (list SemanticEntry) :=
  if sw_max_entries options =? 0 then op_fail (PL_EntryLimit 0)
  else
    entries ← native_walk_inner (Z.to_nat (sw_max_depth options)) root 0 [];
    mret (sort_by (fun left right =>
      bytes_le (sp_stable_sort_key (sn_path left)) (sp_stable_sort_key (sn_path right))) entries).
End native_walk.

Definition native_filesystem `{sort : UnstableSort} (cwd : OsString) : SemanticFileSystem := {|
  Resolved := OsString;
  fs_resolve_existing path := platform (native_resolve cwd path);
  fs_semantic_path := native_path;
  fs_read_limited path max_bytes := platform (native_read_limited path max_bytes);
  fs_walk root options := platform (native_walk options root);
|}.

(** ** The compute pool *)

(** The order in which the workers take up the jobs. *)
Definition schedule `{sort : UnstableSort} (priority : nat -> nat) (jobs : nat) : list nat :=
  sort_by (fun i j => bool_decide (priority i <= priority j)%nat) (seq 0 jobs).

Fixpoint run_jobs {E F A B} (f : A -> op F B) (input : list A) (jobs : list nat)
    (results : gmap nat (result F B)) : op E (gmap nat (result F B)) :=
  match jobs with
  | [] => mret results
  | i :: jobs =>
      match input !! i with
      | None => run_jobs f input jobs results
      | Some x => r ← op_try (f x); run_jobs f input jobs (<[i := r]> results)
      end
  end.

(** The results are collected by index.  The jobs run one after another here: they
    change nothing, and others may act between any two of their turns.  [from] is the
    caller's conversion of the pool's error. *)
Definition map_ordered_owned `{sort : UnstableSort} {E F A B} (from : ParallelismError -> E) (f : A -> op F B)
    (input : list A) : op E (list (result F B)) :=
  lives ← ask su_worker;
  if negb lives then op_fail (from WorkerLost)
  else
    priority ← ask su_priority;
    results ← run_jobs f input (schedule priority (length input)) ∅;
    mret (omap (fun i => results !! i) (seq 0 (length input))).

(** [check_cancelled]. *)
Definition check_cancelled : op SemanticError unit :=
  cancelled ← ask su_cancelled;
  if cancelled : bool then op_fail SmCancelled else mret tt.

(** * read, list and search over a provider

    [SemanticServices] of crates/ash-ops/src/semantic.rs, in parallel and serially, and
    the pure functions that select, filter, sort and match. *)

(** ** Ranges *)

(** The positions at which lines start. *)
Definition line_starts (b : bytes) : list Z :=
  0 :: omap (fun '(index, byte) => if (byte =? 10) && (index + 1 <? len b) then Some (index + 1) else None)
         (imap (fun i x => (Z.of_nat i, x)) b).

Definition select_lines (b : bytes) (offset length : Z) : bytes * Z * Z :=
  if bool_decide (b = []) then ([], offset, 0)
  else
    let starts := line_starts b in
    let requested_start := saturating_sub offset 1 in
    if len starts <=? requested_start then ([], offset, 0)
    else
      let end_line := Z.min (saturating_add usize_max requested_start length) (len starts) in
      let start_byte := default 0 (starts !! Z.to_nat requested_start) in
      let end_byte := default (len b) (starts !! Z.to_nat end_line) in
      (Text.slice b (Z.to_nat start_byte) (Z.to_nat end_byte), requested_start + 1, end_line - requested_start).

Definition select_range (b : bytes) (mode : SemanticReadMode) (offset length : Z) : bytes * Z * Z :=
  match mode with
  | SmBytes =>
      let start := Z.min offset (len b) in
      let end_ := Z.min (saturating_add usize_max start length) (len b) in
      (Text.slice b (Z.to_nat start) (Z.to_nat end_), start, end_ - start)
  | SmLines => select_lines b offset length
  end.

(** ** Listings *)

(** [Vec::dedup_by]: the first of a run stays. *)
Fixpoint dedup_after {A} (same : A -> A -> bool) (kept : A) (l : list A) : list A :=
  match l with
  | [] => []
  | x :: l => if same x kept then dedup_after same kept l else x :: dedup_after same x l
  end.
Definition dedup_by {A} (same : A -> A -> bool) (l : list A) : list A :=
  match l with [] => [] | x :: l => x :: dedup_after same x l end.

Definition path_le (left right : SemanticPath) : bool :=
  bytes_le (sp_stable_sort_key left) (sp_stable_sort_key right).
Definition path_same (left right : SemanticPath) : bool :=
  bool_decide (sp_stable_sort_key left = sp_stable_sort_key right).

Definition selected (entry : SemanticEntry) (filter : SemanticListFilter) : bool :=
  match filter with
  | FilterAll => true
  | FilterFiles => bool_decide (sn_kind entry = SkFile)
  | FilterDirectories => bool_decide (sn_kind entry = SkDirectory)
  end.

Definition extend_list_entries (entries batch : list SemanticEntry) (max_entries : Z)
    : result SemanticError (list SemanticEntry) :=
  let entries := entries ++ batch in
  if max_entries <? len entries then Err SmWorkLimit else Ok entries.

Definition finish_list `{sort : UnstableSort} (entries : list SemanticEntry) (filter : SemanticListFilter)
    : list SemanticEntry :=
  let entries := List.filter (fun entry => selected entry filter) entries in
  let entries := sort_by (fun left right => path_le (sn_path left) (sn_path right)) entries in
  dedup_by (fun left right => path_same (sn_path left) (sn_path right)) entries.

Definition sort_deduplicate_search_paths `{sort : UnstableSort} (paths : list SemanticPath) : list SemanticPath :=
  dedup_by path_same (sort_by path_le paths).

(** ** Matching *)

(** The [regex] crate: [escape], [RegexBuilder], [Regex::find] and [Regex::find_iter],
    by byte positions. *)
Class RegexEngine : Type := {
  Regex : Type;
  regex_escape : str -> str;
  regex_build : str -> bool -> Z -> option Regex;
  regex_find : Regex -> str -> option Z;
  regex_find_iter : Regex -> str -> list (Z * Z);
}.

(** [str::find] of a string, by byte position; [split_terminator]. *)
Fixpoint find_str (query s : str) : option Z :=
  if starts_with_str query s then Some 0
  else match s with [] => None | c :: s => Z.add (len_utf8 c) <$> find_str query s end.
Definition split_terminator (c : char) (s : str) : list str :=
  let pieces := split c s in
  match rev pieces with [] :: _ => removelast pieces | _ => pieces end.

Record FileMatches : Type := mkFileMatches {
  mf_matches : list SemanticSearchMatch; mf_normalized : bool; mf_binary : bool; mf_overflowed : bool;
  mf_cancelled : bool }.
Definition FileMatches_cancelled : FileMatches := mkFileMatches [] false false false true.

Section matching.
Context `{engine : RegexEngine}.

Inductive Matcher : Type := MLiteral (query : str) | MRegex (regex : Regex).

Definition Matcher_new (query : SearchQuery) : result SemanticError Matcher :=
  if bool_decide (qs_pattern query = RegexPattern) || qs_case_insensitive query then
    let pattern := if bool_decide (qs_pattern query = RegexPattern) then qs_query query
                   else regex_escape (qs_query query) in
    MRegex <$> ok_or (regex_build pattern (qs_case_insensitive query) (16 * 1024 * 1024)) SmRegex
  else Ok (MLiteral (qs_query query)).

Definition Matcher_find (matcher : Matcher) (line : str) : option Z :=
  match matcher with
  | MLiteral query => find_str query line
  | MRegex regex => regex_find regex line
  end.

Section scan.
Context (path : SemanticPath) (matcher : Matcher) (max_matches : Z).

Fixpoint scan_lines (index : Z) (lines : list str) (matches : list SemanticSearchMatch) (normalized : bool)
    : FileMatches :=
  match lines with
  | [] => mkFileMatches matches normalized false false false
  | raw_line :: lines =>
      let line := default raw_line (strip_suffix 13 raw_line) in
      let normalized := normalized || negb (str_len line =? str_len raw_line) in
      match Matcher_find matcher line with
      | Some column =>
          let matches := matches ++ [mkSemanticMatch path (index + 1) (column + 1) line] in
          if max_matches <? len matches then mkFileMatches matches normalized false true false
          else scan_lines (index + 1) lines matches normalized
      | None => scan_lines (index + 1) lines matches normalized
      end
  end.

Definition scan_file (b : bytes) : FileMatches :=
  match from_utf8 b with
  | Err _ => mkFileMatches [] false true false false
  | Ok text => scan_lines 0 (split_terminator 10 text) [] false
  end.
End scan.
End matching.

Definition match_le (left right : SemanticSearchMatch) : bool :=
  let kl := sp_stable_sort_key (ma_path left) in let kr := sp_stable_sort_key (ma_path right) in
  if bytes_lt kl kr then true else if bytes_lt kr kl then false
  else if ma_line left <? ma_line right then true else if ma_line right <? ma_line left then false
  else ma_column left <=? ma_column right.

(** The loop of [finish_search]; its iterator runs a scan when asked for it. *)
Fixpoint finish_loop (scanned : list (op SemanticError FileMatches)) (max_matches : Z)
    (matches : list SemanticSearchMatch) (normalized_text partial : bool)
    : op SemanticError (list SemanticSearchMatch * bool * bool) :=
  match scanned with
  | [] => mret (matches, normalized_text, partial)
  | next :: scanned =>
      result ← next;
      if mf_cancelled result then op_fail SmCancelled
      else if mf_overflowed result then op_fail SmWorkLimit
      else
        let matches := matches ++ mf_matches result in
        if max_matches <? len matches then op_fail SmWorkLimit
        else finish_loop scanned max_matches matches (normalized_text || mf_normalized result) (partial || mf_binary result)
  end.

Definition finish_search `{sort : UnstableSort} (scanned : list (op SemanticError FileMatches)) (max_matches : Z)
    : op SemanticError SemanticSearchResult :=
  '(matches, normalized_text, partial) ← finish_loop scanned max_matches [] false false;
  mret (mkSearchResult (dedup_by (fun left right => bool_decide (left = right)) (sort_by match_le matches))
          normalized_text partial).

(** ** The services *)

Section services.
Context `{lib : Libraries} `{sort : UnstableSort} `{engine : RegexEngine} `{fs : SemanticFileSystem}.
Context (limits : SemanticLimits).

Definition read_resolved (path : Resolved) (mode : SemanticReadMode) (offset length max_bytes : Z)
    : op SemanticError SemanticRead :=
  b ← fs_read_limited path max_bytes;
  let '(slice, actual_offset, actual_length) := select_range b mode offset length in
  mret (mkSemanticRead (fs_semantic_path path) (encode_hex (blake3 b)) slice actual_offset actual_length).

(** A worker's job, and the loop over the results. *)
Definition read_job (query : ReadQuery) (max_bytes : Z) (path : Resolved) : op SemanticError (option SemanticRead) :=
  cancelled ← ask su_cancelled;
  if cancelled : bool then mret None
  else
    read ← read_resolved path (qr_mode query) (qr_offset query) (qr_length query) max_bytes;
    mret (Some read).

Fixpoint collect_reads (results : list (result SemanticError (option SemanticRead)))
    : result SemanticError (list SemanticRead) :=
  match results with
  | [] => Ok []
  | result :: results =>
      r ← result;
      read ← ok_or r SmCancelled;
      reads ← collect_reads results;
      Ok (read :: reads)
  end.

Definition services_read (query : ReadQuery) : op SemanticError (list SemanticRead) :=
  _ ← check_cancelled;
  resolved ← mapM fs_resolve_existing (qr_paths query);
  results ← map_ordered_owned SmParallelism (read_job query (sl_max_read_file_bytes limits)) resolved;
  reads ← op_lift (collect_reads results);
  _ ← check_cancelled;
  mret reads.

Definition read_serial_limited (query : ReadQuery) (max_bytes : Z) : op SemanticError (list SemanticRead) :=
  resolved ← mapM fs_resolve_existing (qr_paths query);
  mapM (fun path => read_resolved path (qr_mode query) (qr_offset query) (qr_length query)
                      (Z.min max_bytes (sl_max_read_file_bytes limits))) resolved.

Definition read_serial (query : ReadQuery) : op SemanticError (list SemanticRead) :=
  read_serial_limited query (sl_max_read_file_bytes limits).

Definition list_options (query : ListQuery) : SemanticWalkOptions :=
  mkSemanticWalk (ql_depth query) (ql_include_hidden query) (sl_max_list_entries limits).

Fixpoint extend_batches (batches : list (result SemanticError (list SemanticEntry))) (entries : list SemanticEntry)
    : result SemanticError (list SemanticEntry) :=
  match batches with
  | [] => Ok entries
  | batch :: batches =>
      batch ← batch;
      entries ← extend_list_entries entries batch (sl_max_list_entries limits);
      extend_batches batches entries
  end.

Definition services_list (query : ListQuery) : op SemanticError (list SemanticEntry) :=
  _ ← check_cancelled;
  roots ← mapM fs_resolve_existing (ql_paths query);
  batches ← map_ordered_owned SmParallelism (fun root => fs_walk root (list_options query)) roots;
  entries ← op_lift (extend_batches batches []);
  _ ← check_cancelled;
  mret (finish_list entries (ql_filter query)).

Fixpoint list_roots (roots : list Resolved) (options : SemanticWalkOptions) (entries : list SemanticEntry)
    : op SemanticError (list SemanticEntry) :=
  match roots with
  | [] => mret entries
  | root :: roots =>
      batch ← fs_walk root options;
      entries ← op_lift (extend_list_entries entries batch (sl_max_list_entries limits));
      list_roots roots options entries
  end.

Definition list_serial (query : ListQuery) : op SemanticError (list SemanticEntry) :=
  roots ← mapM fs_resolve_existing (ql_paths query);
  entries ← list_roots roots (list_options query) [];
  mret (finish_list entries (ql_filter query)).

Definition search_options (query : SearchQuery) : SemanticWalkOptions :=
  mkSemanticWalk 64 (qs_include_hidden query) (sl_max_search_entries limits).

Definition files_of (batch : list SemanticEntry) : list SemanticPath :=
  sn_path <$> List.filter (fun entry => bool_decide (sn_kind entry = SkFile)) batch.

Definition scan_resolved (matcher : Matcher) (path : Resolved) : op SemanticError FileMatches :=
  b ← fs_read_limited path (sl_max_search_file_bytes limits);
  mret (scan_file (fs_semantic_path path) matcher (sl_max_matches_per_file limits) b).

Definition scan_job (matcher : Matcher) (path : Resolved) : op SemanticError FileMatches :=
  cancelled ← ask su_cancelled;
  if cancelled : bool then mret FileMatches_cancelled else scan_resolved matcher path.

Definition services_search (query : SearchQuery) : op SemanticError SemanticSearchResult :=
  _ ← check_cancelled;
  matcher ← op_lift (Matcher_new query);
  roots ← mapM fs_resolve_existing (qs_paths query);
  batches ← map_ordered_owned SmParallelism (fun root => fs_walk root (search_options query)) roots;
  batches ← op_lift (mapM id batches);
  let paths := sort_deduplicate_search_paths (batches ≫= files_of) in
  _ ← check_cancelled;
  resolved ← mapM (fun path => fs_resolve_existing (sp_path path)) paths;
  scanned ← map_ordered_owned SmParallelism (scan_job matcher) resolved;
  result ← finish_search (op_lift <$> scanned) (sl_max_search_matches limits);
  _ ← check_cancelled;
  mret result.

Definition search_serial (query : SearchQuery) : op SemanticError SemanticSearchResult :=
  matcher ← op_lift (Matcher_new query);
  roots ← mapM fs_resolve_existing (qs_paths query);
  batches ← mapM (fun root => fs_walk root (search_options query)) roots;
  let paths := sort_deduplicate_search_paths (batches ≫= files_of) in
  resolved ← mapM (fun path => fs_resolve_existing (sp_path path)) paths;
  finish_search (scan_resolved matcher <$> resolved) (sl_max_search_matches limits).

End services.
