(* ===== verification/ServiceFacts.v ===== *)
(** * ServiceFacts: what the services answer

    In a world that stands still the parallel services answer what the serial ones do,
    whatever the order of the jobs; ranges, listings and matches are what they should
    be. *)

From stdpp Require Import sorting.
From S2P Require Import Prelude Text Glob AsonModel Capability Request Workspace Manifest Disk.
From S2P Require Import Mutation NativeTree Governor Projection Reducer ReducerFacts.
From S2P Require Import ProjectionFacts WorkspaceRead Semantic.

(** ** Computations whose answer does not depend on the turn *)

Definition outcome_of {E A} (r : result E A) : Outcome E A := match r with Ok a => Done a | Err e => Fail_ e end.

Section yields.
Context (su : Surroundings) (internal : bool).

(** In every state of a program that has claimed ash's own directory, or has not. *)
Definition yields {E A} (m : op E A) (r : result E A) : Prop := forall st,
  w_internal (pg_world st) = internal -> (m su st).1 = outcome_of r /\ w_internal (pg_world (m su st).2) = internal.

Lemma yields_ret {E A} (a : A) : yields (mret a : op E A) (Ok a).
Proof. by intros st. Qed.

Lemma yields_fail {E A} (e : E) : yields (op_fail e : op E A) (Err e).
Proof. by intros st. Qed.

Lemma yields_ask {E A} (answer : Surroundings -> nat -> A) a :
  (forall turn, answer su turn = a) -> yields (ask answer : op E A) (Ok a).
Proof. intros Ha st Hst. cbn. by rewrite Ha, others_internal. Qed.

Lemma yields_lift {E A} (r : result E A) : yields (op_lift r) r.
Proof. destruct r; [apply yields_ret|apply yields_fail]. Qed.

Lemma yields_then {E A B} (m : op E A) (k : A -> op E B) r s :
  yields m r -> (forall a, r = Ok a -> yields (k a) (s a)) -> yields (m ≫= k) (r ≫= s).
Proof.
  intros Hm Hk st Hst. unfold mbind at 1 3, op_bind. destruct (Hm st Hst) as [Ho Hi]. destruct (m su st) as [o st'].
  cbn in Ho, Hi. subst o. destruct r as [a|e]; [by apply Hk|done].
Qed.

Lemma yields_try {E F A} (m : op E A) r : yields m r -> yields (op_try m : op F _) (Ok r).
Proof. intros Hm st Hst. destruct (Hm st Hst) as [Ho Hi]. unfold op_try. destruct (m su st) as [o st']. cbn in Ho, Hi. subst o. by destruct r. Qed.

Lemma yields_mapM {E A B} (f : A -> op E B) (g : A -> result E B) l :
  (forall x, yields (f x) (g x)) -> yields (mapM f l) (mapM g l).
Proof.
  intros Hf. induction l as [|x l IH]; [apply yields_ret|]. apply yields_then; [apply Hf|]. intros y _.
  apply yields_then; [exact IH|]. intros k _. apply yields_ret.
Qed.

Lemma yields_eq {E A} (m : op E A) r s : yields m r -> r = s -> yields m s.
Proof. by intros H <-. Qed.

End yields.

(** ** The pool *)

Section pool.
Context `{sort : UnstableSort} `{laws : !UnstableSortLaws sort} (su : Surroundings) (internal : bool).
Context (Hlives : forall turn, su_worker su turn = true).

Lemma schedule_permutation priority n : Permutation (schedule priority n) (seq 0 n).
Proof. apply sort_by_permutation. Qed.

Lemma yields_run_jobs {A B} (f : A -> op SemanticError B) g input jobs : forall results,
  (forall x, yields su internal (f x) (g x)) ->
  exists results', yields su internal (run_jobs (E := SemanticError) f input jobs results) (Ok results')
    /\ forall i, results' !! i = if bool_decide (i ∈ jobs) then match input !! i with Some x => Some (g x) | None => results !! i end
                         else results !! i.
Proof.
  induction jobs as [|j jobs IH]; intros results Hf.
  { exists results. split; [done|]. intros i. rewrite bool_decide_eq_false_2 by apply not_elem_of_nil. done. }
  cbn [run_jobs]. destruct (input !! j) as [x|] eqn:Ex.
  - destruct (IH (<[j := g x]> results) Hf) as (results' & Hy & Hr). exists results'. split.
    + apply (yields_then su internal _ _ (Ok (g x)) (fun _ => Ok results')); [by apply yields_try|].
      intros r [= <-]. exact Hy.
    + intros i. rewrite Hr. destruct (decide (i = j)) as [->|Hne].
      * rewrite (bool_decide_eq_true_2 (j ∈ j :: jobs)) by set_solver. rewrite lookup_insert_eq, Ex.
        by destruct (bool_decide _).
      * rewrite lookup_insert_ne by done.
        rewrite (bool_decide_ext (i ∈ j :: jobs) (i ∈ jobs)) by set_solver. done.
  - destruct (IH results Hf) as (results' & Hy & Hr). exists results'. split; [done|].
    intros i. rewrite Hr. destruct (decide (i = j)) as [->|Hne].
    + rewrite Ex. by repeat destruct (bool_decide _).
    + rewrite (bool_decide_ext (i ∈ j :: jobs) (i ∈ jobs)) by set_solver. done.
Qed.

Lemma omap_seq_lookup {A} (l : list A) (m : gmap nat A) : forall start,
  (forall i, (i < length l)%nat -> m !! (start + i)%nat = l !! i) ->
  omap (fun i => m !! i) (seq start (length l)) = l.
Proof.
  induction l as [|x l IH]; intros start Hm; [done|]. cbn.
  pose proof (Hm 0%nat ltac:(cbn; lia)) as H0. rewrite Nat.add_0_r in H0. rewrite H0. cbn. f_equal.
  apply IH. intros i Hi. specialize (Hm (S i) ltac:(cbn; lia)). etrans; [|exact Hm]. f_equal. lia.
Qed.

Lemma yields_map_ordered {A B} (f : A -> op SemanticError B) g input :
  (forall x, yields su internal (f x) (g x)) -> yields su internal (map_ordered_owned SmParallelism f input) (Ok (g <$> input)).
Proof.
  intros Hf st Hst. unfold map_ordered_owned.
  assert (forall k : op SemanticError (list (result SemanticError B)),
    (lives ← ask su_worker; if negb lives then op_fail (SmParallelism WorkerLost) else k) su st = k su (others su st)) as ->.
  { intros k. unfold mbind, op_bind. cbn. by rewrite Hlives. }
  unfold mbind at 1 3, op_bind. cbn.
  destruct (yields_run_jobs f g input (schedule (su_priority su (pg_turn (others su st))) (length input)) ∅ Hf)
    as (results & Hy & Hr).
  destruct (Hy (others su (others su st))) as [Ho Hin]; [by rewrite !others_internal|]. unfold mbind, op_bind.
  destruct (run_jobs _ _ _ _ su _) as [o st']. cbn in Ho, Hin. subst o. cbn. split; [|done]. f_equal.
  rewrite <- (length_fmap g). apply omap_seq_lookup. rewrite length_fmap. intros i Hi. cbn.
  rewrite Hr, list_lookup_fmap. destruct (lookup_lt_is_Some_2 input i Hi) as [x Hx]. rewrite Hx.
  rewrite bool_decide_eq_true_2; [done|]. rewrite schedule_permutation. apply elem_of_seq. lia.
Qed.

End pool.

(** ** Parallel and serial services *)

Lemma mapM_id_fmap {E A B} (f : A -> result E B) l : mapM id (f <$> l) = mapM f l.
Proof.
  induction l as [|x l IH]; [done|]. change (mapM f (x :: l)) with (y ← f x; k ← mapM f l; mret (y :: k)). by rewrite <- IH.
Qed.

Lemma collect_reads_fmap {A} (f : A -> result SemanticError SemanticRead) l :
  collect_reads ((fun x => Some <$> f x) <$> l) = mapM f l.
Proof.
  induction l as [|x l IH]; [done|]. change (mapM f (x :: l)) with (y ← f x; k ← mapM f l; mret (y :: k)). rewrite <- IH.
  change ((r ← Some <$> f x; read ← ok_or r SmCancelled; reads ← collect_reads ((fun x => Some <$> f x) <$> l); Ok (read :: reads))
    = (y ← f x; k ← collect_reads ((fun x => Some <$> f x) <$> l); mret (y :: k))). by destruct (f x).
Qed.

(** The loop of [finish_search] over results. *)
Fixpoint finish_results (scanned : list (result SemanticError FileMatches)) (max_matches : Z)
    (matches : list SemanticSearchMatch) (normalized_text partial : bool)
    : result SemanticError (list SemanticSearchMatch * bool * bool) :=
  match scanned with
  | [] => Ok (matches, normalized_text, partial)
  | next :: scanned =>
      result ← next;
      if mf_cancelled result then Err SmCancelled
      else if mf_overflowed result then Err SmWorkLimit
      else
        let matches := matches ++ mf_matches result in
        if max_matches <? len matches then Err SmWorkLimit
        else finish_results scanned max_matches matches (normalized_text || mf_normalized result) (partial || mf_binary result)
  end.

Lemma yields_finish_loop su internal max scanned : forall results matches n p,
  Forall2 (yields su internal) scanned results ->
  yields su internal (finish_loop scanned max matches n p) (finish_results results max matches n p).
Proof.
  induction scanned as [|next scanned IH]; intros results matches n p H; inversion H as [|? r ? rs Hn Hrest]; subst.
  { apply yields_ret. }
  cbn [finish_loop finish_results]. apply yields_then; [done|]. intros result _.
  destruct (mf_cancelled result); [apply yields_fail|]. destruct (mf_overflowed result); [apply yields_fail|].
  destruct (_ <? _); [apply yields_fail|]. by apply IH.
Qed.

Section still.
Context `{lib : Libraries} `{sort : UnstableSort} `{laws : !UnstableSortLaws sort} `{engine : RegexEngine}.
Context `{fs : SemanticFileSystem} (limits : SemanticLimits) (su : Surroundings) (internal : bool).
Context (resolve : OsString -> result SemanticError Resolved) (read : Resolved -> Z -> result SemanticError bytes).
Context (walk : Resolved -> SemanticWalkOptions -> result SemanticError (list SemanticEntry)).

(** Nothing is cancelled, the pool lives, and the provider always answers the same. *)
Record stands_still : Prop := mkStandsStill {
  ss_cancelled : forall turn, su_cancelled su turn = false;
  ss_lives : forall turn, su_worker su turn = true;
  ss_resolve : forall path, yields su internal (fs_resolve_existing path) (resolve path);
  ss_read : forall path max, yields su internal (fs_read_limited path max) (read path max);
  ss_walk : forall root options, yields su internal (fs_walk root options) (walk root options);
}.
Context (Hstill : stands_still).

Lemma yields_check : yields su internal check_cancelled (Ok tt).
Proof.
  apply (yields_then su internal _ _ (Ok false) (fun _ => Ok tt)); [apply yields_ask, (ss_cancelled Hstill)|].
  intros c [= <-]. apply yields_ret.
Qed.

(** A job of a worker that is not cancelled. *)
Lemma yields_job {A} (cancelled work : op SemanticError A) r :
  yields su internal work r -> yields su internal (c ← ask su_cancelled; if c : bool then cancelled else work) r.
Proof.
  intros H. apply (yields_then su internal _ _ (Ok false) (fun _ => r)); [apply yields_ask, (ss_cancelled Hstill)|].
  by intros c [= <-].
Qed.

Lemma yields_resolve paths : yields su internal (mapM fs_resolve_existing paths) (mapM resolve paths).
Proof. apply yields_mapM, (ss_resolve Hstill). Qed.

(** *** Reading *)

Definition read_of (query : ReadQuery) (max_bytes : Z) (path : Resolved) : result SemanticError SemanticRead :=
  b ← read path max_bytes;
  let '(slice, actual_offset, actual_length) := select_range b (qr_mode query) (qr_offset query) (qr_length query) in
  Ok (mkSemanticRead (fs_semantic_path path) (encode_hex (blake3 b)) slice actual_offset actual_length).

Definition reads_of (query : ReadQuery) (max_bytes : Z) : result SemanticError (list SemanticRead) :=
  resolved ← mapM resolve (qr_paths query); mapM (read_of query max_bytes) resolved.

Lemma yields_read_resolved query max path :
  yields su internal (read_resolved path (qr_mode query) (qr_offset query) (qr_length query) max) (read_of query max path).
Proof.
  apply yields_then; [apply (ss_read Hstill)|]. intros b _.
  destruct (select_range _ _ _ _) as [[slice o] l]. apply yields_ret.
Qed.

Lemma yields_services_read query : yields su internal (services_read limits query) (reads_of query (sl_max_read_file_bytes limits)).
Proof.
  unfold services_read, reads_of. apply (yields_then su internal _ _ (Ok tt) (fun _ => _)); [apply yields_check|]. intros _ _.
  apply yields_then; [apply yields_resolve|]. intros resolved _.
  eapply yields_eq.
  - eapply yields_then; [apply (yields_map_ordered su internal (ss_lives Hstill) _ (fun path => Some <$> read_of query (sl_max_read_file_bytes limits) path))|].
    + intros path. apply yields_job. eapply yields_eq; [eapply yields_then; [apply yields_read_resolved|]|].
      * intros r _. apply (yields_ret su internal (Some r)).
      * by destruct (read_of _ _ _).
    + intros results _. eapply yields_then; [apply yields_lift|]. intros reads _.
      apply (yields_then su internal _ _ (Ok tt) (fun _ => Ok reads)); [apply yields_check|]. intros _ _. apply yields_ret.
  - cbn. rewrite collect_reads_fmap. by destruct (mapM _ _).
Qed.

Lemma yields_read_serial query : yields su internal (read_serial limits query) (reads_of query (sl_max_read_file_bytes limits)).
Proof.
  unfold read_serial, read_serial_limited, reads_of. rewrite Z.min_id. apply yields_then; [apply yields_resolve|].
  intros resolved _. apply yields_mapM. intros path. apply yields_read_resolved.
Qed.

(** *** Listing *)

Definition listing_of (query : ListQuery) : result SemanticError (list SemanticEntry) :=
  roots ← mapM resolve (ql_paths query);
  entries ← extend_batches limits ((fun root => walk root (list_options limits query)) <$> roots) [];
  Ok (finish_list entries (ql_filter query)).

Lemma yields_services_list query : yields su internal (services_list limits query) (listing_of query).
Proof.
  unfold services_list, listing_of. apply (yields_then su internal _ _ (Ok tt) (fun _ => _)); [apply yields_check|]. intros _ _.
  apply yields_then; [apply yields_resolve|]. intros roots _.
  eapply yields_eq.
  - eapply yields_then; [apply (yields_map_ordered su internal (ss_lives Hstill)); intros root; apply (ss_walk Hstill)|].
    intros batches _. eapply yields_then; [apply yields_lift|]. intros entries _.
    apply (yields_then su internal _ _ (Ok tt) (fun _ => Ok (finish_list entries (ql_filter query)))); [apply yields_check|].
    intros _ _. apply yields_ret.
  - done.
Qed.

Lemma yields_list_roots roots options : forall entries,
  yields su internal (list_roots limits roots options entries) (extend_batches limits ((fun root => walk root options) <$> roots) entries).
Proof.
  induction roots as [|root roots IH]; intros entries; [apply yields_ret|].
  apply yields_then; [apply (ss_walk Hstill)|]. intros batch _. apply yields_then; [apply yields_lift|]. intros more _. apply IH.
Qed.

Lemma yields_list_serial query : yields su internal (list_serial limits query) (listing_of query).
Proof.
  apply yields_then; [apply yields_resolve|]. intros roots _. apply yields_then; [apply yields_list_roots|].
  intros entries _. apply yields_ret.
Qed.

(** *** Searching *)

Definition scan_of (matcher : Matcher) (path : Resolved) : result SemanticError FileMatches :=
  b ← read path (sl_max_search_file_bytes limits);
  Ok (scan_file (fs_semantic_path path) matcher (sl_max_matches_per_file limits) b).

Definition found_of (scanned : list (result SemanticError FileMatches)) : result SemanticError SemanticSearchResult :=
  '(matches, normalized_text, partial) ← finish_results scanned (sl_max_search_matches limits) [] false false;
  Ok (mkSearchResult (dedup_by (fun left right => bool_decide (left = right)) (sort_by match_le matches)) normalized_text partial).

Definition search_of (query : SearchQuery) : result SemanticError SemanticSearchResult :=
  matcher ← Matcher_new query;
  roots ← mapM resolve (qs_paths query);
  batches ← mapM (fun root => walk root (search_options limits query)) roots;
  resolved ← mapM (fun path => resolve (sp_path path)) (sort_deduplicate_search_paths (batches ≫= files_of));
  found_of (scan_of matcher <$> resolved).

Lemma yields_scan matcher path : yields su internal (scan_resolved limits matcher path) (scan_of matcher path).
Proof. apply yields_then; [apply (ss_read Hstill)|]. intros b _. apply yields_ret. Qed.

Lemma yields_finish_search scanned results :
  Forall2 (yields su internal) scanned results -> yields su internal (finish_search scanned (sl_max_search_matches limits)) (found_of results).
Proof.
  intros H. unfold finish_search, found_of.
  apply (yields_then su internal _ _ _ (fun '(m, n, p) => Ok (mkSearchResult _ n p))); [by apply yields_finish_loop|].
  intros [[m n] p] _. apply yields_ret.
Qed.

Lemma yields_services_search query : yields su internal (services_search limits query) (search_of query).
Proof.
  unfold services_search, search_of. apply (yields_then su internal _ _ (Ok tt) (fun _ => _)); [apply yields_check|]. intros _ _.
  apply yields_then; [apply yields_lift|]. intros matcher _. apply yields_then; [apply yields_resolve|]. intros roots _.
  eapply yields_eq; [eapply (yields_then su internal _ _ _ (fun batches => batches ← mapM id batches;
      resolved ← mapM (fun path => resolve (sp_path path)) (sort_deduplicate_search_paths (batches ≫= files_of));
      found_of (scan_of matcher <$> resolved)));
    [apply (yields_map_ordered su internal (ss_lives Hstill)); intros root; apply (ss_walk Hstill)|]|].
  - intros batches0 _. apply yields_then; [apply yields_lift|]. intros batches _.
    apply (yields_then su internal _ _ (Ok tt) (fun _ => _)); [apply yields_check|]. intros _ _.
    apply yields_then; [apply yields_mapM; intros path; apply (ss_resolve Hstill)|]. intros resolved _.
    apply (yields_then su internal _ _ (Ok (scan_of matcher <$> resolved)) found_of).
    + apply (yields_map_ordered su internal (ss_lives Hstill)). intros path. apply yields_job, yields_scan.
    + intros scanned _. eapply yields_eq; [eapply yields_then; [apply (yields_finish_search _ scanned)|]|].
      * clear. induction scanned; constructor; [apply yields_lift|done].
      * intros found _. apply (yields_then su internal _ _ (Ok tt) (fun _ => Ok found)); [apply yields_check|]. intros _ _. apply yields_ret.
      * by destruct (found_of scanned).
  - cbn. by rewrite mapM_id_fmap.
Qed.

Lemma yields_search_serial query : yields su internal (search_serial limits query) (search_of query).
Proof.
  apply yields_then; [apply yields_lift|]. intros matcher _. apply yields_then; [apply yields_resolve|]. intros roots _.
  apply yields_then; [apply yields_mapM; intros root; apply (ss_walk Hstill)|]. intros batches _.
  apply yields_then; [apply yields_mapM; intros path; apply (ss_resolve Hstill)|]. intros resolved _.
  apply yields_finish_search. induction resolved; constructor; [apply yields_scan|done].
Qed.

End still.

(** * ranges, listings and matches

    The pure parts of the services against what they are for: lines and byte ranges,
    sorted lists without repetition, the lines of a text that match. *)

(** ** Lines *)

Lemma split_inclusive_empty b : split_inclusive b = [] <-> b = [].
Proof. destruct b as [|x b]; [done|]. cbn. destruct (x =? 10), (split_inclusive b); done. Qed.

(** Put together they are the text, and a newline ends every line but the last. *)
Lemma split_inclusive_lines b :
  concat (split_inclusive b) = b
  /\ forall i line, split_inclusive b !! i = Some line ->
       exists body, 10 ∉ body /\ (line = body ++ [10] \/ (line = body /\ body <> [] /\ S i = length (split_inclusive b))).
Proof.
  induction b as [|x b [IH1 IH2]]; [by split|]. cbn. destruct (Z.eqb_spec x 10) as [->|Hx].
  - split; [cbn; by rewrite IH1|]. intros [|i] line; cbn.
    + intros [= <-]. exists []. split; [apply not_elem_of_nil|by left].
    + intros Hi. destruct (IH2 i line Hi) as (body & Hb & [->|(-> & Hne & Hl)]); exists body; (split; [done|]); [by left|right].
      split_and!; [done..|]. by rewrite Hl.
  - destruct (split_inclusive b) as [|l ls] eqn:E.
    + split; [cbn in IH1 |- *; by rewrite IH1|]. intros [|i] line; [|done]. intros [= <-]. exists [x].
      split; [set_solver|]. right. done.
    + split; [cbn in IH1 |- *; by rewrite IH1|]. intros [|i] line; cbn.
      * intros [= <-]. destruct (IH2 0%nat l eq_refl) as (body & Hb & [->|(-> & Hne & Hl)]); exists (x :: body); (split; [set_solver|]);
          [by left|right; done].
      * intros Hi. destruct (IH2 (S i) line Hi) as (body & Hb & [->|(-> & Hne & Hl)]); exists body; (split; [done|]); [by left|by right].
Qed.

(** The part of [line_starts] behind the first, from the position [off]. *)
Definition starts_from (off : Z) (b : bytes) : list Z :=
  omap (fun '(index, byte) => if (byte =? 10) && (index + 1 <? off + len b) then Some (index + 1) else None)
    (imap (fun i x => (off + Z.of_nat i, x)) b).

Lemma starts_from_cons off x b :
  starts_from off (x :: b) = (if (x =? 10) && negb (bool_decide (b = [])) then [off + 1] else []) ++ starts_from (off + 1) b.
Proof.
  unfold starts_from. rewrite imap_cons. cbn. rewrite Z.add_0_r.
  assert ((off + 1 <? off + len (x :: b)) = negb (bool_decide (b = []))) as ->.
  { rewrite len_cons. destruct b as [|y b]; cbn; [apply Z.ltb_irrefl|]. rewrite len_cons. pose proof (len_nonneg b). by apply Z.ltb_lt; lia. }
  assert (omap (fun '(index, byte) => if (byte =? 10) && (index + 1 <? off + len (x :: b)) then Some (index + 1) else None)
      (imap ((fun i x => (off + Z.of_nat i, x)) ∘ S) b)
    = omap (fun '(index, byte) => if (byte =? 10) && (index + 1 <? off + 1 + len b) then Some (index + 1) else None)
      (imap (fun i x => (off + 1 + Z.of_nat i, x)) b)) as ->.
  { rewrite len_cons. f_equal; [|apply imap_ext; intros i y _; cbn; f_equal; lia].
    replace (off + (1 + len b)) with (off + 1 + len b) by lia. done. }
  by destruct (_ && _).
Qed.

Lemma starts_from_lines b : forall off,
  starts_from off b = (fun k => off + len (concat (take k (split_inclusive b)))) <$> seq 1 (pred (length (split_inclusive b))).
Proof.
  induction b as [|x b IH]; intros off; [done|]. rewrite starts_from_cons, IH. cbn [split_inclusive].
  destruct (Z.eqb_spec x 10) as [->|Hx]; cbn [andb].
  - destruct b as [|y b]; [done|]. rewrite bool_decide_eq_false_2 by done. cbn [negb app length pred].
    destruct (split_inclusive (y :: b)) as [|l ls] eqn:E; [by apply split_inclusive_empty in E|].
    cbn [length pred seq fmap list_fmap]. f_equal. rewrite <- (fmap_S_seq 1), <- list_fmap_compose.
    apply list_fmap_ext. intros i k _. unfold compose. rewrite firstn_cons. cbn [concat]. rewrite len_app. change (len [10]) with 1. lia.
  - cbn [app]. destruct (split_inclusive b) as [|l ls]; [done|]. cbn [length pred].
    apply list_fmap_ext. intros i k Hk. apply lookup_seq in Hk as [-> _]. cbn [take concat Nat.add]. rewrite !len_app, len_cons. lia.
Qed.

Lemma line_starts_lines b :
  b <> [] -> line_starts b = (fun k => len (concat (take k (split_inclusive b)))) <$> seq 0 (length (split_inclusive b)).
Proof.
  intros Hb. destruct (split_inclusive b) as [|l ls] eqn:E; [by apply split_inclusive_empty in E|].
  cbn [length seq fmap list_fmap take concat]. unfold line_starts.
  change (0 :: starts_from 0 b = 0 :: ((fun k => len (concat (take k (l :: ls)))) <$> seq 1 (length ls))).
  f_equal. rewrite starts_from_lines, E. done.
Qed.

Lemma concat_slice (ls : list bytes) s e :
  (s <= e)%nat ->
  Text.slice (concat ls) (length (concat (take s ls))) (length (concat (take e ls))) = concat (take (e - s) (drop s ls)).
Proof.
  intros Hse. unfold Text.slice.
  assert (concat ls = concat (take s ls) ++ concat (take (e - s) (drop s ls)) ++ concat (drop e ls)) as Hc.
  { rewrite <- !concat_app. f_equal. rewrite <- (take_drop s ls) at 1. f_equal. rewrite <- (take_drop (e - s) (drop s ls)) at 1.
    f_equal. rewrite drop_drop. f_equal. lia. }
  rewrite Hc, drop_app_length. 
  assert (length (concat (take e ls)) - length (concat (take s ls)) = length (concat (take (e - s) (drop s ls))))%nat as ->.
  { replace (take e ls) with (take s ls ++ take (e - s) (drop s ls)); [rewrite concat_app, length_app; lia|].
    rewrite <- (take_drop s (take e ls)). rewrite take_take, Nat.min_l by done. f_equal. by rewrite skipn_firstn_comm. }
  by rewrite take_app_length.
Qed.

Lemma select_lines_spec b offset length :
  1 <= offset -> 0 <= length -> len b <= usize_max -> offset <= usize_max ->
  let chosen := take (Z.to_nat length) (drop (Z.to_nat (offset - 1)) (split_inclusive b)) in
  select_lines b offset length = (concat chosen, offset, len chosen).
Proof.
  intros Ho Hl Hb Hom chosen. unfold select_lines. case_bool_decide as Hnil.
  { subst b. unfold chosen. cbn. by rewrite drop_nil, take_nil. }
  unfold saturating_sub. rewrite Z.max_l by lia. set (ls := split_inclusive b) in *.
  pose proof (proj1 (split_inclusive_lines b)) as Hcat. fold ls in Hcat.
  assert (len (line_starts b) = len ls) as Hlen by (rewrite line_starts_lines, len_fmap by done; unfold len; by rewrite length_seq).
  rewrite Hlen. destruct (Z.leb_spec (len ls) (offset - 1)) as [Hge|Hlt].
  { unfold chosen. rewrite drop_ge by (unfold len in *; lia). by rewrite take_nil. }
  assert (len ls <= len b) as Hfew.
  { rewrite <- Hcat. clear -ls. assert (Forall (fun l => l <> []) ls) as Hf.
    { apply list.Forall_lookup. intros i l Hi. destruct (proj2 (split_inclusive_lines b) i l Hi) as (body & _ & [->|(-> & H & _)]); [by destruct body|done]. }
    induction Hf as [|l ls' Hne Hf IH]; [done|]. cbn. rewrite len_app, len_cons. destruct l; [done|]. rewrite len_cons. pose proof (len_nonneg l). unfold len in *. lia. }
  unfold saturating_add. set (e := Z.min (Z.min (offset - 1 + length) usize_max) (len ls)).
  assert (e = Z.min (offset - 1 + length) (len ls)) as He by (unfold e; lia).
  assert (Z.to_nat (len ls) = List.length ls) as Hn by (unfold len; lia).
  assert (forall k, (k < List.length ls)%nat -> line_starts b !! k = Some (len (concat (take k ls)))) as Hat.
  { intros k Hk. rewrite line_starts_lines by done. fold ls. rewrite list_lookup_fmap, lookup_seq_lt by done. done. }
  rewrite (Hat (Z.to_nat (offset - 1))) by (unfold len in *; lia). cbn [default].
  assert (default (len b) (line_starts b !! Z.to_nat e) = len (concat (take (Z.to_nat e) ls))) as ->.
  { destruct (decide (e < len ls)) as [Hlt2|Hge2].
    - by rewrite Hat by (unfold len in *; lia).
    - rewrite lookup_ge_None_2 by (apply Nat2Z.inj_le; unfold len in Hlen; rewrite Hlen; unfold len in *; lia).
      cbn. rewrite take_ge by (unfold len in *; lia). by rewrite Hcat. }
  assert (take (Z.to_nat e - Z.to_nat (offset - 1)) (drop (Z.to_nat (offset - 1)) ls) = chosen) as Hchosen.
  { unfold chosen. destruct (decide (offset - 1 + length <= len ls)).
    - f_equal. lia.
    - rewrite !take_ge; [done|rewrite length_drop; unfold len in *; lia|rewrite length_drop; unfold len in *; lia]. }
  assert (forall x y, (x <= y)%nat -> Text.slice b (Z.to_nat (len (concat (take x ls)))) (Z.to_nat (len (concat (take y ls))))
    = concat (take (y - x) (drop x ls))) as Hslice.
  { intros x y Hxy. unfold len. rewrite !Nat2Z.id. rewrite <- concat_slice by done. by rewrite Hcat. }
  unfold id. rewrite Hslice, Hchosen by lia. f_equal; [f_equal; lia|].
  rewrite <- Hchosen. unfold len. rewrite length_take, length_drop. unfold len in *. lia.
Qed.

Lemma select_bytes_spec b offset length :
  0 <= offset -> 0 <= length -> len b <= usize_max ->
  let chosen := take (Z.to_nat length) (drop (Z.to_nat offset) b) in
  select_range b SmBytes offset length = (chosen, Z.min offset (len b), len chosen).
Proof.
  intros Ho Hl Hb chosen. cbn [select_range]. unfold saturating_add, Text.slice.
  set (s := Z.min offset (len b)). set (e := Z.min (Z.min (s + length) usize_max) (len b)).
  assert (e = Z.min (s + length) (len b)) as He by (unfold e, s; lia).
  assert (take (Z.to_nat e - Z.to_nat s) (drop (Z.to_nat s) b) = chosen) as ->.
  { unfold chosen. destruct (decide (offset <= len b)).
    - assert (s = offset) as -> by (unfold s; lia). destruct (decide (offset + length <= len b)).
      + f_equal. lia.
      + rewrite !take_ge; [done|rewrite length_drop; unfold len in *; lia|rewrite length_drop; unfold len in *; lia].
    - assert (s = len b) as -> by (unfold s; lia).
      rewrite (drop_ge b (Z.to_nat offset)), (drop_ge b) by (unfold len in *; lia). by rewrite !take_nil. }
  f_equal. rewrite He. unfold chosen, len. rewrite length_take, length_drop. unfold s, len in *. lia.
Qed.

(** ** Sorted without repetition *)

Section dedup.
Context {A : Type} (same : A -> A -> bool).

Lemma dedup_after_elem kept l x : x ∈ dedup_after same kept l -> x ∈ l.
Proof.
  revert kept. induction l as [|y l IH]; intros kept; [done|]. cbn. destruct (same y kept); [intros H%IH; set_solver|].
  intros [->|H%IH]%elem_of_cons; set_solver.
Qed.

Lemma dedup_by_elem l x : x ∈ dedup_by same l -> x ∈ l.
Proof. destruct l as [|y l]; [done|]. cbn. intros [->|H%dedup_after_elem]%elem_of_cons; set_solver. Qed.

Lemma dedup_after_covers kept l x : x ∈ l -> exists y, y ∈ kept :: dedup_after same kept l /\ (x = y \/ same x y = true).
Proof.
  revert kept. induction l as [|z l IH]; intros kept Hx; [by apply elem_of_nil in Hx|]. cbn.
  destruct (same z kept) eqn:E.
  - apply elem_of_cons in Hx as [->|Hx]; [exists kept; split; [set_solver|by right]|by apply IH].
  - apply elem_of_cons in Hx as [->|Hx]; [exists z; split; [set_solver|by left]|].
    destruct (IH z Hx) as (y & Hy & Hs). exists y. split; [set_solver|done].
Qed.

Lemma dedup_by_covers l x : x ∈ l -> exists y, y ∈ dedup_by same l /\ (x = y \/ same x y = true).
Proof.
  destruct l as [|z l]; [intros H; by apply elem_of_nil in H|]. intros [->|Hx]%elem_of_cons; [exists z; split; [set_solver|by left]|].
  by apply dedup_after_covers.
Qed.

Context (le : A -> A -> bool).

(** Before, and not the same. *)
Definition strictly (x y : A) : Prop := le x y = true /\ le y x = false.

Context (Htrans : forall x y z, le x y = true -> le y z = true -> le x z = true).

Lemma dedup_after_sorted kept l :
  Sorted.StronglySorted (fun x y => le x y = true) (kept :: l) ->
  (forall x y, x ∈ kept :: l -> y ∈ kept :: l -> le x y = true -> le y x = true -> same x y = true) ->
  Sorted.StronglySorted strictly (kept :: dedup_after same kept l).
Proof.
  revert kept. induction l as [|x l IH]; intros kept Hs Hsame; [constructor; constructor|]. cbn.
  inversion Hs as [|? ? Hxl Hk]; subst. apply list.Forall_cons in Hk as [Hkx Hkl]. destruct (same x kept) eqn:E.
  - apply IH; [constructor; [by inversion Hxl|done]|]. intros y z Hy Hz. apply Hsame; set_solver.
  - assert (Sorted.StronglySorted strictly (x :: dedup_after same x l)) as Hx by (apply IH; [done|intros y z Hy Hz; apply Hsame; set_solver]).
    assert (le x kept = false) as Hxk.
    { destruct (le x kept) eqn:Hle; [|done]. by rewrite (Hsame x kept) in E by (set_solver || done). }
    constructor; [done|]. constructor; [by split|]. inversion Hx as [|? ? _ Hall]; subst.
    apply list.Forall_forall. intros y Hy. rewrite list.Forall_forall in Hall. destruct (Hall y Hy) as [Hxy Hyx].
    split; [by apply (Htrans _ x)|]. destruct (le y kept) eqn:Hyk; [|done]. by rewrite (Htrans y kept x) in Hyx.
Qed.

Lemma dedup_by_sorted l :
  Sorted.StronglySorted (fun x y => le x y = true) l ->
  (forall x y, x ∈ l -> y ∈ l -> le x y = true -> le y x = true -> same x y = true) ->
  Sorted.StronglySorted strictly (dedup_by same l).
Proof. destruct l as [|x l]; intros Hs Hsame; [constructor|by apply dedup_after_sorted]. Qed.
End dedup.

Lemma bytes_lt_le a b : bytes_lt a b = true <-> bytes_le a b = true /\ bytes_le b a = false.
Proof.
  unfold bytes_le. rewrite negb_true_iff, negb_false_iff. split; [|tauto]. intros H. split; [|done].
  destruct (bytes_lt b a) eqn:E; [|done]. pose proof (bytes_lt_trans _ _ _ H E) as Hx. by rewrite bytes_lt_irrefl in Hx.
Qed.

(** ** Listings *)

Definition entry_key (e : SemanticEntry) : bytes := sp_stable_sort_key (sn_path e).

Section listings.
Context `{sort : UnstableSort} `{laws : !UnstableSortLaws sort}.

Lemma elem_of_sort_by {A} (le : A -> A -> bool) l x : x ∈ sort_by le l <-> x ∈ l.
Proof. by rewrite sort_by_permutation. Qed.

(** A listing has the chosen entries, one for each key, in the order of the keys. *)
Lemma finish_list_spec entries filter :
  Sorted.StronglySorted (fun e e' => bytes_lt (entry_key e) (entry_key e') = true) (finish_list entries filter)
  /\ (forall e, e ∈ finish_list entries filter -> e ∈ entries /\ selected e filter = true)
  /\ forall e, e ∈ entries -> selected e filter = true ->
       exists e', e' ∈ finish_list entries filter /\ entry_key e' = entry_key e.
Proof.
  unfold finish_list. set (chosen := List.filter _ entries). set (le := fun left right => path_le (sn_path left) (sn_path right)).
  assert (forall e, e ∈ chosen <-> e ∈ entries /\ selected e filter = true) as Hc.
  { intros e. unfold chosen. rewrite !list_elem_of_In. apply filter_In. }
  split_and!.
  - assert (Sorted.StronglySorted (strictly le) (dedup_by (fun left right => path_same (sn_path left) (sn_path right)) (sort_by le chosen))) as Hs.
    { apply dedup_by_sorted; [intros x y z; apply bytes_le_trans|apply sort_by_sorted; [intros x y; apply bytes_le_total|intros x y z; apply bytes_le_trans]|].
      intros x y _ _ Hxy Hyx. apply bool_decide_eq_true. by apply bytes_le_eq. }
    induction Hs as [|e l _ IH He]; constructor; [done|]. eapply list.Forall_impl; [exact He|]. intros e' [H1 H2]. by apply bytes_lt_le.
  - intros e He%dedup_by_elem%elem_of_sort_by. by apply Hc.
  - intros e He Hsel. destruct (dedup_by_covers (fun left right => path_same (sn_path left) (sn_path right)) (sort_by le chosen) e)
      as (e' & He' & Hs); [by apply elem_of_sort_by, Hc|].
    exists e'. split; [done|]. destruct Hs as [->|Hs]; [done|]. by apply bool_decide_eq_true in Hs.
Qed.

Lemma search_paths_spec paths p : p ∈ sort_deduplicate_search_paths paths -> p ∈ paths.
Proof. by intros H%dedup_by_elem%elem_of_sort_by. Qed.

Lemma search_paths_sorted paths :
  Sorted.StronglySorted (fun p q => bytes_lt (sp_stable_sort_key p) (sp_stable_sort_key q) = true) (sort_deduplicate_search_paths paths)
  /\ forall p, p ∈ paths -> exists q, q ∈ sort_deduplicate_search_paths paths /\ sp_stable_sort_key q = sp_stable_sort_key p.
Proof.
  unfold sort_deduplicate_search_paths. split.
  - assert (Sorted.StronglySorted (strictly path_le) (dedup_by path_same (sort_by path_le paths))) as Hs.
    { apply dedup_by_sorted; [intros x y z; apply bytes_le_trans|apply sort_by_sorted; [intros x y; apply bytes_le_total|intros x y z; apply bytes_le_trans]|].
      intros x y _ _ Hxy Hyx. apply bool_decide_eq_true. by apply bytes_le_eq. }
    induction Hs as [|e l _ IH He]; constructor; [done|]. eapply list.Forall_impl; [exact He|]. intros e' [H1 H2]. by apply bytes_lt_le.
  - intros p Hp. destruct (dedup_by_covers path_same (sort_by path_le paths) p) as (q & Hq & Hs); [by apply elem_of_sort_by|].
    exists q. split; [done|]. destruct Hs as [->|Hs]; [done|]. by apply bool_decide_eq_true in Hs.
Qed.
End listings.

(** The batches within the limit, one after another. *)
Lemma extend_batches_ok limits batches : forall entries all,
  extend_batches limits batches entries = Ok all ->
  exists lists, batches = Ok <$> lists /\ all = entries ++ concat lists
    /\ (lists <> [] -> len all <= sl_max_list_entries limits).
Proof.
  induction batches as [|batch batches IH]; intros entries all H; cbn in H.
  - injection H as <-. exists []. by rewrite app_nil_r.
  - apply bind_ok in H as (l & -> & H). apply bind_ok in H as (more & Hm & H).
    unfold extend_list_entries in Hm. destruct (Z.ltb_spec (sl_max_list_entries limits) (len (entries ++ l))); [done|].
    injection Hm as <-. destruct (IH _ _ H) as (lists & -> & -> & Hl). exists (l :: lists). split; [done|].
    cbn [concat]. rewrite app_assoc. split; [done|]. intros _. destruct lists as [|k lists]; [by rewrite app_nil_r|by apply Hl].
Qed.

(** ** Matches *)

Section scanning.
Context `{engine : RegexEngine} (path : SemanticPath) (matcher : Matcher).

(** A line without the carriage return at its end. *)
Definition line_of (raw : str) : str := default raw (strip_suffix 13 raw).
Definition has_return (raw : str) : bool := negb (str_len (line_of raw) =? str_len raw).

Fixpoint text_matches (index : Z) (lines : list str) : list SemanticSearchMatch :=
  match lines with
  | [] => []
  | raw :: lines =>
      (match Matcher_find matcher (line_of raw) with
       | Some column => [mkSemanticMatch path (index + 1) (column + 1) (line_of raw)]
       | None => []
       end) ++ text_matches (index + 1) lines
  end.

Lemma elem_of_text_matches m lines : forall index,
  m ∈ text_matches index lines <-> exists i raw column, lines !! i = Some raw
    /\ Matcher_find matcher (line_of raw) = Some column
    /\ m = mkSemanticMatch path (index + Z.of_nat i + 1) (column + 1) (line_of raw).
Proof.
  induction lines as [|raw lines IH]; intros index; cbn.
  { split; [intros H; by apply elem_of_nil in H|naive_solver]. }
  rewrite elem_of_app, IH. split.
  - intros [H|(i & r & c & Hi & Hf & ->)].
    + destruct (Matcher_find matcher (line_of raw)) as [c|] eqn:E; [|by apply elem_of_nil in H].
      apply list_elem_of_singleton in H as ->. exists 0%nat, raw, c. split_and!; [done..|]. f_equal. lia.
    + exists (S i), r, c. split_and!; [done..|]. f_equal. lia.
  - intros ([|i] & r & c & Hi & Hf & ->).
    + injection Hi as ->. left. rewrite Hf. apply list_elem_of_singleton. f_equal. lia.
    + right. exists i, r, c. split_and!; [done..|]. f_equal. lia.
Qed.

Lemma text_matches_sorted lines : forall index,
  Sorted.StronglySorted (fun m m' => ma_line m < ma_line m') (text_matches index lines)
  /\ Forall (fun m => index < ma_line m) (text_matches index lines).
Proof.
  induction lines as [|raw lines IH]; intros index; cbn; [repeat constructor|].
  destruct (IH (index + 1)) as [Hs Hf]. assert (Forall (fun m => index < ma_line m) (text_matches (index + 1) lines)) as Hf'
    by (eapply list.Forall_impl; [exact Hf|]; cbn; lia).
  destruct (Matcher_find matcher (line_of raw)); cbn; [|by split]. split; constructor; try done; cbn; lia.
Qed.

Context (max_matches : Z).

Lemma scan_lines_spec lines : forall index matches normalized,
  let all := matches ++ text_matches index lines in
  let result := scan_lines path matcher max_matches index lines matches normalized in
  len matches <= max_matches ->
  if len all <=? max_matches then result = mkFileMatches all (normalized || existsb has_return lines) false false false
  else mf_overflowed result = true.
Proof.
  induction lines as [|raw lines IH]; intros index matches normalized all result Hm; subst all result; cbn.
  { rewrite app_nil_r, orb_false_r. destruct (Z.leb_spec (len matches) max_matches); [done|lia]. }
  fold (line_of raw). fold (has_return raw). destruct (Matcher_find matcher (line_of raw)) as [column|].
  - set (m := mkSemanticMatch _ _ _ _). destruct (Z.ltb_spec max_matches (len (matches ++ [m]))) as [Hlt|Hle].
    + destruct (Z.leb_spec (len (matches ++ [m] ++ text_matches (index + 1) lines)) max_matches) as [Hle|]; [|done].
      rewrite !len_app in *. pose proof (len_nonneg (text_matches (index + 1) lines)). lia.
    + specialize (IH (index + 1) (matches ++ [m]) (normalized || has_return raw) Hle). cbv zeta in IH.
      rewrite <- !app_assoc, <- orb_assoc in IH. exact IH.
  - specialize (IH (index + 1) matches (normalized || has_return raw) Hm). cbv zeta in IH. rewrite <- orb_assoc in IH. exact IH.
Qed.

(** A scan that is not too long: the matching lines of a text, nothing of other bytes. *)
Lemma scan_file_spec b :
  0 <= max_matches -> mf_overflowed (scan_file path matcher max_matches b) = false ->
  scan_file path matcher max_matches b =
    match from_utf8 b with
    | Ok text => mkFileMatches (text_matches 0 (split_terminator 10 text)) (existsb has_return (split_terminator 10 text)) false false false
    | Err _ => mkFileMatches [] false true false false
    end.
Proof.
  intros Hmax. unfold scan_file. destruct (from_utf8 b) as [text|]; [|done].
  pose proof (scan_lines_spec (split_terminator 10 text) 0 [] false Hmax) as H. cbv zeta in H. cbn [app orb] in H.
  destruct (_ <=? _); [by rewrite H|congruence].
Qed.
End scanning.

Lemma finish_results_ok scanned max : forall matches n p m' n' p',
  finish_results scanned max matches n p = Ok (m', n', p') ->
  exists files, scanned = Ok <$> files /\ Forall (fun f => mf_cancelled f = false /\ mf_overflowed f = false) files
    /\ m' = matches ++ (files ≫= mf_matches) /\ n' = n || existsb mf_normalized files /\ p' = p || existsb mf_binary files.
Proof.
  induction scanned as [|next scanned IH]; intros matches n p m' n' p' H; cbn in H.
  - injection H as <- <- <-. exists []. cbn. by rewrite app_nil_r, !orb_false_r.
  - apply bind_ok in H as (f & -> & H). destruct (mf_cancelled f) eqn:Ec; [done|]. destruct (mf_overflowed f) eqn:Eo; [done|].
    destruct (_ <? _); [done|]. destruct (IH _ _ _ _ _ _ H) as (files & -> & Hf & -> & -> & ->). exists (f :: files).
    cbn. rewrite app_assoc, !orb_assoc. by split_and!; [|constructor|..].
Qed.

Lemma match_le_total m m' : match_le m m' = true \/ match_le m' m = true.
Proof.
  unfold match_le. destruct (bytes_lt _ _) eqn:E1; [by left|].
  destruct (bytes_lt (sp_stable_sort_key (ma_path m')) _) eqn:E2; [by right|].
  destruct (Z.ltb_spec (ma_line m) (ma_line m')); [by left|]. destruct (Z.ltb_spec (ma_line m') (ma_line m)); [by right|].
  destruct (Z.leb_spec (ma_column m) (ma_column m')); [by left|]. right. apply Z.leb_le. lia.
Qed.

(** The order of matches, as a lexicographic one. *)
Lemma match_le_iff m m' :
  let k := sp_stable_sort_key (ma_path m) in let k' := sp_stable_sort_key (ma_path m') in
  match_le m m' = true <->
  bytes_lt k k' = true \/ (k = k' /\ (ma_line m < ma_line m' \/ (ma_line m = ma_line m' /\ ma_column m <= ma_column m'))).
Proof.
  intros k k'. unfold match_le. fold k k'. destruct (bytes_lt k k') eqn:E1; [split; [by left|done]|].
  destruct (bytes_lt k' k) eqn:E2.
  { split; [done|]. intros [?|[-> _]]; [done|]. by rewrite bytes_lt_irrefl in E2. }
  assert (k = k') as Hk by by apply bytes_lt_total.
  destruct (Z.ltb_spec (ma_line m) (ma_line m')); [split; [intros _; right; split; [done|by left]|done]|].
  destruct (Z.ltb_spec (ma_line m') (ma_line m)); [split; [done|intros [?|[_ ?]]; [done|lia]]|].
  rewrite Z.leb_le. split; [intros ?; right; split; [done|right; lia]|intros [?|[_ ?]]; [done|lia]].
Qed.

Lemma match_le_trans m1 m2 m3 : match_le m1 m2 = true -> match_le m2 m3 = true -> match_le m1 m3 = true.
Proof.
  rewrite !match_le_iff. intros [H1|[E1 H1]] [H2|[E2 H2]].
  - left. by eapply bytes_lt_trans.
  - left. congruence.
  - left. congruence.
  - right. split; [congruence|]. lia.
Qed.

(** *** The service's listing *)

Section listing.
Context `{sort : UnstableSort} `{laws : !UnstableSortLaws sort} `{fs : SemanticFileSystem} (limits : SemanticLimits).
Context (resolve : OsString -> result SemanticError Resolved).
Context (walk : Resolved -> SemanticWalkOptions -> result SemanticError (list SemanticEntry)).

(** A chosen entry below one of the paths. *)
Definition listed (query : ListQuery) (e : SemanticEntry) : Prop := exists root r batch,
  root ∈ ql_paths query /\ resolve root = Ok r /\ walk r (list_options limits query) = Ok batch
  /\ e ∈ batch /\ selected e (ql_filter query) = true.

Lemma listing_of_exact query entries :
  listing_of limits resolve walk query = Ok entries ->
  Sorted.StronglySorted (fun e e' => bytes_lt (entry_key e) (entry_key e') = true) entries
  /\ (forall e, e ∈ entries -> listed query e)
  /\ (forall e, listed query e -> exists e', e' ∈ entries /\ entry_key e' = entry_key e).
Proof.
  intros H. unfold listing_of in H. apply bind_ok in H as (roots & Hr%mapM_ok & H). apply bind_ok in H as (all & Ha & H).
  injection H as <-. apply extend_batches_ok in Ha as (lists & Hl & -> & _). cbn [app].
  destruct (finish_list_spec (concat lists) (ql_filter query)) as (Hs & Hin & Hcover).
  assert (forall e, e ∈ concat lists <-> exists root r batch, root ∈ ql_paths query /\ resolve root = Ok r
    /\ walk r (list_options limits query) = Ok batch /\ e ∈ batch) as Hall.
  { intros e. rewrite list_elem_of_In, in_concat. split.
    - intros (batch & Hb%list_elem_of_In & He%list_elem_of_In). apply list_elem_of_lookup in Hb as [k Hk].
      assert (((fun root => walk root (list_options limits query)) <$> roots) !! k = Some (Ok batch)) as Hw
        by (rewrite Hl, list_lookup_fmap, Hk; done).
      apply list_lookup_fmap_Some in Hw as (r & Hw & Hrk). destruct (Forall2_lookup_r _ _ _ _ _ Hr Hrk) as (root & Hroot & Hres).
      exists root, r, batch. split_and!; [by eapply list_elem_of_lookup_2|done|by rewrite Hw|done].
    - intros (root & r & batch & Hroot & Hres & Hw & He). apply list_elem_of_lookup in Hroot as [k Hk].
      destruct (Forall2_lookup_l _ _ _ _ _ Hr Hk) as (r' & Hrk & Hres'). assert (r' = r) as -> by congruence.
      assert ((Ok <$> lists) !! k = Some (Ok batch : result SemanticError _)) as Hb by (rewrite <- Hl, list_lookup_fmap, Hrk; cbn; by rewrite Hw).
      apply list_lookup_fmap_Some in Hb as (b & [= <-] & Hb). exists batch. split; apply list_elem_of_In; [by eapply list_elem_of_lookup_2|done]. }
  split_and!; [done| |].
  - intros e He. destruct (Hin e He) as [Hc Hsel]. apply Hall in Hc as (root & r & batch & ? & ? & ? & ?). by exists root, r, batch.
  - intros e (root & r & batch & ? & ? & ? & ? & Hsel). apply Hcover; [apply Hall; by exists root, r, batch|done].
Qed.
End listing.

(** ** Searches *)

Section search.
Context `{sort : UnstableSort} `{laws : !UnstableSortLaws sort} `{engine : RegexEngine}.
Context `{fs : SemanticFileSystem} (limits : SemanticLimits).
Context (resolve : OsString -> result SemanticError Resolved) (read : Resolved -> Z -> result SemanticError bytes).
Context (walk : Resolved -> SemanticWalkOptions -> result SemanticError (list SemanticEntry)).

(** Equal keys identify the same path, as the interface demands. *)
Record good_keys : Prop := mkGoodKeys {
  gk_entries : forall r o l r' o' l' e e', walk r o = Ok l -> walk r' o' = Ok l' -> e ∈ l -> e' ∈ l' ->
    entry_key e = entry_key e' -> sn_path e = sn_path e';
  gk_resolved : forall p q a b, resolve p = Ok a -> resolve q = Ok b ->
    sp_stable_sort_key (fs_semantic_path a) = sp_stable_sort_key (fs_semantic_path b) -> a = b;
}.

(** A file below one of the paths. *)
Definition searched (query : SearchQuery) (file : Resolved) : Prop := exists root r entries e,
  root ∈ qs_paths query /\ resolve root = Ok r /\ walk r (search_options limits query) = Ok entries
  /\ e ∈ entries /\ sn_kind e = SkFile /\ resolve (sp_path (sn_path e)) = Ok file.

(** What a file holds. *)
Definition holds_text (file : Resolved) (text : str) : Prop :=
  exists b, read file (sl_max_search_file_bytes limits) = Ok b /\ from_utf8 b = Ok text.
Definition holds_binary (file : Resolved) : Prop :=
  exists b at_, read file (sl_max_search_file_bytes limits) = Ok b /\ from_utf8 b = Err at_.

(** The [i]-th line of a searched file matches. *)
Definition matching (query : SearchQuery) (matcher : Matcher) (m : SemanticSearchMatch) : Prop :=
  exists file text i raw column, searched query file /\ holds_text file text
    /\ split_terminator 10 text !! i = Some raw /\ Matcher_find matcher (line_of raw) = Some column
    /\ m = mkSemanticMatch (fs_semantic_path file) (Z.of_nat i + 1) (column + 1) (line_of raw).

Record search_exact (query : SearchQuery) (result : SemanticSearchResult) : Prop := mkSearchExact {
  se_matches : exists matcher, Matcher_new query = Ok matcher
    /\ forall m, m ∈ sx_matches result <-> matching query matcher m;
  se_order : Sorted.StronglySorted (strictly match_le) (sx_matches result);
  se_normalized : sx_normalized_text result = true <-> exists file text raw,
    searched query file /\ holds_text file text /\ raw ∈ split_terminator 10 text /\ has_return raw = true;
  se_partial : sx_partial result = true <-> exists file, searched query file /\ holds_binary file;
}.

Lemma resolved_files query roots batches resolved :
  good_keys -> mapM resolve (qs_paths query) = Ok roots ->
  mapM (fun root => walk root (search_options limits query)) roots = Ok batches ->
  mapM (fun path => resolve (sp_path path)) (sort_deduplicate_search_paths (batches ≫= files_of)) = Ok resolved ->
  forall file, file ∈ resolved <-> searched query file.
Proof.
  intros Hkeys Hr%mapM_ok Hb%mapM_ok Hres%mapM_ok file.
  assert (forall p, p ∈ batches ≫= files_of <-> exists root r entries e, root ∈ qs_paths query /\ resolve root = Ok r
    /\ walk r (search_options limits query) = Ok entries /\ e ∈ entries /\ sn_kind e = SkFile /\ sn_path e = p) as Hp.
  { intros p. rewrite list_elem_of_bind. split.
    - intros (entries & He & Hin). apply list_elem_of_fmap in He as (e & -> & He). apply list_elem_of_In, filter_In in He as [He Hk].
      apply bool_decide_eq_true in Hk. apply list_elem_of_lookup in Hin as [k Hk2].
      destruct (Forall2_lookup_r _ _ _ _ _ Hb Hk2) as (r & Hr2 & Hw). destruct (Forall2_lookup_r _ _ _ _ _ Hr Hr2) as (root & Hr3 & Hroot).
      exists root, r, entries, e. split_and!; try done; [by eapply list_elem_of_lookup_2|by apply list_elem_of_In].
    - intros (root & r & entries & e & Hroot & Hrr & Hw & He & Hk & <-).
      apply list_elem_of_lookup in Hroot as [k Hk1]. destruct (Forall2_lookup_l _ _ _ _ _ Hr Hk1) as (r' & Hr2 & Hr3).
      assert (r' = r) as -> by congruence. destruct (Forall2_lookup_l _ _ _ _ _ Hb Hr2) as (entries' & Hb2 & Hw').
      assert (entries' = entries) as -> by congruence. exists entries. split; [|by eapply list_elem_of_lookup_2].
      apply list_elem_of_fmap. exists e. split; [done|]. apply list_elem_of_In, filter_In. split; [by apply list_elem_of_In|].
      by apply bool_decide_eq_true. }
  split.
  - intros [k Hk]%list_elem_of_lookup. destruct (Forall2_lookup_r _ _ _ _ _ Hres Hk) as (p & Hp2 & Hpr).
    apply list_elem_of_lookup_2, search_paths_spec, Hp in Hp2 as (root & r & entries & e & ? & ? & ? & ? & ? & <-).
    by exists root, r, entries, e.
  - intros (root & r & entries & e & Hroot & Hrr & Hw & He & Hk & Hf).
    assert (sn_path e ∈ batches ≫= files_of) as Hin by (apply Hp; by exists root, r, entries, e).
    destruct (proj2 (search_paths_sorted (batches ≫= files_of)) _ Hin) as (q & Hq & Hqk).
    pose proof (search_paths_spec _ _ Hq) as (root' & r' & entries' & e' & _ & _ & Hw' & He' & _ & <-)%Hp.
    pose proof (gk_entries Hkeys _ _ _ _ _ _ _ _ Hw' Hw He' He Hqk) as E. rewrite E in Hq.
    apply list_elem_of_lookup in Hq as [j Hj]. destruct (Forall2_lookup_l _ _ _ _ _ Hres Hj) as (file' & Hf2 & Hf3).
    assert (file' = file) as -> by congruence. by eapply list_elem_of_lookup_2.
Qed.

(** What the scan of a file gives, when it is not too long. *)
Definition file_result (matcher : Matcher) (file : Resolved) (f : FileMatches) : Prop :=
  exists b, read file (sl_max_search_file_bytes limits) = Ok b /\
    f = match from_utf8 b with
        | Ok text => mkFileMatches (text_matches (fs_semantic_path file) matcher 0 (split_terminator 10 text))
                       (existsb has_return (split_terminator 10 text)) false false false
        | Err _ => mkFileMatches [] false true false false
        end.

Lemma scanned_files query matcher resolved files :
  0 <= sl_max_matches_per_file limits -> (forall file, file ∈ resolved <-> searched query file) ->
  scan_of limits read matcher <$> resolved = Ok <$> files ->
  Forall (fun f => mf_cancelled f = false /\ mf_overflowed f = false) files ->
  forall f, f ∈ files <-> exists file, searched query file /\ file_result matcher file f.
Proof.
  intros Hmax Hfile Hscan Hfine.
  assert (Forall2 (file_result matcher) resolved files) as HF.
  { clear Hfile. revert files Hscan Hfine. induction resolved as [|file resolved IH]; intros [|f files] Hscan Hfine; try done.
    injection Hscan as Hf Hscan. apply list.Forall_cons in Hfine as [[_ Ho] Hfine]. constructor; [|by apply IH].
    unfold scan_of in Hf. apply bind_ok in Hf as (b & Hb & Hf). injection Hf as <-. exists b. split; [done|]. by apply scan_file_spec. }
  intros f. split.
  - intros [k Hk]%list_elem_of_lookup. destruct (Forall2_lookup_r _ _ _ _ _ HF Hk) as (file & Hf & Hres).
    exists file. split; [apply Hfile; by eapply list_elem_of_lookup_2|done].
  - intros (file & Hs & b & Hrd & ->). apply Hfile, list_elem_of_lookup in Hs as [k Hk].
    destruct (Forall2_lookup_l _ _ _ _ _ HF Hk) as (f & Hf & b' & Hrd' & ->). assert (b' = b) as -> by congruence.
    by eapply list_elem_of_lookup_2.
Qed.

Section results.
Context (query : SearchQuery) (matcher : Matcher) (files : list FileMatches).
Context (Hin : forall f, f ∈ files <-> exists file, searched query file /\ file_result matcher file f).

Lemma files_matching m : m ∈ files ≫= mf_matches <-> matching query matcher m.
Proof.
  rewrite list_elem_of_bind. split.
  - intros (f & Hmf & Hf). apply Hin in Hf as (file & Hs & b & Hrd & ->).
    destruct (from_utf8 b) as [text|] eqn:Eb; [|by apply elem_of_nil in Hmf]. cbn in Hmf.
    apply elem_of_text_matches in Hmf as (i & raw & c & Hi & Hf & ->). exists file, text, i, raw, c. split_and!; try done. by exists b.
  - intros (file & text & i & raw & c & Hs & (b & Hrd & Hu) & Hi & Hf & ->).
    eexists. split; [|apply (proj2 (Hin _)); exists file; split; [done|exists b; split; [done|reflexivity]]].
    rewrite Hu. cbn. apply elem_of_text_matches. by exists i, raw, c.
Qed.

(** Two matches at the same place are one. *)
Lemma matching_place x y :
  good_keys -> matching query matcher x -> matching query matcher y -> match_le x y = true -> match_le y x = true -> x = y.
Proof.
  intros Hkeys (fx & tx & ix & rx & cx & (? & ? & ? & ? & _ & _ & _ & _ & _ & Hrx) & (bx & Hbx & Hux) & Hix & Hfx & ->)
    (fy & ty & iy & ry & cy & (? & ? & ? & ? & _ & _ & _ & _ & _ & Hry) & (bY & Hby & Huy) & Hiy & Hfy & ->) Hxy Hyx.
  apply match_le_iff in Hxy, Hyx. cbn in Hxy, Hyx.
  assert (sp_stable_sort_key (fs_semantic_path fx) = sp_stable_sort_key (fs_semantic_path fy)) as Hk.
  { destruct Hxy as [Hlt|[? _]]; [|done]. destruct Hyx as [Hlt2|[? _]]; [|done].
    pose proof (bytes_lt_trans _ _ _ Hlt Hlt2) as Hx. by rewrite bytes_lt_irrefl in Hx. }
  assert (fx = fy) as -> by by eapply (gk_resolved Hkeys). assert (bY = bx) as -> by congruence. assert (ty = tx) as -> by congruence.
  rewrite !bytes_lt_irrefl in Hxy, Hyx. assert (ix = iy) as -> by lia. assert (ry = rx) as -> by congruence. congruence.
Qed.

Lemma files_normalized : existsb mf_normalized files = true <-> exists file text raw,
  searched query file /\ holds_text file text /\ raw ∈ split_terminator 10 text /\ has_return raw = true.
Proof.
  rewrite existsb_exists. split.
  - intros (f & Hf%list_elem_of_In & Hn). apply Hin in Hf as (file & Hs & b & Hrd & ->).
    destruct (from_utf8 b) as [text|] eqn:Eb; [|done]. cbn in Hn. apply existsb_exists in Hn as (raw & Hraw%list_elem_of_In & Hret).
    exists file, text, raw. split_and!; try done. by exists b.
  - intros (file & text & raw & Hs & (b & Hrd & Hu) & Hraw & Hret).
    eexists. split; [apply list_elem_of_In, (proj2 (Hin _)); exists file; split; [done|exists b; split; [done|reflexivity]]|].
    rewrite Hu. cbn. apply existsb_exists. exists raw. split; [by apply list_elem_of_In|done].
Qed.

Lemma files_binary : existsb mf_binary files = true <-> exists file, searched query file /\ holds_binary file.
Proof.
  rewrite existsb_exists. split.
  - intros (f & Hf%list_elem_of_In & Hn). apply Hin in Hf as (file & Hs & b & Hrd & ->).
    destruct (from_utf8 b) as [text|at_] eqn:Eb; [done|]. exists file. split; [done|]. by exists b, at_.
  - intros (file & Hs & b & at_ & Hrd & Hu).
    eexists. split; [apply list_elem_of_In, (proj2 (Hin _)); exists file; split; [done|exists b; split; [done|reflexivity]]|]. by rewrite Hu.
Qed.
End results.

Lemma search_of_exact query result :
  good_keys -> 0 <= sl_max_matches_per_file limits ->
  search_of limits resolve read walk query = Ok result -> search_exact query result.
Proof.
  intros Hkeys Hmax H. unfold search_of in H. apply bind_ok in H as (matcher & Hm & H).
  apply bind_ok in H as (roots & Hr & H). apply bind_ok in H as (batches & Hb & H). apply bind_ok in H as (resolved & Hres & H).
  pose proof (resolved_files _ _ _ _ Hkeys Hr Hb Hres) as Hfile. unfold found_of in H.
  apply bind_ok in H as ([[ms n] p] & Hloop & H). injection H as <-.
  apply finish_results_ok in Hloop as (files & Hscan & Hfine & -> & -> & ->).
  pose proof (scanned_files _ _ _ _ Hmax Hfile Hscan Hfine) as Hin.
  pose proof (files_matching query matcher files Hin) as Hmatch.
  split; cbn [sx_matches sx_normalized_text sx_partial app orb].
  - exists matcher. split; [done|]. intros m. rewrite <- Hmatch. split.
    + by intros Hd%dedup_by_elem%elem_of_sort_by.
    + intros Hmm. destruct (dedup_by_covers (fun left right => bool_decide (left = right)) (sort_by match_le (files ≫= mf_matches)) m)
        as (y & Hy & [->|E]); [by apply elem_of_sort_by|done|]. by apply bool_decide_eq_true in E as ->.
  - apply dedup_by_sorted; [exact match_le_trans|apply sort_by_sorted; [exact match_le_total|exact match_le_trans]|].
    intros x y Hx%elem_of_sort_by%Hmatch Hy%elem_of_sort_by%Hmatch Hxy Hyx. apply bool_decide_eq_true. by apply (matching_place query matcher).
  - by apply (files_normalized query matcher).
  - by apply (files_binary query matcher).
Qed.
End search.

(** * the workspace at rest

    A workspace whose files nobody changes is a provider that stands still, and its keys
    tell its paths apart. *)

Section rest.
Context `{sort : UnstableSort} (su : Surroundings) (internal : bool) (tree : FileTree).
Context (Htree : forall turn d, su_tree su turn d = tree).

(** The answer is the same in every state. *)
Definition settled {E A} (m : op E A) : Prop := exists r, yields su internal m r.

Lemma settled_bind {E A B} (m : op E A) (k : A -> op E B) : settled m -> (forall a, settled (k a)) -> settled (m ≫= k).
Proof.
  intros [r Hm] Hk. destruct r as [a|e].
  - destruct (Hk a) as [s Hs]. exists s. apply (yields_then su internal _ _ (Ok a) (fun _ => s)); [done|]. by intros ? [= <-].
  - exists (Err e). by apply (yields_then su internal m k (Err e) (fun _ => Err e)).
Qed.
Lemma settled_ret {E A} (a : A) : settled (mret a : op E A).
Proof. eexists. apply yields_ret. Qed.
Lemma settled_fail {E A} (e : E) : settled (op_fail e : op E A).
Proof. eexists. apply yields_fail. Qed.
Lemma settled_lift {E A} (r : result E A) : settled (op_lift r).
Proof. eexists. apply yields_lift. Qed.
Lemma settled_surroundings {E} : settled (get_surroundings : op E _).
Proof. exists (Ok su). by intros st. Qed.
Lemma settled_internal {E} : settled (load_internal : op E _).
Proof. exists (Ok internal). intros st Hst. cbn. by rewrite Hst. Qed.
Lemma settled_native {A} (f : FileTree -> result IoKind A) : settled (native_call f).
Proof.
  exists (map_err PL_Io (f tree)). intros st Hst. unfold native_call. rewrite Htree.
  destruct (f tree); cbn; by rewrite others_internal.
Qed.
Lemma settled_map_err {E F A} (f : E -> F) (m : op E A) : settled m -> settled (op_map_err f m).
Proof.
  intros [r Hm]. exists (map_err f r). intros st Hst. destruct (Hm st Hst) as [Ho Hi]. unfold op_map_err.
  destruct (m su st) as [o st']. cbn in Ho, Hi. subst o. by destruct r.
Qed.

Create HintDb settled.
Hint Resolve settled_ret settled_fail settled_lift settled_surroundings settled_internal settled_native settled_map_err : settled.
Ltac settle := repeat match goal with
  | |- forall _, _ => intro
  | |- settled (_ ≫= _) => apply settled_bind
  | |- settled (if ?b then _ else _) => destruct b
  | |- settled _ => solve [eauto with settled]
  end.

Lemma settled_each_child {E A} (visit : OsString -> A -> op E A) names : forall output,
  (forall name output, settled (visit name output)) -> settled (each_child visit names output).
Proof. induction names as [|name names IH]; intros output Hv; cbn [each_child]; settle; auto. Qed.

Lemma settled_revalidate path : settled (revalidate path).
Proof. unfold revalidate. settle. Qed.
Hint Resolve settled_revalidate : settled.

Lemma settled_resolve path : settled (fs_resolve_existing path).
Proof. cbn. unfold platform, workspace_resolve, resolve_existing. apply settled_map_err. settle. Qed.

Lemma settled_read path max : settled (fs_read_limited path max).
Proof. cbn. unfold platform, read_limited_sync. apply settled_map_err. settle. Qed.

Lemma settled_walk_inner options remaining : forall native depth output, settled (walk_inner options remaining native depth output).
Proof.
  induction remaining as [|remaining IH]; intros; cbn [walk_inner]; settle; [|].
  - unfold read_dir_names. settle.
  - apply settled_each_child. intros. apply IH.
Qed.

Lemma settled_walk root options : settled (fs_walk root options).
Proof. cbn. unfold platform, workspace_walk, walk. apply settled_map_err. settle. apply settled_walk_inner. Qed.

(** The answers, as given in one state. *)
Context (st : Progress) (Hst : w_internal (pg_world st) = internal).
Definition answer_now {A} (m : op SemanticError A) : result SemanticError A :=
  match (m su st).1 with Done a => Ok a | Fail_ e => Err e | Crash => Err SmCancelled end.

Lemma settled_answer {A} (m : op SemanticError A) : settled m -> yields su internal m (answer_now m).
Proof. intros [r Hm]. unfold answer_now. destruct (Hm st Hst) as [-> _]. by destruct r. Qed.

Lemma answer_now_ok {A} (m : op SemanticError A) a : answer_now m = Ok a -> exists st', m su st = (Done a, st').
Proof. unfold answer_now. destruct (m su st) as [[]]; naive_solver. Qed.

Definition rest_resolve (path : OsString) : result SemanticError ResolvedPath := answer_now (fs_resolve_existing path).
Definition rest_read (path : ResolvedPath) (max : Z) : result SemanticError bytes := answer_now (fs_read_limited path max).
Definition rest_walk (root : ResolvedPath) (options : SemanticWalkOptions) : result SemanticError (list SemanticEntry) :=
  answer_now (fs_walk root options).

Lemma workspace_stands_still :
  (forall turn, su_cancelled su turn = false) -> (forall turn, su_worker su turn = true) ->
  stands_still su internal rest_resolve rest_read rest_walk.
Proof.
  intros Hc Hw. split; [done|done|..].
  - intros path. apply settled_answer, settled_resolve.
  - intros path max. apply settled_answer, settled_read.
  - intros root options. apply settled_answer, settled_walk.
Qed.

Lemma workspace_keys : good_keys rest_resolve rest_walk.
Proof.
  assert (forall r o l e, rest_walk r o = Ok l -> e ∈ l -> exists n, sn_path e = logical_path n) as Hw.
  { intros r o l e [st' H]%answer_now_ok He. cbn in H. apply op_map_err_done in H. unfold workspace_walk in H.
    apply op_bind_done in H as (entries & s1 & _ & H). injection H as <- _.
    apply list_elem_of_fmap in He as (n & -> & _). by exists (ne_logical n). }
  assert (forall p a, rest_resolve p = Ok a -> str_bytes (rp_logical a) = p) as Hr.
  { intros p a [st' H]%answer_now_ok. cbn in H. apply op_map_err_done in H. unfold workspace_resolve in H.
    apply op_bind_done in H as (logical & s1 & [Hl ->]%op_lift_done & H).
    apply (resolve_existing_confined su (waits su)) in H as (_ & -> & _).
    apply ok_or_ok in Hl. unfold to_str, to_option in Hl. destruct (from_utf8 p) as [s|] eqn:E; [|done].
    injection Hl as <-. by apply from_utf8_Ok in E as [_ ?]. }
  split.
  - intros r o l r' o' l' e e' H H' He He' Hk. destruct (Hw _ _ _ _ H He) as [n Hn], (Hw _ _ _ _ H' He') as [n' Hn'].
    unfold entry_key in Hk. rewrite Hn, Hn' in *. unfold logical_path in *. cbn in Hk. by rewrite Hk.
  - intros p q a b Ha Hb Hk. cbn in Hk. pose proof (Hr _ _ Ha). pose proof (Hr _ _ Hb). congruence.
Qed.
End rest.
