(* ===== verification/Queries.v ===== *)
(** * Queries: the read, list and search operations

    read.rs, list.rs and search.rs of crates/ash-ops/src: a query to the services over the
    workspace, the part of the result that fits the answer, and the rest retained. *)

From S2P Require Import Prelude Text AsonModel AsonCodec Wire Capability Budget Paths Store.
From S2P Require Import Capture Governor Runtime Workspace Manifest Disk Mutation Permits.
From S2P Require Import NativeTree Request Response ResponseFacts Projection ProjectionFacts.
From S2P Require Import Authorization WorkspaceRead Semantic.

(** [protocol_path] of projection.rs. *)
Definition protocol_path (path : SemanticPath) : result OperationError str :=
  ok_or (to_str (sp_path path)) (OE_Platform PL_NonUtf8Path).

Definition remaining_records : op OperationError Z :=
  shared (fun sh => (Ok (br_records (remaining (sh_budget sh))), sh)).

(** A document of evidence: its kind and a table. *)
Definition evidence_document (kind : str) (columns : list str) (rows : list (list Cell)) : result BuildError Document :=
  k ← Key_new (L "k");
  d ← Key_new (L "d");
  columns ← mapM Key_new columns;
  table ← Table_new columns rows;
  Document_new [mkField k (Scalar (AText kind)); mkField d (VTable table)].

Definition encode_document (kind : str) (columns : list str) (rows : list (list Cell)) : result OperationError bytes :=
  document ← map_err OE_Build (evidence_document kind columns rows);
  Ok (str_bytes (encode document)).

(** The two permits a query holds. *)
Definition acquire_both : op OperationError unit := _ ← acquire; acquire.

(** [largest_prefix], which [largest_prefix_spec] shows to end. *)
Definition fitting_prefix (total record_limit byte_limit : Z)
    (candidate : Z -> bool -> result OperationError FinalResponse) : op OperationError Z :=
  op_lift (default (Err OE_Task) (largest_prefix total record_limit byte_limit candidate)).

Definition first_records {A} (length : Z) (l : list A) : list A := take (Z.to_nat length) l.

Section operations.
Context `{lib : Libraries} `{sort : UnstableSort} `{engine : RegexEngine}.
Notation limits := SemanticLimits_default.

(** The answer's records, with the paths' identifiers. *)
Definition with_ids {A B} (f : A -> Z -> B) (records : list A) (ids : list Z) : list B := zip_with f records ids.

(** ** Read *)

Definition read_query (a : ReadArgs) : ReadQuery :=
  mkReadQuery (str_bytes <$> rd_paths a) (match rd_mode a with ReadBytes => SmBytes | ReadLines => SmLines end)
    (rd_offset a) (rd_length a).

(** The texts that go into the answer. *)
Fixpoint project_reads (reads : list SemanticRead) (text_budget : Z) : list (option str) :=
  match reads with
  | [] => []
  | read :: reads =>
      match from_utf8 (sr_bytes read) with
      | Ok text =>
          if str_len text <=? text_budget then Some text :: project_reads reads (text_budget - str_len text)
          else None :: project_reads reads text_budget
      | Err _ => None :: project_reads reads text_budget
      end
  end.

Definition needs_reference (text : option str) : bool := negb (is_some text).

Definition read_row (read : SemanticRead) (text : option str) (reference : option Z) (path : Z) : ReadResult :=
  mkReadResult path (sr_offset read) (sr_length read) (sr_digest read) text reference.

Definition read_response (request_id : Z) (mappings : list PathMapping) (reads : list SemanticRead)
    (projected : list (option str)) (references : list (option Z)) (ids : list Z) : result OperationError FinalResponse :=
  let flags := if existsb needs_reference projected then Z.lor RESULT_REDUCED RESULT_RETAINED else 0 in
  let data := with_ids (fun r path => r path) (zip_with (fun '(read, text) reference => read_row read text reference) (zip reads projected) references) ids in
  map_err OE_Response (FinalResponse_success request_id mappings (DRead data) flags None).

Fixpoint retain_reads (reads : list SemanticRead) (projected : list (option str)) : op OperationError (list (option Z)) :=
  match reads, projected with
  | read :: reads, text :: projected =>
      reference ← (if needs_reference text
                   then alias ← retain_result blake3 (sr_bytes read); mret (Some alias)
                   else mret None);
      references ← retain_reads reads projected;
      mret (reference :: references)
  | _, _ => mret []
  end.

Definition read_execute (request : Request) (a : ReadArgs) : op OperationError FinalResponse :=
  _ ← check_program;
  records ← remaining_records;
  if records <? len (rd_paths a) then op_fail OE_OutputBudget
  else
    _ ← acquire_both;
    reads ← op_map_err of_semantic (services_read limits (read_query a));
    _ ← check_program;
    byte_limit ← presentation_limit;
    let projected := project_reads reads (byte_limit / 2) in
    paths ← op_lift (mapM (fun read => protocol_path (sr_path read)) reads);
    let '(temporary_ids, temporary_mappings) := temporary_paths paths in
    let worst := (fun text => if needs_reference text then Some u64_max else None) <$> projected in
    temporary ← op_lift (read_response (rq_id request) temporary_mappings reads projected worst temporary_ids);
    text ← op_lift (encoded temporary);
    if byte_limit <? str_len text then op_fail OE_OutputBudget
    else
      references ← retain_reads reads projected;
      '(ids, mappings) ← intern_paths paths;
      response ← op_lift (read_response (rq_id request) mappings reads projected references ids);
      _ ← charge response (len paths);
      mret response.

(** ** List *)

Definition list_filter (a : ListArgs) : SemanticListFilter :=
  if negb (Z.land (ls_flags a) LIST_FILES_ONLY =? 0) then FilterFiles
  else if negb (Z.land (ls_flags a) LIST_DIRECTORIES_ONLY =? 0) then FilterDirectories
  else FilterAll.

Definition list_query (a : ListArgs) : ListQuery :=
  mkListQuery (str_bytes <$> ls_paths a) (ls_depth a) (negb (Z.land (ls_flags a) LIST_INCLUDE_HIDDEN =? 0)) (list_filter a).

Definition file_kind (kind : SemanticEntryKind) : FileKind :=
  match kind with SkFile => KFile | SkDirectory => KDirectory | SkSymlink => KSymlink | SkOther => KOther end.

Definition result_entry (entry : SemanticEntry) (path : Z) : ListEntry :=
  mkListEntry path (file_kind (sn_kind entry)) (sn_size entry).

Definition truncated_flags (truncated : bool) : Z :=
  if truncated then Z.lor (Z.lor RESULT_TRUNCATED RESULT_REDUCED) RESULT_RETAINED else 0.

Definition list_response (request_id : Z) (mappings : list PathMapping) (entries : list SemanticEntry) (ids : list Z)
    (truncated : bool) (reference : option Z) : result OperationError FinalResponse :=
  map_err OE_Response (FinalResponse_success request_id mappings (DList (with_ids result_entry entries ids))
    (truncated_flags truncated) reference).

Definition list_temporary (request_id : Z) (entries : list SemanticEntry) (truncated : bool)
    : result OperationError FinalResponse :=
  paths ← mapM (fun entry => protocol_path (sn_path entry)) entries;
  let '(ids, mappings) := temporary_paths paths in
  list_response request_id mappings entries ids truncated (if truncated then Some u64_max else None).

Definition list_evidence (entries : list SemanticEntry) : result OperationError bytes :=
  rows ← mapM (fun entry =>
    path ← protocol_path (sn_path entry);
    Ok [text_value path; text_value (to_string (FileKind_code (file_kind (sn_kind entry)))); text_value (to_string (sn_size entry))])
    entries;
  encode_document (L "l") [L "p"; L "k"; L "z"] rows.

Definition list_execute (request : Request) (a : ListArgs) : op OperationError FinalResponse :=
  _ ← check_program;
  _ ← acquire_both;
  entries ← op_map_err of_semantic (services_list limits (list_query a));
  _ ← check_program;
  byte_limit ← presentation_limit;
  record_limit ← remaining_records;
  shown ← fitting_prefix (len entries) record_limit byte_limit
    (fun length truncated => list_temporary (rq_id request) (first_records length entries) truncated);
  let truncated := shown <? len entries in
  reference ← (if truncated : bool
               then evidence ← op_lift (list_evidence entries); alias ← retain_result blake3 evidence; mret (Some alias)
               else mret None);
  let projected := first_records shown entries in
  paths ← op_lift (mapM (fun entry => protocol_path (sn_path entry)) projected);
  '(ids, mappings) ← intern_paths paths;
  response ← op_lift (list_response (rq_id request) mappings projected ids truncated reference);
  _ ← charge response shown;
  mret response.

(** ** Search *)

Definition search_query (a : SearchArgs) : SearchQuery :=
  mkSearchQuery (se_query a) (str_bytes <$> se_paths a)
    (if negb (Z.land (se_flags a) SEARCH_REGEX =? 0) then RegexPattern else LiteralPattern)
    (negb (Z.land (se_flags a) SEARCH_CASE_INSENSITIVE =? 0)) (negb (Z.land (se_flags a) SEARCH_INCLUDE_HIDDEN =? 0)).

Definition search_row (m : SemanticSearchMatch) (path : Z) : SearchMatch :=
  mkSearchMatch path (ma_line m) (ma_column m) (ma_text m).

Definition search_response (request_id : Z) (mappings : list PathMapping) (matches : list SemanticSearchMatch)
    (ids : list Z) (base_flags : Z) (truncated : bool) (reference : option Z) : result OperationError FinalResponse :=
  map_err OE_Response (FinalResponse_success request_id mappings (DSearch (with_ids search_row matches ids))
    (Z.lor base_flags (truncated_flags truncated)) reference).

Definition search_temporary (request_id : Z) (matches : list SemanticSearchMatch) (base_flags : Z) (truncated : bool)
    : result OperationError FinalResponse :=
  paths ← mapM (fun m => protocol_path (ma_path m)) matches;
  let '(ids, mappings) := temporary_paths paths in
  search_response request_id mappings matches ids base_flags truncated (if truncated then Some u64_max else None).

Definition search_evidence (matches : list SemanticSearchMatch) : result OperationError bytes :=
  rows ← mapM (fun m =>
    path ← protocol_path (ma_path m);
    Ok [text_value path; text_value (to_string (ma_line m)); text_value (to_string (ma_column m)); text_value (ma_text m)])
    matches;
  encode_document (L "g") [L "p"; L "l"; L "c"; L "t"] rows.

Definition search_execute (request : Request) (a : SearchArgs) : op OperationError FinalResponse :=
  _ ← check_program;
  _ ← acquire_both;
  result ← op_map_err of_semantic (services_search limits (search_query a));
  _ ← check_program;
  let matches := sx_matches result in
  let base_flags := Z.lor (if sx_normalized_text result then RESULT_NORMALIZED_TEXT else 0)
                      (if sx_partial result then RESULT_PARTIAL else 0) in
  byte_limit ← presentation_limit;
  record_limit ← remaining_records;
  shown ← fitting_prefix (len matches) record_limit byte_limit
    (fun length truncated => search_temporary (rq_id request) (first_records length matches) base_flags truncated);
  let truncated := shown <? len matches in
  reference ← (if truncated : bool
               then evidence ← op_lift (search_evidence matches); alias ← retain_result blake3 evidence; mret (Some alias)
               else mret None);
  let projected := first_records shown matches in
  paths ← op_lift (mapM (fun m => protocol_path (ma_path m)) projected);
  '(ids, mappings) ← intern_paths paths;
  response ← op_lift (search_response (rq_id request) mappings projected ids base_flags truncated reference);
  _ ← charge response shown;
  mret response.

End operations.

(** * what the answers to queries say

    The shared objects stay sound while a query runs, and its answer is what the
    services found: the records, the identifiers of their paths, and references to what
    was left out. *)

Section facts.
Context `{lib : Libraries} `{sort : UnstableSort} `{engine : RegexEngine} (su : Surroundings).

(** The session's dictionary and store are sound, also in the hands of the others. *)
Record sound_shared (sh : Shared) : Prop := mkSoundShared {
  so_max : pd_max_entries (sh_paths sh) <= u64_max;
  so_paths : exists history, dict_repr history (sh_paths sh);
  so_store : state_ok blake3 (su_store_limits su) (sh_store sh);
}.

(** The others retain and release results, and give no alias to other bytes; they charge
    the budget, and its deadline stays what it is. *)
Definition sound_company : Prop := forall n sh d, sound_shared sh ->
  let sh' := (su_others su n sh d).1 in
  sound_shared sh' /\ later (sh_store sh) (sh_store sh') /\ bt_deadline (sh_budget sh') = bt_deadline (sh_budget sh).
Definition nobody_releases : Prop :=
  forall n sh d alias, lasts alias (sh_store sh) (sh_store (su_others su n sh d).1).
Context (Hcompany : sound_company).
Context (Hentries : sl_max_entries (su_store_limits su) < u64_max).

Definition fine (st : Progress) : Prop := sound_shared (pg_shared st).

(** From one state of a run to a later one: aliases keep their bytes, and go only when the
    others release them; the deadline is the same. *)
Record shared_since (sh sh' : Shared) : Prop := mkSharedSince {
  since_store : later (sh_store sh) (sh_store sh');
  since_lasts : nobody_releases -> forall alias, lasts alias (sh_store sh) (sh_store sh');
  since_deadline : bt_deadline (sh_budget sh') = bt_deadline (sh_budget sh);
}.
(** The others' turns, and the run's own changes of the shared objects: a run that only
    looks at the disk passes through no other states. *)
Inductive turn : Progress -> Progress -> Prop :=
| turn_others st : turn st (others su st)
| turn_shared st sh : shared_since (pg_shared st) sh -> turn st (mkProgress (pg_world st) sh (pg_turn st)).
Definition runs : Progress -> Progress -> Prop := rtc turn.
Definition since (st st' : Progress) : Prop := shared_since (pg_shared st) (pg_shared st') /\ runs st st'.

#[export] Instance runs_passage : Passage su runs.
Proof.
  split; [unfold runs; apply _|intros st; apply rtc_once; constructor|].
  intros st st' H. induction H as [|a b c Hs _ IH]; [done|]. rewrite IH. destruct Hs; [apply others_internal|done].
Qed.

#[export] Instance shared_since_preorder : PreOrder shared_since.
Proof.
  split; [by intros sh; split|]. intros a b c [A1 A2 A3] [B1 B2 B3]. split; [by etrans| |congruence].
  intros Hn alias. etrans; [by apply A2|by apply B2].
Qed.
#[export] Instance since_preorder : PreOrder since.
Proof. split; [by intros st; split|]. intros a b c [A1 A2] [B1 B2]. split; [by etrans|]. etrans; [exact A2|exact B2]. Qed.

Lemma since_turn st st' : since st st' -> (pg_turn st <= pg_turn st')%nat.
Proof.
  intros [_ H]. induction H as [|a b c Hs _ IH]; [done|]. destruct Hs as [st|st sh]; cbn in *; [|done].
  unfold others in IH. destruct (su_others su _ _ _); cbn in *. lia.
Qed.

Lemma since_same_store sh sh' :
  sh_store sh' = sh_store sh -> bt_deadline (sh_budget sh') = bt_deadline (sh_budget sh) -> shared_since sh sh'.
Proof. intros Hs Hd. split; [by rewrite Hs|intros _ alias; by rewrite Hs|done]. Qed.

(** ** Steps that keep it so *)

Definition always_fine {E A} (m : op E A) : Prop :=
  forall st, fine st -> fine (m su st).2 /\ since st (m su st).2.

Lemma others_since st : fine st -> fine (others su st) /\ since st (others su st).
Proof.
  intros H. destruct (Hcompany (pg_turn st) _ (w_disk (pg_world st)) H) as (H1 & H2 & H3).
  pose proof (fun Hn : nobody_releases => Hn (pg_turn st) (pg_shared st) (w_disk (pg_world st))) as H4.
  unfold fine, since. assert (pg_shared (others su st) = (su_others su (pg_turn st) (pg_shared st) (w_disk (pg_world st))).1) as ->.
  { unfold others. by destruct (su_others su _ _ _). }
  split; [done|]. split; [by split|]. apply passage_others.
Qed.
Lemma others_fine st : fine st -> fine (others su st).
Proof. intros H. by apply others_since. Qed.

Lemma always_done {E A} (m : op E A) st a st' : always_fine m -> fine st -> m su st = (Done a, st') -> fine st'.
Proof. intros H Hst Hm. destruct (H st Hst) as [Hf _]. by rewrite Hm in Hf. Qed.
Lemma always_since {E A} (m : op E A) st a st' : always_fine m -> fine st -> m su st = (Done a, st') -> since st st'.
Proof. intros H Hst Hm. destruct (H st Hst) as [_ Hs]. by rewrite Hm in Hs. Qed.
Lemma always_both {E A} (m : op E A) st a st' :
  always_fine m -> fine st -> m su st = (Done a, st') -> fine st' /\ since st st'.
Proof. intros H Hst Hm. specialize (H st Hst). by rewrite Hm in H. Qed.

Lemma always_bind {E A B} (m : op E A) (k : A -> op E B) : always_fine m -> (forall a, always_fine (k a)) -> always_fine (m ≫= k).
Proof.
  intros Hm Hk st Hst. destruct (Hm st Hst) as [H1 H2]. unfold mbind, op_bind. destruct (m su st) as [[a|e|] st1]; [|done..].
  destruct (Hk a st1 H1) as [H3 H4]. split; [done|]. by etrans.
Qed.
Lemma always_ret {E A} (a : A) : always_fine (mret a : op E A).
Proof. by intros st. Qed.
Lemma always_fail {E A} (e : E) : always_fine (op_fail e : op E A).
Proof. by intros st. Qed.
Lemma always_lift {E A} (r : result E A) : always_fine (op_lift r).
Proof. destruct r; [apply always_ret|apply always_fail]. Qed.
Lemma always_ask {E A} (answer : Surroundings -> nat -> A) : always_fine (ask answer : op E A).
Proof. intros st Hst. by apply others_since. Qed.
Lemma always_native {A} (f : FileTree -> result IoKind A) : always_fine (native_call f).
Proof. intros st Hst. by apply others_since. Qed.
Lemma always_map_err {E F A} (f : E -> F) (m : op E A) : always_fine m -> always_fine (op_map_err f m).
Proof. intros Hm st Hst. specialize (Hm st Hst). unfold op_map_err. by destruct (m su st) as [[]]. Qed.
Lemma always_try {E F A} (m : op E A) : always_fine m -> always_fine (op_try m : op F _).
Proof. intros Hm st Hst. specialize (Hm st Hst). unfold op_try. by destruct (m su st) as [[]]. Qed.
Lemma always_mapM {E A B} (f : A -> op E B) l : (forall x, always_fine (f x)) -> always_fine (mapM f l).
Proof.
  intros Hf. induction l as [|x l IH]; [apply always_ret|]. apply always_bind; [apply Hf|]. intros y.
  apply always_bind; [exact IH|]. intros k. apply always_ret.
Qed.

Create HintDb fine.
Hint Resolve always_ret always_fail always_lift always_ask always_native always_map_err always_try always_mapM : fine.
Ltac always := repeat match goal with
  | |- forall _, _ => intro
  | |- always_fine (_ ≫= _) => apply always_bind
  | |- always_fine (if ?b then _ else _) => destruct b
  | |- always_fine (match ?x with _ => _ end) => destruct x
  | |- always_fine _ => solve [eauto with fine]
  end.

Lemma always_get {E} : always_fine (get_surroundings : op E _).
Proof. by intros st. Qed.
Lemma always_internal {E} : always_fine (load_internal : op E _).
Proof. by intros st. Qed.
Hint Resolve always_get always_internal : fine.

Lemma always_check : always_fine check_cancelled.
Proof. unfold check_cancelled. always. Qed.

Lemma always_revalidate path : always_fine (revalidate path).
Proof. unfold revalidate. always. Qed.
Hint Resolve always_check always_revalidate : fine.

Lemma always_resolve path : always_fine (fs_resolve_existing path).
Proof. cbn. unfold platform, workspace_resolve, resolve_existing. apply always_map_err. always. Qed.

Lemma always_read path max : always_fine (fs_read_limited path max).
Proof. cbn. unfold platform, read_limited_sync. apply always_map_err. always. Qed.

Lemma always_each_child {E A} (visit : bytes -> A -> op E A) children : forall output,
  (forall child output, always_fine (visit child output)) -> always_fine (each_child visit children output).
Proof. induction children as [|c children IH]; intros output Hv; cbn; always. Qed.

Lemma always_names directory : always_fine (read_dir_names directory).
Proof. unfold read_dir_names. always. Qed.
Hint Resolve always_names : fine.

Lemma always_walk_inner options remaining : forall native depth output,
  always_fine (walk_inner options remaining native depth output).
Proof.
  induction remaining as [|remaining IH]; intros; cbn [walk_inner]; always.
  apply always_each_child. intros. apply IH.
Qed.

Lemma always_walk root options : always_fine (fs_walk root options).
Proof.
  cbn. unfold platform, workspace_walk, walk. apply always_map_err. always. apply always_walk_inner.
Qed.
Hint Resolve always_resolve always_read always_walk : fine.

Lemma always_run_jobs {E F A B} (f : A -> op F B) input jobs : forall results,
  (forall x, always_fine (f x)) -> always_fine (run_jobs (E := E) f input jobs results).
Proof. induction jobs as [|i jobs IH]; intros results Hf; cbn; always. Qed.

Lemma always_map_ordered {E F A B} (from : ParallelismError -> E) (f : A -> op F B) input :
  (forall x, always_fine (f x)) -> always_fine (map_ordered_owned from f input).
Proof. intros Hf. unfold map_ordered_owned. always. by apply always_run_jobs. Qed.

Lemma always_services_read limits query : always_fine (services_read limits query).
Proof.
  unfold services_read. always. apply always_map_ordered. intros path. unfold read_job, read_resolved. always.
Qed.

Lemma always_services_list limits query : always_fine (services_list limits query).
Proof. unfold services_list. always. apply always_map_ordered. always. Qed.

Lemma always_finish scanned max : forall matches n p, Forall always_fine scanned -> always_fine (finish_loop scanned max matches n p).
Proof. induction scanned as [|next scanned IH]; intros matches n p H; cbn; inversion H; subst; always. Qed.

Lemma always_services_search limits query : always_fine (services_search limits query).
Proof.
  unfold services_search. always; try (apply always_map_ordered; always).
  - unfold scan_job, scan_resolved. always.
  - unfold finish_search. apply always_bind; [|always]. apply always_finish, Forall_fmap, list.Forall_forall. intros. apply always_lift.
Qed.

(** ** The shared objects *)

Lemma always_shared {E A} (f : Shared -> result E A * Shared) :
  (forall sh, sound_shared sh -> sound_shared (f sh).2 /\ shared_since sh (f sh).2) -> always_fine (shared f).
Proof.
  intros Hf st Hst. apply others_since in Hst as [Hst Hs]. unfold shared.
  destruct (Hf (pg_shared (others su st)) Hst) as [H1 H2].
  assert (runs st (mkProgress (pg_world (others su st)) (f (pg_shared (others su st))).2 (pg_turn (others su st)))) as Ht.
  { etrans; [apply Hs|]. by apply rtc_once, turn_shared. }
  destruct Hs as [Hs _]. destruct (f _) as [[x|e] sh]; (split; [done|]); (split; [by etrans|done]).
Qed.

(** A call that only looks. *)
Lemma always_look {E A} (f : Shared -> result E A) : always_fine (shared (fun sh => (f sh, sh))).
Proof. by apply always_shared. Qed.

(** A call on the store. *)
Lemma always_on_store {E A} (f : Store.State -> result E A * Store.State) :
  (forall s, state_ok blake3 (su_store_limits su) s ->
     state_ok blake3 (su_store_limits su) (f s).2 /\ later s (f s).2 /\ forall alias, lasts alias s (f s).2) ->
  always_fine (shared (fun sh => let '(r, s) := f (sh_store sh) in (r, with_store s sh))).
Proof.
  intros Hf. apply always_shared. intros sh [H1 H2 H3]. destruct (Hf _ H3) as (F1 & F2 & F3).
  destruct (f (sh_store sh)) as [r s]. split; [by split|]. by split.
Qed.

(** The lease of a result, and its end. *)
Lemma always_get_lease reference {A} (f : Content -> A) (g : StoreError -> OperationError) :
  always_fine (shared (fun sh => match get reference (sh_store sh) with
    | Ok (content, store) => (Ok (f content), with_store store sh) | Err e => (Err (g e), sh) end)).
Proof.
  apply always_shared. intros sh [H1 H2 H3]. destruct (get reference (sh_store sh)) as [[c s]|] eqn:E; [|done].
  unfold get in E. apply bind_ok in E as (e & He%ok_or_ok & E). injection E as <- <-. split.
  - split; [done..|]. by apply entry_lease_ok.
  - split; [by apply later_lease|intros _ alias; apply lasts_entry|done].
Qed.

Lemma always_end_lease {E} reference :
  always_fine (shared (fun sh => (Ok tt, with_store (drop_lease reference (sh_store sh)) sh)) : op E unit).
Proof.
  apply always_shared. intros sh [H1 H2 H3]. cbn. unfold drop_lease.
  destruct (st_by_alias (sh_store sh) !! reference) as [e|] eqn:E1; [|by split; [|apply since_same_store]].
  split; [split; [done..|]; by apply entry_lease_ok|]. split; [by apply later_lease|intros _ alias; apply lasts_entry|done].
Qed.

Lemma always_limit : always_fine presentation_limit.
Proof. apply always_look. Qed.
Lemma always_records : always_fine remaining_records.
Proof. apply (always_look (fun sh => Ok (br_records (remaining (sh_budget sh))))). Qed.
Lemma always_acquire : always_fine acquire.
Proof. unfold acquire. always. Qed.
Lemma always_program : always_fine check_program.
Proof. unfold check_program. always. by apply always_shared. Qed.

Lemma always_reserve f :
  (forall b r b', f b = Some (r, b') -> bt_deadline b' = bt_deadline b) -> always_fine (reserve f).
Proof.
  intros Hf. apply always_shared. intros sh [H1 H2 H3]. destruct (f (sh_budget sh)) as [[r b]|] eqn:E; [|done].
  apply Hf in E. split; [done|by apply since_same_store].
Qed.
Lemma always_charge response records : always_fine (charge response records).
Proof.
  unfold charge. always; apply always_reserve; intros b r b' H.
  - unfold reserve_records in H. destruct (reserve_atomic _ _ _ _) as [[]|]; by simplify_eq.
  - unfold reserve_output in H. destruct (reserve_atomic _ _ _ _) as [[]|]; by simplify_eq.
Qed.

Lemma always_surroundings {E B} (k : Surroundings -> op E B) : always_fine (k su) -> always_fine (get_surroundings ≫= k).
Proof. intros H st Hst. by apply H. Qed.

(** Retaining keeps the store sound, and what is in it. *)
Lemma retain_pending_later io pending state aliases state' :
  state_ok blake3 (su_store_limits su) state -> Forall (pending_ok blake3 (su_store su)) pending ->
  retain_pending blake3 io (su_store su) (su_store_limits su) pending state = Ok (aliases, state') ->
  state_ok blake3 (su_store_limits su) state' /\ later state state' /\ forall alias, lasts alias state state'.
Proof.
  intros Hst HF H. assert (0 <= sl_max_entries (su_store_limits su) < u64_max) as He by (pose proof (ok_entries _ _ _ Hst); lia).
  split_and!; [by apply (retain_pending_spec blake3) in H as (? & _)|by eapply retain_later|].
  intros alias. by eapply retain_lasts.
Qed.

Lemma retain_one io data state alias state' :
  state_ok blake3 (su_store_limits su) state ->
  retain blake3 io (su_store su) (su_store_limits su) data state = Ok (alias, state') ->
  state_ok blake3 (su_store_limits su) state' /\ later state state' /\ forall alias, lasts alias state state'.
Proof.
  intros Hst H. unfold retain in H. apply bind_ok in H as ([aliases s] & Hm & H). inv_ok. simplify_eq.
  unfold retain_many in Hm. apply bind_ok in Hm as (pending & Hp & Hm).
  apply (prepare_all_ok blake3 (su_store su)) in Hp as (Hp & _). by eapply retain_pending_later.
Qed.

Lemma always_retain data : always_fine (retain_result blake3 data).
Proof.
  unfold retain_result. apply always_surroundings. always. apply always_shared. intros sh [H1 H2 H3].
  destruct (retain _ _ _ _ _ _) as [[alias store]|] eqn:Hr; [|done].
  destruct (retain_one _ _ _ _ _ H3 Hr) as (R1 & R2 & R3). split; by split.
Qed.

(** ** What the store holds at a state of a run *)

(** The bytes under a reference. *)
Definition named (s : Store.State) (reference : Z) (data : bytes) : Prop :=
  exists e, st_by_alias s !! reference = Some e /\ storage_bytes (ct_storage (en_content e)) = data.

(** The reference was handed out for these bytes: at this state no other bytes are under
    it, and unless the others release results it is still there. *)
Definition retained (st : Progress) (reference : Z) (data : bytes) : Prop :=
  let s := sh_store (pg_shared st) in
  1 <= reference < st_next_alias s
  /\ (forall other, named s reference other -> other = data)
  /\ (nobody_releases -> named s reference data).

(** The bytes were read under the reference between the two states. *)
Definition read_under (st st' : Progress) (reference : Z) (data : bytes) : Prop :=
  retained st' reference data
  /\ (reference < st_next_alias (sh_store (pg_shared st)) -> named (sh_store (pg_shared st)) reference data).

Lemma named_retained st reference data :
  fine st -> named (sh_store (pg_shared st)) reference data -> retained st reference data.
Proof.
  intros [_ _ Hok] (e & He & Hd). split_and!.
  - by apply (to_alias _ _ _ _ (ok_tables _ _ _ Hok) _ _ He).
  - by apply (to_alias _ _ _ _ (ok_tables _ _ _ Hok) _ _ He).
  - intros other (e' & He' & <-). by simplify_eq.
  - intros _. by exists e.
Qed.

Lemma named_before s s' reference data :
  later s s' -> reference < st_next_alias s -> named s' reference data -> named s reference data.
Proof. intros [_ Hl] Hr (e' & He' & <-). destruct (Hl _ _ Hr He') as (e & He & Hc & _). exists e. by rewrite Hc. Qed.

Lemma retained_since st st' reference data : since st st' -> retained st reference data -> retained st' reference data.
Proof.
  intros [[Hl Hk _] _] (Hr & Hd & Hn). split_and!; [lia|destruct Hl; lia| |].
  - intros other Ho. apply Hd. eapply named_before; [exact Hl|lia|done].
  - intros Hnb. destruct (Hn Hnb) as (e & He & _). destruct (Hk Hnb reference) as [e' He']; [by eexists|].
    exists e'. split; [done|]. apply Hd. eapply named_before; [exact Hl|lia|by exists e'].
Qed.

Lemma read_since st1 st2 st3 st4 reference data :
  since st1 st2 -> read_under st2 st3 reference data -> since st3 st4 -> read_under st1 st4 reference data.
Proof.
  intros [[Hl _ _] _] [Hret Hn] Hs. split; [by eapply retained_since|]. intros Hr.
  eapply named_before; [exact Hl|done|]. apply Hn. destruct Hl. lia.
Qed.

Lemma named_read st reference data :
  fine st -> named (sh_store (pg_shared st)) reference data -> read_under st st reference data.
Proof. intros Hst H. split; [by apply named_retained|done]. Qed.

(** The lease of a result is on what is under its reference. *)
Lemma lease_read reference (g : StoreError -> OperationError) st content st' :
  fine st -> shared (fun sh => match get reference (sh_store sh) with
    | Ok (content, store) => (Ok content, with_store store sh) | Err e => (Err (g e), sh) end) su st = (Done content, st') ->
  content_ok content /\ read_under st st' reference (storage_bytes (ct_storage content)).
Proof.
  intros Hst H. pose proof (always_both _ _ _ _ (always_get_lease reference (fun c => c) g) Hst H) as [Hst' [[Hl _ _] _]].
  unfold shared in H. destruct (get reference _) as [[content' store]|] eqn:E; [|done]. injection H as <- <-.
  unfold get in E. apply bind_ok in E as (e & He%ok_or_ok & E). injection E as <- <-. cbn in Hst', Hl |- *.
  assert (named (with_entry (sh_store (pg_shared (others su st))) reference (mkEntry (en_content_id e) (en_content e) (S (en_leases e))))
    reference (storage_bytes (ct_storage (en_content e)))) as Hn.
  { eexists. split; [apply lookup_insert_eq|done]. }
  split; [|split].
  - destruct Hst' as [_ _ Hok]. destruct Hn as (e' & He' & _). cbn in He'. rewrite lookup_insert_eq in He'. injection He' as <-.
    apply (to_entries _ _ _ _ (ok_tables _ _ _ Hok) reference (mkEntry (en_content_id e) (en_content e) (S (en_leases e)))).
    cbn. apply lookup_insert_eq.
  - by apply named_retained.
  - intros Hr. by eapply named_before.
Qed.

Lemma read_all_whole io c max b : content_ok c -> read_all io c max = Ok b -> b = storage_bytes (ct_storage c).
Proof.
  unfold content_ok, read_all. intros Hok H. destruct (max <? _); [done|]. destruct (ct_storage c) as [data|file]; cbn in Hok.
  { by injection H as <-. }
  destruct (negb io); [done|]. apply bind_ok in H as (limit & Hl%ok_or_ok & H). apply checked_add_Some in Hl as [-> _].
  destruct (_ =? _); [|done]. injection H as <-. cbn. apply take_ge. unfold len in *. lia.
Qed.

Lemma retain_retained data st reference st' :
  fine st -> retain_result blake3 data su st = (Done reference, st') -> retained st' reference data.
Proof.
  intros Hst H. assert (fine st') as Hst' by (eapply always_done; [apply always_retain|exact Hst|exact H]).
  apply named_retained; [done|]. unfold retain_result in H. apply op_bind_done in H as (? & ? & [= <- <-] & H).
  apply op_bind_done in H as (spool & ? & [= <- <-] & H). unfold shared in H.
  apply others_fine, others_fine in Hst. set (st1 := others su (others su st)) in *.
  destruct (retain _ _ _ _ _ _) as [[alias store]|] eqn:Hr; [|done]. injection H as <- <-. destruct Hst as [_ _ Hok].
  unfold retain in Hr. apply bind_ok in Hr as ([aliases s] & Hm & Hr). apply bind_ok in Hr as (a & Ha%ok_or_ok & [= <- <-]).
  apply (retained_entries blake3) in Hm as (_ & _ & HF); [|done..]. inversion HF as [|x y l l' He HF' E1 E2]. subst.
  injection Ha as <-. exact He.
Qed.

Lemma always_intern paths : always_fine (intern_paths paths).
Proof.
  apply always_shared. intros sh [H1 [history H2] H3]. destruct (intern paths (sh_paths sh)) as [[ip d]|] eqn:Hi; [|by split; [split; [|exists history|]|]].
  pose proof (intern_spec _ _ _ _ _ H2 Hi) as Hspec. cbn. split; [|by apply since_same_store].
  split; cbn; [|eexists; apply Hspec|done]. destruct Hspec as (_ & _ & _ & -> & _). done.
Qed.

(** The identifiers of interned paths. *)
Lemma intern_numbered paths st ids mappings st' :
  fine st -> Forall (fun p => valid_str p = true) paths -> intern_paths paths su st = (Done (ids, mappings), st') ->
  numbering paths ids mappings.
Proof.
  intros Hst%others_fine Hv H. unfold intern_paths, shared in H. destruct Hst as [Hmax [history Hr] _].
  destruct (intern paths _) as [[ip d]|] eqn:Hi; [|done]. injection H as <- <- <-.
  eapply interned_numbering; [done|done| |done]. unfold intern in Hi. apply bind_ok in Hi as ([] & Hval & _).
  apply validate_paths_ok in Hval. apply list.Forall_forall. intros p Hp. rewrite list.Forall_forall in Hv, Hval.
  split; [by apply Hv|by apply Hval].
Qed.

(** The paths of an answer are valid texts, by way of their bytes. *)
Lemma protocol_paths {A} (path : A -> SemanticPath) (l : list A) paths :
  mapM (fun x => protocol_path (path x)) l = Ok paths ->
  Forall2 (fun x p => from_utf8 (sp_path (path x)) = Ok p) l paths /\ Forall (fun p => valid_str p = true) paths.
Proof.
  intros H%mapM_ok. assert (Forall2 (fun x p => from_utf8 (sp_path (path x)) = Ok p) l paths) as HF.
  { induction H as [|x p l ps Hp _ IH]; constructor; [|done]. apply ok_or_ok in Hp. unfold to_str, to_option in Hp.
    destruct (from_utf8 _); naive_solver. }
  split; [done|]. clear H. induction HF; constructor; [|done]. by eapply from_utf8_Ok.
Qed.

(** ** Answers *)

Lemma success_eq id paths data flags reference r :
  map_err OE_Response (FinalResponse_success id paths data flags reference) = Ok r ->
  r = mkResponse id Success paths (Some data) None flags reference.
Proof.
  intros H%map_err_ok%FinalResponse_new_ok. apply H.
Qed.

Lemma fitting_prefix_done total record_limit byte_limit candidate st shown st' :
  0 <= total -> 0 <= record_limit ->
  fitting_prefix total record_limit byte_limit candidate su st = (Done shown, st') ->
  st' = st /\ 0 <= shown <= total.
Proof.
  intros Ht Hr H. unfold fitting_prefix in H. apply op_lift_done in H as [H ->]. split; [done|].
  unfold largest_prefix in H. destruct (prefix_loop _ _ _ _ _ _) as [[low|]|] eqn:E; [|done..]. cbn in H.
  assert (forall fuel low high n, 0 <= low <= high -> prefix_loop fuel candidate total byte_limit low high = Some (Ok n) -> low <= n <= high) as Hb.
  { clear. induction fuel as [|fuel IH]; intros low high n Hl H; cbn in H; destruct (Z.leb_spec high low); try done;
      [injection H as <-; lia|injection H as <-; lia|].
    set (middle := low + (high - low + 1) / 2) in *.
    assert (low < middle <= high) as Hmid by (unfold middle; Z.to_euclidean_division_equations; lia).
    destruct (_ ≫= _) as [text|]; [|done]. destruct (_ <=? _); apply IH in H; lia. }
  apply Hb in E; [|lia]. apply bind_ok in H as (text & _ & H). destruct (_ <? _); [done|]. injection H as <-. lia.
Qed.

Lemma remaining_records_done st n st' : remaining_records su st = (Done n, st') -> 0 <= n.
Proof. intros [= <- <-]. cbn. unfold saturating_sub. lia. Qed.

(** An answer that shows [shown] of the records, with the identifiers of their paths, and
    refers to the evidence of all of them when that is not all. *)
Definition cut_answer {A} (request : Request) (records : list A) (path : A -> SemanticPath)
    (data : list A -> list Z -> ResultData) (base_flags : Z) (evidence : list A -> result OperationError bytes)
    (st : Progress) (r : FinalResponse) : Prop :=
  exists shown paths ids mappings reference,
    0 <= shown <= len records
    /\ Forall2 (fun x p => from_utf8 (sp_path (path x)) = Ok p) (first_records shown records) paths
    /\ numbering paths ids mappings
    /\ r = mkResponse (rq_id request) Success mappings (Some (data (first_records shown records) ids)) None
             (Z.lor base_flags (truncated_flags (shown <? len records))) reference
    /\ (shown = len records -> reference = None)
    /\ (shown < len records -> exists whole alias, evidence records = Ok whole /\ reference = Some alias /\ retained st alias whole).

(** What list and search do once they have their records. *)
Lemma cut_answer_done {A} (request : Request) (records : list A) (path : A -> SemanticPath)
    (data : list A -> list Z -> ResultData) base_flags (evidence : list A -> result OperationError bytes)
    (response : list PathMapping -> list A -> list Z -> bool -> option Z -> result OperationError FinalResponse)
    (candidate : Z -> bool -> result OperationError FinalResponse) byte_limit record_limit st r st' :
  (forall mappings shown ids truncated reference r, response mappings shown ids truncated reference = Ok r ->
     r = mkResponse (rq_id request) Success mappings (Some (data shown ids)) None
           (Z.lor base_flags (truncated_flags truncated)) reference) ->
  fine st -> 0 <= record_limit ->
  (shown ← fitting_prefix (len records) record_limit byte_limit candidate;
   let truncated := shown <? len records in
   reference ← (if truncated : bool
                then evidence ← op_lift (evidence records); alias ← retain_result blake3 evidence; mret (Some alias)
                else mret None);
   let projected := first_records shown records in
   paths ← op_lift (mapM (fun x => protocol_path (path x)) projected);
   '(ids, mappings) ← intern_paths paths;
   response ← op_lift (response mappings projected ids truncated reference);
   _ ← charge response shown;
   mret response) su st = (Done r, st') ->
  since st st' /\ cut_answer request records path data base_flags evidence st' r.
Proof.
  intros Hresp Hst Hrec H. apply op_bind_done in H as (shown & st1 & Hs & H).
  apply fitting_prefix_done in Hs as [-> Hs]; [|apply len_nonneg|done]. cbv zeta in H.
  apply op_bind_done in H as (reference & st2 & Href & H). pose proof H as Hrest.
  apply op_bind_done in H as (paths & st3 & [Hp ->]%op_lift_done & H).
  apply op_bind_done in H as ([ids mappings] & st4 & Hi & H).
  apply op_bind_done in H as (response' & st5 & [Hr ->]%op_lift_done & H).
  apply op_bind_done in H as (? & st6 & _ & H). injection H as <- <-. apply Hresp in Hr.
  destruct (protocol_paths _ _ _ Hp) as [HF Hv].
  assert ((fine st2 /\ since st st2) /\ (shown = len records -> reference = None)
    /\ (shown < len records -> exists whole alias, evidence records = Ok whole /\ reference = Some alias /\ retained st2 alias whole)) as ([Hst2 Hs1] & H1 & H2).
  { destruct (Z.ltb_spec shown (len records)).
    - apply op_bind_done in Href as (whole & ? & [Hw ->]%op_lift_done & Href).
      apply op_bind_done in Href as (alias & st7 & Hret & [= <- <-]). split; [|split; [lia|]].
      + by eapply (always_both _ _ _ _ (always_retain whole)).
      + intros _. exists whole, alias. split_and!; [done..|]. by eapply retain_retained.
    - injection Href as <- <-. split; [done|split; [done|lia]]. }
  assert (since st2 st6) as Hs2.
  { eapply always_since; [|exact Hst2|exact Hrest]. always; [apply always_intern|apply always_charge]. }
  split; [by etrans|]. exists shown, paths, ids, mappings, reference. split_and!; try done; [lia|lia|by eapply intern_numbered|].
  intros Hlt. destruct (H2 Hlt) as (whole & alias & ? & ? & ?). exists whole, alias. split_and!; [done..|]. by eapply retained_since.
Qed.

(** A query up to its records. *)
Lemma query_done {A B} (service : op SemanticError A) (k : A -> op OperationError B) st r st' :
  always_fine service -> fine st ->
  (_ ← check_program; _ ← acquire_both; answer ← op_map_err of_semantic service; _ ← check_program; k answer) su st
    = (Done r, st') ->
  exists answer st1 st2 st3, since st st1 /\ service su st1 = (Done answer, st2) /\ since st2 st3 /\ fine st3
    /\ k answer su st3 = (Done r, st').
Proof.
  intros Hs Hst H. apply op_bind_done in H as (? & s1 & H1 & H). apply op_bind_done in H as (? & s2 & H2 & H).
  apply op_bind_done in H as (answer & s3 & Hx & H). apply op_bind_done in H as (? & s4 & H4 & H).
  apply (always_both _ _ _ _ always_program) in H1 as [F1 S1]; [|done].
  assert (always_fine acquire_both) as Hb by (pose proof always_acquire; unfold acquire_both; always).
  apply (always_both _ _ _ _ Hb) in H2 as [F2 S2]; [|done].
  pose proof (always_done _ _ _ _ (always_map_err of_semantic service Hs) F2 Hx) as F3.
  apply (always_both _ _ _ _ always_program) in H4 as [F4 S4]; [|done]. apply op_map_err_done in Hx.
  exists answer, s2, s3, s4. split_and!; try done. by etrans.
Qed.

Lemma limits_done {B} (k : Z -> Z -> op OperationError B) st r st' :
  fine st -> (byte_limit ← presentation_limit; record_limit ← remaining_records; k byte_limit record_limit) su st = (Done r, st') ->
  exists byte_limit record_limit st1, 0 <= record_limit /\ since st st1 /\ fine st1 /\ k byte_limit record_limit su st1 = (Done r, st').
Proof.
  intros Hst H. apply op_bind_done in H as (bl & s1 & H1 & H). apply op_bind_done in H as (rl & s2 & H2 & H).
  exists bl, rl, s2. split; [by eapply remaining_records_done|].
  apply (always_both _ _ _ _ always_limit) in H1 as [F1 S1]; [|done].
  apply (always_both _ _ _ _ always_records) in H2 as [F2 S2]; [|done]. split_and!; [by etrans|done..].
Qed.

(** A service's answer was found between two states of the run. *)
Definition found {A} (service : op SemanticError A) (st : Progress) (answer : A) (st' : Progress) : Prop :=
  exists st1 st2, since st st1 /\ service su st1 = (Done answer, st2) /\ since st2 st'.

Lemma list_answer request a st r st' :
  fine st -> list_execute request a su st = (Done r, st') ->
  exists entries, found (services_list SemanticLimits_default (list_query a)) st entries st'
    /\ cut_answer request entries sn_path (fun shown ids => DList (with_ids result_entry shown ids)) 0 list_evidence st' r.
Proof.
  intros Hst H. unfold list_execute in H. apply query_done in H as (entries & s1 & s2 & s3 & S1 & Hs & S2 & Hst3 & H); [|apply always_services_list|done].
  apply limits_done in H as (bl & rl & s4 & Hrl & S4 & Hst4 & H); [|done].
  apply (cut_answer_done request entries sn_path (fun shown ids => DList (with_ids result_entry shown ids)) 0 list_evidence
    (fun mappings shown ids truncated reference => list_response (rq_id request) mappings shown ids truncated reference)) in H as [S5 H];
    [|intros mappings shown ids truncated reference r0 Hr; rewrite Z.lor_0_l; by apply success_eq|exact Hst4|exact Hrl].
  exists entries. split; [|done]. exists s1, s2. split_and!; [done..|]. etrans; [exact S2|]. by etrans.
Qed.

Definition search_flags (result : SemanticSearchResult) : Z :=
  Z.lor (if sx_normalized_text result then RESULT_NORMALIZED_TEXT else 0) (if sx_partial result then RESULT_PARTIAL else 0).

Lemma search_answer request a st r st' :
  fine st -> search_execute request a su st = (Done r, st') ->
  exists result, found (services_search SemanticLimits_default (search_query a)) st result st'
    /\ cut_answer request (sx_matches result) ma_path (fun shown ids => DSearch (with_ids search_row shown ids))
         (search_flags result) search_evidence st' r.
Proof.
  intros Hst H. unfold search_execute in H. apply query_done in H as (result & s1 & s2 & s3 & S1 & Hs & S2 & Hst3 & H); [|apply always_services_search|done].
  apply limits_done in H as (bl & rl & s4 & Hrl & S4 & Hst4 & H); [|done].
  apply (cut_answer_done request (sx_matches result) ma_path (fun shown ids => DSearch (with_ids search_row shown ids)) (search_flags result) search_evidence
    (fun mappings shown ids truncated reference => search_response (rq_id request) mappings shown ids (search_flags result) truncated reference)) in H as [S5 H];
    [|intros mappings shown ids truncated reference r0 Hr; by apply success_eq|exact Hst4|exact Hrl].
  exists result. split; [|done]. exists s1, s2. split_and!; [done..|]. etrans; [exact S2|]. by etrans.
Qed.

(** ** Reads *)

(** The texts that are shown are the bytes read. *)
Lemma project_reads_spec reads : forall text_budget,
  Forall2 (fun read text => match text with Some t => from_utf8 (sr_bytes read) = Ok t | None => True end)
    reads (project_reads reads text_budget).
Proof.
  induction reads as [|read reads IH]; intros budget; cbn [project_reads]; [constructor|].
  destruct (from_utf8 (sr_bytes read)) as [t|] eqn:E; [destruct (_ <=? _)|]; by constructor.
Qed.

Definition reference_true (st : Progress) (read : SemanticRead) (text : option str) (reference : option Z) : Prop :=
  match text with
  | Some _ => reference = None
  | None => exists alias, reference = Some alias /\ retained st alias (sr_bytes read)
  end.

Lemma reference_true_since st st' read text reference :
  since st st' -> reference_true st read text reference -> reference_true st' read text reference.
Proof. intros Hs. destruct text; [done|]. intros (alias & ? & ?). exists alias. split; [done|]. by eapply retained_since. Qed.

Lemma always_retain_reads reads : forall projected, always_fine (retain_reads reads projected).
Proof.
  pose proof always_retain. induction reads as [|read reads IH]; intros [|text projected]; cbn [retain_reads]; always.
Qed.

Lemma retain_reads_done reads : forall projected st references st',
  length reads = length projected -> fine st -> retain_reads reads projected su st = (Done references, st') ->
  Forall2 (fun rt reference => reference_true st' rt.1 rt.2 reference) (zip reads projected) references.
Proof.
  induction reads as [|read reads IH]; intros [|text projected] st references st' Hl Hst H; try done; cbn [retain_reads] in H.
  { injection H as <- <-. constructor. }
  apply op_bind_done in H as (reference & s1 & Hr & H). apply op_bind_done in H as (rest & s2 & Hrest & H).
  injection H as <- <-. assert (fine s1 /\ reference_true s1 read text reference) as [Hs1 Ht].
  { destruct text as [t|]; cbn [needs_reference is_some negb] in Hr.
    - injection Hr as <- <-. done.
    - apply op_bind_done in Hr as (alias & s3 & Hret & [= <- <-]). split; [by eapply (always_done _ _ _ _ (always_retain _))|].
      exists alias. split; [done|]. by eapply retain_retained. }
  injection Hl as Hl. pose proof (IH projected s1 rest s2 Hl Hs1 Hrest) as HF. constructor; [|done].
  eapply reference_true_since; [|exact Ht]. eapply always_since; [apply always_retain_reads|exact Hs1|exact Hrest].
Qed.

(** The answer to a read: for each file its range and digest, the bytes as text, or a
    reference to them. *)
Definition read_true (request : Request) (reads : list SemanticRead) (st : Progress) (r : FinalResponse) : Prop :=
  exists paths ids mappings texts references,
    Forall2 (fun read p => from_utf8 (sp_path (sr_path read)) = Ok p) reads paths
    /\ numbering paths ids mappings
    /\ Forall2 (fun read text => match text with Some t => from_utf8 (sr_bytes read) = Ok t | None => True end) reads texts
    /\ Forall2 (fun rt reference => reference_true st rt.1 rt.2 reference) (zip reads texts) references
    /\ r = mkResponse (rq_id request) Success mappings
             (Some (DRead (with_ids (fun row path => row path)
                (zip_with (fun '(read, text) reference => read_row read text reference) (zip reads texts) references) ids)))
             None (if existsb needs_reference texts then Z.lor RESULT_REDUCED RESULT_RETAINED else 0) None.

Lemma read_answer request a st r st' :
  fine st -> read_execute request a su st = (Done r, st') ->
  exists reads, found (services_read SemanticLimits_default (read_query a)) st reads st' /\ read_true request reads st' r.
Proof.
  intros Hst H. unfold read_execute in H.
  apply op_bind_done in H as (? & s1 & H1 & H). apply (always_both _ _ _ _ always_program) in H1 as [F1 S1]; [|done].
  apply op_bind_done in H as (n & s2 & H2 & H). apply (always_both _ _ _ _ always_records) in H2 as [F2 S2]; [|done].
  destruct (n <? _); [done|]. apply op_bind_done in H as (? & s3 & H3 & H).
  assert (always_fine acquire_both) as Hb by (pose proof always_acquire; unfold acquire_both; always).
  apply (always_both _ _ _ _ Hb) in H3 as [F3 S3]; [|done]. apply op_bind_done in H as (reads & s4 & Hr & H).
  pose proof (always_done _ _ _ _ (always_map_err of_semantic _ (always_services_read _ _)) F3 Hr) as F4.
  apply op_map_err_done in Hr.
  apply op_bind_done in H as (? & s5 & H5 & H). apply (always_both _ _ _ _ always_program) in H5 as [F5 S5]; [|done].
  apply op_bind_done in H as (bl & s6 & H6 & H). apply (always_both _ _ _ _ always_limit) in H6 as [F6 S6]; [|done]. cbv zeta in H.
  apply op_bind_done in H as (paths & s7 & [Hp ->]%op_lift_done & H). destruct (temporary_paths paths) as [tids tmaps].
  apply op_bind_done in H as (temporary & s8 & [_ ->]%op_lift_done & H).
  apply op_bind_done in H as (text & s9 & [_ ->]%op_lift_done & H). destruct (bl <? _); [done|].
  set (texts := project_reads reads (bl / 2)) in *. pose proof (project_reads_spec reads (bl / 2)) as Ht. fold texts in Ht.
  apply op_bind_done in H as (references & s10 & Href & H).
  pose proof (always_both _ _ _ _ (always_retain_reads _ _) F6 Href) as [F10 S10].
  apply retain_reads_done in Href; [|exact (Forall2_length Ht)|done]. pose proof H as Hrest.
  apply op_bind_done in H as ([ids mappings] & s11 & Hi & H).
  apply op_bind_done in H as (response & s12 & [Hresp ->]%op_lift_done & H).
  apply op_bind_done in H as (? & s13 & _ & H). injection H as <- <-. destruct (protocol_paths _ _ _ Hp) as [HF Hv].
  assert (since s10 s13) as S13 by (eapply always_since; [|exact F10|exact Hrest]; always; [apply always_intern|apply always_charge]).
  exists reads. split.
  { exists s3, s4. split_and!; [etrans; [exact S1|by etrans]|done|]. etrans; [exact S5|]. etrans; [exact S6|]. by etrans. }
  exists paths, ids, mappings, texts, references.
  split_and!; try done; [exact (intern_numbered paths s10 ids mappings s11 F10 Hv Hi)| |].
  - revert Href. apply Forall2_impl. intros rt reference. by apply reference_true_since.
  - unfold read_response in Hresp. by apply success_eq in Hresp.
Qed.

End facts.

(** Outside the section the hints take the company as an assumption. *)
#[export] Hint Resolve always_ret always_fail always_lift always_ask always_native always_map_err always_try always_mapM
  always_get always_internal always_revalidate always_limit always_records always_acquire always_program always_charge
  always_retain always_intern : fine.
Ltac always := repeat match goal with
  | |- forall _, _ => intro
  | |- always_fine _ (_ ≫= _) => apply always_bind
  | |- always_fine _ (if ?b then _ else _) => destruct b
  | |- always_fine _ (match ?x with _ => _ end) => destruct x
  | |- always_fine _ _ => solve [eauto with fine]
  end.
