(* ===== verification/SnapshotManifest.v ===== *)
(** * SnapshotManifest: what a snapshot retains, and what changed since

    The scope, entries and manifest of crates/ash-ops/src/snapshot.rs, the document a
    manifest is retained as, and the comparison of two lists of entries.  The readers of
    [Wire] serve with one error for everything, as the source's private helpers do. *)

From stdpp Require Import sorting.
From S2P Require Import Prelude Text AsonModel AsonCodec AsonScalarFacts AsonFacts AsonSound.
From S2P Require Import Wire Capability Request Response Workspace Manifest Projection.
From S2P Require Import ProjectionFacts Patch.

Definition MAX_SNAPSHOT_ENTRIES : Z := 100000.
Definition MAX_SNAPSHOT_FILE_BYTES : Z := 128 * 1024 * 1024.
Definition MAX_SNAPSHOT_TOTAL_BYTES : Z := 1024 * 1024 * 1024.
Definition MAX_SNAPSHOT_MANIFEST_BYTES : Z := 8 * 1024 * 1024.

(** ** Data *)

Record Scope : Type := mkScope { sc_paths : list str; sc_depth : Z; sc_flags : Z }.
Record SnapshotEntry : Type := mkSnapshotEntry {
  sne_path : str; sne_kind : FileKind; sne_size : Z; sne_digest : option bytes }.
Record SnapshotManifest : Type := mkSnapshotManifest { sm_scope : Scope; sm_entries : list SnapshotEntry }.
Record Change : Type := mkChange { cg_kind : SnapshotChange; cg_entry : SnapshotEntry }.

#[export] Instance FileKind_eq_dec : EqDecision FileKind.
Proof. solve_decision. Defined.
#[export] Instance Scope_eq_dec : EqDecision Scope.
Proof. solve_decision. Defined.
#[export] Instance SnapshotEntry_eq_dec : EqDecision SnapshotEntry.
Proof. solve_decision. Defined.

(** ** Paths *)

Definition valid_path (path : str) : bool :=
  negb (bool_decide (path = [])) && (str_len path <=? 4096)
  && negb (contains 0 path || contains 92 path || contains 58 path)
  && negb (starts_with 47 path) && negb (ends_with 47 path)
  && (bool_decide (path = L ".") || negb (existsb bad_component (split 47 path))).

(** [strip_prefix] with a text. *)
Definition strip_text (prefix path : str) : option str :=
  if bool_decide (prefix = take (length prefix) path) then Some (drop (length prefix) path) else None.

Definition root_covers (depth : Z) (path root : str) : bool :=
  if bool_decide (path = root) then true
  else
    match (if bool_decide (root = L ".") then Some path else rest ← strip_text root path; strip_prefix 47 rest) with
    | Some relative => len (split 47 relative) <=? depth
    | None => false
    end.

Definition scope_covers (scope : Scope) (path : str) : bool :=
  existsb (root_covers (sc_depth scope) path) (sc_paths scope).

(** ** Changes *)

Definition change_of (kind : SnapshotChange) (entry : SnapshotEntry) : Change := mkChange kind entry.
Definition path_bytes (entry : SnapshotEntry) : bytes := str_bytes (sne_path entry).

(** The loop of [delta]: the two indices only grow, so the lists are what lies ahead. *)
Fixpoint delta (before : list SnapshotEntry) : list SnapshotEntry -> list Change :=
  fix after_loop (after : list SnapshotEntry) : list Change :=
    match before, after with
    | e :: before', e' :: after' =>
        if bytes_lt (path_bytes e) (path_bytes e') then change_of ChRemoved e :: delta before' after
        else if bytes_lt (path_bytes e') (path_bytes e) then change_of ChAdded e' :: after_loop after'
        else
          (if bool_decide (e = e') then [] else [change_of ChModified e']) ++ delta before' after'
    | e :: before', [] => change_of ChRemoved e :: delta before' []
    | [], e' :: after' => change_of ChAdded e' :: after_loop after'
    | [], [] => []
    end.

(** ** Encoding *)

Definition digest_cell (digest : option bytes) : Cell :=
  match digest with Some d => text_value (hex_digest d) | None => null_value end.

Definition entry_row (entry : SnapshotEntry) : list Cell :=
  [text_value (sne_path entry); unsigned_value (FileKind_code (sne_kind entry));
   unsigned_value (sne_size entry); digest_cell (sne_digest entry)].

Definition scope_cells (scope : Scope) : list Cell :=
  [text_vector_value (sc_paths scope); unsigned_value (sc_depth scope); unsigned_value (sc_flags scope)].

Definition snapshot_document (manifest : SnapshotManifest) : result BuildError Document :=
  scope ← record_value [L "p"; L "d"; L "f"] (scope_cells (sm_scope manifest));
  k ← scalar_field (L "k") (L "s");
  v ← scalar_field (L "v") (L "1");
  q ← Key_new (L "q");
  d ← Key_new (L "d");
  rows ← table_value [L "p"; L "k"; L "z"; L "h"] (entry_row <$> sm_entries manifest);
  Document_new [k; v; mkField q scope; mkField d rows].

Definition snapshot_encode (manifest : SnapshotManifest) : result OperationError bytes :=
  document ← map_err OE_Build (snapshot_document manifest);
  Ok (str_bytes (encode document)).

(** ** Decoding *)

(** Whatever is wrong, the baseline is an invalid snapshot. *)
#[export] Instance invalid_snapshot : SchemaErrors OperationError := {|
  se_fields := OE_InvalidSnapshot; se_columns := OE_InvalidSnapshot;
  se_expected_scalar _ := OE_InvalidSnapshot; se_expected_record _ := OE_InvalidSnapshot;
  se_invalid_unsigned _ := OE_InvalidSnapshot; se_unexpected_value _ := OE_InvalidSnapshot;
  se_integer_range _ := OE_InvalidSnapshot |}.

Definition refuse_if (refused : bool) : result OperationError unit :=
  if refused then Err OE_InvalidSnapshot else Ok tt.

Definition text_atom (cell : Cell) : result OperationError str := text_cell cell "".
Definition snapshot_unsigned (cell : Cell) : result OperationError Z := unsigned_cell cell "".
Definition snapshot_scalar (value : option Value) : result OperationError str := text value "".

Fixpoint digest_pairs (b : bytes) : option bytes :=
  match b with
  | high :: low :: b =>
      high ← digest_nibble high;
      low ← digest_nibble low;
      rest ← digest_pairs b;
      Some (high * 16 + low :: rest)
  | _ => Some []
  end.

Definition snapshot_digest (value : str) : option bytes :=
  if negb (str_len value =? 64) then None else digest_pairs (str_bytes value).

Definition optional_digest (cell : Cell) : result OperationError (option bytes) :=
  match cell with
  | CAtom Null => Ok None
  | CAtom (AText value) => Some <$> ok_or (snapshot_digest value) OE_InvalidSnapshot
  | CAtom (Reference _) | CVector _ => Err OE_InvalidSnapshot
  end.

Definition decode_scope (r : Rec) : result OperationError Scope :=
  _ ← expect_columns r [L "p"; L "d"; L "f"];
  let values := rec_values r in
  atoms ← match cell_at values 0 with CVector atoms => Ok atoms | _ => Err OE_InvalidSnapshot end;
  paths ← mapM (fun atom =>
    match atom with
    | AText path => if valid_path path then Ok path else Err OE_InvalidSnapshot
    | _ => Err OE_InvalidSnapshot
    end) atoms;
  _ ← refuse_if (bool_decide (paths = []) || (256 <? len paths) || negb (paths_sorted paths));
  depth ← (n ← snapshot_unsigned (cell_at values 1); narrow_u16 n "");
  flags ← (n ← snapshot_unsigned (cell_at values 2); narrow_u32 n "");
  _ ← refuse_if ((64 <? depth) || negb (mask_extra flags SNAPSHOT_INCLUDE_HIDDEN =? 0));
  Ok (mkScope paths depth flags).

Definition snapshot_kind (code : Z) : result OperationError FileKind :=
  if code =? 0 then Ok KFile else if code =? 1 then Ok KDirectory else if code =? 2 then Ok KSymlink
  else if code =? 3 then Ok KOther else Err OE_InvalidSnapshot.

Definition identity_valid (kind : FileKind) (size : Z) (digest : option bytes) : bool :=
  match kind with
  | KFile => is_some digest
  | KSymlink => is_some digest && (size =? 0)
  | KDirectory | KOther => negb (is_some digest) && (size =? 0)
  end.

(** A file's bytes are added to those before it. *)
Definition add_file (kind : FileKind) (size file_bytes : Z) : result OperationError Z :=
  if bool_decide (kind = KFile) then
    _ ← refuse_if (MAX_SNAPSHOT_FILE_BYTES <? size);
    total ← ok_or (checked_add u64_max file_bytes size) OE_InvalidSnapshot;
    _ ← refuse_if (MAX_SNAPSHOT_TOTAL_BYTES <? total);
    Ok total
  else Ok file_bytes.

Fixpoint decode_entries (scope : Scope) (previous : option str) (file_bytes : Z) (rows : list (list Cell))
    : result OperationError (list SnapshotEntry) :=
  match rows with
  | [] => Ok []
  | row :: rows =>
      path ← text_atom (cell_at row 0);
      _ ← refuse_if (negb (valid_path path) || negb (scope_covers scope path)
            || match previous with Some p => negb (bytes_lt (str_bytes p) (str_bytes path)) | None => false end);
      kind ← snapshot_unsigned (cell_at row 1) ≫= snapshot_kind;
      size ← snapshot_unsigned (cell_at row 2);
      digest ← optional_digest (cell_at row 3);
      _ ← refuse_if (negb (identity_valid kind size digest));
      file_bytes ← add_file kind size file_bytes;
      entries ← decode_entries scope (Some path) file_bytes rows;
      Ok (mkSnapshotEntry path kind size digest :: entries)
  end.

Definition snapshot_decode (b : bytes) : result OperationError SnapshotManifest :=
  _ ← refuse_if (MAX_SNAPSHOT_MANIFEST_BYTES <? len b);
  text ← map_err (fun _ => OE_InvalidSnapshot) (from_utf8 b);
  document ← map_err (fun _ => OE_InvalidSnapshot) (decode text);
  _ ← refuse_if (negb (bool_decide (encode document = text))
        || negb (bool_decide (field_key <$> fields document = [L "k"; L "v"; L "q"; L "d"])));
  k ← snapshot_scalar (Document_get document (L "k"));
  _ ← refuse_if (negb (bool_decide (k = L "s")));
  v ← snapshot_scalar (Document_get document (L "v"));
  _ ← refuse_if (negb (bool_decide (v = L "1")));
  r ← record (Document_get document (L "q")) "q";
  scope ← decode_scope r;
  table ← match Document_get document (L "d") with Some (VTable t) => Ok t | _ => Err OE_InvalidSnapshot end;
  _ ← expect_table_columns table [L "p"; L "k"; L "z"; L "h"];
  _ ← refuse_if (MAX_SNAPSHOT_ENTRIES <? len (table_rows table));
  entries ← decode_entries scope None 0 (table_rows table);
  Ok (mkSnapshotManifest scope entries).

(** ** What a list of changes says *)

Definition entries_sorted (entries : list SnapshotEntry) : Prop :=
  Sorted.StronglySorted (fun e e' => bytes_lt (path_bytes e) (path_bytes e') = true) entries.

(** The change is one from the first list to the second. *)
Definition changed (before after : list SnapshotEntry) (c : Change) : Prop :=
  let e := cg_entry c in
  match cg_kind c with
  | ChPresent => False
  | ChRemoved => e ∈ before /\ forall e', e' ∈ after -> path_bytes e' <> path_bytes e
  | ChAdded => e ∈ after /\ forall e', e' ∈ before -> path_bytes e' <> path_bytes e
  | ChModified => e ∈ after /\ e ∉ before /\ exists e', e' ∈ before /\ path_bytes e' = path_bytes e
  end.

(** [e]'s path is not that of any entry of [l]. *)
Definition fresh (e : SnapshotEntry) (l : list SnapshotEntry) : Prop :=
  forall e', e' ∈ l -> path_bytes e' <> path_bytes e.

Lemma sorted_fresh e l :
  entries_sorted (e :: l) -> fresh e l /\ entries_sorted l.
Proof.
  intros [Hs Hlt]%Sorted.StronglySorted_inv. split; [|done]. intros e' He' Heq.
  rewrite Forall_forall in Hlt. specialize (Hlt e' ltac:(by apply list_elem_of_In)). rewrite Heq in Hlt. by rewrite bytes_lt_irrefl in Hlt.
Qed.

Lemma below_fresh e e' l :
  bytes_lt (path_bytes e) (path_bytes e') = true -> entries_sorted (e' :: l) -> fresh e (e' :: l).
Proof.
  intros Hlt [_ Hall]%Sorted.StronglySorted_inv x [->|Hx]%list.elem_of_cons Heq.
  - rewrite Heq in Hlt. by rewrite bytes_lt_irrefl in Hlt.
  - rewrite Forall_forall in Hall. specialize (Hall x ltac:(by apply list_elem_of_In)).
    pose proof (bytes_lt_trans _ _ _ Hlt Hall) as H. rewrite Heq in H. by rewrite bytes_lt_irrefl in H.
Qed.

Lemma fresh_not_in e l : fresh e l -> e ∉ l.
Proof. intros H He. by apply (H e He). Qed.

Lemma changed_removed e before after c :
  fresh e before -> fresh e after ->
  changed (e :: before) after c <-> c = change_of ChRemoved e \/ changed before after c.
Proof.
  intros Hb Ha. destruct c as [[] x]; unfold changed, change_of; cbn; [naive_solver|..].
  - setoid_rewrite list.elem_of_cons. split; [intros [? H]; right; naive_solver|].
    intros [[=]|[? H]]. split; [done|]. intros e' [->|He']; [|by apply H]. intros Heq. by apply (Ha x).
  - setoid_rewrite list.elem_of_cons. split.
    + intros (Hx & Hn & e' & [->|He'] & Heq); [by destruct (Ha x)|]. right. split; [done|]. split; [tauto|by exists e'].
    + intros [[=]|(Hx & Hn & e' & He' & Heq)]. split; [done|]. split; [|exists e'; tauto].
      intros [->|?]; [by apply (Ha e)|done].
  - rewrite list.elem_of_cons. split; [intros [[->|?] ?]; [by left|by right]|].
    intros [[= ->]|[? ?]]; [by split; [left|exact Ha]|by split; [right|]].
Qed.

Lemma changed_added e before after c :
  fresh e before -> fresh e after ->
  changed before (e :: after) c <-> c = change_of ChAdded e \/ changed before after c.
Proof.
  intros Hb Ha. destruct c as [[] x]; unfold changed, change_of; cbn; [naive_solver|..].
  - rewrite list.elem_of_cons. split; [intros [[->|?] ?]; [by left|by right]|].
    intros [[= ->]|[? ?]]; [by split; [left|exact Hb]|by split; [right|]].
  - setoid_rewrite list.elem_of_cons. split.
    + intros ([->|Hx] & Hn & e' & He' & Heq); [by destruct (Hb e')|]. right. by split_and!; [..|exists e'].
    + intros [[=]|(Hx & Hn & e' & He' & Heq)]. split_and!; [tauto|done|by exists e'].
  - setoid_rewrite list.elem_of_cons. split; [intros [? H]; right; naive_solver|].
    intros [[=]|[? H]]. split; [done|]. intros e' [->|He']; [|by apply H]. intros Heq. by apply (Hb x).
Qed.

Lemma changed_kept e e' before after c :
  path_bytes e = path_bytes e' -> fresh e before -> fresh e after ->
  changed (e :: before) (e' :: after) c
  <-> c ∈ (if bool_decide (e = e') then [] else [change_of ChModified e']) \/ changed before after c.
Proof.
  intros Hp Hb Ha.
  assert (e' ∉ before) as Hn by (intros H; by apply (Hb e')).
  assert (c ∈ (if bool_decide (e = e') then [] else [change_of ChModified e']) <-> c = change_of ChModified e' /\ e <> e') as ->.
  { case_bool_decide; rewrite ?list_elem_of_singleton, ?list.elem_of_nil; naive_solver. }
  destruct c as [[] x]; unfold changed, change_of; cbn; [naive_solver|setoid_rewrite list.elem_of_cons..].
  - split; [intros [[->|Hx] H]; [by destruct (H e (or_introl eq_refl)) |]; right; naive_solver|].
    intros [[[=] _]|[Hx H]]. split; [tauto|]. intros y [->|Hy]; [|by apply H]. intros Heq. by apply (Ha x); [|congruence].
  - split.
    + intros ([->|Hx] & Hne & y & [->|Hy] & Heq).
      * left. split; [done|]. intros ->. tauto.
      * left. split; [done|]. intros ->. tauto.
      * destruct (Ha x Hx). congruence.
      * right. split_and!; [done|tauto|by exists y].
    + intros [[[= ->] Hne]|(Hx & Hne & y & Hy & Heq)].
      * split_and!; [tauto|naive_solver|exists e; tauto].
      * split_and!; [tauto| |exists y; tauto]. intros [->|?]; [by apply (Ha e)|done].
  - split; [intros [[->|Hx] H]; [destruct (H e' (or_introl eq_refl)); congruence |]; right; naive_solver|].
    intros [[[=] _]|[Hx H]]. split; [tauto|]. intros y [->|Hy]; [|by apply H]. intros Heq. by apply (Hb x); [|congruence].
Qed.

Lemma delta_cons e e' before after :
  delta (e :: before) (e' :: after) =
    if bytes_lt (path_bytes e) (path_bytes e') then change_of ChRemoved e :: delta before (e' :: after)
    else if bytes_lt (path_bytes e') (path_bytes e) then change_of ChAdded e' :: delta (e :: before) after
    else (if bool_decide (e = e') then [] else [change_of ChModified e']) ++ delta before after.
Proof. reflexivity. Qed.

Lemma delta_changed before after c :
  entries_sorted before -> entries_sorted after -> c ∈ delta before after <-> changed before after c.
Proof.
  revert after. induction before as [|e before IH]; intros after Hb Ha.
  - induction after as [|e' after IHa].
    + cbn. unfold changed. rewrite list.elem_of_nil. destruct c as [[] x]; cbn; rewrite ?list.elem_of_nil; naive_solver.
    + destruct (sorted_fresh _ _ Ha) as [Hf Hs]. cbn [delta]. rewrite list.elem_of_cons, (IHa Hs).
      symmetry. apply changed_added; [|done]. by intros x ?%list.elem_of_nil.
  - destruct (sorted_fresh _ _ Hb) as [Hf Hs].
    induction after as [|e' after IHa].
    + cbn [delta]. rewrite list.elem_of_cons, (IH [] Hs Ha). symmetry. apply changed_removed; [done|]. by intros x ?%list.elem_of_nil.
    + destruct (sorted_fresh _ _ Ha) as [Hf' Hs']. rewrite delta_cons.
      destruct (bytes_lt (path_bytes e) (path_bytes e')) eqn:Hlt.
      { rewrite list.elem_of_cons, (IH (e' :: after) Hs Ha). symmetry. apply changed_removed; [done|by apply below_fresh]. }
      destruct (bytes_lt (path_bytes e') (path_bytes e)) eqn:Hgt.
      { rewrite list.elem_of_cons, (IHa Hs').
        symmetry. apply changed_added; [by apply below_fresh|done]. }
      pose proof (bytes_lt_total _ _ Hlt Hgt) as Hp. rewrite list.elem_of_app, (IH after Hs Hs').
      symmetry. apply changed_kept; [done..|]. intros x Hx. rewrite Hp. by apply Hf'.
Qed.

(** Every change is about an entry of one of the lists. *)
Lemma changed_entry before after c : changed before after c -> cg_entry c ∈ before \/ cg_entry c ∈ after.
Proof. destruct c as [[] x]; unfold changed; cbn; tauto. Qed.

Lemma delta_above e before after :
  entries_sorted before -> entries_sorted after ->
  Forall (fun x => bytes_lt (path_bytes e) (path_bytes x) = true) before ->
  Forall (fun x => bytes_lt (path_bytes e) (path_bytes x) = true) after ->
  Forall (fun c => bytes_lt (path_bytes e) (path_bytes (cg_entry c)) = true) (delta before after).
Proof.
  intros Hb Ha Hfb Hfa. rewrite !Forall_forall in *. intros c Hc%list_elem_of_In.
  rewrite delta_changed in Hc by done. apply changed_entry in Hc as [H|H]; [by apply Hfb, list_elem_of_In|by apply Hfa, list_elem_of_In].
Qed.

Definition changes_sorted (changes : list Change) : Prop := entries_sorted (cg_entry <$> changes).

Lemma changes_sorted_cons kind e changes :
  Forall (fun c => bytes_lt (path_bytes e) (path_bytes (cg_entry c)) = true) changes ->
  changes_sorted changes -> changes_sorted (change_of kind e :: changes).
Proof.
  intros Hf Hs. unfold changes_sorted, entries_sorted. cbn. constructor; [done|]. by apply Forall_fmap.
Qed.

Lemma entries_above e e' l :
  bytes_lt (path_bytes e) (path_bytes e') = true -> entries_sorted (e' :: l) ->
  Forall (fun x => bytes_lt (path_bytes e) (path_bytes x) = true) (e' :: l).
Proof.
  intros Hlt [_ H]%Sorted.StronglySorted_inv. constructor; [done|].
  revert H. apply Forall_impl. intros x. by apply bytes_lt_trans.
Qed.

Lemma delta_sorted before after :
  entries_sorted before -> entries_sorted after -> changes_sorted (delta before after).
Proof.
  revert after. induction before as [|e before IH]; intros after Hb Ha.
  - induction after as [|e' after IHa]; [constructor|].
    apply Sorted.StronglySorted_inv in Ha as [Hs Hf]. cbn [delta].
    apply changes_sorted_cons; [apply (delta_above e' []); by try constructor|by apply IHa].
  - pose proof (Sorted.StronglySorted_inv Hb) as [Hs Hf].
    induction after as [|e' after IHa].
    + cbn [delta]. apply changes_sorted_cons; [by apply delta_above|by apply IH].
    + pose proof (Sorted.StronglySorted_inv Ha) as [Hs' Hf']. rewrite delta_cons.
      destruct (bytes_lt (path_bytes e) (path_bytes e')) eqn:Hlt.
      { apply changes_sorted_cons; [apply delta_above; [done..|by apply entries_above]|by apply IH]. }
      destruct (bytes_lt (path_bytes e') (path_bytes e)) eqn:Hgt.
      { apply changes_sorted_cons; [apply delta_above; [done..|by apply entries_above|done]|by apply IHa]. }
      pose proof (bytes_lt_total _ _ Hlt Hgt) as Hp.
      case_bool_decide; cbn [app]; [by apply IH|].
      apply changes_sorted_cons; [|by apply IH]. apply delta_above; [done..| |done]. by rewrite <- Hp.
Qed.

(** ** The manifest's codec *)

Definition digest_typed (digest : option bytes) : bool :=
  match digest with Some d => array_ok 32 d | None => true end.

Definition scope_ok (scope : Scope) : bool :=
  negb (bool_decide (sc_paths scope = [])) && (len (sc_paths scope) <=? 256) && paths_sorted (sc_paths scope)
  && forallb (fun path => valid_str path && valid_path path) (sc_paths scope)
  && (0 <=? sc_depth scope) && (sc_depth scope <=? 64)
  && (0 <=? sc_flags scope) && (sc_flags scope <=? u32_max)
  && (mask_extra (sc_flags scope) SNAPSHOT_INCLUDE_HIDDEN =? 0).

Definition file_size (e : SnapshotEntry) : Z := if bool_decide (sne_kind e = KFile) then sne_size e else 0.

(** Files and links have a digest, only files a size. *)
Definition identity_fits (kind : FileKind) (size : Z) (digest : option bytes) : bool :=
  eqb (is_some digest) (bool_decide (kind = KFile \/ kind = KSymlink)) && (bool_decide (kind = KFile) || (size =? 0)).

Lemma identity_valid_fits kind size digest : identity_valid kind size digest = identity_fits kind size digest.
Proof. unfold identity_valid, identity_fits. by destruct kind, digest, (size =? 0). Qed.

Definition entry_ok (scope : Scope) (e : SnapshotEntry) : bool :=
  valid_str (sne_path e) && valid_path (sne_path e) && scope_covers scope (sne_path e)
  && u64_ok (sne_size e) && digest_typed (sne_digest e)
  && identity_fits (sne_kind e) (sne_size e) (sne_digest e) && (file_size e <=? MAX_SNAPSHOT_FILE_BYTES).

(** The manifests a snapshot means: paths in order and within the scope, identities that
    fit their kinds, and sizes within the ceilings. *)
Definition manifest_ok (m : SnapshotManifest) : bool :=
  scope_ok (sm_scope m) && (len (sm_entries m) <=? MAX_SNAPSHOT_ENTRIES)
  && forallb (entry_ok (sm_scope m)) (sm_entries m)
  && paths_sorted (sne_path <$> sm_entries m)
  && (zsum file_size (sm_entries m) <=? MAX_SNAPSHOT_TOTAL_BYTES).

Lemma valid_path_logical path : valid_path path = is_ok (validate_logical path).
Proof.
  unfold valid_path, validate_logical.
  destruct (bool_decide (path = [])), (Z.leb_spec (str_len path) 4096), (Z.ltb_spec 4096 (str_len path)); try lia; cbn; try done.
  destruct (contains 0 path), (contains 92 path), (contains 58 path); cbn; try done.
  destruct (starts_with 47 path), (ends_with 47 path), (bool_decide (path = L ".")), (existsb _ _); done.
Qed.

Lemma digest_nibble_hex c : digest_nibble c = to_option (hex_nibble c).
Proof. unfold digest_nibble, hex_nibble. by repeat case_match. Qed.

Lemma digest_pairs_hex b : digest_pairs b = to_option (decode_hex_loop b).
Proof.
  induction b as [b IH] using list_length_ind. destruct b as [|h [|x b]]; [done..|]. cbn [digest_pairs decode_hex_loop].
  rewrite !digest_nibble_hex. destruct (hex_nibble h) as [high|] eqn:Eh; [|done]. cbn.
  destruct (hex_nibble x) as [low|] eqn:Ex; [|done]. cbn.
  apply hex_nibble_inv in Eh as [? _], Ex as [? _].
  unfold checked_add. rewrite (proj2 (Z.leb_le _ _)) by lia. cbn. rewrite (IH b) by (cbn; lia).
  by destruct (decode_hex_loop b).
Qed.

Lemma snapshot_digest_ok s d : snapshot_digest s = Some d <-> s = hex_digest d /\ array_ok 32 d = true.
Proof.
  assert (snapshot_digest s = to_option (decode_hex_array 32 s)) as ->.
  { unfold snapshot_digest, decode_hex_array. change (Z.of_nat 32 * 2) with 64.
    destruct (negb _); [done|]. apply digest_pairs_hex. }
  unfold hex_digest, array_ok. rewrite andb_true_iff, bool_decide_eq_true. split.
  - destruct (decode_hex_array 32 s) as [l|] eqn:E; [|done]. intros [= ->].
    by apply decode_hex_array_inv in E as (-> & ? & ?).
  - intros (-> & Hl & Hb). by rewrite decode_hex_array_encode.
Qed.

Lemma optional_digest_cell cell d :
  optional_digest cell = Ok d <-> cell = digest_cell d /\ digest_typed d = true.
Proof.
  unfold optional_digest, digest_cell, digest_typed, text_value, null_value. destruct cell as [[| |s]|l].
  - destruct d; naive_solver.
  - destruct d; naive_solver.
  - split.
    + intros H. inv_ok. subst. by apply snapshot_digest_ok in H as [-> ?].
    + destruct d as [d|]; [|naive_solver]. intros [[= ->] Hd].
      by rewrite (proj2 (snapshot_digest_ok _ d)).
  - destruct d; naive_solver.
Qed.

Lemma decode_kind_ok n k : snapshot_kind n = Ok k <-> n = FileKind_code k.
Proof.
  unfold snapshot_kind. split.
  - destruct (Z.eqb_spec n 0), (Z.eqb_spec n 1), (Z.eqb_spec n 2), (Z.eqb_spec n 3); intros [= <-]; done.
  - intros ->. by destruct k.
Qed.

Lemma refuse_if_ok b u : refuse_if b = Ok u <-> b = false.
Proof. destruct b, u; naive_solver. Qed.

Lemma add_file_ok kind size total total' :
  0 <= total <= MAX_SNAPSHOT_TOTAL_BYTES ->
  let added := if bool_decide (kind = KFile) then size else 0 in
  add_file kind size total = Ok total' <->
  total' = total + added /\ added <= MAX_SNAPSHOT_FILE_BYTES /\ total + added <= MAX_SNAPSHOT_TOTAL_BYTES.
Proof.
  intros Ht. unfold add_file. case_bool_decide; cbn zeta; [|unfold MAX_SNAPSHOT_FILE_BYTES; split; [intros [= <-]; lia|intros (-> & _); f_equal; lia]].
  split.
  - intros H'. inv_ok. rewrite refuse_if_ok in *. subst. apply checked_add_Some in H1 as [-> ?]. zbool. lia.
  - intros (-> & Hs & Hsum). rewrite (proj2 (Z.ltb_ge _ _)) by done. cbn.
    unfold checked_add. rewrite (proj2 (Z.leb_le _ _)) by (unfold MAX_SNAPSHOT_TOTAL_BYTES in *; lia).
    cbn. by rewrite (proj2 (Z.ltb_ge _ _)).
Qed.

Definition follows (previous : option str) (path : str) : bool :=
  match previous with Some p => bytes_lt (str_bytes p) (str_bytes path) | None => true end.

(** What the loop over the rows accepts. *)
Fixpoint entries_from (scope : Scope) (previous : option str) (total : Z) (entries : list SnapshotEntry) : bool :=
  match entries with
  | [] => true
  | e :: entries =>
      entry_ok scope e && follows previous (sne_path e) && (total + file_size e <=? MAX_SNAPSHOT_TOTAL_BYTES)
      && entries_from scope (Some (sne_path e)) (total + file_size e) entries
  end.

Definition row_typed (row : list Cell) : Prop := length row = 4%nat /\ forallb cell_ok row = true.

Lemma cells_of_four row : length row = 4%nat -> row = [cell_at row 0; cell_at row 1; cell_at row 2; cell_at row 3].
Proof. by destruct row as [|? [|? [|? [|? [|]]]]]. Qed.

Lemma file_size_nonneg scope e : entry_ok scope e = true -> 0 <= file_size e.
Proof. unfold entry_ok, file_size, u64_ok. intros H. zbool. case_bool_decide; lia. Qed.

Lemma decode_entries_inv scope rows : forall previous total entries,
  Forall row_typed rows -> 0 <= total <= MAX_SNAPSHOT_TOTAL_BYTES ->
  decode_entries scope previous total rows = Ok entries ->
  rows = entry_row <$> entries /\ entries_from scope previous total entries = true.
Proof.
  induction rows as [|row rows IH]; intros previous total entries Hrows Ht H; cbn [decode_entries] in H.
  { by injection H as <-. }
  apply list.Forall_cons in Hrows as [[Hlen Hcells] Hrows]. rewrite (cells_of_four row Hlen) in Hcells |- *.
  inv_ok. rewrite refuse_if_ok in *. subst. zbool.
  repeat match goal with
  | H : text_atom _ = Ok _ |- _ => apply text_cell_ok in H
  | H : snapshot_unsigned _ = Ok _ |- _ => apply unsigned_cell_ok in H as [? ?]
  | H : snapshot_kind _ = Ok _ |- _ => apply decode_kind_ok in H
  | H : optional_digest _ = Ok _ |- _ => apply optional_digest_cell in H as [? ?]
  | H : add_file _ _ _ = Ok _ |- _ => apply add_file_ok in H as (? & ? & ?); [|done]
  end. subst. cbn [forallb] in Hcells. zbool.
  match goal with H : decode_entries _ _ _ _ = Ok _ |- _ => apply IH in H as [-> Hf]; [|done|] end.
  2: { destruct (bool_decide (_ = KFile)); lia. }
  split; [rewrite fmap_cons; f_equal; unfold entry_row; cbn [sne_path sne_kind sne_size sne_digest]; congruence|].
  cbn [entries_from sne_path]. unfold file_size at 1 2. cbn [sne_kind sne_size]. rewrite Hf, andb_true_r. apply andb_true_iff; split; [|unfold file_size; cbn; by apply Z.leb_le].
  apply andb_true_iff; split.
  - unfold entry_ok, file_size, u64_ok. cbn [sne_path sne_kind sne_size sne_digest].
    match goal with H : cell_at row 0 = _, H' : cell_ok (cell_at row 0) = true |- _ => rewrite H in H'; cbn in H'; rewrite H' end.
    rewrite <- identity_valid_fits, !andb_true_iff, !Z.leb_le. split_and!; first [done|lia].
  - cbn. destruct previous; [by apply negb_false_iff|done].
Qed.

Lemma decode_entries_encode scope entries : forall previous total,
  0 <= total <= MAX_SNAPSHOT_TOTAL_BYTES -> entries_from scope previous total entries = true ->
  decode_entries scope previous total (entry_row <$> entries) = Ok entries.
Proof.
  induction entries as [|[path kind size digest] entries IH]; intros previous total Ht H; [done|].
  cbn [entries_from sne_path] in H. apply andb_true_iff in H as [H Hrest].
  apply andb_true_iff in H as [[He Hf]%andb_true_iff Hsum%Z.leb_le].
  pose proof (file_size_nonneg _ _ He) as Hnn.
  unfold entry_ok in He. cbn [sne_path sne_kind sne_size sne_digest] in He. rewrite !andb_true_iff in He.
  destruct He as ((((((Hv & Hvp) & Hc) & Hu) & Hd) & Hi) & Hmax%Z.leb_le).
  rewrite fmap_cons. cbn [decode_entries]. change (cell_at (entry_row _) 0) with (text_value path).
  unfold text_atom. rewrite (proj2 (text_cell_ok _ _ path)) by done. cbn [mbind result_bind]. rewrite Hvp, Hc. cbn [negb orb].
  assert (match previous with Some p => negb (bytes_lt (str_bytes p) (str_bytes path)) | None => false end = false) as ->.
  { destruct previous; [by apply negb_false_iff|done]. }
  cbn [refuse_if mbind result_bind]. change (cell_at (entry_row _) 1) with (unsigned_value (FileKind_code kind)).
  change (cell_at (entry_row _) 2) with (unsigned_value size). change (cell_at (entry_row _) 3) with (digest_cell digest).
  unfold snapshot_unsigned. rewrite (proj2 (unsigned_cell_ok (unsigned_value (FileKind_code kind)) _ _)) by (split; [done|destruct kind; cbn; lia]).
  cbn [mbind result_bind]. rewrite (proj2 (decode_kind_ok _ kind)) by done. cbn [mbind result_bind].
  rewrite (proj2 (unsigned_cell_ok (unsigned_value size) _ _)) by (split; [done|unfold u64_ok in Hu; zbool; lia]). cbn [mbind result_bind].
  rewrite (proj2 (optional_digest_cell (digest_cell digest) digest)) by done. cbn [mbind result_bind]. rewrite identity_valid_fits, Hi. cbn [negb refuse_if mbind result_bind].
  rewrite (proj2 (add_file_ok kind size total _ Ht)) by (split; [reflexivity|done]). cbn [mbind result_bind].
  rewrite IH; [done| |done]. unfold file_size in *. cbn in *. lia.
Qed.

Lemma entries_from_spec scope entries : forall previous total,
  0 <= total ->
  entries_from scope previous total entries = true <->
  forallb (entry_ok scope) entries = true /\ paths_sorted (sne_path <$> entries) = true
  /\ match entries with e :: _ => follows previous (sne_path e) = true | [] => True end
  /\ (entries = [] \/ total + zsum file_size entries <= MAX_SNAPSHOT_TOTAL_BYTES).
Proof.
  induction entries as [|e entries IH]; intros previous total Ht; [cbn; tauto|].
  cbn [entries_from forallb]. rewrite zsum_cons.
  rewrite !andb_true_iff, Z.leb_le. split.
  - intros [[[He Hf] Hsum] Hrest]. pose proof (file_size_nonneg _ _ He).
    apply IH in Hrest as (H1 & H2 & H3 & H4); [|lia]. split_and!; [done..| |done|].
    + destruct entries as [|e' entries]; [done|]. unfold paths_sorted in *. rewrite !fmap_cons in *.
      rewrite windows2_all_cons2. apply andb_true_iff. by split.
    + right. destruct H4 as [->|]; [rewrite zsum_nil|]; lia.
  - intros ((He & Hes) & Hs & Hf & [|Hsum]); [done|]. pose proof (file_size_nonneg _ _ He).
    assert (0 <= zsum file_size entries) as Hnn.
    { rewrite forallb_forall in Hes. clear -Hes. induction entries as [|x entries IH]; [done|].
      rewrite zsum_cons. pose proof (file_size_nonneg _ _ (Hes x (or_introl eq_refl))).
      specialize (IH ltac:(intros y Hy; apply Hes; by right)). lia. }
    split_and!; [done..|lia|]. apply IH; [lia|]. split_and!; [done|..|right; lia].
    + destruct entries as [|e' entries]; [done|]. unfold paths_sorted in *. rewrite !fmap_cons, windows2_all_cons2 in Hs.
      by apply andb_true_iff in Hs as [_ ?].
    + destruct entries as [|e' entries]; [done|]. unfold paths_sorted in *. rewrite !fmap_cons, windows2_all_cons2 in Hs.
      by apply andb_true_iff in Hs as [? _].
Qed.

Definition scope_typed (r : Rec) : Prop := length (rec_values r) = length (rec_columns r) /\ forallb cell_ok (rec_values r) = true.

Lemma scope_paths_ok atoms paths :
  mapM (fun atom => match atom with
    | AText path => if valid_path path then Ok path else Err OE_InvalidSnapshot
    | _ => Err OE_InvalidSnapshot end) atoms = Ok paths
  <-> atoms = AText <$> paths /\ forallb valid_path paths = true.
Proof.
  rewrite mapM_ok. split.
  - induction 1 as [|a p atoms paths H _ [-> IH]]; [done|]. destruct a as [| |s]; [done..|].
    destruct (valid_path s) eqn:E; [|done]. injection H as ->. cbn. by rewrite E.
  - intros [-> H]. induction paths as [|p paths IH]; [constructor|]. cbn in H. apply andb_true_iff in H as [Hp H].
    constructor; [by rewrite Hp|by apply IH].
Qed.

Lemma decode_scope_ok r scope :
  scope_typed r ->
  decode_scope r = Ok scope <-> r = mkRec [L "p"; L "d"; L "f"] (scope_cells scope) /\ scope_ok scope = true.
Proof.
  intros [Hl Hc]. unfold decode_scope. split.
  - intros H. inv_ok. rewrite refuse_if_ok in *. apply expect_columns_ok in H0.
    destruct r as [columns values]. cbn [rec_columns rec_values] in *. subst.
    destruct values as [|a [|b [|c [|]]]]; try done. cbn [cell_at nth] in *.
    destruct a as [|atoms]; [done|]. injection H1 as <-. apply scope_paths_ok in H2 as [-> Hp].
    repeat match goal with
    | H : snapshot_unsigned _ = Ok _ |- _ => apply unsigned_cell_ok in H as [-> ?]
    | H : narrow_u16 _ _ = Ok _ |- _ => apply narrow_u16_ok in H as [-> ?]
    | H : narrow_u32 _ _ = Ok _ |- _ => apply narrow_u32_ok in H as [-> ?]
    end.
    split; [done|]. unfold scope_ok. cbn [sc_paths sc_depth sc_flags]. zbool.
    cbn in Hc. zbool.
    assert (forallb (fun path => valid_str path && valid_path path) x1 = true) as ->.
    { match goal with Ha : forallb atom_ok _ = true |- _ => rewrite forallb_forall in Hp, Ha; rename Ha into Hatoms end.
      apply forallb_forall. intros p Hin. rewrite Hp by done. rewrite andb_true_r.
      apply (Hatoms (AText p)), in_map_iff. by exists p. }
    rewrite !andb_true_iff, !Z.leb_le, negb_true_iff. split_and!; try first [done|lia]; by apply Z.eqb_eq.
  - intros [-> H]. unfold scope_ok in H. zbool. destruct scope as [paths depth flags]. cbn [sc_paths sc_depth sc_flags rec_values] in *.
    rewrite (proj2 (expect_columns_ok _ _ tt)) by done. cbn [mbind result_bind scope_cells cell_at nth text_vector_value sc_paths sc_depth sc_flags].
    assert (forallb valid_path paths = true) as Hp.
    { apply forallb_forall. intros p Hin. match goal with H : forallb _ paths = true |- _ => rewrite forallb_forall in H; specialize (H p Hin) end. zbool. done. }
    rewrite (proj2 (scope_paths_ok _ paths)) by done. cbn [mbind result_bind].
    rewrite (proj2 (refuse_if_ok _ tt)).
    2: { rewrite !orb_false_iff, negb_false_iff, Z.ltb_ge. by split_and!. }
    cbn [mbind result_bind]. unfold snapshot_unsigned.
    rewrite (proj2 (unsigned_cell_ok (unsigned_value depth) _ _)) by (split; [done|lia]). cbn [mbind result_bind].
    rewrite (proj2 (narrow_u16_ok depth _ depth)) by (split; [done|lia]). cbn [mbind result_bind].
    rewrite (proj2 (unsigned_cell_ok (unsigned_value flags) _ _)) by (split; [done|lia]). cbn [mbind result_bind].
    rewrite (proj2 (narrow_u32_ok flags _ flags)) by (split; [done|lia]). cbn [mbind result_bind].
    rewrite (proj2 (refuse_if_ok _ tt)); [done|].
    rewrite orb_false_iff, negb_false_iff, Z.ltb_ge, Z.eqb_eq. by split_and!.
Qed.

Definition document_of (m : SnapshotManifest) : Document :=
  mkDocument
    [mkField (L "k") (Scalar (AText (L "s"))); mkField (L "v") (Scalar (AText (L "1")));
     mkField (L "q") (VRecord (mkRec [L "p"; L "d"; L "f"] (scope_cells (sm_scope m))));
     mkField (L "d") (VTable (mkTable [L "p"; L "k"; L "z"; L "h"] (entry_row <$> sm_entries m)))].

Lemma snapshot_document_of m : snapshot_document m = Ok (document_of m).
Proof.
  unfold snapshot_document, table_value.
  assert (Table_new [L "p"; L "k"; L "z"; L "h"] (entry_row <$> sm_entries m)
    = Ok (mkTable [L "p"; L "k"; L "z"; L "h"] (entry_row <$> sm_entries m))) as Ht.
  { apply Table_new_ok. split_and!; [done|done|by apply (bool_decide_unpack _)|].
    apply Forall_fmap, Forall_true. by intros []. }
  rewrite (keys_ok [L "p"; L "k"; L "z"; L "h"]) by reflexivity. cbn [mbind result_bind]. rewrite Ht. reflexivity.
Qed.

Lemma snapshot_encode_ok m b : snapshot_encode m = Ok b <-> b = str_bytes (encode (document_of m)).
Proof.
  assert (snapshot_encode m = Ok (str_bytes (encode (document_of m)))) as ->.
  { unfold snapshot_encode. by rewrite snapshot_document_of. }
  split; [|by intros ->]. intros H. exact (eq_sym (f_equal (fun r => match r with Ok a => a | Err _ => [] end) H)).
Qed.

(** *** The cells of a manifest *)

Lemma valid_path_len path : valid_path path = true -> str_len path <= 4096.
Proof. rewrite valid_path_logical. apply validate_logical_len. Qed.

Lemma hex_digest_valid d : array_ok 32 d = true -> valid_str (hex_digest d) = true /\ str_len (hex_digest d) = 64.
Proof.
  unfold array_ok, hex_digest. rewrite andb_true_iff, bool_decide_eq_true. intros [Hl Hb].
  split; [|rewrite encode_hex_len by done; unfold len; lia].
  apply encode_hex_ascii in Hb. unfold valid_str. rewrite forallb_forall in Hb |- *. intros c Hc.
  specialize (Hb c Hc). unfold valid_char. lia.
Qed.

Lemma unsigned_value_good limits n :
  0 <= n <= u64_max -> 20 <= max_scalar_bytes limits -> cell_within limits (unsigned_value n) = true /\ cell_ok (unsigned_value n) = true.
Proof.
  intros Hn Hm. pose proof (decimal_bound n Hn). split; [apply Z.leb_le; lia|apply to_string_valid; lia].
Qed.

Lemma entry_row_good scope e :
  entry_ok scope e = true ->
  forallb cell_ok (entry_row e) = true /\ forallb (cell_within Limits_default) (entry_row e) = true
  /\ zsum cell_values (entry_row e) = 4.
Proof.
  unfold entry_ok. rewrite !andb_true_iff. intros ((((((Hv & Hp) & _) & Hs) & Hd) & _) & _).
  apply valid_path_len in Hp. destruct e as [path kind size digest]. cbn [sne_path sne_size sne_digest] in *.
  destruct (unsigned_value_good Limits_default (FileKind_code kind)) as [K1 K2]; [destruct kind; cbn; lia|cbn; lia|].
  destruct (unsigned_value_good Limits_default size) as [S1 S2]; [unfold u64_ok in Hs; zbool; lia|cbn; lia|].
  assert (cell_ok (digest_cell digest) = true /\ cell_within Limits_default (digest_cell digest) = true
    /\ cell_values (digest_cell digest) = 1) as (D1 & D2 & D3).
  { destruct digest as [d|]; [|done]. destruct (hex_digest_valid d Hd) as [V E]. split_and!; [done| |done].
    cbn. apply Z.leb_le. rewrite E. lia. }
  unfold entry_row. cbn [sne_path sne_kind sne_size sne_digest forallb]. rewrite K1, K2, S1, S2, D1, D2, !zsum_cons, D3.
  split_and!; [cbn; by rewrite Hv| |done]. cbn. rewrite andb_true_r. apply Z.leb_le. lia.
Qed.

Lemma scope_cells_good scope :
  scope_ok scope = true ->
  forallb cell_ok (scope_cells scope) = true /\ forallb (cell_within Limits_default) (scope_cells scope) = true
  /\ zsum cell_values (scope_cells scope) <= 258.
Proof.
  unfold scope_ok. intros H. zbool. destruct scope as [paths depth flags]. cbn [sc_paths sc_depth sc_flags] in *.
  destruct (unsigned_value_good Limits_default depth) as [D1 D2]; [lia|cbn; lia|].
  destruct (unsigned_value_good Limits_default flags) as [F1 F2]; [lia|cbn; lia|].
  match goal with H : forallb _ paths = true |- _ => rewrite forallb_forall in H; rename H into Hp end.
  unfold scope_cells. cbn [sc_paths sc_depth sc_flags forallb]. rewrite D1, D2, F1, F2, !zsum_cons, zsum_nil.
  split_and!.
  - rewrite andb_true_r. cbn. apply forallb_forall. intros a (p & <- & Hin)%in_map_iff.
    specialize (Hp p Hin). zbool. done.
  - rewrite andb_true_r. cbn. unfold vector_within. apply andb_true_iff. split.
    + rewrite len_fmap. apply orb_true_iff. right. apply Z.leb_le. cbn. lia.
    + apply forallb_forall. intros a (p & <- & Hin)%in_map_iff. specialize (Hp p Hin). zbool.
      apply Z.leb_le. pose proof (valid_path_len p ltac:(done)). cbn. lia.
  - cbn. rewrite len_fmap. lia.
Qed.

Lemma document_of_good m :
  manifest_ok m = true -> str_len (encode (document_of m)) <= MAX_SNAPSHOT_MANIFEST_BYTES ->
  document_ok (document_of m) = true /\ document_within Limits_default (document_of m) = true.
Proof.
  unfold manifest_ok. intros H Hlen. zbool. destruct (scope_cells_good (sm_scope m)) as (S1 & S2 & S3); [done|].
  match goal with H : forallb (entry_ok _) _ = true |- _ => rewrite forallb_forall in H; rename H into He end.
  split.
  - unfold document_ok, document_of. cbn [fields forallb field_key field_value value_ok rec_columns rec_values]. rewrite S1.
    assert (forallb (fun row => (len row =? len (table_columns (mkTable [L "p"; L "k"; L "z"; L "h"] (entry_row <$> sm_entries m))))
      && forallb cell_ok row) (table_rows (mkTable [L "p"; L "k"; L "z"; L "h"] (entry_row <$> sm_entries m))) = true) as ->.
    { apply forallb_forall. intros row (e & <- & Hin)%in_map_iff. destruct (entry_row_good _ e (He e Hin)) as (-> & _). done. }
    reflexivity.
  - unfold document_within. rewrite !andb_true_iff, !Z.leb_le. split_and!; [exact Hlen|..].
    + unfold document_of. cbn [fields mbind list_bind app field_lines field_value]. rewrite !len_cons, app_nil_r, !len_fmap. cbn [table_rows]. rewrite len_fmap.
      cbn. unfold MAX_SNAPSHOT_ENTRIES in *. lia.
    + change (4 <= 256). lia.
    + unfold document_of. cbn [fields]. rewrite !zsum_cons, zsum_nil. cbn [field_value value_values table_rows rec_values].
      assert (zsum (zsum cell_values) (entry_row <$> sm_entries m) = 4 * len (sm_entries m)) as ->.
      { clear -He. induction (sm_entries m) as [|e es IH]; [done|]. rewrite fmap_cons, zsum_cons, len_cons, IH.
        - destruct (entry_row_good _ e (He e (or_introl eq_refl))) as (_ & _ & ->). lia.
        - intros x Hx. apply He. by right. }
      change (max_values Limits_default) with 1000000. unfold MAX_SNAPSHOT_ENTRIES in *. lia.
    + unfold document_of. cbn [fields forallb]. rewrite !andb_true_iff. split_and!; [reflexivity..| | |done].
      * unfold field_within. cbn [field_key field_value value_within rec_columns rec_values]. by rewrite S2.
      * unfold field_within. cbn [field_key field_value value_within table_columns table_rows]. rewrite len_fmap.
        rewrite (proj2 (Z.leb_le (len (sm_entries m)) _)) by (cbn; unfold MAX_SNAPSHOT_ENTRIES in *; lia). cbn [andb].
        apply andb_true_iff. split; [reflexivity|].
        apply forallb_forall. intros row (e & <- & Hin)%in_map_iff. by destruct (entry_row_good _ e (He e Hin)) as (_ & -> & _).
Qed.

(** *** The codec *)

Lemma snapshot_decode_encode m b :
  manifest_ok m = true -> snapshot_encode m = Ok b -> len b <= MAX_SNAPSHOT_MANIFEST_BYTES -> snapshot_decode b = Ok m.
Proof.
  rewrite snapshot_encode_ok. intros Hm -> Hlen.
  destruct (document_of_good m Hm) as [Hok Hw]; [exact Hlen|].
  unfold snapshot_decode. rewrite (proj2 (Z.ltb_ge _ _)) by done. cbn [refuse_if mbind result_bind].
  rewrite from_utf8_str_bytes by by apply encode_valid. cbn [map_err mbind result_bind].
  unfold decode. rewrite (decode_encode Limits_default _ Hok Hw). cbn [map_err mbind result_bind].
  rewrite bool_decide_eq_true_2 by done. cbn [negb orb].
  rewrite bool_decide_eq_true_2 by done.
  unfold manifest_ok in Hm. zbool. destruct m as [scope entries]. cbn [sm_scope sm_entries] in *.
  assert (decode_scope (mkRec [L "p"; L "d"; L "f"] (scope_cells scope)) = Ok scope) as Hs.
  { apply decode_scope_ok; [|done]. split; [done|]. by apply scope_cells_good. }
  assert (decode_entries scope None 0 (entry_row <$> entries) = Ok entries) as He.
  { apply decode_entries_encode; [by unfold MAX_SNAPSHOT_TOTAL_BYTES|]. apply entries_from_spec; [done|].
    split_and!; [done..|by destruct entries|right; lia]. }
  change (Document_get (document_of _) (L "k")) with (Some (Scalar (AText (L "s")))).
  change (Document_get (document_of _) (L "v")) with (Some (Scalar (AText (L "1")))).
  change (Document_get (document_of _) (L "q")) with (Some (VRecord (mkRec [L "p"; L "d"; L "f"] (scope_cells scope)))).
  change (Document_get (document_of _) (L "d")) with (Some (VTable (mkTable [L "p"; L "k"; L "z"; L "h"] (entry_row <$> entries)))).
  cbn [snapshot_scalar text refuse_if mbind result_bind record negb]. rewrite !bool_decide_eq_true_2 by done.
  cbn [negb refuse_if mbind result_bind]. rewrite Hs. cbn [mbind result_bind].
  rewrite (proj2 (expect_table_columns_ok _ _ tt)) by done. cbn [mbind result_bind table_rows].
  rewrite len_fmap, (proj2 (Z.ltb_ge _ _)) by done. cbn [refuse_if mbind result_bind]. by rewrite He.
Qed.

Lemma snapshot_decode_inv b m :
  snapshot_decode b = Ok m -> manifest_ok m = true /\ snapshot_encode m = Ok b /\ len b <= MAX_SNAPSHOT_MANIFEST_BYTES.
Proof.
  unfold snapshot_decode. intros H. inv_ok. rewrite refuse_if_ok in *.
  match goal with H : from_utf8 _ = Ok _ |- _ => apply from_utf8_Ok in H as [Hv <-] end.
  match goal with H : decode _ = Ok _ |- _ => unfold decode in H; apply decode_inv in H as (Hok & _ & _); [|done..] end.
  match goal with H : _ || _ = false |- _ => apply orb_false_iff in H as [He%negb_false_iff%bool_decide_eq_true Hk%negb_false_iff%bool_decide_eq_true] end.
  repeat match goal with
  | H : snapshot_scalar _ = Ok _ |- _ => unfold snapshot_scalar in H; apply Wire.text_ok in H
  | H : negb (bool_decide _) = false |- _ => apply negb_false_iff, bool_decide_eq_true in H
  end.
  match goal with H : record _ _ = Ok _ |- _ => apply record_ok in H; rename H into Hq end.
  destruct (Document_get _ [100]) as [[| | |t]|] eqn:Hd; try discriminate.
  repeat match goal with H : Ok _ = Ok _ |- _ => injection H as <- end.
  match goal with H : expect_table_columns _ _ = Ok _ |- _ => apply expect_table_columns_ok in H; rename H into Ht end.
  match goal with
  | Hs : decode_scope ?r = Ok ?sc, He : decode_entries _ _ _ _ = Ok ?es |- _ =>
      rename r into r0; rename sc into scope; rename es into entries; rename Hs into Hscope; rename He into Hentries
  end.
  subst. match goal with H : document_ok ?d = true |- _ => rename d into document end.
  assert (document = mkDocument (zip_with mkField [L "k"; L "v"; L "q"; L "d"]
    [Scalar (AText (L "s")); Scalar (AText (L "1")); VRecord r0; VTable t])) as E.
  { apply (Document_get_all _ _ _ Hk); [by apply (bool_decide_unpack _)|]. repeat constructor; done. }
  subst document. unfold document_ok in Hok. apply andb_true_iff in Hok as [_ Hfields].
  cbn [zip_with fields forallb field_key field_value value_ok] in Hfields. zbool.
  destruct t as [columns rows]. cbn [table_columns table_rows] in *. subst columns.
  apply decode_scope_ok in Hscope as [-> Hscope].
  2: { split; [|done]. match goal with H : len (rec_columns r0) = _ |- _ => unfold len in H; lia end. }
  apply decode_entries_inv in Hentries as [-> Hfrom].
  2: { apply Forall_forall. intros row Hin. match goal with H : forallb _ rows = true |- _ => rewrite forallb_forall in H; specialize (H row Hin) end.
       zbool. split; [|done]. match goal with H : len row = _ |- _ => unfold len in H; cbn in H; lia end. }
  2: by unfold MAX_SNAPSHOT_TOTAL_BYTES.
  apply entries_from_spec in Hfrom as (He1 & He2 & _ & He3); [|done].
  split_and!; [|by apply snapshot_encode_ok|done].
  rewrite len_fmap in *. unfold manifest_ok. cbn [sm_scope sm_entries]. rewrite Hscope, He1, He2, !andb_true_iff, !Z.leb_le.
  split_and!; [done..|]. destruct He3 as [->|]; [|lia]. rewrite zsum_nil. by unfold MAX_SNAPSHOT_TOTAL_BYTES.
Qed.

(** The decoder's test of the order is the order. *)
Lemma entries_sorted_paths entries : paths_sorted (sne_path <$> entries) = true <-> entries_sorted entries.
Proof.
  unfold paths_sorted, entries_sorted.
  rewrite (windows2_all_Sorted _ (fun x y => bytes_lt (str_bytes x) (str_bytes y) = true)) by done. split.
  - intros H%Sorted.Sorted_StronglySorted; [|intros ? ? ?; apply bytes_lt_trans].
    induction entries as [|e entries IH]; [constructor|]. rewrite fmap_cons in H.
    apply Sorted.StronglySorted_inv in H as [H Hf]. constructor; [by apply IH|]. by apply list.Forall_fmap in Hf.
  - intros H. apply Sorted.StronglySorted_Sorted. induction H as [|e entries _ IH Hf]; [constructor|].
    rewrite fmap_cons. constructor; [done|]. by apply list.Forall_fmap.
Qed.

(** ** No change *)

Lemma sorted_same_path entries e e' :
  entries_sorted entries -> e ∈ entries -> e' ∈ entries -> path_bytes e = path_bytes e' -> e = e'.
Proof.
  intros Hs. induction entries as [|x entries IH]; [by intros ?%list.elem_of_nil|].
  destruct (sorted_fresh _ _ Hs) as [Hf Hs']. intros [->|He]%list.elem_of_cons [->|He']%list.elem_of_cons Hp; [done|..].
  - by destruct (Hf e' He').
  - by destruct (Hf e He).
  - by apply IH.
Qed.

Lemma sorted_NoDup entries : entries_sorted entries -> NoDup entries.
Proof.
  induction entries as [|x entries IH]; [constructor|]. intros Hs. destruct (sorted_fresh _ _ Hs) as [Hf Hs'].
  constructor; [|by apply IH]. by apply fresh_not_in.
Qed.

Lemma delta_self entries : delta entries entries = [].
Proof. induction entries as [|e entries IH]; [done|]. by rewrite delta_cons, bytes_lt_irrefl, bool_decide_eq_true_2, IH. Qed.

Lemma delta_nil before after :
  entries_sorted before -> entries_sorted after -> delta before after = [] -> before = after.
Proof.
  intros Hb Ha Hd.
  assert (forall c, ~ changed before after c) as Hno.
  { intros c Hc. rewrite <- delta_changed, Hd in Hc by done. by apply list.elem_of_nil in Hc. }
  assert (forall x, x ∈ after -> x ∈ before) as Hsub.
  { intros x Hx. destruct (decide (x ∈ before)) as [|Hn]; [done|]. exfalso.
    destruct (decide (Exists (fun e => path_bytes e = path_bytes x) before)) as [He|He].
    - apply list.Exists_exists in He as (e & He & Hp). apply (Hno (mkChange ChModified x)). split_and!; [done..|by exists e].
    - apply (Hno (mkChange ChAdded x)). split; [done|]. intros e' He' Hp. apply He, list.Exists_exists. by exists e'. }
  assert (AntiSymm (=) (fun e e' => bytes_lt (path_bytes e) (path_bytes e') = true)) as Hanti.
  { intros x y Hxy Hyx. pose proof (bytes_lt_trans _ _ _ Hxy Hyx) as H. by rewrite bytes_lt_irrefl in H. }
  apply (StronglySorted_unique (fun e e' => bytes_lt (path_bytes e) (path_bytes e') = true)); [done|done|].
  apply NoDup_Permutation; [by apply sorted_NoDup..|]. intros x. split; [|apply Hsub]. intros Hx.
  destruct (decide (Exists (fun e => path_bytes e = path_bytes x) after)) as [He|He].
  - apply list.Exists_exists in He as (e & He & Hp). by rewrite <- (sorted_same_path before e x Hb (Hsub e He) Hx Hp).
  - destruct (Hno (mkChange ChRemoved x)). split; [done|]. intros e' He' Hp. apply He, list.Exists_exists. by exists e'.
Qed.
