(* ===== verification/Snapshot.v ===== *)
(** * Snapshot: the snapshot operation

    crates/ash-platform/src/identity.rs on a Unix target, and the operation of
    crates/ash-ops/src/snapshot.rs over the manifests of [SnapshotManifest].  The hasher
    that is fed chunk by chunk gives the hash of their concatenation. *)

From S2P Require Import Prelude Text Glob AsonModel AsonCodec AsonSound Capability Budget Paths Store.
From S2P Require Import Capture Governor Runtime Workspace Manifest Disk Mutation Permits.
From S2P Require Import NativeTree Request Response ResponseFacts Projection ProjectionFacts.
From S2P Require Import Patch Authorization WorkspaceRead Semantic ServiceFacts Queries.
From S2P Require Import RequestFacts AnswerFacts SnapshotManifest.

(** ** Identities *)

Record FileIdentity : Type := mkIdentity { fi_size : Z; fi_digest : bytes }.

(** [Path::parent]. *)
Definition parent_path (path : OsString) : option OsString :=
  match rev (components path) with
  | (CNormal _ | CCurDir | CParentDir) :: rest => Some (foldl push [] (as_os_str <$> rev rest))
  | _ => None
  end.

Section operations.
Context `{lib : Libraries} `{sort : UnstableSort}.

Definition HASH_BUFFER : Z := 64 * 1024.

(** The loop over the chunks; [fuel] bounds its turns ([hash_loop_fuel]). *)
Fixpoint hash_loop (fuel : nat) (file : nat) (max_bytes size : Z) (hashed : bytes) : op PlatformError FileIdentity :=
  match fuel with
  | O => op_fail (PL_Io OtherIo)
  | S fuel =>
      chunk ← native_call (fun t => ft_read_at t file size HASH_BUFFER);
      if bool_decide (chunk = []) then mret (mkIdentity size (blake3 hashed))
      else
        size ← op_lift (ok_or (checked_add u64_max size (len chunk)) (PL_InputTooLarge u64_max max_bytes));
        if max_bytes <? size then op_fail (PL_InputTooLarge size max_bytes)
        else hash_loop fuel file max_bytes size (hashed ++ chunk)
  end.

Definition hash_file_limited_sync (path : ResolvedPath) (max_bytes : Z) : op PlatformError FileIdentity :=
  native ← revalidate path;
  metadata ← native_call (fun t => ft_metadata t native);
  if negb (bool_decide (fm_kind metadata = EkFile)) then op_fail PL_InvalidMutationTarget
  else if max_bytes <? fm_len metadata then op_fail (PL_InputTooLarge (fm_len metadata) max_bytes)
  else
    file ← native_call (fun t => ft_open t native);
    hash_loop (S (Z.to_nat max_bytes)) file max_bytes 0 [].

Definition symlink_digest (logical : str) : op PlatformError bytes :=
  _ ← op_lift (validate_logical logical);
  if bool_decide (logical = L ".") then op_fail PL_InvalidLogicalPath
  else
    su ← get_surroundings;
    let native := joined_path (su_root su) logical in
    parent ← op_lift (ok_or (parent_path native) PL_WorkspaceEscape);
    parent ← native_call (fun t => ft_canonicalize t parent);
    _ ← op_lift (ensure_contained (su_root su) parent);
    metadata ← native_call (fun t => ft_symlink_metadata t native);
    if negb (bool_decide (fm_kind metadata = EkSymlink)) then op_fail PL_InvalidMutationTarget
    else
      target ← native_call (fun t => ft_read_link t native);
      mret (blake3 target).

(** ** Entries *)

Definition native_kind (kind : EntryKind) : FileKind :=
  match kind with EkFile => KFile | EkDirectory => KDirectory | EkSymlink => KSymlink | EkOther => KOther end.

Definition identify_entry (entry : NativeEntry) : op OperationError SnapshotEntry :=
  cancelled ← ask su_cancelled;
  if cancelled : bool then op_fail OE_Cancelled
  else
    '(size, digest) ← op_map_err OE_Platform
      match ne_kind entry with
      | EkFile =>
          path ← resolve_existing (ne_logical entry);
          identity ← hash_file_limited_sync path (ne_size entry);
          mret (fi_size identity, Some (fi_digest identity))
      | EkSymlink => digest ← symlink_digest (ne_logical entry); mret (0, Some digest)
      | EkDirectory | EkOther => mret (0, None)
      end;
    mret (mkSnapshotEntry (ne_logical entry) (native_kind (ne_kind entry)) size digest).

(** The sum of the sizes the walk reported. *)
Fixpoint initial_bytes (total : Z) (entries : list NativeEntry) : result OperationError Z :=
  match entries with
  | [] => Ok total
  | entry :: entries =>
      if negb (bool_decide (ne_kind entry = EkFile)) then initial_bytes total entries
      else if MAX_SNAPSHOT_FILE_BYTES <? ne_size entry then Err OE_WorkLimit
      else total ← ok_or (checked_add u64_max total (ne_size entry)) OE_WorkLimit; initial_bytes total entries
  end.

Fixpoint extend_native (batches : list (result PlatformError (list NativeEntry))) (entries : list NativeEntry)
    : result OperationError (list NativeEntry) :=
  match batches with
  | [] => Ok entries
  | batch :: batches =>
      batch ← map_err OE_Platform batch;
      let entries := entries ++ batch in
      if MAX_SNAPSHOT_ENTRIES <? len entries then Err OE_WorkLimit else extend_native batches entries
  end.

Definition logical_le (a b : NativeEntry) : bool := bytes_le (str_bytes (ne_logical a)) (str_bytes (ne_logical b)).
Definition logical_same (a b : NativeEntry) : bool := bool_decide (ne_logical a = ne_logical b).

(** ** The answer *)

Definition snapshot_result (change : Change) (path : Z) : SnapshotResult :=
  mkSnapshotResult path (cg_kind change) (sne_kind (cg_entry change)) (sne_size (cg_entry change))
    (hex_digest <$> sne_digest (cg_entry change)).

Definition snapshot_flags (truncated : bool) : Z :=
  Z.lor RESULT_RETAINED (if truncated then Z.lor RESULT_TRUNCATED RESULT_REDUCED else 0).

Definition snapshot_response (request_id : Z) (mappings : list PathMapping) (changes : list Change) (ids : list Z)
    (truncated : bool) (reference : Z) : result OperationError FinalResponse :=
  map_err OE_Response (FinalResponse_success request_id mappings (DSnapshot (with_ids snapshot_result changes ids))
    (snapshot_flags truncated) (Some reference)).

Definition change_path (change : Change) : str := sne_path (cg_entry change).

Definition snapshot_temporary (request_id : Z) (changes : list Change) (truncated : bool)
    : result OperationError FinalResponse :=
  let '(ids, mappings) := temporary_paths (change_path <$> changes) in
  snapshot_response request_id mappings changes ids truncated u64_max.

(** ** The operation *)

(** The bytes of the baseline, under a lease that ends with its block. *)
Definition read_baseline (reference : Z) : op OperationError bytes :=
  content ← shared (fun sh =>
    match get reference (sh_store sh) with
    | Ok (content, store) => (Ok content, with_store store sh)
    | Err e => (Err (OE_Store e), sh)
    end);
  data ← (if MAX_SNAPSHOT_MANIFEST_BYTES <? ct_length content then mret (Err OE_InvalidSnapshot)
          else
            spool ← ask su_spool;
            mret (map_err OE_Store (read_all spool content MAX_SNAPSHOT_MANIFEST_BYTES)));
  _ ← shared (fun sh => (Ok tt, with_store (drop_lease reference (sh_store sh)) sh));
  op_lift data.

Definition snapshot_scope (a : SnapshotArgs) : Scope := mkScope (sn_paths a) (sn_depth a) (sn_flags a).

Definition snapshot_options (a : SnapshotArgs) : WalkOptions :=
  mkWalkOptions (sn_depth a) (negb (Z.land (sn_flags a) SNAPSHOT_INCLUDE_HIDDEN =? 0)) MAX_SNAPSHOT_ENTRIES.

(** The baseline of a request that names one. *)
Definition snapshot_baseline (a : SnapshotArgs) : op OperationError (option SnapshotManifest) :=
  baseline ←
    match sn_baseline a with
    | Some reference => b ← read_baseline reference; m ← op_lift (snapshot_decode b); mret (Some m)
    | None => mret None
    end;
  if match baseline with Some m => negb (bool_decide (sm_scope m = snapshot_scope a)) | None => false end
  then op_fail OE_InvalidSnapshot
  else mret baseline.

(** The entries below the roots, sorted and each once, within the ceilings. *)
Definition snapshot_walk (a : SnapshotArgs) : op OperationError (list NativeEntry) :=
  roots ← op_map_err OE_Platform (mapM resolve_existing (sn_paths a));
  _ ← acquire_both;
  batches ← map_ordered_owned OE_Parallelism (walk (snapshot_options a)) roots;
  entries ← op_lift (extend_native batches []);
  let entries := dedup_by logical_same (sort_by logical_le entries) in
  total ← op_lift (initial_bytes 0 entries);
  if MAX_SNAPSHOT_TOTAL_BYTES <? total then op_fail OE_WorkLimit else mret entries.

(** Their identities, in the order of the entries. *)
Definition snapshot_identities (a : SnapshotArgs) (native : list NativeEntry) : op OperationError (list SnapshotEntry) :=
  identified ← map_ordered_owned OE_Parallelism identify_entry native;
  entries ← op_lift (mapM id identified);
  _ ← check_program;
  if existsb (fun entry => negb (scope_covers (snapshot_scope a) (sne_path entry))) entries
  then op_fail OE_InvalidSnapshot
  else mret entries.

Definition snapshot_changes (mode : SnapshotMode) (baseline : option SnapshotManifest) (entries : list SnapshotEntry)
    : result OperationError (list Change) :=
  match mode with
  | SnapCapture => Ok (change_of ChPresent <$> entries)
  | SnapDelta => baseline ← ok_or baseline OE_InvalidSnapshot; Ok (delta (sm_entries baseline) entries)
  end.

(** From the changes to the charged answer. *)
Definition snapshot_answer (request_id : Z) (changes : list Change) (encoded_manifest : bytes)
    : op OperationError FinalResponse :=
  byte_limit ← presentation_limit;
  record_limit ← remaining_records;
  shown ← fitting_prefix (len changes) record_limit byte_limit
    (fun length truncated => snapshot_temporary request_id (first_records length changes) truncated);
  let truncated := shown <? len changes in
  let projected := first_records shown changes in
  '(ids, mappings) ← intern_paths (change_path <$> projected);
  reference ← retain_result blake3 encoded_manifest;
  response ← op_lift (snapshot_response request_id mappings projected ids truncated reference);
  _ ← charge response shown;
  mret response.

Definition snapshot_execute (request : Request) (a : SnapshotArgs) : op OperationError FinalResponse :=
  _ ← check_program;
  baseline ← snapshot_baseline a;
  native ← snapshot_walk a;
  _ ← check_program;
  entries ← snapshot_identities a native;
  encoded_manifest ← op_lift (snapshot_encode (mkSnapshotManifest (snapshot_scope a) entries));
  if MAX_SNAPSHOT_MANIFEST_BYTES <? len encoded_manifest then op_fail OE_WorkLimit
  else
    changes ← op_lift (snapshot_changes (sn_mode a) baseline entries);
    snapshot_answer (rq_id request) changes encoded_manifest.

End operations.

(** * what a snapshot says *)

Section facts.
Context `{lib : Libraries} `{sort : UnstableSort} (su : Surroundings).
Context (Hcompany : sound_company su).
Context (Hentries : sl_max_entries (su_store_limits su) < u64_max).
Notation R := (runs su).

(** ** The steps keep the shared objects sound *)

Lemma always_read_baseline reference : always_fine su (read_baseline reference).
Proof.
  unfold read_baseline. always.
  - by apply (always_get_lease su Hcompany reference (fun c => c)).
  - by apply always_end_lease.
Qed.

Lemma always_snapshot_baseline a : always_fine su (snapshot_baseline a).
Proof. pose proof always_read_baseline. unfold snapshot_baseline. always. Qed.

Lemma always_resolve_existing logical : always_fine su (resolve_existing logical).
Proof. unfold resolve_existing. always. Qed.

Lemma always_native_walk options root : always_fine su (walk options root).
Proof. unfold walk. always. by apply always_walk_inner. Qed.

Lemma always_identify entry : always_fine su (identify_entry entry).
Proof.
  pose proof always_resolve_existing.
  assert (forall fuel file max size hashed, always_fine su (hash_loop fuel file max size hashed)) as Hloop.
  { induction fuel as [|fuel IH]; intros; cbn [hash_loop]; always. }
  assert (forall path max, always_fine su (hash_file_limited_sync path max)) as Hhash by (unfold hash_file_limited_sync; always).
  assert (forall logical, always_fine su (symlink_digest logical)) as Hlink by (unfold symlink_digest; always).
  unfold identify_entry. always. apply always_map_err. always.
Qed.

(** ** The jobs of the pool *)

(** The job was run for [x] between the two states, and this is what it made. *)
Definition ran {F A B} (f : A -> op F B) (st st' : Progress) (x : A) (r : result F B) : Prop := exists s s',
  since su st s /\ fine su s
  /\ match r with Ok b => f x su s = (Done b, s') | Err e => f x su s = (Fail_ e, s') end /\ since su s' st'.

Lemma ran_within {F A B} (f : A -> op F B) st1 st2 st3 x r : ran f st1 st2 x r -> since su st2 st3 -> ran f st1 st3 x r.
Proof. intros (s & s' & H1 & H2 & H3 & H4) H5. exists s, s'. split_and!; [done..|]. by etrans. Qed.

Lemma run_jobs_ran {E F A B} (f : A -> op F B) input jobs st0 :
  (forall x, always_fine su (f x)) ->
  forall results st results' st', fine su st -> since su st0 st ->
  run_jobs (E := E) f input jobs results su st = (Done results', st') ->
  (forall i r, results !! i = Some r -> exists x, input !! i = Some x /\ ran f st0 st x r) ->
  since su st0 st'
  /\ (forall i r, results' !! i = Some r -> exists x, input !! i = Some x /\ ran f st0 st' x r)
  /\ forall i, (i ∈ jobs /\ (i < length input)%nat) \/ is_Some (results !! i) -> is_Some (results' !! i).
Proof.
  intros Hf. induction jobs as [|j jobs IH]; intros results st results' st' Hst H0 H Hr; cbn [run_jobs] in H.
  { injection H as <- <-. split_and!; [done..|]. intros i [[Hi%list.elem_of_nil _]|Hi]; done. }
  destruct (input !! j) as [x|] eqn:Ex.
  - apply op_bind_done in H as (r & st1 & Ht & H).
    assert (fine su st1 /\ since su st st1) as [F1 S1] by (eapply always_both; [apply always_try, Hf|done|exact Ht]).
    destruct (IH _ _ _ _ F1 ltac:(by etrans) H) as (Hs & H1 & H2).
    { intros i r0 Hi. apply lookup_insert_Some in Hi as [[<- <-]|[_ Hi]].
      - exists x. split; [done|]. exists st, st1. unfold op_try in Ht.
        destruct (f x su st) as [[b|e|] s]; [..|done]; injection Ht as <- <-; by split_and!.
      - destruct (Hr i r0 Hi) as (y & Hy & Hran). exists y. split; [done|]. by eapply ran_within. }
    split_and!; [done..|]. intros i Hi. apply H2. destruct (decide (i = j)) as [->|Hne]; [right; rewrite lookup_insert_eq; by eexists|].
    rewrite lookup_insert_ne by done. destruct Hi as [[[->|Hi]%list.elem_of_cons Hl]|Hi]; [done|by left|by right].
  - destruct (IH _ _ _ _ Hst H0 H Hr) as (Hs & H1 & H2). split_and!; [done..|].
    intros i [[[->|Hi]%list.elem_of_cons Hl]|Hi]; [|apply H2; by left|apply H2; by right]. by apply lookup_ge_None in Ex; lia.
Qed.

Lemma map_ordered_ran `{laws : !UnstableSortLaws sort} {E F A B} (from : ParallelismError -> E) (f : A -> op F B) input st results st' :
  (forall x, always_fine su (f x)) -> fine su st ->
  map_ordered_owned from f input su st = (Done results, st') -> Forall2 (ran f st st') input results.
Proof.
  intros Hf Hst H. unfold map_ordered_owned in H. apply op_bind_done in H as (lives & s1 & Hl & H). destruct (negb lives); [done|].
  apply op_bind_done in H as (priority & s2 & Hp & H). apply op_bind_done in H as (m & s3 & Hr & H). injection H as <- <-.
  apply (always_both su _ _ _ _ (always_ask su Hcompany _)) in Hl as [F1 S1]; [|done].
  apply (always_both su _ _ _ _ (always_ask su Hcompany _)) in Hp as [F2 S2]; [|done].
  apply (run_jobs_ran f input _ st Hf) in Hr as (_ & H1 & H2); [|done|by etrans|by intros i r ?%lookup_empty_Some].
  assert (forall i, (i < length input)%nat -> is_Some (m !! i)) as Hdom.
  { intros i Hi. apply H2. left. split; [|done]. unfold schedule. rewrite (elem_of_sort_by). apply elem_of_seq. lia. }
  clear H2. apply Forall2_same_length_lookup_2.
  - clear H1. assert (forall k n, (k + n <= length input)%nat -> length (omap (fun i => m !! i) (seq k n)) = n) as Hl.
    { intros k n. revert k. induction n as [|n IH]; intros k Hk; [done|]. cbn.
      destruct (Hdom k ltac:(lia)) as [r ->]. cbn. f_equal. apply IH. lia. }
    symmetry. apply Hl. lia.
  - intros i x r Hx Hr.
    assert (forall n k, (k + n <= length input)%nat -> forall i, (i < n)%nat -> omap (fun i => m !! i) (seq k n) !! i = m !! (k + i)%nat) as Hl.
    { clear -Hdom. induction n as [|n IH]; intros k Hk [|i] Hi; try lia; cbn; destruct (Hdom k ltac:(lia)) as [r Hr]; rewrite Hr; cbn.
      - by rewrite Nat.add_0_r.
      - rewrite IH by lia. f_equal. lia. }
    pose proof (lookup_lt_Some _ _ _ Hx) as Hi. rewrite Hl in Hr by lia. destruct (H1 _ _ Hr) as (y & Hy & Hran). cbn in Hy. congruence.
Qed.

(** ** Identities *)

(** The bytes of an open file, chunk by chunk, each as the system answered. *)
Inductive chunks_read (st st' : Progress) (file : nat) : Z -> bytes -> Prop :=
| chunks_end offset :
    answered su R st st' (fun t => ft_read_at t file offset HASH_BUFFER) [] -> chunks_read st st' file offset []
| chunks_more offset chunk rest :
    answered su R st st' (fun t => ft_read_at t file offset HASH_BUFFER) chunk -> chunk <> [] ->
    chunks_read st st' file (offset + len chunk) rest -> chunks_read st st' file offset (chunk ++ rest).

Lemma chunks_within st1 st2 st3 st4 file offset rest :
  R st1 st2 -> chunks_read st2 st3 file offset rest -> R st3 st4 -> chunks_read st1 st4 file offset rest.
Proof.
  intros H1 H H2. induction H as [offset Ha|offset chunk rest Ha Hc _ IH]; [apply chunks_end|apply chunks_more; [|done|done]];
    within Ha.
Qed.

Lemma hash_loop_done fuel file max_bytes : forall size hashed st identity st',
  hash_loop fuel file max_bytes size hashed su st = (Done identity, st') -> size <= max_bytes ->
  R st st' /\ exists rest, chunks_read st st' file size rest /\ fi_size identity = size + len rest /\ fi_size identity <= max_bytes
    /\ fi_digest identity = blake3 (hashed ++ rest).
Proof.
  induction fuel as [|fuel IH]; intros size hashed st identity st' H Hs; cbn [hash_loop] in H; [done|].
  apply op_bind_done in H as (chunk & s1 & [R1 Hc]%(native_call_done su R) & H). case_bool_decide as Hn.
  - injection H as <- <-. subst chunk. split; [done|]. exists []. rewrite app_nil_r, len_nil. cbn [fi_size fi_digest].
    split; [by constructor|]. split_and!; [lia|done|done].
  - apply op_bind_done in H as (size' & s2 & [Ha ->]%op_lift_done & H). apply ok_or_ok, checked_add_Some in Ha as [-> _].
    destruct (Z.ltb_spec max_bytes (size + len chunk)); [done|]. apply IH in H as (R2 & rest & H1 & H2 & H3 & H4); [|done].
    split; [by etrans|]. exists (chunk ++ rest). split.
    + apply chunks_more; [within Hc|done|eapply chunks_within; [|exact H1|]; passes].
    + rewrite len_app, H4, app_assoc. split_and!; [lia|done|done].
Qed.

(** The fuel is never the reason to stop: more of it changes nothing. *)
Lemma hash_loop_fuel fuel extra file max_bytes : forall size hashed st,
  (Z.to_nat (max_bytes - size) < fuel)%nat -> size <= max_bytes ->
  hash_loop (fuel + extra) file max_bytes size hashed su st = hash_loop fuel file max_bytes size hashed su st.
Proof.
  induction fuel as [|fuel IH]; intros size hashed st Hf Hs; [lia|]. cbn [Nat.add hash_loop].
  unfold mbind at 1 3, op_bind at 1 3. destruct (native_call _ su st) as [[chunk|e|] s1]; [|done..].
  case_bool_decide as Hn; [done|]. unfold mbind, op_bind. destruct (op_lift _ su s1) as [[size'|e|] s2] eqn:El; [|done..].
  apply op_lift_done in El as [Ha ->]. apply ok_or_ok, checked_add_Some in Ha as [-> _].
  destruct (Z.ltb_spec max_bytes (size + len chunk)); [done|]. apply IH; [|done].
  assert (1 <= len chunk) by (destruct chunk; [done|rewrite len_cons; pose proof (len_nonneg chunk); lia]). lia.
Qed.

(** The entry is what the system said of the name the walk found. *)
Definition identified (st st' : Progress) (entry : NativeEntry) (e : SnapshotEntry) : Prop :=
  sne_path e = ne_logical entry /\ sne_kind e = native_kind (ne_kind entry)
  /\ match ne_kind entry with
     | EkFile => exists resolved native file content,
         confined su R st st' (joined_path (su_root su) (ne_logical entry)) resolved /\ confined su R st st' resolved native
         /\ answered su R st st' (fun t => ft_open t native) file /\ chunks_read st st' file 0 content
         /\ sne_size e = len content /\ len content <= ne_size entry /\ sne_digest e = Some (blake3 content)
     | EkSymlink => exists target,
         answered su R st st' (fun t => ft_read_link t (joined_path (su_root su) (ne_logical entry))) target
         /\ sne_size e = 0 /\ sne_digest e = Some (blake3 target)
     | EkDirectory | EkOther => sne_size e = 0 /\ sne_digest e = None
     end.

Lemma identified_within st1 st2 st3 st4 entry e :
  R st1 st2 -> identified st2 st3 entry e -> R st3 st4 -> identified st1 st4 entry e.
Proof.
  intros H1 (Hp & Hk & H) H2. split; [done|]. split; [done|]. destruct (ne_kind entry); [|done| |done].
  - destruct H as (resolved & native & file & content & Hr & Hn & Ho & Hc & H). exists resolved, native, file, content.
    split; [within Hr|]. split; [within Hn|]. split; [within Ho|]. split; [by eapply chunks_within|done].
  - destruct H as (target & Ht & H). exists target. split; [within Ht|done].
Qed.

Lemma hash_file_done path max_bytes st identity st' :
  0 <= max_bytes -> hash_file_limited_sync path max_bytes su st = (Done identity, st') ->
  R st st' /\ exists native file content, confined su R st st' (rp_native path) native /\ answered su R st st' (fun t => ft_open t native) file
    /\ chunks_read st st' file 0 content /\ fi_size identity = len content /\ len content <= max_bytes
    /\ fi_digest identity = blake3 content.
Proof.
  intros Hmax H. unfold hash_file_limited_sync in H. apply op_bind_done in H as (native & s1 & [R1 Hr]%(revalidate_confined su R) & H).
  apply op_bind_done in H as (metadata & s2 & [R2 _]%(native_call_done su R) & H). destruct (negb _); [done|]. destruct (_ <? _); [done|].
  apply op_bind_done in H as (file & s3 & [R3 Ho]%(native_call_done su R) & H).
  apply hash_loop_done in H as (R4 & content & H1 & H2 & H3 & H4); [|lia].
  split; [passes|]. exists native, file, content. split_and!; [| | |lia|lia|done].
  - within Hr.
  - within Ho.
  - eapply chunks_within; [|exact H1|]; passes.
Qed.

Lemma symlink_digest_done logical st digest st' :
  symlink_digest logical su st = (Done digest, st') ->
  R st st' /\ exists target, answered su R st st' (fun t => ft_read_link t (joined_path (su_root su) logical)) target /\ digest = blake3 target.
Proof.
  intros H. unfold symlink_digest in H. apply op_bind_done in H as ([] & s1 & [Hv ->]%op_lift_done & H).
  case_bool_decide; [done|]. apply op_bind_done in H as (? & s2 & Hsu & H). injection Hsu as <- <-.
  apply op_bind_done in H as (parent & s3 & [_ ->]%op_lift_done & H).
  apply op_bind_done in H as (parent' & s4 & [R1 _]%(native_call_done su R) & H).
  apply op_bind_done in H as (? & s5 & [_ ->]%op_lift_done & H).
  apply op_bind_done in H as (metadata & s6 & [R2 _]%(native_call_done su R) & H).
  destruct (negb _); [done|]. apply op_bind_done in H as (target & s7 & [R3 Ht]%(native_call_done su R) & H). injection H as <- <-.
  split; [passes|]. exists target. split; [|done]. within Ht.
Qed.

Lemma identify_entry_done entry st e st' :
  0 <= ne_size entry -> identify_entry entry su st = (Done e, st') -> identified st st' entry e.
Proof.
  intros Hs H. unfold identify_entry in H. apply op_bind_done in H as (cancelled & s1 & Hc & H).
  assert (R st s1) as R1 by (injection Hc as _ <-; apply passage_others). destruct cancelled; [done|].
  apply op_bind_done in H as ([size digest] & s2 & Hd%op_map_err_done & H). injection H as <- <-.
  split; [done|]. split; [done|]. destruct (ne_kind entry); cbn [sne_size sne_digest].
  - apply op_bind_done in Hd as (path & s3 & Hp & Hd). apply op_bind_done in Hd as (identity & s4 & Hh & Hd). injection Hd as <- <- <-.
    apply (resolve_existing_confined su R) in Hp as (R2 & _ & _ & _ & Hcf).
    apply hash_file_done in Hh as (R3 & native & file & content & H1 & H2 & H3 & H4 & H5 & H6); [|done].
    exists (rp_native path), native, file, content. rewrite H6. split_and!; [| | | |done..].
    + within Hcf.
    + within H1.
    + within H2.
    + eapply chunks_within; [|exact H3|]; passes.
  - by injection Hd as <- <- _.
  - apply op_bind_done in Hd as (d & s3 & (R2 & target & Ht & ->)%symlink_digest_done & Hd). injection Hd as <- <- <-.
    exists target. split_and!; [|done..]. within Ht.
  - by injection Hd as <- <- _.
Qed.

(** ** The walk *)

Lemma extend_native_ok batches : forall acc entries,
  len acc <= MAX_SNAPSHOT_ENTRIES -> extend_native batches acc = Ok entries ->
  len entries <= MAX_SNAPSHOT_ENTRIES /\ exists found, batches = Ok <$> found /\ entries = acc ++ concat found.
Proof.
  induction batches as [|batch batches IH]; intros acc entries Hacc H; cbn [extend_native] in H.
  { injection H as <-. split; [done|]. exists []. by rewrite app_nil_r. }
  apply bind_ok in H as (found & Hb%map_err_ok & H). destruct (Z.ltb_spec MAX_SNAPSHOT_ENTRIES (len (acc ++ found))); [done|].
  destruct (IH _ _ ltac:(done) H) as (H1 & rest & -> & ->). split; [done|]. exists (found :: rest).
  rewrite Hb. split; [done|]. cbn. by rewrite (assoc_L (++)).
Qed.

Lemma concat_elem {A} (l : list (list A)) x : x ∈ concat l <-> exists k, x ∈ k /\ k ∈ l.
Proof.
  rewrite list_elem_of_In, in_concat. split; intros (k & ? & ?); exists k; rewrite ?list_elem_of_In in *; by rewrite <- ?list_elem_of_In in *.
Qed.

Definition native_size (e : NativeEntry) : Z := if bool_decide (ne_kind e = EkFile) then ne_size e else 0.

Lemma initial_bytes_ok entries : forall total bytes,
  initial_bytes total entries = Ok bytes ->
  bytes = total + zsum native_size entries /\ Forall (fun e => native_size e <= MAX_SNAPSHOT_FILE_BYTES) entries.
Proof.
  induction entries as [|e entries IH]; intros total bytes H; cbn [initial_bytes] in H.
  { injection H as <-. rewrite zsum_nil. split; [lia|constructor]. }
  rewrite zsum_cons. assert (native_size e = if bool_decide (ne_kind e = EkFile) then ne_size e else 0) as Hsize by done. rewrite Hsize. case_bool_decide; cbn [negb] in H.
  - destruct (Z.ltb_spec MAX_SNAPSHOT_FILE_BYTES (ne_size e)); [done|].
    apply bind_ok in H as (total' & Ht%ok_or_ok%checked_add_Some & H). destruct Ht as [-> _].
    apply IH in H as [-> HF]. split; [lia|]. constructor; [|done]. by rewrite Hsize.
  - apply IH in H as [-> HF]. split; [lia|]. constructor; [|done]. by rewrite Hsize.
Qed.

Lemma dedup_by_length {A} (same : A -> A -> bool) l : (length (dedup_by same l) <= length l)%nat.
Proof.
  assert (forall l kept, (length (dedup_after same kept l) <= length l)%nat) as H.
  { clear l. induction l as [|y l IH]; intros kept; cbn; [lia|]. destruct (same y kept); cbn; [specialize (IH kept)|specialize (IH y)]; lia. }
  destruct l as [|x l]; [done|]. cbn. specialize (H l x). lia.
Qed.

Lemma logical_valid root native logical : logical_from_native root native = Ok logical -> valid_str logical = true.
Proof.
  unfold logical_from_native. intros H. inv_ok. destruct (bool_decide _); [by injection H as <-|]. inv_ok. subst.
  apply valid_str_join; [done|]. rename select (mapM _ _ = Ok _) into Hm. apply mapM_ok in Hm.
  clear - Hm. induction Hm as [|c w cs ws Hc _ IH]; [constructor|]. constructor; [|exact IH].
  apply ok_or_ok in Hc. unfold to_str, to_option in Hc. destruct (from_utf8 _) as [s|] eqn:E; [|done]. injection Hc as <-.
  by apply from_utf8_Ok in E as [? _].
Qed.

(** Lengths of files are lengths. *)
Definition sizes_typed : Prop := forall turn d path metadata,
  ft_symlink_metadata (su_tree su turn d) path = Ok metadata -> 0 <= fm_len metadata <= u64_max.

(** What was walked between the two states: each path was resolved below the root and
    walked, and the entries are those of the walks, each name once. *)
Record walk_result (a : SnapshotArgs) (st st' : Progress) (native : list NativeEntry) : Prop := mkWalkResult {
  wr_walks : exists batches,
    Forall2 (fun path batch => validate_logical path = Ok tt /\ exists place,
      confined su R st st' (joined_path (su_root su) path) place
      /\ walk_found su R (snapshot_options a) st st' (mkResolved path place) batch) (sn_paths a) batches
    /\ (forall e, e ∈ native -> e ∈ concat batches)
    /\ (forall e, e ∈ concat batches -> exists e', e' ∈ native /\ ne_logical e' = ne_logical e);
  wr_sorted : Sorted.StronglySorted (fun e e' => bytes_lt (str_bytes (ne_logical e)) (str_bytes (ne_logical e')) = true) native;
  wr_few : len native <= MAX_SNAPSHOT_ENTRIES;
  wr_files : Forall (fun e => native_size e <= MAX_SNAPSHOT_FILE_BYTES) native;
  wr_total : zsum native_size native <= MAX_SNAPSHOT_TOTAL_BYTES;
}.

Lemma wr_paths a st st' native : walk_result a st st' native -> Forall (fun path => validate_logical path = Ok tt) (sn_paths a).
Proof.
  intros [(batches & HF & _) _ _ _ _]. induction HF as [|path batch paths batches [Hv _] _ IH]; [constructor|by constructor].
Qed.

Lemma walk_result_entry a st st' native e :
  walk_result a st st' native -> e ∈ native ->
  exists v, answered su R st st' (fun t => ft_symlink_metadata t (vi_native v)) (vi_meta v) /\ shows_visit su v e.
Proof.
  intros [(batches & HF & Hin & _) _ _ _ _] He%Hin. apply concat_elem in He as (batch & Heb & Hb).
  apply list_elem_of_lookup_1 in Hb as [i Hi]. destruct (Forall2_lookup_r _ _ _ _ _ HF Hi) as (path & _ & _ & place & _ & Hw).
  destruct (walk_found_entry su R _ _ _ _ _ _ Hw Heb) as (v & ? & ? & _). by exists v.
Qed.

Lemma walk_result_within a st1 st2 st3 st4 native :
  R st1 st2 -> walk_result a st2 st3 native -> R st3 st4 -> walk_result a st1 st4 native.
Proof.
  intros H1 [(batches & HF & H) ? ? ? ?] H2. split; [|done..]. exists batches. split; [|done]. revert HF. apply Forall2_impl.
  intros path batch (Hv & place & Hc & Hw). split; [done|]. exists place. split; [within Hc|within Hw].
Qed.

Lemma resolved_paths paths : forall st resolved st',
  mapM resolve_existing paths su st = (Done resolved, st') ->
  R st st' /\ Forall2 (fun path root => rp_logical root = path /\ validate_logical path = Ok tt
    /\ confined su R st st' (joined_path (su_root su) path) (rp_native root)) paths resolved.
Proof.
  induction paths as [|p paths IH]; intros st resolved st' H.
  { injection H as <- <-. split; [reflexivity|constructor]. }
  change ((r ← resolve_existing p; rs ← mapM resolve_existing paths; mret (r :: rs)) su st = (Done resolved, st')) in H.
  apply op_bind_done in H as (r & s1 & (R1 & Hl & Hv & _ & Hc)%(resolve_existing_confined su R) & H).
  apply op_bind_done in H as (rs & s2 & [R2 HF]%IH & H). injection H as <- <-. split; [by etrans|]. constructor.
  - split_and!; [done..|]. within Hc.
  - revert HF. apply Forall2_impl. intros path root (? & ? & ?). split_and!; [done..|].
    eapply (confined_within su R); [|eassumption|]; passes.
Qed.

Lemma snapshot_walk_done `{laws : !UnstableSortLaws sort} a st native st' :
  fine su st -> snapshot_walk a su st = (Done native, st') -> fine su st' /\ since su st st' /\ walk_result a st st' native.
Proof.
  intros Hst H. pose proof (always_native_walk (snapshot_options a)) as Hwalk. unfold snapshot_walk in H.
  apply op_bind_done in H as (roots & s1 & Hr & H).
  assert (always_fine su (op_map_err OE_Platform (mapM resolve_existing (sn_paths a)))) as Hres.
  { apply always_map_err, always_mapM, always_resolve_existing. }
  pose proof (always_both su _ _ _ _ Hres Hst Hr) as [F1 S1]. apply op_map_err_done, resolved_paths in Hr as [R1 Hr].
  apply op_bind_done in H as (? & s2 & Ha & H).
  assert (always_fine su acquire_both) as Hacquire by (unfold acquire_both; always).
  apply (always_both su _ _ _ _ Hacquire) in Ha as [F2 S2]; [|done].
  apply op_bind_done in H as (batches & s3 & Hb & H).
  pose proof (always_both su _ _ _ _ (always_map_ordered su Hcompany OE_Parallelism (walk (snapshot_options a)) roots Hwalk) F2 Hb) as [F3 S3].
  apply op_bind_done in H as (found & s4 & [Hf ->]%op_lift_done & H).
  apply op_bind_done in H as (total & s5 & [Ht ->]%op_lift_done & H). destruct (Z.ltb_spec MAX_SNAPSHOT_TOTAL_BYTES total); [done|].
  injection H as <- <-. split; [done|]. split; [passes|].
  apply map_ordered_ran in Hb; [|done..]. apply extend_native_ok in Hf as (Hfew & batches' & -> & Hfound); [|done].
  pose proof (sort_by_permutation logical_le found) as Hperm. set (sorted := sort_by logical_le found) in *.
  apply initial_bytes_ok in Ht as [-> Hfiles].
  assert (exists batches, Forall2 (fun path batch => validate_logical path = Ok tt /\ exists place,
      confined su R st s3 (joined_path (su_root su) path) place
      /\ walk_found su R (snapshot_options a) st s3 (mkResolved path place) batch) (sn_paths a) batches /\ found = concat batches) as (bs & Hbs & Hcat).
  { exists batches'. split; [|done]. clear -laws Hr Hb S1 S2 S3. destruct S1 as [_ S1], S2 as [_ S2], S3 as [_ S3].
    revert batches' Hb. induction Hr as [|path root paths roots (Hl & Hv & Hc) _ IH]; intros batches' Hb;
      destruct batches' as [|batch batches']; inversion Hb as [|? ? ? ? Hran Hrest]; subst; constructor; [|by apply IH].
    split; [done|]. exists (rp_native root). split; [within Hc|].
    destruct Hran as (s & s' & [_ H1] & _ & Hrun & [_ H2]). destruct (native_walk_spec su R _ _ _ _ _ Hrun) as [_ Hw].
    destruct root as [l n]. within Hw. }
  assert (forall e, e ∈ found -> valid_str (ne_logical e) = true) as Hvalid.
  { intros e He. rewrite Hcat in He. apply concat_elem in He as (batch & Heb & Hb').
    apply list_elem_of_lookup_1 in Hb' as [i Hi]. destruct (Forall2_lookup_r _ _ _ _ _ Hbs Hi) as (path & _ & _ & place & _ & Hw).
    destruct (walk_found_entry su R _ _ _ _ _ _ Hw Heb) as (v & _ & [Hl _] & _). by eapply logical_valid. }
  split; [..|done|lia].
  - exists bs. split; [done|]. rewrite <- Hcat. split.
    + intros e He%dedup_by_elem. by rewrite Hperm in He.
    + intros e He. rewrite <- Hperm in He. destruct (dedup_by_covers logical_same sorted e He) as (e' & He' & Hs).
      exists e'. split; [done|]. destruct Hs as [->|Hs]; [done|]. by apply bool_decide_eq_true in Hs.
  - assert (Sorted.StronglySorted (strictly logical_le) (dedup_by logical_same sorted)) as Hs.
    { apply dedup_by_sorted.
      - intros ? ? ?. apply bytes_le_trans.
      - apply sort_by_sorted; [intros ? ?; apply bytes_le_total|intros ? ? ?; apply bytes_le_trans].
      - intros e e' Hx Hy Hxy Hyx. unfold logical_same. apply bool_decide_eq_true_2.
        pose proof (bytes_le_eq _ _ Hxy Hyx) as E. rewrite Hperm in Hx, Hy. apply str_bytes_inj; auto. }
    clear - Hs. induction Hs as [|x l _ IH Hx]; constructor; [done|]. eapply list.Forall_impl; [exact Hx|]. intros y [H1 H2]. by apply bytes_lt_le.
  - pose proof (dedup_by_length logical_same sorted). unfold len in *. rewrite <- Hperm in Hfew. lia.
Qed.

(** ** The manifest *)

Lemma walked_size a st st' native entry : sizes_typed -> walk_result a st st' native -> entry ∈ native -> 0 <= ne_size entry.
Proof.
  intros Ht Hw He. destruct (walk_result_entry _ _ _ _ _ Hw He) as (v & (now & _ & _ & Hm) & _ & ->). cbn.
  case_bool_decide; [|done]. apply Ht in Hm. lia.
Qed.

Lemma walked_valid a st st' native entry : walk_result a st st' native -> entry ∈ native -> valid_str (ne_logical entry) = true.
Proof. intros Hw He. destruct (walk_result_entry _ _ _ _ _ Hw He) as (v & _ & Hl & _). by eapply logical_valid. Qed.

Lemma identified_paths st st' native entries : Forall2 (identified st st') native entries -> sne_path <$> entries = ne_logical <$> native.
Proof. induction 1 as [|n e ns es (H & _) _ IH]; [done|]. rewrite !fmap_cons. by f_equal. Qed.

Lemma identified_size st st' n e : identified st st' n e -> file_size e <= native_size n.
Proof.
  intros (_ & Hk & Hi). unfold file_size, native_size. rewrite Hk. destruct (ne_kind n); cbn; repeat case_bool_decide; try done.
  destruct Hi as (? & ? & ? & content & _ & _ & _ & _ & Hs & Hl & _). lia.
Qed.

Lemma identified_total st st' native entries :
  Forall2 (identified st st') native entries -> zsum file_size entries <= zsum native_size native.
Proof. induction 1 as [|n e ns es Hi _ IH]; [done|]. rewrite !zsum_cons. apply identified_size in Hi. lia. Qed.

Lemma digest_array `{laws : !LibraryLaws lib} b : array_ok 32 (blake3 b) = true.
Proof.
  destruct (blake3_digest b) as [Hl Hb]. unfold array_ok. rewrite Hb, bool_decide_eq_true_2; [done|]. unfold len in Hl. lia.
Qed.

Lemma identified_entry `{laws : !LibraryLaws lib} scope st st' n e :
  identified st st' n e -> native_size n <= MAX_SNAPSHOT_FILE_BYTES -> valid_str (ne_logical n) = true ->
  valid_path (sne_path e) = true -> scope_covers scope (sne_path e) = true -> entry_ok scope e = true.
Proof.
  intros Hi Hmax Hv Hp Hc. pose proof (identified_size _ _ n e Hi) as Hs. destruct Hi as (Hpath & Hk & Hi).
  unfold entry_ok. rewrite Hpath in *. rewrite Hv, Hp, Hc. cbn [andb]. rewrite !andb_true_iff, Z.leb_le.
  assert (u64_ok (sne_size e) = true /\ digest_typed (sne_digest e) = true
    /\ identity_fits (sne_kind e) (sne_size e) (sne_digest e) = true) as (-> & -> & ->); [|by split_and!; [..|lia]].
  rewrite <- identity_valid_fits, Hk. unfold native_size in *. destruct (ne_kind n); cbn in *; repeat case_bool_decide; try done.
  - destruct Hi as (? & ? & ? & content & _ & _ & _ & _ & -> & Hl & ->). pose proof (len_nonneg content).
    split_and!; [|apply digest_array|done]. unfold u64_ok, MAX_SNAPSHOT_FILE_BYTES in *. lia.
  - by destruct Hi as [-> ->].
  - destruct Hi as (target & _ & -> & ->). split_and!; [done|apply digest_array|done].
  - by destruct Hi as [-> ->].
Qed.

(** A request as its decoder makes it. *)
Definition args_typed (a : SnapshotArgs) : Prop :=
  SnapshotArgs_ok a = true /\ SnapshotArgs_validate a = Ok tt /\ forallb valid_str (sn_paths a) = true.

Lemma snapshot_scope_ok a st st' native : args_typed a -> walk_result a st st' native -> scope_ok (snapshot_scope a) = true.
Proof.
  intros (Hok & Hv & Hs) Hw. unfold SnapshotArgs_validate, Request.validate_paths, validate_flags in Hv. inv_ok.
  unfold SnapshotArgs_ok, u16_ok, u32_ok in Hok. zbool. rename select (bool_decide (sn_paths a = []) = false) into Hne.
  unfold scope_ok, snapshot_scope. cbn [sc_paths sc_depth sc_flags].
  assert (forallb (fun path => valid_str path && valid_path path) (sn_paths a) = true) as Hp.
  { apply forallb_forall. intros p Hp. rewrite forallb_forall in Hs. rewrite (Hs p Hp), valid_path_logical.
    pose proof (wr_paths _ _ _ _ Hw) as HF. rewrite Forall_forall in HF. by rewrite (HF p Hp). }
  rewrite Hne, Hp, !andb_true_iff, !Z.leb_le, Z.eqb_eq. cbn [negb].
  unfold SNAPSHOT_FLAGS in *. split_and!; first [done|lia].
Qed.

Lemma walk_sorted a st st' native : walk_result a st st' native -> paths_sorted (ne_logical <$> native) = true.
Proof.
  intros Hw. unfold paths_sorted.
  apply (windows2_all_Sorted _ (fun x y => bytes_lt (str_bytes x) (str_bytes y) = true)); [done|].
  apply Sorted.StronglySorted_Sorted. pose proof (wr_sorted _ _ _ _ Hw) as Hs. clear - Hs.
  induction Hs as [|n ns _ IH Hn]; [constructor|]. rewrite fmap_cons. constructor; [done|]. by apply list.Forall_fmap.
Qed.

Lemma snapshot_manifest_ok `{laws : !LibraryLaws lib} a st st' native entries :
  args_typed a -> walk_result a st st' native -> Forall2 (identified st st') native entries ->
  Forall (fun e => scope_covers (snapshot_scope a) (sne_path e) = true) entries ->
  Forall (fun e => valid_path (sne_path e) = true) entries ->
  manifest_ok (mkSnapshotManifest (snapshot_scope a) entries) = true.
Proof.
  intros Ha Hw Hi Hc Hp. unfold manifest_ok. cbn [sm_scope sm_entries].
  rewrite (snapshot_scope_ok a st st' native) by done. rewrite !andb_true_iff, !Z.leb_le. split_and!; [done|..].
  - pose proof (wr_few _ _ _ _ Hw). unfold len in *. by rewrite <- (Forall2_length Hi).
  - apply forallb_forall. intros e He%list_elem_of_In. rewrite list.Forall_forall in Hc, Hp.
    apply list_elem_of_lookup_1 in He as Hlook. destruct Hlook as [i Hlook].
    destruct (Forall2_lookup_r _ _ _ _ _ Hi Hlook) as (n & Hn & Hin).
    pose proof (wr_files _ _ _ _ Hw) as Hf. rewrite list.Forall_lookup in Hf.
    eapply identified_entry; [exact Hin|by eapply Hf|eapply walked_valid; [exact Hw|by eapply list_elem_of_lookup_2]|by apply Hp|by apply Hc].
  - rewrite (identified_paths _ _ _ _ Hi). by eapply walk_sorted.
  - pose proof (identified_total _ _ _ _ Hi). pose proof (wr_total _ _ _ _ Hw). lia.
Qed.
(** ** The answer *)

(** The changes a request asks for, from what was under the reference of the baseline. *)
Definition requested_changes (a : SnapshotArgs) (st st' : Progress) (entries : list SnapshotEntry) (changes : list Change) : Prop :=
  match sn_mode a with
  | SnapCapture => changes = change_of ChPresent <$> entries
  | SnapDelta => exists reference b baseline,
      sn_baseline a = Some reference /\ read_under su st st' reference b /\ snapshot_decode b = Ok baseline
      /\ sm_scope baseline = snapshot_scope a /\ changes = delta (sm_entries baseline) entries
  end.

(** The answer shows the first changes, all of them unless it says so, and refers to the
    encoded manifest. *)
Definition snapshot_shown (request : Request) (changes : list Change) (encoded_manifest : bytes) (st : Progress)
    (r : FinalResponse) : Prop :=
  exists shown ids mappings alias,
    0 <= shown <= len changes
    /\ numbering (change_path <$> first_records shown changes) ids mappings
    /\ retained su st alias encoded_manifest
    /\ r = mkResponse (rq_id request) Success mappings
             (Some (DSnapshot (with_ids snapshot_result (first_records shown changes) ids))) None
             (snapshot_flags (shown <? len changes)) (Some alias).

Lemma read_baseline_done reference st b st' :
  fine su st -> read_baseline reference su st = (Done b, st') -> read_under su st st' reference b.
Proof.
  intros Hst H. unfold read_baseline in H. apply op_bind_done in H as (content & s1 & Hg & H). pose proof H as Hrest.
  apply op_bind_done in H as (data & s2 & Hd & H). apply op_bind_done in H as (? & s3 & Hl & H).
  apply op_lift_done in H as [-> ->]. destruct (lease_read su Hcompany reference OE_Store st content s1 Hst Hg) as [Hok Hread].
  pose proof (always_both su _ _ _ _ (always_get_lease su Hcompany reference (fun c => c) OE_Store) Hst Hg) as [F1 S1].
  assert (since su s1 s3) as S3.
  { eapply (always_since su); [|exact F1|exact Hrest]. always. by apply always_end_lease. }
  eapply (read_since su st st); [done| |exact S3].
  destruct (_ <? _); [done|]. apply op_bind_done in Hd as (spool & s4 & _ & Hd). injection Hd as Hd _. apply map_err_ok in Hd.
  by rewrite (read_all_whole _ _ _ _ Hok Hd).
Qed.

Lemma snapshot_baseline_done a st baseline st' :
  fine su st -> snapshot_baseline a su st = (Done baseline, st') ->
  match baseline with
  | Some m => sm_scope m = snapshot_scope a
      /\ exists reference b, sn_baseline a = Some reference /\ read_under su st st' reference b /\ snapshot_decode b = Ok m
  | None => True
  end.
Proof.
  intros Hst H. unfold snapshot_baseline in H. apply op_bind_done in H as (m & s1 & Hm & H).
  destruct (sn_baseline a) as [reference|] eqn:Hb.
  - apply op_bind_done in Hm as (b & s2 & Hr & Hm). apply op_bind_done in Hm as (m' & s3 & [Hd ->]%op_lift_done & Hm).
    injection Hm as <- <-. case_bool_decide as Hs; [|done]. injection H as <- <-. split; [done|].
    exists reference, b. split_and!; [done| |done]. by eapply read_baseline_done.
  - injection Hm as <- <-. by injection H as <- <-.
Qed.

Lemma requested_changes_done a st st' baseline entries changes :
  match baseline with
  | Some m => sm_scope m = snapshot_scope a
      /\ exists reference b, sn_baseline a = Some reference /\ read_under su st st' reference b /\ snapshot_decode b = Ok m
  | None => True
  end ->
  snapshot_changes (sn_mode a) baseline entries = Ok changes -> requested_changes a st st' entries changes.
Proof.
  intros Hb H. unfold requested_changes, snapshot_changes in *. destruct (sn_mode a); [by injection H as <-|].
  destruct baseline as [m|]; [|done]. cbn in H. injection H as <-. destruct Hb as (Hs & reference & b & H1 & H2 & H3).
  by exists reference, b, m.
Qed.

Lemma requested_since a st1 st2 st3 entries changes :
  requested_changes a st1 st2 entries changes -> since su st2 st3 -> requested_changes a st1 st3 entries changes.
Proof.
  unfold requested_changes. destruct (sn_mode a); [done|]. intros (reference & b & m & H1 & H2 & H3) Hs. exists reference, b, m.
  split; [done|]. split; [|done]. by eapply read_since.
Qed.

(** The paths of the changes are texts. *)
Lemma changes_valid a st st' entries changes :
  Forall (fun e => valid_str (sne_path e) = true) entries -> entries_sorted entries ->
  requested_changes a st st' entries changes -> Forall (fun c => valid_str (change_path c) = true) changes.
Proof.
  intros He Hs H. unfold requested_changes in H. destruct (sn_mode a); [subst changes; by apply list.Forall_fmap|].
  destruct H as (reference & b & m & _ & _ & Hd & _ & ->). apply snapshot_decode_inv in Hd as (Hm & _).
  unfold manifest_ok in Hm. zbool. apply list.Forall_forall. intros c Hc.
  assert (entries_sorted (sm_entries m)) as Hsm by by apply entries_sorted_paths.
  rewrite delta_changed in Hc by done. apply changed_entry in Hc as [Hc|Hc].
  - rename select (forallb _ _ = true) into Hf. rewrite forallb_forall in Hf. specialize (Hf _ (proj1 (list_elem_of_In _ _) Hc)).
    unfold entry_ok in Hf. by zbool.
  - rewrite list.Forall_forall in He. by apply He.
Qed.

(** What the answer to a snapshot says: the entries are what the system said of the names
    that the walk found, and the changes and the manifest are made of them. *)
Definition snapshot_true (request : Request) (a : SnapshotArgs) (st st' : Progress) (r : FinalResponse) : Prop :=
  exists native entries encoded_manifest changes,
    walk_result a st st' native /\ Forall2 (identified st st') native entries
    /\ Forall (fun e => scope_covers (snapshot_scope a) (sne_path e) = true) entries
    /\ snapshot_encode (mkSnapshotManifest (snapshot_scope a) entries) = Ok encoded_manifest
    /\ requested_changes a st st' entries changes
    /\ snapshot_shown request changes encoded_manifest st' r
    /\ (Forall (fun e => valid_path (sne_path e) = true) entries ->
        snapshot_decode encoded_manifest = Ok (mkSnapshotManifest (snapshot_scope a) entries)).

Lemma always_identities a native : always_fine su (snapshot_identities a native).
Proof.
  unfold snapshot_identities. always. apply always_map_ordered; [done|]. apply always_identify.
Qed.

Lemma snapshot_answer_done request changes encoded_manifest st r st' :
  fine su st -> Forall (fun c => valid_str (change_path c) = true) changes ->
  snapshot_answer (rq_id request) changes encoded_manifest su st = (Done r, st') ->
  since su st st' /\ snapshot_shown request changes encoded_manifest st' r.
Proof.
  intros Hst Hv H. unfold snapshot_answer in H.
  apply (limits_done su Hcompany (fun byte_limit record_limit => _)) in H as (bl & rl & s1 & Hrl & S1 & Hst1 & H); [|done].
  apply op_bind_done in H as (shown & s2 & Hs & H). apply fitting_prefix_done in Hs as [-> Hs]; [|apply len_nonneg|done].
  cbv zeta in H. apply op_bind_done in H as ([ids mappings] & s3 & Hi & H).
  apply op_bind_done in H as (alias & s4 & Hr & H). pose proof H as Hrest.
  apply op_bind_done in H as (response & s5 & [Hresp ->]%op_lift_done & H).
  apply op_bind_done in H as (? & s6 & _ & H). injection H as <- <-. apply success_eq in Hresp.
  pose proof (always_both su _ _ _ _ (always_intern su Hcompany _) Hst1 Hi) as [F3 S3].
  pose proof (always_both su _ _ _ _ (always_retain su Hcompany Hentries _) F3 Hr) as [F4 S4].
  assert (since su s4 s6) as S6 by (eapply (always_since su); [|exact F4|exact Hrest]; always).
  split; [passes|]. exists shown, ids, mappings, alias. split_and!; [lia|lia| | |done].
  - eapply (intern_numbered su Hcompany); [exact Hst1| |exact Hi]. apply list.Forall_fmap. unfold first_records. by apply Forall_take.
  - eapply retained_since; [exact S6|]. eapply (retain_retained su Hcompany); [done|exact F3|exact Hr].
Qed.

Lemma snapshot_identities_done `{laws : !UnstableSortLaws sort} a st0 st1 native st entries st' :
  sizes_typed -> walk_result a st0 st1 native -> fine su st -> snapshot_identities a native su st = (Done entries, st') ->
  Forall2 (identified st st') native entries /\ Forall (fun e => scope_covers (snapshot_scope a) (sne_path e) = true) entries.
Proof.
  intros Hsizes Hw Hst Hi. unfold snapshot_identities in Hi. apply op_bind_done in Hi as (found & s6 & Hf & Hi).
  pose proof (always_done su _ _ _ _ (always_map_ordered su Hcompany OE_Parallelism identify_entry native always_identify) Hst Hf) as F6.
  apply op_bind_done in Hi as (entries' & s7 & [Hm ->]%op_lift_done & Hi). apply op_bind_done in Hi as (? & s8 & Hp & Hi).
  apply (always_since su _ _ _ _ (always_program su Hcompany)) in Hp as [_ S8]; [|done].
  destruct (existsb _ _) eqn:Hex; [done|]. injection Hi as <- <-. apply mapM_ok in Hm.
  apply map_ordered_ran in Hf; [|apply always_identify|done]. split.
  - assert (Forall (fun n => 0 <= ne_size n) native) as Hwe.
    { apply list.Forall_forall. intros n Hn. by eapply walked_size. }
    clear -Hf Hm Hwe S8. revert entries' Hm.
    induction Hf as [|n r ns rs (s & s' & [_ H1] & _ & Hrun & [_ H2]) _ IH]; intros es' Hm; inversion Hm as [|? e ? es He Hes]; subst; [constructor|].
    apply list.Forall_cons in Hwe as [Hn Hwe]. cbn in He. subst r. constructor; [|by apply IH].
    apply identify_entry_done in Hrun; [|done]. eapply identified_within; [|exact Hrun|]; passes.
  - apply list.Forall_forall. intros e He. destruct (scope_covers _ _) eqn:Hcov; [done|].
    rewrite <- not_true_iff_false in Hex. destruct Hex. apply existsb_exists. exists e. split; [by apply list_elem_of_In|]. by rewrite Hcov.
Qed.

Lemma snapshot_execute_true `{laws : !UnstableSortLaws sort} `{llaws : !LibraryLaws lib} request a st r st' :
  sizes_typed -> args_typed a -> fine su st -> snapshot_execute request a su st = (Done r, st') -> snapshot_true request a st st' r.
Proof.
  intros Hsizes Ha Hst H. unfold snapshot_execute in H.
  apply op_bind_done in H as (? & s1 & H1 & H). apply (always_both su _ _ _ _ (always_program su Hcompany)) in H1 as [F1 S1]; [|done].
  apply op_bind_done in H as (baseline & s2 & Hb & H).
  pose proof (always_both su _ _ _ _ (always_snapshot_baseline a) F1 Hb) as [F2 S2]. apply snapshot_baseline_done in Hb; [|done].
  apply op_bind_done in H as (native & s3 & Hw & H). apply snapshot_walk_done in Hw as (F3 & S3 & Hw); [|done].
  apply op_bind_done in H as (? & s4 & H4 & H).
  apply (always_both su _ _ _ _ (always_program su Hcompany)) in H4 as [F4 S4]; [|done]. apply op_bind_done in H as (entries & s5 & Hi & H).
  pose proof (always_both su _ _ _ _ (always_identities a native) F4 Hi) as [F5 S5].
  apply (snapshot_identities_done a s2 s3) in Hi as [Hid Hc]; [|done..].
  apply op_bind_done in H as (encoded_manifest & s6 & [He ->]%op_lift_done & H).
  destruct (Z.ltb_spec MAX_SNAPSHOT_MANIFEST_BYTES (len encoded_manifest)); [done|].
  apply op_bind_done in H as (changes & s7 & [Hch ->]%op_lift_done & H).
  apply (requested_changes_done a s1 s2) in Hch; [|done].
  assert (Forall (fun c => valid_str (change_path c) = true) changes) as Hvalid.
  { eapply changes_valid; [| |exact Hch].
    - apply list.Forall_forall. intros e He'. apply list_elem_of_lookup_1 in He' as [i Hi].
      destruct (Forall2_lookup_r _ _ _ _ _ Hid Hi) as (n & Hn & Hp & _). rewrite Hp.
      eapply walked_valid; [exact Hw|by eapply list_elem_of_lookup_2].
    - apply entries_sorted_paths. clear -Hw Hid. rewrite (identified_paths _ _ _ _ Hid). by eapply walk_sorted. }
  destruct (snapshot_answer_done request changes encoded_manifest _ _ _ F5 Hvalid H) as [S6 Hshown].
  destruct S1 as [P1 R1], S2 as [P2 R2], S3 as [P3 R3], S4 as [P4 R4], S5 as [P5 R5], S6 as [P6 R6].
  assert (walk_result a st st' native) as Hw' by (eapply walk_result_within; [|exact Hw|]; passes).
  assert (Forall2 (identified st st') native entries) as Hid'.
  { revert Hid. apply Forall2_impl. intros n e Hn. eapply identified_within; [|exact Hn|]; passes. }
  exists native, entries, encoded_manifest, changes. split_and!; [done..| |done|].
  - unfold requested_changes in *. destruct (sn_mode a); [done|]. destruct Hch as (reference & b & m & ? & Hread & ?).
    exists reference, b, m. split; [done|]. split; [|done].
    eapply read_since; [|exact Hread|]; [by split|]. split; [|passes]. etrans; [exact P3|]. etrans; [exact P4|]. by etrans.
  - intros Hp. apply snapshot_decode_encode; [by eapply snapshot_manifest_ok|done|done].
Qed.
End facts.
