(* ===== verification/Reference.v ===== *)
(** * Reference: the operations on retained results

    crates/ash-ops/src/reference.rs: ranges of bytes and lines, searches and projections of
    what the store retained, its release, and its materialization as a file. *)

From S2P Require Import Prelude Reducer ReducerFacts Disk Mutation Transaction JournalState.
From S2P Require Import RollbackFacts Durable ApplyFacts Committing PrepareFacts Publishing.
From S2P Require Import Atomicity Rows AsonModel AsonCodec AsonFacts AsonSound Wire Capability.
From S2P Require Import Request RequestFacts Response ResponseFacts Budget Paths Store Capture.
From S2P Require Import Governor Runtime Workspace Manifest Text Permits NativeTree Projection.
From S2P Require Import ProjectionFacts Patch AnswerFacts PatchFacts PatchReports Authorization.
From S2P Require Import WorkspaceRead Semantic ServiceFacts Queries.

Definition MAX_REFERENCE_MATCHES : Z := 1000000.
Definition MAX_PROJECTED_LINE_BYTES : Z := 4 * 1024.
Definition MAX_MATCH_PROJECTION_BYTES : Z := 64 * 1024 * 1024.
Definition MAX_STRUCTURED_REFERENCE_BYTES : Z := 8 * 1024 * 1024.
Definition MAX_REFERENCE_SLICE_BYTES : Z := 128 * 1024 * 1024.

(** ** Data *)

Record RawSlice : Type := mkRawSlice { rw_offset : Z; rw_length : Z; rw_bytes : bytes; rw_digest : str }.
Record RawMatch : Type := mkRawMatch {
  rx_offset : Z; rx_line : Z; rx_column : Z; rx_text : str; rx_normalized : bool; rx_reduced : bool }.
Inductive RawResult : Type := RawSliceOf (slice : RawSlice) | RawSearch (matches : list RawMatch) | RawProjection (table : Table).

(** ** Slices *)

Section digests.
Context `{lib : Libraries}.

Definition raw_slice (offset : Z) (b : bytes) : RawSlice := mkRawSlice offset (len b) b (hex_digest (blake3 b)).

(** The loop over the lines of [select_lines]: the cursor, where the selection starts, and
    how many lines it has. *)
Fixpoint line_loop (target length index : Z) (lines : list bytes) (cursor : Z) (start : option Z) (selected : Z)
    : op OperationError (option Z * Z) :=
  match lines with
  | [] => mret (start, cursor)
  | line :: lines =>
      _ ← (if index mod 4096 =? 0 then poll_cancelled else mret tt);
      let start := if index =? target then Some cursor else start in
      let selected := if (target <=? index) && (selected <? length) then selected + 1 else selected in
      let cursor := cursor + len line in
      if selected =? length then mret (start, cursor)
      else line_loop target length (index + 1) lines cursor start selected
  end.

Definition select_lines (b : bytes) (offset length : Z) : op OperationError RawSlice :=
  if bool_decide (b = []) then mret (raw_slice offset [])
  else
    '(start, cursor) ← line_loop (saturating_sub offset 1) length 0 (split_inclusive b) 0 None 0;
    match start with
    | None => mret (raw_slice offset [])
    | Some start => mret (raw_slice offset (slice b (Z.to_nat start) (Z.to_nat cursor)))
    end.

End digests.

Fixpoint valid_prefix (b : bytes) (length : nat) : nat :=
  match length with
  | O => O
  | S shorter => if is_ok (from_utf8 (take length b)) then length else valid_prefix b shorter
  end.

Definition projection_boundary (b : bytes) (length : Z) (text : bool) : Z :=
  let length := Z.min length (len b) in
  if text then Z.of_nat (valid_prefix b (Z.to_nat length)) else length.

Definition make_slice_response (request_id reference : Z) (slice : RawSlice) (projected : Z) (text : bool)
    : result OperationError FinalResponse :=
  let prefix := take (Z.to_nat projected) (rw_bytes slice) in
  '(text, hex) ←
    if text then projection ← map_err (fun _ => OE_WrongFileType) (from_utf8 prefix); Ok (Some projection, None)
    else Ok (None, Some (encode_hex prefix));
  let truncated := projected <? len (rw_bytes slice) in
  let flags := Z.lor RESULT_RETAINED (if truncated then Z.lor RESULT_TRUNCATED RESULT_REDUCED else 0) in
  map_err OE_Response
    (FinalResponse_success request_id []
       (DReference (RSlice (mkSlice (rw_offset slice) (rw_length slice) projected (rw_digest slice) text hex)))
       flags (Some reference)).

(** The binary search of [slice_response]; its interval halves each turn. *)
Fixpoint slice_loop (fuel : nat) (request_id reference : Z) (slice : RawSlice) (text : bool) (limit low high : Z)
    : result OperationError Z :=
  if high <=? low then Ok low
  else
    match fuel with
    | O => Err OE_Task
    | S fuel =>
        let middle := low + (high - low + 1) / 2 in
        response ← make_slice_response request_id reference slice (projection_boundary (rw_bytes slice) middle text) text;
        encoding ← encoded response;
        if str_len encoding <=? limit then slice_loop fuel request_id reference slice text limit middle high
        else slice_loop fuel request_id reference slice text limit low (middle - 1)
    end.

Definition slice_response (request : Request) (reference : Z) (slice : RawSlice) : op OperationError FinalResponse :=
  limit ← presentation_limit;
  let text := is_ok (from_utf8 (rw_bytes slice)) in
  let high := Z.min (if text then limit else limit / 2) (len (rw_bytes slice)) in
  low ← op_lift (slice_loop (Z.to_nat high) (rq_id request) reference slice text limit 0 high);
  response ← op_lift (make_slice_response (rq_id request) reference slice
                        (projection_boundary (rw_bytes slice) low text) text);
  encoding ← op_lift (encoded response);
  if limit <? str_len encoding then op_fail OE_OutputBudget
  else
    _ ← charge response 1;
    mret response.

(** ** Searches *)

(** [str::match_indices]: after a match the scan goes on behind it; [skip] is how much of
    the last match is still ahead. *)
Fixpoint match_indices (query s : str) (offset : Z) (skip : nat) : list (Z * Z) :=
  match s with
  | [] => if bool_decide (query = []) then [(offset, offset)] else []
  | c :: rest =>
      match skip with
      | S skip => match_indices query rest (offset + len_utf8 c) skip
      | O =>
          if starts_with_str query s
          then (offset, offset + str_len query) :: match_indices query rest (offset + len_utf8 c) (pred (length query))
          else match_indices query rest (offset + len_utf8 c) 0
      end
  end.

Definition project_line (line : str) (match_start match_end : Z) : str * bool :=
  if str_len line <=? MAX_PROJECTED_LINE_BYTES then (line, false)
  else
    let target := saturating_sub MAX_PROJECTED_LINE_BYTES 6 in
    let before := target / 2 in
    let after := saturating_sub target before in
    let start := floor_char_boundary line (saturating_sub match_start before) in
    let end_ := ceil_char_boundary line (Z.min (saturating_add usize_max match_end after) (str_len line)) in
    let end_ := if target <? saturating_sub end_ start
                then floor_char_boundary line (saturating_add usize_max start target) else end_ in
    ((if negb (start =? 0) then L "..." else []) ++ str_slice start end_ line
       ++ (if negb (end_ =? str_len line) then L "..." else []), true).

(** The lines of a text, each with its line feed. *)
Definition text_lines (s : str) : list str := split_inclusive s.

Section searching.
Context `{engine : RegexEngine}.

(** [Matcher::new] and [visit_matches]. *)
Definition reference_matcher (query : str) (flags : Z) : result OperationError Matcher :=
  let regex := negb (Z.land flags REF_REGEX =? 0) in
  let insensitive := negb (Z.land flags REF_CASE_INSENSITIVE =? 0) in
  if regex || insensitive then
    let pattern := if regex then query else regex_escape query in
    MRegex <$> ok_or (regex_build pattern insensitive (16 * 1024 * 1024)) OE_Regex
  else Ok (MLiteral query).

Definition line_matches (matcher : Matcher) (line : str) : list (Z * Z) :=
  match matcher with
  | MLiteral query => match_indices query line 0 0
  | MRegex regex => regex_find_iter regex line
  end.

Section range.
Context (matcher : Matcher) (range_start range_end : Z).

(** The closure over the matches of a line. *)
Fixpoint visit_matches (line_index line_start : Z) (line : str) (normalized : bool) (found : list (Z * Z))
    (matches : list RawMatch) (projected_bytes : Z) : result OperationError (list RawMatch * Z) :=
  match found with
  | [] => Ok (matches, projected_bytes)
  | (start, end_) :: found =>
      let absolute_start := saturating_add usize_max line_start start in
      let absolute_end := saturating_add usize_max line_start end_ in
      if (range_start <=? absolute_start) && (absolute_start <? range_end) && (absolute_end <=? range_end) then
        let '(projection, reduced) := project_line line start end_ in
        projected_bytes ← ok_or (checked_add usize_max projected_bytes (str_len projection)) OE_WorkLimit;
        if MAX_MATCH_PROJECTION_BYTES <? projected_bytes then Err OE_WorkLimit
        else
          let matches := matches ++ [mkRawMatch absolute_start (line_index + 1) (start + 1) projection normalized reduced] in
          if MAX_REFERENCE_MATCHES <? len matches then Err OE_WorkLimit
          else visit_matches line_index line_start line normalized found matches projected_bytes
      else visit_matches line_index line_start line normalized found matches projected_bytes
  end.

(** The line without its ending, and whether that was a carriage return and a line feed. *)
Definition without_ending (raw_line : str) : str * bool :=
  let without_lf := default raw_line (strip_suffix 10 raw_line) in
  let line := default without_lf (strip_suffix 13 without_lf) in
  (line, negb (str_len line =? str_len without_lf)).

Fixpoint search_loop (line_index line_start : Z) (lines : list str) (matches : list RawMatch) (projected_bytes : Z)
    : op OperationError (list RawMatch) :=
  match lines with
  | [] => mret matches
  | raw_line :: lines =>
      _ ← (if line_index mod 4096 =? 0 then poll_cancelled else mret tt);
      if range_end <=? line_start then mret matches
      else
        let '(line, normalized) := without_ending raw_line in
        '(matches, projected_bytes) ←
          op_lift (visit_matches line_index line_start line normalized (line_matches matcher line) matches projected_bytes);
        search_loop (line_index + 1) (saturating_add usize_max line_start (str_len raw_line)) lines matches projected_bytes
  end.
End range.

Definition search_bytes (b : bytes) (offset length : Z) (query : str) (flags : Z) : op OperationError (list RawMatch) :=
  text ← op_lift (map_err (fun _ => OE_WrongFileType) (from_utf8 b));
  matcher ← op_lift (reference_matcher query flags);
  let requested_start := Z.min offset (len b) in
  let requested_end := Z.min (saturating_add usize_max requested_start length) (len b) in
  search_loop matcher (ceil_char_boundary text requested_start) (floor_char_boundary text requested_end)
    0 0 (text_lines text) [] 0.
End searching.

Definition reference_match (m : RawMatch) : ReferenceMatch := mkRefMatch (rx_offset m) (rx_line m) (rx_column m) (rx_text m).

Definition make_search_response (request_id reference : Z) (matches : list RawMatch) (truncated : bool)
    : result OperationError FinalResponse :=
  let normalized := existsb rx_normalized matches in
  let reduced := truncated || existsb rx_reduced matches in
  let flags := Z.lor (Z.lor (Z.lor RESULT_RETAINED (if normalized then RESULT_NORMALIZED_TEXT else 0))
                            (if reduced then RESULT_REDUCED else 0)) (if truncated then RESULT_TRUNCATED else 0) in
  map_err OE_Response
    (FinalResponse_success request_id [] (DReference (RSearch (reference_match <$> matches))) flags (Some reference)).

(** What search and projection do with their records. *)
Definition prefix_response (total : Z) (make : Z -> bool -> result OperationError FinalResponse)
    : op OperationError FinalResponse :=
  limit ← presentation_limit;
  record_limit ← remaining_records;
  shown ← fitting_prefix total record_limit limit make;
  response ← op_lift (make shown (shown <? total));
  _ ← charge response shown;
  mret response.

Definition reference_search_response (request : Request) (reference : Z) (matches : list RawMatch)
    : op OperationError FinalResponse :=
  prefix_response (len matches) (fun length truncated =>
    make_search_response (rq_id request) reference (first_records length matches) truncated).

(** ** Projections *)

Fixpoint position_from (column : str) (columns : list str) (index : nat) : option nat :=
  match columns with
  | [] => None
  | c :: columns => if bool_decide (c = column) then Some index else position_from column columns (S index)
  end.

(** The selected columns: where each is, and its key. *)
Fixpoint selected_columns (source selected : list str) : result OperationError (list nat * list str) :=
  match selected with
  | [] => Ok ([], [])
  | column :: selected =>
      index ← ok_or (position_from column source 0) OE_InvalidArgument;
      key ← map_err OE_Build (Key_new column);
      '(indexes, columns) ← selected_columns source selected;
      Ok (index :: indexes, key :: columns)
  end.

(** The rows of the pool's parallel map, every 4096th after a look at the cancellation. *)
Fixpoint project_rows (index : Z) (indexes : list nat) (rows : list (list Cell)) : op OperationError (list (list Cell)) :=
  match rows with
  | [] => mret []
  | row :: rows =>
      _ ← (if index mod 4096 =? 0 then poll_cancelled else mret tt);
      rest ← project_rows (index + 1) indexes rows;
      mret ((cell_at row <$> indexes) :: rest)
  end.

Definition project_ason (b : bytes) (offset length : Z) (table : str) (selected : list str) : op OperationError Table :=
  if MAX_STRUCTURED_REFERENCE_BYTES <? len b then op_fail OE_WorkLimit
  else
    text ← op_lift (map_err (fun _ => OE_WrongFileType) (from_utf8 b));
    document ← op_lift (map_err (fun _ => OE_WrongFileType) (decode text));
    value ← op_lift (ok_or (Document_get document table) OE_InvalidArgument);
    source ← match value with VTable t => mret t | _ => op_fail OE_WrongFileType end;
    '(indexes, columns) ← op_lift (selected_columns (table_columns source) selected);
    let start := Z.min offset (len (table_rows source)) in
    let end_ := Z.min (saturating_add usize_max start length) (len (table_rows source)) in
    rows ← project_rows 0 indexes (take (Z.to_nat (end_ - start)) (drop (Z.to_nat start) (table_rows source)));
    op_lift (map_err OE_Build (Table_new columns rows)).

Definition make_projection_response (request_id reference : Z) (table : Table) (length : Z) (truncated : bool)
    : result OperationError FinalResponse :=
  projected ← map_err OE_Build (Table_new (table_columns table) (first_records length (table_rows table)));
  let flags := Z.lor (Z.lor RESULT_RETAINED RESULT_REDUCED) (if truncated then RESULT_TRUNCATED else 0) in
  map_err OE_Response
    (FinalResponse_success request_id [] (DReference (RProjection projected)) flags (Some reference)).

Definition projection_response (request : Request) (reference : Z) (table : Table) : op OperationError FinalResponse :=
  prefix_response (len (table_rows table)) (make_projection_response (rq_id request) reference table).

(** ** Materialization *)

Definition materialization_response (request_id reference : Z) (mappings : list PathMapping) (path size : Z)
    (outcome : FileActionOutcome) (failure : option FileTransactionFailure) : result OperationError FinalResponse :=
  let data := DReference (RMaterialized (mkMaterialized path (protocol_state (ao_state outcome)) size
                            (hex_digest <$> ao_digest outcome))) in
  map_err OE_Response
    match failure with
    | Some failure =>
        let '(status, error) := failure_error failure in
        FinalResponse_failure request_id status error mappings (Some data)
          (Z.lor RESULT_RETAINED match failure with FT_RecoveryRequired => RESULT_PARTIAL | _ => 0 end) (Some reference)
    | None => FinalResponse_success request_id mappings data RESULT_RETAINED (Some reference)
    end.

Definition reserve_materialization (request_id reference : Z) (path : str) (size : Z)
    : op OperationError (Z * list PathMapping) :=
  let '(temporary_ids, temporary_mappings) := temporary_paths [path] in
  temporary_id ← op_lift (ok_or (head temporary_ids) OE_Task);
  response ← op_lift (materialization_response request_id reference temporary_mappings temporary_id size
                        worst_outcome (Some FT_RecoveryRequired));
  text ← op_lift (encoded response);
  limit ← presentation_limit;
  if limit <? str_len text then op_fail OE_OutputBudget
  else
    _ ← charge response 1;
    '(ids, mappings) ← intern_paths [path];
    id ← op_lift (ok_or (head ids) OE_Task);
    mret (id, mappings).

(** A computation under a lease: it ends with the block, however that ends. *)
Definition with_lease {A} (reference : Z) (m : Content -> op OperationError A) : op OperationError A :=
  content ← shared (fun sh =>
    match get reference (sh_store sh) with
    | Ok (content, store) => (Ok content, with_store store sh)
    | Err e => (Err (OE_Store e), sh)
    end);
  r ← op_try (m content);
  _ ← shared (fun sh => (Ok tt, with_store (drop_lease reference (sh_store sh)) sh));
  op_lift r.

Definition read_whole (content : Content) (max_bytes : Z) : op OperationError bytes :=
  spool ← ask su_spool;
  op_lift (map_err OE_Store (read_all spool content max_bytes)).

Section operations.
Context `{lib : Libraries} `{engine : RegexEngine}.

(** Up to the outcome of the transaction, under the lease. *)
Definition run_materialization (request_id reference : Z) (path : str) (content : Content)
    : op OperationError (Z * list PathMapping * Z * FileTransactionOutcome) :=
  if MAX_FILE_TRANSACTION_FILE_BYTES <? ct_length content then op_fail OE_WorkLimit
  else
    data ← read_whole content MAX_FILE_TRANSACTION_FILE_BYTES;
    let actions := [FileAction_create path data] in
    _ ← op_map_err OE_Platform (system (validate_file_actions actions));
    limits ← op_lift (map_err OE_Platform
               (FileTransactionLimits_new MAX_FILE_TRANSACTION_FILE_BYTES MAX_FILE_TRANSACTION_TOTAL_BYTES));
    '(id, mappings) ← reserve_materialization request_id reference path (len data);
    _ ← acquire_both;
    outcome ← pool_run (op_map_err OE_Platform (system_with program_control (file_transaction actions limits)));
    mret (id, mappings, len data, outcome).

Definition materialize (request : Request) (reference : Z) (path : str) : op OperationError FinalResponse :=
  '(id, mappings, size, outcome) ← with_lease reference (run_materialization (rq_id request) reference path);
  result ← op_lift (ok_or (head (to_actions outcome)) OE_InvalidArgument);
  op_lift (materialization_response (rq_id request) reference mappings id size result (to_failure outcome)).

(** ** Release *)

Definition release_reference (request : Request) (reference : Z) : op OperationError FinalResponse :=
  response ← op_lift (map_err OE_Response
    (FinalResponse_success (rq_id request) [] (DReference (RReleased reference)) 0 None));
  text ← op_lift (encoded response);
  limit ← presentation_limit;
  if limit <? str_len text then op_fail OE_OutputBudget
  else
    _ ← charge response 1;
    _ ← shared (fun sh =>
      match Store.release reference (sh_store sh) with
      | Ok store => (Ok tt, with_store store sh)
      | Err e => (Err (OE_Store e), sh)
      end);
    mret response.

(** ** The operation *)

(** What a formula makes of the retained bytes, on the pool. *)
Definition evaluate (formula : RefFormula) (content : Content) : op OperationError RawResult :=
  _ ← acquire;
  su ← get_surroundings;
  let max_bytes := sl_max_bytes (su_store_limits su) in
  match formula with
  | FBytes offset length =>
      spool ← ask su_spool;
      data ← op_lift match read_range spool content offset length MAX_REFERENCE_SLICE_BYTES with
                     | Some r => map_err OE_Store r
                     | None => Err OE_Task
                     end;
      r ← pool_run (mret (raw_slice offset data));
      mret (RawSliceOf r)
  | FLines offset length =>
      data ← read_whole content max_bytes;
      r ← pool_run (select_lines data offset length);
      mret (RawSliceOf r)
  | FSearch offset length query flags =>
      data ← read_whole content max_bytes;
      r ← pool_run (search_bytes data offset length query flags);
      mret (RawSearch r)
  | FProject table offset length columns =>
      data ← read_whole content MAX_STRUCTURED_REFERENCE_BYTES;
      r ← pool_run (project_ason data offset length table columns);
      mret (RawProjection r)
  | FRelease | FMaterialize _ => op_fail OE_WorkLimit
  end.

Definition reference_answer (request : Request) (reference : Z) (r : RawResult) : op OperationError FinalResponse :=
  match r with
  | RawSliceOf slice => slice_response request reference slice
  | RawSearch matches => reference_search_response request reference matches
  | RawProjection table => projection_response request reference table
  end.

Definition reference_execute (request : Request) (a : RefArgs) : op OperationError FinalResponse :=
  _ ← check_program;
  match ref_formula a with
  | FRelease => release_reference request (ref_reference a)
  | FMaterialize path => materialize request (ref_reference a) path
  | formula =>
      r ← with_lease (ref_reference a) (evaluate formula);
      _ ← check_program;
      reference_answer request (ref_reference a) r
  end.

End operations.

(** * what an answer about a retained result says

    Whatever the others do, an answer is about the bytes the store held under the
    reference: exactly the range that was asked, the matches in it, or the selected
    columns, and a truthful prefix of them. *)

(** ** Reading *)

Lemma read_range_part io c offset length max b : content_ok c -> 0 <= offset -> 0 <= length ->
  read_range io c offset length max = Some (Ok b) ->
  b = take (Z.to_nat length) (drop (Z.to_nat offset) (storage_bytes (ct_storage c))).
Proof.
  intros Hok Ho Hl H. unfold read_range in H. destruct (max <? length); [done|]. unfold content_ok in Hok.
  set (data := storage_bytes (ct_storage c)) in *. cbv zeta in H. set (start := Z.min offset (ct_length c)) in *.
  set (actual := Z.min length (saturating_sub (ct_length c) start)) in *.
  assert (take (Z.to_nat actual) (drop (Z.to_nat start) data) = take (Z.to_nat length) (drop (Z.to_nat offset) data)) as Heq.
  { unfold actual, start, saturating_sub, len in *. destruct (Z.min_spec offset (ct_length c)) as [[? ->]|[? ->]].
    - rewrite <- (take_clamp (Z.to_nat length)), length_drop. f_equal. lia.
    - rewrite !drop_ge by lia. by rewrite !take_nil. }
  destruct (ct_storage c) as [bytes|file]; cbn in data; subst data.
  - destruct (_ <? _); [done|]. injection H as <-. exact Heq.
  - destruct (negb io); [done|]. destruct (_ <? _); [done|]. injection H as <-. exact Heq.
Qed.

(** ** Lines *)

Lemma slice_concat (lines : list bytes) (n k : nat) :
  let before := concat (take n lines) in let picked := concat (take k (drop n lines)) in
  slice (concat lines) (length before) (length before + length picked) = picked.
Proof.
  cbv zeta. unfold slice. assert (concat lines = concat (take n lines) ++ concat (take k (drop n lines)) ++ concat (drop k (drop n lines))) as ->.
  { by rewrite <- !concat_app, !take_drop. }
  rewrite drop_app_length. replace (_ + _ - _)%nat with (length (concat (take k (drop n lines)))) by lia. apply take_app_length.
Qed.

Section line_loop.
Context (su : Surroundings) (target length : Z) (Htarget : 0 <= target) (Hlength : 1 <= length).

Lemma line_loop_counting lines : forall index cursor first selected st start cursor' st',
  target < index -> 0 < selected < length ->
  line_loop target length index lines cursor (Some first) selected su st = (Done (start, cursor'), st') ->
  start = Some first /\ cursor' = cursor + len (concat (take (Z.to_nat (length - selected)) lines)).
Proof.
  induction lines as [|line lines IH]; intros index cursor first selected st start cursor' st' Hi Hs H; cbn [line_loop] in H.
  { injection H as <- <- _. rewrite take_nil. split; [done|]. cbn [concat]. rewrite len_nil. lia. }
  apply op_bind_done in H as (? & s1 & _ & H). cbv zeta in H. rewrite (proj2 (Z.eqb_neq index target)) in H by lia.
  rewrite (proj2 (Z.leb_le target index)), (proj2 (Z.ltb_lt selected length)) in H by lia. cbn [andb] in H.
  replace (Z.to_nat (length - selected)) with (S (Z.to_nat (length - (selected + 1)))) by lia.
  cbn [take concat]. rewrite len_app. destruct (Z.eqb_spec (selected + 1) length) as [<-|Hne].
  - injection H as <- <- _. rewrite Z.sub_diag. split; [done|]. change (Z.to_nat 0) with O. rewrite take_0. unfold len. cbn. lia.
  - apply IH in H as [-> ->]; [|lia..]. split; [done|lia].
Qed.

Lemma line_loop_done lines : forall index cursor st start cursor' st',
  index <= target -> line_loop target length index lines cursor None 0 su st = (Done (start, cursor'), st') ->
  let skipped := Z.to_nat (target - index) in
  match start with
  | Some first => first = cursor + len (concat (take skipped lines))
      /\ cursor' = first + len (concat (take (Z.to_nat length) (drop skipped lines)))
  | None => drop skipped lines = []
  end.
Proof.
  induction lines as [|line lines IH]; intros index cursor st start cursor' st' Hi H; cbn [line_loop] in H; cbv zeta.
  { injection H as <- <- _. by rewrite drop_nil. }
  apply op_bind_done in H as (? & s1 & _ & H). cbv zeta in H. destruct (Z.eqb_spec index target) as [->|Hne].
  - rewrite Z.leb_refl, (proj2 (Z.ltb_lt 0 length)) in H by lia. cbn [andb] in H. rewrite Z.sub_diag. change (Z.to_nat 0) with O. rewrite take_0, drop_0. cbn [concat].
    rewrite len_nil, Z.add_0_r. replace (Z.to_nat length) with (S (Z.to_nat (length - 1))) by lia. cbn [take concat].
    rewrite len_app. destruct (Z.eqb_spec (0 + 1) length) as [<-|Hl].
    + injection H as <- <- _. split; [done|]. change (Z.to_nat 0) with O. rewrite take_0. unfold len. cbn. lia.
    + apply line_loop_counting in H as [-> ->]; [|lia..]. split; [done|]. change (0 + 1) with 1. lia.
  - rewrite (proj2 (Z.leb_gt target index)) in H by lia. cbn [andb] in H. rewrite (proj2 (Z.eqb_neq 0 length)) in H by lia.
    apply IH in H; [|lia]. replace (Z.to_nat (target - index)) with (S (Z.to_nat (target - (index + 1)))) by lia.
    cbn [take drop concat]. destruct start as [first|]; [|done]. destruct H as [-> ->]. rewrite len_app. split; lia.
Qed.
End line_loop.

Definition line_range (b : bytes) (offset length : Z) : bytes :=
  concat (take (Z.to_nat length) (drop (Z.to_nat (offset - 1)) (split_inclusive b))).

Lemma select_lines_done `{lib : Libraries} su b offset length st r st' :
  1 <= offset -> 1 <= length -> select_lines b offset length su st = (Done r, st') ->
  r = raw_slice offset (line_range b offset length).
Proof.
  intros Ho Hl H. unfold select_lines in H. unfold line_range. case_bool_decide as Hb.
  { injection H as <- _. subst b. cbn [split_inclusive]. by rewrite drop_nil, take_nil. }
  apply op_bind_done in H as ([start cursor] & s1 & Hloop & H). unfold saturating_sub in Hloop.
  apply line_loop_done in Hloop; [|lia..]. cbv zeta in Hloop. rewrite Z.sub_0_r, Z.max_l in Hloop by lia.
  destruct start as [first|]; injection H as <- _; [|by rewrite Hloop, take_nil].
  destruct Hloop as [-> ->]. f_equal. set (n := Z.to_nat (offset - 1)). set (k := Z.to_nat length).
  rewrite <- (slice_concat (split_inclusive b) n k) at 2. rewrite split_inclusive_concat. f_equal; unfold len; lia.
Qed.

(** ** Slices *)

(** What the answer shows of a range: a prefix of it, as text when all of it is text. *)
Definition slice_shown `{lib : Libraries} (request : Request) (reference offset : Z) (b : bytes) (r : FinalResponse) : Prop :=
  exists projected text hex,
    0 <= projected <= len b
    /\ match from_utf8 b with
       | Ok _ => hex = None /\ exists t, text = Some t /\ from_utf8 (take (Z.to_nat projected) b) = Ok t
       | Err _ => text = None /\ hex = Some (encode_hex (take (Z.to_nat projected) b))
       end
    /\ r = mkResponse (rq_id request) Success []
             (Some (DReference (RSlice (mkSlice offset (len b) projected (hex_digest (blake3 b)) text hex)))) None
             (Z.lor RESULT_RETAINED (if projected <? len b then Z.lor RESULT_TRUNCATED RESULT_REDUCED else 0))
             (Some reference).

Lemma valid_prefix_le b length : (valid_prefix b length <= length)%nat.
Proof. induction length as [|length IH]; [done|]. cbn [valid_prefix]. destruct (is_ok _); lia. Qed.

Lemma projection_boundary_range b n text : 0 <= n -> 0 <= projection_boundary b n text <= len b.
Proof.
  intros Hn. unfold projection_boundary. cbv zeta. pose proof (len_nonneg b). destruct text; [|lia].
  pose proof (valid_prefix_le b (Z.to_nat (Z.min n (len b)))). lia.
Qed.

(** The interval of the search halves: its fuel is enough, and its end is in the interval. *)
Lemma slice_loop_fuel fuel extra id reference slice text limit : forall low high,
  (Z.to_nat (high - low) <= fuel)%nat ->
  slice_loop (fuel + extra) id reference slice text limit low high = slice_loop fuel id reference slice text limit low high.
Proof.
  induction fuel as [|fuel IH]; intros low high Hf.
  { cbn [Nat.add]. destruct extra; cbn [slice_loop]; destruct (Z.leb_spec high low); try done; lia. }
  cbn [Nat.add slice_loop]. destruct (Z.leb_spec high low); [done|]. cbv zeta.
  set (middle := low + (high - low + 1) / 2).
  assert (low < middle <= high) as Hm by (unfold middle; Z.to_euclidean_division_equations; lia).
  destruct (make_slice_response _ _ _ _ _) as [r|]; [|done]. cbn. destruct (encoded r) as [t|]; [|done]. cbn.
  destruct (_ <=? _); apply IH; lia.
Qed.

Lemma slice_loop_range fuel id reference slice text limit : forall low high n,
  0 <= low -> slice_loop fuel id reference slice text limit low high = Ok n -> 0 <= n.
Proof.
  induction fuel as [|fuel IH]; intros low high n Hl H; cbn [slice_loop] in H; destruct (Z.leb_spec high low); try done;
    [injection H as <-; lia..|]. cbv zeta in H. set (middle := low + (high - low + 1) / 2) in *.
  assert (low < middle <= high) as Hm by (unfold middle; Z.to_euclidean_division_equations; lia).
  destruct (make_slice_response _ _ _ _ _) as [r|]; [|done]. cbn in H. destruct (encoded r) as [t|]; [|done]. cbn in H.
  destruct (_ <=? _); apply IH in H; lia.
Qed.

Lemma slice_response_done `{lib : Libraries} su request reference offset b st r st' :
  slice_response request reference (raw_slice offset b) su st = (Done r, st') -> slice_shown request reference offset b r.
Proof.
  intros H. unfold slice_response in H. apply op_bind_done in H as (limit & s1 & _ & H). cbv zeta in H.
  apply op_bind_done in H as (low & s2 & [Hlow ->]%op_lift_done & H). apply slice_loop_range in Hlow; [|done].
  apply op_bind_done in H as (response & s3 & [Hr ->]%op_lift_done & H).
  apply op_bind_done in H as (text & s4 & [_ ->]%op_lift_done & H). destruct (_ <? _); [done|].
  apply op_bind_done in H as (? & s5 & _ & H). injection H as <- <-. cbn [rw_bytes raw_slice] in Hr.
  set (is_text := is_ok (from_utf8 b)) in *.
  pose proof (projection_boundary_range b low is_text Hlow) as Hrange. set (projected := projection_boundary b low is_text) in *.
  unfold make_slice_response in Hr. cbn [rw_bytes rw_offset rw_length rw_digest raw_slice] in Hr.
  apply bind_ok in Hr as ([shown hex] & Hs & Hr). cbv zeta in Hr. apply success_eq in Hr.
  exists projected, shown, hex. split_and!; [lia|lia| |done]. unfold is_text in Hs. destruct (from_utf8 b); cbn [is_ok] in Hs.
  - apply bind_ok in Hs as (t & Ht%map_err_ok & Hs). injection Hs as <- <-. split; [done|]. by exists t.
  - injection Hs as <- <-. by split.
Qed.

(** ** Searches *)

(** The documented behaviour of the [regex] crate's iterator that matters here: a match
    lies within the line. *)
Class RegexLaws (engine : RegexEngine) : Prop := {
  find_iter_within (regex : Regex) (line : str) :
    Forall (fun m : Z * Z => 0 <= m.1 <= m.2 /\ m.2 <= str_len line) (regex_find_iter regex line);
}.

Lemma match_indices_within query s : forall offset skip,
  Forall (fun m : Z * Z => offset <= m.1 <= m.2 /\ m.2 <= offset + str_len s) (match_indices query s offset skip).
Proof.
  induction s as [|c s IH]; intros offset skip; cbn [match_indices].
  - case_bool_decide; [|constructor]. constructor; [|constructor]. cbn. rewrite str_len_nil. lia.
  - rewrite str_len_cons. pose proof (len_utf8_bounds c). pose proof (str_len_nonneg s).
    assert (forall k, Forall (fun m : Z * Z => offset <= m.1 <= m.2 /\ m.2 <= offset + (len_utf8 c + str_len s))
        (match_indices query s (offset + len_utf8 c) k)) as Hrest
      by (intros k; eapply list.Forall_impl; [apply IH|]; intros m Hm; cbn in Hm; lia).
    destruct skip; [|apply Hrest]. destruct (starts_with_str query (c :: s)) eqn:E; [|apply Hrest].
    constructor; [|apply Hrest]. apply bool_decide_eq_true in E as [rest E]. cbn.
    assert (str_len (c :: s) = str_len query + str_len rest) as Hl by (rewrite E; apply str_len_app).
    rewrite str_len_cons in Hl. pose proof (str_len_nonneg query). pose proof (str_len_nonneg rest). lia.
Qed.

(** The lines of a text with their numbers and where they start. *)
Fixpoint numbered (index start : Z) (lines : list str) : list (Z * Z * str) :=
  match lines with
  | [] => []
  | line :: lines => (index, start, line) :: numbered (index + 1) (start + str_len line) lines
  end.

Section found.
Context `{engine : RegexEngine} (matcher : Matcher) (first last : Z).

Definition match_at (index start : Z) (line : str) (normalized : bool) (m : Z * Z) : option RawMatch :=
  if (first <=? start + m.1) && (start + m.1 <? last) && (start + m.2 <=? last) then
    let '(projection, reduced) := project_line line m.1 m.2 in
    Some (mkRawMatch (start + m.1) (index + 1) (m.1 + 1) projection normalized reduced)
  else None.

(** The matches of a line that lie in the range. *)
Definition line_found (l : Z * Z * str) : list RawMatch :=
  let '(index, start, raw_line) := l in
  let '(line, normalized) := without_ending raw_line in
  omap (match_at index start line normalized) (line_matches matcher line).

Definition found_in (lines : list (Z * Z * str)) : list RawMatch := lines ≫= line_found.

Lemma visit_matches_ok index start line normalized found : forall matches bytes matches' bytes',
  Forall (fun m : Z * Z => 0 <= m.1 <= m.2 /\ m.2 <= str_len line) found -> start + str_len line <= usize_max ->
  visit_matches first last index start line normalized found matches bytes = Ok (matches', bytes') ->
  matches' = matches ++ omap (match_at index start line normalized) found.
Proof.
  induction found as [|[s e] found IH]; intros matches bytes matches' bytes' Hf Hl H; cbn [visit_matches] in H.
  { injection H as <- _. by rewrite app_nil_r. }
  apply list.Forall_cons in Hf as [Hm Hf]. cbn [fst snd] in Hm. cbv zeta in H. unfold saturating_add in H. rewrite !Z.min_l in H by lia.
  cbn [omap list_omap]. unfold match_at at 1. cbn [fst snd]. destruct (_ && _); [|by eapply IH].
  destruct (project_line line s e) as [projection reduced]. apply bind_ok in H as (bytes1 & _ & H).
  destruct (_ <? _); [done|]. destruct (_ <? _); [done|]. apply IH in H as ->; [|done..]. by rewrite <- app_assoc.
Qed.

Lemma without_ending_len raw_line : str_len (without_ending raw_line).1 <= str_len raw_line.
Proof.
  assert (forall c s, str_len (default s (strip_suffix c s)) <= str_len s) as H.
  { intros c s. destruct (strip_suffix c s) as [t|] eqn:E; cbn; [|done]. apply strip_suffix_Some in E as ->.
    rewrite str_len_app. pose proof (str_len_nonneg [c]). lia. }
  cbn. etransitivity; apply H.
Qed.

Lemma search_loop_done `{laws : !RegexLaws engine} su lines : forall index start matches bytes st matches' st',
  0 <= start -> start + str_len (concat lines) <= usize_max ->
  search_loop matcher first last index start lines matches bytes su st = (Done matches', st') ->
  matches' = matches ++ found_in (numbered index start lines).
Proof.
  induction lines as [|raw_line lines IH]; intros index start matches bytes st matches' st' Hs Hl H; cbn [search_loop] in H.
  { injection H as <- _. by rewrite app_nil_r. }
  cbn [concat] in Hl. rewrite str_len_app in Hl. pose proof (str_len_nonneg (concat lines)). pose proof (str_len_nonneg raw_line).
  apply op_bind_done in H as (? & s1 & _ & H). destruct (Z.leb_spec last start) as [Hlast|_].
  - injection H as <- _. assert (found_in (numbered index start (raw_line :: lines)) = []) as ->; [|by rewrite app_nil_r].
    assert (forall lines index start, last <= start -> Forall (fun l : Z * Z * str => last <= l.1.2) (numbered index start lines)) as Hn.
    { clear. induction lines as [|line lines IH]; intros index start H; constructor; [done|]. apply IH.
      pose proof (str_len_nonneg line). lia. }
    specialize (Hn (raw_line :: lines) index start Hlast). unfold found_in.
    induction Hn as [|[[i s] raw] ls Hle _ IHn]; [done|]. cbn [mbind list_bind]. rewrite IHn, app_nil_r. unfold line_found.
    destruct (without_ending raw) as [line normalized]. cbn in Hle.
    assert (Forall (fun m : Z * Z => 0 <= m.1 <= m.2 /\ m.2 <= str_len line) (line_matches matcher line)) as Hw.
    { destruct matcher as [query|regex]; cbn [line_matches]; [|apply find_iter_within].
      eapply list.Forall_impl; [apply match_indices_within|]. intros m Hm. cbn in Hm. lia. }
    induction Hw as [|m ms Hm _ IHm]; [done|]. cbn [omap list_omap]. unfold match_at at 1.
    rewrite (proj2 (Z.ltb_ge (s + m.1) last)) by lia. by rewrite andb_false_r.
  - destruct (without_ending raw_line) as [line normalized] eqn:Ew.
    apply op_bind_done in H as ([matches1 bytes1] & s2 & [Hv ->]%op_lift_done & H).
    pose proof (without_ending_len raw_line) as Hle. rewrite Ew in Hle. cbn in Hle.
    apply visit_matches_ok in Hv as ->; [| |lia].
    + apply IH in H as ->; unfold saturating_add; [|lia..]. rewrite Z.min_l by lia.
      rewrite <- app_assoc. f_equal. unfold found_in. cbn [numbered]. rewrite bind_cons. f_equal.
      unfold line_found. by rewrite Ew.
    + destruct matcher as [query|regex]; cbn [line_matches]; [|apply find_iter_within].
      eapply list.Forall_impl; [apply match_indices_within|]. intros m Hm. cbn in Hm. lia.
Qed.
End found.

(** The matches in a range of bytes of a text. *)
Definition found_matches `{engine : RegexEngine} (matcher : Matcher) (text : str) (offset length : Z) : list RawMatch :=
  let first := Z.min offset (str_len text) in
  let last := Z.min (first + length) (str_len text) in
  found_in matcher (ceil_char_boundary text first) (floor_char_boundary text last) (numbered 0 0 (text_lines text)).

Lemma search_bytes_done `{engine : RegexEngine} `{laws : !RegexLaws engine} su b offset length query flags st matches st' :
  0 <= offset -> 0 <= length -> len b <= usize_max ->
  search_bytes b offset length query flags su st = (Done matches, st') ->
  exists text matcher, from_utf8 b = Ok text /\ reference_matcher query flags = Ok matcher
    /\ matches = found_matches matcher text offset length.
Proof.
  intros Ho Hn Hb H. unfold search_bytes in H. apply op_bind_done in H as (text & s1 & [Ht ->]%op_lift_done & H).
  apply map_err_ok in Ht. apply op_bind_done in H as (matcher & s2 & [Hm ->]%op_lift_done & H). cbv zeta in H.
  exists text, matcher. split_and!; [done..|]. pose proof (from_utf8_Ok _ _ Ht) as [_ Hbytes].
  assert (str_len text = len b) as Hl by (unfold str_len; by rewrite Hbytes).
  apply search_loop_done in H; [|exact laws|done|unfold text_lines; rewrite split_inclusive_concat, Hl; lia]. rewrite H. unfold found_matches.
  cbv zeta. rewrite <- Hl. unfold saturating_add.
  by replace (Z.min (Z.min _ usize_max) (str_len text)) with (Z.min (Z.min offset (str_len text) + length) (str_len text)) by lia.
Qed.

(** A match of a long line is shown with the part of the line around it. *)
Lemma project_line_shows line first last text reduced :
  0 <= first <= last -> last <= str_len line -> str_len line <= usize_max - MAX_PROJECTED_LINE_BYTES ->
  project_line line first last = (text, reduced) ->
  if reduced then
    exists before part after, line = before ++ part ++ after
      /\ str_len before <= first <= str_len before + str_len part
      /\ text = (if bool_decide (before = []) then [] else L "...") ++ part ++ (if bool_decide (after = []) then [] else L "...")
      /\ str_len text <= MAX_PROJECTED_LINE_BYTES
  else text = line /\ str_len line <= MAX_PROJECTED_LINE_BYTES.
Proof.
  intros Hm Hl Hu H. unfold project_line in H. destruct (Z.leb_spec (str_len line) MAX_PROJECTED_LINE_BYTES) as [|Hlong]; [by injection H as <- <-|].
  cbv zeta in H. change (saturating_sub MAX_PROJECTED_LINE_BYTES 6) with 4090 in H. change (4090 / 2) with 2045 in H.
  change (saturating_sub 4090 2045) with 2045 in H. unfold MAX_PROJECTED_LINE_BYTES, saturating_add, saturating_sub in *.
  destruct (floor_char_boundary_spec line (Z.max (first - 2045) 0) ltac:(lia)) as (Bs & Rs & Ms).
  set (start := floor_char_boundary line (Z.max (first - 2045) 0)) in *.
  destruct (ceil_char_boundary_spec line (Z.min (Z.min (last + 2045) usize_max) (str_len line)) ltac:(lia)) as (Be & Re & Me).
  set (ceiling := ceil_char_boundary line _) in *.
  set (end_ := if 4090 <? Z.max (ceiling - start) 0 then _ else ceiling) in H.
  assert (is_char_boundary line end_ = true /\ start <= end_ <= start + 4090 /\ first <= end_ <= str_len line) as (B & R & F).
  { unfold end_. destruct (Z.ltb_spec 4090 (Z.max (ceiling - start) 0)) as [Hw|Hw]; [|split_and!; [done|lia..]].
    rewrite Z.min_l by lia. destruct (floor_char_boundary_spec line (start + 4090) ltac:(lia)) as (Bf & Rf & Mf).
    set (floored := floor_char_boundary line (start + 4090)) in *. split; [done|].
    assert (start <= floored) by (apply Mf; [done|lia]).
    destruct (boundary_near line (start + 4090)) as (m & Hm1 & Hm2); [lia|].
    assert (m <= floored) by (apply Mf; [done|lia]).
    destruct (boundary_near line (Z.max (first - 2045) 0)) as (m' & Hm1' & Hm2'); [lia|].
    assert (m' <= start) by (apply Ms; [done|lia]).
    apply is_char_boundary_iff in Bf as (x & y & E & Elen). rewrite E, str_len_app in *. pose proof (str_len_nonneg y). lia. }
  injection H as <- <-.
  apply is_char_boundary_iff in Bs as (before & rest & E & Eb). apply is_char_boundary_iff in B as (upto & after & E' & Eu).
  assert (exists part, upto = before ++ part /\ rest = part ++ after) as (part & -> & ->).
  { rewrite E in E'. apply app_eq_inv in E' as [(k & -> & ->)|(k & -> & ->)]; [|by exists k].
    rewrite str_len_app in Eb. pose proof (str_len_nonneg k). assert (str_len k = 0) as ->%str_len_zero by lia.
    exists []. by rewrite !app_nil_r. }
  rewrite str_len_app in Eu. exists before, part, after. split; [done|]. split; [lia|].
  assert (str_slice start end_ line = part) as ->.
  { unfold str_slice. rewrite E, <- Eb, (proj2 (str_cut before _)). replace (end_ - str_len before) with (str_len part) by lia.
    apply str_cut. }
  assert (str_len line = end_ + str_len after) as Hll by (rewrite E, !str_len_app; lia).
  assert ((if negb (start =? 0) then L "..." else []) = if bool_decide (before = []) then [] else L "...") as ->.
  { destruct (Z.eqb_spec start 0) as [Hz|Hz]; case_bool_decide as Hb; cbn; try done.
    - rewrite <- Eb in Hz. by apply str_len_zero in Hz.
    - subst before. by rewrite str_len_nil in Eb. }
  assert ((if negb (end_ =? str_len line) then L "..." else []) = if bool_decide (after = []) then [] else L "...") as ->.
  { destruct (Z.eqb_spec end_ (str_len line)) as [Hz|Hz]; case_bool_decide as Hb; cbn; try done.
    - assert (str_len after = 0) by lia. by apply str_len_zero in H.
    - subst after. rewrite str_len_nil in Hll. lia. }
  split; [done|]. rewrite !str_len_app. destruct (bool_decide (before = [])), (bool_decide (after = []));
    rewrite ?str_len_nil; change (str_len (L "...")) with 3; lia.
Qed.

(** ** Prefixes of records *)

Lemma prefix_response_done su total make st r st' :
  0 <= total -> prefix_response total make su st = (Done r, st') ->
  exists shown, 0 <= shown <= total /\ make shown (shown <? total) = Ok r.
Proof.
  intros Ht H. unfold prefix_response in H. apply op_bind_done in H as (limit & s1 & _ & H).
  apply op_bind_done in H as (records & s2 & Hr & H). apply remaining_records_done in Hr.
  apply op_bind_done in H as (shown & s3 & Hs & H). apply fitting_prefix_done in Hs as [-> Hs]; [|done..].
  apply op_bind_done in H as (response & s4 & [Hm ->]%op_lift_done & H).
  apply op_bind_done in H as (? & s5 & _ & H). injection H as <- <-. by exists shown.
Qed.

Definition search_flags_of (matches : list RawMatch) (truncated : bool) : Z :=
  Z.lor (Z.lor (Z.lor RESULT_RETAINED (if existsb rx_normalized matches then RESULT_NORMALIZED_TEXT else 0))
               (if truncated || existsb rx_reduced matches then RESULT_REDUCED else 0))
        (if truncated then RESULT_TRUNCATED else 0).

(** ** Projections *)

Lemma Table_new_id columns rows t : Table_new columns rows = Ok t -> t = mkTable columns rows.
Proof. unfold Table_new. intros H. inv_ok. by simplify_eq. Qed.

Lemma position_from_spec column columns : forall index n,
  position_from column columns index = Some n -> exists i, n = (index + i)%nat /\ columns !! i = Some column.
Proof.
  induction columns as [|c columns IH]; intros index n H; [done|]. cbn [position_from] in H. case_bool_decide as Hc.
  - injection H as <-. exists O. split; [lia|]. cbn. by rewrite Hc.
  - apply IH in H as (i & -> & Hi). exists (S i). split; [lia|done].
Qed.

Lemma selected_columns_spec source selected : forall indexes columns,
  selected_columns source selected = Ok (indexes, columns) ->
  columns = selected /\ Forall2 (fun column index => source !! index = Some column) selected indexes.
Proof.
  induction selected as [|column selected IH]; intros indexes columns H; cbn [selected_columns] in H; [by injection H as <- <-|].
  apply bind_ok in H as (index & Hp%ok_or_ok & H). apply bind_ok in H as (key & Hk%map_err_ok & H).
  apply bind_ok in H as ([others cs] & Hs & H). injection H as <- <-. apply IH in Hs as [-> Hf].
  apply position_from_spec in Hp as (i & -> & Hi). apply Key_new_ok in Hk as [-> _]. split; [done|]. by constructor.
Qed.

Lemma project_rows_done su indexes rows : forall index st projected st',
  project_rows index indexes rows su st = (Done projected, st') -> projected = (fun row => cell_at row <$> indexes) <$> rows.
Proof.
  induction rows as [|row rows IH]; intros index st projected st' H; cbn [project_rows] in H; [by injection H as <- _|].
  apply op_bind_done in H as (? & s1 & _ & H). apply op_bind_done in H as (rest & s2 & Hr & H). injection H as <- _.
  apply IH in Hr as ->. done.
Qed.

(** A parsed table has few rows. *)
Lemma table_rows_within limits document key source :
  document_within limits document = true -> Document_get document key = Some (VTable source) ->
  len (table_rows source) <= usize_max.
Proof.
  intros H Hget. unfold document_within in H. zbool. unfold Document_get in Hget.
  apply fmap_Some in Hget as (f & Hf & Hv). apply find_some in Hf as [Hin _].
  rename select (forallb (field_within limits) _ = true) into Hf. rewrite forallb_forall in Hf. apply Hf in Hin.
  unfold field_within in Hin. rewrite <- Hv in Hin. cbn [value_within] in Hin. zbool. lia.
Qed.

(** The selected columns of the asked rows of a table of the retained document. *)
Definition projected_table (b : bytes) (offset length : Z) (table : str) (selected : list str) (t : Table) : Prop :=
  exists text document source indexes,
    from_utf8 b = Ok text /\ decode text = Ok document /\ Document_get document table = Some (VTable source)
    /\ Forall2 (fun column index => table_columns source !! index = Some column) selected indexes
    /\ t = mkTable selected ((fun row => cell_at row <$> indexes) <$>
                               take (Z.to_nat length) (drop (Z.to_nat offset) (table_rows source))).

Lemma project_ason_done su b offset length table selected st t st' :
  0 <= offset -> 0 <= length ->
  project_ason b offset length table selected su st = (Done t, st') -> projected_table b offset length table selected t.
Proof.
  intros Ho Hn H. unfold project_ason in H. destruct (_ <? _); [done|].
  apply op_bind_done in H as (text & s1 & [Ht ->]%op_lift_done & H). apply map_err_ok in Ht.
  apply op_bind_done in H as (document & s2 & [Hd ->]%op_lift_done & H). apply map_err_ok in Hd.
  apply op_bind_done in H as (value & s3 & [Hv ->]%op_lift_done & H). apply ok_or_ok in Hv.
  apply op_bind_done in H as (source & s4 & Hsrc & H).
  assert (value = VTable source) as -> by (destruct value; try done; by injection Hsrc as <- _). clear Hsrc.
  apply op_bind_done in H as ([indexes columns] & s5 & [Hc ->]%op_lift_done & H). apply selected_columns_spec in Hc as [-> Hf].
  cbv zeta in H. apply op_bind_done in H as (rows & s6 & Hr & H). apply project_rows_done in Hr as ->.
  apply op_lift_done in H as [Ht2 ->]. apply map_err_ok in Ht2. apply Table_new_id in Ht2 as ->.
  assert (len (table_rows source) <= usize_max) as Hrows.
  { apply from_utf8_Ok in Ht as [Hvalid _]. apply decode_inv in Hd as (_ & Hw & _); [|done..].
    by eapply table_rows_within. }
  exists text, document, source, indexes. split_and!; [done..|]. f_equal. f_equal. unfold saturating_add, len in *.
  rewrite <- (take_clamp (Z.to_nat length)), length_drop.
  destruct (Z.min_spec offset (Z.of_nat (List.length (table_rows source)))) as [[? ->]|[? ->]].
  - f_equal. lia.
  - rewrite !drop_ge by lia. by rewrite !take_nil.
Qed.

(** ** The operation *)

Section answers.
Context `{lib : Libraries} `{engine : RegexEngine} (su : Surroundings).

(** The reference was in the store, and is not any more. *)
Definition released (st st' : Progress) (reference : Z) : Prop :=
  (reference < st_next_alias (sh_store (pg_shared st)) -> exists data, named (sh_store (pg_shared st)) reference data)
  /\ 1 <= reference < st_next_alias (sh_store (pg_shared st'))
  /\ forall data, ~ named (sh_store (pg_shared st')) reference data.

(** What an answer that is not about a file says. *)
Definition reference_true (request : Request) (a : RefArgs) (st st' : Progress) (r : FinalResponse) : Prop :=
  let reference := ref_reference a in
  match ref_formula a with
  | FBytes offset length => exists data, read_under su st st' reference data
      /\ slice_shown request reference offset (take (Z.to_nat length) (drop (Z.to_nat offset) data)) r
  | FLines offset length => exists data, read_under su st st' reference data
      /\ slice_shown request reference offset (line_range data offset length) r
  | FSearch offset length query flags => exists data text matcher shown,
      read_under su st st' reference data /\ from_utf8 data = Ok text /\ reference_matcher query flags = Ok matcher
      /\ let found := found_matches matcher text offset length in
         let matches := first_records shown found in
         0 <= shown <= len found
         /\ r = mkResponse (rq_id request) Success [] (Some (DReference (RSearch (reference_match <$> matches)))) None
                  (search_flags_of matches (shown <? len found)) (Some reference)
  | FProject table offset length columns => exists data t shown,
      read_under su st st' reference data /\ projected_table data offset length table columns t
      /\ 0 <= shown <= len (table_rows t)
      /\ r = mkResponse (rq_id request) Success []
               (Some (DReference (RProjection (mkTable columns (first_records shown (table_rows t)))))) None
               (Z.lor (Z.lor RESULT_RETAINED RESULT_REDUCED) (if shown <? len (table_rows t) then RESULT_TRUNCATED else 0))
               (Some reference)
  | FRelease => r = mkResponse (rq_id request) Success [] (Some (DReference (RReleased reference))) None 0 None
      /\ released st st' reference
  | FMaterialize _ => True
  end.

(** The integers of a formula that was validated. *)
Definition formula_typed (formula : RefFormula) : Prop :=
  match formula with
  | FBytes offset length | FSearch offset length _ _ | FProject _ offset length _ => 0 <= offset /\ 0 <= length
  | FLines offset length => 1 <= offset /\ 1 <= length
  | FRelease | FMaterialize _ => True
  end.

Context (Hcompany : sound_company su).

Lemma always_with_lease {A} reference (m : Content -> op OperationError A) :
  (forall c, always_fine su (m c)) -> always_fine su (with_lease reference m).
Proof.
  intros Hm. unfold with_lease. apply always_bind; [by apply (always_get_lease su Hcompany reference (fun c => c))|]. intros c.
  apply always_bind; [by apply always_try|]. intros r. apply always_bind; [by apply always_end_lease|intros []; apply always_lift].
Qed.

Lemma always_pool_run {A} (m : op OperationError A) : always_fine su m -> always_fine su (pool_run m).
Proof. intros Hm. unfold pool_run. always. Qed.

Lemma always_read_whole content max : always_fine su (read_whole content max).
Proof. unfold read_whole. always. Qed.

Lemma with_lease_done {A} reference (m : Content -> op OperationError A) st a st' :
  (forall c, always_fine su (m c)) -> fine su st -> with_lease reference m su st = (Done a, st') ->
  exists content st1 st2, m content su st1 = (Done a, st2) /\ content_ok content
    /\ read_under su st st' reference (storage_bytes (ct_storage content)).
Proof.
  intros Hm Hst H. unfold with_lease in H. apply op_bind_done in H as (content & s1 & Hg & H). pose proof H as Hrest.
  apply op_bind_done in H as (r & s2 & Ht & H). apply op_bind_done in H as (? & s3 & _ & H). apply op_lift_done in H as [-> ->].
  pose proof (always_both su _ _ _ _ (always_get_lease su Hcompany reference (fun c => c) OE_Store) Hst Hg) as [F1 S1].
  destruct (lease_read su Hcompany reference OE_Store st content s1 Hst Hg) as [Hok Hread].
  assert (since su s1 s3) as S3.
  { eapply (always_since su); [|exact F1|exact Hrest]. apply always_bind; [by apply always_try|]. intros r.
    apply always_bind; [by apply always_end_lease|intros []; apply always_lift]. }
  exists content, s1, s2. split; [|split; [done|by eapply (read_since su st st)]].
  unfold op_try in Ht. destruct (m content su _) as [[b|e|] s]; [|done..]. by injection Ht as -> <-.
Qed.

Lemma pool_run_done {A} (m : op OperationError A) st a st' :
  pool_run m su st = (Done a, st') -> exists st1, m su st1 = (Done a, st').
Proof.
  intros H. unfold pool_run in H. apply op_bind_done in H as (lives & s1 & _ & H). destruct lives; [by exists s1|done].
Qed.

Lemma read_whole_done content max st data st' :
  content_ok content -> read_whole content max su st = (Done data, st') ->
  data = storage_bytes (ct_storage content) /\ len data <= max.
Proof.
  intros Hok H. unfold read_whole in H. apply op_bind_done in H as (spool & s1 & _ & H). apply op_lift_done in H as [H _].
  apply map_err_ok in H. pose proof (read_all_whole _ _ _ _ Hok H) as ->. split; [done|].
  unfold read_all in H. destruct (Z.ltb_spec max (ct_length content)); [done|]. unfold content_ok in Hok. lia.
Qed.

(** What the pool makes of the bytes that were held. *)
Definition evaluated (formula : RefFormula) (data : bytes) (r : RawResult) : Prop :=
  match formula with
  | FBytes offset length => r = RawSliceOf (raw_slice offset (take (Z.to_nat length) (drop (Z.to_nat offset) data)))
  | FLines offset length => r = RawSliceOf (raw_slice offset (line_range data offset length))
  | FSearch offset length query flags => exists text matcher, from_utf8 data = Ok text
      /\ reference_matcher query flags = Ok matcher /\ r = RawSearch (found_matches matcher text offset length)
  | FProject table offset length columns => exists t, projected_table data offset length table columns t /\ r = RawProjection t
  | FRelease | FMaterialize _ => False
  end.

Lemma evaluate_done `{laws : !RegexLaws engine} formula content st r st' :
  sl_max_bytes (su_store_limits su) <= usize_max -> formula_typed formula -> content_ok content ->
  evaluate formula content su st = (Done r, st') -> evaluated formula (storage_bytes (ct_storage content)) r.
Proof.
  intros Hbytes Ht Hok H. unfold evaluate in H. apply op_bind_done in H as (? & s1 & _ & H).
  apply op_bind_done in H as (su' & s2 & Hsu & H). injection Hsu as <- <-. cbv zeta in H.
  destruct formula as [o n|o n|o n query flags| |table o n columns|path]; cbn in Ht; cbn [evaluated]; try done.
  - apply op_bind_done in H as (spool & s3 & _ & H). apply op_bind_done in H as (data & s4 & [Hr ->]%op_lift_done & H).
    apply op_bind_done in H as (slice & s5 & [s6 Hp]%pool_run_done & H). injection Hp as <- _. injection H as <- _.
    destruct (read_range _ _ _ _ _) as [[b|e]|] eqn:Er; try done. injection Hr as <-.
    apply read_range_part in Er as ->; [done|done|apply Ht..].
  - apply op_bind_done in H as (data & s3 & [-> _]%read_whole_done & H); [|done].
    apply op_bind_done in H as (slice & s5 & [s6 Hp]%pool_run_done & H). injection H as <- _.
    apply select_lines_done in Hp as ->; [done|apply Ht..].
  - apply op_bind_done in H as (data & s3 & [-> Hl]%read_whole_done & H); [|done].
    apply op_bind_done in H as (matches & s5 & [s6 Hp]%pool_run_done & H). injection H as <- _.
    apply search_bytes_done in Hp as (text & matcher & H1 & H2 & ->); [by exists text, matcher|apply Ht..|lia].
  - apply op_bind_done in H as (data & s3 & [-> _]%read_whole_done & H); [|done].
    apply op_bind_done in H as (t & s5 & [s6 Hp]%pool_run_done & H). injection H as <- _.
    apply project_ason_done in Hp; [|apply Ht..]. by exists t.
Qed.

Lemma always_poll : always_fine su poll_cancelled.
Proof. unfold poll_cancelled. always. Qed.

Lemma always_select_lines b offset length : always_fine su (select_lines b offset length).
Proof.
  pose proof always_poll.
  assert (forall target length lines index cursor start selected, always_fine su (line_loop target length index lines cursor start selected)) as Hl.
  { intros target n. induction lines as [|line lines IH]; intros; cbn [line_loop]; always. }
  unfold select_lines. always.
Qed.

Lemma always_search_bytes b offset length query flags : always_fine su (search_bytes b offset length query flags).
Proof.
  pose proof always_poll.
  assert (forall matcher range_start range_end lines index start matches projected,
    always_fine su (search_loop matcher range_start range_end index start lines matches projected)) as Hl.
  { intros matcher range_start range_end. induction lines as [|line lines IH]; intros; cbn [search_loop]; always. }
  unfold search_bytes. always.
Qed.

Lemma always_project b offset length table selected : always_fine su (project_ason b offset length table selected).
Proof.
  pose proof always_poll.
  assert (forall indexes rows index, always_fine su (project_rows index indexes rows)) as Hr.
  { intros indexes. induction rows as [|row rows IH]; intros; cbn [project_rows]; always. }
  unfold project_ason. always.
Qed.

Lemma always_evaluate formula content : always_fine su (evaluate formula content).
Proof.
  pose proof always_read_whole. unfold evaluate. always; apply always_pool_run; auto using always_select_lines, always_search_bytes, always_project.
  always.
Qed.

Lemma reference_answer_done request a data raw st0 st1 st r st' :
  read_under su st0 st1 (ref_reference a) data -> evaluated (ref_formula a) data raw ->
  reference_answer request (ref_reference a) raw su st = (Done r, st') -> reference_true request a st0 st1 r.
Proof.
  intros Hheld He H. unfold reference_true. cbv zeta. destruct (ref_formula a) as [o n|o n|o n query flags| |table o n columns|path];
    cbn [evaluated] in He; try done.
  - subst raw. exists data. split; [done|]. by apply slice_response_done in H.
  - subst raw. exists data. split; [done|]. by apply slice_response_done in H.
  - destruct He as (text & matcher & Ht & Hm & ->). cbn [reference_answer] in H. unfold reference_search_response in H.
    apply prefix_response_done in H as (shown & Hs & H); [|apply len_nonneg].
    exists data, text, matcher, shown. split_and!; [done..|lia|lia|]. unfold make_search_response in H. by apply success_eq in H.
  - destruct He as (t & Ht & ->). cbn [reference_answer] in H. unfold projection_response in H.
    apply prefix_response_done in H as (shown & Hs & H); [|apply len_nonneg]. unfold make_projection_response in H.
    apply bind_ok in H as (projected & Hp & H). apply map_err_ok, Table_new_id in Hp as ->. cbv zeta in H. apply success_eq in H.
    exists data, t, shown. split_and!; [done..|lia|lia|]. destruct Ht as (? & ? & ? & ? & _ & _ & _ & _ & ->). done.
Qed.

Lemma always_reference_answer request reference raw : always_fine su (reference_answer request reference raw).
Proof.
  assert (forall total make, always_fine su (prefix_response total make)) as Hp.
  { intros total make. unfold prefix_response, fitting_prefix. always. }
  assert (forall slice, always_fine su (slice_response request reference slice)) as Hs by (intros slice; unfold slice_response; always).
  unfold reference_answer, reference_search_response, projection_response. always.
Qed.

Lemma release_reference_done request reference st r st' :
  fine su st -> release_reference request reference su st = (Done r, st') ->
  r = mkResponse (rq_id request) Success [] (Some (DReference (RReleased reference))) None 0 None
  /\ released st st' reference.
Proof.
  intros Hst H. unfold release_reference in H. apply op_bind_done in H as (response & s1 & [Hr ->]%op_lift_done & H).
  apply success_eq in Hr as ->. apply op_bind_done in H as (text & s2 & [_ ->]%op_lift_done & H).
  apply op_bind_done in H as (limit & s3 & Hl & H). apply (always_both su _ _ _ _ (always_limit su Hcompany)) in Hl as [F3 S3]; [|done].
  destruct (_ <? _); [done|]. apply op_bind_done in H as (? & s4 & Hc & H).
  apply (always_both su _ _ _ _ (always_charge su Hcompany _ _)) in Hc as [F4 S4]; [|done].
  apply op_bind_done in H as (? & s5 & Hs & H). injection H as <- <-. split; [done|].
  destruct (others_since su Hcompany s4 F4) as [F5 S5]. unfold shared in Hs.
  destruct (Store.release reference _) as [store|] eqn:E; [|done]. injection Hs as _ <-. cbn.
  pose proof (release_table _ _ _ E) as Htab. unfold Store.release in E. apply bind_ok in E as (e & He%ok_or_ok & E).
  destruct (negb _); [done|]. destruct (_ <? _); [done|]. injection E as <-. cbn in Htab |- *. split; [|split].
  - intros Hr. exists (storage_bytes (ct_storage (en_content e))).
    assert (since su st (others su s4)) as [[Hlater _ _] _] by passes. eapply named_before; [exact Hlater|done|by exists e].
  - destruct F5 as [_ _ Hok]. by apply (to_alias _ _ _ _ (ok_tables _ _ _ Hok) _ _ He).
  - intros data (e' & He' & _). cbn in He'. by rewrite lookup_delete_eq in He'.
Qed.

Lemma reference_execute_true `{laws : !RegexLaws engine} request a st r st' :
  sl_max_bytes (su_store_limits su) <= usize_max -> formula_typed (ref_formula a) -> fine su st ->
  reference_execute request a su st = (Done r, st') -> reference_true request a st st' r.
Proof.
  intros Hbytes Ht Hst H. unfold reference_execute in H. apply op_bind_done in H as (? & s1 & H1 & H).
  apply (always_both su _ _ _ _ (always_program su Hcompany)) in H1 as [F1 S1]; [|done].
  assert (forall formula, ref_formula a = formula ->
    (raw ← with_lease (ref_reference a) (evaluate formula); _ ← check_program; reference_answer request (ref_reference a) raw) su s1
      = (Done r, st') -> reference_true request a st st' r) as Hread.
  { intros formula Hf Hrun. apply op_bind_done in Hrun as (raw & s2 & Hl & Hrun).
    pose proof (always_both su _ _ _ _ (always_with_lease (ref_reference a) (evaluate formula) (always_evaluate formula)) F1 Hl) as [F2 S2].
    pose proof Hrun as Hrest. apply op_bind_done in Hrun as (? & s3 & _ & Hrun).
    apply with_lease_done in Hl as (content & s4 & s5 & He & Hok & Hread); [|apply always_evaluate|done].
    rewrite Hf in Ht. apply evaluate_done in He; [|done..]. rewrite <- Hf in He.
    assert (since su s2 st') as S3.
    { eapply (always_since su); [|exact F2|exact Hrest]. pose proof always_reference_answer. always. }
    eapply reference_answer_done; [|exact He|exact Hrun]. by eapply read_since. }
  destruct (ref_formula a) as [o n|o n|o n query flags| |table o n columns|path] eqn:Hf; try exact (Hread _ eq_refl H).
  - unfold reference_true. rewrite Hf. apply release_reference_done in H as [Hr (R1 & R2 & R3)]; [|done]. split; [done|].
    split; [|done]. intros Hlt. destruct S1 as [[Hl _ _] _]. destruct R1 as [data Hd]; [destruct Hl; lia|].
    exists data. by eapply named_before.
  - unfold reference_true. by rewrite Hf.
Qed.
End answers.

(** * what a materialization reports

    As for the other mutations: whatever the others do between its turns, success means
    that the file was created with the retained bytes and nothing else changed, a
    failure or an error that nothing did. *)

Section materialization.
Context `{lib : Libraries} `{laws : !LibraryLaws lib}.
Context (known : bytes -> Prop) (archive : Z -> bytes -> Prop) (su : Surroundings).
Context (Hcompany : good_company known archive su) (Hinj : tells_apart known).
Context (Hwhole : whole_removals (su_system su)) (d0 : Disk.Disk).
Notation calmly := (calmly known archive su d0).
Notation calm := (calm known archive su d0).

(** The answer that an outcome becomes. *)
Definition materialized_answer (request_id reference : Z) (mappings : list PathMapping) (path size : Z)
    (outcome : FileActionOutcome) (failure : option FileTransactionFailure) : FinalResponse :=
  mkResponse request_id (from_option (fun f => (failure_error f).1) Success failure) mappings
    (Some (DReference (RMaterialized (mkMaterialized path (protocol_state (ao_state outcome)) size
                         (hex_digest <$> ao_digest outcome)))))
    ((fun f => (failure_error f).2) <$> failure)
    (Z.lor RESULT_RETAINED match failure with Some FT_RecoveryRequired => RESULT_PARTIAL | _ => 0 end) (Some reference).

Lemma materialization_built request_id reference path id mappings size outcome failure :
  request_id <> 0 -> reference <> 0 -> numbering [path] [id] mappings ->
  outcome_shape 1 (mkTransactionOutcome [outcome] failure) ->
  materialization_response request_id reference mappings id size outcome failure
    = Ok (materialized_answer request_id reference mappings id size outcome failure).
Proof.
  intros Hid Href Hnum [_ Hrows Hsuccess Hconflict]. cbn [to_actions to_failure] in *.
  apply list.Forall_cons in Hrows as [Hrow _].
  assert (1 <= id) as Hpos by (pose proof (nu_range _ _ _ Hnum) as Hr; apply list.Forall_cons in Hr as [? _]; lia).
  assert (forall status error, (status = Success <-> error = None) -> (status = Success -> failure = None) ->
    (status = SConflict -> failure = Some FT_Conflict) ->
    (forall e, error = Some e -> er_evidence e = None /\ er_argument e = None) ->
    let flags := Z.lor RESULT_RETAINED match failure with Some FT_RecoveryRequired => RESULT_PARTIAL | _ => 0 end in
    let data := DReference (RMaterialized (mkMaterialized id (protocol_state (ao_state outcome)) size (hex_digest <$> ao_digest outcome))) in
    FinalResponse_new request_id status mappings (Some data) error flags (Some reference)
    = Ok (mkResponse request_id status mappings (Some data) error flags (Some reference))) as Hnew.
  { intros status error Hse Hst Hcf He flags data. apply FinalResponse_new_ok. split; [done|].
    assert (references (mkResponse request_id status mappings (Some data) error flags (Some reference)) = [reference]) as Hrefs.
    { unfold references. cbn. destruct error as [e|]; [|done]. destruct (He e eq_refl) as [E1 E2]. unfold error_references. by rewrite E1, E2. }
    unfold response_valid. rewrite Hrefs. cbn [fp_request_id fp_status fp_error fp_data fp_flags fp_paths fp_reference].
    split_and!; try done.
    - unfold flags. by destruct failure as [[]|].
    - apply Hnum.
    - intros d [= <-]. split_and!; [|split|done].
      + unfold data. cbn [data_valid mr_path mr_state mr_digest]. split; [lia|]. unfold row_ok in Hrow. destruct outcome as [[] o]; cbn in *.
        1, 2, 3, 4: destruct Hrow as (d & -> & Hd); by apply some_digest_hex.
        by subst o.
      + intros ->. specialize (Hsuccess (Hst eq_refl)). apply list.Forall_cons in Hsuccess as [Hc _]. cbn. by rewrite Hc.
      + intros ->. specialize (Hconflict (Hcf eq_refl)). apply Exists_cons in Hconflict as [Hc|Hc]; [|by inversion Hc]. cbn. by rewrite Hc.
    - by constructor.
    - unfold flags. by destruct failure as [[]|].
    - intros _. by left. }
  unfold materialization_response, materialized_answer. destruct failure as [f|]; cbn [from_option fmap option_fmap option_map].
  - destruct (failure_error f) as [status error] eqn:E. cbn [fst snd]. unfold FinalResponse_failure.
    match goal with |- map_err _ ?x = Ok ?y => enough (x = Ok y) as -> by done end.
    apply Hnew; destruct f; injection E as <- <-; try done; by intros e [= <-].
  - unfold FinalResponse_success. match goal with |- map_err _ ?x = Ok ?y => enough (x = Ok y) as -> by done end.
    by apply Hnew.
Qed.

Context (request : Request) (reference : Z) (path : str).
Context (Hid : rq_id request <> 0) (Href : reference <> 0) (Hpath : path_sound path).
Context (Hknown : forall data, archive reference data -> known data).

(** The transaction happened whole or not at all, between moves of the others. *)
Definition created (data : bytes) (failure : option FileTransactionFailure) (d : Disk.Disk) : Prop :=
  exists v d1 d2, rtc (moves su) d0 d1 /\ stands v d1 /\ fs_report v [FileAction_create path data] failure d2
    /\ rtc (moves su) d2 d.
Definition untouched (d : Disk.Disk) : Prop :=
  exists v d1 d2, rtc (moves su) d0 d1 /\ stands v d1 /\ stands v d2 /\ rtc (moves su) d2 d.
Definition create_cut (d : Disk.Disk) : Prop := exists v d1 data, rtc (moves su) d0 d1 /\ stands v d1
  /\ archive reference data /\ (stands v d \/ stands (perform_all [FileAction_create path data] v) d).

Lemma calm_untouched st : calm st -> untouched (disk_of st).
Proof. intros [Hm [_ (v & Hv & _)] _]. by exists v, (disk_of st), (disk_of st). Qed.

Definition materialize_outcome (r : Z * list PathMapping * Z * FileTransactionOutcome) (d : Disk.Disk) : Prop :=
  let '(id, mappings, size, outcome) := r in
  exists data, archive reference data /\ size = len data /\ numbering [path] [id] mappings
    /\ outcome_shape 1 outcome /\ created data (to_failure outcome) d.

Lemma calmly_reserve_materialization size :
  calmly (reserve_materialization (rq_id request) reference path size) (fun r => numbering [path] [r.1] r.2).
Proof.
  unfold reserve_materialization. destruct (temporary_paths [path]) as [tids tmaps].
  eapply calmly_bind with (Q := fun _ => True); [by apply calmly_lift|]. intros t _.
  eapply calmly_bind with (Q := fun _ => True); [by apply calmly_lift|]. intros r _.
  eapply calmly_bind with (Q := fun _ => True); [by apply calmly_lift|]. intros text _.
  eapply calmly_bind; [by apply calmly_limit|]. intros limit _. apply calmly_if; [apply calmly_fail|].
  eapply calmly_bind; [by apply calmly_charge|]. intros _ _.
  eapply calmly_bind; [apply calmly_intern; [done|by constructor]|]. intros [ids mappings] Hnum.
  eapply calmly_bind; [apply calmly_lift; intros id Hi; exact Hi|]. intros id Hi. apply calmly_ret.
  cbn [fst snd] in *. apply ok_or_ok in Hi. pose proof (nu_length _ _ _ Hnum) as Hl.
  destruct ids as [|id' [|]]; try done. by injection Hi as <-.
Qed.

(** The transaction of one creation. *)
Lemma creation_wp data st :
  calm st -> archive reference data ->
  op_wp su (system_with program_control (file_transaction [FileAction_create path data] service_limits))
    (fun o st' => outcome_shape 1 o /\ created data (to_failure o) (disk_of st'))
    (fun _ st' => untouched (disk_of st'))
    (fun st' => create_cut (disk_of st')) st.
Proof.
  intros Hst Hdata. destruct (others_calm _ _ _ Hcompany d0 st Hst) as [Hm [_ (v & Hv & Hk)] Hp].
  set (actions := [FileAction_create path data]).
  assert (strings_ok actions) as Hs by (unfold strings_ok; cbn; repeat constructor; apply Hpath).
  assert (Forall (action_known known) actions) as Ha by (constructor; [by apply Hknown|constructor]).
  enough (op_wp su (system_with program_control (file_transaction actions service_limits))
            (fun o st' => outcome_true v service_limits actions False o (disk_of st'))
            (fun _ st' => stands v (disk_of st'))
            (fun st' => stands v (disk_of st') \/ stands (perform_all actions v) (disk_of st')) st) as H.
  { eapply op_wp_mono; [exact (op_wp_post su _ _ _ _ _ _ _ (file_transaction_shape actions service_limits) H)|..].
    - intros o st' [Ho Hshape]. split; [done|]. exists v, (disk_of (others su st)), (disk_of st'). split_and!; [done..| |done].
      unfold outcome_true in Ho. unfold fs_report. destruct (to_failure o) as [[]|]; tauto.
    - intros e st' H'. by exists v, (disk_of (others su st)), (disk_of st').
    - intros st' H'. by exists v, (disk_of (others su st)), data. }
  unfold op_wp, system_with. set (env := mkEnvironment _ _ _ _).
  unfold disk_of in *. destruct (pg_world (others su st)) as [d b c p] eqn:Ew. cbn [w_disk] in *.
  pose proof (file_transaction_spec env Hwhole v service_limits service_limits_ok actions b _ Hv Hs
    (known_distinguished known Hinj v actions Hk Ha) c p) as H.
  destruct (file_transaction actions service_limits env _) as [[o|e|] w]; cbn in *.
  - eapply outcome_mono; [|apply H]. done.
  - apply H.
  - apply H.
Qed.

(** Under a lease, whatever holds of the disk is still true after the others' last move. *)
Lemma with_lease_wp {A} (m : Content -> op OperationError A) (Pd : A -> Disk.Disk -> Prop) (Pe Pc : Disk.Disk -> Prop) st :
  (forall content st', calm st' -> (forall io max b, read_all io content max = Ok b -> archive reference b) ->
     op_wp su (m content) (fun a st' => Pd a (disk_of st')) (fun _ st' => Pe (disk_of st')) (fun st' => Pc (disk_of st')) st') ->
  (forall st', calm st' -> Pe (disk_of st')) ->
  (forall a d d', Pd a d -> moves su d d' -> Pd a d') -> (forall d d', Pe d -> moves su d d' -> Pe d') -> calm st ->
  (forall st', calm st' -> Pc (disk_of st')) ->
  op_wp su (with_lease reference m) (fun a st' => Pd a (disk_of st')) (fun _ st' => Pe (disk_of st'))
    (fun st' => Pc (disk_of st')) st.
Proof.
  intros Hm He Hd Hs Hst Hc. unfold with_lease.
  eapply (calm_wp _ _ _ _ _ _ (fun content => forall io max b, read_all io content max = Ok b -> archive reference b));
    [exact Hst| | |intros e st' H; by apply He|intros st' H; by apply Hc].
  { apply calmly_shared; [done|]. intros sh Hf. destruct (get reference (sh_store sh)) as [[c s]|] eqn:E; [|by split].
    destruct (archived_get _ _ _ _ _ (sf_store _ _ Hf) E) as [Hs' Hc']. destruct Hf as [Hm1 Hp1 _].
    split; [by split|]. by intros a [= <-]. }
  clear st Hst. intros content st Hst Harch. specialize (Hm content st Hst Harch).
  unfold op_wp, mbind, op_bind, op_try in *. destruct (m content su st) as [[a|e|] st1]; [..|done]; unfold shared, op_lift.
  - eapply Hd; [exact Hm|]. exists (pg_turn st1), (pg_shared st1). unfold disk_of, others. by destruct (su_others su _ _ _).
  - cbn. eapply Hs; [exact Hm|]. exists (pg_turn st1), (pg_shared st1). unfold disk_of, others. by destruct (su_others su _ _ _).
Qed.

Lemma run_materialization_wp content st :
  calm st -> (forall io max b, read_all io content max = Ok b -> archive reference b) ->
  op_wp su (run_materialization (rq_id request) reference path content)
    (fun r st' => materialize_outcome r (disk_of st')) (fun _ st' => untouched (disk_of st'))
    (fun st' => untouched (disk_of st') \/ create_cut (disk_of st')) st.
Proof.
  intros Hst Hc. unfold run_materialization. destruct (_ <? _); [by apply calm_untouched|].
  assert (forall (e : OperationError) st', calm st' -> untouched (disk_of st')) as He by (intros _; apply calm_untouched).
  assert (forall st', calm st' -> untouched (disk_of st') \/ create_cut (disk_of st')) as Hcr
    by (intros st' H; left; by apply calm_untouched).
  eapply (calm_wp _ _ _ _ _ _ (archive reference)); [exact Hst| | |done..].
  { eapply calmly_bind; [by apply calmly_ask|]. intros spool _. apply calmly_lift. intros b Hb%map_err_ok. by eapply Hc. }
  clear st Hst. intros data st Hst Hdata. cbv zeta.
  eapply (calm_wp _ _ _ _ _ _ (fun _ => True)); [exact Hst| | |done..].
  { apply calmly_map_err, calmly_system; [done|]. eapply looks_bind; [apply looks_internal|]. intros b _ _. by apply looks_lift. }
  clear st Hst. intros _ st Hst _.
  change (FileTransactionLimits_new MAX_FILE_TRANSACTION_FILE_BYTES MAX_FILE_TRANSACTION_TOTAL_BYTES)
    with (Ok service_limits : result PlatformError _). cbn [map_err op_lift].
  eapply calm_wp; [exact Hst|apply calmly_ret, eq_refl| |done..]. clear st Hst. intros limits st Hst <-.
  eapply calm_wp; [exact Hst|apply calmly_reserve_materialization| |done..]. clear st Hst. intros [id mappings] st Hst Hnum.
  eapply (calm_wp _ _ _ _ _ _ (fun _ => True)); [exact Hst| | |done..].
  { eapply calmly_bind; [by apply calmly_acquire|]. intros _ _. by apply calmly_acquire. }
  clear st Hst. intros _ st Hst _. apply op_wp_bind. unfold pool_run.
  eapply calm_wp; [exact Hst|by apply calmly_ask| |done..]. clear st Hst. intros lives st Hst _.
  destruct lives; [|by apply calm_untouched]. pose proof (creation_wp data st Hst Hdata) as H.
  unfold op_wp, op_map_err in *. destruct (system_with _ _ su st) as [[o|e|] st']; [|exact H|by right].
  destruct H as [Hshape Hdone]. by exists data.
Qed.

(** What the answer says: the outcome of creating the file with the retained bytes. *)
Definition materialize_true (r : FinalResponse) (d : Disk.Disk) : Prop :=
  exists data id mappings outcome failure, archive reference data /\ numbering [path] [id] mappings /\ Rows.row_ok outcome
    /\ r = materialized_answer (rq_id request) reference mappings id (len data) outcome failure
    /\ created data failure d.

Lemma materialize_wp st :
  calm st ->
  op_wp su (materialize request reference path)
    (fun r st' => materialize_true r (disk_of st')) (fun _ st' => untouched (disk_of st'))
    (fun st' => untouched (disk_of st') \/ create_cut (disk_of st')) st.
Proof.
  intros Hst. unfold materialize. apply op_wp_bind.
  eapply op_wp_mono; [apply (with_lease_wp _ materialize_outcome untouched (fun d => untouched d \/ create_cut d))|..].
  - intros content st' Hst' Hc. by apply run_materialization_wp.
  - apply calm_untouched.
  - intros [[[id mappings] size] outcome] d d' (data & H1 & H2 & H3 & H4 & v & d1 & d2 & H5 & H6 & H7 & H8) Hm.
    exists data. split_and!; [done..|]. exists v, d1, d2. split_and!; [done..|]. by eapply rtc_r.
  - intros d d' (v & d1 & d2 & H1 & H2 & H3 & H4) Hm. exists v, d1, d2. split_and!; [done..|]. by eapply rtc_r.
  - done.
  - intros st' H. left. by apply calm_untouched.
  - intros [[[id mappings] size] outcome] st' (data & Ha & -> & Hnum & Hshape & Hdone).
    destruct outcome as [rows failure]. pose proof (os_length _ _ Hshape) as Hl. cbn [to_actions] in Hl.
    destruct rows as [|row [|]]; try done. cbn [to_actions to_failure head ok_or op_lift] in *.
    pose proof (os_rows _ _ Hshape) as Hrow. cbn [to_actions] in Hrow. apply list.Forall_cons in Hrow as [Hrow _].
    unfold op_wp, mbind, op_bind, mret, op_ret. rewrite (materialization_built _ _ path) by done. cbn.
    by exists data, id, mappings, row, failure.
  - done.
  - done.
Qed.

Lemma materialize_execute_true `{engine : RegexEngine} a st :
  a = mkRef reference (FMaterialize path) -> calm st ->
  op_wp su (reference_execute request a)
    (fun r st' => materialize_true r (disk_of st')) (fun _ st' => untouched (disk_of st'))
    (fun st' => untouched (disk_of st') \/ create_cut (disk_of st')) st.
Proof.
  intros -> Hst. unfold reference_execute. cbn [ref_formula ref_reference].
  eapply calm_wp; [exact Hst|by apply calmly_check| |intros e st'; apply calm_untouched|intros st' H; left; by apply calm_untouched].
  clear st Hst. intros _ st Hst _. by apply materialize_wp.
Qed.
End materialization.
