(* ===== verification/Streams.v ===== *)
(** * Streams: the text of a captured stream

    crates/ash-ops/src/exec.rs, the part that looks at bytes only: whether a stream that
    arrives in chunks is text ([StreamText]), and what is shown of it ([project],
    [project_sampled]).  The facts say that the incremental validation agrees with that of
    the whole stream, and what a projection shows of it. *)

From S2P Require Import Prelude Text AsonScalarFacts AsonModel AsonCodec AsonFacts AsonSound Reducer ReducerFacts ReducerBlocks.

(** ** Data *)

(** [Projection]. *)
Record StreamProjection : Type := mkProjection { pj_text : option str; pj_reduced : bool; pj_normalized : bool }.

Record StreamText : Type := mkStreamText {
  tx_valid : bool; tx_pending : bytes; tx_normalized : bool; tx_previous_cr : bool }.
Definition StreamText_default : StreamText := mkStreamText true [] false false.

(** ** Incremental validation *)

(** [contains] of a carriage return and a line feed, on chars and on windows of bytes. *)
Fixpoint crlf (s : list Z) : bool :=
  match s with
  | c :: (d :: _) as rest => ((c =? 13) && (d =? 10)) || crlf rest
  | _ => false
  end.

(** [Utf8Error::error_len] is [None]: what is left begins a sequence and ends within it. *)
Definition sequence_ends (rest : bytes) : bool :=
  let second b0 b1 :=
    let lo := if b0 =? 224 then 160 else if b0 =? 240 then 144 else 128 in
    let hi := if b0 =? 237 then 159 else if b0 =? 244 then 143 else 191 in
    (lo <=? b1) && (b1 <=? hi) in
  match rest with
  | [b0] => (194 <=? b0) && (b0 <=? 244)
  | [b0; b1] => (224 <=? b0) && (b0 <=? 244) && second b0 b1
  | [b0; b1; b2] => (240 <=? b0) && (b0 <=? 244) && second b0 b1 && is_cont b2
  | _ => false
  end.

Definition validate (b : bytes) (text : StreamText) : StreamText :=
  let with_ valid pending := mkStreamText valid pending (tx_normalized text) (tx_previous_cr text) in
  match from_utf8 b with
  | Ok _ => with_ (tx_valid text) []
  | Err valid_up_to =>
      let rest := drop (Z.to_nat valid_up_to) b in
      if sequence_ends rest then if 3 <? len rest then with_ false [] else with_ (tx_valid text) rest
      else with_ false []
  end.

Definition observe_text (b : bytes) (text : StreamText) : StreamText :=
  match b with
  | [] => text
  | first :: _ =>
      let normalized := (tx_previous_cr text && (first =? 10)) || crlf b || tx_normalized text in
      let previous_cr := bool_decide (list.last b = Some 13) in
      let text := mkStreamText (tx_valid text) (tx_pending text) normalized previous_cr in
      if negb (tx_valid text) then text
      else if bool_decide (tx_pending text = []) then validate b text
      else validate (tx_pending text ++ b) (mkStreamText (tx_valid text) [] normalized previous_cr)
  end.

Definition is_text (text : StreamText) : bool := tx_valid text && bool_decide (tx_pending text = []).

(** ** Projections *)

(** [replace] of each carriage return and line feed by a line feed. *)
Fixpoint replace_crlf (s : str) : str :=
  match s with
  | [] => []
  | c :: rest => if (c =? 13) && match rest with d :: _ => d =? 10 | [] => false end
                 then replace_crlf rest else c :: replace_crlf rest
  end.

Definition normalize (text : str) (normalized : bool) : str := if normalized then replace_crlf text else text.

(** A text's beginning and its end, around a separator. *)
Definition excerpt (head tail : str) (limit : Z) : str :=
  let content_limit := saturating_sub limit 5 in
  let head_end := floor_char_boundary head (content_limit / 2) in
  let tail_start := ceil_char_boundary tail (saturating_sub (str_len tail) (content_limit - head_end)) in
  str_take head_end head ++ ([10] ++ L "..." ++ [10]) ++ str_drop tail_start tail.

(** The bytes of a [String]. *)
Definition decoded (b : bytes) : str := match from_utf8 b with Ok s => s | Err _ => [] end.

(** [collapse_repeated_lines], [collapse_repeated_blocks] and, of the output of a failed
    command, [focus_error_output]. *)
Definition reduce_output (text : str) (focus_errors : bool) : option (str * bool) :=
  let line_reduction := collapse_repeated_lines (str_bytes text) in
  block_reduction ← collapse_repeated_blocks (rl_text line_reduction);
  let reduced := negb (rl_collapsed_runs line_reduction =? 0)%nat || negb (rb_collapsed_blocks block_reduction =? 0)%nat in
  if focus_errors then
    error_reduction ← focus_error_output (rb_text block_reduction);
    Some (decoded (ef_text error_reduction), reduced || negb (ef_omitted_spans error_reduction =? 0)%nat)
  else Some (decoded (rb_text block_reduction), reduced).

Definition project (b : bytes) (limit : Z) (focus_errors : bool) : option StreamProjection :=
  match from_utf8 b with
  | Err _ => Some (mkProjection None (negb (bool_decide (b = []))) false)
  | Ok text =>
      let normalized := crlf text in
      '(shown, reduced) ← reduce_output (normalize text normalized) focus_errors;
      Some (if str_len shown <=? limit
            then mkProjection (if bool_decide (shown = []) then None else Some shown) reduced normalized
            else if limit <? 8 then mkProjection None true normalized
            else mkProjection (Some (excerpt shown shown limit)) true normalized)
  end.

Fixpoint head_loop (b : bytes) (end_ : nat) : str :=
  match end_ with
  | O => []
  | S shorter => match from_utf8 (take end_ b) with Ok text => text | Err _ => head_loop b shorter end
  end.
Definition complete_utf8_head (b : bytes) : str := head_loop b (List.length b).

Fixpoint tail_loop (b : bytes) (starts : list nat) : str :=
  match starts with
  | [] => []
  | start :: starts => match from_utf8 (drop start b) with Ok text => text | Err _ => tail_loop b starts end
  end.
Definition complete_utf8_tail (b : bytes) : str := tail_loop b (seq 0 (Nat.min (List.length b) 4)).

Definition normalize_head (text : str) (next : option Z) (normalized : bool) : str :=
  let text := normalize text normalized in
  if normalized && bool_decide (list.last text = Some 13) && bool_decide (next = Some 10)
  then take (pred (List.length text)) text ++ [10] else text.

Definition project_sampled (head : bytes) (head_next : option Z) (tail : bytes) (limit : Z) (text : StreamText)
    : StreamProjection :=
  if negb (is_text text) then mkProjection None true false
  else if limit <? 8 then mkProjection None true (tx_normalized text)
  else
    let head := normalize_head (complete_utf8_head head) head_next (tx_normalized text) in
    let tail := normalize (complete_utf8_tail tail) (tx_normalized text) in
    mkProjection (Some (excerpt head tail limit)) true (tx_normalized text).

(** ** Facts: incremental validation *)

Lemma from_utf8_at_app off s r :
  valid_str s = true -> from_utf8_at off (str_bytes s ++ r) = (t ← from_utf8_at (off + str_len s) r; Ok (s ++ t)).
Proof.
  revert off. induction s as [|c s IH]; intros off Hs.
  - rewrite str_len_nil, Z.add_0_r. cbn. by destruct (from_utf8_at off r).
  - unfold valid_str in Hs. cbn [forallb] in Hs. apply andb_true_iff in Hs as [Hc Hs].
    rewrite str_bytes_cons, <- (assoc_L (++)), from_utf8_at_encode, IH, str_len_cons by done.
    replace (off + len_utf8 c + str_len s) with (off + (len_utf8 c + str_len s)) by lia.
    by destruct (from_utf8_at _ r).
Qed.

Lemma from_utf8_app s r : valid_str s = true -> is_ok (from_utf8 (str_bytes s ++ r)) = is_ok (from_utf8 r).
Proof.
  intros Hs. unfold from_utf8. rewrite from_utf8_at_app by done.
  assert (forall b o o', is_ok (from_utf8_at o b) = is_ok (from_utf8_at o' b)) as Hoff.
  { clear. intros b. induction b as [b IH] using list_length_ind. intros o o'. destruct b as [|b0 r0]; [done|].
    cbn -[Z.mul Z.add]. repeat (case_match; try done);
      match goal with |- is_ok (_ ← from_utf8_at ?p ?x; _) = is_ok (_ ← from_utf8_at ?q ?x; _) =>
        specialize (IH x ltac:(cbn; lia) p q); by destruct (from_utf8_at p x), (from_utf8_at q x) end. }
  rewrite (Hoff r 0 (0 + str_len s)). by destruct (from_utf8_at _ r).
Qed.

(** Bytes begin with the encoding of a char, or are refused at once. *)
Lemma utf8_step b : b <> [] ->
  (exists c rest, b = encode_utf8 c ++ rest /\ valid_char c = true) \/ forall o, from_utf8_at o b = Err o.
Proof.
  intros Hne. destruct b as [|b0 r0]; [done|]. clear Hne. cbn -[Z.mul Z.add]. unfold is_cont.
  repeat (case_match; try (right; done)); zbool; left.
  { exists b0, r0. assert (encode_utf8 b0 = [b0]) as -> by (unfold encode_utf8; by destruct (Z.ltb_spec b0 128); [|lia]).
    split; [done|]. apply valid_char_iff. lia. }
  all: match goal with
    | |- exists _ _, ?x :: ?y :: ?rest = _ /\ _ => first
        [ edestruct (encode_utf8_2 x y) as [? Hc]; [lia|lia|]; eexists _, rest; rewrite Hc; split; [reflexivity|assumption]
        | match rest with ?z :: ?rest => edestruct (encode_utf8_3 x y z) as [? Hc]; [lia|repeat case_match; lia|repeat case_match; lia|lia|];
            eexists _, rest; rewrite Hc; split; [reflexivity|assumption] end
        | match rest with ?z :: ?w :: ?rest => edestruct (encode_utf8_4 x y z w) as [? Hc]; [lia|repeat case_match; lia|repeat case_match; lia|lia|lia|];
            eexists _, rest; rewrite Hc; split; [reflexivity|assumption] end ] end.
Qed.

(** An error is at the first sequence that is not the encoding of a char. *)
Lemma utf8_at_err b : forall off k, from_utf8_at off b = Err k ->
  exists s rest, valid_str s = true /\ b = str_bytes s ++ rest /\ k = off + str_len s
    /\ rest <> [] /\ forall o, from_utf8_at o rest = Err o.
Proof.
  induction b as [b IH] using list_length_ind. intros off k H. destruct (decide (b = [])) as [->|Hne]; [done|].
  destruct (utf8_step b Hne) as [(c & rest & -> & Hc)|Hno].
  - rewrite from_utf8_at_encode in H by done.
    destruct (from_utf8_at (off + len_utf8 c) rest) as [t|k'] eqn:Er; [done|]. injection H as ->.
    apply IH in Er as (s & rest0 & Hs & -> & -> & Hr).
    + exists (c :: s), rest0. split_and!; [unfold valid_str; cbn; by rewrite Hc| |rewrite str_len_cons; lia|apply Hr..].
      by rewrite str_bytes_cons, <- (assoc_L (++)).
    + rewrite length_app. pose proof (len_encode_utf8 c) as Hl. pose proof (len_utf8_bounds c). unfold len in Hl. lia.
  - rewrite Hno in H. injection H as <-. exists [], b. split_and!; try done. rewrite str_len_nil. lia.
Qed.

(** A char's encoding cut short ends within a sequence. *)
Lemma cut_sequence c rest more :
  valid_char c = true -> encode_utf8 c = rest ++ more -> rest <> [] -> more <> [] -> sequence_ends rest = true.
Proof.
  intros Hc%valid_char_iff E Hr Hm. unfold encode_utf8 in E.
  pose proof (base64_step c) as [E1 B1]. pose proof (base64_step (c / 64)) as [E2 B2].
  pose proof (base64_step (c / 4096)) as [E3 B3].
  rewrite Z.div_div in E2 by lia. change (64 * 64) with 4096 in E2.
  rewrite Z.div_div in E3 by lia. change (4096 * 64) with 262144 in E3.
  destruct (Z.ltb_spec c 128); [|destruct (Z.ltb_spec c 2048); [|destruct (Z.ltb_spec c 65536)]];
    (destruct rest as [|b0 rest]; [done|]; injection E as <- E);
    [|destruct rest as [|b1 rest]; [|injection E as <- E]
     |destruct rest as [|b1 rest]; [|injection E as <- E; destruct rest as [|b2 rest]; [|injection E as <- E]]
     |destruct rest as [|b1 rest];
       [|injection E as <- E; destruct rest as [|b2 rest]; [|injection E as <- E; destruct rest as [|b3 rest]; [|injection E as <- E]]]];
    try (symmetry in E; apply app_nil in E as [_ ->]; done); unfold sequence_ends, is_cont; cbv zeta;
    repeat match goal with |- context [if ?x =? ?y then _ else _] => destruct (Z.eqb_spec x y) end; lia.
Qed.

(** What is refused and does not end within a sequence is refused whatever follows. *)
Lemma refused_for_good rest more :
  rest <> [] -> (forall o, from_utf8_at o rest = Err o) -> sequence_ends rest = false ->
  forall o, from_utf8_at o (rest ++ more) = Err o.
Proof.
  intros Hne Hr He. destruct (utf8_step (rest ++ more)) as [(c & tail & E & Hc)|]; [by intros [? _]%app_nil|exfalso|done].
  apply app_eq_inv in E as [(k & -> & ->)|(k & Ek & ->)].
  - specialize (Hr 0). rewrite from_utf8_at_encode in Hr by done. pose proof (len_utf8_bounds c).
    destruct (from_utf8_at _ k) as [|k'] eqn:Ek; [done|]. injection Hr as ->.
    apply utf8_at_err in Ek as (s & ? & _ & _ & Hk & _). pose proof (str_len_nonneg s). lia.
  - destruct (decide (k = [])) as [->|Hk].
    + rewrite app_nil_r in Ek. subst rest. specialize (Hr 0).
      rewrite <- (app_nil_r (encode_utf8 c)), from_utf8_at_encode in Hr by done. done.
    + by rewrite (cut_sequence c rest k) in He.
Qed.

(** What ends within a sequence is refused. *)
Lemma cut_refused rest : sequence_ends rest = true -> rest <> [] /\ is_ok (from_utf8 rest) = false /\ len rest <= 3.
Proof.
  destruct rest as [|b0 [|b1 [|b2 [|]]]]; try done; cbn [sequence_ends]; intros H; zbool;
    (split; [done|split; [|done]]); unfold from_utf8; cbn -[Z.mul Z.add]; unfold is_cont;
    repeat (case_match; try done); exfalso; lia.
Qed.

(** *** The invariant *)

(** What is known of the stream so far: it is text up to a cut sequence, or no text. *)
Record follows (all : bytes) (text : StreamText) : Prop := mkFollows {
  fo_normalized : tx_normalized text = crlf all;
  fo_previous : tx_previous_cr text = bool_decide (list.last all = Some 13);
  fo_valid : if tx_valid text
             then exists s, valid_str s = true /\ all = str_bytes s ++ tx_pending text
                    /\ (tx_pending text = [] \/ sequence_ends (tx_pending text) = true)
             else tx_pending text = [] /\ forall more, is_ok (from_utf8 (all ++ more)) = false;
}.

Lemma follows_start : follows [] StreamText_default.
Proof. split; [done|done|]. exists []. split_and!; [done..|by left]. Qed.

Lemma crlf_app a b :
  crlf (a ++ b) = crlf a || (bool_decide (list.last a = Some 13) && bool_decide (head b = Some 10)) || crlf b.
Proof.
  induction a as [|c a IH]; [done|]. destruct a as [|d a].
  - cbn. destruct b as [|e b]; cbn; [by rewrite andb_false_r|]. f_equal.
    destruct (Z.eqb_spec c 13), (Z.eqb_spec e 10); repeat case_bool_decide; try done; congruence.
  - change (crlf ((c :: d :: a) ++ b)) with (((c =? 13) && (d =? 10)) || crlf ((d :: a) ++ b)). rewrite IH.
    change (crlf (c :: d :: a)) with (((c =? 13) && (d =? 10)) || crlf (d :: a)).
    change (list.last (c :: d :: a)) with (list.last (d :: a)). by rewrite !orb_assoc.
Qed.

Lemma validate_follows b text :
  let text' := validate b text in
  tx_normalized text' = tx_normalized text /\ tx_previous_cr text' = tx_previous_cr text
  /\ (tx_valid text = true -> if tx_valid text'
      then exists s, valid_str s = true /\ b = str_bytes s ++ tx_pending text'
             /\ (tx_pending text' = [] \/ sequence_ends (tx_pending text') = true)
      else tx_pending text' = [] /\ forall more, is_ok (from_utf8 (b ++ more)) = false).
Proof.
  cbv zeta. unfold validate. destruct (from_utf8 b) as [s|k] eqn:E.
  - split_and!; [done..|]. cbn. intros ->. apply from_utf8_Ok in E as [Hs <-]. exists s. rewrite app_nil_r. split_and!; [done..|by left].
  - apply utf8_at_err in E as (s & rest & Hs & -> & -> & Hne & Hr). rewrite Z.add_0_l.
    replace (drop (Z.to_nat (str_len s)) (str_bytes s ++ rest)) with rest
      by (unfold str_len, len; rewrite Nat2Z.id; by rewrite drop_app_length).
    destruct (sequence_ends rest) eqn:Ee.
    + destruct (cut_refused rest Ee) as (_ & _ & Hl). destruct (Z.ltb_spec 3 (len rest)); [lia|].
      split_and!; [done..|]. cbn. intros ->. exists s. split_and!; [done..|by right].
    + split_and!; [done..|]. cbn. intros _. split; [done|]. intros more.
      rewrite <- (assoc_L (++)), from_utf8_app by done. unfold from_utf8. by rewrite refused_for_good.
Qed.

Lemma some_eqb (x y : Z) : bool_decide (Some x = Some y) = (x =? y).
Proof. destruct (Z.eqb_spec x y) as [->|]; [by rewrite bool_decide_eq_true_2|]. apply bool_decide_eq_false_2. congruence. Qed.

Lemma observe_follows all b text : follows all text -> follows (all ++ b) (observe_text b text).
Proof.
  intros [Hn Hp Hv]. unfold observe_text. destruct b as [|first b']; [rewrite app_nil_r; by split|].
  set (b := first :: b').
  assert ((tx_previous_cr text && (first =? 10)) || crlf b || tx_normalized text = crlf (all ++ b)) as Hcrlf.
  { rewrite crlf_app, Hn, Hp. change (head b) with (Some first). rewrite some_eqb.
    destruct (crlf all), (bool_decide (list.last all = Some 13)), (first =? 10), (crlf b); done. }
  assert (bool_decide (list.last b = Some 13) = bool_decide (list.last (all ++ b) = Some 13)) as Hlast.
  { rewrite last_app. destruct (list.last b) eqn:E; [done|]. apply last_None in E. done. }
  rewrite Hcrlf, Hlast. cbn [tx_valid tx_pending tx_normalized]. destruct (tx_valid text) eqn:Ev; cbn [negb].
  2: { split; [done|done|]. cbn. destruct Hv as [Hpend Hno]. split; [done|]. intros more.
       rewrite <- (assoc_L (++)). apply Hno. }
  destruct Hv as (s & Hs & -> & Hpend).
  set (pending := tx_pending text) in *.
  assert (forall t, tx_valid t = true -> tx_normalized t = crlf ((str_bytes s ++ pending) ++ b) ->
    tx_previous_cr t = bool_decide (list.last ((str_bytes s ++ pending) ++ b) = Some 13) ->
    follows ((str_bytes s ++ pending) ++ b) (validate (pending ++ b) t)) as Hgo.
  { intros t Ht Htn Htp. destruct (validate_follows (pending ++ b) t) as (H1 & H2 & H3). specialize (H3 Ht).
    split; [by rewrite H1|by rewrite H2|]. destruct (tx_valid (validate (pending ++ b) t)).
    - destruct H3 as (s' & Hs' & E & Hp'). exists (s ++ s'). split_and!; [|by rewrite str_bytes_app, <- !(assoc_L (++)), <- E|done].
      unfold valid_str. rewrite forallb_app. unfold valid_str in Hs, Hs'. by rewrite Hs, Hs'.
    - destruct H3 as [H3 H4]. split; [done|]. intros more. rewrite <- !(assoc_L (++)), from_utf8_app by done.
      rewrite (assoc_L (++)). apply H4. }
  destruct (bool_decide_reflect (pending = [])) as [Hd|]; [|by apply Hgo]. replace (validate b) with (validate (pending ++ b)) by by rewrite Hd. by apply Hgo.
Qed.

(** The text of chunks is that of the whole stream. *)
Lemma observe_chunks chunks : forall all text, follows all text ->
  follows (all ++ concat chunks) (foldl (fun text b => observe_text b text) text chunks).
Proof.
  induction chunks as [|b chunks IH]; intros all text H; cbn; [by rewrite app_nil_r|].
  rewrite (assoc_L (++)). apply IH. by apply observe_follows.
Qed.

Lemma follows_text all text : follows all text -> is_text text = is_ok (from_utf8 all).
Proof.
  intros [_ _ Hv]. unfold is_text. destruct (tx_valid text); cbn.
  - destruct Hv as (s & Hs & -> & Hp). rewrite from_utf8_app by done. case_bool_decide as Hd; [by rewrite Hd|].
    destruct Hp as [|Hp]; [done|]. by destruct (cut_refused _ Hp) as (_ & -> & _).
  - destruct Hv as [_ Hno]. specialize (Hno []). by rewrite app_nil_r in Hno.
Qed.

(** ** Facts: the reducers on text *)

Definition utf8 (b : bytes) : Prop := exists s, valid_str s = true /\ str_bytes s = b.

Lemma utf8_str s : valid_str s = true -> utf8 (str_bytes s).
Proof. intros H. by exists s. Qed.
Lemma utf8_nil : utf8 [].
Proof. by exists []. Qed.
Lemma utf8_app a b : utf8 a -> utf8 b -> utf8 (a ++ b).
Proof. intros (s & Hs & <-) (t & Ht & <-). exists (s ++ t). by rewrite valid_str_app, Hs, Ht, str_bytes_app. Qed.
Lemma utf8_concat bs : Forall utf8 bs -> utf8 (concat bs).
Proof. induction 1; [apply utf8_nil|by apply utf8_app]. Qed.
Lemma utf8_number prefix n suffix : valid_str prefix = true -> valid_str suffix = true ->
  utf8 (str_bytes (prefix ++ to_string (Z.of_nat n) ++ suffix)).
Proof. intros Hp Hs. apply utf8_str. rewrite !valid_str_app, Hp, Hs. by rewrite to_string_valid by lia. Qed.
Lemma utf8_decoded b : utf8 b -> valid_str (decoded b) = true /\ str_bytes (decoded b) = b.
Proof. intros (s & Hs & <-). unfold decoded. by rewrite from_utf8_str_bytes. Qed.

(** A line feed ends a char. *)
Lemma utf8_lines b : utf8 b -> Forall utf8 (split_inclusive b).
Proof.
  intros (s & Hs & <-). induction s as [|c s IH]; [constructor|]. unfold valid_str in Hs. cbn [forallb] in Hs.
  apply andb_true_iff in Hs as [Hc Hs]. specialize (IH Hs). rewrite str_bytes_cons.
  assert (utf8 (encode_utf8 c)) as Hu by (exists [c]; unfold valid_str; cbn; by rewrite Hc, app_nil_r).
  destruct (Z.eqb_spec c 10) as [->|Hne].
  { cbn. constructor; [exact Hu|exact IH]. }
  assert (10 ∉ encode_utf8 c) as H10 by (intros Hin; apply Hne, (encode_utf8_ascii 10 c); [lia|by apply list_elem_of_In]).
  assert (forall seq, 10 ∉ seq -> seq <> [] -> split_inclusive (seq ++ str_bytes s)
    = match split_inclusive (str_bytes s) with [] => [seq] | line :: lines => (seq ++ line) :: lines end) as Hsplit.
  { clear. induction seq as [|x seq IHs]; intros Hn Hnil; [done|]. apply not_elem_of_cons in Hn as [Hx Hn]. cbn.
    destruct (Z.eqb_spec x 10) as [->|]; [done|]. destruct seq as [|y seq].
    - cbn [app]. by destruct (split_inclusive (str_bytes s)).
    - rewrite IHs by done. by destruct (split_inclusive (str_bytes s)). }
  rewrite Hsplit; [|done|]. 2: { intros E. pose proof (len_encode_utf8 c) as H. pose proof (len_utf8_bounds c). rewrite E, len_nil in H. lia. }
  destruct (split_inclusive (str_bytes s)) as [|line lines]; [by repeat constructor|].
  apply list.Forall_cons in IH as [H1 H2]. constructor; [by apply utf8_app|done].
Qed.

Lemma group_members {A} `{EqDecision A} (P : A -> Prop) l : Forall P l -> Forall (fun g => P g.1) (group l).
Proof.
  induction 1 as [|x l Hx _ IH]; [constructor|]. cbn. destruct (group l) as [|[y n] gs]; [by repeat constructor|].
  apply list.Forall_cons in IH as [H1 H2]. case_decide; by repeat constructor.
Qed.

Lemma utf8_replicate n b : utf8 b -> utf8 (concat (replicate n b)).
Proof. intros H. apply utf8_concat. induction n; cbn; by constructor. Qed.

(** Shortening keeps text, never lengthens it, and changes nothing unless it says so. *)
Definition shortens (before after : bytes) (reduced : bool) : Prop :=
  utf8 after /\ len after <= len before /\ (reduced = false -> after = before).

Lemma lines_shorten b : utf8 b -> len b <= usize_max ->
  let r := collapse_repeated_lines b in shortens b (rl_text r) (negb (rl_collapsed_runs r =? 0)%nat).
Proof.
  intros Hb Hl. cbv zeta. rewrite collapse_lines_spec.
  assert (concat (ungroup (group (split_inclusive b))) = b) as Hc by (by rewrite ungroup_group, split_inclusive_concat).
  destruct (encode_groups_spec (group (split_inclusive b)) (group_counts _)) as (Ht & Hn & _ & Hlen); [by rewrite Hc|].
  rewrite Hc in Hlen. pose proof (group_members _ _ (utf8_lines b Hb)) as Hg. split; [|split; [lia|]].
  - rewrite Ht. apply utf8_concat, Forall_fmap. eapply list.Forall_impl; [exact Hg|]. intros g H. unfold compose. cbn beta.
    destruct (collapses g); [|unfold group_text; by apply utf8_replicate]. apply utf8_app; [done|]. unfold run_marker. by apply (utf8_number [REPEAT_SYMBOL]).
  - intros H%negb_false_iff%Nat.eqb_eq. rewrite Ht. rewrite Hn in H. apply nil_length_inv in H.
    rewrite <- Hc at 2. rewrite concat_ungroup. clear -H. induction (group (split_inclusive b)) as [|g gs IH]; [done|].
    cbn [List.filter] in H. rewrite !fmap_cons. cbn [concat]. destruct (collapses g); [done|]. by rewrite IH.
Qed.

Lemma blocks_shorten b : utf8 b -> len b <= u32_max ->
  exists r, collapse_repeated_blocks b = Some r /\ shortens b (rb_text r) (negb (rb_collapsed_blocks r =? 0)%nat).
Proof.
  intros Hb Hl. pose proof (lines_le_text b) as Hlines.
  assert (Z.of_nat (List.length (split_inclusive b)) <= u32_max) as Hu by (unfold len in Hl; lia).
  set (l := LineLayout_new b). set (ps := pieces b 0 ++ rest_pieces b (ly_complete_lines l)).
  destruct (pieces_spec b Hu 0 ltac:(lia)) as [HF Hc]. destruct (rest_pieces_spec b (ly_complete_lines l)) as [HFr Hr].
  assert (Forall piece_ok ps) as Hok by (by apply Forall_app).
  assert (concat (concat (piece_lines <$> ps)) = b) as Hall.
  { unfold ps. rewrite fmap_app, concat_app, Hc, Hr. unfold block. rewrite drop_0, Nat.sub_0_r, take_drop. apply split_inclusive_concat. }
  exists (then_pieces (mkBlocks [] 0 0 0) ps). split; [by apply collapse_blocks_spec|].
  pose proof (piece_text_le b ps Hok) as Hle. rewrite Hall in Hle. cbn [then_pieces rb_text rb_collapsed_blocks app Nat.add].
  assert (Forall (fun p => utf8 (concat p.1)) ps) as Hpieces.
  { assert (Forall utf8 (concat (piece_lines <$> ps))) as Hlu.
    { replace (concat (piece_lines <$> ps)) with (split_inclusive b); [by apply utf8_lines|].
      unfold ps. rewrite fmap_app, concat_app, Hc, Hr. unfold block. by rewrite drop_0, Nat.sub_0_r, take_drop. }
    clear -Hlu Hok. induction Hok as [|[ls n] ps Hp _ IH]; [constructor|]. rewrite fmap_cons in Hlu. cbn [concat] in Hlu.
    apply Forall_app in Hlu as [H1 H2]. constructor; [|by apply IH]. cbn [fst]. apply utf8_concat.
    unfold piece_lines in H1. cbn [fst snd] in H1. assert (1 <= n)%nat by (unfold piece_ok in Hp; cbn in Hp; lia).
    destruct n as [|n]; [lia|]. cbn in H1. by apply Forall_app in H1 as [? _]. }
  split; [|split; [lia|]].
  - apply utf8_concat, Forall_fmap. eapply list.Forall_impl; [exact Hpieces|]. intros p Hp. unfold piece_text. unfold compose. cbn beta.
    destruct (p.2 =? 1)%nat; [done|]. apply utf8_app; [done|].
    unfold block_marker. apply utf8_str. rewrite !valid_str_app. by rewrite !to_string_valid by lia.
  - intros H%negb_false_iff%Nat.eqb_eq. apply nil_length_inv in H. transitivity (concat (concat (piece_lines <$> ps))); [|exact Hall]. clearbody ps. clear -H.
    induction ps as [|[ls n] ps IH]; [done|]. cbn [List.filter] in H. rewrite !fmap_cons. cbn [concat].
    rewrite concat_app, <- IH by (by destruct (repeated (ls, n))). unfold repeated in H. cbn [snd] in H.
    destruct (Nat.eqb_spec n 1) as [->|]; [|done]. unfold piece_text, piece_lines. cbn. by rewrite app_nil_r.
Qed.

Lemma focus_shortens b : utf8 b -> len b <= u64_max ->
  exists r, focus_error_output b = Some r /\ shortens b (ef_text r) (negb (ef_omitted_spans r =? 0)%nat).
Proof.
  intros Hb Hl. eexists. split; [by apply focus_spec|]. destruct (_ =? 0)%nat; [by split|].
  set (flags := retained_lines _). assert (List.length flags = List.length (split_inclusive b)) as Hf
    by (unfold flags; rewrite retained_length; apply length_fmap).
  pose proof (segments_concat flags (split_inclusive b) Hf) as Hc. rewrite split_inclusive_concat in Hc.
  pose proof (focused_len (List.length (filter (fun a => a = true) (is_diagnostic_anchor <$> split_inclusive b)))
                (segments (group flags) (split_inclusive b))) as Hle. rewrite Hc in Hle.
  set (ss := segments (group flags) (split_inclusive b)) in *.
  assert (Forall (fun s => Forall utf8 s.2) ss) as Hss.
  { unfold ss. pose proof (utf8_lines b Hb) as H. revert H. generalize (split_inclusive b). clear.
    induction (group flags) as [|[x n] gs IH]; intros lines H; [constructor|]. cbn. constructor; [by apply Forall_take|].
    apply IH. by apply Forall_drop. }
  split; [|split; [lia|]].
  - cbn. apply utf8_concat, Forall_fmap. eapply list.Forall_impl; [exact Hss|]. intros s Hs. unfold segment_text. unfold compose. cbn beta.
    destruct (omits s); [unfold omission_marker; by apply (utf8_number [OMISSION_SYMBOL])|by apply utf8_concat].
  - intros H%negb_false_iff%Nat.eqb_eq. cbn in *. apply nil_length_inv in H. rewrite <- Hc. clear -H.
    induction ss as [|s ss IH]; [done|]. cbn [List.filter] in H. rewrite !fmap_cons. cbn [concat]. unfold segment_text at 1.
    destruct (omits s); [done|]. by rewrite IH.
Qed.

Lemma reduce_output_spec text focus :
  valid_str text = true -> str_len text <= u32_max ->
  exists shown reduced, reduce_output text focus = Some (shown, reduced)
    /\ valid_str shown = true /\ str_len shown <= str_len text /\ (reduced = false -> shown = text).
Proof.
  intros Hv Hl. assert (utf8 (str_bytes text)) as Hb by (by exists text). unfold str_len in Hl.
  assert (u32_max <= usize_max) by (vm_compute; discriminate).
  destruct (lines_shorten _ Hb ltac:(lia)) as (Hb1 & Hl1 & Hs1). unfold reduce_output. cbv zeta.
  set (r1 := collapse_repeated_lines (str_bytes text)) in *.
  destruct (blocks_shorten _ Hb1 ltac:(lia)) as (r2 & -> & Hb2 & Hl2 & Hs2). cbn [mbind option_bind].
  assert (forall b, utf8 b -> len b <= len (str_bytes text) -> (b = str_bytes text -> decoded b = text)) as Hdec.
  { intros b _ _ ->. unfold decoded. by rewrite from_utf8_str_bytes. }
  assert (forall b, utf8 b -> str_len (decoded b) = len b) as Hlen.
  { intros b Hu. unfold str_len. by rewrite (proj2 (utf8_decoded b Hu)). }
  destruct focus.
  - assert (u32_max <= u64_max) by (vm_compute; discriminate).
    destruct (focus_shortens _ Hb2 ltac:(lia)) as (r3 & -> & Hb3 & Hl3 & Hs3). cbn [mbind option_bind].
    eexists _, _. split; [done|]. split; [by apply utf8_decoded|]. split; [rewrite Hlen by done; unfold str_len; lia|].
    intros [[H1 H2]%orb_false_iff H3]%orb_false_iff. apply Hdec; [done|lia|]. by rewrite Hs3, Hs2, Hs1.
  - eexists _, _. split; [done|]. split; [by apply utf8_decoded|]. split; [rewrite Hlen by done; unfold str_len; lia|].
    intros [H1 H2]%orb_false_iff. apply Hdec; [done|lia|]. by rewrite Hs2, Hs1.
Qed.

(** ** Facts: the ends of a text *)

(** Bytes cut from the start or the end of a text are a text around part of a char. *)
Lemma cut_head w n : valid_str w = true ->
  exists w1 w2 cut, w = w1 ++ w2 /\ take n (str_bytes w) = str_bytes w1 ++ cut
    /\ (cut = [] \/ exists c w3 more, w2 = c :: w3 /\ encode_utf8 c = cut ++ more /\ cut <> [] /\ more <> []).
Proof.
  revert n. induction w as [|c w IH]; intros n Hw; [exists [], [], []; split_and!; [done|by destruct n|by left]|].
  unfold valid_str in Hw. cbn [forallb] in Hw. apply andb_true_iff in Hw as [Hc Hw]. rewrite str_bytes_cons.
  destruct (decide (List.length (encode_utf8 c) <= n)%nat) as [Hle|Hlt].
  - destruct (IH (n - List.length (encode_utf8 c))%nat Hw) as (w1 & w2 & cut & -> & Ht & Hcut).
    exists (c :: w1), w2, cut. split_and!; [done| |done]. rewrite take_app, take_ge, Ht, str_bytes_cons by done. by rewrite (assoc_L (++)).
  - exists [], (c :: w), (take n (encode_utf8 c)). rewrite take_app_le by lia. split_and!; [done..|].
    destruct (decide (n = 0%nat)) as [->|]; [by left|right]. exists c, w, (drop n (encode_utf8 c)).
    split_and!; [done|by rewrite take_drop|..]; intros E; apply (f_equal List.length) in E;
      rewrite ?length_take, ?length_drop in E; cbn in E; lia.
Qed.

Lemma cut_tail w n : valid_str w = true ->
  exists w1 w2 cut, w = w1 ++ w2 /\ drop n (str_bytes w) = cut ++ str_bytes w2
    /\ (cut = [] \/ exists c w0 more, w1 = w0 ++ [c] /\ encode_utf8 c = more ++ cut /\ more <> []).
Proof.
  revert n. induction w as [|c w IH]; intros n Hw; [exists [], [], []; split_and!; [done|by destruct n|by left]|].
  unfold valid_str in Hw. cbn [forallb] in Hw. apply andb_true_iff in Hw as [Hc Hw]. rewrite str_bytes_cons.
  destruct (decide (List.length (encode_utf8 c) <= n)%nat) as [Hle|Hlt].
  - destruct (IH (n - List.length (encode_utf8 c))%nat Hw) as (w1 & w2 & cut & -> & Ht & Hcut).
    exists (c :: w1), w2, cut. split_and!; [done|by rewrite drop_app_ge|]. destruct Hcut as [|(d & w0 & more & -> & H)]; [by left|].
    right. by exists d, (c :: w0), more.
  - destruct (decide (n = 0%nat)) as [->|Hn].
    + exists [], (c :: w), []. split_and!; [done..|by left].
    + exists [c], w, (drop n (encode_utf8 c)). rewrite drop_app_le by lia. split_and!; [done..|]. right.
      exists c, [], (take n (encode_utf8 c)). split_and!; [done|by rewrite take_drop|].
      intros E. apply (f_equal List.length) in E. rewrite length_take in E. cbn in E. lia.
Qed.

(** All but the first byte of a char's encoding continue it. *)
Lemma encode_cont c b more : valid_char c = true -> encode_utf8 c = b :: more -> Forall (fun x => is_cont x = true) more.
Proof.
  intros Hc%valid_char_iff E. unfold encode_utf8 in E.
  pose proof (base64_step c) as [E1 B1]. pose proof (base64_step (c / 64)) as [E2 B2].
  pose proof (base64_step (c / 4096)) as [E3 B3].
  destruct (Z.ltb_spec c 128); [|destruct (Z.ltb_spec c 2048); [|destruct (Z.ltb_spec c 65536)]];
    injection E as <- <-; repeat constructor; unfold is_cont; lia.
Qed.

Lemma cont_refused b more : is_cont b = true -> is_ok (from_utf8 (b :: more)) = false.
Proof.
  unfold is_cont, from_utf8. intros H. cbn -[Z.mul Z.add]. repeat (case_match; try done); exfalso; lia.
Qed.

Lemma cut_end_refused cut more c : valid_char c = true -> encode_utf8 c = cut ++ more -> cut <> [] -> more <> [] ->
  is_ok (from_utf8 cut) = false.
Proof. intros Hc E H1 H2. by destruct (cut_refused cut (cut_sequence c cut more Hc E H1 H2)) as (_ & ? & _). Qed.

Lemma head_loop_spec w1 cut : valid_str w1 = true ->
  (forall k, (0 < k <= List.length cut)%nat -> is_ok (from_utf8 (take k cut)) = false) ->
  forall k, (k <= List.length cut)%nat -> head_loop (str_bytes w1 ++ cut) (List.length (str_bytes w1) + k) = w1.
Proof.
  intros Hw Hcut. induction k as [|k IH]; intros Hk.
  - rewrite Nat.add_0_r. destruct (List.length (str_bytes w1)) as [|n] eqn:E; [symmetry; apply str_len_zero; unfold str_len, len; lia|].
    cbn [head_loop]. rewrite <- E, take_app_length, from_utf8_str_bytes by done. done.
  - rewrite Nat.add_succ_r. cbn [head_loop].
    rewrite take_app_ge by lia. replace (S (List.length (str_bytes w1) + k) - List.length (str_bytes w1))%nat with (S k) by lia.
    pose proof (Hcut (S k) ltac:(lia)) as H. rewrite <- (from_utf8_app w1) in H by done.
    destruct (from_utf8 _); [done|]. apply IH. lia.
Qed.

Lemma complete_head w n : valid_str w = true ->
  exists w2 cut, w = complete_utf8_head (take n (str_bytes w)) ++ w2
    /\ take n (str_bytes w) = str_bytes (complete_utf8_head (take n (str_bytes w))) ++ cut
    /\ (cut = [] \/ exists c w3 more, w2 = c :: w3 /\ encode_utf8 c = cut ++ more /\ cut <> [] /\ more <> []).
Proof.
  intros Hw. destruct (cut_head w n Hw) as (w1 & w2 & cut & -> & E & Hcut). rewrite valid_str_app in Hw.
  apply andb_true_iff in Hw as [Hw1 Hw2].
  assert (complete_utf8_head (take n (str_bytes (w1 ++ w2))) = w1) as ->.
  { rewrite E. unfold complete_utf8_head. rewrite length_app. apply head_loop_spec; [done| |done]. intros k Hk.
    destruct Hcut as [->|(c & w3 & more & -> & Ec & Hne & Hm)]; [cbn in Hk; lia|].
    unfold valid_str in Hw2. cbn [forallb] in Hw2. apply andb_true_iff in Hw2 as [Hc _].
    apply (cut_end_refused _ (drop k cut ++ more) c); [done|by rewrite (assoc_L (++)), take_drop|..].
    - intros E0. apply (f_equal List.length) in E0. rewrite length_take in E0. cbn in E0. lia.
    - by intros [_ ?]%app_nil. }
  by exists w2, cut.
Qed.

Lemma tail_loop_spec w cut : valid_str w = true -> Forall (fun x => is_cont x = true) cut ->
  forall count start, (start <= List.length cut)%nat ->
  tail_loop (cut ++ str_bytes w) (seq start count)
  = if (List.length cut <? start + count)%nat then w else [].
Proof.
  intros Hw Hcut. induction count as [|count IH]; intros start Hs; cbn [seq tail_loop].
  - destruct (Nat.ltb_spec (List.length cut) (start + 0)); [lia|done].
  - destruct (decide (start = List.length cut)) as [->|Hne].
    + rewrite drop_app_length, from_utf8_str_bytes by done. destruct (Nat.ltb_spec (List.length cut) (List.length cut + S count)); [done|lia].
    + rewrite drop_app_le by lia. destruct (drop start cut) as [|b more] eqn:Ed.
      { apply (f_equal List.length) in Ed. rewrite length_drop in Ed. cbn in Ed. lia. }
      pose proof (cont_refused b (more ++ str_bytes w)) as H. cbn [app].
      destruct (from_utf8 (b :: more ++ str_bytes w)) eqn:Eu.
      * exfalso. apply (Forall_drop _ start) in Hcut. rewrite Ed in Hcut. apply list.Forall_cons in Hcut as [Hb _]. by specialize (H Hb).
      * rewrite IH by lia. by replace (start + S count)%nat with (S start + count)%nat by lia.
Qed.

Lemma complete_tail w n : valid_str w = true -> exists w1, w = w1 ++ complete_utf8_tail (drop n (str_bytes w)).
Proof.
  intros Hw. destruct (cut_tail w n Hw) as (w1 & w2 & cut & -> & E & Hcut). rewrite valid_str_app in Hw.
  apply andb_true_iff in Hw as [Hw1 Hw2].
  assert (Forall (fun x => is_cont x = true) cut /\ (List.length cut <= 3)%nat) as [Hc Hl].
  { destruct Hcut as [->|(c & w0 & more & -> & Ec & Hm)]; [split; [constructor|cbn; lia]|].
    rewrite valid_str_app in Hw1. apply andb_true_iff in Hw1 as [_ Hc]. unfold valid_str in Hc. cbn in Hc. rewrite andb_true_r in Hc.
    destruct more as [|b more]; [done|]. split.
    - pose proof (encode_cont c b (more ++ cut) Hc Ec) as H. by apply Forall_app in H as [_ H].
    - pose proof (len_encode_utf8 c) as H. pose proof (len_utf8_bounds c). rewrite Ec in H. unfold len in H. cbn in H.
      rewrite length_app in H. lia. }
  assert (complete_utf8_tail (drop n (str_bytes (w1 ++ w2))) = w2) as ->; [|by exists w1].
  rewrite E. unfold complete_utf8_tail. rewrite tail_loop_spec by (done || lia). rewrite length_app.
  destruct (Nat.ltb_spec (List.length cut) (0 + Nat.min (List.length cut + List.length (str_bytes w2)) 4)) as [|Hge]; [done|].
  assert (List.length (str_bytes w2) = 0)%nat as H0 by lia. symmetry. apply str_len_zero. unfold str_len, len. lia.
Qed.

(** ** Facts: line endings *)

Lemma crlf_bytes s : valid_str s = true -> crlf (str_bytes s) = crlf s.
Proof.
  induction s as [|c s IH]; intros Hs; [done|]. unfold valid_str in Hs. cbn [forallb] in Hs. apply andb_true_iff in Hs as [Hc Hs].
  rewrite str_bytes_cons, crlf_app, IH by done.
  assert (crlf (encode_utf8 c) = false) as ->.
  { destruct (encode_utf8 c) as [|b more] eqn:E; [done|]. pose proof (encode_cont c b more Hc E) as H. clear -H.
    revert b. induction H as [|x more Hx _ IH]; intros b; [done|]. change (crlf (b :: x :: more)) with (((b =? 13) && (x =? 10)) || crlf (x :: more)).
    rewrite IH. unfold is_cont in Hx. lia. }
  assert (bool_decide (list.last (encode_utf8 c) = Some 13) = (c =? 13)) as ->.
  { destruct (Z.eqb_spec c 13) as [->|Hne]; [done|]. apply bool_decide_eq_false_2. intros Hl%last_Some_elem_of%list_elem_of_In.
    apply Hne, (encode_utf8_ascii 13 c); [lia|done]. }
  destruct s as [|d s]; [cbn; by rewrite andb_false_r|].
  change (crlf (c :: d :: s)) with (((c =? 13) && (d =? 10)) || crlf (d :: s)). f_equal. cbn [orb]. f_equal.
  unfold valid_str in Hs. cbn [forallb] in Hs. apply andb_true_iff in Hs as [Hd _]. apply valid_char_iff in Hd.
  rewrite str_bytes_cons. destruct (Z.eqb_spec d 10) as [->|Hne]; [done|]. apply bool_decide_eq_false_2.
  destruct (encode_utf8 d) as [|b more] eqn:E; [pose proof (len_encode_utf8 d) as H; pose proof (len_utf8_bounds d); rewrite E, len_nil in H; lia|].
  cbn. intros [= ->]. apply Hne, (encode_utf8_ascii 10 d); [lia|]. rewrite E. by left.
Qed.

(** A carriage return at the cut is the only thing that is seen from both sides. *)
Lemma replace_crlf_app a b :
  replace_crlf (a ++ b)
  = (if bool_decide (list.last a = Some 13) && bool_decide (head b = Some 10) then replace_crlf (removelast a) else replace_crlf a)
    ++ replace_crlf b.
Proof.
  induction a as [|c a IH]; [done|]. destruct a as [|d a].
  - change (list.last [c]) with (Some c). rewrite some_eqb. change (removelast [c]) with (@nil Z). cbn [app replace_crlf].
    rewrite !andb_false_r. destruct b as [|e b]; [cbn; by destruct (c =? 13)|].
    change (head (e :: b)) with (Some e). rewrite some_eqb. by destruct ((c =? 13) && (e =? 10)).
  - change (list.last (c :: d :: a)) with (list.last (d :: a)).
    change ((c :: d :: a) ++ b) with (c :: (d :: a) ++ b). change (removelast (c :: d :: a)) with (c :: removelast (d :: a)).
    assert (forall rest, replace_crlf (c :: rest) = if (c =? 13) && match rest with e :: _ => e =? 10 | [] => false end
      then replace_crlf rest else c :: replace_crlf rest) as Hc by done.
    rewrite !Hc, IH. cbn [app]. destruct (bool_decide (list.last (d :: a) = Some 13) && _) eqn:Ecut.
    + apply andb_true_iff in Ecut as [El _]. apply bool_decide_eq_true in El.
      destruct a as [|f a].
      * injection El as ->. by destruct (c =? 13).
      * change (removelast (d :: f :: a)) with (d :: removelast (f :: a)). by destruct ((c =? 13) && (d =? 10)).
    + by destruct ((c =? 13) && (d =? 10)).
Qed.

Lemma last_replace a : list.last a = Some 13 -> replace_crlf a = replace_crlf (removelast a) ++ [13].
Proof.
  destruct a as [|c a _] using rev_ind; [done|]. rewrite last_snoc. intros [= ->]. rewrite removelast_last, replace_crlf_app.
  change (head [13]) with (Some 13). rewrite some_eqb. by rewrite andb_false_r.
Qed.

Lemma last_replaced a : list.last (replace_crlf a) = list.last a.
Proof.
  destruct a as [|c a _] using rev_ind; [done|]. rewrite replace_crlf_app, !last_snoc. change (replace_crlf [c]) with (if (c =? 13) && false then [] else [c]).
  rewrite andb_false_r. by rewrite last_snoc.
Qed.

(** What is cut off the start of a text, normalized, ends the normalized text; and so for
    the end, when the byte behind it is looked at. *)
Lemma normalize_suffix w1 w2 normalized : exists first, normalize (w1 ++ w2) normalized = first ++ normalize w2 normalized.
Proof. destruct normalized; cbn; [|by exists w1]. rewrite replace_crlf_app. by eexists. Qed.

Lemma normalize_prefix w1 w2 normalized next :
  (next = Some 10 <-> head w2 = Some 10) ->
  exists last, normalize (w1 ++ w2) normalized = normalize_head w1 next normalized ++ last.
Proof.
  intros Hnext. unfold normalize_head. destruct normalized; cbn [normalize andb]; [|by exists w2].
  rewrite replace_crlf_app, last_replaced.
  rewrite (bool_decide_ext (head w2 = Some 10) (next = Some 10)) by tauto.
  destruct (bool_decide_reflect (list.last w1 = Some 13)) as [Hl|]; cbn [andb]; [|by eexists].
  case_bool_decide as Hn; [|by eexists]. rewrite (last_replace w1 Hl), length_app. cbn [length].
  replace (pred (List.length (replace_crlf (removelast w1)) + 1)) with (List.length (replace_crlf (removelast w1))) by lia.
  rewrite take_app_length. apply Hnext in Hn. destruct w2 as [|d w2]; [done|]. injection Hn as ->.
  exists (replace_crlf w2). rewrite <- (assoc_L (++)). done.
Qed.

(** *** What is shown *)

(** The beginning and the end of the text, with the separator between them. *)
Definition ends_of (text : str) (limit : Z) (shown : str) : Prop :=
  exists first middle last more, text = first ++ middle /\ text = more ++ last
    /\ shown = first ++ ([10] ++ L "..." ++ [10]) ++ last /\ str_len shown <= limit.

Lemma excerpt_spec text head tail limit head_rest tail_rest :
  8 <= limit -> text = head ++ head_rest -> text = tail_rest ++ tail -> ends_of text limit (excerpt head tail limit).
Proof.
  intros Hl Hh Ht. unfold excerpt. replace (saturating_sub limit 5) with (limit - 5) by (unfold saturating_sub; lia). cbv zeta.
  assert (0 <= (limit - 5) / 2 <= limit - 5) as Hhalf by (Z.to_euclidean_division_equations; lia).
  destruct (floor_char_boundary_spec head ((limit - 5) / 2) ltac:(lia)) as (Bh & Rh & _).
  set (head_end := floor_char_boundary head _) in *.
  set (from := saturating_sub (str_len tail) (limit - 5 - head_end)).
  assert (0 <= from) by (unfold from, saturating_sub; lia).
  destruct (ceil_char_boundary_spec tail from ltac:(lia)) as (Bt & Rt & _).
  set (tail_start := ceil_char_boundary tail _) in *.
  destruct (boundary_cut _ _ Bh) as [Eh Lh]. destruct (boundary_cut _ _ Bt) as [Et Lt].
  exists (str_take head_end head), (str_drop head_end head ++ head_rest), (str_drop tail_start tail), (tail_rest ++ str_take tail_start tail).
  split_and!; [by rewrite (assoc_L (++)), <- Eh|by rewrite <- (assoc_L (++)), <- Et|done|].
  rewrite !str_len_app, Lh. change (str_len [10] + (str_len (L "...") + str_len [10])) with 5.
  assert (str_len tail = tail_start + str_len (str_drop tail_start tail)) as Hs by (rewrite Et at 1; rewrite str_len_app, Lt; done).
  unfold from, saturating_sub in *. lia.
Qed.

(** The projection of a whole stream. *)
Definition projects (b : bytes) (limit : Z) (focus : bool) (p : StreamProjection) : Prop :=
  match from_utf8 b with
  | Err _ => p = mkProjection None true false
  | Ok text => pj_normalized p = crlf text
      /\ exists reduced_text reduced, reduce_output (normalize text (crlf text)) focus = Some (reduced_text, reduced)
      /\ (reduced = false -> reduced_text = normalize text (crlf text))
      /\ ((str_len reduced_text <= limit /\ pj_reduced p = reduced /\ default [] (pj_text p) = reduced_text /\ pj_text p <> Some [])
          \/ (limit < str_len reduced_text /\ pj_reduced p = true
              /\ ((limit < 8 /\ pj_text p = None)
                  \/ (8 <= limit /\ exists shown, pj_text p = Some shown /\ ends_of reduced_text limit shown))))
  end.

Lemma replace_crlf_le s : str_len (replace_crlf s) <= str_len s.
Proof. induction s as [|c s IH]; [done|]. cbn [replace_crlf]. rewrite str_len_cons. pose proof (len_utf8_bounds c). destruct (_ && _); rewrite ?str_len_cons; lia. Qed.
Lemma replace_crlf_valid s : valid_str s = true -> valid_str (replace_crlf s) = true.
Proof.
  induction s as [|c s IH]; [done|]. unfold valid_str. cbn [forallb replace_crlf]. intros [Hc Hs]%andb_true_iff.
  destruct (_ && _); [by apply IH|]. cbn [forallb]. rewrite Hc. by apply IH.
Qed.

Lemma project_spec b limit focus : len b <= u32_max -> exists p, project b limit focus = Some p /\ projects b limit focus p.
Proof.
  intros Hl. unfold project, projects. destruct (from_utf8 b) as [text|k] eqn:E.
  2: { eexists. split; [done|]. rewrite bool_decide_eq_false_2; [done|]. by intros ->. }
  apply from_utf8_Ok in E as [Hv Hb].
  destruct (reduce_output_spec (normalize text (crlf text)) focus) as (shown & reduced & Er & _ & _ & Hsame).
  { destruct (crlf text); [by apply replace_crlf_valid|done]. }
  { assert (str_len text = len b) as Ht by (unfold str_len; by rewrite Hb). pose proof (replace_crlf_le text).
    destruct (crlf text); cbn; lia. }
  cbv zeta. rewrite Er. cbn [mbind option_bind]. eexists. split; [done|].
  destruct (Z.leb_spec (str_len shown) limit) as [Hfit|Hlong].
  - split; [done|]. exists shown, reduced. split_and!; [done..|]. left. split_and!; [done|done|by case_bool_decide; subst|].
    case_bool_decide; [done|]. cbn. congruence.
  - destruct (Z.ltb_spec limit 8) as [H8|H8]; (split; [done|]); exists shown, reduced; (split_and!; [done..|]); right;
      (split; [done|split; [done|]]); [by left|right]. split; [done|]. eexists. split; [done|].
    apply (excerpt_spec _ _ _ _ [] []); [done|by rewrite app_nil_r|done].
Qed.

(** The projection of a stream of which a sample is left. *)
Lemma project_sampled_spec all text limit head_len tail_from :
  follows all text ->
  let p := project_sampled (take head_len all) (all !! head_len) (drop tail_from all) limit text in
  pj_reduced p = true
  /\ match from_utf8 all with
     | Err _ => pj_text p = None /\ pj_normalized p = false
     | Ok w => pj_normalized p = crlf w
         /\ if limit <? 8 then pj_text p = None
            else exists shown, pj_text p = Some shown /\ ends_of (normalize w (crlf w)) limit shown
     end.
Proof.
  intros Hf. cbv zeta. unfold project_sampled. rewrite (follows_text all text Hf). destruct (from_utf8 all) as [w|] eqn:E; cbn [is_ok negb]; [|done].
  apply from_utf8_Ok in E as [Hw <-]. assert (tx_normalized text = crlf w) as -> by (rewrite <- crlf_bytes by done; apply Hf).
  destruct (Z.ltb_spec limit 8) as [|H8]; [done|]. split; [done|]. split; [done|]. eexists. split; [done|].
  destruct (complete_head w head_len Hw) as (w2 & cut & Ew & Et & Hcut). destruct (complete_tail w tail_from Hw) as (w0 & Ew0).
  set (w1 := complete_utf8_head (take head_len (str_bytes w))) in *. set (w3 := complete_utf8_tail _) in *.
  destruct (normalize_prefix w1 w2 (crlf w) (str_bytes w !! head_len)) as (more & Hmore).
  { assert (drop head_len (str_bytes w) = drop (List.length cut) (str_bytes w2)) as Hd.
    { pose proof (take_drop head_len (str_bytes w)) as H. rewrite Et in H. rewrite Ew in H at 2. rewrite str_bytes_app in H.
      rewrite <- (assoc_L (++)) in H. apply app_inv_head in H. rewrite <- H. by rewrite drop_app_length. }
    assert (str_bytes w !! head_len = str_bytes w2 !! List.length cut) as ->.
    { rewrite <- (Nat.add_0_r head_len), <- lookup_drop, Hd, lookup_drop. by rewrite Nat.add_0_r. }
    rewrite Ew, valid_str_app in Hw. apply andb_true_iff in Hw as [_ Hw2].
    destruct w2 as [|d w2]; [destruct Hcut as [->|(c & ? & ? & ? & _)]; done|]. unfold valid_str in Hw2. cbn [forallb] in Hw2.
    apply andb_true_iff in Hw2 as [Hdv _]. rewrite str_bytes_cons. change (head (d :: w2)) with (Some d).
    destruct (encode_utf8 d) as [|x enc] eqn:Ed; [pose proof (len_encode_utf8 d) as H; pose proof (len_utf8_bounds d); rewrite Ed, len_nil in H; lia|].
    destruct Hcut as [->|(c & ? & rest & [= <- <-] & Ec & Hne & Hrest)].
    - cbn. split; intros [= ->]; [|by injection Ed as <-]. f_equal. apply (encode_utf8_ascii 10 d); [lia|]. rewrite Ed. by left.
    - rewrite Ed in Ec. rewrite lookup_app_l by (rewrite Ec, length_app; destruct rest; [done|]; cbn; lia). split.
      + rewrite Ec, lookup_app_r, Nat.sub_diag by done. destruct rest as [|r rest]; [done|]. cbn. intros [= ->].
        destruct cut as [|y cut]; [done|]. injection Ec as <- ->. pose proof (encode_cont d x _ Hdv Ed) as Hc.
        apply Forall_app in Hc as [_ Hc]. apply list.Forall_cons in Hc as [Hc _]. done.
      + intros [= ->]. injection Ed as <- <-. destruct cut as [|y [|]]; [done| |]; injection Ec as <- Ec; destruct rest; done. }
  destruct (normalize_suffix w0 w3 (crlf w)) as (first & Hfirst).
  eapply (excerpt_spec _ _ _ _ more first); [done| |].
  - by rewrite <- Hmore, <- Ew.
  - by rewrite <- Hfirst, <- Ew0.
Qed.
