(* ===== verification/Process.v ===== *)
(** * Process: native processes

    crates/ash-platform/src/process.rs on a Unix target: the description of a process,
    its validation and resolution in a workspace, its standard streams and its
    environment, the launch of a single process, and the validation of a graph of processes
    that are joined by pipes, with the order in which they start.  What the operating
    system does (a file is opened, a pipe is made, a process runs) are the answers of
    [ProcessHost]; what that does to the files is among the others' moves. *)

From stdpp Require Import sorting sets relations.
From S2P Require Import Prelude Text Graph Glob Workspace NativeTree Disk Mutation Projection WorkspaceRead.

(** ** Descriptions *)

Inductive EnvironmentChange : Type := EnvSet (name value : OsString) | EnvRemove (name : OsString).

Inductive NativeProcessFileMode : Type := PmRead | PmWrite | PmAppend.
#[export] Instance NativeProcessFileMode_eq_dec : EqDecision NativeProcessFileMode.
Proof. solve_decision. Defined.

Record NativeProcessFile : Type := mkProcessFile {
  pf_id : Z; pf_path : OsString; pf_mode : NativeProcessFileMode }.

Inductive ProcessStdio : Type :=
| PsInherit | PsNull | PsPiped | PsPipe (id : Z) | PsFile (id : Z) | PsCapture (id : Z).
#[export] Instance ProcessStdio_eq_dec : EqDecision ProcessStdio.
Proof. solve_decision. Defined.

Record ProcessSpec : Type := mkProcessSpec {
  ps_executable : str;
  ps_argv : list str;
  ps_cwd : str;
  ps_environment : list EnvironmentChange;
  ps_clear_environment : bool;
  ps_stdin : ProcessStdio;
  ps_stdout : ProcessStdio;
  ps_stderr : ProcessStdio;
}.

Record NativeProcessSpec : Type := mkNativeProcessSpec {
  ns_executable : OsString;
  ns_argv : list OsString;
  ns_cwd : OsString;
  ns_environment : list EnvironmentChange;
  ns_clear_environment : bool;
  ns_files : list NativeProcessFile;
  ns_stdin : ProcessStdio;
  ns_stdout : ProcessStdio;
  ns_stderr : ProcessStdio;
}.

Record ProcessExit : Type := mkProcessExit { px_success : bool; px_code : option Z; px_signal : option Z }.

(** [std::process::Stdio]; a handle is named by the resource it was cloned from. *)
Inductive Stdio : Type :=
| SdInherit | SdNull | SdPiped | SdPipeReader (id : Z) | SdPipeWriter (id : Z) | SdFile (id : Z) | SdCapture (id : Z).

(** ** The operating system *)

(** [std::process::Command]'s changes to the environment. *)
Record CommandEnv : Type := mkCommandEnv { ce_clear : bool; ce_vars : gmap OsString (option OsString) }.

Definition env_clear (env : CommandEnv) : CommandEnv := mkCommandEnv true ∅.
Definition env_set (name value : OsString) (env : CommandEnv) : CommandEnv :=
  mkCommandEnv (ce_clear env) (<[name := Some value]> (ce_vars env)).
Definition env_remove (name : OsString) (env : CommandEnv) : CommandEnv :=
  mkCommandEnv (ce_clear env) (if ce_clear env then delete name (ce_vars env) else <[name := None]> (ce_vars env)).

Record Command : Type := mkCommand {
  cm_program : OsString; cm_args : list OsString; cm_cwd : OsString;
  cm_stdin : Stdio; cm_stdout : Stdio; cm_stderr : Stdio; cm_env : CommandEnv }.

(** [ExitStatus] on Unix, after a wait. *)
Inductive ExitStatus : Type := ExCode (code : Z) | ExSignal (signal : Z).

(** A running process: the chunks its parent reads of its standard output ([false]) and
    standard error ([true]) before and after it has waited for the process, how each
    stream ends, the answers to [wait], [kill] and the writing of bytes to its standard
    input, and the time it takes. *)
Record ProcessRun : Type := mkRun {
  run_before : list (bool * bytes);
  run_after : list (bool * bytes);
  run_end : bool -> result IoKind unit;
  run_status : result IoKind ExitStatus;
  run_kill : result IoKind unit;
  run_input : bytes -> result IoKind unit;
  run_millis : Z;
}.

(** The answers at each turn. *)
Class ProcessHost : Type := {
  host_open : nat -> OsString -> NativeProcessFileMode -> result IoKind unit;
  host_pipe : nat -> result IoKind unit;
  host_clone : nat -> result IoKind unit;
  host_spawn : nat -> Command -> result IoKind ProcessRun;
}.

Definition host_call {A} (f : nat -> result IoKind A) : op PlatformError A :=
  answer ← ask (fun _ => f);
  op_lift (map_err PL_Io answer).

(** ** Validation and resolution *)

Definition is_name_byte (byte : Z) : bool := is_ascii_alphanumeric byte || (byte =? 95).

Definition validate_change (change : EnvironmentChange) : result PlatformError unit :=
  let '(name, value) := match change with EnvSet name value => (name, Some value) | EnvRemove name => (name, None) end in
  if negb (is_ok (from_utf8 name)) then Err PL_InvalidEnvironment
  else
    match name with
    | first :: rest =>
        if negb (is_ascii_alphabetic first || (first =? 95)) || negb (forallb is_name_byte rest)
           || from_option (fun value => bool_decide (0 ∈ value)) false value
        then Err PL_InvalidEnvironment else Ok tt
    | [] => Err PL_InvalidEnvironment
    end.

Fixpoint validate_changes (changes : list EnvironmentChange) : result PlatformError unit :=
  match changes with
  | [] => Ok tt
  | change :: changes => _ ← validate_change change; validate_changes changes
  end.

Definition validate_process_spec (spec : ProcessSpec) : result PlatformError unit :=
  if bool_decide (0 ∈ ps_executable spec) || existsb (fun argument => bool_decide (0 ∈ argument)) (ps_argv spec)
  then Err PL_InvalidLogicalPath else validate_changes (ps_environment spec).

Definition resolve_process_spec (spec : ProcessSpec) : op PlatformError NativeProcessSpec :=
  _ ← op_lift (validate_process_spec spec);
  cwd ← resolve_existing (ps_cwd spec);
  executable ←
    (if bool_decide (47 ∈ ps_executable spec) then path ← resolve_existing (ps_executable spec); mret (rp_native path)
     else if bool_decide (92 ∈ ps_executable spec) || bool_decide (58 ∈ ps_executable spec)
             || bool_decide (ps_executable spec = [])
     then op_fail PL_InvalidLogicalPath else mret (str_bytes (ps_executable spec)));
  mret (mkNativeProcessSpec executable (str_bytes <$> ps_argv spec) (rp_native cwd) (ps_environment spec)
          (ps_clear_environment spec) [] (ps_stdin spec) (ps_stdout spec) (ps_stderr spec)).

(** The mode under which the plan opens a file. *)
Fixpoint file_modes (files : list NativeProcessFile) (modes : gmap Z NativeProcessFileMode)
    : result PlatformError (gmap Z NativeProcessFileMode) :=
  match files with
  | [] => Ok modes
  | file :: files =>
      match modes !! pf_id file with
      | Some _ => Err PL_InvalidProcessRedirection
      | None => file_modes files (<[pf_id file := pf_mode file]> modes)
      end
  end.

Definition output_allowed (modes : gmap Z NativeProcessFileMode) (endpoint : ProcessStdio) : bool :=
  match endpoint with
  | PsFile id => match modes !! id with Some (PmWrite | PmAppend) => true | _ => false end
  | _ => true
  end.

Definition validate_process_redirections (spec : NativeProcessSpec) : result PlatformError unit :=
  modes ← file_modes (ns_files spec) ∅;
  _ ← match ns_stdin spec with
      | PsFile id => if bool_decide (modes !! id = Some PmRead) then Ok tt else Err PL_InvalidProcessRedirection
      | PsCapture _ => Err PL_InvalidProcessRedirection
      | _ => Ok tt
      end;
  if output_allowed modes (ns_stdout spec) && output_allowed modes (ns_stderr spec)
  then Ok tt else Err PL_InvalidProcessRedirection.

(** ** Standard streams *)

Definition standalone_stdio (endpoint : ProcessStdio) : result PlatformError Stdio :=
  match endpoint with
  | PsInherit => Ok SdInherit
  | PsNull => Ok SdNull
  | PsPiped => Ok SdPiped
  | PsPipe _ => Err PL_InvalidProcessGraph
  | PsFile _ | PsCapture _ => Err PL_InvalidProcessRedirection
  end.

Section host.
Context `{host : ProcessHost}.

(** The open files and the capture pipes, by their identifiers. *)
Record PreparedProcessStdio : Type := mkPrepared { pp_files : gset Z; pp_captures : gset Z }.

Fixpoint open_files (files : list NativeProcessFile) (opened : gset Z) : op PlatformError (gset Z) :=
  match files with
  | [] => mret opened
  | file :: files =>
      answer ← ask (fun _ turn => host_open turn (pf_path file) (pf_mode file));
      _ ← op_lift (map_err (PL_ProcessRedirection (pf_path file)) answer);
      open_files files ({[pf_id file]} ∪ opened)
  end.

Fixpoint open_captures (endpoints : list ProcessStdio) (captures : gset Z) : op PlatformError (gset Z) :=
  match endpoints with
  | [] => mret captures
  | PsCapture id :: endpoints =>
      if bool_decide (id ∈ captures) then open_captures endpoints captures
      else
        _ ← host_call host_pipe;
        open_captures endpoints ({[id]} ∪ captures)
  | _ :: endpoints => open_captures endpoints captures
  end.

Definition with_files (spec : NativeProcessSpec) (files : gset Z) : op PlatformError PreparedProcessStdio :=
  captures ← open_captures [ns_stdout spec; ns_stderr spec] ∅;
  mret (mkPrepared files captures).

Definition is_pipe (endpoint : ProcessStdio) : bool := match endpoint with PsPipe _ => true | _ => false end.

Definition PreparedProcessStdio_new (spec : NativeProcessSpec) : op PlatformError PreparedProcessStdio :=
  _ ← op_lift (validate_process_redirections spec);
  if existsb is_pipe [ns_stdin spec; ns_stdout spec; ns_stderr spec] then op_fail PL_InvalidProcessGraph
  else
    files ← open_files (ns_files spec) ∅;
    with_files spec files.

(** A clone of a handle that is there. *)
Definition cloned (there : bool) (missing : PlatformError) (stdio : Stdio) : op PlatformError Stdio :=
  if there then _ ← host_call host_clone; mret stdio else op_fail missing.

Definition file_stdio (prepared : PreparedProcessStdio) (id : Z) : op PlatformError Stdio :=
  cloned (bool_decide (id ∈ pp_files prepared)) PL_InvalidProcessRedirection (SdFile id).

Definition input_stdio (prepared : PreparedProcessStdio) (endpoint : ProcessStdio) (pipes : gset Z) : op PlatformError Stdio :=
  match endpoint with
  | PsPipe id => cloned (bool_decide (id ∈ pipes)) PL_InvalidProcessGraph (SdPipeReader id)
  | PsFile id => file_stdio prepared id
  | PsCapture _ => op_fail PL_InvalidProcessRedirection
  | endpoint => op_lift (standalone_stdio endpoint)
  end.

Definition output_stdio (prepared : PreparedProcessStdio) (endpoint : ProcessStdio) (pipes : gset Z) : op PlatformError Stdio :=
  match endpoint with
  | PsPipe id => cloned (bool_decide (id ∈ pipes)) PL_InvalidProcessGraph (SdPipeWriter id)
  | PsFile id => file_stdio prepared id
  | PsCapture id => cloned (bool_decide (id ∈ pp_captures prepared)) PL_InvalidProcessRedirection (SdCapture id)
  | endpoint => op_lift (standalone_stdio endpoint)
  end.

(** ** Launching *)

Definition apply_change (env : CommandEnv) (change : EnvironmentChange) : CommandEnv :=
  match change with EnvSet name value => env_set name value env | EnvRemove name => env_remove name env end.

Definition command_env (spec : NativeProcessSpec) : CommandEnv :=
  let env := mkCommandEnv false ∅ in
  foldl apply_change (if ns_clear_environment spec then env_clear env else env) (ns_environment spec).

Record ProcessHandle : Type := mkHandle { ph_child : ProcessRun; ph_captures : gset Z }.

Definition spawn_native_with_stdio (spec : NativeProcessSpec) (stdin stdout stderr : Stdio) (captures : gset Z)
    : op PlatformError ProcessHandle :=
  let command := mkCommand (ns_executable spec) (ns_argv spec) (ns_cwd spec) stdin stdout stderr (command_env spec) in
  child ← host_call (fun turn => host_spawn turn command);
  mret (mkHandle child captures).

Definition spawn_native (spec : NativeProcessSpec) : op PlatformError ProcessHandle :=
  prepared ← PreparedProcessStdio_new spec;
  stdin ← input_stdio prepared (ns_stdin spec) ∅;
  stdout ← output_stdio prepared (ns_stdout spec) ∅;
  stderr ← output_stdio prepared (ns_stderr spec) ∅;
  spawn_native_with_stdio spec stdin stdout stderr (pp_captures prepared).

Definition workspace_spawn (spec : ProcessSpec) : op PlatformError ProcessHandle :=
  native ← resolve_process_spec spec;
  spawn_native native.

End host.

(** ** Waiting and termination *)

Definition normalize_exit (status : ExitStatus) : ProcessExit :=
  match status with
  | ExCode code => mkProcessExit (code =? 0) (Some code) None
  | ExSignal signal => mkProcessExit false None (Some signal)
  end.

(** [wait] and [terminate]: a process that is gone was terminated. *)
Definition process_wait (run : ProcessRun) : result PlatformError ProcessExit :=
  map_err PL_Io (normalize_exit <$> run_status run).

Definition process_terminate (run : ProcessRun) : result PlatformError unit :=
  match run_kill run with
  | Ok _ | Err (InvalidInput | NotFound) => Ok tt
  | Err kind => Err (PL_Io kind)
  end.

(** ** Graphs of processes: pipes *)

Inductive PipeEnd : Type := EndReader (id : Z) | EndWriter (id : Z).

(** The end of a pipe by which a process, a marker or the parent owns it. *)
Record PipeUsage : Type := mkUsage {
  us_reader : option nat; us_writer : option nat;
  us_reader_closed : bool; us_writer_closed : bool;
  us_reader_parent : bool; us_writer_parent : bool }.
Definition PipeUsage_default : PipeUsage := mkUsage None None false false false false.

Record ProcessGraph : Type := mkGraph {
  gr_pipe_ids : list Z; gr_parent_readers : list Z; gr_parent_writers : list Z; gr_spawn_order : list nat }.

Definition usage_of (id : Z) (usages : gmap Z PipeUsage) : PipeUsage := default PipeUsage_default (usages !! id).

Definition use_reader (index : nat) (endpoint : ProcessStdio) (usages : gmap Z PipeUsage)
    : result PlatformError (gmap Z PipeUsage) :=
  match endpoint with
  | PsPipe id =>
      let u := usage_of id usages in
      if bool_decide (us_reader u = None)
      then Ok (<[id := mkUsage (Some index) (us_writer u) (us_reader_closed u) (us_writer_closed u)
                         (us_reader_parent u) (us_writer_parent u)]> usages)
      else Err PL_InvalidProcessGraph
  | _ => Ok usages
  end.

Definition use_writer (index : nat) (endpoint : ProcessStdio) (usages : gmap Z PipeUsage)
    : result PlatformError (gmap Z PipeUsage) :=
  match endpoint with
  | PsPipe id =>
      let u := usage_of id usages in
      if from_option (fun writer => negb (writer =? index)%nat) false (us_writer u) then Err PL_InvalidProcessGraph
      else Ok (<[id := mkUsage (us_reader u) (Some index) (us_reader_closed u) (us_writer_closed u)
                         (us_reader_parent u) (us_writer_parent u)]> usages)
  | _ => Ok usages
  end.

Definition use_process (index : nat) (spec : NativeProcessSpec) (usages : gmap Z PipeUsage)
    : result PlatformError (gmap Z PipeUsage) :=
  usages ← use_reader index (ns_stdin spec) usages;
  usages ← use_writer index (ns_stdout spec) usages;
  use_writer index (ns_stderr spec) usages.

(** The loop over the processes from position [index] on. *)
Fixpoint use_processes (index : nat) (specs : list NativeProcessSpec) (usages : gmap Z PipeUsage)
    : result PlatformError (gmap Z PipeUsage) :=
  match specs with
  | [] => Ok usages
  | spec :: specs =>
      usages ← use_process index spec usages;
      use_processes (S index) specs usages
  end.

Definition close_end (closed : PipeEnd) (usages : gmap Z PipeUsage) : result PlatformError (gmap Z PipeUsage) :=
  match closed with
  | EndReader id =>
      let u := usage_of id usages in
      if negb (bool_decide (us_reader u = None)) || us_reader_closed u then Err PL_InvalidProcessGraph
      else Ok (<[id := mkUsage (us_reader u) (us_writer u) true (us_writer_closed u) (us_reader_parent u) (us_writer_parent u)]> usages)
  | EndWriter id =>
      let u := usage_of id usages in
      if negb (bool_decide (us_writer u = None)) || us_writer_closed u then Err PL_InvalidProcessGraph
      else Ok (<[id := mkUsage (us_reader u) (us_writer u) (us_reader_closed u) true (us_reader_parent u) (us_writer_parent u)]> usages)
  end.

Definition give_end (parent : PipeEnd) (usages : gmap Z PipeUsage) : result PlatformError (gmap Z PipeUsage) :=
  match parent with
  | EndReader id =>
      let u := usage_of id usages in
      if negb (bool_decide (us_reader u = None)) || us_reader_closed u || us_reader_parent u then Err PL_InvalidProcessGraph
      else Ok (<[id := mkUsage (us_reader u) (us_writer u) (us_reader_closed u) (us_writer_closed u) true (us_writer_parent u)]> usages)
  | EndWriter id =>
      let u := usage_of id usages in
      if negb (bool_decide (us_writer u = None)) || us_writer_closed u || us_writer_parent u then Err PL_InvalidProcessGraph
      else Ok (<[id := mkUsage (us_reader u) (us_writer u) (us_reader_closed u) (us_writer_closed u) (us_reader_parent u) true]> usages)
  end.

Fixpoint each_end (f : PipeEnd -> gmap Z PipeUsage -> result PlatformError (gmap Z PipeUsage)) (ends : list PipeEnd)
    (usages : gmap Z PipeUsage) : result PlatformError (gmap Z PipeUsage) :=
  match ends with
  | [] => Ok usages
  | end_ :: ends => usages ← f end_ usages; each_end f ends usages
  end.

(** The keys of the map in their order. *)
Definition pipe_ids (usages : gmap Z PipeUsage) : list Z := merge_sort Z.le (map_to_list usages).*1.

(** ** Graphs of processes: the order of the starts *)

Definition ends_count (process : option nat) (closed parent : bool) : nat :=
  (if process then 1 else 0) + (if closed then 1 else 0) + (if parent then 1 else 0).

(** The loop over the usages: the processes that read what each writes, and how many each
    reads. *)
Fixpoint link_pipes (usages : gmap Z PipeUsage) (ids : list Z) (outgoing : list (list nat)) (incoming : list nat)
    : result PlatformError (list (list nat) * list nat) :=
  match ids with
  | [] => Ok (outgoing, incoming)
  | id :: ids =>
      let u := usage_of id usages in
      if negb (ends_count (us_reader u) (us_reader_closed u) (us_reader_parent u) =? 1)%nat
         || negb (ends_count (us_writer u) (us_writer_closed u) (us_writer_parent u) =? 1)%nat
      then Err PL_InvalidProcessGraph
      else
        match us_writer u, us_reader u with
        | Some writer, Some reader =>
            if (writer =? reader)%nat then Err PL_InvalidProcessGraph
            else link_pipes usages ids (alter (fun l => l ++ [reader]) writer outgoing) (alter S reader incoming)
        | _, _ => link_pipes usages ids outgoing incoming
        end
  end.

(** One turn of the loop over [&outgoing[index]]. *)
Definition feed (st : list nat * list nat) (next : nat) : result PlatformError (list nat * list nat) :=
  let '(incoming, ready) := st in
  match incoming !! next with
  | Some (S count) => Ok (<[next := count]> incoming, if (count =? 0)%nat then ready ++ [next] else ready)
  | _ => Err PL_InvalidProcessGraph
  end.
Fixpoint feed_all (nexts : list nat) (st : list nat * list nat) : result PlatformError (list nat * list nat) :=
  match nexts with
  | [] => Ok st
  | next :: nexts => st ← feed st next; feed_all nexts st
  end.

(** The [while let Some(index) = ready.pop_front()] loop; a turn for each process is enough. *)
Fixpoint spawn_loop (fuel : nat) (outgoing : list (list nat)) (ready incoming order : list nat)
    : result PlatformError (list nat) :=
  match ready, fuel with
  | [], _ => Ok order
  | _ :: _, O => Err PL_InvalidProcessGraph
  | index :: ready, S fuel =>
      '(incoming, ready) ← feed_all (default [] (outgoing !! index)) (incoming, ready);
      spawn_loop fuel outgoing ready incoming (order ++ [index])
  end.

Definition validate_process_graph_with_parent_pipe_ends (specs : list NativeProcessSpec) (closed_ends parent_ends : list PipeEnd)
    : result PlatformError ProcessGraph :=
  usages ← use_processes 0 specs ∅;
  usages ← each_end close_end closed_ends usages;
  usages ← each_end give_end parent_ends usages;
  let ids := pipe_ids usages in
  '(outgoing, incoming) ← link_pipes usages ids (replicate (length specs) []) (replicate (length specs) 0%nat);
  order ← spawn_loop (length specs) outgoing (zero_positions incoming) incoming [];
  if negb (length order =? length specs)%nat then Err PL_InvalidProcessGraph
  else Ok (mkGraph ids (filter (fun id => us_reader_parent (usage_of id usages) = true) ids)
             (filter (fun id => us_writer_parent (usage_of id usages) = true) ids) order).

(** ** Facts: the environment *)

(** What a child sees of the environment its parent inherited. *)
Definition child_environment (inherited : gmap OsString OsString) (env : CommandEnv) : gmap OsString OsString :=
  merge (fun change old => match change with Some value => value | None => old end)
    (ce_vars env) (if ce_clear env then ∅ else inherited).

(** A change, as the documentation of [Command] has it. *)
Definition change_environment (vars : gmap OsString OsString) (change : EnvironmentChange) : gmap OsString OsString :=
  match change with EnvSet name value => <[name := value]> vars | EnvRemove name => delete name vars end.

Lemma child_environment_change inherited env change :
  child_environment inherited (apply_change env change) = change_environment (child_environment inherited env) change.
Proof.
  apply map_eq. intros name. unfold child_environment, apply_change, change_environment.
  destruct change as [n value|n]; unfold env_set, env_remove; destruct (ce_clear env); cbn [ce_clear ce_vars];
    rewrite !lookup_merge; (destruct (decide (name = n)) as [->|Hne];
      [rewrite ?lookup_insert_eq, ?lookup_delete_eq, ?lookup_empty|rewrite ?lookup_insert_ne, ?lookup_delete_ne, ?lookup_merge by done]).
  all: rewrite ?lookup_empty; unfold diag_None; repeat case_match; simplify_eq; try done.
Qed.

Lemma command_env_spec inherited spec :
  child_environment inherited (command_env spec)
  = foldl change_environment (if ns_clear_environment spec then ∅ else inherited) (ns_environment spec).
Proof.
  unfold command_env. set (base := if ns_clear_environment spec then env_clear (mkCommandEnv false ∅) else mkCommandEnv false ∅).
  assert (child_environment inherited base = if ns_clear_environment spec then ∅ else inherited) as <-.
  { apply map_eq. intros name. unfold child_environment, base. rewrite lookup_merge.
    destruct (ns_clear_environment spec); cbn; rewrite lookup_empty; unfold diag_None; by destruct (_ !! name). }
  clearbody base. revert base. induction (ns_environment spec) as [|change changes IH]; intros base; [done|].
  cbn. by rewrite IH, child_environment_change.
Qed.

(** ** Facts: what is launched *)

Section launch.
Context `{host : ProcessHost} (su : Surroundings) (R : Progress -> Progress -> Prop) `{passage : !Passage su R}.

(** A computation that only lets the others act. *)
Definition passing {E A} (m : op E A) : Prop := forall st, R st (m su st).2.

Lemma passing_bind {E A B} (m : op E A) (k : A -> op E B) : passing m -> (forall a, passing (k a)) -> passing (m ≫= k).
Proof.
  intros Hm Hk st. specialize (Hm st). unfold mbind, op_bind. destruct (m su st) as [[a|e|] st1]; [|done..].
  etrans; [exact Hm|apply Hk].
Qed.
Lemma passing_ret {E A} (a : A) : passing (mret a : op E A).
Proof. intros st. reflexivity. Qed.
Lemma passing_lift {E A} (r : result E A) : passing (op_lift r).
Proof. intros st. destruct r; reflexivity. Qed.
Lemma passing_fail {E A} (e : E) : passing (op_fail e : op E A).
Proof. intros st. reflexivity. Qed.
Lemma passing_ask {E A} (answer : Surroundings -> nat -> A) : passing (ask answer : op E A).
Proof. intros st. apply passage_others. Qed.

Lemma passing_done {E A} (m : op E A) st a st' : passing m -> m su st = (Done a, st') -> R st st'.
Proof. intros Hm H. specialize (Hm st). by rewrite H in Hm. Qed.

Create HintDb passing.
Hint Resolve passing_ret passing_lift passing_fail passing_ask : passing.
Ltac pass := repeat match goal with
  | |- forall _, _ => intro
  | |- passing (_ ≫= _) => apply passing_bind
  | |- passing (if ?b then _ else _) => destruct b
  | |- passing (match ?x with _ => _ end) => destruct x
  | |- passing _ => solve [eauto with passing]
  end.

Lemma passing_host {A} (f : nat -> result IoKind A) : passing (host_call f).
Proof. unfold host_call. pass. Qed.
Hint Resolve passing_host : passing.

Lemma passing_files files : forall opened, passing (open_files files opened).
Proof. induction files as [|file files IH]; intros opened; cbn [open_files]; pass. Qed.
Lemma passing_captures endpoints : forall captures, passing (open_captures endpoints captures).
Proof. induction endpoints as [|[] endpoints IH]; intros captures; cbn [open_captures]; pass. Qed.
Hint Resolve passing_files passing_captures : passing.

Lemma passing_prepared spec : passing (PreparedProcessStdio_new spec).
Proof. unfold PreparedProcessStdio_new, with_files. pass. Qed.
Lemma passing_input prepared endpoint pipes : passing (input_stdio prepared endpoint pipes).
Proof. unfold input_stdio, file_stdio, cloned. pass. Qed.
Lemma passing_output prepared endpoint pipes : passing (output_stdio prepared endpoint pipes).
Proof. unfold output_stdio, file_stdio, cloned. pass. Qed.
Hint Resolve passing_prepared passing_input passing_output : passing.

(** A program that is named by a path is confined to the workspace like the directory it
    runs in; any other name is left to the search of the operating system. *)
Definition program_of (st st' : Progress) (name : str) (program : OsString) : Prop :=
  if bool_decide (47 ∈ name) then confined su R st st' (joined_path (su_root su) name) program else program = str_bytes name.

(** The command that was made of the specification between the two states. *)
Definition command_of (st st' : Progress) (spec : ProcessSpec) (stdin stdout stderr : Stdio) (command : Command) : Prop :=
  validate_process_spec spec = Ok tt
  /\ program_of st st' (ps_executable spec) (cm_program command)
  /\ cm_args command = str_bytes <$> ps_argv spec
  /\ confined su R st st' (joined_path (su_root su) (ps_cwd spec)) (cm_cwd command)
  /\ (cm_stdin command, cm_stdout command, cm_stderr command) = (stdin, stdout, stderr)
  /\ forall inherited, child_environment inherited (cm_env command)
       = foldl change_environment (if ps_clear_environment spec then ∅ else inherited) (ps_environment spec).

Lemma program_within st1 st2 st3 st4 name program :
  R st1 st2 -> program_of st2 st3 name program -> R st3 st4 -> program_of st1 st4 name program.
Proof. unfold program_of. intros H1 H H2. destruct (bool_decide _); [within H|done]. Qed.

Lemma command_within st1 st2 st3 st4 spec stdin stdout stderr command :
  R st1 st2 -> command_of st2 st3 spec stdin stdout stderr command -> R st3 st4 -> command_of st1 st4 spec stdin stdout stderr command.
Proof.
  intros H1 (Hv & Hp & Ha & Hc & H) H2. split; [done|]. split; [by eapply program_within|]. split; [done|]. split; [within Hc|done].
Qed.

Lemma resolve_process_spec_done spec st native st' :
  resolve_process_spec spec su st = (Done native, st') ->
  R st st' /\ validate_process_spec spec = Ok tt /\ program_of st st' (ps_executable spec) (ns_executable native)
  /\ confined su R st st' (joined_path (su_root su) (ps_cwd spec)) (ns_cwd native)
  /\ exists executable cwd, native = mkNativeProcessSpec executable (str_bytes <$> ps_argv spec) cwd (ps_environment spec)
       (ps_clear_environment spec) [] (ps_stdin spec) (ps_stdout spec) (ps_stderr spec).
Proof.
  intros H. unfold resolve_process_spec in H. apply op_bind_done in H as ([] & s1 & [Hv ->]%op_lift_done & H).
  apply op_bind_done in H as (cwd & s2 & Hc & H). apply (resolve_existing_confined su R) in Hc as (R1 & _ & _ & _ & Hc).
  apply op_bind_done in H as (executable & s3 & He & H). injection H as <- <-. cbn.
  assert (R s2 s3 /\ program_of s2 s3 (ps_executable spec) executable) as [R2 Hp].
  { unfold program_of. destruct (bool_decide (47 ∈ ps_executable spec)).
    - apply op_bind_done in He as (path & s4 & Hp & He). injection He as <- <-.
      by apply (resolve_existing_confined su R) in Hp as (R2 & _ & _ & _ & Hp).
    - destruct (_ || _); [done|]. injection He as <- <-. split; [reflexivity|done]. }
  split; [by etrans|]. split_and!; [done|by eapply program_within|within Hc|by eexists _, _].
Qed.

(** The standard streams a process may have on its own. *)
Lemma workspace_spawn_done spec stdin stdout stderr st handle st' :
  standalone_stdio (ps_stdin spec) = Ok stdin -> standalone_stdio (ps_stdout spec) = Ok stdout ->
  standalone_stdio (ps_stderr spec) = Ok stderr -> workspace_spawn spec su st = (Done handle, st') ->
  exists now command, R st now /\ R now st' /\ host_spawn (pg_turn now) command = Ok (ph_child handle)
    /\ command_of st now spec stdin stdout stderr command.
Proof.
  intros Hi Ho He H. unfold workspace_spawn in H. apply op_bind_done in H as (native & s1 & Hn & H).
  apply resolve_process_spec_done in Hn as (R1 & H1 & H2 & H3 & executable & cwd & ->).
  unfold spawn_native in H. apply op_bind_done in H as (prepared & s2 & Hp & H). cbn in H, H2, H3.
  apply (passing_done _ _ _ _ (passing_prepared _)) in Hp.
  assert (forall endpoint stdio set s r s', standalone_stdio endpoint = Ok stdio ->
    input_stdio prepared endpoint set su s = (Done r, s') -> r = stdio /\ R s s') as Hin.
  { intros endpoint stdio set s r s' Hs Hr. split; [|by eapply passing_done; [apply passing_input|exact Hr]].
    destruct endpoint; try done; apply op_lift_done in Hr as [Hr _]; congruence. }
  assert (forall endpoint stdio set s r s', standalone_stdio endpoint = Ok stdio ->
    output_stdio prepared endpoint set su s = (Done r, s') -> r = stdio /\ R s s') as Hout.
  { intros endpoint stdio set s r s' Hs Hr. split; [|by eapply passing_done; [apply passing_output|exact Hr]].
    destruct endpoint; try done; apply op_lift_done in Hr as [Hr _]; congruence. }
  apply op_bind_done in H as (i & s3 & Hr & H). apply (Hin _ _ _ _ _ _ Hi) in Hr as [-> R3].
  apply op_bind_done in H as (o & s4 & Hr & H). apply (Hout _ _ _ _ _ _ Ho) in Hr as [-> R4].
  apply op_bind_done in H as (e & s5 & Hr & H). apply (Hout _ _ _ _ _ _ He) in Hr as [-> R5].
  unfold spawn_native_with_stdio in H. apply op_bind_done in H as (child & s6 & Hs & H). injection H as <- <-.
  pose proof (passing_done _ _ _ _ (passing_host _) Hs) as R6.
  unfold host_call in Hs. apply op_bind_done in Hs as (answer & s7 & Ha & [Hs ->]%op_lift_done). injection Ha as <- <-.
  apply map_err_ok in Hs. eexists s5, _. split; [passes|]. split; [done|]. split; [exact Hs|].
  split; [done|]. split; [eapply program_within; [reflexivity|exact H2|passes]|]. split; [done|].
  split; [within H3|]. split; [done|]. intros inherited. by apply command_env_spec.
Qed.
End launch.

(** ** Facts: who owns the ends of the pipes *)

(** The processes, from position [index] on, that read and that write a pipe. *)
Fixpoint readers_from (index : nat) (specs : list NativeProcessSpec) (id : Z) : list nat :=
  match specs with
  | [] => []
  | spec :: specs => (if decide (ns_stdin spec = PsPipe id) then [index] else []) ++ readers_from (S index) specs id
  end.
Fixpoint writers_from (index : nat) (specs : list NativeProcessSpec) (id : Z) : list nat :=
  match specs with
  | [] => []
  | spec :: specs =>
      (if decide (ns_stdout spec = PsPipe id \/ ns_stderr spec = PsPipe id) then [index] else []) ++ writers_from (S index) specs id
  end.

#[export] Instance PipeEnd_eq_dec : EqDecision PipeEnd.
Proof. solve_decision. Defined.

Definition marked (end_ : PipeEnd) (ends : list PipeEnd) : nat := length (filter (eq end_) ends).

(** The usage that the processes and the markers make of a pipe. *)
Definition owned (rs ws : list nat) (closed given : list PipeEnd) (id : Z) : PipeUsage :=
  mkUsage (head rs) (head ws) (bool_decide (EndReader id ∈ closed)) (bool_decide (EndWriter id ∈ closed))
    (bool_decide (EndReader id ∈ given)) (bool_decide (EndWriter id ∈ given)).

Definition used (rs ws : list nat) (closed given : list PipeEnd) (id : Z) : Prop :=
  rs <> [] \/ ws <> [] \/ EndReader id ∈ closed ++ given \/ EndWriter id ∈ closed ++ given.

Definition readers_count (rs : list nat) (closed given : list PipeEnd) (id : Z) : nat :=
  length rs + marked (EndReader id) closed + marked (EndReader id) given.
Definition writers_count (ws : list nat) (closed given : list PipeEnd) (id : Z) : nat :=
  length ws + marked (EndWriter id) closed + marked (EndWriter id) given.

(** The map holds what processes [R] and [W] and the markers make of each pipe, and no end
    has two owners. *)
Record tracks (R W : Z -> list nat) (closed given : list PipeEnd) (usages : gmap Z PipeUsage) : Prop := mkTracks {
  tr_usage : forall id, usage_of id usages = owned (R id) (W id) closed given id;
  tr_named : forall id, is_Some (usages !! id) <-> used (R id) (W id) closed given id;
  tr_readers : forall id, (readers_count (R id) closed given id <= 1)%nat;
  tr_writers : forall id, (writers_count (W id) closed given id <= 1)%nat;
}.

(** Some end has more than one owner. *)
Definition overused (R W : Z -> list nat) (closed given : list PipeEnd) : Prop :=
  exists id, (1 < readers_count (R id) closed given id)%nat \/ (1 < writers_count (W id) closed given id)%nat.

Definition joined (R : Z -> list nat) (index : nat) (P : Z -> Prop) `{forall id, Decision (P id)} (id : Z) : list nat :=
  R id ++ (if decide (P id) then [index] else []).

Lemma marked_zero end_ ends : marked end_ ends = O <-> end_ ∉ ends.
Proof.
  unfold marked.
  induction ends as [|e ends IH]; [split; [set_solver|done]|]. destruct (decide (end_ = e)) as [->|Hne].
  - rewrite list.filter_cons_True by done. split; [done|set_solver].
  - rewrite list.filter_cons_False by done. rewrite IH. set_solver.
Qed.
Lemma marked_app end_ a b : marked end_ (a ++ b) = (marked end_ a + marked end_ b)%nat.
Proof. unfold marked. by rewrite list.filter_app, length_app. Qed.
Lemma marked_one end_ e : marked end_ [e] = if decide (end_ = e) then 1%nat else O.
Proof. unfold marked. rewrite list.filter_cons. by destruct (decide (end_ = e)). Qed.

(** What another pipe's usage does not change. *)
Definition alike (R W R' W' : Z -> list nat) (closed given closed' given' : list PipeEnd) (id : Z) : Prop :=
  R' id = R id /\ W' id = W id
  /\ (forall end_, end_ = EndReader id \/ end_ = EndWriter id ->
        marked end_ closed' = marked end_ closed /\ marked end_ given' = marked end_ given).

Lemma marked_elem end_ ends : bool_decide (end_ ∈ ends) = negb (marked end_ ends =? 0)%nat.
Proof.
  destruct (Nat.eqb_spec (marked end_ ends) 0) as [H|H]; cbn.
  - apply bool_decide_eq_false. by apply marked_zero.
  - apply bool_decide_eq_true. destruct (decide (end_ ∈ ends)); [done|]. by apply marked_zero in n.
Qed.

Lemma alike_owned R W R' W' closed given closed' given' id :
  alike R W R' W' closed given closed' given' id ->
  owned (R' id) (W' id) closed' given' id = owned (R id) (W id) closed given id
  /\ (used (R' id) (W' id) closed' given' id <-> used (R id) (W id) closed given id)
  /\ readers_count (R' id) closed' given' id = readers_count (R id) closed given id
  /\ writers_count (W' id) closed' given' id = writers_count (W id) closed given id.
Proof.
  intros (HR & HW & Hm). destruct (Hm (EndReader id) ltac:(by left)) as [Hr1 Hr2], (Hm (EndWriter id) ltac:(by right)) as [Hw1 Hw2].
  unfold owned, readers_count, writers_count. rewrite HR, HW, !marked_elem, Hr1, Hr2, Hw1, Hw2. split_and!; [done| |done|done].
  unfold used. rewrite !elem_of_app.
  assert (forall end_ ends ends', marked end_ ends' = marked end_ ends -> end_ ∈ ends' <-> end_ ∈ ends) as Hiff.
  { intros e a b Hab. rewrite <- (bool_decide_spec (e ∈ b)), <- (bool_decide_spec (e ∈ a)), !marked_elem, Hab. done. }
  by rewrite (Hiff _ _ _ Hr1), (Hiff _ _ _ Hr2), (Hiff _ _ _ Hw1), (Hiff _ _ _ Hw2).
Qed.

Lemma tracks_insert R W R' W' closed given closed' given' usages id u :
  tracks R W closed given usages ->
  (forall id', id' <> id -> alike R W R' W' closed given closed' given' id') ->
  u = owned (R' id) (W' id) closed' given' id -> used (R' id) (W' id) closed' given' id ->
  (readers_count (R' id) closed' given' id <= 1)%nat -> (writers_count (W' id) closed' given' id <= 1)%nat ->
  tracks R' W' closed' given' (<[id := u]> usages).
Proof.
  intros [H1 H2 H3 H4] Ha -> Hu Hr Hw.
  split; intros id'; (destruct (decide (id' = id)) as [->|Hne]; [|destruct (alike_owned _ _ _ _ _ _ _ _ _ (Ha id' Hne)) as (A1 & A2 & A3 & A4)]).
  - unfold usage_of. by rewrite lookup_insert_eq.
  - unfold usage_of. rewrite lookup_insert_ne by done. rewrite A1. apply H1.
  - rewrite lookup_insert_eq. split; [done|by eexists].
  - rewrite lookup_insert_ne, A2 by done. apply H2.
  - done.
  - by rewrite A3.
  - done.
  - by rewrite A4.
Qed.

Lemma tracks_same R W R' W' closed given usages :
  tracks R W closed given usages -> (forall id, R' id = R id /\ W' id = W id) -> tracks R' W' closed given usages.
Proof.
  intros [H1 H2 H3 H4] H. split; intros id; destruct (H id) as [HR HW]; rewrite ?HR, ?HW; [apply H1|apply H2|apply H3|apply H4].
Qed.

Lemma joined_ne R index (P : Z -> Prop) `{forall id, Decision (P id)} id : ~ P id -> joined R index P id = R id.
Proof. intros HP. unfold joined. by rewrite decide_False, app_nil_r. Qed.

Lemma use_reader_spec R W index endpoint usages :
  tracks R W [] [] usages ->
  let R' := joined R index (fun id => endpoint = PsPipe id) in
  match use_reader index endpoint usages with
  | Ok usages' => tracks R' W [] [] usages'
  | Err e => e = PL_InvalidProcessGraph /\ overused R' W [] []
  end.
Proof.
  intros H R'. assert (forall id, endpoint <> PsPipe id -> R' id = R id) as HR by (intros; by apply joined_ne).
  destruct endpoint as [| | |id| |]; cbn [use_reader]; try (eapply tracks_same; [exact H|]; intros id'; by rewrite HR).
  cbv zeta. rewrite (tr_usage _ _ _ _ _ H). cbn [us_reader owned]. pose proof (tr_readers _ _ _ _ _ H id) as Hle.
  assert (R' id = R id ++ [index]) as Hid by (unfold R', joined; by rewrite decide_True).
  case_bool_decide as Hz.
  - assert (R id = []) as Hnil by (by destruct (R id)). eapply tracks_insert; [exact H| | | | |apply H].
    + intros id' Hne. split_and!; [apply HR; congruence|done|done].
    + rewrite Hid, Hnil. done.
    + left. rewrite Hid. by destruct (R id).
    + rewrite Hid, Hnil. unfold readers_count. cbn. lia.
  - split; [done|]. exists id. left. rewrite Hid. unfold readers_count. rewrite length_app. destruct (R id); [done|cbn; lia].
Qed.

Lemma use_writer_spec R W index (P : Z -> Prop) `{forall id, Decision (P id)} endpoint usages :
  (forall id, index ∉ W id) -> tracks R (joined W index P) [] [] usages ->
  let W' := joined W index (fun id => P id \/ endpoint = PsPipe id) in
  match use_writer index endpoint usages with
  | Ok usages' => tracks R W' [] [] usages'
  | Err e => e = PL_InvalidProcessGraph /\ overused R W' [] []
  end.
Proof.
  intros Hi Ht W'.
  assert (forall id, endpoint <> PsPipe id -> W' id = joined W index P id) as HW.
  { intros id Hne. unfold W', joined. f_equal. by apply decide_ext; tauto. }
  destruct endpoint as [| | |id| |]; cbn [use_writer]; try (eapply tracks_same; [exact Ht|]; intros id'; by rewrite HW).
  cbv zeta. rewrite (tr_usage _ _ _ _ _ Ht). cbn [us_writer owned].
  assert (W' id = W id ++ [index]) as Hid by (unfold W', joined; by rewrite decide_True by (by right)).
  destruct (W id) as [|w ws] eqn:Ew.
  - assert (from_option (fun writer => negb (writer =? index)%nat) false (head (joined W index P id)) = false) as ->.
    { unfold joined. rewrite Ew. cbn. destruct (decide (P id)); [cbn; by rewrite Nat.eqb_refl|done]. }
    eapply tracks_insert; [exact Ht| | | |apply Ht|].
    + intros id' Hne. split_and!; [done|apply HW; congruence|done].
    + unfold owned. by rewrite Hid.
    + right. left. by rewrite Hid.
    + rewrite Hid. unfold writers_count. cbn. lia.
  - assert (joined W index P id = w :: ws ++ (if decide (P id) then [index] else [])) as -> by (unfold joined; by rewrite Ew).
    assert (w <> index) as Hw by (intros ->; apply (Hi id); rewrite Ew; by left).
    cbn. rewrite (proj2 (Nat.eqb_neq w index) Hw). cbn. split; [done|]. exists id. right. rewrite Hid. unfold writers_count. cbn. rewrite length_app. cbn. lia.
Qed.

Lemma overused_mono R R' W W' closed closed' given given' :
  (forall id, (length (R id) <= length (R' id))%nat) -> (forall id, (length (W id) <= length (W' id))%nat) ->
  (forall end_, (marked end_ closed <= marked end_ closed')%nat /\ (marked end_ given <= marked end_ given')%nat) ->
  overused R W closed given -> overused R' W' closed' given'.
Proof.
  intros HR HW Hm (id & Ho). exists id. specialize (HR id). specialize (HW id). destruct (Hm (EndReader id)), (Hm (EndWriter id)).
  unfold readers_count, writers_count in *. lia.
Qed.

(** One process. *)
Lemma use_process_spec R W index spec usages :
  (forall id, index ∉ W id) -> tracks R W [] [] usages ->
  let R' := joined R index (fun id => ns_stdin spec = PsPipe id) in
  let W' := joined W index (fun id => ns_stdout spec = PsPipe id \/ ns_stderr spec = PsPipe id) in
  match use_process index spec usages with
  | Ok usages' => tracks R' W' [] [] usages'
  | Err e => e = PL_InvalidProcessGraph /\ overused R' W' [] []
  end.
Proof.
  intros Hi Ht R' W'. unfold use_process.
  pose proof (use_reader_spec R W index (ns_stdin spec) usages Ht) as H1. cbv zeta in H1.
  destruct (use_reader index (ns_stdin spec) usages) as [u1|e]; cbn [mbind result_bind].
  2: { destruct H1 as [-> H1]. split; [done|]. eapply overused_mono; [| | |exact H1]; [done| |done]. intros id. unfold W', joined. rewrite length_app. lia. }
  pose proof (use_writer_spec R' W index (fun _ => False) (ns_stdout spec) u1 Hi) as H2. cbv zeta in H2.
  destruct (use_writer index (ns_stdout spec) u1) as [u2|e]; cbn [mbind result_bind].
  2: { destruct H2 as [-> H2]; [|split; [done|]].
    - eapply tracks_same; [exact H1|]. intros id. split; [done|]. apply joined_ne. intros [].
    - eapply overused_mono; [| | |exact H2]; [done| |done]. intros id. unfold W', joined. rewrite !length_app. repeat case_decide; cbn; tauto || lia. }
  pose proof (use_writer_spec R' W index (fun id => False \/ ns_stdout spec = PsPipe id) (ns_stderr spec) u2 Hi) as H3. cbv zeta in H3.
  assert (forall id, joined W index (fun id => (False \/ ns_stdout spec = PsPipe id) \/ ns_stderr spec = PsPipe id) id = W' id) as HW.
  { intros id. unfold W', joined. f_equal. by apply decide_ext; tauto. }
  assert (tracks R' (joined W index (fun id => False \/ ns_stdout spec = PsPipe id)) [] [] u2) as H2'.
  { apply H2. eapply tracks_same; [exact H1|]. intros id. split; [done|]. apply joined_ne. intros []. }
  specialize (H3 H2'). destruct (use_writer index (ns_stderr spec) u2) as [u3|e].
  - eapply tracks_same; [exact H3|]. intros id. split; [done|]. by rewrite HW.
  - destruct H3 as [-> H3]. split; [done|]. eapply overused_mono; [| | |exact H3]; [done| |done]. intros id. by rewrite HW.
Qed.

Lemma readers_app (R : Z -> list nat) index spec specs id :
  joined R index (fun id => ns_stdin spec = PsPipe id) id ++ readers_from (S index) specs id = R id ++ readers_from index (spec :: specs) id.
Proof. unfold joined. cbn. by rewrite <- (assoc_L (++)). Qed.
Lemma writers_app (W : Z -> list nat) index spec specs id :
  joined W index (fun id => ns_stdout spec = PsPipe id \/ ns_stderr spec = PsPipe id) id ++ writers_from (S index) specs id
  = W id ++ writers_from index (spec :: specs) id.
Proof. unfold joined. cbn. by rewrite <- (assoc_L (++)). Qed.

Lemma use_processes_spec specs : forall index R W usages,
  (forall id i, i ∈ W id -> (i < index)%nat) -> tracks R W [] [] usages ->
  let R' id := R id ++ readers_from index specs id in
  let W' id := W id ++ writers_from index specs id in
  match use_processes index specs usages with
  | Ok usages' => tracks R' W' [] [] usages'
  | Err e => e = PL_InvalidProcessGraph /\ overused R' W' [] []
  end.
Proof.
  induction specs as [|spec specs IH]; intros index R W usages Hlt Ht R' W'; cbn [use_processes].
  { eapply tracks_same; [exact Ht|]. intros id. unfold R', W'. cbn. by rewrite !app_nil_r. }
  assert (forall id, index ∉ W id) as Hi by (intros id Hin%Hlt; lia).
  pose proof (use_process_spec R W index spec usages Hi Ht) as H. cbv zeta in H.
  destruct (use_process index spec usages) as [u|e]; cbn [mbind result_bind].
  - pose proof (IH (S index) (joined R index (fun id => ns_stdin spec = PsPipe id))
      (joined W index (fun id => ns_stdout spec = PsPipe id \/ ns_stderr spec = PsPipe id)) u) as Hrest. cbv zeta in Hrest.
    destruct (use_processes (S index) specs u) as [u'|e'].
    + eapply tracks_same; [apply Hrest; [|exact H]|intros id; unfold R', W'; by rewrite readers_app, writers_app].
      intros id i Hin. unfold joined in Hin. apply elem_of_app in Hin as [Hin%Hlt|Hin]; [lia|]. case_decide; set_solver by lia.
    + destruct Hrest as [-> Ho]; [|exact H|split; [done|]].
      * intros id i Hin. unfold joined in Hin. apply elem_of_app in Hin as [Hin%Hlt|Hin]; [lia|]. case_decide; set_solver by lia.
      * eapply overused_mono; [| | |exact Ho]; [intros id; unfold R'; by rewrite readers_app|intros id; unfold W'; by rewrite writers_app|done].
  - destruct H as [-> Ho]. split; [done|]. eapply overused_mono; [| | |exact Ho]; [intros id..|done]; unfold R', W';
      rewrite <- ?readers_app, <- ?writers_app, length_app; lia.
Qed.

Lemma marked_head (rs : list nat) end_ ends :
  (length rs + marked end_ ends <= 1)%nat ->
  negb (bool_decide (head rs = None)) || bool_decide (end_ ∈ ends) = negb (length rs + marked end_ ends =? 0)%nat.
Proof. intros H. rewrite marked_elem. destruct rs; cbn; [by destruct (marked end_ ends)|done]. Qed.

Lemma marked_snoc end_ ends e : marked end_ (ends ++ [e]) = (marked end_ ends + if decide (end_ = e) then 1 else 0)%nat.
Proof. rewrite marked_app, marked_one. done. Qed.

Lemma close_end_spec R W closed end_ usages :
  tracks R W closed [] usages ->
  match close_end end_ usages with
  | Ok usages' => tracks R W (closed ++ [end_]) [] usages'
  | Err e => e = PL_InvalidProcessGraph /\ overused R W (closed ++ [end_]) []
  end.
Proof.
  intros H. assert (forall id e, e = EndReader id \/ e = EndWriter id -> end_ <> e -> marked e (closed ++ [end_]) = marked e closed) as Hm.
  { intros id e _ Hne. rewrite marked_snoc, decide_False by congruence. lia. }
  destruct end_ as [id|id]; cbn [close_end]; cbv zeta; rewrite (tr_usage _ _ _ _ _ H); cbn [us_reader us_writer us_reader_closed us_writer_closed owned].
  - pose proof (tr_readers _ _ _ _ _ H id) as Hle. unfold readers_count in Hle. change (marked (EndReader id) []) with O in Hle.
    rewrite marked_head by lia. destruct (Nat.eqb_spec (length (R id) + marked (EndReader id) closed) 0) as [Hz|Hz]; cbn [negb].
    + eapply tracks_insert; [exact H| | | | |].
      * intros id' Hne. split_and!; [done..|]. intros e He. split; [|done]. apply (Hm id'); [done|]. destruct He as [-> | ->]; congruence.
      * unfold owned. f_equal; rewrite !marked_elem, marked_snoc, ?decide_True, ?decide_False by done; [rewrite Nat.add_1_r; done|by rewrite Nat.add_0_r].
      * right. right. left. set_solver.
      * unfold readers_count. rewrite marked_snoc, decide_True by done. change (marked (EndReader id) []) with O. lia.
      * pose proof (tr_writers _ _ _ _ _ H id) as Hw. unfold writers_count in *. rewrite marked_snoc, decide_False by done. lia.
    + split; [done|]. exists id. left. unfold readers_count. rewrite marked_snoc, decide_True by done. lia.
  - pose proof (tr_writers _ _ _ _ _ H id) as Hle. unfold writers_count in Hle. change (marked (EndWriter id) []) with O in Hle.
    rewrite marked_head by lia. destruct (Nat.eqb_spec (length (W id) + marked (EndWriter id) closed) 0) as [Hz|Hz]; cbn [negb].
    + eapply tracks_insert; [exact H| | | | |].
      * intros id' Hne. split_and!; [done..|]. intros e He. split; [|done]. apply (Hm id'); [done|]. destruct He as [-> | ->]; congruence.
      * unfold owned. f_equal; rewrite !marked_elem, marked_snoc, ?decide_True, ?decide_False by done; [by rewrite Nat.add_0_r|rewrite Nat.add_1_r; done].
      * right. right. right. set_solver.
      * pose proof (tr_readers _ _ _ _ _ H id) as Hr. unfold readers_count in *. rewrite marked_snoc, decide_False by done. lia.
      * unfold writers_count. rewrite marked_snoc, decide_True by done. change (marked (EndWriter id) []) with O. lia.
    + split; [done|]. exists id. right. unfold writers_count. rewrite marked_snoc, decide_True by done. lia.
Qed.

Lemma marked_head_given (rs : list nat) end_ ends given :
  (length rs + marked end_ ends + marked end_ given <= 1)%nat ->
  negb (bool_decide (head rs = None)) || bool_decide (end_ ∈ ends) || bool_decide (end_ ∈ given)
  = negb (length rs + marked end_ ends + marked end_ given =? 0)%nat.
Proof. intros H. rewrite marked_head, marked_elem by lia. destruct (length rs + marked end_ ends)%nat, (marked end_ given); done. Qed.

Lemma give_end_spec R W closed given end_ usages :
  tracks R W closed given usages ->
  match give_end end_ usages with
  | Ok usages' => tracks R W closed (given ++ [end_]) usages'
  | Err e => e = PL_InvalidProcessGraph /\ overused R W closed (given ++ [end_])
  end.
Proof.
  intros H. assert (forall id e, e = EndReader id \/ e = EndWriter id -> end_ <> e -> marked e (given ++ [end_]) = marked e given) as Hm.
  { intros id e _ Hne. rewrite marked_snoc, decide_False by congruence. lia. }
  destruct end_ as [id|id]; cbn [give_end]; cbv zeta; rewrite (tr_usage _ _ _ _ _ H);
    cbn [us_reader us_writer us_reader_closed us_writer_closed us_reader_parent us_writer_parent owned].
  - pose proof (tr_readers _ _ _ _ _ H id) as Hle. unfold readers_count in Hle.
    rewrite marked_head_given by lia. destruct (Nat.eqb_spec (length (R id) + marked (EndReader id) closed + marked (EndReader id) given) 0) as [Hz|Hz]; cbn [negb].
    + eapply tracks_insert; [exact H| | | | |].
      * intros id' Hne. split_and!; [done..|]. intros e He. split; [done|]. apply (Hm id'); [done|]. destruct He as [-> | ->]; congruence.
      * unfold owned. f_equal; rewrite !marked_elem, marked_snoc, ?decide_True, ?decide_False by done; [rewrite Nat.add_1_r; done|by rewrite Nat.add_0_r].
      * right. right. left. set_solver.
      * unfold readers_count. rewrite marked_snoc, decide_True by done. lia.
      * pose proof (tr_writers _ _ _ _ _ H id) as Hw. unfold writers_count in *. rewrite marked_snoc, decide_False by done. lia.
    + split; [done|]. exists id. left. unfold readers_count. rewrite marked_snoc, decide_True by done. lia.
  - pose proof (tr_writers _ _ _ _ _ H id) as Hle. unfold writers_count in Hle.
    rewrite marked_head_given by lia. destruct (Nat.eqb_spec (length (W id) + marked (EndWriter id) closed + marked (EndWriter id) given) 0) as [Hz|Hz]; cbn [negb].
    + eapply tracks_insert; [exact H| | | | |].
      * intros id' Hne. split_and!; [done..|]. intros e He. split; [done|]. apply (Hm id'); [done|]. destruct He as [-> | ->]; congruence.
      * unfold owned. f_equal; rewrite !marked_elem, marked_snoc, ?decide_True, ?decide_False by done; [by rewrite Nat.add_0_r|rewrite Nat.add_1_r; done].
      * right. right. right. set_solver.
      * pose proof (tr_readers _ _ _ _ _ H id) as Hr. unfold readers_count in *. rewrite marked_snoc, decide_False by done. lia.
      * unfold writers_count. rewrite marked_snoc, decide_True by done. lia.
    + split; [done|]. exists id. right. unfold writers_count. rewrite marked_snoc, decide_True by done. lia.
Qed.

(** The marks of a list, one after the other. *)
Lemma each_end_spec f (owners : list PipeEnd -> gmap Z PipeUsage -> Prop) (over : list PipeEnd -> Prop) ends :
  (forall marks end_ usages, owners marks usages ->
     match f end_ usages with
     | Ok usages' => owners (marks ++ [end_]) usages'
     | Err e => e = PL_InvalidProcessGraph /\ over (marks ++ [end_])
     end) ->
  (forall marks more, over marks -> over (marks ++ more)) ->
  forall marks usages, owners marks usages ->
  match each_end f ends usages with
  | Ok usages' => owners (marks ++ ends) usages'
  | Err e => e = PL_InvalidProcessGraph /\ over (marks ++ ends)
  end.
Proof.
  intros Hf Hover. induction ends as [|end_ ends IH]; intros marks usages H; cbn [each_end]; [by rewrite app_nil_r|].
  specialize (Hf marks end_ usages H). rewrite cons_middle, (assoc_L (++)).
  destruct (f end_ usages) as [u|e]; cbn [mbind result_bind]; [by apply IH|]. destruct Hf as [-> Hf]. by split; [|apply Hover].
Qed.

Lemma marked_more marks more end_ : (marked end_ marks <= marked end_ (marks ++ more))%nat.
Proof. rewrite marked_app. lia. Qed.

Lemma mark_ends_spec R W closed given usages :
  tracks R W [] [] usages ->
  match (usages ← each_end close_end closed usages; each_end give_end given usages) with
  | Ok usages' => tracks R W closed given usages'
  | Err e => e = PL_InvalidProcessGraph /\ overused R W closed given
  end.
Proof.
  intros H. pose proof (each_end_spec close_end (fun marks => tracks R W marks []) (fun marks => overused R W marks []) closed) as Hc.
  specialize (Hc (fun marks end_ usages => close_end_spec R W marks end_ usages)).
  pose proof (each_end_spec give_end (fun marks => tracks R W closed marks) (fun marks => overused R W closed marks) given) as Hg.
  specialize (Hg (fun marks end_ usages => give_end_spec R W closed marks end_ usages)).
  specialize (Hc ltac:(intros marks more; apply overused_mono; [done|done|by intros e; split; [apply marked_more|]]) [] usages H).
  destruct (each_end close_end closed usages) as [u|e]; cbn [mbind result_bind app] in *.
  - exact (Hg ltac:(intros marks more; apply overused_mono; [done|done|by intros e; split; [|apply marked_more]]) [] u Hc).
  - destruct Hc as [-> Hc]. split; [done|]. eapply overused_mono; [done|done| |exact Hc]. intros e. split; [done|].
    unfold marked at 1. cbn. lia.
Qed.

(** ** Facts: the pipes between processes *)

Definition edge_of (usages : gmap Z PipeUsage) (id : Z) : option (nat * nat) :=
  let u := usage_of id usages in
  match us_writer u, us_reader u with Some writer, Some reader => Some (writer, reader) | _, _ => None end.
Definition pipe_edges (usages : gmap Z PipeUsage) (ids : list Z) : list (nat * nat) := omap (edge_of usages) ids.
Definition targets (writer : nat) (es : list (nat * nat)) : list nat := (filter (fun e => e.1 = writer) es).*2.
Definition origins (reader : nat) (es : list (nat * nat)) : list nat := (filter (fun e => e.2 = reader) es).*1.

(** Each end has one owner, and they differ. *)
Definition linked (usages : gmap Z PipeUsage) (id : Z) : Prop :=
  let u := usage_of id usages in
  ends_count (us_reader u) (us_reader_closed u) (us_reader_parent u) = 1%nat
  /\ ends_count (us_writer u) (us_writer_closed u) (us_writer_parent u) = 1%nat
  /\ forall process, edge_of usages id <> Some (process, process).

Lemma link_pipes_spec usages ids : forall outgoing incoming,
  match link_pipes usages ids outgoing incoming with
  | Ok (outgoing', incoming') => Forall (linked usages) ids
      /\ (forall w, outgoing' !! w = (fun l => l ++ targets w (pipe_edges usages ids)) <$> outgoing !! w)
      /\ (forall r, incoming' !! r = (fun n => length (origins r (pipe_edges usages ids)) + n)%nat <$> incoming !! r)
  | Err e => e = PL_InvalidProcessGraph /\ ~ Forall (linked usages) ids
  end.
Proof.
  induction ids as [|id ids IH]; intros outgoing incoming; cbn [link_pipes].
  { split_and!; [constructor|intros w|intros r; by destruct (incoming !! r)]. destruct (outgoing !! w); [|done]. cbn. by rewrite app_nil_r. }
  cbv zeta. set (u := usage_of id usages).
  destruct (_ || _) eqn:Hends.
  { split; [done|]. intros [(H1 & H2 & _) _]%list.Forall_cons. fold u in H1, H2. by rewrite H1, H2 in Hends. }
  apply orb_false_iff in Hends as [Hr%negb_false_iff%Nat.eqb_eq Hw%negb_false_iff%Nat.eqb_eq].
  assert (edge_of usages id = match us_writer u, us_reader u with Some writer, Some reader => Some (writer, reader) | _, _ => None end) as Hedge by done.
  assert (forall o i, edge_of usages id = None ->
    match link_pipes usages ids o i with
    | Ok (o', i') => Forall (linked usages) (id :: ids)
        /\ (forall w, o' !! w = (fun l => l ++ targets w (pipe_edges usages (id :: ids))) <$> o !! w)
        /\ (forall r, i' !! r = (fun n => length (origins r (pipe_edges usages (id :: ids))) + n)%nat <$> i !! r)
    | Err e => e = PL_InvalidProcessGraph /\ ~ Forall (linked usages) (id :: ids)
    end) as Hnone.
  { intros o i He. specialize (IH o i). unfold pipe_edges in *. cbn [omap list_omap]. rewrite He.
    destruct (link_pipes usages ids o i) as [[o' i']|e].
    - destruct IH as (H1 & H2 & H3). split; [|done]. constructor; [|done]. split; [done|]. split; [done|]. intros p. by rewrite He.
    - destruct IH as [-> IH]. split; [done|]. by intros [_ ?]%list.Forall_cons. }
  destruct (us_writer u) as [writer|] eqn:Ew; [|by apply Hnone]. destruct (us_reader u) as [reader|] eqn:Er; [|by apply Hnone].
  destruct (Nat.eqb_spec writer reader) as [->|Hne].
  { split; [done|]. intros [(_ & _ & H) _]%list.Forall_cons. by apply (H reader). }
  specialize (IH (alter (fun l => l ++ [reader]) writer outgoing) (alter S reader incoming)).
  destruct (link_pipes usages ids _ _) as [[o' i']|e]; [|destruct IH as [-> IH]; split; [done|]; by intros [_ ?]%list.Forall_cons].
  destruct IH as (H1 & H2 & H3). assert (pipe_edges usages (id :: ids) = (writer, reader) :: pipe_edges usages ids) as ->.
  { unfold pipe_edges. cbn [omap list_omap]. by rewrite Hedge. }
  split_and!.
  - constructor; [|done]. unfold linked. fold u. rewrite Ew, Er. split; [done|]. split; [done|]. intros p. rewrite Hedge. congruence.
  - intros w. rewrite H2. unfold targets. rewrite list.filter_cons. cbn [fst]. case_decide as Hd.
    + subst w. rewrite list_lookup_alter_eq. destruct (outgoing !! writer); [|done]. cbn. by rewrite <- (assoc_L (++)).
    + by rewrite list_lookup_alter_ne.
  - intros r. rewrite H3. unfold origins. rewrite list.filter_cons. cbn [snd]. case_decide as Hd.
    + subst r. rewrite list_lookup_alter_eq. destruct (incoming !! reader); [|done]. cbn. f_equal. lia.
    + by rewrite list_lookup_alter_ne.
Qed.

(** ** Facts: what the processes wait for *)

(** Process [i] reads from a pipe that process [j] writes to. *)
Definition awaits (specs : list NativeProcessSpec) (i j : nat) : Prop :=
  exists id reader writer, specs !! i = Some reader /\ ns_stdin reader = PsPipe id
    /\ specs !! j = Some writer /\ (ns_stdout writer = PsPipe id \/ ns_stderr writer = PsPipe id).

Lemma readers_from_spec specs : forall index id i,
  i ∈ readers_from index specs id
  <-> exists k spec, i = (index + k)%nat /\ specs !! k = Some spec /\ ns_stdin spec = PsPipe id.
Proof.
  induction specs as [|spec specs IH]; intros index id i; cbn [readers_from].
  { split; [by intros ?%elem_of_nil|]. intros (k & spec & _ & Hk & _). by rewrite lookup_nil in Hk. }
  rewrite elem_of_app, IH. split.
  - intros [Hi|(k & s & -> & Hk & Hs)]; [|exists (S k), s; split; [lia|done]].
    case_decide; [|by apply elem_of_nil in Hi]. apply list_elem_of_singleton in Hi as ->. exists O, spec. split; [lia|done].
  - intros ([|k] & s & -> & Hk & Hs); cbn in Hk; [|right; exists k, s; split; [lia|done]].
    injection Hk as ->. left. rewrite decide_True by done. apply list_elem_of_singleton. lia.
Qed.
Lemma writers_from_spec specs : forall index id i,
  i ∈ writers_from index specs id
  <-> exists k spec, i = (index + k)%nat /\ specs !! k = Some spec /\ (ns_stdout spec = PsPipe id \/ ns_stderr spec = PsPipe id).
Proof.
  induction specs as [|spec specs IH]; intros index id i; cbn [writers_from].
  { split; [by intros ?%elem_of_nil|]. intros (k & spec & _ & Hk & _). by rewrite lookup_nil in Hk. }
  rewrite elem_of_app, IH. split.
  - intros [Hi|(k & s & -> & Hk & Hs)]; [|exists (S k), s; split; [lia|done]].
    case_decide; [|by apply elem_of_nil in Hi]. apply list_elem_of_singleton in Hi as ->. exists O, spec. split; [lia|done].
  - intros ([|k] & s & -> & Hk & Hs); cbn in Hk; [|right; exists k, s; split; [lia|done]].
    injection Hk as ->. left. rewrite decide_True by done. apply list_elem_of_singleton. lia.
Qed.

(** The identifiers are in order, each once. *)
Lemma pipe_ids_sorted_lt usages : Sorted.StronglySorted Z.lt (pipe_ids usages).
Proof.
  assert (NoDup (pipe_ids usages)) as Hnd by (unfold pipe_ids; rewrite merge_sort_Permutation; apply NoDup_fst_map_to_list).
  assert (Sorted.StronglySorted Z.le (pipe_ids usages)) as Hs by (unfold pipe_ids; apply StronglySorted_merge_sort; apply _).
  revert Hnd. induction Hs as [|id l _ IH Hle]; [constructor|]. intros [Hid Hnd]%list.NoDup_cons. constructor; [by apply IH|].
  rewrite list.Forall_forall in Hle |- *. intros id' Hin. specialize (Hle id' Hin).
  assert (id <> id') by (by intros ->). lia.
Qed.

Section waiting.
Context (specs : list NativeProcessSpec) (closed given : list PipeEnd) (usages : gmap Z PipeUsage).
Notation R := (readers_from 0 specs).
Notation W := (writers_from 0 specs).
Context (Htracks : tracks R W closed given usages).
Notation ids := (pipe_ids usages).
Notation es := (pipe_edges usages ids).

Lemma pipe_ids_elem id : id ∈ ids <-> used (R id) (W id) closed given id.
Proof.
  rewrite <- (tr_named _ _ _ _ _ Htracks). unfold pipe_ids. rewrite merge_sort_Permutation, list_elem_of_fmap. split.
  - intros ([id' u] & -> & H%elem_of_map_to_list). by eexists.
  - intros [u H]. exists (id, u). split; [done|]. by apply elem_of_map_to_list.
Qed.
Lemma pipe_ids_NoDup : NoDup ids.
Proof. unfold pipe_ids. rewrite merge_sort_Permutation. apply NoDup_fst_map_to_list. Qed.
(** The two processes at the ends of a pipe. *)
Lemma edge_of_spec id w r :
  edge_of usages id = Some (w, r)
  <-> exists reader writer, specs !! r = Some reader /\ ns_stdin reader = PsPipe id
        /\ specs !! w = Some writer /\ (ns_stdout writer = PsPipe id \/ ns_stderr writer = PsPipe id).
Proof.
  unfold edge_of. rewrite (tr_usage _ _ _ _ _ Htracks). cbn.
  pose proof (tr_readers _ _ _ _ _ Htracks id) as Hr. pose proof (tr_writers _ _ _ _ _ Htracks id) as Hw.
  unfold readers_count, writers_count in *.
  assert (forall i, head (R id) = Some i <-> i ∈ R id) as HR.
  { intros i. destruct (R id) as [|x [|y l]]; cbn in *; [split; [done|by intros ?%elem_of_nil]| |lia].
    rewrite list_elem_of_singleton. split; congruence. }
  assert (forall i, head (W id) = Some i <-> i ∈ W id) as HW.
  { intros i. destruct (W id) as [|x [|y l]]; cbn in *; [split; [done|by intros ?%elem_of_nil]| |lia].
    rewrite list_elem_of_singleton. split; congruence. }
  assert ((exists reader writer, specs !! r = Some reader /\ ns_stdin reader = PsPipe id
        /\ specs !! w = Some writer /\ (ns_stdout writer = PsPipe id \/ ns_stderr writer = PsPipe id))
    <-> r ∈ R id /\ w ∈ W id) as ->.
  { rewrite readers_from_spec, writers_from_spec. cbn. naive_solver. }
  rewrite <- HR, <- HW. destruct (head (W id)), (head (R id)); naive_solver.
Qed.

Lemma pipe_edges_spec w r : (w, r) ∈ es <-> awaits specs r w.
Proof.
  unfold pipe_edges. rewrite list_elem_of_omap. split.
  - intros (id & _ & (reader & writer & H)%edge_of_spec). by exists id, reader, writer.
  - intros (id & reader & writer & H1 & H2 & H3). exists id. split; [|apply edge_of_spec; by exists reader, writer].
    apply pipe_ids_elem. left. intros Hnil. assert (r ∈ R id) as Hin by (apply readers_from_spec; by exists r, reader).
    rewrite Hnil in Hin. by apply elem_of_nil in Hin.
Qed.

Lemma pipe_edges_NoDup : NoDup es.
Proof.
  assert (forall l, NoDup l -> NoDup (pipe_edges usages l)) as H; [|apply H, pipe_ids_NoDup].
  induction 1 as [|id l Hid _ IH]; [constructor|]. unfold pipe_edges in *. cbn [omap list_omap].
  destruct (edge_of usages id) as [[w r]|] eqn:He; [|exact IH]. apply list.NoDup_cons. split; [|exact IH].
  intros (id' & Hin & He')%list_elem_of_omap. apply Hid.
  apply edge_of_spec in He as (reader & _ & H1 & H2 & _), He' as (reader' & _ & H1' & H2' & _). congruence.
Qed.

Lemma targets_elem w i : i ∈ targets w es <-> awaits specs i w.
Proof.
  unfold targets. rewrite list_elem_of_fmap, <- pipe_edges_spec. split.
  - intros ([w' r] & -> & [H Hin]%list_elem_of_filter). cbn in *. by subst w'.
  - intros H. exists (w, i). split; [done|]. by apply list_elem_of_filter.
Qed.
Lemma origins_elem r j : j ∈ origins r es <-> awaits specs r j.
Proof.
  unfold origins. rewrite list_elem_of_fmap, <- pipe_edges_spec. split.
  - intros ([w r'] & -> & [H Hin]%list_elem_of_filter). cbn in *. by subst r'.
  - intros H. exists (j, r). split; [done|]. by apply list_elem_of_filter.
Qed.
Lemma targets_NoDup w : NoDup (targets w es).
Proof.
  unfold targets. apply NoDup_fmap_2_strong; [|apply list.NoDup_filter, pipe_edges_NoDup].
  intros [w1 r1] [w2 r2] [H1 _]%list_elem_of_filter [H2 _]%list_elem_of_filter H. cbn in *. congruence.
Qed.
Lemma origins_NoDup r : NoDup (origins r es).
Proof.
  unfold origins. apply NoDup_fmap_2_strong; [|apply list.NoDup_filter, pipe_edges_NoDup].
  intros [w1 r1] [w2 r2] [H1 _]%list_elem_of_filter [H2 _]%list_elem_of_filter H. cbn in *. congruence.
Qed.

(** The graph that the loop walks. *)
Definition waits_for : list (list nat) := (fun i => origins i es) <$> seq 0 (length specs).

Lemma waits_for_lookup i d : waits_for !! i = Some d <-> (i < length specs)%nat /\ d = origins i es.
Proof. unfold waits_for. rewrite list_lookup_fmap_Some. setoid_rewrite lookup_seq. cbn. naive_solver. Qed.

Lemma waits_for_depends i j : depends waits_for i j <-> awaits specs i j.
Proof.
  unfold depends. split.
  - intros (d & [_ ->]%waits_for_lookup & Hj). by apply origins_elem.
  - intros H. exists (origins i es). split; [|by apply origins_elem]. apply waits_for_lookup. split; [|done].
    destruct H as (id & reader & writer & H & _). by apply lookup_lt_Some in H.
Qed.

Lemma waits_for_ok : graph_ok waits_for.
Proof.
  apply list.Forall_lookup. intros i d [_ ->]%waits_for_lookup. split; [apply origins_NoDup|].
  apply list.Forall_forall. intros j Hj%origins_elem. unfold waits_for. rewrite length_fmap, length_seq.
  destruct Hj as (id & reader & writer & _ & _ & H & _). by apply lookup_lt_Some in H.
Qed.

Lemma waits_for_acyclic : acyclic waits_for <-> forall i, ~ tc (awaits specs) i i.
Proof.
  assert (forall R R' : nat -> nat -> Prop, (forall i j, R i j -> R' i j) -> forall i j, tc R i j -> tc R' i j) as Hmono.
  { intros R R' H i j. induction 1; [by apply tc_once, H|]. eapply tc_l; [by apply H|done]. }
  unfold acyclic. split; intros H i Hi; apply (H i); (eapply Hmono; [|exact Hi]); intros ? ?; by apply waits_for_depends.
Qed.
End waiting.

(** ** Facts: the order of the starts *)

Lemma feed_all_release l : forall incoming ready,
  NoDup l -> (forall i, i ∈ l -> exists count, incoming !! i = Some (S count)) ->
  feed_all l (incoming, ready) = Ok (foldl release (incoming, ready) l).
Proof.
  induction l as [|x l IH]; intros incoming ready Hnd Hl; [done|]. apply list.NoDup_cons in Hnd as [Hx Hnd].
  destruct (Hl x ltac:(by left)) as [count Hc]. cbn [feed_all foldl feed release]. rewrite Hc. cbn [mbind result_bind].
  assert (alter pred x incoming = <[x := count]> incoming) as Ha.
  { apply list_eq. intros i. destruct (decide (i = x)) as [->|Hne].
    - rewrite list_lookup_alter_eq, Hc, list_lookup_insert_eq; [done|by eapply lookup_lt_Some].
    - by rewrite list_lookup_alter_ne, list_lookup_insert_ne. }
  rewrite Ha, list_lookup_insert_eq by (by eapply lookup_lt_Some).
  assert (forall i, i ∈ l -> exists c, <[x := count]> incoming !! i = Some (S c)) as Hl'.
  { intros i Hi. rewrite list_lookup_insert_ne by (by intros ->). apply Hl. by right. }
  destruct (Nat.eqb_spec count 0) as [->|Hne].
  - rewrite bool_decide_eq_true_2 by done. by apply IH.
  - rewrite bool_decide_eq_false_2 by congruence. by apply IH.
Qed.

(** The loop does what [kahn] does, keeps the order, and needs no more turns than there are
    processes. *)
Lemma spawn_loop_spec deps outgoing : graph_ok deps ->
  (forall x, (x < length deps)%nat -> exists l, outgoing !! x = Some l /\ NoDup l /\ forall i, i ∈ l <-> depends deps i x) ->
  forall fuel done_ ready incoming, kahn_inv deps done_ ready incoming -> (length deps <= length done_ + fuel)%nat ->
  exists final incoming', spawn_loop fuel outgoing ready incoming done_ = Ok final /\ kahn_inv deps final [] incoming'.
Proof.
  intros Hok Hout. induction fuel as [|fuel IH]; intros done_ [|x ready] incoming Hinv Hf; [by exists done_, incoming| |by exists done_, incoming|].
  - exfalso. destruct Hinv as [Hnd Hr _ _ _]. apply nodup_range_length in Hr; [|done]. rewrite length_app in Hr. cbn in Hr. lia.
  - cbn [spawn_loop]. destruct (Hout x) as (l & Hl & Hnd & Hspec); [apply Hinv; set_solver|]. rewrite Hl. change (default [] (Some l)) with l.
    rewrite feed_all_release; [|done|intros i Hi%Hspec; by eapply release_positive]. cbn [mbind result_bind].
    destruct (foldl release (incoming, ready) l) as [incoming' ready'] eqn:E.
    eapply kahn_inv_release in E; [|done..]. apply IH; [done|]. rewrite length_app. cbn. lia.
Qed.

(** ** Facts: the graphs that are accepted *)

(** Every pipe that is named has exactly one owner of each end, among the processes, the
    closed ends and the parent. *)
Definition pipes_whole (specs : list NativeProcessSpec) (closed given : list PipeEnd) : Prop :=
  forall id, used (readers_from 0 specs id) (writers_from 0 specs id) closed given id ->
    readers_count (readers_from 0 specs id) closed given id = 1%nat
    /\ writers_count (writers_from 0 specs id) closed given id = 1%nat.

(** What is known of an accepted graph: its pipes in order, the ends the parent keeps, and
    an order in which every process comes after those it reads from. *)
Record graph_true (specs : list NativeProcessSpec) (closed given : list PipeEnd) (graph : ProcessGraph) : Prop := mkGraphTrue {
  gt_sorted : Sorted.StronglySorted Z.lt (gr_pipe_ids graph);
  gt_pipes : forall id, id ∈ gr_pipe_ids graph
    <-> used (readers_from 0 specs id) (writers_from 0 specs id) closed given id;
  gt_readers : gr_parent_readers graph = filter (fun id => EndReader id ∈ given) (gr_pipe_ids graph);
  gt_writers : gr_parent_writers graph = filter (fun id => EndWriter id ∈ given) (gr_pipe_ids graph);
  gt_once : gr_spawn_order graph ≡ₚ seq 0 (length specs);
  gt_order : forall k i j, gr_spawn_order graph !! k = Some i -> awaits specs i j -> j ∈ take k (gr_spawn_order graph);
}.

Lemma overused_used (rs ws : list nat) closed given id :
  (1 <= readers_count rs closed given id \/ 1 <= writers_count ws closed given id)%nat -> used rs ws closed given id.
Proof.
  unfold readers_count, writers_count, used. intros H. rewrite !elem_of_app.
  destruct rs as [|]; [|by left]. destruct ws; [|by right; left]. cbn in H.
  destruct (decide (EndReader id ∈ closed)) as [|H1%marked_zero]; [tauto|].
  destruct (decide (EndReader id ∈ given)) as [|H2%marked_zero]; [tauto|].
  destruct (decide (EndWriter id ∈ closed)) as [|H3%marked_zero]; [tauto|].
  destruct (decide (EndWriter id ∈ given)) as [|H4%marked_zero]; [tauto|]. lia.
Qed.

Lemma ends_count_owned (rs : list nat) end_ closed given :
  (length rs + marked end_ closed + marked end_ given <= 1)%nat ->
  ends_count (head rs) (bool_decide (end_ ∈ closed)) (bool_decide (end_ ∈ given))
  = (length rs + marked end_ closed + marked end_ given)%nat.
Proof.
  intros H. unfold ends_count. rewrite !marked_elem.
  destruct rs as [|? [|]], (marked end_ closed) as [|[|]], (marked end_ given) as [|[|]]; cbn in *; lia.
Qed.

Section accepted.
Context (specs : list NativeProcessSpec) (closed given : list PipeEnd) (usages : gmap Z PipeUsage).
Notation R := (readers_from 0 specs).
Notation W := (writers_from 0 specs).
Context (Htracks : tracks R W closed given usages).

(** The pipes are linked exactly when they are whole and no process reads what it writes. *)
Lemma linked_spec : Forall (linked usages) (pipe_ids usages) <-> pipes_whole specs closed given /\ forall i, ~ awaits specs i i.
Proof.
  rewrite list.Forall_forall. unfold linked.
  assert (forall id, ends_count (us_reader (usage_of id usages)) (us_reader_closed (usage_of id usages)) (us_reader_parent (usage_of id usages))
      = readers_count (R id) closed given id
    /\ ends_count (us_writer (usage_of id usages)) (us_writer_closed (usage_of id usages)) (us_writer_parent (usage_of id usages))
      = writers_count (W id) closed given id) as He.
  { intros id. rewrite (tr_usage _ _ _ _ _ Htracks). cbn [owned us_reader us_writer us_reader_closed us_writer_closed us_reader_parent us_writer_parent].
    split; apply ends_count_owned; apply Htracks. }
  split.
  - intros H. split.
    + intros id Hu%(pipe_ids_elem specs closed given usages Htracks). destruct (H id Hu) as (H1 & H2 & _). destruct (He id). by split; congruence.
    + intros i Hi. apply (pipe_edges_spec specs closed given usages Htracks) in Hi. apply list_elem_of_omap in Hi as (id & Hid & Hi).
      by apply (H id Hid) in Hi.
  - intros [H Hself] id Hid. destruct (He id) as [-> ->].
    destruct (H id) as [H1 H2]; [by apply (pipe_ids_elem specs closed given usages Htracks)|]. split_and!; [done..|].
    intros i Hi%(edge_of_spec specs closed given usages Htracks). apply (Hself i). by exists id.
Qed.
End accepted.

Lemma tracks_empty : tracks (fun _ => []) (fun _ => []) [] [] ∅.
Proof.
  split; intros id; [|split| |].
  - unfold usage_of. by rewrite lookup_empty.
  - rewrite lookup_empty. by intros [].
  - unfold used. cbn. set_solver.
  - unfold readers_count. cbn. lia.
  - unfold writers_count. cbn. lia.
Qed.

Lemma overused_not_whole specs closed given :
  overused (readers_from 0 specs) (writers_from 0 specs) closed given -> ~ pipes_whole specs closed given.
Proof.
  intros (id & Ho) H. destruct (H id) as [H1 H2]; [|lia]. apply overused_used. lia.
Qed.

Lemma usages_spec specs closed given :
  match (usages ← use_processes 0 specs ∅; usages ← each_end close_end closed usages; each_end give_end given usages) with
  | Ok usages => tracks (readers_from 0 specs) (writers_from 0 specs) closed given usages
  | Err e => e = PL_InvalidProcessGraph /\ ~ pipes_whole specs closed given
  end.
Proof.
  pose proof (use_processes_spec specs 0 (fun _ => []) (fun _ => []) ∅ ltac:(by intros id i ?%elem_of_nil) tracks_empty) as H.
  cbn in H. destruct (use_processes 0 specs ∅) as [u|e]; cbn [mbind result_bind].
  - pose proof (mark_ends_spec _ _ closed given u H) as Hm. destruct (mbind _ _) as [u'|e]; [exact Hm|]. destruct Hm as [-> Hm].
    split; [done|]. by apply overused_not_whole.
  - destruct H as [-> H]. split; [done|]. apply overused_not_whole. eapply overused_mono; [done|done| |exact H].
    intros end_. unfold marked. cbn. lia.
Qed.

Section ordered.
Context (specs : list NativeProcessSpec) (closed given : list PipeEnd) (usages : gmap Z PipeUsage).
Context (Htracks : tracks (readers_from 0 specs) (writers_from 0 specs) closed given usages).
Notation deps := (waits_for specs usages).

Lemma zero_counts (outgoing : list (list nat)) (incoming : list nat) n :
  length specs = n ->
  (forall w, outgoing !! w = (fun l => l ++ targets w (pipe_edges usages (pipe_ids usages))) <$> replicate n [] !! w) ->
  (forall r, incoming !! r = (fun k => length (origins r (pipe_edges usages (pipe_ids usages))) + k)%nat <$> replicate n O !! r) ->
  incoming = incoming_of deps
  /\ forall x, (x < length deps)%nat -> exists l, outgoing !! x = Some l /\ NoDup l /\ forall i, i ∈ l <-> depends deps i x.
Proof.
  intros <- Ho Hi. assert (length deps = length specs) as Hlen by (unfold waits_for; by rewrite length_fmap, length_seq). split.
  - apply list_eq. intros r. rewrite Hi. unfold incoming_of. rewrite list_lookup_fmap.
    destruct (decide (r < length specs)%nat) as [Hr|Hr].
    + rewrite lookup_replicate_2 by done. cbn. rewrite Nat.add_0_r.
      by rewrite (proj2 (waits_for_lookup specs usages r _) (conj Hr eq_refl)).
    + rewrite (proj1 (lookup_replicate_None _ _ _)) by lia. by rewrite lookup_ge_None_2 by lia.
  - intros x Hx. exists (targets x (pipe_edges usages (pipe_ids usages))). rewrite Ho, lookup_replicate_2 by lia. cbn.
    split; [done|]. split; [by eapply (targets_NoDup specs closed given)|]. intros i.
    rewrite (waits_for_depends specs closed given) by done. by eapply targets_elem.
Qed.

Lemma spawn_order_spec (outgoing : list (list nat)) (incoming : list nat) :
  (forall w, outgoing !! w = (fun l => l ++ targets w (pipe_edges usages (pipe_ids usages))) <$> replicate (length specs) [] !! w) ->
  (forall r, incoming !! r = (fun k => length (origins r (pipe_edges usages (pipe_ids usages))) + k)%nat <$> replicate (length specs) O !! r) ->
  exists order, spawn_loop (length specs) outgoing (zero_positions incoming) incoming [] = Ok order
    /\ (length order = length specs <-> forall i, ~ tc (awaits specs) i i)
    /\ (length order = length specs -> order ≡ₚ seq 0 (length specs))
    /\ forall k i j, order !! k = Some i -> awaits specs i j -> j ∈ take k order.
Proof.
  intros Ho Hi. destruct (zero_counts outgoing incoming _ eq_refl Ho Hi) as [-> Hout].
  assert (length deps = length specs) as Hlen by (unfold waits_for; by rewrite length_fmap, length_seq).
  assert (graph_ok deps) as Hok by (by eapply waits_for_ok).
  destruct (spawn_loop_spec deps outgoing Hok Hout (length specs) [] (zero_positions (incoming_of deps)) (incoming_of deps))
    as (final & incoming' & Hs & Hinv); [by apply kahn_inv_init|cbn; lia|].
  exists final. split; [exact Hs|]. split; [|split].
  - rewrite <- (waits_for_acyclic specs closed given usages Htracks), <- Hlen. by eapply kahn_final_acyclic.
  - intros Hl. destruct Hinv as [Hnd Hr _ _ _]. rewrite app_nil_r in *. rewrite Hlen in Hr.
    apply NoDup_Permutation; [done|apply NoDup_seq|]. intros i. rewrite elem_of_seq. split; [intros ?%Hr; lia|].
    intros [_ Hlt]. by apply (nodup_range_full final _ Hnd Hr Hl).
  - intros k i j Hk Hij. apply (ki_topo _ _ _ _ Hinv k i j Hk). by eapply waits_for_depends.
Qed.
End ordered.

Lemma process_graph_spec specs closed given :
  match validate_process_graph_with_parent_pipe_ends specs closed given with
  | Ok graph => pipes_whole specs closed given /\ (forall i, ~ tc (awaits specs) i i) /\ graph_true specs closed given graph
  | Err e => e = PL_InvalidProcessGraph /\ ~ (pipes_whole specs closed given /\ forall i, ~ tc (awaits specs) i i)
  end.
Proof.
  pose proof (usages_spec specs closed given) as Hu. unfold validate_process_graph_with_parent_pipe_ends.
  destruct (use_processes 0 specs ∅) as [u|e]; cbn [mbind result_bind] in *; [|destruct Hu as [-> Hu]; by split; [|intros [? _]]].
  destruct (each_end close_end closed u) as [u1|e]; cbn [mbind result_bind] in *; [|destruct Hu as [-> Hu]; by split; [|intros [? _]]].
  destruct (each_end give_end given u1) as [us|e]; cbn [mbind result_bind] in *; [|destruct Hu as [-> Hu]; by split; [|intros [? _]]].
  pose proof (linked_spec specs closed given us Hu) as Hlink.
  pose proof (link_pipes_spec us (pipe_ids us) (replicate (length specs) []) (replicate (length specs) O)) as Hl.
  destruct (link_pipes us (pipe_ids us) _ _) as [[outgoing incoming]|e]; cbn [mbind result_bind].
  2: { destruct Hl as [-> Hl]. split; [done|]. intros [H1 H2]. apply Hl, Hlink. split; [done|]. intros i Hi. by apply (H2 i), tc_once. }
  destruct Hl as (Hall & Ho & Hi). apply Hlink in Hall as [Hwhole _].
  destruct (spawn_order_spec specs closed given us Hu outgoing incoming Ho Hi) as (order & Hs & Hacy & Hperm & Htopo).
  rewrite Hs. cbn [mbind result_bind]. destruct (Nat.eqb_spec (length order) (length specs)) as [Heq|Hne]; cbn [negb].
  - split; [done|]. split; [by apply Hacy|]. split; cbn [gr_pipe_ids gr_parent_readers gr_parent_writers gr_spawn_order].
    + apply (pipe_ids_sorted_lt us).
    + by apply pipe_ids_elem.
    + apply list_filter_iff. intros id. rewrite (tr_usage _ _ _ _ _ Hu). cbn. by rewrite bool_decide_eq_true.
    + apply list_filter_iff. intros id. rewrite (tr_usage _ _ _ _ _ Hu). cbn. by rewrite bool_decide_eq_true.
    + by apply Hperm.
    + exact Htopo.
  - split; [done|]. intros [_ H]. by apply Hne, Hacy.
Qed.
