(* ===== verification/Exec.v ===== *)
(** * Exec: running a command

    The operation of crates/ash-ops/src/exec.rs over [Streams] and [Process].  A process
    answers with the chunks that its parent reads of its two streams; each chunk is taken
    in by the task of its stream at a turn of its own, between turns of the others.  The
    wait for the process ends at a turn of its own too, when the program is cancelled, its
    deadline has passed, or the process has exited, looked at in this order.  When the
    operation ends early while its tasks still read, they go on among the others. *)

From S2P Require Import Prelude Text Glob AsonModel AsonCodec AsonSound Capability Request RequestFacts.
From S2P Require Import Response ResponseFacts Budget Paths Store Capture Governor Runtime Workspace.
From S2P Require Import Disk Mutation Permits NativeTree Projection ProjectionFacts Patch WorkspaceRead.
From S2P Require Import Semantic ServiceFacts Queries Reference Process Streams.

Definition MAX_STDIN_BYTES : Z := 64 * 1024 * 1024.

(** ** Data *)

Inductive Stop : Type := StopExited (exit : ProcessExit) | StopTimedOut | StopCancelled.

(** [Capture], when its stream has ended; and the locals of the task until then. *)
Record ExecCapture : Type := mkExecCapture {
  xc_content : option CapturedContent; xc_quota_error : option StoreError; xc_text : StreamText }.
Record CaptureTask : Type := mkTask {
  tk_content : StoreCapture; tk_quota_error : option StoreError; tk_text : StreamText }.

(** How the file operations of an [append] end at a turn. *)
Class SpoolWrites : Type := { spool_append : nat -> AppendIo }.

(** ** Arguments *)

Definition stdin_bytes (source : InputSource) : op OperationError (option bytes) :=
  match source with
  | InNone => mret None
  | InInline value =>
      let b := str_bytes value in
      if MAX_STDIN_BYTES <? len b then op_fail OE_WorkLimit else mret (Some b)
  | InReference reference =>
      b ← with_lease reference (fun content => read_whole content MAX_STDIN_BYTES);
      if MAX_STDIN_BYTES <? len b then op_fail OE_WorkLimit else mret (Some b)
  end.

Definition environment_change (entry : str) : result OperationError EnvironmentChange :=
  match strip_prefix 45 entry with
  | Some name => Ok (EnvRemove (str_bytes name))
  | None =>
      match split_once 61 entry with
      | Some (name, value) => Ok (EnvSet (str_bytes name) (str_bytes value))
      | None => Err OE_WorkLimit
      end
  end.
Definition exec_environment (entries : list str) : result OperationError (list EnvironmentChange) :=
  mapM environment_change entries.

Definition exec_spec (a : ExecArgs) (stdin : option bytes) (environment : list EnvironmentChange) : ProcessSpec :=
  mkProcessSpec (ex_executable a) (ex_argv a) (ex_cwd a) environment
    (negb (Z.land (ex_flags a) EXEC_CLEAR_ENVIRONMENT =? 0))
    (match stdin with Some _ => PsPiped | None => PsNull end) PsPiped PsPiped.

(** ** Captures *)

Section captures.
Context `{spool : SpoolWrites}.

Definition on_store (f : Store.State -> Store.State) : op OperationError unit :=
  shared (fun sh => (Ok tt, with_store (f (sh_store sh)) sh)).

Definition start_task (store : nat) (limits : StoreLimits) : CaptureTask :=
  mkTask (Capture.capture store limits DEFAULT_CAPTURE_MEMORY_BYTES) None StreamText_default.

(** One turn of the loop of [capture]. *)
Definition take_chunk (chunk : bytes) (task : CaptureTask) : op OperationError CaptureTask :=
  match tk_quota_error task with
  | Some _ => mret task
  | None =>
      su ← get_surroundings;
      io ← ask (fun _ => spool_append);
      '(appended, content) ← shared (fun sh =>
        let '(appended, content, store) := Capture.append (su_store_limits su) io chunk (tk_content task) (sh_store sh) in
        (Ok (appended, content), with_store store sh));
      mret match appended with
           | Err e => mkTask content (Some e) (tk_text task)
           | Ok _ => mkTask content None (observe_text chunk (tk_text task))
           end
  end.

(** The chunks of both streams; [true] marks the standard error. *)
Fixpoint take_chunks (chunks : list (bool * bytes)) (tasks : CaptureTask * CaptureTask)
    : op OperationError (CaptureTask * CaptureTask) :=
  match chunks with
  | [] => mret tasks
  | (false, chunk) :: chunks => task ← take_chunk chunk tasks.1; take_chunks chunks (task, tasks.2)
  | (true, chunk) :: chunks => task ← take_chunk chunk tasks.2; take_chunks chunks (tasks.1, task)
  end.

(** The end of [capture]; a content that is not finished is dropped. *)
Definition end_task (ended : result IoKind unit) (task : CaptureTask) : op OperationError (result OperationError ExecCapture) :=
  let dropped {A} (r : result OperationError A) :=
    _ ← on_store (drop_reservation (cp_reservation (tk_content task)));
    mret r in
  match ended, tk_quota_error task with
  | Err _, _ => dropped (Err OE_Io)
  | Ok _, Some e => dropped (Ok (mkExecCapture None (Some e) (tk_text task)))
  | Ok _, None =>
      io ← ask su_spool;
      match finish io (tk_content task) with
      | Ok content => mret (Ok (mkExecCapture (Some content) None (tk_text task)))
      | Err e => dropped (Err (OE_Store e))
      end
  end.
End captures.

Fixpoint drop_contents (contents : list CapturedContent) : op OperationError unit :=
  match contents with
  | [] => mret tt
  | content :: contents =>
      _ ← on_store (drop_pending [cc_pending content]);
      drop_contents contents
  end.
Definition contents_of (captures : list ExecCapture) : list CapturedContent := omap xc_content captures.

(** ** Projections *)

Definition project_capture (capture : ExecCapture) (limit : Z) (focus_errors : bool) : result OperationError StreamProjection :=
  content ← ok_or (xc_content capture) (OE_Store SE_Invariant);
  match view content with
  | Complete data => ok_or (project data limit focus_errors) OE_Task
  | Sampled head head_next tail => Ok (project_sampled head head_next tail limit (xc_text capture))
  end.

Definition project_captures (stdout stderr : ExecCapture) (stdout_budget stderr_budget : Z) (focus_errors : bool)
    : result OperationError (StreamProjection * StreamProjection) :=
  out ← project_capture stdout stdout_budget focus_errors;
  err ← project_capture stderr stderr_budget focus_errors;
  Ok (out, err).

(** [CapturedContent::is_empty]. *)
Definition content_empty (content : CapturedContent) : bool :=
  match pc_content (cc_pending content) with Some c => ct_length c =? 0 | None => true end.

Definition retains (projection : StreamProjection) (capture : ExecCapture) : result OperationError bool :=
  if pj_reduced projection || pj_normalized projection then Ok true
  else match pj_text projection with
       | Some _ => Ok false
       | None =>
           content ← ok_or (xc_content capture) (OE_Store SE_Invariant);
           Ok (negb (content_empty content))
       end.

Definition exec_flags (stdout stderr : StreamProjection) (retained : bool) : Z :=
  let reduced := pj_reduced stdout || pj_reduced stderr in
  Z.lor (Z.lor (Z.lor (if reduced then RESULT_REDUCED else 0) (if reduced then RESULT_TRUNCATED else 0))
               (if pj_normalized stdout || pj_normalized stderr then RESULT_NORMALIZED_TEXT else 0))
        (if retained then RESULT_RETAINED else 0).

Definition stream_result (projection : StreamProjection) (reference : option Z) : StreamResult :=
  mkStream (pj_text projection) reference.

(** ** The answer *)

Definition exec_error (code : ErrorCode) (retry : RetryClass) : ErrorRecord := mkErrorRecord code retry StExecute None None.

Definition termination (stop : Stop) : TerminationKind * option Z :=
  match stop with
  | StopExited exit => match px_signal exit with Some _ => (TkSignaled, px_signal exit) | None => (TkExited, px_code exit) end
  | StopTimedOut => (TkTimedOut, None)
  | StopCancelled => (TkCancelled, None)
  end.

(** The status and the error; none of a process that succeeded. *)
Definition stop_failure (stop : Stop) : option (Status * ErrorRecord) :=
  match stop with
  | StopExited exit => if px_success exit then None else Some (SFailed, exec_error ProcessFailed Never)
  | StopTimedOut => Some (STimedOut, exec_error ProcessTimedOut RetrySame)
  | StopCancelled => Some (SCancelled, exec_error ProcessCancelled Never)
  end.

Definition exec_response (request_id : Z) (stop : Stop) (elapsed_millis : Z) (stdout stderr : StreamResult) (flags : Z)
    : result OperationError FinalResponse :=
  let '(kind, code) := termination stop in
  let data := DExec (mkProcess kind code elapsed_millis stdout stderr) in
  map_err OE_Response
    match stop_failure stop with
    | None => FinalResponse_success request_id [] data flags None
    | Some (status, error) => FinalResponse_failure request_id status error [] (Some data) flags None
    end.

Definition stop_failed (stop : Stop) : bool := match stop with StopExited exit => negb (px_success exit) | _ => true end.
Definition stop_focuses (stop : Stop) : bool := match stop with StopExited exit => negb (px_success exit) | _ => false end.
Definition stop_finalizes (stop : Stop) : bool := match stop with StopExited _ => false | _ => true end.
Definition stop_budgets (stop : Stop) (limit : Z) : Z * Z :=
  if stop_failed stop then (limit / 8, limit / 2) else (limit / 2, limit / 8).

(** What is shown of the streams, and which of them are to be retained. *)
Record Presentation : Type := mkPresentation {
  xp_stdout : StreamProjection; xp_stderr : StreamProjection; xp_stdout_retained : bool; xp_stderr_retained : bool }.

Definition presentation_flags (p : Presentation) : Z :=
  exec_flags (xp_stdout p) (xp_stderr p) (xp_stdout_retained p || xp_stderr_retained p).

Section answer.
Context `{lib : Libraries}.

Definition present (request_id : Z) (stop : Stop) (stdout stderr : ExecCapture) (elapsed_millis limit : Z)
    : op OperationError Presentation :=
  let '(stdout_budget, stderr_budget) := stop_budgets stop limit in
  _ ← (if stop_finalizes stop then mret tt else acquire);
  '(out, err) ← pool_run (op_lift (project_captures stdout stderr stdout_budget stderr_budget (stop_focuses stop)));
  stdout_retained ← op_lift (retains out stdout);
  stderr_retained ← op_lift (retains err stderr);
  let p := mkPresentation out err stdout_retained stderr_retained in
  temporary ← op_lift (exec_response request_id stop elapsed_millis
    (stream_result out (if stdout_retained then Some u64_max else None))
    (stream_result err (if stderr_retained then Some u64_max else None)) (presentation_flags p));
  text ← op_lift (encoded temporary);
  if limit <? str_len text then op_fail OE_OutputBudget else mret p.

(** [retain_captures] on the pool; captures that are not retained are dropped. *)
Definition retain_contents (contents : list CapturedContent) : op OperationError (list Z) :=
  if bool_decide (contents = []) then mret []
  else
    permitted ← op_try (_ ← acquire; pool_run (mret tt));
    match permitted with
    | Err e => _ ← drop_contents contents; op_fail e
    | Ok _ =>
        su ← get_surroundings;
        io ← ask su_spool;
        let pending := cc_pending <$> contents in
        shared (fun sh =>
          match retain_pending blake3 io (su_store su) (su_store_limits su) pending (sh_store sh) with
          | Ok (aliases, store) => (Ok aliases, with_store store sh)
          | Err e => (Err (OE_Store e), with_store (drop_pending pending (sh_store sh)) sh)
          end)
    end.

(** The references of the retained streams, in the order of the streams. *)
Definition take_alias (retained : bool) (aliases : list Z) : result OperationError (option Z * list Z) :=
  if retained then match aliases with alias :: aliases => Ok (Some alias, aliases) | [] => Err (OE_Store SE_Invariant) end
  else Ok (None, aliases).

Definition retained_contents (retained : bool) (capture : ExecCapture) : list CapturedContent :=
  if retained then contents_of [capture] else [].

Definition finish_response (request_id : Z) (stop : Stop) (elapsed_millis : Z) (p : Presentation) (aliases : list Z)
    : op OperationError FinalResponse :=
  '(stdout_reference, aliases) ← op_lift (take_alias (xp_stdout_retained p) aliases);
  '(stderr_reference, aliases) ← op_lift (take_alias (xp_stderr_retained p) aliases);
  if negb (bool_decide (aliases = [])) then op_fail (OE_Store SE_Invariant)
  else
    response ← op_lift (exec_response request_id stop elapsed_millis (stream_result (xp_stdout p) stdout_reference)
      (stream_result (xp_stderr p) stderr_reference) (presentation_flags p));
    _ ← charge response 1;
    mret response.

Definition build_response (request_id : Z) (stop : Stop) (stdout stderr : ExecCapture) (elapsed_millis : Z)
    : op OperationError FinalResponse :=
  match (match xc_quota_error stdout with Some e => Some e | None => xc_quota_error stderr end) with
  | Some e => _ ← drop_contents (contents_of [stdout; stderr]); op_fail (OE_Store e)
  | None =>
      limit ← presentation_limit;
      presented ← op_try (present request_id stop stdout stderr elapsed_millis limit);
      match presented with
      | Err e => _ ← drop_contents (contents_of [stdout; stderr]); op_fail e
      | Ok p =>
          _ ← drop_contents (retained_contents (negb (xp_stdout_retained p)) stdout
                             ++ retained_contents (negb (xp_stderr_retained p)) stderr);
          aliases ← retain_contents (retained_contents (xp_stdout_retained p) stdout
                                     ++ retained_contents (xp_stderr_retained p) stderr);
          finish_response request_id stop elapsed_millis p aliases
      end
  end.

(** ** The operation *)

Context `{host : ProcessHost} `{spool : SpoolWrites}.

(** The [select!] over the cancellation, the deadline and the exit. *)
Definition await_stop (run : ProcessRun) : op OperationError Stop :=
  cancelled ← ask su_cancelled;
  if cancelled : bool then mret StopCancelled
  else
    now ← ask su_now;
    deadline ← shared (fun sh => (Ok (check_deadline (sh_budget sh) now), sh));
    match deadline with
    | Err _ => mret StopTimedOut
    | Ok _ => exit ← op_lift (map_err OE_Platform (process_wait run)); mret (StopExited exit)
    end.

(** The task that writes the standard input; a process that does not read it is no error. *)
Definition input_written (run : ProcessRun) (stdin : option bytes) : result OperationError unit :=
  match stdin with
  | None => Ok tt
  | Some bytes =>
      match run_input run bytes with
      | Ok _ | Err BrokenPipe => Ok tt
      | Err _ => Err OE_Io
      end
  end.

(** From the start of the process to the ends of its streams. *)
Definition run_process (run : ProcessRun) (stdin : option bytes)
    : op OperationError (Stop * result OperationError ExecCapture * result OperationError ExecCapture) :=
  su ← get_surroundings;
  let started := start_task (su_store su) (su_store_limits su) in
  tasks ← take_chunks (run_before run) (started, started);
  stop ← await_stop run;
  _ ← (if stop_finalizes stop then op_lift (map_err OE_Platform (process_terminate run)) else mret tt);
  _ ← op_lift (input_written run stdin);
  tasks ← take_chunks (run_after run) tasks;
  stdout ← end_task (run_end run false) tasks.1;
  stderr ← end_task (run_end run true) tasks.2;
  mret (stop, stdout, stderr).

Definition exec_execute (request : Request) (a : ExecArgs) : op OperationError FinalResponse :=
  _ ← check_program;
  stdin ← stdin_bytes (ex_stdin a);
  environment ← op_lift (exec_environment (ex_environment a));
  _ ← acquire;
  handle ← op_map_err OE_Platform (workspace_spawn (exec_spec a stdin environment));
  '(stop, stdout, stderr) ← run_process (ph_child handle) stdin;
  match stdout, stderr with
  | Ok stdout, Ok stderr => build_response (rq_id request) stop stdout stderr (run_millis (ph_child handle))
  | Err e, Ok capture | Ok capture, Err e => _ ← drop_contents (contents_of [capture]); op_fail e
  | Err e, Err _ => op_fail e
  end.
End answer.

(** ** Facts: the store stays sound *)

Lemma drop_reservation_sound hash l r s : state_ok hash l s -> 0 <= Store.sr_bytes r -> state_ok hash l (drop_reservation r s).
Proof.
  intros H Hr. unfold drop_reservation. destruct (_ =? 0); [done|]. unfold saturating_sub.
  destruct H; split; cbn; try done; lia.
Qed.

Lemma drop_pending_sound hash l pending s :
  state_ok hash l s -> Forall (fun value => 0 <= reservation_bytes (pc_reservation value)) pending ->
  state_ok hash l (drop_pending pending s).
Proof.
  intros H. induction 1 as [|value pending Hv _ IH]; [done|]. cbn. destruct (pc_reservation value) as [r|]; [|done].
  by apply drop_reservation_sound.
Qed.

Lemma op_try_done {E F A} (m : op E A) su st a st' :
  (op_try m : op F _) su st = (Done (Ok a), st') -> m su st = (Done a, st').
Proof. unfold op_try. destruct (m su st) as [[]]; naive_solver. Qed.

Section facts.
Context `{lib : Libraries} `{host : ProcessHost} `{spool : SpoolWrites} (su : Surroundings).
Context (Hcompany : sound_company su).
Context (Hentries : sl_max_entries (su_store_limits su) < u64_max) (Hmax : 0 <= sl_max_bytes (su_store_limits su)).
Notation fine := (fine su).
Notation always_fine := (always_fine su).
Notation since := (since su).

Lemma always_change f :
  (forall s, state_ok blake3 (su_store_limits su) s ->
     state_ok blake3 (su_store_limits su) (f s) /\ later s (f s) /\ forall alias, lasts alias s (f s)) -> always_fine (on_store f).
Proof. intros Hf. by apply (always_on_store su Hcompany (fun s => (Ok tt, f s))). Qed.

Lemma always_drop r : 0 <= Store.sr_bytes r -> always_fine (on_store (drop_reservation r)).
Proof.
  intros Hr. apply always_change. intros s Hs. split; [by apply drop_reservation_sound|].
  split; [apply drop_reservation_later|intros alias; apply drop_reservation_lasts].
Qed.

Lemma drop_pending_changes pending s :
  state_ok blake3 (su_store_limits su) s -> Forall (fun value => 0 <= reservation_bytes (pc_reservation value)) pending ->
  state_ok blake3 (su_store_limits su) (drop_pending pending s) /\ later s (drop_pending pending s)
  /\ forall alias, lasts alias s (drop_pending pending s).
Proof.
  intros Hs Hp. split; [by apply drop_pending_sound|]. split; [|intros alias; apply drop_pending_lasts].
  destruct (drop_pending_frame pending s) as [H1 H2]. apply later_tables; [done|by rewrite H2].
Qed.

(** ** Facts: a task's stream *)

Definition memory_limit : Z := Z.min DEFAULT_CAPTURE_MEMORY_BYTES (sl_max_bytes (su_store_limits su)).

(** What a task has taken in, unless the quota has refused a part of it. *)
Record task_ok (all : bytes) (task : CaptureTask) : Prop := mkTaskOk {
  to_capture : capture_ok (su_store su) (tk_content task);
  to_limit : cp_memory_limit (tk_content task) = memory_limit;
  to_stream : tk_quota_error task = None -> Capture.holds (tk_content task) all /\ follows all (tk_text task);
}.

Lemma start_task_ok : task_ok [] (start_task (su_store su) (su_store_limits su)).
Proof.
  destruct (capture_ok_start (su_store su) (su_store_limits su) DEFAULT_CAPTURE_MEMORY_BYTES ltac:(done) Hmax) as [H1 H2].
  split; [done|done|]. intros _. split; [done|apply follows_start].
Qed.

Lemma append_limit l io data cap s res cap' s' : Capture.append l io data cap s = (res, cap', s') -> cp_memory_limit cap' = cp_memory_limit cap.
Proof.
  unfold Capture.append. intros H. case_bool_decide; [by simplify_eq|].
  destruct (checked_add _ _ _); [|by simplify_eq].
  destruct (cp_state cap); [destruct (_ <=? _); [by simplify_eq|]|];
    (destruct (reserve_u64 _ _ _ _) as [[r s1]|] eqn:Hr; [|by simplify_eq]); destruct io; by simplify_eq.
Qed.

Lemma take_chunk_done chunk task all st task' st' :
  fine st -> task_ok all task -> take_chunk chunk task su st = (Done task', st') ->
  (fine st' /\ since st st') /\ task_ok (all ++ chunk) task'.
Proof.
  intros Hst [H1 H2 H3] H. unfold take_chunk in H. destruct (tk_quota_error task) as [e|] eqn:Eq.
  { injection H as <- <-. split; [done|]. by split; [..|rewrite Eq]. }
  destruct (H3 eq_refl) as [H4 H5]. clear H3.
  apply op_bind_done in H as (su' & s1 & Hsu & H). injection Hsu as <- <-.
  apply op_bind_done in H as (io & s2 & Ha & H).
  pose proof (always_both su _ _ _ _ (always_ask su Hcompany _) Hst Ha) as [Hs2 S2]. clear Ha.
  apply op_bind_done in H as ([appended content] & s3 & Hs & H). unfold shared in Hs.
  destruct (others_since su Hcompany s2 Hs2) as [Hs4 S4]. set (s4 := others su s2) in *.
  destruct (Capture.append _ _ _ _ _) as [[res cap'] state'] eqn:Ea. injection Hs as <- <- <-.
  pose proof (append_limit _ _ _ _ _ _ _ _ Ea) as Hlimit. pose proof (append_table _ _ _ _ _ _ _ _ Ea) as Htable.
  pose proof (append_later _ _ _ _ _ _ _ _ Ea) as Hlater.
  destruct Hs4 as [F1 F2 F3]. destruct (append_spec blake3 (su_store su) _ _ _ _ _ _ _ _ F3 H1 Ea) as (A1 & A2 & _ & A4 & _).
  injection H as <- <-. split.
  { split; [by split|]. etrans; [exact S2|]. etrans; [exact S4|].
    assert (shared_since su (pg_shared s4) (with_store state' (pg_shared s4))) as Hsh.
    { split; [done| |done]. intros _ alias. apply lasts_tables. cbn. by rewrite Htable. }
    split; [done|]. by apply rtc_once, turn_shared. } destruct res as [[]|e]; split; cbn; try done; try (by rewrite Hlimit).
  intros _. split; [by apply A4|by apply observe_follows].
Qed.

(** The stream that the chunks make up. *)
Definition stream (which : bool) (chunks : list (bool * bytes)) : bytes :=
  concat (omap (fun c => if Bool.eqb c.1 which then Some c.2 else None) chunks).

Lemma take_chunks_done chunks : forall tasks out err st tasks' st',
  fine st -> task_ok out tasks.1 -> task_ok err tasks.2 -> take_chunks chunks tasks su st = (Done tasks', st') ->
  (fine st' /\ since st st') /\ task_ok (out ++ stream false chunks) tasks'.1 /\ task_ok (err ++ stream true chunks) tasks'.2.
Proof.
  induction chunks as [|[[] chunk] chunks IH]; intros tasks out err st tasks' st' Hst Ho He H; cbn [take_chunks] in H.
  - injection H as <- <-. unfold stream. cbn. by rewrite !app_nil_r.
  - apply op_bind_done in H as (task & s1 & Ht & H). apply (take_chunk_done _ _ err) in Ht as [[Hs1 S1] Ht]; [|done..].
    apply (IH _ out (err ++ chunk)) in H as [[Hs2 S2] H]; [|done..]. split; [split; [done|by etrans]|]. unfold stream in *. cbn. by rewrite (assoc_L (++)).
  - apply op_bind_done in H as (task & s1 & Ht & H). apply (take_chunk_done _ _ out) in Ht as [[Hs1 S1] Ht]; [|done..].
    apply (IH _ (out ++ chunk) err) in H as [[Hs2 S2] H]; [|done..]. split; [split; [done|by etrans]|]. unfold stream in *. cbn. by rewrite (assoc_L (++)).
Qed.

Lemma stream_app which a b : stream which (a ++ b) = stream which a ++ stream which b.
Proof. unfold stream. by rewrite omap_app, concat_app. Qed.

(** What a capture holds when nothing was refused. *)
Record captures_all (all : bytes) (capture : ExecCapture) (content : CapturedContent) : Prop := mkCapturesAll {
  cx_content : xc_content capture = Some content;
  cx_pending : pending_ok blake3 (su_store su) (cc_pending content);
  cx_bytes : exists c, pc_content (cc_pending content) = Some c /\ storage_bytes (ct_storage c) = all /\ ct_length c = len all;
  cx_text : follows all (xc_text capture);
  cx_view : (view content = Complete all /\ len all <= memory_limit)
    \/ exists head_len tail_from, view content = Sampled (take head_len all) (all !! head_len) (drop tail_from all);
}.
Definition capture_true (all : bytes) (capture : ExecCapture) : Prop :=
  match xc_quota_error capture with
  | Some _ => xc_content capture = None
  | None => exists content, captures_all all capture content
  end.

Lemma end_task_done ended task all st r st' :
  fine st -> task_ok all task -> end_task ended task su st = (Done r, st') ->
  (fine st' /\ since st st') /\ match r with Ok capture => capture_true all capture | Err _ => True end.
Proof.
  intros Hst [H1 H2 H3] H.
  assert (forall A (r r' : result OperationError A) s s', fine s ->
    (_ ← on_store (drop_reservation (cp_reservation (tk_content task))); mret r) su s = (Done r', s') -> (fine s' /\ since s s') /\ r' = r) as Hdrop.
  { intros A r1 r2 s s' Hs Hd. apply op_bind_done in Hd as ([] & s1 & Hd & Hr). injection Hr as <- <-. split; [|done].
    eapply (always_both su); [|exact Hs|exact Hd]. apply always_drop, H1. }
  unfold end_task in H. cbv zeta in H. destruct ended as [|kind]; [|apply Hdrop in H as [? ->]; [|done]; by split].
  destruct (tk_quota_error task) as [e|] eqn:Eq; [apply Hdrop in H as [? ->]; [|done]; by split|].
  apply op_bind_done in H as (io & s1 & Ha & H).
  pose proof (always_both su _ _ _ _ (always_ask su Hcompany _) Hst Ha) as [Hs1 S1]. clear Ha.
  destruct (finish io (tk_content task)) as [content|e] eqn:Ef;
    [|apply Hdrop in H as [[? ?] ->]; [|done]; split; [split; [done|by etrans]|done]].
  injection H as <- <-. split; [done|]. unfold capture_true. cbn. exists content. destruct (H3 eq_refl) as [Hh Hf].
  destruct (finish_spec blake3 (su_store su) _ _ _ H1 Ef) as (F1 & _ & _ & F4). destruct (F4 all Hh) as [(c & Hc & Hb) Hv].
  split; cbn; [done|done| |done|].
  - exists c. split_and!; [done..|]. destruct Hh as [Hl _]. unfold finish in Ef. apply bind_ok in Ef as ([storage sample] & _ & Ef).
    injection Ef as <-. cbn in Hc. by injection Hc as <-.
  - rewrite Hv. destruct (cp_state (tk_content task)) as [memory|file sample] eqn:Es; [left|right].
    + split; [done|]. destruct H1 as (_ & _ & _ & _ & Hcs). rewrite Es in Hcs. destruct Hcs as [Hcs _]. destruct Hh as [Hl _]. lia.
    + cbv zeta. unfold last_bytes. rewrite drop_drop. by eexists _, _.
Qed.

Lemma end_task_ended ended task st capture st' : end_task ended task su st = (Done (Ok capture), st') -> ended = Ok tt.
Proof.
  unfold end_task. destruct ended as [[]|]; [done|]. cbv zeta. intros H. by apply op_bind_done in H as (? & ? & _ & H).
Qed.

(** ** Facts: what is shown *)

(** The projection of a stream, whole or from what was kept of it. *)
Definition shows (all : bytes) (limit : Z) (focus : bool) (p : StreamProjection) : Prop :=
  projects all limit focus p
  \/ pj_reduced p = true /\ match from_utf8 all with
     | Err _ => pj_text p = None /\ pj_normalized p = false
     | Ok w => pj_normalized p = crlf w
         /\ if limit <? 8 then pj_text p = None
            else exists shown, pj_text p = Some shown /\ ends_of (normalize w (crlf w)) limit shown
     end.

Lemma project_capture_done all capture content limit focus p :
  captures_all all capture content -> project_capture capture limit focus = Ok p -> shows all limit focus p.
Proof.
  intros [H1 _ _ H4 H5] H. unfold project_capture in H. rewrite H1 in H. cbn [ok_or mbind result_bind] in H.
  destruct H5 as [[Hv Hl]|(head_len & tail_from & Hv)]; rewrite Hv in H.
  - apply ok_or_ok in H. left. destruct (project_spec all limit focus) as (p' & Hp & Hs); [|by simplify_eq].
    unfold memory_limit, DEFAULT_CAPTURE_MEMORY_BYTES in Hl. lia.
  - injection H as <-. right. by apply project_sampled_spec.
Qed.

(** A stream that is not retained is shown as it is. *)
Lemma shows_verbatim all limit focus p :
  shows all limit focus p -> pj_reduced p = false -> pj_normalized p = false -> (pj_text p = None -> all = []) ->
  str_bytes (default [] (pj_text p)) = all.
Proof.
  intros [Hp|[Hp _]] Hr Hn Ht; [|congruence]. unfold projects in Hp. destruct (from_utf8 all) as [text|] eqn:E; [|by subst p].
  apply from_utf8_Ok in E as [_ <-]. destruct Hp as (Hcrlf & shown & reduced & _ & Hsame & [(_ & Hred & Hd & _)|(_ & Hred & _)]); [|congruence].
  rewrite Hd, Hsame by congruence. by rewrite <- Hcrlf, Hn.
Qed.

(** What the answer says about a stream: a reference for which the store has retained all of
    it, or no reference and all of it as the text. *)
Definition stream_true (st : Progress) (all : bytes) (limit : Z) (focus : bool) (p : StreamProjection) (result : StreamResult) : Prop :=
  shows all limit focus p /\ sr_projection result = pj_text p
  /\ match sr_reference result with
     | Some reference => retained su st reference all
     | None => str_bytes (default [] (sr_projection result)) = all /\ pj_reduced p = false /\ pj_normalized p = false
     end.

Lemma retains_spec all capture content p retained limit focus :
  captures_all all capture content -> shows all limit focus p -> retains p capture = Ok retained ->
  if retained then True else str_bytes (default [] (pj_text p)) = all /\ pj_reduced p = false /\ pj_normalized p = false.
Proof.
  intros [H1 _ (c & Hc & Hb & Hl) _ _] Hs H. unfold retains in H. destruct (pj_reduced p) eqn:Hr; [by injection H as <-|].
  destruct (pj_normalized p) eqn:Hn; [by injection H as <-|]. cbn [orb] in H. destruct (pj_text p) as [t|] eqn:Ht.
  - injection H as <-. split; [|done]. rewrite <- Ht. apply (shows_verbatim _ limit focus); [done..|congruence].
  - rewrite H1 in H. cbn in H. injection H as <-. unfold content_empty. rewrite Hc, Hl. destruct (Z.eqb_spec (len all) 0) as [Hz|]; cbn; [|done].
    assert (all = []) as -> by (destruct all; [done|rewrite len_cons in Hz; pose proof (len_nonneg all); lia]). done.
Qed.

(** ** Facts: the answer *)

(** The status, the error, the termination and its code that tell of the end of a process. *)
Definition told (run : ProcessRun) (stop : Stop) : Status * option ErrorRecord * TerminationKind * option Z :=
  let error code retry := Some (mkErrorRecord code retry StExecute None None) in
  match stop, run_status run with
  | StopTimedOut, _ => (STimedOut, error ProcessTimedOut RetrySame, TkTimedOut, None)
  | StopCancelled, _ => (SCancelled, error ProcessCancelled Never, TkCancelled, None)
  | StopExited _, Ok (ExSignal signal) => (SFailed, error ProcessFailed Never, TkSignaled, Some signal)
  | StopExited _, Ok (ExCode code) => (if code =? 0 then Success else SFailed, if code =? 0 then None else error ProcessFailed Never, TkExited, Some code)
  | StopExited _, Err _ => (SFailed, None, TkExited, None)
  end.

(** What the flags say of the streams. *)
Definition flags_told (stdout stderr : StreamProjection) (out err : StreamResult) : Z :=
  let flag (value : Z) (b : bool) := if b then value else 0 in
  let either {A} (f : A -> bool) a b := f a || f b in
  Z.lor (Z.lor (Z.lor (flag RESULT_REDUCED (either pj_reduced stdout stderr)) (flag RESULT_TRUNCATED (either pj_reduced stdout stderr)))
               (flag RESULT_NORMALIZED_TEXT (either pj_normalized stdout stderr)))
        (flag RESULT_RETAINED (either (fun r => is_some (sr_reference r)) out err)).

(** The end of a process, as the operation saw it: when it timed out the clock had reached
    the deadline of the program's own budget. *)
Definition stop_true (st st' : Progress) (run : ProcessRun) (stop : Stop) : Prop :=
  match stop with
  | StopExited exit => process_wait run = Ok exit
  | StopTimedOut =>
      (exists turn, (pg_turn st <= turn < pg_turn st')%nat /\ bt_deadline (sh_budget (pg_shared st)) <= su_now su turn)
      /\ process_terminate run = Ok tt
  | StopCancelled =>
      (exists turn, (pg_turn st <= turn < pg_turn st')%nat /\ su_cancelled su turn = true) /\ process_terminate run = Ok tt
  end.

(** A process that succeeds has the larger share for its output, any other for its errors;
    the errors of one that fails are looked for.  The limit is what the budget allowed when
    the answer was made. *)
Definition exec_answer (st st' : Progress) (request_id : Z) (run : ProcessRun) (stop : Stop) (r : FinalResponse) : Prop :=
  let chunks := run_before run ++ run_after run in
  let '(status, error, kind, code) := told run stop in
  let focus := bool_decide (status = SFailed) in
  exists now limit stdout stderr out err,
    runs su st now /\ runs su now st' /\ limit = limit_of (remaining (sh_budget (pg_shared now)))
    /\ stream_true st' (stream false chunks) (if bool_decide (status = Success) then limit / 2 else limit / 8) focus stdout out
    /\ stream_true st' (stream true chunks) (if bool_decide (status = Success) then limit / 8 else limit / 2) focus stderr err
    /\ r = mkResponse request_id status [] (Some (DExec (mkProcess kind code (run_millis run) out err))) error
             (flags_told stdout stderr out err) None.

(** The answer, from the tables of the code. *)
Lemma exec_response_told st now st' id run stop limit stdout stderr out err r :
  runs su st now -> runs su now st' -> limit = limit_of (remaining (sh_budget (pg_shared now))) ->
  match stop with StopExited exit => process_wait run = Ok exit | _ => True end ->
  exec_response id stop (run_millis run) out err (exec_flags stdout stderr (is_some (sr_reference out) || is_some (sr_reference err))) = Ok r ->
  stream_true st' (stream false (run_before run ++ run_after run)) (stop_budgets stop limit).1 (stop_focuses stop) stdout out ->
  stream_true st' (stream true (run_before run ++ run_after run)) (stop_budgets stop limit).2 (stop_focuses stop) stderr err ->
  exec_answer st st' id run stop r.
Proof.
  intros Hnow Hnow' Hlimit Hstop H Hout Herr. unfold exec_answer, told. unfold exec_response in H.
  assert (forall status error kind code,
    match error with None => map_err OE_Response (FinalResponse_success id [] (DExec (mkProcess kind code (run_millis run) out err)) (exec_flags stdout stderr (is_some (sr_reference out) || is_some (sr_reference err))) None) = Ok r /\ status = Success
    | Some e => map_err OE_Response (FinalResponse_failure id status e [] (Some (DExec (mkProcess kind code (run_millis run) out err))) (exec_flags stdout stderr (is_some (sr_reference out) || is_some (sr_reference err))) None) = Ok r end ->
    r = mkResponse id status [] (Some (DExec (mkProcess kind code (run_millis run) out err))) error (flags_told stdout stderr out err) None) as Hr.
  { intros status [e|] kind code; [|intros [Hs ->]; by apply success_eq in Hs].
    intros Hf%map_err_ok%FinalResponse_new_ok. apply Hf. }
  destruct stop as [exit| |]; cbn in H, Hout, Herr; [|by exists now, limit, stdout, stderr, out, err; split_and!; [done..|apply Hr]..].
  unfold process_wait in Hstop. destruct (run_status run) as [[code|signal]|]; cbn in Hstop; [| |done]; injection Hstop as <-; cbn in H, Hout, Herr.
  - destruct (code =? 0); exists now, limit, stdout, stderr, out, err; (split_and!; [done..|by apply Hr]).
  - exists now, limit, stdout, stderr, out, err. split_and!; [done..|by apply Hr].
Qed.

(** The standard input: the argument, or all of the retained result. *)
Definition stdin_true (st st' : Progress) (source : InputSource) (stdin : option bytes) : Prop :=
  match source with
  | InNone => stdin = None
  | InInline value => stdin = Some (str_bytes value) /\ len (str_bytes value) <= MAX_STDIN_BYTES
  | InReference reference => exists data, stdin = Some data /\ read_under su st st' reference data /\ len data <= MAX_STDIN_BYTES
  end.

Definition exec_true (request : Request) (a : ExecArgs) (st st' : Progress) (r : FinalResponse) : Prop :=
  exists stdin environment now command run stop,
    stdin_true st st' (ex_stdin a) stdin /\ exec_environment (ex_environment a) = Ok environment
    /\ runs su st now /\ runs su now st'
    /\ command_of su (runs su) st now (exec_spec a stdin environment) (if stdin then SdPiped else SdNull) SdPiped SdPiped command
    /\ host_spawn (pg_turn now) command = Ok run
    /\ input_written run stdin = Ok tt /\ stop_true st st' run stop
    /\ run_end run false = Ok tt /\ run_end run true = Ok tt
    /\ exec_answer st st' (rq_id request) run stop r.

(** ** Facts: the steps *)

Lemma stdin_bytes_done source st stdin st' :
  fine st -> stdin_bytes source su st = (Done stdin, st') -> stdin_true st st' source stdin /\ fine st' /\ since st st'.
Proof.
  intros Hst H. unfold stdin_bytes in H. destruct source as [|value|reference].
  - injection H as <- <-. by split.
  - cbv zeta in H. destruct (Z.ltb_spec MAX_STDIN_BYTES (len (str_bytes value))); [done|]. injection H as <- <-. by split; [split|].
  - apply op_bind_done in H as (b & s1 & Hl & H).
    assert (fine s1 /\ since st s1) as [Hs1 S1].
    { eapply (always_both su); [|exact Hst|exact Hl]. apply (always_with_lease su Hcompany). intros c. by apply always_read_whole. }
    destruct (Z.ltb_spec MAX_STDIN_BYTES (len b)); [done|]. injection H as <- <-. split; [|done]. cbn.
    apply (with_lease_done su Hcompany) in Hl as (content & s2 & s3 & Hr & Hok & Hread); [|intros c; by apply always_read_whole|done].
    apply read_whole_done in Hr as [-> _]; [|done]. by eexists.
Qed.

Lemma stdin_within st1 st2 st3 st4 source stdin :
  since st1 st2 -> stdin_true st2 st3 source stdin -> since st3 st4 -> stdin_true st1 st4 source stdin.
Proof.
  intros H1 H H2. destruct source; [done..|]. destruct H as (data & ? & Hr & ?). exists data. split_and!; [done| |done].
  by eapply read_since.
Qed.

Lemma answer_within st1 st2 st3 id run stop r : since st1 st2 -> exec_answer st2 st3 id run stop r -> exec_answer st1 st3 id run stop r.
Proof.
  intros [_ H1] H. unfold exec_answer in *. destruct (told run stop) as [[[status error] kind] code].
  destruct H as (now & limit & stdout & stderr & out & err & H2 & H). exists now, limit, stdout, stderr, out, err.
  split; [by etrans|exact H].
Qed.

Lemma always_spawn spec : always_fine (workspace_spawn spec).
Proof.
  assert (forall logical, always_fine (resolve_existing logical)) as Hr by (intros; unfold resolve_existing; always).
  assert (forall A (f : nat -> result IoKind A), always_fine (host_call f)) as Hh by (intros; unfold host_call; always).
  assert (forall files opened, always_fine (open_files files opened)) as Ho.
  { induction files as [|file files IH]; intros; cbn [open_files]; always. }
  assert (forall endpoints captures, always_fine (open_captures endpoints captures)) as Hc.
  { induction endpoints as [|[] endpoints IH]; intros; cbn [open_captures]; always. }
  unfold workspace_spawn, resolve_process_spec, spawn_native, PreparedProcessStdio_new, with_files, input_stdio, output_stdio,
    file_stdio, cloned, spawn_native_with_stdio. always.
Qed.

(** How the wait ended. *)
Definition stop_seen (st st' : Progress) (run : ProcessRun) (stop : Stop) : Prop :=
  match stop with
  | StopExited exit => process_wait run = Ok exit
  | StopTimedOut => exists turn, (pg_turn st <= turn < pg_turn st')%nat /\ bt_deadline (sh_budget (pg_shared st)) <= su_now su turn
  | StopCancelled => exists turn, (pg_turn st <= turn < pg_turn st')%nat /\ su_cancelled su turn = true
  end.

Lemma stop_within st1 st2 st3 st4 run stop :
  since st1 st2 -> stop_true st2 st3 run stop -> since st3 st4 -> stop_true st1 st4 run stop.
Proof.
  intros H1 H H2. pose proof (since_turn _ _ _ H1). pose proof (since_turn _ _ _ H2). destruct H1 as [[_ _ Hd] _].
  unfold stop_true in *. destruct stop; [done|..]; destruct H as [(turn & ? & ?) ?]; (split; [|done]); exists turn.
  - rewrite <- Hd. split; [lia|done].
  - split; [lia|done].
Qed.

Lemma others_turn st : pg_turn (others su st) = S (pg_turn st).
Proof. unfold others. by destruct (su_others su _ _ _). Qed.

Lemma await_stop_done run st stop st' :
  fine st -> await_stop run su st = (Done stop, st') -> (fine st' /\ since st st') /\ stop_seen st st' run stop.
Proof.
  intros Hst H. assert (fine st' /\ since st st') as [Hst' Hs].
  { eapply (always_both su); [|exact Hst|exact H]. unfold await_stop. always. by apply always_shared. }
  split; [done|]. unfold await_stop in H. apply op_bind_done in H as (cancelled & s1 & Hc & H).
  pose proof (always_both su _ _ _ _ (always_ask su Hcompany _) Hst Hc) as [F1 S1].
  injection Hc as Hc <-. destruct cancelled.
  { injection H as <- <-. cbn. exists (pg_turn st). rewrite others_turn. split; [lia|done]. }
  apply op_bind_done in H as (now & s2 & Hn & H). pose proof (always_both su _ _ _ _ (always_ask su Hcompany _) F1 Hn) as [F2 S2].
  injection Hn as <- <-. apply op_bind_done in H as (deadline & s3 & Hd & H).
  assert (fine s3 /\ since (others su (others su st)) s3) as [F3 S3].
  { eapply (always_both su); [|exact F2|exact Hd]. by apply always_shared. }
  unfold shared in Hd. injection Hd as Hd _. destruct deadline as [[]|e].
  - apply op_bind_done in H as (exit & s4 & [He%map_err_ok _]%op_lift_done & H). injection H as <- _. exact He.
  - injection H as <- <-. exists (pg_turn (others su st)). pose proof (since_turn _ _ _ S3) as Ht. rewrite !others_turn in *.
    split; [lia|]. unfold check_deadline in Hd. destruct (Z.leb_spec (bt_deadline (sh_budget (pg_shared (others su (others su (others su st))))))
      (su_now su (S (pg_turn st)))) as [Hle|]; [|done].
    destruct (others_since su Hcompany _ F2) as [_ S4].
    assert (since st (others su (others su (others su st)))) as [[_ _ Hdl] _] by passes. by rewrite <- Hdl.
Qed.

Lemma run_process_done run stdin st stop out err st' :
  fine st -> run_process run stdin su st = (Done (stop, out, err), st') ->
  let chunks := run_before run ++ run_after run in
  (fine st' /\ since st st') /\ stop_true st st' run stop /\ input_written run stdin = Ok tt
  /\ match out with Ok c => capture_true (stream false chunks) c /\ run_end run false = Ok tt | Err _ => True end
  /\ match err with Ok c => capture_true (stream true chunks) c /\ run_end run true = Ok tt | Err _ => True end.
Proof.
  intros Hst H chunks. unfold run_process in H. apply op_bind_done in H as (su' & s1 & Hsu & H). injection Hsu as <- <-. cbv zeta in H.
  apply op_bind_done in H as (tasks & s2 & Ht & H). pose proof start_task_ok as Hstart.
  apply (take_chunks_done _ _ [] []) in Ht as ([H2 S2] & Ho & He); [|done..]. cbn [app] in Ho, He.
  apply op_bind_done in H as (stop' & s3 & Hs & H). apply await_stop_done in Hs as [[H3 S3] Hstop]; [|done].
  apply op_bind_done in H as ([] & s4 & Hk & H).
  assert (s4 = s3 /\ (stop_finalizes stop' = true -> process_terminate run = Ok tt)) as [-> Hkill].
  { destruct (stop_finalizes stop'); [|by injection Hk as <-]. apply op_lift_done in Hk as [Hk%map_err_ok ->]. done. }
  apply op_bind_done in H as ([] & s5 & [Hi ->]%op_lift_done & H). apply op_bind_done in H as (tasks' & s6 & Ht & H).
  apply (take_chunks_done _ _ _ _ _ _ _ H3 Ho He) in Ht as ([H6 S6] & Ho' & He'). rewrite <- stream_app in Ho', He'.
  apply op_bind_done in H as (out' & s7 & Hout & H). apply (end_task_done _ _ _ _ _ _ H6 Ho') in Hout as Hd. destruct Hd as [[H7 S7] Hc].
  apply op_bind_done in H as (err' & s8 & Herr & H). apply (end_task_done _ _ _ _ _ _ H7 He') in Herr as Hd. destruct Hd as [[H8 S8] Hc'].
  injection H as <- <- <- <-. split_and!; [done|passes| |done| |].
  - apply (stop_within st s2 s3); [done| |passes].
    destruct stop'; [done|by split; [|apply Hkill]..].
  - destruct out'; [|done]. split; [done|]. eapply end_task_ended. exact Hout.
  - destruct err'; [|done]. split; [done|]. eapply end_task_ended. exact Herr.
Qed.

Definition contents_ok (contents : list CapturedContent) : Prop :=
  Forall (fun content => pending_ok blake3 (su_store su) (cc_pending content)) contents.

Lemma capture_contents all capture : capture_true all capture -> contents_ok (contents_of [capture]).
Proof.
  unfold capture_true, contents_of. cbn. destruct (xc_quota_error capture); [by intros ->; constructor|].
  intros (content & [-> H _ _ _]). by constructor.
Qed.

Lemma always_drop_contents contents : contents_ok contents -> always_fine (drop_contents contents).
Proof.
  induction 1 as [|content contents H _ IH]; cbn [drop_contents]; [apply always_ret|]. apply always_bind; [|intros []; exact IH].
  apply always_change. intros s Hs. apply drop_pending_changes; [done|]. constructor; [|done]. by eapply pk_reserved.
Qed.

(** The aliases stand for the contents, in their order. *)
Definition stands (st : Progress) : list CapturedContent -> list Z -> Prop :=
  Forall2 (fun content alias => exists c, pc_content (cc_pending content) = Some c /\ retained su st alias (storage_bytes (ct_storage c))).

Lemma stands_since st st' contents aliases : since st st' -> stands st contents aliases -> stands st' contents aliases.
Proof.
  intros Hs H. eapply list.Forall2_impl; [exact H|]. intros content alias (c & Hc & Hr). exists c. split; [done|]. by eapply retained_since.
Qed.

Lemma always_retain_contents contents : contents_ok contents -> always_fine (retain_contents contents).
Proof.
  intros Hok. unfold retain_contents. case_bool_decide; [apply always_ret|]. apply Forall_fmap in Hok as Hok'.
  apply always_bind; [apply always_try; always; apply (always_pool_run su Hcompany); always|]. intros [|e]; [|by always; apply always_drop_contents].
  apply always_surroundings. always. apply (always_shared su Hcompany). intros sh [F1 F2 F3].
  destruct (retain_pending _ _ _ _ _ _) as [[aliases state]|e] eqn:Hr.
  - destruct (retain_pending_later su Hentries _ _ _ _ _ F3 Hok' Hr) as (R1 & R2 & R3). split; by split.
  - destruct (drop_pending_changes (cc_pending <$> contents) (sh_store sh) F3) as (R1 & R2 & R3).
    { eapply list.Forall_impl; [exact Hok'|]. intros p Hp. by eapply pk_reserved. }
    split; by split.
Qed.

Lemma retain_contents_done contents st aliases st' :
  fine st -> contents_ok contents -> retain_contents contents su st = (Done aliases, st') -> stands st' contents aliases.
Proof.
  intros Hst Hok H.
  assert (fine st') as Hst' by (eapply (always_done su); [by apply always_retain_contents|exact Hst|exact H]).
  unfold retain_contents in H. case_bool_decide as Hnil; [subst; injection H as <- _; constructor|].
  apply op_bind_done in H as (permitted & s1 & Hp & H). destruct permitted as [[]|e]; [|by apply op_bind_done in H as (? & ? & _ & H)].
  assert (fine s1) as H1.
  { eapply (always_done su); [|exact Hst|exact Hp]. apply always_try. always. apply (always_pool_run su Hcompany). always. }
  apply op_bind_done in H as (su' & s2 & Hsu & H). injection Hsu as <- <-.
  apply op_bind_done in H as (io & s3 & Ha & H). injection Ha as _ <-. apply (others_fine su Hcompany), (others_fine su Hcompany) in H1.
  unfold shared in H. cbv zeta in H. set (s4 := others su (others su s1)) in *.
  destruct (retain_pending _ _ _ _ _ _) as [[aliases' state]|] eqn:Hr; [|done]. injection H as -> <-.
  destruct H1 as [_ _ Hs]. apply Forall_fmap in Hok.
  pose proof (retain_pending_bytes blake3 _ _ _ _ _ _ _ Hs Hentries Hok Hr) as Hb. apply Forall2_fmap_l in Hb.
  eapply list.Forall2_impl; [exact Hb|]. intros content alias (c & e & H1 & H2 & H3). exists c. split; [done|].
  apply named_retained; [done|]. by exists e.
Qed.

(** What is shown of a stream and whether it is to be retained. *)
Definition presents (all : bytes) (limit : Z) (focus : bool) (p : StreamProjection) (retained : bool) (capture : ExecCapture) : Prop :=
  shows all limit focus p
  /\ (if retained then True else str_bytes (default [] (pj_text p)) = all /\ pj_reduced p = false /\ pj_normalized p = false)
  /\ exists content, captures_all all capture content.

Lemma present_done id stop stdout stderr millis limit all_out all_err st p st' :
  fine st -> (exists content, captures_all all_out stdout content) -> (exists content, captures_all all_err stderr content) ->
  present id stop stdout stderr millis limit su st = (Done p, st') ->
  presents all_out (stop_budgets stop limit).1 (stop_focuses stop) (xp_stdout p) (xp_stdout_retained p) stdout
  /\ presents all_err (stop_budgets stop limit).2 (stop_focuses stop) (xp_stderr p) (xp_stderr_retained p) stderr.
Proof.
  intros Hst [co Hout] [ce Herr] H. unfold present in H. destruct (stop_budgets stop limit) as [ob eb]; cbn [fst snd].
  apply op_bind_done in H as ([] & s1 & _ & H). apply op_bind_done in H as ([out err] & s2 & [s3 [Hp _]%op_lift_done]%pool_run_done & H).
  unfold project_captures in Hp. apply bind_ok in Hp as (out' & Hpo & Hp). apply bind_ok in Hp as (err' & Hpe & Hp). injection Hp as -> ->.
  apply (project_capture_done _ _ _ _ _ _ Hout) in Hpo. apply (project_capture_done _ _ _ _ _ _ Herr) in Hpe.
  apply op_bind_done in H as (ro & s4 & [Hro ->]%op_lift_done & H). apply op_bind_done in H as (re & s5 & [Hre ->]%op_lift_done & H).
  cbv zeta in H. apply op_bind_done in H as (? & s6 & _ & H). apply op_bind_done in H as (? & s7 & _ & H).
  destruct (_ <? _); [done|]. injection H as <- _. cbn.
  apply (retains_spec _ _ _ _ _ _ _ Hout Hpo) in Hro. apply (retains_spec _ _ _ _ _ _ _ Herr Hpe) in Hre.
  split; (split_and!; [done|done|by eexists]).
Qed.

(** The alias of a retained stream. *)
Definition referred (st : Progress) (all : bytes) (refers : bool) (reference : option Z) : Prop :=
  if refers then exists alias, reference = Some alias /\ retained su st alias all else reference = None.

Lemma take_alias_done st all refers capture content contents aliases reference rest :
  captures_all all capture content -> stands st (retained_contents refers capture ++ contents) aliases ->
  take_alias refers aliases = Ok (reference, rest) ->
  referred st all refers reference /\ stands st contents rest.
Proof.
  intros [Hx _ (c & Hc & Hb & _) _ _] HF H. unfold take_alias in H. destruct refers; cbn [retained_contents] in HF.
  - unfold contents_of in HF. cbn in HF. rewrite Hx in HF. cbn in HF. destruct aliases as [|alias aliases]; [by inversion HF|].
    injection H as <- <-. apply list.Forall2_cons in HF as [(c' & Hc' & Hh) HF]. rewrite Hc in Hc'. injection Hc' as <-.
    split; [|done]. exists alias. by rewrite <- Hb.
  - injection H as <- <-. by split.
Qed.

Lemma finish_response_done id stop millis p aliases st r st' :
  finish_response id stop millis p aliases su st = (Done r, st') ->
  exists out err rest,
    take_alias (xp_stdout_retained p) aliases = Ok (out, rest) /\ take_alias (xp_stderr_retained p) rest = Ok (err, [])
    /\ exec_response id stop millis (stream_result (xp_stdout p) out) (stream_result (xp_stderr p) err) (presentation_flags p) = Ok r.
Proof.
  intros H. unfold finish_response in H. apply op_bind_done in H as ([out rest] & s1 & [Ho ->]%op_lift_done & H).
  apply op_bind_done in H as ([err last] & s2 & [He ->]%op_lift_done & H). case_bool_decide as Hl; [|done]. subst last. cbn in H.
  apply op_bind_done in H as (response & s3 & [Hr ->]%op_lift_done & H). apply op_bind_done in H as (? & s4 & _ & H).
  injection H as <- _. by exists out, err, rest.
Qed.

Lemma always_finish_response id stop millis p aliases : always_fine (finish_response id stop millis p aliases).
Proof. unfold finish_response. pose proof (always_charge su Hcompany). always. Qed.

Lemma stream_shown st all limit focus p refers capture reference :
  presents all limit focus p refers capture -> referred st all refers reference ->
  stream_true st all limit focus p (stream_result p reference).
Proof.
  intros (H1 & H2 & _) H3. split; [done|]. split; [done|]. unfold referred in H3. destruct refers.
  - destruct H3 as (alias & -> & H3). exact H3.
  - subst reference. exact H2.
Qed.

Lemma always_present id stop stdout stderr millis limit : always_fine (present id stop stdout stderr millis limit).
Proof. unfold present. pose proof (always_acquire su Hcompany). always. apply (always_pool_run su Hcompany). always. Qed.

Lemma build_response_done id stop run stdout stderr st r st' :
  let chunks := run_before run ++ run_after run in
  fine st -> match stop with StopExited exit => process_wait run = Ok exit | _ => True end ->
  capture_true (stream false chunks) stdout -> capture_true (stream true chunks) stderr ->
  build_response id stop stdout stderr (run_millis run) su st = (Done r, st') -> since st st' /\ exec_answer st st' id run stop r.
Proof.
  intros chunks Hst Hstop Hout Herr H. pose proof (capture_contents _ _ Hout) as Hco. pose proof (capture_contents _ _ Herr) as Hce.
  unfold build_response in H. unfold capture_true in Hout, Herr.
  destruct (xc_quota_error stdout); [by apply op_bind_done in H as (? & ? & _ & H)|].
  destruct (xc_quota_error stderr); [by apply op_bind_done in H as (? & ? & _ & H)|].
  apply op_bind_done in H as (limit & s1 & Hl & H).
  pose proof (always_both su _ _ _ _ (always_limit su Hcompany) Hst Hl) as [F1 S1].
  assert (limit = limit_of (remaining (sh_budget (pg_shared s1)))) as Hlimit by (by injection Hl as <- <-). clear Hl.
  apply op_bind_done in H as (presented & s2 & Hp & H). destruct presented as [p|e]; [|by apply op_bind_done in H as (? & ? & _ & H)].
  pose proof (always_both su _ _ _ _ (always_try su _ (always_present _ _ _ _ _ _)) F1 Hp) as [F2 S2].
  apply op_try_done in Hp. apply (present_done _ _ _ _ _ _ (stream false chunks) (stream true chunks)) in Hp as [Ho He]; [|done..].
  apply op_bind_done in H as ([] & s3 & Hd & H).
  assert (forall refers capture, contents_ok (contents_of [capture]) -> contents_ok (retained_contents refers capture)) as Hret.
  { intros [] capture Hc; [exact Hc|constructor]. }
  assert (forall a b, contents_ok (retained_contents a stdout ++ retained_contents b stderr)) as Hboth.
  { intros a b. unfold contents_ok. apply Forall_app. by split; apply Hret. }
  apply (always_both su) in Hd as [F3 S3]; [|by apply always_drop_contents|done].
  apply op_bind_done in H as (aliases & s4 & Ha & H).
  pose proof (always_both su _ _ _ _ (always_retain_contents _ (Hboth _ _)) F3 Ha) as [F4 S4].
  apply retain_contents_done in Ha; [|done..].
  apply (always_since su) in H as S5; [|apply always_finish_response|done]. apply (stands_since _ st') in Ha; [|done].
  apply finish_response_done in H as (out & err & rest & H3 & H4 & H5).
  pose proof Ho as (_ & _ & co & Hxo). pose proof He as (_ & _ & ce & Hxe).
  apply (take_alias_done _ _ _ _ _ _ _ _ _ Hxo Ha) in H3 as [Hro Hrest].
  rewrite <- (app_nil_r (retained_contents _ _)) in Hrest. apply (take_alias_done _ _ _ _ _ _ _ _ _ Hxe Hrest) in H4 as [Hre _].
  assert (since s1 st') as S6 by passes.
  split; [by etrans|].
  apply (exec_response_told st s1 st' id run stop limit (xp_stdout p) (xp_stderr p)
    (stream_result (xp_stdout p) out) (stream_result (xp_stderr p) err));
    [apply S1|apply S6|done|done| |by eapply stream_shown..].
  rewrite <- H5. unfold presentation_flags. do 2 f_equal. cbn.
  unfold referred in Hro, Hre. destruct (xp_stdout_retained p), (xp_stderr_retained p); destruct_and?; naive_solver.
Qed.

Lemma exec_execute_true request a st r st' :
  fine st -> exec_execute request a su st = (Done r, st') -> exec_true request a st st' r.
Proof.
  intros Hst H. unfold exec_execute in H. apply op_bind_done in H as (? & s1 & H1 & H).
  apply (always_both su _ _ _ _ (always_program su Hcompany)) in H1 as [F1 S1]; [|done].
  apply op_bind_done in H as (stdin & s2 & Hi & H). apply stdin_bytes_done in Hi as (Hstdin & F2 & S2); [|done].
  apply op_bind_done in H as (environment & s3 & [Henv ->]%op_lift_done & H).
  apply op_bind_done in H as (? & s4 & H4 & H). apply (always_both su _ _ _ _ (always_acquire su Hcompany)) in H4 as [F4 S4]; [|done].
  apply op_bind_done in H as (handle & s5 & Hs & H). apply op_map_err_done in Hs.
  pose proof (always_both su _ _ _ _ (always_spawn _) F4 Hs) as [F5 S5].
  apply (workspace_spawn_done su (runs su) _ (if stdin then SdPiped else SdNull) SdPiped SdPiped)
    in Hs as (now & command & R1 & R2 & Hspawn & Hcommand); [|by destruct stdin|done..].
  apply op_bind_done in H as ([[stop out] err] & s6 & Hr & H).
  apply run_process_done in Hr as ([F6 S6] & Hstop & Hinput & Hout & Herr); [|done].
  destruct out as [out|e], err as [err|e']; cbn in H;
    try (by apply op_bind_done in H as (? & ? & _ & H)); try done.
  destruct Hout as [Hout Hendo], Herr as [Herr Hende]. apply build_response_done in H as [S7 H]; [|done|by destruct stop|done..].
  assert (since st s4) as S14 by passes.
  exists stdin, environment, now, command, (ph_child handle), stop. split_and!; try done.
  - eapply stdin_within; [exact S1|exact Hstdin|passes].
  - etrans; [apply S14|exact R1].
  - etrans; [exact R2|]. etrans; [apply S6|apply S7].
  - eapply (command_within su (runs su)); [apply S14|exact Hcommand|reflexivity].
  - eapply stop_within; [|exact Hstop|exact S7]. by etrans.
  - eapply answer_within; [|exact H]. passes.
Qed.
End facts.
