(* ===== verification/Batch.v ===== *)
(** * Batch: the dispatch of requests and batches

    crates/ash-ops/src/lib.rs and crates/ash-ops/src/batch.rs: a request is authorized and
    goes to its operation, a batch runs its nodes through the scheduler of [Dag].  A node
    runs as a program of its own, with its own counters and its own path dictionary over the
    session of its parent: what the world shows to that program ([Children]), and which of
    the running nodes ends next, are arbitrary; what the nodes do to the session is among
    the others' moves for the parent, which waits. *)

From S2P Require Import Prelude Text Graph Glob AsonModel AsonCodec AsonSound Capability Request RequestFacts.
From S2P Require Import RequestEnvelope Response ResponseFacts Budget Dag Paths Store Capture Governor Runtime Workspace.
From S2P Require Import Disk Mutation Permits NativeTree Projection ProjectionFacts Patch Authorization WorkspaceRead.
From S2P Require Import Semantic ServiceFacts Queries SnapshotManifest Snapshot Reference Process Streams Exec.

(** ** Operations *)

Section leaves.
Context `{lib : Libraries} `{sort : UnstableSort} `{engine : RegexEngine} `{host : ProcessHost} `{spool : SpoolWrites}.

Definition execute_leaf (request : Request) : op OperationError FinalResponse :=
  match rq_arguments request with
  | AExec a => exec_execute request a
  | ARead a => read_execute request a
  | AList a => list_execute request a
  | ASearch a => search_execute request a
  | APatch a => patch_execute request a
  | AFs actions => fs_execute request actions
  | ASnapshot a => snapshot_execute request a
  | ARef a => reference_execute request a
  | ABatch _ | ACancel _ => op_fail OE_Unsupported
  end.

(** An error becomes an answer. *)
Definition answering (request_id : Z) (m : op OperationError FinalResponse) : op OperationError FinalResponse :=
  r ← op_try m;
  match r with
  | Ok response => mret response
  | Err e => op_lift (into_response e request_id)
  end.

Definition execute_leaf_response (request : Request) : op OperationError FinalResponse :=
  answering (rq_id request) (execute_leaf request).

(** ** Nodes *)

(** What the world shows to the program of a node, by the node's identifier, and the order
    in which the running nodes end. *)
Class Children : Type := { child_view : Z -> Surroundings * Progress; child_order : nat -> nat }.

(** The session of the parent around what the world shows to a child. *)
Definition in_session (su view : Surroundings) : Surroundings :=
  mkSurroundings (su_system view) (su_cancelled view) (su_now view) (su_permit view) (su_worker view) (su_spool view)
    (su_others view) (su_session su) (su_store su) (su_store_limits su) (su_clock view) (su_poisoned view)
    (su_root su) (su_tree view) (su_priority view).

(** [Program::child]: counters and a dictionary of its own. *)
Definition child_program (budget : Budget) (output_limit deadline max_paths : Z) (st : Progress) : result EngineError Progress :=
  tracker ← map_err EE_Budget (BudgetTracker_new_with_deadline budget output_limit deadline);
  paths ← map_err EE_Paths (PathDictionary_new max_paths);
  Ok (mkProgress (pg_world st) (with_paths paths (with_budget tracker (pg_shared st))) (pg_turn st)).

Record Executed : Type := mkExecuted { xe_state : BatchNodeState; xe_status : Status; xe_encoded : bytes }.

(** What the nodes of a batch share. *)
Record BatchContext : Type := mkBatchContext {
  bc_budget : Budget; bc_output : Z; bc_deadline : Z; bc_max_paths : Z; bc_surroundings : Surroundings }.

Section nodes.
Context `{children : Children} (context : BatchContext).

Definition execute_node_response (node : BatchNode) : Outcome OperationError FinalResponse :=
  match Request_new (node_id node) (node_arguments node) (bc_budget context) with
  | Err _ => Fail_ OE_InvalidArgument
  | Ok request =>
      let '(view, st) := child_view (node_id node) in
      match child_program (bc_budget context) (bc_output context) (bc_deadline context) (bc_max_paths context) st with
      | Err e => Fail_ (OE_Engine e)
      | Ok st => ((_ ← acquire; execute_leaf_response request) (in_session (bc_surroundings context) view) st).1
      end
  end.

(** The answer of a node; none when the process dies. *)
Definition node_answer (node : BatchNode) : option (result OperationError FinalResponse) :=
  match execute_node_response node with
  | Done response => Some (Ok response)
  | Fail_ e => Some (into_response e (node_id node))
  | Crash => None
  end.

Definition node_state (status : Status) : BatchNodeState :=
  match status with Success => BSucceeded | SCancelled => BCancelled | _ => BFailed end.

Definition execute_node (node : BatchNode) : result OperationError (option Executed) :=
  match node_answer node with
  | None => Ok None
  | Some answer =>
      response ← answer;
      text ← encoded response;
      Ok (Some (mkExecuted (node_state (fp_status response)) (fp_status response) (str_bytes text)))
  end.

(** The closure that [execute_dag] runs. *)
Definition run_node (node : BatchNode) : result OperationError (DagCompletion (option Executed)) :=
  outcome ← execute_node node;
  Ok (mkCompletion outcome (match outcome with Some x => bool_decide (xe_state x = BSucceeded) | None => false end)).
End nodes.
End leaves.

(** ** The graph and the rows *)

Definition build_graph (nodes : list BatchNode) : result OperationError (list (DagNode BatchNode)) :=
  let positions := positions_of nodes in
  mapM (fun node =>
    dependencies ← mapM (fun dependency => ok_or (positions !! dependency) OE_InvalidArgument) (node_dependencies node);
    Ok (mkDagNode dependencies node)) nodes.

Definition batch_row (node : BatchNode) (state : BatchNodeState) (status : option Status) (reference : option Z) : BatchNodeResult :=
  mkBatchResult (node_id node) (Arguments_operation (node_arguments node)) state status reference.

Definition batch_error : ErrorRecord := mkErrorRecord BatchFailed Never StExecute None None.

Definition batch_failure (request : Request) (rows : list BatchNodeResult) : result OperationError FinalResponse :=
  map_err OE_Response (FinalResponse_failure (rq_id request) SFailed batch_error [] (Some (DBatch rows))
    (Z.lor RESULT_RETAINED RESULT_PARTIAL) None).

Definition preflight_response (request : Request) (nodes : list BatchNode) : op OperationError unit :=
  response ← op_lift (batch_failure request ((fun node => batch_row node BFailed (Some SInternal) (Some u64_max)) <$> nodes));
  text ← op_lift (encoded response);
  limit ← presentation_limit;
  if limit <? str_len text then op_fail OE_OutputBudget else mret tt.

(** The rows, the aliases that are left over and whether every node succeeded. *)
Fixpoint collect_results (nodes : list BatchNode) (outcomes : list (DagOutcome (option Executed))) (aliases : list Z)
    (all_succeeded : bool) : result OperationError (list BatchNodeResult * list Z * bool) :=
  match nodes, outcomes with
  | node :: nodes, outcome :: outcomes =>
      match outcome with
      | Completed (Some executed) =>
          match aliases with
          | [] => Err OE_InvalidArgument
          | alias :: aliases =>
              '(rows, aliases, all_succeeded) ← collect_results nodes outcomes aliases
                (all_succeeded && bool_decide (xe_state executed = BSucceeded));
              Ok (batch_row node (xe_state executed) (Some (xe_status executed)) (Some alias) :: rows, aliases, all_succeeded)
          end
      | Completed None | Skipped =>
          '(rows, aliases, all_succeeded) ← collect_results nodes outcomes aliases false;
          Ok (batch_row node BSkipped None None :: rows, aliases, all_succeeded)
      end
  | _, _ => Ok ([], aliases, all_succeeded)
  end.

Definition died (outcome : DagOutcome (option Executed)) : bool :=
  match outcome with Completed None => true | _ => false end.
Definition documents (outcomes : list (DagOutcome (option Executed))) : list bytes :=
  omap (fun outcome => match outcome with Completed (Some executed) => Some (xe_encoded executed) | _ => None end) outcomes.

(** ** The batch *)

Section batch.
Context `{lib : Libraries} `{sort : UnstableSort} `{engine : RegexEngine} `{host : ProcessHost} `{spool : SpoolWrites}.
Context `{children : Children}.

Definition op_crash {E A} : op E A := fun su st => (Crash, others su st).

(** [ResultStore::retain_many]. *)
Definition retain_documents (data : list bytes) : op OperationError (list Z) :=
  su ← get_surroundings;
  io ← ask su_spool;
  shared (fun sh =>
    match retain_many blake3 io (su_store su) (su_store_limits su) data (sh_store sh) with
    | Ok (aliases, store) => (Ok aliases, with_store store sh)
    | Err e => (Err (OE_Store e), sh)
    end).

(** The share of each node; a request has no empty batch.  The deadline and the ceiling of
    the dictionary never change. *)
Definition batch_context (request : Request) (nodes : list BatchNode) : op OperationError BatchContext :=
  if u32_max <? len nodes then op_fail OE_WorkLimit
  else
    let tokens := b_tokens (rq_budget request) / len nodes in
    let records := b_records (rq_budget request) / len nodes in
    '(available, deadline, max_paths) ← shared (fun sh =>
      let left := Budget.remaining (sh_budget sh) in (Ok (br_output_bytes left, br_deadline left, pd_max_entries (sh_paths sh)), sh));
    let output := available / len nodes in
    if (tokens =? 0) || (records =? 0) || (output =? 0) then op_fail OE_OutputBudget
    else
      budget ← op_lift (map_err (fun _ => OE_InvalidArgument) (Budget_new tokens records (b_millis (rq_budget request))));
      su ← get_surroundings;
      mret (mkBatchContext budget output deadline max_paths su).

Definition run_nodes (context : BatchContext) (nodes : list BatchNode) : op OperationError (list (DagOutcome (option Executed))) :=
  graph ← op_lift (build_graph nodes);
  outcomes ← op_lift (match execute_dag (run_node context) child_order graph with
                      | Some (Ok outcomes) => Ok outcomes
                      | Some (Err InvalidGraph) => Err OE_InvalidArgument
                      | Some (Err (Task e)) => Err e
                      | None => Err OE_Task
                      end);
  if existsb died outcomes then op_crash else mret outcomes.

Definition batch_response (request : Request) (rows : list BatchNodeResult) (all_succeeded : bool) : result OperationError FinalResponse :=
  if all_succeeded then map_err OE_Response (FinalResponse_success (rq_id request) [] (DBatch rows) RESULT_RETAINED None)
  else batch_failure request rows.

Definition batch_execute (request : Request) (nodes : list BatchNode) : op OperationError FinalResponse :=
  context ← batch_context request nodes;
  _ ← preflight_response request nodes;
  outcomes ← run_nodes context nodes;
  aliases ← retain_documents (documents outcomes);
  '(rows, aliases, all_succeeded) ← op_lift (collect_results nodes outcomes aliases true);
  if negb (bool_decide (aliases = [])) then op_fail OE_InvalidArgument
  else
    response ← op_lift (batch_response request rows all_succeeded);
    _ ← charge response (len nodes);
    mret response.

(** ** [PortableOperations::execute] *)

Definition execute (keyed_hash : bytes -> bytes -> bytes) (policy : AuthorizationPolicy) (request : Request)
    : op OperationError FinalResponse :=
  answering (rq_id request)
    (authorized ← authorize blake3 keyed_hash policy request;
     match authorized with
     | Some response => mret response
     | None =>
         match rq_arguments request with
         | ABatch nodes => batch_execute request nodes
         | _ => execute_leaf request
         end
     end).
End batch.

(** ** Facts: the rows of a batch *)

(** A node runs when every node it depends on has succeeded. *)
Definition ran (rows : list BatchNodeResult) (node : BatchNode) : Prop :=
  Forall (fun dependency => exists row, row ∈ rows /\ br_id row = dependency /\ br_state row = BSucceeded) (node_dependencies node).

Definition row_succeeded (row : BatchNodeResult) : bool := bool_decide (br_state row = BSucceeded).

Section facts.
Context `{lib : Libraries} `{sort : UnstableSort} `{engine : RegexEngine} `{host : ProcessHost} `{spool : SpoolWrites}.
Context `{children : Children} (su : Surroundings).

(** The answer of a node as the client would get it: of its operation, or of its error. *)
Definition answer_of (context : BatchContext) (node : BatchNode) (answer : FinalResponse) : Prop :=
  match execute_node_response context node with
  | Done r => answer = r
  | Fail_ e => let '(status, code, retry, stage) := classification e in
      answer = mkResponse (node_id node) status [] None (Some (mkErrorRecord code retry stage None None)) 0 None
  | Crash => False
  end.

(** The row of a node that ran is about its own answer, whose document is retained. *)
Definition tells (st : Progress) (context : BatchContext) (node : BatchNode) (row : BatchNodeResult) : Prop :=
  exists answer text reference,
    answer_of context node answer /\ encoded answer = Ok text /\ retained su st reference (str_bytes text)
    /\ row = mkBatchResult (node_id node) (Arguments_operation (node_arguments node))
               match fp_status answer with Success => BSucceeded | SCancelled => BCancelled | _ => BFailed end
               (Some (fp_status answer)) (Some reference).

Lemma node_answer_done context node answer : node_answer context node = Some (Ok answer) -> answer_of context node answer.
Proof.
  unfold node_answer, answer_of. destruct (execute_node_response context node) as [r|e|]; [by intros [= ->]| |done].
  intros [= H]. unfold into_response in H. destruct (classification e) as [[[status code] retry] stage].
  apply map_err_ok, FinalResponse_new_ok in H. apply H.
Qed.

Definition row_true (st : Progress) (context : BatchContext) (rows : list BatchNodeResult) (node : BatchNode) (row : BatchNodeResult) : Prop :=
  (ran rows node /\ tells st context node row)
  \/ (~ ran rows node /\ row = mkBatchResult (node_id node) (Arguments_operation (node_arguments node)) BSkipped None None).

(** The shares of the nodes. *)
Definition context_true (request : Request) (nodes : list BatchNode) (st : Progress) (context : BatchContext) : Prop :=
  b_tokens (bc_budget context) = b_tokens (rq_budget request) / len nodes
  /\ b_records (bc_budget context) = b_records (rq_budget request) / len nodes
  /\ b_millis (bc_budget context) = b_millis (rq_budget request)
  /\ bc_deadline context = bt_deadline (sh_budget (pg_shared st))
  /\ (exists now, runs su st now /\ bc_max_paths context = pd_max_entries (sh_paths (pg_shared now))
        /\ bc_output context = br_output_bytes (Budget.remaining (sh_budget (pg_shared now))) / len nodes)
  /\ bc_surroundings context = su.

Definition batch_true (request : Request) (nodes : list BatchNode) (st st' : Progress) (r : FinalResponse) : Prop :=
  exists context rows,
    context_true request nodes st context /\ Forall2 (row_true st' context rows) nodes rows
    /\ r = if forallb row_succeeded rows then mkResponse (rq_id request) Success [] (Some (DBatch rows)) None RESULT_RETAINED None
           else mkResponse (rq_id request) SFailed [] (Some (DBatch rows)) (Some (mkErrorRecord BatchFailed Never StExecute None None))
                  (Z.lor RESULT_RETAINED RESULT_PARTIAL) None.

(** *** The outcome of each node *)

Definition outcome_row (st : Progress) (node : BatchNode) (outcome : DagOutcome (option Executed)) (row : BatchNodeResult) : Prop :=
  match outcome with
  | Completed (Some x) => exists reference, retained su st reference (xe_encoded x)
      /\ row = batch_row node (xe_state x) (Some (xe_status x)) (Some reference)
  | _ => row = batch_row node BSkipped None None
  end.

Lemma collect_results_done st nodes : forall outcomes aliases b rows rest all,
  length nodes = length outcomes -> Forall2 (fun data reference => retained su st reference data) (documents outcomes) aliases ->
  collect_results nodes outcomes aliases b = Ok (rows, rest, all) ->
  length rows = length nodes /\ all = b && forallb row_succeeded rows
  /\ forall i node outcome, nodes !! i = Some node -> outcomes !! i = Some outcome -> exists row, rows !! i = Some row /\ outcome_row st node outcome row.
Proof.
  induction nodes as [|node nodes IH]; intros [|outcome outcomes] aliases b rows rest all Hl HF H; cbn in Hl; try done.
  { cbn in H. injection H as <- _ <-. by rewrite andb_true_r. }
  cbn [collect_results] in H.
  assert (forall aliases' b' row, Forall2 (fun data reference => retained su st reference data) (documents outcomes) aliases' ->
    ('(rows, aliases, all) ← collect_results nodes outcomes aliases' b'; Ok (row :: rows, aliases, all)) = Ok (rows, rest, all) ->
    outcome_row st node outcome row -> b' = b && row_succeeded row ->
    length rows = length (node :: nodes) /\ all = b && forallb row_succeeded rows
    /\ forall i n o, (node :: nodes) !! i = Some n -> (outcome :: outcomes) !! i = Some o -> exists row, rows !! i = Some row /\ outcome_row st n o row) as Hstep.
  { intros aliases' b' row HF' Hc Hrow Hb. apply bind_ok in Hc as ([[rows' rest'] all'] & Hc & Hr). injection Hr as <- <- <-.
    apply IH in Hc as (H1 & -> & H3); [|lia|done]. cbn. split; [lia|]. split; [by rewrite Hb, andb_assoc|].
    intros [|i] n o Hn Ho; cbn in *; [simplify_eq; eauto|eauto]. }
  destruct outcome as [[x|]|].
  - cbn in HF. destruct aliases as [|alias aliases]; [done|]. apply list.Forall2_cons in HF as [Hh HF].
    eapply Hstep; [exact HF|exact H|by exists alias|done].
  - eapply Hstep; [exact HF|exact H|done|]. cbn. by rewrite andb_false_r.
  - eapply Hstep; [exact HF|exact H|done|]. cbn. by rewrite andb_false_r.
Qed.

Lemma build_graph_done nodes graph :
  NoDup (node_id <$> nodes) -> build_graph nodes = Ok graph ->
  Forall2 (fun node g => dn_job g = node
    /\ Forall2 (fun dependency j => (node_id <$> nodes) !! j = Some dependency) (node_dependencies node) (dn_dependencies g)) nodes graph.
Proof.
  intros Hnd H. unfold build_graph in H. cbv zeta in H. apply mapM_ok in H. eapply list.Forall2_impl; [exact H|].
  intros node g Hg. apply bind_ok in Hg as (dependencies & Hd%mapM_ok & Hg). injection Hg as <-. split; [done|].
  eapply list.Forall2_impl; [exact Hd|]. intros d j Hj%ok_or_ok. by apply positions_of_lookup in Hj.
Qed.

(** What the scheduler makes of the nodes: each runs exactly when all it depends on succeeds. *)
Lemma run_nodes_done context nodes st outcomes st' :
  NoDup (node_id <$> nodes) -> run_nodes context nodes su st = (Done outcomes, st') ->
  exists success : nat -> bool, length outcomes = length nodes
    /\ forall i node, nodes !! i = Some node -> exists dependencies outcome,
         Forall2 (fun d j => (node_id <$> nodes) !! j = Some d) (node_dependencies node) dependencies
         /\ outcomes !! i = Some outcome
         /\ if forallb success dependencies
            then exists x, outcome = Completed (Some x) /\ execute_node context node = Ok (Some x)
                   /\ success i = bool_decide (xe_state x = BSucceeded)
            else outcome = Skipped /\ success i = false.
Proof.
  intros Hnd H. unfold run_nodes in H. apply op_bind_done in H as (graph & s1 & [Hg ->]%op_lift_done & H).
  apply build_graph_done in Hg; [|done]. apply op_bind_done in H as (os & s2 & [Ho ->]%op_lift_done & H).
  destruct (existsb died os) eqn:Hdied; [done|]. injection H as -> _.
  destruct (Dag.validate (E := OperationError) graph) as [[]|e] eqn:Hv;
    [apply validate_ok in Hv as Hok|by rewrite execute_dag_invalid in Ho by (rewrite <- (validate_ok (E := OperationError)); congruence)].
  rewrite execute_dag_ok in Ho by done. unfold dag_spec in Ho. destruct (mapM _ graph) as [os|] eqn:HM; [|done]. injection Ho as ->.
  apply mapM_ok in HM. exists (succeeds (run_node context) (length graph) graph).
  split; [apply Forall2_length in HM, Hg; congruence|]. intros i node Hi.
  destruct (Forall2_lookup_l _ _ _ _ _ Hg Hi) as (g & Hgi & <- & Hd).
  destruct (Forall2_lookup_l _ _ _ _ _ HM Hgi) as (outcome & Hoi & Hr). exists (dn_dependencies g), outcome. split_and!; [done..|].
  rewrite (succeeds_equation (run_node context) graph (dag_ok_graph _ Hok) (proj2 (proj2 Hok)) i g Hgi).
  unfold node_result in Hr. destruct (forallb _ _); cbn [andb]; [|by injection Hr as <-].
  unfold run_node in *. destruct (execute_node context (dn_job g)) as [x|e]; [|done]. cbn in Hr |- *. injection Hr as <-.
  destruct x as [x|]; [by exists x|]. exfalso.
  assert (existsb died outcomes = true) as Ht; [|congruence]. apply existsb_exists. exists (Completed None). split; [|done].
  apply list_elem_of_In. by eapply list_elem_of_lookup_2.
Qed.

(** *** The rows are true *)

Lemma row_state_reference st node outcome row :
  outcome_row st node outcome row -> br_id row = node_id node.
Proof. destruct outcome as [[x|]|]; cbn; [intros (? & _ & ->)|intros ->..]; done. Qed.

Lemma ran_success nodes rows node dependencies (success : nat -> bool) :
  NoDup (node_id <$> nodes) -> br_id <$> rows = node_id <$> nodes ->
  (forall i row, rows !! i = Some row -> br_state row = BSucceeded <-> success i = true) ->
  Forall2 (fun d j => (node_id <$> nodes) !! j = Some d) (node_dependencies node) dependencies ->
  ran rows node <-> forallb success dependencies = true.
Proof.
  intros Hnd Hids Hs HF. rewrite <- Hids in HF, Hnd. unfold ran. generalize (node_dependencies node), HF. clear HF.
  intros ds HF. induction HF as [|d j ds dependencies Hj _ IH]; [done|]. cbn. rewrite list.Forall_cons, andb_true_iff, IH.
  assert ((exists row, row ∈ rows /\ br_id row = d /\ br_state row = BSucceeded) <-> success j = true) as ->; [|done].
  pose proof Hj as Hr. apply list_lookup_fmap_Some in Hr as (row & Hid & Hrow). rewrite <- (Hs j row Hrow). split.
  - intros (row' & [k Hk]%list_elem_of_lookup_1 & Hid' & Hst).
    assert (k = j) as ->; [|congruence]. apply (NoDup_lookup _ _ _ d Hnd); [|done]. rewrite list_lookup_fmap, Hk. cbn. congruence.
  - intros Hst. exists row. split_and!; [by eapply list_elem_of_lookup_2|done|done].
Qed.

Lemma node_state_skips status : node_state status <> BSkipped.
Proof. by destruct status. Qed.

Context (Hcompany : sound_company su) (Hentries : sl_max_entries (su_store_limits su) < u64_max).

Lemma retain_many_later io data state aliases state' :
  state_ok blake3 (su_store_limits su) state ->
  retain_many blake3 io (su_store su) (su_store_limits su) data state = Ok (aliases, state') ->
  state_ok blake3 (su_store_limits su) state' /\ later state state' /\ forall alias, lasts alias state state'.
Proof.
  intros Hst H. unfold retain_many in H. apply bind_ok in H as (pending & Hp & H).
  apply (prepare_all_ok blake3 (su_store su)) in Hp as (Hp & _). by eapply retain_pending_later.
Qed.

Lemma always_retain_documents data : always_fine su (retain_documents data).
Proof.
  unfold retain_documents. apply always_surroundings. always. apply (always_shared su Hcompany). intros sh [H1 H2 H3].
  destruct (retain_many _ _ _ _ _ _) as [[aliases store]|] eqn:Hr; [|done].
  destruct (retain_many_later _ _ _ _ _ H3 Hr) as (R1 & R2 & R3). split; by split.
Qed.

Lemma retain_documents_done data st references st' :
  fine su st -> retain_documents data su st = (Done references, st') ->
  Forall2 (fun data reference => retained su st' reference data) data references.
Proof.
  intros Hst H. assert (fine su st') as Hst' by (eapply (always_done su); [apply always_retain_documents|exact Hst|exact H]).
  unfold retain_documents in H. apply op_bind_done in H as (su' & s1 & Hsu & H). injection Hsu as <- <-.
  apply op_bind_done in H as (io & s2 & Ha & H). injection Ha as _ <-. apply (others_fine su Hcompany), (others_fine su Hcompany) in Hst.
  unfold shared in H. set (s3 := others su (others su st)) in *. destruct (retain_many _ _ _ _ _ _) as [[aliases state]|] eqn:Hr; [|done].
  injection H as -> <-. destruct Hst as [_ _ Hs]. apply (retained_entries blake3) in Hr as (_ & _ & HF); [|done..].
  eapply list.Forall2_impl; [exact HF|]. intros b alias Hb. by apply named_retained.
Qed.

Lemma execute_node_done context node x :
  execute_node context node = Ok (Some x) ->
  exists answer text, node_answer context node = Some (Ok answer) /\ encoded answer = Ok text
    /\ x = mkExecuted (node_state (fp_status answer)) (fp_status answer) (str_bytes text).
Proof.
  unfold execute_node. destruct (node_answer context node) as [[answer|e]|]; [|done..]. intros H.
  apply bind_ok in H as (response & Ha & H). injection Ha as <-. apply bind_ok in H as (text & Ht & H). injection H as <-. by exists answer, text.
Qed.

Lemma always_batch_context request nodes : always_fine su (batch_context request nodes).
Proof. unfold batch_context. always. by apply (always_shared su Hcompany). Qed.

Lemma batch_context_done request nodes st context st' :
  fine su st -> batch_context request nodes su st = (Done context, st') -> context_true request nodes st context.
Proof.
  intros Hst H. unfold batch_context in H. destruct (_ <? _); [done|]. cbv zeta in H.
  apply op_bind_done in H as ([[available deadline] paths] & s1 & Hs & H). destruct (_ || _); [done|].
  apply op_bind_done in H as (budget & s2 & [Hb%map_err_ok ->]%op_lift_done & H). unfold Budget_new in Hb.
  apply bind_ok in Hb as ([] & _ & Hb). injection Hb as <-. injection H as <- _.
  apply (others_since su Hcompany) in Hst as [_ [[_ _ Hd] Hr]]. injection Hs as <- <- <- _.
  split_and!; [done..| |done]. by exists (others su st).
Qed.

Lemma batch_rows_true st context nodes outcomes rows success :
  NoDup (node_id <$> nodes) -> length outcomes = length nodes -> length rows = length nodes ->
  (forall i node, nodes !! i = Some node -> exists dependencies outcome,
     Forall2 (fun d j => (node_id <$> nodes) !! j = Some d) (node_dependencies node) dependencies
     /\ outcomes !! i = Some outcome
     /\ if forallb success dependencies
        then exists x, outcome = Completed (Some x) /\ execute_node context node = Ok (Some x)
               /\ success i = bool_decide (xe_state x = BSucceeded)
        else outcome = Skipped /\ success i = false) ->
  (forall i node outcome, nodes !! i = Some node -> outcomes !! i = Some outcome -> exists row, rows !! i = Some row /\ outcome_row st node outcome row) ->
  Forall2 (row_true st context rows) nodes rows.
Proof.
  intros Hnd Hlo Hlr Hrun Hrows.
  assert (br_id <$> rows = node_id <$> nodes) as Hids.
  { apply list_eq_same_length with (length nodes); [by rewrite length_fmap..|]. intros i x y Hi Hx Hy.
    apply list_lookup_fmap_Some in Hx as (row & -> & Hx), Hy as (node & -> & Hy).
    destruct (Hrun i node Hy) as (_ & outcome & _ & Ho & _). destruct (Hrows i node outcome Hy Ho) as (row' & Hr' & Hrow).
    rewrite Hx in Hr'. injection Hr' as <-. by eapply row_state_reference. }
  assert (forall i row, rows !! i = Some row -> br_state row = BSucceeded <-> success i = true) as Hs.
  { intros i row Hi. destruct (lookup_lt_is_Some_2 nodes i) as [node Hn]; [rewrite <- Hlr; by eapply lookup_lt_Some|].
    destruct (Hrun i node Hn) as (deps & outcome & _ & Ho & Hif). destruct (Hrows i node outcome Hn Ho) as (row' & Hr' & Hrow).
    rewrite Hi in Hr'. injection Hr' as <-. destruct (forallb success deps).
    - destruct Hif as (x & -> & _ & ->). destruct Hrow as (reference & _ & ->). cbn. by rewrite bool_decide_eq_true.
    - destruct Hif as [-> ->]. cbn in Hrow. by subst row. }
  apply Forall2_same_length_lookup. split; [done|]. intros i node row Hn Hi.
  destruct (Hrun i node Hn) as (deps & outcome & HF & Ho & Hif). destruct (Hrows i node outcome Hn Ho) as (row' & Hr' & Hrow).
  rewrite Hi in Hr'. injection Hr' as <-. pose proof (ran_success nodes rows node deps success Hnd Hids Hs HF) as Hran.
  unfold row_true. destruct (forallb success deps).
  - left. split; [by apply Hran|]. destruct Hif as (x & -> & Hx & _). destruct Hrow as (reference & Hh & ->).
    apply execute_node_done in Hx as (answer & text & H1%node_answer_done & H2 & ->). by exists answer, text, reference.
  - right. split; [by rewrite Hran|]. destruct Hif as [-> _]. exact Hrow.
Qed.

Lemma batch_execute_true request nodes st r st' :
  NoDup (node_id <$> nodes) -> fine su st -> batch_execute request nodes su st = (Done r, st') -> batch_true request nodes st st' r.
Proof.
  intros Hnd Hst H. unfold batch_execute in H. apply op_bind_done in H as (context & s1 & Hc & H).
  pose proof (always_done su _ _ _ _ (always_batch_context _ _) Hst Hc) as H1.
  apply batch_context_done in Hc; [|done]. apply op_bind_done in H as (? & s2 & Hp & H).
  assert (fine su s2) as H2.
  { eapply (always_done su); [|exact H1|exact Hp]. pose proof (always_limit su Hcompany). unfold preflight_response. always. }
  apply op_bind_done in H as (outcomes & s3 & Hrun & H).
  assert (fine su s3) as H3.
  { eapply (always_done su); [|exact H2|exact Hrun]. unfold run_nodes. always. intros s Hs. by apply (others_since su Hcompany). }
  apply run_nodes_done in Hrun as (success & Hl & Hrun); [|done]. apply op_bind_done in H as (aliases & s4 & Ha & H).
  pose proof (always_done su _ _ _ _ (always_retain_documents _) H3 Ha) as H4. apply retain_documents_done in Ha; [|done].
  assert (since su s4 st') as Hs.
  { eapply (always_since su); [|exact H4|exact H]. pose proof (always_charge su Hcompany). always. }
  apply op_bind_done in H as ([[rows rest] all] & s5 & [Hrows ->]%op_lift_done & H).
  apply (collect_results_done st') in Hrows as (Hlr & -> & Hrows); [| |];
    [|done|eapply list.Forall2_impl; [exact Ha|]; intros b reference; by apply retained_since].
  case_bool_decide; [|done]. cbn [negb] in H.
  apply op_bind_done in H as (response & s6 & [Hr ->]%op_lift_done & H). apply op_bind_done in H as (? & s7 & _ & H). injection H as <- _.
  exists context, rows. split; [done|]. split; [by eapply batch_rows_true|]. cbn [andb] in Hr. unfold batch_response in Hr.
  destruct (forallb row_succeeded rows); [by apply success_eq in Hr|].
  unfold batch_failure in Hr. apply map_err_ok, FinalResponse_new_ok in Hr. apply Hr.
Qed.
End facts.
