(* ===== verification/OpsProps.v ===== *)
(** * OpsProps: properties of the operations

    Patches and filesystem programs report what happened, edit what they were asked to,
    and always have room for their answer; a presentation is cut at the largest prefix
    that fits.  The witnesses run on the disk of [PlatformProps]. *)

From S2P Require Import Prelude Text Permits NativeTree AsonModel AsonCodec AsonScalarFacts.
From S2P Require Import Capability Request RequestFacts Response ResponseFacts Budget Paths.
From S2P Require Import Store Governor Runtime Projection Workspace Manifest Disk Mutation.
From S2P Require Import Transaction JournalState RollbackFacts Durable ApplyFacts Committing.
From S2P Require Import PrepareFacts Publishing Atomicity Rows ProjectionFacts Patch.
From S2P Require Import AnswerFacts PatchFacts PatchReports PlatformProps.

#[local] Existing Instance small_libraries.
#[local] Existing Instance small_laws.

(** ** A concrete program *)

Definition small_budget : BudgetTracker := mkTracker 100000 100000 100 1000 0 0.
Definition small_store : Store.State := mkState 1 0 0 ∅ ∅.
Lemma small_store_ok hash : Store.state_ok hash StoreLimits_default small_store.
Proof.
  split; [|reflexivity|done|discriminate|discriminate|done].
  split; intros k e He; destruct (lookup_empty_Some _ _ He).
Qed.

Definition small_shared : Shared := mkShared small_budget (mkDictionary 100 1 ∅) small_store
  authority_start.

Definition no_files : FileTree := mkFileTree (fun _ => Err NotFound) (fun _ => Err NotFound) (fun _ => Err NotFound)
  (fun _ => Err NotFound) (fun _ => Err NotFound) (fun _ => Err NotFound) (fun _ => Err NotFound) (fun _ _ _ => Err OtherIo).

(** No other task acts, nothing is cancelled and nothing fails. *)
Definition small_surroundings : Surroundings := mkSurroundings calm_environment (fun _ => false) (fun _ => 0)
  (fun _ => Ok tt) (fun _ => true) (fun _ => true) (fun _ sh d => (sh, d))
  1 0 StoreLimits_default (fun _ => Some 0) (fun _ => false) [47] (fun _ _ => no_files) (fun _ i => i).

Definition small_progress : Progress := mkProgress small_world small_shared 0.

(** No reference is in the archive. *)
Definition small_archive (_ : Z) (_ : bytes) : Prop := False.

Lemma small_company : good_company small_known small_archive small_surroundings.
Proof. by intros n sh d Hd Hsh. Qed.

Lemma small_shared_fine : shared_fine small_archive small_shared.
Proof.
  split; cbn; [lia| |by intros r e He; destruct (lookup_empty_Some _ _ He)].
  exists []. split; cbn; [done|constructor| |done].
  intros path id. rewrite lookup_empty. split; [done|]. by intros ?%elem_of_nil.
Qed.

Lemma small_sound : sound small_known small_disk.
Proof. split; [apply small_view_known|]. exists (view small_disk). split; [apply stands_quiet, small_quiet|apply small_view_known]. Qed.

(** The one byte of [b] becomes the byte 4. *)
Definition small_patch : PatchArgs :=
  mkPatch [L "b"] [hex_digest (small_hash [3])] [mkEdit 0 0 1 (PInline [4])] 0.
Definition small_program : list FsAction :=
  [Request.mkAction 1 FsCopy (L "a") (Some (L "d/a")) (Some (hex_digest (small_hash [1; 2]))) None;
   Request.mkAction 2 FsCreate (L "c") None None (Some (PInline [5]))].
Definition request_of (arguments : Arguments) : Request := mkRequest 7 arguments (mkBudget 100 100 100) None.

Example small_patch_runs :
  let r := patch_execute (request_of (APatch small_patch)) small_patch small_surroundings small_progress in
  match r.1 with Done answer => fp_status answer = Success | _ => False end
  /\ holds_at (pg_world r.2) [L "b"] = [Contents [4]].
Proof. vm_compute. split; reflexivity. Qed.

Example small_program_runs :
  let r := fs_execute (request_of (AFs small_program)) small_program small_surroundings small_progress in
  match r.1 with Done answer => fp_status answer = Success | _ => False end
  /\ holds_at (pg_world r.2) [L "a"; L "c"; L "d/a"] = [Contents [1; 2]; Contents [5]; Contents [1; 2]].
Proof. vm_compute. split; reflexivity. Qed.

(** ** The properties *)

Section properties.
Context `{lib : Libraries} `{laws : !LibraryLaws lib}.

(** C4: Whatever the other tasks do between a patch's turns, its answer is true: success
    means that every file had the contents of the expected digest and now has exactly
    those contents with the edits carried out, and nothing else changed; a failure that
    nothing changed; only a demand for recovery leaves the two open.  An error leaves
    what the others did, and a process that dies leaves all files edited or none. *)
Theorem patch_reports_true known archive su request a st :
  tells_apart known -> whole_removals (su_system su) -> good_company known archive su ->
  sound known (disk_of st) -> shared_fine archive (pg_shared st) ->
  rq_id request <> 0 -> patch_request a -> edits_known known archive a ->
  let d := disk_of st in
  match patch_execute request a su st with
  | (Done r, st') => patch_true archive su d (rq_id request) a r (disk_of st')
  | (Fail_ _, st') => rtc (moves su) d (disk_of st')
  | (Crash, st') => rtc (moves su) d (disk_of st') \/ patch_cut archive su d a (disk_of st')
  end.
Proof.
  intros Hinj Hw Hc Hs Hf Hid Ha Hk d.
  exact (patch_execute_true known archive su Hc Hinj Hw d request a Hid Ha Hk st (mkCalm _ _ _ _ _ (rtc_refl _ _) Hs Hf)).
Qed.

(** C5: The same of a filesystem program: success means that all its actions, with the
    contents and digests of the request, happened in order on the workspace the others
    left, a failure or an error that none did. *)
Theorem fs_reports_true known archive su request rs st :
  tells_apart known -> whole_removals (su_system su) -> good_company known archive su ->
  sound known (disk_of st) -> shared_fine archive (pg_shared st) ->
  rq_id request <> 0 -> fs_request rs -> contents_known known archive rs ->
  let d := disk_of st in
  match fs_execute request rs su st with
  | (Done r, st') => fs_true archive su d (rq_id request) rs r (disk_of st')
  | (Fail_ _, st') => fs_nothing su d (disk_of st')
  | (Crash, st') => fs_nothing su d (disk_of st') \/ fs_cut archive su d rs (disk_of st')
  end.
Proof.
  intros Hinj Hw Hc Hs Hf Hid Ha Hk d.
  exact (fs_execute_true known archive su Hc Hinj Hw d request rs Hid Ha Hk st (mkCalm _ _ _ _ _ (rtc_refl _ _) Hs Hf)).
Qed.

End properties.

(** C38: The answer to a patch can be built whatever its transaction reports, and is no
    longer than the answer that was reserved before the transaction ran; so it is for a
    filesystem program. *)
Theorem mutation_answers_fit request_id :
  1 <= request_id ->
  (forall paths ids mappings rows failure,
    Forall path_sound paths -> NoDup paths -> paths <> [] -> len paths <= 1000 ->
    numbering paths ids mappings -> patch_shape (length paths) rows failure ->
    let '(wide, temporary) := temporary_paths paths in
    exists r worst text reserved,
      make_response request_id mappings ids rows failure = Ok r /\ encoded r = Ok text
      /\ make_response request_id temporary wide (repeat worst_row (length paths)) (Some XRecoveryRequired) = Ok worst
      /\ encoded worst = Ok reserved /\ str_len text <= str_len reserved)
  /\ (forall actions ids mappings outcomes failure,
    fs_request actions -> numbering (response_paths actions) ids mappings ->
    fs_shape (length actions) outcomes failure ->
    let '(wide, temporary) := temporary_paths (response_paths actions) in
    exists r worst text reserved,
      fs_make_response request_id mappings ids actions outcomes failure = Ok r /\ encoded r = Ok text
      /\ fs_make_response request_id temporary wide actions (repeat worst_outcome (length actions))
           (Some FT_RecoveryRequired) = Ok worst
      /\ encoded worst = Ok reserved /\ str_len text <= str_len reserved).
Proof.
  intros Hid. split.
  - intros paths ids mappings rows failure Hp Hn Hne Hlen Hnum Hs.
    pose proof (temporary_numbering paths Hp ltac:(lia)) as Htmp.
    pose proof (patch_answer_fits request_id paths ids mappings rows failure Hid Hp Hlen Hnum Hs) as Hfit.
    destruct (temporary_paths paths) as [wide temporary]. cbn in Htmp, Hfit.
    eexists _, _, _, _. split; [by eapply patch_answer_built; [lia|..]|]. split; [apply encoded_eq|].
    split; [eapply patch_answer_built; [lia|done..|]|split; [apply encoded_eq|exact Hfit]].
    split; [apply repeat_length| |done|done]. apply list.Forall_forall. intros r Hr.
    apply list_elem_of_In, repeat_spec in Hr as ->. split; [right; apply some_digest_hex, worst_digest_ok|].
    intros dg [= <-]. apply worst_digest_ok.
  - intros actions ids mappings outcomes failure Hr Hnum Hs.
    destruct (fs_request_paths actions Hr) as (Hp & _ & _ & Hlen).
    pose proof (temporary_numbering (response_paths actions) Hp ltac:(lia)) as Htmp.
    pose proof (fs_answer_fits request_id actions ids mappings outcomes failure) as Hfit.
    destruct (fs_answer_built request_id actions ids mappings outcomes failure) as (rows & Er & Eb); [lia|apply Hr|done|done|].
    destruct (fs_answer_built request_id actions _ _ (worst_outcomes actions) (Some FT_RecoveryRequired) ltac:(lia)
      (fq_valid _ Hr) Htmp (worst_shape actions)) as (wrows & Ew & Ebw).
    specialize (Hfit rows wrows Hid Hp ltac:(lia) Hnum Hs Er Ew).
    destruct (temporary_paths (response_paths actions)) as [wide temporary].
    eexists _, _, _, _. split; [exact Eb|]. split; [apply encoded_eq|]. split; [exact Ebw|].
    split; [apply encoded_eq|exact Hfit].
Qed.

(** Editing goes forward over the original with a cursor; it succeeds exactly when
    the edits lie in order within the original, and then it makes what carrying out the
    edits one by one, the last first, makes of it. *)
Theorem edit_loop_exact original edits su st :
  (forall turn, su_cancelled su turn = false) -> len original <= u64_max -> Forall edit_typed edits ->
  let answer := ('(replacement, cursor) ← edit_loop original edits 0 [];
                 rest ← op_lift (ok_or (get_range original cursor (len original)) OE_InvalidArgument);
                 mret (replacement ++ rest)) su st in
  (in_order 0 edits (len original) -> answer.1 = Done (apply_edits edits original))
  /\ (~ in_order 0 edits (len original) -> answer.1 = Fail_ OE_InvalidArgument).
Proof.
  intros Hc Hl Ht. exact (edit_from_exact original edits su Hc Hl Ht 0 [] st ltac:(done)).
Qed.

(** When more records never make a presentation shorter, the search for the largest
    prefix ends with the largest number of records, within the record limit, whose
    answer fits the byte limit; it fails exactly when not even no record fits. *)
Theorem largest_prefix_exact candidate size total record_limit byte_limit :
  0 <= total -> 0 <= record_limit ->
  (forall k, 0 <= k <= Z.min total record_limit ->
     exists text, candidate k (k <? total) ≫= encoded = Ok text /\ str_len text = size k) ->
  (forall k m, 0 <= k <= m -> m <= Z.min total record_limit -> size k <= size m) ->
  exists r, largest_prefix total record_limit byte_limit candidate = Some r
  /\ match r with
     | Ok n => 0 <= n <= Z.min total record_limit /\ size n <= byte_limit
               /\ forall k, n < k <= Z.min total record_limit -> byte_limit < size k
     | Err e => e = OE_OutputBudget /\ byte_limit < size 0
     end.
Proof. intros Ht Hr Hs Hm. by apply largest_prefix_spec. Qed.

(** ** Witnesses *)

(** The one known content with the digest of [3]. *)
Lemma small_original b : small_known b -> hex_digest (small_hash b) = hex_digest (small_hash [3]) -> b = [3].
Proof.
  intros Hb Heq. unfold small_known in Hb. revert Heq.
  repeat (apply elem_of_cons in Hb as [->|Hb]; [by vm_compute; congruence|]). by apply elem_of_nil in Hb.
Qed.

Lemma small_patch_request : patch_request small_patch.
Proof. split; [reflexivity|repeat constructor|]. constructor; [|constructor]. by split; cbn. Qed.

Lemma small_edits_known : edits_known small_known small_archive small_patch.
Proof.
  intros contents [|i] digest original Hc Hd Hk Heq; [|done]. cbn in Hd. injection Hd as <-.
  apply small_original in Heq as ->; [|done]. inversion Hc as [|e c es cs Hec Hcs]; subst. inversion Hcs; subst.
  cbn in Hec. subst c. unfold small_known. cbn. set_solver.
Qed.

Lemma patch_reports_true_witness :
  match patch_execute (request_of (APatch small_patch)) small_patch small_surroundings small_progress with
  | (Done r, st') => patch_true small_archive small_surroundings small_disk 7 small_patch r (disk_of st')
  | (Fail_ _, st') => rtc (moves small_surroundings) small_disk (disk_of st')
  | (Crash, st') => rtc (moves small_surroundings) small_disk (disk_of st')
                    \/ patch_cut small_archive small_surroundings small_disk small_patch (disk_of st')
  end.
Proof.
  apply (patch_reports_true small_known small_archive small_surroundings (request_of (APatch small_patch))
           small_patch small_progress).
  - apply small_tells_apart.
  - apply fine_whole, calm_fine.
  - apply small_company.
  - apply small_sound.
  - apply small_shared_fine.
  - discriminate.
  - apply small_patch_request.
  - apply small_edits_known.
Defined.

Lemma small_fs_request : fs_request small_program.
Proof. split; [reflexivity|repeat constructor]. Qed.

Lemma small_contents_known : contents_known small_known small_archive small_program.
Proof.
  intros actions H. inversion H as [|r a rs as_ Ha Hrest]; subst. inversion Hrest as [|r' a' rs' as' Ha' Hnil]; subst.
  inversion Hnil; subst. destruct Ha as (d & dg & _ & _ & ->). destruct Ha' as (content & c & [= <-] & -> & ->).
  repeat constructor; unfold action_known, small_known; cbn; set_solver.
Qed.

Lemma fs_reports_true_witness :
  match fs_execute (request_of (AFs small_program)) small_program small_surroundings small_progress with
  | (Done r, st') => fs_true small_archive small_surroundings small_disk 7 small_program r (disk_of st')
  | (Fail_ _, st') => fs_nothing small_surroundings small_disk (disk_of st')
  | (Crash, st') => fs_nothing small_surroundings small_disk (disk_of st')
                    \/ fs_cut small_archive small_surroundings small_disk small_program (disk_of st')
  end.
Proof.
  apply (fs_reports_true small_known small_archive small_surroundings (request_of (AFs small_program))
           small_program small_progress).
  - apply small_tells_apart.
  - apply fine_whole, calm_fine.
  - apply small_company.
  - apply small_sound.
  - apply small_shared_fine.
  - discriminate.
  - apply small_fs_request.
  - apply small_contents_known.
Defined.

(** One path that the session knows by 5. *)
Lemma small_numbering : numbering [L "b"] [5] [].
Proof.
  split; cbn.
  - done.
  - intros i j p q m n Hp Hq Hm Hn _. destruct i as [|[]], j as [|[]]; try done. congruence.
  - by repeat constructor.
  - by repeat constructor.
  - constructor.
  - by intros p ?%elem_of_nil.
  - by intros m i id ?%elem_of_nil.
Qed.

Lemma small_patch_shape : patch_shape 1 [mkRow PCommitted (Some (small_hash [4]))] None.
Proof.
  assert (digest_ok (small_hash [4])) as Hd by (split; [apply len_be|apply to_be_bytes_ok]).
  split; [done| |by repeat constructor|done]. constructor; [|constructor]. split; [by apply some_digest_hex|by intros d [= <-]].
Qed.

Lemma mutation_answers_fit_witness :
  exists r worst text reserved,
    make_response 7 [] [5] [mkRow PCommitted (Some (small_hash [4]))] None = Ok r /\ encoded r = Ok text
    /\ make_response 7 (temporary_paths [L "b"]).2 (temporary_paths [L "b"]).1 [worst_row] (Some XRecoveryRequired)
       = Ok worst
    /\ encoded worst = Ok reserved /\ str_len text <= str_len reserved.
Proof.
  refine (proj1 (mutation_answers_fit 7 ltac:(done)) [L "b"] [5] [] [mkRow PCommitted (Some (small_hash [4]))] None
            _ _ _ _ _ _).
  - repeat constructor.
  - apply NoDup_singleton.
  - discriminate.
  - by cbn.
  - apply small_numbering.
  - apply small_patch_shape.
Defined.

Definition small_edits : list ResolvedEdit := [mkResolved 1 2 [9]; mkResolved 4 0 [8; 7]].

Lemma edit_loop_exact_witness :
  let answer := ('(replacement, cursor) ← edit_loop [0; 1; 2; 3; 4; 5] small_edits 0 [];
                 rest ← op_lift (ok_or (get_range [0; 1; 2; 3; 4; 5] cursor 6) OE_InvalidArgument);
                 mret (replacement ++ rest)) small_surroundings small_progress in
  answer.1 = Done [0; 9; 3; 8; 7; 4; 5].
Proof.
  apply (edit_loop_exact [0; 1; 2; 3; 4; 5] small_edits small_surroundings small_progress).
  - reflexivity.
  - discriminate.
  - repeat constructor; cbn; discriminate.
  - cbn. split_and!; discriminate.
Defined.

(** Answers that name one more path each. *)
Definition small_candidate (n : Z) (_ : bool) : result OperationError FinalResponse :=
  let keys := take (Z.to_nat n) [L "a"; L "b"; L "c"; L "d"] in
  map_err OE_Response
    (FinalResponse_failure 7 SFailed (mkErrorRecord CInternal RetrySame StExecute None None) (number_paths 1 keys) None 0 None).

Definition small_size (n : Z) : Z :=
  match small_candidate n false ≫= encoded with Ok text => str_len text | Err _ => 0 end.

Lemma largest_prefix_exact_witness :
  exists r, largest_prefix 4 3 (small_size 2) small_candidate = Some r /\ r = Ok 2.
Proof.
  assert (forall k, 0 <= k <= 3 -> k = 0 \/ k = 1 \/ k = 2 \/ k = 3) as Hcases by lia.
  destruct (largest_prefix_exact small_candidate small_size 4 3 (small_size 2)) as (r & E & H).
  - discriminate.
  - discriminate.
  - intros k Hk. destruct (Hcases k Hk) as [-> |[-> |[-> | ->]]]; eexists; split; reflexivity.
  - intros k m [Hk Hkm] Hm. destruct (Hcases k) as [-> |[-> |[-> | ->]]]; [cbn in Hm; lia|..];
      destruct (Hcases m) as [-> |[-> |[-> | ->]]]; try (cbn in Hm; lia); try lia; vm_compute; discriminate.
  - exists r. split; [exact E|]. vm_compute in E. congruence.
Defined.
