(* ===== verification/AuthProps.v ===== *)
(** * AuthProps: properties of authorization

    A permit is used once, for what it was issued for, and a request runs only when
    its capabilities are granted or such a permit was presented. *)

From S2P Require Import Prelude Text AsonModel AsonCodec Capability Request Response Budget.
From S2P Require Import Paths Store Capture Governor Runtime Workspace Disk Permits Projection.
From S2P Require Import Authorization AnswerFacts PlatformProps OpsProps.

(** ** Permits *)

(** C6: Whatever the order in which the tasks of a session count, register, issue and
    verify, forged and repeated tokens included: no two accepted tokens share a nonce; an
    accepted token is the keyed digest of a challenge that was registered before, for the
    same session, capabilities and action, under the authority's policy, and not expired;
    an issued token is accepted for the use it was issued for until it expires; and the
    tables stay within their limits. *)
Theorem permit_accepted_once (keyed_hash : bytes -> bytes -> bytes) (authority : PermitAuthority)
    (known : bytes -> Prop) (events : list event) (a : Approvals)
    (Hnonce : forall m m', known m -> known m' ->
       nonce_of keyed_hash authority m = nonce_of keyed_hash authority m' -> m = m')
    (Hlen : forall key m, length (keyed_hash key m) = 32%nat)
    (Hhistory : history keyed_hash authority events a)
    (Hknown : Forall (event_known authority known) events) :
  NoDup (take 16 <$> accepted_tokens events)
  /\ (forall before now poisoned token session_id capabilities action_digest after,
       events = before ++ Verified now poisoned token session_id capabilities action_digest (Ok tt) :: after ->
       exists c t, c ∈ snd <$> registered authority before /\ now = Some t
         /\ allows_use authority session_id capabilities action_digest t c
         /\ token = token_of keyed_hash authority c)
  /\ (forall now c token s', issue keyed_hash authority (Some now) false c (ap_state a) = (Ok token, s') ->
       Z.of_nat (size (pm_used (as_permits s'))) < MAX_USED_PERMITS ->
       forall now', now' < ch_expires_at_millis c -> exists s'',
         verify keyed_hash authority (Some now') false token (ch_session_id c) (ch_capabilities c)
           (ch_action_digest c) s' = (Ok tt, s''))
  /\ Z.of_nat (size (pm_pending (as_permits (ap_state a)))) <= MAX_PENDING_PERMITS
  /\ Z.of_nat (size (pm_used (as_permits (ap_state a)))) <= MAX_USED_PERMITS.
Proof.
  pose proof (history_ok keyed_hash authority known Hnonce _ _ Hhistory Hknown) as Hok. split_and!.
  - exact (ok_accepted _ _ _ _ _ Hok).
  - intros before now poisoned token session_id capabilities action_digest after ->.
    by eapply verified_challenge.
  - intros now c token s' Hi Hroom now' Hnow. by eapply issued_accepted.
  - apply (ok_sizes _ _ _ _ _ Hok).
  - apply (ok_sizes _ _ _ _ _ Hok).
Qed.

(** *** One challenge, its token, and the token again *)

Definition toy_mac (key data : bytes) : bytes :=
  to_be_bytes 32 (foldl (fun h x => (h * 257 + x + 1) mod 2 ^ 256) 0 (key ++ data)).
Definition toy_authority : PermitAuthority := mkAuthority (repeat 1 32) (repeat 2 16) (repeat 3 16).
Definition toy_action : bytes := repeat 4 32.
Definition toy_material : bytes := nonce_material toy_authority 5 1 2000 0 toy_action.
Definition toy_challenge : ApprovalChallenge :=
  mkChallenge 5 1 2000 (repeat 2 16) (repeat 3 16) toy_action (nonce_of toy_mac toy_authority toy_material).
Definition toy_token : bytes := token_of toy_mac toy_authority toy_challenge.

Definition toy_events : list event :=
  [Counted 0; Challenged 1000 5 1 2000 0 toy_action (Ok toy_challenge);
   Issued (Some 1000) false toy_challenge (Ok toy_token);
   Verified (Some 1500) false toy_token 5 1 toy_action (Ok tt);
   Verified (Some 1600) false toy_token 5 1 toy_action (Err AuReplay)].

Definition toy_end : AuthorityState :=
  mkAuthorityState 1 (mkPermitState ∅ {[ ch_nonce toy_challenge := 2000 ]}).

Lemma toy_history : history toy_mac toy_authority toy_events (mkApprovals toy_end []).
Proof.
  change toy_events with ([] ++ [Counted 0] ++ [Challenged 1000 5 1 2000 0 toy_action (Ok toy_challenge)]
    ++ [Issued (Some 1000) false toy_challenge (Ok toy_token)]
    ++ [Verified (Some 1500) false toy_token 5 1 toy_action (Ok tt)]
    ++ [Verified (Some 1600) false toy_token 5 1 toy_action (Err AuReplay)]).
  rewrite !app_assoc. eapply history_step; [eapply history_step; [eapply history_step; [eapply history_step;
    [eapply history_step; [constructor|]|]|]|]|].
  - apply step_counted. reflexivity.
  - apply (step_challenged _ _ _ [] 0 [] 1000 5 1 2000 toy_action toy_challenge); vm_compute; reflexivity.
  - apply step_issued. vm_compute; reflexivity.
  - apply step_verified. vm_compute; reflexivity.
  - apply step_verified. vm_compute; reflexivity.
Qed.

Lemma permit_accepted_once_witness :
  accepted_tokens toy_events = [toy_token] /\ NoDup (take 16 <$> accepted_tokens toy_events).
Proof.
  split; [reflexivity|].
  apply (permit_accepted_once toy_mac toy_authority (fun m => m = toy_material) toy_events (mkApprovals toy_end [])).
  - by intros m m' -> ->.
  - intros key m. apply length_to_be_bytes.
  - exact toy_history.
  - repeat constructor; by intros r [= <-].
Defined.

(** ** Requests *)

Section authorize.
Context (hash : bytes -> bytes) (keyed_hash : bytes -> bytes -> bytes) (su : Surroundings).

(** The result store is sound, and stays so in the hands of the others. *)
Definition store_fine (st : Progress) : Prop := state_ok hash (su_store_limits su) (sh_store (pg_shared st)).
Definition store_company : Prop := forall n sh d,
  state_ok hash (su_store_limits su) (sh_store sh) ->
  state_ok hash (su_store_limits su) (sh_store (su_others su n sh d).1).

(** The request presented the token of a challenge for it, which is used up. *)
Definition permitted (policy : AuthorizationPolicy) (request : Request) (st' : Progress) : Prop :=
  exists authority token digest s now c,
    po_authority policy = Some authority /\ pa_policy_digest authority = po_digest policy
    /\ rq_permit request = Some token /\ action_digest hash request = Ok digest
    /\ accepts keyed_hash authority token (su_session su)
         (Z.land (required_capabilities (rq_arguments request)) (po_approval policy)) digest now
         (purge_expired now (as_permits s)) c
    /\ pm_pending (as_permits (sh_authority (pg_shared st'))) !! take 16 token = None
    /\ pm_used (as_permits (sh_authority (pg_shared st'))) !! take 16 token = Some (ch_expires_at_millis c).

(** The answer refers to the retained challenge for this request. *)
Definition challenged (policy : AuthorizationPolicy) (request : Request) (r : FinalResponse) (st' : Progress) : Prop :=
  exists authority digest c document reference content store' now turn,
    po_authority policy = Some authority /\ action_digest hash request = Ok digest
    /\ challenge_encode c = Ok document /\ challenge_validate c = Ok tt
    /\ ch_session_id c = su_session su /\ ch_action_digest c = digest
    /\ ch_capabilities c = Z.land (required_capabilities (rq_arguments request)) (po_approval policy)
    /\ ch_session_binding c = pa_session_binding authority /\ ch_policy_digest c = po_digest policy
    /\ su_clock su turn = Some now /\ ch_expires_at_millis c = now + as_millis (po_ttl policy)
    /\ get reference (sh_store (pg_shared st')) = Ok (content, store')
    /\ (forall max, len (str_bytes (encode document)) <= max ->
          read_all true content max = Ok (str_bytes (encode document)))
    /\ r = mkResponse (rq_id request) Denied [] None
             (Some (mkErrorRecord (match rq_permit request with Some _ => PermitInvalid | None => PermitRequired end)
                      RetryApproval StAuthorize (Some reference) None)) RESULT_RETAINED None.

Context (Hcompany : store_company).
Context (Hbytes : sl_max_bytes (su_store_limits su) < u64_max) (Hentries : sl_max_entries (su_store_limits su) < u64_max).

Lemma others_store_fine st : store_fine st -> store_fine (others su st).
Proof.
  unfold store_fine, others. intros H. pose proof (Hcompany (pg_turn st) _ (w_disk (pg_world st)) H) as Ho.
  by destruct (su_others su _ _ _).
Qed.

(** A computation that keeps the store sound. *)
Definition keeps {E A} (m : op E A) (P : A -> Prop) : Prop := forall st, store_fine st ->
  op_wp su m (fun a st' => store_fine st' /\ P a) (fun _ _ => True) (fun _ => False) st.

Lemma keeps_bind {E A B} (m : op E B) (k : B -> op E A) P Qd (Qe : E -> Progress -> Prop) Qc st :
  keeps m P -> store_fine st -> (forall e st', Qe e st') -> (forall st', store_fine st' -> forall b, P b -> op_wp su (k b) Qd Qe Qc st') ->
  op_wp su (m ≫= k) Qd Qe Qc st.
Proof.
  intros Hm Hst He Hk. apply op_wp_bind. pose proof (Hm st Hst) as H. unfold op_wp in *.
  destruct (m su st) as [[b|e|] st']; [destruct H; by apply Hk|apply He|done].
Qed.

Lemma keeps_lift {E A} (r : result E A) : keeps (op_lift r) (fun a => r = Ok a).
Proof. intros st Hst. by destruct r. Qed.

Lemma keeps_ask {E A} (answer : Surroundings -> nat -> A) : keeps (ask answer : op E A) (fun a => exists turn, answer su turn = a).
Proof. intros st Hst. split; [by apply others_store_fine|by eexists]. Qed.

Lemma keeps_map_err {E F A} (f : E -> F) (m : op E A) P : keeps m P -> keeps (op_map_err f m) P.
Proof. intros Hm st Hst. specialize (Hm st Hst). unfold op_wp, op_map_err in *. by destruct (m su st) as [[]]. Qed.

Lemma keeps_then {E A B} (m : op E B) (k : B -> op E A) P Q :
  keeps m P -> (forall b, P b -> keeps (k b) Q) -> keeps (m ≫= k) Q.
Proof.
  intros Hm Hk st Hst. eapply keeps_bind; [exact Hm|done|done|]. intros st' Hst' b Hb. by apply Hk.
Qed.

(** A call that leaves the store alone. *)
Lemma keeps_shared {E A} (f : Shared -> result E A * Shared) (P : A -> Prop) :
  (forall sh, sh_store (f sh).2 = sh_store sh /\ forall a, (f sh).1 = Ok a -> P a) -> keeps (shared f) P.
Proof.
  intros Hf st Hst%others_store_fine. unfold op_wp, shared. destruct (Hf (pg_shared (others su st))) as [Hs Ha].
  destruct (f _) as [[a|e] sh]; cbn in *; [|done]. split; [unfold store_fine in *; cbn; by rewrite Hs|by apply Ha].
Qed.

Lemma keeps_limit : keeps presentation_limit (fun _ => True).
Proof. by apply keeps_shared. Qed.

Lemma keeps_reserve f : keeps (reserve f) (fun _ => True).
Proof. apply keeps_shared. intros sh. by destruct (f (sh_budget sh)) as [[]|]. Qed.

Lemma keeps_charge response records : keeps (charge response records) (fun _ => True).
Proof.
  eapply keeps_then; [apply keeps_lift|]. intros text _. eapply keeps_then; [apply keeps_lift|]. intros n _.
  eapply keeps_then; [apply keeps_reserve|]. intros _ _. apply keeps_reserve.
Qed.

Lemma keeps_permits {A} (f : AuthorityState -> result AuthorizationError A * AuthorityState) (P : A -> Prop) :
  (forall s a, (f s).1 = Ok a -> P a) -> keeps (with_permits f) P.
Proof.
  intros Hf. apply keeps_shared. intros sh. specialize (Hf (sh_authority sh)). by destruct (f _) as [r s].
Qed.

(** What a new challenge says. *)
Definition challenge_for (authority : PermitAuthority) (approval : Z) (digest : bytes) (ttl : Duration)
    (c : ApprovalChallenge) : Prop :=
  challenge_validate c = Ok tt /\ ch_session_id c = su_session su /\ ch_action_digest c = digest
  /\ ch_capabilities c = approval /\ ch_session_binding c = pa_session_binding authority
  /\ ch_policy_digest c = pa_policy_digest authority
  /\ exists now turn, su_clock su turn = Some now /\ ch_expires_at_millis c = now + as_millis ttl.

Lemma keeps_challenge authority approval digest ttl :
  keeps (challenge keyed_hash authority (su_session su) approval digest ttl) (challenge_for authority approval digest ttl).
Proof.
  eapply keeps_then; [apply keeps_ask|]. intros now [turn Hnow].
  eapply keeps_then; [apply keeps_lift|]. intros [now' expires] He.
  eapply keeps_then; [by apply (keeps_permits _ (fun _ => True))|]. intros counter _.
  eapply keeps_then; [apply keeps_lift|]. intros c Hc.
  eapply keeps_then; [apply keeps_ask|]. intros [] _; [done|].
  apply keeps_permits. intros s c' Hr. assert (c' = c) as ->.
  { unfold register_challenge in Hr. destruct (_ <=? _); [done|]. destruct (_ !! _); [done|]. by injection Hr. }
  unfold make_challenge in Hc. apply map_err_ok, challenge_new_ok in Hc as [Hc Hv].
  split; [done|]. subst c. cbn. split_and!; [done..|].
  unfold challenge_expiry in He. apply bind_ok in He as (now0 & Hn & He). apply bind_ok in He as (millis & Hm & He).
  apply bind_ok in He as (x & Hx & He). injection He as <- <-. apply ok_or_ok in Hn. subst now.
  destruct (_ <=? _); [|done]. injection Hm as <-. apply ok_or_ok, checked_add_Some in Hx as [-> _].
  by exists now0, turn.
Qed.

Lemma keeps_surroundings {E} : keeps (get_surroundings : op E Surroundings) (fun su' => su' = su).
Proof. done. Qed.

Lemma approval_response_eq request_id code evidence r :
  approval_response request_id code evidence = Ok r ->
  r = mkResponse request_id Denied [] None (Some (mkErrorRecord code RetryApproval StAuthorize (Some evidence) None))
        RESULT_RETAINED None.
Proof.
  unfold approval_response, FinalResponse_failure, FinalResponse_new. intros H%map_err_ok.
  destruct (_ =? 0); [done|]. cbn -[Response.validate_reference] in H.
  destruct (Response.validate_reference (Some evidence)); [|done]. by injection H.
Qed.

(** What is retained is found under its reference at once. *)
Lemma retain_result_wp data st :
  store_fine st ->
  op_wp su (retain_result hash data)
    (fun reference st' => exists content store', get reference (sh_store (pg_shared st')) = Ok (content, store')
       /\ forall max, len data <= max -> read_all true content max = Ok data)
    (fun _ _ => True) (fun _ => False) st.
Proof.
  intros Hst. unfold retain_result. eapply keeps_bind; [apply keeps_surroundings|done|done|].
  intros st1 Hst1 ? ->. eapply keeps_bind; [apply keeps_ask|done|done|].
  intros st2 Hst2%others_store_fine spool _. unfold op_wp, shared. set (st3 := others su st2) in *.
  destruct (retain _ _ _ _ _ _) as [[alias store]|e] eqn:Hr; [|done]. cbn.
  unfold retain in Hr. apply bind_ok in Hr as ([aliases state'] & Hm & Hr). inv_ok.
  pose proof (retained_back hash _ _ _ _ _ _ _ Hst2 Hbytes Hentries Hm) as Hback.
  apply Forall2_cons_inv_l in Hback as (alias' & rest & (c & store' & Hg & Hread & _) & _ & ->).
  cbn in *. simplify_eq. by exists c, store'.
Qed.

Lemma challenge_response_wp policy authority request approval digest code st :
  store_fine st ->
  op_wp su (challenge_response hash keyed_hash policy authority request approval digest code)
    (fun r st' => exists c document reference content store',
       challenge_for authority approval digest (po_ttl policy) c /\ challenge_encode c = Ok document
       /\ get reference (sh_store (pg_shared st')) = Ok (content, store')
       /\ (forall max, len (str_bytes (encode document)) <= max ->
             read_all true content max = Ok (str_bytes (encode document)))
       /\ r = mkResponse (rq_id request) Denied [] None
                (Some (mkErrorRecord code RetryApproval StAuthorize (Some reference) None)) RESULT_RETAINED None)
    (fun _ _ => True) (fun _ => False) st.
Proof.
  intros Hst. unfold challenge_response. eapply keeps_bind; [apply keeps_surroundings|done|done|]. intros st1 Hst1 ? ->.
  eapply keeps_bind; [apply keeps_map_err, keeps_challenge|done|done|]. intros st2 Hst2 c Hc.
  eapply keeps_bind; [apply keeps_lift|done|done|]. intros st3 Hst3 evidence He.
  eapply keeps_bind; [apply keeps_lift|done|done|]. intros st4 Hst4 worst _.
  eapply keeps_bind; [apply keeps_lift|done|done|]. intros st5 Hst5 text _.
  eapply keeps_bind; [apply keeps_limit|done|done|]. intros st6 Hst6 limit _.
  destruct (limit <? str_len text); [done|].
  eapply keeps_bind; [apply keeps_charge|done|done|]. intros st7 Hst7 _ _.
  apply op_wp_bind. eapply op_wp_mono; [by apply retain_result_wp| |done..].
  intros reference st8 (content & store' & Hg & Hread). unfold op_wp, op_lift.
  destruct (approval_response _ _ _) as [r|] eqn:Er; [|done]. cbn. apply approval_response_eq in Er.
  apply fmap_ok in He as (document & Hd & ->). apply map_err_ok in Hd.
  by exists c, document, reference, content, store'.
Qed.

(** A verification that accepts is the request's last look at the authority. *)
Lemma verify_permit_wp authority token capabilities digest st :
  store_fine st ->
  op_wp su (verify_permit keyed_hash authority token (su_session su) capabilities digest)
    (fun _ st' => exists s now c,
       accepts keyed_hash authority token (su_session su) capabilities digest now (purge_expired now (as_permits s)) c
       /\ pm_pending (as_permits (sh_authority (pg_shared st'))) !! take 16 token = None
       /\ pm_used (as_permits (sh_authority (pg_shared st'))) !! take 16 token = Some (ch_expires_at_millis c))
    (fun _ st' => store_fine st') (fun _ => False) st.
Proof.
  intros Hst. unfold verify_permit. apply op_wp_bind. unfold op_wp at 1, ask.
  apply op_wp_bind. unfold op_wp at 1, ask. set (now := su_clock su _). set (poisoned := su_poisoned su _).
  assert (store_fine (others su (others su (others su st)))) as Hst3 by by apply others_store_fine, others_store_fine, others_store_fine.
  unfold op_wp, with_permits, shared. set (st3 := others su (others su _)) in *.
  set (s := sh_authority (pg_shared st3)). destruct now as [now|]; [|done]. destruct poisoned; [done|].
  pose proof (verify_spec keyed_hash authority token (su_session su) capabilities digest now s) as Hv. cbv zeta in Hv.
  destruct (verify _ _ _ _ _ _ _ _ s) as [[[]|e] s']; [|done]. cbn. destruct Hv as (c & Hacc & ->).
  exists s, now, c. split; [done|]. cbn. split; [apply lookup_delete_eq|apply lookup_insert_eq].
Qed.

Lemma authorize_wp policy request st :
  store_fine st ->
  op_wp su (authorize hash keyed_hash policy request)
    (fun answer st' => mask_extra (required_capabilities (rq_arguments request)) (policy_mask policy) = 0
       /\ match answer with
          | None => Z.land (required_capabilities (rq_arguments request)) (po_approval policy) = 0
              \/ permitted policy request st'
          | Some r => challenged policy request r st'
          end)
    (fun _ _ => True) (fun _ => False) st.
Proof.
  intros Hst. unfold authorize. set (required := required_capabilities _).
  destruct (Z.eqb_spec (mask_extra required (policy_mask policy)) 0) as [Hmask|]; cbn [negb]; [|done].
  destruct (Z.eqb_spec (Z.land required (po_approval policy)) 0) as [|Happ]; [by split; [|left]|].
  eapply keeps_bind; [apply keeps_lift|done|done|]. intros st1 Hst1 authority Ha%ok_or_ok.
  destruct (bool_decide_reflect (pa_policy_digest authority = po_digest policy)) as [Hd|]; cbn [negb]; [|done].
  eapply keeps_bind; [apply keeps_lift|done|done|]. intros st2 Hst2 digest Hdig.
  eapply keeps_bind; [apply keeps_surroundings|done|done|]. intros st3 Hst3 ? ->.
  assert (forall code st, store_fine st ->
    code = match rq_permit request with Some _ => PermitInvalid | None => PermitRequired end ->
    op_wp su (response ← challenge_response hash keyed_hash policy authority request (Z.land required (po_approval policy)) digest code;
              mret (Some response))
      (fun answer st' => mask_extra required (policy_mask policy) = 0
         /\ match answer with None => Z.land required (po_approval policy) = 0 \/ permitted policy request st'
            | Some r => challenged policy request r st' end) (fun _ _ => True) (fun _ => False) st) as Hchallenge.
  { intros code st4 Hst4 ->. apply op_wp_bind. eapply op_wp_mono; [by apply challenge_response_wp| |done..].
    intros r st5 (c & document & reference & content & store' & (Hv & H1 & H2 & H3 & H4 & H5 & now & turn & Hn & Hx) & He & Hg & Hread & Hr).
    unfold op_wp. cbn. split; [done|]. exists authority, digest, c, document, reference, content, store', now, turn.
    by rewrite <- Hd. }
  destruct (rq_permit request) as [token|] eqn:Hp.
  - apply op_wp_bind, op_wp_bind. pose proof (verify_permit_wp authority token (Z.land required (po_approval policy)) digest st3 Hst3) as Hv.
    unfold op_wp at 1, op_try. unfold op_wp in Hv. destruct (verify_permit _ _ _ _ _ _ su st3) as [[[]|e|] st4]; [|by apply Hchallenge|done].
    destruct Hv as (s & now & c & Hacc & Hpend & Hused). unfold op_wp. cbn. split; [done|]. right.
    by exists authority, token, digest, s, now, c.
  - apply op_wp_bind. by apply Hchallenge.
Qed.

End authorize.

(** C7: A request whose capabilities go beyond the policy is refused before anything
    happens.  Otherwise it runs only when what it needs is granted outright, or when it
    presented the token of an unexpired challenge for this session, these capabilities
    and this action, which nobody can present again (the time of the comparison is pinned
    where histories of acceptances are considered); or it is answered by a denial that
    refers to a retained challenge for exactly this request, which reads back whole. *)
Theorem authorize_guards (hash : bytes -> bytes) (keyed_hash : bytes -> bytes -> bytes) (su : Surroundings)
    (policy : AuthorizationPolicy) (request : Request) (st : Progress)
    (Hcompany : store_company hash su) (Hstore : store_fine hash su st)
    (Hbytes : sl_max_bytes (su_store_limits su) < u64_max)
    (Hentries : sl_max_entries (su_store_limits su) < u64_max) :
  let required := required_capabilities (rq_arguments request) in
  let outcome := authorize hash keyed_hash policy request su st in
  (mask_extra required (policy_mask policy) <> 0 -> outcome = (Fail_ OE_CapabilityDenied, st))
  /\ match outcome with
     | (Done None, st') => mask_extra required (policy_mask policy) = 0
         /\ (Z.land required (po_approval policy) = 0 \/ permitted hash keyed_hash su policy request st')
     | (Done (Some r), st') => mask_extra required (policy_mask policy) = 0 /\ challenged hash su policy request r st'
     | (Fail_ _, _) => True
     | (Crash, _) => False
     end.
Proof.
  cbv zeta. split.
  - intros H. unfold authorize. by apply Z.eqb_neq in H as ->.
  - pose proof (authorize_wp hash keyed_hash su Hcompany Hbytes Hentries policy request st Hstore) as H.
    unfold op_wp in H. by destruct (authorize _ _ _ _ su st) as [[[r|]|e|] st'].
Qed.

(** Reading a file needs an approval that was not given. *)
Definition toy_policy : AuthorizationPolicy := mkPolicy (repeat 3 16) 0 ALL_CAPABILITY_MASK (Some toy_authority) DEFAULT_CHALLENGE_TTL.
Definition toy_hash (data : bytes) : bytes := toy_mac [] data.
Definition toy_request : Request := request_of (APatch small_patch).
Definition toy_progress : Progress :=
  mkProgress small_world (with_budget (mkTracker 100000 100000 100 1000 0 0) small_shared) 0.

Lemma toy_store_fine : store_fine toy_hash small_surroundings toy_progress.
Proof. apply small_store_ok. Qed.

Lemma authorize_guards_witness :
  match authorize toy_hash toy_mac toy_policy toy_request small_surroundings toy_progress with
  | (Done (Some r), st') => challenged toy_hash small_surroundings toy_policy toy_request r st'
  | _ => False
  end.
Proof.
  destruct (authorize_guards toy_hash toy_mac small_surroundings toy_policy toy_request toy_progress) as [_ H];
    [by intros n sh d Hsh|exact toy_store_fine|reflexivity|reflexivity|].
  assert (match authorize toy_hash toy_mac toy_policy toy_request small_surroundings toy_progress with
          | (Done (Some _), _) => true | _ => false end = true) as E by (vm_compute; reflexivity).
  revert H E. generalize (authorize toy_hash toy_mac toy_policy toy_request small_surroundings toy_progress).
  intros [[[r|]|e|] st'] H E; [apply H|discriminate E..].
Defined.
