(* ===== verification/ServiceProps.v ===== *)
(** * ServiceProps: properties of the services and of the workspace's reads *)

From S2P Require Import Prelude Text Glob AsonModel Capability Request Response Store Capture Workspace.
From S2P Require Import Manifest Disk Mutation NativeTree Governor Budget Paths Projection.
From S2P Require Import Reducer ReducerFacts ProjectionFacts WorkspaceRead Semantic.
From S2P Require Import ServiceFacts Queries PlatformProps OpsProps.

#[local] Existing Instance small_libraries.

(** ** Ranges *)

(** A range of bytes is the bytes of the file from the offset on, as many as there
    are of those asked for; a range of lines is the lines from the offset-th on, each
    with its newline, and the counts reported are those of what is returned. *)
Theorem ranges_exact (b : bytes) (offset length : Z)
    (Hoffset : 0 <= offset <= u64_max) (Hlength : 0 <= length <= u64_max) (Hb : len b <= usize_max) :
  (let chosen := take (Z.to_nat length) (drop (Z.to_nat offset) b) in
   select_range b SmBytes offset length = (chosen, Z.min offset (len b), len chosen))
  /\ (let chosen := take (Z.to_nat length) (drop (Z.to_nat (offset - 1)) (split_inclusive b)) in
      1 <= offset -> select_range b SmLines offset length = (concat chosen, offset, len chosen))
  /\ concat (split_inclusive b) = b
  /\ forall i line, split_inclusive b !! i = Some line ->
       exists body, 10 ∉ body
         /\ (line = body ++ [10] \/ (line = body /\ body <> [] /\ S i = List.length (split_inclusive b))).
Proof.
  split_and!.
  - apply select_bytes_spec; lia.
  - intros chosen Ho. apply select_lines_spec; lia.
  - apply split_inclusive_lines.
  - apply split_inclusive_lines.
Qed.

Lemma ranges_exact_witness :
  select_range (str_bytes (L "ab" ++ [10] ++ L "c" ++ [10] ++ L "d")) SmLines 2 5 = (str_bytes (L "c" ++ [10] ++ L "d"), 2, 2).
Proof.
  destruct (ranges_exact (str_bytes (L "ab" ++ [10] ++ L "c" ++ [10] ++ L "d")) 2 5) as (_ & H & _);
    [lia|lia|vm_compute; discriminate|].
  apply H. lia.
Defined.

(** ** Services *)

(** C14: Over any provider that stands still, as the workspace does while nobody changes its
    files, and when nothing is cancelled, the parallel services answer exactly what the
    serial ones do, in whatever order the workers take up the jobs: the same contents,
    entries and matches, or the same error. *)
Theorem services_agree `{lib : Libraries} `{sort : UnstableSort} `{laws : !UnstableSortLaws sort}
    `{engine : RegexEngine} `{fs : SemanticFileSystem} (limits : SemanticLimits) (su : Surroundings) (internal : bool)
    resolve read walk (Hstill : stands_still su internal resolve read walk) :
  (forall query, exists r, yields su internal (services_read limits query) r /\ yields su internal (read_serial limits query) r)
  /\ (forall query, exists r, yields su internal (services_list limits query) r /\ yields su internal (list_serial limits query) r)
  /\ (forall query, exists r, yields su internal (services_search limits query) r /\ yields su internal (search_serial limits query) r).
Proof.
  split_and!; intros query; eexists; split;
    [by eapply yields_services_read|by eapply yields_read_serial|by eapply yields_services_list|by eapply yields_list_serial
    |by eapply yields_services_search|by eapply yields_search_serial].
Qed.

(** C13: What a listing is, over a provider that stands still, as the workspace does while
    nobody changes its files: the chosen entries below the paths, once for each key and
    in the order of the keys. *)
Theorem listing_exact `{lib : Libraries} `{sort : UnstableSort} `{laws : !UnstableSortLaws sort}
    `{fs : SemanticFileSystem} (limits : SemanticLimits) (su : Surroundings) (internal : bool)
    resolve read walk (Hstill : stands_still su internal resolve read walk) (query : ListQuery)
    (entries : list SemanticEntry) (st st' : Progress) (Hst : w_internal (pg_world st) = internal)
    (Hdone : services_list limits query su st = (Done entries, st')) :
  Sorted.StronglySorted (fun e e' => bytes_lt (entry_key e) (entry_key e') = true) entries
  /\ (forall e, e ∈ entries -> listed limits resolve walk query e)
  /\ (forall e, listed limits resolve walk query e -> exists e', e' ∈ entries /\ entry_key e' = entry_key e).
Proof.
  destruct (yields_services_list limits su internal resolve read walk Hstill query st Hst) as [H _]. rewrite Hdone in H. cbn in H.
  destruct (listing_of limits resolve walk query) as [found|] eqn:E; [|done]. injection H as <-.
  by apply listing_of_exact.
Qed.

(** C12: What a search answers over a provider that stands still, as the workspace does
    while nobody changes its files: exactly the lines of the searched files that match,
    each at the place of its first match, in the order of the paths, lines and columns
    and without repetition; it says that text was normalized exactly when a line lost
    its carriage return, and that it is partial exactly when a file is not text. *)
Theorem searching_exact `{lib : Libraries} `{sort : UnstableSort} `{laws : !UnstableSortLaws sort}
    `{engine : RegexEngine} `{fs : SemanticFileSystem} (limits : SemanticLimits) (su : Surroundings) (internal : bool)
    resolve read walk (Hstill : stands_still su internal resolve read walk) (Hkeys : good_keys resolve walk)
    (Hmax : 0 <= sl_max_matches_per_file limits) (query : SearchQuery)
    (result : SemanticSearchResult) (st st' : Progress) (Hst : w_internal (pg_world st) = internal)
    (Hdone : services_search limits query su st = (Done result, st')) :
  search_exact limits resolve read walk query result.
Proof.
  destruct (yields_services_search limits su internal resolve read walk Hstill query st Hst) as [H _]. rewrite Hdone in H. cbn in H.
  destruct (search_of limits resolve read walk query) as [found|] eqn:E; [|done]. injection H as <-.
  by apply search_of_exact.
Qed.

(** ** The workspace *)


(** *** A small tree *)

Definition os (s : string) : OsString := str_bytes (L s).
Definition small_meta (kind : EntryKind) : FileMeta := mkFileMeta kind 3 None.

(** The root [/w] has ash's directory with a file [lock], a directory [sub] with a
    directory of the name [.ash] of its own, and a link [l] to the first. *)
Definition small_nodes : list (OsString * EntryKind * list OsString) :=
  [(os "/w", EkDirectory, [os "sub"; os ".ash"; os "l"]); (os "/w/.ash", EkDirectory, [os "lock"]);
   (os "/w/.ash/lock", EkFile, []); (os "/w/sub", EkDirectory, [os ".ash"]); (os "/w/sub/.ash", EkDirectory, []);
   (os "/w/l", EkSymlink, [])].
Definition small_node (path : OsString) : result IoKind (OsString * EntryKind * list OsString) :=
  ok_or (List.find (fun node => bool_decide (node.1.1 = path)) small_nodes) NotFound.

Definition at_node {A} (f : OsString * EntryKind * list OsString -> A) (path : OsString) : result IoKind A :=
  f <$> small_node path.

Definition small_tree : FileTree := {|
  ft_canonicalize path :=
    if bool_decide (path = os "/w/l") then Ok (os "/w/.ash")
    else if bool_decide (path = os "/w/l/lock") then Ok (os "/w/.ash/lock")
    else at_node (fun node => node.1.1) path;
  ft_metadata path := at_node (fun node => small_meta node.1.2) path;
  ft_symlink_metadata path := at_node (fun node => small_meta node.1.2) path;
  ft_read path := if bool_decide (path = os "/w/.ash/lock") then Ok [1; 2; 3] else Err OtherIo;
  ft_read_dir := at_node (fun node => Ok <$> node.2);
  ft_read_link path := if bool_decide (path = os "/w/l") then Ok (os ".ash") else Err OtherIo;
  ft_open path := if bool_decide (path = os "/w/.ash/lock") then Ok 0%nat else Err OtherIo;
  ft_read_at _ offset _ := Ok (drop (Z.to_nat offset) [1; 2; 3]);
|}.

Definition tree_surroundings : Surroundings := mkSurroundings calm_environment (fun _ => false) (fun _ => 0)
  (fun _ => Ok tt) (fun _ => true) (fun _ => true) (fun _ sh d => (sh, d))
  1 0 Store.StoreLimits_default (fun _ => Some 0) (fun _ => false) (os "/w") (fun _ _ => small_tree) (fun _ i => i).
(** The workspace's [.ash] is ash's own. *)
Definition tree_progress : Progress := mkProgress (mkWorld small_disk true 0 0) small_shared 0.

Definition walk_from (logical : str) : option (list str) :=
  match (root ← resolve_existing logical; walk (mkWalkOptions 4 true 100) root) tree_surroundings tree_progress with
  | (Done entries, _) => Some (ne_logical <$> entries)
  | _ => None
  end.

(** A read of the lock by the path that leads to it. *)
Definition read_lock := (path ← resolve_existing (L "l/lock"); read_limited_sync path 3) tree_surroundings tree_progress.

Lemma read_lock_runs : read_lock = (Done [1; 2; 3], read_lock.2)
  /\ exists st st', read_limited_sync (mkResolved (L "l/lock") (os "/w/.ash/lock")) 3 tree_surroundings st = (Done [1; 2; 3], st').
Proof. split; [vm_compute; reflexivity|]. exists tree_progress. eexists. vm_compute. reflexivity. Qed.


(** A link leads a read into ash's own directory, which no path may name. *)
Lemma reserved_by_link :
  resolve_existing (L ".ash/lock") tree_surroundings tree_progress = (Fail_ PL_ReservedPath, tree_progress)
  /\ match (path ← resolve_existing (L "l/lock"); read_limited_sync path 3) tree_surroundings tree_progress with
     | (Done b, _) => ft_read small_tree (os "/w/.ash/lock") = Ok b
     | _ => False
     end.
Proof. vm_compute. split; reflexivity. Qed.

(** A directory that is not ash's is left out of the walk of its parent only. *)
Lemma nested_state_directory_hidden :
  walk_from (L ".") = Some [L "."; L "l"; L "sub"; L "sub/.ash"] /\ walk_from (L "sub") = Some [L "sub"].
Proof. vm_compute. split; reflexivity. Qed.

(** *** A workspace at rest *)

(** The root [/w] has three files: a text, some bytes and another text. *)
Definition rest_files : list (bytes * bytes) :=
  [(os "/w/a", str_bytes (L "x" ++ [10] ++ L "key" ++ [13; 10])); (os "/w/b", [255]); (os "/w/c", str_bytes (L "a key"))].
Definition rest_content (path : OsString) : result IoKind bytes :=
  match List.find (fun f => bool_decide (f.1 = path)) rest_files with Some f => Ok f.2 | None => Err NotFound end.
Definition rest_meta (path : OsString) : result IoKind FileMeta :=
  if bool_decide (path = os "/w") then Ok (mkFileMeta EkDirectory 0 None)
  else content ← rest_content path; Ok (mkFileMeta EkFile (len content) None).
Definition rest_tree : FileTree := {|
  ft_canonicalize path := _ ← rest_meta path; Ok path;
  ft_metadata := rest_meta;
  ft_symlink_metadata := rest_meta;
  ft_read := rest_content;
  ft_read_dir path := if bool_decide (path = os "/w") then Ok [Ok (os "c"); Ok (os "a"); Ok (os "b")] else Err OtherIo;
  ft_read_link _ := Err OtherIo;
  ft_open _ := Err OtherIo;
  ft_read_at _ _ _ := Err OtherIo;
|}.

(** No expression compiles. *)
#[local] Instance toy_engine : RegexEngine := {|
  Regex := unit; regex_escape s := s; regex_build _ _ _ := None; regex_find _ _ := None;
  regex_find_iter _ _ := [] |}.

(** The workers take up the last job first. *)
Definition rest_surroundings : Surroundings := mkSurroundings calm_environment (fun _ => false) (fun _ => 0)
  (fun _ => Ok tt) (fun _ => true) (fun _ => true) (fun _ sh d => (sh, d))
  1 0 Store.StoreLimits_default (fun _ => Some 0) (fun _ => false) (os "/w") (fun _ _ => rest_tree) (fun _ i => (100 - i)%nat).

Abbreviation resolve_at_rest := (rest_resolve rest_surroundings tree_progress) (only parsing).
Abbreviation read_at_rest := (rest_read rest_surroundings tree_progress) (only parsing).
Abbreviation walk_at_rest := (rest_walk rest_surroundings tree_progress) (only parsing).

Lemma rest_still : stands_still (fs := workspace_filesystem) rest_surroundings true resolve_at_rest read_at_rest walk_at_rest.
Proof. by apply (workspace_stands_still rest_surroundings true rest_tree). Qed.

Definition rest_search : SearchQuery := mkSearchQuery (L "key") [os "."; os "a"] LiteralPattern false false.
Definition rest_found : SemanticSearchResult :=
  mkSearchResult [mkSemanticMatch (mkSemanticPath [97] [97]) 2 1 (L "key"); mkSemanticMatch (mkSemanticPath [99] [99]) 1 3 (L "a key")]
    true true.

Lemma rest_search_runs :
  services_search SemanticLimits_default rest_search rest_surroundings tree_progress
  = (Done rest_found, (services_search SemanticLimits_default rest_search rest_surroundings tree_progress).2).
Proof. vm_compute. reflexivity. Qed.

Lemma services_agree_witness :
  exists r, yields rest_surroundings true (services_search SemanticLimits_default rest_search) r
    /\ yields rest_surroundings true (search_serial SemanticLimits_default rest_search) r.
Proof.
  apply (services_agree (fs := workspace_filesystem) SemanticLimits_default rest_surroundings true
    resolve_at_rest read_at_rest walk_at_rest rest_still).
Defined.

Definition rest_list : ListQuery := mkListQuery [os "c"; os "."] 1 false FilterFiles.
Definition rest_entry (name : string) (size : Z) : SemanticEntry := mkSemanticEntry (mkSemanticPath (os name) (os name)) SkFile size None.
Definition rest_entries : list SemanticEntry := [rest_entry "a" 7; rest_entry "b" 1; rest_entry "c" 5].

Lemma rest_list_runs :
  services_list SemanticLimits_default rest_list rest_surroundings tree_progress
  = (Done rest_entries, (services_list SemanticLimits_default rest_list rest_surroundings tree_progress).2).
Proof. vm_compute. reflexivity. Qed.

Lemma listing_exact_witness : exists e, e ∈ rest_entries /\ entry_key e = os "b".
Proof.
  destruct (listing_exact (fs := workspace_filesystem) SemanticLimits_default rest_surroundings true
    resolve_at_rest read_at_rest walk_at_rest rest_still rest_list rest_entries tree_progress _ eq_refl rest_list_runs)
    as (_ & _ & H).
  apply (H (rest_entry "b" 1)). exists (os "."), (mkResolved (L ".") (os "/w")). eexists.
  split_and!; [by right; left|vm_compute; reflexivity|vm_compute; reflexivity| |reflexivity]. by right; right; left.
Defined.

Lemma searching_exact_witness :
  search_exact SemanticLimits_default resolve_at_rest read_at_rest walk_at_rest rest_search rest_found.
Proof.
  exact (searching_exact (fs := workspace_filesystem) SemanticLimits_default rest_surroundings true
    resolve_at_rest read_at_rest walk_at_rest rest_still (workspace_keys rest_surroundings tree_progress)
    ltac:(done) rest_search rest_found tree_progress _ eq_refl rest_search_runs).
Defined.

(** ** Answers *)


Definition tree_list : ListArgs := mkList [L "."] 2 0.
Lemma done_of {E A} (o : Outcome E A * Progress) :
  match o.1 with Done _ => true | _ => false end = true -> exists a st', o = (Done a, st').
Proof. destruct o as [[a|e|] st']; [|done..]. intros _. by exists a, st'. Qed.

Lemma tree_fine : fine tree_surroundings tree_progress.
Proof.
  split; [discriminate| |apply small_store_ok]. exists []. split; cbn; [done|constructor| |done].
  intros path id. cbn. rewrite lookup_empty. split; [done|]. by intros ?%elem_of_nil.
Qed.

Lemma alone_company : sound_company tree_surroundings.
Proof. intros n sh d Hsh. split; [exact Hsh|]. split; [reflexivity|done]. Qed.

