(* ===== verification/RetainedProps.v ===== *)
(** * RetainedProps: properties of snapshots and of the operations on retained results *)

From S2P Require Import Prelude Text Glob AsonModel Capability Request Response Store Capture Workspace.
From S2P Require Import Manifest Disk Mutation NativeTree Governor Budget Paths Projection.
From S2P Require Import RequestFacts ProjectionFacts WorkspaceRead Semantic ServiceFacts.
From S2P Require Import Queries SnapshotManifest Snapshot PlatformProps OpsProps ServiceProps.
From S2P Require Import Permits Runtime Transaction JournalState RollbackFacts Durable.
From S2P Require Import ApplyFacts Committing PrepareFacts Publishing Atomicity Rows Patch.
From S2P Require Import AnswerFacts PatchFacts PatchReports Reference.

#[local] Existing Instance small_libraries.
#[local] Existing Instance small_laws.

(** ** Manifests *)

(** C16: The manifest a snapshot retains and the baseline a later one reads: the decoder
    accepts exactly the encodings of well-formed manifests within the ceiling. *)
Theorem snapshot_manifest_exact (b : bytes) (m : SnapshotManifest) :
  snapshot_decode b = Ok m
  <-> manifest_ok m = true /\ snapshot_encode m = Ok b /\ len b <= MAX_SNAPSHOT_MANIFEST_BYTES.
Proof.
  split; [apply snapshot_decode_inv|]. intros (Hm & He & Hl). by apply snapshot_decode_encode.
Qed.

(** C17: The comparison of two lists of entries in the order of their paths gives, in that
    order and once for each path, exactly the entries that are gone, new, or no longer the
    same; and nothing when the lists are the same. *)
Theorem snapshot_delta_exact (before after : list SnapshotEntry)
    (Hbefore : entries_sorted before) (Hafter : entries_sorted after) :
  (forall c, c ∈ delta before after <-> changed before after c)
  /\ changes_sorted (delta before after)
  /\ (delta before after = [] <-> before = after).
Proof.
  split_and!; [intros c; by apply delta_changed|by apply delta_sorted|]. split; [by apply delta_nil|].
  intros ->. apply delta_self.
Qed.

Definition small_entry (path : str) (size : Z) : SnapshotEntry := mkSnapshotEntry path KFile size (Some (repeat 7 32)).
Definition small_before : list SnapshotEntry := [small_entry (L "a") 1; small_entry (L "b") 2; small_entry (L "d") 3].
Definition small_after : list SnapshotEntry := [small_entry (L "b") 9; small_entry (L "c") 4; small_entry (L "d") 3].

Lemma snapshot_delta_exact_witness :
  delta small_before small_after
    = [change_of ChRemoved (small_entry (L "a") 1); change_of ChModified (small_entry (L "b") 9);
       change_of ChAdded (small_entry (L "c") 4)]
  /\ changed small_before small_after (change_of ChModified (small_entry (L "b") 9)).
Proof.
  assert (entries_sorted small_before) as Hb by (apply entries_sorted_paths; reflexivity).
  assert (entries_sorted small_after) as Ha by (apply entries_sorted_paths; reflexivity).
  split; [reflexivity|]. apply (snapshot_delta_exact small_before small_after Hb Ha). right. left.
Defined.

(** ** Answers *)

(** C15: What the answer to a snapshot says is true: its entries are the names the walks
    found below the paths asked for, every one of them and no other, in order, once each and
    within the ceilings, each with the hash of what was read of it during the call; the
    changes are those entries or their difference to the baseline that was read; the answer
    shows a prefix of the changes; and when the call returns, the session's store has under
    its reference the encoding of the manifest and nothing else, unless the others have
    released it, and a later snapshot accepts it as its baseline when every name is a
    logical path. *)
Theorem snapshot_answers_true `{lib : Libraries} `{llaws : !LibraryLaws lib} `{sort : UnstableSort}
    `{laws : !UnstableSortLaws sort} (su : Surroundings) (request : Request) (a : SnapshotArgs) (st : Progress)
    (Hcompany : sound_company su) (Hfine : fine su st)
    (Hentries : sl_max_entries (su_store_limits su) < u64_max)
    (Hsizes : sizes_typed su) (Ha : args_typed a)
    (r : FinalResponse) (st' : Progress) (Hdone : snapshot_execute request a su st = (Done r, st')) :
  snapshot_true su request a st st' r.
Proof. by eapply snapshot_execute_true. Qed.

(** *** A tree with a name that is no logical path *)

Definition plain_nodes (directory : OsString) : list (OsString * EntryKind * list OsString) :=
  [(os "/w", EkDirectory, [directory; os "f"; os "l"]); (os "/w/f", EkFile, []); (os "/w/l", EkSymlink, []);
   (os "/w/" ++ directory, EkDirectory, [])].
Definition plain_node (directory path : OsString) : result IoKind (OsString * EntryKind * list OsString) :=
  ok_or (List.find (fun node => bool_decide (node.1.1 = path)) (plain_nodes directory)) NotFound.

Definition plain_tree (directory : OsString) : FileTree :=
  let at_ {A} (f : OsString * EntryKind * list OsString -> A) path := f <$> plain_node directory path in {|
  ft_canonicalize := at_ (fun node => node.1.1);
  ft_metadata := at_ (fun node => small_meta node.1.2);
  ft_symlink_metadata := at_ (fun node => small_meta node.1.2);
  ft_read _ := Ok [1; 2; 3];
  ft_read_dir := at_ (fun node => Ok <$> node.2);
  ft_read_link _ := Ok (os "f");
  ft_open _ := Ok 0%nat;
  ft_read_at _ offset _ := Ok (take 2 (drop (Z.to_nat offset) [1; 2; 3]));
|}.

Definition plain_surroundings (directory : OsString) : Surroundings := mkSurroundings calm_environment (fun _ => false) (fun _ => 0)
  (fun _ => Ok tt) (fun _ => true) (fun _ => true) (fun _ sh d => (sh, d))
  1 0 Store.StoreLimits_default (fun _ => Some 0) (fun _ => false) (os "/w") (fun _ _ => plain_tree directory) (fun _ i => i).

Definition plain_args : SnapshotArgs := mkSnapshot [L "."] 4 SnapCapture None 0.

(** The entries a capture finds, and whether its manifest is accepted as a baseline. *)
Definition capture_of (directory : OsString) : option (list (str * FileKind * Z) * bool) :=
  match (native ← snapshot_walk plain_args; snapshot_identities plain_args native)
          (plain_surroundings directory) tree_progress with
  | (Done entries, _) =>
      match snapshot_encode (mkSnapshotManifest (snapshot_scope plain_args) entries) with
      | Ok b => Some ((fun e => (sne_path e, sne_kind e, sne_size e)) <$> entries, is_ok (snapshot_decode b))
      | Err _ => None
      end
  | _ => None
  end.

(** A capture succeeds over a directory whose name has a colon, and the manifest it
    retains is no baseline. *)
Lemma capture_refused_as_baseline :
  capture_of (os "ab") = Some ([(L ".", KDirectory, 0); (L "ab", KDirectory, 0); (L "f", KFile, 3); (L "l", KSymlink, 0)], true)
  /\ capture_of (os "a:b") = Some ([(L ".", KDirectory, 0); (L "a:b", KDirectory, 0); (L "f", KFile, 3); (L "l", KSymlink, 0)], false).
Proof. vm_compute. split; reflexivity. Qed.

Lemma snapshot_answers_true_witness :
  exists r st', snapshot_execute (request_of (ASnapshot plain_args)) plain_args (plain_surroundings (os "ab")) tree_progress = (Done r, st')
    /\ snapshot_true (plain_surroundings (os "ab")) (request_of (ASnapshot plain_args)) plain_args tree_progress st' r.
Proof.
  destruct (done_of (snapshot_execute (request_of (ASnapshot plain_args)) plain_args (plain_surroundings (os "ab")) tree_progress))
    as (r & st' & Hrun); [vm_compute; reflexivity|].
  exists r, st'. split; [exact Hrun|].
  apply (snapshot_answers_true (plain_surroundings (os "ab")) (request_of (ASnapshot plain_args)) plain_args tree_progress).
  - intros n sh d Hsh. split; [exact Hsh|]. split; [reflexivity|done].
  - destruct tree_fine as [H1 H2 H3]. split; [exact H1|exact H2|exact H3].
  - reflexivity.
  - intros turn d path metadata H. apply fmap_ok in H as (node & _ & ->). change (0 <= 3 <= u64_max). split; vm_compute; discriminate.
  - repeat split; reflexivity.
  - exact Hrun.
Defined.

(** * Retained results *)

(** ** What is answered about a retained result *)

(** C18: What the answer about a retained result says is true of the bytes under the
    reference in the session's store, which are the same throughout the call: a slice is
    the range of bytes or lines that was asked for, with its hash, its length and a prefix
    of it; a search shows the first of all the matches in the range, each with its place
    and its line or the part of the line around it; a projection shows the first of the
    asked rows of the chosen columns of the retained document's table; each says when it is
    cut; and when a release is answered the store has the reference no more. *)
Theorem reference_answers_true `{lib : Libraries} `{engine : RegexEngine} `{laws : !RegexLaws engine}
    (su : Surroundings) (request : Request) (a : RefArgs) (st : Progress)
    (Hcompany : sound_company su) (Hfine : fine su st)
    (Hbytes : sl_max_bytes (su_store_limits su) <= usize_max) (Htyped : formula_typed (ref_formula a))
    (r : FinalResponse) (st' : Progress) (Hdone : reference_execute request a su st = (Done r, st')) :
  reference_true su request a st st' r.
Proof. by eapply reference_execute_true. Qed.

(** C19: A retained result that is materialized: whatever the other tasks do between the
    operation's turns, its answer is true.  Success means that the file was created with
    exactly the retained bytes where nothing was, and nothing else changed, a failure that
    nothing changed; only a demand for recovery leaves it open.  An error leaves what the
    others did, and a process that dies leaves the whole file or nothing. *)
Theorem materialize_reports_true `{lib : Libraries} `{llaws : !LibraryLaws lib} `{engine : RegexEngine}
    known archive su (request : Request) (reference : Z) (path : str) (st : Progress) :
  tells_apart known -> whole_removals (su_system su) -> good_company known archive su ->
  sound known (disk_of st) -> shared_fine archive (pg_shared st) ->
  rq_id request <> 0 -> reference <> 0 -> path_sound path -> (forall data, archive reference data -> known data) ->
  let d := disk_of st in
  match reference_execute request (mkRef reference (FMaterialize path)) su st with
  | (Done r, st') => materialize_true archive su d request reference path r (disk_of st')
  | (Fail_ _, st') => Reference.untouched su d (disk_of st')
  | (Crash, st') => Reference.untouched su d (disk_of st') \/ create_cut archive su d reference path (disk_of st')
  end.
Proof.
  intros Hinj Hw Hc Hs Hf Hid Href Hp Hk d.
  exact (materialize_execute_true known archive su Hc Hinj Hw d request reference path Hid Href Hp Hk _ st eq_refl
           (mkCalm _ _ _ _ _ (rtc_refl _ _) Hs Hf)).
Qed.

(** *** A store that holds one result *)

Definition kept_store (data : bytes) : Store.State :=
  mkState 2 (len data) 0 {[1 := mkEntry (small_hash data) (mkContent (len data) (Memory data)) 0]} {[small_hash data := 1]}.
Definition kept_progress (data : bytes) : Progress :=
  mkProgress small_world (mkShared small_budget (mkDictionary 100 1 ∅) (kept_store data) authority_start) 0.

Lemma kept_store_ok data : len data <= 1000 -> Store.state_ok small_hash StoreLimits_default (kept_store data).
Proof.
  intros Hl. split; cbn [st_next_alias st_by_alias st_by_content st_bytes st_pending_bytes kept_store].
  - split.
    + intros alias e [<- <-]%lookup_singleton_Some. split; [lia|apply lookup_singleton_eq].
    + intros id alias [<- <-]%lookup_singleton_Some. eexists. split; [apply lookup_singleton_eq|done].
    + by intros alias e [<- <-]%lookup_singleton_Some.
  - unfold entries_bytes. rewrite map_to_list_singleton. unfold zsum, entry_length. cbn [map fmap list_fmap fold_right foldr snd en_content ct_length]. lia.
  - lia.
  - unfold StoreLimits_default. cbn. lia.
  - rewrite map_size_singleton. cbn. lia.
  - split; [lia|]. vm_compute. discriminate.
Qed.

Lemma kept_paths : exists history, dict_repr history (mkDictionary 100 1 ∅).
Proof.
  exists []. split; cbn; [done|constructor| |done].
  intros path id. rewrite lookup_empty. split; [done|]. by intros ?%elem_of_nil.
Qed.

(** No expression is compiled. *)
#[local] Instance kept_engine : RegexEngine := {|
  Regex := unit; regex_escape s := s; regex_build _ _ _ := None; regex_find _ _ := None;
  regex_find_iter _ _ := [] |}.
#[local] Instance kept_engine_laws : RegexLaws kept_engine.
Proof. split. constructor. Qed.

Definition kept_text : bytes := str_bytes (L "a key" ++ [13; 10] ++ L "no" ++ [10] ++ L "key key").
Definition kept_search : RefArgs := mkRef 1 (FSearch 1 100 (L "key") 0).

Example kept_search_finds :
  match (reference_execute (request_of (ARef kept_search)) kept_search small_surroundings (kept_progress kept_text)).1 with
  | Done r => fp_data r = Some (DReference (RSearch [mkRefMatch 2 1 3 (L "a key"); mkRefMatch 10 3 1 (L "key key");
                                                     mkRefMatch 14 3 5 (L "key key")]))
  | _ => False
  end.
Proof. vm_compute. reflexivity. Qed.

Lemma reference_answers_true_witness :
  exists r st', reference_execute (request_of (ARef kept_search)) kept_search small_surroundings (kept_progress kept_text) = (Done r, st')
    /\ reference_true small_surroundings (request_of (ARef kept_search)) kept_search (kept_progress kept_text) st' r.
Proof.
  destruct (reference_execute (request_of (ARef kept_search)) kept_search small_surroundings (kept_progress kept_text))
    as [[r|e|] st'] eqn:Hrun; [|vm_compute in Hrun; discriminate..].
  exists r, st'. split; [reflexivity|].
  apply (reference_answers_true small_surroundings (request_of (ARef kept_search)) kept_search (kept_progress kept_text)).
  - intros n sh d Hsh. split; [exact Hsh|]. split; [reflexivity|done].
  - split; [discriminate|exact kept_paths|apply kept_store_ok; vm_compute; discriminate].
  - vm_compute. discriminate.
  - split; discriminate.
  - exact Hrun.
Defined.

(** The first reference is that of the one byte 5. *)
Definition kept_archive (reference : Z) (data : bytes) : Prop := reference = 1 /\ data = [5].
Definition kept_file : RefArgs := mkRef 1 (FMaterialize (L "c")).

Example kept_file_appears :
  let r := reference_execute (request_of (ARef kept_file)) kept_file small_surroundings (kept_progress [5]) in
  match r.1 with Done answer => fp_status answer = Success | _ => False end
  /\ holds_at (pg_world r.2) [L "c"] = [Contents [5]].
Proof. vm_compute. split; reflexivity. Qed.

Lemma kept_shared_fine : shared_fine kept_archive (pg_shared (kept_progress [5])).
Proof.
  split; [discriminate|exact kept_paths|]. intros r e Hr io max b Hb. unfold kept_progress, kept_store in Hr. cbn [pg_shared sh_store st_by_alias] in Hr. apply lookup_singleton_Some in Hr as [<- <-]. split; [done|].
  by apply read_all_whole in Hb as ->.
Qed.

Lemma materialize_reports_true_witness :
  match reference_execute (request_of (ARef kept_file)) kept_file small_surroundings (kept_progress [5]) with
  | (Done r, st') => materialize_true kept_archive small_surroundings small_disk (request_of (ARef kept_file)) 1 (L "c") r (disk_of st')
  | (Fail_ _, st') => Reference.untouched small_surroundings small_disk (disk_of st')
  | (Crash, st') => Reference.untouched small_surroundings small_disk (disk_of st')
                    \/ create_cut kept_archive small_surroundings small_disk 1 (L "c") (disk_of st')
  end.
Proof.
  apply (materialize_reports_true small_known kept_archive small_surroundings (request_of (ARef kept_file)) 1 (L "c") (kept_progress [5])).
  - apply small_tells_apart.
  - apply fine_whole, calm_fine.
  - by intros n sh d Hd Hsh.
  - apply small_sound.
  - apply kept_shared_fine.
  - discriminate.
  - discriminate.
  - repeat constructor.
  - intros data [_ ->]. unfold small_known. cbn. set_solver.
Defined.
