(* ===== verification/ExecProps.v ===== *)
(** * ExecProps: properties of running commands and batches *)

From S2P Require Import Prelude Text Glob AsonModel Capability Request Response Store Capture Workspace.
From S2P Require Import Manifest Disk Mutation NativeTree Governor Budget Paths Projection.
From S2P Require Import RequestFacts ProjectionFacts WorkspaceRead Semantic ServiceFacts Queries.
From S2P Require Import PlatformProps OpsProps ServiceProps RetainedProps Reference Process Streams Exec Batch.

#[local] Existing Instance small_libraries.

(** ** Streams *)

(** What a task remembers of the stream it has taken in chunk by chunk is what the whole
    stream would tell, wherever the reads cut it: it is text exactly when all of it is
    UTF-8, and it has a line that ends in CR LF exactly when it holds these two bytes in a
    row. *)
Theorem stream_text_exact (chunks : list bytes) :
  let text := foldl (fun text chunk => observe_text chunk text) StreamText_default chunks in
  is_text text = is_ok (from_utf8 (concat chunks)) /\ tx_normalized text = crlf (concat chunks).
Proof.
  intros text. pose proof (observe_chunks chunks [] StreamText_default follows_start) as H.
  split; [by apply follows_text|apply H].
Qed.

(** ** Graphs of processes *)


Definition stage (stdin stdout stderr : ProcessStdio) : NativeProcessSpec :=
  mkNativeProcessSpec (str_bytes (L "ls")) [] (str_bytes (L "/w")) [] false [] stdin stdout stderr.

(** A pipeline whose last stage is listed first and whose errors go to the parent; then one
    that is fed by its own output, and one whose pipe has two readers. *)
Example pipeline_order :
  (gr_spawn_order <$> validate_process_graph_with_parent_pipe_ends
     [stage (PsPipe 2) PsPiped (PsPipe 9); stage (PsPipe 1) (PsPipe 2) (PsPipe 2); stage PsNull (PsPipe 1) PsNull] [] [EndReader 9])
    = Ok [2; 1; 0]%nat
  /\ validate_process_graph_with_parent_pipe_ends
       [stage (PsPipe 2) (PsPipe 1) PsNull; stage (PsPipe 1) (PsPipe 2) PsNull] [] [] = Err PL_InvalidProcessGraph
  /\ validate_process_graph_with_parent_pipe_ends
       [stage PsNull (PsPipe 1) PsNull; stage (PsPipe 1) PsPiped PsNull; stage (PsPipe 1) PsPiped PsNull] [] [] = Err PL_InvalidProcessGraph.
Proof. vm_compute. split_and!; reflexivity. Qed.

(** ** Answers *)

(** C8: What the answer to a command says is true, whatever the other tasks do between the
    operation's turns.  The command that was launched is the one that was asked for, in a
    directory of the workspace, with the environment and the input that were asked for; the
    status, the error and the termination are those of its exit, of a clock that had reached
    the program's deadline while the call ran, or of a cancellation seen while it ran; each
    stream is shown as what its chunks make up or cut where the flags say so; and where
    anything of a stream is left out or changed there is a reference under which, when the
    call returns, the session's store has all of that stream and nothing else, unless the
    others have released it. *)
Theorem exec_answers_true `{lib : Libraries} `{host : ProcessHost} `{spool : SpoolWrites}
    (su : Surroundings) (request : Request) (a : ExecArgs) (st : Progress)
    (Hcompany : sound_company su) (Hfine : fine su st)
    (Hentries : sl_max_entries (su_store_limits su) < u64_max) (Hbytes : 0 <= sl_max_bytes (su_store_limits su))
    (r : FinalResponse) (st' : Progress) (Hdone : exec_execute request a su st = (Done r, st')) :
  exec_true su request a st st' r.
Proof. by eapply exec_execute_true. Qed.

(** *** A command that fails *)

(** It prints two lines in chunks that cut the end of the first, then a byte that is no text. *)
Definition toy_run : ProcessRun :=
  mkRun [(false, str_bytes (L "one" ++ [13])); (true, [255])] [(false, str_bytes ([10] ++ L "two"))]
    (fun _ => Ok tt) (Ok (ExCode 3)) (Ok tt) (fun _ => Err BrokenPipe) 7.

#[local] Instance toy_host : ProcessHost := {|
  host_open _ _ _ := Err NotFound; host_pipe _ := Ok tt; host_clone _ := Ok tt;
  host_spawn _ command := if bool_decide (cm_program command = os "ls") then Ok toy_run else Err NotFound |}.
#[local] Instance toy_spool : SpoolWrites := {| spool_append _ := IoOk |}.

Definition toy_exec : ExecArgs := mkExec (L "ls") [L "-l"] (L ".") [L "A=1"; L "-B"] (InInline (L "in")) 0.

Lemma toy_exec_run :
  match (exec_execute (request_of (AExec toy_exec)) toy_exec (plain_surroundings (os "ab")) tree_progress).1 with
  | Done r => fp_status r = SFailed
      /\ fp_data r = Some (DExec (mkProcess TkExited (Some 3) 7
                       (mkStream (Some (L "one" ++ [10] ++ L "two")) (Some 1)) (mkStream None (Some 2))))
      /\ fp_flags r = Z.lor (Z.lor RESULT_REDUCED RESULT_TRUNCATED) (Z.lor RESULT_NORMALIZED_TEXT RESULT_RETAINED)
  | _ => False
  end.
Proof. vm_compute. repeat split. Qed.

Lemma exec_answers_true_witness :
  exists r st', exec_execute (request_of (AExec toy_exec)) toy_exec (plain_surroundings (os "ab")) tree_progress = (Done r, st')
    /\ exec_true (plain_surroundings (os "ab")) (request_of (AExec toy_exec)) toy_exec tree_progress st' r.
Proof.
  destruct (done_of (exec_execute (request_of (AExec toy_exec)) toy_exec (plain_surroundings (os "ab")) tree_progress))
    as (r & st' & Hrun); [vm_compute; reflexivity|].
  exists r, st'. split; [exact Hrun|].
  apply (exec_answers_true (plain_surroundings (os "ab")) (request_of (AExec toy_exec)) toy_exec tree_progress).
  - intros n sh d Hsh. split; [exact Hsh|]. split; [reflexivity|done].
  - destruct tree_fine as [H1 H2 H3]. split; [exact H1|exact H2|exact H3].
  - reflexivity.
  - vm_compute. discriminate.
  - exact Hrun.
Defined.

(** ** Batches *)

(** C9: What the answer to a batch says is true.  It has a row for each node, in order: a node
    ran exactly when every node it depends on has succeeded, with its share of the budget
    and the program's deadline, and its row then tells the status of its own answer,
    whatever order the nodes ended in, with a reference under which, when the call returns,
    the session's store has the document of that node's answer and nothing else, unless the
    others have released it; any other node is skipped.  The batch succeeds exactly when
    every node does. *)
Theorem batch_answers_true `{lib : Libraries} `{sort : UnstableSort} `{engine : RegexEngine} `{host : ProcessHost}
    `{spool : SpoolWrites} `{children : Children} (su : Surroundings) (request : Request) (nodes : list BatchNode) (st : Progress)
    (Hcompany : sound_company su) (Hfine : fine su st)
    (Hentries : sl_max_entries (su_store_limits su) < u64_max) (Hids : NoDup (node_id <$> nodes))
    (r : FinalResponse) (st' : Progress) (Hdone : batch_execute request nodes su st = (Done r, st')) :
  batch_true su request nodes st st' r.
Proof. by eapply batch_execute_true. Qed.

(** *** A batch with a node that fails *)

#[local] Existing Instance kept_engine.
#[local] Instance toy_children : Children := {|
  child_view _ := (plain_surroundings (os "ab"), tree_progress); child_order turn := turn |}.

(** The second command is not found. *)
Definition toy_batch : list BatchNode :=
  [mkNode 1 [] (AList (mkList [L "."] 2 0)); mkNode 2 [1] (AExec (mkExec (L "no") [] (L ".") [] InNone 0));
   mkNode 3 [1; 2] (AExec toy_exec)].

Lemma toy_batch_rows :
  match (batch_execute (request_of (ABatch toy_batch)) toy_batch (plain_surroundings (os "ab")) tree_progress).1 with
  | Done r => fp_status r = SFailed
      /\ fp_data r = Some (DBatch [mkBatchResult 1 OpList BSucceeded (Some Success) (Some 1);
                                   mkBatchResult 2 OpExec BFailed (Some SNotFound) (Some 2);
                                   mkBatchResult 3 OpExec BSkipped None None])
  | _ => False
  end.
Proof. vm_compute. split; reflexivity. Qed.

Lemma batch_answers_true_witness :
  exists r st', batch_execute (request_of (ABatch toy_batch)) toy_batch (plain_surroundings (os "ab")) tree_progress = (Done r, st')
    /\ batch_true (plain_surroundings (os "ab")) (request_of (ABatch toy_batch)) toy_batch tree_progress st' r.
Proof.
  destruct (done_of (batch_execute (request_of (ABatch toy_batch)) toy_batch (plain_surroundings (os "ab")) tree_progress))
    as (r & st' & Hrun); [vm_compute; reflexivity|].
  exists r, st'. split; [exact Hrun|].
  apply (batch_answers_true (plain_surroundings (os "ab")) (request_of (ABatch toy_batch)) toy_batch tree_progress).
  - intros n sh d Hsh. split; [exact Hsh|]. split; [reflexivity|done].
  - destruct tree_fine as [H1 H2 H3]. split; [exact H1|exact H2|exact H3].
  - reflexivity.
  - apply (bool_decide_unpack _). vm_compute. exact I.
  - exact Hrun.
Defined.
